(* ===== verification/_CoqProject ===== *)
-Q . S2P
Prelude.v
Deps.v
Wire.v
Batch.v
Sink.v
Text.v
Coordinate.v
Names.v
F64.v
Evidence.v
Conditions.v
Rules.v
Verdicts.v
StatusDoc.v
Format.v
Io.v
Fs.v
Reader.v
RecReader.v
Durable.v
Touch.v
Segment.v
Shards.v
Handoff.v
Flusher.v
Recovery.v
Scan.v
Confirm.v
DeadLetter.v
Ledger.v
Control.v
Deliver.v
Account.v
Sent.v
Drain.v
Custody.v
Stop.v
Durability.v
Queue.v
Worker.v
Connection.v
System.v
Client.v
Session.v
Attest.v
Calendar.v
S3Key.v
KeyPath.v
S3.v
Archive.v
Redact.v
SqlCommon.v
SqlText.v
Mysql.v
Postgres.v
RecordIds.v
SqlTable.v
Http.v
HttpEndpoint.v
ClickHouse.v
