(* ===== verification/Prelude.v ===== *)
(** * weir: a verification development for the durable write-buffer daemon

    weir is a daemon that takes records from producers over a socket, appends them to
    segment files on local disk, acks each record once it is as durable as its tier
    promises, and later commits the sealed segments to a downstream sink. The promise this
    development is built around is the one of the README: a [Durable] ack is never a false
    ack. Everything below models the Rust sources under src/crates/.

    ** The program and its parts

    A connection decodes frames (weir-core), the router pins it to a shard, and each push
    becomes a work unit in the partition of a bounded queue. One worker per partition
    batches units by shard and sends the batches to the shard's flusher thread. The flusher
    appends the records to the shard's active segment, fsyncs once per group, resolves the
    acks, and seals full or old segments, whose paths it hands to the drain over a bounded
    channel. After a crash, startup recovery repairs the active segments that were left
    behind and a scan finds the sealed segments whose delivery is not confirmed. The drain
    reads sealed segments, commits their records to the sink in batches, writes the records
    the sink refuses for good to dead-letter files, and confirms and deletes a segment when
    all of its records are accounted for; a ledger carries what it knows of each segment
    across retries and panics, and a control block carries the operator's stops, pauses and
    requeues. The sinks are a no-op, HTTP, MySQL, PostgreSQL, ClickHouse and S3. Every
    component publishes what it knows as evidence; weir-status evaluates the evidence into
    conditions, probes and the documents shown to operators and to the public. weir-client is
    the producers' library. weir-wab holds the on-disk format with the readers that other
    tools use, and weir-attest chains sealed segments by hashes.

    ** Which file models what

    - Prelude: results, bytes, little-endian integers, slices, tactics and hint bases.
    - Deps: the third-party crates crc32fast, zstd, sha2 and crossbeam_channel as classes of
      operations and documented laws, each with an instance.
    - Wire: weir-core durability.rs, nack.rs, error.rs, version.rs, envelope.rs.
    - Batch: weir-core batch.rs. Coordinate: weir-core coordinate.rs.
    - Text: UTF-8 validity, decimal and zero-padded numbers, as the std functions the names
      use. Names: segment, sealed, confirmed and shard names (segment.rs, format.rs,
      wab/mod.rs).
    - Format: weir-wab format.rs. Reader: weir-wab lib.rs (SegmentReader,
      verify_sealed_segment). RecReader: weir-wab recovery_reader.rs.
    - Io, Fs, Durable, Touch: the environment, that is input streams, a file system with
      faults and crashes, clocks and counters, the vocabulary of what a crash keeps, and what
      an operation leaves alone.
    - Sink: weir-sink-sdk (the [Sink] trait as a class, batches, tokens, identifiers).
    - Segment: WabSegment and ShardWriter (weir-server wab/segment.rs).
    - Handoff: wab/handoff.rs. Flusher: flush_batch, timed seals, the thread loop and the
      panic supervisor (wab/mod.rs) with the work units of models.rs.
    - Recovery: wab/recovery.rs and recover (wab/mod.rs). Scan: check_confirmed,
      scan_unconfirmed_sealed and the replay (wab/recovery.rs, wab/mod.rs).
    - Confirm: drain/confirmed.rs. DeadLetter: drain/dead_letter.rs. Ledger:
      drain/ledger.rs. Control: drain/control.rs.
    - Deliver: one delivery attempt and the commit of a batch (drain/mod.rs); Account and
      Sent: its theorems. Drain: the state machine, the requeue service and the panic
      supervisor (drain/mod.rs); Custody and Stop: their theorems.
    - Attest: weir-attest (chain.rs, sidecar.rs, verify.rs).
    - Durability: flusher, crash, recovery and reader composed.
    - Shards: the registry (status/shards.rs), the router (socket/route.rs) and the size cap
      (wab/cap.rs). Queue: queue.rs. Worker: worker.rs, and queue and workers composed.
    - Connection: socket/connection.rs, with the record identifier of weir-sink-sdk.
    - System: connection, flusher, crash, recovery and reader composed.
    - F64: the binary64 values of the evidence. Evidence, Conditions, Rules, Verdicts:
      weir-status evidence.rs and segment.rs; codes.rs, condition.rs and config.rs; rules.rs
      and summary.rs; probe.rs, exit.rs and offline.rs with the theorems of the evaluator.
      StatusDoc: weir-status doc.rs and public.rs.
    - Client: weir-client client.rs. Session: the client against the connection handler.
    - Calendar, S3Key, KeyPath, S3, Archive: weir-sink-s3 time.rs; key.rs and framing.rs; the
      paths a key makes; sigv4.rs, client.rs and lib.rs; the archive in the bucket.
    - Redact: redaction and excerpts of weir-server sink/mod.rs. SqlCommon:
      sink/sql_common.rs. Mysql: sink/mysql.rs. Postgres: sink/postgres.rs. SqlText: how a
      server reads the statements. RecordIds, SqlTable: record identifiers and what the table
      holds.
    - Http: sink/http.rs and sink/noop.rs. HttpEndpoint: an endpoint that honours
      idempotency keys. ClickHouse: sink/clickhouse.rs.

    Each struct is a [Record] and each enum an [Inductive] with the source's fields and
    variants; each method is a [Definition] or [Fixpoint] that takes the state and returns
    the new one. A fallible function returns [result], with [let?] for the question mark;
    code that makes system calls is in the [io] monad of Fs ([World -> result * World]) with
    [let!]. An index out of range or a remainder by zero, where it can be reached by a
    caller's mistake, is [None]. A oneshot ack sender is the work unit that carries it, and
    what is sent is appended to a log.

    ** The environment

    A file has the bytes that reads see, a synced length, and a flag that a sync of it has
    failed; after a failed sync a later successful one proves nothing, because the kernel may
    have dropped the dirty pages. A directory has its live entries, the entries of the last
    sync and the operations since. [crash] keeps of every file at least the synced prefix,
    followed by anything at all, and of every directory the synced entries with any
    selection, in order, of the later operations. A directory that was created is itself an
    entry of its parent: until the parent is synced a crash may lose it with all it holds.
    Only the dead-letter writer syncs a parent for that reason; the shard and quarantine
    directories are never made durable by the code, so the theorems on acks assume that the
    shard directory's own name is durable when the flusher starts ([durable_dir]), those on
    the drain that the WAB directory's is, and those on quarantine copies that the quarantine
    directory's is. Every system call first takes an entry of a fault tape, so any call may
    fail or write only a part; a process killed at some point is one whose later calls all
    fail. The clocks are read from the world or from the events that drive a component, and
    are otherwise arbitrary. A device fault is never reported as a missing file. The sink is
    any instance of the class, with a state of its own; the threads that share the drain's
    control block act between two looks at it, by a script ([dr_env]) that is arbitrary. A
    ghost log ([dr_log]) records what the sink accepted and what was dead-lettered; no
    definition reads it.

    The client talks to any blocking [Transport]; in Session the transport is a link script
    in front of the connection handler. The bucket of the S3 sink and the server of the HTTP
    and ClickHouse sinks follow scripts that say for each request whether it is taken, and
    whether and how it is answered; a log keeps the requests that were taken. A SQL server is
    a class ([SqlServer]) whose laws ([SqlLaws]) are what SQL promises of the statements as
    SqlText reads them: a statement that fails changes nothing, one that times out has either
    taken effect or not, a unique key keeps its row. The theorems that speak of record
    identifiers assume that the hashed texts of one run do not collide ([no_collision]) and
    that a segment name stands for one list of records.

    ** What the theorems show

    - Durability ([System], [Durability], [Flusher], [Recovery]): for every sequence of
      batches, wake-ups, clock readings and faults, a record whose push is answered with an
      acknowledgement is read back byte for byte, at the position its coordinate names,
      after any number of crashes and recoveries, if the shard directory's own name was
      durable; every unit is answered exactly once; recovery keeps the longest run of whole
      records of a file, with a copy of the whole where more than a torn record follows it,
      and keeps every durable segment that has one file.
    - Protocol ([Connection]): an acknowledgement on the wire is backed by the flusher's
      outcome for that record, every answered frame gets one reply, the reason of a nack says
      whether the connection goes on, only admissible units reach the queue, and the counters
      of a batch add up.
    - Replay ([Scan]): the scan deletes nothing that is not confirmed and returns every
      sealed segment that has no confirmation, when the directories can be read.
    - Delivery ([Custody], [Account], [Sent], [Confirm], [DeadLetter], [Ledger]): through any
      run of the supervised drain a sealed segment is in place, in quarantine, or every one
      of its records was committed or dead-lettered; an attempt accounts for exactly the
      records between its cursors and sends them in order, each once; a segment is removed
      only behind a durable confirmation, and no other file is touched; dead letters survive
      crashes together with their directory; the ledger's counts and memory are bounded, it
      admits what the rescan would queue and nothing else, and a segment in flight in two
      panics is parked.
    - Stopping ([Stop]): past its deadline a stop ends the drain within four passes, in which
      no batch is sent and no wait of its own is served; a commit that stays pending ends at
      the deadline or at its time-out; and the supervisor ends the drain at the panic that
      spends the budget. A sink is assumed to yield: one that blocks its thread holds up the
      timers.
    - Attestation ([Attest]): a segment that verifies against the sidecar written for it
      holds the same records, up to a collision of SHA-256 between texts the chains hashed;
      the verdict is determined by the file; sidecars decode exactly from their encodings.
    - Order ([Queue], [Worker]): what a flusher is sent is a prefix of the pushes accepted
      for its shard, in order; workers never panic, lose, duplicate or reorder; the coalesce
      window is bounded.
    - Formats ([Wire], [Batch], [Coordinate], [Names], [Reader], [RecReader]): decoders
      accept exactly the encoders' image within the limits (the envelope's also the retired
      durability byte); the readers yield exactly the intact records and report how they end,
      the verifier accepts exactly the sealed images, and the forensic reader accounts for
      every byte range it skips.
    - Control ([Handoff], [Shards], [Segment], [Flusher]): the hand-off delivers once and is
      bounded during shutdown; routing is fair and tolerates races; the cap has the stated
      hysteresis; counters are fresh after the scan; the flusher's supervisor ends with the
      first run that returns and gives up exactly when eleven runs panic.
    - Status ([Verdicts], [StatusDoc], [Rules]): what an evaluation claims on partial
      evidence stands when more is learned, but for two conditions whose rules take an
      unknown for a fact; probes fail exactly on the reported conditions of their gate; the
      values in a document fit their types; the public document does not depend on text meant
      for the operator.
    - Clients ([Client], [Session]): a call that succeeds leaves the client in step with the
      daemon, a client in doubt fails every later call, and a push that returns with success
      is a record that survives every crash.
    - Sinks ([Archive], [SqlTable], [HttpEndpoint], [ClickHouse], [SqlCommon], [Redact],
      [Calendar]): what a sink answers as committed is at its destination, under its own name
      and with its own bytes, and later calls, retries and time-outs keep it there; the
      statements mean what the configuration says (the rows of the SQL sinks stay if
      [id_column] is configured and unique, which is not the default); the duplicate-key
      fallback ends and does what inserting row by row does; dates are Gregorian; secrets of
      a URL are masked.
    - Divergences: theorems exhibit behaviour that differs from the comments beside the code
      (a failed timed seal is not retried; the supervisors' back-off and number of respawns;
      recovery renames over an existing sealed file; two ways in which the startup scan
      skips a segment silently; hexadecimal heads with plus signs; a refused batch that
      poisons the client; a recoverable error on a client whose write failed; NDJSON batches
      of equal bytes that share one idempotency key; new shard and quarantine directories
      that a crash may lose; status rules that take an unknown for a fact).

    ** Fuel and bounds

    Loops over a stream have the length of the stream as fuel: a record takes at least nine
    bytes, so the readers' [2 + length] and the replay's [S length] are never exhausted, and
    their specifications are proved without a fuel hypothesis. The chunked read of the
    verifier has the number of chunks, the quarantine's search for a free name has the ten
    thousand attempts of the source, and the flusher's startup scan its four. [hand_off]
    follows the script of send outcomes, which is finite; when it is exhausted the channel
    has room. The worker, the flusher and the connection are machines driven by finite
    event lists of any length, and their theorems are invariants of all of them. The drain
    is a step function, and its theorems are about any number of steps; the loop that picks
    the next queued segment has the length of the queue as fuel. The bisection of a failed
    insert has twice the number of rows, and a LEB128 length the ten bytes of 64 bits: both
    are proved to suffice.

    ** What is not modelled

    Log lines, histograms, file modes and the mode audit, core pinning, thread spawning and
    the test hooks. Counters that the source guards with [checked_add(...).expect(...)] are
    unbounded here: the 2^64-th segment or record panics. Payloads are at most
    [MAX_PAYLOAD_HARD_CAP] bytes, as the connection enforces before it queues them
    ([Connection]). The flushers of different shards share nothing but the drain channel, so
    one of them is modelled at a time. Gauges and heartbeats of the status board, the
    listeners and TLS, the credential chain of the S3 sink (an answer of its script), the
    choice of the sink, the configuration, the admin interface, the directory lock, the
    process lifecycle and the command line tool have no definitions.

    ** Plan

    In this order: validation and reload of the configuration; the admin interface; the
    status board and the poll that fill the evidence; the directory lock; the offline
    commands of the command line tool; a theorem over several lives of the daemon (acks of
    earlier lives survive the writes of later ones, through the fresh names of [Segment]). *)

From Stdlib Require Import ZArith Lia Strings.Byte String.
From stdpp Require Import base gmap list list_numbers option.

#[global] Set Default Goal Selector "!".
#[global] Open Scope Z_scope.

(** ** Results *)

(** Rust's [Result<A, E>]. *)
Inductive result (A E : Type) : Type :=
| Ok (a : A)
| Err (e : E).
Arguments Ok {A E} _.
Arguments Err {A E} _.

Declare Scope weir_scope.
Delimit Scope weir_scope with weir.

(** [let? x := e in k] is [let x = e?; k]: an error returns early. *)
Notation "'let?' x ':=' e 'in' k" :=
  (match e with Ok x => k | Err er => Err er end)
  (at level 10, x pattern, e at level 200, k at level 200) : weir_scope.
#[global] Open Scope weir_scope.

(** [e.map_err(f)]. *)
Definition map_err {A E F} (f : E → F) (r : result A E) : result A F :=
  match r with Ok a => Ok a | Err e => Err (f e) end.

(** [Result::is_ok]. *)
Definition is_ok {A E} (r : result A E) : bool :=
  match r with Ok _ => true | Err _ => false end.

#[global] Instance result_eq_dec {A E} `{EqDecision A, EqDecision E} : EqDecision (result A E).
Proof. solve_decision. Defined.

(** ** Tactics *)

(** Case on the match or [if] that blocks the goal, respectively a hypothesis. *)
Ltac split_goal :=
  match goal with
  | |- context [match ?x with _ => _ end] => let E := fresh "E" in destruct x eqn:E
  end.
Ltac split_hyp H :=
  match type of H with
  | context [match ?x with _ => _ end] => let E := fresh "E" in destruct x eqn:E
  end.

(** Boolean comparisons on [Z] and [nat] turned into propositions. *)
Ltac b2p :=
  repeat match goal with
  | H : (_ =? _) = true |- _ => apply Z.eqb_eq in H
  | H : (_ =? _) = false |- _ => apply Z.eqb_neq in H
  | H : (_ <? _) = true |- _ => apply Z.ltb_lt in H
  | H : (_ <? _) = false |- _ => apply Z.ltb_ge in H
  | H : (_ <=? _) = true |- _ => apply Z.leb_le in H
  | H : (_ <=? _) = false |- _ => apply Z.leb_gt in H
  | H : (_ =? _)%nat = true |- _ => apply Nat.eqb_eq in H
  | H : (_ =? _)%nat = false |- _ => apply Nat.eqb_neq in H
  | H : (_ <? _)%nat = true |- _ => apply Nat.ltb_lt in H
  | H : (_ <? _)%nat = false |- _ => apply Nat.ltb_ge in H
  | H : (_ <=? _)%nat = true |- _ => apply Nat.leb_le in H
  | H : (_ <=? _)%nat = false |- _ => apply Nat.leb_gt in H
  | H : bool_decide _ = true |- _ => apply bool_decide_eq_true in H
  | H : bool_decide _ = false |- _ => apply bool_decide_eq_false in H
  | H : (_ && _) = true |- _ => apply andb_true_iff in H as [? ?]
  | H : (_ || _) = false |- _ => apply orb_false_iff in H as [? ?]
  | H : negb _ = true |- _ => apply negb_true_iff in H
  | H : negb _ = false |- _ => apply negb_false_iff in H
  end.

(** Decide a closed or arithmetically determined [if] on a comparison. *)
Ltac if_true := rewrite (proj2 (Z.leb_le _ _)) by lia.

(** ** Bytes *)

Abbreviation byte := Byte.byte.
Abbreviation bytes := (list Byte.byte).

Definition b2z (b : byte) : Z := Z.of_N (Byte.to_N b).
(** A cast to [u8]: the low eight bits. *)
Definition z2b (z : Z) : byte :=
  match Byte.of_N (Z.to_N (z mod 256)) with Some b => b | None => x00 end.

(** [b"..."]. *)
Definition bstr (s : string) : bytes := String.list_byte_of_string s.
Arguments bstr s%_string_scope.

#[global] Instance byte_eq_dec : EqDecision byte := Byte.byte_eq_dec.
#[global] Instance byte_inhabited : Inhabited byte := populate x00.

Lemma b2z_range b : 0 ≤ b2z b < 256.
Proof.
  unfold b2z. pose proof (Byte.to_N_bounded b). lia.
Qed.

Lemma z2b_b2z b : z2b (b2z b) = b.
Proof.
  unfold z2b. rewrite Z.mod_small by apply b2z_range.
  unfold b2z. rewrite N2Z.id. by rewrite Byte.of_to_N.
Qed.

Lemma b2z_z2b z : b2z (z2b z) = z mod 256.
Proof.
  unfold z2b. assert (0 ≤ z mod 256 < 256) by (apply Z.mod_pos_bound; lia).
  destruct (Byte.of_N (Z.to_N (z mod 256))) as [b|] eqn:E.
  - apply Byte.to_of_N in E. unfold b2z. rewrite E. lia.
  - apply Byte.of_N_None_iff in E. lia.
Qed.

#[global] Instance b2z_inj : Inj (=) (=) b2z.
Proof. intros a b H. by rewrite <-(z2b_b2z a), <-(z2b_b2z b), H. Qed.

#[global] Program Instance byte_countable : Countable byte :=
  inj_countable' Byte.to_N (λ n, default x00 (Byte.of_N n)) _.
Next Obligation. intros b. simpl. by rewrite Byte.of_to_N. Qed.

(** [slice.len()] as a [usize]. *)
Definition blen {A} (l : list A) : Z := Z.of_nat (length l).

Lemma blen_nonneg {A} (l : list A) : 0 ≤ blen l.
Proof. unfold blen. lia. Qed.
Lemma blen_app {A} (l k : list A) : blen (l ++ k) = blen l + blen k.
Proof. unfold blen. rewrite length_app. lia. Qed.
Lemma blen_nil {A} : blen (@nil A) = 0.
Proof. done. Qed.
Lemma blen_cons {A} (x : A) l : blen (x :: l) = 1 + blen l.
Proof. unfold blen. simpl length. lia. Qed.
Lemma blen_0 {A} (l : list A) : blen l = 0 → l = [].
Proof. destruct l; [done|]. rewrite blen_cons. pose proof (blen_nonneg l). lia. Qed.

(** [&buf[lo..hi]] for [lo <= hi <= buf.len()]. *)
Definition slice (lo hi : nat) (l : bytes) : bytes := take (hi - lo) (drop lo l).

(** [Read::read_exact] on an in-memory stream: the next [n] bytes and the rest,
    or [None] (end of stream before [n] bytes). *)
Definition read_exact (n : Z) (l : bytes) : option (bytes * bytes) :=
  if n <=? blen l then Some (take (Z.to_nat n) l, drop (Z.to_nat n) l) else None.

Lemma read_exact_app n l r : blen l = n → read_exact n (l ++ r) = Some (l, r).
Proof.
  intros <-. unfold read_exact. rewrite blen_app.
  pose proof (blen_nonneg r). rewrite (proj2 (Z.leb_le _ _)) by lia.
  unfold blen. rewrite Nat2Z.id. by rewrite take_app_length, drop_app_length.
Qed.

Lemma read_exact_Some n l a r :
  0 ≤ n → read_exact n l = Some (a, r) → l = a ++ r ∧ blen a = n.
Proof.
  intros Hn. unfold read_exact. destruct (Z.leb_spec n (blen l)) as [H|H]; [|done].
  intros [= <- <-]. rewrite take_drop. split; [done|].
  unfold blen in *. rewrite length_take. lia.
Qed.

Lemma read_exact_None n l : read_exact n l = None ↔ blen l < n.
Proof. unfold read_exact. destruct (Z.leb_spec n (blen l)); split; intros; try done; lia. Qed.

(** ** Little-endian integers *)

(** [x.to_le_bytes()] of an integer [n] bytes wide. *)
Fixpoint le_bytes (n : nat) (z : Z) : bytes :=
  match n with
  | O => []
  | S n => z2b z :: le_bytes n (z / 256)
  end.

(** [uN::from_le_bytes]. *)
Fixpoint le_val (l : bytes) : Z :=
  match l with
  | [] => 0
  | b :: l => b2z b + 256 * le_val l
  end.

(** [i64::from_le_bytes]: two's complement. *)
Definition le_val_i64 (l : bytes) : Z :=
  let v := le_val l in if v <? 2 ^ 63 then v else v - 2 ^ 64.

Definition u8_max : Z := 2 ^ 8 - 1.
Definition u16_max : Z := 2 ^ 16 - 1.
Definition u32_max : Z := 2 ^ 32 - 1.
Definition u64_max : Z := 2 ^ 64 - 1.
Definition i64_max : Z := 2 ^ 63 - 1.
(** [u64::saturating_add]. *)
Definition saturating_add_u64 (a b : Z) : Z := Z.min (a + b) u64_max.
Definition saturating_mul_u64 (a b : Z) : Z := Z.min (a * b) u64_max.

Definition is_u8 (z : Z) : Prop := 0 ≤ z < 2 ^ 8.
Definition is_u16 (z : Z) : Prop := 0 ≤ z < 2 ^ 16.
Definition is_u32 (z : Z) : Prop := 0 ≤ z < 2 ^ 32.
Definition is_u64 (z : Z) : Prop := 0 ≤ z < 2 ^ 64.
Definition is_i64 (z : Z) : Prop := - 2 ^ 63 ≤ z < 2 ^ 63.

Lemma length_le_bytes n z : length (le_bytes n z) = n.
Proof. revert z. induction n as [|n IH]; intros z; simpl; [done|]. by rewrite IH. Qed.

Lemma blen_le_bytes n z : blen (le_bytes n z) = Z.of_nat n.
Proof. unfold blen. by rewrite length_le_bytes. Qed.

Lemma le_val_le_bytes_mod n z : le_val (le_bytes n z) = z mod 256 ^ Z.of_nat n.
Proof.
  revert z. induction n as [|n IH]; intros z; cbn [le_bytes le_val].
  - by rewrite Z.mod_1_r.
  - rewrite IH, b2z_z2b. rewrite Nat2Z.inj_succ, Z.pow_succ_r by lia.
    rewrite Z.rem_mul_r by lia. lia.
Qed.

Lemma le_val_range l : 0 ≤ le_val l < 256 ^ blen l.
Proof.
  induction l as [|b l IH]; cbn [le_val]; [by vm_compute|].
  rewrite blen_cons, Z.pow_add_r by (pose proof (blen_nonneg l); lia).
  pose proof (b2z_range b). lia.
Qed.

Lemma le_val_le_bytes n z : 0 ≤ z < 256 ^ Z.of_nat n → le_val (le_bytes n z) = z.
Proof. intros H. rewrite le_val_le_bytes_mod. by apply Z.mod_small. Qed.

Lemma le_bytes_le_val l : le_bytes (length l) (le_val l) = l.
Proof.
  induction l as [|b l IH]; cbn [le_val le_bytes length]; [done|].
  pose proof (b2z_range b). f_equal.
  - apply (inj b2z). rewrite b2z_z2b. rewrite Z.mul_comm, Z_mod_plus_full.
    apply Z.mod_small; lia.
  - rewrite Z.mul_comm, Z_div_plus_full by lia.
    by rewrite Z.div_small, Z.add_0_l by lia.
Qed.

Lemma le_bytes_le_val' n l : length l = n → le_bytes n (le_val l) = l.
Proof. intros <-. apply le_bytes_le_val. Qed.

Lemma le_val_inj l k : length l = length k → le_val l = le_val k → l = k.
Proof. intros Hl Hv. by rewrite <-(le_bytes_le_val l), <-(le_bytes_le_val k), Hl, Hv. Qed.

Lemma le_val_u32 l : length l = 4%nat → is_u32 (le_val l).
Proof. intros H. pose proof (le_val_range l). unfold blen in *. rewrite H in *. exact H0. Qed.

Lemma le_val_i64_range l : length l = 8%nat → is_i64 (le_val_i64 l).
Proof.
  intros Hl. unfold is_i64, le_val_i64. pose proof (le_val_range l) as Hr. unfold blen in Hr. rewrite Hl in Hr.
  change (256 ^ Z.of_nat 8) with (2 ^ 64) in Hr. cbv zeta. destruct (Z.ltb_spec (le_val l) (2 ^ 63)); lia.
Qed.

Lemma le_val_i64_le_bytes z : is_i64 z → le_val_i64 (le_bytes 8 z) = z.
Proof.
  unfold is_i64, le_val_i64. intros H. rewrite le_val_le_bytes_mod.
  change (256 ^ Z.of_nat 8) with (2 ^ 64).
  destruct (Z.ltb_spec (z mod 2 ^ 64) (2 ^ 63)) as [Hlt|Hge].
  - destruct (decide (0 ≤ z)); [by rewrite Z.mod_small by lia|].
    rewrite <-(Z_mod_plus_full z 1), Z.mod_small in Hlt by lia. lia.
  - destruct (decide (0 ≤ z)).
    + rewrite Z.mod_small in Hge by lia. lia.
    + rewrite <-(Z_mod_plus_full z 1), Z.mod_small by lia. lia.
Qed.

(** Eight bytes read as an [i64] and written again. *)
Lemma le_bytes_mod n z : le_bytes n (z mod 256 ^ Z.of_nat n) = le_bytes n z.
Proof.
  apply le_val_inj; [by rewrite !length_le_bytes|]. rewrite !le_val_le_bytes_mod. apply Z.mod_mod.
  apply Z.pow_nonzero; lia.
Qed.

Lemma le_bytes_le_val_i64 l : length l = 8%nat → le_bytes 8 (le_val_i64 l) = l.
Proof.
  intros H. unfold le_val_i64. destruct (_ <? _); [by apply le_bytes_le_val'|].
  rewrite <-le_bytes_mod. change (256 ^ Z.of_nat 8) with (2 ^ 64).
  replace (le_val l - 2 ^ 64) with (le_val l + (-1) * 2 ^ 64) by lia. rewrite Z_mod_plus_full.
  change (2 ^ 64) with (256 ^ Z.of_nat 8). rewrite le_bytes_mod. by apply le_bytes_le_val'.
Qed.

Arguments le_val : simpl never.
Arguments le_bytes : simpl never.

(** ** Slices of concatenations *)

Lemma slice_app_r (n m : nat) (l r : bytes) :
  (length l ≤ n)%nat → slice n m (l ++ r) = slice (n - length l)%nat (m - length l)%nat r.
Proof.
  intros H. unfold slice. rewrite drop_app_ge by done. f_equal. lia.
Qed.

Lemma slice_app_l (n m : nat) (l r : bytes) : (m ≤ length l)%nat → slice n m (l ++ r) = slice n m l.
Proof.
  intros H. unfold slice. destruct (decide (n ≤ length l)%nat) as [Hn|Hn].
  - rewrite drop_app_le by done. rewrite take_app_le; [done|]. rewrite length_drop. lia.
  - replace (m - n)%nat with 0%nat by lia. by rewrite !take_0.
Qed.

Lemma slice_all (l : bytes) : slice 0 (length l) l = l.
Proof. unfold slice. rewrite drop_0, Nat.sub_0_r. by rewrite firstn_all. Qed.

Lemma length_slice (n m : nat) (l : bytes) :
  (n ≤ m)%nat → (m ≤ length l)%nat → length (slice n m l) = (m - n)%nat.
Proof. intros. unfold slice. rewrite length_take, length_drop. lia. Qed.

Lemma lookup_total_app_l (l r : bytes) (i : nat) : (i < length l)%nat → (l ++ r) !!! i = l !!! i.
Proof. intros H. by rewrite !list_lookup_total_alt, lookup_app_l by done. Qed.

Lemma slice_split (l : bytes) (n m : nat) :
  (n ≤ m)%nat → (m ≤ length l)%nat → slice 0 n l ++ slice n m l = slice 0 m l.
Proof.
  intros. unfold slice. rewrite drop_0, !Nat.sub_0_r.
  rewrite <-(take_drop n (take m l)). rewrite take_take. f_equal; [f_equal; lia|].
  by rewrite skipn_firstn_comm.
Qed.

Lemma slice_drop (l : bytes) n : slice n (length l) l = drop n l.
Proof. unfold slice. apply take_ge. by rewrite length_drop. Qed.

(** A buffer written as [p1 ++ p2 ++ ... ++ pk] is sliced piece by piece: the two
    lemmas above with the lengths of the pieces, as one rewriting tactic. *)
Create HintDb weir.
Create Rewrite HintDb weir_len.
#[export] Hint Rewrite @length_app @length_cons @length_nil length_le_bytes @length_replicate
  @length_take @length_drop : weir_len.
#[export] Hint Rewrite @blen_app @blen_cons @blen_nil blen_le_bytes : weir_len.

Ltac len_solve := autorewrite with weir_len in *; simpl in *; lia.

(** Evaluate [slice lo hi (p ++ rest)] when [p] is a piece of known length. *)
Ltac slice_step :=
  first
    [ rewrite slice_app_r by len_solve
    | rewrite slice_app_l by len_solve ];
  autorewrite with weir_len; simpl Nat.sub.
