(* ===== verification/Deps.v ===== *)
(** * Third-party code as interfaces

    The crates the sources call and do not contain: [crc32fast] (every checksum of
    the wire, segment and sidecar formats), [zstd] (compressed segments), [sha2]
    (record identifiers) and [crossbeam_channel] (the work queue). Each is a class of
    operations that the definitions take as a parameter and a class of documented laws
    that the theorems assume. Each class has an instance, so that no theorem is about an unsatisfiable
    interface: the IEEE CRC-32 for [crc32fast], a one-frame container for [zstd], a
    truncation for [sha2] and a list with a capacity for the channels. *)

From Stdlib Require Import ZArith Lia Strings.Byte String.
From stdpp Require Import base list option.
From S2P Require Import Prelude.

(** ** crc32fast *)

(** [crc32fast::hash] and the streaming [crc32fast::Hasher]. *)
Class Crc32 := {
  crc32_hash : bytes → Z;
  hasher : Type;
  hasher_new : hasher;
  hasher_update : hasher → bytes → hasher;
  hasher_finalize : hasher → Z;
}.

(** A hash is a [u32]; hashing a stream chunk by chunk gives the hash of the whole. *)
Class Crc32Laws `{Crc32} : Prop := {
  crc32_range (l : bytes) : is_u32 (crc32_hash l);
  hasher_spec (chunks : list bytes) :
    hasher_finalize (foldl hasher_update hasher_new chunks) = crc32_hash (concat chunks);
}.

(** ** zstd *)

(** [zstd::bulk::compress(data, level)] and [zstd::bulk::decompress(data, capacity)];
    [None] is an error of the library. *)
Class Zstd := {
  zstd_compress : Z → bytes → option bytes;
  zstd_decompress : bytes → Z → option bytes;
}.

(** What [compress] produces decompresses to its input when the capacity admits it, is
    no larger than the format's worst case, and [decompress] respects its capacity. *)
Class ZstdLaws `{Zstd} : Prop := {
  zstd_roundtrip level p s cap :
    zstd_compress level p = Some s → blen p ≤ cap → zstd_decompress s cap = Some p;
  zstd_bound level p s : zstd_compress level p = Some s → blen s ≤ blen p + blen p / 255 + 16;
  zstd_capacity s cap p : zstd_decompress s cap = Some p → blen p ≤ cap;
}.

(** ** Streaming hashes *)

Section Hasher.
Context `{Crc32Laws}.

(** [h] is a hasher that has been fed exactly the bytes [l]. *)
Definition fed (h : hasher) (l : bytes) : Prop :=
  ∃ chunks, h = foldl hasher_update hasher_new chunks ∧ concat chunks = l.

Lemma fed_new : fed hasher_new [].
Proof. by exists []. Qed.

Lemma fed_update h l k : fed h l → fed (hasher_update h k) (l ++ k).
Proof.
  intros (cs & -> & <-). exists (cs ++ [k]). split.
  - by rewrite foldl_app.
  - rewrite concat_app. simpl. by rewrite app_nil_r.
Qed.

Lemma fed_finalize h l : fed h l → hasher_finalize h = crc32_hash l.
Proof. intros (cs & -> & <-). apply hasher_spec. Qed.
End Hasher.

#[export] Hint Resolve fed_new fed_update : weir.

(** ** sha2 *)

(** [Sha256]: the digest of everything the hasher was fed. *)
Class Sha256 := { sha256 : bytes → bytes }.
Class Sha256Laws `{Sha256} := { sha256_length l : length (sha256 l) = 32%nat }.

(** ** crossbeam_channel *)

(** A bounded channel as its two ends see it. [send_timeout] acts on the channel as it is
    when the call returns; a failed send gives the value back. *)
Class Channels := {
  chan : Type → Type;
  bounded {T} : nat → chan T;
  chan_len {T} : chan T → nat;
  try_send {T} : chan T → T → result (chan T) T;
  send_timeout {T} : Z → chan T → T → result (chan T) T;
  try_recv {T} : chan T → option (T * chan T);
}.

(** A channel is a FIFO; a send succeeds only while it has room. *)
Class ChannelLaws `{Channels} := {
  contents {T} : chan T → list T;
  capacity {T} : chan T → nat;
  bounded_spec {T} n : contents (bounded (T := T) n) = [] ∧ capacity (bounded (T := T) n) = n;
  chan_len_spec {T} (c : chan T) : chan_len c = length (contents c);
  try_send_Ok {T} (c c' : chan T) x :
    try_send c x = Ok c' →
    contents c' = contents c ++ [x] ∧ capacity c' = capacity c ∧ (length (contents c) < capacity c)%nat;
  try_send_Err {T} (c : chan T) x y : try_send c x = Err y → y = x;
  send_timeout_Ok {T} d (c c' : chan T) x :
    send_timeout d c x = Ok c' →
    contents c' = contents c ++ [x] ∧ capacity c' = capacity c ∧ (length (contents c) < capacity c)%nat;
  send_timeout_Err {T} d (c : chan T) x y : send_timeout d c x = Err y → y = x;
  try_recv_Some {T} (c c' : chan T) x :
    try_recv c = Some (x, c') → contents c = x :: contents c' ∧ capacity c' = capacity c;
  try_recv_None {T} (c : chan T) : try_recv c = None → contents c = [];
}.

(** ** Instances *)

Module Crc32Ieee.
(** One bit of the reflected polynomial division. *)
Definition crc_bit (c : Z) : Z :=
  let c' := Z.shiftr c 1 in if Z.testbit c 0 then Z.lxor c' 0xEDB88320 else c'.

Definition crc_byte (c : Z) (b : byte) : Z :=
  Nat.iter 8 crc_bit (Z.lxor c (b2z b)).

Definition crc_update (c : Z) (l : bytes) : Z := foldl crc_byte c l.

Definition crc_finish (c : Z) : Z := Z.lxor c 0xFFFFFFFF mod 2 ^ 32.

#[export] Instance ieee : Crc32 := {|
  crc32_hash l := crc_finish (crc_update 0xFFFFFFFF l);
  hasher := Z;
  hasher_new := 0xFFFFFFFF;
  hasher_update := crc_update;
  hasher_finalize := crc_finish;
|}.

#[export] Instance ieee_laws : Crc32Laws.
Proof.
  constructor.
  - intros l. unfold is_u32. apply Z.mod_pos_bound. lia.
  - intros chunks. simpl. f_equal.
    generalize 0xFFFFFFFF. induction chunks as [|k cs IH]; intros c; simpl; [done|].
    rewrite IH. unfold crc_update. by rewrite foldl_app.
Qed.

(** The check value of the algorithm: CRC-32 of the nine ASCII digits. *)
Example ieee_check_value : crc32_hash (bstr "123456789") = 0xCBF43926.
Proof. vm_compute. reflexivity. Qed.
End Crc32Ieee.

Module ZstdRaw.
(** A container that stores the input behind a four-byte frame magic. *)
Definition frame_magic : bytes := [x28; xb5; x2f; xfd].

#[export] Instance raw : Zstd := {|
  zstd_compress level p := Some (frame_magic ++ p);
  zstd_decompress s cap :=
    match s with
    | x28 :: xb5 :: x2f :: xfd :: p => if blen p <=? cap then Some p else None
    | _ => None
    end;
|}.

#[export] Instance raw_laws : ZstdLaws.
Proof.
  constructor.
  - intros level p s cap [= <-] Hcap. simpl. by rewrite (proj2 (Z.leb_le _ _)).
  - intros level p s [= <-]. rewrite !blen_cons.
    pose proof (Z.div_pos (blen p) 255). pose proof (blen_nonneg p). lia.
  - intros s cap p H. simpl in H. repeat (split_hyp H; try done). simplify_eq. b2p. lia.
Qed.
End ZstdRaw.

Module ShaPrefix.
(** The first 32 bytes, padded: of the hash only the length is relied upon. *)
#[export] Instance prefix : Sha256 := {| sha256 l := take 32 (l ++ replicate 32 x00) |}.
#[export] Instance prefix_laws : Sha256Laws.
Proof. constructor. intros l. unfold sha256, prefix. rewrite length_take, length_app, length_replicate. lia. Qed.
End ShaPrefix.

Module ListChannel.
(** The values in the channel, oldest first, and how many it may hold. *)
Definition send {T} (c : list T * nat) (x : T) : result (list T * nat) T :=
  let '(l, n) := c in if (length l <? n)%nat then Ok (l ++ [x], n) else Err x.

#[export] Instance list_channel : Channels := {|
  chan T := (list T * nat)%type;
  bounded T n := ([], n);
  chan_len T c := length (fst c);
  try_send T := send;
  send_timeout T _ := send;
  try_recv T c := match c with (x :: l, n) => Some (x, (l, n)) | ([], _) => None end;
|}.

Lemma send_Ok {T} (c c' : list T * nat) x :
  send c x = Ok c' → c'.1 = c.1 ++ [x] ∧ c'.2 = c.2 ∧ (length c.1 < c.2)%nat.
Proof.
  destruct c as [l n]. unfold send. destruct (Nat.ltb_spec (length l) n); [|done]. by intros [= <-].
Qed.
Lemma send_Err {T} (c : list T * nat) x y : send c x = Err y → y = x.
Proof. destruct c as [l n]. unfold send. destruct (_ <? _)%nat; [done|]. by intros [= <-]. Qed.

#[export] Program Instance list_channel_laws : ChannelLaws := {|
  contents T c := fst c;
  capacity T c := snd c;
|}.
Next Obligation. done. Qed.
Next Obligation. done. Qed.
Next Obligation. intros T c c' x H. by apply send_Ok. Qed.
Next Obligation. intros T c x y H. by apply send_Err in H. Qed.
Next Obligation. intros T d c c' x H. by apply send_Ok. Qed.
Next Obligation. intros T d c x y H. by apply send_Err in H. Qed.
Next Obligation. intros T [[|y l] n] c' x H; [done|]. by injection H as -> <-. Qed.
Next Obligation. by intros T [[|y l] n] H. Qed.
End ListChannel.
