(* ===== verification/Wire.v ===== *)
(** * The wire frame (weir-core)

    [Durability], [MessageType], [NackReason] and [DecodeError] with their byte
    mappings, the 16-byte [Header] and the [Envelope] (header, payload, payload CRC)
    with their codecs, from crates/weir-core/src/{durability,nack,error,version,
    envelope}.rs. The theorems are the round trips in both directions, the exactness of
    the framing and the behaviour of every rejecting branch. *)

From Stdlib Require Import ZArith Lia Strings.Byte String.
From stdpp Require Import base list option.
From S2P Require Import Prelude Deps.

(** ** Constants *)

Definition WIRE_VERSION : byte := x01.
Definition MAX_PAYLOAD_HARD_CAP : Z := 16 * 1024 * 1024.
Definition MAGIC : bytes := bstr "WEIR".
Definition HEADER_LEN : Z := 16.
Definition HEADER_CRC_COVERAGE : Z := 12.
Definition MIN_FRAME_LEN : Z := HEADER_LEN + 4.

(** ** Durability tiers *)

Inductive Durability := Durable | Buffered.

#[global] Instance durability_eq_dec : EqDecision Durability.
Proof. solve_decision. Defined.

Definition durability_to_u8 (d : Durability) : byte :=
  match d with Durable => x01 | Buffered => x03 end.

(** The error carries the unknown byte. [0x02] is the retired third tier. *)
Definition durability_try_from (v : byte) : result Durability byte :=
  match v with
  | x01 | x02 => Ok Durable
  | x03 => Ok Buffered
  | v => Err v
  end.

(** The [tier] label of the record counters. *)
Definition durability_display (d : Durability) : string :=
  match d with Durable => "durable" | Buffered => "buffered" end.

(** ** Message types *)

Inductive MessageType :=
| Push | Ack | Nack | HealthCheck | HealthCheckResponse
| PushTracked | AckTracked | PushBatch | AckBatch.

#[global] Instance message_type_eq_dec : EqDecision MessageType.
Proof. solve_decision. Defined.

Definition message_type_to_u8 (m : MessageType) : byte :=
  match m with
  | Push => x01 | Ack => x02 | Nack => x03
  | HealthCheck => x04 | HealthCheckResponse => x05
  | PushTracked => x06 | AckTracked => x07
  | PushBatch => x08 | AckBatch => x09
  end.

Definition message_type_try_from (v : byte) : result MessageType byte :=
  match v with
  | x01 => Ok Push
  | x02 => Ok Ack
  | x03 => Ok Nack
  | x04 => Ok HealthCheck
  | x05 => Ok HealthCheckResponse
  | x06 => Ok PushTracked
  | x07 => Ok AckTracked
  | x08 => Ok PushBatch
  | x09 => Ok AckBatch
  | v => Err v
  end.

(** ** Nack reasons *)

Inductive NackReason :=
| NBadMagic | NVersionMismatch | NBadHeaderCrc | NPayloadTooLarge | NBadPayloadCrc
| NInternalError | NEmptyPayload | NUnknownMessage | NReservedFlagsSet | NBadBatchFraming.

#[global] Instance nack_reason_eq_dec : EqDecision NackReason.
Proof. solve_decision. Defined.

Definition nack_to_u8 (r : NackReason) : byte :=
  match r with
  | NBadMagic => x01 | NVersionMismatch => x02 | NBadHeaderCrc => x03
  | NPayloadTooLarge => x04 | NBadPayloadCrc => x05 | NInternalError => x06
  | NEmptyPayload => x07 | NUnknownMessage => x08 | NReservedFlagsSet => x09
  | NBadBatchFraming => x0b
  end.

Definition nack_try_from (v : byte) : result NackReason byte :=
  match v with
  | x01 => Ok NBadMagic
  | x02 => Ok NVersionMismatch
  | x03 => Ok NBadHeaderCrc
  | x04 => Ok NPayloadTooLarge
  | x05 => Ok NBadPayloadCrc
  | x06 => Ok NInternalError
  | x07 => Ok NEmptyPayload
  | x08 => Ok NUnknownMessage
  | x09 => Ok NReservedFlagsSet
  | x0b => Ok NBadBatchFraming
  | v => Err v
  end.

Definition as_metric_label (r : NackReason) : string :=
  match r with
  | NBadMagic => "bad_magic"
  | NVersionMismatch => "version_mismatch"
  | NBadHeaderCrc => "bad_header_crc"
  | NPayloadTooLarge => "payload_too_large"
  | NBadPayloadCrc => "bad_payload_crc"
  | NInternalError => "internal_error"
  | NEmptyPayload => "empty_payload"
  | NUnknownMessage => "unknown_message"
  | NReservedFlagsSet => "reserved_flags_set"
  | NBadBatchFraming => "bad_batch_framing"
  end.

Definition from_metric_label (s : string) : option NackReason :=
  if String.eqb s "bad_magic" then Some NBadMagic
  else if String.eqb s "version_mismatch" then Some NVersionMismatch
  else if String.eqb s "bad_header_crc" then Some NBadHeaderCrc
  else if String.eqb s "payload_too_large" then Some NPayloadTooLarge
  else if String.eqb s "bad_payload_crc" then Some NBadPayloadCrc
  else if String.eqb s "internal_error" then Some NInternalError
  else if String.eqb s "empty_payload" then Some NEmptyPayload
  else if String.eqb s "unknown_message" then Some NUnknownMessage
  else if String.eqb s "reserved_flags_set" then Some NReservedFlagsSet
  else if String.eqb s "bad_batch_framing" then Some NBadBatchFraming
  else None.

(** ** Decode errors *)

Inductive DecodeError :=
| BadMagic
| VersionMismatch (supported received : byte)
| UnknownMessageType (v : byte)
| UnknownDurability (v : byte)
| HeaderCrcMismatch (expected computed : Z)
| PayloadCrcMismatch (expected computed : Z)
| TruncatedFrame
| PayloadTooLarge (len cap : Z)
| ReservedFlagsSet (flags : byte)
| TrailingBytes (extra : Z).

#[global] Instance decode_error_eq_dec : EqDecision DecodeError.
Proof. solve_decision. Defined.

(** ** Header and envelope *)

Record Header := mkHeader {
  h_version : byte;
  h_message_type : MessageType;
  h_durability : Durability;
  h_flags : byte;
  h_payload_len : Z;
}.

#[global] Instance header_eq_dec : EqDecision Header.
Proof. solve_decision. Defined.

(** [Header::new]. *)
Definition header_new (mt : MessageType) (d : Durability) (flags : byte) : Header :=
  mkHeader WIRE_VERSION mt d flags 0.

Record Envelope := mkEnvelope { e_header : Header; e_payload : bytes }.

#[global] Instance envelope_eq_dec : EqDecision Envelope.
Proof. solve_decision. Defined.

(** [Envelope::new]: the payload is the source of truth for [payload_len], saturating at
    [u32::MAX]. *)
Definition envelope_new (h : Header) (payload : bytes) : Envelope :=
  let payload_len := if blen payload <=? u32_max then blen payload else u32_max in
  mkEnvelope
    (mkHeader (h_version h) (h_message_type h) (h_durability h) (h_flags h) payload_len)
    payload.

Section Codec.
Context {CRC : Crc32}.

(** Bytes [0..12] of the header: what its CRC covers. *)
Definition header_prefix (h : Header) : bytes :=
  MAGIC ++ [h_version h; message_type_to_u8 (h_message_type h);
            durability_to_u8 (h_durability h); h_flags h]
        ++ le_bytes 4 (h_payload_len h).

(** [Header::encode]. *)
Definition header_encode (h : Header) : bytes :=
  let buf := header_prefix h in
  buf ++ le_bytes 4 (crc32_hash buf).

(** [Header::decode] on a 16-byte buffer: magic, version, CRC, then the typed fields. *)
Definition header_decode (buf : bytes) : result Header DecodeError :=
  if negb (bool_decide (slice 0 4 buf = MAGIC)) then Err BadMagic else
  let version := buf !!! 4%nat in
  if negb (bool_decide (version = WIRE_VERSION)) then
    Err (VersionMismatch WIRE_VERSION version) else
  let expected_crc := le_val (slice 12 16 buf) in
  let computed_crc := crc32_hash (slice 0 12 buf) in
  if negb (expected_crc =? computed_crc) then
    Err (HeaderCrcMismatch expected_crc computed_crc) else
  let? message_type := map_err UnknownMessageType (message_type_try_from (buf !!! 5%nat)) in
  let? durability := map_err UnknownDurability (durability_try_from (buf !!! 6%nat)) in
  let flags := buf !!! 7%nat in
  if negb (bool_decide (flags = x00)) then Err (ReservedFlagsSet flags) else
  Ok (mkHeader version message_type durability flags (le_val (slice 8 12 buf))).

(** [Envelope::encode]. *)
Definition envelope_encode (e : Envelope) : bytes :=
  header_encode (e_header e) ++ e_payload e ++ le_bytes 4 (crc32_hash (e_payload e)).

(** [Envelope::decode]: the buffer must be exactly one frame. *)
Definition envelope_decode (buf : bytes) : result Envelope DecodeError :=
  if blen buf <? HEADER_LEN then Err TruncatedFrame else
  let? header := header_decode (slice 0 16 buf) in
  let payload_len := h_payload_len header in
  if MAX_PAYLOAD_HARD_CAP <? payload_len then
    Err (PayloadTooLarge payload_len MAX_PAYLOAD_HARD_CAP) else
  let frame_len := HEADER_LEN + payload_len + 4 in
  if blen buf <? frame_len then Err TruncatedFrame else
  if frame_len <? blen buf then Err (TrailingBytes (blen buf - frame_len)) else
  let n := Z.to_nat payload_len in
  let payload := slice 16 (16 + n) buf in
  let expected_crc := le_val (slice (16 + n) (16 + n + 4) buf) in
  let computed_crc := crc32_hash payload in
  if negb (expected_crc =? computed_crc) then
    Err (PayloadCrcMismatch expected_crc computed_crc) else
  Ok (mkEnvelope header payload).
End Codec.

(** ** Byte mappings *)

Lemma durability_roundtrip d : durability_try_from (durability_to_u8 d) = Ok d.
Proof. by destruct d. Qed.

Lemma message_type_roundtrip m : message_type_try_from (message_type_to_u8 m) = Ok m.
Proof. by destruct m. Qed.

(** A byte that decodes to a tier is that tier's canonical byte, or the retired [0x02]. *)
Lemma durability_try_from_canonical v d :
  durability_try_from v = Ok d → durability_to_u8 d = v ∨ (v = x02 ∧ d = Durable).
Proof. destruct v; simpl; intros [= <-]; auto. Qed.

Lemma message_type_try_from_canonical v m :
  message_type_try_from v = Ok m → message_type_to_u8 m = v.
Proof. destruct v; simpl; by intros [= <-]. Qed.

(** ** Header codec *)

(** What [Header::new] and [Header::decode] can produce. *)
Record header_wf (h : Header) : Prop := {
  hwf_version : h_version h = WIRE_VERSION;
  hwf_flags : h_flags h = x00;
  hwf_len : is_u32 (h_payload_len h);
}.

Lemma list_16 {A} (l : list A) : length l = 16%nat →
  ∃ a0 a1 a2 a3 a4 a5 a6 a7 a8 a9 a10 a11 a12 a13 a14 a15,
    l = [a0; a1; a2; a3; a4; a5; a6; a7; a8; a9; a10; a11; a12; a13; a14; a15].
Proof.
  intros Hl. do 16 (destruct l as [|? l]; [done|]). destruct l; [|done]. by repeat eexists.
Qed.

Section CodecFacts.
Context {CRC : Crc32} {CL : Crc32Laws}.

Lemma length_header_encode h : length (header_encode h) = 16%nat.
Proof. reflexivity. Qed.

Lemma header_encode_fields h :
  slice 0 12 (header_encode h) = header_prefix h ∧
  slice 0 4 (header_encode h) = MAGIC ∧
  header_encode h !!! 4%nat = h_version h ∧
  header_encode h !!! 5%nat = message_type_to_u8 (h_message_type h) ∧
  header_encode h !!! 6%nat = durability_to_u8 (h_durability h) ∧
  header_encode h !!! 7%nat = h_flags h ∧
  slice 8 12 (header_encode h) = le_bytes 4 (h_payload_len h) ∧
  slice 12 16 (header_encode h) = le_bytes 4 (crc32_hash (header_prefix h)).
Proof. repeat split. Qed.

Lemma le_val_crc l : le_val (le_bytes 4 (crc32_hash l)) = crc32_hash l.
Proof. apply le_val_le_bytes. pose proof (crc32_range l). exact H. Qed.

(** Decoding the encoding of any header: only the version and the reserved flags can
    make it fail, in that order. *)
Lemma header_decode_encode h :
  is_u32 (h_payload_len h) →
  header_decode (header_encode h) =
    if negb (bool_decide (h_version h = WIRE_VERSION)) then
      Err (VersionMismatch WIRE_VERSION (h_version h))
    else if negb (bool_decide (h_flags h = x00)) then Err (ReservedFlagsSet (h_flags h))
    else Ok h.
Proof.
  intros Hlen. destruct (header_encode_fields h) as (E12 & E4 & E5 & E6 & E7 & E8 & E9 & E16).
  unfold header_decode. rewrite E12, E4, E5, E6, E7, E8, E9, E16, le_val_crc, Z.eqb_refl.
  rewrite message_type_roundtrip, durability_roundtrip.
  rewrite le_val_le_bytes by exact Hlen.
  rewrite bool_decide_eq_true_2 by done. simpl.
  by destruct h.
Qed.

(** The bytes of a header whose durability byte is [tier]. *)
Definition header_bytes (tier : byte) (h : Header) : bytes :=
  let covered := MAGIC ++ [h_version h; message_type_to_u8 (h_message_type h); tier; h_flags h]
                       ++ le_bytes 4 (h_payload_len h) in
  covered ++ le_bytes 4 (crc32_hash covered).

(** The byte of a tier, or the retired third tier for [Durable]. *)
Definition names_tier (tier : byte) (d : Durability) : Prop := tier = durability_to_u8 d ∨ tier = x02 ∧ d = Durable.

Lemma header_decode_bytes tier h : header_wf h → names_tier tier (h_durability h) → header_decode (header_bytes tier h) = Ok h.
Proof.
  intros [Hv Hf Hl] Ht. unfold header_decode, header_bytes.
  set (covered := MAGIC ++ _). assert (E12 : slice 0 12 (covered ++ le_bytes 4 (crc32_hash covered)) = covered) by reflexivity.
  assert (E16 : slice 12 16 (covered ++ le_bytes 4 (crc32_hash covered)) = le_bytes 4 (crc32_hash covered)) by reflexivity.
  assert (E9 : slice 8 12 (covered ++ le_bytes 4 (crc32_hash covered)) = le_bytes 4 (h_payload_len h)) by reflexivity.
  rewrite E12, E16, E9, le_val_crc, Z.eqb_refl, (le_val_le_bytes 4) by exact Hl.
  change ((covered ++ _) !!! 4%nat) with (h_version h). change ((covered ++ _) !!! 6%nat) with tier.
  change ((covered ++ _) !!! 5%nat) with (message_type_to_u8 (h_message_type h)). change ((covered ++ _) !!! 7%nat) with (h_flags h).
  assert (Ed : durability_try_from tier = Ok (h_durability h)).
  { destruct Ht as [->|[-> ->]]; [apply durability_roundtrip|done]. }
  rewrite message_type_roundtrip, Ed, Hv, Hf. destruct h. cbn in *. by subst.
Qed.

(** A header that decodes is well formed, and its bytes are its own, with the byte of its
    tier or the retired one. *)
Lemma header_decode_inv buf h :
  length buf = 16%nat → header_decode buf = Ok h →
  header_wf h ∧ slice 0 4 buf = MAGIC ∧
  le_val (slice 12 16 buf) = crc32_hash (slice 0 12 buf) ∧
  ∃ tier, names_tier tier (h_durability h) ∧ buf = header_bytes tier h.
Proof.
  intros Hl Hd.
  destruct (list_16 buf Hl) as
    (a0 & a1 & a2 & a3 & a4 & a5 & a6 & a7 & a8 & a9 & a10 & a11 & a12 & a13 & a14 & a15 & ->).
  unfold header_decode in Hd. cbn [slice drop take Nat.sub lookup_total list_lookup_total] in Hd.
  do 3 (split_hyp Hd; [done|]).
  destruct (message_type_try_from a5) as [mt|] eqn:Emt; simpl in Hd; [|done].
  destruct (durability_try_from a6) as [d|] eqn:Ed; simpl in Hd; [|done].
  split_hyp Hd; [done|]. injection Hd as <-. b2p. subst.
  apply message_type_try_from_canonical in Emt.
  assert (Hu : is_u32 (le_val [a8; a9; a10; a11])) by (by apply le_val_u32).
  split; [by constructor|]. split; [done|]. split; [done|].
  exists a6. split; [by apply durability_try_from_canonical in Ed as [Ed|[-> ->]]; [left|right]|].
  unfold header_bytes. cbn [h_version h_message_type h_durability h_flags h_payload_len].
  rewrite (le_bytes_le_val' 4 [a8; a9; a10; a11]) by done.
  rewrite Emt, <-E. cbn [app].
  rewrite <-E1. by rewrite (le_bytes_le_val' 4 [a12; a13; a14; a15]).
Qed.

(** ** Envelope codec *)

Lemma slice_0_16_frame h l : slice 0 16 (header_encode h ++ l) = header_encode h.
Proof. rewrite slice_app_l by reflexivity. apply (slice_all (header_encode h)). Qed.

(** A buffer that is a header, [payload_len] payload bytes and a four-byte CRC field. *)
Lemma envelope_decode_frame hb h payload crcb :
  length hb = 16%nat → header_decode hb = Ok h →
  h_payload_len h = blen payload → blen payload ≤ MAX_PAYLOAD_HARD_CAP → length crcb = 4%nat →
  envelope_decode (hb ++ payload ++ crcb) =
    if negb (le_val crcb =? crc32_hash payload) then
      Err (PayloadCrcMismatch (le_val crcb) (crc32_hash payload))
    else Ok (mkEnvelope h payload).
Proof.
  intros Hhb Hd Hlen Hcap Hcrc. pose proof (blen_nonneg payload) as Hp.
  assert (Hb : blen (hb ++ payload ++ crcb) = HEADER_LEN + blen payload + 4).
  { rewrite !blen_app. unfold blen. rewrite Hhb, Hcrc. unfold HEADER_LEN. lia. }
  unfold envelope_decode. rewrite Hb.
  rewrite (proj2 (Z.ltb_ge _ HEADER_LEN)) by (unfold HEADER_LEN in *; lia).
  rewrite slice_app_l by lia. rewrite <-Hhb at 1. rewrite slice_all, Hd, Hlen.
  rewrite (proj2 (Z.ltb_ge _ _)) by lia. rewrite !Z.ltb_irrefl.
  unfold blen. rewrite Nat2Z.id, !slice_app_r, Hhb by lia.
  replace (16 + length payload - 16)%nat with (length payload) by lia.
  replace (16 + length payload + 4 - 16)%nat with (length payload + 4)%nat by lia.
  rewrite Nat.sub_diag, slice_app_l, slice_all by lia.
  replace (length payload + 4 - length payload)%nat with (length crcb) by lia.
  by rewrite slice_all.
Qed.

(** The frame of an admissible payload decodes to the envelope it was built from. *)
Lemma envelope_decode_encode mt d payload :
  blen payload ≤ MAX_PAYLOAD_HARD_CAP →
  envelope_decode (envelope_encode (envelope_new (header_new mt d x00) payload)) =
    Ok (envelope_new (header_new mt d x00) payload).
Proof.
  intros Hcap. set (e := envelope_new _ _). set (h := e_header e). pose proof (blen_nonneg payload).
  assert (Hn : h_payload_len h = blen payload).
  { cbn. destruct (Z.leb_spec (blen payload) u32_max); unfold u32_max, MAX_PAYLOAD_HARD_CAP in *; lia. }
  unfold envelope_encode. fold h. change (e_payload e) with payload.
  rewrite (envelope_decode_frame _ h); try done; [by rewrite le_val_crc, Z.eqb_refl|].
  rewrite header_decode_encode; [by rewrite !bool_decide_eq_true_2|].
  rewrite Hn. unfold is_u32, MAX_PAYLOAD_HARD_CAP in *. lia.
Qed.

(** An envelope built by its constructor encodes to a frame that decodes to the
    same envelope when the payload is within the hard cap, and is rejected as
    [PayloadTooLarge] with the (saturated) length otherwise: no frame the encoder
    produces is misread. *)
Theorem envelope_roundtrip mt d payload :
  let e := envelope_new (header_new mt d x00) payload in
  envelope_decode (envelope_encode e) =
    if blen payload <=? MAX_PAYLOAD_HARD_CAP then Ok e
    else Err (PayloadTooLarge (Z.min (blen payload) u32_max) MAX_PAYLOAD_HARD_CAP).
Proof.
  intros e. destruct (Z.leb_spec (blen payload) MAX_PAYLOAD_HARD_CAP) as [Hcap|Hcap].
  { by apply envelope_decode_encode. }
  set (h := e_header e). assert (Hn : h_payload_len h = Z.min (blen payload) u32_max).
  { cbn. destruct (Z.leb_spec (blen payload) u32_max); lia. }
  pose proof (blen_nonneg payload). unfold envelope_decode, envelope_encode. fold h.
  rewrite slice_0_16_frame, header_decode_encode by (rewrite Hn; unfold is_u32, u32_max; lia).
  rewrite !bool_decide_eq_true_2 by done. cbn [negb]. rewrite Hn, blen_app. change (blen (header_encode h)) with HEADER_LEN.
  rewrite (proj2 (Z.ltb_ge _ HEADER_LEN)) by (autorewrite with weir_len; simpl; lia).
  rewrite (proj2 (Z.ltb_lt _ _)); [done|]. unfold u32_max, MAX_PAYLOAD_HARD_CAP in *. lia.
Qed.

(** C38: the decoder accepts exactly the well-formed frames. A buffer decodes to an envelope
    exactly when the envelope's header is one of this wire version with no flags set, its
    length field is that of the payload and within the hard cap, and the buffer is the
    header's bytes, the payload and the payload's checksum, nothing before, between or
    after them; the header's durability byte is the one of its tier or, for [Durable], the
    retired byte [0x02]. With the tier's own byte the frame is the encoding. *)
Theorem envelope_decode_exact buf e :
  (envelope_decode buf = Ok e ↔
   header_wf (e_header e) ∧ h_payload_len (e_header e) = blen (e_payload e) ∧
   blen (e_payload e) ≤ MAX_PAYLOAD_HARD_CAP ∧
   ∃ tier, names_tier tier (h_durability (e_header e)) ∧
     buf = header_bytes tier (e_header e) ++ e_payload e ++ le_bytes 4 (crc32_hash (e_payload e))) ∧
  envelope_encode e =
    header_bytes (durability_to_u8 (h_durability (e_header e))) (e_header e) ++
    e_payload e ++ le_bytes 4 (crc32_hash (e_payload e)).
Proof.
  split; [|done]. split; [|].
  2: { intros (Hwf & Hlen & Hcap & tier & Ht & ->). rewrite (envelope_decode_frame _ (e_header e)); try done.
       - rewrite le_val_crc, Z.eqb_refl. by destruct e.
       - by apply header_decode_bytes. }
  unfold envelope_decode. destruct (Z.ltb_spec (blen buf) HEADER_LEN) as [|Hlen]; [done|].
  unfold HEADER_LEN in *. assert (Hl16 : (16 ≤ length buf)%nat) by (unfold blen in Hlen; lia).
  destruct (header_decode (slice 0 16 buf)) as [h|] eqn:Hd; [|done].
  assert (length (slice 0 16 buf) = 16%nat) as Hs by (rewrite length_slice; lia).
  pose proof (header_decode_inv _ _ Hs Hd) as (Hwf & _ & _ & tier & Ht & Hre).
  pose proof (hwf_len h Hwf) as Hu. unfold is_u32 in Hu.
  destruct (Z.ltb_spec MAX_PAYLOAD_HARD_CAP (h_payload_len h)) as [|Hcap]; [done|].
  destruct (Z.ltb_spec (blen buf) (16 + h_payload_len h + 4)) as [|H1']; [done|].
  destruct (Z.ltb_spec (16 + h_payload_len h + 4) (blen buf)) as [|H2']; [done|].
  set (n := Z.to_nat (h_payload_len h)).
  assert (Hn : length buf = (16 + n + 4)%nat) by (unfold blen, n in *; lia).
  destruct (Z.eqb_spec (le_val (slice (16 + n) (16 + n + 4) buf))
              (crc32_hash (slice 16 (16 + n) buf))) as [Hcrc|]; [|done].
  assert (Hp : blen (slice 16 (16 + n) buf) = h_payload_len h).
  { unfold blen. rewrite length_slice by lia. lia. }
  assert (Hbuf : buf = slice 0 16 buf ++ slice 16 (16 + n) buf
                   ++ le_bytes 4 (crc32_hash (slice 16 (16 + n) buf))).
  { rewrite <-Hcrc, le_bytes_le_val' by (rewrite length_slice; lia).
    rewrite app_assoc, !slice_split by lia. by rewrite <-Hn, slice_all. }
  revert Hp Hbuf. clear Hcrc. generalize (slice 16 (16 + n) buf). intros p Hp Hbuf [= <-].
  cbn [e_header e_payload]. split; [done|]. split; [done|]. split; [by rewrite Hp|].
  exists tier. split; [done|]. by rewrite <-Hre.
Qed.
End CodecFacts.

(** ** Nack reason bytes and labels *)

Lemma nack_roundtrip r : nack_try_from (nack_to_u8 r) = Ok r.
Proof. by destruct r. Qed.

Lemma nack_label_roundtrip r : from_metric_label (as_metric_label r) = Some r.
Proof. by destruct r. Qed.

(** ** Witnesses *)

(** [envelope_roundtrip] with the IEEE CRC-32. *)
Lemma envelope_roundtrip_witness :
  let e := envelope_new (header_new PushTracked Buffered x00) (bstr "hello") in
  envelope_decode (CRC := Crc32Ieee.ieee) (envelope_encode (CRC := Crc32Ieee.ieee) e) = Ok e.
Proof.
  exact (@envelope_roundtrip Crc32Ieee.ieee Crc32Ieee.ieee_laws PushTracked Buffered (bstr "hello")).
Defined.

(** A frame with the retired byte, accepted by the exact condition. *)
Lemma envelope_decode_exact_witness :
  let e := envelope_new (header_new Push Durable x00) (bstr "r1") in
  envelope_decode (CRC := Crc32Ieee.ieee)
    (header_bytes (CRC := Crc32Ieee.ieee) x02 (e_header e) ++ bstr "r1" ++ le_bytes 4 (crc32_hash (Crc32 := Crc32Ieee.ieee) (bstr "r1")))
  = Ok e.
Proof.
  intros e. apply (@envelope_decode_exact Crc32Ieee.ieee Crc32Ieee.ieee_laws). split; [by constructor|].
  split; [done|]. split; [by vm_compute|]. exists x02. split; [by right|done].
Defined.

(** A frame with the retired byte is no encoding, and decodes. *)
Example retired_tier_accepted :
  let e := envelope_new (header_new Push Durable x00) (bstr "r1") in
  let buf := header_bytes (CRC := Crc32Ieee.ieee) x02 (e_header e) ++ e_payload e ++ le_bytes 4 (crc32_hash (Crc32 := Crc32Ieee.ieee) (e_payload e)) in
  envelope_decode (CRC := Crc32Ieee.ieee) buf = Ok e ∧ envelope_encode (CRC := Crc32Ieee.ieee) e ≠ buf.
Proof. split; [vm_compute; reflexivity|]. intros H. vm_compute in H. discriminate H. Qed.
