(* ===== verification/Batch.v ===== *)
(** * The batch codecs (weir-core)

    The [PushBatch] body (version, count, length-prefixed records) and the [AckBatch]
    payload (version, count, an LSB-first bitmap) of crates/weir-core/src/batch.rs. Each
    decoder is shown to accept exactly the image of its encoder within the caps. *)

From Stdlib Require Import ZArith Lia Strings.Byte String.
From stdpp Require Import base list list_numbers option.
From S2P Require Import Prelude Deps Wire.

Definition BATCH_VERSION : byte := x01.
Definition ACK_BATCH_VERSION : byte := x01.
Definition BATCH_HEADER_LEN : nat := 3.
Definition ACK_BATCH_HEADER_LEN : nat := 3.
Definition MAX_BATCH_RECORDS_HARD_CAP : Z := 2048.

(** [n.div_ceil(8)]. *)
Definition div_ceil8 (n : nat) : nat := ((n + 7) / 8)%nat.

Definition MAX_ACK_BATCH_PAYLOAD_LEN : nat :=
  (ACK_BATCH_HEADER_LEN + div_ceil8 (Z.to_nat MAX_BATCH_RECORDS_HARD_CAP))%nat.

Inductive BatchError :=
| BTruncated (len need : Z)
| BUnsupportedVersion (version : byte)
| BEmptyBatch
| BTooManyRecords (count cap : Z)
| BEmptyRecord (index : nat)
| BRecordTooLarge (index : nat) (len cap : Z)
| BTruncatedRecord (index : nat)
| BLengthMismatch (declared actual : Z)
| BPaddingNotZero (b : byte).

#[global] Instance batch_error_eq_dec : EqDecision BatchError.
Proof. solve_decision. Defined.

(** ** PushBatch body *)

(** One entry: [u32] length, then the record. *)
Definition batch_entry (r : bytes) : bytes := le_bytes 4 (blen r) ++ r.

(** Casts [records.len() as u16] and [r.len() as u32] truncate. *)
Definition encode_batch_body (records : list bytes) : bytes :=
  [BATCH_VERSION] ++ le_bytes 2 (blen records) ++ concat (map batch_entry records).

(** The [while cursor < body.len()] walk of the entries; every iteration consumes at
    least five bytes, so [length body] iterations are enough
    ([decode_batch_loop_fuel]). *)
Fixpoint decode_batch_loop (fuel : nat) (body : bytes) (declared record_cap : Z)
    (out : list bytes) (cursor : nat) : result (list bytes * nat) BatchError :=
  if negb (cursor <? length body)%nat then Ok (out, cursor) else
  match fuel with
  | O => Ok (out, cursor)
  | S fuel =>
    let index := length out in
    if (length body <? cursor + 4)%nat then Err (BTruncatedRecord index) else
    let len := le_val (slice cursor (cursor + 4) body) in
    let cursor := (cursor + 4)%nat in
    if len =? 0 then Err (BEmptyRecord index) else
    if record_cap <? len then Err (BRecordTooLarge index len record_cap) else
    if blen body <? Z.of_nat cursor + len then Err (BTruncatedRecord index) else
    if Z.of_nat index =? declared then Err (BLengthMismatch declared (declared + 1)) else
    let cursor' := (cursor + Z.to_nat len)%nat in
    decode_batch_loop fuel body declared record_cap (out ++ [slice cursor cursor' body]) cursor'
  end.

Definition decode_batch_body (body : bytes) (max_records max_record_len : Z)
    : result (list bytes) BatchError :=
  if (length body <? BATCH_HEADER_LEN)%nat then
    Err (BTruncated (blen body) (Z.of_nat BATCH_HEADER_LEN)) else
  let version := body !!! 0%nat in
  if negb (bool_decide (version = BATCH_VERSION)) then Err (BUnsupportedVersion version) else
  let declared := le_val (slice 1 3 body) in
  if declared =? 0 then Err BEmptyBatch else
  let cap := Z.min max_records MAX_BATCH_RECORDS_HARD_CAP in
  if cap <? declared then Err (BTooManyRecords declared cap) else
  let record_cap := Z.min max_record_len MAX_PAYLOAD_HARD_CAP in
  let? (out, cursor) :=
    decode_batch_loop (length body) body declared record_cap [] BATCH_HEADER_LEN in
  if negb (blen out =? declared) then Err (BLengthMismatch declared (blen out)) else
  if negb (cursor =? length body)%nat then Err (BLengthMismatch (Z.of_nat cursor) (blen body)) else
  Ok out.

(** ** AckBatch payload *)

Definition bitmap_bit (index : nat) : nat * Z :=
  ((index / 8)%nat, Z.shiftl 1 (Z.of_nat (index mod 8)%nat)).

(** [out[i] |= mask]. *)
Definition or_at (i : nat) (mask : Z) (out : bytes) : bytes :=
  <[i := z2b (Z.lor (b2z (out !!! i)) mask)]> out.

Definition ack_bit_step (out : bytes) (p : nat * bool) : bytes :=
  let '(i, ok) := p in
  if ok : bool then
    let '(byte_ix, mask) := bitmap_bit i in or_at (ACK_BATCH_HEADER_LEN + byte_ix) mask out
  else out.

Definition encode_ack_batch (accepted : list bool) : bytes :=
  let n := length accepted in
  let out := [ACK_BATCH_VERSION] ++ le_bytes 2 (Z.of_nat n) in
  let out := out ++ replicate (div_ceil8 n) x00 in
  foldl ack_bit_step out (imap pair accepted).

(** [!x] on a [u8]. *)
Definition not8 (x : Z) : Z := Z.lxor x 255.

Definition decode_ack_batch (payload : bytes) (expected : nat) : result (list bool) BatchError :=
  if (length payload <? ACK_BATCH_HEADER_LEN)%nat then
    Err (BTruncated (blen payload) (Z.of_nat ACK_BATCH_HEADER_LEN)) else
  let version := payload !!! 0%nat in
  if negb (bool_decide (version = ACK_BATCH_VERSION)) then Err (BUnsupportedVersion version) else
  let declared := Z.to_nat (le_val (slice 1 3 payload)) in
  if (declared =? 0)%nat then Err BEmptyBatch else
  if negb (declared =? expected)%nat then
    Err (BLengthMismatch (Z.of_nat declared) (Z.of_nat expected)) else
  let want := (ACK_BATCH_HEADER_LEN + div_ceil8 declared)%nat in
  if negb (length payload =? want)%nat then
    Err (BLengthMismatch (Z.of_nat want) (blen payload)) else
  let used_in_last := (declared mod 8)%nat in
  let last := payload !!! (length payload - 1)%nat in
  let padding_mask := not8 (Z.shiftl 1 (Z.of_nat used_in_last) - 1) in
  if negb (used_in_last =? 0)%nat && negb (Z.land (b2z last) padding_mask =? 0) then
    Err (BPaddingNotZero last) else
  let bits := drop ACK_BATCH_HEADER_LEN payload in
  Ok (map (λ i, let '(byte_ix, mask) := bitmap_bit i in
                negb (Z.land (b2z (bits !!! byte_ix)) mask =? 0)) (seq 0 declared)).

Example ack_batch_lsb_first :
  encode_ack_batch [true; false; false; false; false; false; false; false; false; true]
  = [x01; x0a; x00; x01; x02].
Proof. vm_compute. reflexivity. Qed.

(** ** The push body *)

(** A record the daemon accepts inside a batch. *)
Definition record_ok (record_cap : Z) (r : bytes) : Prop := 0 < blen r ≤ record_cap.

Lemma slice_2_split (l : bytes) (a b c : nat) :
  (a ≤ b)%nat → (b ≤ c)%nat → (c ≤ length l)%nat → slice a b l ++ slice b c l = slice a c l.
Proof.
  intros. unfold slice. rewrite <-(take_drop (b - a) (take (c - a) (drop a l))).
  rewrite take_take, skipn_firstn_comm, drop_drop. f_equal; f_equal; try lia. f_equal. lia.
Qed.

Lemma batch_entries_cons r rs :
  concat (map batch_entry (r :: rs)) = (le_bytes 4 (blen r) ++ r) ++ concat (map batch_entry rs).
Proof. done. Qed.

(** The walk does not depend on the fuel once it covers the remaining bytes. *)
Lemma decode_batch_loop_fuel f1 f2 body declared cap out cursor :
  (length body - cursor ≤ f1)%nat → (length body - cursor ≤ f2)%nat →
  decode_batch_loop f1 body declared cap out cursor =
  decode_batch_loop f2 body declared cap out cursor.
Proof.
  revert f2 out cursor. induction f1 as [|f1 IH]; intros f2 out cursor H1 H2.
  all: destruct f2 as [|f2]; cbn [decode_batch_loop]; try done.
  all: destruct (Nat.ltb_spec cursor (length body)); cbn [negb]; try done; try lia.
  repeat split_goal; try done. apply IH; lia.
Qed.

(** What a completed walk has read: well-sized records, to the end of the body. *)
Lemma decode_batch_loop_Ok fuel body declared cap out cursor out' c' :
  (length body - cursor ≤ fuel)%nat → (cursor ≤ length body)%nat →
  decode_batch_loop fuel body declared cap out cursor = Ok (out', c') →
  ∃ rs, out' = out ++ rs ∧ Forall (record_ok cap) rs ∧
        drop cursor body = concat (map batch_entry rs) ∧ c' = length body.
Proof.
  revert out cursor. induction fuel as [|fuel IH]; intros out cursor Hf Hc;
    cbn [decode_batch_loop]; destruct (Nat.ltb_spec cursor (length body)) as [Hlt|Hge];
    cbn [negb]; try lia.
  1,3: intros [= <- <-]; exists []; rewrite app_nil_r, drop_ge by lia; repeat split; auto; lia.
  destruct (Nat.ltb_spec (length body) (cursor + 4)) as [|H4]; [done|].
  set (len := le_val (slice cursor (cursor + 4) body)).
  assert (Hu : is_u32 len) by (apply le_val_u32; rewrite length_slice; lia).
  unfold is_u32 in Hu.
  destruct (Z.eqb_spec len 0) as [|H0]; [done|].
  destruct (Z.ltb_spec cap len) as [|Hcap]; [done|].
  destruct (Z.ltb_spec (blen body) (Z.of_nat (cursor + 4) + len)) as [|Hend]; [done|].
  destruct (Z.eqb_spec (Z.of_nat (length out)) declared) as [|Hd]; [done|].
  unfold blen in Hend. set (n := Z.to_nat len). intros Hr.
  apply IH in Hr as (rs & -> & Hrs & Hdrop & ->); [|lia|lia].
  set (r := slice (cursor + 4) (cursor + 4 + n) body).
  assert (Hrl : blen r = len) by (unfold blen, r; rewrite length_slice; lia).
  exists (r :: rs). split; [by rewrite <-app_assoc|]. split; [|split; [|done]].
  - constructor; [unfold record_ok; lia|done].
  - rewrite batch_entries_cons, <-Hdrop, Hrl. unfold len, r.
    rewrite le_bytes_le_val' by (rewrite length_slice; lia).
    rewrite <-app_assoc, <-(slice_drop body (cursor + 4 + n)), !slice_2_split by lia.
    by rewrite slice_drop.
Qed.

(** The walk of a body that is a sequence of acceptable entries. *)
Lemma decode_batch_loop_entries fuel pre rs declared cap out :
  Forall (record_ok cap) rs → cap ≤ MAX_PAYLOAD_HARD_CAP →
  blen out + blen rs ≤ declared → (length rs ≤ fuel)%nat →
  decode_batch_loop fuel (pre ++ concat (map batch_entry rs)) declared cap out (length pre)
  = Ok (out ++ rs, length (pre ++ concat (map batch_entry rs))).
Proof.
  intros Hrs Hcap. revert fuel pre out. induction Hrs as [|r rs Hr Hrs IH]; intros fuel pre out Hd Hf.
  - simpl. rewrite !app_nil_r.
    destruct fuel; cbn [decode_batch_loop]; by rewrite Nat.ltb_irrefl.
  - destruct fuel as [|fuel]; [simpl in Hf; lia|].
    assert (Hsz : (length pre + 4 + length r ≤ length (pre ++ concat (map batch_entry (r :: rs))))%nat).
    { rewrite batch_entries_cons, !length_app, length_le_bytes. lia. }
    unfold record_ok, blen, MAX_PAYLOAD_HARD_CAP in *.
    cbn [decode_batch_loop map concat]. cbn [map concat] in Hsz.
    rewrite (proj2 (Nat.ltb_lt _ _)) by lia. cbn [negb].
    rewrite (proj2 (Nat.ltb_ge _ _)) by lia.
    assert (Hlen : le_val (slice (length pre) (length pre + 4)
             (pre ++ batch_entry r ++ concat (map batch_entry rs))) = Z.of_nat (length r)).
    { rewrite slice_app_r, Nat.sub_diag by lia. unfold batch_entry. rewrite <-app_assoc.
      rewrite slice_app_l by (rewrite length_le_bytes; lia).
      replace (length pre + 4 - length pre)%nat with (length (le_bytes 4 (blen r)))
        by (rewrite length_le_bytes; lia).
      rewrite slice_all, le_val_le_bytes by (unfold blen; lia). done. }
    rewrite Hlen. rewrite (proj2 (Z.eqb_neq _ _)) by lia.
    rewrite (proj2 (Z.ltb_ge cap _)) by lia.
    unfold blen. rewrite (proj2 (Z.ltb_ge _ _)) by lia.
    simpl length in Hd. rewrite (proj2 (Z.eqb_neq _ _)) by lia.
    rewrite Nat2Z.id.
    assert (Hsl : slice (length pre + 4) (length pre + 4 + length r)
             (pre ++ batch_entry r ++ concat (map batch_entry rs)) = r).
    { rewrite slice_app_r by lia. unfold batch_entry. rewrite <-app_assoc.
      rewrite slice_app_r; rewrite length_le_bytes; [|lia].
      rewrite slice_app_l by lia.
      replace (length pre + 4 - length pre - 4)%nat with 0%nat by lia.
      replace (length pre + 4 + length r - length pre - 4)%nat with (length r) by lia.
      apply slice_all. }
    rewrite Hsl, app_assoc.
    replace (length pre + 4 + length r)%nat with (length (pre ++ batch_entry r))
      by (unfold batch_entry; rewrite !length_app, length_le_bytes; lia).
    rewrite IH; [by rewrite <-app_assoc| |simpl in Hf; lia].
    rewrite length_app. simpl length. lia.
Qed.

Lemma encode_batch_body_prefix rs :
  encode_batch_body rs = ([BATCH_VERSION] ++ le_bytes 2 (blen rs)) ++ concat (map batch_entry rs).
Proof. unfold encode_batch_body. by rewrite app_assoc. Qed.

Lemma le_val_u16 l : length l = 2%nat → is_u16 (le_val l).
Proof. intros H. pose proof (le_val_range l) as Hr. unfold blen in Hr. by rewrite H in Hr. Qed.

Lemma decode_batch_body_Ok body max_records max_record_len rs :
  decode_batch_body body max_records max_record_len = Ok rs →
  body = encode_batch_body rs ∧
  0 < blen rs ≤ Z.min max_records MAX_BATCH_RECORDS_HARD_CAP ∧
  Forall (record_ok (Z.min max_record_len MAX_PAYLOAD_HARD_CAP)) rs.
Proof.
  unfold decode_batch_body, BATCH_HEADER_LEN.
  destruct (Nat.ltb_spec (length body) 3) as [|Hl]; [done|].
  destruct (bool_decide_reflect (body !!! 0%nat = BATCH_VERSION)) as [Hv|]; [|done].
  cbn [negb]. assert (Hu : is_u16 (le_val (slice 1 3 body))).
  { apply le_val_u16. rewrite length_slice; lia. }
  unfold is_u16 in Hu. destruct (Z.eqb_spec (le_val (slice 1 3 body)) 0) as [|H0]; [done|].
  destruct (Z.ltb_spec (Z.min max_records MAX_BATCH_RECORDS_HARD_CAP) (le_val (slice 1 3 body)))
    as [|Hcap]; [done|].
  destruct (decode_batch_loop _ _ _ _ _ _) as [[out c]|] eqn:Hloop; [|done].
  apply decode_batch_loop_Ok in Hloop as (rs' & -> & Hrs & Hdrop & ->); [|lia..].
  rewrite Nat.eqb_refl. cbn [negb app].
  destruct (Z.eqb_spec (blen rs') (le_val (slice 1 3 body))) as [Hn|]; [|done].
  intros [= <-]. rewrite Hn. split; [|split; [lia|done]].
  rewrite encode_batch_body_prefix, <-Hdrop, Hn, le_bytes_le_val' by (rewrite length_slice; lia).
  rewrite <-Hv. destruct body as [|a [|b [|c body]]]; done.
Qed.

Lemma decode_encode_batch_body max_records max_record_len rs :
  0 < blen rs ≤ Z.min max_records MAX_BATCH_RECORDS_HARD_CAP →
  Forall (record_ok (Z.min max_record_len MAX_PAYLOAD_HARD_CAP)) rs →
  decode_batch_body (encode_batch_body rs) max_records max_record_len = Ok rs.
Proof.
  unfold decode_batch_body, BATCH_HEADER_LEN. intros [H0 Hcap] Hrs.
  assert (is_u16 (blen rs)) as Hu by (unfold is_u16, MAX_BATCH_RECORDS_HARD_CAP in *; lia).
  assert (Hs : slice 1 3 (encode_batch_body rs) = le_bytes 2 (blen rs)) by done.
  rewrite Hs, le_val_le_bytes by exact Hu.
  rewrite (proj2 (Z.eqb_neq _ _)) by lia. rewrite (proj2 (Z.ltb_ge _ _)) by lia.
  assert (Hf : (length rs ≤ length (encode_batch_body rs))%nat).
  { rewrite encode_batch_body_prefix, length_app.
    enough (length rs ≤ length (concat (map batch_entry rs)))%nat by lia. clear.
    induction rs as [|r rs IH]; [done|].
    rewrite batch_entries_cons, !length_app, length_le_bytes. simpl. lia. }
  change (length (encode_batch_body rs) <? 3)%nat with false. cbv iota.
  rewrite bool_decide_eq_true_2 by done. cbn [negb].
  rewrite encode_batch_body_prefix in Hf |- *.
  pose proof (decode_batch_loop_entries _ ([BATCH_VERSION] ++ le_bytes 2 (blen rs)) rs (blen rs)
    _ [] Hrs (Z.le_min_r _ _) (Z.le_refl _) Hf) as Hl.
  change (length ([BATCH_VERSION] ++ le_bytes 2 (blen rs))) with 3%nat in Hl.
  rewrite Hl. cbn [app]. by rewrite Z.eqb_refl, Nat.eqb_refl.
Qed.

(** [decode_batch_body] accepts exactly the bodies that [encode_batch_body] builds
    from one or more records, as many as the record-count cap admits, each non-empty and
    within the per-record cap, and returns those records in order. *)
Theorem decode_batch_body_iff body max_records max_record_len rs :
  decode_batch_body body max_records max_record_len = Ok rs ↔
  body = encode_batch_body rs ∧
  0 < blen rs ≤ Z.min max_records MAX_BATCH_RECORDS_HARD_CAP ∧
  Forall (record_ok (Z.min max_record_len MAX_PAYLOAD_HARD_CAP)) rs.
Proof.
  split; [apply decode_batch_body_Ok|]. intros (-> & Hn & Hrs). by apply decode_encode_batch_body.
Qed.

(** Two records in one body. *)
Lemma decode_batch_body_iff_witness :
  decode_batch_body (encode_batch_body [bstr "ab"; bstr "c"]) 10 4 = Ok [bstr "ab"; bstr "c"].
Proof.
  apply decode_batch_body_iff. split; [reflexivity|]. split; [by vm_compute|].
  apply Forall_cons_2; [by vm_compute|]. apply Forall_cons_2; [by vm_compute|]. by apply Forall_nil_2.
Defined.

(** ** The acknowledgement bitmap *)

(** Bit [j] of a byte string, LSB-first. *)
Definition bit_at (l : bytes) (j : nat) : bool :=
  Z.testbit (b2z (l !!! (j / 8)%nat)) (Z.of_nat (j mod 8)%nat).

Lemma land_pow2_testbit z k : 0 ≤ k → negb (Z.land z (Z.shiftl 1 k) =? 0) = Z.testbit z k.
Proof.
  intros Hk. destruct (Z.testbit z k) eqn:E.
  - apply negb_true_iff, Z.eqb_neq. intros H.
    assert (Z.testbit (Z.land z (Z.shiftl 1 k)) k = true) as Ht; [|by rewrite H, Z.bits_0 in Ht].
    by rewrite Z.land_spec, E, Z.shiftl_spec, Z.sub_diag by lia.
  - apply negb_false_iff, Z.eqb_eq. apply Z.bits_inj_iff'. intros i Hi.
    rewrite Z.land_spec, Z.shiftl_spec, Z.bits_0 by lia.
    destruct (decide (i = k)) as [->|Hne]; [by rewrite E|].
    replace (Z.testbit 1 (i - k)) with false; [apply andb_false_r|].
    destruct (Z.ltb_spec i k); [by rewrite Z.testbit_neg_r by lia|].
    symmetry. apply Z.bits_above_log2; [lia|]. change (Z.log2 1) with 0. lia.
Qed.

Lemma testbit_b2z_high b k : 8 ≤ k → Z.testbit (b2z b) k = false.
Proof.
  intros Hk. pose proof (b2z_range b). destruct (decide (b2z b = 0)) as [->|]; [apply Z.bits_0|].
  apply Z.bits_above_log2; [lia|]. apply Z.log2_lt_pow2; [lia|].
  apply Z.lt_le_trans with (2 ^ 8); [lia|]. apply Z.pow_le_mono_r; lia.
Qed.

(** Byte strings of one length with the same bits are equal. *)
Lemma bytes_eq_bits l k :
  length l = length k → (∀ j, (j < 8 * length l)%nat → bit_at l j = bit_at k j) → l = k.
Proof.
  intros Hl Hb. apply list_eq_same_length with (length l); [done|done|].
  intros i x y Hi Hx Hy. apply (inj b2z), Z.bits_inj_iff'. intros n Hn.
  destruct (decide (8 ≤ n)); [by rewrite !testbit_b2z_high by lia|].
  specialize (Hb (8 * i + Z.to_nat n)%nat). unfold bit_at in Hb.
  replace ((8 * i + Z.to_nat n) / 8)%nat with i in Hb by (apply (Nat.div_unique _ 8 i (Z.to_nat n)); lia).
  replace ((8 * i + Z.to_nat n) mod 8)%nat with (Z.to_nat n) in Hb by (apply (Nat.mod_unique _ 8 i); lia).
  rewrite (list_lookup_total_correct _ _ _ Hx), (list_lookup_total_correct _ _ _ Hy) in Hb.
  rewrite Z2Nat.id in Hb by lia. apply Hb. lia.
Qed.

Lemma testbit_z2b z k : 0 ≤ k < 8 → Z.testbit (b2z (z2b z)) k = Z.testbit z k.
Proof. intros Hk. rewrite b2z_z2b. change 256 with (2 ^ 8). by rewrite Z.mod_pow2_bits_low by lia. Qed.

(** [out[i] |= mask] sets bit [j] and leaves the other bits. *)
Lemma bit_at_or_at pre l i :
  length pre = ACK_BATCH_HEADER_LEN → (i / 8 < length l)%nat →
  ∃ l', or_at (ACK_BATCH_HEADER_LEN + (i / 8)) (bitmap_bit i).2 (pre ++ l) = pre ++ l' ∧
        length l' = length l ∧ ∀ j, bit_at l' j = (bit_at l j || bool_decide (i = j)).
Proof.
  intros Hpre Hi. eexists. split.
  { unfold or_at. rewrite <-Hpre, insert_app_r. reflexivity. }
  split; [by rewrite length_insert|]. intros j. cbn [bitmap_bit snd].
  rewrite list_lookup_total_alt, lookup_app_r, Nat.add_comm, Nat.add_sub, <-list_lookup_total_alt by lia.
  unfold bit_at. destruct (decide ((i / 8)%nat = (j / 8)%nat)) as [He|Hne].
  - rewrite He, list_lookup_total_insert_eq by lia.
    pose proof (Nat.mod_upper_bound j 8). pose proof (Nat.mod_upper_bound i 8).
    rewrite testbit_z2b, Z.lor_spec by lia. f_equal.
    rewrite Z.shiftl_spec by lia. destruct (bool_decide_reflect (i = j)) as [->|Hij].
    + by rewrite Z.sub_diag.
    + assert ((i mod 8 ≠ j mod 8)%nat) by
        (intros Hm; apply Hij; rewrite (Nat.div_mod_eq i 8), (Nat.div_mod_eq j 8); lia).
      destruct (Z.ltb_spec (Z.of_nat (j mod 8)) (Z.of_nat (i mod 8))).
      * by rewrite Z.testbit_neg_r by lia.
      * apply Z.bits_above_log2; [lia|]. change (Z.log2 1) with 0. lia.
  - rewrite list_lookup_total_insert_ne by lia.
    rewrite bool_decide_eq_false_2 by congruence. by rewrite orb_false_r.
Qed.

Lemma div_ceil8_lt n j : (j < n → j / 8 < div_ceil8 n)%nat.
Proof. unfold div_ceil8. intros H. pose proof (Nat.div_mod_eq j 8). pose proof (Nat.div_mod_eq (n + 7) 8).
  pose proof (Nat.mod_upper_bound (n + 7) 8). pose proof (Nat.mod_upper_bound j 8). lia. Qed.

(** The loop of [encode_ack_batch] over a zeroed bitmap sets the bits of the accepted
    records and no other. *)
Lemma encode_ack_fold acc pre l :
  length pre = ACK_BATCH_HEADER_LEN → (div_ceil8 (length acc) ≤ length l)%nat →
  ∃ l', foldl ack_bit_step (pre ++ l) (imap pair acc) = pre ++ l' ∧ length l' = length l ∧
        ∀ j, bit_at l' j = (bit_at l j || default false (acc !! j)).
Proof.
  intros Hpre. induction acc as [|a acc IH] using rev_ind; intros Hl.
  { exists l. split; [done|]. split; [done|]. intros j. rewrite lookup_nil. simpl.
    by rewrite orb_false_r. }
  rewrite length_app in Hl. cbn [length] in Hl.
  pose proof (div_ceil8_lt (length acc + 1) (length acc) ltac:(lia)) as Hlast.
  destruct IH as (l1 & Hf & Hl1 & Hb).
  { unfold div_ceil8 in *. etrans; [|exact Hl]. apply Nat.Div0.div_le_mono. lia. }
  rewrite imap_app, foldl_app, Hf. cbn [imap foldl]. rewrite Nat.add_0_r.
  assert (Hd : ∀ j, default false ((acc ++ [a]) !! j) =
                    (default false (acc !! j) || (a && bool_decide (length acc = j)))).
  { intros j. destruct (decide (j < length acc)%nat) as [Hj|Hj].
    - rewrite lookup_app_l, bool_decide_eq_false_2 by lia. by rewrite andb_false_r, orb_false_r.
    - rewrite lookup_app_r, (lookup_ge_None_2 acc) by lia. simpl.
      destruct (bool_decide_reflect (length acc = j)) as [<-|].
      + rewrite Nat.sub_diag. simpl. by rewrite andb_true_r.
      + rewrite lookup_ge_None_2 by (simpl; lia). by rewrite andb_false_r. }
  destruct a; cbn [ack_bit_step].
  - destruct (bit_at_or_at pre l1 (length acc) Hpre ltac:(lia)) as (l2 & Ho & Hl2 & Hb2).
    exists l2. split; [exact Ho|]. split; [congruence|].
    intros j. rewrite Hb2, Hb, Hd. cbn [andb]. by rewrite orb_assoc.
  - exists l1. split; [done|]. split; [done|]. intros j. rewrite Hb, Hd. cbn [andb].
    by rewrite orb_false_r.
Qed.

Lemma bit_at_zeros n j : bit_at (replicate n x00) j = false.
Proof.
  unfold bit_at. destruct (decide (j / 8 < n)%nat).
  - rewrite lookup_total_replicate_2 by done. apply Z.bits_0.
  - rewrite list_lookup_total_alt, lookup_ge_None_2 by (rewrite length_replicate; lia). apply Z.bits_0.
Qed.

(** The encoding is the three-byte prefix and the bitmap whose bit [j] is [accepted[j]]. *)
Lemma encode_ack_batch_bits acc :
  ∃ bm, encode_ack_batch acc = ([ACK_BATCH_VERSION] ++ le_bytes 2 (Z.of_nat (length acc))) ++ bm ∧
        length bm = div_ceil8 (length acc) ∧ ∀ j, bit_at bm j = default false (acc !! j).
Proof.
  unfold encode_ack_batch.
  destruct (encode_ack_fold acc ([ACK_BATCH_VERSION] ++ le_bytes 2 (Z.of_nat (length acc)))
              (replicate (div_ceil8 (length acc)) x00)) as (l & Hf & Hl & Hb).
  { done. } { by rewrite length_replicate. }
  exists l. split; [exact Hf|]. split; [by rewrite Hl, length_replicate|].
  intros j. by rewrite Hb, bit_at_zeros.
Qed.

(** The padding test of the last byte: no bit at or above [declared] is set. *)
Lemma padding_test bm n :
  (0 < n)%nat → length bm = div_ceil8 n →
  negb (n mod 8 =? 0)%nat &&
    negb (Z.land (b2z (bm !!! (length bm - 1)%nat)) (not8 (Z.shiftl 1 (Z.of_nat (n mod 8)%nat) - 1)) =? 0)
    = false ↔
  ∀ j, (n ≤ j)%nat → (j < 8 * length bm)%nat → bit_at bm j = false.
Proof.
  intros Hn Hl. pose proof (Nat.div_mod_eq n 8) as Hdm. pose proof (Nat.mod_upper_bound n 8) as Hm.
  set (q := (n / 8)%nat) in *. set (r := (n mod 8)%nat) in *.
  assert (Hc : length bm = if (r =? 0)%nat then q else S q).
  { rewrite Hl. unfold div_ceil8. symmetry. destruct (Nat.eqb_spec r 0).
    - apply (Nat.div_unique _ 8 _ 7); lia.
    - apply (Nat.div_unique _ 8 _ (r - 1)); lia. }
  destruct (Nat.eqb_spec r 0) as [Hr|Hr]; cbn [negb andb].
  { split; [|done]. intros _ j H1 H2. lia. }
  rewrite negb_false_iff, Z.eqb_eq, Hc. replace (S q - 1)%nat with q by lia.
  assert (Hbit : ∀ k, (k < 8)%nat →
    Z.testbit (not8 (Z.shiftl 1 (Z.of_nat r) - 1)) (Z.of_nat k) = (r <=? k)%nat).
  { intros k Hk. destruct r as [|[|[|[|[|[|[|[|]]]]]]]]; try lia;
    destruct k as [|[|[|[|[|[|[|[|]]]]]]]]; try lia; reflexivity. }
  split.
  - intros Hz j H1 H2. unfold bit_at.
    pose proof (Nat.div_mod_eq j 8). pose proof (Nat.mod_upper_bound j 8).
    assert (j / 8 = q)%nat as -> by lia.
    assert (Ht : Z.testbit (Z.land (b2z (bm !!! q)) (not8 (Z.shiftl 1 (Z.of_nat r) - 1)))
                   (Z.of_nat (j mod 8)) = false) by (by rewrite Hz, Z.bits_0).
    rewrite Z.land_spec, Hbit, (proj2 (Nat.leb_le _ _)), andb_true_r in Ht by lia. done.
  - intros Hj. apply Z.bits_inj_iff'. intros k Hk. rewrite Z.land_spec, Z.bits_0.
    destruct (decide (8 ≤ k)); [by rewrite testbit_b2z_high|].
    specialize (Hbit (Z.to_nat k) ltac:(lia)). rewrite Z2Nat.id in Hbit by lia. rewrite Hbit.
    destruct (Nat.leb_spec r (Z.to_nat k)); [|apply andb_false_r].
    rewrite andb_true_r. specialize (Hj (8 * q + Z.to_nat k)%nat ltac:(lia) ltac:(lia)).
    unfold bit_at in Hj.
    rewrite <-(Nat.div_unique _ 8 q (Z.to_nat k)), <-(Nat.mod_unique _ 8 q (Z.to_nat k)), Z2Nat.id in Hj by lia.
    done.
Qed.

Lemma ack_split (payload : bytes) :
  (3 ≤ length payload)%nat → payload = [payload !!! 0%nat] ++ slice 1 3 payload ++ drop 3 payload.
Proof. destruct payload as [|a [|b [|c p]]]; simpl; try lia. done. Qed.

Lemma decode_bits_map bm acc :
  (∀ j, (j < length acc)%nat → bit_at bm j = default false (acc !! j)) →
  map (λ i, let '(byte_ix, mask) := bitmap_bit i in
            negb (Z.land (b2z (bm !!! byte_ix)) mask =? 0)) (seq 0 (length acc)) = acc.
Proof.
  intros Hb. apply list_eq_same_length with (length acc);
    [done|by rewrite length_map, length_seq|].
  intros i x y Hi. rewrite list_lookup_fmap, lookup_seq_lt by done. cbn. intros [= <-] Hy.
  rewrite land_pow2_testbit by lia. specialize (Hb i Hi). rewrite Hy in Hb. exact Hb.
Qed.

(** An accepted payload is an encoding. *)
Lemma decode_ack_batch_Ok payload expected acc :
  decode_ack_batch payload expected = Ok acc →
  payload = encode_ack_batch acc ∧ length acc = expected ∧ 0 < Z.of_nat expected ≤ u16_max.
Proof.
  unfold decode_ack_batch, ACK_BATCH_HEADER_LEN, u16_max.
  destruct (Nat.ltb_spec (length payload) 3) as [|Hl]; [done|].
  destruct (bool_decide_reflect (payload !!! 0%nat = ACK_BATCH_VERSION)) as [Hv|]; [|done].
  assert (Hu : is_u16 (le_val (slice 1 3 payload))) by (apply le_val_u16; rewrite length_slice; lia).
  unfold is_u16 in Hu. cbn [negb].
  destruct (Nat.eqb_spec (Z.to_nat (le_val (slice 1 3 payload))) 0) as [|H0]; [done|].
  destruct (Nat.eqb_spec (Z.to_nat (le_val (slice 1 3 payload))) expected) as [He|]; [|done].
  rewrite He. destruct (Nat.eqb_spec (length payload) (3 + div_ceil8 expected)) as [Hw|]; [|done].
  cbn [negb]. split_goal; [done|]. rename E into Hpad. set (bm := drop 3 payload) in *.
  assert (Hbl : length bm = div_ceil8 expected) by (unfold bm; rewrite length_drop; lia).
  assert (1 ≤ div_ceil8 expected)%nat.
  { pose proof (div_ceil8_lt expected 0 ltac:(lia)). lia. }
  rewrite (ack_split payload Hl), app_assoc, !length_app in Hpad. fold bm in Hpad.
  rewrite list_lookup_total_alt, lookup_app_r in Hpad
    by (rewrite length_app, length_slice; simpl; lia).
  rewrite length_app, length_slice in Hpad by lia. cbn [length] in Hpad.
  replace (1 + (3 - 1) + length bm - 1 - (1 + (3 - 1)))%nat with (length bm - 1)%nat in Hpad by lia.
  rewrite <-list_lookup_total_alt in Hpad. pose proof (proj1 (padding_test bm expected ltac:(lia) Hbl) Hpad) as Hpad0.
  intros Hm. injection Hm as Hacc. assert (Hla : length acc = expected).
  { by rewrite <-Hacc, length_map, length_seq. }
  split; [|split; [done|lia]].
  destruct (encode_ack_batch_bits acc) as (bm' & -> & Hbl' & Hb').
  rewrite (ack_split payload Hl), <-app_assoc. fold bm. rewrite Hv. f_equal.
  rewrite Hla, <-He, Z2Nat.id, le_bytes_le_val' by (rewrite ?length_slice; lia). f_equal.
  apply bytes_eq_bits; [congruence|]. intros j Hj. rewrite Hb'.
  destruct (decide (j < expected)%nat) as [Hlt|Hge].
  - rewrite <-Hacc, list_lookup_fmap, lookup_seq_lt by done. cbn.
    by rewrite land_pow2_testbit by lia.
  - rewrite Hpad0, lookup_ge_None_2 by lia. done.
Qed.

(** An encoding is accepted. *)
Lemma decode_encode_ack_batch acc :
  0 < blen acc ≤ u16_max → decode_ack_batch (encode_ack_batch acc) (length acc) = Ok acc.
Proof.
  unfold decode_ack_batch, ACK_BATCH_HEADER_LEN, u16_max, blen. intros Hn.
  destruct (encode_ack_batch_bits acc) as (bm & -> & Hbl & Hb).
  assert (1 ≤ div_ceil8 (length acc))%nat.
  { pose proof (div_ceil8_lt (length acc) 0 ltac:(lia)). lia. }
  set (pre := [ACK_BATCH_VERSION] ++ le_bytes 2 (Z.of_nat (length acc))).
  assert (Hpl : length pre = 3%nat) by done.
  rewrite length_app, Hpl. change ((3 + length bm <? 3)%nat) with false. cbv iota.
  change ((pre ++ bm) !!! 0%nat) with ACK_BATCH_VERSION.
  change (slice 1 3 (pre ++ bm)) with (le_bytes 2 (Z.of_nat (length acc))).
  change (drop 3 (pre ++ bm)) with bm.
  rewrite le_val_le_bytes, Nat2Z.id by (change (256 ^ Z.of_nat 2) with (2 ^ 16); lia).
  rewrite bool_decide_eq_true_2 by done. cbn [negb].
  rewrite (proj2 (Nat.eqb_neq _ 0)) by lia. rewrite Nat.eqb_refl. cbn [negb].
  rewrite Hbl, Nat.eqb_refl. cbn [negb].
  replace ((pre ++ bm) !!! (3 + div_ceil8 (length acc) - 1)%nat) with (bm !!! (length bm - 1)%nat).
  2: { rewrite !list_lookup_total_alt, (lookup_app_r pre) by lia. do 2 f_equal. lia. }
  rewrite (proj2 (padding_test bm (length acc) ltac:(lia) Hbl)).
  { by rewrite decode_bits_map. }
  intros j Hj _. rewrite Hb. by rewrite lookup_ge_None_2 by lia.
Qed.

(** [decode_ack_batch] accepts exactly the encodings of [expected] outcomes and returns
    them: in particular bit [i] (LSB-first) is the outcome of record [i], a count other
    than the one the caller sent is refused and so is a set padding bit. *)
Theorem decode_ack_batch_iff payload expected acc :
  decode_ack_batch payload expected = Ok acc ↔
  payload = encode_ack_batch acc ∧ length acc = expected ∧ 0 < Z.of_nat expected ≤ u16_max.
Proof.
  split; [apply decode_ack_batch_Ok|]. intros (-> & <- & Hn). by apply decode_encode_ack_batch.
Qed.

Lemma decode_ack_batch_iff_witness :
  decode_ack_batch (encode_ack_batch [true; false; true]) 3 = Ok [true; false; true].
Proof.
  apply decode_ack_batch_iff. split; [reflexivity|]. split; [reflexivity|]. by vm_compute.
Defined.
