(* ===== verification/Sink.v ===== *)
(** * The sink interface (weir-sink-sdk)

    What the drain hands to a sink and what a sink answers: [SinkBatch] with its
    [DedupToken] and one [RecordId] per record, [CommitResult], [SinkError] and
    [SinkHealth] of crates/weir-sink-sdk/src/lib.rs. A sink is a class of operations over
    a state of its own; the drain is written against the class and its theorems assume
    only the documented contract, that an answer accounts for every record of the batch. *)

From Stdlib Require Import ZArith Lia Strings.Byte String.
From stdpp Require Import base list option.
From S2P Require Import Prelude Deps.

(** ** What a sink answers *)

(** An error of any sink, as far as the drain looks at it. Durations are nanoseconds. *)
Record SinkError := mkSinkError {
  is_transient : bool;
  retry_after : option Z;
}.

(** [BasicSinkError]: the message aside, its classification; it never carries a hint. *)
Definition basic_transient : SinkError := mkSinkError true None.
Definition basic_permanent : SinkError := mkSinkError false None.

Record CommitResult := mkCommitResult {
  cr_committed : list bytes;
  cr_dead_lettered : list (bytes * bytes);
}.

Inductive SinkHealth := Healthy | Degraded (reason : bytes) | Down (reason : bytes).

(** ** What the drain hands over *)

Section Identities.
Context {SHA : Sha256}.

(** What the token hashes: every payload behind its length. *)
Definition dedup_input (payloads : list bytes) : bytes :=
  concat (map (λ p, le_bytes 8 (blen p) ++ p) payloads).

(** [DedupToken::for_payloads]. *)
Definition for_payloads (payloads : list bytes) : bytes := sha256 (dedup_input payloads).

Definition record_input (segment : bytes) (index : Z) (payload : bytes) : bytes :=
  le_bytes 8 (blen segment) ++ segment ++ le_bytes 8 index ++ le_bytes 8 (blen payload) ++ payload.

(** [RecordId::for_record]. *)
Definition for_record (segment : bytes) (index : Z) (payload : bytes) : bytes :=
  sha256 (record_input segment index payload).
End Identities.

Record SinkBatch := mkSinkBatch {
  sb_records : list bytes;
  sb_dedup_token : bytes;
  sb_record_ids : option (list bytes);
  sb_segment_created_at : option Z;
}.

(** [SinkBatch::with_segment_context]; [None] is its panic. *)
Definition with_segment_context (records : list bytes) (dedup_token : bytes) (record_ids : list bytes)
    (segment_created_at : Z) : option SinkBatch :=
  if Nat.eqb (length records) (length record_ids)
  then Some (mkSinkBatch records dedup_token (Some record_ids) (Some segment_created_at))
  else None.

(** ** The trait *)

(** How a call into the sink ends for the drain: it answers, it is still pending when the
    drain's own limits end it, or it panics. *)
Inductive Call A := Answered (a : A) | Silent | Panicked.
Arguments Answered {A} a.
Arguments Silent {A}.
Arguments Panicked {A}.

Class Sink := {
  sink_state : Type;
  max_batch_size : sink_state → Z;
  commit : SinkBatch → sink_state → Call (result CommitResult SinkError) * sink_state;
  health : sink_state → Call SinkHealth * sink_state;
}.

(** The contract of [CommitResult]: an answer of the right size is a partition of the
    batch. The drain checks the size, and nothing else. *)
Class SinkContract `{Sink} : Prop := {
  commit_partitions b st cr st' :
    commit b st = (Answered (Ok cr), st') →
    blen (cr_committed cr) + blen (cr_dead_lettered cr) = blen (sb_records b) →
    sb_records b ≡ₚ cr_committed cr ++ map fst (cr_dead_lettered cr);
}.

(** ** Identities *)

Lemma framed_inj (p q r s : bytes) :
  blen p < 2 ^ 64 → blen q < 2 ^ 64 →
  le_bytes 8 (blen p) ++ p ++ r = le_bytes 8 (blen q) ++ q ++ s → p = q ∧ r = s.
Proof.
  intros Hp Hq H. apply app_inj_1 in H as [Hl H]; [|by rewrite !length_le_bytes].
  apply (f_equal le_val) in Hl. pose proof (blen_nonneg p). pose proof (blen_nonneg q).
  rewrite !le_val_le_bytes in Hl by (change (256 ^ Z.of_nat 8) with (2 ^ 64); lia).
  apply app_inj_1 in H; [done|]. unfold blen in Hl. lia.
Qed.

(** The framing of the token is prefix-free: the hashed bytes determine the batch. *)
Lemma dedup_input_inj ps qs :
  Forall (λ p, blen p < 2 ^ 64) ps → Forall (λ p, blen p < 2 ^ 64) qs →
  dedup_input ps = dedup_input qs → ps = qs.
Proof.
  intros Hps. revert qs. induction Hps as [|p ps Hp Hps IH]; intros [|q qs] Hqs H; try done;
    cbn [dedup_input map concat] in H; rewrite <-?app_assoc in H.
  apply Forall_cons_1 in Hqs as [Hq Hqs]. apply framed_inj in H as [-> H]; [|done|done].
  f_equal. by apply IH.
Qed.

(** So is that of a record's identity: segment, index and payload are determined. *)
Lemma record_input_inj s i p s' i' p' :
  blen s < 2 ^ 64 → blen s' < 2 ^ 64 → blen p < 2 ^ 64 → blen p' < 2 ^ 64 → is_u64 i → is_u64 i' →
  record_input s i p = record_input s' i' p' → s = s' ∧ i = i' ∧ p = p'.
Proof.
  intros Hs Hs' Hp Hp' Hi Hi' H. unfold record_input in H.
  apply framed_inj in H as [-> H]; [|done|done]. split; [done|].
  apply app_inj_1 in H as [Hl H]; [|by rewrite !length_le_bytes].
  apply (f_equal le_val) in Hl. rewrite !le_val_le_bytes in Hl by (unfold is_u64 in *; done). split; [done|].
  assert (H' : le_bytes 8 (blen p) ++ p ++ [] = le_bytes 8 (blen p') ++ p' ++ [])
    by (by rewrite !app_nil_r).
  by apply framed_inj in H' as [-> _].
Qed.
