(* ===== verification/Text.v ===== *)
(** * Text: UTF-8 and decimal numbers

    What the sources use of [str], [OsStr] and integer formatting and parsing: the
    validity of UTF-8 ([str::from_utf8], [OsStr::to_str]), the lossy conversion
    ([to_string_lossy]), [format!] with a minimum width and [str::parse] into an
    unsigned integer. *)

From Stdlib Require Import ZArith Lia Strings.Byte String.
From stdpp Require Import base list option.
From S2P Require Import Prelude.

(** ** UTF-8 *)

Definition in_range (lo hi : Z) (b : byte) : bool := (lo <=? b2z b) && (b2z b <=? hi).
Definition is_cont : byte → bool := in_range 0x80 0xBF.

(** The admissible second byte of a three-, respectively four-byte sequence. *)
Definition second_of_3 (a b : byte) : bool :=
  let z := b2z a in
  if z =? 0xE0 then in_range 0xA0 0xBF b
  else if z =? 0xED then in_range 0x80 0x9F b
  else in_range 0x80 0xBF b.
Definition second_of_4 (a b : byte) : bool :=
  let z := b2z a in
  if z =? 0xF0 then in_range 0x90 0xBF b
  else if z =? 0xF4 then in_range 0x80 0x8F b
  else in_range 0x80 0xBF b.

(** The first character of a non-empty string: how many bytes it takes and whether it is
    well formed (when not, the bytes of the maximal invalid prefix). *)
Definition utf8_step (l : bytes) : nat * bool :=
  match l with
  | [] => (0%nat, true)
  | a :: l =>
    let z := b2z a in
    if z <? 0x80 then (1%nat, true)
    else if (0xC2 <=? z) && (z <=? 0xDF) then
      match l with
      | b :: _ => if is_cont b then (2%nat, true) else (1%nat, false)
      | [] => (1%nat, false)
      end
    else if (0xE0 <=? z) && (z <=? 0xEF) then
      match l with
      | b :: l =>
        if second_of_3 a b then
          match l with
          | c :: _ => if is_cont c then (3%nat, true) else (2%nat, false)
          | [] => (2%nat, false)
          end
        else (1%nat, false)
      | [] => (1%nat, false)
      end
    else if (0xF0 <=? z) && (z <=? 0xF4) then
      match l with
      | b :: l =>
        if second_of_4 a b then
          match l with
          | c :: l =>
            if is_cont c then
              match l with
              | d :: _ => if is_cont d then (4%nat, true) else (3%nat, false)
              | [] => (3%nat, false)
              end
            else (2%nat, false)
          | [] => (2%nat, false)
          end
        else (1%nat, false)
      | [] => (1%nat, false)
      end
    else (1%nat, false)
  end.

Fixpoint utf8_valid_loop (fuel : nat) (l : bytes) : bool :=
  match fuel with
  | O => match l with [] => true | _ => false end
  | S fuel =>
    match l with
    | [] => true
    | _ => let '(n, ok) := utf8_step l in ok && utf8_valid_loop fuel (drop n l)
    end
  end.

(** [str::from_utf8(l).is_ok()]. *)
Definition utf8_valid (l : bytes) : bool := utf8_valid_loop (length l) l.

(** [OsStr::to_str] on Unix. *)
Definition to_str (l : bytes) : option bytes := if utf8_valid l then Some l else None.

(** U+FFFD in UTF-8. *)
Definition REPLACEMENT : bytes := [xef; xbf; xbd].

Fixpoint lossy_loop (fuel : nat) (l : bytes) : bytes :=
  match fuel with
  | O => []
  | S fuel =>
    match l with
    | [] => []
    | _ =>
      let '(n, ok) := utf8_step l in
      (if ok : bool then take n l else REPLACEMENT) ++ lossy_loop fuel (drop n l)
    end
  end.

(** [OsStr::to_string_lossy]. *)
Definition to_string_lossy (l : bytes) : bytes := lossy_loop (length l) l.

Lemma utf8_step_pos l : l ≠ [] → (1 ≤ (utf8_step l).1)%nat.
Proof. intros Hl. unfold utf8_step. repeat split_goal; simpl; try lia. done. Qed.

Lemma lossy_valid_loop f1 f2 l :
  (length l ≤ f2)%nat → utf8_valid_loop f1 l = true → lossy_loop f2 l = l.
Proof.
  revert f1 l. induction f2 as [|f2 IH]; intros f1 l Hl Hv.
  { destruct l; [done|simpl in Hl; lia]. }
  destruct l as [|a l]; [done|]. cbn [lossy_loop].
  destruct f1 as [|f1]; [done|]. cbn [utf8_valid_loop] in Hv.
  pose proof (utf8_step_pos (a :: l) ltac:(done)) as Hn.
  destruct (utf8_step (a :: l)) as [n ok]. cbn in Hn. b2p. subst ok.
  rewrite (IH f1); [apply take_drop| |done].
  rewrite length_drop. simpl in *. lia.
Qed.

(** Valid text is unchanged by the lossy conversion. *)
Lemma to_string_lossy_valid l : utf8_valid l = true → to_string_lossy l = l.
Proof. intros Hv. by apply (lossy_valid_loop (length l)). Qed.

(** ASCII text is valid, on its own and in front of valid text. *)
Definition is_ascii (b : byte) : bool := b2z b <? 0x80.

Lemma utf8_valid_ascii_app_loop f1 f2 l r :
  forallb is_ascii l = true → (length (l ++ r) ≤ f1)%nat →
  utf8_valid_loop f2 r = true → (length r ≤ f2)%nat → (f2 ≤ f1 - length l)%nat →
  utf8_valid_loop f1 (l ++ r) = utf8_valid_loop (f1 - length l) r.
Proof.
  revert f1. induction l as [|a l IH]; intros f1 Ha Hf Hv Hr Hf2; [by rewrite Nat.sub_0_r|].
  cbn [forallb] in Ha. b2p. destruct f1 as [|f1]; [simpl in Hf; lia|].
  cbn [app utf8_valid_loop length Nat.sub]. unfold utf8_step. unfold is_ascii in *. rewrite H.
  cbn [andb drop]. apply IH; simpl in *; try done; lia.
Qed.

Lemma utf8_valid_ascii l : forallb is_ascii l = true → utf8_valid l = true.
Proof.
  intros Ha. unfold utf8_valid. rewrite <-(app_nil_r l) at 2.
  rewrite (utf8_valid_ascii_app_loop _ 0); rewrite ?app_nil_r; try done.
  - rewrite Nat.sub_diag. done.
  - simpl. lia.
Qed.

(** ** Decimal numbers *)

Definition digit (z : Z) : byte := z2b (0x30 + z mod 10).
Definition is_digit : byte → bool := in_range 0x30 0x39.
Definition digit_val (b : byte) : Z := b2z b - 0x30.

(** Decimal digits of [z], least significant first; [fuel] digits at most. *)
Fixpoint digits_rev (fuel : nat) (z : Z) : bytes :=
  match fuel with
  | O => []
  | S fuel => digit z :: (if z / 10 =? 0 then [] else digits_rev fuel (z / 10))
  end.

(** [format!("{z}")] of an unsigned integer: no more decimal than binary digits. *)
Definition dec (z : Z) : bytes := rev (digits_rev (S (Z.to_nat (Z.log2 z))) z).

(** [format!("{z:0w}")]: a minimum width, padded with zeros. *)
Definition dec_pad (w : nat) (z : Z) : bytes :=
  let d := dec z in replicate (w - length d) (digit 0) ++ d.

(** The value of a digit string, most significant first. *)
Definition dec_val (l : bytes) : Z := foldl (λ acc b, acc * 10 + digit_val b) 0 l.

(** [str::parse::<u64>()]: an optional plus sign, at least one digit, no overflow. *)
Definition parse_u64 (l : bytes) : option Z :=
  let l := if bool_decide (head l = Some x2b) then tail l else l in
  match l with
  | [] => None
  | _ => if forallb is_digit l then
           let v := dec_val l in if v <=? u64_max then Some v else None
         else None
  end.

(** ** Hexadecimal *)

Definition hex_digit (z : Z) : byte := z2b (if z <? 10 then 0x30 + z else 0x61 + (z - 10)).

(** [write!(out, "{b:02x}")]. *)
Definition hex_byte (b : byte) : bytes := [hex_digit (b2z b / 16); hex_digit (b2z b mod 16)].

(** [to_hex] of a digest: two lower-case characters a byte. *)
Definition to_hex (h : bytes) : bytes := concat (map hex_byte h).

Lemma b2z_digit z : b2z (digit z) = 0x30 + z mod 10.
Proof.
  unfold digit. rewrite b2z_z2b. apply Z.mod_small.
  pose proof (Z.mod_pos_bound z 10). lia.
Qed.

Lemma is_digit_digit z : is_digit (digit z) = true.
Proof.
  unfold is_digit, in_range. rewrite b2z_digit. pose proof (Z.mod_pos_bound z 10).
  apply andb_true_iff. split; apply Z.leb_le; lia.
Qed.

Lemma is_digit_ascii b : is_digit b = true → is_ascii b = true.
Proof. unfold is_digit, in_range, is_ascii. intros H. b2p. apply Z.ltb_lt. lia. Qed.

Lemma forallb_digits_rev fuel z : forallb is_digit (digits_rev fuel z) = true.
Proof.
  revert z. induction fuel as [|fuel IH]; intros z; [done|]. cbn [digits_rev forallb].
  rewrite is_digit_digit. destruct (z / 10 =? 0); [done|]. apply IH.
Qed.

Lemma forallb_rev {A} (f : A → bool) l : forallb f (rev l) = forallb f l.
Proof.
  induction l as [|a l IH]; [done|]. simpl. rewrite forallb_app, IH. simpl.
  rewrite andb_true_r. apply andb_comm.
Qed.

Lemma forallb_dec_pad w z : forallb is_digit (dec_pad w z) = true.
Proof.
  unfold dec_pad, dec. rewrite forallb_app, forallb_rev, forallb_digits_rev, andb_true_r.
  generalize (w - length (rev (digits_rev (S (Z.to_nat (Z.log2 z))) z)))%nat. intros n. induction n as [|n IH]; [done|].
  simpl. by rewrite IH.
Qed.

Lemma dec_val_app l r :
  dec_val (l ++ r) = foldl (λ acc b, acc * 10 + digit_val b) (dec_val l) r.
Proof. unfold dec_val. by rewrite foldl_app. Qed.

Lemma dec_val_digits fuel z :
  0 ≤ z < 10 ^ Z.of_nat fuel → fuel ≠ 0%nat → dec_val (rev (digits_rev fuel z)) = z.
Proof.
  revert z. induction fuel as [|fuel IH]; intros z Hz Hf; [done|].
  cbn [digits_rev rev]. rewrite dec_val_app. cbn [foldl]. unfold digit_val at 1. rewrite b2z_digit.
  pose proof (Z.div_mod z 10 ltac:(lia)) as Hdm.
  destruct (Z.eqb_spec (z / 10) 0) as [H0|H0].
  - cbn. lia.
  - assert (Hz' : 0 ≤ z / 10 < 10 ^ Z.of_nat fuel).
    { rewrite Nat2Z.inj_succ, Z.pow_succ_r in Hz by lia. split; [apply Z.div_pos; lia|].
      apply Z.div_lt_upper_bound; lia. }
    assert (fuel ≠ 0%nat) by (intros ->; simpl in Hz'; lia).
    rewrite IH by done. lia.
Qed.

Lemma dec_val_zeros n l : dec_val (replicate n (digit 0) ++ l) = dec_val l.
Proof. rewrite dec_val_app. induction n as [|n IH]; [done|]. simpl. exact IH. Qed.

(** A formatted number has its own value. *)
Lemma dec_val_dec_pad w z : 0 ≤ z → dec_val (dec_pad w z) = z.
Proof.
  intros Hz. unfold dec_pad. rewrite dec_val_zeros. unfold dec. apply dec_val_digits; [|done].
  split; [done|]. destruct (decide (z = 0)) as [->|Hne]; [by vm_compute|].
  pose proof (Z.log2_nonneg z). rewrite Nat2Z.inj_succ, Z2Nat.id by done.
  apply Z.lt_le_trans with (2 ^ Z.succ (Z.log2 z)); [apply Z.log2_spec; lia|].
  apply Z.pow_le_mono_l. lia.
Qed.

Lemma dec_pad_inj w y z : 0 ≤ y → 0 ≤ z → dec_pad w y = dec_pad w z → y = z.
Proof. intros Hy Hz He. rewrite <-(dec_val_dec_pad w y), <-(dec_val_dec_pad w z) by done. by rewrite He. Qed.

Lemma dec_pad_nonempty w z : dec_pad w z ≠ [].
Proof.
  unfold dec_pad, dec. cbn [digits_rev rev]. intros H. apply app_nil in H as [_ H].
  apply app_nil in H as [_ H]. done.
Qed.
