(* ===== verification/Coordinate.v ===== *)
(** * Record coordinates (weir-core)

    [RecordCoordinate] and the [AckTracked] payload codec of
    crates/weir-core/src/coordinate.rs. A [String] is a byte string that is valid
    UTF-8. *)

From Stdlib Require Import ZArith Lia Strings.Byte String.
From stdpp Require Import base list option.
From S2P Require Import Prelude Text.

Definition COORDINATE_VERSION : byte := x01.
Definition COORDINATE_FIXED_LEN : Z := 1 + 8 + 32 + 2.
Definition MAX_SEGMENT_NAME_LEN : Z := 255.
Definition MAX_TRACKED_ACK_PAYLOAD_LEN : Z := COORDINATE_FIXED_LEN + MAX_SEGMENT_NAME_LEN.

Record RecordCoordinate := mkRecordCoordinate {
  rc_segment : bytes;
  rc_index : Z;
  rc_record_id : bytes;
}.

#[global] Instance record_coordinate_eq_dec : EqDecision RecordCoordinate.
Proof. solve_decision. Defined.

Inductive CoordinateError :=
| CTruncated (len need : Z)
| CUnsupportedVersion (version : byte)
| CSegmentTooLong (len cap : Z)
| CLengthMismatch (declared actual : Z)
| CSegmentNotUtf8.

(** [RecordCoordinate::new]. *)
Definition coordinate_new (segment : bytes) (index : Z) (record_id : bytes)
    : result RecordCoordinate CoordinateError :=
  if MAX_SEGMENT_NAME_LEN <? blen segment then
    Err (CSegmentTooLong (blen segment) MAX_SEGMENT_NAME_LEN)
  else Ok (mkRecordCoordinate segment index record_id).

(** [RecordCoordinate::encode]. *)
Definition coordinate_encode (c : RecordCoordinate) : bytes :=
  [COORDINATE_VERSION] ++ le_bytes 8 (rc_index c) ++ rc_record_id c
    ++ le_bytes 2 (blen (rc_segment c)) ++ rc_segment c.

(** [RecordCoordinate::decode]. *)
Definition coordinate_decode (buf : bytes) : result RecordCoordinate CoordinateError :=
  if blen buf <? COORDINATE_FIXED_LEN then Err (CTruncated (blen buf) COORDINATE_FIXED_LEN) else
  let version := buf !!! 0%nat in
  if negb (bool_decide (version = COORDINATE_VERSION)) then Err (CUnsupportedVersion version) else
  let index := le_val (slice 1 9 buf) in
  let record_id := slice 9 41 buf in
  let segment_len := le_val (slice 41 43 buf) in
  if MAX_SEGMENT_NAME_LEN <? segment_len then
    Err (CSegmentTooLong segment_len MAX_SEGMENT_NAME_LEN) else
  let expected := COORDINATE_FIXED_LEN + segment_len in
  if negb (blen buf =? expected) then Err (CLengthMismatch expected (blen buf)) else
  let segment := drop 43 buf in
  if utf8_valid segment then Ok (mkRecordCoordinate segment index record_id)
  else Err CSegmentNotUtf8.

(** What the Rust types and the constructor guarantee of a coordinate. *)
Record coordinate_wf (c : RecordCoordinate) : Prop := {
  cwf_segment : utf8_valid (rc_segment c) = true;
  cwf_len : blen (rc_segment c) ≤ MAX_SEGMENT_NAME_LEN;
  cwf_index : is_u64 (rc_index c);
  cwf_id : length (rc_record_id c) = 32%nat;
}.

Lemma coordinate_split buf :
  (43 ≤ length buf)%nat →
  buf = [buf !!! 0%nat] ++ slice 1 9 buf ++ slice 9 41 buf ++ slice 41 43 buf ++ drop 43 buf.
Proof.
  intros Hl. assert (H1 : [buf !!! 0%nat] = slice 0 1 buf) by (destruct buf; [simpl in Hl; lia|done]).
  rewrite H1, !app_assoc, !slice_split by lia.
  unfold slice. rewrite drop_0, Nat.sub_0_r. by rewrite take_drop.
Qed.

(** The coordinate codec is exact: a payload decodes to a coordinate if and only if it
    is that coordinate's encoding and the coordinate is well formed (UTF-8 name within
    the cap, a [u64] ordinal, a 32-byte id). *)
Theorem coordinate_decode_iff buf c :
  coordinate_decode buf = Ok c ↔ buf = coordinate_encode c ∧ coordinate_wf c.
Proof.
  split.
  - unfold coordinate_decode, COORDINATE_FIXED_LEN, MAX_SEGMENT_NAME_LEN.
    destruct (Z.ltb_spec (blen buf) (1 + 8 + 32 + 2)) as [|Hl]; [done|].
    assert (43 ≤ length buf)%nat by (unfold blen in Hl; lia).
    destruct (bool_decide_reflect (buf !!! 0%nat = COORDINATE_VERSION)) as [Hv|]; [|done]. cbn [negb].
    destruct (Z.ltb_spec 255 (le_val (slice 41 43 buf))) as [|Hs]; [done|].
    destruct (Z.eqb_spec (blen buf) (1 + 8 + 32 + 2 + le_val (slice 41 43 buf))) as [He|]; [|done].
    cbn [negb]. destruct (utf8_valid (drop 43 buf)) eqn:Hu; [|done]. intros [= <-].
    assert (Hd : blen (drop 43 buf) = le_val (slice 41 43 buf)).
    { unfold blen in *. rewrite length_drop. lia. }
    split.
    + unfold coordinate_encode. cbn [rc_index rc_record_id rc_segment].
      rewrite Hd, !le_bytes_le_val' by (rewrite length_slice; lia).
      rewrite <-Hv. by apply coordinate_split.
    + constructor; cbn [rc_index rc_record_id rc_segment]; [done|unfold MAX_SEGMENT_NAME_LEN; lia| |].
      * pose proof (le_val_range (slice 1 9 buf)) as Hr. unfold blen in Hr.
        rewrite length_slice in Hr by lia. exact Hr.
      * rewrite length_slice; lia.
  - intros (-> & [Hu Hl Hi Hid]). destruct c as [seg ix id]. cbn [rc_segment rc_index rc_record_id] in *.
    unfold MAX_SEGMENT_NAME_LEN in Hl. pose proof (blen_nonneg seg) as H0.
    set (buf := coordinate_encode _).
    assert (Hb : buf = ([COORDINATE_VERSION] ++ le_bytes 8 ix) ++ id ++ le_bytes 2 (blen seg) ++ seg) by done.
    assert (Hlen : blen buf = 43 + blen seg).
    { rewrite Hb. unfold blen in *. rewrite !length_app, !length_le_bytes. simpl. lia. }
    assert (S1 : slice 9 41 buf = id).
    { rewrite Hb, slice_app_r, slice_app_l by (simpl; lia). simpl Nat.sub.
      rewrite <-Hid. apply slice_all. }
    assert (S2 : slice 41 43 buf = le_bytes 2 (blen seg)).
    { rewrite Hb, slice_app_r by (simpl; lia). rewrite slice_app_r by (simpl; lia). rewrite Hid.
      by rewrite slice_app_l by (simpl; lia). }
    assert (S3 : drop 43 buf = seg).
    { rewrite Hb, drop_app_ge by (simpl; lia). rewrite drop_app_ge by (simpl; lia). by rewrite Hid. }
    unfold coordinate_decode. rewrite Hlen, S1, S2, S3. change (slice 1 9 buf) with (le_bytes 8 ix).
    rewrite !le_val_le_bytes by (exact Hi || (change (256 ^ Z.of_nat 2) with 65536; lia)).
    unfold COORDINATE_FIXED_LEN, MAX_SEGMENT_NAME_LEN.
    rewrite (proj2 (Z.ltb_ge _ _)) by lia. change (buf !!! 0%nat) with COORDINATE_VERSION.
    rewrite bool_decide_eq_true_2 by done. cbn [negb].
    rewrite (proj2 (Z.ltb_ge _ _)) by lia. rewrite (proj2 (Z.eqb_eq _ _)) by lia. cbn [negb].
    by rewrite Hu.
Qed.

Lemma coordinate_decode_iff_witness :
  let c := mkRecordCoordinate (bstr "shard_00/seg_00000001.wab.sealed") 7 (replicate 32 x2a) in
  coordinate_decode (coordinate_encode c) = Ok c.
Proof.
  apply coordinate_decode_iff. split; [reflexivity|].
  by constructor; vm_compute.
Defined.
