(* ===== verification/Names.v ===== *)
(** * Segment and shard names

    Paths and the naming scheme that the writer, recovery and the drain share:
    [segment_path], [sealed_path_for], [segment_identity], [segment_counter_from_path],
    [shard_id_from_path] (crates/weir-server/src/wab/segment.rs), [shard_dir_path]
    (crates/weir-server/src/wab/mod.rs) and [confirmed_path_for]
    (crates/weir-wab/src/format.rs). A path is the list of its components. *)

From Stdlib Require Import ZArith Lia Strings.Byte String.
From stdpp Require Import base gmap list option.
From S2P Require Import Prelude Text.

Abbreviation path := (list bytes).

Definition EXT_ACTIVE : bytes := bstr ".wab".
Definition EXT_SEALED : bytes := bstr ".wab.sealed".
Definition EXT_CONFIRMED : bytes := bstr ".wab.confirmed".

(** [Path::file_name] and [Path::parent]. *)
Definition file_name (p : path) : option bytes := list.last p.
Definition parent (p : path) : path := take (length p - 1) p.
(** [PathBuf::set_file_name] on a path that has a file name. *)
Definition set_file_name (p : path) (name : bytes) : path := parent p ++ [name].

(** [str::strip_prefix], [str::strip_suffix] and [str::ends_with]. *)
Definition strip_prefix (pre l : bytes) : option bytes :=
  if bool_decide (take (length pre) l = pre) then Some (drop (length pre) l) else None.
Definition strip_suffix (suf l : bytes) : option bytes :=
  if (length suf <=? length l)%nat && bool_decide (drop (length l - length suf) l = suf)
  then Some (take (length l - length suf) l) else None.
Definition ends_with (suf l : bytes) : bool :=
  match strip_suffix suf l with Some _ => true | None => false end.

Definition shard_dir_path (wab_dir : path) (shard_id : Z) : path :=
  wab_dir ++ [bstr "shard_" ++ dec_pad 2 shard_id].

Definition segment_path (shard_dir : path) (counter : Z) : path :=
  shard_dir ++ [bstr "seg_" ++ dec_pad 8 counter ++ EXT_ACTIVE].

(** The source panics on a path without a file name; no caller has one. *)
Definition sealed_path_for (active : path) : path :=
  let name := default [] (file_name active) in
  set_file_name active (name ++ default [] (strip_prefix EXT_ACTIVE EXT_SEALED)).

(** The suffix holds no separator, so stripping it from the path's text is stripping it
    from the last component. *)
Definition confirmed_path_for (sealed : path) : path :=
  let s := map to_string_lossy sealed in
  let name := default [] (file_name s) in
  set_file_name s (default name (strip_suffix EXT_SEALED name) ++ EXT_CONFIRMED).

Definition segment_identity (segment : path) : bytes :=
  let file := default [] (option_map to_string_lossy (file_name segment)) in
  match file_name (parent segment) with
  | Some shard => to_string_lossy shard ++ bstr "/" ++ file
  | None => file
  end.

(** The leading digit run of a string ([rest.find(|c| !c.is_ascii_digit())]). *)
Fixpoint digit_run (l : bytes) : bytes :=
  match l with
  | b :: l => if is_digit b then b :: digit_run l else []
  | [] => []
  end.

Definition segment_counter_from_path (p : path) : option Z :=
  name ← file_name p;
  name ← to_str name;
  rest ← strip_prefix (bstr "seg_") name;
  let run := digit_run rest in
  if (length run =? 0)%nat then None else parse_u64 run.

Definition shard_id_from_path (p : path) : option Z :=
  name ← file_name p;
  name ← to_str name;
  rest ← strip_prefix (bstr "shard_") name;
  parse_u64 rest.

(** ** Lemmas *)

Lemma file_name_snoc d n : file_name (d ++ [n]) = Some n.
Proof. apply last_snoc. Qed.

Lemma parent_snoc d n : parent (d ++ [n]) = d.
Proof. unfold parent. rewrite length_app. simpl. rewrite Nat.add_sub. apply take_app_length. Qed.

Lemma set_file_name_snoc d n m : set_file_name (d ++ [n]) m = d ++ [m].
Proof. unfold set_file_name. by rewrite parent_snoc. Qed.

Lemma strip_prefix_app pre l : strip_prefix pre (pre ++ l) = Some l.
Proof. unfold strip_prefix. by rewrite take_app_length, drop_app_length, bool_decide_eq_true_2. Qed.

Lemma strip_suffix_app l suf : strip_suffix suf (l ++ suf) = Some l.
Proof.
  unfold strip_suffix. rewrite length_app, (proj2 (Nat.leb_le _ _)) by lia.
  rewrite Nat.add_sub, drop_app_length, take_app_length. by rewrite bool_decide_eq_true_2.
Qed.

Lemma strip_suffix_Some suf l r : strip_suffix suf l = Some r → l = r ++ suf.
Proof.
  unfold strip_suffix. intros H. split_hyp H; [|done]. injection H as <-. b2p.
  rewrite <-H0 at 2. by rewrite take_drop.
Qed.

Lemma ends_with_app l suf : ends_with suf (l ++ suf) = true.
Proof. unfold ends_with. by rewrite strip_suffix_app. Qed.

Lemma ends_with_spec suf l : ends_with suf l = true ↔ ∃ r, l = r ++ suf.
Proof.
  unfold ends_with. split.
  - intros H. split_hyp H; [|done]. exists l0. by apply strip_suffix_Some.
  - intros [r ->]. by rewrite strip_suffix_app.
Qed.

(** The three names of one segment. *)
Definition seg_base (counter : Z) : bytes := bstr "seg_" ++ dec_pad 8 counter.

Lemma segment_path_eq d n : segment_path d n = d ++ [seg_base n ++ EXT_ACTIVE].
Proof. unfold segment_path, seg_base. by rewrite <-app_assoc. Qed.

Lemma sealed_path_for_snoc d b : sealed_path_for (d ++ [b ++ EXT_ACTIVE]) = d ++ [b ++ EXT_SEALED].
Proof.
  unfold sealed_path_for. rewrite file_name_snoc, set_file_name_snoc. cbn [from_option id].
  change (default [] (strip_prefix EXT_ACTIVE EXT_SEALED)) with (bstr ".sealed").
  by rewrite <-app_assoc.
Qed.

Lemma sealed_segment_path d n : sealed_path_for (segment_path d n) = d ++ [seg_base n ++ EXT_SEALED].
Proof. rewrite segment_path_eq. apply sealed_path_for_snoc. Qed.

Lemma is_ascii_seg_base n : forallb is_ascii (seg_base n) = true.
Proof.
  unfold seg_base. rewrite forallb_app. apply andb_true_iff. split; [done|].
  pose proof (forallb_dec_pad 8 n) as H. rewrite forallb_forall in H |- *.
  intros b Hb. apply is_digit_ascii. by apply H.
Qed.

(** A segment name of any lifecycle state carries its counter. *)
Lemma digit_run_app l b r : forallb is_digit l = true → is_digit b = false → digit_run (l ++ b :: r) = l.
Proof.
  intros Hl Hb. induction l as [|a l IH]; simpl in *; [by rewrite Hb|]. b2p. rewrite H. by rewrite IH.
Qed.

Lemma parse_dec_pad w z : is_u64 z → parse_u64 (dec_pad w z) = Some z.
Proof.
  intros Hz. unfold parse_u64.
  assert (Hd := forallb_dec_pad w z). assert (Hn := dec_pad_nonempty w z).
  destruct (dec_pad w z) as [|b l] eqn:E; [done|].
  assert (Hb : is_digit b = true) by (simpl in Hd; by b2p).
  rewrite bool_decide_eq_false_2 by (intros [= ->]; done).
  rewrite Hd, <-E, dec_val_dec_pad by (destruct Hz; lia).
  rewrite (proj2 (Z.leb_le _ _)); [done|]. unfold is_u64, u64_max in *. lia.
Qed.

Lemma counter_of_name d n (ext : bytes) :
  is_u64 n → forallb is_ascii ext = true → (∃ r, ext = x2e :: r) →
  segment_counter_from_path (d ++ [seg_base n ++ ext]) = Some n.
Proof.
  intros Hn Ha [r ->]. unfold segment_counter_from_path. rewrite file_name_snoc. cbn [mbind option_bind].
  unfold to_str. rewrite utf8_valid_ascii by (by rewrite forallb_app, is_ascii_seg_base).
  cbn [mbind option_bind]. unfold seg_base. rewrite <-app_assoc, strip_prefix_app. cbn [mbind option_bind].
  rewrite digit_run_app by (done || apply forallb_dec_pad).
  destruct (Nat.eqb_spec (length (dec_pad 8 n)) 0) as [H0|_].
  - apply nil_length_inv in H0. by apply dec_pad_nonempty in H0.
  - by apply parse_dec_pad.
Qed.

(** The sidecar of a sealed segment is named after the same base. *)
Lemma confirmed_segment_path d n :
  forallb utf8_valid d = true →
  confirmed_path_for (sealed_path_for (segment_path d n)) = d ++ [seg_base n ++ EXT_CONFIRMED].
Proof.
  intros Hd. rewrite sealed_segment_path. unfold confirmed_path_for. rewrite map_app. cbn [map].
  rewrite file_name_snoc, set_file_name_snoc. cbn [from_option id].
  rewrite (to_string_lossy_valid (seg_base n ++ EXT_SEALED)).
  2: { apply utf8_valid_ascii. by rewrite forallb_app, is_ascii_seg_base. }
  rewrite strip_suffix_app. cbn [from_option id]. f_equal.
  induction d as [|c d IH]; [done|]. cbn [forallb map] in *. b2p.
  by rewrite to_string_lossy_valid, IH.
Qed.

(** The segment counter is read back from every name a segment has in its life (active,
    sealed, confirmed), so a counter scan sees segments in every state. *)
Theorem segment_counter_roundtrip d n :
  is_u64 n → forallb utf8_valid d = true →
  let active := segment_path d n in
  let sealed := sealed_path_for active in
  segment_counter_from_path active = Some n ∧ segment_counter_from_path sealed = Some n ∧
  segment_counter_from_path (confirmed_path_for sealed) = Some n.
Proof.
  intros Hn Hd. cbv zeta. rewrite confirmed_segment_path, sealed_segment_path, segment_path_eq by done.
  split; [|split]; apply counter_of_name; (done || by eexists).
Qed.

Lemma segment_counter_roundtrip_witness :
  segment_counter_from_path (segment_path [bstr "wab"; bstr "shard_00"] 12) = Some 12.
Proof. apply segment_counter_roundtrip; by vm_compute. Defined.

Lemma counter_active d n : is_u64 n → segment_counter_from_path (segment_path d n) = Some n.
Proof. intros Hn. rewrite segment_path_eq. by apply counter_of_name; [..|eexists]. Qed.

Lemma counter_sealed d n :
  is_u64 n → segment_counter_from_path (sealed_path_for (segment_path d n)) = Some n.
Proof. intros Hn. rewrite sealed_segment_path. by apply counter_of_name; [..|eexists]. Qed.

Lemma seg_base_inj n m : 0 ≤ n → 0 ≤ m → seg_base n = seg_base m → n = m.
Proof. intros Hn Hm He. unfold seg_base in He. apply app_inv_head in He. by apply (dec_pad_inj 8). Qed.

Lemma segment_name_inj d e n m ext :
  0 ≤ n → 0 ≤ m → d ++ [seg_base n ++ ext] = e ++ [seg_base m ++ ext] → d = e ∧ n = m.
Proof.
  intros Hn Hm He. apply app_inj_2 in He as [-> He]; [|done].
  assert (Hb : seg_base n ++ ext = seg_base m ++ ext) by congruence.
  apply app_inv_tail in Hb. split; [done|]. by apply seg_base_inj.
Qed.

Lemma segment_path_inj d e n m :
  0 ≤ n → 0 ≤ m → segment_path d n = segment_path e m → d = e ∧ n = m.
Proof. intros Hn Hm. rewrite !segment_path_eq. by apply segment_name_inj. Qed.

Lemma sealed_path_inj d e n m :
  0 ≤ n → 0 ≤ m →
  sealed_path_for (segment_path d n) = sealed_path_for (segment_path e m) → d = e ∧ n = m.
Proof. intros Hn Hm. rewrite !sealed_segment_path. by apply segment_name_inj. Qed.

Lemma parent_segment_path d n : parent (segment_path d n) = d.
Proof. rewrite segment_path_eq. apply parent_snoc. Qed.

Lemma parent_sealed_path d n : parent (sealed_path_for (segment_path d n)) = d.
Proof. rewrite sealed_segment_path. apply parent_snoc. Qed.

Lemma bytes_suffix_neq (l r s1 s2 : bytes) :
  length s1 ≠ length s2 → ¬ (∃ t, s1 = t ++ s2 ∨ s2 = t ++ s1) → l ++ s1 ≠ r ++ s2.
Proof.
  intros _ Hn He. apply Hn. destruct (decide (length l ≤ length r)%nat).
  - destruct (app_eq_inv l s1 r s2 He) as [(t & -> & ->)|(t & -> & ->)]; eauto.
  - destruct (app_eq_inv l s1 r s2 He) as [(t & -> & ->)|(t & -> & ->)]; eauto.
Qed.

(** An active name is never a sealed name. *)
Lemma active_suffix_not_sealed (b b' : bytes) : b ++ EXT_ACTIVE ≠ b' ++ EXT_SEALED.
Proof.
  apply bytes_suffix_neq; [done|]. intros [t [H|H]].
  - apply (f_equal length) in H. rewrite length_app in H. simpl in H. lia.
  - change EXT_SEALED with (bstr ".wab.se" ++ bstr "aled") in H. change EXT_ACTIVE with ([] ++ bstr ".wab") in H.
    rewrite app_assoc in H. apply app_inj_2 in H as [_ H]; [|done]. done.
Qed.

Lemma active_not_sealed d e n m : segment_path d n ≠ sealed_path_for (segment_path e m).
Proof.
  rewrite sealed_segment_path, segment_path_eq. intros He. apply app_inj_2 in He as [_ He]; [|done].
  injection He as He. by apply active_suffix_not_sealed in He.
Qed.
