(* ===== verification/F64.v ===== *)
(** * Double-precision numbers

    What the status crates use of [f64]: the conversions from and to [u64], comparison,
    division and the total order. A number is a [spec_float] of the Standard Library at
    the binary64 format, which has one NaN. *)

From Stdlib Require Import ZArith Lia Floats.SpecFloat.
From stdpp Require Import base list option.
From S2P Require Import Prelude.

Abbreviation f64 := spec_float.

#[global] Instance f64_eq_dec : EqDecision f64.
Proof. solve_decision. Defined.

(** [z as f64] of an integer: to nearest, ties to even. *)
Definition f64_of (z : Z) : f64 := binary_normalize 53 1024 z 0 false.

(** [a / b]. *)
Definition f64_div (a b : f64) : f64 := SFdiv 53 1024 a b.

(** [a > b]. *)
Definition f64_gtb (a b : f64) : bool := SFltb b a.

(** [x as u64]: towards zero, saturating; zero for a NaN. *)
Definition f64_to_u64 (x : f64) : Z :=
  match x with
  | S754_nan | S754_zero _ => 0
  | S754_infinity neg => if neg then 0 else u64_max
  | S754_finite neg m e => if neg then 0 else Z.min u64_max (Z.shiftl (Zpos m) e)
  end.

(** [a.total_cmp(b) == Ordering::Greater]; the NaN is the positive one. *)
Definition f64_total_gt (a b : f64) : bool :=
  match SFcompare a b with
  | Some Gt => true
  | Some Lt => false
  | Some Eq => match a, b with S754_zero false, S754_zero true => true | _, _ => false end
  | None => match a, b with S754_nan, S754_nan => false | S754_nan, _ => true | _, _ => false end
  end.

(** [Iterator::max_by]: of several largest elements, the last. *)
Definition max_by {A} (gt : A → A → bool) (l : list A) : option A :=
  match l with
  | [] => None
  | x :: l => Some (foldl (λ a b, if gt a b then a else b) x l)
  end.

Lemma f64_to_u64_range x : is_u64 (f64_to_u64 x).
Proof.
  unfold is_u64, f64_to_u64, u64_max. destruct x as [s|s| |s m e]; try destruct s; try lia.
  pose proof (proj2 (Z.shiftl_nonneg (Zpos m) e) ltac:(lia)). lia.
Qed.

Lemma max_by_elem {A} (gt : A → A → bool) l x : max_by gt l = Some x → x ∈ l.
Proof.
  destruct l as [|y l]; [done|]. cbn. intros [= <-]. revert y. induction l as [|z l IH]; intros y; cbn; [by left|].
  destruct (gt y z); [|by right]. destruct (proj1 (elem_of_cons _ _ _) (IH y)) as [E|E]; [rewrite E; by left|by right; right].
Qed.
