(* ===== verification/Evidence.v ===== *)
(** * Status evidence (weir-status)

    The facts the status evaluator reads: the closed sets of wire codes and the evidence
    records of crates/weir-status/src/evidence.rs, the public configuration of config.rs
    and the segment identity of segment.rs. Strings are their bytes; a [BTreeMap] keyed by
    strings is a [gmap]. *)

From Stdlib Require Import ZArith Lia Strings.Byte String.
From stdpp Require Import base gmap list option.
From S2P Require Import Prelude Text Names F64.

(** ** Closed sets *)

(** What [closed_set!] generates: the values in declaration order, their wire names, the
    index of a value and its partial inverse. *)
Class ClosedSet (T : Type) := { cs_all : list T; as_u8 : T → Z; as_str : T → bytes }.
Definition from_u8 {T} `{ClosedSet T} (v : Z) : option T := cs_all !! Z.to_nat v.

Class ClosedSetLaws (T : Type) `{ClosedSet T} : Prop := {
  from_as_u8 (x : T) : from_u8 (as_u8 x) = Some x;
  as_u8_range (x : T) : 0 ≤ as_u8 x < blen (cs_all (T := T));
  as_str_ascii (x : T) : forallb is_ascii (as_str x) = true;
}.

Arguments as_u8 : simpl never.
Arguments from_u8 : simpl never.
Arguments as_str : simpl never.

Ltac closed_set := split; intros []; vm_compute; (reflexivity || (split; congruence)).

Inductive Phase := Initializing | Recovering | PhaseHandoff | Binding | Serving | PhaseShuttingDown.
Inductive Source := FromDaemon | FromMetrics | FromDisk | FromMetricsAndDisk.
Inductive ListenerKind := ListenUnix | ListenTcp.
Inductive ListenerState := LNotConfigured | LPending | LBound | LClosed | LFailed.
Inductive ShardState := Starting | Up | Respawning | Offline | Stopped.
Inductive OfflineReason := ReasonRespawnExhausted | ReasonCounterScanFailed | ReasonFlusherExited.
Inductive DrainStateCode := CodeDraining | CodeRetryingTransient | CodeBlockedDeadLetterFull | CodeStopped.
Inductive DrainExitCode := ExitRunning | ExitStopped | ExitGaveUp.
Inductive SinkHealthCode := SinkHealthy | SinkDegraded | SinkDown.
Inductive SinkFailureKind := FailTransient | FailPermanent | FailTimeout | FailContractViolation.
Inductive AdminState := AdminDisabled | AdminBound | AdminUnavailable.
Inductive AdminReason := ParentInsecure | PathTooLong | InUse | BindFailed.
Inductive ReloadTriggerCode := TriggerSighup | TriggerAdmin.
Inductive ReloadOutcomeCode := ReloadApplied | ReloadNoop | ReloadFailed.
Inductive ReloadItem := TlsCertificates | ConfigFile.
Inductive ReloadItemOutcome := ItemReloaded | ItemFailed | ItemNotConfigured.
Inductive NotReloadedReason := RestartRequired.

#[global] Instance phase_eq_dec : EqDecision Phase.
Proof. solve_decision. Defined.
#[global] Instance source_eq_dec : EqDecision Source.
Proof. solve_decision. Defined.
#[global] Instance listener_state_eq_dec : EqDecision ListenerState.
Proof. solve_decision. Defined.
#[global] Instance shard_state_eq_dec : EqDecision ShardState.
Proof. solve_decision. Defined.
#[global] Instance offline_reason_eq_dec : EqDecision OfflineReason.
Proof. solve_decision. Defined.
#[global] Instance drain_state_code_eq_dec : EqDecision DrainStateCode.
Proof. solve_decision. Defined.
#[global] Instance drain_exit_code_eq_dec : EqDecision DrainExitCode.
Proof. solve_decision. Defined.
#[global] Instance sink_health_code_eq_dec : EqDecision SinkHealthCode.
Proof. solve_decision. Defined.
#[global] Instance admin_state_eq_dec : EqDecision AdminState.
Proof. solve_decision. Defined.
#[global] Instance reload_item_eq_dec : EqDecision ReloadItem.
Proof. solve_decision. Defined.

#[global] Instance phase_set : ClosedSet Phase := {|
  cs_all := [Initializing; Recovering; PhaseHandoff; Binding; Serving; PhaseShuttingDown];
  as_u8 p := match p with
             | Initializing => 0 | Recovering => 1 | PhaseHandoff => 2 | Binding => 3 | Serving => 4 | PhaseShuttingDown => 5
             end;
  as_str p := match p with
              | Initializing => bstr "initializing" | Recovering => bstr "recovering" | PhaseHandoff => bstr "handoff"
              | Binding => bstr "binding" | Serving => bstr "serving" | PhaseShuttingDown => bstr "shutting_down"
              end;
|}.
#[global] Instance source_set : ClosedSet Source := {|
  cs_all := [FromDaemon; FromMetrics; FromDisk; FromMetricsAndDisk];
  as_u8 s := match s with FromDaemon => 0 | FromMetrics => 1 | FromDisk => 2 | FromMetricsAndDisk => 3 end;
  as_str s := match s with
              | FromDaemon => bstr "daemon" | FromMetrics => bstr "metrics" | FromDisk => bstr "disk"
              | FromMetricsAndDisk => bstr "metrics_and_disk"
              end;
|}.
#[global] Instance listener_kind_set : ClosedSet ListenerKind := {|
  cs_all := [ListenUnix; ListenTcp];
  as_u8 k := match k with ListenUnix => 0 | ListenTcp => 1 end;
  as_str k := match k with ListenUnix => bstr "unix" | ListenTcp => bstr "tcp" end;
|}.
#[global] Instance listener_state_set : ClosedSet ListenerState := {|
  cs_all := [LNotConfigured; LPending; LBound; LClosed; LFailed];
  as_u8 s := match s with LNotConfigured => 0 | LPending => 1 | LBound => 2 | LClosed => 3 | LFailed => 4 end;
  as_str s := match s with
              | LNotConfigured => bstr "not_configured" | LPending => bstr "pending" | LBound => bstr "bound"
              | LClosed => bstr "closed" | LFailed => bstr "failed"
              end;
|}.
#[global] Instance shard_state_set : ClosedSet ShardState := {|
  cs_all := [Starting; Up; Respawning; Offline; Stopped];
  as_u8 s := match s with Starting => 0 | Up => 1 | Respawning => 2 | Offline => 3 | Stopped => 4 end;
  as_str s := match s with
              | Starting => bstr "starting" | Up => bstr "up" | Respawning => bstr "respawning" | Offline => bstr "offline"
              | Stopped => bstr "stopped"
              end;
|}.
#[global] Instance offline_reason_set : ClosedSet OfflineReason := {|
  cs_all := [ReasonRespawnExhausted; ReasonCounterScanFailed; ReasonFlusherExited];
  as_u8 r := match r with
             | ReasonRespawnExhausted => 0 | ReasonCounterScanFailed => 1 | ReasonFlusherExited => 2
             end;
  as_str r := match r with
              | ReasonRespawnExhausted => bstr "respawn_exhausted" | ReasonCounterScanFailed => bstr "counter_scan_failed"
              | ReasonFlusherExited => bstr "flusher_exited"
              end;
|}.
#[global] Instance drain_state_set : ClosedSet DrainStateCode := {|
  cs_all := [CodeDraining; CodeRetryingTransient; CodeBlockedDeadLetterFull; CodeStopped];
  as_u8 s := match s with CodeDraining => 0 | CodeRetryingTransient => 1 | CodeBlockedDeadLetterFull => 2 | CodeStopped => 3 end;
  as_str s := match s with
              | CodeDraining => bstr "draining" | CodeRetryingTransient => bstr "retrying_transient"
              | CodeBlockedDeadLetterFull => bstr "blocked_dead_letter_full" | CodeStopped => bstr "stopped"
              end;
|}.
#[global] Instance drain_exit_set : ClosedSet DrainExitCode := {|
  cs_all := [ExitRunning; ExitStopped; ExitGaveUp];
  as_u8 s := match s with ExitRunning => 0 | ExitStopped => 1 | ExitGaveUp => 2 end;
  as_str s := match s with ExitRunning => bstr "running" | ExitStopped => bstr "stopped" | ExitGaveUp => bstr "gave_up" end;
|}.
#[global] Instance sink_health_set : ClosedSet SinkHealthCode := {|
  cs_all := [SinkHealthy; SinkDegraded; SinkDown];
  as_u8 s := match s with SinkHealthy => 0 | SinkDegraded => 1 | SinkDown => 2 end;
  as_str s := match s with SinkHealthy => bstr "healthy" | SinkDegraded => bstr "degraded" | SinkDown => bstr "down" end;
|}.
#[global] Instance sink_failure_set : ClosedSet SinkFailureKind := {|
  cs_all := [FailTransient; FailPermanent; FailTimeout; FailContractViolation];
  as_u8 s := match s with FailTransient => 0 | FailPermanent => 1 | FailTimeout => 2 | FailContractViolation => 3 end;
  as_str s := match s with
              | FailTransient => bstr "transient" | FailPermanent => bstr "permanent" | FailTimeout => bstr "timeout"
              | FailContractViolation => bstr "contract_violation"
              end;
|}.
#[global] Instance admin_state_set : ClosedSet AdminState := {|
  cs_all := [AdminDisabled; AdminBound; AdminUnavailable];
  as_u8 s := match s with AdminDisabled => 0 | AdminBound => 1 | AdminUnavailable => 2 end;
  as_str s := match s with
              | AdminDisabled => bstr "disabled" | AdminBound => bstr "bound" | AdminUnavailable => bstr "unavailable"
              end;
|}.
#[global] Instance admin_reason_set : ClosedSet AdminReason := {|
  cs_all := [ParentInsecure; PathTooLong; InUse; BindFailed];
  as_u8 s := match s with ParentInsecure => 0 | PathTooLong => 1 | InUse => 2 | BindFailed => 3 end;
  as_str s := match s with
              | ParentInsecure => bstr "parent_insecure" | PathTooLong => bstr "path_too_long" | InUse => bstr "in_use"
              | BindFailed => bstr "bind_failed"
              end;
|}.
#[global] Instance reload_item_set : ClosedSet ReloadItem := {|
  cs_all := [TlsCertificates; ConfigFile];
  as_u8 s := match s with TlsCertificates => 0 | ConfigFile => 1 end;
  as_str s := match s with TlsCertificates => bstr "tls_certificates" | ConfigFile => bstr "config_file" end;
|}.
#[global] Instance not_reloaded_set : ClosedSet NotReloadedReason := {|
  cs_all := [RestartRequired];
  as_u8 _ := 0;
  as_str _ := bstr "restart_required";
|}.

#[global] Instance phase_laws : ClosedSetLaws Phase.
Proof. closed_set. Qed.
#[global] Instance source_laws : ClosedSetLaws Source.
Proof. closed_set. Qed.
#[global] Instance listener_kind_laws : ClosedSetLaws ListenerKind.
Proof. closed_set. Qed.
#[global] Instance listener_state_laws : ClosedSetLaws ListenerState.
Proof. closed_set. Qed.
#[global] Instance shard_state_laws : ClosedSetLaws ShardState.
Proof. closed_set. Qed.
#[global] Instance offline_reason_laws : ClosedSetLaws OfflineReason.
Proof. closed_set. Qed.
#[global] Instance drain_state_laws : ClosedSetLaws DrainStateCode.
Proof. closed_set. Qed.
#[global] Instance drain_exit_laws : ClosedSetLaws DrainExitCode.
Proof. closed_set. Qed.
#[global] Instance sink_health_laws : ClosedSetLaws SinkHealthCode.
Proof. closed_set. Qed.
#[global] Instance sink_failure_laws : ClosedSetLaws SinkFailureKind.
Proof. closed_set. Qed.
#[global] Instance admin_state_laws : ClosedSetLaws AdminState.
Proof. closed_set. Qed.
#[global] Instance admin_reason_laws : ClosedSetLaws AdminReason.
Proof. closed_set. Qed.
#[global] Instance reload_item_laws : ClosedSetLaws ReloadItem.
Proof. closed_set. Qed.
#[global] Instance not_reloaded_laws : ClosedSetLaws NotReloadedReason.
Proof. closed_set. Qed.

(** [Phase::before_serving]: the derived order is the order of declaration. *)
Definition before_serving (p : Phase) : bool := as_u8 p <? as_u8 Serving.

(** ** Segment identities *)

Record SegmentId := mkSegmentId { sg_shard : Z; sg_counter : Z }.

(** [Display]. *)
Definition segment_id_str (s : SegmentId) : bytes :=
  bstr "shard_" ++ dec_pad 2 (sg_shard s) ++ bstr "/seg_" ++ dec_pad 8 (sg_counter s).

(** [digits]: a non-empty run of ASCII digits that fits the type. *)
Definition digits (max : Z) (s : bytes) : option Z :=
  match s with
  | [] => None
  | _ => if forallb is_digit s then let v := dec_val s in if v <=? max then Some v else None else None
  end.

(** [str::split_once('/')]. *)
Fixpoint split_once (sep : byte) (s : bytes) : option (bytes * bytes) :=
  match s with
  | [] => None
  | b :: s => if bool_decide (b = sep) then Some ([], s) else '(l, r) ← split_once sep s; Some (b :: l, r)
  end.

(** [SegmentId::parse]. *)
Definition segment_id_parse (s : bytes) : option SegmentId :=
  '(shard, seg) ← split_once x2f s;
  shard ← strip_prefix (bstr "shard_") shard;
  shard ← digits u16_max shard;
  seg ← strip_prefix (bstr "seg_") seg;
  let run := digit_run seg in
  let rest := drop (length run) seg in
  if negb (bool_decide (rest = []) || bool_decide (rest = EXT_ACTIVE) || bool_decide (rest = EXT_SEALED)) then None else
  counter ← digits u64_max run;
  Some (mkSegmentId shard counter).

(** [SegmentId::from_path]. *)
Definition segment_id_from_path (p : path) : option SegmentId :=
  file ← file_name p;
  file ← to_str file;
  shard ← file_name (parent p);
  shard ← to_str shard;
  segment_id_parse (shard ++ bstr "/" ++ file).

(** ** Configuration *)

Inductive ConfigValue :=
| CfgBool (b : bool)
| CfgU64 (v : Z)
| CfgI64 (v : Z)
| CfgStr (s : bytes)
| CfgNull.

Record PublicConfig := mkPublicConfig {
  pc_shard_count : option Z;
  pc_worker_count : option Z;
  pc_wab_max_bytes : option Z;
  pc_dead_letter_max_bytes : option Z;
  pc_wab_segment_max_bytes : option Z;
  pc_wab_segment_max_age_secs : option Z;
  pc_wab_segment_max_lifetime_secs : option Z;
  pc_sink_max_retries : option Z;
  pc_sink_timeout_secs : option Z;
  pc_health_poll_interval_secs : option Z;
  pc_shutdown_timeout_secs : option Z;
  pc_drain_shutdown_budget_secs : option Z;
  pc_max_connections : option Z;
  pc_peer_uid_check : option bool;
  pc_tls_enabled : option bool;
}.

Definition view_u64 (view : gmap bytes ConfigValue) (k : bytes) : option Z :=
  match view !! k with Some (CfgU64 v) => Some v | _ => None end.
Definition view_bool (view : gmap bytes ConfigValue) (k : bytes) : option bool :=
  match view !! k with Some (CfgBool b) => Some b | _ => None end.

(** [PublicConfig::from_view]. *)
Definition public_from_view (view : gmap bytes ConfigValue) : PublicConfig :=
  let u := view_u64 view in
  let b := view_bool view in
  mkPublicConfig (u (bstr "shard_count")) (u (bstr "worker_count")) (u (bstr "wab_max_bytes"))
    (u (bstr "dead_letter_max_bytes")) (u (bstr "wab_segment_max_bytes")) (u (bstr "wab_segment_max_age_secs"))
    (u (bstr "wab_segment_max_lifetime_secs")) (u (bstr "sink_max_retries")) (u (bstr "sink_timeout_secs"))
    (u (bstr "health_poll_interval_secs")) (u (bstr "shutdown_timeout_secs")) (u (bstr "drain_shutdown_budget_secs"))
    (u (bstr "max_connections")) (b (bstr "peer_uid_check")) (b (bstr "tls_enabled")).

Definition public_default : PublicConfig :=
  mkPublicConfig None None None None None None None None None None None None None None None.

(** ** Evidence *)

Record IdentityEvidence := mkIdentity {
  id_version : bytes;
  id_wire_version : Z;
  id_pid : Z;
  id_started_at_unix_ms : Z;
  id_wab_dir : bytes;
  id_socket_path : bytes;
  id_wab_dir_dev : Z;
  id_wab_dir_ino : Z;
}.

Record ListenerEvidence := mkListener { li_kind : ListenerKind; li_state : ListenerState }.

Record ShardEvidence := mkShardEvidence {
  se_id : Z;
  se_state : ShardState;
  se_reason : option OfflineReason;
  se_since_unix_ms : Z;
  se_respawns : Z;
  se_worker_running : bool;
  se_handoff_blocked_since_unix_ms : option Z;
  se_active_segment_age_secs : option f64;
}.

(** [ShardEvidence::ingest_capable]. *)
Definition evidence_ingest_capable (e : ShardEvidence) : bool :=
  match se_state e with Up | Respawning => true | _ => false end && se_worker_running e.

Record WorkerEvidence := mkWorkerEvidence { we_id : Z; we_running : bool; we_exited_at_unix_ms : option Z }.

Record CapEvidence := mkCap {
  cp_max_bytes : Z;
  cp_low_water_bytes : Z;
  cp_bytes_now : Z;
  cp_rejecting : bool;
  cp_first_scan_ok_unix_ms : option Z;
  cp_last_scan_ok_unix_ms : option Z;
  cp_growing_unbounded : option bool;
}.

Record ChannelEvidence := mkChannel { ch_depth : Z; ch_capacity : Z; ch_high_since_unix_ms : option Z }.

Record BusyEvidence := mkBusy { bu_sink_call : bool; bu_since_unix_ms : Z }.

Record InFlightEvidence := mkInFlight {
  if_segment : SegmentId;
  if_attempt : Z;
  if_retries_left : Z;
  if_processed_records : Z;
  if_next_retry_at_unix_ms : option Z;
}.

Record RequeueEvidence := mkRequeueEvidence {
  rq_ticket : Z;
  rq_requeued : Z;
  rq_already_queued : Z;
  rq_backoff_cut : bool;
  rq_coalesced : bool;
  rq_scan_error : option bytes;
  rq_at_unix_ms : Z;
}.

Record DrainEvidence := mkDrainEvidence {
  dn_state : DrainStateCode;
  dn_state_since_unix_ms : Z;
  dn_pause_requested : bool;
  dn_paused : bool;
  dn_held : bool;
  dn_paused_since_unix_ms : option Z;
  dn_paused_by_uid : option Z;
  dn_generation : Z;
  dn_observed_requeue : Z;
  dn_in_flight : option InFlightEvidence;
  dn_commit_in_flight_since_unix_ms : option Z;
  dn_busy : option BusyEvidence;
  dn_last_progress_unix_ms : option Z;
  dn_heartbeat_age_secs : option f64;
  dn_pending_segments : Z;
  dn_backlog_segments : Z;
  dn_replay_total : Z;
  dn_replay_remaining : Z;
  dn_blocked_since_unix_ms : option Z;
  dn_last_requeue : option RequeueEvidence;
  dn_exit : DrainExitCode;
  dn_last_panic : option bytes;
}.

Record SinkEvidence := mkSinkEvidence {
  sk_health : option SinkHealthCode;
  sk_health_since_unix_ms : option Z;
  sk_last_success_unix_ms : option Z;
  sk_last_failure_unix_ms : option Z;
  sk_last_failure_kind : option SinkFailureKind;
  sk_consecutive_failures : Z;
  sk_last_error : option bytes;
  sk_probe_reason : option bytes;
}.

Record BacklogEvidence := mkBacklog {
  bl_undelivered_segments : Z;
  bl_undelivered_records : Z;
  bl_oldest_undelivered_age_secs : option f64;
  bl_dead_letter_bytes : Z;
  bl_dead_letter_max_bytes : option Z;
  bl_quarantine_bytes : Z;
  bl_quarantine_files : Z;
  bl_scanned_at_ms : Z;
}.

Record RecentCounters := mkRecent {
  rc_ack_timeouts_5m : option Z;
  rc_fsync_failures_15m : option Z;
  rc_flusher_panics_15m : option Z;
  rc_stranded_since_last_success : option Z;
  rc_drain_panics_total : option Z;
  rc_recovery_segments_failed : option Z;
  rc_recovery_quarantine_copy_failed : option Z;
  rc_coalesce_ewma_us : option Z;
}.

Record ReloadItemEvidence := mkReloadItem { ri_item : ReloadItem; ri_outcome : ReloadItemOutcome; ri_detail : option bytes }.
Record NotReloadedEvidence := mkNotReloaded { nr_item : ReloadItem; nr_reason_code : NotReloadedReason }.
Record ReloadEvidence := mkReload {
  rl_trigger : ReloadTriggerCode;
  rl_at_unix_ms : Z;
  rl_outcome : ReloadOutcomeCode;
  rl_tls_last_failed : bool;
  rl_items : list ReloadItemEvidence;
  rl_not_reloaded : list NotReloadedEvidence;
}.

Record AdminEvidence := mkAdmin {
  ad_enabled : bool;
  ad_state : AdminState;
  ad_reason : option AdminReason;
  ad_path : option bytes;
}.

Record ConfigEvidence := mkConfigEvidence {
  ce_sink_type : bytes;
  ce_commit_timeout_secs : option Z;
  ce_public : PublicConfig;
  ce_view : gmap bytes ConfigValue;
}.

Record Evidence := mkEvidence {
  ev_now_unix_ms : Z;
  ev_source : Source;
  ev_identity : option IdentityEvidence;
  ev_started_at_unix_ms : option Z;
  ev_phase : option Phase;
  ev_phase_since_unix_ms : option Z;
  ev_ever_served : option bool;
  ev_shutting_down : option bool;
  ev_shutting_down_since_unix_ms : option Z;
  ev_forced : option bool;
  ev_drain_deadline_unix_ms : option Z;
  ev_drain_budget_secs : option Z;
  ev_listeners : option (list ListenerEvidence);
  ev_shards : option (list ShardEvidence);
  ev_workers : option (list WorkerEvidence);
  ev_queue_depth : option Z;
  ev_wab_cap : option CapEvidence;
  ev_channel : option ChannelEvidence;
  ev_drain : option DrainEvidence;
  ev_sink : option SinkEvidence;
  ev_backlog : option BacklogEvidence;
  ev_recent : option RecentCounters;
  ev_reload : option ReloadEvidence;
  ev_admin : option AdminEvidence;
  ev_config : option ConfigEvidence;
}.

(** [Evidence::empty]: nothing known but the time and the source. *)
Definition evidence_empty (now_unix_ms : Z) (source : Source) : Evidence :=
  mkEvidence now_unix_ms source None None None None None None None None None None None None None None None None None
    None None None None None None.

(** ** Segment identities round-trip *)

Lemma split_once_app sep l r : sep ∉ l → split_once sep (l ++ sep :: r) = Some (l, r).
Proof.
  induction l as [|b l IH]; cbn; intros H; [by rewrite bool_decide_eq_true_2|].
  apply not_elem_of_cons in H as [Hb Hl]. rewrite bool_decide_eq_false_2 by done. by rewrite IH.
Qed.

Lemma digits_dec_pad max w z : 0 ≤ z ≤ max → digits max (dec_pad w z) = Some z.
Proof.
  intros H. unfold digits. pose proof (dec_pad_nonempty w z). destruct (dec_pad w z) as [|b l] eqn:E; [done|].
  rewrite <-E, forallb_dec_pad, dec_val_dec_pad by lia. by rewrite (proj2 (Z.leb_le _ _)) by lia.
Qed.

Lemma digit_run_digits l ext :
  forallb is_digit l = true → ext = [] ∨ ext = EXT_ACTIVE ∨ ext = EXT_SEALED → digit_run (l ++ ext) = l.
Proof.
  intros Hl [->|[->| ->]]; [|by apply digit_run_app..]. rewrite app_nil_r. induction l as [|b l IH]; [done|].
  cbn in *. apply andb_true_iff in Hl as [-> Hl]. by rewrite IH.
Qed.

Lemma slash_not_digit l : forallb is_digit l = true → x2f ∉ l.
Proof. rewrite forallb_forall. intros H Hx%list_elem_of_In%H. by vm_compute in Hx. Qed.

(** A segment's name, with or without an extension, parses to its identity. *)
Lemma segment_id_roundtrip s ext :
  is_u16 (sg_shard s) → is_u64 (sg_counter s) → ext = [] ∨ ext = EXT_ACTIVE ∨ ext = EXT_SEALED →
  segment_id_parse (segment_id_str s ++ ext) = Some s.
Proof.
  intros Hs Hc He. unfold segment_id_parse, segment_id_str. rewrite <-!app_assoc.
  change (bstr "/seg_" ++ ?x) with (x2f :: (bstr "seg_" ++ x)). rewrite (app_assoc (bstr "shard_")).
  rewrite split_once_app.
  2: { rewrite elem_of_app. intros [H|H]; [|by apply slash_not_digit in H; [|apply forallb_dec_pad]].
       apply list_elem_of_In in H. vm_compute in H. by repeat destruct H as [H|H]. }
  cbn [mbind option_bind]. rewrite !strip_prefix_app. cbn [mbind option_bind].
  rewrite digits_dec_pad by (unfold is_u16, u16_max in *; lia). cbn [mbind option_bind].
  rewrite digit_run_digits by (done || apply forallb_dec_pad). rewrite drop_app_length, digits_dec_pad by (unfold is_u64, u64_max in *; lia).
  cbn [mbind option_bind]. assert (bool_decide (ext = []) || bool_decide (ext = EXT_ACTIVE) || bool_decide (ext = EXT_SEALED) = true) as ->.
  { destruct He as [->|[->| ->]]; by vm_compute. }
  by destruct s.
Qed.
