(* ===== verification/Conditions.v ===== *)
(** * Conditions (weir-status)

    The catalogue of crates/weir-status/src/codes.rs, the conditions and thresholds of
    condition.rs, the summary templates of summary.rs and the conditions of offline.rs. *)

From Stdlib Require Import ZArith Lia Strings.Byte String.
From stdpp Require Import base gmap list option.
From S2P Require Import Prelude Text Names F64 Evidence.

(** ** The catalogue *)

Inductive Severity := Info | Warning | Critical.
Inductive Affects := Ingest | Delivery | Durability.
Inductive Gate := Readiness | Liveness.

#[global] Instance severity_eq_dec : EqDecision Severity.
Proof. solve_decision. Defined.
#[global] Instance gate_eq_dec : EqDecision Gate.
Proof. solve_decision. Defined.

Inductive ConditionCode :=
| CStarting
| CShuttingDown
| CListenerDown
| CNoLiveShard
| CShardOffline
| CWorkerExited
| CWabCapRejecting
| CDrainBackpressure
| CAckTimeoutsRecent
| CWabScanStale
| CWabGrowingUnbounded
| CDrainStopped
| CDrainWedged
| CDrainPaused
| CDrainBlockedDeadLetterFull
| CDeliveryStalled
| CDeliveryLagging
| CSegmentsStranded
| CSinkDown
| CSinkDegraded
| CSinkFailing
| CDeadLetterNearCap
| CNoopSink
| CActiveSegmentAging
| CFsyncFailuresRecent
| CFlusherRespawnedRecent
| CQuarantineNonempty
| CRecoveryIncomplete
| CTlsReloadFailed
| CAdminUnavailable
| CDaemonUnreachable
| CRecoveryPending
| CUnknown.

#[global] Instance condition_code_eq_dec : EqDecision ConditionCode.
Proof. solve_decision. Defined.

(** The named codes, as [condition_codes!] lists them. *)
Definition CODES : list (ConditionCode * bytes) :=
  [(CStarting, bstr "starting");
   (CShuttingDown, bstr "shutting_down");
   (CListenerDown, bstr "listener_down");
   (CNoLiveShard, bstr "no_live_shard");
   (CShardOffline, bstr "shard_offline");
   (CWorkerExited, bstr "worker_exited");
   (CWabCapRejecting, bstr "wab_cap_rejecting");
   (CDrainBackpressure, bstr "drain_backpressure");
   (CAckTimeoutsRecent, bstr "ack_timeouts_recent");
   (CWabScanStale, bstr "wab_scan_stale");
   (CWabGrowingUnbounded, bstr "wab_growing_unbounded");
   (CDrainStopped, bstr "drain_stopped");
   (CDrainWedged, bstr "drain_wedged");
   (CDrainPaused, bstr "drain_paused");
   (CDrainBlockedDeadLetterFull, bstr "drain_blocked_dead_letter_full");
   (CDeliveryStalled, bstr "delivery_stalled");
   (CDeliveryLagging, bstr "delivery_lagging");
   (CSegmentsStranded, bstr "segments_stranded");
   (CSinkDown, bstr "sink_down");
   (CSinkDegraded, bstr "sink_degraded");
   (CSinkFailing, bstr "sink_failing");
   (CDeadLetterNearCap, bstr "dead_letter_near_cap");
   (CNoopSink, bstr "noop_sink");
   (CActiveSegmentAging, bstr "active_segment_aging");
   (CFsyncFailuresRecent, bstr "fsync_failures_recent");
   (CFlusherRespawnedRecent, bstr "flusher_respawned_recent");
   (CQuarantineNonempty, bstr "quarantine_nonempty");
   (CRecoveryIncomplete, bstr "recovery_incomplete");
   (CTlsReloadFailed, bstr "tls_reload_failed");
   (CAdminUnavailable, bstr "admin_unavailable");
   (CDaemonUnreachable, bstr "daemon_unreachable");
   (CRecoveryPending, bstr "recovery_pending")].

(** [ConditionCode::as_str]. *)
Definition code_str (c : ConditionCode) : bytes :=
  match c with
  | CStarting => bstr "starting"
  | CShuttingDown => bstr "shutting_down"
  | CListenerDown => bstr "listener_down"
  | CNoLiveShard => bstr "no_live_shard"
  | CShardOffline => bstr "shard_offline"
  | CWorkerExited => bstr "worker_exited"
  | CWabCapRejecting => bstr "wab_cap_rejecting"
  | CDrainBackpressure => bstr "drain_backpressure"
  | CAckTimeoutsRecent => bstr "ack_timeouts_recent"
  | CWabScanStale => bstr "wab_scan_stale"
  | CWabGrowingUnbounded => bstr "wab_growing_unbounded"
  | CDrainStopped => bstr "drain_stopped"
  | CDrainWedged => bstr "drain_wedged"
  | CDrainPaused => bstr "drain_paused"
  | CDrainBlockedDeadLetterFull => bstr "drain_blocked_dead_letter_full"
  | CDeliveryStalled => bstr "delivery_stalled"
  | CDeliveryLagging => bstr "delivery_lagging"
  | CSegmentsStranded => bstr "segments_stranded"
  | CSinkDown => bstr "sink_down"
  | CSinkDegraded => bstr "sink_degraded"
  | CSinkFailing => bstr "sink_failing"
  | CDeadLetterNearCap => bstr "dead_letter_near_cap"
  | CNoopSink => bstr "noop_sink"
  | CActiveSegmentAging => bstr "active_segment_aging"
  | CFsyncFailuresRecent => bstr "fsync_failures_recent"
  | CFlusherRespawnedRecent => bstr "flusher_respawned_recent"
  | CQuarantineNonempty => bstr "quarantine_nonempty"
  | CRecoveryIncomplete => bstr "recovery_incomplete"
  | CTlsReloadFailed => bstr "tls_reload_failed"
  | CAdminUnavailable => bstr "admin_unavailable"
  | CDaemonUnreachable => bstr "daemon_unreachable"
  | CRecoveryPending => bstr "recovery_pending"
  | CUnknown => bstr "unknown"
  end.

(** [ConditionCode::parse_lossy]: the first arm whose literal is the text. *)
Definition parse_lossy (s : bytes) : ConditionCode :=
  from_option fst CUnknown (List.find (λ p, bool_decide (snd p = s)) CODES).

Record CatalogueEntry := mkEntry {
  en_code : ConditionCode;
  en_severity : Severity;
  en_affects : Affects;
  en_gates : list Gate;
  en_runbook : bytes;
}.

(** [entry!]. *)
Definition entry_of (code : ConditionCode) (sev : Severity) (aff : Affects) (gates : list Gate) (anchor : bytes)
    : CatalogueEntry :=
  mkEntry code sev aff gates (bstr "docs/monitoring.md#cond-" ++ anchor).

Definition CATALOGUE : list CatalogueEntry :=
  [entry_of CStarting Info Ingest [Readiness] (bstr "starting");
   entry_of CShuttingDown Info Ingest [Readiness] (bstr "shutting_down");
   entry_of CListenerDown Critical Ingest [Readiness; Liveness] (bstr "listener_down");
   entry_of CNoLiveShard Critical Ingest [Readiness; Liveness] (bstr "no_live_shard");
   entry_of CShardOffline Critical Ingest [] (bstr "shard_offline");
   entry_of CWorkerExited Critical Ingest [Liveness] (bstr "worker_exited");
   entry_of CWabCapRejecting Critical Ingest [Readiness] (bstr "wab_cap_rejecting");
   entry_of CDrainBackpressure Warning Ingest [] (bstr "drain_backpressure");
   entry_of CAckTimeoutsRecent Warning Ingest [] (bstr "ack_timeouts_recent");
   entry_of CWabScanStale Warning Ingest [] (bstr "wab_scan_stale");
   entry_of CWabGrowingUnbounded Warning Durability [] (bstr "wab_growing_unbounded");
   entry_of CDrainStopped Critical Delivery [Liveness] (bstr "drain_stopped");
   entry_of CDrainWedged Critical Delivery [Liveness] (bstr "drain_wedged");
   entry_of CDrainPaused Warning Delivery [] (bstr "drain_paused");
   entry_of CDrainBlockedDeadLetterFull Critical Delivery [] (bstr "drain_blocked_dead_letter_full");
   entry_of CDeliveryStalled Warning Delivery [] (bstr "delivery_stalled");
   entry_of CDeliveryLagging Warning Delivery [] (bstr "delivery_lagging");
   entry_of CSegmentsStranded Warning Delivery [] (bstr "segments_stranded");
   entry_of CSinkDown Warning Delivery [] (bstr "sink_down");
   entry_of CSinkDegraded Info Delivery [] (bstr "sink_degraded");
   entry_of CSinkFailing Warning Delivery [] (bstr "sink_failing");
   entry_of CDeadLetterNearCap Warning Delivery [] (bstr "dead_letter_near_cap");
   entry_of CNoopSink Warning Delivery [] (bstr "noop_sink");
   entry_of CActiveSegmentAging Info Delivery [] (bstr "active_segment_aging");
   entry_of CFsyncFailuresRecent Critical Durability [] (bstr "fsync_failures_recent");
   entry_of CFlusherRespawnedRecent Warning Ingest [] (bstr "flusher_respawned_recent");
   entry_of CQuarantineNonempty Warning Durability [] (bstr "quarantine_nonempty");
   entry_of CRecoveryIncomplete Critical Durability [] (bstr "recovery_incomplete");
   entry_of CTlsReloadFailed Warning Ingest [] (bstr "tls_reload_failed");
   entry_of CAdminUnavailable Warning Ingest [] (bstr "admin_unavailable")].

Definition OFFLINE_ONLY : list CatalogueEntry :=
  [entry_of CDaemonUnreachable Critical Ingest [] (bstr "daemon_unreachable");
   entry_of CRecoveryPending Info Durability [] (bstr "recovery_pending")].

Definition ALL : list ConditionCode :=
    [CStarting; CShuttingDown; CListenerDown; CNoLiveShard; CShardOffline; CWorkerExited; CWabCapRejecting;
   CDrainBackpressure; CAckTimeoutsRecent; CWabScanStale; CWabGrowingUnbounded; CDrainStopped; CDrainWedged;
   CDrainPaused; CDrainBlockedDeadLetterFull; CDeliveryStalled; CDeliveryLagging; CSegmentsStranded;
   CSinkDown; CSinkDegraded; CSinkFailing; CDeadLetterNearCap; CNoopSink; CActiveSegmentAging;
   CFsyncFailuresRecent; CFlusherRespawnedRecent; CQuarantineNonempty; CRecoveryIncomplete; CTlsReloadFailed;
   CAdminUnavailable].

(** [entry]. *)
Definition entry (code : ConditionCode) : option CatalogueEntry :=
  List.find (λ e, bool_decide (en_code e = code)) (CATALOGUE ++ OFFLINE_ONLY).

(** ** Conditions *)

Inductive EvidenceValue :=
| EvU64 (v : Z)
| EvF64 (x : f64)
| EvBool (b : bool)
| EvSegment (s : SegmentId)
| EvShards (ids : list Z)
| EvCode (c : bytes)
| EvText (t : bytes).

Record Condition := mkCondition {
  co_code : ConditionCode;
  co_severity : Severity;
  co_affects : Affects;
  co_since_unix_ms : option Z;
  co_summary : bytes;
  co_detail : option bytes;
  co_evidence : gmap bytes EvidenceValue;
  co_runbook : bytes;
  co_gates : list Gate;
}.

(** The wire shape: the code as a raw string. *)
Record RawCondition := mkRaw {
  rw_code : bytes;
  rw_severity : Severity;
  rw_affects : Affects;
  rw_since_ms : option Z;
  rw_summary : bytes;
  rw_detail : option bytes;
  rw_evidence : gmap bytes EvidenceValue;
  rw_runbook : bytes;
  rw_gates : list Gate;
}.

(** [From<RawCondition> for Condition]. *)
Definition condition_from_raw (r : RawCondition) : Condition :=
  let code := parse_lossy (rw_code r) in
  let evidence :=
    if bool_decide (code = CUnknown) then <[bstr "code_raw" := EvCode (rw_code r)]> (rw_evidence r) else rw_evidence r in
  mkCondition code (rw_severity r) (rw_affects r) (rw_since_ms r) (rw_summary r) (rw_detail r) evidence
    (rw_runbook r) (rw_gates r).

(** The code as text: an unknown code verbatim. *)
Definition raw_code (code : ConditionCode) (evidence : gmap bytes EvidenceValue) : bytes :=
  match code, evidence !! bstr "code_raw" with
  | CUnknown, Some (EvCode raw) => raw
  | code, _ => code_str code
  end.

(** [From<Condition> for RawCondition]. *)
Definition raw_from_condition (c : Condition) : RawCondition :=
  mkRaw (raw_code (co_code c) (co_evidence c)) (co_severity c) (co_affects c) (co_since_unix_ms c) (co_summary c) (co_detail c) (co_evidence c)
    (co_runbook c) (co_gates c).

Record Evaluation := mkEvaluation { el_conditions : list Condition; el_unevaluated : list ConditionCode }.

(** [Evaluation::is_active] and [Evaluation::get]. *)
Definition is_active (el : Evaluation) (code : ConditionCode) : bool :=
  existsb (λ c, bool_decide (co_code c = code)) (el_conditions el).
Definition evaluation_get (el : Evaluation) (code : ConditionCode) : option Condition :=
  List.find (λ c, bool_decide (co_code c = code)) (el_conditions el).

(** [SinceLookup] as a function; [NoLatches]. *)
Definition SinceLookup : Type := ConditionCode → option Z.
Definition no_latches : SinceLookup := λ _, None.

Record Thresholds := mkThresholds {
  th_handoff_blocked_ms : Z;
  th_channel_high_depth : Z;
  th_channel_high_ms : Z;
  th_wab_scan_stale_ms : Z;
  th_wedge_grace_ms : Z;
  th_delivery_stalled_ms : Z;
  th_delivery_lagging_secs : f64;
  th_sink_failing_consecutive : Z;
  th_dead_letter_near_cap_percent : Z;
  th_active_segment_aging_secs : f64;
  th_coalesce_slow_us : Z;
}.

Definition THRESHOLDS_DEFAULT : Thresholds :=
  mkThresholds 1000 230 10000 30000 15000 300000 (f64_of 900) 3 80 (f64_of 3600) 1000000.

Definition DETAIL_PANIC_MAX_BYTES : nat := 256.

(** ** Summary templates *)

Inductive AckTimeoutCause := DeliveryStallingIngest | StorageSlowOrFailing | FlusherNotCompleting.

(** [AckTimeoutCause::as_str]. *)
Definition cause_str (c : AckTimeoutCause) : bytes :=
  match c with
  | DeliveryStallingIngest => bstr "delivery_stalling_ingest"
  | StorageSlowOrFailing => bstr "storage_slow_or_failing"
  | FlusherNotCompleting => bstr "flusher_not_completing"
  end.

Fixpoint join (sep : bytes) (l : list bytes) : bytes :=
  match l with
  | [] => []
  | [x] => x
  | x :: l => x ++ sep ++ join sep l
  end.
Definition join_ids (ids : list Z) : bytes := join (bstr ",") (map dec ids).

Definition summary_starting (phase : Phase) (secs : Z) : bytes :=
  concat [bstr "startup phase "; as_str phase; bstr " for "; dec secs;
          bstr "s; the producer socket binds after recovery seals open segments"].

Definition summary_shutting_down (left_secs budget_secs : option Z) : bytes :=
  match left_secs, budget_secs with
  | Some remaining, Some budget =>
    concat [bstr "graceful shutdown; new connections refused; drain has "; dec remaining; bstr "s of its "; dec budget; bstr "s budget"]
  | _, _ => bstr "graceful shutdown; new connections refused"
  end.

Definition summary_listener_down (kind : ListenerKind) : bytes :=
  as_str kind ++ bstr " listener is not accepting; restart re-binds it".

Definition summary_no_live_shard : bytes :=
  bstr "every shard's flusher or owning worker is offline; new connections are refused; restart re-runs recovery".

Definition summary_shard_offline (ids : list Z) (reason : OfflineReason) : bytes :=
  concat [bstr "shard(s) "; join_ids ids; bstr " offline ("; as_str reason;
          bstr "); new connections avoid them; connections already pinned to them nack until they reconnect; restart to recover"].

Definition summary_worker_exited (worker : Z) (shards : list Z) : bytes :=
  concat [bstr "worker "; dec worker; bstr " exited; shards "; join_ids shards; bstr " cannot accept records"].

Definition summary_wab_cap_rejecting (bytes_ cap low_water : Z) : bytes :=
  concat [bstr "WAB holds "; dec bytes_; bstr " of the "; dec cap; bstr " cap; pushes nack until below "; dec low_water;
          bstr "; the root cause is delivery (see drain/sink conditions)"].

Definition summary_drain_backpressure (depth : option Z) (ids : list Z) (blocked_secs : Z) : bytes :=
  concat [bstr "drain channel "; from_option dec (bstr "unknown") depth; bstr "/256; shard(s) "; join_ids ids;
          bstr " blocked handing off for "; dec blocked_secs;
          bstr "s; acks wait behind the hand-off, so producers see ACK_TIMEOUT nacks of durable records (delivery, not storage)"].

Definition summary_ack_timeouts_recent (count : Z) (cause : AckTimeoutCause) : bytes :=
  let why := match cause with
             | DeliveryStallingIngest => bstr "delivery is stalling ingest"
             | StorageSlowOrFailing => bstr "storage is slow or failing"
             | FlusherNotCompleting => bstr "a flusher is not completing groups; check shards"
             end in
  concat [dec count; bstr " ack timeout(s) in the last 5 min; "; why].

Definition summary_wab_scan_stale (never : bool) (age_secs : Z) : bytes :=
  let tail := bstr "wab_max_bytes is enforced against a stale size (fail-closed); lag figures are stale" in
  if never then bstr "no successful WAB scan yet; " ++ tail
  else concat [bstr "no successful WAB scan for "; dec age_secs; bstr "s; "; tail].

Definition summary_wab_growing_unbounded : bytes :=
  bstr "the WAB is growing while delivery is unhealthy and no wab_max_bytes is set; producers are acked into an unbounded buffer".

Definition summary_drain_stopped (panics : Z) : bytes :=
  concat [bstr "drain supervisor gave up after "; dec panics;
          bstr " panics; ingest continues, nothing is delivered, the WAB grows; sink_health is stale; restart resumes"].

Definition summary_drain_wedged (in_sink_call : bool) (secs : Z) : bytes :=
  let at_ := if in_sink_call then bstr "inside a sink call" else bstr "with no sink call in flight" in
  concat [bstr "drain thread has made no progress for "; dec secs; bstr "s ("; at_;
          bstr "); it is blocked inside a sink call that does not yield; a restart re-delivers the in-flight segment from record 0"].

Definition summary_drain_paused (since_ms : Z) (held_at : option Z) (unbounded : bool) : bytes :=
  let held := from_option (λ n, concat [bstr " (held: mid-segment at record "; dec n; bstr ")"]) [] held_at in
  let grows := if unbounded then bstr "WAB grows without bound: wab_max_bytes=0" else bstr "WAB grows" in
  concat [bstr "delivery paused since "; dec since_ms; held; bstr "; ingest keeps buffering; "; grows; bstr "; restart also resumes"].

Definition summary_drain_blocked (dl_bytes cap : option Z) : bytes :=
  let n := from_option dec (bstr "?") in
  concat [bstr "dead_letter/ at "; n dl_bytes; bstr "/"; n cap;
          bstr "; free space (weir-ctl dl requeue/drop) or raise the cap"].

Definition summary_delivery_stalled (undelivered secs : Z) : bytes :=
  concat [dec undelivered; bstr " undelivered segment(s) and no successful commit for "; dec secs; bstr "s"].

Definition summary_delivery_lagging (age_secs : Z) : bytes :=
  concat [bstr "the oldest undelivered segment is up to "; dec age_secs; bstr "s old"].

Definition summary_segments_stranded (n : Z) : bytes :=
  concat [dec n; bstr " segment(s) exhausted retries; auto-resumed on a healthy probe or via `weir-ctl drain retry-stranded`; each resume re-delivers from record 0"].

Definition summary_sink_down (since_ms : option Z) : bytes :=
  match since_ms with
  | Some t => concat [bstr "sink unreachable since "; dec t; bstr "; weir keeps buffering durably (not a readiness failure)"]
  | None => bstr "sink unreachable; weir keeps buffering durably (not a readiness failure)"
  end.

Definition summary_sink_degraded : bytes := bstr "the sink's health probe reports degraded".

Definition summary_sink_failing (failures : Z) (kind : option SinkFailureKind) : bytes :=
  concat [dec failures; bstr " consecutive commits failed while the probe passes; last kind ";
          from_option as_str (bstr "unknown") kind].

Definition summary_dead_letter_near_cap (bytes_ cap : Z) : bytes :=
  concat [bstr "dead_letter/ holds "; dec bytes_; bstr " of its "; dec cap; bstr "-byte cap"].

Definition summary_noop_sink : bytes := bstr "records are acked and DISCARDED".

Definition summary_active_segment_aging (shard secs : Z) : bytes :=
  concat [bstr "shard "; dec shard; bstr "'s active segment is "; dec secs;
          bstr "s old and both seal timers are 0; its records wait for a size rotation or shutdown"].

Definition summary_fsync_failures_recent (n : Z) : bytes :=
  concat [dec n; bstr " WAB fsync failure(s) in the last 15 min; the records in those groups were nacked, not acked"].

Definition summary_flusher_respawned_recent (n : Z) : bytes :=
  concat [dec n; bstr " WAB flusher panic(s) in the last 15 min; every shard is back up"].

Definition summary_quarantine_nonempty (bytes_ files : Z) : bytes :=
  concat [bstr "quarantine/ holds "; dec files; bstr " file(s), "; dec bytes_; bstr " bytes; inspect with weir-ctl quarantine"].

Definition summary_recovery_incomplete (failed copy_failed : Z) : bytes :=
  concat [bstr "startup recovery failed for "; dec failed; bstr " segment(s) and could not keep "; dec copy_failed;
          bstr " quarantine copy(ies) in this process"].

Definition summary_tls_reload_failed : bytes := bstr "the last TLS reload failed; previous certificates still served".

Definition summary_admin_unavailable (reason : option AdminReason) : bytes :=
  concat [bstr "admin socket not bound ("; from_option as_str (bstr "unknown") reason;
          bstr "); weir-ctl drain/reload unavailable, kill -HUP still reloads"].

(** ** Offline conditions *)

Definition RUNBOOK_DAEMON_UNREACHABLE : bytes := bstr "docs/monitoring.md#cond-daemon_unreachable".
Definition RUNBOOK_RECOVERY_PENDING : bytes := bstr "docs/monitoring.md#cond-recovery_pending".

Definition daemon_unreachable (now_unix_ms : Z) : Condition :=
  mkCondition CDaemonUnreachable Critical Ingest None
    (bstr "no daemon answered on the admin socket, /status or /metrics; the facts shown are read from the wab_dir on disk")
    None {[ bstr "checked_at_ms" := EvU64 now_unix_ms ]} RUNBOOK_DAEMON_UNREACHABLE [].

Definition recovery_pending (undelivered_segments active_segments : Z) : option Condition :=
  if (undelivered_segments =? 0) && (active_segments =? 0) then None else
  Some (mkCondition CRecoveryPending Info Durability None
          (concat [dec undelivered_segments; bstr " sealed segment(s) await delivery and "; dec active_segments;
                   bstr " active segment(s) will be sealed by recovery at the next start"])
          None {[ bstr "undelivered_segments" := EvU64 undelivered_segments; bstr "active_segments" := EvU64 active_segments ]}
          RUNBOOK_RECOVERY_PENDING []).

(** ** Round trips *)

Lemma parse_code_str c : parse_lossy (code_str c) = c.
Proof. by destruct c; vm_compute. Qed.

(** A text that parses to a known code is its name. *)
Lemma parse_known s : parse_lossy s ≠ CUnknown → code_str (parse_lossy s) = s.
Proof.
  assert (H : Forall (λ p, code_str (fst p) = snd p) CODES) by (unfold CODES; repeat (constructor; [reflexivity|]); constructor).
  rewrite list.Forall_forall in H. unfold parse_lossy. destruct (List.find _ CODES) as [[c n]|] eqn:E; [|done]. intros _.
  apply find_some in E as [Hin Hn%bool_decide_eq_true]. apply list_elem_of_In, H in Hin. by rewrite <-Hn.
Qed.

Lemma raw_code_known c ev : c ≠ CUnknown → raw_code c ev = code_str c.
Proof. by destruct c. Qed.

(** The wire form of a condition loses nothing: a document's condition that is read and
    written again has the same code text, also when an older reader does not know the code,
    and otherwise the same fields (an unknown code is kept in the evidence besides); and a
    condition that is written and read again is the same condition. *)
Theorem condition_wire_roundtrip (r : RawCondition) (c : Condition) :
  (let r' := raw_from_condition (condition_from_raw r) in
   rw_code r' = rw_code r ∧ rw_severity r' = rw_severity r ∧ rw_affects r' = rw_affects r ∧ rw_since_ms r' = rw_since_ms r ∧
   rw_summary r' = rw_summary r ∧ rw_detail r' = rw_detail r ∧ rw_runbook r' = rw_runbook r ∧ rw_gates r' = rw_gates r ∧
   (parse_lossy (rw_code r) ≠ CUnknown → r' = r)) ∧
  (co_code c ≠ CUnknown → condition_from_raw (raw_from_condition c) = c) ∧
  condition_from_raw (raw_from_condition (condition_from_raw r)) = condition_from_raw r.
Proof.
  assert (K : ∀ c, co_code c ≠ CUnknown → condition_from_raw (raw_from_condition c) = c).
  { intros [code sev aff si su de ev ru ga] Hc. unfold condition_from_raw, raw_from_condition.
    cbn [co_code co_evidence rw_code rw_evidence] in *.
    rewrite raw_code_known, parse_code_str by done. by rewrite bool_decide_eq_false_2. }
  destruct r as [rc se af si su de ev ru ga]. unfold condition_from_raw, raw_from_condition.
  cbn [rw_code rw_severity rw_affects rw_since_ms rw_summary rw_detail rw_evidence rw_runbook rw_gates co_code co_severity
       co_affects co_since_unix_ms co_summary co_detail co_evidence co_runbook co_gates].
  destruct (decide (parse_lossy rc = CUnknown)) as [E|E].
  - rewrite E, bool_decide_eq_true_2 by done. unfold raw_code at 1 2 3. rewrite lookup_insert_eq. split; [done|].
    split; [apply K|]. unfold raw_code. rewrite lookup_insert_eq. by rewrite E, bool_decide_eq_true_2, insert_insert_eq by done.
  - rewrite bool_decide_eq_false_2 by done. pose proof (parse_known _ E) as N.
    assert (M : raw_code (parse_lossy rc) ev = rc) by (by rewrite raw_code_known).
    rewrite M. split; [by repeat split|]. split; [apply K|]. by rewrite bool_decide_eq_false_2.
Qed.
