(* ===== verification/Rules.v ===== *)
(** * Status rules and probes (weir-status)

    One definition per rule of crates/weir-status/src/rules.rs, the evaluator, the probe
    predicates of probe.rs and the exit codes of exit.rs. *)

From Stdlib Require Import ZArith Lia Strings.Byte String.
From stdpp Require Import base gmap list list_numbers option.
From S2P Require Import Prelude Text Names F64 Evidence Conditions.

(** ** Outcomes *)

Record Fired := mkFired { fi_summary : bytes; fi_detail : option bytes; fi_evidence : gmap bytes EvidenceValue }.

(** [Fired::new], [Fired::with], [Fired::detail]. *)
Definition fired (summary : bytes) : Fired := mkFired summary None ∅.
Definition fired_with (key : bytes) (v : EvidenceValue) (f : Fired) : Fired :=
  mkFired (fi_summary f) (fi_detail f) (<[key := v]> (fi_evidence f)).
Definition fired_detail (d : option bytes) (f : Fired) : Fired := mkFired (fi_summary f) d (fi_evidence f).

(** [if let Some(v) = o { f = f.with(key, ...) }]. *)
Definition fired_opt {A} (key : bytes) (g : A → EvidenceValue) (o : option A) (f : Fired) : Fired :=
  match o with Some v => fired_with key (g v) f | None => f end.

Inductive RuleOutcome := Unevaluated | Inactive | Active (f : Fired).

Notation "f '.with' k ':=' v" := (fired_with (bstr k) v f)
  (at level 12, left associativity, k constr at level 0, v at level 11, only parsing) : weir_scope.

(** [now.saturating_sub(then)]. *)
Definition age_ms (now then_ : Z) : Z := Z.max 0 (now - then_).

Definition tri_or (a b : option bool) : option bool :=
  match a, b with
  | Some true, _ | _, Some true => Some true
  | Some false, Some false => Some false
  | _, _ => None
  end.

(** ** Lifecycle and ingest *)

Definition starting (e : Evidence) : RuleOutcome :=
  match ev_phase e with
  | None => Unevaluated
  | Some phase =>
    if negb (before_serving phase) then Inactive else
    let secs := from_option (λ s, age_ms (ev_now_unix_ms e) s / 1000) 0 (ev_phase_since_unix_ms e) in
    Active (fired (summary_starting phase secs) .with "phase" := EvCode (as_str phase) .with "phase_secs" := EvU64 secs)
  end.

Definition shutting_down (e : Evidence) : RuleOutcome :=
  match ev_shutting_down e with
  | None => Unevaluated
  | Some false => Inactive
  | Some true =>
    let remaining := (λ d, age_ms d (ev_now_unix_ms e) / 1000) <$> ev_drain_deadline_unix_ms e in
    let f := fired (summary_shutting_down remaining (ev_drain_budget_secs e))
               .with "forced" := EvBool (default false (ev_forced e)) in
    let f := fired_opt (bstr "budget_left_secs") EvU64 remaining f in
    Active (fired_opt (bstr "budget_secs") EvU64 (ev_drain_budget_secs e) f)
  end.

(** Whether one listener is down; [None] when that depends on an unknown. *)
Definition is_down (e : Evidence) (l : ListenerEvidence) : option bool :=
  match li_state l with
  | LFailed => Some true
  | LClosed => negb <$> ev_shutting_down e
  | LNotConfigured | LPending | LBound => Some false
  end.

(** The loop of [listener_down] from [unknown] on. *)
Fixpoint listener_loop (e : Evidence) (ls : list ListenerEvidence) (unknown : bool) : RuleOutcome :=
  match ls with
  | [] => if unknown then Unevaluated else Inactive
  | l :: ls =>
    match is_down e l with
    | Some true =>
      Active (fired (summary_listener_down (li_kind l)) .with "listener" := EvCode (as_str (li_kind l))
                .with "state" := EvCode (as_str (li_state l)))
    | None => listener_loop e ls true
    | Some false => listener_loop e ls unknown
    end
  end.
Definition listener_down (e : Evidence) : RuleOutcome :=
  match ev_listeners e with
  | None => Unevaluated
  | Some listeners => listener_loop e listeners false
  end.

Definition no_live_shard (e : Evidence) : RuleOutcome :=
  match ev_phase e, ev_shards e with
  | Some phase, Some shards =>
    if negb (bool_decide (phase = Serving)) || existsb evidence_ingest_capable shards then Inactive else
    Active (fired summary_no_live_shard .with "shard_count" := EvU64 (blen shards))
  | _, _ => Unevaluated
  end.

Definition shard_offline (e : Evidence) : RuleOutcome :=
  match ev_shards e, ev_shutting_down e with
  | Some shards, Some sd =>
    if sd then Inactive else
    let offline := filter (λ s, se_state s = Offline) shards in
    match offline with
    | [] => Inactive
    | s :: _ =>
      if (length offline =? length shards)%nat then Inactive else
      let ids := map se_id offline in
      let reason := default ReasonFlusherExited (se_reason s) in
      Active (fired (summary_shard_offline ids reason) .with "reason" := EvCode (as_str reason) .with "shards" := EvShards ids)
    end
  | _, _ => Unevaluated
  end.

Definition worker_exited (e : Evidence) : RuleOutcome :=
  match ev_workers e, ev_shutting_down e with
  | Some workers, Some sd =>
    if sd then Inactive else
    match List.find (λ w, negb (we_running w) && bool_decide (is_Some (we_exited_at_unix_ms w))) workers with
    | None => Inactive
    | Some w =>
      let n := blen workers mod 2 ^ 16 in
      let shards := filter (λ id, (0 <? n) && (id mod n =? we_id w) = true)
                      (map se_id (default [] (ev_shards e))) in
      Active (fired (summary_worker_exited (we_id w) shards) .with "worker" := EvU64 (we_id w)
                .with "shards" := EvShards shards)
    end
  | _, _ => Unevaluated
  end.

Definition wab_cap_rejecting (e : Evidence) : RuleOutcome :=
  match ev_wab_cap e with
  | None => Unevaluated
  | Some c =>
    if negb (cp_rejecting c) then Inactive else
    Active (fired (summary_wab_cap_rejecting (cp_bytes_now c) (cp_max_bytes c) (cp_low_water_bytes c))
              .with "bytes" := EvU64 (cp_bytes_now c) .with "cap" := EvU64 (cp_max_bytes c)
              .with "low_water" := EvU64 (cp_low_water_bytes c))
  end.

(** The shards blocked for long enough, and the longest block of all in seconds. *)
Definition blocked_shards (e : Evidence) (t : Thresholds) (shards : list ShardEvidence) : list Z * Z :=
  let now := ev_now_unix_ms e in
  (map se_id (filter (λ s, from_option (λ b, th_handoff_blocked_ms t <=? age_ms now b) false
                             (se_handoff_blocked_since_unix_ms s) = true) shards),
   foldr Z.max 0 (map (age_ms now) (omap se_handoff_blocked_since_unix_ms shards)) / 1000).

Definition drain_backpressure (e : Evidence) (t : Thresholds) : RuleOutcome :=
  let now := ev_now_unix_ms e in
  let blocked := blocked_shards e t <$> ev_shards e in
  let channel_high :=
    (λ c, from_option (λ h, th_channel_high_ms t <=? age_ms now h) false (ch_high_since_unix_ms c)) <$> ev_channel e in
  match tri_or ((λ b, negb (bool_decide (fst b = []))) <$> blocked) channel_high with
  | None => Unevaluated
  | Some false => Inactive
  | Some true =>
    let '(ids, secs) := default ([], 0) blocked in
    let depth := ch_depth <$> ev_channel e in
    let f := fired (summary_drain_backpressure depth ids secs) .with "blocked_secs" := EvU64 secs
               .with "shards" := EvShards ids in
    Active (fired_opt (bstr "channel_depth") EvU64 depth f)
  end.

Definition is_active_outcome (o : RuleOutcome) : bool := match o with Active _ => true | _ => false end.

Definition ack_timeouts_recent (e : Evidence) (t : Thresholds) : RuleOutcome :=
  match ev_recent e ≫= rc_ack_timeouts_5m with
  | None => Unevaluated
  | Some n =>
    if n =? 0 then Inactive else
    let storage := from_option (λ r, (0 <? default 0 (rc_fsync_failures_15m r))
                                     || (th_coalesce_slow_us t <? default 0 (rc_coalesce_ewma_us r))) false (ev_recent e) in
    let cause := if is_active_outcome (drain_backpressure e t) then DeliveryStallingIngest
                 else if storage then StorageSlowOrFailing else FlusherNotCompleting in
    Active (fired (summary_ack_timeouts_recent n cause) .with "ack_timeouts" := EvU64 n
              .with "cause" := EvCode (cause_str cause))
  end.

Definition wab_scan_stale (e : Evidence) (t : Thresholds) : RuleOutcome :=
  if negb (bool_decide (ev_source e = FromDaemon)) then Unevaluated else
  match ev_wab_cap e with
  | None => Unevaluated
  | Some c =>
    match cp_last_scan_ok_unix_ms c with
    | None => Active (fired (summary_wab_scan_stale true 0) .with "never" := EvBool true)
    | Some at_ =>
      let age := age_ms (ev_now_unix_ms e) at_ in
      if th_wab_scan_stale_ms t <? age then
        Active (fired (summary_wab_scan_stale false (age / 1000)) .with "scan_age_secs" := EvU64 (age / 1000))
      else Inactive
    end
  end.

Definition wab_growing_unbounded (e : Evidence) : RuleOutcome :=
  match ev_wab_cap e ≫= cp_growing_unbounded with
  | None => Unevaluated
  | Some false => Inactive
  | Some true => Active (fired summary_wab_growing_unbounded)
  end.

(** ** The drain *)

(** [str::is_char_boundary]. *)
Definition is_char_boundary (s : bytes) (i : nat) : bool :=
  (i =? 0)%nat || match s !! i with None => (i =? length s)%nat | Some b => negb (is_cont b) end.

(** The last boundary at or before [end_]. *)
Fixpoint boundary_before (s : bytes) (end_ : nat) : nat :=
  if is_char_boundary s end_ then end_ else match end_ with O => O | S n => boundary_before s n end.

Definition truncate (s : bytes) (max : nat) : bytes :=
  if (length s <=? max)%nat then s else take (boundary_before s max) s.

Definition drain_stopped (e : Evidence) : RuleOutcome :=
  match ev_drain e, ev_shutting_down e with
  | Some d, Some sd =>
    if negb (bool_decide (dn_exit d = ExitGaveUp)) || sd then Inactive else
    let panics := default 0 (ev_recent e ≫= rc_drain_panics_total) in
    Active (fired_detail ((λ p, truncate p DETAIL_PANIC_MAX_BYTES) <$> dn_last_panic d)
              (fired (summary_drain_stopped panics) .with "panics" := EvU64 panics))
  | _, _ => Unevaluated
  end.

(** A sink call that started at [since], against the commit timeout [ct]. *)
Definition sink_call_wedged (e : Evidence) (t : Thresholds) (ct : option Z) (since : Z) (key : bytes) : RuleOutcome :=
  match ct with
  | None => Unevaluated
  | Some ct =>
    let age := age_ms (ev_now_unix_ms e) since in
    if saturating_add_u64 (saturating_mul_u64 ct 1000) (th_wedge_grace_ms t) <? age then
      Active (fired_with key (EvU64 (age / 1000)) (fired (summary_drain_wedged true (age / 1000))))
    else Inactive
  end.

Definition drain_wedged (e : Evidence) (t : Thresholds) : RuleOutcome :=
  match ev_drain e, ev_config e with
  | Some d, Some c =>
    if negb (bool_decide (dn_exit d = ExitRunning)) then Inactive else
    match dn_commit_in_flight_since_unix_ms d with
    | Some since => sink_call_wedged e t (ce_commit_timeout_secs c) since (bstr "commit_age_secs")
    | None =>
      match dn_busy d with
      | Some b =>
        if negb (bu_sink_call b) then Inactive else
        sink_call_wedged e t (ce_commit_timeout_secs c) (bu_since_unix_ms b) (bstr "busy_secs")
      | None =>
        match dn_last_progress_unix_ms d, pc_health_poll_interval_secs (ce_public c) with
        | Some p, Some hp =>
          let age := age_ms (ev_now_unix_ms e) p in
          if saturating_add_u64 (saturating_mul_u64 hp 1000) (th_wedge_grace_ms t) <=? age then
            Active (fired (summary_drain_wedged false (age / 1000)) .with "progress_age_secs" := EvU64 (age / 1000))
          else Inactive
        | _, _ => Unevaluated
        end
      end
    end
  | _, _ => Unevaluated
  end.

Definition drain_paused (e : Evidence) : RuleOutcome :=
  match ev_drain e with
  | None => Unevaluated
  | Some d =>
    if negb (dn_pause_requested d || dn_paused d) then Inactive else
    let unbounded := from_option (λ c, bool_decide (pc_wab_max_bytes (ce_public c) = Some 0)) false (ev_config e) in
    let held := if dn_held d then dn_in_flight d else None in
    let since := default (ev_now_unix_ms e) (dn_paused_since_unix_ms d) in
    let f := fired_detail ((λ uid, bstr "paused by uid " ++ dec uid) <$> dn_paused_by_uid d)
               (fired (summary_drain_paused since (if_processed_records <$> held) unbounded)
                  .with "held" := EvBool (dn_held d) .with "in_effect" := EvBool (dn_paused d)) in
    Active (match held with
            | Some i => f .with "held_at_record" := EvU64 (if_processed_records i) .with "segment" := EvSegment (if_segment i)
            | None => f
            end)
  end.

Definition drain_blocked_dead_letter_full (e : Evidence) : RuleOutcome :=
  match ev_drain e with
  | None => Unevaluated
  | Some d =>
    if negb (bool_decide (dn_state d = CodeBlockedDeadLetterFull)) then Inactive else
    let dl := bl_dead_letter_bytes <$> ev_backlog e in
    let cap := ev_config e ≫= λ c, pc_dead_letter_max_bytes (ce_public c) in
    Active (fired_opt (bstr "blocked_since_ms") EvU64 (dn_blocked_since_unix_ms d) (fired (summary_drain_blocked dl cap)))
  end.

Definition delivery_stalled (e : Evidence) (t : Thresholds) : RuleOutcome :=
  match ev_backlog e, ev_sink e, ev_drain e with
  | Some b, Some s, Some d =>
    if (bl_undelivered_segments b =? 0) || dn_paused d || dn_pause_requested d then Inactive else
    match (match sk_last_success_unix_ms s with Some x => Some x | None => ev_started_at_unix_ms e end) with
    | None => Unevaluated
    | Some reference =>
      let idle := age_ms (ev_now_unix_ms e) reference in
      if idle <? th_delivery_stalled_ms t then Inactive else
      Active (fired (summary_delivery_stalled (bl_undelivered_segments b) (idle / 1000))
                .with "undelivered_segments" := EvU64 (bl_undelivered_segments b) .with "idle_secs" := EvU64 (idle / 1000))
    end
  | _, _, _ => Unevaluated
  end.

Definition delivery_lagging (e : Evidence) (t : Thresholds) : RuleOutcome :=
  match ev_backlog e with
  | None => Unevaluated
  | Some b =>
    match bl_oldest_undelivered_age_secs b with
    | Some a =>
      if f64_gtb a (th_delivery_lagging_secs t) then
        Active (fired (summary_delivery_lagging (f64_to_u64 a)) .with "oldest_age_secs" := EvF64 a)
      else Inactive
    | None => Inactive
    end
  end.

Definition segments_stranded (e : Evidence) : RuleOutcome :=
  match ev_recent e ≫= rc_stranded_since_last_success with
  | None => Unevaluated
  | Some n => if n =? 0 then Inactive else Active (fired (summary_segments_stranded n) .with "stranded" := EvU64 n)
  end.

(** ** The sink *)

Definition sink_down (e : Evidence) : RuleOutcome :=
  match ev_sink e with
  | None => Unevaluated
  | Some s =>
    match sk_health s with
    | None => Unevaluated
    | Some SinkDown => Active (fired_detail (sk_probe_reason s) (fired (summary_sink_down (sk_health_since_unix_ms s))))
    | Some _ => Inactive
    end
  end.

Definition sink_degraded (e : Evidence) : RuleOutcome :=
  match ev_sink e with
  | None => Unevaluated
  | Some s =>
    match sk_health s with
    | None => Unevaluated
    | Some SinkDegraded => Active (fired_detail (sk_probe_reason s) (fired summary_sink_degraded))
    | Some _ => Inactive
    end
  end.

Definition sink_failing (e : Evidence) (t : Thresholds) : RuleOutcome :=
  match ev_sink e with
  | None => Unevaluated
  | Some s =>
    if (sk_consecutive_failures s <? th_sink_failing_consecutive t) || bool_decide (sk_health s = Some SinkDown)
    then Inactive else
    let f := fired_detail (sk_last_error s)
               (fired (summary_sink_failing (sk_consecutive_failures s) (sk_last_failure_kind s))
                  .with "consecutive_failures" := EvU64 (sk_consecutive_failures s)) in
    Active (fired_opt (bstr "kind") (λ k, EvCode (as_str k)) (sk_last_failure_kind s) f)
  end.

Definition dead_letter_near_cap (e : Evidence) (t : Thresholds) : RuleOutcome :=
  match ev_backlog e, ev_config e with
  | Some b, Some c =>
    match pc_dead_letter_max_bytes (ce_public c) with
    | None => Unevaluated
    | Some cap =>
      if (cap =? 0) || (saturating_mul_u64 (bl_dead_letter_bytes b) 100
                        <? saturating_mul_u64 cap (th_dead_letter_near_cap_percent t))
      then Inactive else
      Active (fired (summary_dead_letter_near_cap (bl_dead_letter_bytes b) cap)
                .with "bytes" := EvU64 (bl_dead_letter_bytes b) .with "cap" := EvU64 cap)
    end
  | _, _ => Unevaluated
  end.

Definition noop_sink (e : Evidence) : RuleOutcome :=
  match ev_config e with
  | None => Unevaluated
  | Some c => if bool_decide (ce_sink_type c = bstr "noop") then Active (fired summary_noop_sink) else Inactive
  end.

(** ** Storage and the rest *)

Definition active_segment_aging (e : Evidence) (t : Thresholds) : RuleOutcome :=
  match ev_shards e, ev_config e, ev_backlog e with
  | Some shards, Some c, Some _ =>
    match pc_wab_segment_max_age_secs (ce_public c), pc_wab_segment_max_lifetime_secs (ce_public c) with
    | Some age, Some life =>
      if negb (age =? 0) || negb (life =? 0) then Inactive else
      let aged := filter (λ p, f64_gtb (snd p) (th_active_segment_aging_secs t) = true)
                    (omap (λ s, (λ a, (se_id s, a)) <$> se_active_segment_age_secs s) shards) in
      match max_by (λ a b, f64_total_gt (snd a) (snd b)) aged with
      | None => Inactive
      | Some (shard, secs) =>
        Active (fired (summary_active_segment_aging shard (f64_to_u64 secs)) .with "shard" := EvU64 shard
                  .with "age_secs" := EvF64 secs)
      end
    | _, _ => Unevaluated
    end
  | _, _, _ => Unevaluated
  end.

Definition fsync_failures_recent (e : Evidence) : RuleOutcome :=
  match ev_recent e ≫= rc_fsync_failures_15m with
  | None => Unevaluated
  | Some n => if n =? 0 then Inactive else Active (fired (summary_fsync_failures_recent n) .with "fsync_failures" := EvU64 n)
  end.

Definition flusher_respawned_recent (e : Evidence) : RuleOutcome :=
  match ev_recent e ≫= rc_flusher_panics_15m, ev_shards e with
  | Some n, Some shards =>
    if (n =? 0) || negb (forallb (λ s, bool_decide (se_state s = Up)) shards) then Inactive else
    Active (fired (summary_flusher_respawned_recent n) .with "panics" := EvU64 n)
  | _, _ => Unevaluated
  end.

Definition quarantine_nonempty (e : Evidence) : RuleOutcome :=
  match ev_backlog e with
  | None => Unevaluated
  | Some b =>
    if bl_quarantine_bytes b =? 0 then Inactive else
    Active (fired (summary_quarantine_nonempty (bl_quarantine_bytes b) (bl_quarantine_files b))
              .with "bytes" := EvU64 (bl_quarantine_bytes b) .with "files" := EvU64 (bl_quarantine_files b))
  end.

Definition recovery_incomplete (e : Evidence) : RuleOutcome :=
  match ev_recent e with
  | None => Unevaluated
  | Some r =>
    match rc_recovery_segments_failed r, rc_recovery_quarantine_copy_failed r with
    | Some failed, Some copy =>
      if (failed =? 0) && (copy =? 0) then Inactive else
      Active (fired (summary_recovery_incomplete failed copy) .with "segments_failed" := EvU64 failed
                .with "quarantine_copy_failed" := EvU64 copy)
    | _, _ => Unevaluated
    end
  end.

Definition tls_reload_failed (e : Evidence) : RuleOutcome :=
  match ev_reload e with
  | None => Unevaluated
  | Some r =>
    if negb (rl_tls_last_failed r) then Inactive else
    let detail := List.find (λ i, bool_decide (ri_item i = TlsCertificates)) (rl_items r) ≫= ri_detail in
    Active (fired_detail detail (fired summary_tls_reload_failed))
  end.

Definition admin_unavailable (e : Evidence) : RuleOutcome :=
  match ev_admin e with
  | None => Unevaluated
  | Some a =>
    if negb (ad_enabled a && bool_decide (ad_state a = AdminUnavailable)) then Inactive else
    Active (fired_opt (bstr "reason") (λ r, EvCode (as_str r)) (ad_reason a) (fired (summary_admin_unavailable (ad_reason a))))
  end.

(** ** The evaluator *)

Definition rule (c : ConditionCode) (e : Evidence) (t : Thresholds) : RuleOutcome :=
  match c with
  | CStarting => starting e
  | CShuttingDown => shutting_down e
  | CListenerDown => listener_down e
  | CNoLiveShard => no_live_shard e
  | CShardOffline => shard_offline e
  | CWorkerExited => worker_exited e
  | CWabCapRejecting => wab_cap_rejecting e
  | CDrainBackpressure => drain_backpressure e t
  | CAckTimeoutsRecent => ack_timeouts_recent e t
  | CWabScanStale => wab_scan_stale e t
  | CWabGrowingUnbounded => wab_growing_unbounded e
  | CDrainStopped => drain_stopped e
  | CDrainWedged => drain_wedged e t
  | CDrainPaused => drain_paused e
  | CDrainBlockedDeadLetterFull => drain_blocked_dead_letter_full e
  | CDeliveryStalled => delivery_stalled e t
  | CDeliveryLagging => delivery_lagging e t
  | CSegmentsStranded => segments_stranded e
  | CSinkDown => sink_down e
  | CSinkDegraded => sink_degraded e
  | CSinkFailing => sink_failing e t
  | CDeadLetterNearCap => dead_letter_near_cap e t
  | CNoopSink => noop_sink e
  | CActiveSegmentAging => active_segment_aging e t
  | CFsyncFailuresRecent => fsync_failures_recent e
  | CFlusherRespawnedRecent => flusher_respawned_recent e
  | CQuarantineNonempty => quarantine_nonempty e
  | CRecoveryIncomplete => recovery_incomplete e
  | CTlsReloadFailed => tls_reload_failed e
  | CAdminUnavailable => admin_unavailable e
  | CDaemonUnreachable | CRecoveryPending | CUnknown => Inactive
  end.

(** The body of the loop of [evaluate]. *)
Definition evaluate_entry (e : Evidence) (t : Thresholds) (latches : SinceLookup) (out : Evaluation) (entry : CatalogueEntry)
    : Evaluation :=
  match rule (en_code entry) e t with
  | Unevaluated => mkEvaluation (el_conditions out) (el_unevaluated out ++ [en_code entry])
  | Inactive => out
  | Active f =>
    mkEvaluation
      (el_conditions out ++
         [mkCondition (en_code entry) (en_severity entry) (en_affects entry) (latches (en_code entry)) (fi_summary f)
            (fi_detail f) (fi_evidence f) (en_runbook entry) (en_gates entry)])
      (el_unevaluated out)
  end.

(** [evaluate]. *)
Definition evaluate_status (e : Evidence) (t : Thresholds) (latches : SinceLookup) : Evaluation :=
  foldl (evaluate_entry e t latches) (mkEvaluation [] []) CATALOGUE.

(** ** Probes *)

Inductive LivezCheck := LzListenerDown | LzNoLiveShard | LzWorkerExited | LzDrainStopped | LzDrainWedged.
Definition LIVEZ_ALL : list LivezCheck := [LzListenerDown; LzNoLiveShard; LzWorkerExited; LzDrainStopped; LzDrainWedged].

(** [LivezCheck::code], [LivezCheck::parse]. *)
Definition livez_code (c : LivezCheck) : ConditionCode :=
  match c with
  | LzListenerDown => CListenerDown
  | LzNoLiveShard => CNoLiveShard
  | LzWorkerExited => CWorkerExited
  | LzDrainStopped => CDrainStopped
  | LzDrainWedged => CDrainWedged
  end.
Definition livez_parse (s : bytes) : option LivezCheck :=
  List.find (λ c, bool_decide (code_str (livez_code c) = s)) LIVEZ_ALL.

Record ProbeCheck := mkProbeCheck { pk_code : ConditionCode; pk_ok : bool; pk_summary : option bytes }.
Record ProbeVerdict := mkVerdict { pv_ok : bool; pv_failing : list ConditionCode; pv_checks : list ProbeCheck }.

(** [ProbeVerdict::passing], [pass], [fail] and [record]. *)
Definition verdict_passing : ProbeVerdict := mkVerdict true [] [].
Definition verdict_pass (code : ConditionCode) (v : ProbeVerdict) : ProbeVerdict :=
  mkVerdict (pv_ok v) (pv_failing v) (pv_checks v ++ [mkProbeCheck code true None]).
Definition verdict_fail (code : ConditionCode) (summary : option bytes) (v : ProbeVerdict) : ProbeVerdict :=
  mkVerdict false (pv_failing v ++ [code]) (pv_checks v ++ [mkProbeCheck code false summary]).
Definition verdict_record (code : ConditionCode) (outcome : RuleOutcome) (fail_closed : bool) (v : ProbeVerdict) : ProbeVerdict :=
  match outcome with
  | Inactive => verdict_pass code v
  | Active f => verdict_fail code (Some (fi_summary f)) v
  | Unevaluated => if fail_closed then verdict_fail code None v else verdict_pass code v
  end.

Definition READINESS_CODES : list ConditionCode :=
  [CStarting; CShuttingDown; CListenerDown; CNoLiveShard; CWabCapRejecting].

Definition readiness (e : Evidence) : ProbeVerdict :=
  foldl (λ v code, verdict_record code (rule code e THRESHOLDS_DEFAULT) true v) verdict_passing READINESS_CODES.

Definition liveness (e : Evidence) (t : Thresholds) (checks : list LivezCheck) : ProbeVerdict :=
  let serving := bool_decide (ev_phase e = Some Serving) in
  foldl (λ v c, if serving then verdict_record (livez_code c) (rule (livez_code c) e t) false v
                else verdict_pass (livez_code c) v) verdict_passing checks.

Definition startup (e : Evidence) : ProbeVerdict :=
  if bool_decide (ev_ever_served e = Some true) then verdict_pass CStarting verdict_passing else
  let summary := match rule CStarting e THRESHOLDS_DEFAULT with Active f => Some (fi_summary f) | _ => None end in
  verdict_fail CStarting summary verdict_passing.

Definition EXIT_READY : Z := 0.
Definition EXIT_NOT_READY : Z := 1.
Definition EXIT_UNREACHABLE : Z := 2.
Definition EXIT_CRITICAL : Z := 3.

Definition any_critical (l : list Condition) : bool := existsb (λ c, bool_decide (co_severity c = Critical)) l.

Definition exit_code (ready : ProbeVerdict) (el : Evaluation) : Z :=
  if negb (pv_ok ready) then EXIT_NOT_READY
  else if any_critical (el_conditions el) then EXIT_CRITICAL else EXIT_READY.

Inductive StatusExit := ExitReady | ExitNotReady | ExitUnreachable | ExitReadyWithCritical.

(** [StatusExit::code], [from_parts], [from_verdict]. *)
Definition status_exit_code (x : StatusExit) : Z :=
  match x with
  | ExitReady => EXIT_READY
  | ExitNotReady => EXIT_NOT_READY
  | ExitUnreachable => EXIT_UNREACHABLE
  | ExitReadyWithCritical => EXIT_CRITICAL
  end.
Definition status_from_parts (ready critical : bool) : StatusExit :=
  match ready, critical with
  | false, _ => ExitNotReady
  | true, true => ExitReadyWithCritical
  | true, false => ExitReady
  end.
Definition status_from_verdict (ready : bool) (conditions : list Condition) : StatusExit :=
  status_from_parts ready (any_critical conditions).

(** ** Learning more

    [None] means that a fact is not known. [evidence_le e e'] says that [e'] knows all that
    [e] knows, of the fields on which a verdict depends. A [None] that is itself a fact (a
    channel below its mark, no commit in flight, no success yet) is not one of these; the
    sink's health (0 is unknown), the drain's progress and its busy operation ([None]
    between operations or unknown) are. *)

Definition learn {A} (R : A → A → Prop) (x y : option A) : Prop :=
  match x with None => True | Some a => ∃ b, y = Some b ∧ R a b end.

#[global] Instance learn_preorder {A} (R : relation A) : PreOrder R → PreOrder (learn R).
Proof.
  intros HR. split.
  - intros [a|]; [|done]. by exists a.
  - intros [a|] y z; [|done]. intros (b & -> & Hab) (c & -> & Hbc). exists c. split; [done|by etrans].
Qed.

Record recent_le (r r' : RecentCounters) : Prop := mkRecentLe {
  le_ack_timeouts : learn (=) (rc_ack_timeouts_5m r) (rc_ack_timeouts_5m r');
  le_fsync_failures : learn (=) (rc_fsync_failures_15m r) (rc_fsync_failures_15m r');
  le_flusher_panics : learn (=) (rc_flusher_panics_15m r) (rc_flusher_panics_15m r');
  le_stranded : learn (=) (rc_stranded_since_last_success r) (rc_stranded_since_last_success r');
  le_drain_panics : learn (=) (rc_drain_panics_total r) (rc_drain_panics_total r');
  le_segments_failed : learn (=) (rc_recovery_segments_failed r) (rc_recovery_segments_failed r');
  le_copy_failed : learn (=) (rc_recovery_quarantine_copy_failed r) (rc_recovery_quarantine_copy_failed r');
  le_coalesce : learn (=) (rc_coalesce_ewma_us r) (rc_coalesce_ewma_us r');
}.

(** The public settings that a rule reads. *)
Record config_le (c c' : ConfigEvidence) : Prop := mkConfigLe {
  le_sink_type : ce_sink_type c = ce_sink_type c';
  le_commit_timeout : learn (=) (ce_commit_timeout_secs c) (ce_commit_timeout_secs c');
  le_wab_max : learn (=) (pc_wab_max_bytes (ce_public c)) (pc_wab_max_bytes (ce_public c'));
  le_dead_letter_max : learn (=) (pc_dead_letter_max_bytes (ce_public c)) (pc_dead_letter_max_bytes (ce_public c'));
  le_max_age : learn (=) (pc_wab_segment_max_age_secs (ce_public c)) (pc_wab_segment_max_age_secs (ce_public c'));
  le_max_lifetime : learn (=) (pc_wab_segment_max_lifetime_secs (ce_public c)) (pc_wab_segment_max_lifetime_secs (ce_public c'));
  le_health_poll : learn (=) (pc_health_poll_interval_secs (ce_public c)) (pc_health_poll_interval_secs (ce_public c'));
}.

Record cap_le (c c' : CapEvidence) : Prop := mkCapLe {
  le_rejecting : cp_rejecting c = cp_rejecting c';
  le_last_scan : cp_last_scan_ok_unix_ms c = cp_last_scan_ok_unix_ms c';
  le_growing : learn (=) (cp_growing_unbounded c) (cp_growing_unbounded c');
}.

Record sink_le (s s' : SinkEvidence) : Prop := mkSinkLe {
  le_health : learn (=) (sk_health s) (sk_health s');
  le_last_success : sk_last_success_unix_ms s = sk_last_success_unix_ms s';
  le_failures : sk_consecutive_failures s = sk_consecutive_failures s';
}.

Record drain_le (d d' : DrainEvidence) : Prop := mkDrainLe {
  le_state : dn_state d = dn_state d';
  le_pause_requested : dn_pause_requested d = dn_pause_requested d';
  le_paused : dn_paused d = dn_paused d';
  le_commit_in_flight : dn_commit_in_flight_since_unix_ms d = dn_commit_in_flight_since_unix_ms d';
  le_busy : learn (=) (dn_busy d) (dn_busy d');
  le_last_progress : learn (=) (dn_last_progress_unix_ms d) (dn_last_progress_unix_ms d');
  le_exit : dn_exit d = dn_exit d';
}.

Record evidence_le (e e' : Evidence) : Prop := mkEvidenceLe {
  le_now : ev_now_unix_ms e = ev_now_unix_ms e';
  le_source : ev_source e = ev_source e';
  le_started : learn (=) (ev_started_at_unix_ms e) (ev_started_at_unix_ms e');
  le_phase : learn (=) (ev_phase e) (ev_phase e');
  le_ever_served : learn (=) (ev_ever_served e) (ev_ever_served e');
  le_shutting : learn (=) (ev_shutting_down e) (ev_shutting_down e');
  le_listeners : learn (=) (ev_listeners e) (ev_listeners e');
  le_shards : learn (=) (ev_shards e) (ev_shards e');
  le_workers : learn (=) (ev_workers e) (ev_workers e');
  le_wab_cap : learn cap_le (ev_wab_cap e) (ev_wab_cap e');
  le_channel : learn (=) (ev_channel e) (ev_channel e');
  le_drain : learn drain_le (ev_drain e) (ev_drain e');
  le_sink : learn sink_le (ev_sink e) (ev_sink e');
  le_backlog : learn (=) (ev_backlog e) (ev_backlog e');
  le_recent : learn recent_le (ev_recent e) (ev_recent e');
  le_reload : learn (=) (ev_reload e) (ev_reload e');
  le_admin : learn (=) (ev_admin e) (ev_admin e');
  le_config : learn config_le (ev_config e) (ev_config e');
}.

Ltac preorder_by_fields :=
  split; [intros x; constructor; reflexivity
         |intros x y z [] []; constructor; (etransitivity; [eassumption|eassumption])].

#[global] Instance recent_le_preorder : PreOrder recent_le.
Proof. preorder_by_fields. Qed.
#[global] Instance config_le_preorder : PreOrder config_le.
Proof. preorder_by_fields. Qed.
#[global] Instance cap_le_preorder : PreOrder cap_le.
Proof. preorder_by_fields. Qed.
#[global] Instance sink_le_preorder : PreOrder sink_le.
Proof. preorder_by_fields. Qed.
#[global] Instance drain_le_preorder : PreOrder drain_le.
Proof. preorder_by_fields. Qed.
#[global] Instance evidence_le_preorder : PreOrder evidence_le.
Proof. preorder_by_fields. Qed.

(** A verdict stands; its text may change. *)
Definition stands (o o' : RuleOutcome) : Prop :=
  match o with
  | Unevaluated => True
  | Inactive => o' = Inactive
  | Active _ => ∃ f, o' = Active f
  end.

(** Nothing new was learned of what the drain is inside. *)
Definition busy_settled (e e' : Evidence) : Prop :=
  ∀ d d', ev_drain e = Some d → ev_drain e' = Some d' → dn_busy d = dn_busy d'.

(** Case on what [e] knows of a fact; when it knows it, [e'] knows the same. *)
Ltac known L :=
  let a := fresh "a" in let E := fresh "E" in
  match type of L with
  | learn _ ?x ?y =>
    destruct x as [a|] eqn:E;
    [let b := fresh "b" in let Hb := fresh "Hb" in destruct L as (b & L & Hb); rewrite L; try subst b|try exact I]
  end.
Ltac stand := first [exact I | reflexivity | by eexists].
(** Both sides branch on the same condition. *)
Ltac same_branch := repeat (first [stand | match goal with |- stands (if ?b then _ else _) _ => destruct b end]).

Section Learn.
Context (e e' : Evidence) (t : Thresholds) (L : evidence_le e e').

Lemma starting_stands : stands (starting e) (starting e').
Proof. unfold starting. destruct L. known le_phase0. same_branch. Qed.

Lemma shutting_down_stands : stands (shutting_down e) (shutting_down e').
Proof. unfold shutting_down. destruct L. known le_shutting0. destruct a; stand. Qed.

Lemma is_down_stands l : learn (=) (is_down e l) (is_down e' l).
Proof.
  unfold is_down. destruct L, (li_state l); cbn; try by eexists. known le_shutting0. cbn. by eexists.
Qed.

Lemma listener_loop_unknown ls f : stands (listener_loop e ls true) (Active f).
Proof.
  induction ls as [|l ls IH]; cbn; [done|]. destruct (is_down e l) as [[]|]; [by eexists|done..].
Qed.

Lemma listener_loop_stands ls unknown unknown' :
  (unknown' = true → unknown = true) → stands (listener_loop e ls unknown) (listener_loop e' ls unknown').
Proof.
  revert unknown unknown'. induction ls as [|l ls IH]; intros u u' H; cbn.
  - destruct u, u'; try stand. by specialize (H eq_refl).
  - pose proof (is_down_stands l) as D. known D.
    + destruct a; [stand|by apply IH].
    + destruct (is_down e' l) as [[]|]; [apply listener_loop_unknown|by apply IH..].
Qed.

Lemma listener_down_stands : stands (listener_down e) (listener_down e').
Proof. unfold listener_down. destruct L. known le_listeners0. by apply listener_loop_stands. Qed.

Lemma no_live_shard_stands : stands (no_live_shard e) (no_live_shard e').
Proof. unfold no_live_shard. destruct L. known le_phase0. known le_shards0. same_branch. Qed.

Lemma shard_offline_stands : stands (shard_offline e) (shard_offline e').
Proof.
  unfold shard_offline. destruct L. known le_shards0. known le_shutting0. destruct a0; [done|].
  destruct (filter _ a); same_branch.
Qed.

Lemma worker_exited_stands : stands (worker_exited e) (worker_exited e').
Proof.
  unfold worker_exited. destruct L. known le_workers0. known le_shutting0. destruct a0; [done|].
  destruct (List.find _ _); stand.
Qed.

Lemma wab_cap_rejecting_stands : stands (wab_cap_rejecting e) (wab_cap_rejecting e').
Proof. unfold wab_cap_rejecting. destruct L. known le_wab_cap0. destruct Hb as [-> _ _]. same_branch. Qed.

Lemma tri_or_learn a a' b b' : learn (=) a a' → learn (=) b b' → learn (=) (tri_or a b) (tri_or a' b').
Proof.
  intros Ha Hb. destruct a as [x|]; [destruct Ha as (? & -> & <-)|]; (destruct b as [y|]; [destruct Hb as (? & -> & <-)|]);
    try destruct x; try destruct y; cbn; try done; try (by eexists); destruct a' as [[]|]; try done; by eexists.
Qed.

Lemma fmap_learn {A B} (f g : A → B) x y : (∀ a, f a = g a) → learn (=) x y → learn (=) (f <$> x) (g <$> y).
Proof. intros H. destruct x; [|done]. intros (b & -> & <-). cbn. eexists. by rewrite H. Qed.

Lemma drain_backpressure_stands : stands (drain_backpressure e t) (drain_backpressure e' t).
Proof.
  unfold drain_backpressure. destruct L. rewrite <-le_now0.
  assert (Hb : learn (=) (blocked_shards e t <$> ev_shards e) (blocked_shards e' t <$> ev_shards e')).
  { apply fmap_learn; [|done]. intros l. unfold blocked_shards. by rewrite le_now0. }
  set (x := tri_or _ _). set (y := tri_or (_ <$> (_ <$> ev_shards e')) _).
  assert (Hx : learn (=) x y) by (apply tri_or_learn; by apply fmap_learn).
  known Hx. destruct a; [|done]. destruct (default _ (blocked_shards e t <$> _)), (default _ (blocked_shards e' t <$> _)). stand.
Qed.

Lemma ack_timeouts_recent_stands : stands (ack_timeouts_recent e t) (ack_timeouts_recent e' t).
Proof.
  unfold ack_timeouts_recent. destruct L. known le_recent0. destruct Hb. cbn. known le_ack_timeouts0. same_branch.
Qed.

Lemma wab_scan_stale_stands : stands (wab_scan_stale e t) (wab_scan_stale e' t).
Proof.
  unfold wab_scan_stale. destruct L. rewrite <-le_source0, <-le_now0. destruct (negb _); [done|].
  known le_wab_cap0. destruct Hb as [_ <- _]. destruct (cp_last_scan_ok_unix_ms a); same_branch.
Qed.

Lemma wab_growing_unbounded_stands : stands (wab_growing_unbounded e) (wab_growing_unbounded e').
Proof.
  unfold wab_growing_unbounded. destruct L. known le_wab_cap0. destruct Hb. cbn. known le_growing0. destruct a0; stand.
Qed.

Lemma drain_stopped_stands : stands (drain_stopped e) (drain_stopped e').
Proof. unfold drain_stopped. destruct L. known le_drain0. destruct Hb. known le_shutting0. rewrite <-le_exit0. same_branch. Qed.

Lemma sink_call_wedged_stands ct ct' since key :
  learn (=) ct ct' → stands (sink_call_wedged e t ct since key) (sink_call_wedged e' t ct' since key).
Proof. intros H. unfold sink_call_wedged. destruct L. rewrite <-le_now0. known H. same_branch. Qed.

Lemma drain_wedged_stands : busy_settled e e' → stands (drain_wedged e t) (drain_wedged e' t).
Proof.
  intros Hbusy. unfold drain_wedged. pose proof L as []. unfold busy_settled in Hbusy.
  known le_drain0. specialize (Hbusy _ _ eq_refl le_drain0). destruct Hb. known le_config0. destruct Hb.
  rewrite <-le_exit0, <-le_commit_in_flight0, <-Hbusy.
  destruct (negb _); [done|]. destruct (dn_commit_in_flight_since_unix_ms a); [by apply sink_call_wedged_stands|].
  destruct (dn_busy a) as [bu|]; [destruct (negb (bu_sink_call bu)); [done|]; by apply sink_call_wedged_stands|].
  known le_last_progress0. rewrite <-le_now0. known le_health_poll0. same_branch.
Qed.

Lemma drain_paused_stands : stands (drain_paused e) (drain_paused e').
Proof.
  unfold drain_paused. destruct L. known le_drain0. destruct Hb. rewrite <-le_pause_requested0, <-le_paused0. same_branch.
Qed.

Lemma drain_blocked_stands : stands (drain_blocked_dead_letter_full e) (drain_blocked_dead_letter_full e').
Proof.
  unfold drain_blocked_dead_letter_full. destruct L. known le_drain0. destruct Hb. rewrite <-le_state0. same_branch.
Qed.

Lemma delivery_stalled_stands : stands (delivery_stalled e t) (delivery_stalled e' t).
Proof.
  unfold delivery_stalled. destruct L. known le_backlog0. known le_sink0. destruct Hb. known le_drain0. destruct Hb.
  rewrite <-le_pause_requested0, <-le_paused0, <-le_last_success0. destruct (_ || _ || _); [done|].
  rewrite <-le_now0. destruct (sk_last_success_unix_ms a0); [same_branch|]. known le_started0. same_branch.
Qed.

Lemma delivery_lagging_stands : stands (delivery_lagging e t) (delivery_lagging e' t).
Proof.
  unfold delivery_lagging. destruct L. known le_backlog0. destruct (bl_oldest_undelivered_age_secs a); same_branch.
Qed.

Lemma segments_stranded_stands : stands (segments_stranded e) (segments_stranded e').
Proof.
  unfold segments_stranded. destruct L. known le_recent0. destruct Hb. cbn. known le_stranded0. same_branch.
Qed.

Lemma sink_down_stands : stands (sink_down e) (sink_down e').
Proof. unfold sink_down. destruct L. known le_sink0. destruct Hb. known le_health0. destruct a0; stand. Qed.

Lemma sink_degraded_stands : stands (sink_degraded e) (sink_degraded e').
Proof. unfold sink_degraded. destruct L. known le_sink0. destruct Hb. known le_health0. destruct a0; stand. Qed.

(** A sink that is failing may turn out to be down, which is the graver condition. *)
Lemma sink_failing_turns :
  stands (sink_failing e t) (sink_failing e' t) ∨
  is_active_outcome (sink_failing e t) = true ∧ is_active_outcome (sink_down e') = true.
Proof.
  unfold sink_failing, sink_down. destruct L. known le_sink0; [|by left]. destruct Hb. rewrite <-le_failures0.
  destruct (_ <? _); [by left|]. cbn [orb]. known le_health0.
  - left. destruct (bool_decide _); stand.
  - destruct (sk_health b) as [[]|]; cbn; [left; stand|left; stand|by right|left; stand].
Qed.

Lemma dead_letter_near_cap_stands : stands (dead_letter_near_cap e t) (dead_letter_near_cap e' t).
Proof.
  unfold dead_letter_near_cap. destruct L. known le_backlog0. known le_config0. destruct Hb. known le_dead_letter_max0.
  same_branch.
Qed.

Lemma noop_sink_stands : stands (noop_sink e) (noop_sink e').
Proof. unfold noop_sink. destruct L. known le_config0. destruct Hb. rewrite <-le_sink_type0. same_branch. Qed.

Lemma active_segment_aging_stands : stands (active_segment_aging e t) (active_segment_aging e' t).
Proof.
  unfold active_segment_aging. destruct L. known le_shards0. known le_config0. known le_backlog0. destruct Hb.
  known le_max_age0. known le_max_lifetime0. destruct (_ || _); [done|]. destruct (max_by _ _) as [[]|]; stand.
Qed.

Lemma fsync_failures_recent_stands : stands (fsync_failures_recent e) (fsync_failures_recent e').
Proof.
  unfold fsync_failures_recent. destruct L. known le_recent0. destruct Hb. cbn. known le_fsync_failures0. same_branch.
Qed.

Lemma flusher_respawned_recent_stands : stands (flusher_respawned_recent e) (flusher_respawned_recent e').
Proof.
  unfold flusher_respawned_recent. destruct L. known le_recent0. destruct Hb. cbn. known le_flusher_panics0.
  known le_shards0. same_branch.
Qed.

Lemma quarantine_nonempty_stands : stands (quarantine_nonempty e) (quarantine_nonempty e').
Proof. unfold quarantine_nonempty. destruct L. known le_backlog0. same_branch. Qed.

Lemma recovery_incomplete_stands : stands (recovery_incomplete e) (recovery_incomplete e').
Proof.
  unfold recovery_incomplete. destruct L. known le_recent0. destruct Hb. known le_segments_failed0. known le_copy_failed0.
  same_branch.
Qed.

Lemma tls_reload_failed_stands : stands (tls_reload_failed e) (tls_reload_failed e').
Proof. unfold tls_reload_failed. destruct L. known le_reload0. same_branch. Qed.

Lemma admin_unavailable_stands : stands (admin_unavailable e) (admin_unavailable e').
Proof. unfold admin_unavailable. destruct L. known le_admin0. same_branch. Qed.
End Learn.

Create HintDb stands.
#[export] Hint Resolve starting_stands shutting_down_stands listener_down_stands no_live_shard_stands shard_offline_stands
  worker_exited_stands wab_cap_rejecting_stands drain_backpressure_stands ack_timeouts_recent_stands wab_scan_stale_stands
  wab_growing_unbounded_stands drain_stopped_stands drain_paused_stands drain_blocked_stands
  delivery_stalled_stands delivery_lagging_stands segments_stranded_stands sink_down_stands sink_degraded_stands
  dead_letter_near_cap_stands noop_sink_stands active_segment_aging_stands fsync_failures_recent_stands
  flusher_respawned_recent_stands quarantine_nonempty_stands recovery_incomplete_stands tls_reload_failed_stands
  admin_unavailable_stands : stands.

(** The rules that take an unknown for a fact. *)
Definition presumptive (c : ConditionCode) : Prop := c = CSinkFailing ∨ c = CDrainWedged.

Lemma rule_stands c e e' t : evidence_le e e' → ¬ presumptive c → stands (rule c e t) (rule c e' t).
Proof.
  intros L Hc. unfold presumptive in Hc. destruct c; cbn [rule]; try done; eauto with stands; destruct Hc; auto.
Qed.
