(* ===== verification/Verdicts.v ===== *)
(** * Verdicts: theorems on the status rules and probes

    What the evaluator returns, in one equation; that verdicts stand when more becomes
    known; that the probes and exit codes agree with the conditions; and what the types of
    the evidence give of a condition. *)

From Stdlib Require Import ZArith Lia Strings.Byte String.
From stdpp Require Import base gmap list list_numbers option.
From S2P Require Import Prelude Text Names F64 Evidence Conditions Rules.

(** ** The evaluator *)

Section Evaluate.
Context (e : Evidence) (t : Thresholds) (latches : SinceLookup).

(** What one row of the catalogue contributes. *)
Definition row_condition (en : CatalogueEntry) : option Condition :=
  match rule (en_code en) e t with
  | Active f => Some (mkCondition (en_code en) (en_severity en) (en_affects en) (latches (en_code en)) (fi_summary f)
                        (fi_detail f) (fi_evidence f) (en_runbook en) (en_gates en))
  | _ => None
  end.
Definition row_unevaluated (en : CatalogueEntry) : option ConditionCode :=
  match rule (en_code en) e t with Unevaluated => Some (en_code en) | _ => None end.

Lemma evaluate_fold l el :
  foldl (evaluate_entry e t latches) el l =
  mkEvaluation (el_conditions el ++ omap row_condition l) (el_unevaluated el ++ omap row_unevaluated l).
Proof.
  revert el. induction l as [|en l IH]; intros [cs us]; cbn [foldl omap list_omap el_conditions el_unevaluated]; [by rewrite !app_nil_r|].
  rewrite IH. unfold evaluate_entry, row_condition, row_unevaluated.
  destruct (rule (en_code en) e t); cbn [el_conditions el_unevaluated]; by rewrite <-?app_assoc.
Qed.

Lemma evaluate_fold_nil l :
  foldl (evaluate_entry e t latches) (mkEvaluation [] []) l = mkEvaluation (omap row_condition l) (omap row_unevaluated l).
Proof. by rewrite evaluate_fold. Qed.

Lemma evaluate_rows :
  evaluate_status e t latches = mkEvaluation (omap row_condition CATALOGUE) (omap row_unevaluated CATALOGUE).
Proof. unfold evaluate_status. apply evaluate_fold_nil. Qed.

Lemma elem_condition c :
  c ∈ el_conditions (evaluate_status e t latches) ↔ ∃ en, en ∈ CATALOGUE ∧ row_condition en = Some c.
Proof. rewrite evaluate_rows. cbn [el_conditions]. apply list_elem_of_omap. Qed.

Lemma elem_unevaluated code :
  code ∈ el_unevaluated (evaluate_status e t latches) ↔ ∃ en, en ∈ CATALOGUE ∧ row_unevaluated en = Some code.
Proof. rewrite evaluate_rows. cbn [el_unevaluated]. apply list_elem_of_omap. Qed.
End Evaluate.

Lemma row_condition_Some e t latches en c :
  row_condition e t latches en = Some c →
  ∃ f, rule (en_code en) e t = Active f ∧
    c = mkCondition (en_code en) (en_severity en) (en_affects en) (latches (en_code en)) (fi_summary f)
          (fi_detail f) (fi_evidence f) (en_runbook en) (en_gates en).
Proof. unfold row_condition. destruct (rule _ _ _); try done. intros [= <-]. by eexists. Qed.

Lemma catalogue_rows : map en_code CATALOGUE = ALL ∧ NoDup ALL.
Proof. split; [by vm_compute|]. apply (bool_decide_unpack _). by vm_compute. Qed.

Lemma catalogue_entry en : en ∈ CATALOGUE → entry (en_code en) = Some en.
Proof.
  assert (H : Forall (λ en, entry (en_code en) = Some en) CATALOGUE).
  { unfold CATALOGUE. repeat (constructor; [vm_compute; reflexivity|]). constructor. }
  by rewrite list.Forall_forall in H; apply H.
Qed.

(** ** Probes *)

Definition passes (fail_closed : bool) (o : RuleOutcome) : bool :=
  match o with Inactive => true | Active _ => false | Unevaluated => negb fail_closed end.

Lemma record_ok code o fc v : pv_ok (verdict_record code o fc v) = pv_ok v && passes fc o.
Proof. destruct o, fc, (pv_ok v) eqn:E; cbn; by rewrite ?E. Qed.

Lemma readiness_ok e :
  pv_ok (readiness e) = forallb (λ c, passes true (rule c e THRESHOLDS_DEFAULT)) READINESS_CODES.
Proof. unfold readiness, READINESS_CODES. cbn [foldl]. rewrite !record_ok. cbn [forallb]. by rewrite andb_true_r, !andb_assoc. Qed.

Lemma liveness_ok e t checks :
  pv_ok (liveness e t checks) =
  negb (bool_decide (ev_phase e = Some Serving)) || forallb (λ c, passes false (rule (livez_code c) e t)) checks.
Proof.
  unfold liveness. set (serving := bool_decide _).
  assert (G : ∀ v, pv_ok (foldl (λ v c, if serving then verdict_record (livez_code c) (rule (livez_code c) e t) false v
                else verdict_pass (livez_code c) v) v checks) =
     pv_ok v && (negb serving || forallb (λ c, passes false (rule (livez_code c) e t)) checks)); [|apply G].
  induction checks as [|c checks IH]; intros v; cbn [foldl forallb]; [by rewrite orb_true_r, andb_true_r|].
  rewrite IH. destruct serving; [rewrite record_ok|]; cbn [negb orb]; [by rewrite andb_assoc|done].
Qed.

Lemma stands_passes o o' : stands o o' → passes true o = true → passes true o' = true.
Proof. destruct o; cbn; try done. by intros ->. Qed.
Lemma stands_fails o o' : stands o o' → passes false o = false → passes false o' = false.
Proof. destruct o; cbn; try done. by intros [? ->]. Qed.

Lemma not_presumptive_ready c : c ∈ READINESS_CODES → ¬ presumptive c.
Proof. unfold presumptive, READINESS_CODES. intros H [->| ->]; vm_compute in H; by repeat (inversion_clear H as [|? ? ? H']; rename H' into H). Qed.


Lemma readiness_gates en : en ∈ CATALOGUE → Readiness ∈ en_gates en ↔ en_code en ∈ READINESS_CODES.
Proof.
  assert (H : Forall (λ en, bool_decide (Readiness ∈ en_gates en) = bool_decide (en_code en ∈ READINESS_CODES)) CATALOGUE).
  { unfold CATALOGUE. repeat (constructor; [vm_compute; reflexivity|]). constructor. }
  rewrite list.Forall_forall in H. intros He. apply H in He.
  by rewrite <-(bool_decide_eq_true (Readiness ∈ _)), <-(bool_decide_eq_true (en_code en ∈ _)), He.
Qed.

Lemma readiness_catalogued c : c ∈ READINESS_CODES → ∃ en, en ∈ CATALOGUE ∧ en_code en = c.
Proof.
  intros Hc. assert (Ha : c ∈ map en_code CATALOGUE); [|apply list_elem_of_In, in_map_iff in Ha as (en & He & Hi); exists en; by rewrite list_elem_of_In].
  rewrite (proj1 catalogue_rows). revert c Hc. apply list.Forall_forall. apply (bool_decide_unpack _). by vm_compute.
Qed.

(** The rules that gate readiness have no thresholds. *)
Lemma readiness_rule c e t : c ∈ READINESS_CODES → rule c e t = rule c e THRESHOLDS_DEFAULT.
Proof. unfold READINESS_CODES. rewrite !elem_of_cons, elem_of_nil. by intros [->|[->|[->|[->|[->|[]]]]]]. Qed.

Lemma liveness_gates en : en ∈ CATALOGUE → Liveness ∈ en_gates en ↔ en_code en ∈ map livez_code LIVEZ_ALL.
Proof.
  assert (H : Forall (λ en, bool_decide (Liveness ∈ en_gates en) = bool_decide (en_code en ∈ map livez_code LIVEZ_ALL)) CATALOGUE).
  { unfold CATALOGUE. repeat (constructor; [vm_compute; reflexivity|]). constructor. }
  rewrite list.Forall_forall in H. intros He. apply H in He.
  by rewrite <-(bool_decide_eq_true (Liveness ∈ _)), <-(bool_decide_eq_true (en_code en ∈ _)), He.
Qed.

Lemma livez_catalogued c : ∃ en, en ∈ CATALOGUE ∧ en_code en = livez_code c.
Proof.
  assert (Ha : livez_code c ∈ map en_code CATALOGUE); [|apply list_elem_of_In, in_map_iff in Ha as (en & He & Hi); exists en; by rewrite list_elem_of_In].
  rewrite (proj1 catalogue_rows). destruct c; apply (bool_decide_unpack _); by vm_compute.
Qed.

Lemma livez_gated c latches e t f :
  f ∈ el_conditions (evaluate_status e t latches) → co_code f = livez_code c → Liveness ∈ co_gates f.
Proof.
  intros (en & He & Hc)%elem_condition. apply row_condition_Some in Hc as (g & _ & ->). cbn. intros Hl.
  apply (liveness_gates _ He). rewrite Hl. apply list_elem_of_In, in_map. by destruct c; cbn; auto 10.
Qed.

(** A check of [/livez] passes when its condition is not active. *)
Lemma livez_passes e t latches c :
  passes false (rule (livez_code c) e t) = true ↔
  ∀ f, f ∈ el_conditions (evaluate_status e t latches) → co_code f ≠ livez_code c.
Proof.
  split.
  - intros P f (en & He & Hc)%elem_condition. apply row_condition_Some in Hc as (g & Hg & ->). cbn. intros Hl.
    by rewrite <-Hl, Hg in P.
  - intros H. destruct (livez_catalogued c) as (en & He & Hl). rewrite <-Hl.
    destruct (rule (en_code en) e t) eqn:Hr; [done|done|]. exfalso.
    assert (Hrow : ∃ f', row_condition e t latches en = Some f' ∧ co_code f' = en_code en)
      by (unfold row_condition; rewrite Hr; by eexists).
    destruct Hrow as (f' & Hf & Hcode). apply (H f'); [apply elem_condition; by exists en|congruence].
Qed.

(** C23: the probes agree with the conditions. [/readyz] passes exactly when no condition of
    the evaluation that gates readiness is active and none is unevaluated, whatever the
    thresholds and latches. [/livez] passes exactly when the daemon is not known to be
    serving or no condition of the evaluation is one of the configured checks, all of
    which gate liveness; with every check configured, when no condition of the evaluation
    gates liveness. The exit status of the command line is the one of the table, both
    ways of computing it agree, and it is 0 or 3 exactly when [/readyz] passes. *)
Theorem probes_agree e t latches checks :
  let el := evaluate_status e t latches in
  let ready := pv_ok (readiness e) in
  (ready = true ↔
    (∀ c, c ∈ el_conditions el → Readiness ∉ co_gates c) ∧
    (∀ code en, code ∈ el_unevaluated el → entry code = Some en → Readiness ∉ en_gates en)) ∧
  (pv_ok (liveness e t checks) = true ↔
    ev_phase e ≠ Some Serving ∨
    ∀ f c, f ∈ el_conditions el → c ∈ checks → co_code f ≠ livez_code c) ∧
  (∀ f c, f ∈ el_conditions el → co_code f = livez_code c → Liveness ∈ co_gates f) ∧
  (pv_ok (liveness e t LIVEZ_ALL) = true ↔
    ev_phase e ≠ Some Serving ∨ ∀ f, f ∈ el_conditions el → Liveness ∉ co_gates f) ∧
  status_exit_code (status_from_verdict ready (el_conditions el)) = exit_code (readiness e) el ∧
  (ready = true ↔ exit_code (readiness e) el ∈ [EXIT_READY; EXIT_CRITICAL]).
Proof.
  intros el ready. split; [|split; [|split; [|split; [|split]]]].
  - unfold ready. rewrite readiness_ok, forallb_forall. split.
    + intros H. split.
      * intros c (en & He & Hc)%elem_condition. apply row_condition_Some in Hc as (f & Hf & ->). cbn [co_gates].
        rewrite (readiness_gates _ He). intros Hin. pose proof (H _ (proj1 (list_elem_of_In _ _) Hin)) as P.
        rewrite <-(readiness_rule _ e t Hin), Hf in P. done.
      * intros code en (en' & He & Hc)%elem_unevaluated Hen. unfold row_unevaluated in Hc.
        destruct (rule (en_code en') e t) eqn:Hr; try done. injection Hc as <-. rewrite (catalogue_entry _ He) in Hen.
        injection Hen as <-. rewrite (readiness_gates _ He). intros Hin.
        pose proof (H _ (proj1 (list_elem_of_In _ _) Hin)) as P. by rewrite <-(readiness_rule _ e t Hin), Hr in P.
    + intros [H1 H2] c Hc%list_elem_of_In. destruct (readiness_catalogued _ Hc) as (en & He & <-).
      pose proof (proj2 (readiness_gates _ He) Hc) as Hg. rewrite <-(readiness_rule _ e t Hc).
      destruct (rule (en_code en) e t) eqn:Hr; [|done|].
      * destruct (H2 (en_code en) en); [|by apply catalogue_entry|done]. apply elem_unevaluated. exists en.
        unfold row_unevaluated. by rewrite Hr.
      * refine (_ (H1 _ (proj2 (elem_condition e t latches _) (ex_intro _ en (conj He _))))).
        2: { unfold row_condition. by rewrite Hr. } by intros N.
  - rewrite liveness_ok, orb_true_iff, negb_true_iff, bool_decide_eq_false, forallb_forall. apply or_iff_compat_l. split.
    + intros H f c Hf Hc. eapply (livez_passes e t latches); [|exact Hf]. by apply H, list_elem_of_In.
    + intros H c Hc. apply (livez_passes e t latches). intros f Hf. apply H; [done|]. by apply list_elem_of_In.
  - intros f c. apply livez_gated.
  - rewrite liveness_ok, orb_true_iff, negb_true_iff, bool_decide_eq_false, forallb_forall. apply or_iff_compat_l. split.
    + intros H f Hf Hg. pose proof Hf as (en & He & Hc)%elem_condition. apply row_condition_Some in Hc as (g & _ & ->). cbn in Hg.
      apply (liveness_gates _ He), list_elem_of_In, in_map_iff in Hg as (c & Hl & Hc).
      eapply (livez_passes e t latches c); [by apply H|exact Hf|done].
    + intros H c _. apply (livez_passes e t latches). intros f Hf Hl. apply (H f Hf). by eapply livez_gated.
  - unfold status_from_verdict, exit_code. fold ready. by destruct ready, (any_critical _).
  - unfold exit_code. fold ready. rewrite !elem_of_cons, elem_of_nil. unfold EXIT_READY, EXIT_CRITICAL, EXIT_NOT_READY.
    destruct ready, (any_critical _); cbn [negb]; split; try done; auto; intros [|[|[]]]; discriminate.
Qed.

(** ** Types

    What the Rust types of the evidence guarantee, for the facts that the rules read. *)

Definition opt_all {A} (P : A → Prop) (o : option A) : Prop := from_option P True o.

Definition segment_fits (s : SegmentId) : Prop := is_u16 (sg_shard s) ∧ is_u64 (sg_counter s).

Record recent_fits (r : RecentCounters) : Prop := mkRecentFits {
  fit_ack_timeouts : opt_all is_u64 (rc_ack_timeouts_5m r);
  fit_fsync_failures : opt_all is_u64 (rc_fsync_failures_15m r);
  fit_flusher_panics : opt_all is_u64 (rc_flusher_panics_15m r);
  fit_stranded : opt_all is_u64 (rc_stranded_since_last_success r);
  fit_drain_panics : opt_all is_u64 (rc_drain_panics_total r);
  fit_segments_failed : opt_all is_u64 (rc_recovery_segments_failed r);
  fit_copy_failed : opt_all is_u64 (rc_recovery_quarantine_copy_failed r);
}.

Record backlog_fits (b : BacklogEvidence) : Prop := mkBacklogFits {
  fit_undelivered : is_u64 (bl_undelivered_segments b);
  fit_dead_letter : is_u64 (bl_dead_letter_bytes b);
  fit_quarantine : is_u64 (bl_quarantine_bytes b);
  fit_quarantine_files : is_u64 (bl_quarantine_files b);
}.

Record evidence_fits (e : Evidence) : Prop := mkEvidenceFits {
  fit_now : is_u64 (ev_now_unix_ms e);
  fit_phase_since : opt_all is_u64 (ev_phase_since_unix_ms e);
  fit_started : opt_all is_u64 (ev_started_at_unix_ms e);
  fit_deadline : opt_all is_u64 (ev_drain_deadline_unix_ms e);
  fit_budget : opt_all is_u64 (ev_drain_budget_secs e);
  fit_shards : opt_all (λ l, blen l < 2 ^ 64 ∧
    Forall (λ s, is_u16 (se_id s) ∧ opt_all is_u64 (se_handoff_blocked_since_unix_ms s)) l) (ev_shards e);
  fit_workers : opt_all (Forall (λ w, is_u16 (we_id w))) (ev_workers e);
  fit_cap : opt_all (λ c, is_u64 (cp_bytes_now c) ∧ is_u64 (cp_max_bytes c) ∧ is_u64 (cp_low_water_bytes c)
                          ∧ opt_all is_u64 (cp_last_scan_ok_unix_ms c)) (ev_wab_cap e);
  fit_channel : opt_all (λ c, is_u64 (ch_depth c)) (ev_channel e);
  fit_drain : opt_all (λ d, opt_all (λ i, is_u64 (if_processed_records i) ∧ segment_fits (if_segment i)) (dn_in_flight d)
                            ∧ opt_all is_u64 (dn_commit_in_flight_since_unix_ms d)
                            ∧ opt_all (λ b, is_u64 (bu_since_unix_ms b)) (dn_busy d)
                            ∧ opt_all is_u64 (dn_last_progress_unix_ms d)
                            ∧ opt_all is_u64 (dn_blocked_since_unix_ms d)) (ev_drain e);
  fit_sink : opt_all (λ s, is_u64 (sk_consecutive_failures s) ∧ opt_all is_u64 (sk_last_success_unix_ms s)) (ev_sink e);
  fit_backlog : opt_all backlog_fits (ev_backlog e);
  fit_recent : opt_all recent_fits (ev_recent e);
  fit_config : opt_all (λ c, opt_all is_u64 (pc_dead_letter_max_bytes (ce_public c))) (ev_config e);
}.

(** A value of a condition fits its Rust type and is not free text. *)
Definition value_fits (v : EvidenceValue) : Prop :=
  match v with
  | EvU64 z => is_u64 z
  | EvShards ids => Forall is_u16 ids
  | EvSegment s => segment_fits s
  | EvCode c => forallb is_ascii c = true
  | EvF64 _ | EvBool _ => True
  | EvText _ => False
  end.

Definition fired_fits (f : Fired) : Prop :=
  forallb is_ascii (fi_summary f) = true ∧ map_Forall (λ _, value_fits) (fi_evidence f).

Lemma fired_fits_new s : forallb is_ascii s = true → fired_fits (fired s).
Proof. intros H. split; [done|]. apply map_Forall_empty. Qed.
Lemma fired_fits_with k v f : value_fits v → fired_fits f → fired_fits (fired_with k v f).
Proof. intros Hv [Hs He]. split; [done|]. by apply map_Forall_insert_2. Qed.
Lemma fired_fits_detail d f : fired_fits f → fired_fits (fired_detail d f).
Proof. done. Qed.
Lemma fired_fits_opt {A} k (g : A → EvidenceValue) o f :
  opt_all (λ a, value_fits (g a)) o → fired_fits f → fired_fits (fired_opt k g o f).
Proof. destruct o; cbn; [apply fired_fits_with|done]. Qed.

Lemma age_fits now then_ : is_u64 now → 0 ≤ then_ → is_u64 (age_ms now then_).
Proof. unfold is_u64, age_ms. lia. Qed.
Lemma div_fits z : is_u64 z → is_u64 (z / 1000).
Proof. unfold is_u64. intros H. split; [apply Z.div_pos; lia|apply Z.div_lt_upper_bound; lia]. Qed.
Lemma value_u64 z : is_u64 z → value_fits (EvU64 z).
Proof. done. Qed.
Lemma u64_nonneg z : is_u64 z → 0 ≤ z.
Proof. unfold is_u64. lia. Qed.
Lemma u16_u64 z : is_u16 z → is_u64 z.
Proof. unfold is_u16, is_u64. lia. Qed.
Lemma zero_fits : is_u64 0.
Proof. unfold is_u64. lia. Qed.

(** ASCII text. *)
Lemma ascii_app l r : forallb is_ascii l = true → forallb is_ascii r = true → forallb is_ascii (l ++ r) = true.
Proof. intros Hl Hr. by rewrite forallb_app, Hl, Hr. Qed.
Lemma ascii_dec z : forallb is_ascii (dec z) = true.
Proof.
  unfold dec. rewrite forallb_rev. pose proof (forallb_digits_rev (S (Z.to_nat (Z.log2 z))) z) as H.
  rewrite forallb_forall in *. intros b Hb. by apply is_digit_ascii, H.
Qed.
Lemma ascii_join_ids ids : forallb is_ascii (join_ids ids) = true.
Proof.
  unfold join_ids. induction ids as [|i ids IH]; [done|]. destruct ids as [|j ids]; [apply ascii_dec|].
  cbn [map join] in *. apply ascii_app; [apply ascii_dec|]. apply ascii_app; [done|apply IH].
Qed.
Lemma ascii_option {A} (f : A → bytes) d o :
  (∀ a, forallb is_ascii (f a) = true) → forallb is_ascii d = true → forallb is_ascii (from_option f d o) = true.
Proof. destruct o; cbn; auto. Qed.

Ltac ascii :=
  cbn [concat];
  lazymatch goal with
  | |- forallb is_ascii (_ ++ _) = true => apply ascii_app; ascii
  | |- forallb is_ascii (dec _) = true => apply ascii_dec
  | |- forallb is_ascii (join_ids _) = true => apply ascii_join_ids
  | |- forallb is_ascii (as_str _) = true => apply as_str_ascii
  | |- forallb is_ascii (from_option _ _ _) = true => apply ascii_option; [intros ?|]; ascii
  | |- forallb is_ascii (match ?x with _ => _ end) = true => destruct x; ascii
  | |- _ => vm_compute; reflexivity
  end.

Create HintDb fits.
#[export] Hint Resolve fired_fits_new fired_fits_with fired_fits_detail fired_fits_opt age_fits div_fits value_u64 u64_nonneg u16_u64
  zero_fits as_str_ascii f64_to_u64_range : fits.

Definition outcome_fits (o : RuleOutcome) : Prop := match o with Active f => fired_fits f | _ => True end.

(** What is known of the facts that a rule has matched on. *)
Ltac facts :=
  repeat match goal with
  | H : opt_all _ (Some _) |- _ => cbn [opt_all from_option] in H
  | H : _ ∧ _ |- _ => destruct H
  | H : recent_fits _ |- _ => destruct H
  | H : backlog_fits _ |- _ => destruct H
  end.
Ltac cases :=
  facts;
  repeat match goal with
  | |- outcome_fits (match ?x with _ => _ end) => destruct x eqn:?; facts
  end; try exact I; cbn [outcome_fits].

Section Fits.
Context (e : Evidence) (t : Thresholds) (F : evidence_fits e).

Lemma starting_fits : outcome_fits (starting e).
Proof.
  unfold starting. destruct F. cases.
  assert (Hs : is_u64 (from_option (λ s, age_ms (ev_now_unix_ms e) s / 1000) 0 (ev_phase_since_unix_ms e))).
  { destruct (ev_phase_since_unix_ms e); cbn in *; eauto with fits. }
  apply fired_fits_with; [done|]. apply fired_fits_with; [apply as_str_ascii|]. apply fired_fits_new. unfold summary_starting. ascii.
Qed.

Lemma shutting_down_fits : outcome_fits (shutting_down e).
Proof.
  unfold shutting_down. destruct F. cases. apply fired_fits_opt; [by destruct (ev_drain_budget_secs e)|].
  apply fired_fits_opt; [destruct (ev_drain_deadline_unix_ms e); cbn in *; eauto with fits|]. apply fired_fits_with; [done|].
  apply fired_fits_new. unfold summary_shutting_down. ascii.
Qed.

Lemma listener_down_fits : outcome_fits (listener_down e).
Proof.
  unfold listener_down. cases. clear Heqo. generalize false. induction l as [|x l IH]; intros u; cbn [listener_loop]; [by destruct u|].
  destruct (is_down e x) as [[]|]; [|apply IH..]. cbn [outcome_fits].
  repeat (apply fired_fits_with; [apply as_str_ascii|]). apply fired_fits_new. unfold summary_listener_down. ascii.
Qed.

Lemma no_live_shard_fits : outcome_fits (no_live_shard e).
Proof.
  unfold no_live_shard. destruct F. cases. apply fired_fits_with; [|by apply fired_fits_new].
  pose proof (blen_nonneg l). cbn. unfold is_u64. lia.
Qed.

Lemma Forall_filter {A} (P Q : A → Prop) `{∀ x, Decision (Q x)} l : Forall P l → Forall P (filter Q l).
Proof. rewrite !list.Forall_forall. intros Hl x [_ Hx]%list_elem_of_filter. by apply Hl. Qed.

Lemma ids_fit (P : ShardEvidence → Prop) `{∀ s, Decision (P s)} l :
  Forall (λ s, is_u16 (se_id s) ∧ opt_all is_u64 (se_handoff_blocked_since_unix_ms s)) l → Forall is_u16 (map se_id (filter P l)).
Proof.
  intros Hl. apply Forall_fmap, Forall_filter. eapply list.Forall_impl; [done|]. by intros s [].
Qed.

Lemma shard_offline_fits : outcome_fits (shard_offline e).
Proof.
  unfold shard_offline. destruct F. cases. rewrite <-Heql0. apply fired_fits_with; [by apply ids_fit|].
  apply fired_fits_with; [apply as_str_ascii|]. apply fired_fits_new. unfold summary_shard_offline. ascii.
Qed.

Lemma worker_exited_fits : outcome_fits (worker_exited e).
Proof.
  unfold worker_exited. destruct F. cases. apply find_some in Heqo1 as [Hw _].
  rewrite list.Forall_forall in fit_workers0. apply list_elem_of_In, fit_workers0 in Hw.
  apply fired_fits_with; [|apply fired_fits_with; [by apply u16_u64|apply fired_fits_new; unfold summary_worker_exited; ascii]].
  apply Forall_filter. destruct (ev_shards e) as [l0|]; [|apply Forall_nil_2]. cbn in *. facts.
  apply Forall_fmap. eapply list.Forall_impl; [done|]. by intros s [].
Qed.

Lemma wab_cap_rejecting_fits : outcome_fits (wab_cap_rejecting e).
Proof.
  unfold wab_cap_rejecting. destruct F. cases. repeat (apply fired_fits_with; [done|]). apply fired_fits_new.
  unfold summary_wab_cap_rejecting. ascii.
Qed.

Lemma blocked_shards_fit l :
  Forall (λ s, is_u16 (se_id s) ∧ opt_all is_u64 (se_handoff_blocked_since_unix_ms s)) l →
  Forall is_u16 (fst (blocked_shards e t l)) ∧ is_u64 (snd (blocked_shards e t l)).
Proof.
  intros Hl. split; [by apply ids_fit|]. cbn [blocked_shards snd]. apply div_fits. destruct F.
  induction Hl as [|s l [_ Hs] Hl IH]; cbn; [apply zero_fits|].
  destruct (se_handoff_blocked_since_unix_ms s); cbn in *; [|done]. apply u64_nonneg in Hs.
  pose proof (age_fits (ev_now_unix_ms e) _ fit_now0 Hs). unfold is_u64 in *. lia.
Qed.

Lemma drain_backpressure_fits : outcome_fits (drain_backpressure e t).
Proof.
  unfold drain_backpressure. destruct F. cases. apply fired_fits_opt.
  { destruct (ev_channel e); cbn in *; done. }
  assert (Hp : Forall is_u16 l ∧ is_u64 z).
  { destruct (ev_shards e) as [l0|]; cbn in *; [|injection Heqp as <- <-; split; [apply Forall_nil_2|apply zero_fits]].
    facts. pose proof (blocked_shards_fit l0) as H'. rewrite Heqp in H'. by apply H'. }
  destruct Hp. apply fired_fits_with; [done|]. apply fired_fits_with; [done|]. apply fired_fits_new.
  unfold summary_drain_backpressure. ascii.
Qed.

Lemma ack_timeouts_recent_fits : outcome_fits (ack_timeouts_recent e t).
Proof.
  unfold ack_timeouts_recent. destruct F. destruct (ev_recent e) as [r|] eqn:Er; cbn [mbind option_bind]; [|done]. cases.
  set (cause := if is_active_outcome _ then _ else _). apply fired_fits_with; [by destruct cause|].
  apply fired_fits_with; [done|]. apply fired_fits_new. unfold summary_ack_timeouts_recent. clearbody cause. ascii.
Qed.

Lemma wab_scan_stale_fits : outcome_fits (wab_scan_stale e t).
Proof.
  unfold wab_scan_stale. destruct F. cases; (apply fired_fits_with; [eauto with fits|]); apply fired_fits_new;
    unfold summary_wab_scan_stale; ascii.
Qed.

Lemma wab_growing_unbounded_fits : outcome_fits (wab_growing_unbounded e).
Proof. unfold wab_growing_unbounded. cases. by apply fired_fits_new. Qed.

Lemma drain_stopped_fits : outcome_fits (drain_stopped e).
Proof.
  unfold drain_stopped. destruct F. cases. apply fired_fits_detail, fired_fits_with.
  - destruct (ev_recent e) as [r|]; cbn in *; [|apply zero_fits]. facts.
    destruct (rc_drain_panics_total r); [done|apply zero_fits].
  - apply fired_fits_new. unfold summary_drain_stopped. ascii.
Qed.

Lemma sink_call_wedged_fits ct since key : is_u64 since → outcome_fits (sink_call_wedged e t ct since key).
Proof.
  intros Hs. unfold sink_call_wedged. destruct F. cases. apply fired_fits_with; [eauto with fits|].
  apply fired_fits_new. unfold summary_drain_wedged. ascii.
Qed.

Lemma drain_wedged_fits : outcome_fits (drain_wedged e t).
Proof.
  unfold drain_wedged. destruct F. cases; try (by apply sink_call_wedged_fits).
  apply fired_fits_with; [eauto with fits|]. apply fired_fits_new. unfold summary_drain_wedged. ascii.
Qed.

Lemma drain_paused_fits : outcome_fits (drain_paused e).
Proof.
  unfold drain_paused. destruct F. cases. set (base := fired _). set (held := if dn_held d then _ else _).
  assert (Hh : opt_all (λ i, is_u64 (if_processed_records i) ∧ segment_fits (if_segment i)) held)
    by (unfold held; by destruct (dn_held d)).
  assert (Hb : fired_fits base).
  { apply fired_fits_new. unfold summary_drain_paused. set (b := from_option _ false _). clearbody b held. ascii. }
  clearbody base held. destruct held as [i|]; cbn in Hh; [destruct Hh|];
    repeat first [done | apply fired_fits_detail | apply fired_fits_with; [done|]].
Qed.

Lemma drain_blocked_fits : outcome_fits (drain_blocked_dead_letter_full e).
Proof.
  unfold drain_blocked_dead_letter_full. destruct F. cases. apply fired_fits_opt; [by destruct (dn_blocked_since_unix_ms d)|].
  apply fired_fits_new. unfold summary_drain_blocked. ascii.
Qed.

Lemma delivery_stalled_fits : outcome_fits (delivery_stalled e t).
Proof.
  unfold delivery_stalled. destruct F. cases.
  assert (Hz : is_u64 z). { destruct (sk_last_success_unix_ms s); [by simplify_eq|]. rewrite Heqo2 in fit_started0. done. }
  repeat (apply fired_fits_with; [eauto with fits|]). apply fired_fits_new. unfold summary_delivery_stalled. ascii.
Qed.

Lemma delivery_lagging_fits : outcome_fits (delivery_lagging e t).
Proof.
  unfold delivery_lagging. cases. apply fired_fits_with; [done|]. apply fired_fits_new. unfold summary_delivery_lagging. ascii.
Qed.

Lemma segments_stranded_fits : outcome_fits (segments_stranded e).
Proof.
  unfold segments_stranded. destruct F. destruct (ev_recent e) as [r|] eqn:Er; cbn [mbind option_bind]; [|done]. cases.
  apply fired_fits_with; [done|]. apply fired_fits_new. unfold summary_segments_stranded. ascii.
Qed.

Lemma sink_down_fits : outcome_fits (sink_down e).
Proof. unfold sink_down. cases. apply fired_fits_detail, fired_fits_new. unfold summary_sink_down. ascii. Qed.

Lemma sink_degraded_fits : outcome_fits (sink_degraded e).
Proof. unfold sink_degraded. cases. by apply fired_fits_detail, fired_fits_new. Qed.

Lemma sink_failing_fits : outcome_fits (sink_failing e t).
Proof.
  unfold sink_failing. destruct F. cases. apply fired_fits_opt; [destruct (sk_last_failure_kind s); cbn; [apply as_str_ascii|done]|].
  apply fired_fits_detail, fired_fits_with; [done|]. apply fired_fits_new. unfold summary_sink_failing. ascii.
Qed.

Lemma dead_letter_near_cap_fits : outcome_fits (dead_letter_near_cap e t).
Proof.
  unfold dead_letter_near_cap. destruct F. cases. repeat (apply fired_fits_with; [done|]). apply fired_fits_new.
  unfold summary_dead_letter_near_cap. ascii.
Qed.

Lemma noop_sink_fits : outcome_fits (noop_sink e).
Proof. unfold noop_sink. cases. by apply fired_fits_new. Qed.

Lemma active_segment_aging_fits : outcome_fits (active_segment_aging e t).
Proof.
  unfold active_segment_aging. destruct F. cases. apply max_by_elem in Heqo4.
  apply list_elem_of_filter in Heqo4 as [_ (x & Hx & Hp)%list_elem_of_omap].
  destruct (se_active_segment_age_secs x); [|done]. injection Hp as <- <-.
  rewrite list.Forall_forall in H0. destruct (H0 _ Hx). apply fired_fits_with; [done|].
  apply fired_fits_with; [by apply u16_u64|]. apply fired_fits_new. unfold summary_active_segment_aging. ascii.
Qed.

Lemma fsync_failures_recent_fits : outcome_fits (fsync_failures_recent e).
Proof.
  unfold fsync_failures_recent. destruct F. destruct (ev_recent e) as [r|] eqn:Er; cbn [mbind option_bind]; [|done]. cases.
  apply fired_fits_with; [done|]. apply fired_fits_new. unfold summary_fsync_failures_recent. ascii.
Qed.

Lemma flusher_respawned_recent_fits : outcome_fits (flusher_respawned_recent e).
Proof.
  unfold flusher_respawned_recent. destruct F. destruct (ev_recent e) as [r|] eqn:Er; cbn [mbind option_bind]; [|done]. cases.
  apply fired_fits_with; [done|]. apply fired_fits_new. unfold summary_flusher_respawned_recent. ascii.
Qed.

Lemma quarantine_nonempty_fits : outcome_fits (quarantine_nonempty e).
Proof.
  unfold quarantine_nonempty. destruct F. cases. repeat (apply fired_fits_with; [done|]). apply fired_fits_new.
  unfold summary_quarantine_nonempty. ascii.
Qed.

Lemma recovery_incomplete_fits : outcome_fits (recovery_incomplete e).
Proof.
  unfold recovery_incomplete. destruct F. destruct (ev_recent e) as [r|]; [|done]. cases. repeat (apply fired_fits_with; [done|]). apply fired_fits_new.
  unfold summary_recovery_incomplete. ascii.
Qed.

Lemma tls_reload_failed_fits : outcome_fits (tls_reload_failed e).
Proof. unfold tls_reload_failed. cases. by apply fired_fits_detail, fired_fits_new. Qed.

Lemma admin_unavailable_fits : outcome_fits (admin_unavailable e).
Proof.
  unfold admin_unavailable. cases. apply fired_fits_opt; [destruct (ad_reason a); cbn; [apply as_str_ascii|done]|].
  apply fired_fits_new. unfold summary_admin_unavailable. ascii.
Qed.

#[local] Hint Resolve starting_fits shutting_down_fits listener_down_fits no_live_shard_fits shard_offline_fits
  worker_exited_fits wab_cap_rejecting_fits drain_backpressure_fits ack_timeouts_recent_fits wab_scan_stale_fits
  wab_growing_unbounded_fits drain_stopped_fits drain_wedged_fits drain_paused_fits drain_blocked_fits
  delivery_stalled_fits delivery_lagging_fits segments_stranded_fits sink_down_fits sink_degraded_fits
  sink_failing_fits dead_letter_near_cap_fits noop_sink_fits active_segment_aging_fits fsync_failures_recent_fits
  flusher_respawned_recent_fits quarantine_nonempty_fits recovery_incomplete_fits tls_reload_failed_fits
  admin_unavailable_fits : fits.

Lemma rule_fits c : outcome_fits (rule c e t).
Proof. destruct c; cbn [rule]; try exact I; eauto with fits. Qed.
End Fits.

Section Rows.
Context (e : Evidence) (t : Thresholds) (latches : SinceLookup).

Lemma rows_codes l : map co_code (omap (row_condition e t latches) l) `sublist_of` map en_code l.
Proof.
  induction l as [|en l IH]; [done|]. cbn [omap list_omap map].
  destruct (row_condition e t latches en) as [c|] eqn:E; [|by apply sublist_cons].
  apply row_condition_Some in E as (f & _ & ->). by apply sublist_skip.
Qed.

Lemma rows_unevaluated l : omap (row_unevaluated e t) l `sublist_of` map en_code l.
Proof.
  induction l as [|en l IH]; [done|]. cbn [omap list_omap map]. unfold row_unevaluated at 1.
  destruct (rule _ _ _); [by apply sublist_skip|by apply sublist_cons..].
Qed.

Lemma active_evaluated c :
  is_active (evaluate_status e t latches) c = true → c ∉ el_unevaluated (evaluate_status e t latches).
Proof.
  unfold is_active. rewrite existsb_exists. intros (d & Hd%list_elem_of_In & Hc). apply bool_decide_eq_true in Hc as <-.
  apply elem_condition in Hd as (en & _ & (f & Hf & ->)%row_condition_Some). cbn [co_code].
  rewrite elem_unevaluated. intros (en' & _ & H). unfold row_unevaluated in H.
  destruct (rule (en_code en') e t) eqn:R; try done. injection H as H. by rewrite H, Hf in R.
Qed.
End Rows.

(** C24: evaluations are well typed: the active codes and the unevaluated codes are in
    catalogue order without repetition and disjoint; each condition carries the severity,
    scope, gates and runbook of its catalogue row; its summary is ASCII; and each of its
    evidence values fits the Rust type that carries it (ages saturate, so no subtraction
    underflows) and is a number, a flag, a code, a segment or shard numbers, never free
    text. *)
Theorem evaluate_well_typed e t latches :
  evidence_fits e →
  let el := evaluate_status e t latches in
  map co_code (el_conditions el) `sublist_of` ALL ∧ el_unevaluated el `sublist_of` ALL ∧
  (∀ c, is_active el c = true → c ∉ el_unevaluated el) ∧
  Forall (λ c,
    entry (co_code c) = Some (mkEntry (co_code c) (co_severity c) (co_affects c) (co_gates c) (co_runbook c)) ∧
    forallb is_ascii (co_summary c) = true ∧ map_Forall (λ _, value_fits) (co_evidence c)) (el_conditions el).
Proof.
  intros F el. rewrite <-(proj1 catalogue_rows). split; [|split; [|split]].
  - unfold el. rewrite evaluate_rows. apply rows_codes.
  - unfold el. rewrite evaluate_rows. apply rows_unevaluated.
  - apply active_evaluated.
  - apply list.Forall_forall. intros c (en & He & (f & Hf & ->)%row_condition_Some)%elem_condition.
    cbn [co_code co_severity co_affects co_gates co_runbook co_summary co_evidence].
    split; [rewrite (catalogue_entry _ He); by destruct en|]. pose proof (rule_fits e t F (en_code en)) as R. by rewrite Hf in R.
Qed.

(** ** Examples *)

Module VerdictsWitness.
Definition shard (id : Z) (state : ShardState) : ShardEvidence :=
  mkShardEvidence id state None 1000 0 true (Some 1000) (Some (f64_of 4000)).
Definition settings : ConfigEvidence :=
  mkConfigEvidence (bstr "http") (Some 60)
    (mkPublicConfig (Some 2) (Some 2) (Some 0) (Some 1000) None (Some 0) (Some 0) None None (Some 5) None None None None None) ∅.
Definition counters : RecentCounters := mkRecent (Some 3) (Some 0) (Some 0) (Some 1) (Some 0) (Some 0) (Some 0) (Some 0).

(** A daemon that serves; [drain] is what is known of its drain. *)
Definition serving (drain : option DrainEvidence) : Evidence :=
  mkEvidence 100000 FromDaemon None (Some 1000) (Some Serving) (Some 2000) (Some true) (Some false) None None None None
    (Some [mkListener ListenUnix LBound; mkListener ListenTcp LNotConfigured])
    (Some [shard 0 Up; shard 1 Offline]) (Some [mkWorkerEvidence 0 true None; mkWorkerEvidence 1 false (Some 50)])
    (Some 7) (Some (mkCap 1000 900 950 false (Some 90000) (Some 95000) (Some false))) (Some (mkChannel 3 256 None))
    drain (Some (mkSinkEvidence (Some SinkHealthy) None None None None 0 None None))
    (Some (mkBacklog 2 10 (Some (f64_of 1000)) 900 (Some 1000) 0 0 99000)) (Some counters) None
    (Some (mkAdmin true AdminBound None None)) (Some settings).
Definition wedged : DrainEvidence :=
  mkDrainEvidence CodeDraining 1000 false false false None None 1 0 (Some (mkInFlight (mkSegmentId 1 7) 1 3 5 None)) (Some 1000)
    None None None 1 1 0 0 None None ExitRunning None.


(** What is learned of an unknown health or busy operation can turn these two verdicts. *)
Definition with_sink_health (h : option SinkHealthCode) (e : Evidence) : Evidence :=
  mkEvidence (ev_now_unix_ms e) (ev_source e) None None (ev_phase e) None None None None None None None None None None None None None
    None (Some (mkSinkEvidence h None None None None 50 None None)) None None None None None.
Definition idle_drain (busy : option BusyEvidence) : DrainEvidence :=
  mkDrainEvidence CodeDraining 1000 false false false None None 1 0 None None busy (Some 1000) None 1 1 0 0 None None ExitRunning None.

Example presumptive_rules :
  let e h := with_sink_health h (serving None) in
  let busy := mkBusy false 1000 in
  (evidence_le (e None) (e (Some SinkDown)) ∧
   is_active_outcome (rule CSinkFailing (e None) THRESHOLDS_DEFAULT) = true ∧
   rule CSinkFailing (e (Some SinkDown)) THRESHOLDS_DEFAULT = Inactive ∧
   is_active_outcome (rule CSinkDown (e (Some SinkDown)) THRESHOLDS_DEFAULT) = true) ∧
  evidence_le (serving (Some (idle_drain None))) (serving (Some (idle_drain (Some busy)))) ∧
  is_active_outcome (rule CDrainWedged (serving (Some (idle_drain None))) THRESHOLDS_DEFAULT) = true ∧
  rule CDrainWedged (serving (Some (idle_drain (Some busy)))) THRESHOLDS_DEFAULT = Inactive.
Proof.
  split; [split; [|by vm_compute]|split; [|by vm_compute]];
    (constructor; first [reflexivity | exact I | eexists; split; [reflexivity|constructor; first [reflexivity|exact I]]]).
Qed.

Lemma serving_fits : evidence_fits (serving (Some wedged)).
Proof.
  constructor; cbn; unfold is_u64, segment_fits, is_u16; cbn; try lia; repeat first [constructor | lia | done]; cbn; lia.
Qed.

Lemma evaluate_well_typed_witness :
  let el := evaluate_status (serving (Some wedged)) THRESHOLDS_DEFAULT no_latches in
  map co_code (el_conditions el) =
    [CShardOffline; CWorkerExited; CDrainBackpressure; CAckTimeoutsRecent; CDrainWedged; CDeliveryLagging;
     CSegmentsStranded; CDeadLetterNearCap; CActiveSegmentAging] ∧
  el_unevaluated el = [CTlsReloadFailed] ∧ map co_code (el_conditions el) `sublist_of` ALL.
Proof.
  intros el. split; [by vm_compute|]. split; [by vm_compute|].
  apply (evaluate_well_typed (serving (Some wedged)) THRESHOLDS_DEFAULT no_latches serving_fits).
Defined.
End VerdictsWitness.
