(* ===== verification/StatusDoc.v ===== *)
(** * Status documents (weir-status)

    The admin document of crates/weir-status/src/doc.rs, built from evidence and its
    evaluation, and the public document of public.rs, built from the admin document. *)

From Stdlib Require Import ZArith Lia Strings.Byte String.
From stdpp Require Import base gmap list option.
From S2P Require Import Prelude Text Names F64 Evidence Conditions Rules Verdicts.

(** ** The admin document *)

Definition SCHEMA : bytes := bstr "weir.status/v1".
Definition CHANNEL_CAPACITY : Z := 256.
Definition ADMIN_PROTOCOL : Z := 1.
Definition ADMIN_VERBS : list bytes :=
  [bstr "status"; bstr "reload"; bstr "drain.pause"; bstr "drain.resume"; bstr "drain.retry_stranded"].
Definition MAX_DOC_SHARDS : nat := 256.
Definition MAX_DOC_CONDITIONS : nat := 40.

Inductive View := ViewPublic | ViewAdmin.

Record InstanceView := mkInstance { in_wab_dir : bytes; in_socket_path : bytes; in_wab_dir_dev : Z; in_wab_dir_ino : Z }.
Record DocVerdict := mkDocVerdict {
  vd_ready : bool;
  vd_live : bool;
  vd_startup_complete : bool;
  vd_livez_checks : list LivezCheck;
  vd_readiness_failing : list ConditionCode;
  vd_liveness_failing : list ConditionCode;
}.
Record ReplayView := mkReplay { rp_total : Z; rp_remaining : Z }.
Record StartupView := mkStartup { su_phase : option Phase; su_phase_since_ms : option Z; su_replay : option ReplayView }.
Record LifecycleView := mkLifecycle {
  lc_shutting_down : option bool;
  lc_shutting_down_since_ms : option Z;
  lc_forced : option bool;
  lc_drain_deadline_ms : option Z;
}.
Record ListenerView := mkListenerView { lv_kind : ListenerKind; lv_state : ListenerState }.
Record WabCapView := mkCapView {
  cv_max_bytes : Z;
  cv_low_water_bytes : Z;
  cv_bytes_now : Z;
  cv_rejecting : bool;
  cv_last_scan_ok_ms : option Z;
}.
Record IngestView := mkIngest { ig_listeners : list ListenerView; ig_queue_depth : option Z; ig_wab_cap : option WabCapView }.
Record ShardView := mkShardView {
  sv_id : Z;
  sv_state : ShardState;
  sv_reason : option OfflineReason;
  sv_since_ms : Z;
  sv_respawns : Z;
  sv_worker_running : bool;
  sv_handoff_blocked_since_ms : option Z;
  sv_active_segment_age_secs : option f64;
}.
Record InFlightView := mkInFlightView {
  fv_segment : SegmentId;
  fv_attempt : Z;
  fv_retries_left : Z;
  fv_processed_records : Z;
  fv_next_retry_at_ms : option Z;
  fv_commit_in_flight_since_ms : option Z;
}.
Record AdminRequeueView := mkAdminRequeue {
  aq_ticket : Z;
  aq_requeued : Z;
  aq_already_queued : Z;
  aq_backoff_cut : bool;
  aq_coalesced : bool;
  aq_scan_failed : bool;
  aq_at_ms : Z;
  aq_scan_error : option bytes;
}.
Record AdminDrainView := mkAdminDrain {
  adr_state : DrainStateCode;
  adr_state_since_ms : option Z;
  adr_paused : bool;
  adr_pause_requested : bool;
  adr_held : bool;
  adr_paused_since_ms : option Z;
  adr_paused_by_uid : option Z;
  adr_generation : Z;
  adr_observed_requeue : Z;
  adr_in_flight : option InFlightView;
  adr_pending_segments : Z;
  adr_backlog_segments : Z;
  adr_channel_depth : option Z;
  adr_channel_capacity : Z;
  adr_heartbeat_age_secs : option f64;
  adr_blocked_since_ms : option Z;
  adr_last_requeue : option AdminRequeueView;
  adr_exit : DrainExitCode;
  adr_last_panic : option bytes;
}.
Record AdminSinkFailure := mkAdminFailure { af_at_ms : Z; af_kind : option SinkFailureKind; af_message : option bytes }.
Record AdminSinkView := mkAdminSink {
  as_sink_type : bytes;
  as_health : option SinkHealthCode;
  as_health_since_ms : option Z;
  as_last_success_ms : option Z;
  as_last_failure : option AdminSinkFailure;
  as_consecutive_failures : Z;
  as_probe_reason : option bytes;
}.
Record BacklogView := mkBacklogView {
  bv_undelivered_segments : Z;
  bv_undelivered_records : Z;
  bv_oldest_undelivered_age_secs : option f64;
  bv_dead_letter_bytes : Z;
  bv_dead_letter_max_bytes : option Z;
  bv_quarantine_bytes : Z;
  bv_quarantine_files : Z;
  bv_scanned_at_ms : Z;
}.
Record AdminReloadItem := mkAdminItem { ai_item : bytes; ai_outcome : ReloadItemOutcome; ai_detail : option bytes }.
Record NotReloadedView := mkNotReloadedView { nv_item : bytes; nv_reason_code : bytes }.
Record AdminReloadLast := mkAdminReload {
  ar_trigger : ReloadTriggerCode;
  ar_at_ms : Z;
  ar_outcome : ReloadOutcomeCode;
  ar_items : list AdminReloadItem;
  ar_not_reloaded : list NotReloadedView;
}.
Record AdminSurfaceView := mkSurface {
  sf_protocol : Z;
  sf_verbs : list bytes;
  sf_state : option AdminState;
  sf_reason_code : option bytes;
  sf_path : option bytes;
}.
Record AdminConfigDoc := mkConfigDoc { cd_public : PublicConfig; cd_view : gmap bytes ConfigValue }.

(** [AdminReloadView] has the one field [last]. *)
Record AdminStatusDoc := mkAdminDoc {
  doc_schema : bytes;
  doc_view : View;
  doc_version : bytes;
  doc_wire_version : Z;
  doc_generated_at_ms : Z;
  doc_started_at_ms : Z;
  doc_uptime_secs : f64;
  doc_pid : Z;
  doc_instance : InstanceView;
  doc_verdict : DocVerdict;
  doc_conditions : list Condition;
  doc_unevaluated : list ConditionCode;
  doc_startup : StartupView;
  doc_lifecycle : LifecycleView;
  doc_ingest : IngestView;
  doc_shards : list ShardView;
  doc_drain : option AdminDrainView;
  doc_sink : option AdminSinkView;
  doc_backlog : option BacklogView;
  doc_reload : option AdminReloadLast;
  doc_admin : AdminSurfaceView;
  doc_config : AdminConfigDoc;
}.

Definition shard_view (s : ShardEvidence) : ShardView :=
  mkShardView (se_id s) (se_state s) (se_reason s) (se_since_unix_ms s) (se_respawns s) (se_worker_running s)
    (se_handoff_blocked_since_unix_ms s) (se_active_segment_age_secs s).

Definition requeue_view (r : RequeueEvidence) : AdminRequeueView :=
  mkAdminRequeue (rq_ticket r) (rq_requeued r) (rq_already_queued r) (rq_backoff_cut r) (rq_coalesced r)
    (bool_decide (is_Some (rq_scan_error r))) (rq_at_unix_ms r) (rq_scan_error r).

Definition drain_view (d : DrainEvidence) (channel : option ChannelEvidence) : AdminDrainView :=
  mkAdminDrain (dn_state d) (Some (dn_state_since_unix_ms d)) (dn_paused d) (dn_pause_requested d) (dn_held d)
    (dn_paused_since_unix_ms d) (dn_paused_by_uid d) (dn_generation d) (dn_observed_requeue d)
    ((λ i, mkInFlightView (if_segment i) (if_attempt i) (if_retries_left i) (if_processed_records i)
             (if_next_retry_at_unix_ms i) (dn_commit_in_flight_since_unix_ms d)) <$> dn_in_flight d)
    (dn_pending_segments d) (dn_backlog_segments d) (ch_depth <$> channel) CHANNEL_CAPACITY (dn_heartbeat_age_secs d)
    (dn_blocked_since_unix_ms d) (requeue_view <$> dn_last_requeue d) (dn_exit d) (dn_last_panic d).

Definition sink_view (s : SinkEvidence) (config : option ConfigEvidence) : AdminSinkView :=
  mkAdminSink (from_option ce_sink_type (bstr "unknown") config) (sk_health s) (sk_health_since_unix_ms s)
    (sk_last_success_unix_ms s)
    ((λ at_, mkAdminFailure at_ (sk_last_failure_kind s) (sk_last_error s)) <$> sk_last_failure_unix_ms s)
    (sk_consecutive_failures s) (sk_probe_reason s).

Definition reload_last (r : ReloadEvidence) : AdminReloadLast :=
  mkAdminReload (rl_trigger r) (rl_at_unix_ms r) (rl_outcome r)
    (map (λ i, mkAdminItem (as_str (ri_item i)) (ri_outcome i) (ri_detail i)) (rl_items r))
    (map (λ n, mkNotReloadedView (as_str (nr_item n)) (as_str (nr_reason_code n))) (rl_not_reloaded r)).

Definition backlog_view (b : BacklogEvidence) : BacklogView :=
  mkBacklogView (bl_undelivered_segments b) (bl_undelivered_records b) (bl_oldest_undelivered_age_secs b)
    (bl_dead_letter_bytes b) (bl_dead_letter_max_bytes b) (bl_quarantine_bytes b) (bl_quarantine_files b) (bl_scanned_at_ms b).

Definition cap_view (c : CapEvidence) : WabCapView :=
  mkCapView (cp_max_bytes c) (cp_low_water_bytes c) (cp_bytes_now c) (cp_rejecting c) (cp_last_scan_ok_unix_ms c).

(** [AdminStatusDoc::build]. *)
Definition doc_build (identity : IdentityEvidence) (e : Evidence) (el : Evaluation) (t : Thresholds)
    (livez_checks : list LivezCheck) : AdminStatusDoc :=
  let ready := readiness e in
  let live := liveness e t livez_checks in
  let started := startup e in
  let now := ev_now_unix_ms e in
  mkAdminDoc SCHEMA ViewAdmin (id_version identity) (id_wire_version identity) now (id_started_at_unix_ms identity)
    (f64_div (f64_of (age_ms now (id_started_at_unix_ms identity))) (f64_of 1000)) (id_pid identity)
    (mkInstance (id_wab_dir identity) (id_socket_path identity) (id_wab_dir_dev identity) (id_wab_dir_ino identity))
    (mkDocVerdict (pv_ok ready) (pv_ok live) (pv_ok started) livez_checks (pv_failing ready) (pv_failing live))
    (take MAX_DOC_CONDITIONS (el_conditions el)) (el_unevaluated el)
    (mkStartup (ev_phase e) (ev_phase_since_unix_ms e)
       ((λ d, mkReplay (dn_replay_total d) (dn_replay_remaining d)) <$> ev_drain e))
    (mkLifecycle (ev_shutting_down e) (ev_shutting_down_since_unix_ms e) (ev_forced e) (ev_drain_deadline_unix_ms e))
    (mkIngest (map (λ l, mkListenerView (li_kind l) (li_state l)) (default [] (ev_listeners e))) (ev_queue_depth e)
       (cap_view <$> ev_wab_cap e))
    (map shard_view (take MAX_DOC_SHARDS (default [] (ev_shards e))))
    ((λ d, drain_view d (ev_channel e)) <$> ev_drain e) ((λ s, sink_view s (ev_config e)) <$> ev_sink e)
    (backlog_view <$> ev_backlog e) (reload_last <$> ev_reload e)
    (mkSurface ADMIN_PROTOCOL ADMIN_VERBS (ad_state <$> ev_admin e) (as_str <$> (ev_admin e ≫= ad_reason)) (ev_admin e ≫= ad_path))
    (from_option (λ c, mkConfigDoc (ce_public c) (ce_view c)) (mkConfigDoc public_default ∅) (ev_config e)).

(** ** The public document *)

Definition MAX_PUBLIC_SHARDS : nat := MAX_DOC_SHARDS.
Definition MAX_PUBLIC_CONDITIONS : nat := MAX_DOC_CONDITIONS.

Inductive PublicEvidenceValue :=
| PubU64 (v : Z)
| PubF64 (x : f64)
| PubBool (b : bool)
| PubSegment (s : SegmentId)
| PubShards (ids : list Z)
| PubCode (c : bytes).

(** [PublicEvidenceValue::from_admin]. *)
Definition public_value (v : EvidenceValue) : option PublicEvidenceValue :=
  match v with
  | EvU64 n => Some (PubU64 n)
  | EvF64 x => Some (PubF64 x)
  | EvBool b => Some (PubBool b)
  | EvCode c => Some (PubCode c)
  | EvSegment s => Some (PubSegment s)
  | EvShards s => Some (PubShards s)
  | EvText _ => None
  end.

Record PublicCondition := mkPublicCondition {
  pu_code : ConditionCode;
  pu_severity : Severity;
  pu_affects : Affects;
  pu_since_ms : option Z;
  pu_summary : bytes;
  pu_evidence : gmap bytes PublicEvidenceValue;
  pu_runbook : bytes;
  pu_gates : list Gate;
}.
Record PublicRequeueView := mkPublicRequeue {
  pq_ticket : Z;
  pq_requeued : Z;
  pq_already_queued : Z;
  pq_backoff_cut : bool;
  pq_coalesced : bool;
  pq_scan_failed : bool;
  pq_at_ms : Z;
}.
Record PublicDrainView := mkPublicDrain {
  pd_state : DrainStateCode;
  pd_state_since_ms : option Z;
  pd_paused : bool;
  pd_pause_requested : bool;
  pd_held : bool;
  pd_paused_since_ms : option Z;
  pd_generation : Z;
  pd_observed_requeue : Z;
  pd_in_flight : option InFlightView;
  pd_pending_segments : Z;
  pd_backlog_segments : Z;
  pd_channel_depth : option Z;
  pd_channel_capacity : Z;
  pd_heartbeat_age_secs : option f64;
  pd_blocked_since_ms : option Z;
  pd_last_requeue : option PublicRequeueView;
  pd_exit : DrainExitCode;
}.
Record PublicSinkFailure := mkPublicFailure { pf_at_ms : Z; pf_kind : option SinkFailureKind }.
Record PublicSinkView := mkPublicSink {
  ps_sink_type : bytes;
  ps_health : option SinkHealthCode;
  ps_health_since_ms : option Z;
  ps_last_success_ms : option Z;
  ps_last_failure : option PublicSinkFailure;
  ps_consecutive_failures : Z;
}.
Record PublicReloadItem := mkPublicItem { pi_item : bytes; pi_outcome : ReloadItemOutcome }.
Record PublicReloadLast := mkPublicReload {
  pr_trigger : ReloadTriggerCode;
  pr_at_ms : Z;
  pr_outcome : ReloadOutcomeCode;
  pr_items : list PublicReloadItem;
  pr_not_reloaded : list NotReloadedView;
}.
Record PublicAdminSurface := mkPublicSurface {
  pa_protocol : Z;
  pa_verbs : list bytes;
  pa_state : option AdminState;
  pa_reason_code : option bytes;
}.
Record PublicStatusDoc := mkPublicDoc {
  pub_schema : bytes;
  pub_view : View;
  pub_version : bytes;
  pub_wire_version : Z;
  pub_generated_at_ms : Z;
  pub_started_at_ms : Z;
  pub_uptime_secs : f64;
  pub_verdict : DocVerdict;
  pub_conditions : list PublicCondition;
  pub_unevaluated : list ConditionCode;
  pub_startup : StartupView;
  pub_lifecycle : LifecycleView;
  pub_ingest : IngestView;
  pub_shards : list ShardView;
  pub_drain : option PublicDrainView;
  pub_sink : option PublicSinkView;
  pub_backlog : option BacklogView;
  pub_reload : option PublicReloadLast;
  pub_admin : PublicAdminSurface;
  pub_config : PublicConfig;
}.

Definition public_condition (c : Condition) : PublicCondition :=
  mkPublicCondition (co_code c) (co_severity c) (co_affects c) (co_since_unix_ms c) (co_summary c)
    (omap public_value (co_evidence c)) (co_runbook c) (co_gates c).

Definition public_requeue (r : AdminRequeueView) : PublicRequeueView :=
  mkPublicRequeue (aq_ticket r) (aq_requeued r) (aq_already_queued r) (aq_backoff_cut r) (aq_coalesced r)
    (aq_scan_failed r) (aq_at_ms r).

Definition public_drain (d : AdminDrainView) : PublicDrainView :=
  mkPublicDrain (adr_state d) (adr_state_since_ms d) (adr_paused d) (adr_pause_requested d) (adr_held d)
    (adr_paused_since_ms d) (adr_generation d) (adr_observed_requeue d) (adr_in_flight d) (adr_pending_segments d)
    (adr_backlog_segments d) (adr_channel_depth d) (adr_channel_capacity d) (adr_heartbeat_age_secs d)
    (adr_blocked_since_ms d) (public_requeue <$> adr_last_requeue d) (adr_exit d).

Definition public_sink (s : AdminSinkView) : PublicSinkView :=
  mkPublicSink (as_sink_type s) (as_health s) (as_health_since_ms s) (as_last_success_ms s)
    ((λ f, mkPublicFailure (af_at_ms f) (af_kind f)) <$> as_last_failure s) (as_consecutive_failures s).

Definition public_reload (l : AdminReloadLast) : PublicReloadLast :=
  mkPublicReload (ar_trigger l) (ar_at_ms l) (ar_outcome l)
    (map (λ i, mkPublicItem (ai_item i) (ai_outcome i)) (ar_items l)) (ar_not_reloaded l).

Definition public_admin_surface (a : AdminSurfaceView) : PublicAdminSurface :=
  mkPublicSurface (sf_protocol a) (sf_verbs a) (sf_state a) (sf_reason_code a).

(** [public]. *)
Definition public_doc (doc : AdminStatusDoc) : PublicStatusDoc :=
  mkPublicDoc (doc_schema doc) ViewPublic (doc_version doc) (doc_wire_version doc) (doc_generated_at_ms doc)
    (doc_started_at_ms doc) (doc_uptime_secs doc) (doc_verdict doc)
    (map public_condition (take MAX_PUBLIC_CONDITIONS (doc_conditions doc))) (doc_unevaluated doc) (doc_startup doc)
    (doc_lifecycle doc) (doc_ingest doc) (take MAX_PUBLIC_SHARDS (doc_shards doc)) (public_drain <$> doc_drain doc)
    (public_sink <$> doc_sink doc) (doc_backlog doc) (public_reload <$> doc_reload doc)
    (public_admin_surface (doc_admin doc)) (cd_public (doc_config doc)).

(** What [/status] serves, and what the admin socket serves. *)
Definition public_status (identity : IdentityEvidence) (e : Evidence) (t : Thresholds) (latches : SinceLookup)
    (checks : list LivezCheck) : PublicStatusDoc :=
  public_doc (doc_build identity e (evaluate_status e t latches) t checks).

(** ** Redaction

    [redact] blanks what only the operator may see: panic and error texts, the reason of a
    failed probe, reload details, the uid that paused the drain, paths, the process and the
    full configuration. Of a failed rescan it keeps that it failed. *)

Definition redact_requeue (r : RequeueEvidence) : RequeueEvidence :=
  mkRequeueEvidence (rq_ticket r) (rq_requeued r) (rq_already_queued r) (rq_backoff_cut r) (rq_coalesced r)
    ((λ _, []) <$> rq_scan_error r) (rq_at_unix_ms r).
Definition redact_drain (d : DrainEvidence) : DrainEvidence :=
  mkDrainEvidence (dn_state d) (dn_state_since_unix_ms d) (dn_pause_requested d) (dn_paused d) (dn_held d)
    (dn_paused_since_unix_ms d) None (dn_generation d) (dn_observed_requeue d) (dn_in_flight d)
    (dn_commit_in_flight_since_unix_ms d) (dn_busy d) (dn_last_progress_unix_ms d) (dn_heartbeat_age_secs d)
    (dn_pending_segments d) (dn_backlog_segments d) (dn_replay_total d) (dn_replay_remaining d)
    (dn_blocked_since_unix_ms d) (redact_requeue <$> dn_last_requeue d) (dn_exit d) None.
Definition redact_sink (s : SinkEvidence) : SinkEvidence :=
  mkSinkEvidence (sk_health s) (sk_health_since_unix_ms s) (sk_last_success_unix_ms s) (sk_last_failure_unix_ms s)
    (sk_last_failure_kind s) (sk_consecutive_failures s) None None.
Definition redact_reload (r : ReloadEvidence) : ReloadEvidence :=
  mkReload (rl_trigger r) (rl_at_unix_ms r) (rl_outcome r) (rl_tls_last_failed r)
    (map (λ i, mkReloadItem (ri_item i) (ri_outcome i) None) (rl_items r)) (rl_not_reloaded r).
Definition redact_admin (a : AdminEvidence) : AdminEvidence := mkAdmin (ad_enabled a) (ad_state a) (ad_reason a) None.
Definition redact_config (c : ConfigEvidence) : ConfigEvidence :=
  mkConfigEvidence (ce_sink_type c) (ce_commit_timeout_secs c) (ce_public c) ∅.
Definition redact_identity (i : IdentityEvidence) : IdentityEvidence :=
  mkIdentity (id_version i) (id_wire_version i) 0 (id_started_at_unix_ms i) [] [] 0 0.
Definition redact (e : Evidence) : Evidence :=
  mkEvidence (ev_now_unix_ms e) (ev_source e) (redact_identity <$> ev_identity e) (ev_started_at_unix_ms e) (ev_phase e)
    (ev_phase_since_unix_ms e) (ev_ever_served e) (ev_shutting_down e) (ev_shutting_down_since_unix_ms e) (ev_forced e)
    (ev_drain_deadline_unix_ms e) (ev_drain_budget_secs e) (ev_listeners e) (ev_shards e) (ev_workers e) (ev_queue_depth e)
    (ev_wab_cap e) (ev_channel e) (redact_drain <$> ev_drain e) (redact_sink <$> ev_sink e) (ev_backlog e) (ev_recent e)
    (redact_reload <$> ev_reload e) (redact_admin <$> ev_admin e) (redact_config <$> ev_config e).

(** Two sets of facts that differ in what is redacted only. *)
Definition same_public (e e' : Evidence) : Prop := redact e = redact e'.
Definition same_identity (i i' : IdentityEvidence) : Prop := redact_identity i = redact_identity i'.

#[global] Instance same_public_equiv : Equivalence same_public.
Proof. split; [done|by intros e e' H|]. intros x y z H1 H2. unfold same_public in *. by rewrite H1. Qed.
#[global] Instance same_identity_equiv : Equivalence same_identity.
Proof. split; [done|by intros e e' H|]. intros x y z H1 H2. unfold same_identity in *. by rewrite H1. Qed.

(** The same verdict with the same public text; the detail is the operator's. *)
Definition same_outcome (o o' : RuleOutcome) : Prop :=
  match o, o' with
  | Unevaluated, Unevaluated | Inactive, Inactive => True
  | Active f, Active f' => fi_summary f = fi_summary f' ∧ fi_evidence f = fi_evidence f'
  | _, _ => False
  end.

Lemma same_outcome_refl o : same_outcome o o.
Proof. by destruct o. Qed.

Ltac same :=
  cbn [fmap option_fmap option_map redact_drain redact_sink redact_reload dn_exit dn_last_panic sk_health
       sk_health_since_unix_ms sk_probe_reason rl_tls_last_failed rl_items];
  repeat match goal with |- same_outcome (match ?x with _ => _ end) _ => destruct x end; first [exact I|by split].

Lemma listener_loop_redact e ls u : listener_loop (redact e) ls u = listener_loop e ls u.
Proof. revert u. induction ls as [|l ls IH]; intros u; cbn; [done|]. by rewrite !IH. Qed.

Lemma rule_redact c e t : same_outcome (rule c e t) (rule c (redact e) t).
Proof.
  destruct c; cbn [rule]; try apply same_outcome_refl.
  - unfold listener_down. cbn [redact ev_listeners]. destruct (ev_listeners e); [|exact I]. rewrite listener_loop_redact.
    apply same_outcome_refl.
  - unfold drain_stopped. cbn [redact ev_drain ev_shutting_down ev_recent]. destruct (ev_drain e) as [d|]; [|exact I]. same.
  - unfold drain_wedged, sink_call_wedged. cbn [redact ev_drain ev_config ev_now_unix_ms].
    destruct (ev_drain e) as [d|], (ev_config e) as [c|]; try exact I. apply same_outcome_refl.
  - unfold drain_paused. cbn [redact ev_drain ev_config ev_now_unix_ms]. destruct (ev_drain e) as [d|]; [|exact I].
    destruct (ev_config e) as [c|]; cbn; destruct (negb _); try done; destruct (dn_held d), (dn_in_flight d); done.
  - unfold drain_blocked_dead_letter_full. cbn [redact ev_drain ev_config ev_backlog]. destruct (ev_drain e) as [d|]; [|exact I].
    destruct (ev_config e) as [c|]; apply same_outcome_refl.
  - unfold delivery_stalled. cbn [redact ev_drain ev_sink ev_backlog ev_now_unix_ms ev_started_at_unix_ms].
    destruct (ev_backlog e), (ev_sink e), (ev_drain e); try exact I. apply same_outcome_refl.
  - unfold sink_down. cbn [redact ev_sink]. destruct (ev_sink e) as [s|]; [|exact I]. same.
  - unfold sink_degraded. cbn [redact ev_sink]. destruct (ev_sink e) as [s|]; [|exact I]. same.
  - unfold sink_failing. cbn [redact ev_sink]. destruct (ev_sink e) as [s|]; [|exact I]. cbn.
    destruct (_ || _); [done|]. by destruct (sk_last_failure_kind s).
  - unfold dead_letter_near_cap. cbn [redact ev_config ev_backlog].
    destruct (ev_backlog e), (ev_config e); try exact I. apply same_outcome_refl.
  - unfold noop_sink. cbn [redact ev_config]. destruct (ev_config e); [|exact I]. apply same_outcome_refl.
  - unfold active_segment_aging. cbn [redact ev_config ev_backlog ev_shards].
    destruct (ev_shards e), (ev_config e), (ev_backlog e); try exact I. apply same_outcome_refl.
  - unfold tls_reload_failed. cbn [redact ev_reload]. destruct (ev_reload e) as [r|]; [|exact I]. same.
  - unfold admin_unavailable. cbn [redact ev_admin]. destruct (ev_admin e) as [a|]; [|exact I]. apply same_outcome_refl.
Qed.

Lemma record_same c o o' fc v : same_outcome o o' → verdict_record c o fc v = verdict_record c o' fc v.
Proof. destruct o, o'; try done. cbn. by intros [-> _]. Qed.

Lemma readiness_redact e : readiness (redact e) = readiness e.
Proof. unfold readiness, READINESS_CODES. cbn [foldl]. by do 5 rewrite (record_same _ _ _ _ _ (rule_redact _ e _)). Qed.

Lemma liveness_redact e t checks : liveness (redact e) t checks = liveness e t checks.
Proof.
  unfold liveness. cbn [redact ev_phase]. generalize verdict_passing as v.
  induction checks as [|c checks IH]; intros v; cbn [foldl]; [done|]. rewrite IH. f_equal.
  destruct (bool_decide _); [|done]. symmetry. apply record_same, rule_redact.
Qed.

Lemma startup_redact e : startup (redact e) = startup e.
Proof.
  unfold startup. cbn [redact ev_ever_served]. destruct (bool_decide _); [done|].
  pose proof (rule_redact CStarting e THRESHOLDS_DEFAULT) as H.
  destruct (rule CStarting e _), (rule CStarting (redact e) _); try done. cbn in H. by destruct H as [-> _].
Qed.

Section Rows.
Context (e : Evidence) (t : Thresholds) (latches : SinceLookup).

Lemma row_redact en : public_condition <$> row_condition (redact e) t latches en = public_condition <$> row_condition e t latches en.
Proof.
  unfold row_condition. pose proof (rule_redact (en_code en) e t) as H.
  destruct (rule (en_code en) e t), (rule (en_code en) (redact e) t); try done.
  destruct H as [H1 H2]. unfold public_condition. cbn. by rewrite H1, H2.
Qed.

Lemma unevaluated_redact en : row_unevaluated (redact e) t en = row_unevaluated e t en.
Proof.
  unfold row_unevaluated. pose proof (rule_redact (en_code en) e t) as H.
  by destruct (rule (en_code en) e t), (rule (en_code en) (redact e) t).
Qed.

Lemma rows_redact l :
  map public_condition (omap (row_condition (redact e) t latches) l) = map public_condition (omap (row_condition e t latches) l).
Proof.
  induction l as [|en l IH]; [done|]. cbn [omap list_omap]. pose proof (row_redact en) as H.
  destruct (row_condition (redact e) t latches en), (row_condition e t latches en); try done.
  cbn [map]. apply (inj Some) in H. rewrite H. f_equal. apply IH.
Qed.

Lemma unevaluated_rows_redact (l : list CatalogueEntry) : omap (row_unevaluated (redact e) t) l = omap (row_unevaluated e t) l.
Proof. induction l as [|en l IH]; [done|]. cbn [omap list_omap]. by rewrite unevaluated_redact, IH. Qed.
End Rows.

Lemma evaluate_redact e t latches :
  map public_condition (el_conditions (evaluate_status (redact e) t latches)) =
    map public_condition (el_conditions (evaluate_status e t latches)) ∧
  el_unevaluated (evaluate_status (redact e) t latches) = el_unevaluated (evaluate_status e t latches).
Proof.
  rewrite !evaluate_rows. cbn [el_conditions el_unevaluated]. split; [apply rows_redact|apply unevaluated_rows_redact].
Qed.

(** The public document is a function of the redacted facts. *)
Lemma public_status_redact i e t latches checks :
  public_status (redact_identity i) (redact e) t latches checks = public_status i e t latches checks.
Proof.
  unfold public_status, public_doc, doc_build.
  rewrite readiness_redact, liveness_redact, startup_redact. destruct (evaluate_redact e t latches) as [Hc Hu]. rewrite Hu.
  cbn [doc_schema doc_version doc_wire_version doc_generated_at_ms doc_started_at_ms doc_uptime_secs doc_verdict
       doc_conditions doc_unevaluated doc_startup doc_lifecycle doc_ingest doc_shards doc_drain doc_sink doc_backlog
       doc_reload doc_admin doc_config redact_identity id_version id_wire_version id_started_at_unix_ms].
  rewrite <-!firstn_map, Hc.
  f_equal; cbn [redact ev_phase ev_phase_since_unix_ms ev_drain ev_channel ev_sink ev_config ev_reload ev_admin].
  - f_equal. by destruct (ev_drain e).
  - destruct (ev_drain e) as [d|]; [|done]. cbn. unfold public_drain. cbn. do 2 f_equal.
    destruct (dn_last_requeue d) as [r|]; [|done]. unfold public_requeue. cbn. do 2 f_equal. by destruct (rq_scan_error r).
  - destruct (ev_sink e) as [s|]; [|done]. cbn. unfold public_sink. cbn. do 2 f_equal.
    + by destruct (ev_config e).
    + by destruct (sk_last_failure_unix_ms s).
  - destruct (ev_reload e) as [r|]; [|done]. cbn. unfold public_reload. cbn. do 2 f_equal. by rewrite !map_map.
  - destruct (ev_admin e) as [a|]; done.
  - by destruct (ev_config e).
Qed.

(** C25: the public document discloses nothing that only the operator may see: two daemons
    whose facts differ only in panic and error texts, probe reasons, reload details, the
    uid that paused the drain, paths, process and device numbers and the configuration
    beyond the public settings serve the same [/status]. *)
Theorem public_hides_operator_text i i' e e' t latches checks :
  same_identity i i' → same_public e e' →
  public_status i e t latches checks = public_status i' e' t latches checks.
Proof.
  intros Hi He. rewrite <-(public_status_redact i), <-(public_status_redact i'). unfold same_identity, same_public in *.
  by rewrite Hi, He.
Qed.

Lemma omap_length_le {A B} (f : A → option B) l : (length (omap f l) ≤ length l)%nat.
Proof. induction l as [|x l IH]; cbn; [lia|]. destruct (f x); cbn; unfold omap in *; lia. Qed.

(** The public document hides no condition: it lists every active condition of the
    evaluation, in order, with its severity, summary, gates and every piece of its
    evidence, as well as every code that could not be evaluated and the verdicts of the
    probes. The caps of the document cut nothing. *)
Theorem public_shows_every_condition i e t latches checks :
  evidence_fits e →
  let el := evaluate_status e t latches in
  let doc := public_status i e t latches checks in
  pub_conditions doc = map public_condition (el_conditions el) ∧
  Forall (λ c, ∀ k, is_Some (pu_evidence (public_condition c) !! k) ↔ is_Some (co_evidence c !! k)) (el_conditions el) ∧
  pub_unevaluated doc = el_unevaluated el ∧
  vd_ready (pub_verdict doc) = pv_ok (readiness e) ∧ vd_live (pub_verdict doc) = pv_ok (liveness e t checks).
Proof.
  intros F el doc. split; [|split]; [| |done].
  - unfold doc, public_status, public_doc, doc_build. cbn [pub_conditions doc_conditions]. unfold MAX_PUBLIC_CONDITIONS.
    rewrite take_take, Nat.min_id, take_ge; [done|]. fold el. unfold el. rewrite evaluate_rows. cbn [el_conditions].
    etrans; [apply omap_length_le|]. by vm_compute; lia.
  - pose proof (rule_fits e t F) as R. apply list.Forall_forall.
    intros c (en & He & (f & Hf & ->)%row_condition_Some)%elem_condition k. specialize (R (en_code en)). rewrite Hf in R.
    destruct R as [_ R]. cbn [public_condition pu_evidence co_evidence]. rewrite lookup_omap.
    destruct (fi_evidence f !! k) as [v|] eqn:E; [|by split; intros [? ?]]. apply (R k v) in E.
    destruct v; try done; cbn; split; intros _; eauto.
Qed.

(** ** Examples *)

Module StatusDocWitness.
Import VerdictsWitness.

(** The drain gave up; [text] is the panic message, [uid] who had paused it. *)
Definition gave_up (text : bytes) (uid : Z) : Evidence :=
  serving (Some (mkDrainEvidence CodeStopped 1000 true false false None (Some uid) 1 0 None None None None None 1 1 0 0 None
                   None ExitGaveUp (Some text))).
Definition daemon (pid : Z) (dir : bytes) : IdentityEvidence := mkIdentity (bstr "1.0.0") 1 pid 1000 dir dir 5 6.

Lemma public_hides_operator_text_witness :
  gave_up (bstr "password=1") 0 ≠ gave_up (bstr "index out of bounds") 1000 ∧
  public_status (daemon 1 (bstr "/srv/a")) (gave_up (bstr "password=1") 0) THRESHOLDS_DEFAULT no_latches LIVEZ_ALL =
  public_status (daemon 2 (bstr "/srv/b")) (gave_up (bstr "index out of bounds") 1000) THRESHOLDS_DEFAULT no_latches LIVEZ_ALL.
Proof. split; [by intros [=]|]. by apply public_hides_operator_text. Defined.

Lemma public_shows_every_condition_witness :
  vd_live (pub_verdict (public_status (daemon 1 (bstr "/srv/a")) (serving (Some wedged)) THRESHOLDS_DEFAULT no_latches LIVEZ_ALL))
    = false ∧
  map pu_code (pub_conditions (public_status (daemon 1 (bstr "/srv/a")) (serving (Some wedged)) THRESHOLDS_DEFAULT no_latches []))
    = map co_code (el_conditions (evaluate_status (serving (Some wedged)) THRESHOLDS_DEFAULT no_latches)).
Proof.
  split; [by vm_compute|].
  destruct (public_shows_every_condition (daemon 1 (bstr "/srv/a")) (serving (Some wedged)) THRESHOLDS_DEFAULT no_latches []
              serving_fits) as [-> _].
  by vm_compute.
Defined.
End StatusDocWitness.
