(* ===== verification/Format.v ===== *)
(** * The on-disk segment format (weir-wab)

    The byte layouts of crates/weir-wab/src/format.rs: the 24-byte segment header, the
    32-byte footer and the 36-byte confirmation sidecar with their builders and parsers,
    and the per-record frame (length, CRC, stored bytes) that the writer appends. Clock
    readings are arguments of the builders. *)

From Stdlib Require Import ZArith Lia Strings.Byte String.
From stdpp Require Import base list option.
From S2P Require Import Prelude Deps Wire.

Definition SEGMENT_MAGIC : bytes := bstr "WEIR".
Definition FORMAT_VERSION_V1 : byte := x01.
Definition FORMAT_VERSION_V2 : byte := x02.
Definition FORMAT_VERSION_MAX_SUPPORTED : byte := FORMAT_VERSION_V2.
Definition FLAG_ZSTD : Z := 1.
Definition KNOWN_FLAGS : Z := FLAG_ZSTD.
Definition SEGMENT_HEADER_LEN : Z := 24.
Definition SEGMENT_FOOTER_LEN : Z := 32.
Definition SENTINEL : bytes := [x00; x00; x00; x00].
Definition SEGMENT_MAX_BYTES : Z := 256 * 1024 * 1024.
Definition CONFIRMED_MAGIC : bytes := bstr "WCON".
Definition CONFIRMED_VERSION : byte := x01.
Definition CONFIRMED_LEN : Z := 36.

Inductive Compression := CNone | CZstd.

#[global] Instance compression_eq_dec : EqDecision Compression.
Proof. solve_decision. Defined.

Definition compression_flags (c : Compression) : byte :=
  match c with CNone => x00 | CZstd => z2b FLAG_ZSTD end.

Definition compression_format_version (c : Compression) : byte :=
  match c with CNone => FORMAT_VERSION_V1 | CZstd => FORMAT_VERSION_V2 end.

Definition compress_bound (n : Z) : Z := n + n / 255 + 16.
Definition max_stored_record_bytes : Z := compress_bound MAX_PAYLOAD_HARD_CAP.

(** The clock's unix nanoseconds: zero before the epoch, [i64::MAX] on overflow. *)
Definition unix_nanos_now (clock : Z) : Z :=
  let nanos := Z.max 0 clock in if nanos <=? i64_max then nanos else i64_max.

Lemma unix_nanos_now_i64 clock : is_i64 (unix_nanos_now clock).
Proof.
  unfold unix_nanos_now, is_i64, i64_max. cbv zeta.
  destruct (Z.leb_spec (Z.max 0 clock) (2 ^ 63 - 1)); lia.
Qed.

Definition build_segment_header (shard_id : Z) (c : Compression) (now : Z) : bytes :=
  SEGMENT_MAGIC ++ [compression_format_version c; compression_flags c]
    ++ le_bytes 2 shard_id ++ le_bytes 8 now ++ replicate 8 x00.

Definition build_sentinel : bytes := SENTINEL.

Definition build_segment_footer (record_count data_bytes file_crc32 sealed_at : Z) : bytes :=
  le_bytes 8 record_count ++ le_bytes 8 data_bytes ++ le_bytes 4 file_crc32
    ++ le_bytes 8 sealed_at ++ replicate 4 x00.

(** ** Headers *)

Record SegmentHeaderMeta := mkSegmentHeaderMeta {
  sh_format_version : byte;
  sh_compression : Compression;
  sh_shard_id : Z;
  sh_created_at : Z;
}.

#[global] Instance segment_header_meta_eq_dec : EqDecision SegmentHeaderMeta.
Proof. solve_decision. Defined.

Inductive SegmentHeaderParseError :=
| SHWrongLength (got : Z)
| SHBadMagic
| SHUnknownVersion (v : byte)
| SHReservedFlagsSet (version flags : byte).

#[global] Instance segment_header_parse_error_eq_dec : EqDecision SegmentHeaderParseError.
Proof. solve_decision. Defined.

Definition parse_compression (version flags : byte) : result Compression SegmentHeaderParseError :=
  if bool_decide (version = FORMAT_VERSION_V1) && bool_decide (flags = x00) then Ok CNone
  else if bool_decide (version = FORMAT_VERSION_V1) then
    Err (SHReservedFlagsSet FORMAT_VERSION_V1 flags)
  else if bool_decide (version = FORMAT_VERSION_V2)
            && negb (Z.land (b2z flags) (Z.lxor KNOWN_FLAGS 255) =? 0) then
    Err (SHReservedFlagsSet FORMAT_VERSION_V2 flags)
  else if bool_decide (version = FORMAT_VERSION_V2)
            && negb (Z.land (b2z flags) FLAG_ZSTD =? 0) then Ok CZstd
  else if bool_decide (version = FORMAT_VERSION_V2) then Ok CNone
  else Err (SHUnknownVersion version).

Definition parse_segment_header (buf : bytes) : result SegmentHeaderMeta SegmentHeaderParseError :=
  if negb (blen buf =? SEGMENT_HEADER_LEN) then Err (SHWrongLength (blen buf)) else
  if negb (bool_decide (slice 0 4 buf = SEGMENT_MAGIC)) then Err SHBadMagic else
  let flags := buf !!! 5%nat in
  let? compression := parse_compression (buf !!! 4%nat) flags in
  Ok (mkSegmentHeaderMeta (buf !!! 4%nat) compression
        (le_val (slice 6 8 buf)) (le_val_i64 (slice 8 16 buf))).

(** ** Footers *)

Record SegmentFooterMeta := mkSegmentFooterMeta {
  sf_record_count : Z;
  sf_data_bytes : Z;
  sf_file_crc32 : Z;
  sf_sealed_at : Z;
}.

#[global] Instance segment_footer_meta_eq_dec : EqDecision SegmentFooterMeta.
Proof. solve_decision. Defined.

Inductive SegmentFooterParseError := SFWrongLength (got : Z).

Definition parse_segment_footer (buf : bytes) : result SegmentFooterMeta SegmentFooterParseError :=
  if negb (blen buf =? SEGMENT_FOOTER_LEN) then Err (SFWrongLength (blen buf)) else
  Ok (mkSegmentFooterMeta (le_val (slice 0 8 buf)) (le_val (slice 8 16 buf))
        (le_val (slice 16 20 buf)) (le_val_i64 (slice 20 28 buf))).

(** ** Confirmation sidecars *)

Record ConfirmedMeta := mkConfirmedMeta {
  cm_sealed_at : Z;
  cm_record_count : Z;
  cm_drained_at : Z;
}.

#[global] Instance confirmed_meta_eq_dec : EqDecision ConfirmedMeta.
Proof. solve_decision. Defined.

Inductive ConfirmedParseError :=
| CPWrongLength (got : Z)
| CPBadMagic
| CPUnknownVersion (v : byte)
| CPCrcMismatch (expected computed : Z).

#[global] Instance confirmed_parse_error_eq_dec : EqDecision ConfirmedParseError.
Proof. solve_decision. Defined.

Section Confirmed.
Context {CRC : Crc32}.

Definition confirmed_prefix (sealed_at record_count drained_at : Z) : bytes :=
  CONFIRMED_MAGIC ++ [CONFIRMED_VERSION] ++ replicate 3 x00
    ++ le_bytes 8 sealed_at ++ le_bytes 8 record_count ++ le_bytes 8 drained_at.

Definition build_confirmed (sealed_at record_count drained_at : Z) : bytes :=
  let buf := confirmed_prefix sealed_at record_count drained_at in
  buf ++ le_bytes 4 (crc32_hash buf).

Definition parse_confirmed (buf : bytes) : result ConfirmedMeta ConfirmedParseError :=
  if negb (blen buf =? CONFIRMED_LEN) then Err (CPWrongLength (blen buf)) else
  if negb (bool_decide (slice 0 4 buf = CONFIRMED_MAGIC)) then Err CPBadMagic else
  if negb (bool_decide (buf !!! 4%nat = CONFIRMED_VERSION)) then
    Err (CPUnknownVersion (buf !!! 4%nat)) else
  let expected_crc := le_val (slice 32 36 buf) in
  let computed_crc := crc32_hash (slice 0 32 buf) in
  if negb (expected_crc =? computed_crc) then Err (CPCrcMismatch expected_crc computed_crc) else
  Ok (mkConfirmedMeta (le_val_i64 (slice 8 16 buf)) (le_val (slice 16 24 buf))
        (le_val_i64 (slice 24 32 buf))).

(** ** Record frames *)

(** What the writer appends for a record stored as [p]: length, CRC of the stored bytes,
    the stored bytes. *)
Definition frame (p : bytes) : bytes := le_bytes 4 (blen p) ++ le_bytes 4 (crc32_hash p) ++ p.

(** The frames of a whole segment body. *)
Definition frames (ps : list bytes) : bytes := concat (map frame ps).
End Confirmed.

(** ** Layout lemmas *)

Lemma length_segment_header sid c now : length (build_segment_header sid c now) = 24%nat.
Proof. done. Qed.

Lemma blen_segment_header sid c now : blen (build_segment_header sid c now) = SEGMENT_HEADER_LEN.
Proof. done. Qed.

Lemma blen_segment_footer n d crc at_ : blen (build_segment_footer n d crc at_) = SEGMENT_FOOTER_LEN.
Proof. done. Qed.

(** A header parses to what it was built from. *)
Lemma parse_build_segment_header sid c now :
  is_u16 sid → is_i64 now →
  parse_segment_header (build_segment_header sid c now)
  = Ok (mkSegmentHeaderMeta (compression_format_version c) c sid now).
Proof.
  intros Hs Hn. unfold parse_segment_header.
  change (blen (build_segment_header sid c now)) with SEGMENT_HEADER_LEN.
  rewrite Z.eqb_refl. cbn [negb].
  change (slice 0 4 (build_segment_header sid c now)) with SEGMENT_MAGIC.
  rewrite bool_decide_eq_true_2 by done. cbn [negb].
  change (slice 6 8 (build_segment_header sid c now)) with (le_bytes 2 sid).
  change (slice 8 16 (build_segment_header sid c now)) with (le_bytes 8 now).
  rewrite le_val_le_bytes by exact Hs. rewrite le_val_i64_le_bytes by done. by destruct c.
Qed.

(** A footer parses to what it was built from. *)
Lemma parse_build_segment_footer n d crc at_ :
  is_u64 n → is_u64 d → is_u32 crc → is_i64 at_ →
  parse_segment_footer (build_segment_footer n d crc at_) = Ok (mkSegmentFooterMeta n d crc at_).
Proof.
  intros Hn Hd Hc Ha. unfold parse_segment_footer.
  change (blen (build_segment_footer n d crc at_)) with SEGMENT_FOOTER_LEN.
  rewrite Z.eqb_refl. cbn [negb].
  change (slice 0 8 (build_segment_footer n d crc at_)) with (le_bytes 8 n).
  change (slice 8 16 (build_segment_footer n d crc at_)) with (le_bytes 8 d).
  change (slice 16 20 (build_segment_footer n d crc at_)) with (le_bytes 4 crc).
  change (slice 20 28 (build_segment_footer n d crc at_)) with (le_bytes 8 at_).
  rewrite !le_val_le_bytes by (exact Hn || exact Hd || exact Hc).
  by rewrite le_val_i64_le_bytes.
Qed.

(** The version byte decides the rest: what a parsed header's first bytes are. *)
Lemma parse_segment_header_inv buf m :
  parse_segment_header buf = Ok m →
  length buf = 24%nat ∧ slice 0 4 buf = SEGMENT_MAGIC ∧
  buf !!! 4%nat = sh_format_version m ∧
  parse_compression (buf !!! 4%nat) (buf !!! 5%nat) = Ok (sh_compression m).
Proof.
  unfold parse_segment_header. intros Hp. do 2 (split_hyp Hp; [done|]).
  split_hyp Hp; [|done]. injection Hp as <-. b2p. unfold blen, SEGMENT_HEADER_LEN in *.
  split; [lia|]. done.
Qed.

Lemma parse_compression_version v f c :
  parse_compression v f = Ok c → v = FORMAT_VERSION_V1 ∨ v = FORMAT_VERSION_V2.
Proof.
  unfold parse_compression. intros Hp.
  destruct (bool_decide_reflect (v = FORMAT_VERSION_V1)) as [|_]; [by left|].
  destruct (bool_decide_reflect (v = FORMAT_VERSION_V2)) as [|_]; [by right|]. done.
Qed.

Section Frames.
Context {CRC : Crc32} {CL : Crc32Laws}.

(** A confirmation sidecar parses to what it was built from. *)
Lemma parse_build_confirmed s n d :
  is_i64 s → is_u64 n → is_i64 d →
  parse_confirmed (build_confirmed s n d) = Ok (mkConfirmedMeta s n d).
Proof.
  intros Hs Hn Hd. unfold parse_confirmed.
  change (blen (build_confirmed s n d)) with CONFIRMED_LEN. rewrite Z.eqb_refl. cbn [negb].
  change (slice 0 4 (build_confirmed s n d)) with CONFIRMED_MAGIC.
  change (build_confirmed s n d !!! 4%nat) with CONFIRMED_VERSION.
  rewrite !bool_decide_eq_true_2 by done. cbn [negb].
  change (slice 32 36 (build_confirmed s n d)) with (le_bytes 4 (crc32_hash (confirmed_prefix s n d))).
  change (slice 0 32 (build_confirmed s n d)) with (confirmed_prefix s n d).
  rewrite le_val_crc, Z.eqb_refl. cbn [negb].
  change (slice 8 16 (build_confirmed s n d)) with (le_bytes 8 s).
  change (slice 16 24 (build_confirmed s n d)) with (le_bytes 8 n).
  change (slice 24 32 (build_confirmed s n d)) with (le_bytes 8 d).
  rewrite !le_val_i64_le_bytes by done. by rewrite le_val_le_bytes by exact Hn.
Qed.

Lemma blen_frame p : blen (frame p) = 8 + blen p.
Proof. unfold frame. autorewrite with weir_len. lia. Qed.

Lemma frames_nil : frames [] = [].
Proof. done. Qed.

Lemma frames_cons p ps : frames (p :: ps) = frame p ++ frames ps.
Proof. done. Qed.

Lemma frames_app ps qs : frames (ps ++ qs) = frames ps ++ frames qs.
Proof. unfold frames. by rewrite map_app, concat_app. Qed.
End Frames.
