(* ===== verification/Io.v ===== *)
(** * I/O errors and input streams

    [io::ErrorKind] as far as the sources distinguish kinds (messages are not modelled),
    with [OsError] for an error number that has no stable kind, and a [BufReader<File>] as the bytes still to be read together with what follows
    them: the end of the file or a device error. *)

From Stdlib Require Import ZArith Lia Strings.Byte String.
From stdpp Require Import base list option.
From S2P Require Import Prelude.

Inductive ErrorKind :=
| NotFound | AlreadyExists | InvalidInput | InvalidData | StorageFull | UnexpectedEof | WriteZero
| ConnectionReset | TimedOut | OutOfMemory | Interrupted | WouldBlock | PermissionDenied
| IsADirectory | NotADirectory | OsError (errno : Z) | OtherError.

#[global] Instance error_kind_eq_dec : EqDecision ErrorKind.
Proof. solve_decision. Defined.

(** [st_bad]: a read that needs a byte past [st_data] fails with an I/O error rather
    than with the end of the file. *)
Record Stream := mkStream { st_data : bytes; st_bad : bool }.

Definition stream_end (s : Stream) : ErrorKind := if st_bad s then OtherError else UnexpectedEof.

(** [reader.read_exact(&mut buf)] with [buf.len() = n]. *)
Definition s_read_exact (n : Z) (s : Stream) : result (bytes * Stream) ErrorKind :=
  match read_exact n (st_data s) with
  | Some (a, r) => Ok (a, mkStream r (st_bad s))
  | None => Err (stream_end s)
  end.

Lemma s_read_exact_app n a r b :
  blen a = n → s_read_exact n (mkStream (a ++ r) b) = Ok (a, mkStream r b).
Proof. intros H. unfold s_read_exact. simpl. by rewrite (read_exact_app n a r H). Qed.

Lemma s_read_exact_Ok n s a s' :
  0 ≤ n → s_read_exact n s = Ok (a, s') →
  st_data s = a ++ st_data s' ∧ st_bad s' = st_bad s ∧ blen a = n.
Proof.
  intros Hn. unfold s_read_exact. destruct (read_exact n (st_data s)) as [[x y]|] eqn:E; [|done].
  intros [= <- <-]. apply read_exact_Some in E as [-> Hl]; [|done]. done.
Qed.

Lemma s_read_exact_Err n s e :
  s_read_exact n s = Err e → blen (st_data s) < n ∧ e = stream_end s.
Proof.
  unfold s_read_exact. destruct (read_exact n (st_data s)) as [[x y]|] eqn:E; [done|].
  intros [= <-]. apply read_exact_None in E. done.
Qed.

Lemma s_read_exact_short n s :
  blen (st_data s) < n → s_read_exact n s = Err (stream_end s).
Proof. intros H. unfold s_read_exact. by rewrite (proj2 (read_exact_None n (st_data s)) H). Qed.
