(* ===== verification/Fs.v ===== *)
(** * The file system and the environment of the daemon

    What [std::fs] and the kernel do for the sources: files with a page cache and a
    durable prefix, directories with live and stable entries, and a tape of faults that
    makes any system call fail. A crash keeps, of every file, at least the prefix that
    was synced (followed by anything at all) and, of every directory, the synced entries
    and any selection of the later, individually atomic, operations. A directory is an
    entry of its parent too: one that was created and whose parent was not synced since
    may be gone after a crash, with everything below it. The clocks, the metric counters
    and the flusher-to-drain channel complete the environment. *)

From Stdlib Require Import ZArith Lia Strings.Byte String.
From stdpp Require Import base gmap list option sets.
From S2P Require Import Prelude Text Names Io.

(** ** Files and directories *)

Abbreviation inode := positive.

(** [f_data] is what reads and writes see; its first [f_synced] bytes survive a crash.
    [f_lost]: a sync of this file has failed, after which the kernel may have dropped
    dirty pages and a later successful sync proves nothing. *)
Record FileNode := mkFileNode { f_data : bytes; f_synced : nat; f_lost : bool }.

Definition durable_prefix (n : FileNode) : bytes := take (f_synced n) (f_data n).

Inductive DirOp :=
| OpLink (p : path) (i : inode)
| OpUnlink (p : path)
| OpRename (p q : path).

Definition apply_op (m : gmap path inode) (op : DirOp) : gmap path inode :=
  match op with
  | OpLink p i => <[p := i]> m
  | OpUnlink p => delete p m
  | OpRename p q => match m !! p with Some i => <[q := i]> (delete p m) | None => m end
  end.

(** Whether an operation changes an entry of directory [d]. *)
Definition op_in_dir (d : path) (op : DirOp) : bool :=
  match op with
  | OpLink p _ | OpUnlink p => bool_decide (parent p = d)
  | OpRename p q => bool_decide (parent p = d) || bool_decide (parent q = d)
  end.

(** What the next system call does besides its job: nothing, a short transfer of [n]
    bytes, or a failure (of a write: after [n] bytes). *)
Inductive Fault := FOk | FShort (n : nat) | FErr (n : nat) (k : ErrorKind).

(** [fs_dirs]: the directories, each with whether its own entry in its parent has been
    synced. *)
Record Fs := mkFs {
  fs_live : gmap path inode;
  fs_stable : gmap path inode;
  fs_pending : list DirOp;
  fs_files : gmap inode FileNode;
  fs_next : inode;
  fs_dirs : gmap path bool;
  fs_tape : list Fault;
}.

(** ** Metrics *)

Inductive Counter :=
| WabSegmentsOpen | WabSegmentsSealed | WabSegmentsConfirmed | WabSegmentsQuarantined
| WabRecordLogicalBytes | WabRecordStoredBytes | WabFsyncFailures | WabGroupCommitRecords
| WabNotHandedOffBudget | WabNotHandedOffDisconnected | WabFlusherPanics
| RecoverySegmentsFailed | RecoverySegmentsQuarantined | RecoveryQuarantineCopyFailed
| RecoveryRecordsReplayed
| DrainConfirmSidecarFailures | DrainConfirmDeleteFailures | DrainQuarantineFailures
| DrainDeadLetterWriteFailures | SinkRecordsCommitted | SinkRecordsRetried | SinkRecordsDeadLettered
| DrainSegmentsStranded | DrainLocalReadStrands | DrainLocalWriteStrands | DrainSegmentsAbandoned
| DrainSegmentsResumed | DrainPanics | DeadLetterFull.

#[global] Instance counter_eq_dec : EqDecision Counter.
Proof. solve_decision. Defined.

Abbreviation Metrics := (Counter → Z).

(** ** The environment *)

(** [w_unix]: the wall clock in unix nanoseconds; [w_instant]: the monotonic clock. *)
Record World := mkWorld {
  w_fs : Fs;
  w_metrics : Metrics;
  w_unix : Z;
  w_instant : Z;
}.

Definition set_fs (f : Fs → Fs) (w : World) : World :=
  mkWorld (f (w_fs w)) (w_metrics w) (w_unix w) (w_instant w).

(** [counter.inc_by(n)]. *)
Definition inc_by (c : Counter) (n : Z) (w : World) : World :=
  mkWorld (w_fs w) (λ c', if bool_decide (c = c') then w_metrics w c' + n else w_metrics w c')
    (w_unix w) (w_instant w).
Definition inc (c : Counter) : World → World := inc_by c 1.

(** ** System calls *)

(** A fallible call that changes the environment; [let!] is [?] on it. *)
Definition io (A : Type) : Type := World → result A ErrorKind * World.

Definition io_ok {A} (a : A) : io A := λ w, (Ok a, w).
Definition io_err {A} (e : ErrorKind) : io A := λ w, (Err e, w).
Definition io_bind {A B} (m : io A) (k : A → io B) : io B := λ w,
  match m w with
  | (Ok a, w) => k a w
  | (Err e, w) => (Err e, w)
  end.

Notation "'let!' x ':=' e 'in' k" := (io_bind e (λ x, k))
  (at level 10, x pattern, e at level 200, k at level 200) : weir_scope.

Definition set_files (f : gmap inode FileNode → gmap inode FileNode) (s : Fs) : Fs :=
  mkFs (fs_live s) (fs_stable s) (fs_pending s) (f (fs_files s)) (fs_next s) (fs_dirs s) (fs_tape s).

(** A directory operation: applied to the live entries, pending for the stable ones. *)
Definition log_op (op : DirOp) (s : Fs) : Fs :=
  mkFs (apply_op (fs_live s) op) (fs_stable s) (fs_pending s ++ [op]) (fs_files s) (fs_next s)
    (fs_dirs s) (fs_tape s).

(** Whether a name exists is not a matter of the device: a call fails with [NotFound] only
    when the directory has no such entry, never by a fault. *)
Definition device_fault (f : Fault) : Fault :=
  match f with FErr n NotFound => FErr n OtherError | f => f end.

(** The next fault of the tape; an empty tape is a healthy device. *)
Definition pop_fault (w : World) : Fault * World :=
  match fs_tape (w_fs w) with
  | [] => (FOk, w)
  | f :: t =>
    (device_fault f, set_fs (λ s, mkFs (fs_live s) (fs_stable s) (fs_pending s) (fs_files s) (fs_next s)
                       (fs_dirs s) t) w)
  end.

(** A call that either fails without effect or succeeds. *)
Definition guarded {A} (m : io A) : io A := λ w,
  match pop_fault w with
  | (FErr _ k, w) => (Err k, w)
  | (_, w) => m w
  end.

(** [OpenOptions::new().write(true).create_new(true).open(p)]. *)
Definition create_new (p : path) : io inode := guarded (λ w,
  let s := w_fs w in
  match fs_live s !! p with
  | Some _ => (Err AlreadyExists, w)
  | None =>
    let i := fs_next s in
    let s := mkFs (fs_live s) (fs_stable s) (fs_pending s)
               (<[i := mkFileNode [] 0 false]> (fs_files s)) (Pos.succ i) (fs_dirs s) (fs_tape s) in
    (Ok i, set_fs (λ _, log_op (OpLink p i) s) w)
  end).

Definition append_node (b : bytes) (n : FileNode) : FileNode :=
  mkFileNode (f_data n ++ b) (f_synced n) (f_lost n).

Definition append_file (i : inode) (b : bytes) (w : World) : World :=
  set_fs (set_files (alter (append_node b) i)) w.

(** [file.write_all(b)] at the end of the file (short writes are resumed). *)
Definition write_all (i : inode) (b : bytes) : io unit := λ w,
  match pop_fault w with
  | (FErr n k, w) => (Err k, append_file i (take n b) w)
  | (_, w) => (Ok tt, append_file i b w)
  end.

(** [file.write_vectored(bufs)] at the end of the file: the number of bytes taken. *)
Definition write_vectored (i : inode) (b : bytes) : io Z := λ w,
  match pop_fault w with
  | (FErr n k, w) => (Err k, append_file i (take n b) w)
  | (FShort n, w) => (Ok (blen (take n b)), append_file i (take n b) w)
  | (FOk, w) => (Ok (blen b), append_file i b w)
  end.

Definition sync_node (n : FileNode) : FileNode :=
  if f_lost n then n else mkFileNode (f_data n) (length (f_data n)) false.
Definition lose_node (n : FileNode) : FileNode := mkFileNode (f_data n) (f_synced n) true.

(** [file.sync_data()] and [file.sync_all()]. *)
Definition sync_file (i : inode) : io unit := λ w,
  match pop_fault w with
  | (FErr _ k, w) => (Err k, set_fs (set_files (alter lose_node i)) w)
  | (_, w) => (Ok tt, set_fs (set_files (alter sync_node i)) w)
  end.

(** The stable entries after a sync of directory [d]: there, the live ones. *)
Definition sync_entries (d : path) (live stable : gmap path inode) : gmap path inode :=
  filter (λ '(p, _), parent p = d) live ∪ filter (λ '(p, _), parent p ≠ d) stable.

(** A sync of directory [d] makes the entries of the directories in it durable. *)
Definition sync_subdirs (d : path) (dirs : gmap path bool) : gmap path bool :=
  map_imap (λ e b, Some (b || bool_decide (parent e = d))) dirs.

(** [File::open(dir)?.sync_all()]. *)
Definition sync_dir (d : path) : io unit := guarded (λ w,
  (Ok tt, set_fs (λ s, mkFs (fs_live s) (sync_entries d (fs_live s) (fs_stable s))
            (filter (λ op, op_in_dir d op = false) (fs_pending s)) (fs_files s) (fs_next s)
            (sync_subdirs d (fs_dirs s)) (fs_tape s)) w)).

(** [fsync_parent_dir]. *)
Definition fsync_parent_dir (p : path) : io unit :=
  match parent p with
  | [] => io_ok tt
  | d => sync_dir d
  end.

(** [path.try_exists()]. *)
Definition try_exists (p : path) : io bool := guarded (λ w,
  (Ok (bool_decide (is_Some (fs_live (w_fs w) !! p)) || bool_decide (p ∈ dom (fs_dirs (w_fs w)))), w)).

(** [OpenOptions::new().write(true).create(true).truncate(true).open(p)]. *)
Definition open_truncate (p : path) : io inode := guarded (λ w,
  let s := w_fs w in
  if bool_decide (p ∈ dom (fs_dirs s)) then (Err IsADirectory, w) else
  match fs_live s !! p with
  | Some i => (Ok i, set_fs (set_files (insert i (mkFileNode [] 0 false))) w)
  | None =>
    let i := fs_next s in
    let s := mkFs (fs_live s) (fs_stable s) (fs_pending s)
               (<[i := mkFileNode [] 0 false]> (fs_files s)) (Pos.succ i) (fs_dirs s) (fs_tape s) in
    (Ok i, set_fs (λ _, log_op (OpLink p i) s) w)
  end).

(** [fs::rename]: replaces an existing destination. *)
Definition rename (p q : path) : io unit := guarded (λ w,
  match fs_live (w_fs w) !! p with
  | None => (Err NotFound, w)
  | Some _ => (Ok tt, set_fs (log_op (OpRename p q)) w)
  end).

(** [fs::remove_file]. *)
Definition remove_file (p : path) : io unit := guarded (λ w,
  match fs_live (w_fs w) !! p with
  | None => (Err NotFound, w)
  | Some _ => (Ok tt, set_fs (log_op (OpUnlink p)) w)
  end).

(** Opening an existing file for writing. *)
Definition open_existing (p : path) : io inode := guarded (λ w,
  match fs_live (w_fs w) !! p with
  | None => (Err NotFound, w)
  | Some i => (Ok i, w)
  end).

(** Opening a file for reading: the bytes it holds; a short transfer is a device error
    behind the first [n] bytes. *)
Definition open_read (p : path) : io Stream := λ w,
  match pop_fault w with
  | (FErr _ k, w) => (Err k, w)
  | (f, w) =>
    match fs_live (w_fs w) !! p ≫= λ i, fs_files (w_fs w) !! i with
    | None => (Err NotFound, w)
    | Some node =>
      let data := f_data node in
      (Ok (match f with FShort n => mkStream (take n data) true | _ => mkStream data false end), w)
    end
  end.

(** [fs::copy]: the destination is created or truncated, then written; a fault leaves the
    bytes copied so far. *)
Definition copy (p q : path) : io unit := λ w,
  let '(f, w) := pop_fault w in
  match fs_live (w_fs w) !! p ≫= λ i, fs_files (w_fs w) !! i with
  | None => (Err (match f with FErr _ k => k | _ => NotFound end), w)
  | Some node =>
    let '(data, r) := match f with
                      | FOk => (f_data node, Ok tt)
                      | FShort n => (take n (f_data node), Err OtherError)
                      | FErr n k => (take n (f_data node), Err k)
                      end in
    let s := w_fs w in
    (r, set_fs (λ _,
          match fs_live s !! q with
          | Some j => set_files (insert j (mkFileNode data 0 false)) s
          | None =>
            let i := fs_next s in
            log_op (OpLink q i)
              (mkFs (fs_live s) (fs_stable s) (fs_pending s)
                 (<[i := mkFileNode data 0 false]> (fs_files s)) (Pos.succ i) (fs_dirs s) (fs_tape s))
          end) w)
  end.

(** [file.metadata()?.len()] of an open file. *)
Definition file_len (i : inode) : io Z := guarded (λ w,
  (Ok (match fs_files (w_fs w) !! i with Some n => blen (f_data n) | None => 0 end), w)).

(** [file.set_len(n)]. *)
Definition set_len (i : inode) (n : Z) : io unit := guarded (λ w,
  let n := Z.to_nat n in
  (Ok tt, set_fs (set_files (alter (λ f,
     mkFileNode (take n (f_data f) ++ replicate (n - length (f_data f)) x00)
       (Nat.min (f_synced f) n) (f_lost f)) i)) w)).

(** [d] and the directories it is in, the outermost first. *)
Definition ancestors (d : path) : list path := map (λ n, take n d) (seq 1 (length d)).

(** [fs::create_dir_all]: the directories on the way that are missing are created; their
    entries are not durable before their parents are synced. *)
Definition create_dir_all (d : path) : io unit := guarded (λ w,
  (Ok tt, set_fs (λ s, mkFs (fs_live s) (fs_stable s) (fs_pending s) (fs_files s) (fs_next s)
            (fs_dirs s ∪ list_to_map (map (λ e, (e, false)) (ancestors d))) (fs_tape s)) w)).

(** [fs::read_dir(d)?.map(|e| e.path()).collect()]: files and directories. *)
Definition read_dir (d : path) : io (list path) := guarded (λ w,
  let s := w_fs w in
  (Ok (filter (λ p, p ≠ [] ∧ parent p = d) (map fst (map_to_list (fs_live s)) ++ elements (dom (fs_dirs s)))), w)).

(** ** Crashes *)

(** What a crash can leave of a file: its durable prefix and anything behind it; of a file
    that was synced as a whole, its contents. *)
Definition crash_node (n n' : FileNode) : Prop :=
  (∃ tail, f_data n' = durable_prefix n ++ tail) ∧ f_synced n' = length (f_data n') ∧ f_lost n' = false ∧
  (f_data n ≠ [] → f_synced n = length (f_data n) → f_data n' = f_data n).

(** [d] can be reached when the directories of [kept] are the ones that survived. *)
Definition reachable (kept : gset path) (d : path) : Prop := Forall (.∈ kept) (ancestors d).

#[global] Instance reachable_dec kept d : Decision (reachable kept d).
Proof. unfold reachable. apply _. Defined.

(** The directories whose own entry is durable. *)
Definition durable_dirs (dirs : gmap path bool) : gset path := dom (filter (λ '(_, b), b = true) dirs).

(** Whatever a crash does, [d] is still there. *)
Definition durable_dir (s : Fs) (d : path) : Prop := reachable (durable_dirs (fs_dirs s)) d.

#[global] Instance durable_dir_dec s d : Decision (durable_dir s d).
Proof. unfold durable_dir. apply _. Defined.

(** What is left of the names when only the directories of [kept] are. *)
Definition names_below (kept : gset path) (m : gmap path inode) : gmap path inode :=
  filter (λ '(p, _), reachable kept (parent p)) m.

Definition kept_dirs (kept : gset path) (dirs : gmap path bool) : gmap path bool :=
  gset_to_gmap true (filter (reachable kept) (dom dirs)).

(** A crash and the restart after it: a selection of the pending directory operations
    has reached the disk, in order, and so has a selection of the directories that were
    created and not synced; the names below the others are gone. The fault tape of the
    next run is arbitrary. *)
Definition crash (s s' : Fs) : Prop :=
  (∃ ops kept, sublist ops (fs_pending s) ∧ durable_dirs (fs_dirs s) ⊆ kept ∧
     fs_stable s' = names_below kept (foldl apply_op (fs_stable s) ops) ∧
     fs_dirs s' = kept_dirs kept (fs_dirs s)) ∧
  fs_live s' = fs_stable s' ∧ fs_pending s' = [] ∧
  (∀ i n, fs_files s !! i = Some n → ∃ n', fs_files s' !! i = Some n' ∧ crash_node n n') ∧
  (∀ i, fs_files s !! i = None → fs_files s' !! i = None) ∧
  fs_next s' = fs_next s.

(** The worst crash: no pending directory operation, no unsynced directory and no unsynced
    byte survives. *)
Definition worst_node (n : FileNode) : FileNode :=
  mkFileNode (durable_prefix n) (length (durable_prefix n)) false.

Definition worst_crash (s : Fs) : Fs :=
  let kept := durable_dirs (fs_dirs s) in
  let names := names_below kept (fs_stable s) in
  mkFs names names [] (worst_node <$> fs_files s) (fs_next s) (kept_dirs kept (fs_dirs s)) [].

Lemma worst_crash_crash s : crash s (worst_crash s).
Proof.
  split; [exists [], (durable_dirs (fs_dirs s)); split; [apply sublist_nil_l|done]|]. split; [done|]. split; [done|].
  split; [|split; [|done]].
  - intros i n Hn. exists (worst_node n). simpl. rewrite lookup_fmap, Hn. split; [done|].
    split; [exists []; by rewrite app_nil_r|]. split; [done|]. split; [done|].
    intros _ Hs. cbn [f_data worst_node]. unfold durable_prefix. by rewrite Hs, firstn_all.
  - intros i Hi. simpl. by rewrite lookup_fmap, Hi.
Qed.

(** A disk with no file on it, and the directories that lead to [d], which have been there
    for long. *)
Definition fresh_fs (d : path) : Fs :=
  mkFs ∅ ∅ [] ∅ 1%positive (list_to_map (map (λ e, (e, true)) (ancestors d))) [].
Definition fresh_world (d : path) : World := mkWorld (fresh_fs d) (λ _, 0) 0 0.
