(* ===== verification/Reader.v ===== *)
(** * Reading segments (weir-wab)

    [SegmentReader] (open and the record iterator) and [verify_sealed_segment] of
    crates/weir-wab/src/lib.rs. The reader yields exactly the frames of the file, in
    order, up to the first fault, and reports how it stopped; the verifier accepts
    exactly the well-formed sealed images. *)

From Stdlib Require Import ZArith Lia Strings.Byte String.
From stdpp Require Import base list option.
From S2P Require Import Prelude Deps Wire Io Format.

(** ** SegmentReader *)

Record SegmentReader := mkSegmentReader {
  sr_reader : Stream;
  sr_done : bool;
  sr_header : SegmentHeaderMeta;
  sr_compression : Compression;
  sr_terminated_cleanly : option bool;
}.

(** [SegmentReader::open] on what [File::open] returned. *)
Definition segment_reader_open (file : result Stream ErrorKind) : result SegmentReader ErrorKind :=
  let? reader := file in
  match s_read_exact SEGMENT_HEADER_LEN reader with
  | Err UnexpectedEof => Err InvalidData
  | Err e => Err e
  | Ok (header, reader) =>
    if negb (bool_decide (slice 0 4 header = SEGMENT_MAGIC)) then Err InvalidData else
    if (b2z (header !!! 4%nat) =? 0)
         || (b2z FORMAT_VERSION_MAX_SUPPORTED <? b2z (header !!! 4%nat)) then Err InvalidData else
    let? header := map_err (λ _, InvalidData) (parse_segment_header header) in
    Ok (mkSegmentReader reader false header (sh_compression header) None)
  end.

(** [truncate_context] rewrites the message and keeps the kind. *)
Definition truncate_context (e : ErrorKind) : ErrorKind :=
  match e with UnexpectedEof => UnexpectedEof | e => e end.

Definition stored_cap (c : Compression) : Z :=
  match c with CNone => MAX_PAYLOAD_HARD_CAP | CZstd => max_stored_record_bytes end.

(** The reader after a terminal branch. *)
Definition sr_stop (r : SegmentReader) (rd : Stream) (clean : option bool) : SegmentReader :=
  mkSegmentReader rd true (sr_header r) (sr_compression r) clean.

Section Reader.
Context {CRC : Crc32} {ZS : Zstd}.

(** The payload of a record stored as [s]. *)
Definition decode_stored (c : Compression) (s : bytes) : option bytes :=
  match c with CNone => Some s | CZstd => zstd_decompress s MAX_PAYLOAD_HARD_CAP end.

(** [Iterator::next]. *)
Definition sr_next (r : SegmentReader) : option (result bytes ErrorKind) * SegmentReader :=
  if sr_done r then (None, r) else
  let tc := sr_terminated_cleanly r in
  match s_read_exact 4 (sr_reader r) with
  | Err UnexpectedEof => (None, sr_stop r (sr_reader r) (Some false))
  | Err e => (Some (Err e), sr_stop r (sr_reader r) tc)
  | Ok (len_buf, rd) =>
    let payload_len := le_val len_buf in
    if payload_len =? 0 then (None, sr_stop r rd (Some true)) else
    if stored_cap (sr_compression r) <? payload_len then
      (Some (Err InvalidData), sr_stop r rd tc) else
    match s_read_exact 4 rd with
    | Err e => (Some (Err (truncate_context e)), sr_stop r rd tc)
    | Ok (crc_buf, rd) =>
      let expected_crc := le_val crc_buf in
      match s_read_exact payload_len rd with
      | Err e => (Some (Err (truncate_context e)), sr_stop r rd tc)
      | Ok (payload_buf, rd) =>
        let computed_crc := crc32_hash payload_buf in
        if negb (expected_crc =? computed_crc) then
          (Some (Err InvalidData), sr_stop r rd tc) else
        match decode_stored (sr_compression r) payload_buf with
        | None => (Some (Err InvalidData), sr_stop r rd tc)
        | Some plain =>
          (Some (Ok plain),
           mkSegmentReader rd false (sr_header r) (sr_compression r) tc)
        end
      end
    end
  end.

(** The items of the iterator up to its first [None]; every record takes at least nine
    bytes, so the length of the stream bounds the number of calls. *)
Fixpoint sr_collect (fuel : nat) (r : SegmentReader) : list (result bytes ErrorKind) * SegmentReader :=
  match fuel with
  | O => ([], r)
  | S fuel =>
    match sr_next r with
    | (None, r) => ([], r)
    | (Some item, r) => let '(items, r) := sr_collect fuel r in (item :: items, r)
    end
  end.

Definition sr_items (r : SegmentReader) : list (result bytes ErrorKind) * SegmentReader :=
  sr_collect (2 + length (st_data (sr_reader r))) r.

(** ** verify_sealed_segment *)

Record SegmentVerification := mkSegmentVerification {
  v_header : SegmentHeaderMeta;
  v_footer : SegmentFooterMeta;
}.

Inductive FooterField := FieldRecordCount | FieldDataBytes.

Inductive SegmentVerifyError :=
| VIo (e : ErrorKind)
| VHeader (e : SegmentHeaderParseError)
| VTooShort
| VBadRecord (e : ErrorKind)
| VNoSentinel
| VMissingFooter
| VCrcMismatch (expected computed : Z)
| VTrailingBytes
| VFooterMismatch (field : FooterField) (expected computed : Z).

Definition CHUNK_LEN : Z := 64 * 1024.

(** [while remaining > 0]: one payload through both hashers, chunk by chunk. *)
Fixpoint verify_chunks (fuel : nat) (rd : Stream) (h rh : hasher) (remaining : Z)
    : result (Stream * hasher * hasher) SegmentVerifyError :=
  if remaining <=? 0 then Ok (rd, h, rh) else
  match fuel with
  | O => Err (VBadRecord OtherError)
  | S fuel =>
    let want := Z.min remaining CHUNK_LEN in
    let? (chunk, rd) := map_err (λ e, VBadRecord (truncate_context e)) (s_read_exact want rd) in
    verify_chunks fuel rd (hasher_update h chunk) (hasher_update rh chunk) (remaining - want)
  end.

(** The record loop, up to the sentinel: the remaining stream, the file hasher and the
    walked counts. *)
Fixpoint verify_records (fuel : nat) (c : Compression) (rd : Stream) (h : hasher)
    (walked_records walked_data_bytes : Z)
    : result (Stream * hasher * Z * Z) SegmentVerifyError :=
  match fuel with
  | O => Err (VBadRecord OtherError)
  | S fuel =>
    match s_read_exact 4 rd with
    | Err UnexpectedEof => Err VNoSentinel
    | Err e => Err (VIo e)
    | Ok (len_buf, rd) =>
      let payload_len := le_val len_buf in
      if payload_len =? 0 then Ok (rd, h, walked_records, walked_data_bytes) else
      let walked_records := walked_records + 1 in
      let walked_data_bytes := walked_data_bytes + payload_len in
      let h := hasher_update h len_buf in
      if stored_cap c <? payload_len then Err (VBadRecord InvalidData) else
      let? (crc_buf, rd) := map_err (λ e, VBadRecord (truncate_context e)) (s_read_exact 4 rd) in
      let h := hasher_update h crc_buf in
      let expected_crc := le_val crc_buf in
      let? (rd, h, record_hasher) :=
        verify_chunks (Z.to_nat (payload_len / CHUNK_LEN + 1)) rd h hasher_new payload_len in
      let computed_crc := hasher_finalize record_hasher in
      if negb (expected_crc =? computed_crc) then Err (VBadRecord InvalidData) else
      verify_records fuel c rd h walked_records walked_data_bytes
    end
  end.

Definition verify_sealed_segment (file : result Stream ErrorKind)
    : result SegmentVerification SegmentVerifyError :=
  let? reader := map_err VIo file in
  match s_read_exact SEGMENT_HEADER_LEN reader with
  | Err UnexpectedEof => Err VTooShort
  | Err e => Err (VIo e)
  | Ok (header_buf, reader) =>
    let h := hasher_update hasher_new header_buf in
    let? header := map_err VHeader (parse_segment_header header_buf) in
    let? (reader, h, walked_records, walked_data_bytes) :=
      verify_records (S (length (st_data reader))) (sh_compression header) reader h 0 0 in
    match s_read_exact SEGMENT_FOOTER_LEN reader with
    | Err UnexpectedEof => Err VMissingFooter
    | Err e => Err (VIo e)
    | Ok (footer_buf, reader) =>
      let? footer := map_err (λ _, VMissingFooter) (parse_segment_footer footer_buf) in
      let computed := hasher_finalize h in
      if negb (sf_file_crc32 footer =? computed) then
        Err (VCrcMismatch (sf_file_crc32 footer) computed) else
      if negb (sf_record_count footer =? walked_records) then
        Err (VFooterMismatch FieldRecordCount (sf_record_count footer) walked_records) else
      if negb (sf_data_bytes footer =? walked_data_bytes) then
        Err (VFooterMismatch FieldDataBytes (sf_data_bytes footer) walked_data_bytes) else
      match st_data reader with
      | _ :: _ => Err VTrailingBytes
      | [] => if st_bad reader then Err (VIo OtherError)
              else Ok (mkSegmentVerification header footer)
      end
    end
  end.
End Reader.

(** ** The iterator *)

(** A record the writer can store under mode [c] (a zero length is the sentinel). *)
Definition storable (c : Compression) (s : bytes) : Prop := 0 < blen s ≤ stored_cap c.

Lemma stored_cap_u32 c : stored_cap c < 2 ^ 32.
Proof. destruct c; by vm_compute. Qed.

Lemma le_val_blen s c : storable c s → le_val (le_bytes 4 (blen s)) = blen s.
Proof.
  intros [? ?]. apply le_val_le_bytes. pose proof (stored_cap_u32 c).
  change (256 ^ Z.of_nat 4) with (2 ^ 32). lia.
Qed.

(** A reader over stream contents [data], not yet done. *)
Definition reader_at (hd : SegmentHeaderMeta) (c : Compression) (data : bytes) (bad : bool)
    : SegmentReader :=
  mkSegmentReader (mkStream data bad) false hd c None.

Section ReaderFacts.
Context {CRC : Crc32} {CL : Crc32Laws} {ZS : Zstd} {ZL : ZstdLaws}.
Implicit Types (hd : SegmentHeaderMeta) (c : Compression).

(** [s] is stored and its payload is [p]. *)
Definition stored_as c (s p : bytes) : Prop := storable c s ∧ decode_stored c s = Some p.

Lemma sr_next_frame hd c s p rest bad :
  stored_as c s p →
  sr_next (reader_at hd c (frame s ++ rest) bad) = (Some (Ok p), reader_at hd c rest bad).
Proof.
  intros [Hs Hp]. unfold sr_next, reader_at, frame. cbn [sr_done sr_reader sr_compression sr_terminated_cleanly].
  rewrite <-!app_assoc, s_read_exact_app, (le_val_blen _ c Hs) by apply blen_le_bytes.
  destruct Hs as [H0 Hc]. rewrite (proj2 (Z.eqb_neq _ _)) by lia.
  rewrite (proj2 (Z.ltb_ge _ _)) by lia.
  rewrite s_read_exact_app, s_read_exact_app by (done || apply blen_le_bytes).
  by rewrite le_val_crc, Z.eqb_refl, Hp.
Qed.

Lemma sr_next_sentinel hd c rest bad :
  sr_next (reader_at hd c (SENTINEL ++ rest) bad) = (None, mkSegmentReader (mkStream rest bad) true hd c (Some true)).
Proof. unfold sr_next, reader_at. cbn [sr_done sr_reader]. by rewrite (s_read_exact_app 4 SENTINEL). Qed.

Lemma sr_next_torn hd c tail :
  blen tail < 4 →
  sr_next (reader_at hd c tail false) = (None, mkSegmentReader (mkStream tail false) true hd c (Some false)).
Proof. intros Ht. unfold sr_next, reader_at. cbn [sr_done sr_reader]. by rewrite s_read_exact_short. Qed.

(** What one call can do, by the bytes it finds. *)
Lemma sr_next_cases hd c data bad it r' :
  sr_next (reader_at hd c data bad) = (it, r') →
  (∃ s p rest, data = frame s ++ rest ∧ stored_as c s p ∧
               it = Some (Ok p) ∧ r' = reader_at hd c rest bad) ∨
  (it = None ∧ sr_done r' = true ∧ sr_terminated_cleanly r' = Some true ∧
   ∃ rest, data = SENTINEL ++ rest ∧ sr_reader r' = mkStream rest bad) ∨
  (it = None ∧ sr_done r' = true ∧ sr_terminated_cleanly r' = Some false ∧
   blen data < 4 ∧ bad = false) ∨
  (∃ e, it = Some (Err e) ∧ sr_done r' = true ∧ sr_terminated_cleanly r' = None ∧
        (∀ s p rest, data = frame s ++ rest → ¬ stored_as c s p) ∧
        (∀ rest, data ≠ SENTINEL ++ rest) ∧ (bad = false → 4 ≤ blen data)).
Proof.
  intros Hn. destruct it as [[p|e]|].
  - left. unfold sr_next, reader_at in Hn. cbn in Hn.
    destruct (s_read_exact 4 _) as [[lb rd]|[]] eqn:E1; try done.
    apply s_read_exact_Ok in E1 as (Hd1 & Hb1 & Hl1); [|lia]. cbn in Hd1, Hb1.
    destruct (Z.eqb_spec (le_val lb) 0) as [|H0]; [done|].
    destruct (Z.ltb_spec (stored_cap c) (le_val lb)) as [|Hcap]; [done|].
    pose proof (le_val_range lb).
    destruct (s_read_exact 4 rd) as [[cb rd2]|] eqn:E2; [|done].
    apply s_read_exact_Ok in E2 as (Hd2 & Hb2 & Hl2); [|lia].
    destruct (s_read_exact (le_val lb) rd2) as [[s rd3]|] eqn:E3; [|done].
    apply s_read_exact_Ok in E3 as (Hd3 & Hb3 & Hl3); [|lia].
    destruct (Z.eqb_spec (le_val cb) (crc32_hash s)) as [Hc|]; [|done]. cbn [negb] in Hn.
    destruct (decode_stored c s) as [q|] eqn:E4; [|done]. injection Hn as -> <-.
    exists s, p, (st_data rd3). split; [|split; [|split; [done|]]].
    + unfold frame. rewrite Hl3, <-Hc, !le_bytes_le_val' by (unfold blen in *; lia).
      by rewrite Hd1, Hd2, Hd3, <-!app_assoc.
    + split; [split; lia|done].
    + unfold reader_at. f_equal. destruct rd3. cbn in *. congruence.
  - right. right. right. exists e. split; [done|].
    assert (sr_done r' = true ∧ sr_terminated_cleanly r' = None) as [? ?].
    { unfold sr_next, reader_at in Hn. cbn in Hn.
      repeat (split_hyp Hn; try (by injection Hn as <- <-); try done);
        by injection Hn as <- <-. }
    split; [done|]. split; [done|]. split; [|split].
    + intros s p rest -> Hsp. by rewrite (sr_next_frame hd c s p) in Hn by done.
    + intros rest ->. by rewrite sr_next_sentinel in Hn.
    + intros ->. destruct (Z.lt_ge_cases (blen data) 4) as [Hs|]; [|done]. by rewrite sr_next_torn in Hn.
  - right. unfold sr_next, reader_at in Hn. cbn in Hn.
    destruct (s_read_exact 4 _) as [[lb rd]|[]] eqn:E1; try done.
    + apply s_read_exact_Ok in E1 as (Hd1 & Hb1 & Hl1); [|lia]. cbn in Hd1, Hb1.
      destruct (Z.eqb_spec (le_val lb) 0) as [H0|H0];
        [|repeat (split_hyp Hn; try done)].
      injection Hn as <-. left. split; [done|]. split; [done|]. split; [done|].
      exists (st_data rd). split; [|destruct rd; cbn in *; by subst].
      rewrite Hd1. f_equal. rewrite <-(le_bytes_le_val' 4 lb), H0 by (unfold blen in *; lia).
      reflexivity.
    + injection Hn as <-. right. left. apply s_read_exact_Err in E1 as [Hlt He].
      unfold stream_end in He. cbn in He, Hlt. by destruct bad.
Qed.

(** The iterator is fused: once done it yields nothing and stays put. *)
Lemma sr_next_done r : sr_done r = true → sr_next r = (None, r).
Proof. unfold sr_next. by intros ->. Qed.

Lemma sr_collect_done fuel r : sr_done r = true → sr_collect fuel r = ([], r).
Proof. intros Hd. destruct fuel; [done|]. cbn. by rewrite sr_next_done. Qed.

(** Enough fuel: more changes nothing. *)
Lemma sr_collect_fuel hd c data bad f1 f2 :
  (2 + length data ≤ f1)%nat → (2 + length data ≤ f2)%nat →
  sr_collect f1 (reader_at hd c data bad) = sr_collect f2 (reader_at hd c data bad).
Proof.
  revert f2 data. induction f1 as [|f1 IH]; intros f2 data H1 H2; [lia|].
  destruct f2 as [|f2]; [lia|]. cbn [sr_collect].
  destruct (sr_next (reader_at hd c data bad)) as [it r'] eqn:E.
  destruct (sr_next_cases _ _ _ _ _ _ E) as
    [(s & p & rest & -> & Hs & -> & ->)|[(-> & _)|[(-> & _)|(e & -> & Hd & _)]]]; try done.
  - rewrite (IH f2 rest); [done|..]; rewrite length_app in *; unfold frame in *; len_solve.
  - by rewrite !sr_collect_done.
Qed.

Lemma sr_items_unfold hd c data bad :
  sr_items (reader_at hd c data bad) =
  match sr_next (reader_at hd c data bad) with
  | (None, r) => ([], r)
  | (Some item, r) => let '(items, r) := sr_collect (1 + length data) r in (item :: items, r)
  end.
Proof. done. Qed.

(** One frame in front of a stream is one record in front of its items. *)
Lemma sr_items_frame hd c s p rest bad :
  stored_as c s p →
  sr_items (reader_at hd c (frame s ++ rest) bad) =
  let '(items, r) := sr_items (reader_at hd c rest bad) in (Ok p :: items, r).
Proof.
  intros Hs. rewrite sr_items_unfold, (sr_next_frame hd c s p) by done.
  rewrite (sr_collect_fuel hd c rest bad _ (2 + length rest)); [done| |lia].
  rewrite length_app. unfold frame. len_solve.
Qed.

(** The items of a stream that starts with stored records. *)
Lemma sr_items_frames hd c ss ps rest bad :
  Forall2 (stored_as c) ss ps →
  sr_items (reader_at hd c (frames ss ++ rest) bad) =
  let '(items, r) := sr_items (reader_at hd c rest bad) in (map Ok ps ++ items, r).
Proof.
  induction 1 as [|s p ss ps Hs Hss IH].
  - rewrite frames_nil. cbn [app map]. by destruct (sr_items (reader_at hd c rest bad)).
  - rewrite frames_cons, <-app_assoc, (sr_items_frame hd c s p) by done. rewrite IH.
    by destruct (sr_items (reader_at hd c rest bad)).
Qed.

Lemma sr_items_sentinel hd c rest bad :
  sr_items (reader_at hd c (SENTINEL ++ rest) bad) =
  ([], mkSegmentReader (mkStream rest bad) true hd c (Some true)).
Proof. by rewrite sr_items_unfold, sr_next_sentinel. Qed.

Lemma sr_items_torn hd c tail :
  blen tail < 4 →
  sr_items (reader_at hd c tail false) =
  ([], mkSegmentReader (mkStream tail false) true hd c (Some false)).
Proof. intros Ht. by rewrite sr_items_unfold, sr_next_torn. Qed.

(** How the iteration of a segment ended. *)
Inductive sr_ending (c : Compression) (bad : bool) (rest : bytes)
    : list (result bytes ErrorKind) → option bool → Prop :=
| EndSentinel t : rest = SENTINEL ++ t → sr_ending c bad rest [] (Some true)
| EndTorn : blen rest < 4 → bad = false → sr_ending c bad rest [] (Some false)
| EndError e : (∀ s p t, rest = frame s ++ t → ¬ stored_as c s p) →
    (∀ t, rest ≠ SENTINEL ++ t) → (bad = false → 4 ≤ blen rest) → sr_ending c bad rest [Err e] None.

(** The shape of an iteration, by induction on what is left of the file. *)
Lemma reader_shape hd c data bad :
  ∃ ss ps rest ending r,
    sr_items (reader_at hd c data bad) = (map Ok ps ++ ending, r) ∧
    data = frames ss ++ rest ∧ Forall2 (stored_as c) ss ps ∧
    sr_done r = true ∧ sr_ending c bad rest ending (sr_terminated_cleanly r).
Proof.
  remember (length data) as n eqn:Hn. revert data Hn.
  induction n as [n IH] using lt_wf_ind. intros data ->.
  destruct (sr_next (reader_at hd c data bad)) as [it r'] eqn:E.
  destruct (sr_next_cases _ _ _ _ _ _ E) as
    [(s & p & rest & -> & Hs & -> & ->)|[(-> & Hd & Htc & rest & -> & Hr)|
      [(-> & Hd & Htc & Hl & ->)|(e & -> & Hd & Htc & Hno & Hns & Hnt)]]].
  - rewrite (sr_items_frame hd c s p) by done.
    destruct (IH (length rest)) with (data := rest)
      as (ss & ps & rest' & en & r & Hi & Hrest & HF & Hd & He); [|done|].
    { rewrite length_app. unfold frame. len_solve. }
    rewrite Hi, Hrest. exists (s :: ss), (p :: ps), rest', en, r.
    rewrite frames_cons, app_assoc. split; [done|]. split; [done|]. split; [by constructor|]. done.
  - exists [], [], (SENTINEL ++ rest), [], r'. rewrite sr_items_unfold, E. split; [done|].
    split; [done|]. split; [constructor|]. split; [done|]. rewrite Htc. by econstructor.
  - exists [], [], data, [], r'. rewrite sr_items_unfold, E. split; [done|].
    split; [done|]. split; [constructor|]. split; [done|]. rewrite Htc. by constructor.
  - exists [], [], data, [Err e], r'. rewrite sr_items_unfold, E, sr_collect_done by done. split; [done|].
    split; [done|]. split; [constructor|]. split; [done|]. rewrite Htc. by constructor.
Qed.

Lemma ending_reports c bad rest ending tc :
  sr_ending c bad rest ending tc →
  (tc = Some true ↔ ∃ t, rest = SENTINEL ++ t) ∧ (tc = Some false ↔ blen rest < 4 ∧ bad = false) ∧
  ((∃ e, ending = [Err e]) ↔ (∀ t, rest ≠ SENTINEL ++ t) ∧ (bad = false → 4 ≤ blen rest)).
Proof.
  assert (Hl : ∀ t, ¬ blen (SENTINEL ++ t) < 4).
  { intros t. rewrite blen_app. change (blen SENTINEL) with 4. pose proof (blen_nonneg t). lia. }
  intros [t Hr|Hr Hb|e H1 H2 H3].
  - split; [by split; eauto|]. split; [split; [done|]; intros [Hs _]; rewrite Hr in Hs; by destruct (Hl t)|].
    split; [by intros [? ?]|]. intros [N _]. by destruct (N t).
  - split; [split; [done|]; intros [t ->]; by destruct (Hl t)|]. split; [done|]. split; [by intros [? ?]|].
    intros [_ H]. specialize (H Hb). lia.
  - split; [split; [done|]; intros [t Ht]; by destruct (H2 t)|]. split; [split; [done|]; intros [Hs Hb]; specialize (H3 Hb); lia|].
    split; [done|eauto].
Qed.

(** C35: whatever the file contains, the reader yields exactly the payloads of the maximal
    sequence of intact frames at its start, in order, then at most one error, and stops
    for good. It reports a clean end exactly when the sentinel follows the frames, a torn
    end exactly when fewer than four bytes follow them and the device can read these, and
    an error exactly in the remaining cases: what follows is then no intact frame. *)
Theorem reader_sound hd c data bad :
  ∃ ss ps rest ending r,
    sr_items (reader_at hd c data bad) = (map Ok ps ++ ending, r) ∧
    data = frames ss ++ rest ∧ Forall2 (stored_as c) ss ps ∧
    (∀ s p t, rest = frame s ++ t → ¬ stored_as c s p) ∧ sr_done r = true ∧
    (ending = [] ∨ ∃ e, ending = [Err e]) ∧
    (sr_terminated_cleanly r = Some true ↔ ∃ t, rest = SENTINEL ++ t) ∧
    (sr_terminated_cleanly r = Some false ↔ blen rest < 4 ∧ bad = false) ∧
    ((∃ e, ending = [Err e]) ↔ (∀ t, rest ≠ SENTINEL ++ t) ∧ (bad = false → 4 ≤ blen rest)).
Proof.
  destruct (reader_shape hd c data bad) as (ss & ps & rest & ending & r & Hi & Hd & HF & Hdone & He).
  exists ss, ps, rest, ending, r. do 3 (split; [done|]). pose proof (ending_reports _ _ _ _ _ He) as R.
  split; [|split; [done|]; split; [by destruct He; eauto|done]].
  intros s p t Ht Hst. destruct He as [t' Hs|Hs _|e H1 _ _]; [..|by apply (H1 s p t)]; destruct Hst as [[H0 Hc] _].
  - rewrite Ht in Hs. unfold frame in Hs. rewrite <-!app_assoc in Hs. apply (f_equal (take 4)) in Hs.
    rewrite (take_app_length' (SENTINEL) t' 4) in Hs by done. rewrite take_app_length' in Hs by (by rewrite length_le_bytes).
    apply (f_equal le_val) in Hs. rewrite (le_val_blen s c) in Hs by done. change (le_val SENTINEL) with 0 in Hs. lia.
  - rewrite Ht in Hs. unfold frame in Hs. rewrite !blen_app, blen_le_bytes in Hs. pose proof (blen_nonneg s). pose proof (blen_nonneg t). 
    pose proof (blen_nonneg (le_bytes 4 (crc32_hash s))). lia.
Qed.

(** Opening a stream that starts with a header this build can parse. *)
Lemma segment_reader_open_Ok hb hd data bad :
  parse_segment_header hb = Ok hd →
  segment_reader_open (Ok (mkStream (hb ++ data) bad)) = Ok (reader_at hd (sh_compression hd) data bad).
Proof.
  intros Hp. destruct (parse_segment_header_inv hb hd Hp) as (Hl & Hm & Hv & Hc).
  unfold segment_reader_open. rewrite s_read_exact_app by (unfold blen, SEGMENT_HEADER_LEN; lia).
  rewrite Hm, bool_decide_eq_true_2 by done. cbn [negb]. rewrite Hp.
  by apply parse_compression_version in Hc as [-> | ->].
Qed.

Lemma segment_reader_open_inv st r :
  segment_reader_open (Ok st) = Ok r →
  ∃ hb hd, parse_segment_header hb = Ok hd ∧ st_data st = hb ++ st_data (sr_reader r) ∧
           r = reader_at hd (sh_compression hd) (st_data (sr_reader r)) (st_bad st).
Proof.
  unfold segment_reader_open. destruct (s_read_exact SEGMENT_HEADER_LEN st) as [[hb rd]|[]] eqn:E; try done.
  apply s_read_exact_Ok in E as (Hd & Hb & Hl); [|done].
  do 2 (split_goal; [done|]). destruct (parse_segment_header hb) as [hd|] eqn:Ep; [|done].
  intros [= <-]. exists hb, hd. cbn. split; [done|]. split; [done|].
  unfold reader_at. destruct rd. cbn in *. by subst.
Qed.

(** ** The verifier's loops *)

(** [h'] has been fed what [h] was fed, then [l]. *)
Definition feeds (h : hasher) (l : bytes) (h' : hasher) : Prop := ∀ l0, fed h l0 → fed h' (l0 ++ l).

Lemma feeds_nil h : feeds h [] h.
Proof. intros l Hl. by rewrite app_nil_r. Qed.

Lemma feeds_update h l : feeds h l (hasher_update h l).
Proof. intros l0 Hl. by apply fed_update. Qed.

Lemma feeds_trans h1 l1 h2 l2 h3 : feeds h1 l1 h2 → feeds h2 l2 h3 → feeds h1 (l1 ++ l2) h3.
Proof. intros H1 H2 l Hl. rewrite app_assoc. by apply H2, H1. Qed.

Lemma verify_chunks_Ok fuel rd h rh n rd' h' rh' :
  0 ≤ n → verify_chunks fuel rd h rh n = Ok (rd', h', rh') →
  ∃ p, st_data rd = p ++ st_data rd' ∧ st_bad rd' = st_bad rd ∧ blen p = n ∧
       feeds h p h' ∧ feeds rh p rh'.
Proof.
  revert rd h rh n. induction fuel as [|fuel IH]; intros rd h rh n Hn; cbn [verify_chunks];
    destruct (Z.leb_spec n 0); try done.
  1,2: intros [= <- <- <-]; exists []; rewrite blen_nil; eauto using feeds_nil with lia.
  destruct (s_read_exact _ rd) as [[ch rd1]|] eqn:E; [|done]. cbn [map_err].
  apply s_read_exact_Ok in E as (Hd & Hb & Hl); [|unfold CHUNK_LEN; lia].
  intros Hr. apply IH in Hr as (p & Hd1 & Hb1 & Hl1 & Hf & Hrf); [|unfold CHUNK_LEN in *; lia].
  exists (ch ++ p). rewrite Hd, Hd1, <-app_assoc, blen_app. split; [done|].
  split; [congruence|]. split; [lia|]. split; eapply feeds_trans; eauto using feeds_update.
Qed.

Lemma verify_chunks_app fuel p rest bad h rh :
  blen p ≤ Z.of_nat fuel * CHUNK_LEN →
  ∃ h' rh', verify_chunks fuel (mkStream (p ++ rest) bad) h rh (blen p) = Ok (mkStream rest bad, h', rh').
Proof.
  revert p h rh. induction fuel as [|fuel IH]; intros p h rh Hf; cbn [verify_chunks];
    pose proof (blen_nonneg p); destruct (Z.leb_spec (blen p) 0) as [Hp|Hp]; try (unfold CHUNK_LEN in *; lia).
  1,2: assert (p = []) as -> by (apply blen_0; lia); eauto.
  set (w := Z.min (blen p) CHUNK_LEN). assert (0 < w ≤ blen p) by (unfold w, CHUNK_LEN; lia).
  assert (Hw : blen (take (Z.to_nat w) p) = w).
  { unfold blen in *. rewrite length_take. lia. }
  replace (p ++ rest) with (take (Z.to_nat w) p ++ drop (Z.to_nat w) p ++ rest)
    by (by rewrite app_assoc, take_drop).
  rewrite s_read_exact_app by done.
  cbn [map_err]. replace (blen p - w) with (blen (drop (Z.to_nat w) p)).
  - apply IH. unfold blen in *. rewrite length_drop. unfold w, CHUNK_LEN in *. lia.
  - unfold blen in *. rewrite length_drop. lia.
Qed.

(** The stored bytes of a body, as the footer counts them. *)
Definition stored_bytes (ss : list bytes) : Z := blen (concat ss).

Lemma stored_bytes_cons s ss : stored_bytes (s :: ss) = blen s + stored_bytes ss.
Proof. unfold stored_bytes. simpl. by rewrite blen_app. Qed.

Lemma verify_records_Ok fuel c rd h n d rd' h' n' d' :
  verify_records fuel c rd h n d = Ok (rd', h', n', d') →
  ∃ ss, st_data rd = frames ss ++ SENTINEL ++ st_data rd' ∧ st_bad rd' = st_bad rd ∧
        Forall (storable c) ss ∧ n' = n + blen ss ∧ d' = d + stored_bytes ss ∧
        feeds h (frames ss) h'.
Proof.
  revert rd h n d. induction fuel as [|fuel IH]; intros rd h n d; cbn [verify_records]; [done|].
  destruct (s_read_exact 4 rd) as [[lb rd1]|[]] eqn:E1; try done.
  apply s_read_exact_Ok in E1 as (Hd1 & Hb1 & Hl1); [|lia].
  destruct (Z.eqb_spec (le_val lb) 0) as [Hz|Hz].
  { intros [= <- <- <- <-]. exists []. rewrite blen_nil. unfold stored_bytes. cbn.
    rewrite Hd1. assert (lb = SENTINEL) as ->.
    { rewrite <-(le_bytes_le_val' 4 lb), Hz by (unfold blen in *; lia). done. }
    split; [done|]. split; [done|]. split; [constructor|]. split; [lia|].
    split; [unfold blen; cbn; lia|]. apply feeds_nil. }
  destruct (Z.ltb_spec (stored_cap c) (le_val lb)) as [|Hcap]; [done|].
  pose proof (le_val_range lb) as Hr0.
  destruct (s_read_exact 4 rd1) as [[cb rd2]|] eqn:E2; [|done]. cbn [map_err].
  apply s_read_exact_Ok in E2 as (Hd2 & Hb2 & Hl2); [|lia].
  destruct (verify_chunks _ _ _ _ _) as [[[rd3 h3] rh3]|] eqn:E3; [|done].
  apply verify_chunks_Ok in E3 as (s & Hd3 & Hb3 & Hl3 & Hf & Hrf); [|lia].
  destruct (Z.eqb_spec (le_val cb) (hasher_finalize rh3)) as [Hc|]; [|done]. cbn [negb].
  intros Hrec. apply IH in Hrec as (ss & Hd4 & Hb4 & Hss & -> & -> & Hf4).
  rewrite (fed_finalize _ _ (Hrf [] fed_new)) in Hc. cbn [app] in Hc.
  assert (Hfr : frame s = lb ++ cb ++ s).
  { unfold frame. by rewrite Hl3, <-Hc, !le_bytes_le_val' by (unfold blen in *; lia). }
  exists (s :: ss). rewrite frames_cons, Hfr, blen_cons, stored_bytes_cons.
  split; [by rewrite Hd1, Hd2, Hd3, Hd4, <-!app_assoc|]. split; [congruence|].
  split; [constructor; [split; lia|done]|]. split; [lia|]. split; [lia|].
  rewrite <-!app_assoc.
  eapply feeds_trans; [apply feeds_update|]. eapply feeds_trans; [apply feeds_update|].
  by eapply feeds_trans.
Qed.

Lemma verify_records_app fuel c ss rest bad h n d :
  Forall (storable c) ss → (length ss < fuel)%nat →
  ∃ h', verify_records fuel c (mkStream (frames ss ++ SENTINEL ++ rest) bad) h n d =
        Ok (mkStream rest bad, h', n + blen ss, d + stored_bytes ss).
Proof.
  intros Hss. revert fuel h n d. induction Hss as [|s ss Hs Hss IH]; intros fuel h n d Hf;
    (destruct fuel as [|fuel]; [simpl in Hf; lia|]); cbn [verify_records].
  - rewrite frames_nil. cbn [app]. rewrite (s_read_exact_app 4 SENTINEL) by done. exists h.
    unfold stored_bytes, blen. cbn [concat length]. by rewrite !Z.add_0_r.
  - rewrite frames_cons, <-app_assoc. unfold frame at 1. rewrite <-!app_assoc.
    rewrite s_read_exact_app, (le_val_blen _ c Hs) by apply blen_le_bytes.
    destruct Hs as [H0 Hc]. rewrite (proj2 (Z.eqb_neq _ _)) by lia.
    rewrite (proj2 (Z.ltb_ge _ _)) by lia.
    rewrite s_read_exact_app by apply blen_le_bytes. cbn [map_err].
    edestruct (verify_chunks_app (Z.to_nat (blen s / CHUNK_LEN + 1)) s) as (h' & rh' & Hv).
    { pose proof (Z.div_mod (blen s) CHUNK_LEN ltac:(done)) as Hdm.
      pose proof (Z.mod_pos_bound (blen s) CHUNK_LEN ltac:(done)).
      pose proof (Z.div_pos (blen s) CHUNK_LEN ltac:(lia) ltac:(done)).
      rewrite Z2Nat.id by lia. lia. }
    rewrite Hv. apply verify_chunks_Ok in Hv as (s' & Hd & _ & _ & _ & Hrf); [|lia].
    cbn in Hd. apply app_inv_tail in Hd as <-.
    rewrite (fed_finalize _ _ (Hrf [] fed_new)). cbn [app].
    rewrite le_val_crc, Z.eqb_refl. cbn [negb].
    destruct (IH fuel h' (n + 1) (d + blen s)) as [h'' ->]; [simpl in Hf; lia|].
    exists h''. rewrite blen_cons, stored_bytes_cons. do 2 f_equal; [f_equal|]; lia.
Qed.

#[local] Arguments verify_records : simpl never.

(** A sealed segment image: header, frames, sentinel, and a footer that records the
    count, the stored bytes and the checksum of everything before the sentinel. The
    footer's last four bytes are reserved and not checked. *)
Definition sealed_image (data : bytes) (hd : SegmentHeaderMeta) (ft : SegmentFooterMeta)
    (ss : list bytes) : Prop :=
  ∃ hb fb, data = hb ++ frames ss ++ SENTINEL ++ fb ∧
    parse_segment_header hb = Ok hd ∧ parse_segment_footer fb = Ok ft ∧
    Forall (storable (sh_compression hd)) ss ∧
    sf_record_count ft = blen ss ∧ sf_data_bytes ft = stored_bytes ss ∧
    sf_file_crc32 ft = crc32_hash (hb ++ frames ss).

Lemma parse_segment_footer_len fb ft : parse_segment_footer fb = Ok ft → blen fb = SEGMENT_FOOTER_LEN.
Proof. unfold parse_segment_footer. destruct (Z.eqb_spec (blen fb) SEGMENT_FOOTER_LEN); done. Qed.

Lemma verify_accepts st hd ft ss :
  sealed_image (st_data st) hd ft ss → st_bad st = false →
  verify_sealed_segment (Ok st) = Ok (mkSegmentVerification hd ft).
Proof.
  destruct st as [data bad]. cbn. intros (hb & fb & -> & Hh & Hf & Hss & Hn & Hd & Hc) ->.
  unfold verify_sealed_segment. cbn [map_err].
  destruct (parse_segment_header_inv hb hd Hh) as (Hl & _).
  rewrite s_read_exact_app by (unfold blen, SEGMENT_HEADER_LEN; lia).
  rewrite Hh. cbn [map_err st_data].
  destruct (verify_records_app (S (length (frames ss ++ SENTINEL ++ fb))) (sh_compression hd) ss fb
              false (hasher_update hasher_new hb) 0 0) as [h' Hv]; [done| |].
  { clear. rewrite length_app. induction ss as [|s ss IH]; [simpl; lia|].
    rewrite frames_cons, length_app. unfold frame. len_solve. }
  rewrite Hv. apply verify_records_Ok in Hv as (ss' & Hdd & _ & _ & _ & _ & Hfeed).
  cbn in Hdd. apply app_inv_tail in Hdd. rewrite <-Hdd in Hfeed.
  rewrite <-(app_nil_r fb), s_read_exact_app by by apply parse_segment_footer_len with ft.
  rewrite Hf. cbn [map_err].
  assert (Hfin : hasher_finalize h' = crc32_hash (hb ++ frames ss)).
  { apply fed_finalize. apply Hfeed. apply (feeds_update hasher_new hb [] fed_new). }
  by rewrite Hfin, Hc, Hn, Hd, !Z.add_0_l, !Z.eqb_refl.
Qed.

Lemma verify_only st v :
  verify_sealed_segment (Ok st) = Ok v →
  ∃ ss, sealed_image (st_data st) (v_header v) (v_footer v) ss ∧ st_bad st = false.
Proof.
  unfold verify_sealed_segment. cbn [map_err].
  destruct (s_read_exact SEGMENT_HEADER_LEN st) as [[hb rd]|[]] eqn:E1; try done.
  apply s_read_exact_Ok in E1 as (Hd1 & Hb1 & Hl1); [|done].
  destruct (parse_segment_header hb) as [hd|] eqn:Eh; [|done]. cbn [map_err].
  destruct (verify_records _ _ _ _ _ _) as [[[[rd2 h2] n2] d2]|] eqn:E2; [|done].
  apply verify_records_Ok in E2 as (ss & Hd2 & Hb2 & Hss & -> & -> & Hf).
  destruct (s_read_exact SEGMENT_FOOTER_LEN rd2) as [[fb rd3]|[]] eqn:E3; try done.
  apply s_read_exact_Ok in E3 as (Hd3 & Hb3 & Hl3); [|done].
  destruct (parse_segment_footer fb) as [ft|] eqn:Ef; [|done]. cbn [map_err].
  destruct (Z.eqb_spec (sf_file_crc32 ft) (hasher_finalize h2)) as [Hc|]; [|done].
  destruct (Z.eqb_spec (sf_record_count ft) (0 + blen ss)) as [Hn|]; [|done].
  destruct (Z.eqb_spec (sf_data_bytes ft) (0 + stored_bytes ss)) as [Hdb|]; [|done]. cbn [negb].
  destruct (st_data rd3) eqn:E4; [|done]. destruct (st_bad rd3) eqn:E5; [done|].
  intros [= <-]. cbn. exists ss. split; [|congruence]. exists hb, fb.
  split; [by rewrite Hd1, Hd2, Hd3, app_nil_r|].
  do 2 (split; [done|]). split; [done|]. split; [done|]. split; [done|].
  rewrite Hc. apply fed_finalize, Hf, (feeds_update hasher_new hb [] fed_new).
Qed.

(** C36: [verify_sealed_segment] accepts exactly the well-formed sealed images, with the
    header and footer they carry: the counts, the whole-file checksum and every record's
    checksum match and no byte follows the footer. *)
Theorem verify_sealed_segment_iff st hd ft :
  verify_sealed_segment (Ok st) = Ok (mkSegmentVerification hd ft) ↔
  (∃ ss, sealed_image (st_data st) hd ft ss) ∧ st_bad st = false.
Proof.
  split.
  - intros Hv. apply verify_only in Hv as (ss & Hi & Hb). eauto.
  - intros [[ss Hi] Hb]. by apply verify_accepts with ss.
Qed.

(** A sealed image opens and reads back completely. *)
Lemma sealed_image_reads data hd ft ss ps :
  sealed_image data hd ft ss → Forall2 (λ s p, decode_stored (sh_compression hd) s = Some p) ss ps →
  ∃ r r', segment_reader_open (Ok (mkStream data false)) = Ok r ∧
          sr_items r = (map Ok ps, r') ∧ sr_terminated_cleanly r' = Some true.
Proof.
  intros (hb & fb & -> & Hh & _ & Hss & _) HF.
  rewrite (segment_reader_open_Ok hb hd) by done. eexists _, _. split; [done|].
  rewrite (sr_items_frames _ _ ss ps).
  - rewrite sr_items_sentinel, app_nil_r. split; [reflexivity|]. done.
  - clear -Hss HF. induction HF; inversion Hss; subst; constructor; [by split|auto].
Qed.

(** A file the verifier accepts reads back without an error: as many records as its
    footer counts (each decompressed when the segment is compressed), then the clean
    end-of-records mark. *)
Theorem verified_segment_reads_back st v :
  verify_sealed_segment (Ok st) = Ok v →
  ∃ ss, sealed_image (st_data st) (v_header v) (v_footer v) ss ∧
    ∀ ps, Forall2 (λ s p, decode_stored (sh_compression (v_header v)) s = Some p) ss ps →
    ∃ r r', segment_reader_open (Ok st) = Ok r ∧ sr_items r = (map Ok ps, r') ∧
            sr_terminated_cleanly r' = Some true ∧ blen ps = sf_record_count (v_footer v).
Proof.
  intros Hv. apply verify_only in Hv as (ss & Hi & Hb). exists ss. split; [done|].
  intros ps HF. destruct st as [data bad]. cbn in *. subst.
  destruct (sealed_image_reads _ _ _ _ _ Hi HF) as (r & r' & Ho & Hr & Ht).
  exists r, r'. do 3 (split; [done|]). destruct Hi as (_ & _ & _ & _ & _ & _ & Hn & _).
  rewrite Hn. unfold blen. f_equal. symmetry. by eapply Forall2_length.
Qed.
End ReaderFacts.

(** ** Witnesses *)

Module ReaderWitness.
#[local] Existing Instance Crc32Ieee.ieee.
#[local] Existing Instance ZstdRaw.raw.
#[local] Existing Instance Crc32Ieee.ieee_laws.
#[local] Existing Instance ZstdRaw.raw_laws.

Definition header : bytes := build_segment_header 3 CNone 5.
Definition meta : SegmentHeaderMeta := mkSegmentHeaderMeta x01 CNone 3 5.
Definition records : list bytes := [bstr "hello"; bstr "weir"].
Definition footer : bytes := build_segment_footer 2 9 (crc32_hash (header ++ frames records)) 8.
Definition footer_meta : SegmentFooterMeta :=
  mkSegmentFooterMeta 2 9 (crc32_hash (header ++ frames records)) 8.
Definition image : bytes := header ++ frames records ++ SENTINEL ++ footer.

(** Two intact frames, then one whose checksum is wrong. *)
Definition corrupt : bytes := frames records ++ le_bytes 4 2 ++ le_bytes 4 0 ++ bstr "xy".

Lemma reader_sound_witness :
  ∃ ss ps rest ending r,
    sr_items (reader_at meta CNone corrupt false) = (map Ok ps ++ ending, r) ∧
    corrupt = frames ss ++ rest ∧ Forall2 (stored_as CNone) ss ps ∧ (ending = [] ∨ ∃ e, ending = [Err e]).
Proof.
  destruct (reader_sound meta CNone corrupt false) as (ss & ps & rest & ending & r & H1 & H2 & H3 & _ & _ & H4 & _).
  exact (ex_intro _ ss (ex_intro _ ps (ex_intro _ rest (ex_intro _ ending (ex_intro _ r (conj H1 (conj H2 (conj H3 H4)))))))).
Defined.

Example reader_stops_at_corruption :
  fst (sr_items (reader_at meta CNone corrupt false)) = [Ok (bstr "hello"); Ok (bstr "weir"); Err InvalidData].
Proof. vm_compute. reflexivity. Qed.

Lemma verify_sealed_segment_iff_witness :
  ∃ ss, sealed_image image meta footer_meta ss.
Proof.
  apply (verify_sealed_segment_iff (mkStream image false) meta footer_meta). vm_compute. reflexivity.
Defined.

Lemma verified_segment_reads_back_witness :
  ∃ ss, sealed_image image meta footer_meta ss ∧
    ∀ ps, Forall2 (λ s p, decode_stored CNone s = Some p) ss ps →
    ∃ r r', segment_reader_open (Ok (mkStream image false)) = Ok r ∧ sr_items r = (map Ok ps, r') ∧
            sr_terminated_cleanly r' = Some true ∧ blen ps = 2.
Proof.
  apply (verified_segment_reads_back (mkStream image false) (mkSegmentVerification meta footer_meta)).
  vm_compute. reflexivity.
Defined.
End ReaderWitness.
