(* ===== verification/RecReader.v ===== *)
(** * The forensic reader (weir-wab)

    [RecoveryReader] of crates/weir-wab/src/recovery_reader.rs: it steps over corrupt
    records, gives up ([Desynced]) rather than guess a position, and ends silently only
    when the walk accounts for every byte. Reasons are an enumeration in place of the
    message strings. *)

From Stdlib Require Import ZArith Lia Strings.Byte String.
From stdpp Require Import base list option.
From S2P Require Import Prelude Deps Wire Io Format Reader.

Definition MAX_CONSECUTIVE_SKIPS : Z := 3.

Inductive SkipReason := SkCrcMismatch | SkDecompression.

Inductive DesyncReason :=
| DsReadLength | DsTrailing (stray : Z) | DsZeroBytes | DsImplausibleLength (len cap : Z)
| DsReadCrc | DsTruncated | DsFramingLost.

Inductive RecoveryItem :=
| RRecord (p : bytes)
| RSkipped (offset declared_len : Z) (reason : SkipReason)
| RDesynced (offset : Z) (reason : DesyncReason).

Record RecoveryReader := mkRecoveryReader {
  rr_reader : Stream;
  rr_header : SegmentHeaderMeta;
  rr_pos : Z;
  rr_file_len : Z;
  rr_done : bool;
  rr_consecutive_skips : Z;
  rr_pending_desync : option (Z * DesyncReason);
}.

(** [RecoveryReader::open]: the opened file and what [file.metadata()] said its length is. *)
Definition recovery_reader_open (file : result (Stream * result Z ErrorKind) ErrorKind)
    : result RecoveryReader ErrorKind :=
  let? (reader, metadata) := file in
  let? file_len := metadata in
  let? (header, reader) :=
    map_err (λ e, match e with UnexpectedEof => InvalidData | e => e end)
      (s_read_exact SEGMENT_HEADER_LEN reader) in
  let? header := map_err (λ _, InvalidData) (parse_segment_header header) in
  Ok (mkRecoveryReader reader header SEGMENT_HEADER_LEN file_len false 0 None).

Definition is_sentinel_offset (r : RecoveryReader) (offset : Z) : bool :=
  let after := saturating_add_u64 offset (blen SENTINEL) in
  (saturating_add_u64 after SEGMENT_FOOTER_LEN =? rr_file_len r) || (after =? rr_file_len r).

(** The reader with [done] set, at stream position [rd]. *)
Definition rr_stop (r : RecoveryReader) (rd : Stream) : RecoveryReader :=
  mkRecoveryReader rd (rr_header r) (rr_pos r) (rr_file_len r) true
    (rr_consecutive_skips r) (rr_pending_desync r).

(** [self.desync(offset, reason)]. *)
Definition rr_desync (r : RecoveryReader) (rd : Stream) (offset : Z) (reason : DesyncReason)
    : option RecoveryItem * RecoveryReader :=
  (Some (RDesynced offset reason), rr_stop r rd).

Section RecoveryReader.
Context {CRC : Crc32} {ZS : Zstd}.

Definition rr_next (r : RecoveryReader) : option RecoveryItem * RecoveryReader :=
  match rr_pending_desync r with
  | Some (offset, reason) =>
    (Some (RDesynced offset reason),
     mkRecoveryReader (rr_reader r) (rr_header r) (rr_pos r) (rr_file_len r) true
       (rr_consecutive_skips r) None)
  | None =>
    if rr_done r then (None, r) else
    let record_offset := rr_pos r in
    match s_read_exact 4 (rr_reader r) with
    | Err UnexpectedEof =>
      let r := rr_stop r (rr_reader r) in
      if record_offset =? rr_file_len r then (None, r) else
      let stray := Z.max 0 (rr_file_len r - record_offset) in
      (Some (RDesynced record_offset (DsTrailing stray)), r)
    | Err _ => rr_desync r (rr_reader r) record_offset DsReadLength
    | Ok (len_buf, rd) =>
      let declared_len := le_val len_buf in
      if declared_len =? 0 then
        let r := rr_stop r rd in
        if is_sentinel_offset r record_offset then (None, r)
        else (Some (RDesynced record_offset DsZeroBytes), r)
      else
      let cap := stored_cap (sh_compression (rr_header r)) in
      if cap <? declared_len then
        rr_desync r rd record_offset (DsImplausibleLength declared_len cap) else
      match s_read_exact 4 rd with
      | Err _ => rr_desync r rd record_offset DsReadCrc
      | Ok (crc_buf, rd) =>
        let expected_crc := le_val crc_buf in
        match s_read_exact declared_len rd with
        | Err _ => rr_desync r rd record_offset DsTruncated
        | Ok (stored, rd) =>
          let pos := record_offset + 8 + declared_len in
          if negb (crc32_hash stored =? expected_crc) then
            let skips := rr_consecutive_skips r + 1 in
            let pending :=
              if MAX_CONSECUTIVE_SKIPS <=? skips then Some (record_offset, DsFramingLost) else None in
            (Some (RSkipped record_offset declared_len SkCrcMismatch),
             mkRecoveryReader rd (rr_header r) pos (rr_file_len r) false skips pending)
          else
            let r := mkRecoveryReader rd (rr_header r) pos (rr_file_len r) false 0 None in
            match decode_stored (sh_compression (rr_header r)) stored with
            | None => (Some (RSkipped record_offset declared_len SkDecompression), r)
            | Some plain => (Some (RRecord plain), r)
            end
        end
      end
    end
  end.

(** The items up to the first [None]. *)
Fixpoint rr_collect (fuel : nat) (r : RecoveryReader) : list RecoveryItem * RecoveryReader :=
  match fuel with
  | O => ([], r)
  | S fuel =>
    match rr_next r with
    | (None, r) => ([], r)
    | (Some item, r) => let '(items, r) := rr_collect fuel r in (item :: items, r)
    end
  end.

(** Every record step consumes at least nine bytes; two more calls end the walk. *)
Definition rr_items (r : RecoveryReader) : list RecoveryItem :=
  (rr_collect (3 + length (st_data (rr_reader r))) r).1.
End RecoveryReader.

(** ** What the walk accounts for *)

(** A frame as found on disk: its CRC field and its stored bytes, matching or not. *)
Record RawFrame := mkRawFrame { rf_crc : Z; rf_stored : bytes }.

Definition raw_bytes (f : RawFrame) : bytes :=
  le_bytes 4 (blen (rf_stored f)) ++ le_bytes 4 (rf_crc f) ++ rf_stored f.

Definition raws (fs : list RawFrame) : bytes := concat (map raw_bytes fs).

Lemma blen_raw f : blen (raw_bytes f) = 8 + blen (rf_stored f).
Proof. unfold raw_bytes. autorewrite with weir_len. lia. Qed.

Section Account.
Context {CRC : Crc32} {CL : Crc32Laws} {ZS : Zstd} {ZL : ZstdLaws}.

Definition raw_ok (c : Compression) (f : RawFrame) : Prop :=
  storable c (rf_stored f) ∧ is_u32 (rf_crc f).

(** What the reader reports for a frame found at [off]. *)
Definition raw_item (c : Compression) (off : Z) (f : RawFrame) : RecoveryItem :=
  let s := rf_stored f in
  if negb (crc32_hash s =? rf_crc f) then RSkipped off (blen s) SkCrcMismatch else
  match decode_stored c s with
  | None => RSkipped off (blen s) SkDecompression
  | Some p => RRecord p
  end.

Fixpoint raw_items (c : Compression) (off : Z) (fs : list RawFrame) : list RecoveryItem :=
  match fs with
  | [] => []
  | f :: fs => raw_item c off f :: raw_items c (off + blen (raw_bytes f)) fs
  end.

(** The skip budget after walking [fs] with [k] failures already in a row; [None] when
    it is exhausted within [fs]. *)
Fixpoint skip_budget (k : Z) (fs : list RawFrame) : option Z :=
  match fs with
  | [] => Some k
  | f :: fs =>
    if negb (crc32_hash (rf_stored f) =? rf_crc f) then
      if MAX_CONSECUTIVE_SKIPS <=? k + 1 then None else skip_budget (k + 1) fs
    else skip_budget 0 fs
  end.

Definition rr_at (hd : SegmentHeaderMeta) (data : bytes) (bad : bool) (pos flen k : Z) : RecoveryReader :=
  mkRecoveryReader (mkStream data bad) hd pos flen false k None.

(** The call on a stream that starts with a raw frame. *)
Lemma rr_next_raw hd f rest bad pos flen k :
  raw_ok (sh_compression hd) f →
  rr_next (rr_at hd (raw_bytes f ++ rest) bad pos flen k) =
  (Some (raw_item (sh_compression hd) pos f),
   let pos' := pos + blen (raw_bytes f) in
   if negb (crc32_hash (rf_stored f) =? rf_crc f) then
     mkRecoveryReader (mkStream rest bad) hd pos' flen false (k + 1)
       (if MAX_CONSECUTIVE_SKIPS <=? k + 1 then Some (pos, DsFramingLost) else None)
   else rr_at hd rest bad pos' flen 0).
Proof.
  intros [Hs Hc]. unfold rr_next, rr_at, raw_item. cbn [rr_pending_desync rr_done rr_pos rr_reader].
  unfold raw_bytes at 1. rewrite <-!app_assoc.
  rewrite s_read_exact_app, (le_val_blen _ _ Hs) by apply blen_le_bytes.
  destruct Hs as [H0 Hcap]. rewrite (proj2 (Z.eqb_neq _ _)) by lia. cbn [rr_header].
  rewrite (proj2 (Z.ltb_ge _ _)) by lia.
  rewrite s_read_exact_app, s_read_exact_app by (done || apply blen_le_bytes).
  rewrite le_val_le_bytes by exact Hc. rewrite blen_raw, Z.add_assoc.
  destruct (negb (crc32_hash (rf_stored f) =? rf_crc f)); [done|].
  cbn [rr_header]. by destruct (decode_stored _ _).
Qed.

(** A position that can end the record stream of a segment: nothing follows, or a
    sentinel alone, or a sentinel and a footer's worth of bytes. *)
Definition clean_tail (rest : bytes) : Prop :=
  rest = [] ∨ ∃ t, rest = SENTINEL ++ t ∧ (blen t = 0 ∨ blen t = SEGMENT_FOOTER_LEN).

Lemma is_sentinel_offset_spec r pos (t : bytes) :
  0 ≤ pos → rr_file_len r = pos + 4 + blen t → rr_file_len r + SEGMENT_FOOTER_LEN + 4 ≤ u64_max →
  is_sentinel_offset r pos = true ↔ blen t = 0 ∨ blen t = SEGMENT_FOOTER_LEN.
Proof.
  intros Hp Hl Hm. unfold is_sentinel_offset, saturating_add_u64.
  change (blen SENTINEL) with 4. pose proof (blen_nonneg t). unfold SEGMENT_FOOTER_LEN in *.
  rewrite orb_true_iff, !Z.eqb_eq, !Z.min_l by lia. lia.
Qed.

(** A raw frame is what a stream with enough bytes behind a plausible length holds. *)
Lemma raw_frame_intro c data lb rd crcb rd2 s rd3 :
  s_read_exact 4 data = Ok (lb, rd) → le_val lb ≠ 0 → le_val lb ≤ stored_cap c →
  s_read_exact 4 rd = Ok (crcb, rd2) → s_read_exact (le_val lb) rd2 = Ok (s, rd3) →
  ∃ f, raw_ok c f ∧ st_data data = raw_bytes f ++ st_data rd3.
Proof.
  intros H1 Hz Hc H2 H3. pose proof (le_val_range lb).
  apply s_read_exact_Ok in H1 as (Hd1 & _ & Hl1); [|lia].
  apply s_read_exact_Ok in H2 as (Hd2 & _ & Hl2); [|lia].
  apply s_read_exact_Ok in H3 as (Hd3 & _ & Hl3); [|lia].
  exists (mkRawFrame (le_val crcb) s). split.
  - split; [cbn; unfold storable; lia|]. apply le_val_u32. unfold blen in *. lia.
  - unfold raw_bytes. cbn. rewrite Hl3, !le_bytes_le_val' by (unfold blen in *; lia).
    by rewrite Hd1, Hd2, Hd3, <-!app_assoc.
Qed.

(** A call that does not find a frame ends the walk: silently only at a clean tail. *)
Lemma rr_next_cases hd data bad pos flen k :
  0 ≤ pos → flen = pos + blen data → flen + SEGMENT_FOOTER_LEN + 4 ≤ u64_max →
  (∃ f rest, data = raw_bytes f ++ rest ∧ raw_ok (sh_compression hd) f) ∨
  (∃ it r', rr_next (rr_at hd data bad pos flen k) = (it, r') ∧
            rr_done r' = true ∧ rr_pending_desync r' = None ∧
            ((it = None ∧ clean_tail data) ∨
             (∃ reason, it = Some (RDesynced pos reason) ∧ reason ≠ DsFramingLost))).
Proof.
  intros Hp Hf Hm. unfold rr_next, rr_at. cbn [rr_pending_desync rr_done rr_pos rr_reader].
  destruct (s_read_exact 4 _) as [[lb rd]|e] eqn:E1.
  - destruct (Z.eqb_spec (le_val lb) 0) as [Hz|Hz].
    + right. apply s_read_exact_Ok in E1 as (Hd & _ & Hl); [|lia]. cbn in Hd.
      assert (lb = SENTINEL) as ->.
      { rewrite <-(le_bytes_le_val' 4 lb), Hz by (unfold blen in *; lia). done. }
      match goal with |- context [is_sentinel_offset ?r pos] =>
        pose proof (is_sentinel_offset_spec r pos (st_data rd) Hp) as Hs;
        destruct (is_sentinel_offset r pos) eqn:Es end; eexists _, _; split; eauto;
        (split; [done|]); (split; [done|]).
      * left. split; [done|]. right. exists (st_data rd). split; [done|].
        apply Hs; [|done|done]. cbn. rewrite Hf, Hd, blen_app. change (blen SENTINEL) with 4. lia.
      * right. eexists. split; [done|done].
    + cbn [rr_header]. destruct (Z.ltb_spec (stored_cap (sh_compression hd)) (le_val lb)) as [|Hc].
      { right. eexists _, _. split; [done|]. split; [done|]. split; [done|]. right. by eexists. }
      destruct (s_read_exact 4 rd) as [[cb rd2]|] eqn:E2.
      2: { right. eexists _, _. split; [done|]. split; [done|]. split; [done|]. right. by eexists. }
      destruct (s_read_exact (le_val lb) rd2) as [[s rd3]|] eqn:E3.
      2: { right. eexists _, _. split; [done|]. split; [done|]. split; [done|]. right. by eexists. }
      left. destruct (raw_frame_intro _ _ _ _ _ _ _ _ E1 Hz Hc E2 E3) as (f & Hok & Hd). eauto.
  - right. apply s_read_exact_Err in E1 as [Hl ->]. unfold stream_end. cbn [st_bad].
    destruct bad.
    + eexists _, _. split; [done|]. split; [done|]. split; [done|]. right. by eexists.
    + cbn [rr_file_len rr_stop]. destruct (Z.eqb_spec pos flen) as [He|].
      * eexists _, _. split; [done|]. split; [done|]. split; [done|]. left. split; [done|].
        left. apply blen_0. lia.
      * eexists _, _. split; [done|]. split; [done|]. split; [done|]. right. by eexists.
Qed.

Lemma rr_collect_done fuel r :
  rr_done r = true → rr_pending_desync r = None → rr_collect fuel r = ([], r).
Proof. intros Hd Hp. destruct fuel; [done|]. cbn. unfold rr_next. by rewrite Hp, Hd. Qed.

(** The shape of every walk. *)
Lemma rr_collect_shape fuel hd data bad pos flen k :
  0 ≤ pos → flen = pos + blen data → flen + SEGMENT_FOOTER_LEN + 4 ≤ u64_max →
  (3 + length data ≤ fuel)%nat →
  ∃ fs rest ending,
    (rr_collect fuel (rr_at hd data bad pos flen k)).1
      = raw_items (sh_compression hd) pos fs ++ ending ∧
    data = raws fs ++ rest ∧ Forall (raw_ok (sh_compression hd)) fs ∧
    ((ending = [] ∧ clean_tail rest ∧ skip_budget k fs ≠ None) ∨
     (∃ off reason, ending = [RDesynced off reason] ∧
        (reason = DsFramingLost ↔ skip_budget k fs = None))).
Proof.
  revert data pos k. induction fuel as [|fuel IH]; intros data pos k Hp Hf Hm Hfuel; [lia|].
  destruct (rr_next_cases hd data bad pos flen k Hp Hf Hm)
    as [(f & rest & -> & Hok)|(it & r' & Hn & Hd & Hpe & Hit)].
  - pose proof (blen_raw f) as Hb. pose proof (blen_nonneg (rf_stored f)) as Hb0.
    assert (0 < blen (rf_stored f)) as Hpos by (destruct Hok as [[? ?] ?]; lia).
    cbn [rr_collect]. rewrite rr_next_raw by done. cbv zeta.
    rewrite blen_app in Hf. rewrite length_app in Hfuel. unfold blen in Hb, Hpos.
    destruct (negb (crc32_hash (rf_stored f) =? rf_crc f)) eqn:Ec.
    + destruct (MAX_CONSECUTIVE_SKIPS <=? k + 1) eqn:Ek.
      * exists [f], rest, [RDesynced pos DsFramingLost]. destruct fuel as [|fuel]; [lia|].
        cbn [rr_collect rr_next rr_pending_desync].
        rewrite rr_collect_done by done. cbn. rewrite app_nil_r, Ec, Ek. split; [done|].
        split; [done|]. split; [by apply Forall_cons_2|]. right. by eexists _, _.
      * edestruct (IH rest (pos + blen (raw_bytes f)) (k + 1)) as (fs & rest' & en & Hc & Hrest & Hfs & He);
          [unfold blen; lia|lia|lia|lia|].
        fold (rr_at hd rest bad (pos + blen (raw_bytes f)) flen (k + 1)).
        destruct (rr_collect fuel _) as [its r2]. cbn in Hc |- *. subst its rest.
        exists (f :: fs), rest', en. cbn. rewrite app_assoc, Ec, Ek. split; [done|]. split; [done|].
        split; [by constructor|]. done.
    + edestruct (IH rest (pos + blen (raw_bytes f)) 0) as (fs & rest' & en & Hc & Hrest & Hfs & He);
        [unfold blen; lia|lia|lia|lia|].
      destruct (rr_collect fuel _) as [its r2]. cbn in Hc |- *. subst its rest.
      exists (f :: fs), rest', en. cbn. rewrite app_assoc, Ec. split; [done|]. split; [done|].
      split; [by constructor|]. done.
  - cbn [rr_collect]. rewrite Hn. exists [], data.
    destruct Hit as [[-> Hct]|(reason & -> & Hr)].
    + exists []. cbn. split; [done|]. split; [done|]. split; [constructor|]. left. done.
    + exists [RDesynced pos reason]. rewrite rr_collect_done by done. cbn. split; [done|].
      split; [done|]. split; [constructor|]. right. eexists _, _. split; [done|]. split; done.
Qed.

(** The call at a clean tail. *)
Lemma rr_next_clean hd tail pos flen k :
  0 ≤ pos → flen = pos + blen tail → flen + SEGMENT_FOOTER_LEN + 4 ≤ u64_max → clean_tail tail →
  ∃ r', rr_next (rr_at hd tail false pos flen k) = (None, r').
Proof.
  intros Hp Hf Hm [-> | (t & -> & Ht)]; unfold rr_next, rr_at;
    cbn [rr_pending_desync rr_done rr_pos rr_reader].
  - rewrite s_read_exact_short by done. cbn. rewrite (proj2 (Z.eqb_eq pos flen)) by (rewrite Hf, blen_nil; lia).
    eauto.
  - rewrite (s_read_exact_app 4 SENTINEL) by done. change (le_val SENTINEL =? 0) with true. cbv iota.
    rewrite blen_app in Hf. change (blen SENTINEL) with 4 in Hf.
    match goal with |- context [is_sentinel_offset ?r pos] =>
      rewrite (proj2 (is_sentinel_offset_spec r pos t Hp ltac:(cbn; lia) Hm) Ht) end. eauto.
Qed.

Lemma rr_collect_raws fuel hd fs tail pos flen k :
  Forall (raw_ok (sh_compression hd)) fs → clean_tail tail → skip_budget k fs ≠ None →
  0 ≤ pos → flen = pos + blen (raws fs ++ tail) → flen + SEGMENT_FOOTER_LEN + 4 ≤ u64_max →
  (length fs < fuel)%nat →
  (rr_collect fuel (rr_at hd (raws fs ++ tail) false pos flen k)).1
  = raw_items (sh_compression hd) pos fs.
Proof.
  intros Hfs Ht. revert fuel pos k. induction Hfs as [|f fs Hok Hfs IH];
    intros fuel pos k Hk Hp Hf Hm Hfuel; (destruct fuel as [|fuel]; [simpl in Hfuel; lia|]).
  - cbn [rr_collect]. destruct (rr_next_clean hd tail pos flen k) as [r' Hr]; [done..|].
    change (raws [] ++ tail) with tail. by rewrite Hr.
  - assert (Hr : raws (f :: fs) ++ tail = raw_bytes f ++ raws fs ++ tail).
    { unfold raws. cbn [map concat]. by rewrite <-app_assoc. }
    rewrite Hr in Hf |- *. pose proof (blen_nonneg (raw_bytes f)). rewrite blen_app in Hf.
    cbn [rr_collect length] in *. rewrite rr_next_raw by done. cbv zeta. cbn [skip_budget] in Hk.
    cbn [raw_items].
    destruct (negb (crc32_hash (rf_stored f) =? rf_crc f)).
    + destruct (MAX_CONSECUTIVE_SKIPS <=? k + 1); [done|].
      fold (rr_at hd (raws fs ++ tail) false (pos + blen (raw_bytes f)) flen (k + 1)).
      specialize (IH fuel (pos + blen (raw_bytes f)) (k + 1) Hk).
      destruct (rr_collect fuel _) as [its r2]. cbn in IH |- *. f_equal. apply IH; lia.
    + specialize (IH fuel (pos + blen (raw_bytes f)) 0 Hk).
      destruct (rr_collect fuel _) as [its r2]. cbn in IH |- *. f_equal. apply IH; lia.
Qed.

(** C37: whatever a segment file holds after its header, every record the forensic reader
    returns is an intact frame at the reported position of a frame-by-frame walk, every
    skipped one is named with its offset and length, and the walk ends without a
    [Desynced] item only if the frames account for the file up to its end or up to a
    sentinel with a footer's worth of bytes: it neither fabricates a record nor loses
    its place silently. *)
Theorem recovery_reader_accounts st r :
  recovery_reader_open (Ok (st, Ok (blen (st_data st)))) = Ok r →
  blen (st_data st) + SEGMENT_FOOTER_LEN + 4 ≤ u64_max →
  let c := sh_compression (rr_header r) in
  ∃ hb fs rest ending,
    st_data st = hb ++ raws fs ++ rest ∧ blen hb = SEGMENT_HEADER_LEN ∧
    Forall (raw_ok c) fs ∧
    rr_items r = raw_items c SEGMENT_HEADER_LEN fs ++ ending ∧
    ((ending = [] ∧ clean_tail rest ∧ skip_budget 0 fs ≠ None) ∨
     (∃ off reason, ending = [RDesynced off reason] ∧
        (reason = DsFramingLost ↔ skip_budget 0 fs = None))).
Proof.
  unfold recovery_reader_open.
  destruct (s_read_exact SEGMENT_HEADER_LEN st) as [[hb rd]|] eqn:E; [|done]. cbn [map_err].
  apply s_read_exact_Ok in E as (Hd & Hb & Hl); [|done].
  destruct (parse_segment_header hb) as [hd|]; [|done]. intros [= <-] Hm. cbn [rr_header].
  rewrite Hd, blen_app in Hm.
  destruct (rr_collect_shape (3 + length (st_data rd)) hd (st_data rd) (st_bad rd) SEGMENT_HEADER_LEN
    (blen (st_data st)) 0) as (fs & rest & en & Hc & Hdd & Hfs & He);
    [done|by rewrite Hd, blen_app, Hl|by rewrite Hd, blen_app|done|].
  exists hb, fs, rest, en. split; [by rewrite Hd, Hdd|]. split; [done|]. split; [done|].
  split; [|done]. destruct rd. exact Hc.
Qed.

(** The forensic reader reads past corruption: on a segment whose body is a sequence of
    frames with fewer than three checksum failures in a row, ended as a segment can end,
    it returns the payload of every intact frame and a [Skipped] item for every other
    one, in file order, and nothing else. *)
Theorem recovery_reader_reads_past hb hd fs tail :
  parse_segment_header hb = Ok hd →
  Forall (raw_ok (sh_compression hd)) fs → clean_tail tail → skip_budget 0 fs ≠ None →
  blen (hb ++ raws fs ++ tail) + SEGMENT_FOOTER_LEN + 4 ≤ u64_max →
  ∃ r, recovery_reader_open
         (Ok (mkStream (hb ++ raws fs ++ tail) false, Ok (blen (hb ++ raws fs ++ tail)))) = Ok r ∧
       rr_items r = raw_items (sh_compression hd) SEGMENT_HEADER_LEN fs.
Proof.
  intros Hh Hfs Ht Hk Hm. destruct (parse_segment_header_inv hb hd Hh) as (Hl & _).
  assert (Hhl : blen hb = SEGMENT_HEADER_LEN) by (unfold blen, SEGMENT_HEADER_LEN; lia).
  unfold recovery_reader_open. rewrite s_read_exact_app by done. cbn [map_err].
  rewrite Hh. cbn [map_err]. eexists. split; [done|]. unfold rr_items. apply rr_collect_raws; try done.
  - by rewrite blen_app, Hhl.
  - cbn [rr_reader st_data]. rewrite length_app.
    enough (length fs ≤ length (raws fs))%nat by lia. clear.
    induction fs as [|f fs IH]; [done|]. unfold raws in *. cbn [map concat].
    rewrite length_app. pose proof (blen_raw f). pose proof (blen_nonneg (rf_stored f)).
    unfold blen in *. simpl. lia.
Qed.
End Account.

(** ** Witnesses *)

Module RecReaderWitness.
#[local] Existing Instance Crc32Ieee.ieee.
#[local] Existing Instance ZstdRaw.raw.
#[local] Existing Instance Crc32Ieee.ieee_laws.
#[local] Existing Instance ZstdRaw.raw_laws.
Import ReaderWitness.

(** An intact frame, a corrupt one, an intact one. *)
Definition walked : list RawFrame :=
  [mkRawFrame (crc32_hash (bstr "one")) (bstr "one"); mkRawFrame 7 (bstr "two");
   mkRawFrame (crc32_hash (bstr "three")) (bstr "three")].
Definition damaged : bytes := header ++ raws walked ++ SENTINEL.

Lemma recovery_reader_reads_past_witness :
  ∃ r, recovery_reader_open (Ok (mkStream damaged false, Ok (blen damaged))) = Ok r ∧
       rr_items r = [RRecord (bstr "one"); RSkipped 35 3 SkCrcMismatch; RRecord (bstr "three")].
Proof.
  replace [RRecord (bstr "one"); RSkipped 35 3 SkCrcMismatch; RRecord (bstr "three")]
    with (raw_items (sh_compression meta) SEGMENT_HEADER_LEN walked) by (vm_compute; reflexivity).
  apply (recovery_reader_reads_past header meta walked SENTINEL).
  - by vm_compute.
  - repeat (apply Forall_cons_2; [by vm_compute|]). apply Forall_nil_2.
  - right. exists []. split; [done|by left].
  - by vm_compute.
  - by vm_compute.
Defined.

Definition opened : RecoveryReader :=
  mkRecoveryReader (mkStream (raws walked ++ SENTINEL) false) meta SEGMENT_HEADER_LEN (blen damaged) false 0 None.

Lemma recovery_reader_accounts_witness :
  ∃ hb fs rest ending,
    damaged = hb ++ raws fs ++ rest ∧ blen hb = SEGMENT_HEADER_LEN ∧ Forall (raw_ok CNone) fs ∧
    rr_items opened = raw_items CNone SEGMENT_HEADER_LEN fs ++ ending ∧
    ((ending = [] ∧ clean_tail rest ∧ skip_budget 0 fs ≠ None) ∨
     (∃ off reason, ending = [RDesynced off reason] ∧ (reason = DsFramingLost ↔ skip_budget 0 fs = None))).
Proof.
  apply (recovery_reader_accounts (mkStream damaged false) opened); by vm_compute.
Defined.
End RecReaderWitness.
