(* ===== verification/Durable.v ===== *)
(** * What survives a crash

    The vocabulary of the durability theorems: a file is [linked] under one of the two
    names a segment has in its life whatever a crash does to the directory, and it
    [durably_holds] a byte string when that string is in its synced prefix. [fs_le]
    relates two states of the file system when the second one lost neither; every system
    call the writer makes is shown to be one of its steps. *)

From Stdlib Require Import ZArith Lia Strings.Byte String.
From stdpp Require Import base gmap list option sets.
From S2P Require Import Prelude Names Io Fs.

(** ** Directories *)

(** No directory disappears, and a durable one stays durable. *)
Definition dirs_le (m m' : gmap path bool) : Prop :=
  ∀ d b, m !! d = Some b → ∃ b', m' !! d = Some b' ∧ (b = true → b' = true).

#[export] Instance dirs_le_preorder : PreOrder dirs_le.
Proof.
  split.
  - intros m d b Hd. eauto.
  - intros m1 m2 m3 H12 H23 d b Hd. destruct (H12 d b Hd) as (b2 & H2 & I2). destruct (H23 d b2 H2) as (b3 & H3 & I3). eauto.
Qed.

Lemma elem_of_durable_dirs m d : d ∈ durable_dirs m ↔ m !! d = Some true.
Proof.
  unfold durable_dirs. rewrite elem_of_dom. split.
  - intros [b Hb]. apply map_lookup_filter_Some in Hb as [Hb ->]. done.
  - intros Hd. exists true. by apply map_lookup_filter_Some.
Qed.

Lemma dirs_le_durable m m' : dirs_le m m' → durable_dirs m ⊆ durable_dirs m'.
Proof.
  intros Hle d. rewrite !elem_of_durable_dirs. intros Hd. destruct (Hle d true Hd) as (b & Hb & I). by rewrite I in Hb.
Qed.

Lemma dirs_le_dom m m' d : dirs_le m m' → d ∈ dom m → d ∈ dom m'.
Proof. intros Hle. rewrite !elem_of_dom. intros [b Hb]. destruct (Hle d b Hb) as (b' & Hb' & _). by eexists. Qed.

Lemma reachable_mono kept kept' d : kept ⊆ kept' → reachable kept d → reachable kept' d.
Proof. intros Hs H. eapply Forall_impl; [exact H|]. intros e He. by apply Hs. Qed.

Lemma durable_dir_mono s s' d : dirs_le (fs_dirs s) (fs_dirs s') → durable_dir s d → durable_dir s' d.
Proof. intros Hle. apply reachable_mono, dirs_le_durable, Hle. Qed.

Lemma sync_subdirs_le d m : dirs_le m (sync_subdirs d m).
Proof.
  intros e b He. unfold sync_subdirs. rewrite map_lookup_imap, He. eexists. split; [done|]. by intros ->.
Qed.

Lemma union_dirs_le m m' : dirs_le m (m ∪ m').
Proof. intros d b Hd. exists b. split; [|done]. by apply lookup_union_Some_l. Qed.

Lemma ancestors_snoc d c : ancestors (d ++ [c]) = ancestors d ++ [d ++ [c]].
Proof.
  unfold ancestors. rewrite length_app, Nat.add_1_r, seq_S, map_app. f_equal.
  - apply list_eq. intros n. rewrite !list_lookup_fmap. destruct (seq 1 (length d) !! n) as [k|] eqn:E; [|done].
    apply lookup_seq in E as [-> E]. cbn. f_equal. by rewrite take_app_le by lia.
  - cbn [map]. f_equal. apply take_ge. rewrite length_app. cbn. lia.
Qed.

(** A directory is durable when its parent is and its own entry is. *)
Lemma durable_dir_snoc s d c :
  durable_dir s (d ++ [c]) ↔ durable_dir s d ∧ fs_dirs s !! (d ++ [c]) = Some true.
Proof.
  unfold durable_dir, reachable. by rewrite ancestors_snoc, Forall_app, Forall_singleton, elem_of_durable_dirs.
Qed.

Lemma ancestors_self d : d ≠ [] → d ∈ ancestors d.
Proof.
  destruct d as [|d c _] using rev_ind; [done|]. intros _. rewrite ancestors_snoc. set_solver.
Qed.

(** A durable directory and the names in it come back from every crash. *)
Lemma lookup_names_below kept m p : reachable kept (parent p) → names_below kept m !! p = m !! p.
Proof.
  intros Hr. unfold names_below. rewrite map_lookup_filter. destruct (m !! p); [|done]. cbn.
  by rewrite option_guard_True.
Qed.

Lemma crash_durable_dir s s' d : durable_dir s d → crash s s' → durable_dir s' d.
Proof.
  intros Hd ((ops & kept & _ & Hk & _ & Hdirs) & _). unfold durable_dir, reachable in *.
  apply Forall_forall. intros e He. apply elem_of_durable_dirs. rewrite Hdirs. unfold kept_dirs.
  apply lookup_gset_to_gmap_Some. split; [|done]. apply elem_of_filter.
  assert (Hin : ∀ x, x ∈ ancestors d → x ∈ durable_dirs (fs_dirs s)) by (by apply Forall_forall).
  split.
  - apply Forall_forall. intros x Hx. apply Hk, Hin.
    unfold ancestors in *. apply list_elem_of_fmap in He as (n & -> & Hn). apply elem_of_seq in Hn.
    apply list_elem_of_fmap in Hx as (k & -> & Hkk). apply elem_of_seq in Hkk.
    rewrite length_take in Hkk. apply list_elem_of_fmap. exists k. split.
    + rewrite take_take. f_equal. lia.
    + apply elem_of_seq. lia.
  - apply elem_of_dom. specialize (Hin e He). rewrite elem_of_durable_dirs in Hin. by eexists.
Qed.

(** ** Names *)

(** The file [i] is at its active name, or it has moved to its sealed name. *)
Definition seg_entry (m : gmap path inode) (a sl : path) (i : inode) : Prop :=
  m !! a = Some i ∨ (m !! a = None ∧ m !! sl = Some i).

(** A directory operation that cannot lose the file: the seal's rename, or one on other
    names. *)
Definition benign (a sl : path) (op : DirOp) : Prop :=
  op = OpRename a sl ∨
  match op with
  | OpLink p _ | OpUnlink p => p ≠ a ∧ p ≠ sl
  | OpRename p q => p ≠ a ∧ p ≠ sl ∧ q ≠ a ∧ q ≠ sl
  end.

Record linked (s : Fs) (a sl : path) (i : inode) : Prop := mkLinked {
  lk_neq : a ≠ sl;
  lk_parent : parent a = parent sl;
  lk_dir : durable_dir s (parent a);
  lk_live : seg_entry (fs_live s) a sl i;
  lk_stable : seg_entry (fs_stable s) a sl i;
  lk_pending : Forall (benign a sl) (fs_pending s);
}.

Lemma apply_op_entry m op a sl i :
  a ≠ sl → seg_entry m a sl i → benign a sl op → seg_entry (apply_op m op) a sl i.
Proof.
  intros Hne He [-> | Hb].
  - simpl. destruct He as [Ha|[Ha Hs]]; rewrite Ha.
    + right. rewrite lookup_insert_ne, lookup_delete_eq, lookup_insert_eq by done. done.
    + by right.
  - destruct op as [p j|p|p q]; simpl.
    + destruct Hb as [H1 H2]. unfold seg_entry. by rewrite !lookup_insert_ne.
    + destruct Hb as [H1 H2]. unfold seg_entry. by rewrite !lookup_delete_ne.
    + destruct Hb as (H1 & H2 & H3 & H4). destruct (m !! p); [|done]. unfold seg_entry.
      by rewrite !lookup_insert_ne, !lookup_delete_ne.
Qed.

Lemma apply_ops_entry m ops a sl i :
  a ≠ sl → seg_entry m a sl i → Forall (benign a sl) ops → seg_entry (foldl apply_op m ops) a sl i.
Proof.
  intros Hne He Hf. revert m He. induction Hf as [|op ops Hop Hf IH]; intros m He; [done|].
  simpl. apply IH. by apply apply_op_entry.
Qed.

(** Whatever the crash, a linked file is found under one of its two names. *)
Lemma crash_linked s s' a sl i : linked s a sl i → crash s s' → seg_entry (fs_live s') a sl i.
Proof.
  intros [Hne Hpar Hd _ Hst Hp] ((ops & kept & Hsub & Hk & Hs' & _) & -> & _). rewrite Hs'.
  apply (reachable_mono _ kept) in Hd; [|done]. unfold seg_entry. rewrite !lookup_names_below by congruence.
  apply apply_ops_entry; [done|done|]. apply Forall_forall. intros op Hop.
  rewrite Forall_forall in Hp. apply Hp. by eapply elem_of_sublist.
Qed.

(** ** Contents *)

Definition durably_holds (s : Fs) (i : inode) (l : bytes) : Prop :=
  ∃ n, fs_files s !! i = Some n ∧ l `prefix_of` durable_prefix n.

Lemma crash_holds s s' i l :
  durably_holds s i l → crash s s' →
  ∃ n tail, fs_files s' !! i = Some n ∧ f_data n = l ++ tail.
Proof.
  intros (n & Hn & [k Hk]) (_ & _ & _ & Hf & _). destruct (Hf i n Hn) as (n' & Hn' & [tail Ht] & _).
  exists n', (k ++ tail). split; [done|]. by rewrite Ht, Hk, app_assoc.
Qed.

Definition fs_wf (s : Fs) : Prop :=
  ∀ i n, fs_files s !! i = Some n → (i < fs_next s)%positive ∧ (f_synced n ≤ length (f_data n))%nat.

(** ** Steps that lose nothing *)

(** [s'] keeps every durable prefix of [s] and every linked file whose pair of names
    [own] does not contain. *)
Record fs_le (own : path → path → Prop) (s s' : Fs) : Prop := mkFsLe {
  le_wf : fs_wf s → fs_wf s';
  le_next : (fs_next s ≤ fs_next s')%positive;
  le_files : fs_wf s → ∀ i n, fs_files s !! i = Some n →
    ∃ n', fs_files s' !! i = Some n' ∧ durable_prefix n `prefix_of` durable_prefix n';
  le_linked : ∀ a sl i, ¬ own a sl → linked s a sl i → linked s' a sl i;
  le_dirs : dirs_le (fs_dirs s) (fs_dirs s');
}.

Definition no_path (a sl : path) : Prop := False.
(** The pairs that linking [p], respectively renaming [p] to [q], can break. *)
Definition link_own (p a sl : path) : Prop := a = p ∨ sl = p.
Definition rename_own (p q a sl : path) : Prop :=
  ¬ (a = p ∧ sl = q) ∧ (a = p ∨ a = q ∨ sl = p ∨ sl = q).

Lemma fs_le_refl own s : fs_le own s s.
Proof. constructor; [done|lia| |done|done]. intros _ i n Hn. by exists n. Qed.

Lemma fs_le_trans own s1 s2 s3 : fs_le own s1 s2 → fs_le own s2 s3 → fs_le own s1 s3.
Proof.
  intros [W1 N1 F1 L1 D1] [W2 N2 F2 L2 D2]. constructor; [auto|lia| |eauto|by etrans].
  intros Hwf i n Hn. destruct (F1 Hwf i n Hn) as (n' & Hn' & Hp).
  destruct (F2 (W1 Hwf) i n' Hn') as (n'' & Hn'' & Hp'). exists n''. split; [done|]. by etrans.
Qed.

Lemma fs_le_weaken (own own' : path → path → Prop) s s' :
  (∀ a sl, own a sl → own' a sl) → fs_le own s s' → fs_le own' s s'.
Proof. intros Ho [W N F L D]. constructor; [done..| |done]. intros a sl i Ha. apply L; auto. Qed.

Lemma fs_le_holds own s s' i l : fs_wf s → fs_le own s s' → durably_holds s i l → durably_holds s' i l.
Proof.
  intros Hwf [_ _ F _ _] (n & Hn & Hp). destruct (F Hwf i n Hn) as (n' & Hn' & Hp').
  exists n'. split; [done|]. by etrans.
Qed.

Lemma fs_le_linked s s' a sl i : fs_le no_path s s' → linked s a sl i → linked s' a sl i.
Proof. intros Hle. apply (le_linked _ _ _ Hle); intros []. Qed.

(** A change of the files alone, node by node. *)
Lemma fs_le_alter own s s' (f : FileNode → FileNode) i :
  (∀ n, (f_synced n ≤ length (f_data n))%nat →
        durable_prefix n `prefix_of` durable_prefix (f n) ∧
        (f_synced (f n) ≤ length (f_data (f n)))%nat) →
  s' = set_files (alter f i) s → fs_le own s s'.
Proof.
  intros Hf ->. constructor; simpl.
  - intros Hwf j n Hn. simpl in *. destruct (decide (i = j)) as [->|Hne].
    + rewrite lookup_alter_eq in Hn. destruct (fs_files s !! j) as [m|] eqn:E; [|done].
      simpl in Hn. injection Hn as <-. destruct (Hwf j m E). split; [done|]. by apply Hf.
    + rewrite lookup_alter_ne in Hn by done. by apply Hwf.
  - lia.
  - intros Hwf j n Hn. destruct (decide (i = j)) as [->|Hne].
    + exists (f n). rewrite lookup_alter_eq, Hn. split; [done|]. apply Hf. by destruct (Hwf j n Hn).
    + exists n. by rewrite lookup_alter_ne.
  - intros a sl j _ [H1 H2 H3 H4 H5 H6]. by constructor.
  - done.
Qed.

(** Consuming the tape changes nothing else. *)
Lemma pop_fault_spec w f w' :
  pop_fault w = (f, w') →
  fs_le no_path (w_fs w) (w_fs w') ∧
  fs_files (w_fs w') = fs_files (w_fs w) ∧ fs_live (w_fs w') = fs_live (w_fs w) ∧
  fs_stable (w_fs w') = fs_stable (w_fs w) ∧ fs_pending (w_fs w') = fs_pending (w_fs w) ∧
  fs_next (w_fs w') = fs_next (w_fs w) ∧ fs_dirs (w_fs w') = fs_dirs (w_fs w) ∧
  w_unix w' = w_unix w ∧ w_instant w' = w_instant w ∧ w_metrics w' = w_metrics w.
Proof.
  unfold pop_fault. destruct (fs_tape (w_fs w)) as [|g t]; intros [= <- <-].
  { split; [apply fs_le_refl|done]. }
  split; [|done]. constructor; simpl; [done|lia| | |done].
  - intros Hwf i n Hn. by exists n.
  - intros a sl i _ [H1 H2 H3 H4 H5 H6]. by constructor.
Qed.

(** Only the directory answers [NotFound]. *)
Lemma pop_fault_kind w n k w' : pop_fault w = (FErr n k, w') → k ≠ NotFound.
Proof.
  unfold pop_fault. destruct (fs_tape (w_fs w)) as [|f t]; [done|]. destruct f as [| |m e]; intros [= H _]; try done.
  by destruct e; injection H as <- <-.
Qed.

Lemma guarded_spec {A} (m : io A) w r w' :
  guarded m w = (r, w') →
  ∃ w1, fs_le no_path (w_fs w) (w_fs w1) ∧ fs_files (w_fs w1) = fs_files (w_fs w) ∧
        fs_live (w_fs w1) = fs_live (w_fs w) ∧ fs_stable (w_fs w1) = fs_stable (w_fs w) ∧
        fs_pending (w_fs w1) = fs_pending (w_fs w) ∧ fs_next (w_fs w1) = fs_next (w_fs w) ∧
        fs_dirs (w_fs w1) = fs_dirs (w_fs w) ∧
        w_unix w1 = w_unix w ∧ w_instant w1 = w_instant w ∧
        ((w' = w1 ∧ ∃ k, r = Err k) ∨ m w1 = (r, w')).
Proof.
  unfold guarded. destruct (pop_fault w) as [f w1] eqn:E.
  destruct (pop_fault_spec w f w1 E) as (Hle & H1 & H2 & H3 & H4 & H5 & H6 & H7 & H8 & H9).
  destruct f; intros Hm; exists w1; repeat (split; [done|]); eauto.
  injection Hm as <- <-. eauto.
Qed.

Lemma guarded_not_found {A} (m : io A) w w' :
  guarded m w = (Err NotFound, w') → ∃ w1, fs_live (w_fs w1) = fs_live (w_fs w) ∧
    fs_dirs (w_fs w1) = fs_dirs (w_fs w) ∧ fs_files (w_fs w1) = fs_files (w_fs w) ∧ m w1 = (Err NotFound, w').
Proof.
  unfold guarded. destruct (pop_fault w) as [f w1] eqn:E. pose proof (pop_fault_spec _ _ _ E) as (_ & F & L & _ & _ & _ & D & _).
  destruct f as [| |n k]; intros H; [exists w1; eauto..|]. injection H as -> _. by apply pop_fault_kind in E.
Qed.

(** ** The system calls of the writer *)

(** Same directories and clocks. *)
Definition same_dirs (w w' : World) : Prop :=
  fs_live (w_fs w') = fs_live (w_fs w) ∧ fs_stable (w_fs w') = fs_stable (w_fs w) ∧
  fs_pending (w_fs w') = fs_pending (w_fs w) ∧ fs_dirs (w_fs w') = fs_dirs (w_fs w).
Definition same_clock (w w' : World) : Prop :=
  w_unix w' = w_unix w ∧ w_instant w' = w_instant w.

Lemma same_dirs_refl w : same_dirs w w.
Proof. done. Qed.

Lemma same_dirs_trans w1 w2 w3 : same_dirs w1 w2 → same_dirs w2 w3 → same_dirs w1 w3.
Proof. intros (? & ? & ? & ?) (? & ? & ? & ?). repeat split; congruence. Qed.

Lemma linked_same_dirs w w' a sl i :
  same_dirs w w' → linked (w_fs w) a sl i → linked (w_fs w') a sl i.
Proof.
  intros (E1 & E2 & E3 & E4) [H1 H2 H3 H4 H5 H6]. constructor; try congruence.
  eapply durable_dir_mono; [|done]. by rewrite E4.
Qed.

Lemma append_node_durable b n :
  (f_synced n ≤ length (f_data n))%nat →
  durable_prefix n `prefix_of` durable_prefix (append_node b n) ∧
  (f_synced (append_node b n) ≤ length (f_data (append_node b n)))%nat.
Proof.
  intros Hs. unfold durable_prefix, append_node. cbn [f_data f_synced].
  rewrite take_app_le by done. rewrite length_app. split; [done|lia].
Qed.

Lemma write_all_spec i b w r w' :
  write_all i b w = (r, w') →
  ∃ b', fs_le no_path (w_fs w) (w_fs w') ∧ same_dirs w w' ∧ same_clock w w' ∧
        fs_next (w_fs w') = fs_next (w_fs w) ∧
        fs_files (w_fs w') = alter (append_node b') i (fs_files (w_fs w)) ∧
        (r = Ok tt → b' = b).
Proof.
  unfold write_all. destruct (pop_fault w) as [f w1] eqn:E.
  destruct (pop_fault_spec w f w1 E) as (Hle & H1 & H2 & H3 & H4 & H5 & H6 & H7 & H8 & H9).
  assert (Ha : ∀ b0, fs_le no_path (w_fs w) (w_fs (append_file i b0 w1))).
  { intros b0. eapply fs_le_trans; [done|]. eapply fs_le_alter; [|reflexivity].
    apply append_node_durable. }
  destruct f; intros [= <- <-]; eexists; (split; [apply Ha|]); unfold same_dirs, same_clock;
    simpl; rewrite H1, H2, H3, H4, H5, H6, H7, H8; by repeat split.
Qed.

Lemma write_vectored_spec i b w r w' :
  write_vectored i b w = (r, w') →
  ∃ b', fs_le no_path (w_fs w) (w_fs w') ∧ same_dirs w w' ∧ same_clock w w' ∧
        fs_next (w_fs w') = fs_next (w_fs w) ∧
        fs_files (w_fs w') = alter (append_node b') i (fs_files (w_fs w)) ∧
        (∀ n, r = Ok n → n = blen b → b' = b).
Proof.
  unfold write_vectored. destruct (pop_fault w) as [f w1] eqn:E.
  destruct (pop_fault_spec w f w1 E) as (Hle & H1 & H2 & H3 & H4 & H5 & H6 & H7 & H8 & H9).
  assert (Ha : ∀ b0, fs_le no_path (w_fs w) (w_fs (append_file i b0 w1))).
  { intros b0. eapply fs_le_trans; [done|]. eapply fs_le_alter; [|reflexivity].
    apply append_node_durable. }
  destruct f as [|k|k e]; intros [= <- <-]; eexists; (split; [apply Ha|]); unfold same_dirs, same_clock;
    simpl; rewrite H1, H2, H3, H4, H5, H6, H7, H8; repeat split; try done.
  intros n [= <-] Hn. unfold blen in Hn. rewrite length_take in Hn. apply take_ge. lia.
Qed.

Lemma sync_node_durable n :
  (f_synced n ≤ length (f_data n))%nat →
  durable_prefix n `prefix_of` durable_prefix (sync_node n) ∧
  (f_synced (sync_node n) ≤ length (f_data (sync_node n)))%nat.
Proof.
  intros Hs. unfold durable_prefix, sync_node. destruct (f_lost n); cbn [f_data f_synced]; [done|].
  rewrite firstn_all. split; [|lia]. exists (drop (f_synced n) (f_data n)). by rewrite take_drop.
Qed.

Lemma sync_file_spec i w r w' :
  sync_file i w = (r, w') →
  fs_le no_path (w_fs w) (w_fs w') ∧ same_dirs w w' ∧ same_clock w w' ∧
  fs_next (w_fs w') = fs_next (w_fs w) ∧
  fs_files (w_fs w') =
    alter (if is_ok r then sync_node else lose_node) i (fs_files (w_fs w)).
Proof.
  unfold sync_file. destruct (pop_fault w) as [f w1] eqn:E.
  destruct (pop_fault_spec w f w1 E) as (Hle & H1 & H2 & H3 & H4 & H5 & H6 & H7 & H8 & H9).
  destruct f; intros [= <- <-]; (split;
    [eapply fs_le_trans; [done|]; eapply fs_le_alter; [|reflexivity];
     first [apply sync_node_durable|done]|]);
    unfold same_dirs, same_clock; simpl; rewrite H1, H2, H3, H4, H5, H6, H7, H8; by repeat split.
Qed.

Lemma lookup_sync_entries d live stable p :
  sync_entries d live stable !! p = if decide (parent p = d) then live !! p else stable !! p.
Proof.
  unfold sync_entries. rewrite lookup_union, !map_lookup_filter.
  destruct (decide (parent p = d)) as [Hd|Hd].
  - destruct (live !! p), (stable !! p); simpl; repeat case_guard; simpl; try done; tauto.
  - destruct (live !! p), (stable !! p); simpl; repeat case_guard; simpl; try done; tauto.
Qed.

Lemma sync_dir_spec d w r w' :
  sync_dir d w = (r, w') →
  fs_le no_path (w_fs w) (w_fs w') ∧ same_clock w w' ∧
  fs_live (w_fs w') = fs_live (w_fs w) ∧ fs_files (w_fs w') = fs_files (w_fs w) ∧
  fs_next (w_fs w') = fs_next (w_fs w) ∧ dirs_le (fs_dirs (w_fs w)) (fs_dirs (w_fs w')) ∧
  (r = Ok tt → fs_dirs (w_fs w') = sync_subdirs d (fs_dirs (w_fs w)) ∧
   (∀ p, parent p = d → fs_stable (w_fs w') !! p = fs_live (w_fs w) !! p) ∧
   Forall (λ op, op_in_dir d op = false) (fs_pending (w_fs w'))).
Proof.
  unfold sync_dir. intros Hs. apply guarded_spec in Hs as
    (w1 & Hle & H1 & H2 & H3 & H4 & H5 & H6 & H7 & H8 & [[-> [k ->]]|Hm]); [by rewrite H6|].
  injection Hm as <- <-. unfold same_clock. simpl. split; [|repeat split; try done; try congruence].
  - eapply fs_le_trans; [done|]. constructor; simpl; [done|lia| | |apply sync_subdirs_le].
    + intros Hwf i n Hn. by exists n.
    + intros a sl i _ [L1 L2 LD L3 L4 L5]. constructor; simpl; [done|done| |done| |].
      * eapply durable_dir_mono, LD. apply sync_subdirs_le.
      * unfold seg_entry. rewrite !lookup_sync_entries, <-L2.
        destruct (decide (parent a = d)); done.
      * apply Forall_forall. intros op Hop. apply list_elem_of_filter in Hop as [_ Hop].
        rewrite Forall_forall in L5. by apply L5.
  - rewrite <-H6. apply sync_subdirs_le.
  - intros p Hp. rewrite lookup_sync_entries, decide_True by done. by rewrite H2.
  - apply Forall_forall. intros op Hop. by apply list_elem_of_filter in Hop as [Hop _].
Qed.

Lemma fsync_parent_dir_spec p w r w' :
  fsync_parent_dir p w = (r, w') →
  fs_le no_path (w_fs w) (w_fs w') ∧ same_clock w w' ∧
  fs_live (w_fs w') = fs_live (w_fs w) ∧ fs_files (w_fs w') = fs_files (w_fs w) ∧
  fs_next (w_fs w') = fs_next (w_fs w) ∧ dirs_le (fs_dirs (w_fs w)) (fs_dirs (w_fs w')) ∧
  (r = Ok tt → parent p ≠ [] → fs_dirs (w_fs w') = sync_subdirs (parent p) (fs_dirs (w_fs w)) ∧
   (∀ q, parent q = parent p → fs_stable (w_fs w') !! q = fs_live (w_fs w) !! q) ∧
   Forall (λ op, op_in_dir (parent p) op = false) (fs_pending (w_fs w'))).
Proof.
  unfold fsync_parent_dir. destruct (parent p) as [|c d] eqn:E.
  - intros [= <- <-]. split; [apply fs_le_refl|]. by repeat split.
  - intros Hs. apply sync_dir_spec in Hs as (? & ? & ? & ? & ? & ? & Hok).
    repeat (split; [done|]). intros Hr _. by apply Hok.
Qed.

(** Operations outside a directory do not touch the names in it. *)
Lemma op_outside_benign a sl op : parent a = parent sl → op_in_dir (parent a) op = false → benign a sl op.
Proof.
  intros Hp Ho. right. destruct op as [p j|p|p q]; simpl in *; b2p.
  - split; intros ->; congruence.
  - split; intros ->; congruence.
  - repeat split; intros ->; congruence.
Qed.

(** A created file whose directory has been synced is linked. *)
Lemma create_linked w w' a sl i r :
  a ≠ sl → parent a = parent sl → parent a ≠ [] → durable_dir (w_fs w) (parent a) →
  fs_live (w_fs w) !! a = Some i →
  fsync_parent_dir a w = (r, w') → r = Ok tt → linked (w_fs w') a sl i.
Proof.
  intros Hne Hp Hnil Hd Hl Hs ->.
  apply fsync_parent_dir_spec in Hs as (_ & _ & Hlive & _ & _ & Hle & Hok).
  destruct (Hok eq_refl Hnil) as (_ & Hst & Hpe). constructor; [done|done|by eapply durable_dir_mono| | |].
  - left. by rewrite Hlive.
  - left. rewrite Hst by done. done.
  - eapply Forall_impl; [done|]. intros op. by apply op_outside_benign.
Qed.

(** A new file under a new name. *)
Definition link_file (p : path) (node : FileNode) (s : Fs) : Fs :=
  log_op (OpLink p (fs_next s))
    (mkFs (fs_live s) (fs_stable s) (fs_pending s) (<[fs_next s := node]> (fs_files s))
       (Pos.succ (fs_next s)) (fs_dirs s) (fs_tape s)).

Lemma link_file_le p node s :
  fs_wf s → (f_synced node ≤ length (f_data node))%nat → fs_le (link_own p) s (link_file p node s).
Proof.
  intros Hwf Hnode. constructor; simpl.
  - intros _ i n Hn. simpl in *. destruct (decide (i = fs_next s)) as [->|Hne].
    + rewrite lookup_insert_eq in Hn. injection Hn as <-. split; [lia|done].
    + rewrite lookup_insert_ne in Hn by done. destruct (Hwf i n Hn). split; [lia|done].
  - lia.
  - intros _ i n Hn. exists n. split; [|done]. rewrite lookup_insert_ne; [done|].
    intros <-. destruct (Hwf _ _ Hn). lia.
  - intros a sl i Hown [L1 L2 LD L3 L4 L5].
    assert (a ≠ p ∧ sl ≠ p) as [Ha Hsl] by (unfold link_own in Hown; tauto).
    constructor; simpl; [done..| |done|].
    + unfold seg_entry. rewrite !lookup_insert_ne by congruence. done.
    + apply Forall_app. split; [done|]. constructor; [|done]. right. split; congruence.
  - done.
Qed.

Lemma create_new_spec p w r w' :
  create_new p w = (r, w') → fs_wf (w_fs w) →
  fs_le (link_own p) (w_fs w) (w_fs w') ∧ same_clock w w' ∧
  (∀ i, r = Ok i → i = fs_next (w_fs w) ∧ fs_live (w_fs w) !! p = None ∧
        fs_files (w_fs w') = <[i := mkFileNode [] 0 false]> (fs_files (w_fs w)) ∧
        fs_live (w_fs w') !! p = Some i).
Proof.
  unfold create_new. intros Hs Hwf. apply guarded_spec in Hs as
    (w1 & Hle & H1 & H2 & H3 & H4 & H5 & H6 & H7 & H8 & [[-> [k ->]]|Hm]).
  { split; [by eapply fs_le_weaken, Hle|]. done. }
  assert (Hle' : fs_le (link_own p) (w_fs w) (w_fs w1)) by (by eapply fs_le_weaken, Hle).
  destruct (fs_live (w_fs w1) !! p) as [j|] eqn:Ep; injection Hm as <- <-; [done|].
  split; [|split; [done|]].
  - eapply fs_le_trans; [done|]. pose proof (le_wf _ _ _ Hle Hwf) as Hwf1. by apply link_file_le.
  - simpl. intros i [= <-]. rewrite H5, H1. split; [done|]. split; [by rewrite <-H2|]. split; [done|].
    by rewrite lookup_insert_eq.
Qed.

Lemma rename_spec p q w r w' :
  rename p q w = (r, w') →
  fs_le (rename_own p q) (w_fs w) (w_fs w') ∧ same_clock w w' ∧
  fs_files (w_fs w') = fs_files (w_fs w) ∧ fs_next (w_fs w') = fs_next (w_fs w) ∧
  fs_dirs (w_fs w') = fs_dirs (w_fs w).
Proof.
  unfold rename. intros Hs. apply guarded_spec in Hs as
    (w1 & Hle & H1 & H2 & H3 & H4 & H5 & H6 & H7 & H8 & [[-> [k ->]]|Hm]).
  { split; [by eapply fs_le_weaken, Hle|]. done. }
  assert (Hle' : fs_le (rename_own p q) (w_fs w) (w_fs w1)) by (by eapply fs_le_weaken, Hle).
  destruct (fs_live (w_fs w1) !! p) as [j|] eqn:Ep; injection Hm as <- <-; [|done].
  simpl. split; [|done].
  eapply fs_le_trans; [done|]. constructor; simpl; [done|lia| | |done].
  - intros Hwf i n Hn. by exists n.
  - intros a sl i Hown [L1 L2 LD L3 L4 L5].
    assert (Hb : benign a sl (OpRename p q)).
    { destruct (decide (a = p ∧ sl = q)) as [[-> ->]|Hd]; [by left|]. right.
      unfold rename_own in Hown. repeat split; intros ->; apply Hown; tauto. }
    constructor; simpl; [done|done|done| |done|].
    + by apply (apply_op_entry _ (OpRename p q)).
    + apply Forall_app. split; [done|]. by constructor.
Qed.

Lemma try_exists_spec p w r w' :
  try_exists p w = (r, w') →
  fs_le no_path (w_fs w) (w_fs w') ∧ same_dirs w w' ∧ same_clock w w' ∧
  fs_files (w_fs w') = fs_files (w_fs w) ∧ fs_next (w_fs w') = fs_next (w_fs w) ∧
  (r = Ok false → fs_live (w_fs w) !! p = None).
Proof.
  unfold try_exists. intros Hs. apply guarded_spec in Hs as
    (w1 & Hle & H1 & H2 & H3 & H4 & H5 & H6 & H7 & H8 & [[-> [k ->]]|Hm]); [done|].
  injection Hm as <- <-. split; [done|]. split; [done|]. do 3 (split; [done|]).
  intros [= Hf]. apply orb_false_iff in Hf as [Hf _]. b2p. rewrite <-H2.
  by apply eq_None_not_Some.
Qed.
