(* ===== verification/Touch.v ===== *)
(** * What an operation leaves alone

    The drain rewrites sidecars, dead-letter files and names while segments that are not
    its business sit next to them. [touches own s s'] says that a step changed nothing
    outside the names of [own]: every other file keeps its name, its contents, its
    durable contents and its durable name, and no directory is lost. A [safe_file] is a file that comes back under
    its name with exactly its contents from every crash. *)

From Stdlib Require Import ZArith Lia Strings.Byte String.
From stdpp Require Import base gmap list option sets.
From S2P Require Import Prelude Names Io Fs Durable.

(** ** Files that survive as they are *)

(** Every name leads to a file, and no file has two names. *)
Definition fs_ok (s : Fs) : Prop :=
  fs_wf s ∧ (∀ p i, fs_live s !! p = Some i → is_Some (fs_files s !! i)) ∧
  (∀ p q i, fs_live s !! p = Some i → fs_live s !! q = Some i → p = q).

Definition op_avoids (p : path) (op : DirOp) : Prop :=
  match op with
  | OpLink q _ | OpUnlink q => q ≠ p
  | OpRename q r => q ≠ p ∧ r ≠ p
  end.

(** Whatever a crash does to the directory, [p] names [i]. *)
Record pinned (s : Fs) (p : path) (i : inode) : Prop := mkPinned {
  pn_live : fs_live s !! p = Some i;
  pn_stable : fs_stable s !! p = Some i;
  pn_pending : Forall (op_avoids p) (fs_pending s);
  pn_dir : durable_dir s (parent p);
}.

Definition safe_file (s : Fs) (p : path) (b : bytes) : Prop :=
  ∃ i n, pinned s p i ∧ fs_files s !! i = Some n ∧ f_data n = b ∧ f_synced n = length b.

Lemma apply_op_avoids m op p : op_avoids p op → apply_op m op !! p = m !! p.
Proof.
  destruct op as [q j|q|q r]; cbn; [intros ?; by apply lookup_insert_ne|intros ?; by apply lookup_delete_ne|].
  intros [? ?]. destruct (m !! q); [|done]. by rewrite lookup_insert_ne, lookup_delete_ne.
Qed.

Lemma apply_ops_avoid m ops p : Forall (op_avoids p) ops → foldl apply_op m ops !! p = m !! p.
Proof.
  intros H. revert m. induction H as [|op ops Ho H IH]; intros m; [done|]. cbn [foldl].
  by rewrite IH, apply_op_avoids.
Qed.

(** A safe file comes back from every crash under its name, with its contents, and safe. *)
Lemma crash_safe s s' p b :
  safe_file s p b → b ≠ [] → crash s s' →
  safe_file s' p b.
Proof.
  intros (i & n & [Hl Hs Hp Hdir] & Hn & Hd & Hsy) Hb Hcr. pose proof (crash_durable_dir _ _ _ Hdir Hcr) as Hdir'.
  destruct Hcr as ((ops & kept & Hsub & Hk & Hst & _) & Hlive & Hpend & Hf & _).
  destruct (Hf i n Hn) as (n' & Hn' & _ & Hs' & _ & Hall). exists i, n'.
  assert (Hst' : fs_stable s' !! p = Some i).
  { rewrite Hst, lookup_names_below by (by eapply reachable_mono). rewrite apply_ops_avoid; [done|]. apply Forall_forall. intros op Hop.
    rewrite Forall_forall in Hp. apply Hp. by eapply elem_of_sublist. }
  rewrite Hd in Hall. specialize (Hall Hb Hsy).
  split; [constructor; [congruence|done|by rewrite Hpend|done]|]. split; [done|]. split; [done|congruence].
Qed.

(** ** Steps *)

Record touched (own : path → Prop) (s s' : Fs) : Prop := mkTouched {
  tc_ok : fs_ok s';
  tc_live : ∀ p, ¬ own p → fs_live s' !! p = fs_live s !! p;
  tc_data : ∀ p i n, ¬ own p → fs_live s !! p = Some i → fs_files s !! i = Some n →
    ∃ n', fs_files s' !! i = Some n' ∧ f_data n' = f_data n;
  tc_safe : ∀ p b, ¬ own p → safe_file s p b → safe_file s' p b;
  tc_seg : ∀ a sl i l, ¬ own a → ¬ own sl → linked s a sl i → durably_holds s i l →
    linked s' a sl i ∧ durably_holds s' i l;
  tc_dirs : dirs_le (fs_dirs s) (fs_dirs s');
}.

Definition touches (own : path → Prop) (s s' : Fs) : Prop := fs_ok s → touched own s s'.

#[export] Instance touches_preorder own : PreOrder (touches own).
Proof.
  split.
  - intros s Hok. constructor; [done|done| |done|done|done]. intros p i n _ _ Hn. by exists n.
  - intros s1 s2 s3 H12 H23 Hok. destruct (H12 Hok) as [O1 L1 D1 S1 G1 E1]. destruct (H23 O1) as [O2 L2 D2 S2 G2 E2].
    constructor; [done| | |by auto| |by etrans].
    + intros p Hp. by rewrite L2, L1.
    + intros p i n Hp Hl Hn. destruct (D1 p i n Hp Hl Hn) as (n1 & Hn1 & <-). by apply (D2 p); [|rewrite L1|].
    + intros a sl i l Ha Hs Hl Hh. destruct (G1 a sl i l Ha Hs Hl Hh). by apply G2.
Qed.

Lemma touches_weaken (own own' : path → Prop) s s' :
  (∀ p, own p → own' p) → touches own s s' → touches own' s s'.
Proof.
  intros H T Hok. destruct (T Hok) as [O L D S G E]. constructor; [done|..|done]; intros; [apply L|eapply D|apply S|apply G];
    eauto.
Qed.

(** The live names of [linked] files. *)
Lemma linked_live s a sl i : linked s a sl i → ∃ p, (p = a ∨ p = sl) ∧ fs_live s !! p = Some i.
Proof. intros [_ _ _ [H|[_ H]] _ _]; eauto. Qed.

(** A change of files only: the files behind names outside [own] keep their contents, and
    lose nothing durable. *)
Lemma touches_files own s s' :
  fs_live s' = fs_live s → fs_stable s' = fs_stable s → fs_pending s' = fs_pending s →
  fs_next s' = fs_next s → dirs_le (fs_dirs s) (fs_dirs s') →
  (fs_wf s → fs_wf s') →
  (∀ i, is_Some (fs_files s !! i) → is_Some (fs_files s' !! i)) →
  (fs_ok s → ∀ p i n, ¬ own p → fs_live s !! p = Some i → fs_files s !! i = Some n →
     ∃ n', fs_files s' !! i = Some n' ∧ f_data n' = f_data n ∧
       (f_synced n' = f_synced n ∨ f_synced n' = length (f_data n))) →
  touches own s s'.
Proof.
  intros Hl Hst Hp Hnx Hle Hwf Hsome Hf Hok. specialize (Hf Hok). destruct Hok as (Ok1 & Ok2 & Ok3). constructor; [..|done].
  - split; [by apply Hwf|]. rewrite Hl. split; [|done]. intros p i Hi. by eapply Hsome, Ok2.
  - intros p _. by rewrite Hl.
  - intros p i n Hn Hi Hn'. destruct (Hf p i n Hn Hi Hn') as (n' & ? & ? & _). eauto.
  - intros p b Hn (i & n & [P1 P2 P3 P4] & Hi & Hd & Hs). destruct (Hf p i n Hn P1 Hi) as (n' & Hn' & Hd' & Hs').
    exists i, n'. split; [constructor; try congruence; by eapply durable_dir_mono|]. split; [done|]. split; [congruence|]. destruct Hs'; congruence.
  - intros a sl i l Ha Hsl Hlk (n & Hn & Hpre). destruct (linked_live _ _ _ _ Hlk) as (p & Hpp & Hpl).
    destruct (Hf p i n) as (n' & Hn' & Hd' & Hs'); [destruct Hpp; congruence|done|done|].
    destruct Hlk as [K1 K2 KD K3 K4 K5]. split; [constructor; try congruence; by eapply durable_dir_mono|]. exists n'. split; [done|].
    etrans; [exact Hpre|]. unfold durable_prefix. rewrite Hd'.
    destruct Hs' as [->| ->]; [done|]. rewrite firstn_all. apply prefix_take.
Qed.

Lemma touches_same own w w' :
  same_dirs w w' → fs_files (w_fs w') = fs_files (w_fs w) → fs_next (w_fs w') = fs_next (w_fs w) →
  touches own (w_fs w) (w_fs w').
Proof.
  intros (E1 & E2 & E3 & E4) Ef En. apply touches_files; try done.
  - by rewrite E4.
  - unfold fs_wf. by rewrite Ef, En.
  - by rewrite Ef.
  - intros _ p i n _ _ Hn. exists n. rewrite Ef. auto.
Qed.

Lemma pop_fault_touches own w f w' : pop_fault w = (f, w') → touches own (w_fs w) (w_fs w').
Proof.
  intros (_ & H1 & H2 & H3 & H4 & H5 & H6 & _)%pop_fault_spec. by apply touches_same.
Qed.

Lemma guarded_touches {A} own (m : io A) w r w' :
  guarded m w = (r, w') → (∀ w1 r', m w1 = (r', w') → touches own (w_fs w1) (w_fs w')) →
  touches own (w_fs w) (w_fs w').
Proof.
  unfold guarded. destruct (pop_fault w) as [f w1] eqn:E. apply (pop_fault_touches own) in E.
  intros H Hm. destruct f; [etrans; [done|by eapply Hm]..|by injection H as _ <-].
Qed.

(** ** System calls *)

(** A change of one file that [own] names. *)
Lemma touches_alter own p i (f : FileNode → FileNode) s s' :
  s' = set_files (alter f i) s → own p → fs_live s !! p = Some i →
  (∀ n, (f_synced n ≤ length (f_data n))%nat → (f_synced (f n) ≤ length (f_data (f n)))%nat) →
  touches own s s'.
Proof.
  intros -> Hp Hi Hf. apply touches_files; try done; cbn [fs_files set_files].
  - intros Hwf j n. cbn. intros Hn. destruct (decide (i = j)) as [->|].
    + rewrite lookup_alter_eq in Hn. destruct (fs_files s !! j) as [m|] eqn:E; [|done].
      injection Hn as <-. destruct (Hwf j m E). split; [done|]. by apply Hf.
    + rewrite lookup_alter_ne in Hn by done. by apply Hwf.
  - intros j. destruct (decide (i = j)) as [->|]; [|by rewrite lookup_alter_ne].
    rewrite lookup_alter_eq. intros [m ->]. by eexists.
  - intros (_ & _ & Hinj) q j n Hq Hj Hn. exists n. rewrite lookup_alter_ne; [auto|]. intros ->.
    apply Hq. by rewrite (Hinj q p j).
Qed.

Lemma write_all_touches own p i b w r w' :
  write_all i b w = (r, w') → own p → fs_live (w_fs w) !! p = Some i → touches own (w_fs w) (w_fs w').
Proof.
  unfold write_all. destruct (pop_fault w) as [f w1] eqn:E. intros H Hp Hi.
  pose proof (pop_fault_spec _ _ _ E) as (_ & _ & H2 & _). apply (pop_fault_touches own) in E.
  assert (Ha : ∀ b0, touches own (w_fs w) (w_fs (append_file i b0 w1))).
  { intros b0. etrans; [done|]. eapply (touches_alter own p i); [done|done|by rewrite H2|].
    intros n Hn. by apply append_node_durable. }
  destruct f; injection H as _ <-; apply Ha.
Qed.

Lemma write_vectored_touches own p i b w r w' :
  write_vectored i b w = (r, w') → own p → fs_live (w_fs w) !! p = Some i → touches own (w_fs w) (w_fs w').
Proof.
  unfold write_vectored. destruct (pop_fault w) as [f w1] eqn:E. intros H Hp Hi.
  pose proof (pop_fault_spec _ _ _ E) as (_ & _ & H2 & _). apply (pop_fault_touches own) in E.
  assert (Ha : ∀ b0, touches own (w_fs w) (w_fs (append_file i b0 w1))).
  { intros b0. etrans; [done|]. eapply (touches_alter own p i); [done|done|by rewrite H2|].
    intros n Hn. by apply append_node_durable. }
  destruct f; injection H as _ <-; apply Ha.
Qed.

Lemma sync_file_touches own i w r w' : sync_file i w = (r, w') → touches own (w_fs w) (w_fs w').
Proof.
  intros (Hle & (L & S & P & _) & _ & Hn & Hf)%sync_file_spec. apply touches_files; try done.
  - apply (le_dirs _ _ _ Hle).
  - apply (le_wf _ _ _ Hle).
  - intros j. rewrite Hf. destruct (decide (i = j)) as [->|]; [|by rewrite lookup_alter_ne].
    rewrite lookup_alter_eq. intros [m ->]. by eexists.
  - intros _ q j n _ _ Hj. rewrite Hf. destruct (decide (i = j)) as [->|]; [|rewrite lookup_alter_ne; eauto].
    rewrite lookup_alter_eq, Hj. eexists. split; [done|]. destruct (is_ok r); cbn; [|auto].
    unfold sync_node. destruct (f_lost n); cbn; auto.
Qed.

Lemma sync_dir_touches own d w r w' : sync_dir d w = (r, w') → touches own (w_fs w) (w_fs w').
Proof.
  unfold sync_dir. intros H. eapply guarded_touches; [exact H|]. clear H. intros w1 r' [= _ <-] (O1 & O2 & O3). cbn.
  constructor; cbn; [done|done| | | |apply sync_subdirs_le].
  - intros p i n _ _ Hn. by exists n.
  - intros p b _ (i & n & [P1 P2 P3 P4] & Hn & Hd & Hs). exists i, n. split; [|done].
    constructor; cbn; [done| | |eapply durable_dir_mono, P4; apply sync_subdirs_le].
    + rewrite lookup_sync_entries. by destruct (decide _).
    + apply Forall_forall. intros op [_ Hop]%list_elem_of_filter. rewrite Forall_forall in P3. by apply P3.
  - intros a sl i l _ _ [L1 L2 LD L3 L4 L5] Hh. split; [|done].
    constructor; cbn; [done|done|eapply durable_dir_mono, LD; apply sync_subdirs_le|done| |].
    + unfold seg_entry. rewrite !lookup_sync_entries, <-L2. by destruct (decide _).
    + apply Forall_forall. intros op [_ Hop]%list_elem_of_filter. rewrite Forall_forall in L5. by apply L5.
Qed.

Lemma fsync_parent_touches own p w r w' : fsync_parent_dir p w = (r, w') → touches own (w_fs w) (w_fs w').
Proof.
  unfold fsync_parent_dir. destruct (parent p); [by intros [= _ <-]|apply sync_dir_touches].
Qed.

(** A directory operation on names of [own]. *)
Lemma touches_op own op s :
  (∀ p, ¬ own p → op_avoids p op) → fs_ok (log_op op s) → touches own s (log_op op s).
Proof.
  intros Hav Hok' Hok. constructor; cbn; [done| | | | |done].
  - intros p Hp. by apply apply_op_avoids, Hav.
  - intros p i n _ _ Hn. by exists n.
  - intros p b Hp (i & n & [P1 P2 P3 P4] & Hn). exists i, n. split; [|done]. constructor; cbn; [|done| |done].
    + by rewrite apply_op_avoids by by apply Hav.
    + apply Forall_app. split; [done|]. constructor; [by apply Hav|done].
  - intros a sl i l Ha Hsl [L1 L2 LD L3 L4 L5] Hh. split; [|done].
    assert (Hb : benign a sl op).
    { right. apply Hav in Ha, Hsl. destruct op; cbn in *; [done|done|]. destruct Ha, Hsl. done. }
    constructor; cbn; [done|done|done| |done|].
    + by apply apply_op_entry.
    + apply Forall_app. split; [done|]. by constructor.
Qed.

Lemma fs_ok_rename p q s : fs_ok s → fs_ok (log_op (OpRename p q) s).
Proof.
  intros (O1 & O2 & O3). split; [done|]. cbn. destruct (fs_live s !! p) as [i|] eqn:Ep; [|done]. split.
  - intros r j. destruct (decide (q = r)) as [->|]; [rewrite lookup_insert_eq; intros [= <-]; by eapply O2|].
    rewrite lookup_insert_ne by done. intros [_ ?]%lookup_delete_Some. by eapply O2.
  - intros r t j Hr Ht. rewrite lookup_insert_Some in Hr. rewrite lookup_insert_Some in Ht.
    rewrite lookup_delete_Some in Hr. rewrite lookup_delete_Some in Ht.
    destruct Hr as [[<- <-]|(Hq & Hp & Hr)], Ht as [[<- Hj]|(Hq' & Hp' & Ht)]; [done|..].
    + by destruct Hp'; apply (O3 p t i).
    + subst j. by destruct Hp; apply (O3 p r i).
    + by apply (O3 r t j).
Qed.

Lemma rename_touches (own : path → Prop) p q w r w' :
  rename p q w = (r, w') → own p → own q → touches own (w_fs w) (w_fs w').
Proof.
  unfold rename. intros H Hp Hq. eapply guarded_touches; [exact H|]. clear H. intros w1 r'. cbv beta zeta.
  destruct (fs_live (w_fs w1) !! p); intros [= _ <-]; [|done]. intros Hok. cbn.
  apply touches_op; [|by apply fs_ok_rename|done]. intros a Ha. split; by intros ->.
Qed.

Lemma remove_touches (own : path → Prop) p w r w' :
  remove_file p w = (r, w') → own p → touches own (w_fs w) (w_fs w').
Proof.
  unfold remove_file. intros H Hp. eapply guarded_touches; [exact H|]. clear H. intros w1 r'. cbv beta zeta.
  destruct (fs_live (w_fs w1) !! p); intros [= _ <-]; [|done]. intros Hok. cbn.
  apply touches_op; [intros a Ha; by intros ->| |done].
  destruct Hok as (O1 & O2 & O3). split; [done|]. cbn. split.
  - intros q j [_ ?]%lookup_delete_Some. by eapply O2.
  - intros q t j [_ Hq]%lookup_delete_Some [_ Ht]%lookup_delete_Some. by apply (O3 q t j).
Qed.

Lemma link_touches (own : path → Prop) p node s :
  own p → fs_live s !! p = None → (f_synced node ≤ length (f_data node))%nat →
  touches own s (link_file p node s).
Proof.
  intros Hp Hn Hs Hok. pose proof Hok as (O1 & O2 & O3).
  assert (Hfresh : fs_files s !! fs_next s = None).
  { destruct (fs_files s !! fs_next s) as [m|] eqn:E; [|done]. destruct (O1 _ _ E). lia. }
  assert (Hlive : ∀ q i, fs_live s !! q = Some i → i ≠ fs_next s).
  { intros q i Hq ->. destruct (O2 _ _ Hq). congruence. }
  assert (Hmid : touches own s (mkFs (fs_live s) (fs_stable s) (fs_pending s)
            (<[fs_next s := node]> (fs_files s)) (Pos.succ (fs_next s)) (fs_dirs s) (fs_tape s))).
  { intros _. constructor; cbn; [|done|..|done].
    - split; [|split; [|done]].
      + intros i n. cbn. destruct (decide (fs_next s = i)) as [<-|].
        * rewrite lookup_insert_eq. intros [= <-]. split; [lia|done].
        * rewrite lookup_insert_ne by done. intros Hi. destruct (O1 _ _ Hi). split; [lia|done].
      + intros q i Hq. cbn in *. destruct (decide (fs_next s = i)) as [<-|].
        * rewrite lookup_insert_eq. by eexists.
        * rewrite lookup_insert_ne by done. by eapply O2.
    - intros q i n _ Hq Hi. exists n. rewrite lookup_insert_ne; [done|]. intros <-. congruence.
    - intros q b _ (i & n & P & Hi & ?). exists i, n. split; [by destruct P|]. split; [|done].
      cbn. rewrite lookup_insert_ne; [done|]. intros <-. congruence.
    - intros a sl i l _ _ L (n & Hi & ?). split; [by destruct L|]. exists n. split; [|done].
      cbn. rewrite lookup_insert_ne; [done|]. intros <-. congruence. }
  revert Hok. change (touches own s (link_file p node s)). etrans; [exact Hmid|]. intros Hok'.
  apply touches_op; [intros a Ha; by intros ->| |done].
  destruct Hok' as (P1 & P2 & P3). split; [done|]. cbn in *. split.
  - intros q i. destruct (decide (p = q)) as [->|].
    + rewrite lookup_insert_eq. intros [= <-]. rewrite lookup_insert_eq. by eexists.
    + rewrite lookup_insert_ne by done. by apply P2.
  - intros q t j. rewrite !lookup_insert_Some. intros [[<- <-]|[? Hq]] [[<- ?]|[? Ht]]; [done|..].
    + by destruct (Hlive t (fs_next s)).
    + subst. by destruct (Hlive q (fs_next s)).
    + by apply (P3 q t j).
Qed.

Lemma create_new_touches (own : path → Prop) p w r w' :
  create_new p w = (r, w') → own p → touches own (w_fs w) (w_fs w').
Proof.
  unfold create_new. intros H Hp. eapply guarded_touches; [exact H|]. clear H. intros w1 r'. cbv beta zeta.
  destruct (fs_live (w_fs w1) !! p) eqn:E; intros [= _ <-]; [done|].
  apply (link_touches own p (mkFileNode [] 0 false)); [done|done|done].
Qed.

Lemma open_truncate_touches (own : path → Prop) p w r w' :
  open_truncate p w = (r, w') → own p → touches own (w_fs w) (w_fs w').
Proof.
  unfold open_truncate. intros H Hp. eapply guarded_touches; [exact H|]. clear H. intros w1 r'. cbv beta zeta.
  destruct (bool_decide _); [by intros [= _ <-]|].
  destruct (fs_live (w_fs w1) !! p) as [i|] eqn:E; intros [= _ <-].
  - intros Hok. pose proof Hok as (_ & O2 & _). destruct (O2 _ _ E) as [n Hn]. revert Hok.
    eapply (touches_alter own p i (λ _, mkFileNode [] 0 false)); [|done|done|done].
    cbn. unfold set_files. cbn. f_equal. apply map_eq. intros j. destruct (decide (i = j)) as [->|].
    + by rewrite lookup_insert_eq, lookup_alter_eq, Hn.
    + by rewrite lookup_insert_ne, lookup_alter_ne.
  - apply (link_touches own p (mkFileNode [] 0 false)); [done|done|done].
Qed.

Lemma create_dir_touches own d w r w' : create_dir_all d w = (r, w') → touches own (w_fs w) (w_fs w').
Proof.
  unfold create_dir_all. intros H. eapply guarded_touches; [exact H|]. clear H. intros w1 r' [= _ <-].
  apply touches_files; try done; [apply union_dirs_le|]. intros _ p i n _ _ Hn. exists n. auto.
Qed.

(** A file that was written and synced as a whole, under a name of a durable directory that
    has been synced, is safe. *)
Lemma synced_safe w w' p i n :
  fs_live (w_fs w) !! p = Some i → fs_files (w_fs w) !! i = Some n → f_synced n = length (f_data n) →
  parent p ≠ [] → durable_dir (w_fs w) (parent p) → fsync_parent_dir p w = (Ok tt, w') → safe_file (w_fs w') p (f_data n).
Proof.
  intros Hl Hn Hs Hp Hdir H. apply fsync_parent_dir_spec in H as (_ & _ & L & F & _ & Hle & Hok).
  destruct (Hok eq_refl Hp) as (_ & Hst & Hpe). exists i, n. split; [|by rewrite F].
  constructor; [congruence|by rewrite Hst| |by eapply durable_dir_mono]. eapply Forall_impl; [exact Hpe|]. intros op Ho.
  destruct op; cbn in *; b2p; [by intros ->|by intros ->|by split; intros ->].
Qed.
