(* ===== verification/Segment.v ===== *)
(** * Segment writer (weir-server, wab/segment.rs)

    [WabSegment] (create, append, fsync, seal) and [ShardWriter] (lazy open, compression,
    rotation, the classification of write failures) of
    crates/weir-server/src/wab/segment.rs over the file system of [Fs]. Counters are
    unbounded integers: the source panics on a [u64] overflow, which takes 2^64 bytes or
    records in one segment. *)

From Stdlib Require Import ZArith Lia Strings.Byte String.
From stdpp Require Import base gmap list option.
From S2P Require Import Prelude Deps Wire Text Names Io Fs Durable Format Reader.

Section Writer.
Context {CRC : Crc32} {ZS : Zstd}.

(** ** WabSegment *)

Record WabSegment := mkWabSegment {
  seg_file : inode;
  seg_path : path;
  seg_bytes_written : Z;
  seg_record_count : Z;
  seg_data_bytes : Z;
  seg_file_crc_hasher : hasher;
  seg_compression : Compression;
  seg_poisoned : bool;
}.

(** [WabSegment::create]. *)
Definition wab_segment_create (p : path) (shard_id : Z) (c : Compression) : io WabSegment :=
  let! file := create_new p in λ w,
  let header := build_segment_header shard_id c (unix_nanos_now (w_unix w)) in
  let h := hasher_update hasher_new header in
  let seg := mkWabSegment file p SEGMENT_HEADER_LEN 0 0 h c false in
  (let! _ := write_all file header in
   let! _ := fsync_parent_dir p in
   io_ok seg) w.

Definition RECORD_OVERHEAD : Z := 8.

Definition poison (seg : WabSegment) : WabSegment :=
  mkWabSegment (seg_file seg) (seg_path seg) (seg_bytes_written seg) (seg_record_count seg)
    (seg_data_bytes seg) (seg_file_crc_hasher seg) (seg_compression seg) true.

(** [WabSegment::write_record] of the stored form of a record. *)
Definition wab_segment_write_record (seg : WabSegment) (payload : bytes) (w : World)
    : result unit ErrorKind * WabSegment * World :=
  if seg_poisoned seg then (Err OtherError, seg, w) else
  if blen payload =? 0 then (Err InvalidInput, seg, w) else
  if u32_max <? blen payload then (Err InvalidInput, seg, w) else
  if stored_cap (seg_compression seg) <? blen payload then (Err InvalidInput, seg, w) else
  let crc32 := crc32_hash payload in
  let len_bytes := le_bytes 4 (blen payload) in
  let crc_bytes := le_bytes 4 crc32 in
  let total := blen len_bytes + blen crc_bytes + blen payload in
  match write_vectored (seg_file seg) (len_bytes ++ crc_bytes ++ payload) w with
  | (Err e, w) => (Err e, poison seg, w)
  | (Ok n, w) =>
    if n =? total then
      let h := seg_file_crc_hasher seg in
      let h := hasher_update (hasher_update (hasher_update h len_bytes) crc_bytes) payload in
      (Ok tt,
       mkWabSegment (seg_file seg) (seg_path seg)
         (seg_bytes_written seg + RECORD_OVERHEAD + blen payload)
         (seg_record_count seg + 1) (seg_data_bytes seg + blen payload) h
         (seg_compression seg) false, w)
    else (Err WriteZero, poison seg, w)
  end.

(** [WabSegment::fsync] is [platform_fsync] of the file. *)
Definition wab_segment_fsync (seg : WabSegment) : io unit := sync_file (seg_file seg).

(** [WabSegment::should_rotate]. *)
Definition wab_segment_should_rotate (seg : WabSegment) (max_bytes : Z) : bool :=
  max_bytes <=? seg_bytes_written seg.

(** [WabSegment::finalize_to_disk]. *)
Definition wab_segment_finalize_to_disk (seg : WabSegment) : io path := λ w,
  let sealed_at := unix_nanos_now (w_unix w) in
  let file_crc32 := hasher_finalize (seg_file_crc_hasher seg) in
  (let! _ := write_all (seg_file seg) build_sentinel in
   let footer := build_segment_footer (seg_record_count seg) (seg_data_bytes seg) file_crc32 sealed_at in
   let! _ := write_all (seg_file seg) footer in
   let! _ := sync_file (seg_file seg) in
   io_ok (seg_path seg)) w.

(** [WabSegment::seal]. *)
Definition wab_segment_seal (seg : WabSegment) : io path :=
  let! active_path := wab_segment_finalize_to_disk seg in
  let sealed_path := sealed_path_for active_path in
  let! exists_ := try_exists sealed_path in
  if exists_ : bool then io_err AlreadyExists else
  let! _ := rename active_path sealed_path in
  let! _ := fsync_parent_dir sealed_path in
  io_ok sealed_path.

(** ** ShardWriter *)

Inductive WriteFailure := RecordRejected | SegmentDropped.

Record ShardWriter := mkShardWriter {
  sw_shard_id : Z;
  sw_shard_dir : path;
  sw_next_counter : Z;
  sw_segment_max_bytes : Z;
  sw_active : option WabSegment;
  sw_active_opened_at : Z;
  sw_active_path : option path;
  sw_active_records : Z;
  sw_compression : Compression;
  sw_compression_level : Z;
  sw_last_write_failure : option WriteFailure;
}.

(** [ShardWriter::last_write_failure]. *)
Definition last_write_failure (sw : ShardWriter) : WriteFailure :=
  default SegmentDropped (sw_last_write_failure sw).

(** [ShardWriter::new_with_store] over [FsSegmentStore]. *)
Definition shard_writer_new (shard_id : Z) (shard_dir : path) (segment_max_bytes : Z)
    (c : Compression) (level : Z) (w : World) : ShardWriter :=
  mkShardWriter shard_id shard_dir 1 segment_max_bytes None (w_instant w) None 0 c level None.

Definition sw_set_active (sw : ShardWriter) (a : option WabSegment) (p : option path) : ShardWriter :=
  mkShardWriter (sw_shard_id sw) (sw_shard_dir sw) (sw_next_counter sw) (sw_segment_max_bytes sw)
    a (sw_active_opened_at sw) p (sw_active_records sw) (sw_compression sw)
    (sw_compression_level sw) (sw_last_write_failure sw).

Definition sw_set_failure (sw : ShardWriter) (f : option WriteFailure) : ShardWriter :=
  mkShardWriter (sw_shard_id sw) (sw_shard_dir sw) (sw_next_counter sw) (sw_segment_max_bytes sw)
    (sw_active sw) (sw_active_opened_at sw) (sw_active_path sw) (sw_active_records sw)
    (sw_compression sw) (sw_compression_level sw) f.

Definition sw_set_records (sw : ShardWriter) (n : Z) : ShardWriter :=
  mkShardWriter (sw_shard_id sw) (sw_shard_dir sw) (sw_next_counter sw) (sw_segment_max_bytes sw)
    (sw_active sw) (sw_active_opened_at sw) (sw_active_path sw) n
    (sw_compression sw) (sw_compression_level sw) (sw_last_write_failure sw).

Definition sw_set_next (sw : ShardWriter) (n : Z) : ShardWriter :=
  mkShardWriter (sw_shard_id sw) (sw_shard_dir sw) n (sw_segment_max_bytes sw)
    (sw_active sw) (sw_active_opened_at sw) (sw_active_path sw) (sw_active_records sw)
    (sw_compression sw) (sw_compression_level sw) (sw_last_write_failure sw).

(** [FsSegmentStore::segment_counters]. *)
Definition segment_counters (dir : path) : io (list Z) :=
  let! entries := read_dir dir in io_ok (omap segment_counter_from_path entries).

(** [ShardWriter::scan_and_advance_counter]. *)
Definition scan_and_advance_counter (sw : ShardWriter) (w : World)
    : result unit ErrorKind * ShardWriter * World :=
  match segment_counters (sw_shard_dir sw) w with
  | (Err e, w) => (Err e, sw, w)
  | (Ok counters, w) =>
    let max := foldr Z.max 0 counters in
    (Ok tt, if sw_next_counter sw <=? max then sw_set_next sw (max + 1) else sw, w)
  end.

(** [ShardWriter::ensure_open]. *)
Definition ensure_open (sw : ShardWriter) (w : World) : result unit ErrorKind * ShardWriter * World :=
  match sw_active sw with
  | Some _ => (Ok tt, sw, w)
  | None =>
    let p := segment_path (sw_shard_dir sw) (sw_next_counter sw) in
    let sw := sw_set_next sw (sw_next_counter sw + 1) in
    match wab_segment_create p (sw_shard_id sw) (sw_compression sw) w with
    | (Err e, w) => (Err e, sw, w)
    | (Ok seg, w) =>
      (Ok tt,
       mkShardWriter (sw_shard_id sw) (sw_shard_dir sw) (sw_next_counter sw)
         (sw_segment_max_bytes sw) (Some seg) (w_instant w) (Some p) 0 (sw_compression sw)
         (sw_compression_level sw) (sw_last_write_failure sw),
       inc WabSegmentsOpen w)
    end
  end.

(** [ShardWriter::write_record]: the sealed path when the write rotated the segment. *)
Definition shard_write_record (sw : ShardWriter) (payload : bytes) (w : World)
    : result (option path) ErrorKind * ShardWriter * World :=
  if blen payload =? 0 then
    (Err InvalidInput, sw_set_failure sw (Some RecordRejected), w) else
  match (match sw_compression sw with
         | CNone => Some payload
         | CZstd => zstd_compress (sw_compression_level sw) payload
         end) with
  | None => (Err OtherError, sw_set_failure sw (Some RecordRejected), w)
  | Some stored =>
    match ensure_open sw w with
    | (Err e, sw, w) => (Err e, sw_set_failure sw (Some SegmentDropped), w)
    | (Ok _, sw, w) =>
      match sw_active sw with
      | None => (Err OtherError, sw, w) (* [expect("ensure_open guarantees Some")] *)
      | Some seg =>
        match wab_segment_write_record seg stored w with
        | (Err e, _, w) =>
          (Err e, sw_set_active (sw_set_failure sw (Some SegmentDropped)) None None, w)
        | (Ok _, seg, w) =>
          let sw := sw_set_active sw (Some seg) (sw_active_path sw) in
          let sw := sw_set_records sw (sw_active_records sw + 1) in
          let w := inc_by WabRecordLogicalBytes (blen payload) w in
          let w := inc_by WabRecordStoredBytes (blen stored) w in
          if wab_segment_should_rotate seg (sw_segment_max_bytes sw) then
            match wab_segment_seal seg w with
            | (Err e, w) =>
              (Err e, sw_set_active (sw_set_failure sw (Some SegmentDropped)) None None, w)
            | (Ok sealed, w) =>
              (Ok (Some sealed), sw_set_failure (sw_set_active sw None None) None, w)
            end
          else (Ok None, sw_set_failure sw None, w)
        end
      end
    end
  end.

(** [ShardWriter::fsync_current]. *)
Definition fsync_current (sw : ShardWriter) (w : World) : result unit ErrorKind * ShardWriter * World :=
  match sw_active sw with
  | None => (Ok tt, sw, w)
  | Some seg =>
    match wab_segment_fsync seg w with
    | (Err e, w) => (Err e, sw_set_active sw None None, w)
    | (Ok _, w) => (Ok tt, sw, w)
    end
  end.

(** [ShardWriter::seal_current]: the active segment is taken before it is sealed. *)
Definition seal_current (sw : ShardWriter) (w : World)
    : result (option path) ErrorKind * ShardWriter * World :=
  let active := sw_active sw in
  let sw := sw_set_active sw None None in
  match active with
  | None => (Ok None, sw, w)
  | Some seg =>
    match wab_segment_seal seg w with
    | (Err e, w) => (Err e, sw, w)
    | (Ok sealed, w) => (Ok (Some sealed), sw, w)
    end
  end.

Definition has_active_segment (sw : ShardWriter) : bool :=
  match sw_active sw with Some _ => true | None => false end.

Definition active_segment_age (sw : ShardWriter) (w : World) : option Z :=
  option_map (λ _, w_instant w - sw_active_opened_at sw) (sw_active sw).

Definition last_record_index (sw : ShardWriter) : Z := sw_active_records sw.

(** [ShardWriter::drain_address]. *)
Definition drain_address (sw : ShardWriter) (rotated : option path) : option bytes :=
  match rotated with
  | Some sealed => Some (segment_identity sealed)
  | None => option_map (λ active, segment_identity (sealed_path_for active)) (sw_active_path sw)
  end.
End Writer.

(** ** The names of segments *)

(** The two names of a segment of any shard; of shard [d], one opened before counter [N]. *)
Definition seg_pair (d : path) (N : Z) (a sl : path) : Prop :=
  ∃ e k, 0 ≤ k ∧ a = segment_path e k ∧ sl = sealed_path_for (segment_path e k) ∧ (e = d → k < N).

(** A step of the writer of shard [d] loses no segment of another shard and none that it
    opened before counter [N]. *)
Definition wle (d : path) (N : Z) : Fs → Fs → Prop := fs_le (λ a sl, ¬ seg_pair d N a sl).

Lemma wle_refl d N s : wle d N s s.
Proof. apply fs_le_refl. Qed.

Lemma wle_trans d N s1 s2 s3 : wle d N s1 s2 → wle d N s2 s3 → wle d N s1 s3.
Proof. apply fs_le_trans. Qed.

Lemma wle_mono d N N' s s' : N ≤ N' → wle d N' s s' → wle d N s s'.
Proof.
  intros HN. apply fs_le_weaken. intros a sl Hn (e & k & Hk & -> & -> & Hd). apply Hn.
  exists e, k. repeat split; try done. intros He. specialize (Hd He). lia.
Qed.

Lemma wle_no_path d N s s' : fs_le no_path s s' → wle d N s s'.
Proof. apply fs_le_weaken. by intros a sl []. Qed.

Lemma wle_link d N s s' : 0 ≤ N → fs_le (link_own (segment_path d N)) s s' → wle d N s s'.
Proof.
  intros HN. apply fs_le_weaken. intros a sl [-> | ->] (e & k & Hk & Ha & Hsl & Hd).
  - apply segment_path_inj in Ha as [-> ->]; [|done|done]. specialize (Hd eq_refl). lia.
  - by apply active_not_sealed in Hsl.
Qed.

Lemma wle_rename d e k N s s' :
  0 ≤ k → fs_le (rename_own (segment_path e k) (sealed_path_for (segment_path e k))) s s' → wle d N s s'.
Proof.
  intros Hk. apply fs_le_weaken. intros a sl [Hn Ho] (e' & k' & Hk' & -> & -> & _).
  destruct Ho as [Ho|[Ho|[Ho|Ho]]].
  - apply segment_path_inj in Ho as [-> ->]; [|done|done]. by apply Hn.
  - by apply active_not_sealed in Ho.
  - symmetry in Ho. by apply active_not_sealed in Ho.
  - apply sealed_path_inj in Ho as [-> ->]; [|done|done]. by apply Hn.
Qed.

Lemma wle_linked d N s s' k e i :
  wle d N s s' → 0 ≤ k → (e = d → k < N) →
  linked s (segment_path e k) (sealed_path_for (segment_path e k)) i →
  linked s' (segment_path e k) (sealed_path_for (segment_path e k)) i.
Proof.
  intros Hle Hk Hd. apply (le_linked _ _ _ Hle). intros Hn. apply Hn. by exists e, k.
Qed.

Section WriterFacts.
Context {CRC : Crc32} {CL : Crc32Laws} {ZS : Zstd} {ZL : ZstdLaws}.
Implicit Types (s : Fs) (d : path) (c : Compression) (ss : list bytes).

(** ** Durable segments *)

(** A record the writer stores: a whole frame that decodes. *)
Definition stored_rec c (x : bytes) : Prop := storable c x ∧ is_Some (decode_stored c x).

Lemma stored_rec_storable c ss : Forall (stored_rec c) ss → Forall (storable c) ss.
Proof. induction 1 as [|x ss [Hx _] _ IH]; by constructor. Qed.

(** Segment [k] of shard [d], in file [i], holds the records stored as [ss] and keeps
    them through any crash. *)
Definition segment_durable s d (k : Z) (i : inode) c ss : Prop :=
  0 ≤ k ∧ Forall (stored_rec c) ss ∧
  linked s (segment_path d k) (sealed_path_for (segment_path d k)) i ∧
  ∃ hb hd, parse_segment_header hb = Ok hd ∧ sh_compression hd = c ∧
           durably_holds s i (hb ++ frames ss).

Lemma segment_durable_le d N s s' e k i c ss :
  wle d N s s' → fs_wf s → (e = d → k < N) →
  segment_durable s e k i c ss → segment_durable s' e k i c ss.
Proof.
  intros Hle Hwf HN (Hk & Hss & Hl & hb & hd & Hp & Hc & Hh). split; [done|]. split; [done|].
  split; [by eapply wle_linked|]. exists hb, hd. split; [done|]. split; [done|].
  by eapply fs_le_holds.
Qed.

Lemma segment_durable_app s d k i c ss ss' :
  segment_durable s d k i c (ss ++ ss') → segment_durable s d k i c ss.
Proof.
  intros (Hk & Hss & Hl & hb & hd & Hp & Hc & n & Hn & Hpre). apply Forall_app in Hss as [Hss _].
  split; [done|]. split; [done|]. split; [done|]. exists hb, hd. split; [done|]. split; [done|].
  exists n. split; [done|]. etrans; [|exact Hpre]. rewrite frames_app, app_assoc. by eexists.
Qed.

(** ** The active segment *)

Lemma io_bind_inv {A B} (m : io A) (f : A → io B) w r w' :
  io_bind m f w = (r, w') →
  (∃ e, m w = (Err e, w') ∧ r = Err e) ∨ (∃ a w1, m w = (Ok a, w1) ∧ f a w1 = (r, w')).
Proof.
  unfold io_bind. destruct (m w) as [[a|e] w1]; [eauto|]. intros [= <- <-]. eauto.
Qed.

(** The file of the open segment [seg] holds a header and the records stored as [ss], and
    the segment's counters and hasher agree with it. *)
Record seg_content s (seg : WabSegment) ss : Prop := mkSegContent {
  sc_file : ∃ node hb hd,
    fs_files s !! seg_file seg = Some node ∧ f_data node = hb ++ frames ss ∧
    f_lost node = false ∧ parse_segment_header hb = Ok hd ∧
    sh_compression hd = seg_compression seg ∧
    fed (seg_file_crc_hasher seg) (hb ++ frames ss) ∧
    seg_bytes_written seg = blen (hb ++ frames ss);
  sc_count : seg_record_count seg = blen ss;
  sc_data : seg_data_bytes seg = stored_bytes ss;
  sc_storable : Forall (stored_rec (seg_compression seg)) ss;
  sc_poisoned : seg_poisoned seg = false;
}.

Record seg_inv s d (k : Z) (seg : WabSegment) ss : Prop := mkSegInv {
  si_path : seg_path seg = segment_path d k;
  si_dir : d ≠ [];
  si_k : 0 ≤ k;
  si_linked : linked s (segment_path d k) (sealed_path_for (segment_path d k)) (seg_file seg);
  si_content : seg_content s seg ss;
}.

(** Creation: an empty segment in a file of its own. *)
Lemma create_content p sid c w r w' :
  wab_segment_create p sid c w = (r, w') → fs_wf (w_fs w) → is_u16 sid →
  ∀ seg, r = Ok seg → seg_content (w_fs w') seg [] ∧ seg_compression seg = c ∧ seg_path seg = p ∧
    fs_live (w_fs w') !! p = Some (seg_file seg).
Proof.
  intros H Hwf Hsid seg ->. unfold wab_segment_create in H.
  apply io_bind_inv in H as [(e & Hc & ?)|(i & w1 & Hc & H)]; [done|].
  destruct (create_new_spec _ _ _ _ Hc Hwf) as (_ & _ & Hok).
  destruct (Hok i eq_refl) as (-> & _ & Hfiles & Hlive). clear Hok. cbv beta zeta in H.
  apply io_bind_inv in H as [(e & Hw & ?)|([] & w2 & Hw & H)]; [done|].
  destruct (write_all_spec _ _ _ _ _ Hw) as (b & _ & (Hl2 & _) & _ & _ & Hf2 & Hb).
  specialize (Hb eq_refl). subst b.
  apply io_bind_inv in H as [(e & Hs & ?)|([] & w3 & Hs & H)]; [done|].
  pose proof (fsync_parent_dir_spec _ _ _ _ Hs) as (_ & _ & Hl3 & Hf3 & _ & _ & _).
  injection H as <- <-. split; [|split; [done|split; [done|cbn; congruence]]].
  constructor; cbn [seg_file seg_compression
    seg_record_count seg_data_bytes seg_poisoned seg_bytes_written seg_file_crc_hasher]; try done.
  set (hb := build_segment_header sid c (unix_nanos_now (w_unix w1))) in *.
  exists (mkFileNode hb 0 false), hb.
  exists (mkSegmentHeaderMeta (compression_format_version c) c sid (unix_nanos_now (w_unix w1))).
  rewrite frames_nil, app_nil_r. split.
  { by rewrite Hf3, Hf2, Hfiles, lookup_alter_eq, lookup_insert_eq. }
  split; [done|]. split; [done|].
  split; [apply parse_build_segment_header; [done|apply unix_nanos_now_i64]|]. split; [done|].
  split; [|done]. apply (fed_update hasher_new []), fed_new.
Qed.

(** Creation: the dirent is synced before the segment is returned. *)
Lemma create_spec d N sid c w r w' :
  wab_segment_create (segment_path d N) sid c w = (r, w') →
  fs_wf (w_fs w) → 0 ≤ N → d ≠ [] → durable_dir (w_fs w) d → is_u16 sid →
  wle d N (w_fs w) (w_fs w') ∧
  (∀ seg, r = Ok seg → seg_inv (w_fs w') d N seg [] ∧ seg_compression seg = c).
Proof.
  intros H Hwf HN Hd Hdur Hsid. pose proof (create_content _ _ _ _ _ _ H Hwf Hsid) as Hcont.
  unfold wab_segment_create in H.
  apply io_bind_inv in H as [(e & Hc & ->)|(i & w1 & Hc & H)];
    destruct (create_new_spec _ _ _ _ Hc Hwf) as (Hle & Hclk & Hok).
  { split; [by apply wle_link|done]. }
  destruct (Hok i eq_refl) as (-> & _ & _ & Hlive). clear Hok. cbv beta zeta in H.
  apply io_bind_inv in H as [(e & Hw & ->)|([] & w2 & Hw & H)];
    destruct (write_all_spec _ _ _ _ _ Hw) as (b & Hle2 & Hdirs2 & _).
  { split; [|done]. eapply wle_trans; [by apply wle_link|by apply wle_no_path]. }
  apply io_bind_inv in H as [(e & Hs & ->)|([] & w3 & Hs & H)];
    pose proof (fsync_parent_dir_spec _ _ _ _ Hs) as (Hle3 & _).
  { split; [|done]. eapply wle_trans; [by apply wle_link|].
    eapply wle_trans; by apply wle_no_path. }
  injection H as <- <-. split.
  { eapply wle_trans; [by apply wle_link|]. eapply wle_trans; by apply wle_no_path. }
  intros seg Hseg. destruct (Hcont seg Hseg) as (Hcs & Hcomp & Hpath & _). injection Hseg as <-.
  split; [|done]. constructor; try done.
  apply (create_linked w2 w3 _ _ _ (Ok tt)); [apply active_not_sealed| | | | |done|done].
  - by rewrite parent_segment_path, parent_sealed_path.
  - by rewrite parent_segment_path.
  - rewrite parent_segment_path. eapply durable_dir_mono, Hdur.
    etrans; [apply (le_dirs _ _ _ Hle)|apply (le_dirs _ _ _ Hle2)].
  - destruct Hdirs2 as (-> & _). done.
Qed.

(** Appending: on success the file holds one more frame. *)
Lemma write_record_content seg ss stored w r seg' w' :
  wab_segment_write_record seg stored w = (r, seg', w') → seg_content (w_fs w) seg ss →
  is_Some (decode_stored (seg_compression seg) stored) →
  fs_le no_path (w_fs w) (w_fs w') ∧ same_dirs w w' ∧
  (r = Ok tt → seg_content (w_fs w') seg' (ss ++ [stored]) ∧ seg_path seg' = seg_path seg ∧
               seg_compression seg' = seg_compression seg ∧ seg_file seg' = seg_file seg).
Proof.
  intros H [(node & hb & hd & Hn & Hdata & Hlost & Hparse & Hc & Hfed & Hbw) Hcnt Hdb Hst Hpo] Hdec.
  unfold wab_segment_write_record in H. rewrite Hpo in H.
  destruct (Z.eqb_spec (blen stored) 0) as [|H0].
  { injection H as <- <- <-. split; [apply fs_le_refl|done]. }
  destruct (u32_max <? blen stored).
  { injection H as <- <- <-. split; [apply fs_le_refl|done]. }
  destruct (Z.ltb_spec (stored_cap (seg_compression seg)) (blen stored)) as [|Hcap].
  { injection H as <- <- <-. split; [apply fs_le_refl|done]. }
  change (le_bytes 4 (blen stored) ++ le_bytes 4 (crc32_hash stored) ++ stored) with (frame stored) in H.
  destruct (write_vectored (seg_file seg) (frame stored) w) as [[n|e] w1] eqn:Ew;
    destruct (write_vectored_spec _ _ _ _ _ Ew) as (b & Hle & Hdirs & _ & _ & Hf & Hb).
  2: { injection H as <- <- <-. done. }
  replace (blen (le_bytes 4 (blen stored)) + blen (le_bytes 4 (crc32_hash stored)) + blen stored)
    with (blen (frame stored)) in H by (rewrite blen_frame, !blen_le_bytes; lia).
  destruct (Z.eqb_spec n (blen (frame stored))) as [Hnn|]; injection H as <- <- <-; [|done].
  split; [done|]. split; [done|]. intros _. specialize (Hb n eq_refl Hnn). subst b.
  assert (Hnew : (hb ++ frames ss) ++ frame stored = hb ++ frames (ss ++ [stored])).
  { rewrite frames_app, app_assoc. f_equal. unfold frames. simpl. by rewrite app_nil_r. }
  split; [|done]. constructor; cbn [seg_path seg_file seg_compression seg_record_count
    seg_data_bytes seg_poisoned seg_bytes_written seg_file_crc_hasher]; try done.
  - exists (append_node (frame stored) node), hb, hd. split; [by rewrite Hf, lookup_alter_eq, Hn|].
    cbn [append_node f_data f_lost]. rewrite Hdata, Hnew. split; [done|]. split; [done|].
    split; [done|]. split; [done|]. split.
    + rewrite <-Hnew. unfold frame. rewrite !app_assoc. by repeat apply fed_update.
    + rewrite <-Hnew, blen_app, Hbw, blen_frame. unfold RECORD_OVERHEAD. lia.
  - rewrite blen_app, Hcnt. done.
  - rewrite Hdb. unfold stored_bytes. rewrite concat_app, blen_app. simpl. by rewrite app_nil_r.
  - apply Forall_app. split; [done|]. constructor; [|done]. split; [|done].
    pose proof (blen_nonneg stored). split; [lia|done].
Qed.

Lemma write_record_spec d k seg ss stored w r seg' w' :
  wab_segment_write_record seg stored w = (r, seg', w') → seg_inv (w_fs w) d k seg ss →
  is_Some (decode_stored (seg_compression seg) stored) →
  fs_le no_path (w_fs w) (w_fs w') ∧
  (r = Ok tt → seg_inv (w_fs w') d k seg' (ss ++ [stored]) ∧
               seg_compression seg' = seg_compression seg ∧ seg_file seg' = seg_file seg).
Proof.
  intros H [Hp Hd Hk Hl Hcont] Hdec.
  destruct (write_record_content _ _ _ _ _ _ _ H Hcont Hdec) as (Hle & Hdirs & Hok). split; [done|].
  intros Hr. destruct (Hok Hr) as (Hcont' & Hpath & Hcomp & Hfile). split; [|done].
  constructor; [congruence|done|done| |done]. rewrite Hfile. by eapply linked_same_dirs.
Qed.

(** A successful sync makes every record of the segment durable. *)
Lemma fsync_spec d k seg ss w r w' :
  wab_segment_fsync seg w = (r, w') → seg_inv (w_fs w) d k seg ss →
  fs_le no_path (w_fs w) (w_fs w') ∧
  (r = Ok tt → seg_inv (w_fs w') d k seg ss ∧
               segment_durable (w_fs w') d k (seg_file seg) (seg_compression seg) ss).
Proof.
  intros H [Hp Hd Hk Hl [(node & hb & hd & Hn & Hdata & Hlost & Hparse & Hc & Hfed & Hbw) Hcnt Hdb Hst Hpo]].
  apply sync_file_spec in H as (Hle & Hdirs & _ & _ & Hf). split; [done|]. intros ->.
  cbn [is_ok] in Hf.
  assert (Hl' : linked (w_fs w') (segment_path d k) (sealed_path_for (segment_path d k)) (seg_file seg))
    by (by eapply linked_same_dirs).
  assert (Hn' : fs_files (w_fs w') !! seg_file seg
                = Some (mkFileNode (f_data node) (length (f_data node)) false)).
  { rewrite Hf, lookup_alter_eq, Hn. simpl. unfold sync_node. by rewrite Hlost. }
  split.
  - constructor; try done. constructor; try done.
    by exists (mkFileNode (f_data node) (length (f_data node)) false), hb, hd.
  - split; [done|]. split; [done|]. split; [done|]. exists hb, hd. split; [done|]. split; [done|].
    exists (mkFileNode (f_data node) (length (f_data node)) false). split; [done|].
    unfold durable_prefix. cbn [f_data f_synced]. by rewrite firstn_all, Hdata.
Qed.

(** The bytes of a sealed file. *)
Definition sealed_bytes (hb : bytes) ss (sealed_at : Z) : bytes :=
  hb ++ frames ss ++ SENTINEL ++
  build_segment_footer (blen ss) (stored_bytes ss) (crc32_hash (hb ++ frames ss)) sealed_at.

(** Finalising: the whole file, up to the footer, is synced when it returns. *)
Lemma finalize_content seg ss w r w' :
  wab_segment_finalize_to_disk seg w = (r, w') → seg_content (w_fs w) seg ss →
  fs_le no_path (w_fs w) (w_fs w') ∧ same_dirs w w' ∧
  (∀ p, r = Ok p → p = seg_path seg ∧
     ∃ hb hd, let data := sealed_bytes hb ss (unix_nanos_now (w_unix w)) in
       fs_files (w_fs w') !! seg_file seg = Some (mkFileNode data (length data) false) ∧
       parse_segment_header hb = Ok hd ∧ sh_compression hd = seg_compression seg).
Proof.
  intros H [(node & hb & hd & Hn & Hdata & Hlost & Hparse & Hc & Hfed & Hbw) Hcnt Hdb Hst Hpo].
  unfold wab_segment_finalize_to_disk in H.
  apply io_bind_inv in H as [(e & Hw & ->)|([] & w1 & Hw & H)];
    destruct (write_all_spec _ _ _ _ _ Hw) as (b1 & Hle1 & Hdirs1 & _ & _ & Hf1 & Hb1); [done|].
  specialize (Hb1 eq_refl). subst b1.
  apply io_bind_inv in H as [(e & Hw2 & ->)|([] & w2 & Hw2 & H)];
    destruct (write_all_spec _ _ _ _ _ Hw2) as (b2 & Hle2 & Hdirs2 & _ & _ & Hf2 & Hb2).
  { split; [by eapply fs_le_trans|]. split; [by eapply same_dirs_trans|done]. }
  specialize (Hb2 eq_refl). subst b2. rewrite (fed_finalize _ _ Hfed), Hcnt, Hdb in Hf2.
  apply io_bind_inv in H as [(e & Hs & ->)|([] & w3 & Hs & H)];
    apply sync_file_spec in Hs as (Hle3 & Hdirs3 & _ & _ & Hf3);
    (split; [eapply fs_le_trans; [done|eapply fs_le_trans; [done|]]|split;
      [do 2 (eapply same_dirs_trans; [done|])|]]); try done; injection H as <- <-; try done.
  cbn [is_ok] in Hf3. intros p [= <-]. split; [done|]. exists hb, hd. split; [|done].
  rewrite Hf3, lookup_alter_eq, Hf2, lookup_alter_eq, Hf1, lookup_alter_eq, Hn.
  cbn [fmap option_fmap option_map]. unfold sync_node, append_node. cbn [f_lost f_data].
  unfold sealed_bytes. rewrite Hlost, Hdata, <-!app_assoc. reflexivity.
Qed.

Lemma finalize_spec d k seg ss w r w' :
  wab_segment_finalize_to_disk seg w = (r, w') → seg_inv (w_fs w) d k seg ss →
  fs_le no_path (w_fs w) (w_fs w') ∧
  (∀ p, r = Ok p → p = segment_path d k ∧
     segment_durable (w_fs w') d k (seg_file seg) (seg_compression seg) ss).
Proof.
  intros H [Hp Hd Hk Hl Hcont]. destruct (finalize_content _ _ _ _ _ H Hcont) as (Hle & Hdirs & Hok).
  split; [done|]. intros p Hr. destruct (Hok p Hr) as (-> & hb & hd & Hn & Hparse & Hc). split; [done|].
  split; [done|]. split; [by destruct Hcont|]. split; [by eapply linked_same_dirs|].
  exists hb, hd. split; [done|]. split; [done|]. eexists. split; [exact Hn|].
  unfold durable_prefix, sealed_bytes. cbn [f_data f_synced]. rewrite firstn_all, (app_assoc hb). by eexists.
Qed.

(** Sealing: the records are durable whenever it succeeds, and nothing is lost when it
    does not. *)
Lemma seal_spec d N k seg ss w r w' :
  wab_segment_seal seg w = (r, w') → seg_inv (w_fs w) d k seg ss →
  fs_wf (w_fs w) → k < N →
  wle d N (w_fs w) (w_fs w') ∧
  (∀ p, r = Ok p → p = sealed_path_for (segment_path d k) ∧
        segment_durable (w_fs w') d k (seg_file seg) (seg_compression seg) ss).
Proof.
  intros H Hinv Hwf HN. unfold wab_segment_seal in H. pose proof (si_k _ _ _ _ _ Hinv) as Hk.
  apply io_bind_inv in H as [(e & Hf & ->)|(a & w1 & Hf & H)];
    destruct (finalize_spec _ _ _ _ _ _ _ Hf Hinv) as [Hle1 Hok].
  { split; [by apply wle_no_path|done]. }
  destruct (Hok a eq_refl) as (-> & Hdur). clear Hok.
  pose proof (le_wf _ _ _ Hle1 Hwf) as Hwf1. apply (wle_no_path d N) in Hle1.
  apply io_bind_inv in H as [(e & Ht & ->)|(x & w2 & Ht & H)];
    destruct (try_exists_spec _ _ _ _ Ht) as (Hle2 & _);
    pose proof (le_wf _ _ _ Hle2 Hwf1) as Hwf2; apply (wle_no_path d N) in Hle2.
  { split; [by eapply wle_trans|done]. }
  destruct x; [injection H as <- <-; split; [by eapply wle_trans|done]|].
  apply io_bind_inv in H as [(e & Hr & ->)|([] & w3 & Hr & H)];
    destruct (rename_spec _ _ _ _ _ Hr) as (Hle3 & _);
    pose proof (le_wf _ _ _ Hle3 Hwf2) as Hwf3; apply (wle_rename d d k N) in Hle3; try done.
  { split; [do 2 (eapply wle_trans; [done|]); done|done]. }
  apply io_bind_inv in H as [(e & Hs & ->)|([] & w4 & Hs & H)];
    destruct (fsync_parent_dir_spec _ _ _ _ Hs) as (Hle4 & _); apply (wle_no_path d N) in Hle4.
  { split; [do 3 (eapply wle_trans; [done|]); done|done]. }
  injection H as <- <-. split; [do 3 (eapply wle_trans; [done|]); done|].
  intros p [= <-]. split; [done|].
  do 3 (eapply segment_durable_le; [done|done|done|]). done.
Qed.

(** ** The shard writer *)

(** The directory the writer works in, whose own entry no crash undoes. *)
Definition dir_ready s d : Prop := d ≠ [] ∧ durable_dir s d.

Lemma dir_ready_le e N s s' d : wle e N s s' → dir_ready s d → dir_ready s' d.
Proof. intros Hle [? Hd]. split; [done|]. eapply durable_dir_mono, Hd. apply (le_dirs _ _ _ Hle). Qed.

(** [ss] are the records of the active segment (none when there is no segment). *)
Record sw_inv s (sw : ShardWriter) ss : Prop := mkSwInv {
  swi_wf : fs_wf s;
  swi_dir : dir_ready s (sw_shard_dir sw);
  swi_sid : is_u16 (sw_shard_id sw);
  swi_next : 0 ≤ sw_next_counter sw;
  swi_active :
    match sw_active sw with
    | None => ss = []
    | Some seg => ∃ k, k < sw_next_counter sw ∧ seg_inv s (sw_shard_dir sw) k seg ss ∧
        seg_compression seg = sw_compression sw ∧
        sw_active_path sw = Some (segment_path (sw_shard_dir sw) k) ∧
        sw_active_records sw = blen ss
    end;
}.

(** The configuration of a writer does not change, and its counter only grows. *)
Definition sw_same (sw sw' : ShardWriter) : Prop :=
  sw_shard_dir sw' = sw_shard_dir sw ∧ sw_shard_id sw' = sw_shard_id sw ∧
  sw_compression sw' = sw_compression sw ∧ sw_compression_level sw' = sw_compression_level sw ∧
  sw_segment_max_bytes sw' = sw_segment_max_bytes sw ∧
  sw_next_counter sw ≤ sw_next_counter sw'.

Ltac solve_same := unfold sw_same; cbn; repeat split; first [done | lia].

Lemma sw_same_refl sw : sw_same sw sw.
Proof. solve_same. Qed.

Lemma sw_same_trans sw1 sw2 sw3 : sw_same sw1 sw2 → sw_same sw2 sw3 → sw_same sw1 sw3.
Proof. unfold sw_same. intros (?&?&?&?&?&?) (?&?&?&?&?&?). repeat split; (congruence || lia). Qed.

(** [stored] is the form in which the writer stores [payload]. *)
Definition stores (sw : ShardWriter) (payload stored : bytes) : Prop :=
  match sw_compression sw with
  | CNone => stored = payload
  | CZstd => zstd_compress (sw_compression_level sw) payload = Some stored
  end.

Lemma stores_decode sw payload stored :
  stores sw payload stored → blen payload ≤ MAX_PAYLOAD_HARD_CAP →
  decode_stored (sw_compression sw) stored = Some payload.
Proof.
  unfold stores, decode_stored. destruct (sw_compression sw); [by intros ->|].
  intros Hz Hp. by eapply zstd_roundtrip.
Qed.

Lemma sw_inv_drop s sw ss :
  sw_inv s sw ss → sw_inv s (sw_set_active sw None None) [].
Proof. intros [? ? ? ? _]. by constructor. Qed.

Lemma sw_inv_le s s' sw :
  wle (sw_shard_dir sw) (sw_next_counter sw) s s' → sw_inv s sw [] → sw_active sw = None →
  sw_inv s' sw [].
Proof.
  intros Hle [Hwf Hd Hsid Hn Ha] Hnone. constructor; try done; [by eapply le_wf|by eapply dir_ready_le|].
  by rewrite Hnone in *.
Qed.

(** Opening lazily. *)
Lemma ensure_open_spec sw ss w r sw' w' :
  ensure_open sw w = (r, sw', w') → sw_inv (w_fs w) sw ss →
  wle (sw_shard_dir sw) (sw_next_counter sw) (w_fs w) (w_fs w') ∧ sw_same sw sw' ∧
  match r with
  | Ok _ => sw_inv (w_fs w') sw' ss ∧ (∃ seg, sw_active sw' = Some seg) ∧
            (∀ seg, sw_active sw = Some seg → sw' = sw)
  | Err _ => sw_active sw = None ∧ sw_active sw' = None ∧ ss = [] ∧ sw_inv (w_fs w') sw' []
  end.
Proof.
  intros H Hinv. pose proof Hinv as [Hwf Hd Hsid Hn Ha]. unfold ensure_open in H.
  destruct (sw_active sw) as [seg|] eqn:Eact.
  { injection H as <- <- <-. split; [apply wle_refl|]. split; [apply sw_same_refl|].
    split; [done|]. split; [by eexists|]. by intros seg' [= <-]. }
  subst ss. cbn in H.
  destruct (wab_segment_create _ _ _ w) as [[seg|e] w1] eqn:Ec;
    destruct (create_spec _ _ _ _ _ _ _ Ec Hwf Hn (proj1 Hd) (proj2 Hd) Hsid) as [Hle Hok]; injection H as <- <- <-.
  - destruct (Hok seg eq_refl) as [Hseg Hc]. split; [done|].
    split; [solve_same|].
    split; [|split; [by eexists|done]]. constructor; cbn; try done; [by eapply le_wf|by eapply dir_ready_le|lia|].
    exists (sw_next_counter sw). split; [lia|]. split; [exact Hseg|]. done.
  - split; [done|]. split; [solve_same|]. split; [done|].
    split; [done|]. split; [done|]. constructor; cbn; try done; [by eapply le_wf|by eapply dir_ready_le|lia|by rewrite Eact].
Qed.

(** The outcome of a write, as the flusher relies on it. *)
Definition write_outcome (s' : Fs) (sw sw' : ShardWriter) (payload : bytes) ss ss'
    (r : result (option path) ErrorKind) : Prop :=
  match r with
  | Ok None => ∃ stored, stores sw payload stored ∧ ss' = ss ++ [stored] ∧
                         sw_active sw' ≠ None ∧
                         (sw_active sw ≠ None → sw_active_path sw' = sw_active_path sw)
  | Ok (Some sealed) => ss' = [] ∧ sw_active sw' = None ∧
      ∃ k i stored, stores sw payload stored ∧ k < sw_next_counter sw' ∧
        sealed = sealed_path_for (segment_path (sw_shard_dir sw) k) ∧
        segment_durable s' (sw_shard_dir sw) k i (sw_compression sw) (ss ++ [stored]) ∧
        sw_active_records sw' = blen ss + 1 ∧
        (sw_active sw ≠ None → sw_active_path sw = Some (segment_path (sw_shard_dir sw) k))
  | Err _ =>
      (last_write_failure sw' = RecordRejected ∧ ss' = ss ∧ sw_active sw' = sw_active sw ∧
       sw_active_path sw' = sw_active_path sw) ∨
      (last_write_failure sw' = SegmentDropped ∧ ss' = [] ∧ sw_active sw' = None)
  end.

(** The write itself, once a segment is open. *)
Lemma write_active_spec sw ss w payload stored seg r sw' w' :
  sw_inv (w_fs w) sw ss → sw_active sw = Some seg → stores sw payload stored →
  blen payload ≤ MAX_PAYLOAD_HARD_CAP →
  (match wab_segment_write_record seg stored w with
   | (Err e, _, w) =>
     (Err e, sw_set_active (sw_set_failure sw (Some SegmentDropped)) None None, w)
   | (Ok _, seg, w) =>
     let sw := sw_set_active sw (Some seg) (sw_active_path sw) in
     let sw := sw_set_records sw (sw_active_records sw + 1) in
     let w := inc_by WabRecordLogicalBytes (blen payload) w in
     let w := inc_by WabRecordStoredBytes (blen stored) w in
     if wab_segment_should_rotate seg (sw_segment_max_bytes sw) then
       match wab_segment_seal seg w with
       | (Err e, w) => (Err e, sw_set_active (sw_set_failure sw (Some SegmentDropped)) None None, w)
       | (Ok sealed, w) => (Ok (Some sealed), sw_set_failure (sw_set_active sw None None) None, w)
       end
     else (Ok None, sw_set_failure sw None, w)
   end) = (r, sw', w') →
  wle (sw_shard_dir sw) (sw_next_counter sw) (w_fs w) (w_fs w') ∧ sw_same sw sw' ∧
  ∃ ss', sw_inv (w_fs w') sw' ss' ∧ write_outcome (w_fs w') sw sw' payload ss ss' r ∧
    (∀ e, r = Err e → last_write_failure sw' = SegmentDropped).
Proof.
  intros [Hwf Hd Hsid Hn Ha] Hact Hst Hsz H. rewrite Hact in Ha.
  destruct Ha as (k & Hk & Hseg & Hc & Hpath & Hrec).
  assert (Hdec : is_Some (decode_stored (seg_compression seg) stored))
    by (rewrite Hc; eexists; by apply stores_decode).
  destruct (wab_segment_write_record seg stored w) as [[[[]|e] seg1] w1] eqn:Ew;
    destruct (write_record_spec _ _ _ _ _ _ _ _ _ Ew Hseg Hdec) as [Hle Hok];
    pose proof (le_wf _ _ _ Hle Hwf) as Hwf1; apply (wle_no_path (sw_shard_dir sw) (sw_next_counter sw)) in Hle;
    pose proof (dir_ready_le _ _ _ _ _ Hle Hd) as Hd1.
  2: { injection H as <- <- <-. split; [done|]. split; [solve_same|].
       exists []. split; [by constructor|]. split; [by right|done]. }
  destruct (Hok eq_refl) as (Hseg1 & Hc1 & _). clear Hok. cbv zeta in H.
  destruct (wab_segment_should_rotate seg1 _).
  - set (w2 := inc_by _ _ (inc_by _ _ w1)) in H.
    destruct (wab_segment_seal seg1 w2) as [[sealed|e] w3] eqn:Es;
      destruct (seal_spec _ (sw_next_counter sw) _ _ _ _ _ _ Es Hseg1 Hwf1 Hk) as [Hle2 Hok2];
      pose proof (le_wf _ _ _ Hle2 Hwf1) as Hwf3; pose proof (dir_ready_le _ _ _ _ _ Hle2 Hd1) as Hd3; injection H as <- <- <-;
      (split; [by eapply wle_trans|]); (split; [solve_same|]);
      exists []; (split; [by constructor|]).
    + destruct (Hok2 sealed eq_refl) as [Hp Hdur]. split; [|done]. split; [done|]. split; [done|].
      exists k, (seg_file seg1), stored. split; [done|]. split; [exact Hk|]. split; [done|].
      rewrite Hc1, Hc in Hdur. split; [exact Hdur|]. cbn. by rewrite Hrec.
    + split; [by right|done].
  - injection H as <- <- <-. split; [done|]. split; [solve_same|].
    exists (ss ++ [stored]). split.
    + constructor; cbn; try done. exists k. rewrite blen_app, Hrec. split; [done|].
      split; [exact Hseg1|]. split; [congruence|]. done.
    + split; [|done]. exists stored. by repeat split.
Qed.

(** [ShardWriter::write_record]. *)
Lemma shard_write_record_spec sw ss payload w r sw' w' :
  shard_write_record sw payload w = (r, sw', w') → sw_inv (w_fs w) sw ss →
  blen payload ≤ MAX_PAYLOAD_HARD_CAP →
  wle (sw_shard_dir sw) (sw_next_counter sw) (w_fs w) (w_fs w') ∧ sw_same sw sw' ∧
  ∃ ss', sw_inv (w_fs w') sw' ss' ∧ write_outcome (w_fs w') sw sw' payload ss ss' r.
Proof.
  intros H Hinv Hsz. unfold shard_write_record in H.
  assert (Hrej : ∀ f, sw_inv (w_fs w) (sw_set_failure sw f) ss).
  { intros f. destruct Hinv as [? ? ? ? ?]. by constructor. }
  destruct (blen payload =? 0).
  { injection H as <- <- <-. split; [apply wle_refl|]. split; [solve_same|].
    exists ss. split; [done|]. by left. }
  destruct (match sw_compression sw with CNone => Some payload
            | CZstd => zstd_compress (sw_compression_level sw) payload end) as [stored|] eqn:Ez.
  2: { injection H as <- <- <-. split; [apply wle_refl|]. split; [solve_same|].
       exists ss. split; [done|]. by left. }
  assert (Hst : stores sw payload stored).
  { unfold stores. destruct (sw_compression sw); [by injection Ez|done]. }
  destruct (ensure_open sw w) as [[[[]|e] sw1] w1] eqn:Eo;
    destruct (ensure_open_spec _ _ _ _ _ _ Eo Hinv) as (Hle & Hsame & Hpost).
  2: { injection H as <- <- <-. destruct Hpost as (Hn & Hn' & -> & Hinv').
       split; [done|]. split; [done|]. exists []. split; [by destruct Hinv'; constructor|]. by right. }
  destruct Hpost as (Hinv1 & [seg Hact] & Hold). rewrite Hact in H.
  assert (Hst1 : stores sw1 payload stored).
  { unfold stores in *. destruct Hsame as (_ & _ & -> & -> & _). done. }
  destruct (write_active_spec _ _ _ _ _ _ _ _ _ Hinv1 Hact Hst1 Hsz H) as (Hle1 & Hsame1 & ss' & Hinv' & Ho & Herr).
  destruct Hsame as (Hdir & Hid & Hcomp & Hlev & Hmax & Hnext) eqn:Es. clear Es.
  split; [|split].
  - eapply wle_trans; [done|]. rewrite Hdir in Hle1. by eapply wle_mono.
  - eapply sw_same_trans; [|done]. by unfold sw_same.
  - exists ss'. split; [done|]. unfold write_outcome, stores in *. rewrite Hcomp, Hlev, Hdir in Ho.
    assert (Hpath : sw_active sw ≠ None → sw_active_path sw1 = sw_active_path sw).
    { intros Hne. destruct (sw_active sw) as [sg|] eqn:E; [|done]. by rewrite (Hold sg eq_refl). }
    assert (Hsome : sw_active sw1 ≠ None) by congruence.
    destruct r as [[sealed|]|e].
    { destruct Ho as (-> & Hn & k & i & x & ? & ? & ? & ? & ? & Hp). split; [done|]. split; [done|].
      exists k, i, x. repeat (split; [done|]). intros Hne. rewrite <-(Hpath Hne). by apply Hp. }
    { destruct Ho as (x & ? & ? & ? & Hp). exists x. repeat (split; [done|]).
      intros Hne. rewrite <-(Hpath Hne). by apply Hp. }
    destruct Ho as [(Hf & _)|Ho]; [|by right]. by rewrite (Herr e eq_refl) in Hf.
Qed.

(** [ShardWriter::fsync_current]: after a failure there is no active segment. *)
Lemma fsync_current_spec sw ss w r sw' w' :
  fsync_current sw w = (r, sw', w') → sw_inv (w_fs w) sw ss →
  wle (sw_shard_dir sw) (sw_next_counter sw) (w_fs w) (w_fs w') ∧ sw_same sw sw' ∧
  match r with
  | Ok _ => sw' = sw ∧ sw_inv (w_fs w') sw ss ∧
      (sw_active sw ≠ None → ∃ k i, k < sw_next_counter sw ∧
         sw_active_path sw = Some (segment_path (sw_shard_dir sw) k) ∧
         segment_durable (w_fs w') (sw_shard_dir sw) k i (sw_compression sw) ss)
  | Err _ => sw_active sw' = None ∧ sw_inv (w_fs w') sw' []
  end.
Proof.
  intros H Hinv. pose proof Hinv as [Hwf Hd Hsid Hn Ha]. unfold fsync_current in H.
  destruct (sw_active sw) as [seg|] eqn:Eact.
  2: { injection H as <- <- <-. split; [apply wle_refl|]. split; [apply sw_same_refl|]. done. }
  destruct Ha as (k & Hk & Hseg & Hc & Hp & Hr).
  destruct (wab_segment_fsync seg w) as [[[]|e] w1] eqn:Ef;
    destruct (fsync_spec _ _ _ _ _ _ _ Ef Hseg) as [Hle Hok];
    pose proof (le_wf _ _ _ Hle Hwf) as Hwf1;
    apply (wle_no_path (sw_shard_dir sw) (sw_next_counter sw)) in Hle;
    pose proof (dir_ready_le _ _ _ _ _ Hle Hd) as Hd1; injection H as <- <- <-.
  - destruct (Hok eq_refl) as [Hseg' Hdur]. split; [done|]. split; [apply sw_same_refl|].
    split; [done|]. split.
    + constructor; try done. rewrite Eact. exists k. done.
    + intros _. exists k, (seg_file seg). by rewrite Hc in Hdur.
  - split; [done|]. split; [solve_same|]. split; [done|]. by constructor.
Qed.

(** [ShardWriter::seal_current]: there is no active segment afterwards, sealed or not. *)
Lemma seal_current_spec sw ss w r sw' w' :
  seal_current sw w = (r, sw', w') → sw_inv (w_fs w) sw ss →
  wle (sw_shard_dir sw) (sw_next_counter sw) (w_fs w) (w_fs w') ∧ sw_same sw sw' ∧
  sw_active sw' = None ∧ sw_inv (w_fs w') sw' [] ∧
  (∀ p, r = Ok (Some p) → ∃ k i, k < sw_next_counter sw ∧
     p = sealed_path_for (segment_path (sw_shard_dir sw) k) ∧
     segment_durable (w_fs w') (sw_shard_dir sw) k i (sw_compression sw) ss).
Proof.
  intros H Hinv. pose proof Hinv as [Hwf Hd Hsid Hn Ha]. unfold seal_current in H.
  destruct (sw_active sw) as [seg|] eqn:Eact.
  2: { injection H as <- <- <-. split; [apply wle_refl|]. split; [solve_same|].
       split; [done|]. split; [by eapply sw_inv_drop|done]. }
  destruct Ha as (k & Hk & Hseg & Hc & Hp & Hr).
  destruct (wab_segment_seal seg w) as [[p|e] w1] eqn:Es;
    destruct (seal_spec _ (sw_next_counter sw) _ _ _ _ _ _ Es Hseg Hwf Hk) as [Hle Hok];
    pose proof (le_wf _ _ _ Hle Hwf) as Hwf1; pose proof (dir_ready_le _ _ _ _ _ Hle Hd) as Hd1; injection H as <- <- <-;
    (split; [done|]); (split; [solve_same|]); (split; [done|]); (split; [by constructor|]); [|done].
  intros p' [= <-]. destruct (Hok p eq_refl) as [-> Hdur]. exists k, (seg_file seg).
  rewrite Hc in Hdur. done.
Qed.

(** ** The counter scan *)

Lemma read_dir_spec d w r w' :
  read_dir d w = (r, w') →
  fs_le no_path (w_fs w) (w_fs w') ∧ same_dirs w w' ∧ fs_files (w_fs w') = fs_files (w_fs w) ∧
  (∀ ps, r = Ok ps → ∀ p, is_Some (fs_live (w_fs w) !! p) → p ≠ [] → parent p = d → p ∈ ps).
Proof.
  unfold read_dir. intros Hs. apply guarded_spec in Hs as
    (w1 & Hle & H1 & H2 & H3 & H4 & H5 & H6 & H7 & H8 & [[-> [k ->]]|Hm]); [done|].
  injection Hm as <- <-. split; [done|]. split; [done|]. split; [done|].
  intros ps [= <-] p [i Hi] Hne Hp. apply list_elem_of_filter. split; [done|].
  apply elem_of_app. left. apply list_elem_of_fmap. exists (p, i). split; [done|].
  apply elem_of_map_to_list. by rewrite H2.
Qed.

Lemma foldr_max_ge l n : n ∈ l → n ≤ foldr Z.max 0 l.
Proof. induction l as [|m l IH]; [by intros ?%not_elem_of_nil|]. simpl. intros [->|H]%elem_of_cons; [lia|]. specialize (IH H). lia. Qed.

(** After a successful scan every segment file of the shard, in any lifecycle state, has
    a counter below the next one. *)
Lemma scan_spec sw w sw' w' :
  scan_and_advance_counter sw w = (Ok tt, sw', w') →
  same_dirs w w' ∧ fs_le no_path (w_fs w) (w_fs w') ∧ sw_same sw sw' ∧ sw_active sw' = sw_active sw ∧
  (∀ p n, is_Some (fs_live (w_fs w) !! p) → p ≠ [] → parent p = sw_shard_dir sw →
          segment_counter_from_path p = Some n → n < sw_next_counter sw').
Proof.
  unfold scan_and_advance_counter, segment_counters. intros H.
  destruct (io_bind _ _ w) as [[cs|e] w1] eqn:E; [|done].
  apply io_bind_inv in E as [(e & _ & ?)|(ps & w2 & Hr & E)]; [done|].
  injection E as <- <-. destruct (read_dir_spec _ _ _ _ Hr) as (Hle & Hdirs & _ & Hin).
  injection H as <- <-.
  assert (Hmax : ∀ p n, is_Some (fs_live (w_fs w) !! p) → p ≠ [] → parent p = sw_shard_dir sw →
          segment_counter_from_path p = Some n →
          n ≤ foldr Z.max 0 (omap segment_counter_from_path ps)).
  { intros p n Hl Hne Hp Hc. apply foldr_max_ge, list_elem_of_omap. exists p.
    split; [by eapply Hin|done]. }
  split; [done|]. split; [done|].
  destruct (Z.leb_spec (sw_next_counter sw) (foldr Z.max 0 (omap segment_counter_from_path ps))) as [Hlt|Hge].
  - split; [solve_same|]. split; [done|]. intros p n Hl Hne Hp Hc. cbn.
    specialize (Hmax p n Hl Hne Hp Hc). lia.
  - split; [apply sw_same_refl|]. split; [done|]. intros p n Hl Hne Hp Hc.
    specialize (Hmax p n Hl Hne Hp Hc). lia.
Qed.

End WriterFacts.

