(* ===== verification/Shards.v ===== *)
(** * Shard registry, routing and the size cap (weir-server)

    [ShardRegistry] of crates/weir-server/src/status/shards.rs (the evidence it gives
    is that of Evidence), the connection router of
    crates/weir-server/src/socket/route.rs and the [wab_max_bytes] hysteresis of
    crates/weir-server/src/wab/cap.rs. Indexing out of range panics and is [None]. The
    registry is read without a lock, so a walk over it is given the answers its own reads
    got; clock readings are arguments. *)

From Stdlib Require Import ZArith Lia Strings.Byte String.
From stdpp Require Import base list list_numbers option relations.
From S2P Require Import Prelude Text Names F64 Evidence.

(** ** The cells *)

Definition NO_REASON : Z := u8_max.

(** How a flusher supervisor ended. *)
Inductive SupervisorExit := SupInputClosed | SupCounterScanFailed | SupRespawnExhausted.

(** ** The registry *)

Record ShardCell := mkShardCell {
  sc_state : Z;
  sc_reason : Z;
  sc_since_ms : Z;
  sc_respawns : Z;
  sc_handoff_blocked_since_ms : Z;
}.
Record WorkerCell := mkWorkerCell { wc_running : bool; wc_exited_at_ms : Z }.
Record ShardRegistry := mkShardRegistry {
  rg_shards : list ShardCell;
  rg_workers : list WorkerCell;
  rg_shutting_down : bool;
}.

Definition shard_cell_new (now_ms : Z) : ShardCell := mkShardCell (as_u8 Starting) NO_REASON now_ms 0 0.
Definition shard_cell_set (state : ShardState) (reason : option OfflineReason) (now_ms : Z) (c : ShardCell)
    : ShardCell :=
  mkShardCell (as_u8 state) (from_option as_u8 NO_REASON reason) now_ms (sc_respawns c)
    (sc_handoff_blocked_since_ms c).
Definition shard_cell_state (c : ShardCell) : ShardState := default Offline (from_u8 (sc_state c)).

Definition shard_registry_new (shard_count worker_count : nat) (shutting_down : bool) (now_ms : Z)
    : ShardRegistry :=
  mkShardRegistry (replicate shard_count (shard_cell_new now_ms))
    (replicate worker_count (mkWorkerCell false 0)) shutting_down.

(** An update of [self.shards[shard]]. *)
Definition on_shard (f : ShardCell → ShardCell) (shard : nat) (r : ShardRegistry) : option ShardRegistry :=
  c ← rg_shards r !! shard;
  Some (mkShardRegistry (<[shard := f c]> (rg_shards r)) (rg_workers r) (rg_shutting_down r)).

Definition registry_state (r : ShardRegistry) (shard : nat) : option ShardState :=
  shard_cell_state <$> rg_shards r !! shard.
Definition registry_reason (r : ShardRegistry) (shard : nat) : option (option OfflineReason) :=
  (λ c, from_u8 (sc_reason c)) <$> rg_shards r !! shard.

Definition mark_up (shard : nat) (now_ms : Z) : ShardRegistry → option ShardRegistry :=
  on_shard (shard_cell_set Up None now_ms) shard.

(** [respawns] is a wrapping [AtomicU32]. *)
Definition mark_respawning (shard : nat) (now_ms : Z) : ShardRegistry → option ShardRegistry :=
  on_shard (λ c, shard_cell_set Respawning None now_ms
    (mkShardCell (sc_state c) (sc_reason c) (sc_since_ms c) ((sc_respawns c + 1) mod 2 ^ 32)
       (sc_handoff_blocked_since_ms c))) shard.

Definition exit_state (shutting_down : bool) (exit : SupervisorExit) : ShardState * option OfflineReason :=
  match exit with
  | SupInputClosed => if shutting_down then (Stopped, None) else (Offline, Some ReasonFlusherExited)
  | SupCounterScanFailed => (Offline, Some ReasonCounterScanFailed)
  | SupRespawnExhausted => (Offline, Some ReasonRespawnExhausted)
  end.

Definition mark_exit (shard : nat) (exit : SupervisorExit) (now_ms : Z) (r : ShardRegistry)
    : option ShardRegistry :=
  let '(state, reason) := exit_state (rg_shutting_down r) exit in
  on_shard (shard_cell_set state reason now_ms) shard r.

(** Zero clears the marker; a stamp is a compare-exchange with zero. *)
Definition stamp (since_unix_ms cell : Z) : Z :=
  if since_unix_ms =? 0 then 0 else if cell =? 0 then since_unix_ms else cell.
Definition set_handoff_blocked_since_ms (shard : nat) (since_unix_ms : Z)
    : ShardRegistry → option ShardRegistry :=
  on_shard (λ c, mkShardCell (sc_state c) (sc_reason c) (sc_since_ms c) (sc_respawns c)
    (stamp since_unix_ms (sc_handoff_blocked_since_ms c))) shard.

Definition handoff_blocked_since_ms (r : ShardRegistry) (shard : nat) : option (option Z) :=
  c ← rg_shards r !! shard;
  let v := sc_handoff_blocked_since_ms c in Some (if v =? 0 then None else Some v).

Definition worker_running (r : ShardRegistry) (worker : nat) : bool :=
  from_option wc_running false (rg_workers r !! worker).

(** The partition a shard belongs to: [shard % self.workers.len().max(1)]. *)
Definition owner (r : ShardRegistry) (shard : nat) : nat := (shard mod Nat.max (length (rg_workers r)) 1)%nat.

Definition ingest_capable (r : ShardRegistry) (shard : nat) : option bool :=
  c ← rg_shards r !! shard;
  Some (match shard_cell_state c with Up | Respawning => true | _ => false end
        && worker_running r (owner r shard)).

(** [WorkerGuard::enter] and its [Drop]. *)
Definition on_worker (f : WorkerCell → WorkerCell) (worker : nat) (r : ShardRegistry) : option ShardRegistry :=
  c ← rg_workers r !! worker;
  Some (mkShardRegistry (rg_shards r) (<[worker := f c]> (rg_workers r)) (rg_shutting_down r)).
Definition worker_guard_enter (worker : nat) : ShardRegistry → option ShardRegistry :=
  on_worker (λ c, mkWorkerCell true (wc_exited_at_ms c)) worker.
Definition worker_guard_drop (worker : nat) (now_ms : Z) : ShardRegistry → option ShardRegistry :=
  on_worker (λ _, mkWorkerCell false (Z.max now_ms 1)) worker.

Definition all_settled (r : ShardRegistry) : bool :=
  forallb (λ c, negb (bool_decide (shard_cell_state c = Starting))) (rg_shards r).

Definition shard_evidence (r : ShardRegistry) : list ShardEvidence :=
  imap (λ s c, mkShardEvidence (Z.of_nat s mod 2 ^ 16) (shard_cell_state c) (from_u8 (sc_reason c))
                 (sc_since_ms c) (sc_respawns c) (worker_running r (owner r s))
                 (let v := sc_handoff_blocked_since_ms c in if v =? 0 then None else Some v) None)
    (rg_shards r).

Definition worker_evidence (r : ShardRegistry) : list WorkerEvidence :=
  imap (λ i w, mkWorkerEvidence (Z.of_nat i mod 2 ^ 16) (wc_running w)
                 (let exited := wc_exited_at_ms w in if exited =? 0 then None else Some exited))
    (rg_workers r).

(** *** Routing over the registry *)

(** The shards a walk finds capable when its reads answer [reads]. *)
Definition capable (reads : nat → bool) (shards : nat) : list nat := List.filter reads (seq 0 shards).

(** [pick_live] with the answers of its three lazy passes: the count, the walk to the target
    and the fallback walk. *)
Definition pick_live_reads (count walk again : nat → bool) (shards : nat) (n : Z) : option Z :=
  let k := length (capable count shards) in
  if (k =? 0)%nat then None else
  let target := Z.to_nat (n mod Z.of_nat k) in
  (λ s : nat, Z.of_nat s mod 2 ^ 32) <$>
    match capable walk shards !! target with
    | Some s => Some s
    | None => head (capable again shards)
    end.

(** What every read answers while nothing changes. *)
Definition capable_now (r : ShardRegistry) (s : nat) : bool := bool_decide (ingest_capable r s = Some true).
Definition ingest_capable_count (r : ShardRegistry) : nat :=
  length (capable (capable_now r) (length (rg_shards r))).
Definition registry_pick_live (r : ShardRegistry) (n : Z) : option Z :=
  pick_live_reads (capable_now r) (capable_now r) (capable_now r) (length (rg_shards r)) n.

(** ** The router *)

(** [trait LiveShards]: the one question routing asks of the registry. *)
Class LiveShards (T : Type) := { pick_live : T → Z → option Z }.
#[global] Instance registry_live_shards : LiveShards ShardRegistry := {| pick_live := registry_pick_live |}.

(** The promise behind it: a round robin over a list of live shards. *)
Class LiveShardsLaws (T : Type) `{LiveShards T} := {
  live_list : T → list Z;
  pick_live_nth t n : pick_live t n = live_list t !! Z.to_nat (n mod blen (live_list t));
}.

Inductive Kind (T : Type) := RoundRobin (shard_count : Z) | Live (shards : T).
Arguments RoundRobin {T} _.
Arguments Live {T} _.

(** [next_ms]: milliseconds since the epoch before which no warning is due. *)
Record WarnLimiter := mkWarnLimiter { wl_interval_ms : Z; wl_next_ms : Z }.
Definition NO_LIVE_SHARD_WARN_INTERVAL_MS : Z := 10 * 1000.
Definition warn_limiter_new (interval_ms : Z) : WarnLimiter := mkWarnLimiter interval_ms 0.

(** [due] by a caller that read the clock as [now], loaded [next] and then reaches the
    compare-exchange. *)
Definition warn_limiter_due (now next : Z) (l : WarnLimiter) : bool * WarnLimiter :=
  if (next <=? now) && (wl_next_ms l =? next)
  then (true, mkWarnLimiter (wl_interval_ms l) (now + wl_interval_ms l)) else (false, l).

Record ShardRouter (T : Type) := mkShardRouter { sr_kind : Kind T; sr_warn_limiter : WarnLimiter }.
Arguments mkShardRouter {T} _ _.
Arguments sr_kind {T} _.
Arguments sr_warn_limiter {T} _.

Definition router_with {T} (kind : Kind T) : ShardRouter T :=
  mkShardRouter kind (warn_limiter_new NO_LIVE_SHARD_WARN_INTERVAL_MS).
Definition router_round_robin {T} (shard_count : Z) : ShardRouter T :=
  router_with (RoundRobin (Z.max shard_count 1)).
Definition router_live {T} (shards : T) : ShardRouter T := router_with (Live shards).

Definition router_pick {T} `{LiveShards T} (r : ShardRouter T) (n : Z) : option Z :=
  match sr_kind r with
  | RoundRobin shard_count => Some (n mod shard_count mod 2 ^ 32)
  | Live shards => pick_live shards n
  end.

(** [refuse]: the refusal is counted, and logged when a warning is due ([now] and [next] as
    in [warn_limiter_due]). *)
Definition router_refuse {T} (now next refused : Z) (r : ShardRouter T) : Z * bool * ShardRouter T :=
  let '(due, l) := warn_limiter_due now next (sr_warn_limiter r) in
  (refused + 1, due, mkShardRouter (sr_kind r) l).

(** ** The wab_max_bytes hysteresis *)

Definition low_water (cap : Z) : Z := cap / 10 * 9.

(** The answer and the flag afterwards. *)
Definition evaluate (cap bytes : Z) (rejecting : bool) : bool * bool :=
  if cap =? 0 then (false, rejecting) else
  let now := if rejecting then low_water cap <=? bytes else cap <=? bytes in
  (now, if Bool.eqb now rejecting then rejecting else now).

(** ** Proofs: codes *)

Lemma no_reason : from_u8 (T := OfflineReason) NO_REASON = None.
Proof. done. Qed.

Lemma shard_cell_state_set st re now c : shard_cell_state (shard_cell_set st re now c) = st.
Proof. unfold shard_cell_state. cbn. by rewrite from_as_u8. Qed.

Lemma shard_cell_reason_set st re now c : from_u8 (sc_reason (shard_cell_set st re now c)) = re.
Proof. destruct re as [x|]; cbn; [by rewrite from_as_u8|done]. Qed.

(** ** Proofs: the life of a shard *)

(** Every call a supervisor, a flusher or a worker makes on the registry. *)
Inductive registry_step : ShardRegistry → ShardRegistry → Prop :=
| step_up s now r r' : mark_up s now r = Some r' → registry_step r r'
| step_respawning s now r r' : mark_respawning s now r = Some r' → registry_step r r'
| step_exit s exit now r r' : mark_exit s exit now r = Some r' → registry_step r r'
| step_handoff s since r r' : set_handoff_blocked_since_ms s since r = Some r' → registry_step r r'
| step_enter k r r' : worker_guard_enter k r = Some r' → registry_step r r'
| step_drop k now r r' : worker_guard_drop k now r = Some r' → registry_step r r'
| step_shutdown r : registry_step r (mkShardRegistry (rg_shards r) (rg_workers r) true).

(** The cell holds codes of its types, and a reason exactly when it is offline. *)
Definition cell_wf (c : ShardCell) : Prop :=
  ∃ st re, sc_state c = as_u8 (T := ShardState) st ∧ sc_reason c = from_option as_u8 NO_REASON re ∧
    (is_Some (re : option OfflineReason) ↔ st = Offline).

Lemma cell_wf_set st re now c : (is_Some re ↔ st = Offline) → cell_wf (shard_cell_set st re now c).
Proof. intros H. by exists st, re. Qed.

Lemma on_shard_Some f s r r' :
  on_shard f s r = Some r' →
  ∃ c, rg_shards r !! s = Some c ∧ rg_shards r' = <[s := f c]> (rg_shards r) ∧
       rg_workers r' = rg_workers r ∧ rg_shutting_down r' = rg_shutting_down r.
Proof. unfold on_shard. destruct (rg_shards r !! s) as [c|]; cbn; [|done]. intros [= <-]. by exists c. Qed.

Lemma on_shard_wf f s r r' :
  on_shard f s r = Some r' → (∀ c, cell_wf c → cell_wf (f c)) →
  Forall cell_wf (rg_shards r) → Forall cell_wf (rg_shards r').
Proof.
  intros (c & Hc & -> & _)%on_shard_Some Hf Hall. apply Forall_insert; [done|].
  apply Hf. by apply (Forall_lookup_1 _ _ _ _ Hall Hc).
Qed.

Lemma on_worker_shards f k r r' : on_worker f k r = Some r' → rg_shards r' = rg_shards r.
Proof. unfold on_worker. destruct (rg_workers r !! k); cbn; [|done]. by intros [= <-]. Qed.

Lemma registry_step_wf r r' :
  registry_step r r' → Forall cell_wf (rg_shards r) → Forall cell_wf (rg_shards r').
Proof.
  destruct 1 as [s now r r' H|s now r r' H|s ex now r r' H|s since r r' H|k r r' H|k now r r' H|r]; intros Hall.
  - eapply on_shard_wf; [exact H| |done]. intros c _. apply cell_wf_set. split; [by intros []|done].
  - eapply on_shard_wf; [exact H| |done]. intros c _. apply cell_wf_set. split; [by intros []|done].
  - unfold mark_exit in H. destruct (exit_state _ _) as [st re] eqn:E.
    eapply on_shard_wf; [exact H| |done]. intros c _. apply cell_wf_set.
    destruct ex, (rg_shutting_down r); cbn in E; simplify_eq; split; try done; by intros [].
  - eapply on_shard_wf; [exact H| |done]. done.
  - by rewrite (on_worker_shards _ _ _ _ H).
  - by rewrite (on_worker_shards _ _ _ _ H).
  - done.
Qed.

Lemma registry_new_wf n k sd now : Forall cell_wf (rg_shards (shard_registry_new n k sd now)).
Proof. apply Forall_replicate. exists Starting, None. repeat split; [by intros []|done]. Qed.

Lemma registry_steps_wf r r' :
  rtc registry_step r r' → Forall cell_wf (rg_shards r) → Forall cell_wf (rg_shards r').
Proof. induction 1; eauto using registry_step_wf. Qed.

Lemma cell_wf_reason c : cell_wf c → is_Some (from_u8 (T := OfflineReason) (sc_reason c)) ↔ shard_cell_state c = Offline.
Proof.
  intros (st & re & Hst & Hre & Hiff). unfold shard_cell_state. rewrite Hst, Hre, from_as_u8. cbn [default from_option].
  rewrite <-Hiff. destruct re as [x|]; cbn [from_option]; [by rewrite from_as_u8|by rewrite no_reason].
Qed.

(** Whatever the supervisors, flushers and workers do to the registry, and in whatever
    order, a shard reports a reason for being offline exactly when it is offline; the
    public evidence of a shard is ingest-capable exactly when routing may pick it. *)
Theorem registry_reports_truthfully n k sd now r s e :
  rtc registry_step (shard_registry_new n k sd now) r → shard_evidence r !! s = Some e →
  (is_Some (se_reason e) ↔ se_state e = Offline) ∧
  registry_state r s = Some (se_state e) ∧
  ingest_capable r s = Some (evidence_ingest_capable e).
Proof.
  intros Hr%registry_steps_wf He; [|apply registry_new_wf].
  unfold shard_evidence in He. rewrite list_lookup_imap in He.
  destruct (rg_shards r !! s) as [c|] eqn:Hc; [|done]. cbn in He. simplify_eq. cbn [se_reason se_state].
  split; [|split].
  - apply cell_wf_reason. by apply (Forall_lookup_1 _ _ _ _ Hr Hc).
  - unfold registry_state. by rewrite Hc.
  - unfold ingest_capable, evidence_ingest_capable. by rewrite Hc.
Qed.

(** *** The hand-off marker *)

Definition marker (r : ShardRegistry) (s : nat) : option Z := sc_handoff_blocked_since_ms <$> rg_shards r !! s.

Lemma handoff_blocked_marker r s :
  handoff_blocked_since_ms r s = (λ v, if v =? 0 then None else Some v) <$> marker r s.
Proof. unfold handoff_blocked_since_ms, marker. by destruct (rg_shards r !! s). Qed.

Lemma set_marker s t r r' :
  set_handoff_blocked_since_ms s t r = Some r' → marker r' s = stamp t <$> marker r s.
Proof.
  intros (c & Hc & Hs & _)%on_shard_Some. unfold marker.
  by rewrite Hs, list_lookup_insert_eq, Hc by (by eapply lookup_lt_Some).
Qed.

(** A run of stamps. *)
Fixpoint stamps (s : nat) (ts : list Z) (r : ShardRegistry) : option ShardRegistry :=
  match ts with
  | [] => Some r
  | t :: ts => set_handoff_blocked_since_ms s t r ≫= stamps s ts
  end.

Lemma stamps_marker s ts r r' v :
  stamps s ts r = Some r' → Forall (λ t, t ≠ 0) ts → v ≠ 0 → marker r s = Some v → marker r' s = Some v.
Proof.
  intros H Hts Hv. revert r H. induction Hts as [|t ts Ht _ IH]; intros r H Hm; cbn in H; [by simplify_eq|].
  destruct (set_handoff_blocked_since_ms s t r) as [r1|] eqn:E; [|done]. cbn in H. apply (IH r1 H).
  rewrite (set_marker _ _ _ _ E), Hm. cbn. unfold stamp.
  by destruct (Z.eqb_spec t 0), (Z.eqb_spec v 0).
Qed.

(** The hand-off marker of a shard is the time of the first block of the current
    episode: of the stamps since the marker was last cleared the first one stands,
    however many follow, and a zero clears it. *)
Theorem handoff_marker_keeps_first r s since later r' r'' :
  handoff_blocked_since_ms r s = Some None → since ≠ 0 → Forall (λ t, t ≠ 0) later →
  stamps s (since :: later) r = Some r' → set_handoff_blocked_since_ms s 0 r' = Some r'' →
  handoff_blocked_since_ms r' s = Some (Some since) ∧ handoff_blocked_since_ms r'' s = Some None.
Proof.
  rewrite !handoff_blocked_marker. intros H0 Hs Hl H Hz. cbn in H.
  destruct (marker r s) as [v|] eqn:Hm; [|done]. cbn in H0. destruct (Z.eqb_spec v 0) as [->|]; [|done].
  destruct (set_handoff_blocked_since_ms s since r) as [r1|] eqn:E; [|done]. cbn in H.
  assert (Hm' : marker r' s = Some since).
  { apply (stamps_marker _ _ _ _ _ H); [done..|]. rewrite (set_marker _ _ _ _ E), Hm. cbn.
    unfold stamp. by destruct (Z.eqb_spec since 0). }
  rewrite (set_marker _ _ _ _ Hz), Hm'. cbn. by destruct (Z.eqb_spec since 0).
Qed.

(** ** Proofs: routing *)

Lemma elem_of_capable reads n s : s ∈ capable reads n ↔ (s < n)%nat ∧ reads s = true.
Proof.
  unfold capable. rewrite list_elem_of_In, filter_In, <-list_elem_of_In, elem_of_seq. intuition lia.
Qed.

Lemma capable_NoDup reads n : NoDup (capable reads n).
Proof. apply NoDup_ListNoDup, List.NoDup_filter, NoDup_ListNoDup, NoDup_seq. Qed.

Lemma as_u32 (s n : nat) : (s < n)%nat → Z.of_nat n ≤ 2 ^ 32 → Z.of_nat s mod 2 ^ 32 = Z.of_nat s.
Proof. intros. apply Z.mod_small. lia. Qed.

(** Routing tolerates a registry that changes under it. Whatever each of its three
    passes over the registry reads, [pick_live] returns a shard that exists and that the
    pass it came from read as capable; and it finds one whenever some shard is capable
    throughout. *)
Theorem pick_live_racing count walk again shards n :
  0 ≤ n → Z.of_nat shards ≤ 2 ^ 32 →
  (∀ z, pick_live_reads count walk again shards n = Some z →
     ∃ s, z = Z.of_nat s ∧ (s < shards)%nat ∧ (walk s = true ∨ again s = true)) ∧
  ((∃ s, (s < shards)%nat ∧ count s = true ∧ walk s = true ∧ again s = true) →
     is_Some (pick_live_reads count walk again shards n)).
Proof.
  intros Hn Hsh. unfold pick_live_reads. split.
  - intros z H. destruct (_ =? 0)%nat; [done|].
    destruct (capable walk shards !! _) as [s|] eqn:E; cbn in H.
    + injection H as <-. apply list_elem_of_lookup_2, elem_of_capable in E as [? ?].
      exists s. rewrite (as_u32 s shards) by done. auto.
    + destruct (capable again shards) as [|s l] eqn:Ha; [done|]. cbn in H. injection H as <-.
      assert (s ∈ capable again shards) as [? ?]%elem_of_capable by (rewrite Ha; set_solver).
      exists s. rewrite (as_u32 s shards) by done. auto.
  - intros (s & Hs & Hc & Hw & Ha). destruct (Nat.eqb_spec (length (capable count shards)) 0) as [H0|_].
    + apply nil_length_inv in H0. assert (s ∈ capable count shards) by (by apply elem_of_capable).
      rewrite H0 in *. set_solver.
    + destruct (capable walk shards !! _); [by eexists|].
      assert (s ∈ capable again shards) as Hin by (by apply elem_of_capable).
      destruct (capable again shards); [set_solver|by eexists].
Qed.

Lemma target_in_range {A} (l : list A) n : l ≠ [] → is_Some (l !! Z.to_nat (n mod blen l)).
Proof.
  intros Hl. apply lookup_lt_is_Some_2. unfold blen. destruct l as [|x l]; [done|]. cbn [length].
  pose proof (Z.mod_pos_bound n (Z.of_nat (S (length l)))). lia.
Qed.

(** The registry keeps the promise routing relies on. *)
#[global] Program Instance registry_live_shards_laws : LiveShardsLaws ShardRegistry := {|
  live_list r := (λ s : nat, Z.of_nat s mod 2 ^ 32) <$> capable (capable_now r) (length (rg_shards r));
|}.
Next Obligation.
  intros r n. cbn [pick_live registry_live_shards]. unfold registry_pick_live, pick_live_reads.
  rewrite list_lookup_fmap. unfold blen at 1. rewrite length_fmap.
  destruct (decide (capable (capable_now r) (length (rg_shards r)) = [])) as [->|Hne]; [done|].
  destruct (target_in_range _ n Hne) as [x Hx]. unfold blen in Hx. rewrite Hx.
  by destruct (capable _ _).
Qed.

(** The shards picked for [k] consecutive connections, from the one numbered [n]. *)
Definition picks {T} `{LiveShards T} (r : ShardRouter T) (n : Z) (k : nat) : list (option Z) :=
  (λ i : nat, router_pick r (n + Z.of_nat i)) <$> seq 0 k.

Lemma lookups_seq {A} (l : list A) : (λ j, l !! j) <$> seq 0 (length l) = Some <$> l.
Proof.
  apply list_eq. intros i. rewrite !list_lookup_fmap. destruct (decide (i < length l)%nat) as [H|H].
  - rewrite lookup_seq_lt by done. cbn. by destruct (lookup_lt_is_Some_2 l i H) as [x ->].
  - rewrite lookup_seq_ge, lookup_ge_None_2 by lia. done.
Qed.

Lemma mod_shift_inj n k i j : 0 ≤ i < k → 0 ≤ j < k → (n + i) mod k = (n + j) mod k → i = j.
Proof.
  intros Hi Hj H. pose proof (Z.div_mod (n + i) k ltac:(lia)). pose proof (Z.div_mod (n + j) k ltac:(lia)).
  rewrite H in *. assert (i - j = k * ((n + i) / k - (n + j) / k)) by lia.
  assert ((n + i) / k - (n + j) / k = 0) by nia. nia.
Qed.

Lemma rotation_Permutation {A} (l : list A) n :
  (λ i : nat, l !! Z.to_nat ((n + Z.of_nat i) mod blen l)) <$> seq 0 (length l) ≡ₚ Some <$> l.
Proof.
  destruct (decide (l = [])) as [->|Hne]; [done|].
  assert (Hk : 0 < blen l) by (unfold blen; destruct l; [done|cbn; lia]).
  set (f := λ i : nat, Z.to_nat ((n + Z.of_nat i) mod blen l)).
  assert (Hb : ∀ i, 0 ≤ (n + Z.of_nat i) mod blen l < blen l) by (intros; by apply Z.mod_pos_bound).
  rewrite <-lookups_seq.
  transitivity ((λ j, l !! j) <$> (f <$> seq 0 (length l))); [by rewrite <-list_fmap_compose|].
  apply fmap_Permutation, submseteq_length_Permutation; [|by rewrite length_fmap].
  apply NoDup_submseteq.
  - apply NoDup_fmap_2_strong; [|apply NoDup_seq]. intros i j Hi%elem_of_seq Hj%elem_of_seq Hij.
    unfold f in Hij. pose proof (Hb i). pose proof (Hb j). apply Z2Nat.inj in Hij; [|lia..].
    apply mod_shift_inj in Hij; unfold blen in *; lia.
  - intros i (j & -> & _)%list_elem_of_fmap. unfold f. apply elem_of_seq.
    specialize (Hb j). unfold blen in *. lia.
Qed.

(** Live routing is fair. Over any [k] consecutive connections, [k] being the number of
    live shards, the router sends exactly one connection to each of them and none
    elsewhere; with no live shard it refuses. *)
Theorem live_routing_fair {T} `{LiveShardsLaws T} (shards : T) n :
  picks (router_live shards) n (length (live_list shards)) ≡ₚ Some <$> live_list shards ∧
  (live_list shards = [] → router_pick (router_live shards) n = None).
Proof.
  split.
  - unfold picks. erewrite list_fmap_ext; [apply rotation_Permutation|].
    intros i x _. apply pick_live_nth.
  - intros Hl. cbn. by rewrite pick_live_nth, Hl.
Qed.

(** ** Proofs: the warning limiter *)

(** Callers reach the compare-exchange one after the other, each with the clock reading and
    the value it loaded, however long ago; the readings of those that warn. *)
Fixpoint warnings (calls : list (Z * Z)) (l : WarnLimiter) : list Z :=
  match calls with
  | [] => []
  | (now, next) :: calls =>
    let '(due, l) := warn_limiter_due now next l in
    if due then now :: warnings calls l else warnings calls l
  end.

Lemma warnings_after calls l : Forall (λ t, wl_next_ms l ≤ t) (take 1 (warnings calls l)).
Proof.
  revert l. induction calls as [|[now next] calls IH]; intros l; cbn [warnings]; [constructor|].
  unfold warn_limiter_due. destruct ((next <=? now) && (wl_next_ms l =? next)) eqn:E; [|apply IH].
  b2p. subst. cbn [take]. by constructor.
Qed.

(** Two callers that race for the same interval cannot both warn: successive
    warnings are at least one interval apart, whatever stale values the callers loaded. *)
Theorem warnings_spaced calls l pre t u post :
  warnings calls l = pre ++ t :: u :: post → t + wl_interval_ms l ≤ u.
Proof.
  revert l pre. induction calls as [|[now next] calls IH]; intros l pre; cbn [warnings]; [by destruct pre|].
  unfold warn_limiter_due. destruct ((next <=? now) && (wl_next_ms l =? next)) eqn:E; [|apply IH].
  set (l' := mkWarnLimiter _ _). destruct pre as [|x pre]; intros [= -> H].
  - pose proof (warnings_after calls l') as Hf. rewrite H in Hf. cbn [take] in Hf.
    apply Forall_cons in Hf as [Hf _]. exact Hf.
  - by apply (IH l') in H.
Qed.

(** ** Proofs: the cap *)

(** The flag after a sequence of byte counts, starting from accepting. *)
Definition flag_after (cap : Z) (readings : list Z) : bool :=
  foldl (λ rejecting bytes, snd (evaluate cap bytes rejecting)) false readings.

(** [low_water] neither overflows nor reaches the cap, and is within nine bytes of nine
    tenths of it. *)
Lemma low_water_bounds cap :
  is_u64 cap → is_u64 (low_water cap) ∧ (0 < cap → low_water cap < cap) ∧
  9 * cap - 90 ≤ 10 * low_water cap ≤ 9 * cap.
Proof.
  unfold is_u64, low_water. intros H. pose proof (Z.div_mod cap 10 ltac:(lia)).
  pose proof (Z.mod_pos_bound cap 10 ltac:(lia)). repeat split; lia.
Qed.

Lemma evaluate_agrees cap bytes rej : 0 < cap → fst (evaluate cap bytes rej) = snd (evaluate cap bytes rej).
Proof.
  intros H. unfold evaluate. destruct (Z.eqb_spec cap 0); [lia|]. cbn. by destruct (Bool.eqb_spec (if rej then low_water cap <=? bytes else cap <=? bytes) rej).
Qed.

Lemma evaluate_flag cap bytes rej :
  0 < cap → snd (evaluate cap bytes rej) = if rej then low_water cap <=? bytes else cap <=? bytes.
Proof. intros H. rewrite <-evaluate_agrees by done. unfold evaluate. by destruct (Z.eqb_spec cap 0); [lia|]. Qed.

(** The hysteresis. After any sequence of byte counts the cap rejects exactly when some
    count reached the cap and none after it fell below the low-water mark, which lies
    strictly under the cap and within nine bytes of nine tenths of it; a cap of zero
    never rejects. *)
Theorem cap_hysteresis cap readings :
  is_u64 cap →
  (0 < cap →
   flag_after cap readings = true ↔
   ∃ before b after, readings = before ++ b :: after ∧ cap ≤ b ∧ Forall (λ x, low_water cap ≤ x) after) ∧
  (0 < cap → low_water cap < cap ∧ 9 * cap - 90 ≤ 10 * low_water cap ≤ 9 * cap) ∧
  (∀ bytes rej, fst (evaluate 0 bytes rej) = false).
Proof.
  intros Hcap. destruct (low_water_bounds cap Hcap) as (_ & Hlt & Hb).
  split; [|by split; [auto|]]. intros Hpos. unfold flag_after.
  induction readings as [|x l IH] using rev_ind.
  - split; [done|]. by intros ([|] & ? & ? & ? & _).
  - rewrite foldl_snoc, evaluate_flag by done. destruct (foldl _ _ l) eqn:E; rewrite Z.leb_le.
    + destruct (proj1 IH eq_refl) as (pre & b & post & -> & Hb' & Hf). split.
      * intros Hx. exists pre, b, (post ++ [x]). rewrite <-app_assoc. split; [done|]. split; [done|].
        by apply Forall_app_2; [|constructor].
      * intros (pre' & b' & post' & Heq & Hb2 & Hf'). destruct post' as [|y post' _] using rev_ind.
        -- apply app_inj_tail in Heq as [_ ->]. lia.
        -- rewrite app_comm_cons, app_assoc in Heq. apply app_inj_tail in Heq as [_ ->].
           apply Forall_app in Hf' as [_ Hf']. by apply Forall_cons in Hf' as [? _].
    + split.
      * intros Hx. exists l, x, []. done.
      * intros (pre' & b' & post' & Heq & Hb2 & Hf'). destruct post' as [|y post' _] using rev_ind.
        -- by apply app_inj_tail in Heq as [_ ->].
        -- rewrite app_comm_cons, app_assoc in Heq. apply app_inj_tail in Heq as [-> ->].
           apply Forall_app in Hf' as [Hf' _]. assert (false = true); [|done]. apply IH. by exists pre', b', post'.
Qed.

(** ** Witnesses *)

Module ShardsWitness.
(** Three shards and two workers: shard 0 is up, shard 1 gave up, shard 2 is respawning. *)
Definition start : ShardRegistry := shard_registry_new 3 2 false 10.
Definition after {A} (f : A → option A) (o : option A) : option A := o ≫= f.
Definition running : ShardRegistry :=
  default start (after (mark_respawning 2 14) (after (mark_exit 1 SupRespawnExhausted 13)
    (after (mark_up 0 12) (after (worker_guard_enter 0) (Some start))))).

Lemma running_reachable : rtc registry_step start running.
Proof.
  eapply rtc_l; [by apply (step_enter 0)|]. eapply rtc_l; [by apply (step_up 0 12)|].
  eapply rtc_l; [by apply (step_exit 1 SupRespawnExhausted 13)|].
  eapply rtc_l; [by apply (step_respawning 2 14)|]. apply rtc_refl.
Qed.

Lemma registry_reports_truthfully_witness :
  ∃ e, shard_evidence running !! 1%nat = Some e ∧ is_Some (se_reason e) ∧
       ingest_capable running 1 = Some false.
Proof.
  destruct (shard_evidence running !! 1%nat) as [e|] eqn:E; [|by vm_compute in E].
  destruct (registry_reports_truthfully 3 2 false 10 running 1 e running_reachable E) as (H1 & H2 & H3).
  exists e. split; [done|]. split; [apply H1; by vm_compute in H2; simplify_eq|by vm_compute].
Defined.

(** Shards 0 and 2 take the connections in turn. *)
Lemma live_routing_fair_witness :
  picks (router_live running) 7 2 ≡ₚ [Some 0; Some 2] ∧
  router_pick (router_live start) 7 = None.
Proof.
  split; [exact (proj1 (live_routing_fair running 7))|apply (live_routing_fair start 7); by vm_compute].
Defined.

(** Shard 0 goes offline between the count and the walk. *)
Lemma pick_live_racing_witness :
  is_Some (pick_live_reads (capable_now running) (λ s, (s =? 2)%nat) (λ s, (s =? 2)%nat) 3 5).
Proof.
  apply (proj2 (pick_live_racing (capable_now running) (λ s, (s =? 2)%nat) (λ s, (s =? 2)%nat) 3 5
    ltac:(lia) ltac:(lia))).
  exists 2%nat. split; [lia|by vm_compute].
Defined.

Lemma cap_hysteresis_witness : flag_after 100 [50; 120; 95; 91] = true.
Proof.
  apply (proj1 (cap_hysteresis 100 [50; 120; 95; 91] ltac:(by vm_compute))); [lia|].
  exists [50], 120, [95; 91]. split; [done|]. split; [lia|]. by repeat constructor; vm_compute.
Defined.
End ShardsWitness.
