(* ===== verification/Handoff.v ===== *)
(** * The flusher-to-drain hand-off (weir-server, wab/handoff.rs)

    [hand_off]: a loop of timed sends with a shutdown budget. The channel, the shutdown
    flag and the clock act through a script of send outcomes (an exhausted script is a
    channel with room). Log lines are not modelled. *)

From Stdlib Require Import ZArith Lia Strings.Byte String.
From stdpp Require Import base gmap list option.
From S2P Require Import Prelude Names Io Fs Shards.

Definition HANDOFF_SLICE : Z := 100 * 1000 * 1000.
Definition FINAL_HANDOFF_TIMEOUT : Z := 1000 * 1000 * 1000.
Definition BUDGET_NOT_STARTED : Z := u64_max.

(** What one [clock.send_timeout] does: the channel took the path (and now holds [len]
    of them), or the slice passed (with the shutdown flag and the clock as the flusher
    reads them next), or the receiver is gone. *)
Inductive SendOutcome :=
| SendOk (len : Z)
| SendTimeout (shutting_down : bool) (now_ns : Z)
| SendDisconnected.

(** The flusher's end of the channel: the script of what is going to happen, the paths
    delivered so far and the shared [HandoffState]. *)
Record Port := mkPort {
  po_script : list SendOutcome;
  po_delivered : list path;
  po_shutdown_t0_ns : Z;
  po_blocked_since_ms : Z;
  po_drain_depth : Z;
}.

Inductive NotHandedOff := ShutdownBudget | Disconnected.
Inductive HandOff := Delivered | NotHandedOffBecause (r : NotHandedOff).

(** The shard's marker in the registry, set by [ShardRegistry::set_handoff_blocked_since_ms]. *)
Definition port_set_blocked_since_ms (po : Port) (since : Z) : Port :=
  let v := stamp since (po_blocked_since_ms po) in
  mkPort (po_script po) (po_delivered po) (po_shutdown_t0_ns po) v (po_drain_depth po).

(** [unix_ms_now()]. *)
Definition unix_ms_now (w : World) : Z := Z.min (Z.max 0 (w_unix w) / 1000000) u64_max.

Definition mark_blocked (w : World) (po : Port) : Port :=
  port_set_blocked_since_ms po (Z.max (unix_ms_now w) 1).
Definition clear_blocked (po : Port) : Port := port_set_blocked_since_ms po 0.

(** [HandoffState::shutdown_budget_spent]. *)
Definition shutdown_budget_spent (po : Port) (now : Z) : bool * Port :=
  let now_ns := if now <=? u64_max then now else u64_max - 1 in
  let '(t0, po) :=
    if po_shutdown_t0_ns po =? BUDGET_NOT_STARTED then
      (now_ns, mkPort (po_script po) (po_delivered po) now_ns (po_blocked_since_ms po)
                 (po_drain_depth po))
    else (po_shutdown_t0_ns po, po) in
  (FINAL_HANDOFF_TIMEOUT <=? Z.max 0 (now_ns - t0) + HANDOFF_SLICE, po).

Definition set_script (po : Port) (l : list SendOutcome) : Port :=
  mkPort l (po_delivered po) (po_shutdown_t0_ns po) (po_blocked_since_ms po) (po_drain_depth po).

Definition deliver (po : Port) (p : path) (len : Z) : Port :=
  mkPort (po_script po) (po_delivered po ++ [p]) (po_shutdown_t0_ns po) (po_blocked_since_ms po) len.

Definition clear_if (marked : bool) (po : Port) : Port := if marked then clear_blocked po else po.

(** [hand_off]: the loop over the scripted sends. *)
Fixpoint hand_off_loop (script : list SendOutcome) (sealed : path) (marked : bool) (po : Port)
    (w : World) : HandOff * Port * World :=
  match script with
  | [] =>
    let len := po_drain_depth po + 1 in
    (Delivered, deliver (clear_if marked (set_script po [])) sealed len, w)
  | SendOk len :: script =>
    (Delivered, deliver (clear_if marked (set_script po script)) sealed len, w)
  | SendTimeout shutting_down now :: script =>
    let po := set_script po script in
    let po := if marked then po else mark_blocked w po in
    if shutting_down : bool then
      let '(spent, po) := shutdown_budget_spent po now in
      if spent : bool then
        (NotHandedOffBecause ShutdownBudget, clear_blocked po, inc WabNotHandedOffBudget w)
      else hand_off_loop script sealed true po w
    else hand_off_loop script sealed true po w
  | SendDisconnected :: script =>
    (NotHandedOffBecause Disconnected, clear_if marked (set_script po script),
     inc WabNotHandedOffDisconnected w)
  end.

Definition hand_off (sealed : path) (po : Port) (w : World) : HandOff * Port * World :=
  hand_off_loop (po_script po) sealed false po w.

(** ** Facts *)

(** The hand-off touches only the port and the metrics. *)
Lemma hand_off_fs sealed po w r po' w' :
  hand_off sealed po w = (r, po', w') →
  w_fs w' = w_fs w ∧ w_instant w' = w_instant w ∧ w_unix w' = w_unix w.
Proof.
  unfold hand_off. generalize (po_script po) as script, false as marked. intros script.
  revert po w. induction script as [|[len|sd now|] script IH]; intros po w marked H; cbn in H;
    try (by injection H as <- <- <-).
  destruct sd; [|by apply IH in H].
  destruct (shutdown_budget_spent _ _) as [[] po1]; [by injection H as <- <- <-|by apply IH in H].
Qed.

Lemma budget_spent_delivered po now b po' :
  shutdown_budget_spent po now = (b, po') → po_delivered po' = po_delivered po.
Proof. unfold shutdown_budget_spent. destruct (po_shutdown_t0_ns po =? _); by intros [= _ <-]. Qed.

(** A sealed segment is put on the drain channel exactly once when the hand-off reports
    [Delivered] and not at all otherwise; when it gives up, the shutdown budget or the
    closed channel is counted, once. *)
Theorem hand_off_exactly_once sealed po w r po' w' :
  hand_off sealed po w = (r, po', w') →
  (r = Delivered ∧ po_delivered po' = po_delivered po ++ [sealed] ∧ w' = w) ∨
  (r = NotHandedOffBecause ShutdownBudget ∧ po_delivered po' = po_delivered po ∧
   w' = inc WabNotHandedOffBudget w) ∨
  (r = NotHandedOffBecause Disconnected ∧ po_delivered po' = po_delivered po ∧
   w' = inc WabNotHandedOffDisconnected w).
Proof.
  unfold hand_off. generalize (po_script po) as script, false as marked. intros script.
  revert po. induction script as [|[len|sd now|] script IH]; intros po marked H; cbn in H.
  - injection H as <- <- <-. left. by destruct marked.
  - injection H as <- <- <-. left. by destruct marked.
  - assert (Hm : po_delivered (if marked then set_script po script
                               else mark_blocked w (set_script po script)) = po_delivered po)
      by (by destruct marked).
    rewrite <-Hm. destruct sd; [|by apply IH in H].
    destruct (shutdown_budget_spent _ _) as [spent po1] eqn:Es.
    apply budget_spent_delivered in Es. rewrite <-Es.
    destruct spent; [|by apply IH in H]. injection H as <- <- <-. right. left. done.
  - injection H as <- <- <-. right. right. by destruct marked.
Qed.

(** The budget test on a started budget. *)
Lemma budget_spent_started po t j :
  0 ≤ t → t + j * HANDOFF_SLICE ≤ u64_max - 1 → 0 ≤ j → po_shutdown_t0_ns po = t →
  shutdown_budget_spent po (t + j * HANDOFF_SLICE) = (9 <=? j, po).
Proof.
  intros Ht Hmax Hj H0. unfold shutdown_budget_spent, BUDGET_NOT_STARTED. unfold HANDOFF_SLICE in *.
  rewrite (proj2 (Z.leb_le _ u64_max)) by lia. rewrite H0, (proj2 (Z.eqb_neq t _)) by lia.
  f_equal. unfold FINAL_HANDOFF_TIMEOUT.
  destruct (Z.leb_spec 9 j); [apply Z.leb_le|apply Z.leb_gt]; lia.
Qed.

Lemma hand_off_loop_started sealed w t m : ∀ j marked po r po' w',
  0 ≤ t → t + 9 * HANDOFF_SLICE ≤ u64_max - 1 → (j ≤ 9)%nat → (10 ≤ j + m)%nat →
  po_shutdown_t0_ns po = t →
  hand_off_loop (map (λ j, SendTimeout true (t + Z.of_nat j * HANDOFF_SLICE)) (seq j m))
    sealed marked po w = (r, po', w') →
  r = NotHandedOffBecause ShutdownBudget ∧ length (po_script po') = (j + m - 10)%nat.
Proof.
  induction m as [|m IH]; intros j marked po r po' w' Ht Hmax Hj Hm H0 H; [lia|].
  cbn [seq map hand_off_loop] in H. set (po1 := if marked then _ else _) in H.
  assert (H1 : po_shutdown_t0_ns po1 = t) by (unfold po1; by destruct marked).
  rewrite budget_spent_started in H; [|lia|unfold HANDOFF_SLICE in *; lia|lia|done].
  destruct (Z.leb_spec 9 (Z.of_nat j)) as [H9|H9].
  - injection H as <- <- <-. split; [done|]. assert (j = 9%nat) as -> by lia.
    assert (Hl : length (po_script (clear_blocked po1)) = length (po_script po1)) by done.
    rewrite Hl. unfold po1. destruct marked; cbn; rewrite length_map, length_seq; lia.
  - apply IH in H; [|lia|lia|lia|lia|done]. destruct H as [-> ->]. split; [done|lia].
Qed.

(** Once shutdown has begun, a full channel holds a flusher for ten slices: if every
    send times out with the flag set and the clock advances by a slice each time, the
    hand-off gives up at the tenth. *)
Theorem hand_off_shutdown_bound sealed po w t n r po' w' :
  0 ≤ t → t + 9 * HANDOFF_SLICE ≤ u64_max - 1 →
  po_shutdown_t0_ns po = BUDGET_NOT_STARTED → (10 ≤ n)%nat →
  po_script po = map (λ j, SendTimeout true (t + Z.of_nat j * HANDOFF_SLICE)) (seq 0 n) →
  hand_off sealed po w = (r, po', w') →
  r = NotHandedOffBecause ShutdownBudget ∧ length (po_script po') = (n - 10)%nat.
Proof.
  intros Ht Hmax H0 Hn Hs. unfold hand_off. rewrite Hs.
  destruct n as [|n]; [lia|]. cbn [seq map hand_off_loop].
  unfold shutdown_budget_spent. cbn [po_shutdown_t0_ns set_script mark_blocked
    port_set_blocked_since_ms].
  rewrite H0, Z.eqb_refl, Z.mul_0_l, Z.add_0_r.
  unfold HANDOFF_SLICE in Hmax. rewrite (proj2 (Z.leb_le t u64_max)) by lia. rewrite Z.sub_diag.
  change (FINAL_HANDOFF_TIMEOUT <=? Z.max 0 0 + HANDOFF_SLICE) with false. cbv iota.
  intros H. apply (hand_off_loop_started sealed w t n 1%nat true) in H;
    [|done|unfold HANDOFF_SLICE; lia|lia|lia|done].
  destruct H as [-> ->]. split; [done|lia].
Qed.

Lemma hand_off_exactly_once_witness :
  let po := mkPort [SendTimeout false 5; SendOk 3] [] BUDGET_NOT_STARTED 0 0 in
  let w := mkWorld (mkFs ∅ ∅ [] ∅ 1%positive ∅ []) (λ _, 0) 0 0 in
  let '(r, po', _) := hand_off [bstr "a"] po w in r = Delivered ∧ po_delivered po' = [[bstr "a"]].
Proof.
  intros po w.
  destruct (hand_off [bstr "a"] po w) as [[r po'] w'] eqn:E.
  destruct (hand_off_exactly_once _ _ _ _ _ _ E) as [(Hr & Hd & _)|[(Hr & _)|(Hr & _)]].
  - by split.
  - subst r. vm_compute in E. discriminate E.
  - subst r. vm_compute in E. discriminate E.
Defined.

Lemma hand_off_shutdown_bound_witness :
  let script := map (λ j, SendTimeout true (7 + Z.of_nat j * HANDOFF_SLICE)) (seq 0 12) in
  let po := mkPort script [] BUDGET_NOT_STARTED 0 0 in
  let w := mkWorld (mkFs ∅ ∅ [] ∅ 1%positive ∅ []) (λ _, 0) 0 0 in
  let '(r, po', _) := hand_off [bstr "a"] po w in
  r = NotHandedOffBecause ShutdownBudget ∧ length (po_script po') = 2%nat.
Proof.
  intros script po w.
  destruct (hand_off [bstr "a"] po w) as [[r po'] w'] eqn:E.
  apply (hand_off_shutdown_bound [bstr "a"] po w 7 12 r po' w'); [lia|by vm_compute|done|lia|done|done].
Defined.
