(* ===== verification/Flusher.v ===== *)
(** * The flusher (weir-server, wab/mod.rs)

    [flush_batch] (the group commit), the timed seals, the flusher thread's loop and the
    panic supervisor of crates/weir-server/src/wab/mod.rs, with the work units, batches
    and ack outcomes of crates/weir-server/src/models.rs. A oneshot sender is identified
    with the work unit that carries it; what it sends is appended to a log. *)

From Stdlib Require Import ZArith Lia Strings.Byte String.
From stdpp Require Import base gmap list option sets.
From S2P Require Import Prelude Deps Wire Text Names Io Fs Durable Format Reader Segment Shards Handoff.

(** ** Work units and acks *)

Record RecordSlot := mkRecordSlot { rs_segment : bytes; rs_index : Z }.
Record AckOutcome := mkAckOutcome { ao_durable : bool; ao_coordinate : option RecordSlot }.

(** [AckOutcome::durable] and [AckOutcome::failed]. *)
Definition ack_durable (c : option RecordSlot) : AckOutcome := mkAckOutcome true c.
Definition ack_failed : AckOutcome := mkAckOutcome false None.

Record WorkUnit := mkWorkUnit {
  wu_shard_id : Z;
  wu_payload : bytes;
  wu_durability : Durability;
  wu_wants_coordinate : bool;
  wu_ack_tx : Z;
}.

Record Batch := mkBatch { b_shard_id : Z; b_records : list WorkUnit }.

Record PendingAck := mkPendingAck { pa_tx : WorkUnit; pa_slot : option RecordSlot }.

(** What the senders have sent, in order. *)
Abbreviation AckLog := (list (WorkUnit * AckOutcome)).

(** [PendingAck::resolve]. *)
Definition resolve (durable : bool) (p : PendingAck) : WorkUnit * AckOutcome :=
  (pa_tx p, if durable then ack_durable (pa_slot p) else ack_failed).

(** ** EWMA of the fsync latency *)

Definition ewma_update_us (current_us sample_us : Z) : Z :=
  Z.min (saturating_mul_u64 current_us 3 / 4 + sample_us / 4) u64_max.

Section Flusher.
Context {CRC : Crc32} {ZS : Zstd}.

(** The state [flush_batch] works on: the writer, the environment, the channel to the
    drain, the two ack vectors, the log of resolved acks and the latency hint. *)
Record FlushState := mkFlushState {
  fl_writer : ShardWriter;
  fl_world : World;
  fl_port : Port;
  fl_durable_acks : list PendingAck;
  fl_pending_acks : list PendingAck;
  fl_log : AckLog;
  fl_coalesce_hint : Z;
}.

(** The body of the record loop of [flush_batch]. *)
Definition flush_unit (st : FlushState) (unit : WorkUnit) : FlushState :=
  let '(r, writer, w) := shard_write_record (fl_writer st) (wu_payload unit) (fl_world st) in
  match r with
  | Err _ =>
    let dropped := match last_write_failure writer with
                   | SegmentDropped => true | RecordRejected => false end in
    let log := if dropped then fl_log st ++ map (resolve false) (fl_pending_acks st) else fl_log st in
    let pending := if dropped then [] else fl_pending_acks st in
    mkFlushState writer w (fl_port st) (fl_durable_acks st) pending
      (log ++ [(unit, ack_failed)]) (fl_coalesce_hint st)
  | Ok rotation =>
    let slot := if wu_wants_coordinate unit then
                  option_map (λ segment, mkRecordSlot segment (last_record_index writer))
                    (drain_address writer rotation)
                else None in
    let '(po, w, durable, pending) :=
      match rotation with
      | Some sealed =>
        let w := inc WabSegmentsSealed w in
        let '(_, po, w) := hand_off sealed (fl_port st) w in
        (po, w, fl_durable_acks st ++ fl_pending_acks st, [])
      | None => (fl_port st, w, fl_durable_acks st, fl_pending_acks st)
      end in
    match wu_durability unit with
    | Durable =>
      match rotation with
      | Some _ => mkFlushState writer w po (durable ++ [mkPendingAck unit slot]) pending
                    (fl_log st) (fl_coalesce_hint st)
      | None => mkFlushState writer w po durable (pending ++ [mkPendingAck unit slot])
                    (fl_log st) (fl_coalesce_hint st)
      end
    | Buffered =>
      mkFlushState writer w po durable pending (fl_log st ++ [(unit, ack_durable slot)])
        (fl_coalesce_hint st)
    end
  end.

(** [fsync_observed]; [sample_us] is the measured latency. *)
Definition fsync_observed (writer : ShardWriter) (hint sample_us : Z) (w : World)
    : bool * ShardWriter * Z * World :=
  let '(result, writer, w) := fsync_current writer w in
  let hint := ewma_update_us hint sample_us in
  match result with
  | Ok _ => (true, writer, hint, w)
  | Err _ => (false, writer, hint, inc WabFsyncFailures w)
  end.

(** The end of [flush_batch]: the group fsync and the acks. *)
Definition flush_finish (st : FlushState) (sample_us : Z) : FlushState :=
  let st :=
    match fl_pending_acks st with
    | [] => st
    | pending =>
      let '(ok, writer, hint, w) :=
        fsync_observed (fl_writer st) (fl_coalesce_hint st) sample_us (fl_world st) in
      let w := inc_by WabGroupCommitRecords (blen pending) w in
      mkFlushState writer w (fl_port st) (fl_durable_acks st) []
        (fl_log st ++ map (resolve ok) pending) hint
    end in
  mkFlushState (fl_writer st) (fl_world st) (fl_port st) [] [] 
    (fl_log st ++ map (resolve true) (fl_durable_acks st)) (fl_coalesce_hint st).

Definition flush_batch (batches : list Batch) (sample_us : Z) (st : FlushState) : FlushState :=
  flush_finish (foldl flush_unit st (concat (map b_records batches))) sample_us.

(** ** Timed seals *)

Inductive TimedSeal := Idle | Lifetime.

(** [a.zip(b).is_some_and(|(max, v)| v >= max)]. *)
Definition due (limit value : option Z) : bool :=
  match limit, value with Some max, Some v => max <=? v | _, _ => false end.

Definition due_timed_seal (segment_max_age idle_for segment_max_lifetime active_age : option Z)
    : option TimedSeal :=
  if due segment_max_lifetime active_age then Some Lifetime
  else if due segment_max_age idle_for then Some Idle else None.

(** [seal_before_size_threshold]. *)
Definition seal_before_size_threshold (st : FlushState) : bool * FlushState :=
  let set writer w po := mkFlushState writer w po (fl_durable_acks st) (fl_pending_acks st)
                           (fl_log st) (fl_coalesce_hint st) in
  match seal_current (fl_writer st) (fl_world st) with
  | (Ok (Some sealed), writer, w) =>
    let w := inc WabSegmentsSealed w in
    let '(_, po, w) := hand_off sealed (fl_port st) w in
    (true, set writer w po)
  | (Ok None, writer, w) => (true, set writer w (fl_port st))
  | (Err _, writer, w) => (false, set writer w (fl_port st))
  end.

(** ** The flusher thread *)

Record FlusherConfig := mkFlusherConfig {
  fc_batch_size : Z;
  fc_segment_max_age : option Z;
  fc_segment_max_lifetime : option Z;
}.

Inductive FlusherExit := InputClosed | CounterScanFailed.

(** The thread's state between two iterations: [ft_queue] is the work channel,
    [ft_open] whether a sender is left. *)
Record FlusherThread := mkFlusherThread {
  ft_state : FlushState;
  ft_batches : list Batch;
  ft_last_write_at : option Z;
  ft_queue : list Batch;
  ft_open : bool;
  ft_exit : option FlusherExit;
}.

(** The startup scan: four attempts, the counter unestablished if all fail. *)
Fixpoint startup_scan (attempts : nat) (writer : ShardWriter) (w : World)
    : bool * ShardWriter * World :=
  match scan_and_advance_counter writer w with
  | (Ok _, writer, w) => (true, writer, w)
  | (Err _, writer, w) =>
    match attempts with
    | O => (false, writer, w)
    | S attempts => startup_scan attempts writer w
    end
  end.

(** The warm-up: a fresh writer and its counter scan (one attempt and three retries). *)
Definition flusher_start (shard_id : Z) (shard_dir : path) (max_bytes : Z) (c : Compression)
    (level : Z) (po : Port) (queue : list Batch) (hint : Z) (w : World) : FlusherThread :=
  let writer := shard_writer_new shard_id shard_dir max_bytes c level w in
  let '(ok, writer, w) := startup_scan 3 writer w in
  mkFlusherThread (mkFlushState writer w po [] [] [] hint) [] None queue true
    (if ok then None else Some CounterScanFailed).

(** [while record_count < batch_size { try_recv }]. *)
Fixpoint drain_queue (batch_size record_count : Z) (batches queue : list Batch)
    : list Batch * list Batch :=
  match queue with
  | [] => (batches, [])
  | b :: q =>
    if record_count <? batch_size then
      drain_queue batch_size (record_count + blen (b_records b)) (batches ++ [b]) q
    else (batches, queue)
  end.

Definition elapsed (t : option Z) (w : World) : option Z := option_map (λ t, w_instant w - t) t.

(** A timed seal if one is due; [None] in the second component when the idle clock stops. *)
Definition timed_seal_step (cfg : FlusherConfig) (st : FlushState) (last_write_at : option Z)
    : FlushState * option Z :=
  match due_timed_seal (fc_segment_max_age cfg) (elapsed last_write_at (fl_world st))
          (fc_segment_max_lifetime cfg) (active_segment_age (fl_writer st) (fl_world st)) with
  | Some _ =>
    let '(done_, st) := seal_before_size_threshold st in
    (st, if done_ then None else last_write_at)
  | None => (st, last_write_at)
  end.

(** One iteration of the loop, woken with the channel as it is. *)
Definition flusher_wake (cfg : FlusherConfig) (sample_us : Z) (t : FlusherThread) : FlusherThread :=
  match ft_exit t with
  | Some _ => t
  | None =>
    match ft_queue t with
    | b :: q =>
      let batches := ft_batches t ++ [b] in
      let record_count := foldr Z.add 0 (map (λ b, blen (b_records b)) batches) in
      let '(batches, q) := drain_queue (fc_batch_size cfg) record_count batches q in
      let st := flush_batch batches sample_us (ft_state t) in
      let last_write_at := match fc_segment_max_age cfg with
                           | Some _ => Some (w_instant (fl_world st))
                           | None => ft_last_write_at t
                           end in
      let '(st, last_write_at) :=
        match fc_segment_max_lifetime cfg with
        | Some _ => timed_seal_step cfg st last_write_at
        | None => (st, last_write_at)
        end in
      mkFlusherThread st [] last_write_at q (ft_open t) None
    | [] =>
      if ft_open t then (* recv_timeout: Timeout *)
        match ft_batches t with
        | _ :: _ =>
          let st := flush_batch (ft_batches t) sample_us (ft_state t) in
          mkFlusherThread st [] (Some (w_instant (fl_world st))) [] true None
        | [] =>
          if has_active_segment (fl_writer (ft_state t)) then
            let '(st, last_write_at) := timed_seal_step cfg (ft_state t) (ft_last_write_at t) in
            mkFlusherThread st [] last_write_at [] true None
          else t
        end
      else (* Disconnected: the shutdown seal *)
        let st := ft_state t in
        let '(r, writer, w) := seal_current (fl_writer st) (fl_world st) in
        let '(po, w) :=
          match r with
          | Ok (Some sealed) =>
            let '(_, po, w) := hand_off sealed (fl_port st) (inc WabSegmentsSealed w) in (po, w)
          | _ => (fl_port st, w)
          end in
        mkFlusherThread
          (mkFlushState writer w po (fl_durable_acks st) (fl_pending_acks st) (fl_log st)
             (fl_coalesce_hint st))
          (ft_batches t) (ft_last_write_at t) [] false (Some InputClosed)
    end
  end.

(** What happens to a flusher: a worker sends a batch, the workers go away, the clocks
    advance, the thread wakes up. *)
Inductive Event :=
| EvSend (b : Batch)
| EvClose
| EvClock (unix : Z) (dt : nat)
| EvWake (sample_us : Z).

Definition set_clock (unix : Z) (dt : nat) (st : FlushState) : FlushState :=
  let w := fl_world st in
  mkFlushState (fl_writer st) (mkWorld (w_fs w) (w_metrics w) unix (w_instant w + Z.of_nat dt))
    (fl_port st) (fl_durable_acks st) (fl_pending_acks st) (fl_log st) (fl_coalesce_hint st).

Definition flusher_step (cfg : FlusherConfig) (t : FlusherThread) (e : Event) : FlusherThread :=
  match e with
  | EvSend b =>
    if ft_open t then
      mkFlusherThread (ft_state t) (ft_batches t) (ft_last_write_at t) (ft_queue t ++ [b]) true (ft_exit t)
    else t
  | EvClose =>
    mkFlusherThread (ft_state t) (ft_batches t) (ft_last_write_at t) (ft_queue t) false (ft_exit t)
  | EvClock unix dt =>
    mkFlusherThread (set_clock unix dt (ft_state t)) (ft_batches t) (ft_last_write_at t) (ft_queue t)
      (ft_open t) (ft_exit t)
  | EvWake sample_us => flusher_wake cfg sample_us t
  end.

Definition flusher_run (cfg : FlusherConfig) (t : FlusherThread) (es : list Event) : FlusherThread :=
  foldl (flusher_step cfg) t es.
End Flusher.

(** ** The panic supervisor *)

Definition MAX_FLUSHER_RESPAWNS : Z := 10.

(** One run of the flusher body: it returned, or it panicked. *)
Inductive BodyOutcome := BodyExit (e : FlusherExit) | BodyPanic.

(** What the supervisor writes to the shard's slot, and its sleeps (milliseconds). *)
Inductive SupEvent := MarkExit (e : SupervisorExit) | MarkRespawning | SleepMs (ms : Z) | CountPanic.

(** [run_with_panic_supervision] over the outcomes of the successive bodies; [None]: the
    outcomes ran out, the last body is still running. *)
Fixpoint run_with_panic_supervision (attempt : Z) (bodies : list BodyOutcome)
    : option SupervisorExit * list SupEvent :=
  match bodies with
  | [] => (None, [])
  | BodyExit e :: _ =>
    let exit_ := match e with
                 | InputClosed => SupInputClosed
                 | CounterScanFailed => SupCounterScanFailed
                 end in
    (Some exit_, [MarkExit exit_])
  | BodyPanic :: bodies =>
    let attempt := attempt + 1 in
    if MAX_FLUSHER_RESPAWNS <? attempt then
      (Some SupRespawnExhausted, [CountPanic; MarkExit SupRespawnExhausted])
    else
      let '(r, evs) := run_with_panic_supervision attempt bodies in
      (r, [CountPanic; MarkRespawning; SleepMs (10 * attempt)] ++ evs)
  end.

(** ** The crown invariant *)

Section FlusherFacts.
Context {CRC : Crc32} {CL : Crc32Laws} {ZS : Zstd} {ZL : ZstdLaws}.
Implicit Types (s : Fs) (sw : ShardWriter) (ss : list bytes).

(** A coordinate names position [j] of segment [k] as the drain will see it. *)
Definition slot_at sw (k : Z) (j : nat) (slot : option RecordSlot) : Prop :=
  ∀ r, slot = Some r →
    rs_segment r = segment_identity (sealed_path_for (segment_path (sw_shard_dir sw) k)) ∧
    rs_index r = Z.of_nat j + 1.

(** The record of unit [u] is on stable storage: whatever a crash does, it is record [j]
    of segment [k] of the shard, and its coordinate (if any) says so. *)
Definition rec_durable s sw (u : WorkUnit) (slot : option RecordSlot) : Prop :=
  ∃ k i ss j stored, k < sw_next_counter sw ∧
    segment_durable s (sw_shard_dir sw) k i (sw_compression sw) ss ∧
    ss !! j = Some stored ∧ stores sw (wu_payload u) stored ∧ slot_at sw k j slot.

(** The record of unit [u] is in the active segment [ss], not yet synced. *)
Definition rec_pending sw ss (p : PendingAck) : Prop :=
  wu_durability (pa_tx p) = Durable ∧
  ∃ k j stored, sw_active_path sw = Some (segment_path (sw_shard_dir sw) k) ∧ 0 ≤ k ∧
    ss !! j = Some stored ∧ stores sw (wu_payload (pa_tx p)) stored ∧ slot_at sw k j (pa_slot p).

(** A positive ack of a [Durable] unit is never false. *)
Definition ack_true s sw (a : WorkUnit * AckOutcome) : Prop :=
  ao_durable (snd a) = true → wu_durability (fst a) = Durable →
  rec_durable s sw (fst a) (ao_coordinate (snd a)).

Record flush_inv (st : FlushState) ss : Prop := mkFlushInv {
  fi_writer : sw_inv (w_fs (fl_world st)) (fl_writer st) ss;
  fi_pending : Forall (rec_pending (fl_writer st) ss) (fl_pending_acks st);
  fi_durable : Forall (λ p, rec_durable (w_fs (fl_world st)) (fl_writer st) (pa_tx p) (pa_slot p))
                 (fl_durable_acks st);
  fi_log : Forall (ack_true (w_fs (fl_world st)) (fl_writer st)) (fl_log st);
}.

Lemma stores_same sw sw' p x : sw_same sw sw' → stores sw p x → stores sw' p x.
Proof. unfold stores. intros (_ & _ & -> & -> & _). done. Qed.

Lemma slot_at_same sw sw' k j slot : sw_same sw sw' → slot_at sw k j slot → slot_at sw' k j slot.
Proof. unfold slot_at. intros (-> & _). done. Qed.

(** Durable records stay durable as the writer goes on. *)
Lemma rec_durable_le s s' sw sw' u slot :
  wle (sw_shard_dir sw) (sw_next_counter sw) s s' → fs_wf s → sw_same sw sw' →
  rec_durable s sw u slot → rec_durable s' sw' u slot.
Proof.
  intros Hle Hwf Hsame (k & i & ss & j & x & Hk & Hd & Hj & Hx & Hs).
  exists k, i, ss, j, x. split; [destruct Hsame as (_ & _ & _ & _ & _ & Hn); lia|].
  split; [|split; [done|split; [by eapply stores_same|by eapply slot_at_same]]].
  pose proof Hsame as (-> & _ & -> & _). by eapply segment_durable_le.
Qed.

Lemma ack_true_le s s' sw sw' a :
  wle (sw_shard_dir sw) (sw_next_counter sw) s s' → fs_wf s → sw_same sw sw' →
  ack_true s sw a → ack_true s' sw' a.
Proof. intros Hle Hwf Hs Ha H1 H2. eapply rec_durable_le; eauto. Qed.

(** The promotion of pending records when their segment has become durable. *)
Lemma pending_durable s sw sw' ss ss' k i p :
  sw_same sw sw' → k < sw_next_counter sw' →
  segment_durable s (sw_shard_dir sw) k i (sw_compression sw) (ss ++ ss') →
  (∀ k', sw_active_path sw = Some (segment_path (sw_shard_dir sw) k') → 0 ≤ k' → k' = k) →
  rec_pending sw ss p → rec_durable s sw' (pa_tx p) (pa_slot p).
Proof.
  intros Hsame Hk Hd Hact (_ & k' & j & x & Hp & Hk' & Hj & Hx & Hs).
  rewrite (Hact k' Hp Hk') in Hs. exists k, i, (ss ++ ss'), j, x.
  split; [done|]. split; [by pose proof Hsame as (-> & _ & -> & _)|].
  split; [by apply lookup_app_l_Some|]. split; [by eapply stores_same|by eapply slot_at_same].
Qed.

(** Only units with a record in the active segment are pending, so there is one. *)
Lemma pending_active s sw ss ps : sw_inv s sw ss → Forall (rec_pending sw ss) ps → ps ≠ [] → sw_active sw ≠ None.
Proof.
  intros [_ _ _ _ Ha] Hp Hne Hnone. rewrite Hnone in Ha. subst ss.
  destruct Hp as [|p ps (_ & k & j & x & _ & _ & Hj & _) _]; [done|]. by rewrite lookup_nil in Hj.
Qed.

(** The invariant does not look at the channel, the metrics or the clocks. *)
Lemma flush_inv_ext st st' ss :
  flush_inv st ss →
  w_fs (fl_world st') = w_fs (fl_world st) → fl_writer st' = fl_writer st →
  fl_pending_acks st' = fl_pending_acks st → fl_durable_acks st' = fl_durable_acks st →
  fl_log st' = fl_log st → flush_inv st' ss.
Proof. intros [H1 H2 H3 H4] E1 E2 E3 E4 E5. constructor; by rewrite ?E1, ?E2, ?E3, ?E4, ?E5. Qed.

(** Carrying durable acks and the log over a writer step. *)
Lemma flush_inv_carry st ss sw' s' :
  flush_inv st ss →
  wle (sw_shard_dir (fl_writer st)) (sw_next_counter (fl_writer st)) (w_fs (fl_world st)) s' →
  sw_same (fl_writer st) sw' →
  Forall (λ p, rec_durable s' sw' (pa_tx p) (pa_slot p)) (fl_durable_acks st) ∧
  Forall (ack_true s' sw') (fl_log st).
Proof.
  intros [[Hwf _ _ _ _] _ Hd Hl] Hle Hs.
  split.
  - eapply Forall_impl; [exact Hd|]. intros x. by eapply rec_durable_le.
  - eapply Forall_impl; [exact Hl|]. intros x. by eapply ack_true_le.
Qed.

Lemma ack_true_failed s sw us :
  Forall (ack_true s sw) (map (resolve false) us).
Proof.
  induction us as [|u us IH]; [constructor|]. cbn [map]. apply Forall_cons_2; [|done].
  intros Hf. discriminate Hf.
Qed.

Lemma ack_true_resolved s sw ps :
  Forall (λ p, rec_durable s sw (pa_tx p) (pa_slot p)) ps → Forall (ack_true s sw) (map (resolve true) ps).
Proof.
  induction 1 as [|p ps Hp Hps IH]; [constructor|]. cbn [map]. apply Forall_cons_2; [|done].
  intros _ _. exact Hp.
Qed.

(** The coordinate the flusher captures right after the write. *)
Lemma slot_open s sw ss (b : bool) :
  sw_inv s sw ss → sw_active sw ≠ None →
  ∃ k, sw_active_path sw = Some (segment_path (sw_shard_dir sw) k) ∧ 0 ≤ k ∧
    ∀ ss0 x, ss = ss0 ++ [x] →
    slot_at sw k (length ss0)
      (if b then option_map (λ segment, mkRecordSlot segment (last_record_index sw))
                   (drain_address sw None) else None).
Proof.
  intros [_ _ _ _ Ha] Hne. destruct (sw_active sw) as [seg|]; [|done].
  destruct Ha as (k & Hk & Hseg & _ & Hp & Hr). exists k. split; [done|].
  split; [by apply (si_k _ _ _ _ _ Hseg)|]. intros ss0 x ->. unfold slot_at, drain_address.
  rewrite Hp. destruct b; [|done]. cbn. intros r [= <-]. cbn. split; [done|].
  unfold last_record_index. rewrite Hr, blen_app. done.
Qed.

(** A member of the pending vector shows that a segment is active. *)
Lemma pending_in_active s sw ss ps p :
  sw_inv s sw ss → Forall (rec_pending sw ss) ps → p ∈ ps → sw_active sw ≠ None.
Proof.
  intros Hw Hp Hin. eapply pending_active; [done|done|]. intros ->. by apply not_elem_of_nil in Hin.
Qed.

(** Pending records stay pending while the active segment keeps its name and grows. *)
Lemma pending_grow sw sw' ss ss' ps :
  sw_same sw sw' → (ps ≠ [] → sw_active_path sw' = sw_active_path sw) →
  Forall (rec_pending sw ss) ps → Forall (rec_pending sw' (ss ++ ss')) ps.
Proof.
  intros Hsame Hpath Hp. apply Forall_forall. intros p Hin. rewrite Forall_forall in Hp.
  destruct (Hp p Hin) as (Ht & k & j & y & Hp' & Hk & Hj & Hy & Hs). split; [done|].
  exists k, j, y. rewrite Hpath by (intros ->; by apply not_elem_of_nil in Hin).
  split; [by pose proof Hsame as (-> & _)|]. split; [done|]. split; [by apply lookup_app_l_Some|].
  split; [by eapply stores_same|by eapply slot_at_same].
Qed.

(** The rotation: the new record and the pending ones are durable. *)
Lemma flush_rotated st ss u sealed sw' w' k i x :
  flush_inv st ss → sw_same (fl_writer st) sw' →
  stores (fl_writer st) (wu_payload u) x → k < sw_next_counter sw' →
  sealed = sealed_path_for (segment_path (sw_shard_dir (fl_writer st)) k) →
  segment_durable (w_fs w') (sw_shard_dir (fl_writer st)) k i (sw_compression (fl_writer st)) (ss ++ [x]) →
  sw_active_records sw' = blen ss + 1 →
  (sw_active (fl_writer st) ≠ None →
   sw_active_path (fl_writer st) = Some (segment_path (sw_shard_dir (fl_writer st)) k)) →
  Forall (λ p, rec_durable (w_fs w') sw' (pa_tx p) (pa_slot p)) (fl_pending_acks st) ∧
  rec_durable (w_fs w') sw' u
    (if wu_wants_coordinate u then
       option_map (λ segment, mkRecordSlot segment (last_record_index sw')) (drain_address sw' (Some sealed))
     else None).
Proof.
  intros [Hw Hp _ _] Hsame Hx Hk -> Hdur Hrec Hpath. split.
  - apply Forall_forall. intros p Hin.
    eapply (pending_durable _ (fl_writer st)); [done|done|exact Hdur| |by eapply Forall_forall in Hp].
    intros k' Hk' Hk0. rewrite Hpath in Hk' by (by eapply pending_in_active).
    injection Hk' as Hk'. symmetry in Hk'. apply segment_path_inj in Hk' as [_ ->]; [done|done|].
    by apply Hdur.
  - exists k, i, (ss ++ [x]), (length ss), x. split; [done|].
    split; [by pose proof Hsame as (-> & _ & -> & _)|].
    split; [by rewrite lookup_app_r, Nat.sub_diag|]. split; [by eapply stores_same|].
    unfold slot_at. destruct (wu_wants_coordinate u); [|done]. cbn. intros q [= <-]. cbn.
    pose proof Hsame as (-> & _). unfold last_record_index. by rewrite Hrec.
Qed.

(** The append: the new record is pending like the others. *)
Lemma flush_appended st ss u sw' w' x :
  flush_inv st ss → sw_same (fl_writer st) sw' → sw_inv (w_fs w') sw' (ss ++ [x]) →
  stores (fl_writer st) (wu_payload u) x → sw_active sw' ≠ None →
  (sw_active (fl_writer st) ≠ None → sw_active_path sw' = sw_active_path (fl_writer st)) →
  Forall (rec_pending sw' (ss ++ [x])) (fl_pending_acks st) ∧
  (wu_durability u = Durable →
   rec_pending sw' (ss ++ [x]) (mkPendingAck u
     (if wu_wants_coordinate u then
        option_map (λ segment, mkRecordSlot segment (last_record_index sw')) (drain_address sw' None)
      else None))).
Proof.
  intros [Hw Hp _ _] Hsame Hw' Hx Hsome Hpath. split.
  - eapply pending_grow; [done| |done]. intros Hne. apply Hpath. by eapply pending_active.
  - intros Ht. split; [done|].
    destruct (slot_open _ _ _ (wu_wants_coordinate u) Hw' Hsome) as (k & Hk & Hk0 & Hslot).
    exists k, (length ss), x. split; [done|]. split; [done|].
    split; [by rewrite lookup_app_r, Nat.sub_diag|]. split; [by eapply stores_same|].
    by apply (Hslot ss x).
Qed.

Lemma ack_true_buffered s sw u slot :
  wu_durability u = Buffered → ack_true s sw (u, ack_durable slot).
Proof. intros Hb _ Ht. cbn in Ht. congruence. Qed.

Ltac flush_goal :=
  constructor; cbn [fl_writer fl_world fl_pending_acks fl_durable_acks fl_log];
  rewrite ?Forall_app, ?Forall_singleton; eauto using ack_true_failed, ack_true_buffered.

(** What the socket layer admits: no payload above the protocol's hard cap. *)
Definition fits (u : WorkUnit) : Prop := blen (wu_payload u) ≤ MAX_PAYLOAD_HARD_CAP.
Definition units (bs : list Batch) : list WorkUnit := concat (map b_records bs).

Lemma units_app bs bs' : units (bs ++ bs') = units bs ++ units bs'.
Proof. unfold units. by rewrite map_app, concat_app. Qed.

(** One record: the invariant of the flush loop. *)
Lemma flush_unit_inv st ss u : flush_inv st ss → fits u → ∃ ss', flush_inv (flush_unit st u) ss'.
Proof.
  intros Hinv Hfit. pose proof Hinv as [Hw Hp Hd Hl]. unfold flush_unit.
  destruct (shard_write_record (fl_writer st) (wu_payload u) (fl_world st)) as [[r sw'] w'] eqn:E.
  destruct (shard_write_record_spec _ _ _ _ _ _ _ E Hw Hfit) as (Hle & Hsame & ss' & Hw' & Ho).
  destruct (flush_inv_carry st ss sw' (w_fs w') Hinv Hle Hsame) as [Hd' Hl'].
  destruct r as [[sealed|]|e]; cbn in Ho.
  - destruct Ho as (-> & Hnone & k & i & x & Hx & Hk & -> & Hdur & Hrec & Hpath).
    destruct (hand_off _ (fl_port st) (inc WabSegmentsSealed w')) as [[ho po] w2] eqn:Eh.
    apply hand_off_fs in Eh as (Efs & _ & _). cbn in Efs.
    edestruct (flush_rotated st ss u) as [Hpd Hu]; try done.
    exists []. destruct (wu_durability u) eqn:Et; flush_goal; rewrite ?Efs; auto using ack_true_buffered.
  - destruct Ho as (x & Hx & -> & Hsome & Hpath).
    edestruct (flush_appended st ss u) as [Hpp Hu]; try done.
    exists (ss ++ [x]). destruct (wu_durability u) eqn:Et; flush_goal.
  - assert (Hf : ack_true (w_fs w') sw' (u, ack_failed)) by (intros Hf; discriminate Hf).
    destruct Ho as [(-> & -> & Ha & Hpath)|(-> & -> & Ha)].
    + exists ss. flush_goal. rewrite <-(app_nil_r ss). by eapply pending_grow.
    + exists []. flush_goal.
Qed.

Lemma flush_units_inv us st ss :
  flush_inv st ss → Forall fits us → ∃ ss', flush_inv (foldl flush_unit st us) ss'.
Proof.
  intros Hinv Hus. revert st ss Hinv. induction Hus as [|u us Hu Hus IH]; intros st ss Hinv; [by exists ss|].
  destruct (flush_unit_inv st ss u Hinv Hu) as [ss' H']. by apply (IH _ ss').
Qed.

(** Resolving the durable acks keeps the invariant. *)
Lemma flush_inv_resolve st ss :
  flush_inv st ss → fl_pending_acks st = [] →
  flush_inv (mkFlushState (fl_writer st) (fl_world st) (fl_port st) [] []
               (fl_log st ++ map (resolve true) (fl_durable_acks st)) (fl_coalesce_hint st)) ss.
Proof.
  intros [Hw Hp Hd Hl] _. constructor; cbn; try done; try by constructor.
  apply Forall_app. split; [done|]. by apply ack_true_resolved.
Qed.

(** The group commit: pending records are acked positively only after a sync that
    covers the segment they are in. *)
Lemma flush_finish_inv st ss sample : flush_inv st ss → ∃ ss', flush_inv (flush_finish st sample) ss'.
Proof.
  intros Hinv. unfold flush_finish.
  destruct (fl_pending_acks st) as [|p0 ps] eqn:Ep; [exists ss; by apply flush_inv_resolve|].
  pose proof Hinv as [Hw Hp Hd Hl]. unfold fsync_observed.
  destruct (fsync_current (fl_writer st) (fl_world st)) as [[r sw'] w'] eqn:E.
  destruct (fsync_current_spec _ _ _ _ _ _ E Hw) as (Hle & Hsame & Hr).
  destruct (flush_inv_carry st ss sw' (w_fs w') Hinv Hle Hsame) as [Hd' Hl'].
  destruct r as [[]|e].
  - destruct Hr as (-> & Hw' & Hdur). exists ss.
    assert (Hact : sw_active (fl_writer st) ≠ None) by (eapply pending_active; [done|exact Hp|congruence]).
    destruct (Hdur Hact) as (k & i & Hk & Hpath & Hs). rewrite <-(app_nil_r ss) in Hs.
    assert (Hpd : Forall (λ p, rec_durable (w_fs w') (fl_writer st) (pa_tx p) (pa_slot p)) (p0 :: ps)).
    { rewrite <-Ep. eapply Forall_impl; [exact Hp|]. intros p.
      apply (pending_durable _ _ _ ss [] k i); [done|done|done|].
      intros k' Hk' Hk0. rewrite Hpath in Hk'. injection Hk' as Hk'.
      symmetry in Hk'. apply segment_path_inj in Hk' as [_ ->]; [done|done|]. by apply Hs. }
    apply (flush_inv_resolve (mkFlushState _ _ _ _ [] _ _)); [|done].
    constructor; cbn; [done|constructor|done|].
    apply Forall_app. split; [done|]. by apply (ack_true_resolved _ _ (p0 :: ps)).
  - destruct Hr as (_ & Hw'). exists [].
    apply (flush_inv_resolve (mkFlushState _ _ _ _ [] _ _)); [|done].
    constructor; cbn; [done|constructor|done|].
    apply Forall_app. split; [done|]. apply (ack_true_failed _ _ (p0 :: ps)).
Qed.

Lemma flush_batch_inv bs sample st ss :
  flush_inv st ss → Forall fits (units bs) → ∃ ss', flush_inv (flush_batch bs sample st) ss'.
Proof.
  intros Hinv Hbs. unfold flush_batch.
  destruct (flush_units_inv (units bs) st ss Hinv Hbs) as [ss' H'].
  by eapply flush_finish_inv.
Qed.

(** A step of the writer that leaves no active segment, outside a flush. *)
Lemma flush_inv_retire st ss sw' w' po hint :
  flush_inv st ss → fl_pending_acks st = [] →
  wle (sw_shard_dir (fl_writer st)) (sw_next_counter (fl_writer st)) (w_fs (fl_world st)) (w_fs w') →
  sw_same (fl_writer st) sw' → sw_inv (w_fs w') sw' [] →
  ∀ w'', w_fs w'' = w_fs w' →
  flush_inv (mkFlushState sw' w'' po (fl_durable_acks st) (fl_pending_acks st) (fl_log st) hint) [].
Proof.
  intros Hinv Hp Hle Hsame Hw' w'' Efs.
  destruct (flush_inv_carry st ss sw' (w_fs w') Hinv Hle Hsame) as [Hd' Hl'].
  constructor; cbn; rewrite ?Efs; try done. by rewrite Hp.
Qed.

Lemma seal_before_inv st ss b st' :
  seal_before_size_threshold st = (b, st') → flush_inv st ss → fl_pending_acks st = [] →
  (∃ ss', flush_inv st' ss') ∧ fl_pending_acks st' = [] ∧ fl_durable_acks st' = fl_durable_acks st.
Proof.
  intros H Hinv Hp. unfold seal_before_size_threshold in H.
  destruct (seal_current (fl_writer st) (fl_world st)) as [[r sw'] w'] eqn:E.
  destruct (seal_current_spec _ _ _ _ _ _ E (fi_writer _ _ Hinv)) as (Hle & Hsame & Hn & Hw' & _).
  destruct r as [[sealed|]|e].
  - destruct (hand_off _ _ _) as [[ho po] w2] eqn:Eh. apply hand_off_fs in Eh as (Efs & _).
    injection H as <- <-. split; [exists []; by eapply flush_inv_retire|done].
  - injection H as <- <-. split; [exists []; by eapply flush_inv_retire|done].
  - injection H as <- <-. split; [exists []; by eapply flush_inv_retire|done].
Qed.

(** ** The thread *)

Record thread_inv (t : FlusherThread) : Prop := mkThreadInv {
  ti_flush : ∃ ss, flush_inv (ft_state t) ss;
  ti_pending : fl_pending_acks (ft_state t) = [];
  ti_durable : fl_durable_acks (ft_state t) = [];
  ti_batches : ft_batches t = [];
  ti_queue : Forall fits (units (ft_queue t));
}.

Definition fits_event (e : Event) : Prop :=
  match e with EvSend b => Forall fits (b_records b) | _ => True end.

Lemma drain_queue_app bs n k q : let '(bs', q') := drain_queue n k bs q in bs' ++ q' = bs ++ q.
Proof.
  revert bs k. induction q as [|b q IH]; intros bs k; cbn; [by rewrite app_nil_r|].
  destruct (k <? n); [|done]. specialize (IH (bs ++ [b]) (k + blen (b_records b))).
  destruct (drain_queue _ _ _ _). by rewrite IH, <-app_assoc.
Qed.

Lemma drain_queue_fits b q n k bs' q' :
  drain_queue n k [b] q = (bs', q') → Forall fits (units (b :: q)) →
  Forall fits (units bs') ∧ Forall fits (units q').
Proof.
  intros E. pose proof (drain_queue_app [b] n k q) as Ha. rewrite E in Ha. cbn in Ha.
  rewrite <-Ha, units_app. by rewrite Forall_app.
Qed.

Lemma flush_batch_empty bs sample st :
  fl_pending_acks (flush_batch bs sample st) = [] ∧ fl_durable_acks (flush_batch bs sample st) = [].
Proof. done. Qed.

Lemma timed_seal_inv cfg st lw st' lw' :
  timed_seal_step cfg st lw = (st', lw') → (∃ ss, flush_inv st ss) →
  fl_pending_acks st = [] → fl_durable_acks st = [] →
  (∃ ss', flush_inv st' ss') ∧ fl_pending_acks st' = [] ∧ fl_durable_acks st' = [].
Proof.
  unfold timed_seal_step. intros H [ss Hinv] Hp Hd.
  destruct (due_timed_seal _ _ _ _); [|by injection H as <- <-; eauto].
  destruct (seal_before_size_threshold st) as [b st1] eqn:E. injection H as <- <-.
  destruct (seal_before_inv _ _ _ _ E Hinv Hp) as (? & ? & Hdd). split; [done|]. split; [done|]. congruence.
Qed.

Lemma flusher_wake_inv cfg sample t : thread_inv t → thread_inv (flusher_wake cfg sample t).
Proof.
  intros Ht. pose proof Ht as [[ss Hinv] Hp Hd Hb Hq]. unfold flusher_wake.
  destruct (ft_exit t); [done|]. destruct (ft_queue t) as [|b q].
  - destruct (ft_open t).
    + rewrite Hb. destruct (has_active_segment _); [|done].
      destruct (timed_seal_step cfg (ft_state t) (ft_last_write_at t)) as [st lw] eqn:E.
      destruct (timed_seal_inv _ _ _ _ _ E (ex_intro _ ss Hinv) Hp Hd) as (? & ? & ?). by constructor.
    + destruct (seal_current _ _) as [[r sw'] w'] eqn:E.
      destruct (seal_current_spec _ _ _ _ _ _ E (fi_writer _ _ Hinv)) as (Hle & Hsame & Hn & Hw' & _).
      destruct r as [[sealed|]|e].
      * destruct (hand_off _ _ _) as [[ho po] w2] eqn:Eh. apply hand_off_fs in Eh as (Efs & _).
        constructor; try done. exists []. by eapply flush_inv_retire.
      * constructor; try done. exists []. by eapply flush_inv_retire.
      * constructor; try done. exists []. by eapply flush_inv_retire.
  - rewrite Hb. destruct (drain_queue _ _ _ _) as [bs q'] eqn:Edq. cbn in Edq.
    apply drain_queue_fits in Edq as [Hbs Hq']; [|done].
    destruct (flush_batch_inv bs sample _ _ Hinv Hbs) as [ss' H'].
    destruct (flush_batch_empty bs sample (ft_state t)) as [Hp' Hd'].
    destruct (fc_segment_max_lifetime cfg); [|by constructor; eauto].
    destruct (timed_seal_step _ _ _) as [st lw] eqn:E.
    destruct (timed_seal_inv _ _ _ _ _ E (ex_intro _ ss' H') Hp' Hd') as (? & ? & ?). by constructor.
Qed.

Lemma flusher_step_inv cfg t e : thread_inv t → fits_event e → thread_inv (flusher_step cfg t e).
Proof.
  intros Ht He. pose proof Ht as [[ss Hinv] Hp Hd Hb Hq]. destruct e as [b| |u dt|sample]; cbn.
  - destruct (ft_open t); [|done]. constructor; eauto. cbn [ft_queue]. rewrite units_app, Forall_app. split; [done|].
    unfold units. cbn. by rewrite app_nil_r.
  - constructor; eauto.
  - constructor; try done. exists ss. by eapply flush_inv_ext.
  - by apply flusher_wake_inv.
Qed.

Lemma flusher_run_inv cfg es t : thread_inv t → Forall fits_event es → thread_inv (flusher_run cfg t es).
Proof.
  intros Ht Hes. revert t Ht. induction Hes as [|e es He Hes IH]; intros t Ht; [done|].
  apply IH. by apply flusher_step_inv.
Qed.

(** A flusher that starts in a durable directory of any disk satisfies the invariant. *)
Lemma startup_scan_inv n sw w b sw' w' :
  startup_scan n sw w = (b, sw', w') → sw_inv (w_fs w) sw [] → sw_active sw = None →
  sw_inv (w_fs w') sw' [] ∧ sw_same sw sw'.
Proof.
  revert sw w. induction n as [|n IH]; intros sw w H Hinv Hn; cbn in H;
    destruct (scan_and_advance_counter sw w) as [[[[]|e] sw1] w1] eqn:E.
  1, 3: injection H as <- <- <-; destruct (scan_spec _ _ _ _ E) as (_ & Hle & Hs & Ha & _);
    (split; [|done]); destruct Hinv as [Hwf Hd Hsid Hnx _]; pose proof Hs as (E1 & E2 & _ & _ & _ & E6);
    constructor; [by eapply le_wf| |by rewrite E2|lia|by rewrite Ha, Hn]; rewrite E1;
    eapply (dir_ready_le (sw_shard_dir sw) (sw_next_counter sw)); [by apply wle_no_path|done].
  all: assert (sw1 = sw ∧ fs_le no_path (w_fs w) (w_fs w1)) as [-> Hle] by
    (unfold scan_and_advance_counter, segment_counters in E;
     destruct (io_bind _ _ w) as [[cs|e'] w2] eqn:Eb; [done|]; injection E as <- <- <-; split; [done|];
     apply io_bind_inv in Eb as [(e'' & Hr & _)|(ps & w3 & Hr & Eb)]; [|done];
     by destruct (read_dir_spec _ _ _ _ Hr) as (? & _)).
  - injection H as <- <- <-. split; [|apply sw_same_refl]. eapply sw_inv_le; [by apply wle_no_path|done|done].
  - apply IH in H; [done| |done]. eapply sw_inv_le; [by apply wle_no_path|done|done].
Qed.

Lemma flusher_start_inv sid d mb c lvl po q hint w :
  fs_wf (w_fs w) → d ≠ [] → durable_dir (w_fs w) d → is_u16 sid → Forall fits (units q) →
  thread_inv (flusher_start sid d mb c lvl po q hint w).
Proof.
  intros Hwf Hd Hdur Hsid Hq. unfold flusher_start.
  destruct (startup_scan 3 _ w) as [[b sw'] w'] eqn:E.
  apply startup_scan_inv in E as [Hinv _]; [|by constructor|done].
  constructor; try done. exists []. constructor; cbn; [done|constructor|constructor|constructor].
Qed.
End FlusherFacts.

(** ** The shard directory of a flusher never changes *)

Section FlusherDir.
Context {CRC : Crc32} {ZS : Zstd}.

Lemma ensure_open_dir sw w r sw' w' : ensure_open sw w = (r, sw', w') → sw_shard_dir sw' = sw_shard_dir sw.
Proof. unfold ensure_open. intros H. repeat split_hyp H; by simplify_eq. Qed.

Lemma write_dir sw p w r sw' w' : shard_write_record sw p w = (r, sw', w') → sw_shard_dir sw' = sw_shard_dir sw.
Proof.
  unfold shard_write_record. intros H. destruct (blen p =? 0); [by simplify_eq|].
  destruct (match sw_compression sw with CNone => _ | CZstd => _ end); [|by simplify_eq].
  destruct (ensure_open sw w) as [[r1 sw1] w1] eqn:E. apply ensure_open_dir in E. rewrite <-E.
  repeat split_hyp H; by simplify_eq.
Qed.

Lemma fsync_dir sw w r sw' w' : fsync_current sw w = (r, sw', w') → sw_shard_dir sw' = sw_shard_dir sw.
Proof. unfold fsync_current. intros H. repeat split_hyp H; by simplify_eq. Qed.

Lemma seal_dir sw w r sw' w' : seal_current sw w = (r, sw', w') → sw_shard_dir sw' = sw_shard_dir sw.
Proof. unfold seal_current. intros H. repeat split_hyp H; by simplify_eq. Qed.

Definition st_dir (st : FlushState) : path := sw_shard_dir (fl_writer st).

Lemma flush_unit_dir st u : st_dir (flush_unit st u) = st_dir st.
Proof.
  unfold flush_unit, st_dir. destruct (shard_write_record _ _ _) as [[r sw'] w'] eqn:E. apply write_dir in E.
  rewrite <-E. destruct r as [[sealed|]|e]; [destruct (hand_off _ _ _) as [[ho po] w2]| |];
    by destruct (wu_durability u).
Qed.

Lemma flush_batch_dir bs sample st : st_dir (flush_batch bs sample st) = st_dir st.
Proof.
  unfold flush_batch. transitivity (st_dir (foldl flush_unit st (concat (map b_records bs)))).
  - unfold flush_finish. destruct (fl_pending_acks _); [done|]. unfold fsync_observed.
    destruct (fsync_current _ _) as [[[[]|e] sw'] w'] eqn:E; apply fsync_dir in E; exact E.
  - generalize (concat (map b_records bs)). intros us. revert st. induction us as [|u us IH]; intros st; [done|].
    cbn [foldl]. rewrite IH. apply flush_unit_dir.
Qed.

Lemma timed_seal_dir cfg st lw : st_dir (fst (timed_seal_step cfg st lw)) = st_dir st.
Proof.
  unfold timed_seal_step. destruct (due_timed_seal _ _ _ _); [|done]. unfold seal_before_size_threshold.
  destruct (seal_current _ _) as [[[[sealed|]|e] sw'] w'] eqn:E; apply seal_dir in E; [|exact E|exact E].
  destruct (hand_off _ _ _) as [[ho po] w2]. exact E.
Qed.

Lemma flusher_wake_dir cfg sample t : st_dir (ft_state (flusher_wake cfg sample t)) = st_dir (ft_state t).
Proof.
  unfold flusher_wake. destruct (ft_exit t); [done|]. destruct (ft_queue t).
  - destruct (ft_open t).
    + destruct (ft_batches t); [|apply flush_batch_dir]. destruct (has_active_segment _); [|done].
      pose proof (timed_seal_dir cfg (ft_state t) (ft_last_write_at t)). by destruct (timed_seal_step _ _ _).
    + destruct (seal_current _ _) as [[[[sealed|]|e] sw'] w'] eqn:E; apply seal_dir in E; [|exact E|exact E].
      destruct (hand_off _ _ _) as [[ho po] w2]. exact E.
  - destruct (drain_queue _ _ _ _). destruct (fc_segment_max_lifetime cfg); [|apply flush_batch_dir].
    match goal with |- context [timed_seal_step cfg ?st ?lw] =>
      pose proof (timed_seal_dir cfg st lw) as Hd; destruct (timed_seal_step cfg st lw) end.
    cbn in *. rewrite Hd. apply flush_batch_dir.
Qed.

Lemma flusher_run_dir cfg es t : st_dir (ft_state (flusher_run cfg t es)) = st_dir (ft_state t).
Proof.
  revert t. induction es as [|e es IH]; intros t; [done|]. unfold flusher_run in *. cbn [foldl]. rewrite IH.
  destruct e as [b| |u dt|sample]; cbn [flusher_step]; [by destruct (ft_open t)|done|done|].
  apply flusher_wake_dir.
Qed.

Lemma flusher_start_dir sid d mb c lvl po q hint w :
  st_dir (ft_state (flusher_start sid d mb c lvl po q hint w)) = d.
Proof.
  unfold flusher_start. destruct (startup_scan 3 _ w) as [[b sw'] w'] eqn:E.
  assert (Hs : ∀ n sw w b sw' w', startup_scan n sw w = (b, sw', w') → sw_shard_dir sw' = sw_shard_dir sw).
  { clear. induction n as [|n IH]; intros sw w b sw' w' H; cbn in H; unfold scan_and_advance_counter in H;
      destruct (segment_counters _ w) as [[cs|e] w1]; simplify_eq; try done; try by destruct (_ <=? _).
    by apply IH in H. }
  apply Hs in E. exact E.
Qed.
End FlusherDir.

(** ** What an ack promises *)

Section FlusherClaims.
Context {CRC : Crc32} {CL : Crc32Laws} {ZS : Zstd} {ZL : ZstdLaws}.

(** A durable record after a crash: it is record [j] of a file found under the active or
    the sealed name of segment [k], behind a valid header. *)
Definition found_after (s' : Fs) sw (u : WorkUnit) (slot : option RecordSlot) : Prop :=
  ∃ k i n hb hd ss j stored tail,
    seg_entry (fs_live s') (segment_path (sw_shard_dir sw) k)
      (sealed_path_for (segment_path (sw_shard_dir sw) k)) i ∧
    fs_files s' !! i = Some n ∧ f_data n = hb ++ frames ss ++ tail ∧
    parse_segment_header hb = Ok hd ∧ sh_compression hd = sw_compression sw ∧
    Forall (stored_rec (sw_compression sw)) ss ∧
    ss !! j = Some stored ∧ stores sw (wu_payload u) stored ∧ slot_at sw k j slot.

Lemma rec_durable_found s s' sw u slot : rec_durable s sw u slot → crash s s' → found_after s' sw u slot.
Proof.
  intros (k & i & ss & j & x & _ & (_ & Hss & Hl & hb & hd & Hp & Hc & Hh) & Hj & Hx & Hs) Hcr.
  destruct (crash_holds _ _ _ _ Hh Hcr) as (n & tail & Hn & Hdata).
  exists k, i, n, hb, hd, ss, j, x, tail. split; [by eapply crash_linked|].
  split; [done|]. split; [by rewrite app_assoc|]. done.
Qed.

(** C2: no positive ack of a [Durable] record is false. Whatever a flusher that works in a
    durable shard directory is sent, whatever faults the disk injects and whenever the
    crash comes, a record acked durable is found
    after the crash under its segment's active or sealed name, whole, at the position its
    coordinate names, behind records that all decode. *)
Theorem durable_ack_survives_crash cfg es sid d mb c lvl po q hint w u o s' :
  fs_wf (w_fs w) → d ≠ [] → durable_dir (w_fs w) d → is_u16 sid → Forall fits (units q) → Forall fits_event es →
  let t := flusher_run cfg (flusher_start sid d mb c lvl po q hint w) es in
  (u, o) ∈ fl_log (ft_state t) → ao_durable o = true → wu_durability u = Durable →
  crash (w_fs (fl_world (ft_state t))) s' →
  found_after s' (fl_writer (ft_state t)) u (ao_coordinate o).
Proof.
  intros Hwf Hd Hdur Hsid Hq Hes t Hin Ho Ht Hcr.
  assert (Hinv : thread_inv t) by (apply flusher_run_inv; [by apply flusher_start_inv|done]).
  destruct Hinv as [[ss [_ _ _ Hl]] _ _ _ _]. rewrite Forall_forall in Hl.
  eapply rec_durable_found; [|done]. by apply (Hl (u, o)).
Qed.

(** ** Every unit is answered once *)

(** The units a flush state owes an answer or has answered. *)
Definition owed (st : FlushState) : list WorkUnit :=
  map fst (fl_log st) ++ map pa_tx (fl_pending_acks st) ++ map pa_tx (fl_durable_acks st).

Lemma fst_resolve b ps : map fst (map (resolve b) ps) = map pa_tx ps.
Proof. rewrite map_map. done. Qed.

Lemma flush_unit_owed st u : owed (flush_unit st u) ≡ₚ owed st ++ [u].
Proof.
  unfold flush_unit, owed. destruct (shard_write_record _ _ _) as [[r sw'] w'].
  destruct r as [[sealed|]|e].
  - destruct (hand_off _ _ _) as [[ho po] w2]. destruct (wu_durability u); cbn;
      rewrite ?map_app; cbn; solve_Permutation.
  - destruct (wu_durability u); cbn; rewrite ?map_app; cbn; solve_Permutation.
  - destruct (last_write_failure sw'); cbn; rewrite ?map_app, ?fst_resolve; cbn; solve_Permutation.
Qed.

Lemma flush_units_owed us st : owed (foldl flush_unit st us) ≡ₚ owed st ++ us.
Proof.
  revert st. induction us as [|u us IH]; intros st; [by rewrite app_nil_r|]. cbn [foldl].
  rewrite IH, flush_unit_owed. by rewrite <-app_assoc.
Qed.

Lemma flush_finish_owed st sample : owed (flush_finish st sample) ≡ₚ owed st.
Proof.
  unfold flush_finish, owed. destruct (fl_pending_acks st) as [|p ps] eqn:Ep.
  - cbn. rewrite map_app, fst_resolve. solve_Permutation.
  - destruct (fsync_observed _ _ _ _) as [[[ok sw'] h] w']. cbn [fl_log fl_pending_acks fl_durable_acks].
    rewrite !map_app, !fst_resolve. cbn. solve_Permutation.
Qed.

Lemma flush_batch_owed bs sample st : owed (flush_batch bs sample st) ≡ₚ owed st ++ units bs.
Proof. unfold flush_batch. by rewrite flush_finish_owed, flush_units_owed. Qed.

(** A timed seal answers nobody. *)
Definition same_acks (st st' : FlushState) : Prop :=
  fl_pending_acks st' = fl_pending_acks st ∧ fl_durable_acks st' = fl_durable_acks st ∧
  fl_log st' = fl_log st.

Lemma timed_seal_acks cfg st lw : same_acks st (fst (timed_seal_step cfg st lw)).
Proof.
  unfold timed_seal_step. destruct (due_timed_seal _ _ _ _); [|done].
  unfold seal_before_size_threshold. destruct (seal_current _ _) as [[[[sealed|]|e] sw'] w']; [|done|done].
  by destruct (hand_off _ _ _) as [[ho po] w2].
Qed.

Lemma timed_seal_owed cfg st lw : owed (fst (timed_seal_step cfg st lw)) = owed st.
Proof. unfold owed. by destruct (timed_seal_acks cfg st lw) as (-> & -> & ->). Qed.

(** Everything the thread has been given: answered, owed, carried or queued. *)
Definition accounted (t : FlusherThread) : list WorkUnit :=
  owed (ft_state t) ++ units (ft_batches t) ++ units (ft_queue t).

Lemma flusher_wake_accounted cfg sample t : accounted (flusher_wake cfg sample t) ≡ₚ accounted t.
Proof.
  unfold flusher_wake. destruct (ft_exit t); [done|]. unfold accounted. destruct (ft_queue t) as [|b q] eqn:Eq.
  - destruct (ft_open t).
    + destruct (ft_batches t) as [|b bs] eqn:Eb.
      * destruct (has_active_segment _); [|by rewrite Eb, Eq].
        pose proof (timed_seal_owed cfg (ft_state t) (ft_last_write_at t)) as Ho.
        destruct (timed_seal_step _ _ _) as [st lw]. cbn in *. by rewrite Ho.
      * cbn [ft_state ft_batches ft_queue]. rewrite flush_batch_owed. cbn. by rewrite !app_nil_r.
    + destruct (seal_current _ _) as [[[[sealed|]|e] sw'] w']; [|done|done].
      by destruct (hand_off _ _ _) as [[ho po] w2].
  - pose proof (drain_queue_app (ft_batches t ++ [b]) (fc_batch_size cfg)
      (foldr Z.add 0 (map (λ b, blen (b_records b)) (ft_batches t ++ [b]))) q) as Hq.
    destruct (drain_queue _ _ _ _) as [bs q']. rewrite <-app_assoc in Hq. cbn in Hq.
    apply (f_equal units) in Hq. rewrite !units_app in Hq.
    destruct (fc_segment_max_lifetime cfg).
    + match goal with |- context [timed_seal_step cfg ?st ?lw] =>
        pose proof (timed_seal_owed cfg st lw) as Ho; destruct (timed_seal_step cfg st lw) as [st' lw'] end.
      cbn [fst ft_state ft_batches ft_queue] in *. rewrite Ho, flush_batch_owed, <-!app_assoc.
      change (units []) with (@nil WorkUnit). cbn [app]. by rewrite Hq.
    + cbn [ft_state ft_batches ft_queue]. rewrite flush_batch_owed, <-!app_assoc.
      change (units []) with (@nil WorkUnit). cbn [app]. by rewrite Hq.
Qed.

(** The batches sent while the channel is open. *)
Fixpoint sent (open : bool) (es : list Event) : list Batch :=
  match es with
  | [] => []
  | EvSend b :: es => if open then b :: sent open es else sent open es
  | EvClose :: es => sent false es
  | _ :: es => sent open es
  end.

Lemma flusher_wake_open cfg sample t : ft_open (flusher_wake cfg sample t) = ft_open t.
Proof.
  unfold flusher_wake. destruct (ft_exit t); [done|]. destruct (ft_queue t).
  - destruct (ft_open t) eqn:Eo.
    + destruct (ft_batches t); [|done]. destruct (has_active_segment _); [|done].
      by destruct (timed_seal_step _ _ _).
    + destruct (seal_current _ _) as [[[[sealed|]|e] sw'] w']; [|done|done].
      by destruct (hand_off _ _ _) as [[ho po] w2].
  - destruct (drain_queue _ _ _ _). destruct (fc_segment_max_lifetime cfg); [|done].
    by destruct (timed_seal_step _ _ _).
Qed.

Lemma flusher_run_accounted cfg es t :
  accounted (flusher_run cfg t es) ≡ₚ accounted t ++ units (sent (ft_open t) es).
Proof.
  revert t. induction es as [|e es IH]; intros t; [by rewrite app_nil_r|].
  cbn [flusher_run foldl]. fold (flusher_run cfg). unfold flusher_run in IH at 1. rewrite IH.
  destruct e as [b| |u dt|sample]; cbn [flusher_step sent].
  - destruct (ft_open t) eqn:Eo; cbn [ft_open]; [|by rewrite Eo].
    unfold accounted. cbn [ft_state ft_batches ft_queue]. rewrite units_app.
    unfold units at 4. cbn [map concat]. fold (units (sent true es)). unfold units at 3. cbn.
    rewrite app_nil_r. solve_Permutation.
  - done.
  - done.
  - by rewrite flusher_wake_accounted, flusher_wake_open.
Qed.

(** A flusher that stopped because its input closed has read the channel to the end. *)
Definition closed_inv (t : FlusherThread) : Prop :=
  ft_batches t = [] ∧ fl_pending_acks (ft_state t) = [] ∧ fl_durable_acks (ft_state t) = [] ∧
  (ft_exit t = Some InputClosed → ft_open t = false ∧ ft_queue t = []).

Lemma flusher_wake_closed cfg sample t : closed_inv t → closed_inv (flusher_wake cfg sample t).
Proof.
  intros Ht. pose proof Ht as (Hb & Hp & Hd & Hi). unfold flusher_wake. destruct (ft_exit t) eqn:Ee; [done|].
  destruct (ft_queue t) eqn:Eq.
  - destruct (ft_open t) eqn:Eo.
    + rewrite Hb. destruct (has_active_segment _); [|done].
      pose proof (timed_seal_acks cfg (ft_state t) (ft_last_write_at t)) as (E1 & E2 & _).
      destruct (timed_seal_step _ _ _). cbn in *. unfold closed_inv. cbn. by rewrite E1, E2.
    + destruct (seal_current _ _) as [[[[sealed|]|e] sw'] w']; [|done|done].
      by destruct (hand_off _ _ _) as [[ho po] w2].
  - destruct (drain_queue _ _ _ _). destruct (fc_segment_max_lifetime cfg); [|done].
    match goal with |- context [timed_seal_step cfg ?st ?lw] =>
      pose proof (timed_seal_acks cfg st lw) as (E1 & E2 & _); destruct (timed_seal_step cfg st lw) end.
    cbn in *. unfold closed_inv. cbn. by rewrite E1, E2.
Qed.

Lemma flusher_run_closed cfg es t : closed_inv t → closed_inv (flusher_run cfg t es).
Proof.
  revert t. induction es as [|e es IH]; intros t Ht; [done|]. apply IH.
  destruct e as [b| |u dt|sample]; cbn [flusher_step].
  - destruct (ft_open t) eqn:Eo; [|done]. destruct Ht as (Hb & Hp & Hd & Hi).
    split; [done|]. split; [done|]. split; [done|]. cbn. intros He. destruct (Hi He). congruence.
  - destruct Ht as (Hb & Hp & Hd & Hi). split; [done|]. split; [done|]. split; [done|].
    cbn. intros He. by destruct (Hi He).
  - done.
  - by apply flusher_wake_closed.
Qed.

(** C30: every work unit given to a flusher is answered exactly once: at any point of any
    run the answered units and the units still in the channel are the units sent, with no
    unit lost or answered twice, and a flusher that has stopped because its input closed
    has answered all of them. *)
Theorem flusher_answers_exactly_once cfg es sid d mb c lvl po q hint w :
  let t := flusher_run cfg (flusher_start sid d mb c lvl po q hint w) es in
  map fst (fl_log (ft_state t)) ++ units (ft_queue t) ≡ₚ units (q ++ sent true es) ∧
  (ft_exit t = Some InputClosed → map fst (fl_log (ft_state t)) ≡ₚ units (q ++ sent true es)).
Proof.
  set (t0 := flusher_start sid d mb c lvl po q hint w). intros t.
  assert (H0 : closed_inv t0 ∧ owed (ft_state t0) = [] ∧ ft_queue t0 = q ∧ ft_open t0 = true).
  { subst t0. unfold flusher_start, closed_inv. by destruct (startup_scan _ _ _) as [[[] sw'] w']. }
  destruct H0 as (Hc0 & Ho0 & Hq0 & Hop0).
  pose proof (flusher_run_accounted cfg es t0) as Ha. fold t in Ha.
  destruct (flusher_run_closed cfg es t0 Hc0) as (Hb & Hp & Hd & Hex). fold t in Hb, Hp, Hd, Hex.
  unfold accounted in Ha. rewrite (proj1 Hc0), Ho0, Hq0, Hop0, Hb in Ha. unfold owed in Ha.
  rewrite Hp, Hd in Ha. cbn [map app] in Ha. change (units []) with (@nil WorkUnit) in Ha.
  cbn [app] in Ha. rewrite app_nil_r in Ha.
  rewrite units_app. split; [done|]. intros He. destruct (Hex He) as [_ Hq]. rewrite Hq in Ha.
  change (units []) with (@nil WorkUnit) in Ha. by rewrite app_nil_r in Ha.
Qed.

(** ** Timed seals *)

Lemma seal_before_none st b st' :
  seal_before_size_threshold st = (b, st') → sw_active (fl_writer st') = None.
Proof.
  unfold seal_before_size_threshold, seal_current. destruct (sw_active (fl_writer st)) as [seg|].
  - destruct (wab_segment_seal seg _) as [[sealed|e] w']; [|by intros [= <- <-]].
    destruct (hand_off _ _ _) as [[ho po] w2]. by intros [= <- <-].
  - by intros [= <- <-].
Qed.

(** A timed seal that fails does not leave its segment active for a retry: the writer
    has given the segment up whether or not the seal succeeded, no ack is touched, and
    the next record opens a segment of its own. *)
Theorem failed_seal_gives_up_segment st st' :
  seal_before_size_threshold st = (false, st') →
  sw_active (fl_writer st') = None ∧ has_active_segment (fl_writer st') = false ∧
  fl_log st' = fl_log st ∧ po_delivered (fl_port st') = po_delivered (fl_port st).
Proof.
  intros H. pose proof (seal_before_none _ _ _ H) as Hn. unfold has_active_segment. rewrite Hn.
  unfold seal_before_size_threshold in H. destruct (seal_current _ _) as [[[[sealed|]|e] sw'] w'].
  - by destruct (hand_off _ _ _) as [[ho po] w2].
  - done.
  - injection H as <-. done.
Qed.

End FlusherClaims.

(** ** The supervisor *)

Definition is_respawn (e : SupEvent) : bool := match e with MarkRespawning => true | _ => false end.
Definition sleep_of (e : SupEvent) : Z := match e with SleepMs ms => ms | _ => 0 end.
Definition total_sleep (es : list SupEvent) : Z := foldr Z.add 0 (map sleep_of es).

Lemma supervision_bounds bodies k r evs :
  (k ≤ 10)%nat → run_with_panic_supervision (Z.of_nat k) bodies = (r, evs) →
  (r = Some SupRespawnExhausted ↔ take (11 - k) bodies = replicate (11 - k) BodyPanic) ∧
  blen (List.filter is_respawn evs) ≤ 10 - Z.of_nat k ∧
  0 ≤ 2 * total_sleep evs ≤ 10 * (110 - Z.of_nat k * (Z.of_nat k + 1)).
Proof.
  revert k r evs. induction bodies as [|b bodies IH]; intros k r evs Hk H; cbn in H;
    assert (Hsq : Z.of_nat k * (Z.of_nat k + 1) ≤ 110) by nia.
  - injection H as <- <-. destruct (11 - k)%nat eqn:E; [lia|]. unfold total_sleep, blen. cbn. split; [done|]. lia.
  - destruct (11 - k)%nat as [|m] eqn:E; [lia|]. cbn [take replicate]. destruct b as [e|].
    + injection H as <- <-. split; [by destruct e|]. cbn. unfold total_sleep, blen. cbn. lia.
    + destruct (Z.ltb_spec MAX_FLUSHER_RESPAWNS (Z.of_nat k + 1)) as [Hm|Hm]; unfold MAX_FLUSHER_RESPAWNS in Hm.
      * injection H as <- <-. assert (k = 10%nat) as -> by lia. injection E as <-.
        split; [done|]. cbn. unfold total_sleep, blen. cbn. lia.
      * destruct (run_with_panic_supervision (Z.of_nat k + 1) bodies) as [r' evs'] eqn:Er.
        injection H as <- <-. replace (Z.of_nat k + 1) with (Z.of_nat (S k)) in Er by lia.
        destruct (IH (S k) r' evs' ltac:(lia) Er) as (H1 & H2 & H3).
        replace (11 - S k)%nat with m in H1 by lia.
        split; [rewrite H1; split; [by intros ->|by intros [= ->]]|].
        unfold total_sleep in *. cbn [app List.filter is_respawn map foldr sleep_of]. rewrite blen_cons. nia.
Qed.

(** The supervisor sleeps at most 550 ms in all between runs. *)
Theorem supervisor_sleeps_bounded bodies : 0 ≤ total_sleep (snd (run_with_panic_supervision 0 bodies)) ≤ 550.
Proof.
  destruct (run_with_panic_supervision 0 bodies) as [r evs] eqn:E.
  destruct (supervision_bounds bodies 0 r evs ltac:(lia) E) as (_ & _ & H3). cbn [snd]. lia.
Qed.

(** What a body that returned makes of the supervisor. *)
Definition sup_exit_of (e : FlusherExit) : SupervisorExit :=
  match e with InputClosed => SupInputClosed | CounterScanFailed => SupCounterScanFailed end.

Lemma supervision_exit bodies k e :
  (k ≤ 10)%nat →
  fst (run_with_panic_supervision (Z.of_nat k) bodies) = Some (sup_exit_of e) ↔
  ∃ n, (n + k ≤ 10)%nat ∧ replicate n BodyPanic ++ [BodyExit e] `prefix_of` bodies.
Proof.
  revert k. induction bodies as [|b bodies IH]; intros k Hk; cbn.
  { split; [done|]. intros (n & _ & [x Hx]). by destruct n. }
  destruct b as [e'|].
  - cbn. split.
    + intros H. exists 0%nat. split; [lia|]. exists bodies. by destruct e, e'.
    + intros ([|n] & _ & [x Hx]); [|done]. by injection Hx as -> _.
  - unfold MAX_FLUSHER_RESPAWNS. destruct (Z.ltb_spec 10 (Z.of_nat k + 1)).
    + cbn. split; [by destruct e|]. intros ([|n] & Hn & [x Hx]); [done|lia].
    + replace (Z.of_nat k + 1) with (Z.of_nat (S k)) by lia. specialize (IH (S k) ltac:(lia)).
      destruct (run_with_panic_supervision (Z.of_nat (S k)) bodies) as [r evs]. cbn in *. rewrite IH. split.
      * intros (n & Hn & Hp). exists (S n). split; [lia|]. cbn. by apply prefix_cons.
      * intros ([|n] & Hn & Hp); [by destruct Hp|]. exists n. split; [lia|]. by apply prefix_cons_inv_2 in Hp.
Qed.

(** The panic supervisor of a flusher respawns its body after a panic, ten times at
    most: it gives up exactly when the first eleven runs panic, and otherwise ends exactly
    with the exit of the first run that returns, which at most ten panics precede. *)
Theorem supervisor_outcome bodies :
  let '(r, evs) := run_with_panic_supervision 0 bodies in
  (r = Some SupRespawnExhausted ↔ take 11 bodies = replicate 11 BodyPanic) ∧
  (∀ e, r = Some (sup_exit_of e) ↔
     ∃ n, (n ≤ 10)%nat ∧ replicate n BodyPanic ++ [BodyExit e] `prefix_of` bodies) ∧
  blen (List.filter is_respawn evs) ≤ 10.
Proof.
  pose proof (λ e, supervision_exit bodies 0 e ltac:(lia)) as He. change (Z.of_nat 0) with 0 in He.
  destruct (run_with_panic_supervision 0 bodies) as [r evs] eqn:E.
  destruct (supervision_bounds bodies 0 r evs ltac:(lia) E) as (H1 & H2 & _). split; [done|]. split; [|lia].
  intros e. specialize (He e). setoid_rewrite Nat.add_0_r in He. exact He.
Qed.

(** ** Witnesses *)

Module FlusherWitness.
#[local] Existing Instance Crc32Ieee.ieee.
#[local] Existing Instance ZstdRaw.raw.
#[local] Existing Instance Crc32Ieee.ieee_laws.
#[local] Existing Instance ZstdRaw.raw_laws.

Definition dir : path := [bstr "data"; bstr "shard_00"].
Definition unit_ : WorkUnit := mkWorkUnit 0 (bstr "hello") Durable true 7.
Definition cfg : FlusherConfig := mkFlusherConfig 64 None (Some 10).
Definition port : Port := mkPort [] [] BUDGET_NOT_STARTED 0 0.
Definition start : FlusherThread :=
  flusher_start 0 dir 1048576 CNone 3 port [mkBatch 0 [unit_]] 0 (fresh_world dir).
Definition outcome : AckOutcome :=
  ack_durable (Some (mkRecordSlot (segment_identity (sealed_path_for (segment_path dir 1))) 1)).

Lemma durable_ack_survives_crash_witness :
  let t := flusher_run cfg start [EvWake 5] in
  found_after (worst_crash (w_fs (fl_world (ft_state t)))) (fl_writer (ft_state t))
    unit_ (ao_coordinate outcome).
Proof.
  intros t. refine (durable_ack_survives_crash cfg [EvWake 5] 0 dir 1048576 CNone 3
    port [mkBatch 0 [unit_]] 0 (fresh_world dir) unit_ outcome
    (worst_crash (w_fs (fl_world (ft_state t)))) _ _ _ _ _ _ _ _ _ (worst_crash_crash _)).
  - by intros i n Hn.
  - done.
  - by apply (bool_decide_unpack _); vm_compute.
  - by vm_compute.
  - by repeat constructor.
  - by repeat constructor.
  - apply (list_elem_of_lookup_2 _ 0%nat). by vm_compute.
  - done.
  - done.
Defined.

(** The assumption on the shard directory is needed: when recovery has just created it
    ([create_dir_private] syncs no parent), a record acked [Durable] in it can vanish with
    it. *)
Definition new_dir_world : World := snd (create_dir_all dir (fresh_world (parent dir))).

Example new_shard_dir_is_lost :
  let t := flusher_run cfg (flusher_start 0 dir 1048576 CNone 3 port [mkBatch 0 [unit_]] 0 new_dir_world) [EvWake 5] in
  let w := fl_world (ft_state t) in
  fl_log (ft_state t) !! 0%nat = Some (unit_, outcome) ∧
  (dir ∈ dom (fs_dirs (w_fs w)) ∧ ¬ durable_dir (w_fs w) dir) ∧
  fs_live (worst_crash (w_fs w)) = ∅.
Proof.
  split; [by vm_compute|]. split; [|by vm_compute]. by apply (bool_decide_unpack _); vm_compute.
Qed.
End FlusherWitness.
