(* ===== verification/Recovery.v ===== *)
(** * Startup recovery (weir-server, wab/recovery.rs and wab/mod.rs)

    Crash recovery of unsealed segments: the replay of the records, the truncation and
    re-seal, the quarantine of what cannot be read, and the startup scan of
    sealed-but-unconfirmed segments. Log lines and file modes are not modelled; the
    quarantine reasons are kept as data. *)

From Stdlib Require Import ZArith Lia Strings.Byte String.
From stdpp Require Import base gmap list option sets.
From S2P Require Import Prelude Deps Wire Text Names Io Fs Durable Touch Format Reader Segment.

(** ** File-system helpers *)

(** [Option<u64>]'s order: [None] first. *)
Definition key_leb (a b : option Z) : bool :=
  match a, b with
  | None, _ => true
  | Some _, None => false
  | Some a, Some b => a <=? b
  end.

(** [slice::sort_by_key], a stable sort. *)
Fixpoint insert_by_key (key : path → option Z) (p : path) (l : list path) : list path :=
  match l with
  | [] => [p]
  | q :: l' => if key_leb (key p) (key q) then p :: l else q :: insert_by_key key p l'
  end.
Definition sort_by_key (key : path → option Z) (l : list path) : list path :=
  foldr (insert_by_key key) [] l.

(** [path.is_dir()]: an error is [false]. *)
Definition is_dir (d : path) (w : World) : bool * World :=
  match guarded (λ w, (Ok (bool_decide (d ∈ dom (fs_dirs (w_fs w)))), w)) w with
  | (Ok b, w) => (b, w)
  | (Err _, w) => (false, w)
  end.

(** [path.exists()] and [path.symlink_metadata().is_ok()]: an error is [false]. *)
Definition exists_ (p : path) (w : World) : bool * World :=
  match try_exists p w with
  | (Ok b, w) => (b, w)
  | (Err _, w) => (false, w)
  end.

(** Opening for reading with the handle kept: the file it refers to and its bytes. *)
Definition open_handle (p : path) : io (inode * Stream) := λ w,
  match open_read p w with
  | (Err e, w') => (Err e, w')
  | (Ok st, w') => (Ok (default 1%positive (fs_live (w_fs w) !! p), st), w')
  end.

(** [create_dir_private]: the directory, then its mode (a call of its own). *)
Definition create_dir_private (d : path) : io unit :=
  let! _ := create_dir_all d in guarded (λ w, (Ok tt, w)).

(** [Path::extension]: what follows the last dot, unless the dot comes first. *)
Fixpoint rsplit_dot (l : bytes) : option (bytes * bytes) :=
  match l with
  | [] => None
  | b :: l =>
    match rsplit_dot l with
    | Some (s, e) => Some (b :: s, e)
    | None => if bool_decide (b = x2e) then Some ([], l) else None
    end
  end.
Definition extension (p : path) : option bytes :=
  name ← file_name p;
  match rsplit_dot name with
  | Some (_ :: _, e) => Some e
  | _ => None
  end.

(** [path.to_string_lossy().ends_with(suffix)] for a suffix without separators. *)
Definition path_ends_with (suffix : bytes) (p : path) : bool :=
  match file_name p with
  | Some name => ends_with suffix (to_string_lossy name)
  | None => false
  end.

(** The unsealed segments of a directory listing. *)
Definition is_active_segment (p : path) : bool :=
  bool_decide (extension p = Some (bstr "wab")) && path_ends_with EXT_ACTIVE p.

Definition QUARANTINE : bytes := bstr "quarantine".
Definition DEAD_LETTER : bytes := bstr "dead_letter".
Definition reserved_dir (d : path) : bool :=
  let name := to_string_lossy (default [] (file_name d)) in
  bool_decide (name = QUARANTINE) || bool_decide (name = DEAD_LETTER).

(** ** Quarantine *)

Fixpoint free_name (dir : path) (base : bytes) (n : Z) (fuel : nat) : io path :=
  match fuel with
  | O => io_err AlreadyExists
  | S fuel =>
    let candidate := dir ++ [base ++ bstr "." ++ dec n] in
    let! taken := try_exists candidate in
    if taken : bool then free_name dir base (n + 1) fuel else io_ok candidate
  end.

Definition non_clobbering_dest (dir : path) (base : bytes) : io path :=
  let first := dir ++ [base] in
  let! taken := try_exists first in
  if taken : bool then free_name dir base 1 (Z.to_nat 10000) else io_ok first.

Definition quarantine_dir (wab_dir : path) : path := wab_dir ++ [QUARANTINE].

(** The destination both quarantine routines compute. *)
Definition quarantine_dest (p wab_dir : path) : io path :=
  let! _ := create_dir_private (quarantine_dir wab_dir) in
  match file_name p with
  | None => io_err InvalidInput
  | Some name =>
    let shard_name := match file_name (parent p) with
                      | Some n => to_string_lossy n
                      | None => bstr "unknown_shard"
                      end in
    non_clobbering_dest (quarantine_dir wab_dir) (shard_name ++ bstr "__" ++ to_string_lossy name)
  end.

Definition quarantine (p wab_dir : path) : io unit :=
  let! dest := quarantine_dest p wab_dir in rename p dest.

(** Always an error: the quarantine's own, or [InvalidData] after a counted quarantine. *)
Definition quarantine_and_count {A} (p wab_dir : path) : io A := λ w,
  match quarantine p wab_dir w with
  | (Err qe, w) => (Err qe, w)
  | (Ok _, w) => (Err InvalidData, inc WabSegmentsQuarantined (inc RecoverySegmentsQuarantined w))
  end.

(** [File::open(p)?.sync_all()]. *)
Definition sync_path (p : path) : io unit :=
  let! i := open_existing p in sync_file i.

Definition copy_to_quarantine (p wab_dir : path) : io path :=
  let! dest := quarantine_dest p wab_dir in
  let! _ := copy p dest in
  let! _ := sync_path dest in
  let! _ := fsync_parent_dir dest in
  io_ok dest.

(** ** Replaying one segment *)

Inductive QuarantineReason :=
| QFooterContradicts
| QFooterUnreadable
| QTrailingBytes (n : Z)
| QSentinelStatFailed
| QOversized (payload_len trailing : Z)
| QOversizedStatFailed (payload_len : Z)
| QCrcMismatch (record expected computed : Z).

Section Recovery.
Context {CRC : Crc32} {ZS : Zstd}.

(** What the record loop has established when it stops. *)
Record Replay := mkReplay {
  rp_crc : hasher;
  rp_records : Z;
  rp_data_bytes : Z;
  rp_valid_end : Z;
}.

(** A zero length prefix: a real seal, or corruption in front of records? *)
Definition judge_sentinel (i : inode) (rd : Stream) (r : Replay) (w : World)
    : option QuarantineReason * World :=
  match file_len i w with
  | (Err _, w) => (Some QSentinelStatFailed, w)
  | (Ok len, w) =>
    let trailing := Z.max 0 (len - (rp_valid_end r + 4)) in
    if trailing =? 0 then (None, w)
    else if trailing =? SEGMENT_FOOTER_LEN then
      match s_read_exact SEGMENT_FOOTER_LEN rd with
      | Err _ => (Some QFooterUnreadable, w)
      | Ok (footer_buf, _) =>
        match parse_segment_footer footer_buf with
        | Err _ => (Some QFooterUnreadable, w)
        | Ok footer =>
          if (sf_record_count footer =? rp_records r) && (sf_data_bytes footer =? rp_data_bytes r)
             && (sf_file_crc32 footer =? hasher_finalize (rp_crc r))
          then (None, w) else (Some QFooterContradicts, w)
        end
      end
    else (Some (QTrailingBytes trailing), w)
  end.

(** An oversized length prefix: corruption, unless nothing follows it. *)
Definition judge_oversized (i : inode) (payload_len : Z) (r : Replay) (w : World)
    : option QuarantineReason * World :=
  match file_len i w with
  | (Err _, w) => (Some (QOversizedStatFailed payload_len), w)
  | (Ok file_len, w) =>
    if rp_valid_end r + 4 <? file_len then
      (Some (QOversized payload_len (file_len - (rp_valid_end r + 4))), w)
    else (None, w)
  end.

(** The record loop of [recover_segment]: an I/O error is returned, anything else stops
    the loop with what was replayed and the reason to keep a copy, if there is one. *)
Fixpoint replay_records (fuel : nat) (i : inode) (max_stored : Z) (rd : Stream) (r : Replay)
    : io (Replay * option QuarantineReason) :=
  match fuel with
  | O => io_err OtherError
  | S fuel => λ w,
    match s_read_exact 4 rd with
    | Err UnexpectedEof => (Ok (r, None), w)
    | Err e => (Err e, w)
    | Ok (len_buf, rd) =>
      let payload_len := le_val len_buf in
      if payload_len =? 0 then
        let '(q, w) := judge_sentinel i rd r w in (Ok (r, q), w)
      else if max_stored <? payload_len then
        let '(q, w) := judge_oversized i payload_len r w in (Ok (r, q), w)
      else
        match s_read_exact 4 rd with
        | Err UnexpectedEof => (Ok (r, None), w)
        | Err e => (Err e, w)
        | Ok (crc_buf, rd) =>
          match s_read_exact payload_len rd with
          | Err UnexpectedEof => (Ok (r, None), w)
          | Err e => (Err e, w)
          | Ok (payload, rd) =>
            let expected_crc := le_val crc_buf in
            let computed_crc := crc32_hash payload in
            if negb (expected_crc =? computed_crc) then
              (Ok (r, Some (QCrcMismatch (rp_records r) expected_crc computed_crc)), w)
            else
              let crc := hasher_update (hasher_update (hasher_update (rp_crc r) len_buf) crc_buf) payload in
              replay_records fuel i max_stored rd
                (mkReplay crc (rp_records r + 1) (rp_data_bytes r + payload_len)
                   (rp_valid_end r + (8 + payload_len))) w
          end
        end
    end
  end.

(** Keeping a copy of a corrupt segment before it is truncated. *)
Definition preserve (p wab_dir : path) (reason : option QuarantineReason) : io unit := λ w,
  match reason with
  | None => (Ok tt, w)
  | Some _ =>
    match copy_to_quarantine p wab_dir w with
    | (Ok _, w) => (Ok tt, inc WabSegmentsQuarantined (inc RecoverySegmentsQuarantined w))
    | (Err _, w) => (Err OtherError, inc RecoveryQuarantineCopyFailed w)
    end
  end.

(** Truncate, write the sentinel and the footer, rename. The seek to the new end is where
    an append writes. *)
Definition rebuild (p : path) (r : Replay) : io path := λ w,
  let file_crc32 := hasher_finalize (rp_crc r) in
  let sealed_at := unix_nanos_now (w_unix w) in
  (let! file := open_existing p in
   let! _ := set_len file (rp_valid_end r) in
   let! _ := write_all file build_sentinel in
   let! _ := write_all file (build_segment_footer (rp_records r) (rp_data_bytes r) file_crc32 sealed_at) in
   let! _ := sync_file file in
   let sealed := sealed_path_for p in
   let! _ := rename p sealed in
   let! _ := fsync_parent_dir sealed in
   λ w, (Ok sealed, inc WabSegmentsSealed w)) w.

Definition recover_segment (p wab_dir : path) : io path :=
  let! (file, reader) := open_handle p in
  match s_read_exact SEGMENT_HEADER_LEN reader with
  | Err UnexpectedEof => quarantine_and_count p wab_dir
  | Err e => io_err e
  | Ok (header_buf, reader) =>
    if negb (bool_decide (slice 0 4 header_buf = SEGMENT_MAGIC)) then quarantine_and_count p wab_dir else
    let version := b2z (header_buf !!! 4%nat) in
    if (version =? 0) || (b2z FORMAT_VERSION_MAX_SUPPORTED <? version) then
      quarantine_and_count p wab_dir else
    match parse_segment_header header_buf with
    | Err _ => quarantine_and_count p wab_dir
    | Ok header_meta =>
      let! (r, reason) :=
        replay_records (S (length (st_data reader))) file (stored_cap (sh_compression header_meta)) reader
          (mkReplay (hasher_update hasher_new header_buf) 0 0 SEGMENT_HEADER_LEN) in
      let! _ := preserve p wab_dir reason in
      rebuild p r
    end
  end.

(** [for path in active]. *)
Fixpoint recover_all (wab_dir : path) (active : list path) (w : World) : World :=
  match active with
  | [] => w
  | p :: active =>
    match recover_segment p wab_dir w with
    | (Ok _, w) => recover_all wab_dir active w
    | (Err _, w) =>
      let '(left_behind, w) := exists_ p w in
      recover_all wab_dir active (if left_behind : bool then inc RecoverySegmentsFailed w else w)
    end
  end.

Definition recover_shard_dir (shard_dir wab_dir : path) : io unit :=
  let! entries := read_dir shard_dir in
  let active := sort_by_key segment_counter_from_path (List.filter is_active_segment entries) in
  λ w, (Ok tt, recover_all wab_dir active w).

Fixpoint recover_shards (wab_dir : path) (dirs : list path) : io unit :=
  match dirs with
  | [] => io_ok tt
  | d :: dirs => λ w,
    let '(dir, w) := is_dir d w in
    if negb dir then recover_shards wab_dir dirs w else
    if reserved_dir d then recover_shards wab_dir dirs w else
    (let! _ := recover_shard_dir d wab_dir in recover_shards wab_dir dirs) w
  end.

Definition recover_open_segments (wab_dir : path) : io unit :=
  let! dirs := read_dir wab_dir in
  recover_shards wab_dir (sort_by_key shard_id_from_path dirs).

Record RecoverySummary := mkRecoverySummary {
  rs_shard_dirs : Z;
  rs_segments_quarantined : Z;
  rs_segments_failed : Z;
}.

Fixpoint create_shard_dirs (wab_dir : path) (shard_id : Z) (n : nat) : io unit :=
  match n with
  | O => io_ok tt
  | S n =>
    let! _ := create_dir_private (shard_dir_path wab_dir shard_id) in
    create_shard_dirs wab_dir (shard_id + 1) n
  end.

(** [recover]; the elapsed time is not kept. *)
Definition recover (wab_dir : path) (shard_count : nat) : io RecoverySummary := λ w,
  let quarantined_before := w_metrics w RecoverySegmentsQuarantined in
  let failed_before := w_metrics w RecoverySegmentsFailed in
  (let! _ := create_shard_dirs wab_dir 0 shard_count in
   let! _ := recover_open_segments wab_dir in
   λ w, (Ok (mkRecoverySummary (Z.of_nat shard_count)
               (Z.max 0 (w_metrics w RecoverySegmentsQuarantined - quarantined_before))
               (Z.max 0 (w_metrics w RecoverySegmentsFailed - failed_before))), w)) w.
End Recovery.

(** ** Sorting *)

Lemma insert_by_key_perm key p l : insert_by_key key p l ≡ₚ p :: l.
Proof.
  induction l as [|q l IH]; simpl; [done|]. destruct (key_leb _ _); [done|].
  rewrite IH. apply Permutation_swap.
Qed.

Lemma sort_by_key_perm key l : sort_by_key key l ≡ₚ l.
Proof. induction l as [|p l IH]; simpl; [done|]. rewrite insert_by_key_perm. by f_equiv. Qed.

(** ** What recovery must not lose *)

Section RecoveryFacts.
Context {CRC : Crc32} {CL : Crc32Laws} {ZS : Zstd} {ZL : ZstdLaws}.
Implicit Types (s : Fs) (d p wab : path) (c : Compression) (ss : list bytes).

(** [s'] keeps the directories of [s] and every durable segment outside the quarantine
    directory. *)
Definition keeps wab s s' : Prop :=
  fs_wf s → fs_wf s' ∧ dirs_le (fs_dirs s) (fs_dirs s') ∧
  ∀ d k i c ss, d ≠ quarantine_dir wab → segment_durable s d k i c ss → segment_durable s' d k i c ss.

#[export] Instance keeps_preorder wab : PreOrder (keeps wab).
Proof.
  split; [by intros s Hwf|]. intros s1 s2 s3 H12 H23 Hwf. destruct (H12 Hwf) as (Hwf2 & D2 & H2).
  destruct (H23 Hwf2) as (Hwf3 & D3 & H3). split; [done|]. split; [by etrans|]. eauto.
Qed.

Lemma keeps_le wab own s s' :
  fs_le own s s' →
  (∀ d k i c ss, d ≠ quarantine_dir wab → segment_durable s d k i c ss →
     ¬ own (segment_path d k) (sealed_path_for (segment_path d k))) →
  keeps wab s s'.
Proof.
  intros Hle Hown Hwf. split; [by eapply le_wf|]. split; [apply (le_dirs _ _ _ Hle)|].
  intros d k i c ss Hd Hdur. pose proof Hdur as (Hk & Hss & Hl & hb & hd & Hp & Hc & Hh).
  split; [done|]. split; [done|]. split; [apply (le_linked _ _ _ Hle); [by eapply Hown|done]|].
  exists hb, hd. split; [done|]. split; [done|]. by eapply fs_le_holds.
Qed.

Lemma keeps_no_path wab s s' : fs_le no_path s s' → keeps wab s s'.
Proof. intros H. eapply keeps_le; [done|]. intros d k i c ss _ _ []. Qed.

(** ** The names of an unsealed segment and of its sealed form *)

Lemma file_name_split p n : file_name p = Some n → p = parent p ++ [n].
Proof.
  unfold file_name, parent. intros H. destruct p as [|p' x _] using rev_ind; [done|].
  rewrite last_snoc in H. injection H as ->. rewrite length_app. simpl. by rewrite Nat.add_sub, take_app_length.
Qed.

Lemma rsplit_dot_app l (s e : bytes) : rsplit_dot l = Some (s, e) → l = s ++ x2e :: e.
Proof.
  revert s. induction l as [|b l IH]; intros s H; simpl in H; [done|].
  destruct (rsplit_dot l) as [[s' e']|].
  - injection H as <- <-. simpl. by rewrite <-IH.
  - case_bool_decide; [|done]. injection H as <- <-. by subst b.
Qed.

Lemma active_segment_name p : is_active_segment p = true → ∃ b, p = parent p ++ [b ++ EXT_ACTIVE].
Proof.
  unfold is_active_segment, extension. intros H. apply andb_true_iff in H as [H _]. b2p.
  destruct (file_name p) as [n|] eqn:En; [|done]. cbn in H.
  destruct (rsplit_dot n) as [[[|x s] e]|] eqn:Er; [done| |done]. injection H as ->.
  apply rsplit_dot_app in Er. exists (x :: s). rewrite (file_name_split p n En) at 1. by rewrite Er.
Qed.

Lemma active_sealed_name p b : p = parent p ++ [b ++ EXT_ACTIVE] → sealed_path_for p = parent p ++ [b ++ EXT_SEALED].
Proof. intros ->. rewrite parent_snoc. apply sealed_path_for_snoc. Qed.

(** The re-seal of one unsealed segment touches no other segment. *)
Lemma active_rename_other p d k :
  is_active_segment p = true →
  ¬ rename_own p (sealed_path_for p) (segment_path d k) (sealed_path_for (segment_path d k)).
Proof.
  intros [b Hb]%active_segment_name. rewrite (active_sealed_name _ _ Hb), sealed_segment_path, segment_path_eq.
  revert Hb. generalize (parent p). intros q ->. intros [Hn Ho].
  destruct Ho as [Ho|[Ho|[Ho|Ho]]]; apply app_inj_tail in Ho as [-> Ho].
  - apply Hn. apply app_inj_2 in Ho as [-> _]; done.
  - by apply active_suffix_not_sealed in Ho.
  - symmetry in Ho. by apply active_suffix_not_sealed in Ho.
  - apply Hn. apply app_inj_2 in Ho as [-> _]; done.
Qed.

(** ** The replay loop *)

(** A step that consumes faults and changes metrics only. *)
Definition quiet (w w' : World) : Prop :=
  fs_le no_path (w_fs w) (w_fs w') ∧ same_dirs w w' ∧ fs_files (w_fs w') = fs_files (w_fs w) ∧
  fs_next (w_fs w') = fs_next (w_fs w) ∧ same_clock w w'.

Lemma quiet_refl w : quiet w w.
Proof. split; [apply fs_le_refl|]. done. Qed.

Lemma quiet_trans w1 w2 w3 : quiet w1 w2 → quiet w2 w3 → quiet w1 w3.
Proof.
  intros (A1 & (B1 & C1 & D1 & E1) & F1 & G1 & H1 & I1) (A2 & (B2 & C2 & D2 & E2) & F2 & G2 & H2 & I2).
  split; [by eapply fs_le_trans|]. unfold same_dirs, same_clock. repeat split; congruence.
Qed.

Lemma quiet_inc m w w' : quiet w w' → quiet w (inc m w').
Proof. done. Qed.

Lemma guarded_quiet {A} (m : io A) w r w' :
  (∀ w, ∃ r, m w = (r, w)) → guarded m w = (r, w') → quiet w w'.
Proof.
  intros Hm H. apply guarded_spec in H as
    (w1 & Hle & H1 & H2 & H3 & H4 & H5 & H6 & H7 & H8 & [[-> _]|Hr]); [done|].
  destruct (Hm w1) as [r' Hr']. rewrite Hr' in Hr. injection Hr as _ <-. done.
Qed.

Lemma file_len_quiet i w r w' : file_len i w = (r, w') → quiet w w'.
Proof. apply guarded_quiet. eauto. Qed.

Lemma judge_sentinel_quiet i rd r w q w' : judge_sentinel i rd r w = (q, w') → quiet w w'.
Proof.
  unfold judge_sentinel. destruct (file_len i w) as [[len|e] w1] eqn:E; apply file_len_quiet in E;
    intros H; repeat (split_hyp H); by injection H as <- <-.
Qed.

Lemma judge_oversized_quiet i n r w q w' : judge_oversized i n r w = (q, w') → quiet w w'.
Proof.
  unfold judge_oversized. destruct (file_len i w) as [[len|e] w1] eqn:E; apply file_len_quiet in E;
    intros H; repeat (split_hyp H); by injection H as <- <-.
Qed.

(** The loop has replayed the frames [ss]. *)
Definition replayed (r : Replay) ss (r' : Replay) : Prop :=
  feeds (rp_crc r) (frames ss) (rp_crc r') ∧ rp_records r' = rp_records r + blen ss ∧
  rp_data_bytes r' = rp_data_bytes r + stored_bytes ss ∧
  rp_valid_end r' = rp_valid_end r + blen (frames ss).

Lemma replayed_nil r : replayed r [] r.
Proof.
  split; [apply feeds_nil|]. unfold stored_bytes, blen. rewrite frames_nil. cbn. lia.
Qed.

(** One step of the loop over a whole frame. *)
Definition replay_frame (r : Replay) (x : bytes) : Replay :=
  mkReplay (hasher_update (hasher_update (hasher_update (rp_crc r) (le_bytes 4 (blen x)))
                             (le_bytes 4 (crc32_hash x))) x)
    (rp_records r + 1) (rp_data_bytes r + blen x) (rp_valid_end r + (8 + blen x)).

Lemma replayed_cons r x ss r' : replayed (replay_frame r x) ss r' → replayed r (x :: ss) r'.
Proof.
  intros (Hf & Hn & Hd & He). cbn in Hf, Hn, Hd, He. unfold replayed.
  rewrite frames_cons, blen_cons, stored_bytes_cons, blen_app, blen_frame.
  split; [|lia]. unfold frame. rewrite <-!app_assoc.
  do 3 (eapply feeds_trans; [apply feeds_update|]). done.
Qed.

Lemma replay_step c fuel i x rest bad r w :
  storable c x →
  replay_records (S fuel) i (stored_cap c) (mkStream (frame x ++ rest) bad) r w =
  replay_records fuel i (stored_cap c) (mkStream rest bad) (replay_frame r x) w.
Proof.
  intros Hs. cbn [replay_records]. unfold frame at 1. rewrite <-!app_assoc.
  rewrite s_read_exact_app, (le_val_blen _ c Hs) by apply blen_le_bytes.
  destruct Hs as [H0 Hc]. rewrite (proj2 (Z.eqb_neq _ _)), (proj2 (Z.ltb_ge _ _)) by lia.
  rewrite s_read_exact_app by apply blen_le_bytes. rewrite s_read_exact_app by done.
  by rewrite le_val_crc, Z.eqb_refl.
Qed.

(** What a read of a file can deliver: all of it, or a prefix and then a device error. *)
Definition covers (rd : Stream) (full : bytes) : Prop :=
  (st_bad rd = false ∧ st_data rd = full) ∨ (st_bad rd = true ∧ ∃ m, st_data rd = take m full).

Lemma s_read_take n (a b : bytes) m :
  blen a = n →
  s_read_exact n (mkStream (take m (a ++ b)) true) = Err OtherError ∨
  (s_read_exact n (mkStream (take m (a ++ b)) true) = Ok (a, mkStream (take (m - length a) b) true)).
Proof.
  intros Ha. destruct (decide (m < length a)%nat).
  - left. rewrite take_app_le by lia. apply s_read_exact_short. cbn. unfold blen in *. rewrite length_take. lia.
  - right. rewrite take_app_ge by lia. by apply s_read_exact_app.
Qed.

Lemma covers_read n rd full a rd' :
  0 ≤ n → covers rd full → s_read_exact n rd = Ok (a, rd') →
  blen a = n ∧ ∃ rest, full = a ++ rest ∧ covers rd' rest.
Proof.
  intros Hn Hc (Hd & Hb & Hl)%s_read_exact_Ok; [|done]. split; [done|].
  destruct Hc as [[Hbad <-]|[Hbad [m Hm]]].
  - exists (st_data rd'). split; [done|]. left. by rewrite Hb.
  - rewrite Hm in Hd. assert (Hp : a ++ st_data rd' `prefix_of` full).
    { rewrite <-Hd. exists (drop m full). by rewrite take_drop. }
    destruct Hp as [k ->]. exists (st_data rd' ++ k). rewrite <-app_assoc. split; [done|].
    right. split; [congruence|]. exists (length (st_data rd')). by rewrite take_app_length.
Qed.

(** ** Why the loop stops without a reason to keep a copy *)

(** The file ends inside the record that follows the valid prefix, as its length field has
    it (a corrupt length field that passes the end of the file is not told apart). *)
Definition torn c (rest : bytes) : Prop :=
  blen rest < 4 ∨
  ∃ lb t, rest = lb ++ t ∧ blen lb = 4 ∧ 0 < le_val lb ∧
    ((stored_cap c < le_val lb ∧ t = []) ∨ (le_val lb ≤ stored_cap c ∧ blen t < 4 + le_val lb)).

(** The file ends inside or after a seal of the records replayed. *)
Definition partial_seal (r : Replay) (rest : bytes) : Prop :=
  rest = SENTINEL ∨
  ∃ fb ft, rest = SENTINEL ++ fb ∧ parse_segment_footer fb = Ok ft ∧
    sf_record_count ft = rp_records r ∧ sf_data_bytes ft = rp_data_bytes r ∧
    sf_file_crc32 ft = hasher_finalize (rp_crc r).

(** Either way the loop sees no complete record behind the valid prefix. *)
Definition clean_tail c (r : Replay) (rest : bytes) : Prop := torn c rest ∨ partial_seal r rest.

(** The length of file [i] is the replayed prefix and [rest]. *)
Definition measures (w : World) (i : inode) (e : Z) (rest : bytes) : Prop :=
  ∃ n, fs_files (w_fs w) !! i = Some n ∧ blen (f_data n) = e + blen rest.

Lemma file_len_measures i w len w' e rest :
  file_len i w = (Ok len, w') → measures w i e rest → len = e + blen rest.
Proof.
  unfold file_len. intros H (n & Hn & Hl). apply guarded_spec in H as
    (w1 & _ & H1 & _ & _ & _ & _ & _ & _ & _ & [[_ [k Hk]]|Hm]); [done|].
  injection Hm as <- _. by rewrite H1, Hn.
Qed.

Lemma judge_sentinel_clean c i rd r w w' lb t :
  judge_sentinel i rd r w = (None, w') → measures w i (rp_valid_end r) (lb ++ t) → covers rd t →
  blen lb = 4 → le_val lb = 0 → clean_tail c r (lb ++ t).
Proof.
  unfold judge_sentinel. intros H Hm Hc Hl Hz.
  assert (lb = SENTINEL) as ->.
  { rewrite <-(le_bytes_le_val' 4 lb), Hz by (unfold blen in *; lia). done. }
  right. destruct (file_len i w) as [[len|e] w1] eqn:E; [|done].
  pose proof (file_len_measures _ _ _ _ _ _ E Hm) as ->. rewrite blen_app, Hl in H.
  pose proof (blen_nonneg t). destruct (Z.eqb_spec (Z.max 0 (rp_valid_end r + (4 + blen t) - (rp_valid_end r + 4))) 0).
  { left. assert (t = []) as -> by (apply blen_0; lia). done. }
  destruct (Z.eqb_spec (Z.max 0 (rp_valid_end r + (4 + blen t) - (rp_valid_end r + 4))) SEGMENT_FOOTER_LEN) as [H32|]; [|done].
  right. destruct (s_read_exact SEGMENT_FOOTER_LEN rd) as [[fb rd']|] eqn:Er; [|done].
  apply (covers_read _ _ t) in Er as (Hfl & rest & -> & _); [|done|done].
  rewrite blen_app, Hfl in H32. pose proof (blen_nonneg rest). unfold SEGMENT_FOOTER_LEN in H32.
  assert (rest = []) as -> by (apply blen_0; lia).
  destruct (parse_segment_footer fb) as [ft|] eqn:Ep; [|done]. exists fb, ft. rewrite app_nil_r.
  split; [done|]. split; [done|]. split_hyp H; [|done]. b2p. done.
Qed.

Lemma judge_oversized_clean c i r w w' lb t :
  judge_oversized i (le_val lb) r w = (None, w') → measures w i (rp_valid_end r) (lb ++ t) →
  blen lb = 4 → stored_cap c < le_val lb → clean_tail c r (lb ++ t).
Proof.
  unfold judge_oversized. intros H Hm Hl Hcap.
  destruct (file_len i w) as [[len|e] w1] eqn:E; [|done].
  pose proof (file_len_measures _ _ _ _ _ _ E Hm) as ->. rewrite blen_app, Hl in H.
  destruct (Z.ltb_spec (rp_valid_end r + 4) (rp_valid_end r + (4 + blen t))); [done|].
  assert (t = []) as -> by (apply blen_0; pose proof (blen_nonneg t); lia).
  left. right. exists lb, []. split; [done|]. split; [done|].
  assert (0 ≤ stored_cap c) by by destruct c. split; [lia|]. by left.
Qed.

Lemma covers_end n rd full :
  covers rd full → s_read_exact n rd = Err UnexpectedEof → blen full < n.
Proof.
  intros Hc (Hl & He)%s_read_exact_Err. unfold stream_end in He.
  destruct Hc as [[Hb <-]|[Hb _]]; rewrite Hb in He; [done|done].
Qed.

(** [full] starts with the frames replayed from [r] to [r'], and what is behind them is a
    clean tail unless there is a reason to keep a copy. *)
Definition replay_of c (r r' : Replay) (q : option QuarantineReason) (full : bytes) : Prop :=
  ∃ ss rest, full = frames ss ++ rest ∧ Forall (storable c) ss ∧ replayed r ss r' ∧
             (q = None → clean_tail c r' rest).

Lemma replay_stopped c r q0 w w0 r' q w' full :
  quiet w w0 → (q0 = None → clean_tail c r full) →
  (@Ok _ ErrorKind (r, q0), w0) = (Ok (r', q), w') → quiet w w' ∧ replay_of c r r' q full.
Proof.
  intros Hq Ht [= <- <- <-]. split; [done|]. exists [], full.
  split; [done|]. split; [constructor|]. split; [apply replayed_nil|done].
Qed.

Lemma replay_of_cons c r r' q x t :
  storable c x → replay_of c (replay_frame r x) r' q t → replay_of c r r' q (frame x ++ t).
Proof.
  intros Hx (ss & rest & -> & Hss & Hr & Ht). exists (x :: ss), rest.
  rewrite frames_cons, <-app_assoc. split; [done|]. split; [by constructor|].
  split; [by apply replayed_cons|done].
Qed.

(** What the loop returns: the frames it walked over and what is behind them; nothing has
    changed. *)
Lemma replay_Ok c fuel i rd full r w r' q w' :
  replay_records fuel i (stored_cap c) rd r w = (Ok (r', q), w') → covers rd full →
  measures w i (rp_valid_end r) full → quiet w w' ∧ replay_of c r r' q full.
Proof.
  revert rd full r w. induction fuel as [|fuel IH]; intros rd full r w H Hcov Hm; [done|]. cbn [replay_records] in H.
  destruct (s_read_exact 4 rd) as [[lb rd1]|e1] eqn:E1.
  2: { destruct e1; try done. apply (replay_stopped c r None w w); [apply quiet_refl| |done].
       intros _. left. left. by eapply covers_end. }
  apply (covers_read _ _ full) in E1 as (Hl1 & t1 & -> & Hcov1); [|lia|done].
  pose proof (le_val_range lb) as Hr0.
  destruct (Z.eqb_spec (le_val lb) 0) as [Hz|Hz].
  { destruct (judge_sentinel _ _ _ _) as [q0 w0] eqn:Ej. apply (replay_stopped c r q0 w w0); [| |done].
    - by eapply judge_sentinel_quiet.
    - intros ->. by eapply judge_sentinel_clean. }
  destruct (Z.ltb_spec (stored_cap c) (le_val lb)) as [|Hcap].
  { destruct (judge_oversized _ _ _ _) as [q0 w0] eqn:Ej. apply (replay_stopped c r q0 w w0); [| |done].
    - by eapply judge_oversized_quiet.
    - intros ->. by eapply judge_oversized_clean. }
  assert (Htorn : blen t1 < 4 + le_val lb → clean_tail c r (lb ++ t1)).
  { intros Hlt. left. right. exists lb, t1. split; [done|]. split; [done|]. split; [lia|]. by right. }
  destruct (s_read_exact 4 rd1) as [[cb rd2]|e2] eqn:E2.
  2: { destruct e2; try done. apply (replay_stopped c r None w w); [apply quiet_refl| |done].
       intros _. apply Htorn. apply (covers_end _ _ t1) in E2; [lia|done]. }
  apply (covers_read _ _ t1) in E2 as (Hl2 & t2 & -> & Hcov2); [|lia|done].
  destruct (s_read_exact (le_val lb) rd2) as [[x rd3]|e3] eqn:E3.
  2: { destruct e3; try done. apply (replay_stopped c r None w w); [apply quiet_refl| |done].
       intros _. apply Htorn. apply (covers_end _ _ t2) in E3; [|done]. rewrite blen_app. lia. }
  apply (covers_read _ _ t2) in E3 as (Hl3 & t3 & -> & Hcov3); [|lia|done].
  destruct (Z.eqb_spec (le_val cb) (crc32_hash x)) as [Hc|]; cbn [negb] in H.
  2: { by eapply replay_stopped; [apply quiet_refl| |exact H]. }
  assert (Hlb : lb = le_bytes 4 (blen x)) by (by rewrite Hl3, le_bytes_le_val' by (unfold blen in *; lia)).
  assert (Hcb : cb = le_bytes 4 (crc32_hash x)) by (by rewrite <-Hc, le_bytes_le_val' by (unfold blen in *; lia)).
  replace (lb ++ cb ++ x ++ t3) with (frame x ++ t3) in *
    by (unfold frame; by rewrite <-Hlb, <-Hcb, <-!app_assoc).
  eapply (IH _ t3) in H as [Hq' Hr]; [|done|].
  2: { destruct Hm as (n & Hn & Hlen). exists n. split; [done|]. cbn. rewrite blen_app, blen_frame in Hlen. lia. }
  split; [done|]. apply replay_of_cons; [split; lia|]. unfold replay_frame. by rewrite <-Hlb, <-Hcb, Hl3.
Qed.

(** A frame that a device error interrupts is an error, not the end of the segment. *)
Lemma replay_take c fuel i x rest m r w :
  storable c x →
  (∃ fuel' m', (fuel = S fuel') ∧
     take m (frame x ++ rest) = frame x ++ take m' rest) ∨
  ∃ e, replay_records fuel i (stored_cap c) (mkStream (take m (frame x ++ rest)) true) r w = (Err e, w).
Proof.
  intros Hs. destruct fuel as [|fuel]; [right; by eexists|].
  destruct (decide (length (frame x) ≤ m)%nat).
  { left. exists fuel, (m - length (frame x))%nat. split; [done|]. by rewrite take_app_ge. }
  right. exists OtherError. cbn [replay_records]. unfold frame in *. rewrite <-!app_assoc in *.
  rewrite !length_app, !length_le_bytes in *.
  destruct (s_read_take 4 (le_bytes 4 (blen x)) (le_bytes 4 (crc32_hash x) ++ x ++ rest) m
    ltac:(apply blen_le_bytes)) as [->| ->]; [done|].
  rewrite (le_val_blen _ c Hs). destruct Hs as [H0 Hc].
  rewrite (proj2 (Z.eqb_neq _ _)), (proj2 (Z.ltb_ge _ _)) by lia.
  edestruct (s_read_take 4 (le_bytes 4 (crc32_hash x)) (x ++ rest)) as [->| ->]; [apply blen_le_bytes|done|].
  rewrite !length_le_bytes. unfold blen in H0.
  rewrite take_app_le by lia. rewrite s_read_exact_short; [done|].
  cbn. unfold blen. rewrite length_take. lia.
Qed.

(** No intact record is left out: the loop walks over every frame that the file starts
    with, whatever is behind them. *)
Lemma replay_all c ss rest fuel i rd r w r' q w' :
  Forall (storable c) ss → covers rd (frames ss ++ rest) → measures w i (rp_valid_end r) (frames ss ++ rest) →
  replay_records fuel i (stored_cap c) rd r w = (Ok (r', q), w') →
  ∃ more rest', rest = frames more ++ rest' ∧ Forall (storable c) (ss ++ more) ∧
                replayed r (ss ++ more) r' ∧ (q = None → clean_tail c r' rest').
Proof.
  intros Hss. revert fuel rd r w. induction Hss as [|x ss Hx Hss IH]; intros fuel rd r w Hcov Hm H.
  { eapply replay_Ok in H as (_ & (ss & rest' & Hd & Hss & Hr & Ht)); [|done|done]. by exists ss, rest'. }
  rewrite frames_cons, <-app_assoc in Hcov, Hm. destruct rd as [data bad].
  assert (∃ rd', st_bad rd' = bad ∧ data = frame x ++ st_data rd' ∧ covers rd' (frames ss ++ rest) ∧
          ∃ fuel', fuel = S fuel') as (rd' & Hb & -> & Hcov' & fuel' & ->).
  { destruct Hcov as [[Hbad Hd]|[Hbad [m Hd]]]; cbn in Hbad, Hd; subst.
    - exists (mkStream (frames ss ++ rest) false). split; [done|]. split; [done|].
      split; [by left|]. destruct fuel; [done|by eexists].
    - destruct (replay_take c fuel i x (frames ss ++ rest) m r w Hx) as [(f' & m' & -> & E)|[e E]].
      + exists (mkStream (take m' (frames ss ++ rest)) true). split; [done|]. split; [done|].
        split; [right; split; [done|by eexists]|by eexists].
      + by rewrite E in H. }
  rewrite (replay_step c) in H by done. destruct rd' as [data' bad']. cbn in Hb. subst bad'.
  eapply IH in H as (more & rest' & Hd & Hm' & Hr & Ht); [|done|].
  2: { destruct Hm as (n & Hn & Hlen). exists n. split; [done|]. cbn. rewrite !blen_app, blen_frame in Hlen.
       rewrite blen_app. lia. }
  exists more, rest'. split; [done|]. split; [by constructor|]. split; [by apply replayed_cons|done].
Qed.

(** ** The system calls of recovery *)

Lemma open_read_spec p w r w' :
  open_read p w = (r, w') →
  quiet w w' ∧
  ∀ rd, r = Ok rd → ∃ i n, fs_live (w_fs w) !! p = Some i ∧ fs_files (w_fs w) !! i = Some n ∧
                           covers rd (f_data n).
Proof.
  unfold open_read. destruct (pop_fault w) as [f w1] eqn:E. apply pop_fault_spec in E.
  destruct E as (Hle & H1 & H2 & H3 & H4 & H5 & H6 & H7 & H8 & _).
  assert (Hq : quiet w w1) by done. rewrite H1, H2.
  destruct f as [|m|m e]; [| |by intros [= <- <-]].
  all: destruct (fs_live (w_fs w) !! p) as [i|] eqn:Ei; [|by intros [= <- <-]]; cbn;
    destruct (fs_files (w_fs w) !! i) as [n|] eqn:En; [|by intros [= <- <-]];
    intros [= <- <-]; (split; [done|]); intros rd [= <-]; exists i, n; (split; [done|]); (split; [done|]).
  - by left.
  - right. split; [done|by exists m].
Qed.

Lemma open_handle_spec p w r w' :
  open_handle p w = (r, w') →
  quiet w w' ∧
  ∀ i rd, r = Ok (i, rd) → ∃ n, fs_live (w_fs w) !! p = Some i ∧ fs_files (w_fs w) !! i = Some n ∧
                                covers rd (f_data n).
Proof.
  unfold open_handle. destruct (open_read p w) as [[rd|e] w1] eqn:E; apply open_read_spec in E as [Hq Hr];
    intros [= <- <-]; (split; [done|]); [|done].
  intros i rd' [= <- <-]. destruct (Hr rd eq_refl) as (i & n & Hi & Hn & Hc). rewrite Hi. by exists n.
Qed.

(** Nothing changes but the set of directories, the tape and the metrics. *)
Definition calm (w w' : World) : Prop :=
  fs_le no_path (w_fs w) (w_fs w') ∧ fs_live (w_fs w') = fs_live (w_fs w) ∧
  fs_files (w_fs w') = fs_files (w_fs w) ∧ same_clock w w'.

Lemma calm_trans w1 w2 w3 : calm w1 w2 → calm w2 w3 → calm w1 w3.
Proof.
  intros (A1 & B1 & C1 & D1 & E1) (A2 & B2 & C2 & D2 & E2). split; [by eapply fs_le_trans|].
  unfold same_clock. repeat split; congruence.
Qed.

Lemma quiet_calm w w' : quiet w w' → calm w w'.
Proof. intros (A & (B & _) & C & _ & D). done. Qed.

Lemma create_dir_private_calm d w r w' : create_dir_private d w = (r, w') → calm w w'.
Proof.
  unfold create_dir_private. intros H.
  assert (Hc : ∀ r1 w1, create_dir_all d w = (r1, w1) → calm w w1).
  { intros r1 w1 H1. unfold create_dir_all in H1. apply guarded_spec in H1 as
      (w2 & Hle & H1 & H2 & H3 & H4 & H5 & H6 & H7 & H8 & [[-> _]|Hr]); [done|].
    injection Hr as _ <-. split; [|done]. eapply fs_le_trans; [done|]. constructor; cbn; [done|lia| | |apply union_dirs_le].
    - intros Hwf i n Hn. by exists n.
    - intros a sl i _ [L1 L2 LD L3 L4 L5]. constructor; cbn; try done. eapply durable_dir_mono, LD. apply union_dirs_le. }
  apply io_bind_inv in H as [(e & H & ->)|(u & w1 & H & Hg)]; [by eapply Hc|].
  eapply calm_trans; [by eapply Hc|]. eapply quiet_calm, guarded_quiet; [|done]. eauto.
Qed.

Lemma try_exists_calm p w r w' :
  try_exists p w = (r, w') → calm w w' ∧ (r = Ok false → fs_live (w_fs w') !! p = None).
Proof.
  intros (Hle & (Hl & _) & Hc & Hf & Hn & Hfree)%try_exists_spec. split; [done|].
  intros Hr. rewrite Hl. auto.
Qed.

Lemma free_name_spec dir base n fuel w r w' :
  free_name dir base n fuel w = (r, w') →
  calm w w' ∧ ∀ q, r = Ok q → parent q = dir ∧ fs_live (w_fs w') !! q = None.
Proof.
  revert n w. induction fuel as [|fuel IH]; intros n w H; cbn in H.
  { injection H as <- <-. split; [apply quiet_calm, quiet_refl|done]. }
  apply io_bind_inv in H as [(e & H & ->)|(b & w1 & H & Hg)]; apply try_exists_calm in H as [Hc Hfree]; [done|].
  destruct b.
  - apply IH in Hg as [Hc2 Hq]. split; [by eapply calm_trans|done].
  - injection Hg as <- <-. split; [done|]. intros q [= <-]. rewrite parent_snoc. auto.
Qed.

Lemma non_clobbering_dest_spec dir base w r w' :
  non_clobbering_dest dir base w = (r, w') →
  calm w w' ∧ ∀ q, r = Ok q → parent q = dir ∧ fs_live (w_fs w') !! q = None.
Proof.
  unfold non_clobbering_dest. intros H.
  apply io_bind_inv in H as [(e & H & ->)|(b & w1 & H & Hg)]; apply try_exists_calm in H as [Hc Hfree]; [done|].
  destruct b.
  - apply free_name_spec in Hg as [Hc2 Hq]. split; [by eapply calm_trans|done].
  - injection Hg as <- <-. split; [done|]. intros q [= <-]. rewrite parent_snoc. auto.
Qed.

Lemma quarantine_dest_spec p wab w r w' :
  quarantine_dest p wab w = (r, w') →
  calm w w' ∧ ∀ q, r = Ok q → parent q = quarantine_dir wab ∧ fs_live (w_fs w') !! q = None.
Proof.
  unfold quarantine_dest. intros H.
  apply io_bind_inv in H as [(e & H & ->)|(u & w1 & H & Hg)]; apply create_dir_private_calm in H; [done|].
  destruct (file_name p) as [name|].
  - apply non_clobbering_dest_spec in Hg as [Hc Hq]. split; [by eapply calm_trans|done].
  - injection Hg as <- <-. done.
Qed.

(** Names in the quarantine directory are no segment names of a shard. *)
Lemma quarantine_name_other wab q d k :
  parent q = quarantine_dir wab → d ≠ quarantine_dir wab →
  segment_path d k ≠ q ∧ sealed_path_for (segment_path d k) ≠ q.
Proof.
  intros Hq Hd. split; intros <-; rewrite ?parent_segment_path, ?parent_sealed_path in Hq; done.
Qed.

(** A step that keeps the files that exist and the names other than [q]. *)
Definition spares (q : path) (w w' : World) : Prop :=
  (∀ a, a ≠ q → fs_live (w_fs w') !! a = fs_live (w_fs w) !! a) ∧
  (fs_wf (w_fs w) → ∀ j n, fs_files (w_fs w) !! j = Some n → fs_files (w_fs w') !! j = Some n) ∧
  same_clock w w'.

Lemma copy_spec p q w r w' :
  copy p q w = (r, w') → fs_wf (w_fs w) → fs_live (w_fs w) !! q = None →
  fs_le (link_own q) (w_fs w) (w_fs w') ∧ spares q w w' ∧
  (r = Ok tt → ∃ i n j, fs_live (w_fs w) !! p = Some i ∧ fs_files (w_fs w) !! i = Some n ∧
     fs_files (w_fs w) !! j = None ∧
     fs_live (w_fs w') !! q = Some j ∧ fs_files (w_fs w') !! j = Some (mkFileNode (f_data n) 0 false)).
Proof.
  unfold copy. intros H Hwf Hq. destruct (pop_fault w) as [f w1] eqn:E. apply pop_fault_spec in E.
  destruct E as (Hle & H1 & H2 & H3 & H4 & H5 & H6 & H7 & H8 & _).
  assert (Hle' : fs_le (link_own q) (w_fs w) (w_fs w1)) by (by eapply fs_le_weaken, Hle).
  rewrite <-H2 in Hq. rewrite Hq in H.
  destruct (fs_live (w_fs w1) !! p ≫= λ i, fs_files (w_fs w1) !! i) as [n|] eqn:En; rewrite H1, H2 in En.
  2: { injection H as <- <-. split; [done|]. split; [|by destruct f].
       split; [by intros a _; rewrite H2|]. split; [by intros _ j n; rewrite H1|done]. }
  set (data := match f with FOk => _ | _ => _ end) in H.
  destruct data as [b r0] eqn:Edata. injection H as <- <-. cbn.
  pose proof (le_wf _ _ _ Hle Hwf) as Hwf1.
  split; [|split].
  - eapply fs_le_trans; [done|]. apply link_file_le; [done|cbn; lia].
  - split; [|split; [|done]]; cbn.
    + intros a Ha. rewrite lookup_insert_ne by congruence. by rewrite H2.
    + intros _ j m Hm. rewrite lookup_insert_ne; [by rewrite H1|].
      intros <-. destruct (Hwf _ _ Hm). cbn in *. rewrite H5 in *. lia.
  - intros ->. assert (b = f_data n) as -> by (by destruct f; simplify_eq).
    apply bind_Some in En as (i & Hi & Hn). exists i, n, (fs_next (w_fs w1)). cbn.
    rewrite !lookup_insert_eq. do 2 (split; [done|]). split; [|done].
    rewrite <-H1. destruct (fs_files (w_fs w1) !! fs_next (w_fs w1)) eqn:Ex; [|done].
    destruct (Hwf1 _ _ Ex). lia.
Qed.

(** The whole of [data] is in file [j] at [q], contents and name on stable storage. *)
Definition durable_copy s (q : path) (j : inode) (data : bytes) : Prop :=
  ∃ node, fs_live s !! q = Some j ∧ fs_stable s !! q = Some j ∧
    Forall (λ op, op_in_dir (parent q) op = false) (fs_pending s) ∧
    fs_files s !! j = Some node ∧ f_data node = data ∧ f_synced node = length data.

(** If the directory is durable, no crash loses the copy. *)
Lemma durable_copy_safe s q j data : durable_copy s q j data → durable_dir s (parent q) → safe_file s q data.
Proof.
  intros (node & Hl & Hs & Hp & Hn & Hd & Hy) Hdir. exists j, node. split; [|done]. constructor; [done|done| |done].
  eapply Forall_impl; [exact Hp|]. intros op Ho. destruct op; cbn in *; b2p; [by intros ->|by intros ->|by split; intros ->].
Qed.

Lemma open_existing_spec p w r w' :
  open_existing p w = (r, w') → quiet w w' ∧ ∀ i, r = Ok i → fs_live (w_fs w) !! p = Some i.
Proof.
  unfold open_existing. intros H. pose proof H as Hq. split.
  - eapply guarded_quiet; [|exact Hq]. intros w0. cbn. destruct (fs_live (w_fs w0) !! p); eauto.
  - intros i ->. apply guarded_spec in H as
      (w1 & _ & _ & H2 & _ & _ & _ & _ & _ & _ & [[_ [k Hk]]|Hm]); [done|].
    rewrite H2 in Hm. by destruct (fs_live (w_fs w) !! p); simplify_eq.
Qed.

(** What a step leaves alone: [keeps], the name [p], the files that were there. *)
Record gentle wab p (w w' : World) : Prop := mkGentle {
  gt_keeps : keeps wab (w_fs w) (w_fs w');
  gt_live : fs_live (w_fs w') !! p = fs_live (w_fs w) !! p;
  gt_files : fs_wf (w_fs w) → ∀ j n, fs_files (w_fs w) !! j = Some n → fs_files (w_fs w') !! j = Some n;
  gt_clock : same_clock w w';
}.

Lemma gentle_trans wab p w1 w2 w3 : gentle wab p w1 w2 → gentle wab p w2 w3 → gentle wab p w1 w3.
Proof.
  intros [A1 B1 C1 [D1 E1]] [A2 B2 C2 [D2 E2]]. constructor.
  - by etrans.
  - congruence.
  - intros Hwf j n Hn. destruct (A1 Hwf) as [Hwf2 _]. auto.
  - split; congruence.
Qed.

Lemma calm_gentle wab p w w' : calm w w' → gentle wab p w w'.
Proof.
  intros (A & B & C & D). constructor; [by apply keeps_no_path|by rewrite B|by rewrite C|done].
Qed.

Lemma link_gentle wab p q w w' :
  fs_le (link_own q) (w_fs w) (w_fs w') → spares q w w' → parent q = quarantine_dir wab → p ≠ q →
  gentle wab p w w'.
Proof.
  intros Hle (Hl & Hf & Hc) Hq Hne. constructor; [|by apply Hl|done|done].
  eapply keeps_le; [done|]. intros d k i c ss Hd _ [Ho|Ho]; destruct (quarantine_name_other wab q d k); done.
Qed.

(** A sync of a file that was not there to begin with. *)
Lemma sync_fresh_gentle wab p j w0 w r w' :
  sync_file j w = (r, w') → fs_files (w_fs w0) !! j = None → gentle wab p w0 w → gentle wab p w0 w'.
Proof.
  intros (Hle & (Hl & _) & Hc & Hn & Hf)%sync_file_spec Hj [A B C [D E]]. constructor.
  - etrans; [done|by apply keeps_no_path].
  - by rewrite Hl.
  - intros Hwf i n Hi. rewrite Hf, lookup_alter_ne by congruence. auto.
  - destruct Hc. split; congruence.
Qed.

Lemma copy_to_quarantine_spec p wab w r w' :
  copy_to_quarantine p wab w = (r, w') → fs_wf (w_fs w) → parent p ≠ quarantine_dir wab →
  quarantine_dir wab ≠ [] →
  gentle wab p w w' ∧
  ∀ q, r = Ok q → ∃ i n j, fs_live (w_fs w) !! p = Some i ∧ fs_files (w_fs w) !! i = Some n ∧
    fs_files (w_fs w) !! j = None ∧
    parent q = quarantine_dir wab ∧ durable_copy (w_fs w') q j (f_data n).
Proof.
  unfold copy_to_quarantine. intros H Hwf Hp Hne.
  apply io_bind_inv in H as [(e & H & ->)|(q & w1 & H & Hg)]; apply quarantine_dest_spec in H as [Hc Hq];
    [by split; [apply calm_gentle|]|].
  destruct (Hq q eq_refl) as [Hpq Hfree]. pose proof Hc as (Hle1 & Hl1 & Hf1 & _).
  pose proof (le_wf _ _ _ Hle1 Hwf) as Hwf1. apply (calm_gentle wab p) in Hc.
  assert (Hpne : p ≠ q) by congruence.
  apply io_bind_inv in Hg as [(e & H & ->)|([] & w2 & H & Hg)];
    destruct (copy_spec _ _ _ _ _ H Hwf1 Hfree) as (Hle & Hsp & Hok);
    pose proof (link_gentle _ _ _ _ _ Hle Hsp Hpq Hpne) as Hg2;
    [split; [by eapply gentle_trans|done]|].
  destruct (Hok eq_refl) as (i & n & j & Hi & Hn & Hj & Hlj & Hfj). rewrite Hl1 in Hi. rewrite Hf1 in Hn, Hj.
  pose proof (gentle_trans _ _ _ _ _ Hc Hg2) as Hg12. clear Hc Hg2 Hok H.
  unfold sync_path in Hg.
  apply io_bind_inv in Hg as [(e & H & ->)|([] & w3 & H & Hg)].
  { split; [|done]. apply io_bind_inv in H as [(e' & H & Ee)|(j' & w3 & H & Hs)].
    - apply open_existing_spec in H as [Hqt _]. eapply gentle_trans; [done|]. by apply calm_gentle, quiet_calm.
    - apply open_existing_spec in H as [Hqt Hj']. specialize (Hj' j' eq_refl). rewrite Hlj in Hj'. injection Hj' as <-.
      eapply sync_fresh_gentle; [done|done|]. eapply gentle_trans; [done|]. by apply calm_gentle, quiet_calm. }
  apply io_bind_inv in H as [(e' & H & Ee)|(j' & w4 & H & Hs)]; [done|].
  apply open_existing_spec in H as [Hqt Hj']. specialize (Hj' j' eq_refl). rewrite Hlj in Hj'. injection Hj' as <-.
  pose proof Hqt as (_ & (Hl4 & _) & Hf4 & _ & _).
  assert (Hg3 : gentle wab p w w3).
  { eapply sync_fresh_gentle; [done|done|]. eapply gentle_trans; [done|]. by apply calm_gentle, quiet_calm. }
  apply sync_file_spec in Hs as (_ & (Hl3 & _) & _ & _ & Hf3). cbn [is_ok] in Hf3.
  assert (Hpar : parent q ≠ []) by (by rewrite Hpq).
  apply io_bind_inv in Hg as [(e' & H & ->)|([] & w5 & H & Hg)];
    apply fsync_parent_dir_spec in H as (Hle5 & Hc5 & Hl5 & Hf5 & _ & _ & Hok).
  { split; [|done]. eapply gentle_trans; [done|]. by apply calm_gentle. }
  injection Hg as <- <-. destruct (Hok eq_refl Hpar) as (_ & Hst & Hpe).
  split; [eapply gentle_trans; [done|]; by apply calm_gentle|].
  intros q' [= <-]. exists i, n, j. do 4 (split; [done|]).
  exists (mkFileNode (f_data n) (length (f_data n)) false).
  rewrite Hl5, Hst, Hl3, Hl4, Hf5, Hf3, Hf4, lookup_alter_eq, Hfj by done. done.
Qed.

Lemma preserve_spec p wab reason w r w' :
  preserve p wab reason w = (r, w') → fs_wf (w_fs w) → parent p ≠ quarantine_dir wab →
  quarantine_dir wab ≠ [] →
  gentle wab p w w' ∧
  (r = Ok tt → reason ≠ None → ∃ q i n j, fs_live (w_fs w) !! p = Some i ∧ fs_files (w_fs w) !! i = Some n ∧
    fs_files (w_fs w) !! j = None ∧ parent q = quarantine_dir wab ∧ durable_copy (w_fs w') q j (f_data n)).
Proof.
  unfold preserve. intros H Hwf Hp Hne. destruct reason as [reason|].
  2: { injection H as <- <-. split; [apply calm_gentle, quiet_calm, quiet_refl|done]. }
  destruct (copy_to_quarantine p wab w) as [[q|e] w1] eqn:E;
    apply copy_to_quarantine_spec in E as [Hg Hq]; [|done|done|done| |done|done|done]; injection H as <- <-.
  - split; [by destruct Hg|]. intros _ _. destruct (Hq q eq_refl) as (i & n & j & ?). by exists q, i, n, j.
  - split; [by destruct Hg|done].
Qed.

(** ** The re-seal *)

(** Truncation to [e] cuts no durable segment that file [i] holds. *)
Definition within s (i : inode) (e : Z) : Prop :=
  ∀ hb hd ss, parse_segment_header hb = Ok hd → Forall (storable (sh_compression hd)) ss →
    durably_holds s i (hb ++ frames ss) → blen (hb ++ frames ss) ≤ e.

Definition cut_node (n : nat) (f : FileNode) : FileNode :=
  mkFileNode (take n (f_data f) ++ replicate (n - length (f_data f)) x00)
    (Nat.min (f_synced f) n) (f_lost f).

Lemma cut_node_prefix n f l :
  (f_synced f ≤ length (f_data f))%nat → (length l ≤ n)%nat →
  l `prefix_of` durable_prefix f → l `prefix_of` durable_prefix (cut_node n f).
Proof.
  unfold durable_prefix, cut_node. cbn. intros Hs Hl Hp.
  rewrite take_app_le by (rewrite length_take; lia). rewrite take_take.
  replace (Nat.min (Nat.min (f_synced f) n) n) with (Nat.min n (f_synced f)) by lia.
  rewrite <-take_take. destruct Hp as [k Hk]. rewrite Hk.
  rewrite take_app_ge by done. by eexists.
Qed.

Lemma set_len_spec wab i e w r w' :
  set_len i e w = (r, w') → within (w_fs w) i e → 0 ≤ e →
  keeps wab (w_fs w) (w_fs w') ∧ same_dirs w w' ∧ same_clock w w' ∧
  (r = Ok tt → fs_files (w_fs w') = alter (cut_node (Z.to_nat e)) i (fs_files (w_fs w))).
Proof.
  unfold set_len. intros H Hin He. apply guarded_spec in H as
    (w1 & Hle & H1 & H2 & H3 & H4 & H5 & H6 & H7 & H8 & [[-> [k ->]]|Hm]).
  { split; [by apply keeps_no_path|]. done. }
  injection Hm as <- <-. unfold same_dirs, same_clock. cbn. rewrite H1, H2, H3, H4, H6, H7, H8.
  split; [|done]. intros Hwf. pose proof (le_wf _ _ _ Hle Hwf) as Hwf1. split.
  - intros j n Hn. cbn in Hn. destruct (decide (i = j)) as [->|Hne].
    + rewrite lookup_alter_eq in Hn. destruct (fs_files (w_fs w1) !! j) as [f|] eqn:Ef; [|done].
      injection Hn as <-. destruct (Hwf1 _ _ Ef). split; [done|]. cbn.
      rewrite length_app, length_take, length_replicate. lia.
    + rewrite lookup_alter_ne in Hn by done. by apply Hwf1.
  - split; [by rewrite <-H6|]. intros d k j c ss _ (Hk & Hss & Hl & hb & hd & Hp & Hc & n & Hn & Hpre).
    split; [done|]. split; [done|]. split.
    { apply (fs_le_linked _ _ _ _ _ Hle) in Hl as [L1 L2 LD L3 L4 L5]. by constructor. }
    exists hb, hd. split; [done|]. split; [done|]. destruct (decide (i = j)) as [->|Hne].
    + exists (cut_node (Z.to_nat e) n). cbn. rewrite lookup_alter_eq, H1, Hn. split; [done|].
      apply cut_node_prefix; [by destruct (Hwf _ _ Hn)| |done].
      assert (Hb : blen (hb ++ frames ss) ≤ e) by (eapply Hin; [done|by rewrite Hc; apply stored_rec_storable|by exists n]).
      unfold blen in Hb. lia.
    + exists n. cbn. by rewrite lookup_alter_ne, H1.
Qed.

Lemma cut_node_data n f pre post :
  f_data f = pre ++ post → length pre = n → f_data (cut_node n f) = pre.
Proof.
  intros Hd Hn. cbn. rewrite Hd, length_app, <-Hn, take_app_length.
  replace (length pre - (length pre + length post))%nat with 0%nat by lia. apply app_nil_r.
Qed.

(** A reseal that only appends and renames keeps everything. *)
Lemma rename_live p q w w' :
  rename p q w = (Ok tt, w') → p ≠ q →
  ∃ i, fs_live (w_fs w) !! p = Some i ∧ fs_live (w_fs w') = <[q := i]> (delete p (fs_live (w_fs w))).
Proof.
  unfold rename. intros H Hne. apply guarded_spec in H as
    (w1 & _ & _ & H2 & _ & _ & _ & _ & _ & _ & [[_ [k Hk]]|Hm]); [done|]. rewrite H2 in Hm.
  destruct (fs_live (w_fs w) !! p) as [i|] eqn:Ei; [|done]. injection Hm as <-. cbn. rewrite H2, Ei. eauto.
Qed.

Lemma sealed_path_neq p : is_active_segment p = true → p ≠ sealed_path_for p.
Proof.
  intros [b Hb]%active_segment_name. rewrite (active_sealed_name _ _ Hb). rewrite Hb at 1.
  intros He. apply app_inj_2 in He as [_ He]; [|done]. injection He as He.
  by apply active_suffix_not_sealed in He.
Qed.

(** The file after the re-seal: the valid prefix, the sentinel, a footer, all synced. *)
Definition resealed (r : Replay) (pre : bytes) (lost : bool) (node : FileNode) : Prop :=
  ∃ at_, is_i64 at_ ∧
    f_data node = pre ++ SENTINEL ++ build_segment_footer (rp_records r) (rp_data_bytes r)
                                      (hasher_finalize (rp_crc r)) at_ ∧
    (lost = false → durable_prefix node = f_data node).

Lemma resealed_node r pre n f post at_ :
  f_data f = pre ++ post → length pre = n → is_i64 at_ →
  resealed r pre (f_lost f)
    (sync_node (append_node (build_segment_footer (rp_records r) (rp_data_bytes r)
       (hasher_finalize (rp_crc r)) at_) (append_node SENTINEL (cut_node n f)))).
Proof.
  intros Hd Hn Hat. exists at_. split; [done|]. unfold sync_node, append_node.
  rewrite (cut_node_data _ _ _ _ Hd Hn). cbn [f_data f_lost f_synced cut_node].
  destruct (f_lost f); cbn [f_data]; rewrite <-app_assoc; split; try done.
  intros _. unfold durable_prefix. cbn [f_data f_synced]. by rewrite firstn_all.
Qed.

Lemma rebuild_spec wab p r w res w' i node pre post :
  rebuild p r w = (res, w') → fs_wf (w_fs w) → is_active_segment p = true →
  fs_live (w_fs w) !! p = Some i → fs_files (w_fs w) !! i = Some node →
  f_data node = pre ++ post → blen pre = rp_valid_end r → within (w_fs w) i (rp_valid_end r) →
  keeps wab (w_fs w) (w_fs w') ∧
  ∀ q, res = Ok q → q = sealed_path_for p ∧ fs_live (w_fs w') !! q = Some i ∧
    ∃ node', fs_files (w_fs w') !! i = Some node' ∧ resealed r pre (f_lost node) node'.
Proof.
  intros H Hwf Hact Hli Hfi Hd Hlen Hin. unfold rebuild in H.
  set (at_ := unix_nanos_now (w_unix w)) in *. set (ft := build_segment_footer _ _ _ at_) in *.
  apply io_bind_inv in H as [(e & H & ->)|(j & w1 & H & Hg)]; apply open_existing_spec in H as [Hq Hj].
  { split; [|done]. apply keeps_no_path, Hq. }
  specialize (Hj j eq_refl). rewrite Hli in Hj. injection Hj as <-.
  destruct Hq as (Hle1 & (Hl1 & _) & Hf1 & _ & _). pose proof (keeps_no_path wab _ _ Hle1) as K1.
  assert (Hin1 : within (w_fs w1) i (rp_valid_end r)).
  { intros hb hd ss Hh Hss (n & Hn & Hpre). rewrite Hf1 in Hn. eapply Hin; [done|done|by exists n]. }
  pose proof (blen_nonneg pre) as Hpos.
  apply io_bind_inv in Hg as [(e & H & ->)|([] & w2 & H & Hg)];
    destruct (set_len_spec wab _ _ _ _ _ H Hin1 ltac:(lia)) as (K2 & (Hl2 & _) & _ & Hf2);
    [split; [by etrans|done]|].
  clear H. specialize (Hf2 eq_refl). assert (K12 : keeps wab (w_fs w) (w_fs w2)) by (by etrans). rewrite Hf1 in Hf2.
  apply io_bind_inv in Hg as [(e & H & ->)|([] & w3 & H & Hg)];
    apply write_all_spec in H as (b3 & Hle3 & (Hl3 & _) & _ & _ & Hf3 & Hb3);
    pose proof (keeps_no_path wab _ _ Hle3) as K3; [split; [by etrans|done]|].
  apply io_bind_inv in Hg as [(e & H & ->)|([] & w4 & H & Hg)];
    apply write_all_spec in H as (b4 & Hle4 & (Hl4 & _) & _ & _ & Hf4 & Hb4);
    pose proof (keeps_no_path wab _ _ Hle4) as K4; [split; [by do 2 (etrans; [done|])|done]|].
  specialize (Hb3 eq_refl). specialize (Hb4 eq_refl). subst b3 b4.
  apply io_bind_inv in Hg as [(e & H & ->)|([] & w5 & H & Hg)];
    apply sync_file_spec in H as (Hle5 & (Hl5 & _) & _ & _ & Hf5);
    pose proof (keeps_no_path wab _ _ Hle5) as K5; [split; [by do 3 (etrans; [done|])|done]|].
  cbn [is_ok] in Hf5.
  assert (Hren : ∀ w1 r1 w2, rename p (sealed_path_for p) w1 = (r1, w2) → keeps wab (w_fs w1) (w_fs w2)).
  { intros wa ra wb (Hle & _)%rename_spec. eapply keeps_le; [done|]. intros d k ? ? ? _ _. by apply active_rename_other. }
  apply io_bind_inv in Hg as [(e & H & ->)|([] & w6 & H & Hg)]; pose proof (Hren _ _ _ H) as K6;
    [split; [by do 4 (etrans; [done|])|done]|].
  destruct (rename_live _ _ _ _ H (sealed_path_neq _ Hact)) as (i' & Hi' & Hl6).
  rewrite Hl5, Hl4, Hl3, Hl2, Hl1, Hli in Hi'. injection Hi' as <-.
  apply rename_spec in H as (_ & _ & Hf6 & _ & _).
  apply io_bind_inv in Hg as [(e & H & ->)|([] & w7 & H & Hg)];
    apply fsync_parent_dir_spec in H as (Hle7 & _ & Hl7 & Hf7 & _);
    pose proof (keeps_no_path wab _ _ Hle7) as K7; [split; [by do 5 (etrans; [done|])|done]|].
  injection Hg as <- <-. split; [cbn; by do 5 (etrans; [done|])|].
  intros q [= <-]. split; [done|]. cbn. rewrite Hl7, Hl6, lookup_insert_eq. split; [done|].
  rewrite Hf7, Hf6, Hf5, Hf4, Hf3, Hf2, !lookup_alter_eq, Hfi. cbn [fmap option_fmap option_map].
  eexists. split; [done|]. apply (resealed_node _ _ _ _ post); [done|unfold blen in Hlen; lia|].
  apply unix_nanos_now_i64.
Qed.

(** ** Headers *)

(** No segment with a valid header is in file [i]. *)
Definition headerless s (i : inode) : Prop :=
  ∀ hb hd, parse_segment_header hb = Ok hd → ¬ durably_holds s i hb.

Lemma durably_holds_prefix s i l n : durably_holds s i l → fs_files s !! i = Some n → l `prefix_of` f_data n.
Proof.
  intros (n' & Hn & Hp) Hi. assert (n' = n) as -> by congruence. etrans; [exact Hp|].
  unfold durable_prefix. exists (drop (f_synced n) (f_data n)). by rewrite take_drop.
Qed.

Lemma headerless_short s i n rd :
  fs_files s !! i = Some n → covers rd (f_data n) → s_read_exact SEGMENT_HEADER_LEN rd = Err UnexpectedEof →
  headerless s i.
Proof.
  intros Hn Hc (Hl & He)%s_read_exact_Err hb hd Hh Hd. unfold stream_end in He.
  destruct Hc as [[Hb Hdata]|[Hb _]]; rewrite Hb in He; [|done].
  apply parse_segment_header_inv in Hh as [Hlen _]. eapply durably_holds_prefix in Hd as [k Hk]; [|done].
  rewrite Hdata, Hk, blen_app in Hl. unfold SEGMENT_HEADER_LEN, blen in Hl. lia.
Qed.

Lemma headerless_bad s i n hb rest :
  fs_files s !! i = Some n → f_data n = hb ++ rest → blen hb = SEGMENT_HEADER_LEN →
  (∀ hd, parse_segment_header hb ≠ Ok hd) → headerless s i.
Proof.
  intros Hn Hdata Hlen Hbad hb' hd Hh Hd. pose proof Hh as [Hlen' _]%parse_segment_header_inv.
  eapply durably_holds_prefix in Hd as [k Hk]; [|done]. rewrite Hdata in Hk.
  apply app_inj_1 in Hk as [-> _]; [by eapply Hbad|]. unfold SEGMENT_HEADER_LEN, blen in Hlen. lia.
Qed.

Lemma quarantine_keeps {A} p wab w (r : result A ErrorKind) w' i :
  quarantine_and_count p wab w = (r, w') → is_active_segment p = true → parent p ≠ quarantine_dir wab →
  fs_live (w_fs w) !! p = Some i → headerless (w_fs w) i →
  keeps wab (w_fs w) (w_fs w') ∧ ∃ e, r = Err e.
Proof.
  intros H Hact Hp Hi Hh. unfold quarantine_and_count, quarantine in H.
  destruct (io_bind _ _ w) as [r0 w0] eqn:E.
  assert (Hk : keeps wab (w_fs w) (w_fs w0)).
  { apply io_bind_inv in E as [(e & H' & ->)|(q & w1 & H' & Hg)];
      apply quarantine_dest_spec in H' as [Hc Hq]; [by apply (calm_gentle wab p) in Hc as []|].
    destruct (Hq q eq_refl) as [Hpq _]. destruct Hc as (Hle & Hl & Hf & _). clear Hq H.
    etrans; [by apply keeps_no_path|]. apply rename_spec in Hg as (Hle' & _).
    eapply keeps_le; [done|]. intros d k j c ss Hd (Hk & _ & Hlk & hb & hd & Hpar & _ & Hhold) [_ Ho].
    destruct (quarantine_name_other wab q d k Hpq Hd) as [Hna Hns].
    destruct Ho as [Ho|[Ho|[Ho|Ho]]]; [|done| |done].
    - destruct (lk_live _ _ _ _ Hlk) as [Ha|[Ha _]]; rewrite Ho, Hl, Hi in Ha; [|done]. injection Ha as ->.
      apply (Hh hb hd Hpar). destruct Hhold as (n & Hn & Hpre). exists n. rewrite <-Hf. split; [done|].
      etrans; [|exact Hpre]. by eexists.
    - apply active_segment_name in Hact as [b Hb]. rewrite Hb, sealed_segment_path in Ho.
      apply app_inj_tail in Ho as [_ Ho]. symmetry in Ho. by apply active_suffix_not_sealed in Ho. }
  destruct r0 as [[]|qe]; injection H as <- <-; (split; [exact Hk|by eexists]).
Qed.

(** ** The quarantine copy outlives the re-seal *)

Lemma durable_copy_files q i j data w w' :
  same_dirs w w' → j ≠ i → (∀ k, k ≠ i → fs_files (w_fs w') !! k = fs_files (w_fs w) !! k) →
  durable_copy (w_fs w) q j data → durable_copy (w_fs w') q j data.
Proof.
  intros (E1 & E2 & E3 & _) Hne Hf (node & ?). exists node. by rewrite E1, E2, E3, Hf.
Qed.

Lemma durable_copy_alter q i j data (f : FileNode → FileNode) w w' :
  same_dirs w w' → j ≠ i → fs_files (w_fs w') = alter f i (fs_files (w_fs w)) →
  durable_copy (w_fs w) q j data → durable_copy (w_fs w') q j data.
Proof.
  intros Hd Hne Hf. apply (durable_copy_files q i); [done|done|].
  intros k Hk. by rewrite Hf, lookup_alter_ne.
Qed.

Lemma set_len_alter i e w w' :
  set_len i e w = (Ok tt, w') →
  same_dirs w w' ∧ ∃ f, fs_files (w_fs w') = alter f i (fs_files (w_fs w)).
Proof.
  unfold set_len. intros H. apply guarded_spec in H as
    (w1 & _ & H1 & H2 & H3 & H4 & H5 & H6 & H7 & H8 & [[_ [k Hk]]|Hm]); [done|].
  injection Hm as <-. unfold same_dirs. cbn. rewrite H1, H2, H3, H4, H6. split; [done|]. by eexists.
Qed.

Lemma durable_copy_rename p q0 q j data w w' :
  rename p q0 w = (Ok tt, w') → p ≠ q → q0 ≠ q → parent p ≠ parent q → parent q0 ≠ parent q →
  durable_copy (w_fs w) q j data → durable_copy (w_fs w') q j data.
Proof.
  unfold rename. intros H Hp Hq0 Hpp Hpq (node & Hl & Hs & Hpe & Hn & Hd). apply guarded_spec in H as
    (w1 & _ & H1 & H2 & H3 & H4 & H5 & H6 & H7 & H8 & [[_ [k Hk]]|Hm]); [done|].
  destruct (fs_live (w_fs w1) !! p) as [i|] eqn:Ei; [|done]. injection Hm as <-.
  exists node. cbn. rewrite Ei, H1, H2, H3, H4, lookup_insert_ne, lookup_delete_ne by done.
  do 2 (split; [done|]). split; [|done]. apply Forall_app. split; [done|]. constructor; [|done].
  cbn. apply orb_false_iff. split; by apply bool_decide_eq_false_2.
Qed.

Lemma durable_copy_sync_dir d q j data w r w' :
  sync_dir d w = (r, w') → durable_copy (w_fs w) q j data → durable_copy (w_fs w') q j data.
Proof.
  unfold sync_dir. intros H (node & Hl & Hs & Hpe & Hn & Hd). apply guarded_spec in H as
    (w1 & _ & H1 & H2 & H3 & H4 & H5 & H6 & H7 & H8 & [[-> _]|Hm]).
  { exists node. by rewrite H1, H2, H3, H4. }
  injection Hm as _ <-. exists node. cbn. rewrite lookup_sync_entries, H1, H2, H3, H4.
  split; [done|]. split; [by destruct (decide _)|]. split; [|done].
  apply Forall_forall. intros op Hop. apply list_elem_of_filter in Hop as [_ Hop].
  rewrite Forall_forall in Hpe. by apply Hpe.
Qed.

Lemma sealed_parent p : is_active_segment p = true → parent (sealed_path_for p) = parent p.
Proof. intros [b Hb]%active_segment_name. rewrite (active_sealed_name _ _ Hb). by rewrite parent_snoc. Qed.

Lemma rebuild_copy p r w q0 w' i q j data :
  rebuild p r w = (Ok q0, w') → is_active_segment p = true → fs_live (w_fs w) !! p = Some i → j ≠ i →
  parent p ≠ parent q → durable_copy (w_fs w) q j data → durable_copy (w_fs w') q j data.
Proof.
  intros H Hact Hli Hji Hpq Hc. unfold rebuild in H.
  apply io_bind_inv in H as [(e & _ & ?)|(i' & w1 & H & Hg)]; [done|].
  apply open_existing_spec in H as [(_ & Hd1 & Hf1 & _) Hi']. specialize (Hi' i' eq_refl).
  assert (i' = i) as -> by congruence.
  apply io_bind_inv in Hg as [(e & _ & ?)|([] & w2 & H & Hg)]; [done|].
  apply set_len_alter in H as (Hd2 & f2 & Hf2).
  apply io_bind_inv in Hg as [(e & _ & ?)|([] & w3 & H & Hg)]; [done|].
  apply write_all_spec in H as (b3 & _ & Hd3 & _ & _ & Hf3 & _).
  apply io_bind_inv in Hg as [(e & _ & ?)|([] & w4 & H & Hg)]; [done|].
  apply write_all_spec in H as (b4 & _ & Hd4 & _ & _ & Hf4 & _).
  apply io_bind_inv in Hg as [(e & _ & ?)|([] & w5 & H & Hg)]; [done|].
  apply sync_file_spec in H as (_ & Hd5 & _ & _ & Hf5).
  apply io_bind_inv in Hg as [(e & _ & ?)|([] & w6 & Hr & Hg)]; [done|].
  apply io_bind_inv in Hg as [(e & _ & ?)|([] & w7 & Hs & Hg)]; [done|]. injection Hg as <- <-. cbn.
  assert (Hc5 : durable_copy (w_fs w5) q j data).
  { do 4 (eapply durable_copy_alter; [eassumption|exact Hji|eassumption|]).
    eapply (durable_copy_files q i); [done|done|by intros; rewrite Hf1|done]. }
  eapply durable_copy_rename in Hc5; [|exact Hr|by intros ->|intros <-; by rewrite sealed_parent in Hpq|done|
    by rewrite sealed_parent].
  unfold fsync_parent_dir in Hs. destruct (parent (sealed_path_for p)); [by injection Hs as <-|].
  by eapply durable_copy_sync_dir.
Qed.

(** ** One segment *)

(** The segment file that a header and the frames [ss] start. *)
Definition holds_segment (data : bytes) (hb : bytes) (hd : SegmentHeaderMeta) ss (rest : bytes) : Prop :=
  data = hb ++ frames ss ++ rest ∧ parse_segment_header hb = Ok hd ∧ Forall (storable (sh_compression hd)) ss.

(** What a successful [recover_segment] has done to file [node] at [p]: the file is at
    the sealed name with the longest run [ss] of whole records it started with, behind a
    new sentinel and footer; the file ended inside the record or the seal that followed
    them, or a synced copy of the whole file is in quarantine, which no crash loses if
    the quarantine directory was there. *)
Definition recovered wab p (s s' : Fs) (q : path) (i : inode) (node node' : FileNode)
    (hd : SegmentHeaderMeta) ss : Prop :=
  ∃ hb rest r,
    q = sealed_path_for p ∧ fs_live s !! p = Some i ∧ fs_files s !! i = Some node ∧
    holds_segment (f_data node) hb hd ss rest ∧
    fs_live s' !! q = Some i ∧ fs_files s' !! i = Some node' ∧
    replayed (mkReplay (hasher_update hasher_new hb) 0 0 SEGMENT_HEADER_LEN) ss r ∧
    resealed r (hb ++ frames ss) (f_lost node) node' ∧
    (∀ ss0 rest0, holds_segment (f_data node) hb hd ss0 rest0 → ss0 `prefix_of` ss) ∧
    (clean_tail (sh_compression hd) r rest ∨
     ∃ dest j, parent dest = quarantine_dir wab ∧ durable_copy s' dest j (f_data node) ∧
       (durable_dir s (quarantine_dir wab) → ∀ s'', crash s' s'' → safe_file s'' dest (f_data node))).

(** The parts of a segment image are determined by the image. *)
Lemma holds_segment_header data hb hd ss rest hb' hd' ss' rest' :
  holds_segment data hb hd ss rest → holds_segment data hb' hd' ss' rest' →
  hb' = hb ∧ hd' = hd ∧ frames ss' ++ rest' = frames ss ++ rest.
Proof.
  intros (-> & Hh & _) (Hd & Hh' & _). pose proof Hh as [Hl _]%parse_segment_header_inv.
  pose proof Hh' as [Hl' _]%parse_segment_header_inv. apply app_inj_1 in Hd as [-> Hd]; [|congruence].
  split; [done|]. split; [congruence|done].
Qed.

Lemma header_checks hb hd :
  parse_segment_header hb = Ok hd →
  slice 0 4 hb = SEGMENT_MAGIC ∧
  (b2z (hb !!! 4%nat) =? 0) || (b2z FORMAT_VERSION_MAX_SUPPORTED <? b2z (hb !!! 4%nat)) = false.
Proof.
  intros (_ & Hm & _ & Hc)%parse_segment_header_inv. split; [done|].
  by apply parse_compression_version in Hc as [-> | ->].
Qed.

Lemma frame_inj c x y a b :
  storable c x → storable c y → frame x ++ a = frame y ++ b → x = y ∧ a = b.
Proof.
  intros Hx Hy H. unfold frame in H. rewrite <-!app_assoc in H.
  apply app_inj_1 in H as [Hl H]; [|by rewrite !length_le_bytes].
  apply (f_equal le_val) in Hl. rewrite (le_val_blen _ _ Hx), (le_val_blen _ _ Hy) in Hl.
  apply app_inj_1 in H as [_ H]; [|by rewrite !length_le_bytes].
  apply app_inj_1 in H as [-> ->]; [done|]. unfold blen in Hl. lia.
Qed.

Lemma frames_inj c ss ss' :
  Forall (storable c) ss → Forall (storable c) ss' → frames ss = frames ss' → ss = ss'.
Proof.
  intros Hss. revert ss'. induction Hss as [|x ss Hx Hss IH]; intros ss' Hss' H.
  - destruct ss' as [|y ss']; [done|]. apply (f_equal blen) in H.
    rewrite frames_cons, blen_app, blen_frame in H. pose proof (blen_nonneg y). pose proof (blen_nonneg (frames ss')).
    unfold frames in H at 1. cbn [map concat] in H. rewrite blen_nil in H. lia.
  - destruct Hss' as [|y ss' Hy Hss'].
    + apply (f_equal blen) in H. rewrite frames_cons, blen_app, blen_frame in H.
      pose proof (blen_nonneg x). pose proof (blen_nonneg (frames ss)).
      unfold frames in H at 2. cbn [map concat] in H. rewrite blen_nil in H. lia.
    + rewrite !frames_cons in H. apply (frame_inj c) in H as [-> H]; [|done|done]. f_equal. by apply IH.
Qed.

(** The loop is maximal: any run of whole records the file starts with is replayed. *)
Lemma replay_maximal c fuel i rd r w r' q w' ss rest ss0 rest0 :
  replay_records fuel i (stored_cap c) rd r w = (Ok (r', q), w') → covers rd (frames ss ++ rest) →
  measures w i (rp_valid_end r) (frames ss ++ rest) →
  Forall (storable c) ss → replayed r ss r' → Forall (storable c) ss0 →
  frames ss0 ++ rest0 = frames ss ++ rest → ss0 `prefix_of` ss.
Proof.
  intros H Hc Hm Hss (_ & _ & _ & He) Hss0 Heq. rewrite <-Heq in Hc, Hm.
  eapply (replay_all c ss0 rest0) in H as (more & rest' & -> & Hall & (_ & _ & _ & He') & _); [|done|done|done].
  exists more. rewrite app_assoc, <-frames_app in Heq.
  apply app_inj_1 in Heq as [Hf _]; [|unfold blen in *; lia]. symmetry. by eapply frames_inj.
Qed.

Lemma replay_err_quiet fuel i cap rd r w e w' :
  replay_records fuel i cap rd r w = (Err e, w') → w' = w.
Proof.
  revert rd r w. induction fuel as [|fuel IH]; intros rd r w H; cbn [replay_records] in H.
  { by injection H as _ <-. }
  destruct (s_read_exact 4 rd) as [[lb rd1]|[]]; try done; try (by injection H as _ <-).
  destruct (le_val lb =? 0); [by destruct (judge_sentinel _ _ _ _)|].
  destruct (cap <? le_val lb); [by destruct (judge_oversized _ _ _ _)|].
  destruct (s_read_exact 4 rd1) as [[cb rd2]|[]]; try done; try (by injection H as _ <-).
  destruct (s_read_exact (le_val lb) rd2) as [[x rd3]|[]]; try done; try (by injection H as _ <-).
  destruct (negb _); [done|]. by eapply IH.
Qed.

(** Truncating to the replayed prefix cuts nothing durable. *)
Lemma replay_within s i node hb hd ss rest :
  fs_files s !! i = Some node → holds_segment (f_data node) hb hd ss rest →
  (∀ ss0 rest0, holds_segment (f_data node) hb hd ss0 rest0 → ss0 `prefix_of` ss) →
  within s i (blen (hb ++ frames ss)).
Proof.
  intros Hn Hs Hmax hb' hd' ss' Hh' Hss' Hd. eapply durably_holds_prefix in Hd as [k Hk]; [|done].
  assert (Hs' : holds_segment (f_data node) hb' hd' ss' k) by (split; [by rewrite Hk, <-app_assoc|done]).
  destruct (holds_segment_header _ _ _ _ _ _ _ _ _ Hs Hs') as (-> & -> & _).
  destruct (Hmax _ _ Hs') as [more ->]. rewrite frames_app, !blen_app.
  pose proof (blen_nonneg (frames more)). lia.
Qed.

Lemma recover_body_spec p wab w i node hb hd rest rd fuel res w' :
  (let! (r, reason) := replay_records fuel i (stored_cap (sh_compression hd)) rd
       (mkReplay (hasher_update hasher_new hb) 0 0 SEGMENT_HEADER_LEN) in
   let! _ := preserve p wab reason in rebuild p r) w = (res, w') →
  fs_wf (w_fs w) → is_active_segment p = true → parent p ≠ quarantine_dir wab →
  fs_live (w_fs w) !! p = Some i → fs_files (w_fs w) !! i = Some node → f_data node = hb ++ rest →
  parse_segment_header hb = Ok hd → covers rd rest →
  keeps wab (w_fs w) (w_fs w') ∧
  ∀ q, res = Ok q → ∃ node' ss, recovered wab p (w_fs w) (w_fs w') q i node node' hd ss.
Proof.
  intros H Hwf Hact Hpq Hli Hfi Hdata Hh Hcov.
  pose proof Hh as [Hlen _]%parse_segment_header_inv.
  assert (Hm : measures w i SEGMENT_HEADER_LEN rest).
  { exists node. split; [done|]. rewrite Hdata, blen_app. unfold SEGMENT_HEADER_LEN, blen. lia. }
  apply io_bind_inv in H as [(e & H & ->)|([r reason] & w1 & H & Hg)].
  { apply replay_err_quiet in H as ->. split; [apply (keeps_no_path wab), fs_le_refl|done]. }
  destruct (replay_Ok _ _ _ _ _ _ _ _ _ _ H Hcov Hm) as [(Hle1 & (Hl1 & _) & Hf1 & _) (ss & tail & -> & Hss & Hr & Htail)].
  assert (Hmax : ∀ ss0 rest0, holds_segment (f_data node) hb hd ss0 rest0 → ss0 `prefix_of` ss).
  { intros ss0 rest0 (Hd0 & _ & Hss0). rewrite Hdata in Hd0. apply app_inv_head in Hd0.
    by eapply replay_maximal. }
  pose proof (le_wf _ _ _ Hle1 Hwf) as Hwf1. rewrite <-Hl1 in Hli. rewrite <-Hf1 in Hfi.
  assert (Hseg : holds_segment (f_data node) hb hd ss tail) by done.
  apply io_bind_inv in Hg as [(e & Hp & ->)|([] & w2 & Hp & Hg)];
    destruct (preserve_spec _ _ _ _ _ _ Hp Hwf1 Hpq (λ Hn, ltac:(by apply app_nil in Hn as [_ ?])))
      as [[K2 Hl2 Hf2 _] Hcopy]; (assert (K12 : keeps wab (w_fs w) _) by (etrans; [by apply keeps_no_path|exact K2])).
  { split; [done|done]. }
  destruct (K2 Hwf1) as [Hwf2 _]. specialize (Hf2 Hwf1). pose proof (Hf2 _ _ Hfi) as Hfi2. rewrite <-Hl2 in Hli.
  assert (Hend : rp_valid_end r = blen (hb ++ frames ss)).
  { destruct Hr as (_ & _ & _ & ->). rewrite blen_app. cbn. unfold SEGMENT_HEADER_LEN, blen. lia. }
  destruct (rebuild_spec wab p r w2 res w' i node (hb ++ frames ss) tail) as [K3 Hok]; try done.
  { by rewrite Hdata, <-app_assoc. }
  { rewrite Hend. by eapply replay_within. }
  split; [by etrans|]. intros q ->. destruct (Hok q eq_refl) as (-> & Hq' & node' & Hn' & Hre).
  exists node', ss, hb, tail, r. rewrite <-Hl1, <-Hl2, <-Hf1. do 9 (split; [done|]).
  destruct reason as [reason|]; [right|left; by apply Htail].
  destruct (Hcopy eq_refl ltac:(done)) as (dest & i' & n' & j & Hi' & Hni' & Hj & Hpd & Hdc).
  assert (i' = i) as -> by congruence. assert (n' = node) as -> by congruence. exists dest, j. split; [done|].
  assert (Hdc' : durable_copy (w_fs w') dest j (f_data node)).
  { eapply (rebuild_copy p r w2 _ w' i); [done|done|done| |by rewrite Hpd|done]. intros ->. congruence. }
  split; [done|]. intros Hdir s'' Hcr. eapply crash_safe; [|by rewrite Hdata; destruct hb|exact Hcr].
  eapply durable_copy_safe; [done|]. rewrite Hpd. eapply durable_dir_mono, Hdir.
  destruct (K12 Hwf) as (_ & D12 & _). destruct (K3 Hwf2) as (_ & D3 & _). by etrans.
Qed.

Lemma recover_segment_spec p wab w res w' :
  recover_segment p wab w = (res, w') → fs_wf (w_fs w) → is_active_segment p = true →
  parent p ≠ quarantine_dir wab →
  keeps wab (w_fs w) (w_fs w') ∧
  ∀ q, res = Ok q → ∃ i node node' hd ss, recovered wab p (w_fs w) (w_fs w') q i node node' hd ss.
Proof.
  intros H Hwf Hact Hpq. unfold recover_segment in H.
  apply io_bind_inv in H as [(e & H & ->)|([i rd] & w1 & H & Hg)]; apply open_handle_spec in H as [Hq Hok].
  { split; [apply keeps_no_path, Hq|done]. }
  destruct (Hok i rd eq_refl) as (node & Hli & Hfi & Hcov). clear Hok.
  pose proof Hq as (Hle1 & (Hl1 & _) & Hf1 & _ & _). pose proof (le_wf _ _ _ Hle1 Hwf) as Hwf1.
  assert (Hquar : ∀ (A : Type) (r : result A ErrorKind) w', quarantine_and_count p wab w1 = (r, w') →
            headerless (w_fs w1) i → keeps wab (w_fs w) (w_fs w') ∧ ∃ e, r = Err e).
  { intros A r w2 Hqu Hh. rewrite <-Hl1 in Hli.
    destruct (quarantine_keeps _ _ _ _ _ _ Hqu Hact Hpq Hli Hh) as [Hk Hr]. split; [|done].
    etrans; [by apply keeps_no_path|done]. }
  rewrite <-Hf1 in Hfi. destruct (s_read_exact SEGMENT_HEADER_LEN rd) as [[hb rd1]|e] eqn:Er.
  2: { destruct e; try (injection Hg as <- <-; split; [by apply keeps_no_path|done]).
       destruct (Hquar _ _ _ Hg) as [Hk [e ->]]; [by eapply headerless_short|done]. }
  apply (covers_read _ _ (f_data node)) in Er as (Hlen & rest & Hdata & Hcov1); [|done|done].
  destruct (parse_segment_header hb) as [hd|pe] eqn:Eh.
  2: { assert (Hhl : headerless (w_fs w1) i) by (eapply headerless_bad; [done|done|done|congruence]).
       repeat (split_hyp Hg; [by destruct (Hquar _ _ _ Hg Hhl) as [Hk [e ->]]|]).
       by destruct (Hquar _ _ _ Hg Hhl) as [Hk [e ->]]. }
  destruct (header_checks _ _ Eh) as [Hmagic Hver]. rewrite bool_decide_eq_true_2, Hver in Hg by done.
  cbn [negb] in Hg. rewrite <-Hl1 in Hli.
  destruct (recover_body_spec _ _ _ _ _ _ _ _ _ _ _ _ Hg Hwf1 Hact Hpq Hli Hfi Hdata Eh Hcov1) as [Hk Hok].
  split; [etrans; [by apply keeps_no_path|done]|]. intros q Hres.
  destruct (Hok q Hres) as (node' & ss & Hrec). exists i, node, node', hd, ss.
  destruct Hrec as (hb' & rest' & r & Hrec). exists hb', rest', r. rewrite <-Hl1, <-Hf1.
  destruct Hrec as (? & ? & ? & ? & ? & ? & ? & ? & ? & Htail). do 9 (split; [done|]).
  destruct Htail as [?|(dest & j & ? & ? & Hcr)]; [by left|right]. exists dest, j. do 2 (split; [done|]).
  intros Hdir. apply Hcr. eapply durable_dir_mono, Hdir. apply (le_dirs _ _ _ Hle1).
Qed.

Lemma blen_frames ss : blen (frames ss) = 8 * blen ss + stored_bytes ss.
Proof.
  induction ss as [|x ss IH]; [done|]. rewrite frames_cons, blen_app, blen_frame, blen_cons, stored_bytes_cons. lia.
Qed.

(** The re-sealed file is a sealed image of the records replayed. *)
Lemma resealed_image r hb hd ss lost node :
  resealed r (hb ++ frames ss) lost node → parse_segment_header hb = Ok hd →
  Forall (storable (sh_compression hd)) ss →
  replayed (mkReplay (hasher_update hasher_new hb) 0 0 SEGMENT_HEADER_LEN) ss r →
  blen (hb ++ frames ss) < 2 ^ 64 →
  ∃ ft, sealed_image (f_data node) hd ft ss.
Proof.
  intros (at_ & Hat & Hdata & _) Hh Hss (Hf & Hn & Hd & _) Hsz. cbn in Hn, Hd.
  rewrite blen_app, blen_frames in Hsz. pose proof (blen_nonneg hb). pose proof (blen_nonneg ss).
  assert (0 ≤ stored_bytes ss) by apply blen_nonneg.
  assert (Hfed : fed (rp_crc r) (hb ++ frames ss)) by (apply Hf, (fed_update _ [] hb), fed_new).
  rewrite (fed_finalize _ _ Hfed), Hn, Hd in Hdata.
  eexists. exists hb, (build_segment_footer (blen ss) (stored_bytes ss) (crc32_hash (hb ++ frames ss)) at_).
  split; [by rewrite Hdata, <-app_assoc|]. split; [done|].
  split; [apply parse_build_segment_footer; [split; lia|split; lia|apply crc32_range|done]|]. done.
Qed.

(** C28: [recover_segment] drops no record it can read, whatever is behind the valid prefix
    and whatever faults the disk injects. If it succeeds, the segment is under its sealed
    name as a file that the verifier accepts and whose records are the longest run of
    whole records the file started with. Either the file ended inside the record that
    followed them (as its length field has it) or in a seal of these very records, or
    the whole original file has been copied into the quarantine directory and synced
    there; no crash loses that copy if the directory's own entry was durable before. *)
Theorem recover_segment_loses_no_record p wab w q w' :
  recover_segment p wab w = (Ok q, w') → fs_wf (w_fs w) → is_active_segment p = true →
  parent p ≠ quarantine_dir wab →
  ∃ i node node' hd ss, recovered wab p (w_fs w) (w_fs w') q i node node' hd ss ∧
    (blen (f_data node) < 2 ^ 64 →
     ∃ ft, sealed_image (f_data node') hd ft ss ∧
           verify_sealed_segment (Ok (mkStream (f_data node') false)) = Ok (mkSegmentVerification hd ft)).
Proof.
  intros H Hwf Hact Hp. destruct (recover_segment_spec _ _ _ _ _ H Hwf Hact Hp) as [_ Hok].
  destruct (Hok q eq_refl) as (i & node & node' & hd & ss & Hrec). exists i, node, node', hd, ss.
  split; [done|]. intros Hsz.
  destruct Hrec as (hb & rest & r & _ & _ & _ & (Hd & Hh & Hss) & _ & _ & Hr & Hre & _).
  rewrite Hd, app_assoc, blen_app in Hsz. pose proof (blen_nonneg rest).
  destruct (resealed_image _ _ _ _ _ _ Hre Hh Hss Hr ltac:(lia)) as [ft Hi]. exists ft. split; [done|].
  by apply verify_accepts with ss.
Qed.

(** ** The whole pass *)

Lemma exists_calm p w b w' : exists_ p w = (b, w') → calm w w'.
Proof.
  unfold exists_. destruct (try_exists p w) as [[b'|e] w1] eqn:E; intros [= <- <-];
    by apply try_exists_calm in E as [? _].
Qed.

Lemma recover_all_keeps wab ps w :
  fs_wf (w_fs w) → Forall (λ p, is_active_segment p = true ∧ parent p ≠ quarantine_dir wab) ps →
  keeps wab (w_fs w) (w_fs (recover_all wab ps w)).
Proof.
  intros Hwf Hps. revert w Hwf. induction Hps as [|p ps [Ha Hp] Hps IH]; intros w Hwf; cbn [recover_all]; [done|].
  destruct (recover_segment p wab w) as [res w1] eqn:E.
  destruct (recover_segment_spec _ _ _ _ _ E Hwf Ha Hp) as [Hk _]. destruct (Hk Hwf) as [Hwf1 _].
  destruct res as [q|e]; [etrans; [done|by apply IH]|].
  destruct (exists_ p w1) as [b w2] eqn:Ex. apply exists_calm in Ex as (Hle & _).
  pose proof (le_wf _ _ _ Hle Hwf1) as Hwf2. apply (keeps_no_path wab) in Hle.
  etrans; [done|]. etrans; [exact Hle|]. destruct b; by apply (IH (inc _ w2)) || by apply IH.
Qed.

Lemma read_dir_parent d w ps w' p : read_dir d w = (Ok ps, w') → p ∈ ps → parent p = d ∧ p ≠ [].
Proof.
  unfold read_dir. intros H. apply guarded_spec in H as
    (w1 & _ & _ & _ & _ & _ & _ & _ & _ & _ & [[_ [k Hk]]|Hm]); [done|].
  injection Hm as <- _. intros [[? ?] _]%list_elem_of_filter. done.
Qed.

Lemma recover_shard_dir_keeps d wab w r w' :
  recover_shard_dir d wab w = (r, w') → fs_wf (w_fs w) → d ≠ quarantine_dir wab →
  keeps wab (w_fs w) (w_fs w').
Proof.
  unfold recover_shard_dir. intros H Hwf Hd.
  apply io_bind_inv in H as [(e & H & ->)|(ps & w1 & H & Hg)].
  { apply keeps_no_path. by apply read_dir_spec in H as [? _]. }
  injection Hg as _ <-. pose proof (proj1 (read_dir_spec _ _ _ _ H)) as Hle.
  etrans; [by apply keeps_no_path|]. apply recover_all_keeps; [by eapply le_wf|].
  apply Forall_forall. intros p Hp. rewrite sort_by_key_perm in Hp.
  apply list_elem_of_In, filter_In in Hp as [Hin Ha]. apply list_elem_of_In in Hin.
  split; [done|]. by destruct (read_dir_parent _ _ _ _ _ H Hin) as [-> _].
Qed.

Lemma is_dir_quiet d w b w' : is_dir d w = (b, w') → quiet w w'.
Proof.
  unfold is_dir. destruct (guarded _ w) as [[x|e] w1] eqn:E; intros [= <- <-];
    apply guarded_quiet in E; eauto.
Qed.

Lemma reserved_quarantine wab d : reserved_dir d = false → d ≠ quarantine_dir wab.
Proof.
  intros Hr ->. unfold reserved_dir, quarantine_dir in Hr. rewrite file_name_snoc in Hr.
  by vm_compute in Hr.
Qed.

Lemma recover_shards_keeps wab ds w r w' :
  recover_shards wab ds w = (r, w') → fs_wf (w_fs w) → keeps wab (w_fs w) (w_fs w').
Proof.
  revert w. induction ds as [|d ds IH]; intros w H Hwf; cbn [recover_shards] in H.
  { by injection H as _ <-. }
  destruct (is_dir d w) as [b w1] eqn:E. apply is_dir_quiet in E as (Hle & _).
  pose proof (le_wf _ _ _ Hle Hwf) as Hwf1. etrans; [by apply keeps_no_path|].
  destruct b; cbn [negb] in H; [|by apply IH]. destruct (reserved_dir d) eqn:Er; [by apply IH|].
  apply io_bind_inv in H as [(e & H & ->)|([] & w2 & H & Hg)];
    apply recover_shard_dir_keeps in H as Hk; try done; try by apply reserved_quarantine.
  etrans; [done|]. apply IH; [done|]. by apply Hk.
Qed.

Lemma create_shard_dirs_calm wab sid n w r w' : create_shard_dirs wab sid n w = (r, w') → calm w w'.
Proof.
  revert sid w. induction n as [|n IH]; intros sid w H; cbn [create_shard_dirs] in H.
  { injection H as _ <-. apply quiet_calm, quiet_refl. }
  apply io_bind_inv in H as [(e & H & ->)|([] & w1 & H & Hg)]; apply create_dir_private_calm in H; [done|].
  eapply calm_trans; [done|]. by eapply IH.
Qed.

Lemma recover_keeps wab n w r w' :
  recover wab n w = (r, w') → fs_wf (w_fs w) → keeps wab (w_fs w) (w_fs w').
Proof.
  unfold recover, recover_open_segments. intros H Hwf.
  apply io_bind_inv in H as [(e & H & ->)|([] & w1 & H & Hg)];
    apply create_shard_dirs_calm in H as (Hle & _); pose proof (keeps_no_path wab _ _ Hle) as K1; [done|].
  pose proof (le_wf _ _ _ Hle Hwf) as Hwf1. etrans; [done|].
  apply io_bind_inv in Hg as [(e & H & ->)|([] & w2 & H & Hg)]; [|injection Hg as _ <-];
    (apply io_bind_inv in H as [(e' & H & E)|(ds & w3 & H & Hs)];
     pose proof (proj1 (read_dir_spec _ _ _ _ H)) as Hle3; [try done; by apply keeps_no_path|
     etrans; [by apply keeps_no_path|]; eapply recover_shards_keeps; [done|by eapply le_wf]]).
Qed.
End RecoveryFacts.

(** ** Claims on the whole pass *)

Section RecoveryClaims.
Context {CRC : Crc32} {CL : Crc32Laws} {ZS : Zstd} {ZL : ZstdLaws}.

(** C29: startup recovery as a whole loses nothing durable: whatever it returns and whatever
    faults the disk injects, every durable segment outside the quarantine directory is
    still durable, under its active or its sealed name, with all its records. A segment
    has one file: one that stands sealed is covered when no unsealed file of the same
    counter stands beside it ([seg_entry]; [recovery_overwrites_sealed] shows what
    happens otherwise). *)
Theorem recover_keeps_durable_segments wab n w r w' d k i c ss :
  recover wab n w = (r, w') → fs_wf (w_fs w) → d ≠ quarantine_dir wab →
  segment_durable (w_fs w) d k i c ss → segment_durable (w_fs w') d k i c ss.
Proof. intros H Hwf Hd. by apply (recover_keeps _ _ _ _ _ H Hwf Hwf). Qed.
End RecoveryClaims.

(** ** Witnesses *)

Module RecoveryWitness.
#[local] Existing Instance Crc32Ieee.ieee.
#[local] Existing Instance ZstdRaw.raw.
#[local] Existing Instance Crc32Ieee.ieee_laws.
#[local] Existing Instance ZstdRaw.raw_laws.

Definition wab : path := [bstr "data"].
Definition shard : path := wab ++ [bstr "shard_00"].
Definition active : path := segment_path shard 1.
Definition header : bytes := build_segment_header 0 CNone 5.
(** One whole record and three bytes of the next one. *)
Definition torn_file : bytes := header ++ frames [bstr "hello"] ++ [x05; x00; x00].

Definition disk (m : gmap path inode) (files : gmap inode FileNode) (tape : list Fault) : World :=
  mkWorld (mkFs m m [] files 9%positive {[ wab := true; shard := true ]} tape) (λ _, 0) 7 0.
Definition on_disk (data : bytes) : FileNode := mkFileNode data (length data) false.
Definition torn_disk : World := disk {[ active := 1%positive ]} {[ 1%positive := on_disk torn_file ]} [].

Lemma torn_disk_wf : fs_wf (w_fs torn_disk).
Proof.
  intros i n Hn. cbn in Hn. apply lookup_singleton_Some in Hn as [<- <-]. by vm_compute.
Qed.

Definition recovered_disk : World := snd (recover_segment active wab torn_disk).

Lemma recover_segment_loses_no_record_witness :
  ∃ i node node' hd ss,
    recovered wab active (w_fs torn_disk) (w_fs recovered_disk) (sealed_path_for active) i node node' hd ss.
Proof.
  destruct (recover_segment_loses_no_record active wab torn_disk (sealed_path_for active) recovered_disk)
    as (i & node & node' & hd & ss & Hr & _).
  - rewrite (surjective_pairing (recover_segment active wab torn_disk)). unfold recovered_disk.
    f_equal; vm_compute; reflexivity.
  - apply torn_disk_wf.
  - by vm_compute.
  - by vm_compute.
  - by exists i, node, node', hd, ss.
Defined.

Lemma torn_disk_durable : segment_durable (w_fs torn_disk) shard 1 1%positive CNone [bstr "hello"].
Proof.
  split; [done|]. split; [apply Forall_cons_2; [split; [by vm_compute|by eexists]|apply Forall_nil_2]|]. split.
  - constructor; [by vm_compute|by vm_compute|by apply (bool_decide_unpack _); vm_compute|left; by vm_compute|left; by vm_compute|constructor].
  - exists header, (mkSegmentHeaderMeta x01 CNone 0 5). split; [by vm_compute|]. split; [done|].
    exists (on_disk torn_file). split; [done|]. exists [x05; x00; x00]. by vm_compute.
Qed.

Lemma recover_keeps_durable_segments_witness :
  segment_durable (w_fs (snd (recover wab 1 torn_disk))) shard 1 1%positive CNone [bstr "hello"].
Proof.
  destruct (recover wab 1 torn_disk) as [r w'] eqn:E. cbn [snd].
  eapply (recover_keeps_durable_segments wab 1 torn_disk r w'); [exact E|apply torn_disk_wf|done|].
  apply torn_disk_durable.
Defined.

(** Segment 1 exists both sealed (file 2) and unsealed (file 1). *)
Definition both_disk : World :=
  disk {[ active := 1%positive; sealed_path_for active := 2%positive ]}
       {[ 1%positive := on_disk torn_file; 2%positive := on_disk torn_file ]} [].

(** Recovery does not protect a sealed file that already has the name it renames to: it
    succeeds, and the sealed file that was there has no name left. *)
Example recovery_overwrites_sealed :
  let '(r, w') := recover_segment active wab both_disk in
  is_ok r = true ∧ fs_live (w_fs w') !! sealed_path_for active = Some 1%positive ∧
  Forall (λ e : path * inode, snd e ≠ 2%positive) (map_to_list (fs_live (w_fs w'))).
Proof. vm_compute. split; [done|]. split; [done|]. repeat constructor; done. Qed.

(** Three records, the second of which has rotted, on a disk that has no quarantine
    directory yet. *)
Definition rotten_file : bytes :=
  header ++ frames [bstr "hello"] ++ le_bytes 4 5 ++ le_bytes 4 0 ++ bstr "weird" ++ frames [bstr "world"].
Definition rotten_disk : World :=
  disk {[ active := 1%positive ]} {[ 1%positive := on_disk rotten_file ]} [].

(** The directory recovery creates for the copy is not synced into its parent: the copy is
    there when recovery succeeds and the original is truncated, and a crash can lose it,
    and with it the third record. *)
Example new_quarantine_dir_is_lost :
  let '(r, w') := recover_segment active wab rotten_disk in
  let copies s := length (filter (λ e : path * inode, parent (fst e) = quarantine_dir wab) (map_to_list (fs_live s))) in
  is_ok r = true ∧ copies (w_fs w') = 1%nat ∧ copies (worst_crash (w_fs w')) = 0%nat ∧
  bool_decide (is_Some (fs_live (worst_crash (w_fs w')) !! sealed_path_for active)) = true.
Proof. vm_compute. done. Qed.
End RecoveryWitness.
