(* ===== verification/Scan.v ===== *)
(** * The startup scan of sealed segments (weir-server, wab/mod.rs and wab/recovery.rs)

    [check_confirmed] (recovery.rs), [scan_unconfirmed_sealed], [delete_orphan],
    [remove_stale_confirmed_tmp], [read_segment_record_count] and [scan_replay] (mod.rs):
    which sealed segments the drain has still to deliver. *)

From Stdlib Require Import ZArith Lia Strings.Byte String.
From stdpp Require Import base gmap list option sets.
From S2P Require Import Prelude Deps Wire Text Names Io Fs Durable Format Reader Segment Recovery.

Definition EXT_CONFIRMED_TMP : bytes := bstr ".wab.confirmed.tmp".

(** The tmp path of a sidecar; the suffix has no separator. *)
Definition confirmed_tmp_path (confirmed : path) : path :=
  set_file_name confirmed (default [] (file_name confirmed) ++ bstr ".tmp").

(** [fs::read]. *)
Definition fs_read (p : path) : io bytes :=
  let! st := open_read p in
  if st_bad st then io_err OtherError else io_ok (st_data st).

Record SealedScan := mkSealedScan { ss_segments : list path; ss_incomplete : bool }.

Section Scan.
Context {CRC : Crc32}.

Definition check_confirmed (sealed wab_dir : path) : io bool := λ w,
  let confirmed_path := confirmed_path_for sealed in
  let '(present, w) := exists_ confirmed_path w in
  if negb present then (Ok false, w) else
  match fs_read confirmed_path w with
  | (Err _, w) => (Ok false, w)
  | (Ok buf, w) =>
    match parse_confirmed buf with
    | Ok _ => (Ok true, w)
    | Err _ =>
      let '(e, w) := quarantine_and_count sealed wab_dir w in
      match quarantine confirmed_path wab_dir w with
      | (Err qe, w) => (Err qe, w)
      | (Ok _, w) => (e, w)
      end
    end
  end.

(** [NotFound] on the delete is success. *)
Definition delete_orphan (sealed : path) : io unit :=
  let confirmed := confirmed_path_for sealed in
  let! _ := sync_path confirmed in
  let! _ := fsync_parent_dir confirmed in
  λ w, match remove_file sealed w with
       | (Err NotFound, w) => (Ok tt, w)
       | other => other
       end.

(** Only a regular file is removed; failures are logged. *)
Definition remove_stale_confirmed_tmp (tmp : path) (w : World) : World :=
  match guarded (λ w, (Ok (bool_decide (is_Some (fs_live (w_fs w) !! tmp))), w)) w with
  | (Ok true, w) => snd (remove_file tmp w)
  | (_, w) => w
  end.

Fixpoint remove_stale_tmps (tmps : list path) (w : World) : World :=
  match tmps with
  | [] => w
  | tmp :: tmps => remove_stale_tmps tmps (remove_stale_confirmed_tmp tmp w)
  end.

(** [for sealed in sealed_segments]: the unconfirmed ones, in order. *)
Fixpoint scan_sealed (wab_dir : path) (exclude : path → bool) (orphan_cleanup : bool)
    (sealed_segments : list path) (w : World) : list path * World :=
  match sealed_segments with
  | [] => ([], w)
  | sealed :: rest =>
    if exclude sealed then scan_sealed wab_dir exclude orphan_cleanup rest w else
    match check_confirmed sealed wab_dir w with
    | (Ok true, w) =>
      let w := if orphan_cleanup then snd (delete_orphan sealed w) else w in
      scan_sealed wab_dir exclude orphan_cleanup rest w
    | (Ok false, w) =>
      let '(l, w) := scan_sealed wab_dir exclude orphan_cleanup rest w in (sealed :: l, w)
    | (Err _, w) => scan_sealed wab_dir exclude orphan_cleanup rest w
    end
  end.

(** The body of the loop over one shard directory's entries. *)
Definition scan_shard (wab_dir : path) (exclude : path → bool) (orphan_cleanup : bool)
    (entries : list path) (w : World) : list path * World :=
  let w := remove_stale_tmps (List.filter (path_ends_with EXT_CONFIRMED_TMP) entries) w in
  scan_sealed wab_dir exclude orphan_cleanup
    (sort_by_key segment_counter_from_path (List.filter (path_ends_with EXT_SEALED) entries)) w.

Fixpoint scan_dirs (wab_dir : path) (shard_count : option Z) (exclude : path → bool)
    (orphan_cleanup : bool) (dirs : list path) : io SealedScan :=
  match dirs with
  | [] => io_ok (mkSealedScan [] false)
  | sdir :: dirs => λ w,
    let '(dir, w) := is_dir sdir w in
    if negb dir then scan_dirs wab_dir shard_count exclude orphan_cleanup dirs w else
    if reserved_dir sdir then scan_dirs wab_dir shard_count exclude orphan_cleanup dirs w else
    match read_dir sdir w with
    | (Err e, w) =>
      match shard_count with
      | None =>
        (let! s := scan_dirs wab_dir shard_count exclude orphan_cleanup dirs in
         io_ok (mkSealedScan (ss_segments s) true)) w
      | Some _ => (Err e, w)
      end
    | (Ok entries, w) =>
      let '(l, w) := scan_shard wab_dir exclude orphan_cleanup entries w in
      (let! s := scan_dirs wab_dir shard_count exclude orphan_cleanup dirs in
       io_ok (mkSealedScan (l ++ ss_segments s) (ss_incomplete s))) w
    end
  end.

Definition scan_unconfirmed_sealed (wab_dir : path) (shard_count : option Z) (exclude : path → bool)
    (orphan_cleanup : bool) : io SealedScan :=
  let! dirs := read_dir wab_dir in
  scan_dirs wab_dir shard_count exclude orphan_cleanup (sort_by_key shard_id_from_path dirs).

(** The first eight bytes of the footer. *)
Definition read_segment_record_count (p : path) : io Z :=
  let! (file, st) := open_handle p in
  let! len := file_len file in
  if len <? SEGMENT_FOOTER_LEN then io_err UnexpectedEof else
  match s_read_exact 8 (mkStream (drop (Z.to_nat (len - SEGMENT_FOOTER_LEN)) (st_data st)) (st_bad st)) with
  | Err e => io_err e
  | Ok (footer, _) => io_ok (le_val footer)
  end.

Fixpoint count_replayed (segments : list path) (w : World) : World :=
  match segments with
  | [] => w
  | sealed :: rest =>
    let '(n, w) := match read_segment_record_count sealed w with
                   | (Ok n, w) => (n, w)
                   | (Err _, w) => (0, w)
                   end in
    count_replayed rest (inc_by RecoveryRecordsReplayed n w)
  end.

Definition scan_replay (wab_dir : path) (shard_count : Z) (orphan_cleanup : bool) : io (list path) :=
  let! scan := scan_unconfirmed_sealed wab_dir (Some shard_count) (λ _, false) orphan_cleanup in
  λ w, (Ok (ss_segments scan), count_replayed (ss_segments scan) w).
End Scan.

(** ** Names *)

Section ScanFacts.
Context {CRC : Crc32} {CL : Crc32Laws} {ZS : Zstd} {ZL : ZstdLaws}.
Implicit Types (s : Fs) (d p wab : path) (c : Compression) (ss : list bytes).

Definition sidecar d (k : Z) : path := confirmed_path_for (sealed_path_for (segment_path d k)).

Lemma ends_with_rev suf l : ends_with suf l = true → ∃ t, rev l = rev suf ++ t.
Proof. intros [r ->]%ends_with_spec. rewrite rev_app_distr. by eexists. Qed.

Lemma seg_name_ends d k ext suf :
  forallb is_ascii ext = true → path_ends_with suf (d ++ [seg_base k ++ ext]) = ends_with suf (seg_base k ++ ext).
Proof.
  intros Ha. unfold path_ends_with. rewrite file_name_snoc, to_string_lossy_valid; [done|].
  apply utf8_valid_ascii. rewrite forallb_app, is_ascii_seg_base. done.
Qed.

Ltac suffix_neq :=
  let H := fresh in intros H; apply (f_equal (@rev byte)) in H; rewrite !rev_app_distr in H; discriminate H.

(** A path that is neither the active nor the sealed name of a segment. *)
Definition foreign p : Prop :=
  ∀ d k, p ≠ segment_path d k ∧ p ≠ sealed_path_for (segment_path d k).

Lemma confirmed_foreign p : foreign (confirmed_path_for p).
Proof.
  intros d k. unfold confirmed_path_for, set_file_name. rewrite sealed_segment_path, segment_path_eq.
  split; intros [_ H]%app_inj_tail; revert H; suffix_neq.
Qed.

Lemma ends_with_foreign p suf :
  path_ends_with suf p = true → (∃ x l y, rev suf = x :: l ∧ rev EXT_ACTIVE = y :: skipn 1 (rev EXT_ACTIVE) ∧ x ≠ y) →
  ∀ d k, p ≠ segment_path d k.
Proof.
  intros Hs (x & l & y & Hx & Hy & Hne) d k ->. rewrite segment_path_eq, seg_name_ends in Hs by done.
  apply ends_with_rev in Hs as [t Ht]. rewrite rev_app_distr, Hx, Hy in Ht. by injection Ht as ->.
Qed.

Lemma sealed_suffix_active p : path_ends_with EXT_SEALED p = true → ∀ d k, p ≠ segment_path d k.
Proof. intros H. eapply ends_with_foreign; [exact H|]. eexists _, _, _. split; [reflexivity|]. by split. Qed.

Lemma tmp_foreign p : path_ends_with EXT_CONFIRMED_TMP p = true → foreign p.
Proof.
  intros H d k. split; [eapply ends_with_foreign; [exact H|]; eexists _, _, _; split; [reflexivity|]; by split|].
  intros ->. rewrite sealed_segment_path, seg_name_ends in H by done.
  apply ends_with_rev in H as [t Ht]. rewrite rev_app_distr in Ht. discriminate Ht.
Qed.

(** ** What the scan must not lose *)

(** A durable segment that has no sidecar: the drain has still to deliver it. *)
Definition undelivered s d k i c ss : Prop :=
  segment_durable s d k i c ss ∧ fs_live s !! sidecar d k = None.

Record kept wab s s' : Prop := mkKept {
  kp_wf : fs_wf s';
  kp_undelivered : ∀ d k i c ss, d ≠ quarantine_dir wab → forallb utf8_valid d = true →
    undelivered s d k i c ss → undelivered s' d k i c ss;
  kp_none : ∀ a, parent a ≠ quarantine_dir wab → fs_live s !! a = None → fs_live s' !! a = None;
}.

Definition keeps_undelivered wab s s' : Prop := fs_wf s → kept wab s s'.

#[export] Instance keeps_undelivered_preorder wab : PreOrder (keeps_undelivered wab).
Proof.
  split; [by intros s Hwf|]. intros s1 s2 s3 H12 H23 Hwf. destruct (H12 Hwf) as [Hwf2 H2 N2].
  destruct (H23 Hwf2) as [Hwf3 H3 N3]. constructor; eauto.
Qed.

Lemma parent_sidecar d k : forallb utf8_valid d = true → parent (sidecar d k) = d.
Proof. intros H. unfold sidecar. rewrite confirmed_segment_path by done. apply parent_snoc. Qed.

Lemma calm_undelivered wab w w' : calm w w' → keeps_undelivered wab (w_fs w) (w_fs w').
Proof.
  intros (Hle & Hl & _) Hwf. destruct (keeps_no_path wab _ _ Hle Hwf) as [Hwf' Hk]. constructor; [done| |by rewrite Hl].
  intros d k i c ss Hd _ [Hs Hn]. split; [by apply Hk|by rewrite Hl].
Qed.

(** A step on names that belong to no undelivered segment. *)
Lemma keeps_undelivered_le wab (own : path → path → Prop) s s' :
  fs_le own s s' →
  (∀ d k i c ss, d ≠ quarantine_dir wab → forallb utf8_valid d = true → undelivered s d k i c ss →
     ¬ own (segment_path d k) (sealed_path_for (segment_path d k))) →
  (∀ p, parent p ≠ quarantine_dir wab → fs_live s !! p = None → fs_live s' !! p = None) →
  keeps_undelivered wab s s'.
Proof.
  intros Hle Hown Hlive Hwf. constructor; [by eapply le_wf| |done]. intros d k i c ss Hd Hu Hun.
  pose proof Hun as [(Hk & Hss & Hl & hb & hd & Hp & Hc & Hh) Hn]. split.
  - split; [done|]. split; [done|]. split; [apply (le_linked _ _ _ Hle); [by eapply Hown|done]|].
    exists hb, hd. split; [done|]. split; [done|]. by eapply fs_le_holds.
  - apply Hlive; [by rewrite parent_sidecar|done].
Qed.

Lemma remove_file_spec p w r w' :
  remove_file p w = (r, w') →
  fs_le (link_own p) (w_fs w) (w_fs w') ∧
  (∀ q, fs_live (w_fs w) !! q = None → fs_live (w_fs w') !! q = None).
Proof.
  unfold remove_file. intros Hs. apply guarded_spec in Hs as
    (w1 & Hle & H1 & H2 & H3 & H4 & H5 & H6 & H7 & H8 & [[-> [k ->]]|Hm]).
  { split; [by eapply fs_le_weaken, Hle|]. by rewrite H2. }
  assert (Hle' : fs_le (link_own p) (w_fs w) (w_fs w1)) by (by eapply fs_le_weaken, Hle).
  destruct (fs_live (w_fs w1) !! p) as [j|] eqn:Ep; injection Hm as <- <-; [|by rewrite H2].
  split; [|intros q Hq; cbn; rewrite H2; destruct (decide (p = q)) as [->|];
    [apply lookup_delete_eq|by rewrite lookup_delete_ne]].
  eapply fs_le_trans; [done|]. constructor; cbn; [done|lia| | |done].
  - intros Hwf i n Hn. by exists n.
  - intros a sl i Hown [L1 L2 LD L3 L4 L5].
    assert (a ≠ p ∧ sl ≠ p) as [Ha Hsl] by (unfold link_own in Hown; tauto).
    assert (Hb : benign a sl (OpUnlink p)) by (right; split; congruence).
    constructor; cbn; [done|done|done| |done|].
    + by apply (apply_op_entry _ (OpUnlink p)).
    + apply Forall_app. split; [done|]. by constructor.
Qed.

(** [p] names no undelivered segment of [s]. *)
Definition spared wab s p : Prop :=
  ∀ d k i c ss, d ≠ quarantine_dir wab → forallb utf8_valid d = true → undelivered s d k i c ss →
    p ≠ segment_path d k ∧ p ≠ sealed_path_for (segment_path d k).

Lemma foreign_spared wab s p : foreign p → spared wab s p.
Proof. intros H d k i c ss _ _ _. apply H. Qed.

Lemma remove_undelivered wab p w r w' :
  remove_file p w = (r, w') → spared wab (w_fs w) p → keeps_undelivered wab (w_fs w) (w_fs w').
Proof.
  intros (Hle & Hl)%remove_file_spec Hp. eapply keeps_undelivered_le; [done| |auto].
  intros d k i c ss Hd Hu Hun [Ho|Ho]; by destruct (Hp d k i c ss Hd Hu Hun).
Qed.

Lemma rename_none p q w r w' a :
  rename p q w = (r, w') → a ≠ q → fs_live (w_fs w) !! a = None → fs_live (w_fs w') !! a = None.
Proof.
  unfold rename. intros Hs Hne Ha. apply guarded_spec in Hs as
    (w1 & _ & _ & H2 & _ & _ & _ & _ & _ & _ & [[-> _]|Hm]); [by rewrite H2|].
  destruct (fs_live (w_fs w1) !! p) as [j|] eqn:Ep; injection Hm as <- <-; [|by rewrite H2].
  cbn. rewrite Ep, lookup_insert_ne by done. rewrite H2. destruct (decide (p = a)) as [->|];
    [apply lookup_delete_eq|by rewrite lookup_delete_ne].
Qed.

Lemma quarantine_undelivered wab p w r w' :
  quarantine p wab w = (r, w') → spared wab (w_fs w) p → keeps_undelivered wab (w_fs w) (w_fs w').
Proof.
  unfold quarantine. intros H Hp.
  apply io_bind_inv in H as [(e & H & ->)|(q & w1 & H & Hg)]; apply quarantine_dest_spec in H as [Hc Hq];
    [by apply calm_undelivered|].
  destruct (Hq q eq_refl) as [Hpq _]. intros Hwf. pose proof (calm_undelivered wab _ _ Hc) as K1.
  destruct (K1 Hwf) as [Hwf1 U1 N1]. constructor.
  { apply rename_spec in Hg as (Hle & _). by apply (le_wf _ _ _ Hle). }
  2: { intros a Ha Hn. eapply rename_none; [exact Hg| |by apply N1]. by intros ->. }
  intros d k i c ss Hd Hu Hun. pose proof (U1 d k i c ss Hd Hu Hun) as [Hs1 Hn1].
  destruct (Hp d k i c ss Hd Hu Hun) as [Hpa Hps]. destruct (quarantine_name_other wab q d k Hpq Hd) as [Hqa Hqs].
  pose proof (rename_none _ _ _ _ _ (sidecar d k) Hg) as Hnone.
  apply rename_spec in Hg as (Hle & _).
  destruct Hs1 as (Hk & Hss & Hl & hb & hd & Hpar & Hcm & Hh). split.
  - split; [done|]. split; [done|]. split.
    { apply (le_linked _ _ _ Hle); [|done]. intros [_ [?|[?|[?|?]]]]; congruence. }
    exists hb, hd. split; [done|]. split; [done|]. by eapply fs_le_holds.
  - apply Hnone; [|done]. intros <-. rewrite parent_sidecar in Hpq; done.
Qed.

Lemma quarantine_count_undelivered {A} wab p w (r : result A ErrorKind) w' :
  quarantine_and_count p wab w = (r, w') → spared wab (w_fs w) p → keeps_undelivered wab (w_fs w) (w_fs w').
Proof.
  unfold quarantine_and_count. intros H Hp. destruct (quarantine p wab w) as [r0 w0] eqn:E.
  apply quarantine_undelivered in E; [|done]. destruct r0; by injection H as _ <-.
Qed.

Lemma fs_read_spec p w r w' :
  fs_read p w = (r, w') → quiet w w' ∧ ∀ b, r = Ok b → is_Some (fs_live (w_fs w) !! p).
Proof.
  unfold fs_read. intros H.
  apply io_bind_inv in H as [(e & H & ->)|(st & w1 & H & Hg)]; apply open_read_spec in H as [Hq Hr]; [done|].
  destruct (Hr st eq_refl) as (i & n & Hi & _). destruct (st_bad st); injection Hg as <- <-; (split; [done|]); [done|].
  intros b _. by exists i.
Qed.

(** A segment whose sidecar is in the way is not undelivered. *)
Lemma sidecar_spared wab w p :
  path_ends_with EXT_SEALED p = true → is_Some (fs_live (w_fs w) !! confirmed_path_for p) →
  spared wab (w_fs w) p.
Proof.
  intros He [i Hi] d k j c ss _ _ [_ Hn]. split; [by apply sealed_suffix_active|].
  intros ->. unfold sidecar in Hn. congruence.
Qed.

(** [check_confirmed]: no undelivered segment is touched, and a segment without a sidecar
    is reported unconfirmed. *)
Lemma check_confirmed_spec wab p w r w' :
  check_confirmed p wab w = (r, w') → path_ends_with EXT_SEALED p = true →
  keeps_undelivered wab (w_fs w) (w_fs w') ∧
  (r = Ok true → calm w w' ∧ is_Some (fs_live (w_fs w) !! confirmed_path_for p)) ∧
  (fs_live (w_fs w) !! confirmed_path_for p = None → r = Ok false).
Proof.
  unfold check_confirmed. intros H He. destruct (exists_ (confirmed_path_for p) w) as [b w1] eqn:E.
  apply exists_calm in E as Hc. pose proof (calm_undelivered wab _ _ Hc) as K1.
  destruct b; cbn [negb] in H; [|by injection H as <- <-].
  destruct (fs_read (confirmed_path_for p) w1) as [[buf|e] w2] eqn:Er; apply fs_read_spec in Er as [Hq Hsome];
    pose proof (calm_undelivered wab _ _ (quiet_calm _ _ Hq)) as K2.
  2: { injection H as <- <-. split; [by etrans|]. done. }
  specialize (Hsome buf eq_refl). pose proof Hc as (_ & Hl1 & _). rewrite Hl1 in Hsome.
  destruct (parse_confirmed buf) as [m|pe].
  { injection H as <- <-. split; [by etrans|]. split; [|by intros Hn; destruct Hsome; congruence].
    intros _. split; [by eapply calm_trans, quiet_calm|done]. }
  destruct (quarantine_and_count p wab w2) as [q w3] eqn:Eq.
  pose proof Hq as (_ & (Hl2 & _) & _). assert (Hs2 : is_Some (fs_live (w_fs w2) !! confirmed_path_for p)) by congruence.
  apply quarantine_count_undelivered in Eq as K3; [|by apply sidecar_spared].
  assert (Hne : ∀ b, q ≠ Ok b).
  { intros b ->. unfold quarantine_and_count in Eq. by destruct (quarantine p wab w2) as [[]]. }
  destruct (quarantine (confirmed_path_for p) wab w3) as [r4 w4] eqn:E4.
  apply quarantine_undelivered in E4; [|apply foreign_spared, confirmed_foreign].
  assert (Hk : keeps_undelivered wab (w_fs w) (w_fs w4)) by (do 3 (etrans; [done|]); done).
  destruct r4 as [[]|qe]; injection H as <- <-.
  - split; [done|]. split; [intros ->; by destruct (Hne true)|]. intros Hn. by destruct Hsome; congruence.
  - split; [done|]. split; [done|]. intros Hn. by destruct Hsome; congruence.
Qed.

Lemma no_path_undelivered wab s s' :
  fs_le no_path s s' → fs_live s' = fs_live s → keeps_undelivered wab s s'.
Proof.
  intros Hle Hl. eapply keeps_undelivered_le; [done| |by rewrite Hl]. intros d k i c ss _ _ _ [].
Qed.

Lemma sync_path_spec p w r w' :
  sync_path p w = (r, w') → fs_le no_path (w_fs w) (w_fs w') ∧ fs_live (w_fs w') = fs_live (w_fs w).
Proof.
  unfold sync_path. intros H.
  apply io_bind_inv in H as [(e & H & ->)|(i & w1 & H & Hs)]; apply open_existing_spec in H as [(Hle & (Hl & _) & _) _];
    [done|]. apply sync_file_spec in Hs as (Hle2 & (Hl2 & _) & _).
  split; [by eapply fs_le_trans|congruence].
Qed.

Lemma delete_orphan_undelivered wab p w r w' :
  delete_orphan p w = (r, w') → path_ends_with EXT_SEALED p = true →
  is_Some (fs_live (w_fs w) !! confirmed_path_for p) → keeps_undelivered wab (w_fs w) (w_fs w').
Proof.
  unfold delete_orphan. intros H He Hs.
  apply io_bind_inv in H as [(e & H & ->)|([] & w1 & H & Hg)]; apply sync_path_spec in H as [Hle1 Hl1];
    pose proof (no_path_undelivered wab _ _ Hle1 Hl1) as K1; [done|].
  apply io_bind_inv in Hg as [(e & H & ->)|([] & w2 & H & Hg)];
    apply fsync_parent_dir_spec in H as (Hle2 & _ & Hl2 & _);
    pose proof (no_path_undelivered wab _ _ Hle2 Hl2) as K2; [by etrans|].
  etrans; [done|]. etrans; [done|]. destruct (remove_file p w2) as [r3 w3] eqn:Er.
  apply (remove_undelivered wab) in Er as K3; [|apply sidecar_spared; [done|by rewrite Hl2, Hl1]].
  assert (w3 = w') as -> by (by destruct r3 as [|[]]; injection Hg as _ <-). done.
Qed.

Lemma remove_stale_undelivered wab p w :
  path_ends_with EXT_CONFIRMED_TMP p = true →
  keeps_undelivered wab (w_fs w) (w_fs (remove_stale_confirmed_tmp p w)).
Proof.
  intros He. unfold remove_stale_confirmed_tmp. destruct (guarded _ w) as [r w1] eqn:E.
  apply guarded_quiet in E as Hq; [|eauto]. pose proof (calm_undelivered wab _ _ (quiet_calm _ _ Hq)) as K1.
  destruct r as [[]|e]; [|done|done]. etrans; [done|]. destruct (remove_file p w1) as [r2 w2] eqn:Er.
  eapply remove_undelivered; [done|]. by apply foreign_spared, tmp_foreign.
Qed.

Lemma remove_tmps_undelivered wab ps w :
  Forall (λ p, path_ends_with EXT_CONFIRMED_TMP p = true) ps →
  keeps_undelivered wab (w_fs w) (w_fs (remove_stale_tmps ps w)).
Proof.
  intros Hps. revert w. induction Hps as [|p ps Hp Hps IH]; intros w; [done|]. cbn [remove_stale_tmps].
  etrans; [by apply remove_stale_undelivered|apply IH].
Qed.

(** The loop over the sealed segments of a shard: undelivered segments stay, and every
    segment that is not excluded and has no sidecar is returned. *)
Lemma scan_sealed_spec wab ex oc ps w l w' :
  scan_sealed wab ex oc ps w = (l, w') → Forall (λ p, path_ends_with EXT_SEALED p = true) ps →
  keeps_undelivered wab (w_fs w) (w_fs w') ∧
  (fs_wf (w_fs w) → ∀ p, p ∈ ps → ex p = false → parent (confirmed_path_for p) ≠ quarantine_dir wab →
     fs_live (w_fs w) !! confirmed_path_for p = None → p ∈ l) ∧
  (∀ p, p ∈ l → p ∈ ps ∧ ex p = false).
Proof.
  intros H Hps. revert w l H. induction Hps as [|p ps Hp Hps IH]; intros w l H; cbn [scan_sealed] in H.
  { injection H as <- <-. split; [done|]. split; [by intros _ p Hn%not_elem_of_nil|].
    by intros p Hn%not_elem_of_nil. }
  destruct (ex p) eqn:Ex.
  { destruct (IH _ _ H) as (K & C & S). split; [done|]. split.
    - intros Hwf q [->|Hq]%elem_of_cons Hex; [congruence|]. by apply C.
    - intros q Hq. destruct (S q Hq). split; [by right|done]. }
  destruct (check_confirmed p wab w) as [r w1] eqn:E.
  destruct (check_confirmed_spec _ _ _ _ _ E Hp) as (K1 & Ht & Hf).
  assert (Hrest : ∀ w2, keeps_undelivered wab (w_fs w1) (w_fs w2) → scan_sealed wab ex oc ps w2 = (l, w') →
            r ≠ Ok false →
            keeps_undelivered wab (w_fs w) (w_fs w') ∧
            (fs_wf (w_fs w) → ∀ q, q ∈ p :: ps → ex q = false →
               parent (confirmed_path_for q) ≠ quarantine_dir wab →
               fs_live (w_fs w) !! confirmed_path_for q = None → q ∈ l) ∧
            (∀ q, q ∈ l → q ∈ p :: ps ∧ ex q = false)).
  { intros w2 K2 H2 Hr. destruct (IH _ _ H2) as (K & C & S). split; [by do 2 (etrans; [done|])|]. split.
    - intros Hwf q [->|Hq]%elem_of_cons Hex Hpar Hn; [by apply Hf in Hn|].
      pose proof (K1 Hwf) as [Hwf1 _ N1]. pose proof (K2 Hwf1) as [Hwf2 _ N2]. apply C; auto.
    - intros q Hq. destruct (S q Hq). split; [by right|done]. }
  destruct r as [[]|e].
  - destruct (Ht eq_refl) as [(_ & Hl1 & _) Hs]. destruct oc; [|by apply (Hrest w1)].
    destruct (delete_orphan p w1) as [r2 w2] eqn:Ed. apply (Hrest w2); [|done|done].
    eapply delete_orphan_undelivered; [done|done|by rewrite Hl1].
  - destruct (scan_sealed wab ex oc ps w1) as [l1 w2] eqn:E1. injection H as <- <-.
    destruct (IH _ _ E1) as (K & C & S). split; [by etrans|]. split.
    + intros Hwf q [->|Hq]%elem_of_cons Hex Hpar Hn; [by left|]. right.
      pose proof (K1 Hwf) as [Hwf1 _ N1]. apply C; auto.
    + intros q [->|Hq]%elem_of_cons; [split; [by left|done]|]. destruct (S q Hq). split; [by right|done].
  - by apply (Hrest w1).
Qed.

(** ** A healthy disk stays healthy *)

(** No fault is left on the tape, and no directory goes away. *)
Definition steady (w w' : World) : Prop :=
  fs_tape (w_fs w) = [] → fs_tape (w_fs w') = [] ∧ dirs_le (fs_dirs (w_fs w)) (fs_dirs (w_fs w')).

#[export] Instance steady_preorder : PreOrder steady.
Proof.
  split; [done|]. intros w1 w2 w3 H12 H23 H. destruct (H12 H) as [H2 D2]. destruct (H23 H2) as [H3 D3].
  split; [done|by etrans].
Qed.

Definition tame {A} (m : io A) : Prop := ∀ w, steady w (snd (m w)).

Lemma tame_ok {A} (a : A) : tame (io_ok a).
Proof. by intros w. Qed.
Lemma tame_err {A} e : tame (@io_err A e).
Proof. by intros w. Qed.

Lemma tame_bind {A B} (m : io A) (f : A → io B) : tame m → (∀ a, tame (f a)) → tame (io_bind m f).
Proof.
  intros Hm Hf w. unfold io_bind. specialize (Hm w). destruct (m w) as [[a|e] w1]; [|done].
  etrans; [exact Hm|apply Hf].
Qed.

Lemma pop_fault_tame w : steady w (snd (pop_fault w)).
Proof. unfold pop_fault. intros Ht. rewrite Ht. done. Qed.

Lemma tame_guarded {A} (m : io A) : tame m → tame (guarded m).
Proof.
  intros Hm w. unfold guarded. pose proof (pop_fault_tame w) as Hp. destruct (pop_fault w) as [f w1].
  destruct f; [etrans; [exact Hp|apply Hm]|etrans; [exact Hp|apply Hm]|exact Hp].
Qed.

Lemma tame_open_read p : tame (open_read p).
Proof.
  intros w. unfold open_read. pose proof (pop_fault_tame w) as Hp. destruct (pop_fault w) as [f w1].
  destruct f; try exact Hp; destruct (_ ≫= _); exact Hp.
Qed.

Lemma tame_sync_file i : tame (sync_file i).
Proof.
  intros w. unfold sync_file. pose proof (pop_fault_tame w) as Hp. destruct (pop_fault w) as [f w1].
  destruct f; exact Hp.
Qed.

Lemma tame_create_dir_all d : tame (create_dir_all d).
Proof. apply tame_guarded. intros w Ht. split; [done|]. apply union_dirs_le. Qed.

Lemma tame_rename p q : tame (rename p q).
Proof. apply tame_guarded. intros w. destruct (_ !! _); done. Qed.
Lemma tame_remove_file p : tame (remove_file p).
Proof. apply tame_guarded. intros w. destruct (_ !! _); done. Qed.
Lemma tame_open_existing p : tame (open_existing p).
Proof. apply tame_guarded. intros w. destruct (_ !! _); done. Qed.
Lemma tame_try_exists p : tame (try_exists p).
Proof. apply tame_guarded. by intros w. Qed.
Lemma tame_sync_dir d : tame (sync_dir d).
Proof. apply tame_guarded. intros w Ht. split; [done|]. apply sync_subdirs_le. Qed.
Lemma tame_fsync_parent_dir p : tame (fsync_parent_dir p).
Proof. unfold fsync_parent_dir. destruct (parent p); [apply tame_ok|apply tame_sync_dir]. Qed.
End ScanFacts.

Create HintDb tame.
#[export] Hint Extern 1 (tame _) =>
  first [apply tame_ok | apply tame_err | apply tame_open_read | apply tame_sync_file
        | apply tame_create_dir_all | apply tame_rename | apply tame_remove_file | apply tame_open_existing
        | apply tame_try_exists | apply tame_sync_dir | apply tame_fsync_parent_dir] : tame.

Section ScanHealthy.
Context {CRC : Crc32} {CL : Crc32Laws} {ZS : Zstd} {ZL : ZstdLaws}.
Implicit Types (s : Fs) (d p wab : path) (c : Compression) (ss : list bytes).

Lemma tame_free_name dir base n fuel : tame (free_name dir base n fuel).
Proof.
  revert n. induction fuel as [|fuel IH]; intros n; cbn [free_name]; [apply tame_err|].
  apply tame_bind; [auto with tame|]. intros b. destruct b; auto with tame.
Qed.

Lemma tame_quarantine_dest p wab : tame (quarantine_dest p wab).
Proof.
  unfold quarantine_dest, create_dir_private, non_clobbering_dest.
  apply tame_bind; [apply tame_bind; [auto with tame|intros _; apply tame_guarded; by intros w]|]. intros _.
  destruct (file_name p); [|apply tame_err]. apply tame_bind; [auto with tame|].
  intros []; [apply tame_free_name|auto with tame].
Qed.

Lemma tame_quarantine p wab : tame (quarantine p wab).
Proof. apply tame_bind; [apply tame_quarantine_dest|]. auto with tame. Qed.

Lemma tame_quarantine_and_count {A} p wab : tame (@quarantine_and_count A p wab).
Proof.
  intros w. unfold quarantine_and_count. pose proof (tame_quarantine p wab w) as H.
  by destruct (quarantine p wab w) as [[]].
Qed.

Lemma tame_fs_read p : tame (fs_read p).
Proof. apply tame_bind; [auto with tame|]. intros st. destruct (st_bad st); auto with tame. Qed.

Lemma tame_sync_path p : tame (sync_path p).
Proof. apply tame_bind; auto with tame. Qed.

Lemma exists_steady p w : steady w (snd (exists_ p w)).
Proof. unfold exists_. pose proof (tame_try_exists p w) as H. by destruct (try_exists p w) as [[]]. Qed.

Lemma tame_check_confirmed p wab : tame (check_confirmed p wab).
Proof.
  intros w. unfold check_confirmed. pose proof (exists_steady (confirmed_path_for p) w) as H.
  destruct (exists_ _ w) as [[] w1]; cbn [negb]; [|done]. etrans; [exact H|].
  pose proof (tame_fs_read (confirmed_path_for p) w1) as H1. destruct (fs_read _ w1) as [[buf|e] w2]; [|done].
  destruct (parse_confirmed buf); [done|]. etrans; [exact H1|].
  pose proof (@tame_quarantine_and_count bool p wab w2) as H2. destruct (quarantine_and_count p wab w2) as [q w3].
  etrans; [exact H2|]. pose proof (tame_quarantine (confirmed_path_for p) wab w3) as H3.
  by destruct (quarantine _ wab w3) as [[]].
Qed.

Lemma tame_delete_orphan p : tame (delete_orphan p).
Proof.
  unfold delete_orphan. apply tame_bind; [apply tame_sync_path|]. intros _. apply tame_bind; [auto with tame|].
  intros _ w. pose proof (tame_remove_file p w) as H. by destruct (remove_file p w) as [[|[]]].
Qed.

Lemma remove_tmps_steady ps w : steady w (remove_stale_tmps ps w).
Proof.
  revert w. induction ps as [|p ps IH]; intros w; [done|]. cbn [remove_stale_tmps]. etrans; [|apply IH].
  unfold remove_stale_confirmed_tmp.
  pose proof (tame_guarded (λ w, (@Ok _ ErrorKind (bool_decide (is_Some (fs_live (w_fs w) !! p))), w)) (λ w, reflexivity w) w) as H.
  destruct (guarded _ w) as [[[]|e] w1]; [|done|done]. etrans; [exact H|apply tame_remove_file].
Qed.

Lemma scan_sealed_steady wab ex oc ps w : steady w (snd (scan_sealed wab ex oc ps w)).
Proof.
  revert w. induction ps as [|p ps IH]; intros w; cbn [scan_sealed]; [done|].
  destruct (ex p); [apply IH|]. pose proof (tame_check_confirmed p wab w) as H.
  destruct (check_confirmed p wab w) as [[[]|e] w1]; (etrans; [exact H|]).
  - etrans; [|apply IH]. destruct oc; [apply tame_delete_orphan|done].
  - pose proof (IH w1) as H1. by destruct (scan_sealed _ _ _ _ w1).
  - apply IH.
Qed.

(** ** The whole scan *)

Lemma filter_Forall {A} (f : A → bool) l : Forall (λ x, f x = true) (List.filter f l).
Proof. induction l as [|x l IH]; simpl; [constructor|]. destruct (f x) eqn:E; [by constructor|done]. Qed.

Lemma scan_shard_spec wab ex oc ps w l w' :
  scan_shard wab ex oc ps w = (l, w') →
  keeps_undelivered wab (w_fs w) (w_fs w') ∧ steady w w' ∧
  (fs_wf (w_fs w) → ∀ p, p ∈ ps → path_ends_with EXT_SEALED p = true → ex p = false →
     parent (confirmed_path_for p) ≠ quarantine_dir wab →
     fs_live (w_fs w) !! confirmed_path_for p = None → p ∈ l) ∧
  (∀ p, p ∈ l → p ∈ ps ∧ path_ends_with EXT_SEALED p = true ∧ ex p = false).
Proof.
  unfold scan_shard. intros H. set (sealed := sort_by_key _ _) in H. set (tmps := List.filter _ ps) in H.
  assert (Hin : ∀ p, p ∈ sealed ↔ p ∈ ps ∧ path_ends_with EXT_SEALED p = true).
  { intros p. unfold sealed. rewrite sort_by_key_perm. by rewrite !list_elem_of_In, filter_In. }
  pose proof (remove_tmps_undelivered wab tmps w (filter_Forall _ _)) as K1.
  pose proof (remove_tmps_steady tmps w) as S1.
  assert (Hs : Forall (λ p, path_ends_with EXT_SEALED p = true) sealed)
    by (apply Forall_forall; intros p; by rewrite Hin; intros [_ ?]).
  destruct (scan_sealed_spec _ _ _ _ _ _ _ H Hs) as (K2 & C & S).
  pose proof (scan_sealed_steady wab ex oc sealed (remove_stale_tmps tmps w)) as S2. rewrite H in S2.
  split; [by etrans|]. split; [by etrans|]. split.
  - intros Hwf p Hp He Hex Hpar Hn. destruct (K1 Hwf) as [Hwf1 _ N1].
    apply C; [done|by apply Hin|done|done|by apply N1].
  - intros p Hp. destruct (S p Hp) as [Hp' Hex]. apply Hin in Hp' as [? ?]. done.
Qed.

Lemma read_dir_healthy d w :
  fs_tape (w_fs w) = [] →
  read_dir d w = (Ok (filter (λ p, p ≠ [] ∧ parent p = d)
    (map fst (map_to_list (fs_live (w_fs w))) ++ elements (dom (fs_dirs (w_fs w))))), w).
Proof. intros Ht. unfold read_dir, guarded, pop_fault. by rewrite Ht. Qed.

Lemma is_dir_healthy d w :
  fs_tape (w_fs w) = [] → is_dir d w = (bool_decide (d ∈ dom (fs_dirs (w_fs w))), w).
Proof. intros Ht. unfold is_dir, guarded, pop_fault. by rewrite Ht. Qed.

(** A sealed segment the drain has still to deliver, in a shard directory of [s]. *)
Record awaiting wab s d (k : Z) : Prop := mkAwaiting {
  aw_dir : d ∈ dom (fs_dirs s);
  aw_shard : reserved_dir d = false;
  aw_text : forallb utf8_valid d = true;
  aw_sealed : fs_live s !! segment_path d k = None;
  aw_durable : ∃ i c ss, undelivered s d k i c ss;
}.

Lemma awaiting_live wab s d k :
  awaiting wab s d k → is_Some (fs_live s !! sealed_path_for (segment_path d k)).
Proof.
  intros [_ _ _ Ha (i & c & ss & (_ & _ & Hl & _) & _)].
  destruct (lk_live _ _ _ _ Hl) as [?|[_ ?]]; [congruence|by exists i].
Qed.

Lemma awaiting_step wab w w' d k :
  keeps_undelivered wab (w_fs w) (w_fs w') → steady w w' → fs_wf (w_fs w) → fs_tape (w_fs w) = [] →
  awaiting wab (w_fs w) d k → awaiting wab (w_fs w') d k.
Proof.
  intros K S Hwf Ht [Hd Hr Hu Ha (i & c & ss & Hun)]. destruct (K Hwf) as [_ U N]. destruct (S Ht) as [_ Hsub].
  pose proof (reserved_quarantine wab d Hr) as Hq. constructor; [by eapply dirs_le_dom|done|done| |].
  - apply N; [by rewrite parent_segment_path|done].
  - exists i, c, ss. by apply U.
Qed.

Lemma scan_dirs_keeps wab sc ex oc ds w r w' :
  scan_dirs wab sc ex oc ds w = (r, w') → keeps_undelivered wab (w_fs w) (w_fs w').
Proof.
  revert w r. induction ds as [|d ds IH]; intros w r H; cbn [scan_dirs] in H; [by injection H as _ <-|].
  destruct (is_dir d w) as [b w1] eqn:E. apply is_dir_quiet in E.
  pose proof (calm_undelivered wab _ _ (quiet_calm _ _ E)) as K1. etrans; [done|].
  destruct b; cbn [negb] in H; [|by eapply IH]. destruct (reserved_dir d); [by eapply IH|].
  destruct (read_dir d w1) as [[es|e] w2] eqn:Er; apply read_dir_spec in Er as (Hle & (Hl & _) & _);
    pose proof (no_path_undelivered wab _ _ Hle Hl) as K2; (etrans; [done|]).
  - destruct (scan_shard wab ex oc es w2) as [l w3] eqn:Es. apply scan_shard_spec in Es as (K3 & _).
    etrans; [done|]. apply io_bind_inv in H as [(e & H & ->)|(sc' & w4 & H & Hg)]; [by eapply IH|].
    injection Hg as _ <-. by eapply IH.
  - destruct sc; [by injection H as _ <-|].
    apply io_bind_inv in H as [(e' & H & ->)|(sc' & w4 & H & Hg)]; [by eapply IH|].
    injection Hg as _ <-. by eapply IH.
Qed.

Lemma scan_dirs_complete wab sc ex oc ds w r w' :
  scan_dirs wab sc ex oc ds w = (r, w') → fs_tape (w_fs w) = [] → fs_wf (w_fs w) →
  ∃ scan, r = Ok scan ∧ ss_incomplete scan = false ∧
    ∀ d k, d ∈ ds → awaiting wab (w_fs w) d k → ex (sealed_path_for (segment_path d k)) = false →
      sealed_path_for (segment_path d k) ∈ ss_segments scan.
Proof.
  revert w r w'. induction ds as [|d ds IH]; intros w r w' H Ht Hwf; cbn [scan_dirs] in H.
  { injection H as <- <-. eexists. split; [done|]. split; [done|]. by intros d k Hd%not_elem_of_nil. }
  rewrite is_dir_healthy in H by done.
  destruct (bool_decide_reflect (d ∈ dom (fs_dirs (w_fs w)))) as [Hdir|Hdir]; cbn [negb] in H.
  2: { destruct (IH _ _ _ H Ht Hwf) as (scan & -> & Hi & Hc). exists scan. split; [done|]. split; [done|].
       intros d' k [->|Hd]%elem_of_cons Haw; [by destruct Haw|]. by apply Hc. }
  destruct (reserved_dir d) eqn:Eres.
  { destruct (IH _ _ _ H Ht Hwf) as (scan & -> & Hi & Hc). exists scan. split; [done|]. split; [done|].
    intros d' k [->|Hd]%elem_of_cons Haw; [destruct Haw; congruence|]. by apply Hc. }
  rewrite read_dir_healthy in H by done. set (es := filter _ _) in H.
  destruct (scan_shard wab ex oc es w) as [l w2] eqn:Es. apply scan_shard_spec in Es as (K & S & C & _).
  destruct (S Ht) as [Ht2 _]. destruct (K Hwf) as [Hwf2 _ _].
  unfold io_bind in H. destruct (scan_dirs wab sc ex oc ds w2) as [r2 w3] eqn:E2.
  destruct (IH _ _ _ E2 Ht2 Hwf2) as (scan & -> & Hi & Hc). injection H as <- <-.
  eexists. split; [done|]. split; [done|]. intros d' k [->|Hd]%elem_of_cons Haw Hex; cbn [ss_segments]; apply elem_of_app.
  - left. pose proof (awaiting_live _ _ _ _ Haw) as [i Hi']. destruct Haw as [_ _ Hu _ (? & ? & ? & _ & Hn)].
    apply C; [done| | |done| |done].
    + apply list_elem_of_filter. split; [|apply elem_of_app; left; apply list_elem_of_fmap;
        exists (sealed_path_for (segment_path d k), i); split; [done|by apply elem_of_map_to_list]].
      split; [|apply parent_sealed_path]. rewrite sealed_segment_path. by intros [_ ?]%app_nil.
    + rewrite sealed_segment_path, seg_name_ends by done. apply ends_with_app.
    + change (parent (sidecar d k) ≠ quarantine_dir wab). rewrite parent_sidecar by done.
      by apply reserved_quarantine.
  - right. apply Hc; [done|by eapply awaiting_step|done].
Qed.

(** C31: the replay scan never loses an undelivered segment: a durable segment without a
    confirmation sidecar is still there, durable and under the same names, after the
    scan, whatever faults the disk injects; only segments with a sidecar are
    quarantined or, with orphan cleanup, deleted. *)
Theorem scan_keeps_undelivered wab sc ex oc w r w' d k i c ss :
  scan_unconfirmed_sealed wab sc ex oc w = (r, w') → fs_wf (w_fs w) →
  d ≠ quarantine_dir wab → forallb utf8_valid d = true →
  undelivered (w_fs w) d k i c ss → undelivered (w_fs w') d k i c ss.
Proof.
  unfold scan_unconfirmed_sealed. intros H Hwf Hd Hu Hun.
  apply io_bind_inv in H as [(e & H & ->)|(ds & w1 & H & Hg)]; apply read_dir_spec in H as (Hle & (Hl & _) & _);
    pose proof (no_path_undelivered wab _ _ Hle Hl Hwf) as [Hwf1 U1 _]; specialize (U1 d k i c ss Hd Hu Hun); [done|].
  apply scan_dirs_keeps in Hg. destruct (Hg Hwf1) as [_ U2 _]. by apply U2.
Qed.

(** C32: on a healthy disk the startup replay scan succeeds and queues every sealed segment
    that has still to be delivered, in every shard directory on disk, inside or outside
    the configured shard count. *)
Theorem scan_replay_complete wab n oc w :
  fs_tape (w_fs w) = [] → fs_wf (w_fs w) →
  ∃ segments w', scan_replay wab n oc w = (Ok segments, w') ∧
    ∀ d k, d ≠ [] → parent d = wab → awaiting wab (w_fs w) d k →
      sealed_path_for (segment_path d k) ∈ segments.
Proof.
  intros Ht Hwf. unfold scan_replay, scan_unconfirmed_sealed, io_bind. rewrite read_dir_healthy by done.
  destruct (scan_dirs wab (Some n) (λ _, false) oc _ w) as [r w1] eqn:E.
  destruct (scan_dirs_complete _ _ _ _ _ _ _ _ E Ht Hwf) as (scan & -> & _ & Hc).
  eexists _, _. split; [done|]. intros d k Hne Hp Haw. apply Hc; [|done|done].
  rewrite sort_by_key_perm. apply list_elem_of_filter. split; [done|]. apply elem_of_app. right.
  apply elem_of_elements. by destruct Haw.
Qed.
End ScanHealthy.

(** ** Witnesses *)

Module ScanWitness.
#[local] Existing Instance Crc32Ieee.ieee.
#[local] Existing Instance ZstdRaw.raw.
#[local] Existing Instance Crc32Ieee.ieee_laws.
#[local] Existing Instance ZstdRaw.raw_laws.
Import RecoveryWitness.

Definition sealed1 : path := sealed_path_for active.

(** Segment 1 of shard 0 is sealed; [side] is its sidecar, if any. *)
Definition sealed_disk (side : option bytes) (tape : list Fault) : World :=
  let m := {[ sealed1 := 1%positive ]} in
  let f := {[ 1%positive := on_disk torn_file ]} in
  match side with
  | None => disk m f tape
  | Some b => disk (<[confirmed_path_for sealed1 := 2%positive]> m) (<[2%positive := on_disk b]> f) tape
  end.

Lemma sealed_disk_wf : fs_wf (w_fs (sealed_disk None [])).
Proof. apply torn_disk_wf. Qed.

Lemma sealed_disk_undelivered :
  undelivered (w_fs (sealed_disk None [])) shard 1 1%positive CNone [bstr "hello"].
Proof.
  split; [|by vm_compute]. split; [done|].
  split; [apply Forall_cons_2; [split; [by vm_compute|by eexists]|apply Forall_nil_2]|]. split.
  - constructor; [by vm_compute|by vm_compute|by apply (bool_decide_unpack _); vm_compute|right; by vm_compute|right; by vm_compute|constructor].
  - exists header, (mkSegmentHeaderMeta x01 CNone 0 5). split; [by vm_compute|]. split; [done|].
    exists (on_disk torn_file). split; [done|]. exists [x05; x00; x00]. by vm_compute.
Qed.

Lemma scan_keeps_undelivered_witness :
  let w' := snd (scan_unconfirmed_sealed wab None (λ _, false) true (sealed_disk None [])) in
  undelivered (w_fs w') shard 1 1%positive CNone [bstr "hello"].
Proof.
  intros w'. eapply (scan_keeps_undelivered wab None (λ _, false) true (sealed_disk None [])).
  - apply surjective_pairing.
  - apply sealed_disk_wf.
  - by vm_compute.
  - by vm_compute.
  - apply sealed_disk_undelivered.
Defined.

Lemma scan_replay_complete_witness :
  ∃ segments w', scan_replay wab 1 true (sealed_disk None []) = (Ok segments, w') ∧ sealed1 ∈ segments.
Proof.
  destruct (scan_replay_complete wab 1 true (sealed_disk None [])) as (l & w' & H & Hc);
    [done|apply sealed_disk_wf|]. exists l, w'. split; [exact H|]. apply Hc; [done|done|].
  constructor; [by vm_compute|by vm_compute|by vm_compute|by vm_compute|].
  exists 1%positive, CNone, [bstr "hello"]. apply sealed_disk_undelivered.
Defined.

(** ** Two faults that hide a segment from the replay *)

(** A failing stat of a shard directory hides the whole shard from the startup replay:
    the scan succeeds, is not marked incomplete, and returns none of its segments. *)
Example scan_skips_unstatable_shard :
  let '(r, w') := scan_unconfirmed_sealed wab (Some 1) (λ _, false) true
                    (sealed_disk None [FOk; FErr 0 OtherError]) in
  r = Ok (mkSealedScan [] false) ∧ fs_live (w_fs w') !! sealed1 = Some 1%positive.
Proof. vm_compute. done. Qed.

(** A sidecar that does not parse and a failing quarantine rename hide a segment from the
    replay: the scan succeeds without it, and it is neither quarantined nor counted. *)
Example scan_skips_unquarantined_segment :
  let tape := replicate 8 FOk ++ [FErr 0 OtherError] in
  let '(r, w') := scan_unconfirmed_sealed wab (Some 1) (λ _, false) true (sealed_disk (Some [x00]) tape) in
  r = Ok (mkSealedScan [] false) ∧ fs_live (w_fs w') !! sealed1 = Some 1%positive ∧
  w_metrics w' RecoverySegmentsQuarantined = 0.
Proof. vm_compute. done. Qed.
End ScanWitness.
