(* ===== verification/Confirm.v ===== *)
(** * Confirming a delivered segment (weir-server, drain/confirmed.rs)

    [confirm_and_delete] and what it is made of: the sidecar is written to a temporary
    name, synced, renamed into place and its directory synced before the segment is
    removed. A segment goes away only once a sidecar that every crash preserves stands in
    for it, and a restart then reads it as confirmed. *)

From Stdlib Require Import ZArith Lia Strings.Byte String.
From stdpp Require Import base gmap list option sets.
From S2P Require Import Prelude Deps Wire Text Names Io Fs Durable Touch Format Reader Segment Recovery Scan.

Inductive ConfirmOutcome := ConfirmDone | SidecarFailed | DeleteFailed.

Section Confirm.
Context {CRC : Crc32}.

(** [write_tmp_then_rename]. *)
Definition write_tmp_then_rename (confirmed tmp : path) (b : bytes) : io unit :=
  let! f := open_truncate tmp in
  let! _ := write_all f b in
  let! _ := sync_file f in
  let! _ := rename tmp confirmed in
  fsync_parent_dir confirmed.

(** [write_confirmed_durably]: a failure removes the temporary file, best effort. *)
Definition write_confirmed_durably (confirmed : path) (b : bytes) : io unit := λ w,
  let tmp := confirmed_tmp_path confirmed in
  match write_tmp_then_rename confirmed tmp b w with
  | (Ok _, w) => (Ok tt, w)
  | (Err e, w) => (Err e, snd (remove_file tmp w))
  end.

(** [read_sealed_at_nanos]. *)
Definition read_sealed_at_nanos (p : path) : io Z :=
  let! (file, st) := open_handle p in
  let! len := file_len file in
  if len <? SEGMENT_FOOTER_LEN + 4 then io_ok 0 else
  match s_read_exact SEGMENT_FOOTER_LEN
          (mkStream (drop (Z.to_nat (len - SEGMENT_FOOTER_LEN)) (st_data st)) (st_bad st)) with
  | Err e => io_err e
  | Ok (footer, _) => io_ok (le_val_i64 (slice 20 28 footer))
  end.

(** [write_confirmed_file]. *)
Definition write_confirmed_file (sealed : path) (record_count : Z) : io unit := λ w,
  let confirmed := confirmed_path_for sealed in
  let '(sealed_at, w) := match read_sealed_at_nanos sealed w with
                         | (Ok n, w) => (n, w)
                         | (Err _, w) => (0, w)
                         end in
  write_confirmed_durably confirmed (build_confirmed sealed_at record_count (unix_nanos_now (w_unix w))) w.

(** [delete_confirmed_segment]. *)
Definition delete_confirmed_segment (sealed : path) (w : World) : ConfirmOutcome * World :=
  match remove_file sealed w with
  | (Ok _, w) => (ConfirmDone, w)
  | (Err NotFound, w) => (ConfirmDone, w)
  | (Err _, w) => (DeleteFailed, inc DrainConfirmDeleteFailures w)
  end.

Definition confirm_and_delete (sealed : path) (record_count : Z) (w : World) : ConfirmOutcome * World :=
  let '(present, w) := exists_ sealed w in
  if negb present then (ConfirmDone, w) else
  match write_confirmed_file sealed record_count w with
  | (Err _, w) => (SidecarFailed, inc DrainConfirmSidecarFailures w)
  | (Ok _, w) => delete_confirmed_segment sealed (inc WabSegmentsConfirmed w)
  end.
End Confirm.

(** ** Names *)

Section ConfirmFacts.
Context {CRC : Crc32} {CL : Crc32Laws} {ZS : Zstd} {ZL : ZstdLaws}.
Implicit Types (s : Fs) (d p : path) (k : Z).

Abbreviation sealed_seg d k := (sealed_path_for (segment_path d k)).

(** The names a sidecar write may change. *)
Definition sidecar_own (sealed q : path) : Prop :=
  q = confirmed_path_for sealed ∨ q = confirmed_tmp_path (confirmed_path_for sealed).

Definition confirm_own (sealed q : path) : Prop := q = sealed ∨ sidecar_own sealed q.

Lemma sidecar_not_segment d e k j q :
  forallb utf8_valid d = true → sidecar_own (sealed_seg d k) q →
  q ≠ segment_path e j ∧ q ≠ sealed_seg e j.
Proof.
  intros Hd Hq. rewrite sealed_segment_path, segment_path_eq.
  destruct Hq as [->| ->]; rewrite ?confirmed_segment_path by done.
  - split; intros [_ H]%app_inj_tail; apply (f_equal (@rev byte)) in H; rewrite !rev_app_distr in H; discriminate H.
  - unfold confirmed_tmp_path. rewrite file_name_snoc, set_file_name_snoc.
    split; intros [_ H]%app_inj_tail; apply (f_equal (@rev byte)) in H; cbn [from_option id default] in H;
      rewrite !rev_app_distr in H; discriminate H.
Qed.

(** ** The sidecar *)

(** A sidecar for [n] records of [p] that every crash preserves. *)
Definition sidecar_safe s p (n : Z) : Prop :=
  ∃ sealed_at drained_at, is_i64 sealed_at ∧ is_i64 drained_at ∧
    safe_file s (confirmed_path_for p) (build_confirmed sealed_at n drained_at).

Lemma quiet_touches own w w' : quiet w w' → touches own (w_fs w) (w_fs w').
Proof. intros (_ & D & F & N & _). by apply touches_same. Qed.

Lemma open_truncate_spec p w i w' :
  open_truncate p w = (Ok i, w') →
  fs_live (w_fs w') !! p = Some i ∧ fs_files (w_fs w') !! i = Some (mkFileNode [] 0 false).
Proof.
  unfold open_truncate. intros H. apply guarded_spec in H as (w1 & _ & _ & _ & _ & _ & _ & _ & _ & _ & [[_ [? ?]]|H]);
    [done|]. cbv beta zeta in H. destruct (bool_decide _); [done|].
  destruct (fs_live (w_fs w1) !! p) as [j|] eqn:E; injection H as <- <-; cbn; by rewrite !lookup_insert_eq.
Qed.

Lemma rename_Ok p q w w' i :
  rename p q w = (Ok tt, w') → fs_live (w_fs w) !! p = Some i → fs_live (w_fs w') !! q = Some i.
Proof.
  unfold rename. intros H Hi. apply guarded_spec in H as (w1 & _ & _ & L & _ & _ & _ & _ & _ & _ & [[_ [? ?]]|H]);
    [done|]. rewrite L, Hi in H. injection H as <-. cbn. rewrite L, Hi. apply lookup_insert_eq.
Qed.

(** The sidecar goes through its temporary name; a success leaves it safe. *)
Lemma write_tmp_spec (own : path → Prop) confirmed tmp b w r w' :
  write_tmp_then_rename confirmed tmp b w = (r, w') → own confirmed → own tmp → parent confirmed ≠ [] →
  touches own (w_fs w) (w_fs w') ∧
  (r = Ok tt → fs_ok (w_fs w) → durable_dir (w_fs w) (parent confirmed) → safe_file (w_fs w') confirmed b).
Proof.
  intros H Hc Ht Hp. unfold write_tmp_then_rename in H.
  apply io_bind_inv in H as [(e & H & ->)|(i & w1 & H & Hg)];
    pose proof (open_truncate_touches own _ _ _ _ H Ht) as T1; [done|].
  apply open_truncate_spec in H as [L1 F1].
  apply io_bind_inv in Hg as [(e & H & ->)|([] & w2 & H & Hg)];
    pose proof (write_all_touches own _ _ _ _ _ _ H Ht L1) as T2; [by split; [etrans|]|].
  apply write_all_spec in H as (b' & _ & (L2 & _) & _ & _ & F2 & Hb). rewrite (Hb eq_refl) in F2. clear Hb.
  apply io_bind_inv in Hg as [(e & H & ->)|([] & w3 & H & Hg)];
    pose proof (sync_file_touches own _ _ _ _ H) as T3; [split; [do 2 (etrans; [done|]); done|done]|].
  apply sync_file_spec in H as (_ & (L3 & _) & _ & _ & F3). cbn [is_ok] in F3.
  apply io_bind_inv in Hg as [(e & H & ->)|([] & w4 & H & Hg)];
    pose proof (rename_touches own _ _ _ _ _ H Ht Hc) as T4; [split; [do 3 (etrans; [done|]); done|done]|].
  pose proof (fsync_parent_touches own _ _ _ _ Hg) as T5.
  split; [do 4 (etrans; [done|]); done|]. intros -> Hok Hdir.
  assert (T14 : touches own (w_fs w) (w_fs w4)) by (do 3 (etrans; [done|]); done).
  apply (durable_dir_mono _ _ _ (tc_dirs _ _ _ (T14 Hok))) in Hdir.
  assert (L4 : fs_live (w_fs w4) !! confirmed = Some i) by (eapply rename_Ok; [exact H|congruence]).
  apply rename_spec in H as (_ & _ & F4 & _).
  assert (Hn : fs_files (w_fs w4) !! i = Some (mkFileNode b (length b) false)).
  { rewrite F4, F3, lookup_alter_eq, F2, lookup_alter_eq, F1. done. }
  by apply (synced_safe w4 w' confirmed i _ L4 Hn eq_refl Hp Hdir).
Qed.

Lemma read_sealed_at_spec own p w r w' :
  read_sealed_at_nanos p w = (r, w') → touches own (w_fs w) (w_fs w') ∧ ∀ z, r = Ok z → is_i64 z.
Proof.
  intros H. unfold read_sealed_at_nanos in H.
  apply io_bind_inv in H as [(e & H & ->)|([i st] & w1 & H & Hg)]; apply open_handle_spec in H as [Q _];
    pose proof (quiet_touches own _ _ Q) as T1; [done|].
  apply io_bind_inv in Hg as [(e & H & ->)|(len & w2 & H & Hg)]; apply file_len_quiet in H as Q2;
    pose proof (quiet_touches own _ _ Q2) as T2; [by split; [etrans|]|].
  destruct (len <? _); [injection Hg as <- <-; split; [by etrans|intros z [= <-]; done]|].
  destruct (s_read_exact _ _) as [[ft ?]|e] eqn:E; injection Hg as <- <-; (split; [by etrans|]); [|done].
  intros z [= <-]. apply s_read_exact_Ok in E as (_ & _ & Hl); [|done].
  apply le_val_i64_range. unfold slice. rewrite length_take, length_drop. unfold blen in Hl.
  change SEGMENT_FOOTER_LEN with 32 in Hl. lia.
Qed.

Lemma write_durably_spec (own : path → Prop) confirmed b w r w' :
  write_confirmed_durably confirmed b w = (r, w') → parent confirmed ≠ [] →
  own confirmed → own (confirmed_tmp_path confirmed) →
  touches own (w_fs w) (w_fs w') ∧
  (r = Ok tt → fs_ok (w_fs w) → durable_dir (w_fs w) (parent confirmed) → safe_file (w_fs w') confirmed b).
Proof.
  intros H Hp Hc Ht. unfold write_confirmed_durably in H.
  destruct (write_tmp_then_rename _ _ b w) as [r1 w1] eqn:E.
  apply (write_tmp_spec own) in E as [T1 S1]; [|done..].
  destruct r1 as [[]|e]; injection H as <- <-; [by split|]. split; [|done]. etrans; [done|].
  destruct (remove_file _ w1) as [r2 w2] eqn:Er. by eapply remove_touches.
Qed.

Lemma write_confirmed_spec (own : path → Prop) p n w r w' :
  write_confirmed_file p n w = (r, w') → parent (confirmed_path_for p) ≠ [] →
  (∀ q, sidecar_own p q → own q) →
  touches own (w_fs w) (w_fs w') ∧
  (r = Ok tt → fs_ok (w_fs w) → durable_dir (w_fs w) (parent (confirmed_path_for p)) → sidecar_safe (w_fs w') p n).
Proof.
  intros H Hp Hown. unfold write_confirmed_file in H. destruct (read_sealed_at_nanos p w) as [r0 w0] eqn:E.
  apply (read_sealed_at_spec own) in E as [T0 Hz].
  assert (∃ z, is_i64 z ∧ write_confirmed_durably (confirmed_path_for p)
            (build_confirmed z n (unix_nanos_now (w_unix w0))) w0 = (r, w')) as (z & Hz' & Hw)
    by (destruct r0 as [z|e]; [exists z|exists 0]; split; auto; by vm_compute).
  apply (write_durably_spec own) in Hw as [T1 S1]; [|done|apply Hown; by left|apply Hown; by right].
  split; [by etrans|]. intros Hr Hok Hdir. exists z, (unix_nanos_now (w_unix w0)). split; [done|].
  destruct (T0 Hok) as [Hok0 _ _ _ _ D0]. split; [apply unix_nanos_now_i64|]. apply S1; [done|done|by eapply durable_dir_mono].
Qed.

(** ** Confirming *)

Lemma exists_touches own p w b w' : exists_ p w = (b, w') → touches own (w_fs w) (w_fs w').
Proof.
  unfold exists_. destruct (try_exists p w) as [r w1] eqn:E. apply try_exists_spec in E as (_ & D & _ & F & N & _).
  intros H. assert (w1 = w') as <- by (destruct r; by injection H). by apply touches_same.
Qed.

Lemma remove_file_Ok p w w' : remove_file p w = (Ok tt, w') → fs_live (w_fs w') !! p = None.
Proof.
  unfold remove_file. intros H. apply guarded_spec in H as (w1 & _ & _ & L & _ & _ & _ & _ & _ & _ & [[_ [? ?]]|H]);
    [done|]. cbv beta in H. destruct (fs_live (w_fs w1) !! p); [|done]. injection H as <-. apply lookup_delete_eq.
Qed.

Lemma delete_confirmed_spec p w out w' :
  delete_confirmed_segment p w = (out, w') →
  touches (λ q, q = p) (w_fs w) (w_fs w') ∧ out ≠ SidecarFailed.
Proof.
  unfold delete_confirmed_segment. destruct (remove_file p w) as [r w1] eqn:E.
  apply (remove_touches (λ q, q = p)) in E; [|done].
  intros H. destruct r as [|[]]; injection H as <- <-; done.
Qed.

(** The segment is removed only behind a safe sidecar; without one it is not touched. *)
Lemma confirm_spec d k n w out w' :
  confirm_and_delete (sealed_seg d k) n w = (out, w') → fs_ok (w_fs w) → d ≠ [] → forallb utf8_valid d = true →
  durable_dir (w_fs w) d →
  (touches (sidecar_own (sealed_seg d k)) (w_fs w) (w_fs w') ∨
   touches (confirm_own (sealed_seg d k)) (w_fs w) (w_fs w') ∧ sidecar_safe (w_fs w') (sealed_seg d k) n) ∧
  (out = SidecarFailed → touches (sidecar_own (sealed_seg d k)) (w_fs w) (w_fs w')) ∧
  (out = DeleteFailed → sidecar_safe (w_fs w') (sealed_seg d k) n).
Proof.
  intros H Hok Hd Hu Hdir. unfold confirm_and_delete in H. destruct (exists_ _ w) as [b w1] eqn:E.
  apply (exists_touches (sidecar_own (sealed_seg d k))) in E as T1. destruct b; cbn [negb] in H.
  2: { injection H as <- <-. split; [by left|done]. }
  assert (Hpar : parent (confirmed_path_for (sealed_seg d k)) ≠ [])
    by (by rewrite confirmed_segment_path, parent_snoc).
  destruct (write_confirmed_file _ n w1) as [r w2] eqn:Ew.
  apply (write_confirmed_spec (sidecar_own (sealed_seg d k))) in Ew as [T2 S2]; [|done|done].
  assert (T : touches (sidecar_own (sealed_seg d k)) (w_fs w) (w_fs w2)) by (by etrans).
  destruct r as [[]|e]; [|injection H as <- <-; split; [by left|done]].
  destruct (T1 Hok) as [Hok1 _ _ _ _ D1]. rewrite confirmed_segment_path, parent_snoc in S2 by done.
  specialize (S2 eq_refl Hok1 (durable_dir_mono _ _ _ D1 Hdir)).
  apply delete_confirmed_spec in H as [T3 Hout]. cbn in T3.
  assert (Hsafe : sidecar_safe (w_fs w') (sealed_seg d k) n).
  { destruct S2 as (za & zd & ? & ? & S2). exists za, zd. split; [done|]. split; [done|].
    pose proof (tc_ok _ _ _ (T Hok)) as Hok2. apply (tc_safe _ _ _ (T3 Hok2)); [|done].
    by destruct (sidecar_not_segment d d k k (confirmed_path_for (sealed_seg d k)) Hu (or_introl eq_refl)). }
  split; [right; split; [|done]|split; [by intros ->|done]].
  etrans; eapply touches_weaken; [|exact T| |exact T3]; unfold confirm_own; [tauto|]. intros q ->. by left.
Qed.

(** With a safe sidecar, the scan of any later start reads the segment as confirmed. *)
Lemma sidecar_confirms s p n wab w :
  sidecar_safe s p n → is_u64 n → crash s (w_fs w) → fs_tape (w_fs w) = [] →
  check_confirmed p wab w = (Ok true, w).
Proof.
  intros (za & zd & Ha & Hd & Hs) Hn Hcr Ht. eapply crash_safe in Hs; [|done|exact Hcr].
  destruct Hs as (i & node & [Hl _ _ _] & Hi & Hdata & _).
  unfold check_confirmed, exists_, try_exists, guarded, pop_fault. rewrite Ht. cbv beta iota zeta.
  rewrite Hl, (bool_decide_eq_true_2 (is_Some (Some i))) by done. cbn [orb negb].
  unfold fs_read, io_bind, open_read, pop_fault. rewrite Ht, Hl. cbn [mbind option_bind]. rewrite Hi. cbn [st_bad st_data].
  unfold io_ok. rewrite Hdata, parse_build_confirmed; done.
Qed.
Lemma touched_segment own s s' d k i c ss :
  touched own s s' → ¬ own (segment_path d k) → ¬ own (sealed_seg d k) →
  segment_durable s d k i c ss → segment_durable s' d k i c ss.
Proof.
  intros [_ _ _ _ G _] Ha Hs (Hk & Hss & Hl & hb & hd & Hp & Hc & Hh).
  destruct (G _ _ _ _ Ha Hs Hl Hh). split; [done|]. split; [done|]. split; [done|]. by exists hb, hd.
Qed.

(** The bytes at a name, if it is the name of a file. *)
Definition contents s (p : path) : option bytes := f_data <$> (fs_live s !! p ≫= λ i, fs_files s !! i).

Lemma touched_contents own s s' p : fs_ok s → touched own s s' → ¬ own p → contents s' p = contents s p.
Proof.
  intros (_ & Hok & _) T Hp. unfold contents. rewrite (tc_live _ _ _ T p Hp).
  destruct (fs_live s !! p) as [i|] eqn:E; [|done]. cbn. destruct (Hok _ _ E) as [n Hn].
  destruct (tc_data _ _ _ T p i n Hp E Hn) as (n' & Hn' & Hd). rewrite Hn, Hn'. cbn. by rewrite Hd.
Qed.

End ConfirmFacts.

(** ** Witnesses *)

Module ConfirmWitness.
#[local] Existing Instance Crc32Ieee.ieee.
#[local] Existing Instance ZstdRaw.raw.
#[local] Existing Instance Crc32Ieee.ieee_laws.
#[local] Existing Instance ZstdRaw.raw_laws.
Import RecoveryWitness ScanWitness.

Lemma sealed_disk_ok tape : fs_ok (w_fs (sealed_disk None tape)).
Proof.
  split; [apply torn_disk_wf|]. split; cbn.
  - intros p i [<- <-]%lookup_singleton_Some. rewrite lookup_singleton_eq. by eexists.
  - intros p q i [<- _]%lookup_singleton_Some [<- _]%lookup_singleton_Some. done.
Qed.

(** The delete fails: the sidecar is durable and the segment is still there. *)
Definition delete_fault : World := sealed_disk None (replicate 8 FOk ++ [FErr 0 OtherError]).


(** A stat of the segment that fails counts as a segment that is gone: the confirm reports
    [ConfirmDone] with the segment in place and no sidecar. *)
Example confirm_done_without_sidecar :
  let '(out, w') := confirm_and_delete sealed1 1 (sealed_disk None [FErr 0 (OsError 5)]) in
  out = ConfirmDone ∧ fs_live (w_fs w') !! sealed1 = Some 1%positive ∧
  fs_live (w_fs w') !! confirmed_path_for sealed1 = None ∧ w_metrics w' DrainConfirmSidecarFailures = 0.
Proof. vm_compute. done. Qed.
End ConfirmWitness.
