(* ===== verification/DeadLetter.v ===== *)
(** * The dead-letter directory (weir-server, drain/dead_letter.rs)

    [DeadLetterWriter]: the records a sink rejects for good are sealed into segments of
    their own under [<wab_dir>/dead_letter/], counted against a cap. A write that returns
    has left a whole sealed segment that every crash preserves, under a counter that was
    never used before, and has been charged with its exact size. *)

From Stdlib Require Import ZArith Lia Strings.Byte String.
From stdpp Require Import base gmap list option sets.
From S2P Require Import Prelude Deps Wire Text Names Io Fs Durable Touch Format Reader Segment Recovery Scan Confirm.

(** [estimated_segment_bytes]. *)
Definition estimated_segment_bytes (records : list bytes) : Z :=
  let body := foldr (λ p n, 8 + blen p + n) 0 records in
  SEGMENT_HEADER_LEN + body + blen SENTINEL + SEGMENT_FOOTER_LEN.

Record DeadLetterWriter := mkDeadLetterWriter {
  dl_dir : path;
  dl_next_counter : Z;
  dl_total_bytes : Z;
  dl_dir_entry_durable : bool;
}.

Definition dl_set_total (d : DeadLetterWriter) (n : Z) : DeadLetterWriter :=
  mkDeadLetterWriter (dl_dir d) (dl_next_counter d) n (dl_dir_entry_durable d).
Definition dl_set_durable (d : DeadLetterWriter) (b : bool) : DeadLetterWriter :=
  mkDeadLetterWriter (dl_dir d) (dl_next_counter d) (dl_total_bytes d) b.
Definition dl_reserve (d : DeadLetterWriter) : DeadLetterWriter :=
  mkDeadLetterWriter (dl_dir d) (dl_next_counter d + 1) (dl_total_bytes d) (dl_dir_entry_durable d).

(** [dir.join(format!("dl_{counter:08}.wab"))]. *)
Definition dl_path (dir : path) (counter : Z) : path :=
  dir ++ [bstr "dl_" ++ dec_pad 8 counter ++ EXT_ACTIVE].

(** The part of a name before its first dot: [name.split('.').next()]. *)
Fixpoint before_dot (l : bytes) : bytes :=
  match l with
  | b :: l => if bool_decide (b = x2e) then [] else b :: before_dot l
  | [] => []
  end.

(** [entry.metadata()?.len()]; the length of a directory is what ext4 reports. *)
Definition entry_len (p : path) : io Z := guarded (λ w,
  match fs_live (w_fs w) !! p ≫= λ i, fs_files (w_fs w) !! i with
  | Some n => (Ok (blen (f_data n)), w)
  | None => if bool_decide (p ∈ dom (fs_dirs (w_fs w))) then (Ok 4096, w) else (Err NotFound, w)
  end).

(** The entries of a directory that may have been deleted. *)
Definition read_dir_of (d : path) : io (list path) := λ w,
  if bool_decide (d ∈ dom (fs_dirs (w_fs w))) then read_dir d w else guarded (λ w, (Err NotFound, w)) w.

(** The entry's name if it is valid text, and the empty string otherwise. *)
Definition dl_name (p : path) : bytes := default [] (file_name p ≫= to_str).

Fixpoint scan_entries (entries : list path) (total_bytes max_counter : Z) : io (Z * Z) :=
  match entries with
  | [] => io_ok (total_bytes, max_counter)
  | p :: entries =>
    match strip_prefix (bstr "dl_") (dl_name p) with
    | None => scan_entries entries total_bytes max_counter
    | Some after_prefix =>
      let! len := entry_len p in
      let max_counter := match parse_u64 (before_dot after_prefix) with
                         | Some counter => Z.max max_counter counter
                         | None => max_counter
                         end in
      scan_entries entries (saturating_add_u64 total_bytes len) max_counter
    end
  end.

(** [scan_dir]: the bytes of the dead-letter files and their largest counter. *)
Definition scan_dir (dir : path) : io (Z * Z) :=
  let! entries := read_dir_of dir in scan_entries entries 0 0.

(** [DeadLetterWriter::open]. *)
Definition dl_open (wab_dir : path) : io DeadLetterWriter :=
  let dir := wab_dir ++ [DEAD_LETTER] in
  let! _ := create_dir_private dir in
  let! (total_bytes, max_counter) := scan_dir dir in
  io_ok (mkDeadLetterWriter dir (max_counter + 1) total_bytes false).

(** [dir_is_missing]. *)
Definition dir_is_missing (d : DeadLetterWriter) (w : World) : bool * World :=
  match guarded (λ w, if bool_decide (dl_dir d ∈ dom (fs_dirs (w_fs w))) then (Ok tt, w) else (Err NotFound, w)) w with
  | (Err NotFound, w) => (true, w)
  | (_, w) => (false, w)
  end.

(** Operations of the writer: the result, the writer and the environment after it. *)
Definition dl_op : Type := DeadLetterWriter → World → result unit ErrorKind * DeadLetterWriter * World.

(** [make_dir_entry_durable]. *)
Definition make_dir_entry_durable : dl_op := λ d w,
  if dl_dir_entry_durable d then (Ok tt, d, w) else
  match fsync_parent_dir (dl_dir d) w with
  | (Err e, w) => (Err e, d, w)
  | (Ok _, w) => (Ok tt, dl_set_durable d true, w)
  end.

(** [create_dir]. *)
Definition dl_create_dir : dl_op := λ d w,
  let '(r, w) := create_dir_private (dl_dir d) w in (r, dl_set_durable d false, w).

(** [recreate_dir]. *)
Definition recreate_dir : dl_op := λ d w,
  match dl_create_dir d w with
  | (Err e, d, w) => (Err e, d, w)
  | (Ok _, d, w) => make_dir_entry_durable (dl_set_total d 0) w
  end.

(** [rescan]. *)
Definition dl_rescan : dl_op := λ d w,
  match scan_dir (dl_dir d) w with
  | (Ok (total_bytes, _), w) => (Ok tt, dl_set_total d total_bytes, w)
  | (Err NotFound, w) =>
    let '(missing, w) := dir_is_missing d w in
    if missing then recreate_dir d w else (Err NotFound, d, w)
  | (Err e, w) => (Err e, d, w)
  end.

(** [would_exceed_cap]. *)
Definition would_exceed_cap (d : DeadLetterWriter) (additional_bytes cap : Z) : bool :=
  cap <? saturating_add_u64 (dl_total_bytes d) additional_bytes.

Section DeadLetter.
Context {CRC : Crc32} {ZS : Zstd}.

(** [for payload in records { seg.write_record(payload)? }]. *)
Fixpoint write_each (seg : WabSegment) (records : list bytes) (w : World)
    : result unit ErrorKind * WabSegment * World :=
  match records with
  | [] => (Ok tt, seg, w)
  | payload :: records =>
    match wab_segment_write_record seg payload w with
    | (Err e, seg, w) => (Err e, seg, w)
    | (Ok _, seg, w) => write_each seg records w
    end
  end.

(** [WabSegment::create] in a directory that may have been deleted. *)
Definition create_in (dir p : path) (shard_id : Z) (c : Compression) : io WabSegment := λ w,
  if bool_decide (dir ∈ dom (fs_dirs (w_fs w))) then wab_segment_create p shard_id c w
  else guarded (λ w, (Err NotFound, w)) w.

(** [write_sealed]. *)
Definition write_sealed (records : list bytes) : dl_op := λ d w,
  let counter := dl_next_counter d in
  let d := dl_reserve d in
  match create_in (dl_dir d) (dl_path (dl_dir d) counter) 0xFFFF CNone w with
  | (Err e, w) => (Err e, d, w)
  | (Ok seg, w) =>
    match write_each seg records w with
    | (Err e, _, w) => (Err e, d, w)
    | (Ok _, seg, w) =>
      match wab_segment_seal seg w with
      | (Err e, w) => (Err e, d, w)
      | (Ok sealed, w) =>
        let '(file_bytes, w) := match entry_len sealed w with
                                | (Ok n, w) => (n, w)
                                | (Err _, w) => (estimated_segment_bytes records, w)
                                end in
        (Ok tt, dl_set_total d (saturating_add_u64 (dl_total_bytes d) file_bytes), w)
      end
    end
  end.

(** [write_records]. *)
Definition write_records (records : list bytes) : dl_op := λ d w,
  match records with
  | [] => (Ok tt, d, w)
  | _ =>
    match make_dir_entry_durable d w with
    | (Err e, d, w) => (Err e, d, w)
    | (Ok _, d, w) =>
      match write_sealed records d w with
      | (Err NotFound, d, w) =>
        let '(missing, w) := dir_is_missing d w in
        let recreate : dl_op := if missing then recreate_dir else λ d w,
          match dl_create_dir d w with
          | (Err e, d, w) => (Err e, d, w)
          | (Ok _, d, w) => make_dir_entry_durable d w
          end in
        match recreate d w with
        | (Err e, d, w) => (Err e, d, w)
        | (Ok _, d, w) => write_sealed records d w
        end
      | other => other
      end
    end
  end.
End DeadLetter.

(** ** Calls that create no directory *)

(** A call after which the directories are the ones there were before. *)
Class Roomless {A} (m : World → A * World) : Prop :=
  roomless w : dom (fs_dirs (w_fs (snd (m w)))) = dom (fs_dirs (w_fs w)).

#[export] Instance io_ok_roomless {A} (a : A) : Roomless (io_ok a).
Proof. by intros w. Qed.
#[export] Instance io_err_roomless {A} e : Roomless (@io_err A e).
Proof. by intros w. Qed.
#[export] Instance bind_roomless {A B} (m : io A) (f : A → io B) :
  Roomless m → (∀ a, Roomless (f a)) → Roomless (io_bind m f).
Proof.
  intros Hm Hf w. unfold io_bind. specialize (Hm w). destruct (m w) as [[a|e] w1]; [|done].
  cbn in *. rewrite <-Hm. apply Hf.
Qed.
#[export] Instance pop_fault_roomless : Roomless pop_fault.
Proof. intros w. unfold pop_fault. by destruct (fs_tape (w_fs w)). Qed.

Lemma guarded_roomless {A} (m : io A) : Roomless m → Roomless (guarded m).
Proof.
  intros Hm w. unfold guarded. pose proof (pop_fault_roomless w) as Hp. destruct (pop_fault w) as [f w1]. cbn in Hp.
  rewrite <-Hp. destruct f; [apply Hm..|done].
Qed.

(** A call by cases on the state, behind the device's fault. *)
Ltac roomless_call := apply guarded_roomless; let w := fresh "w" in intros w; cbv beta zeta; repeat case_match; done.
Ltac roomless_pop :=
  match goal with |- context [pop_fault ?w] =>
    let H := fresh in pose proof (pop_fault_roomless w) as H; destruct (pop_fault w) as [[] ?]; exact H end.

#[export] Instance create_new_roomless p : Roomless (create_new p).
Proof. roomless_call. Qed.
#[export] Instance write_all_roomless i b : Roomless (write_all i b).
Proof. intros w. unfold write_all. roomless_pop. Qed.
#[export] Instance write_vectored_roomless i b : Roomless (write_vectored i b).
Proof. intros w. unfold write_vectored. roomless_pop. Qed.
#[export] Instance sync_file_roomless i : Roomless (sync_file i).
Proof. intros w. unfold sync_file. roomless_pop. Qed.
#[export] Instance try_exists_roomless p : Roomless (try_exists p).
Proof. roomless_call. Qed.
#[export] Instance rename_roomless p q : Roomless (rename p q).
Proof. roomless_call. Qed.
#[export] Instance entry_len_roomless p : Roomless (entry_len p).
Proof. roomless_call. Qed.

Lemma lookup_sync_subdirs dir m p : sync_subdirs dir m !! p = (λ b, b || bool_decide (parent p = dir)) <$> m !! p.
Proof. unfold sync_subdirs. rewrite map_lookup_imap. by destruct (m !! p). Qed.

#[export] Instance sync_dir_roomless d : Roomless (sync_dir d).
Proof.
  apply guarded_roomless. intros w. cbn. apply set_eq. intros e. by rewrite !elem_of_dom, lookup_sync_subdirs, fmap_is_Some.
Qed.
#[export] Instance fsync_parent_roomless p : Roomless (fsync_parent_dir p).
Proof. unfold fsync_parent_dir. destruct (parent p); apply _. Qed.

Section RoomlessWrites.
Context {CRC : Crc32} {ZS : Zstd}.

#[export] Instance create_in_roomless dir p sid c : Roomless (create_in dir p sid c).
Proof.
  intros w. unfold create_in. destruct (bool_decide _).
  - revert w. change (Roomless (wab_segment_create p sid c)). unfold wab_segment_create. apply bind_roomless; [apply _|].
    intros i w. refine (bind_roomless _ _ _ _ w).
  - apply guarded_roomless. by intros w1.
Qed.

Lemma write_each_roomless seg records w :
  dom (fs_dirs (w_fs (snd (write_each seg records w)))) = dom (fs_dirs (w_fs w)).
Proof.
  revert seg w. induction records as [|x l IH]; intros seg w; [done|]. cbn [write_each].
  assert (Hw : ∀ r seg1 w1, wab_segment_write_record seg x w = (r, seg1, w1) → dom (fs_dirs (w_fs w1)) = dom (fs_dirs (w_fs w))).
  { intros r seg1 w1 H. unfold wab_segment_write_record in H.
    do 4 (match type of H with (if ?b then _ else _) = _ => destruct b; [by injection H as _ _ <-|] end).
    match type of H with context [write_vectored ?i ?b w] => pose proof (write_vectored_roomless i b w) as Hv; destruct (write_vectored i b w) as [[n|e] w2] end;
      cbn in Hv; [|by injection H as _ _ <-]. destruct (_ =? _); by injection H as _ _ <-. }
  destruct (wab_segment_write_record seg x w) as [[[u|e] seg1] w1]; [|by eapply Hw]. rewrite IH. by eapply Hw.
Qed.

#[export] Instance seal_roomless seg : Roomless (wab_segment_seal seg).
Proof.
  unfold wab_segment_seal. apply bind_roomless.
  - intros w. refine (bind_roomless _ _ _ _ w).
  - intros a. apply bind_roomless; [apply _|]. intros []; apply _.
Qed.

Lemma write_sealed_roomless records d w :
  dom (fs_dirs (w_fs (snd (write_sealed records d w)))) = dom (fs_dirs (w_fs w)).
Proof.
  unfold write_sealed. cbn [dl_reserve dl_dir].
  match goal with |- context [create_in ?a ?b ?c ?d w] => pose proof (create_in_roomless a b c d w) as H1; destruct (create_in a b c d w) as [[seg|e] w1] end;
    cbn in H1; [|done].
  pose proof (write_each_roomless seg records w1) as H2. destruct (write_each seg records w1) as [[[u|e] seg2] w2]; cbn in H2; [|cbn; congruence].
  pose proof (seal_roomless seg2 w2) as H3. destruct (wab_segment_seal seg2 w2) as [[p|e] w3]; cbn in H3; [|cbn; congruence].
  pose proof (entry_len_roomless p w3) as H4. destruct (entry_len p w3) as [[n|e] w4]; cbn in *; congruence.
Qed.
End RoomlessWrites.

(** ** Names *)

Definition dl_sealed (dir : path) (k : Z) : path := sealed_path_for (dl_path dir k).

(** The names of the counters from [lo] up to [hi]. *)
Definition dl_own (dir : path) (lo hi : Z) (p : path) : Prop :=
  ∃ k, lo ≤ k < hi ∧ (p = dl_path dir k ∨ p = dl_sealed dir k).

Lemma dl_path_eq dir k : dl_path dir k = dir ++ [(bstr "dl_" ++ dec_pad 8 k) ++ EXT_ACTIVE].
Proof. unfold dl_path. by rewrite <-app_assoc. Qed.

Lemma dl_sealed_eq dir k : dl_sealed dir k = dir ++ [(bstr "dl_" ++ dec_pad 8 k) ++ EXT_SEALED].
Proof. unfold dl_sealed. rewrite dl_path_eq. apply sealed_path_for_snoc. Qed.

Lemma parent_dl_sealed dir k : parent (dl_sealed dir k) = dir.
Proof. rewrite dl_sealed_eq. apply parent_snoc. Qed.

Lemma dl_sealed_inj dir j k : 0 ≤ j → 0 ≤ k → dl_sealed dir j = dl_sealed dir k → j = k.
Proof.
  intros Hj Hk. rewrite !dl_sealed_eq. intros [_ H]%app_inj_tail. apply app_inv_tail in H.
  apply app_inv_head in H. by apply (dec_pad_inj 8).
Qed.

Lemma dl_path_not_sealed dir e j k : dl_path dir j ≠ dl_sealed e k.
Proof. rewrite dl_path_eq, dl_sealed_eq. intros [_ H]%app_inj_tail. by apply active_suffix_not_sealed in H. Qed.

Lemma dl_own_sealed dir lo hi k : 0 ≤ lo → 0 ≤ k → ¬ lo ≤ k < hi → ¬ dl_own dir lo hi (dl_sealed dir k).
Proof.
  intros Hlo Hk Hn (j & Hj & [H|H]); [by apply eq_sym, dl_path_not_sealed in H|].
  apply dl_sealed_inj in H; [|lia|lia]. subst. lia.
Qed.

Lemma dl_own_mono dir lo hi lo' hi' p : lo' ≤ lo → hi ≤ hi' → dl_own dir lo hi p → dl_own dir lo' hi' p.
Proof. intros ? ? (k & ? & ?). exists k. split; [lia|done]. Qed.

(** Dead-letter names are in the dead-letter directory, and never a segment's. *)
Lemma dl_own_parent dir lo hi p : dl_own dir lo hi p → parent p = dir.
Proof.
  intros (k & _ & [->| ->]); [rewrite dl_path_eq; apply parent_snoc|apply parent_dl_sealed].
Qed.

(** ** Writing *)

Section DeadLetterFacts.
Context {CRC : Crc32} {CL : Crc32Laws} {ZS : Zstd} {ZL : ZstdLaws}.
Implicit Types (s : Fs) (d : DeadLetterWriter) (dir p : path) (k : Z) (records : list bytes).

(** Counter [k] of the directory holds [records] in a sealed segment that every crash
    preserves. *)
Definition dead_lettered s dir k records : Prop :=
  ∃ hb hd sealed_at, parse_segment_header hb = Ok hd ∧ sh_compression hd = CNone ∧ is_i64 sealed_at ∧
    Forall (storable CNone) records ∧ safe_file s (dl_sealed dir k) (sealed_bytes hb records sealed_at).

Lemma segment_create_touches (own : path → Prop) p sid c w r w' :
  wab_segment_create p sid c w = (r, w') → own p → fs_ok (w_fs w) → touches own (w_fs w) (w_fs w').
Proof.
  intros H Hp Hok. unfold wab_segment_create in H.
  apply io_bind_inv in H as [(e & H & ->)|(i & w1 & H & Hg)];
    pose proof (create_new_touches own _ _ _ _ H Hp) as T1; [done|]. cbv beta zeta in Hg.
  destruct (create_new_spec _ _ _ _ H (proj1 Hok)) as (_ & _ & Hl). destruct (Hl i eq_refl) as (_ & _ & _ & L1).
  etrans; [exact T1|].
  apply io_bind_inv in Hg as [(e & H' & ->)|([] & w2 & H' & Hg)];
    pose proof (write_all_touches own _ _ _ _ _ _ H' Hp L1) as T2; [done|]. etrans; [exact T2|].
  apply io_bind_inv in Hg as [(e & H2 & ->)|([] & w3 & H2 & Hg)];
    pose proof (fsync_parent_touches own _ _ _ _ H2) as T3; [done|]. by injection Hg as _ <-.
Qed.

Lemma write_record_touches (own : path → Prop) p seg x w r seg' w' :
  wab_segment_write_record seg x w = (r, seg', w') → own p → fs_live (w_fs w) !! p = Some (seg_file seg) →
  touches own (w_fs w) (w_fs w').
Proof.
  intros H Hp Hl. unfold wab_segment_write_record in H.
  destruct (seg_poisoned seg); [by injection H as _ _ <-|]. destruct (_ =? 0); [by injection H as _ _ <-|].
  destruct (u32_max <? _); [by injection H as _ _ <-|]. destruct (stored_cap _ <? _); [by injection H as _ _ <-|].
  destruct (write_vectored _ _ w) as [[n|e] w1] eqn:E; apply (write_vectored_touches own p) in E; try done.
  - destruct (_ =? _); by injection H as _ _ <-.
  - by injection H as _ _ <-.
Qed.

(** All the records, or an error; a record the format cannot hold is an error. *)
Lemma write_each_spec (own : path → Prop) p seg ss records w r seg' w' :
  write_each seg records w = (r, seg', w') → own p → fs_live (w_fs w) !! p = Some (seg_file seg) →
  seg_content (w_fs w) seg ss → seg_compression seg = CNone →
  touches own (w_fs w) (w_fs w') ∧
  (r = Ok tt → seg_content (w_fs w') seg' (ss ++ records) ∧ seg_path seg' = seg_path seg ∧
     seg_compression seg' = CNone ∧ fs_live (w_fs w') !! p = Some (seg_file seg')).
Proof.
  intros H Hp. revert seg ss w H. induction records as [|x records IH]; intros seg ss w H Hl Hc Hz;
    cbn [write_each] in H.
  { injection H as <- <- <-. split; [done|]. intros _. by rewrite app_nil_r. }
  destruct (wab_segment_write_record seg x w) as [[r1 seg1] w1] eqn:E.
  pose proof (write_record_touches own p _ _ _ _ _ _ E Hp Hl) as T1.
  destruct (write_record_content _ _ _ _ _ _ _ E Hc) as (_ & (D1 & _) & Hok); [rewrite Hz; by eexists|].
  destruct r1 as [[]|e]; [|by injection H as <- <- <-].
  destruct (Hok eq_refl) as (Hc1 & Hp1 & Hz1 & Hf1).
  destruct (IH seg1 (ss ++ [x]) w1 H) as [T2 Hok2]; [by rewrite D1, Hf1|done|congruence|].
  split; [by etrans|]. intros Hr. destruct (Hok2 Hr) as (Hc2 & Hp2 & Hz2 & Hl2).
  rewrite <-app_assoc in Hc2. split; [done|]. split; [congruence|]. done.
Qed.

Lemma write_each_storable (own : path → Prop) p seg ss records w r seg' w' :
  write_each seg records w = (r, seg', w') → seg_content (w_fs w) seg ss → seg_compression seg = CNone →
  own p → fs_live (w_fs w) !! p = Some (seg_file seg) → r = Ok tt → Forall (storable CNone) (ss ++ records).
Proof.
  intros H Hc Hz Hp Hl ->. destruct (write_each_spec own p _ _ _ _ _ _ _ H Hp Hl Hc Hz) as [_ Hok].
  destruct (Hok eq_refl) as (Hc' & _ & Hz' & _). pose proof (sc_storable _ _ _ Hc') as Hs. rewrite Hz' in Hs.
  by apply stored_rec_storable.
Qed.

(** Sealing: a success leaves the whole file safe under the sealed name, in a directory that
    is durable. *)
Lemma seal_touches (own : path → Prop) seg ss w r w' :
  wab_segment_seal seg w = (r, w') → own (seg_path seg) → own (sealed_path_for (seg_path seg)) →
  fs_live (w_fs w) !! seg_path seg = Some (seg_file seg) → seg_content (w_fs w) seg ss →
  parent (sealed_path_for (seg_path seg)) ≠ [] →
  fs_ok (w_fs w) → durable_dir (w_fs w) (parent (sealed_path_for (seg_path seg))) →
  touches own (w_fs w) (w_fs w') ∧
  ∀ p, r = Ok p → p = sealed_path_for (seg_path seg) ∧ ∃ hb hd sealed_at,
    parse_segment_header hb = Ok hd ∧ sh_compression hd = seg_compression seg ∧ is_i64 sealed_at ∧
    safe_file (w_fs w') p (sealed_bytes hb ss sealed_at).
Proof.
  intros H Ha Hs Hl Hc Hp Hfs Hdir. unfold wab_segment_seal in H.
  assert (Tf : ∀ r0 w0, wab_segment_finalize_to_disk seg w = (r0, w0) → touches own (w_fs w) (w_fs w0)).
  { clear H. intros r0 w0 H. unfold wab_segment_finalize_to_disk in H.
    apply io_bind_inv in H as [(e & H & ->)|([] & w1 & H & Hg)];
      pose proof (write_all_touches own _ _ _ _ _ _ H Ha Hl) as T1; [done|]. etrans; [exact T1|].
    apply write_all_spec in H as (_ & _ & (L1 & _) & _). rewrite <-L1 in Hl.
    apply io_bind_inv in Hg as [(e & H & ->)|([] & w2 & H & Hg)];
      pose proof (write_all_touches own _ _ _ _ _ _ H Ha Hl) as T2; [done|]. etrans; [exact T2|].
    apply io_bind_inv in Hg as [(e & H' & ->)|([] & w3 & H' & Hg)];
      pose proof (sync_file_touches own _ _ _ _ H') as T3; [done|]. by injection Hg as _ <-. }
  apply io_bind_inv in H as [(e & H & ->)|(a & w1 & H & Hg)]; pose proof (Tf _ _ H) as T1; [done|].
  destruct (finalize_content _ _ _ _ _ H Hc) as (_ & (L1 & _) & Hok).
  destruct (Hok a eq_refl) as (-> & hb & hd & Hn & Hh & Hz). clear Hok Tf.
  apply io_bind_inv in Hg as [(e & Ht & ->)|(x & w2 & Ht & Hg)];
    destruct (try_exists_spec _ _ _ _ Ht) as (_ & D2 & _ & F2 & N2 & _);
    pose proof (touches_same own w1 _ D2 F2 N2) as T2; [split; [by etrans|done]|].
  destruct x; [injection Hg as <- <-; split; [by etrans|done]|].
  apply io_bind_inv in Hg as [(e & Hr & ->)|([] & w3 & Hr & Hg)];
    pose proof (rename_touches own _ _ _ _ _ Hr Ha Hs) as T3; [split; [do 2 (etrans; [done|]); done|done]|].
  destruct D2 as (L2 & _).
  pose proof (rename_Ok _ _ _ _ (seg_file seg) Hr ltac:(congruence)) as L3.
  apply rename_spec in Hr as (_ & _ & F3 & _).
  apply io_bind_inv in Hg as [(e & Hf & ->)|([] & w4 & Hf & Hg)];
    pose proof (fsync_parent_touches own _ _ _ _ Hf) as T4; [split; [do 3 (etrans; [done|]); done|done]|].
  injection Hg as <- <-. split; [do 3 (etrans; [done|]); done|]. intros p [= <-]. split; [done|].
  exists hb, hd, (unix_nanos_now (w_unix w)). split; [done|]. split; [done|]. split; [apply unix_nanos_now_i64|].
  assert (T03 : touches own (w_fs w) (w_fs w3)) by (do 2 (etrans; [done|]); done).
  apply (durable_dir_mono _ _ _ (tc_dirs _ _ _ (T03 Hfs))) in Hdir.
  rewrite <-F2, <-F3 in Hn. by apply (synced_safe w3 w4 _ _ _ L3 Hn eq_refl Hp Hdir Hf).
Qed.

Lemma entry_len_spec p w r w' :
  entry_len p w = (r, w') → quiet w w' ∧
  ∀ n i node, r = Ok n → fs_live (w_fs w) !! p = Some i → fs_files (w_fs w) !! i = Some node → n = blen (f_data node).
Proof.
  unfold entry_len. intros H. split.
  - eapply guarded_quiet; [|exact H]. intros w1. cbv beta. destruct (_ ≫= _); [eauto|]. destruct (bool_decide _); eauto.
  - intros n i node -> Hi Hn. apply guarded_spec in H as (w1 & _ & F & L & _ & _ & _ & _ & _ & _ & [[_ [? ?]]|H]); [done|].
    rewrite L, Hi in H. cbn in H. rewrite F, Hn in H. by injection H as <- _.
Qed.

(** The estimate is the size of the sealed file, to the byte. *)
Lemma estimated_exact hb hd records sealed_at :
  parse_segment_header hb = Ok hd → estimated_segment_bytes records = blen (sealed_bytes hb records sealed_at).
Proof.
  intros Hh. unfold estimated_segment_bytes, sealed_bytes. rewrite !blen_app.
  assert (blen hb = SEGMENT_HEADER_LEN) as -> by (apply parse_segment_header_inv in Hh as [Hl _]; unfold blen; by rewrite Hl).
  change (blen (build_segment_footer _ _ _ _)) with SEGMENT_FOOTER_LEN.
  assert (Hf : foldr (λ (x : bytes) n, 8 + blen x + n) 0 records = blen (frames records)).
  { induction records as [|x l IH]; [done|]. cbn [foldr]. rewrite IH. unfold frames. cbn [map concat].
    rewrite blen_app, blen_frame. lia. }
  rewrite Hf. lia.
Qed.

(** [dir_entry_durable] tells the truth: once it is set, the directory, if it is there, has
    a durable entry in its parent, which is durable itself. *)
Definition dl_sound s d : Prop :=
  parent (dl_dir d) ≠ [] ∧ durable_dir s (parent (dl_dir d)) ∧
  (dl_dir_entry_durable d = true → fs_dirs s !! dl_dir d ≠ Some false).

(** Moreover the directory is there. *)
Definition dl_housed s d : Prop :=
  parent (dl_dir d) ≠ [] ∧ durable_dir s (parent (dl_dir d)) ∧ dl_dir d ∈ dom (fs_dirs s) ∧
  (dl_dir_entry_durable d = true → fs_dirs s !! dl_dir d = Some true).

Lemma dl_housed_sound s d : dl_housed s d → dl_sound s d.
Proof. intros (? & ? & _ & H). split; [done|]. split; [done|]. intros Hf. by rewrite (H Hf). Qed.

Lemma dl_housed_mono s s' d d' :
  dirs_le (fs_dirs s) (fs_dirs s') → dl_dir d' = dl_dir d →
  (dl_dir_entry_durable d' = true → dl_dir_entry_durable d = true) → dl_housed s d → dl_housed s' d'.
Proof.
  intros Hle Hd Hf (Hp & Hdir & Hin & Ht). rewrite <-Hd in *. split; [done|]. split; [by eapply durable_dir_mono|].
  split; [by eapply dirs_le_dom|]. intros Hf'. destruct (Hle _ _ (Ht (Hf Hf'))) as (b & Hb & I). by rewrite I in Hb.
Qed.

Lemma dl_sound_mono s s' d d' :
  dirs_le (fs_dirs s) (fs_dirs s') → dom (fs_dirs s') = dom (fs_dirs s) → dl_dir d' = dl_dir d →
  (dl_dir_entry_durable d' = true → dl_dir_entry_durable d = true) → dl_sound s d → dl_sound s' d'.
Proof.
  intros Hle Hdom Hd Hf (Hp & Hdir & Ht). rewrite <-Hd in *. split; [done|]. split; [by eapply durable_dir_mono|].
  intros Hf' E. assert (Hin : dl_dir d' ∈ dom (fs_dirs s)) by (rewrite <-Hdom; apply elem_of_dom; by eexists).
  apply elem_of_dom in Hin as [b Hb]. destruct (Hle _ _ Hb) as (b' & Hb' & I). destruct b; [naive_solver|].
  by apply (Ht (Hf Hf')).
Qed.

(** A directory whose entry is durable, in a durable parent. *)
Lemma durable_entry s p : p ≠ [] → durable_dir s (parent p) → fs_dirs s !! p = Some true → durable_dir s p.
Proof.
  intros Hne. destruct p as [|l x _] using rev_ind; [done|]. rewrite parent_snoc. intros ? ?. by apply durable_dir_snoc.
Qed.

Lemma dl_housed_intro s d :
  parent (dl_dir d) ≠ [] → durable_dir s (dl_dir d) → dl_housed s d.
Proof.
  intros Hp Hd. assert (Hdir : durable_dir s (parent (dl_dir d)) ∧ fs_dirs s !! dl_dir d = Some true).
  { destruct (dl_dir d) as [|l x _] using rev_ind; [done|]. rewrite parent_snoc. by apply durable_dir_snoc. }
  destruct Hdir as [Hdir Ht]. split; [done|]. split; [done|]. split; [|done]. apply elem_of_dom. by eexists.
Qed.

Lemma dl_sound_durable s d :
  dl_sound s d → dl_dir_entry_durable d = true → dl_dir d ∈ dom (fs_dirs s) → durable_dir s (dl_dir d).
Proof.
  intros (Hp & Hdir & Hf) Hfl [b Hb]%elem_of_dom. apply durable_entry; [by intros E; rewrite E in Hp|done|].
  specialize (Hf Hfl). destruct b; [done|congruence].
Qed.

Lemma create_in_touches (own : path → Prop) dir p sid c w r w' :
  create_in dir p sid c w = (r, w') → own p → fs_ok (w_fs w) → is_u16 sid →
  touches own (w_fs w) (w_fs w') ∧
  ∀ seg, r = Ok seg → seg_content (w_fs w') seg [] ∧ seg_compression seg = c ∧ seg_path seg = p ∧
    fs_live (w_fs w') !! p = Some (seg_file seg) ∧ dir ∈ dom (fs_dirs (w_fs w)).
Proof.
  unfold create_in. intros H Hp Hok Hs. destruct (bool_decide_reflect (dir ∈ dom (fs_dirs (w_fs w)))).
  - split; [by eapply segment_create_touches|]. intros seg Hseg.
    destruct (create_content _ _ _ _ _ _ H (proj1 Hok) Hs seg Hseg) as (? & ? & ? & ?). done.
  - split; [|intros seg ->; apply guarded_spec in H as (? & _ & _ & _ & _ & _ & _ & _ & _ & _ & [[_ [? ?]]|H]); done].
    eapply guarded_touches; [exact H|]. by intros w1 r' [= _ <-].
Qed.

Lemma write_sealed_spec records d w r d' w' :
  write_sealed records d w = (r, d', w') → fs_ok (w_fs w) → dl_sound (w_fs w) d → dl_dir_entry_durable d = true →
  dl_dir d' = dl_dir d ∧ dl_next_counter d' = dl_next_counter d + 1 ∧
  dl_dir_entry_durable d' = dl_dir_entry_durable d ∧
  touches (dl_own (dl_dir d) (dl_next_counter d) (dl_next_counter d + 1)) (w_fs w) (w_fs w') ∧
  match r with
  | Ok _ => dead_lettered (w_fs w') (dl_dir d) (dl_next_counter d) records ∧
            dl_total_bytes d' = saturating_add_u64 (dl_total_bytes d) (estimated_segment_bytes records)
  | Err _ => dl_total_bytes d' = dl_total_bytes d
  end.
Proof.
  intros H Hok Hsd Hfl. assert (Hd : dl_dir d ≠ []) by (destruct Hsd as [Hp _]; by intros E; rewrite E in Hp).
  unfold write_sealed in H. cbn [dl_reserve dl_dir] in H. set (k := dl_next_counter d) in *.
  set (own := dl_own (dl_dir d) k (k + 1)).
  assert (Ha : own (dl_path (dl_dir d) k)) by (exists k; split; [lia|by left]).
  assert (Hs : own (dl_sealed (dl_dir d) k)) by (exists k; split; [lia|by right]).
  destruct (create_in _ _ _ _ w) as [[seg|e] w1] eqn:E1;
    destruct (create_in_touches own _ _ _ _ _ _ _ E1 Ha Hok) as [T1 C1]; try done; [|by injection H as <- <- <-].
  destruct (C1 seg eq_refl) as (Hc & Hz & Hpath & Hl & Hin). clear C1 E1.
  pose proof (dl_sound_durable _ _ Hsd Hfl Hin) as Hdur.
  destruct (write_each seg records w1) as [[r2 seg2] w2] eqn:E2.
  destruct (write_each_spec own _ _ _ _ _ _ _ _ E2 Ha Hl Hc Hz) as [T2 C2].
  pose proof (write_each_storable own _ _ _ _ _ _ _ _ E2 Hc Hz Ha Hl) as St. cbn [app] in *.
  destruct r2 as [[]|e]; [|by injection H as <- <- <-; do 3 (split; [done|]); split; [etrans|]].
  destruct (C2 eq_refl) as (Hc2 & Hp2 & Hz2 & Hl2). clear C2 E2. specialize (St eq_refl).
  rewrite Hpath in Hp2. rewrite <-Hp2 in Hl2.
  destruct (wab_segment_seal seg2 w2) as [r3 w3] eqn:E3.
  assert (T02 : touched own (w_fs w) (w_fs w2)) by (assert (T' : touches own (w_fs w) (w_fs w2)) by (by etrans); by apply T').
  assert (Hpar : parent (sealed_path_for (seg_path seg2)) = dl_dir d) by (rewrite Hp2; apply parent_dl_sealed).
  apply (seal_touches own _ records) in E3 as [T3 C3];
    [|by rewrite Hp2..|done|done|by rewrite Hpar|by apply tc_ok in T02|rewrite Hpar; eapply durable_dir_mono, Hdur; by apply tc_dirs in T02].
  assert (T : touches own (w_fs w) (w_fs w3)) by (do 2 (etrans; [done|]); done).
  destruct r3 as [p|e]; [|by injection H as <- <- <-].
  destruct (C3 p eq_refl) as (Hp & hb & hd & za & Hh & Hzc & Hi & Hsafe). rewrite Hp2 in Hp.
  change (p = dl_sealed (dl_dir d) k) in Hp. subst p. clear C3.
  destruct (entry_len _ w3) as [r4 w4] eqn:E4. apply entry_len_spec in E4 as [Q4 Len].
  assert (T4 : touches own (w_fs w3) (w_fs w4)) by (by apply quiet_touches).
  assert (Hdl : dead_lettered (w_fs w4) (dl_dir d) k records).
  { exists hb, hd, za. rewrite Hzc, Hz2. do 4 (split; [done|]).
    destruct Hsafe as (i & n & [P1 P2 P3 P4] & Hn & Hsy). destruct Q4 as (Hle & (A & B & D & _) & F & _).
    exists i, n. split; [constructor; try congruence; eapply durable_dir_mono, P4; apply (le_dirs _ _ _ Hle)|].
    split; [congruence|done]. }
  assert (Hlen : ∀ n, r4 = Ok n → n = estimated_segment_bytes records).
  { intros n Hr. destruct Hsafe as (i & node & [P1 _ _ _] & Hn & Hdata & _). rewrite (estimated_exact hb hd _ za Hh), <-Hdata.
    by eapply Len. }
  destruct r4 as [n|e]; injection H as <- <- <-; (do 3 (split; [done|])); (split; [by etrans|]); (split; [done|]); cbn;
    [by rewrite (Hlen n eq_refl)|done].
Qed.

(** The writer's other steps keep its directory and counter, touch no file, and keep
    [dir_entry_durable] true to the disk. *)
Definition dl_steady (f : dl_op) : Prop := ∀ own d w r d' w', f d w = (r, d', w') →
  dl_dir d' = dl_dir d ∧ dl_next_counter d' = dl_next_counter d ∧ touches own (w_fs w) (w_fs w') ∧
  (fs_ok (w_fs w) → dl_housed (w_fs w) d → dl_housed (w_fs w') d').


Lemma make_durable_steady : dl_steady make_dir_entry_durable.
Proof.
  intros own d w r d' w' H. unfold make_dir_entry_durable in H.
  destruct (dl_dir_entry_durable d) eqn:Ef; [by injection H as <- <- <-|].
  destruct (fsync_parent_dir (dl_dir d) w) as [[u|e] w1] eqn:E; pose proof (fsync_parent_touches own _ _ _ _ E) as T;
    injection H as <- <- <-; (split; [done|]); (split; [done|]); (split; [done|]).
  - intros Hok (Hp & Hdir & Hin & _). apply fsync_parent_dir_spec in E as (_ & _ & _ & _ & _ & Hle & Hs).
    destruct u. destruct (Hs eq_refl Hp) as [Hd _]. split; [done|]. split; [by eapply durable_dir_mono|].
    split; [by eapply dirs_le_dom|]. intros _. cbn [dl_set_durable dl_dir]. rewrite Hd, lookup_sync_subdirs.
    apply elem_of_dom in Hin as [b ->]. cbn. by rewrite bool_decide_eq_true_2, orb_true_r.
  - intros Hok. apply dl_housed_mono; [apply (tc_dirs _ _ _ (T Hok))|done|done].
Qed.

Lemma make_durable_Ok d w d' w' : make_dir_entry_durable d w = (Ok tt, d', w') →
  dl_dir_entry_durable d' = true ∧ dl_total_bytes d' = dl_total_bytes d ∧
  (dl_sound (w_fs w) d → dl_sound (w_fs w') d').
Proof.
  unfold make_dir_entry_durable. destruct (dl_dir_entry_durable d) eqn:E; [by intros [= <- <-]|].
  destruct (fsync_parent_dir _ w) as [[[]|e] w1] eqn:Ef; [|done]. intros [= <- <-]. split; [done|]. split; [done|].
  intros (Hp & Hdir & _). apply fsync_parent_dir_spec in Ef as (_ & _ & _ & _ & _ & Hle & Hs).
  destruct (Hs eq_refl Hp) as [Hd _]. split; [done|]. split; [by eapply durable_dir_mono|]. intros _.
  cbn [dl_set_durable dl_dir]. rewrite Hd, lookup_sync_subdirs. destruct (fs_dirs (w_fs w) !! dl_dir d); cbn; [|done].
  by rewrite bool_decide_eq_true_2, orb_true_r.
Qed.

Lemma create_dir_steady : dl_steady dl_create_dir.
Proof.
  intros own d w r d' w' H. unfold dl_create_dir, create_dir_private in H.
  destruct (io_bind _ _ w) as [r1 w1] eqn:E. injection H as <- <- <-. split; [done|]. split; [done|].
  assert (T : touches own (w_fs w) (w_fs w1)).
  { apply io_bind_inv in E as [(e & E & _)|([] & w2 & E & Hg)]; pose proof (create_dir_touches own _ _ _ _ E) as T1; [done|].
    etrans; [exact T1|]. eapply quiet_touches, guarded_quiet; [|exact Hg]. eauto. }
  split; [done|]. intros Hok. apply dl_housed_mono; [apply (tc_dirs _ _ _ (T Hok))|done|done].
Qed.

Lemma dl_steady_then (f g : dl_op) (h : DeadLetterWriter → DeadLetterWriter) :
  dl_steady f → dl_steady g →
  (∀ d, dl_dir (h d) = dl_dir d ∧ dl_next_counter (h d) = dl_next_counter d ∧
        dl_dir_entry_durable (h d) = dl_dir_entry_durable d) →
  dl_steady (λ d w, match f d w with (Err e, d, w) => (Err e, d, w) | (Ok _, d, w) => g (h d) w end).
Proof.
  intros Hf Hg Hh own d w r d' w' H. destruct (f d w) as [[[[]|e] d1] w1] eqn:E;
    destruct (Hf own _ _ _ _ _ E) as (D1 & N1 & T1 & S1); [|by injection H as <- <- <-].
  destruct (Hg own _ _ _ _ _ H) as (D2 & N2 & T2 & S2). destruct (Hh d1) as (Hd & Hn & Hb).
  split; [congruence|]. split; [congruence|]. split; [by etrans|]. intros Hok Hho. apply S2; [by apply (tc_ok _ _ _ (T1 Hok))|].
  eapply dl_housed_mono; [done|done|by rewrite Hb|by apply S1].
Qed.

Lemma recreate_steady : dl_steady recreate_dir.
Proof. apply (dl_steady_then dl_create_dir); [apply create_dir_steady|apply make_durable_steady|done]. Qed.

Lemma dir_missing_touches own d w b w' : dir_is_missing d w = (b, w') → touches own (w_fs w) (w_fs w').
Proof.
  unfold dir_is_missing. destruct (guarded _ w) as [r w1] eqn:E. intros H.
  apply guarded_quiet in E; [|intros w0; cbv beta; destruct (bool_decide _); eauto].
  apply (quiet_touches own) in E. by destruct r as [|[]]; injection H as _ <-.
Qed.

Lemma make_durable_Err d w e d' w' :
  make_dir_entry_durable d w = (Err e, d', w') → d' = d ∧ dom (fs_dirs (w_fs w')) = dom (fs_dirs (w_fs w)).
Proof.
  unfold make_dir_entry_durable. destruct (dl_dir_entry_durable d); [done|].
  pose proof (fsync_parent_roomless (dl_dir d) w) as Hr. destruct (fsync_parent_dir _ w) as [[]]; [done|]. by intros [= _ <- <-].
Qed.

(** A failed attempt to recreate the directory leaves its entry marked as not durable. *)
Lemma recreate_failed (missing : bool) d w e d' w' :
  (if missing then recreate_dir else λ d w,
     match dl_create_dir d w with
     | (Err e, d, w) => (Err e, d, w)
     | (Ok _, d, w) => make_dir_entry_durable d w
     end) d w = (Err e, d', w') → dl_dir_entry_durable d' = false.
Proof.
  intros H. assert (Hc : ∀ r d1 w1, dl_create_dir d w = (r, d1, w1) → dl_dir_entry_durable d1 = false).
  { intros r d1 w1. unfold dl_create_dir. destruct (create_dir_private _ w). by intros [= _ <- _]. }
  destruct missing; unfold recreate_dir in H; destruct (dl_create_dir d w) as [[[u|e1] d1] w1];
    specialize (Hc _ _ _ eq_refl); first [by apply make_durable_Err in H as [-> _]|by injection H as _ <- _].
Qed.

(** Recreating the directory: its entry is synced before anything is written into it. *)
Lemma recreated (missing : bool) d w d' w' :
  (if missing then recreate_dir else λ d w,
     match dl_create_dir d w with
     | (Err e, d, w) => (Err e, d, w)
     | (Ok _, d, w) => make_dir_entry_durable d w
     end) d w = (Ok tt, d', w') →
  dl_dir_entry_durable d' = true ∧ (dl_total_bytes d' = dl_total_bytes d ∨ dl_total_bytes d' = 0) ∧
  (fs_ok (w_fs w) → parent (dl_dir d) ≠ [] → durable_dir (w_fs w) (parent (dl_dir d)) → dl_sound (w_fs w') d').
Proof.
  intros H. destruct (dl_create_dir d w) as [[r1 d1] w1] eqn:E1.
  destruct (create_dir_steady (λ _, False) _ _ _ _ _ E1) as (D1 & _ & T1 & _).
  assert (Hd1 : dl_dir_entry_durable d1 = false ∧ dl_total_bytes d1 = dl_total_bytes d).
  { unfold dl_create_dir in E1. destruct (create_dir_private _ w). by injection E1 as _ <- _. }
  destruct Hd1 as [Hf1 Ht1]. destruct r1 as [u|e]; [|by destruct missing; unfold recreate_dir in H; rewrite E1 in H].
  assert (∃ d2, make_dir_entry_durable d2 w1 = (Ok tt, d', w') ∧ dl_dir d2 = dl_dir d ∧ dl_dir_entry_durable d2 = false ∧
            (dl_total_bytes d2 = dl_total_bytes d ∨ dl_total_bytes d2 = 0)) as (d2 & H2 & D2 & F2 & V2).
  { destruct missing; unfold recreate_dir in H; rewrite E1 in H; [exists (dl_set_total d1 0)|exists d1]; split; auto. }
  apply make_durable_Ok in H2 as (B & V & S). split; [done|]. split; [rewrite V; tauto|]. intros Hok Hp Hdir. apply S.
  split; [congruence|]. split; [|congruence]. rewrite D2. eapply durable_dir_mono, Hdir. apply (tc_dirs _ _ _ (T1 Hok)).
Qed.

(** A dead-letter write: whatever happens, only names of counters it reserved change; a
    success leaves the records in one sealed segment, inside a durable directory, and
    charges the cap with the size of the file. *)
Lemma write_records_spec records d w r d' w' :
  write_records records d w = (r, d', w') → fs_ok (w_fs w) → dl_sound (w_fs w) d →
  dl_dir d' = dl_dir d ∧ dl_next_counter d ≤ dl_next_counter d' ∧
  touches (dl_own (dl_dir d) (dl_next_counter d) (dl_next_counter d')) (w_fs w) (w_fs w') ∧
  (dl_housed (w_fs w) d → dl_housed (w_fs w') d') ∧ dl_sound (w_fs w') d' ∧
  (r = Ok tt → records ≠ [] →
   dl_next_counter d < dl_next_counter d' ∧ dead_lettered (w_fs w') (dl_dir d) (dl_next_counter d' - 1) records ∧
   ∃ before, (before = dl_total_bytes d ∨ before = 0) ∧
     dl_total_bytes d' = saturating_add_u64 before (estimated_segment_bytes records)).
Proof.
  intros H Hok Hsd. unfold write_records in H. destruct records as [|x l]; [by injection H as <- <- <-; split; [|split; [lia|]]|].
  set (records := x :: l) in *. destruct (make_dir_entry_durable d w) as [[r1 d1] w1] eqn:E1.
  destruct (make_durable_steady (dl_own (dl_dir d) (dl_next_counter d) (dl_next_counter d')) _ _ _ _ _ E1) as (D1 & N1 & T1 & H1).
  specialize (H1 Hok). destruct r1 as [[]|e].
  2: { apply make_durable_Err in E1 as [-> Hdom]. injection H as <- <- <-. split; [done|]. split; [lia|]. split; [done|].
       split; [done|]. split; [|done]. eapply dl_sound_mono; [apply (tc_dirs _ _ _ (T1 Hok))|done..]. }
  apply make_durable_Ok in E1 as (B1 & V1 & S1). pose proof (tc_ok _ _ _ (T1 Hok)) as Hok1.
  destruct (write_sealed records d1 w1) as [[r2 d2] w2] eqn:E2.
  destruct (write_sealed_spec _ _ _ _ _ _ E2 Hok1 (S1 Hsd) B1) as (D2 & N2 & B2 & T2 & R2).
  assert (H2 : dl_housed (w_fs w1) d1 → dl_housed (w_fs w2) d2).
  { apply dl_housed_mono; [apply (tc_dirs _ _ _ (T2 Hok1))|done|congruence]. }
  assert (S2 : dl_sound (w_fs w2) d2).
  { eapply dl_sound_mono, S1, Hsd; [apply (tc_dirs _ _ _ (T2 Hok1))| |done|congruence].
    pose proof (write_sealed_roomless records d1 w1) as Hr. by rewrite E2 in Hr. }
  destruct (decide (r2 = Err NotFound)) as [->|Hne].
  2: { assert (He : (r2, d2, w2) = (r, d', w')) by (by destruct r2 as [|[]]). clear H. injection He as <- <- <-.
       split; [congruence|]. split; [lia|]. rewrite D1, N1, N2 in *. split; [by etrans|]. split; [auto|]. split; [done|].
       intros -> _. destruct R2 as [Hdl Hv]. split; [lia|].
       replace (dl_next_counter d + 1 - 1) with (dl_next_counter d) by lia. split; [done|]. exists (dl_total_bytes d1). split; [left; congruence|done]. }
  destruct (dir_is_missing d2 w2) as [missing w3] eqn:E3.
  set (recreate := if missing then recreate_dir else _) in H.
  assert (Hst : dl_steady recreate).
  { unfold recreate. destruct missing; [apply recreate_steady|].
    apply (dl_steady_then dl_create_dir make_dir_entry_durable (λ d, d)); [apply create_dir_steady|apply make_durable_steady|done]. }
  destruct (recreate d2 w3) as [[r4 d4] w4] eqn:E4.
  set (own := dl_own (dl_dir d) (dl_next_counter d) (dl_next_counter d')) in *.
  pose proof (dir_missing_touches own _ _ _ _ E3) as T3.
  destruct (Hst own _ _ _ _ _ E4) as (D4 & N4 & T4 & H4).
  assert (Hw : ∀ lo hi, dl_next_counter d ≤ lo → hi ≤ dl_next_counter d' →
            touches (dl_own (dl_dir d1) lo hi) (w_fs w1) (w_fs w2) → touches own (w_fs w1) (w_fs w2)).
  { intros lo hi ? ?. apply touches_weaken. intros q. rewrite D1. by apply dl_own_mono. }
  pose proof (tc_ok _ _ _ (T2 Hok1)) as Hok2. pose proof (tc_ok _ _ _ (T3 Hok2)) as Hok3.
  assert (H3 : dl_housed (w_fs w2) d2 → dl_housed (w_fs w3) d2) by (apply dl_housed_mono; [apply (tc_dirs _ _ _ (T3 Hok2))|done|done]).
  assert (Hdir3 : durable_dir (w_fs w3) (parent (dl_dir d2))).
  { rewrite D2, D1. destruct Hsd as (_ & Hdir & _).
    eapply durable_dir_mono, Hdir. etrans; [apply (tc_dirs _ _ _ (T1 Hok))|]. etrans; [apply (tc_dirs _ _ _ (T2 Hok1))|].
    apply (tc_dirs _ _ _ (T3 Hok2)). }
  assert (Hpar2 : parent (dl_dir d2) ≠ []) by (rewrite D2, D1; by destruct Hsd).
  destruct r4 as [u|e].
  2: { apply recreate_failed in E4 as Hf4. injection H as <- <- <-. split; [congruence|]. split; [lia|].
       split; [|split; [by auto|split; [|done]]].
       2: { split; [congruence|]. split; [|congruence]. rewrite D4. eapply durable_dir_mono, Hdir3. apply (tc_dirs _ _ _ (T4 Hok3)). }
       etrans; [exact T1|]. etrans; [eapply Hw, T2; lia|]. by etrans. }
  destruct u. destruct (recreated _ _ _ _ _ E4) as (B4 & V4 & S4).
  destruct (write_sealed records d4 w4) as [[r5 d5] w5] eqn:E5.
  assert (Hn5 : dl_next_counter d5 = dl_next_counter d4 + 1)
    by (unfold write_sealed in E5; repeat case_match; by simplify_eq).
  injection H as -> -> ->. pose proof (tc_ok _ _ _ (T4 Hok3)) as Hok4.
  assert (T24 : touches own (w_fs w1) (w_fs w4)) by (etrans; [eapply Hw, T2; lia|by etrans]).
  assert (Hsd4 : dl_sound (w_fs w4) d4) by (by apply S4).
  destruct (write_sealed_spec _ _ _ _ _ _ E5 Hok4 Hsd4 B4) as (D5 & _ & B5 & T5 & R5).
  split; [congruence|]. split; [lia|]. split.
  { etrans; [exact T1|]. etrans; [exact T24|]. eapply touches_weaken, T5. intros q.
    replace (dl_dir d4) with (dl_dir d) by congruence. apply dl_own_mono; lia. }
  split.
  { intros Hh. eapply dl_housed_mono; [apply (tc_dirs _ _ _ (T5 Hok4))|done|by intros; congruence|]. auto. }
  split.
  { eapply dl_sound_mono, Hsd4; [apply (tc_dirs _ _ _ (T5 Hok4))| |done|congruence].
    pose proof (write_sealed_roomless records d4 w4) as Hr. by rewrite E5 in Hr. }
  intros -> _. destruct R5 as [Hdl Hv]. split; [lia|]. split.
  - replace (dl_next_counter d' - 1) with (dl_next_counter d4) by lia. by replace (dl_dir d) with (dl_dir d4) by congruence.
  - exists (dl_total_bytes d4). split; [|done]. destruct V4; [left|right]; congruence.
Qed.

(** ** Reading back *)

Lemma dead_lettered_touched own s s' dir k records :
  touched own s s' → ¬ own (dl_sealed dir k) → dead_lettered s dir k records → dead_lettered s' dir k records.
Proof.
  intros T Hn (hb & hd & za & Hh & Hc & Hz & Hst & Hs). exists hb, hd, za. do 4 (split; [done|]).
  by apply (tc_safe _ _ _ T).
Qed.

(** What a reader finds in the file of counter [k]. *)
Definition dl_readable s dir k records : Prop :=
  ∃ i node r r', fs_live s !! dl_sealed dir k = Some i ∧ fs_files s !! i = Some node ∧
    segment_reader_open (Ok (mkStream (f_data node) false)) = Ok r ∧
    sr_items r = (map Ok records, r') ∧ sr_terminated_cleanly r' = Some true.

Lemma dead_lettered_readable s dir k records : dead_lettered s dir k records → dl_readable s dir k records.
Proof.
  intros (hb & hd & za & Hh & Hc & Hz & Hst & i & n & [L _ _ _] & Hn & Hd & _).
  eexists i, n, _, _. split; [done|]. split; [done|]. rewrite Hd. unfold sealed_bytes.
  rewrite (segment_reader_open_Ok hb hd) by done. split; [done|].
  rewrite (sr_items_frames _ _ records records), sr_items_sentinel, app_nil_r; [done|].
  rewrite Hc. clear -Hst. induction Hst; constructor; [by split|done].
Qed.

Lemma dead_lettered_crash s s' dir k records :
  dead_lettered s dir k records → crash s s' → dead_lettered s' dir k records.
Proof.
  intros (hb & hd & za & Hh & Hc & Hz & Hst & Hs) Hcr. exists hb, hd, za. do 4 (split; [done|]).
  eapply crash_safe; [done| |done]. unfold sealed_bytes. apply parse_segment_header_inv in Hh as [Hl _].
  by destruct hb.
Qed.

(** ** Fresh names *)

Lemma before_dot_digits l r : forallb is_digit l = true → before_dot (l ++ x2e :: r) = l.
Proof.
  induction l as [|b l IH]; intros Hl; cbn [before_dot app].
  { by rewrite bool_decide_eq_true_2. }
  cbn [forallb] in Hl. apply andb_true_iff in Hl as [Hb Hl]. rewrite bool_decide_eq_false_2, IH by (done || by intros ->). done.
Qed.

Lemma dl_name_counter dir k ext :
  is_u64 k → ext = EXT_ACTIVE ∨ ext = EXT_SEALED →
  ∃ r, strip_prefix (bstr "dl_") (dl_name (dir ++ [(bstr "dl_" ++ dec_pad 8 k) ++ ext])) = Some r ∧
       parse_u64 (before_dot r) = Some k.
Proof.
  intros Hk Hext. unfold dl_name. rewrite file_name_snoc. cbn [mbind option_bind].
  assert (Ha : forallb is_ascii ((bstr "dl_" ++ dec_pad 8 k) ++ ext) = true).
  { rewrite !forallb_app. apply andb_true_iff. split; [|by destruct Hext as [->| ->]]. apply andb_true_iff. split; [done|].
    pose proof (forallb_dec_pad 8 k) as H. rewrite forallb_forall in H |- *. intros b Hb. by apply is_digit_ascii, H. }
  unfold to_str. rewrite utf8_valid_ascii by done. cbn [default from_option id].
  rewrite <-app_assoc, strip_prefix_app. eexists. split; [done|].
  destruct Hext as [->| ->]; [change EXT_ACTIVE with (x2e :: tail EXT_ACTIVE)|change EXT_SEALED with (x2e :: tail EXT_SEALED)];
    (rewrite before_dot_digits; [by apply parse_dec_pad|apply forallb_dec_pad]).
Qed.

Lemma scan_entries_spec entries t m w r w' :
  scan_entries entries t m w = (r, w') →
  quiet w w' ∧ ∀ t' m', r = Ok (t', m') → m ≤ m' ∧
    ∀ p a k, p ∈ entries → strip_prefix (bstr "dl_") (dl_name p) = Some a → parse_u64 (before_dot a) = Some k → k ≤ m'.
Proof.
  revert t m w. induction entries as [|p l IH]; intros t m w H; cbn [scan_entries] in H.
  { injection H as <- <-. split; [apply quiet_refl|]. intros t' m' [= <- <-]. split; [lia|]. by intros p a k ?%not_elem_of_nil. }
  destruct (strip_prefix _ (dl_name p)) as [a|] eqn:Ep.
  2: { destruct (IH _ _ _ H) as [Q C]. split; [done|]. intros t' m' Hr. destruct (C t' m' Hr) as [Hm Hc].
       split; [done|]. intros q b k [->|Hq]%elem_of_cons; [congruence|]. by apply Hc. }
  apply io_bind_inv in H as [(e & H & ->)|(len & w1 & H & Hg)]; apply entry_len_spec in H as [Q _]; [done|].
  destruct (IH _ _ _ Hg) as [Q2 C]. split; [by eapply quiet_trans|]. intros t' m' Hr. destruct (C t' m' Hr) as [Hm Hc].
  split; [destruct (parse_u64 _); lia|]. intros q b k [->|Hq]%elem_of_cons; [|by apply Hc].
  rewrite Ep. intros [= <-] Hk. rewrite Hk in Hm. lia.
Qed.
(** Opening scans past every counter in use. *)
Lemma dl_open_fresh wab w d w' k :
  dl_open wab w = (Ok d, w') → is_u64 k → dl_next_counter d ≤ k →
  dl_dir d = wab ++ [DEAD_LETTER] ∧ 1 ≤ dl_next_counter d ∧
  fs_live (w_fs w') !! dl_path (dl_dir d) k = None ∧ fs_live (w_fs w') !! dl_sealed (dl_dir d) k = None.
Proof.
  intros H Hk Hn. unfold dl_open in H. set (dir := wab ++ [DEAD_LETTER]) in *.
  apply io_bind_inv in H as [(e & _ & ?)|([] & w1 & _ & H)]; [done|].
  apply io_bind_inv in H as [(e & _ & ?)|([t m] & w2 & H & Hg)]; [done|]. injection Hg as <- <-.
  unfold scan_dir in H. apply io_bind_inv in H as [(e & _ & ?)|(es & w3 & H & Hg)]; [done|].
  assert (Hr : read_dir dir w1 = (Ok es, w3)).
  { unfold read_dir_of in H. destruct (bool_decide _); [done|].
    by apply guarded_spec in H as (? & _ & _ & _ & _ & _ & _ & _ & _ & _ & [[_ [? ?]]|H]). }
  apply read_dir_spec in Hr as (_ & (L & _) & _ & Hin). specialize (Hin es eq_refl).
  apply scan_entries_spec in Hg as ((_ & (L2 & _) & _) & C). destruct (C t m eq_refl) as [Hm Hc]. cbn [dl_dir dl_next_counter] in *.
  split; [done|]. split; [lia|].
  assert (Hnone : ∀ ext, ext = EXT_ACTIVE ∨ ext = EXT_SEALED →
            fs_live (w_fs w2) !! (dir ++ [(bstr "dl_" ++ dec_pad 8 k) ++ ext]) = None).
  { intros ext Hext. apply eq_None_not_Some. intros Hs. destruct (dl_name_counter dir k ext Hk Hext) as (a & Ha & Hp).
    assert (k ≤ m); [|lia]. eapply Hc; [|exact Ha|exact Hp]. apply Hin; [by rewrite <-L, <-L2| |apply parent_snoc].
    by intros [_ ?]%app_nil. }
  rewrite dl_path_eq, dl_sealed_eq. split; apply Hnone; auto.
Qed.

(** What a freshly opened writer knows of its directory. *)
Lemma dl_open_housed wab w d w' :
  dl_open wab w = (Ok d, w') → fs_ok (w_fs w) → wab ≠ [] → durable_dir (w_fs w) wab → dl_housed (w_fs w') d.
Proof.
  intros H Hok Hne Hdir. unfold dl_open in H. set (dir := wab ++ [DEAD_LETTER]) in *.
  apply io_bind_inv in H as [(e & _ & ?)|([] & w1 & Hc & H)]; [done|].
  apply io_bind_inv in H as [(e & _ & ?)|([t m] & w2 & H & Hg)]; [done|]. injection Hg as <- <-.
  assert (Hin : dir ∈ dom (fs_dirs (w_fs w1)) ∧ dirs_le (fs_dirs (w_fs w)) (fs_dirs (w_fs w1))).
  { unfold create_dir_private in Hc. apply io_bind_inv in Hc as [(e & _ & ?)|([] & w3 & Hc & Hg)]; [done|].
    apply guarded_quiet in Hg as (Hle & (_ & _ & _ & ->) & _); [|eauto].
    unfold create_dir_all in Hc. apply guarded_spec in Hc as
      (w4 & _ & _ & _ & _ & _ & _ & H6 & _ & _ & [[_ [k ?]]|Hm]); [done|]. injection Hm as <-. cbn. rewrite H6.
    split; [|apply union_dirs_le]. rewrite dom_union. apply elem_of_union. right. apply elem_of_dom.
    assert (Hx : (dir, false) ∈ map (λ e, (e, false)) (ancestors dir)).
    { apply list_elem_of_fmap. exists dir. split; [done|]. apply ancestors_self. by intros [_ ?]%app_nil. }
    destruct (list_to_map (M := gmap path bool) _ !! dir) eqn:E; [by eexists|].
    apply not_elem_of_list_to_map_2 in E. destruct E. apply list_elem_of_fmap. by exists (dir, false). }
  destruct Hin as [Hin Hle]. unfold scan_dir in H. apply io_bind_inv in H as [(e & _ & ?)|(es & w3 & H & Hg)]; [done|].
  assert (Hr : read_dir dir w1 = (Ok es, w3)).
  { unfold read_dir_of in H. by rewrite bool_decide_eq_true_2 in H. }
  apply read_dir_spec in Hr as (Hle3 & _). apply scan_entries_spec in Hg as ((Hle2 & _) & _).
  assert (Hall : dirs_le (fs_dirs (w_fs w1)) (fs_dirs (w_fs w2))) by (etrans; [apply (le_dirs _ _ _ Hle3)|apply (le_dirs _ _ _ Hle2)]).
  split; [cbn [dl_dir]; unfold dir; by rewrite parent_snoc|]. split.
  { cbn [dl_dir]. unfold dir. rewrite parent_snoc. eapply durable_dir_mono, Hdir. by etrans. }
  split; [by eapply dirs_le_dom|done].
Qed.

(** C6: a dead-letter write that returns is durable and complete. Whatever faults the disk
    injects and whether or not the directory was there, after any crash the directory is
    there and the sealed segment of a counter the write reserved reads back as exactly
    the records, in order; dead letters written before and every file outside the
    reserved counters are left as they were. The writer is left as it has to be for the
    next write. *)
Theorem dead_letter_write_durable records d w d' w' s' :
  write_records records d w = (Ok tt, d', w') → fs_ok (w_fs w) → dl_sound (w_fs w) d → records ≠ [] →
  0 ≤ dl_next_counter d → crash (w_fs w') s' →
  durable_dir s' (dl_dir d) ∧
  (∃ k, dl_next_counter d ≤ k < dl_next_counter d' ∧ dl_readable s' (dl_dir d) k records) ∧
  (∀ k l, 0 ≤ k < dl_next_counter d → dead_lettered (w_fs w) (dl_dir d) k l → dl_readable s' (dl_dir d) k l) ∧
  (∀ p b, parent p ≠ dl_dir d → safe_file (w_fs w) p b → safe_file (w_fs w') p b) ∧
  dl_housed (w_fs w') d'.
Proof.
  intros H Hok Hd Hne Hn Hcr. destruct (write_records_spec _ _ _ _ _ _ H Hok Hd) as (Hdd & Hle & T & _ & _ & Hs).
  destruct (Hs eq_refl Hne) as (Hlt & Hdl & _).
  assert (Hdir : durable_dir (w_fs w') (dl_dir d)).
  { destruct Hdl as (hb & hd & za & _ & _ & _ & _ & i & n & [_ _ _ Hp] & _). by rewrite parent_dl_sealed in Hp. }
  split; [by eapply crash_durable_dir|]. split; [|split; [|split]].
  - exists (dl_next_counter d' - 1). split; [lia|]. by eapply dead_lettered_readable, dead_lettered_crash.
  - intros j l Hj Hl. eapply dead_lettered_readable, dead_lettered_crash; [|done].
    eapply dead_lettered_touched; [by apply T| |done]. apply dl_own_sealed; lia.
  - intros p b Hp. apply (tc_safe _ _ _ (T Hok)). by intros ?%dl_own_parent.
  - apply dl_housed_intro; rewrite Hdd; [by destruct Hd|done].
Qed.
End DeadLetterFacts.

Module DeadLetterWitness.
#[local] Existing Instance Crc32Ieee.ieee.
#[local] Existing Instance ZstdRaw.raw.
#[local] Existing Instance Crc32Ieee.ieee_laws.
#[local] Existing Instance ZstdRaw.raw_laws.

Definition dir : path := [bstr "wab"; DEAD_LETTER].
Definition writer0 : DeadLetterWriter := mkDeadLetterWriter dir 0 0 false.
Definition letters : list bytes := [bstr "weir"; bstr "how"].
Definition written : result unit ErrorKind * DeadLetterWriter * World := write_records letters writer0 (fresh_world [bstr "wab"]).

Lemma dead_letter_write_durable_witness :
  ∃ k, 0 ≤ k < dl_next_counter (snd (fst written)) ∧ dl_readable (worst_crash (w_fs (snd written))) dir k letters.
Proof.
  assert (Hr : fst (fst written) = Ok tt) by (vm_compute; reflexivity).
  destruct written as [[r d'] w'] eqn:E. cbn [fst snd] in *. rewrite Hr in E.
  refine (proj1 (proj2 (dead_letter_write_durable letters writer0 (fresh_world [bstr "wab"]) d' w' _ E _ _ _ _ (worst_crash_crash _)))); clear.
  - split; [done|]. split; done.
  - split; [done|]. split; [by apply (bool_decide_unpack _); vm_compute|done].
  - done.
  - done.
Defined.
End DeadLetterWitness.
