(* ===== verification/Ledger.v ===== *)
(** * The drain's ledger (weir-server, drain/ledger.rs)

    [SegmentLedger]: what the drain remembers about segments by path, for one run. Both
    sources of a segment (the channel and the rescan) pass [ledger_admit]; a path that is owned
    by an outstanding confirm or quarantine, parked or cooling down is never delivered.
    Instants and durations are nanoseconds of the monotonic clock; a file's identity
    [(dev, ino)] is its inode, all on one file system. The order in which the source walks
    a [HashMap] is that of [map_to_list]. *)

From Stdlib Require Import ZArith Lia Strings.Byte String.
From stdpp Require Import base gmap list option sets.
From S2P Require Import Prelude Deps Wire Text Names Io Fs Durable Touch Format Reader Segment Recovery Scan Confirm.

(** ** Types *)

Record ResumeCursor := mkResumeCursor { rc_processed : Z; rc_ino : inode }.

Inductive DropOwner := OwnerConfirm | OwnerQuarantine | OwnerParked | OwnerCoolingDown.
Inductive Admit := AdmitProcess (skip : Z) | AdmitDrop (owner : DropOwner).

Inductive ParkReason := LocalReadFailed | UnsupportedVersion | DrainPanic.
#[global] Instance park_reason_eq_dec : EqDecision ParkReason.
Proof. solve_decision. Defined.

Inductive ErrClass := ClassProcess | ClassAccess | ClassMedia.
#[global] Instance err_class_eq_dec : EqDecision ErrClass.
Proof. solve_decision. Defined.

(** [errno] of a read failure is only logged. *)
Inductive TransientCause := CauseSink | CauseLocalRead (class : ErrClass) | CauseLocalWrite.

Definition DRAIN_PANIC_PARK_LIMIT : Z := 2.
Definition DL_CARRY_MAX_BYTES : Z := 64 * 1024 * 1024.

Record DeadLetterCarry := mkDeadLetterCarry {
  ca_through : Z;
  ca_payloads : list bytes;
  ca_bytes : Z;
  ca_committed : Z;
}.
Record PinnedCarry := mkPinnedCarry { pc_carry : DeadLetterCarry; pc_ino : inode }.

Inductive ConfirmStage := StageSidecar | StageDelete.
Record ConfirmPending := mkConfirmPending { cp_stage : ConfirmStage; cp_record_count : Z }.

Record LocalReadFailures := mkLocalReadFailures { lf_count : Z; lf_first_at : Z }.

(** [LedgerCounts]: the sizes other threads read; [parked_by_reason] by its three slots. *)
Record LedgerCounts := mkLedgerCounts {
  lc_confirm_pending : Z;
  lc_quarantine_pending : Z;
  lc_parked_local_read : Z;
  lc_parked_version : Z;
  lc_parked_panic : Z;
  lc_cooling_down : Z;
  lc_resume_cursors : Z;
  lc_dl_carry_bytes : Z;
}.

Record SegmentLedger := mkSegmentLedger {
  l_resume_from : gmap path ResumeCursor;
  l_dl_carry : gmap path PinnedCarry;
  l_dl_carry_max_bytes : Z;
  l_confirm_pending : gmap path ConfirmPending;
  l_quarantine_pending : gmap path bytes;
  l_parked : gmap path ParkReason;
  l_local_read_failures : gmap path LocalReadFailures;
  l_not_before : gmap path Z;
  l_panic_count : gmap path Z;
  l_in_flight : option path;
  l_attempt_started : Z;
  l_counts : LedgerCounts;
}.

(** ** Field updates *)

Definition set_resume_from (m : gmap path ResumeCursor) (l : SegmentLedger) : SegmentLedger :=
  mkSegmentLedger m (l_dl_carry l) (l_dl_carry_max_bytes l) (l_confirm_pending l) (l_quarantine_pending l)
    (l_parked l) (l_local_read_failures l) (l_not_before l) (l_panic_count l) (l_in_flight l)
    (l_attempt_started l) (l_counts l).
Definition set_carry (m : gmap path PinnedCarry) (l : SegmentLedger) : SegmentLedger :=
  mkSegmentLedger (l_resume_from l) m (l_dl_carry_max_bytes l) (l_confirm_pending l) (l_quarantine_pending l)
    (l_parked l) (l_local_read_failures l) (l_not_before l) (l_panic_count l) (l_in_flight l)
    (l_attempt_started l) (l_counts l).
Definition set_confirm_pending (m : gmap path ConfirmPending) (l : SegmentLedger) : SegmentLedger :=
  mkSegmentLedger (l_resume_from l) (l_dl_carry l) (l_dl_carry_max_bytes l) m (l_quarantine_pending l)
    (l_parked l) (l_local_read_failures l) (l_not_before l) (l_panic_count l) (l_in_flight l)
    (l_attempt_started l) (l_counts l).
Definition set_quarantine_pending (m : gmap path bytes) (l : SegmentLedger) : SegmentLedger :=
  mkSegmentLedger (l_resume_from l) (l_dl_carry l) (l_dl_carry_max_bytes l) (l_confirm_pending l) m
    (l_parked l) (l_local_read_failures l) (l_not_before l) (l_panic_count l) (l_in_flight l)
    (l_attempt_started l) (l_counts l).
Definition set_parked (m : gmap path ParkReason) (l : SegmentLedger) : SegmentLedger :=
  mkSegmentLedger (l_resume_from l) (l_dl_carry l) (l_dl_carry_max_bytes l) (l_confirm_pending l)
    (l_quarantine_pending l) m (l_local_read_failures l) (l_not_before l) (l_panic_count l) (l_in_flight l)
    (l_attempt_started l) (l_counts l).
Definition set_read_failures (m : gmap path LocalReadFailures) (l : SegmentLedger) : SegmentLedger :=
  mkSegmentLedger (l_resume_from l) (l_dl_carry l) (l_dl_carry_max_bytes l) (l_confirm_pending l)
    (l_quarantine_pending l) (l_parked l) m (l_not_before l) (l_panic_count l) (l_in_flight l)
    (l_attempt_started l) (l_counts l).
Definition set_not_before_map (m : gmap path Z) (l : SegmentLedger) : SegmentLedger :=
  mkSegmentLedger (l_resume_from l) (l_dl_carry l) (l_dl_carry_max_bytes l) (l_confirm_pending l)
    (l_quarantine_pending l) (l_parked l) (l_local_read_failures l) m (l_panic_count l) (l_in_flight l)
    (l_attempt_started l) (l_counts l).
Definition set_panic_count (m : gmap path Z) (l : SegmentLedger) : SegmentLedger :=
  mkSegmentLedger (l_resume_from l) (l_dl_carry l) (l_dl_carry_max_bytes l) (l_confirm_pending l)
    (l_quarantine_pending l) (l_parked l) (l_local_read_failures l) (l_not_before l) m (l_in_flight l)
    (l_attempt_started l) (l_counts l).
Definition set_attempt (p : option path) (at_ : Z) (l : SegmentLedger) : SegmentLedger :=
  mkSegmentLedger (l_resume_from l) (l_dl_carry l) (l_dl_carry_max_bytes l) (l_confirm_pending l)
    (l_quarantine_pending l) (l_parked l) (l_local_read_failures l) (l_not_before l) (l_panic_count l) p
    at_ (l_counts l).

(** ** Counts *)

Definition parked_count (why : ParkReason) (m : gmap path ParkReason) : Z :=
  Z.of_nat (size (filter (λ '(_, w), w = why) m)).

(** The payload bytes a set of carries holds. *)
Definition carry_bytes (m : gmap path PinnedCarry) : Z :=
  map_fold (λ _ pinned n, ca_bytes (pc_carry pinned) + n) 0 m.

Definition counts_of (l : SegmentLedger) : LedgerCounts :=
  mkLedgerCounts (Z.of_nat (size (l_confirm_pending l))) (Z.of_nat (size (l_quarantine_pending l)))
    (parked_count LocalReadFailed (l_parked l)) (parked_count UnsupportedVersion (l_parked l))
    (parked_count DrainPanic (l_parked l)) (Z.of_nat (size (l_not_before l)))
    (Z.of_nat (size (l_resume_from l))) (carry_bytes (l_dl_carry l)).

(** [sync_counts]. *)
Definition sync_counts (l : SegmentLedger) : SegmentLedger :=
  mkSegmentLedger (l_resume_from l) (l_dl_carry l) (l_dl_carry_max_bytes l) (l_confirm_pending l)
    (l_quarantine_pending l) (l_parked l) (l_local_read_failures l) (l_not_before l) (l_panic_count l)
    (l_in_flight l) (l_attempt_started l) (counts_of l).

(** ** Operations *)

(** [SegmentLedger::new]. *)
Definition ledger_new (now : Z) : SegmentLedger :=
  sync_counts (mkSegmentLedger ∅ ∅ DL_CARRY_MAX_BYTES ∅ ∅ ∅ ∅ ∅ ∅ None now (mkLedgerCounts 0 0 0 0 0 0 0 0)).

(** [file_identity]: [None] when the file cannot be stat'ed. *)
Definition file_identity (p : path) (w : World) : option inode * World :=
  match guarded (λ w, match fs_live (w_fs w) !! p with Some i => (Ok i, w) | None => (Err NotFound, w) end) w with
  | (Ok i, w) => (Some i, w)
  | (Err _, w) => (None, w)
  end.

Definition contains {A} (m : gmap path A) (p : path) : bool := bool_decide (is_Some (m !! p)).

(** The end of [ledger_admit]: an admissible path resumes past its cursor if the cursor still
    describes the file at the path. *)
Definition admit_resume (p : path) (l : SegmentLedger) (w : World) : Admit * SegmentLedger * World :=
  match l_resume_from l !! p with
  | None => (AdmitProcess 0, l, w)
  | Some cursor =>
    let '(id, w) := file_identity p w in
    if bool_decide (id = Some (rc_ino cursor)) then (AdmitProcess (rc_processed cursor), l, w)
    else (AdmitProcess 0, sync_counts (set_resume_from (delete p (l_resume_from l)) l), w)
  end.

(** [SegmentLedger::admit]. *)
Definition ledger_admit (p : path) (now : Z) (l : SegmentLedger) (w : World) : Admit * SegmentLedger * World :=
  if contains (l_confirm_pending l) p then (AdmitDrop OwnerConfirm, l, w) else
  if contains (l_quarantine_pending l) p then (AdmitDrop OwnerQuarantine, l, w) else
  if contains (l_parked l) p then (AdmitDrop OwnerParked, l, w) else
  match l_not_before l !! p with
  | Some at_ => if now <? at_ then (AdmitDrop OwnerCoolingDown, l, w)
                else admit_resume p (sync_counts (set_not_before_map (delete p (l_not_before l)) l)) w
  | None => admit_resume p l w
  end.

(** [excludes]. *)
Definition excludes (p : path) (now : Z) (l : SegmentLedger) : bool :=
  contains (l_confirm_pending l) p || contains (l_quarantine_pending l) p || contains (l_parked l) p ||
  match l_not_before l !! p with Some at_ => now <? at_ | None => false end.

(** [checked_skip]. *)
Definition checked_skip (p : path) (skip : Z) (l : SegmentLedger) (w : World) : Z * SegmentLedger * World :=
  if skip =? 0 then (0, l, w) else
  match l_resume_from l !! p with
  | None => (skip, l, w)
  | Some cursor =>
    match file_identity p w with
    | (Some id, w) => if negb (bool_decide (id = rc_ino cursor))
                      then (0, sync_counts (set_resume_from (delete p (l_resume_from l)) l), w)
                      else (skip, l, w)
    | (None, w) => (skip, l, w)
    end
  end.

(** [record_progress]. *)
Definition record_progress (p : path) (processed : Z) (l : SegmentLedger) (w : World) : SegmentLedger * World :=
  if processed =? 0 then (l, w) else
  let '(id, w) := file_identity p w in
  let m := match id with
           | Some ino => <[p := mkResumeCursor processed ino]> (l_resume_from l)
           | None => delete p (l_resume_from l)
           end in
  (sync_counts (set_resume_from m l), w).

(** [forget]. *)
Definition forget (p : path) (l : SegmentLedger) : SegmentLedger :=
  sync_counts (set_panic_count (delete p (l_panic_count l))
    (set_not_before_map (delete p (l_not_before l))
      (set_read_failures (delete p (l_local_read_failures l))
        (set_carry (delete p (l_dl_carry l)) (set_resume_from (delete p (l_resume_from l)) l))))).

(** [park]. *)
Definition park (p : path) (why : ParkReason) (l : SegmentLedger) : SegmentLedger :=
  forget p (set_parked (<[p := why]> (l_parked l)) l).

(** [begin_attempt] and [end_attempt]. *)
Definition begin_attempt (p : path) (w : World) (l : SegmentLedger) : SegmentLedger :=
  set_attempt (Some p) (w_instant w) l.
Definition end_attempt (l : SegmentLedger) : SegmentLedger := set_attempt None (l_attempt_started l) l.

(** [u32::saturating_add(1)]. *)
Definition saturating_succ_u32 (n : Z) : Z := Z.min (n + 1) u32_max.

(** [note_drain_panic]. *)
Definition note_drain_panic (l : SegmentLedger) : option (path * Z) * SegmentLedger :=
  match l_in_flight l with
  | None => (None, l)
  | Some p =>
    let l := set_attempt None (l_attempt_started l) l in
    let panics := saturating_succ_u32 (default 0 (l_panic_count l !! p)) in
    let l := set_panic_count (<[p := panics]> (l_panic_count l)) l in
    let l := if DRAIN_PANIC_PARK_LIMIT <=? panics then park p DrainPanic l else l in
    (Some (p, panics), l)
  end.

(** [local_read_failures]. *)
Definition local_read_failures (p : path) (l : SegmentLedger) : Z :=
  match l_local_read_failures l !! p with Some f => lf_count f | None => 0 end.

(** [note_local_read_failure]. *)
Definition note_local_read_failure (p : path) (class : ErrClass) (w : World) (l : SegmentLedger)
    : Z * SegmentLedger :=
  if bool_decide (class = ClassProcess) then (local_read_failures p l, l) else
  let f := default (mkLocalReadFailures 0 (w_instant w)) (l_local_read_failures l !! p) in
  let f := mkLocalReadFailures (saturating_succ_u32 (lf_count f)) (lf_first_at f) in
  (lf_count f, set_read_failures (<[p := f]> (l_local_read_failures l)) l).

(** [local_read_failing_for]. *)
Definition local_read_failing_for (p : path) (l : SegmentLedger) : Z :=
  match l_local_read_failures l !! p with
  | Some f => Z.max 0 (l_attempt_started l - lf_first_at f)
  | None => 0
  end.

(** [set_dl_carry]: whether the carry was stored. *)
Definition set_dl_carry (p : path) (carry : DeadLetterCarry) (l : SegmentLedger) (w : World)
    : bool * SegmentLedger * World :=
  let others := carry_bytes (delete p (l_dl_carry l)) in
  let '(id, w) := file_identity p w in
  match id with
  | Some ino =>
    if saturating_add_u64 others (ca_bytes carry) <=? l_dl_carry_max_bytes l then
      (true, sync_counts (set_carry (<[p := mkPinnedCarry carry ino]> (l_dl_carry l)) l), w)
    else (false, sync_counts (set_carry (delete p (l_dl_carry l)) l), w)
  | None => (false, sync_counts (set_carry (delete p (l_dl_carry l)) l), w)
  end.

(** [take_dl_carry]. *)
Definition take_dl_carry (p : path) (l : SegmentLedger) (w : World) : option DeadLetterCarry * SegmentLedger * World :=
  match l_dl_carry l !! p with
  | None => (None, l, w)
  | Some pinned =>
    let l := sync_counts (set_carry (delete p (l_dl_carry l)) l) in
    let '(id, w) := file_identity p w in
    if bool_decide (id = Some (pc_ino pinned)) then (Some (pc_carry pinned), l, w) else (None, l, w)
  end.

(** [set_not_before]. *)
Definition set_not_before (p : path) (at_ : Z) (l : SegmentLedger) : SegmentLedger :=
  sync_counts (set_not_before_map (<[p := at_]> (l_not_before l)) l).

(** [note_confirm_outcome]. *)
Definition note_confirm_outcome (p : path) (outcome : ConfirmOutcome) (record_count : Z) (l : SegmentLedger)
    : SegmentLedger :=
  let take stage :=
    sync_counts (set_confirm_pending (<[p := mkConfirmPending stage record_count]> (l_confirm_pending l)) l) in
  match outcome with
  | ConfirmDone => l
  | SidecarFailed => take StageSidecar
  | DeleteFailed => take StageDelete
  end.

(** [note_quarantine_pending]. *)
Definition note_quarantine_pending (p : path) (reason : bytes) (l : SegmentLedger) : SegmentLedger :=
  forget p (set_quarantine_pending (<[p := reason]> (l_quarantine_pending l)) l).

(** [classify]: by errno when there is one, else by kind. A kind of the table that comes
    with an errno is classified alike either way. *)
Definition classify (e : ErrorKind) : ErrClass :=
  match e with
  | OsError errno =>
    (* EMFILE, ENFILE, ENOMEM, ENOBUFS, EAGAIN, EINTR *)
    if bool_decide (errno ∈ [24; 23; 12; 105; 11; 4]) then ClassProcess else
    (* EACCES, EPERM, EISDIR, ENOTDIR, ELOOP *)
    if bool_decide (errno ∈ [13; 1; 21; 20; 40]) then ClassAccess else ClassMedia
  | OutOfMemory | Interrupted | WouldBlock => ClassProcess
  | PermissionDenied | IsADirectory | NotADirectory => ClassAccess
  | _ => ClassMedia
  end.

(** [symlink_metadata(p)] fails with [NotFound]. *)
Definition path_is_gone (p : path) (w : World) : bool * World :=
  match guarded (λ w, if contains (fs_live (w_fs w)) p || bool_decide (p ∈ dom (fs_dirs (w_fs w)))
                      then (Ok tt, w) else (Err NotFound, w)) w with
  | (Err NotFound, w) => (true, w)
  | (_, w) => (false, w)
  end.

(** [move_to_quarantine] (drain/mod.rs). *)
Definition move_to_quarantine (segment wab_dir : path) : io unit := λ w,
  match quarantine segment wab_dir w with
  | (Ok _, w) => (Ok tt, inc WabSegmentsQuarantined (inc RecoverySegmentsQuarantined w))
  | (Err qe, w) => let '(gone, w) := path_is_gone segment w in
                   if gone then (Ok tt, w) else (Err qe, w)
  end.

Section Dispositions.
Context {CRC : Crc32}.

(** One entry of [retry_confirms]: [None] once it is done. *)
Definition retry_confirm (p : path) (pending : ConfirmPending) (w : World) : option ConfirmPending * World :=
  let '(outcome, w) := match cp_stage pending with
                       | StageSidecar => confirm_and_delete p (cp_record_count pending) w
                       | StageDelete => delete_confirmed_segment p w
                       end in
  (match outcome with
   | ConfirmDone => None
   | SidecarFailed => Some pending
   | DeleteFailed => Some (mkConfirmPending StageDelete (cp_record_count pending))
   end, w).

(** [retry_confirms]. *)
Fixpoint retry_confirms (entries : list (path * ConfirmPending)) (m : gmap path ConfirmPending) (w : World)
    : gmap path ConfirmPending * World :=
  match entries with
  | [] => (m, w)
  | (p, pending) :: entries =>
    let '(owed, w) := retry_confirm p pending w in
    retry_confirms entries (match owed with Some c => <[p := c]> m | None => delete p m end) w
  end.

(** [retry_quarantines]. *)
Fixpoint retry_quarantines (wab_dir : path) (entries : list (path * bytes)) (m : gmap path bytes) (w : World)
    : gmap path bytes * World :=
  match entries with
  | [] => (m, w)
  | (p, reason) :: entries =>
    match move_to_quarantine p wab_dir w with
    | (Ok _, w) => retry_quarantines wab_dir entries (delete p m) w
    | (Err _, w) => retry_quarantines wab_dir entries m w
    end
  end.

(** [retry_dispositions]. *)
Definition retry_dispositions (wab_dir : path) (l : SegmentLedger) (w : World) : SegmentLedger * World :=
  if (size (l_confirm_pending l) =? 0)%nat && (size (l_quarantine_pending l) =? 0)%nat then (l, w) else
  let '(cm, w) := retry_confirms (map_to_list (l_confirm_pending l)) (l_confirm_pending l) w in
  let l := set_confirm_pending cm l in
  let '(qm, w) := retry_quarantines wab_dir (map_to_list (l_quarantine_pending l)) (l_quarantine_pending l) w in
  (sync_counts (set_quarantine_pending qm l), w).
End Dispositions.

(** [DeadLetterOwed::into_carry] (drain/mod.rs): [payloads] were rejected and [committed]
    records accepted in a sub-batch that ends at record [through]. *)
Definition into_carry (payloads : list bytes) (committed through : Z) : DeadLetterCarry :=
  mkDeadLetterCarry through payloads (foldr (λ p n, blen p + n) 0 payloads) committed.

(** ** The ledger under any sequence of operations *)

(** The calls the drain and its supervisor make. *)
Inductive LedgerOp :=
| LAdmit (p : path) (now : Z)
| LCheckedSkip (p : path) (skip : Z)
| LProgress (p : path) (processed : Z)
| LForget (p : path)
| LPark (p : path) (why : ParkReason)
| LBegin (p : path)
| LEnd
| LPanic
| LReadFailure (p : path) (class : ErrClass)
| LSetCarry (p : path) (payloads : list bytes) (committed through : Z)
| LTakeCarry (p : path)
| LNotBefore (p : path) (at_ : Z)
| LConfirm (p : path) (outcome : ConfirmOutcome) (record_count : Z)
| LQuarantine (p : path) (reason : bytes)
| LRetry (wab_dir : path).

Definition ledger_exec `{Crc32} (op : LedgerOp) (s : SegmentLedger * World) : SegmentLedger * World :=
  let '(l, w) := s in
  match op with
  | LAdmit p now => let '(_, l, w) := ledger_admit p now l w in (l, w)
  | LCheckedSkip p skip => let '(_, l, w) := checked_skip p skip l w in (l, w)
  | LProgress p n => record_progress p n l w
  | LForget p => (forget p l, w)
  | LPark p why => (park p why l, w)
  | LBegin p => (begin_attempt p w l, w)
  | LEnd => (end_attempt l, w)
  | LPanic => (snd (note_drain_panic l), w)
  | LReadFailure p c => (snd (note_local_read_failure p c w l), w)
  | LSetCarry p ps c t => let '(_, l, w) := set_dl_carry p (into_carry ps c t) l w in (l, w)
  | LTakeCarry p => let '(_, l, w) := take_dl_carry p l w in (l, w)
  | LNotBefore p at_ => (set_not_before p at_ l, w)
  | LConfirm p o n => (note_confirm_outcome p o n l, w)
  | LQuarantine p r => (note_quarantine_pending p r l, w)
  | LRetry wab => retry_dispositions wab l w
  end.

Definition ledger_run `{Crc32} (ops : list LedgerOp) (s : SegmentLedger * World) : SegmentLedger * World :=
  foldl (λ s op, ledger_exec op s) s ops.

Section LedgerFacts.
Context {CRC : Crc32}.
Implicit Types (l : SegmentLedger) (p : path).

Definition payload_bytes (ps : list bytes) : Z := foldr (λ (x : bytes) n, blen x + n) 0 ps.

(** The mirrors are current, and the carries hold the payload bytes they are charged for,
    at most 64 MiB in all. *)
Record ledger_wf l : Prop := mkLedgerWf {
  lw_counts : l_counts l = counts_of l;
  lw_max : l_dl_carry_max_bytes l = DL_CARRY_MAX_BYTES;
  lw_carry : ∀ p c, l_dl_carry l !! p = Some c → ca_bytes (pc_carry c) = payload_bytes (ca_payloads (pc_carry c));
  lw_bound : carry_bytes (l_dl_carry l) ≤ DL_CARRY_MAX_BYTES;
}.

Lemma payload_bytes_nonneg ps : 0 ≤ payload_bytes ps.
Proof. induction ps as [|x ps IH]; [done|]. cbn. pose proof (blen_nonneg x). unfold payload_bytes in IH. lia. Qed.

Lemma carry_bytes_insert m p c : m !! p = None → carry_bytes (<[p := c]> m) = ca_bytes (pc_carry c) + carry_bytes m.
Proof.
  intros Hp. unfold carry_bytes.
  rewrite (map_fold_insert_L (λ (_ : path) pinned n, ca_bytes (pc_carry pinned) + n) 0 p c m); [done| |done]. intros. lia.
Qed.

Lemma carry_bytes_delete m p c : m !! p = Some c → carry_bytes m = ca_bytes (pc_carry c) + carry_bytes (delete p m).
Proof. intros Hp. rewrite <-(insert_delete_id m p c Hp) at 1. apply carry_bytes_insert, lookup_delete_eq. Qed.

Lemma carry_bytes_set m p c : carry_bytes (<[p := c]> m) = ca_bytes (pc_carry c) + carry_bytes (delete p m).
Proof. rewrite <-insert_delete_eq. apply carry_bytes_insert, lookup_delete_eq. Qed.

Lemma carry_bytes_delete_le m p :
  (∀ q c, m !! q = Some c → ca_bytes (pc_carry c) = payload_bytes (ca_payloads (pc_carry c))) →
  carry_bytes (delete p m) ≤ carry_bytes m.
Proof.
  intros H. destruct (m !! p) as [c|] eqn:E; [|by rewrite delete_id].
  rewrite (carry_bytes_delete m p c E), (H p c E). pose proof (payload_bytes_nonneg (ca_payloads (pc_carry c))). lia.
Qed.

(** Operations that leave the carries alone and end by publishing the counts. *)
Lemma wf_sync l l' :
  ledger_wf l → l_dl_carry l' = l_dl_carry l → l_dl_carry_max_bytes l' = l_dl_carry_max_bytes l →
  ledger_wf (sync_counts l').
Proof. intros [C M K B] Hc Hm. constructor; [done|cbn; congruence| |]; cbn; rewrite Hc; done. Qed.

Lemma wf_sync_carry l l' p :
  ledger_wf l → l_dl_carry l' = delete p (l_dl_carry l) → l_dl_carry_max_bytes l' = l_dl_carry_max_bytes l →
  ledger_wf (sync_counts l').
Proof.
  intros [C M K B] Hc Hm. constructor; [done|cbn; congruence| |]; cbn; rewrite Hc.
  - intros q c [_ H]%lookup_delete_Some. by eapply K.
  - etrans; [by apply carry_bytes_delete_le|done].
Qed.

Lemma wf_forget l l' p :
  ledger_wf l → l_dl_carry l' = l_dl_carry l → l_dl_carry_max_bytes l' = l_dl_carry_max_bytes l →
  ledger_wf (forget p l').
Proof. intros H Hc Hm. apply (wf_sync_carry l _ p); [done|cbn; by rewrite Hc|done]. Qed.

(** Fields the counts do not read. *)
Lemma wf_quiet l l' :
  ledger_wf l → counts_of l' = counts_of l → l_counts l' = l_counts l → l_dl_carry l' = l_dl_carry l →
  l_dl_carry_max_bytes l' = l_dl_carry_max_bytes l → ledger_wf l'.
Proof. intros [C M K B] H1 H2 H3 H4. constructor; [congruence|congruence|by rewrite H3|by rewrite H3]. Qed.

Lemma wf_resume p l w a l' w' : ledger_wf l → admit_resume p l w = (a, l', w') → ledger_wf l'.
Proof.
  intros H Ha. unfold admit_resume in Ha. destruct (l_resume_from l !! p); [|by injection Ha as _ <- _].
  destruct (file_identity p w). destruct (bool_decide _); injection Ha as _ <- _; [done|]. by apply (wf_sync l).
Qed.

Lemma wf_admit p now l w a l' w' : ledger_wf l → ledger_admit p now l w = (a, l', w') → ledger_wf l'.
Proof.
  intros H Ha. unfold ledger_admit in Ha. do 3 (split_hyp Ha; [by injection Ha as _ <- _|]).
  destruct (l_not_before l !! p) as [at_|]; [destruct (now <? at_); [by injection Ha as _ <- _|]|];
    (eapply wf_resume; [|exact Ha]); [by apply (wf_sync l)|done].
Qed.

Lemma wf_set_carry p ps c t l w b l' w' :
  ledger_wf l → set_dl_carry p (into_carry ps c t) l w = (b, l', w') → ledger_wf l'.
Proof.
  intros H Hs. unfold set_dl_carry in Hs. destruct (file_identity p w) as [[ino|] w1].
  - destruct (Z.leb_spec (saturating_add_u64 (carry_bytes (delete p (l_dl_carry l))) (ca_bytes (into_carry ps c t)))
                (l_dl_carry_max_bytes l)) as [Hle|]; injection Hs as _ <- _; [|by apply (wf_sync_carry l _ p)].
    destruct H as [C M K B]. unfold saturating_add_u64, u64_max in Hle.
    rewrite M in Hle. unfold DL_CARRY_MAX_BYTES in Hle.
    constructor; [done|done| |]; cbn [sync_counts set_carry l_dl_carry l_dl_carry_max_bytes].
    + intros q x. destruct (decide (p = q)) as [<-|]; [rewrite lookup_insert_eq; by intros [= <-]|].
      rewrite lookup_insert_ne by done. apply K.
    + rewrite carry_bytes_set. cbn [pc_carry]. unfold DL_CARRY_MAX_BYTES. lia.
  - injection Hs as _ <- _. by apply (wf_sync_carry l _ p).
Qed.

Lemma wf_exec op l w l' w' : ledger_wf l → ledger_exec op (l, w) = (l', w') → ledger_wf l'.
Proof.
  intros H He. destruct op; cbn [ledger_exec] in He.
  - destruct (ledger_admit p now l w) as [[a l1] w1] eqn:E. injection He as <- _. by eapply wf_admit.
  - unfold checked_skip in He. destruct (skip =? 0); [by injection He as <- _|].
    destruct (l_resume_from l !! p); [|by injection He as <- _]. destruct (file_identity p w) as [[]]; [|by injection He as <- _].
    destruct (negb _); injection He as <- _; [by apply (wf_sync l)|done].
  - unfold record_progress in He. destruct (processed =? 0); [by injection He as <- _|].
    destruct (file_identity p w). injection He as <- _. by apply (wf_sync l).
  - injection He as <- _. by apply (wf_forget l).
  - injection He as <- _. by apply (wf_forget l).
  - injection He as <- _. by apply (wf_quiet l).
  - injection He as <- _. by apply (wf_quiet l).
  - injection He as <- _. unfold note_drain_panic. destruct (l_in_flight l); [|done]. cbv zeta. cbn [snd].
    destruct (_ <=? _); [by apply (wf_forget l)|by apply (wf_quiet l)].
  - injection He as <- _. unfold note_local_read_failure. destruct (bool_decide _); [done|]. by apply (wf_quiet l).
  - destruct (set_dl_carry _ _ l w) as [[b l1] w1] eqn:E. injection He as <- _. by eapply wf_set_carry.
  - unfold take_dl_carry in He. destruct (l_dl_carry l !! p); [|by injection He as <- _].
    destruct (file_identity p w). by destruct (bool_decide _); injection He as <- _; apply (wf_sync_carry l _ p).
  - injection He as <- _. by apply (wf_sync l).
  - injection He as <- _. unfold note_confirm_outcome. destruct outcome; [done|by apply (wf_sync l)..].
  - injection He as <- _. by apply (wf_forget l).
  - unfold retry_dispositions in He. destruct (_ && _); [by injection He as <- _|].
    destruct (retry_confirms _ _ w) as [cm w1]. destruct (retry_quarantines _ _ _ w1) as [qm w2].
    injection He as <- _. by apply (wf_sync l).
Qed.

(** C7: the ledger is well-formed after any sequence of calls, whatever the disk does: the
    counts other threads read are those of the maps, every carry is charged with the
    bytes of the records it holds, and all carries together hold at most 64 MiB. *)
Theorem ledger_invariant now ops w :
  ledger_wf (fst (ledger_run ops (ledger_new now, w))).
Proof.
  assert (H0 : ledger_wf (ledger_new now)) by by constructor.
  assert (H : ∀ s, ledger_wf (fst s) → ledger_wf (fst (ledger_run ops s))).
  { unfold ledger_run. induction ops as [|op ops IH]; [done|]. intros [l w0] Hl. cbn [foldl]. apply IH.
    destruct (ledger_exec op (l, w0)) as [l1 w1] eqn:E. by eapply wf_exec. }
  by apply (H (ledger_new now, w)).
Qed.

(** ** Admission *)

Lemma file_identity_spec p w id w' :
  file_identity p w = (id, w') → quiet w w' ∧ (∀ i, id = Some i → fs_live (w_fs w) !! p = Some i) ∧
  (fs_tape (w_fs w) = [] → id = fs_live (w_fs w) !! p ∧ w' = w).
Proof.
  unfold file_identity. destruct (guarded _ w) as [r w1] eqn:E. intros H.
  assert (Hq : quiet w w1).
  { eapply guarded_quiet; [|exact E]. intros w0. cbv beta. destruct (fs_live (w_fs w0) !! p); eauto. }
  assert (w1 = w') as -> by (destruct r; by injection H). split; [done|]. split.
  - intros i ->. destruct r as [j|]; [|done]. injection H as ->.
    apply guarded_spec in E as (w2 & _ & _ & L & _ & _ & _ & _ & _ & _ & [[_ [? ?]]|E]); [done|].
    rewrite L in E. destruct (fs_live (w_fs w) !! p); [|done]. by injection E as -> _.
  - intros Ht. unfold guarded, pop_fault in E. rewrite Ht in E.
    destruct (fs_live (w_fs w) !! p); injection E as <- <-; by injection H as <-.
Qed.

Lemma resume_spec p l w a l' w' :
  admit_resume p l w = (a, l', w') → quiet w w' ∧ ∃ skip, a = AdmitProcess skip ∧
    (skip ≠ 0 → ∃ i, fs_live (w_fs w) !! p = Some i ∧ l_resume_from l !! p = Some (mkResumeCursor skip i)).
Proof.
  unfold admit_resume. intros H. destruct (l_resume_from l !! p) as [[n i]|] eqn:El; cbn in H.
  2: { injection H as <- _ <-. split; [apply quiet_refl|]. by exists 0. }
  destruct (file_identity p w) as [id w1] eqn:E. destruct (file_identity_spec _ _ _ _ E) as (Q & Hid & _).
  destruct (bool_decide_reflect (id = Some i)) as [->|]; injection H as <- _ <-; (split; [done|]).
  - exists n. split; [done|]. intros _. exists i. split; [by apply Hid|done].
  - by exists 0.
Qed.

(** What admission decides, and from what. *)
Lemma admit_spec p now l w a l' w' :
  ledger_admit p now l w = (a, l', w') →
  quiet w w' ∧
  match a with
  | AdmitDrop _ => excludes p now l = true
  | AdmitProcess skip =>
    excludes p now l = false ∧
    (skip ≠ 0 → ∃ i, fs_live (w_fs w) !! p = Some i ∧ l_resume_from l !! p = Some (mkResumeCursor skip i))
  end.
Proof.
  intros H. unfold ledger_admit in H. unfold excludes.
  destruct (contains (l_confirm_pending l) p); [injection H as <- _ <-; split; [apply quiet_refl|done]|].
  destruct (contains (l_quarantine_pending l) p); [injection H as <- _ <-; split; [apply quiet_refl|done]|].
  destruct (contains (l_parked l) p); [injection H as <- _ <-; split; [apply quiet_refl|done]|]. cbn [orb].
  destruct (l_not_before l !! p) as [at_|]; [destruct (now <? at_); [injection H as <- _ <-; split; [apply quiet_refl|done]|]|];
    destruct (resume_spec _ _ _ _ _ _ H) as (Q & skip & -> & Hs); done.
Qed.

(** Admission and the rescan agree, and nothing the ledger owns is delivered: a path is
    admitted exactly when the rescan would not exclude it, that is when no outstanding
    confirm or quarantine owns it, it is not parked and its cool-down has passed; and it
    resumes past a prefix only if the file now at that path is the very file the prefix
    was measured on. *)
Theorem admit_iff_not_excluded p now l w :
  ((∃ skip, fst (fst (ledger_admit p now l w)) = AdmitProcess skip) ↔ excludes p now l = false) ∧
  ∀ skip, fst (fst (ledger_admit p now l w)) = AdmitProcess skip → skip ≠ 0 →
    ∃ i, fs_live (w_fs w) !! p = Some i ∧ l_resume_from l !! p = Some (mkResumeCursor skip i).
Proof.
  destruct (ledger_admit p now l w) as [[a l'] w'] eqn:E. cbn [fst]. destruct (admit_spec _ _ _ _ _ _ _ E) as [_ Ha].
  destruct a as [skip|o].
  - destruct Ha as [Hx Hs]. split; [by split; [|eauto]|]. by intros k [= <-].
  - split; [|done]. split; [by intros [? ?]|]. rewrite Ha. done.
Qed.

(** ** Parked segments *)

Lemma parked_exec op l w p :
  is_Some (l_parked l !! p) → is_Some (l_parked (fst (ledger_exec op (l, w))) !! p).
Proof.
  intros H. destruct op; cbn [ledger_exec]; try done.
  - unfold ledger_admit. do 3 (destruct (contains _ _); [done|]). destruct (l_not_before l !! p0) as [at_|];
      [destruct (now <? at_); [done|]|]; unfold admit_resume;
      cbn [l_resume_from sync_counts set_not_before_map];
      (destruct (l_resume_from l !! p0); [|done]); destruct (file_identity p0 w); by destruct (bool_decide _).
  - unfold checked_skip. destruct (skip =? 0); [done|]. destruct (l_resume_from l !! p0); [|done].
    destruct (file_identity p0 w) as [[]]; [|done]. by destruct (negb _).
  - unfold record_progress. destruct (processed =? 0); [done|]. by destruct (file_identity p0 w).
  - cbn. destruct (decide (p0 = p)) as [->|]; [rewrite lookup_insert_eq; by eexists|by rewrite lookup_insert_ne].
  - unfold note_drain_panic. destruct (l_in_flight l) as [q|]; [|done]. cbv zeta. cbn [snd fst].
    destruct (_ <=? _); [|done]. cbn. destruct (decide (q = p)) as [->|]; [rewrite lookup_insert_eq; by eexists|by rewrite lookup_insert_ne].
  - cbn [fst]. unfold note_local_read_failure. by destruct (bool_decide _).
  - unfold set_dl_carry. destruct (file_identity p0 w) as [[]]; [|done]. by destruct (_ <=? _).
  - unfold take_dl_carry. destruct (l_dl_carry l !! p0); [|done]. destruct (file_identity p0 w). by destruct (bool_decide _).
  - cbn [fst]. by destruct outcome.
  - unfold retry_dispositions. destruct (_ && _); [done|]. destruct (retry_confirms _ _ w).
    by destruct (retry_quarantines _ _ _ _).
Qed.

Lemma parked_run ops s p :
  is_Some (l_parked (fst s) !! p) → is_Some (l_parked (fst (ledger_run ops s)) !! p).
Proof.
  unfold ledger_run. revert s. induction ops as [|op ops IH]; [done|]. intros [l w] H. cbn [foldl]. apply IH.
  by apply parked_exec.
Qed.

(** One panic has been counted against [p], or [p] is parked. *)
Definition panicked p l : Prop :=
  is_Some (l_parked l !! p) ∨ ∃ n, l_panic_count l !! p = Some n ∧ 1 ≤ n.

(** The calls that strike [p] from the ledger: it reached its end, or its quarantine is
    owed. *)
Definition strikes p (op : LedgerOp) : Prop := op = LForget p ∨ ∃ reason, op = LQuarantine p reason.

Lemma lookup_count_forget p q l : q ≠ p → l_panic_count (forget q l) !! p = l_panic_count l !! p.
Proof. intros H. cbn. by rewrite lookup_delete_ne. Qed.

Lemma panicked_exec op l w p : ¬ strikes p op → panicked p l → panicked p (fst (ledger_exec op (l, w))).
Proof.
  intros Hs [Hp|(n & Hn & Hge)]; [left; by apply parked_exec|].
  assert (Hk : ∀ l', l_panic_count l' !! p = l_panic_count l !! p → panicked p l')
    by (intros l' E; right; exists n; by rewrite E).
  destruct op as [q|q|q|q|q why|q| | |q|q|q|q|q out|q reason|wab]; cbn [ledger_exec]; try by apply Hk.
  - unfold ledger_admit. do 3 (destruct (contains _ _); [by apply Hk|]). destruct (l_not_before l !! q) as [at_|];
      [destruct (now <? at_); [by apply Hk|]|]; unfold admit_resume;
      cbn [l_resume_from sync_counts set_not_before_map];
      (destruct (l_resume_from l !! q); [|by apply Hk]); destruct (file_identity q w); destruct (bool_decide _); by apply Hk.
  - unfold checked_skip. destruct (skip =? 0); [by apply Hk|]. destruct (l_resume_from l !! q); [|by apply Hk].
    destruct (file_identity q w) as [[]]; [|by apply Hk]. destruct (negb _); by apply Hk.
  - unfold record_progress. destruct (processed =? 0); [by apply Hk|]. destruct (file_identity q w). by apply Hk.
  - apply Hk. apply lookup_count_forget. intros ->. apply Hs. by left.
  - destruct (decide (q = p)) as [->|]; [left; cbn; rewrite lookup_insert_eq; by eexists|]. apply Hk. cbn [fst]. unfold park. by rewrite lookup_count_forget.
  - unfold note_drain_panic. destruct (l_in_flight l) as [q|]; [|by apply Hk]. cbv zeta. cbn [snd fst].
    destruct (decide (q = p)) as [->|Hq].
    + destruct (_ <=? _); [left; cbn; rewrite lookup_insert_eq; by eexists|]. right. cbn. rewrite lookup_insert_eq.
      eexists. split; [done|]. rewrite Hn. cbn. unfold saturating_succ_u32, u32_max. lia.
    + apply Hk. destruct (_ <=? _); [unfold park; rewrite lookup_count_forget by done|]; cbn; by rewrite lookup_insert_ne.
  - cbn [fst]. unfold note_local_read_failure. destruct (bool_decide _); by apply Hk.
  - unfold set_dl_carry. destruct (file_identity q w) as [[]]; [|by apply Hk]. destruct (_ <=? _); by apply Hk.
  - unfold take_dl_carry. destruct (l_dl_carry l !! q); [|by apply Hk]. destruct (file_identity q w). destruct (bool_decide _); by apply Hk.
  - cbn [fst]. destruct out; by apply Hk.
  - apply Hk. cbn [fst]. unfold note_quarantine_pending. rewrite lookup_count_forget; [done|]. intros ->. apply Hs. right. by eexists.
  - unfold retry_dispositions. destruct (_ && _); [by apply Hk|]. destruct (retry_confirms _ _ w).
    destruct (retry_quarantines _ _ _ _). by apply Hk.
Qed.

Lemma panicked_run ops s p :
  Forall (λ op, ¬ strikes p op) ops → panicked p (fst s) → panicked p (fst (ledger_run ops s)).
Proof.
  unfold ledger_run. intros Ho. revert s. induction Ho as [|op ops Hop Ho IH]; [done|]. intros [l w] H. cbn [foldl].
  apply IH. by apply panicked_exec.
Qed.

(** A panic with [p] in flight: the first is counted, the next one parks. *)
Lemma panic_counts p l w :
  (∀ n, l_panic_count l !! p = Some n → 0 ≤ n) → panicked p (fst (ledger_run [LBegin p; LPanic] (l, w))).
Proof.
  intros Hn. cbn. destruct (DRAIN_PANIC_PARK_LIMIT <=? _); [left; cbn; rewrite lookup_insert_eq; by eexists|].
  right. cbn. rewrite lookup_insert_eq. eexists. split; [done|]. unfold saturating_succ_u32, u32_max.
  destruct (l_panic_count l !! p) as [n|]; cbn; [specialize (Hn n eq_refl)|]; lia.
Qed.

Lemma panic_parks p l w :
  panicked p l → is_Some (l_parked (fst (ledger_run [LBegin p; LPanic] (l, w))) !! p).
Proof.
  intros [Hp|(n & Hn & Hge)]; [by apply parked_run|]. cbn. unfold set_attempt. cbn. rewrite Hn. cbn.
  unfold saturating_succ_u32, DRAIN_PANIC_PARK_LIMIT, u32_max. rewrite (proj2 (Z.leb_le _ _)) by lia. cbn.
  rewrite lookup_insert_eq. by eexists.
Qed.

(** C8: a poison segment costs two panics. If the drain panics with a segment in flight, and
    again with it in flight after any calls that did not strike the segment from the
    ledger (delivered, quarantined), the segment is parked; and from then on, whatever is
    called, no copy of it is admitted and the rescan skips it. One panic parks nothing. *)
Theorem poison_segment_parked p l w between ops now :
  (∀ n, l_panic_count l !! p = Some n → 0 ≤ n) → Forall (λ op, ¬ strikes p op) between →
  let s := ledger_run ([LBegin p; LPanic] ++ between ++ [LBegin p; LPanic] ++ ops) (l, w) in
  (excludes p now (fst s) = true ∧ ∃ owner, fst (fst (ledger_admit p now (fst s) (snd s))) = AdmitDrop owner) ∧
  (l_panic_count l !! p = None → l_parked (fst (ledger_run [LBegin p; LPanic] (l, w))) = l_parked l).
Proof.
  intros Hn Hb s. split; [|intros E; cbn; by rewrite E].
  assert (Hp : is_Some (l_parked (fst s) !! p)).
  { unfold s, ledger_run. rewrite !foldl_app. apply parked_run.
    pose proof (panic_counts p l w Hn) as H1. pose proof (panicked_run between _ p Hb H1) as H2.
    unfold ledger_run in H2. destruct (foldl _ (foldl _ _ _) between) as [l2 w2]. by apply panic_parks. }
  assert (Hx : excludes p now (fst s) = true).
  { unfold excludes, contains. rewrite (bool_decide_eq_true_2 _ Hp), orb_true_r. done. }
  split; [done|]. destruct (ledger_admit p now (fst s) (snd s)) as [[[skip|o] l'] w'] eqn:E; [|by exists o].
  apply admit_spec in E as [_ [E _]]. congruence.
Qed.
End LedgerFacts.

Module LedgerWitness.
#[local] Existing Instance Crc32Ieee.ieee.
#[local] Existing Instance ZstdRaw.raw.

Definition poisonous : path := [bstr "wab"; bstr "shard_00"; bstr "00000001.sealed"].

(** In flight when the drain panicked, put off and admitted again, in flight in a second
    panic: parked, and still so after it is handed over again and the drain panics. *)
Lemma poison_segment_parked_witness :
  let w := fresh_world (parent poisonous) in
  let s := ledger_run ([LBegin poisonous; LPanic] ++ [LNotBefore poisonous 3; LAdmit poisonous 4] ++
                       [LBegin poisonous; LPanic] ++ [LAdmit poisonous 5; LPanic]) (ledger_new 0, w) in
  excludes poisonous 7 (fst s) = true ∧ ∃ owner, fst (fst (ledger_admit poisonous 7 (fst s) (snd s))) = AdmitDrop owner.
Proof.
  intros w. refine (proj1 (poison_segment_parked poisonous (ledger_new 0) w [LNotBefore poisonous 3; LAdmit poisonous 4]
    [LAdmit poisonous 5; LPanic] 7 _ _)).
  - done.
  - repeat constructor; intros [?|[? ?]]; done.
Defined.
End LedgerWitness.
