(* ===== verification/Control.v ===== *)
(** * Intent for the drain (weir-server, drain/control.rs)

    [DrainControl]: the atomics through which the lifecycle and the admin interface tell
    the drain to absorb, stop by a deadline, pause or rescan. Each method is one atomic
    step (the compare-and-swap loop of [request_requeue] is its last round). A stop is
    never revoked: deadlines are only lowered, and one that has passed stays passed. *)

From Stdlib Require Import ZArith Lia.
From stdpp Require Import base list option.
From S2P Require Import Prelude.

(** Nanoseconds. *)
Definition millis (n : Z) : Z := n * 1000000.
Definition secs (n : Z) : Z := n * 1000000000.

Definition REQUEUE_MIN_INTERVAL : Z := secs 5.
Definition SLICE : Z := millis 50.
Definition NO_DEADLINE : Z := u64_max.

Inductive Lifetime := Attached | Detached.

Record DrainControl := mkDrainControl {
  c_mode : Lifetime;
  c_epoch : Z;
  c_epoch_unix_ms : Z;
  c_absorb : bool;
  c_stop : bool;
  c_input_closed : bool;
  c_deadline_ms : Z;
  c_pause : bool;
  c_pause_seq : Z;
  c_requeue_req : Z;
  c_requeue_seen : Z;
  c_generation : Z;
}.

(** [DrainControl::new] at instant [now] and wall clock [unix_ms]. *)
Definition control_new (mode : Lifetime) (now unix_ms : Z) : DrainControl :=
  mkDrainControl mode now unix_ms false false false NO_DEADLINE false 0 0 0 0.

(** [now_ms]: capped one below the sentinel. *)
Definition now_ms (c : DrainControl) (now : Z) : Z :=
  Z.min (Z.max 0 (now - c_epoch c) / 1000000) (NO_DEADLINE - 1).

(** [deadline_raw]. *)
Definition deadline_raw (c : DrainControl) : option Z :=
  if c_deadline_ms c =? NO_DEADLINE then None else Some (c_deadline_ms c).

(** ** The control side *)

Definition begin_shutdown (c : DrainControl) : DrainControl :=
  mkDrainControl (c_mode c) (c_epoch c) (c_epoch_unix_ms c) true (c_stop c) (c_input_closed c)
    (c_deadline_ms c) (c_pause c) (c_pause_seq c) (c_requeue_req c) (c_requeue_seen c) (c_generation c).

Definition request_stop (budget now : Z) (c : DrainControl) : DrainControl :=
  let budget_ms := Z.min (budget / 1000000) u64_max in
  let at_ := Z.min (saturating_add_u64 (now_ms c now) budget_ms) (NO_DEADLINE - 1) in
  mkDrainControl (c_mode c) (c_epoch c) (c_epoch_unix_ms c) (c_absorb c) true true
    (Z.min (c_deadline_ms c) at_) (c_pause c) (c_pause_seq c) (c_requeue_req c) (c_requeue_seen c)
    (c_generation c).

Definition force_stop (now : Z) (c : DrainControl) : DrainControl :=
  mkDrainControl (c_mode c) (c_epoch c) (c_epoch_unix_ms c) true true (c_input_closed c)
    (Z.min (c_deadline_ms c) (now_ms c now)) (c_pause c) (c_pause_seq c) (c_requeue_req c)
    (c_requeue_seen c) (c_generation c).

(** [request_pause] and [request_resume]. *)
Definition set_pause (b : bool) (c : DrainControl) : DrainControl :=
  mkDrainControl (c_mode c) (c_epoch c) (c_epoch_unix_ms c) (c_absorb c) (c_stop c) (c_input_closed c)
    (c_deadline_ms c) b (c_pause_seq c + 1) (c_requeue_req c) (c_requeue_seen c) (c_generation c).
Definition request_pause (c : DrainControl) : DrainControl := set_pause true c.
Definition request_resume (c : DrainControl) : DrainControl := set_pause false c.

(** [request_requeue]: an outstanding ticket is shared. *)
Definition request_requeue (c : DrainControl) : DrainControl :=
  if c_requeue_seen c <? c_requeue_req c then c else
  mkDrainControl (c_mode c) (c_epoch c) (c_epoch_unix_ms c) (c_absorb c) (c_stop c) (c_input_closed c)
    (c_deadline_ms c) (c_pause c) (c_pause_seq c) (c_requeue_req c + 1) (c_requeue_seen c) (c_generation c).

(** ** The drain side *)

Definition absorbing (c : DrainControl) : bool := c_absorb c.
Definition stop_requested (c : DrainControl) : bool := c_stop c.
Definition input_closed (c : DrainControl) : bool := c_input_closed c.
Definition pause_requested (c : DrainControl) : bool := c_pause c.

Definition deadline_passed (c : DrainControl) (now : Z) : bool :=
  match deadline_raw c with Some d => d <=? now_ms c now | None => false end.

(** [time_left], in nanoseconds. *)
Definition time_left (c : DrainControl) (now : Z) : option Z :=
  option_map (λ d, millis (Z.max 0 (d - now_ms c now))) (deadline_raw c).

(** [deadline], as an instant. *)
Definition deadline (c : DrainControl) : option Z :=
  option_map (λ d, c_epoch c + millis d) (deadline_raw c).

Definition observe_requeue (ticket : Z) (c : DrainControl) : DrainControl :=
  mkDrainControl (c_mode c) (c_epoch c) (c_epoch_unix_ms c) (c_absorb c) (c_stop c) (c_input_closed c)
    (c_deadline_ms c) (c_pause c) (c_pause_seq c) (c_requeue_req c) (Z.max (c_requeue_seen c) ticket)
    (c_generation c).

Definition begin_generation (c : DrainControl) : DrainControl :=
  mkDrainControl (c_mode c) (c_epoch c) (c_epoch_unix_ms c) (c_absorb c) (c_stop c) (c_input_closed c)
    (c_deadline_ms c) (c_pause c) (c_pause_seq c) (c_requeue_req c) (c_requeue_seen c) (c_generation c + 1).

(** ** Sequences of calls *)

Inductive ControlOp :=
| CtlBeginShutdown | CtlRequestStop (budget : Z) | CtlForceStop | CtlPause | CtlResume | CtlRequeue
| CtlObserve | CtlBeginGeneration.

(** One call at instant [now]; the drain observes the ticket it has read. *)
Definition control_exec (op : ControlOp) (now : Z) (c : DrainControl) : DrainControl :=
  match op with
  | CtlBeginShutdown => begin_shutdown c
  | CtlRequestStop b => request_stop b now c
  | CtlForceStop => force_stop now c
  | CtlPause => request_pause c
  | CtlResume => request_resume c
  | CtlRequeue => request_requeue c
  | CtlObserve => observe_requeue (c_requeue_req c) c
  | CtlBeginGeneration => begin_generation c
  end.

(** Calls at the instants they are made. *)
Definition control_run (ops : list (ControlOp * Z)) (c : DrainControl) : DrainControl :=
  foldl (λ c '(op, now), control_exec op now c) c ops.

Record control_le (c c' : DrainControl) : Prop := mkControlLe {
  cl_epoch : c_epoch c' = c_epoch c;
  cl_absorb : c_absorb c = true → c_absorb c' = true;
  cl_stop : c_stop c = true → c_stop c' = true;
  cl_input : c_input_closed c = true → c_input_closed c' = true;
  cl_deadline : c_deadline_ms c' ≤ c_deadline_ms c;
}.

#[export] Instance control_le_preorder : PreOrder control_le.
Proof.
  split; [by intros c; constructor|]. intros c1 c2 c3 [E1 A1 S1 I1 D1] [E2 A2 S2 I2 D2].
  constructor; [congruence|auto..|lia].
Qed.

Lemma control_exec_le op now c : control_le c (control_exec op now c).
Proof.
  destruct op; cbn [control_exec]; try (constructor; cbn; (done || lia)).
  unfold request_requeue. destruct (_ <? _); [done|]. constructor; cbn; (done || lia).
Qed.

Lemma control_run_le ops c : control_le c (control_run ops c).
Proof.
  unfold control_run. revert c. induction ops as [|[op now] ops IH]; intros c; [done|]. cbn [foldl].
  etrans; [apply control_exec_le|apply IH].
Qed.

Lemma deadline_passed_le c c' now now' :
  control_le c c' → now ≤ now' → deadline_passed c now = true → deadline_passed c' now' = true.
Proof.
  intros [E A S I D] Hn. unfold deadline_passed, deadline_raw.
  destruct (Z.eqb_spec (c_deadline_ms c) NO_DEADLINE) as [|Hne]; [done|].
  intros Hd%Z.leb_le. assert (Hm : now_ms c now ≤ now_ms c' now').
  { unfold now_ms. rewrite E. apply Z.min_le_compat_r, Z.div_le_mono; lia. }
  assert (now_ms c now ≤ NO_DEADLINE - 1) by (unfold now_ms; lia).
  rewrite (proj2 (Z.eqb_neq _ _)) by lia. apply Z.leb_le. lia.
Qed.

(** A ticket is outstanding at most once. *)
Lemma control_exec_tickets op now c :
  c_requeue_seen c ≤ c_requeue_req c ≤ c_requeue_seen c + 1 →
  c_requeue_seen (control_exec op now c) ≤ c_requeue_req (control_exec op now c)
    ≤ c_requeue_seen (control_exec op now c) + 1.
Proof.
  intros H. destruct op; cbn [control_exec]; try (cbn; lia).
  unfold request_requeue. destruct (Z.ltb_spec (c_requeue_seen c) (c_requeue_req c)); cbn; lia.
Qed.

(** A stop is final: whatever calls follow, and at any later instant, a requested stop
    is still requested, a passed deadline is still passed, the absorb mode stays on, and
    at most one retry ticket is outstanding. *)
Theorem stop_is_final ops ops' mode t0 unix now now' :
  now ≤ now' →
  let c := control_run ops (control_new mode t0 unix) in
  let c' := control_run ops' c in
  (stop_requested c = true → stop_requested c' = true) ∧
  (deadline_passed c now = true → deadline_passed c' now' = true) ∧
  (absorbing c = true → absorbing c' = true) ∧
  c_requeue_seen c' ≤ c_requeue_req c' ≤ c_requeue_seen c' + 1.
Proof.
  intros Hn c c'. pose proof (control_run_le ops' c) as Hle. fold c' in Hle. pose proof Hle as [E A S I D].
  split; [done|]. split; [|split; [done|]].
  - by apply deadline_passed_le.
  - assert (H : ∀ l c0, c_requeue_seen c0 ≤ c_requeue_req c0 ≤ c_requeue_seen c0 + 1 →
      c_requeue_seen (control_run l c0) ≤ c_requeue_req (control_run l c0) ≤ c_requeue_seen (control_run l c0) + 1).
    { unfold control_run. induction l as [|[op t] l IH]; intros c0 H0; [done|]. cbn [foldl].
      apply IH. by apply control_exec_tickets. }
    apply H, H. cbn. lia.
Qed.

Lemma stop_is_final_witness :
  let c := control_run [(CtlRequestStop (secs 2), 0)] (control_new Attached 0 0) in
  deadline_passed c (secs 3) = true ∧
  deadline_passed (control_run [(CtlPause, secs 3); (CtlRequestStop (secs 60), secs 4)] c) (secs 5) = true.
Proof.
  split; [by vm_compute|].
  apply (stop_is_final [(CtlRequestStop (secs 2), 0)] [(CtlPause, secs 3); (CtlRequestStop (secs 60), secs 4)]
           Attached 0 0 (secs 3) (secs 5)); by vm_compute.
Defined.
