(* ===== verification/Deliver.v ===== *)
(** * Delivering one segment (weir-server, drain/mod.rs)

    [process_segment_ctl] and what it calls: the record loop, the commit of a sub-batch,
    the dead-letter write of what the sink rejects, the header verdict, the completeness
    check against the footer, and [attempt_segment] with its dead-letter carry. The sink
    is the class [Sink]. Heartbeats, log lines and the status board are not modelled.

    Other threads act on the drain only through the clock, the control atomics and the
    channel: [dr_env] holds what they do, one list of actions per point at which the code
    looks. A panic that unwinds is the result [PPanicked]. [dr_log] is an observation, which the
    code never reads: what the sink has reported as committed and what has been
    dead-lettered, per file. *)

From Stdlib Require Import ZArith Lia Strings.Byte String.
From stdpp Require Import base gmap list option sets.
From S2P Require Import Prelude Deps Wire Sink Text Names Io Fs Durable Touch Format Reader Segment Recovery Scan.
From S2P Require Import Confirm DeadLetter Ledger Control.

(** ** Configuration and environment *)

Record DrainConfig := mkDrainConfig {
  dc_wab_dir : path;
  dc_dead_letter_max_bytes : Z;
  dc_dead_letter_check_interval : Z;
  dc_base_retry_delay : Z;
  dc_max_retries : Z;
  dc_max_respawns : Z;
  dc_commit_timeout : Z;
  dc_health_poll_interval : Z;
  dc_orphan_cleanup : bool;
  dc_local_read_escalation_min_age : Z;
}.

Definition LOCAL_READ_STRAND_LIMIT : Z := 3.

(** What other threads do. *)
Inductive EnvAct :=
| EnvTick (ns : Z)
| EnvControl (op : ControlOp)
| EnvSend (p : path)
| EnvDisconnect.

Inductive Handled :=
| Accepted (file : option inode) (records : list bytes)
| DeadLettered (file : option inode) (counter : Z) (records : list bytes).

Section Deliver.
Context {CRC : Crc32} {ZS : Zstd} {SHA : Sha256} {SK : Sink}.

Record Dr := mkDr {
  dr_world : World;
  dr_sink : sink_state;
  dr_control : DrainControl;
  dr_channel : list path;
  dr_connected : bool;
  dr_env : list (list EnvAct);
  dr_log : list Handled;
}.

Definition set_world (w : World) (d : Dr) : Dr :=
  mkDr w (dr_sink d) (dr_control d) (dr_channel d) (dr_connected d) (dr_env d) (dr_log d).
Definition set_sink (s : sink_state) (d : Dr) : Dr :=
  mkDr (dr_world d) s (dr_control d) (dr_channel d) (dr_connected d) (dr_env d) (dr_log d).
Definition set_control (c : DrainControl) (d : Dr) : Dr :=
  mkDr (dr_world d) (dr_sink d) c (dr_channel d) (dr_connected d) (dr_env d) (dr_log d).
Definition set_channel (l : list path) (d : Dr) : Dr :=
  mkDr (dr_world d) (dr_sink d) (dr_control d) l (dr_connected d) (dr_env d) (dr_log d).
Definition log_handled (h : Handled) (d : Dr) : Dr :=
  mkDr (dr_world d) (dr_sink d) (dr_control d) (dr_channel d) (dr_connected d) (dr_env d) (dr_log d ++ [h]).
Definition upd_world (f : World → World) (d : Dr) : Dr := set_world (f (dr_world d)) d.

(** The monotonic clock moves forward only. *)
Definition tick (ns : Z) (w : World) : World :=
  mkWorld (w_fs w) (w_metrics w) (w_unix w + Z.max 0 ns) (w_instant w + Z.max 0 ns).

Definition env_act (a : EnvAct) (d : Dr) : Dr :=
  match a with
  | EnvTick ns => upd_world (tick ns) d
  | EnvControl op => set_control (control_exec op (w_instant (dr_world d)) (dr_control d)) d
  | EnvSend p => if dr_connected d then set_channel (dr_channel d ++ [p]) d else d
  | EnvDisconnect =>
    mkDr (dr_world d) (dr_sink d) (dr_control d) (dr_channel d) false (dr_env d) (dr_log d)
  end.

(** What has happened by the time the code looks again. *)
Definition observe (d : Dr) : Dr :=
  match dr_env d with
  | [] => d
  | acts :: rest =>
    foldl (λ d a, env_act a d)
      (mkDr (dr_world d) (dr_sink d) (dr_control d) (dr_channel d) (dr_connected d) rest (dr_log d)) acts
  end.

Definition instant_now (d : Dr) : Z := w_instant (dr_world d).
Definition dr_deadline_passed (d : Dr) : bool := deadline_passed (dr_control d) (instant_now d).

(** The file at a path, as the log names it. *)
Definition file_at (p : path) (d : Dr) : option inode := fs_live (w_fs (dr_world d)) !! p.

(** ** Dead letters *)

Inductive DeadLetterFailure := DLBlocked (needed : Z) | DLWriteFailed.

(** [dead_letter_records]; [file] is the file the records come from, for the log. *)
Definition dead_letter_records (file : option inode) (records : list bytes) (config : DrainConfig)
    (dl : DeadLetterWriter) (d : Dr) : result unit DeadLetterFailure * DeadLetterWriter * Dr :=
  let estimated := estimated_segment_bytes records in
  if would_exceed_cap dl estimated (dc_dead_letter_max_bytes config) &&
     negb (dc_dead_letter_max_bytes config <? estimated) then (Err (DLBlocked estimated), dl, d) else
  match write_records records dl (dr_world d) with
  | (Ok _, dl, w) =>
    let d := set_world (inc_by SinkRecordsDeadLettered (blen records) w) d in
    (Ok tt, dl, log_handled (DeadLettered file (dl_next_counter dl - 1) records) d)
  | (Err _, dl, w) => (Err DLWriteFailed, dl, set_world (inc DrainDeadLetterWriteFailures w) d)
  end.

(** ** One sub-batch *)

(** [BatchResult]; what is owed are the rejected records and the number accepted. *)
Inductive BatchResult :=
| BatchOk
| BatchTransient (retry_after : option Z) (cause : TransientCause) (owed : option (list bytes * Z))
| BatchBlocked (needed : Z) (owed : list bytes * Z)
| BatchAbandoned
| BatchPanicked.

(** [owed_result]. *)
Definition owed_result (failure : DeadLetterFailure) (payloads : list bytes) (committed : Z) : BatchResult :=
  match failure with
  | DLBlocked needed => BatchBlocked needed (payloads, committed)
  | DLWriteFailed => BatchTransient None CauseLocalWrite (Some (payloads, committed))
  end.

Definition wait_until (t : Z) (d : Dr) : Dr := upd_world (tick (t - instant_now d)) d.

(** The [select!] of [commit_batch_ctl] over a commit that does not answer: it ends when
    [commit_timeout] is [over], or before that at the stop deadline ([true]). What others
    do meanwhile, time they take included, is in [d] already; [biased] looks at the
    timeout first. *)
Definition silent_race (over : Z) (d : Dr) : bool * Dr :=
  if over <=? instant_now d then (false, d) else
  match deadline (dr_control d) with
  | Some at_ => if at_ <? over then (true, wait_until at_ d) else (false, wait_until over d)
  | None => (false, wait_until over d)
  end.

(** [commit_batch_ctl]. A sink that stays silent is ended by the stop deadline or else by
    [commit_timeout]. *)
Definition commit_batch (file : option inode) (payloads record_ids : list bytes) (segment_created_at : Z)
    (config : DrainConfig) (dl : DeadLetterWriter) (d : Dr) : BatchResult * DeadLetterWriter * Dr :=
  match with_segment_context payloads (for_payloads payloads) record_ids segment_created_at with
  | None => (BatchPanicked, dl, d)
  | Some batch =>
    let over := instant_now d + dc_commit_timeout config in
    let '(answer, sk) := commit batch (dr_sink d) in
    let d := observe (set_sink sk d) in
    match answer with
    | Panicked => (BatchPanicked, dl, d)
    | Silent =>
      let '(by_deadline, d) := silent_race over d in
      if by_deadline then (BatchAbandoned, dl, d)
      else (BatchTransient None CauseSink None, dl, upd_world (inc_by SinkRecordsRetried (blen payloads)) d)
    | Answered (Ok r) =>
      let accounted := blen (cr_committed r) + blen (cr_dead_lettered r) in
      if negb (accounted =? blen payloads) then (BatchTransient None CauseSink None, dl, d) else
      let d := log_handled (Accepted file (cr_committed r)) d in
      let committed_count := blen (cr_committed r) in
      let finish (dl : DeadLetterWriter) (d : Dr) :=
        (BatchOk, dl, upd_world (inc_by SinkRecordsCommitted committed_count) d) in
      let dead_payloads := map fst (cr_dead_lettered r) in
      match dead_payloads with
      | [] => finish dl d
      | _ =>
        match dead_letter_records file dead_payloads config dl d with
        | (Err failure, dl, d) => (owed_result failure dead_payloads committed_count, dl, d)
        | (Ok _, dl, d) => finish dl d
        end
      end
    | Answered (Err e) =>
      if is_transient e then
        (BatchTransient (retry_after e) CauseSink None, dl,
         upd_world (inc_by SinkRecordsRetried (blen payloads)) d)
      else
        match dead_letter_records file payloads config dl d with
        | (Err failure, dl, d) => (owed_result failure payloads 0, dl, d)
        | (Ok _, dl, d) => (BatchOk, dl, d)
        end
    end
  end.

(** ** One attempt *)

Inductive ProcessResult :=
| PConfirmed (record_count : Z)
| PTransient (retry_after : option Z) (processed : Z) (cause : TransientCause) (carry : option DeadLetterCarry)
| PBlockedDeadLetter (processed needed : Z) (carry : option DeadLetterCarry)
| PQuarantined
| PQuarantinePending (reason : bytes)
| PParked (reason : ParkReason)
| PPaused (processed : Z)
| PAbandoned (processed : Z)
| PPanicked.

(** [apply_batch]: the new cursor, or the result to report. *)
Definition apply_batch (r : BatchResult) (durable_through n : Z) : result Z ProcessResult :=
  let carry '(payloads, committed) := into_carry payloads committed (durable_through + n) in
  match r with
  | BatchOk => Ok (durable_through + n)
  | BatchTransient retry_after cause owed =>
    Err (PTransient retry_after durable_through cause (option_map carry owed))
  | BatchBlocked needed owed => Err (PBlockedDeadLetter durable_through needed (Some (carry owed)))
  | BatchAbandoned => Err (PAbandoned durable_through)
  | BatchPanicked => Err PPanicked
  end.

(** [batch_gate]: checked before every commit. *)
Definition batch_gate (d : Dr) (durable_through : Z) : option ProcessResult :=
  if stop_requested (dr_control d) && dr_deadline_passed d then Some (PAbandoned durable_through) else
  if pause_requested (dr_control d) then Some (PPaused durable_through) else None.

(** [is_corruption]. *)
Definition is_corruption (e : ErrorKind) : bool :=
  match e with InvalidData | UnexpectedEof => true | _ => false end.

(** [local_read_failure]. *)
Definition local_read_failure (e : ErrorKind) (skip : Z) : ProcessResult :=
  PTransient None skip (CauseLocalRead (classify e)) None.

Inductive HeaderVerdict :=
| NewerFormat (version : byte) (flags : option byte)
| HeaderCorrupt
| HeaderGone
| HeaderUnreadable (e : ErrorKind).

(** [inspect_rejected_header]. *)
Definition inspect_rejected_header (segment : path) (w : World) : HeaderVerdict * World :=
  match open_read segment w with
  | (Err NotFound, w) => (HeaderGone, w)
  | (Err e, w) => (HeaderUnreadable e, w)
  | (Ok st, w) =>
    let header := take (Z.to_nat SEGMENT_HEADER_LEN) (st_data st) in
    if st_bad st && (blen header <? SEGMENT_HEADER_LEN) then (HeaderUnreadable OtherError, w) else
    if (blen header <? 5) || negb (bool_decide (slice 0 4 header = SEGMENT_MAGIC)) then (HeaderCorrupt, w) else
    let version := header !!! 4%nat in
    if b2z FORMAT_VERSION_MAX_SUPPORTED <? b2z version then (NewerFormat version (header !! 5%nat), w) else
    match parse_segment_header header with
    | Err (SHReservedFlagsSet v flags) =>
      if bool_decide (v = FORMAT_VERSION_V2) then (NewerFormat FORMAT_VERSION_V2 (Some flags), w)
      else (HeaderCorrupt, w)
    | Err _ => (HeaderCorrupt, w)
    | Ok _ => (HeaderUnreadable InvalidData, w)
    end
  end.

(** [quarantine_segment]: whether the move landed. *)
Definition quarantine_segment (segment : path) (config : DrainConfig) (w : World) : bool * World :=
  match move_to_quarantine segment (dc_wab_dir config) w with
  | (Ok _, w) => (true, w)
  | (Err _, w) => (false, inc DrainQuarantineFailures w)
  end.

(** [quarantine_result]. *)
Definition quarantine_result (segment : path) (config : DrainConfig) (reason : bytes) (d : Dr)
    : ProcessResult * Dr :=
  let '(moved, w) := quarantine_segment segment config (dr_world d) in
  (if moved then PQuarantined else PQuarantinePending reason, set_world w d).

(** The state of the record loop. *)
Record Loop := mkLoop {
  lp_read_index : Z;
  lp_durable_through : Z;
  lp_batch : list bytes;
  lp_batch_ids : list bytes;
}.

(** What the loop and the two commits after it share. *)
Record Attempt := mkAttempt {
  at_segment : path;
  at_file : option inode;
  at_created_at : Z;
  at_max_batch : Z;
  at_skip : Z;
  at_last_chance : bool;
}.

(** The gate, the commit of the loop's batch and the cursor after it; the clock and the
    control are looked at before the gate. *)
Definition send_batch (a : Attempt) (config : DrainConfig) (lp : Loop) (dl : DeadLetterWriter) (d : Dr)
    : result Loop ProcessResult * DeadLetterWriter * Dr :=
  let d := observe d in
  match batch_gate d (lp_durable_through lp) with
  | Some stop => (Err stop, dl, d)
  | None =>
    let '(r, dl, d) := commit_batch (at_file a) (lp_batch lp) (lp_batch_ids lp) (at_created_at a) config dl d in
    match apply_batch r (lp_durable_through lp) (blen (lp_batch lp)) with
    | Err setback => (Err setback, dl, d)
    | Ok durable_through => (Ok (mkLoop (lp_read_index lp) durable_through [] []), dl, d)
    end
  end.

Definition REASON_READ : bytes := bstr "drain: mid-segment read error".
Definition REASON_MEDIA : bytes := bstr "drain: persistent local read error mid-segment".

(** [for result in reader]: the state after the loop and the reason to quarantine the
    segment once its readable prefix is delivered. *)
Fixpoint record_loop (a : Attempt) (config : DrainConfig) (items : list (result bytes ErrorKind)) (lp : Loop)
    (dl : DeadLetterWriter) (d : Dr) : result (Loop * option bytes) ProcessResult * DeadLetterWriter * Dr :=
  match items with
  | [] => (Ok (lp, None), dl, d)
  | Err e :: _ =>
    if is_corruption e then (Ok (lp, Some REASON_READ), dl, d) else
    let class := classify e in
    if at_last_chance a && bool_decide (class = ClassMedia) then (Ok (lp, Some REASON_MEDIA), dl, d) else
    (Err (PTransient None (lp_durable_through lp) (CauseLocalRead class) None), dl, d)
  | Ok payload :: items =>
    let read_index := lp_read_index lp + 1 in
    if read_index <=? at_skip a then
      record_loop a config items (mkLoop read_index (lp_durable_through lp) (lp_batch lp) (lp_batch_ids lp)) dl d
    else
      let id := for_record (segment_identity (at_segment a)) read_index payload in
      let lp := mkLoop read_index (lp_durable_through lp) (lp_batch lp ++ [payload]) (lp_batch_ids lp ++ [id]) in
      if at_max_batch a <=? blen (lp_batch lp) then
        match send_batch a config lp dl d with
        | (Err stop, dl, d) => (Err stop, dl, d)
        | (Ok lp, dl, d) => record_loop a config items lp dl d
        end
      else record_loop a config items lp dl d
  end.

Definition REASON_MISMATCH : bytes := bstr "drain: record count mismatch vs footer (truncated tail)".
Definition REASON_FOOTER : bytes := bstr "drain: footer unreadable, completeness unverifiable".
Definition REASON_HEADER : bytes := bstr "drain: corrupt segment header".

(** The completeness check before confirming. *)
Definition completeness_check (segment : path) (config : DrainConfig) (lp : Loop) (d : Dr) : ProcessResult * Dr :=
  match read_segment_record_count segment (dr_world d) with
  | (Ok footer_count, w) =>
    let d := set_world w d in
    if footer_count =? lp_read_index lp then (PConfirmed (lp_read_index lp), d)
    else quarantine_result segment config REASON_MISMATCH d
  | (Err e, w) =>
    let d := set_world w d in
    if is_corruption e then quarantine_result segment config REASON_FOOTER d else
    if bool_decide (e = NotFound) then (PConfirmed (lp_read_index lp), d) else
    (PTransient None (lp_durable_through lp) (CauseLocalRead (classify e)) None, d)
  end.

(** What follows the record loop: the last partial batch, the quarantine, the footer. *)
Definition finish_segment (a : Attempt) (config : DrainConfig) (lp : Loop) (quarantine_after : option bytes)
    (dl : DeadLetterWriter) (d : Dr) : ProcessResult * DeadLetterWriter * Dr :=
  let rest (lp : Loop) (dl : DeadLetterWriter) (d : Dr) :=
    let '(r, d) := match quarantine_after with
                   | Some reason => quarantine_result (at_segment a) config reason d
                   | None => completeness_check (at_segment a) config lp d
                   end in (r, dl, d) in
  match lp_batch lp with
  | [] => rest lp dl d
  | _ =>
    match send_batch a config lp dl d with
    | (Err stop, dl, d) => (stop, dl, d)
    | (Ok lp, dl, d) => rest lp dl d
    end
  end.

(** [process_segment_ctl]. *)
Definition process_segment (segment : path) (config : DrainConfig) (skip : Z) (last_local_read_chance : bool)
    (dl : DeadLetterWriter) (d : Dr) : ProcessResult * DeadLetterWriter * Dr :=
  let file := file_at segment d in
  let '(opened, w) := open_read segment (dr_world d) in
  let d := set_world w d in
  match segment_reader_open opened with
  | Ok reader =>
    let a := mkAttempt segment file (sh_created_at (sr_header reader)) (Z.max 1 (max_batch_size (dr_sink d)))
               skip last_local_read_chance in
    match record_loop a config (fst (sr_items reader)) (mkLoop 0 skip [] []) dl d with
    | (Err r, dl, d) => (r, dl, d)
    | (Ok (lp, quarantine_after), dl, d) => finish_segment a config lp quarantine_after dl d
    end
  | Err NotFound => (PConfirmed 0, dl, d)
  | Err InvalidData =>
    let '(verdict, w) := inspect_rejected_header segment (dr_world d) in
    let d := set_world w d in
    match verdict with
    | NewerFormat _ _ => (PParked UnsupportedVersion, dl, d)
    | HeaderCorrupt => let '(r, d) := quarantine_result segment config REASON_HEADER d in (r, dl, d)
    | HeaderGone => (PConfirmed 0, dl, d)
    | HeaderUnreadable e => (local_read_failure e skip, dl, d)
    end
  | Err e => (local_read_failure e skip, dl, d)
  end.

(** ** Attempts *)

(** [u32::saturating_add] and [u32::saturating_mul]. *)
Definition saturating_u32 (n : Z) : Z := Z.min n u32_max.

(** [local_read_limit]. *)
Definition local_read_limit (config : DrainConfig) : Z :=
  saturating_u32 (saturating_u32 (dc_max_retries config + 1) * LOCAL_READ_STRAND_LIMIT).

(** [local_read_escalation_due]. *)
Definition local_read_escalation_due (segment : path) (failures : Z) (config : DrainConfig) (l : SegmentLedger) : bool :=
  (local_read_limit config <=? failures) &&
  (dc_local_read_escalation_min_age config <=? local_read_failing_for segment l).

(** [local_read_escalates_next]. *)
Definition local_read_escalates_next (segment : path) (config : DrainConfig) (l : SegmentLedger) : bool :=
  local_read_escalation_due segment (saturating_u32 (local_read_failures segment l + 1)) config l.

(** [settle_dl_carry]: the record to resume from, or the result to report. *)
Definition settle_dl_carry (segment : path) (skip : Z) (carry : DeadLetterCarry) (config : DrainConfig)
    (dl : DeadLetterWriter) (d : Dr) : result Z ProcessResult * DeadLetterWriter * Dr :=
  match dead_letter_records (file_at segment d) (ca_payloads carry) config dl d with
  | (Ok _, dl, d) =>
    (Ok (Z.max (ca_through carry) skip), dl, upd_world (inc_by SinkRecordsCommitted (ca_committed carry)) d)
  | (Err (DLBlocked needed), dl, d) => (Err (PBlockedDeadLetter skip needed (Some carry)), dl, d)
  | (Err DLWriteFailed, dl, d) => (Err (PTransient None skip CauseLocalWrite (Some carry)), dl, d)
  end.

(** [attempt_segment]; a panic leaves the segment marked in flight. *)
Definition attempt_segment (segment : path) (config : DrainConfig) (skip : Z) (l : SegmentLedger)
    (dl : DeadLetterWriter) (d : Dr) : ProcessResult * SegmentLedger * DeadLetterWriter * Dr :=
  let l := begin_attempt segment (dr_world d) l in
  let '(skip, l, w) := checked_skip segment skip l (dr_world d) in
  let '(carry, l, w) := take_dl_carry segment l w in
  let d := set_world w d in
  let '(settled, dl, d) := match carry with
                           | None => (Ok skip, dl, d)
                           | Some carry => settle_dl_carry segment skip carry config dl d
                           end in
  let '(result, dl, d) := match settled with
                          | Err result => (result, dl, d)
                          | Ok skip =>
                            process_segment segment config skip (local_read_escalates_next segment config l) dl d
                          end in
  (result, match result with PPanicked => l | _ => end_attempt l end, dl, d).
End Deliver.
