(* ===== verification/Account.v ===== *)
(** * What an attempt accounts for (weir-server, drain/mod.rs)

    The accounting behind [process_segment]: the log of what the sink accepted and what was
    dead-lettered grows by exactly the records between the old cursor and the new one,
    every dead letter of the log is a sealed segment on disk that every crash preserves,
    and a segment is reported delivered only when every record of it was read up to the
    sentinel, as many as its footer counts. The sink is any sink that keeps the contract
    of [CommitResult]. *)

From Stdlib Require Import ZArith Lia Strings.Byte String.
From stdpp Require Import base gmap list option sets.
From S2P Require Import Prelude Deps Wire Sink Text Names Io Fs Durable Touch Format Reader Segment Recovery Scan.
From S2P Require Import Confirm DeadLetter Ledger Control Deliver.

(** ** The log *)

Definition handled_of (f : option inode) (h : Handled) : list bytes :=
  match h with
  | Accepted g rs | DeadLettered g _ rs => if bool_decide (g = f) then rs else []
  end.

(** The records of file [f] that the sink accepted or that were dead-lettered. *)
Definition handled (f : option inode) (log : list Handled) : list bytes := concat (map (handled_of f) log).

Lemma handled_app f l1 l2 : handled f (l1 ++ l2) = handled f l1 ++ handled f l2.
Proof. unfold handled. by rewrite map_app, concat_app. Qed.

Lemma handled_one f h : handled f [h] = handled_of f h.
Proof. unfold handled. cbn. by rewrite app_nil_r. Qed.

Lemma handled_of_accepted f rs : handled_of f (Accepted f rs) = rs.
Proof. cbn. by rewrite bool_decide_eq_true_2. Qed.

Lemma handled_of_dead f k rs : handled_of f (DeadLettered f k rs) = rs.
Proof. cbn. by rewrite bool_decide_eq_true_2. Qed.

(** Records [a] (inclusive) to [b] (exclusive) of a segment. *)
Definition recs (a b : Z) (ps : list bytes) : list bytes := drop (Z.to_nat a) (take (Z.to_nat b) ps).

Lemma recs_refl a ps : recs a a ps = [].
Proof. unfold recs. apply drop_ge. rewrite length_take. lia. Qed.

Lemma recs_app a b c ps : a ≤ b → b ≤ c → recs a b ps ++ recs b c ps = recs a c ps.
Proof.
  intros Hab Hbc. unfold recs.
  rewrite <-(take_drop (Z.to_nat b) (take (Z.to_nat c) ps)) at 2. rewrite take_take, Nat.min_l by lia.
  destruct (decide (Z.to_nat a ≤ length (take (Z.to_nat b) ps))%nat) as [H|H]; [by rewrite drop_app_le|].
  rewrite length_take in H. rewrite (drop_ge (take (Z.to_nat c) ps)) by (rewrite length_take; lia).
  by rewrite !app_nil_r.
Qed.

Lemma recs_all a ps : recs a (blen ps) ps = drop (Z.to_nat a) ps.
Proof. unfold recs. rewrite take_ge; [done|]. unfold blen. lia. Qed.

Lemma recs_empty a b ps : b ≤ a → recs a b ps = [].
Proof. intros H. unfold recs. apply drop_ge. rewrite length_take. lia. Qed.

Lemma blen_recs a b ps : 0 ≤ a → a ≤ b → b ≤ blen ps → blen (recs a b ps) = b - a.
Proof. intros. unfold recs, blen in *. rewrite length_drop, length_take. lia. Qed.

Lemma recs_snoc a done p rest :
  0 ≤ a → a ≤ blen done → recs a (blen done + 1) (done ++ p :: rest) = recs a (blen done) (done ++ p :: rest) ++ [p].
Proof.
  intros Ha Hle. rewrite <-(recs_app a (blen done)) by lia. f_equal. unfold recs, blen in *.
  rewrite Nat2Z.id. replace (Z.to_nat (Z.of_nat (length done) + 1)) with (length (done ++ [p])) by (rewrite length_app; cbn; lia).
  replace (done ++ p :: rest) with ((done ++ [p]) ++ rest) by (by rewrite <-app_assoc).
  by rewrite take_app_length, drop_app_length.
Qed.

Lemma recs_prefix a b done rest : b ≤ blen done → recs a b (done ++ rest) = recs a b done.
Proof. intros H. unfold recs. rewrite take_app_le; [done|]. unfold blen in H. lia. Qed.

(** ** What a stream of the file yields *)

Lemma covers_prefix st data :
  covers st data → st_data st `prefix_of` data ∧ (st_bad st = false → st_data st = data).
Proof.
  intros [[Hb ->]|[Hb [m ->]]]; [done|]. split; [apply prefix_take|]. by rewrite Hb.
Qed.

Section Streams.
Context {CRC : Crc32} {CL : Crc32Laws} {ZS : Zstd} {ZL : ZstdLaws}.

Lemma no_ok_nil (q : bytes) : (Ok q : result bytes ErrorKind) ∉ [].
Proof. apply not_elem_of_nil. Qed.

Lemma no_ok_err (q : bytes) (e : ErrorKind) : Ok q ∉ [Err e].
Proof. by intros H%list_elem_of_singleton. Qed.
#[local] Hint Resolve no_ok_nil no_ok_err : core.

Lemma ending_no_ok c bad rest en t : sr_ending c bad rest en t → ∀ q : bytes, Ok q ∉ en.
Proof. intros H q. by destruct H. Qed.

Lemma items_prefix hd c data bad more :
  (bad = false → more = []) →
  ∃ ps ps' tail tail', fst (sr_items (reader_at hd c (data ++ more) false)) = map Ok ps ++ tail ∧
    fst (sr_items (reader_at hd c data bad)) = map Ok ps' ++ tail' ∧
    ps' `prefix_of` ps ∧ (tail' = [] → ps' = ps ∧ tail = []) ∧ (∀ q, Ok q ∉ tail) ∧ (∀ q, Ok q ∉ tail').
Proof.
  intros Hbad. remember (length data) as n eqn:Hn. revert data Hn. induction n as [n IH] using lt_wf_ind. intros data ->.
  assert (Hclean : ∃ ps tail, fst (sr_items (reader_at hd c (data ++ more) false)) = map Ok ps ++ tail ∧ ∀ q, Ok q ∉ tail).
  { destruct (reader_shape hd c (data ++ more) false) as (ss & ps & rest & en & r & -> & _ & _ & _ & He).
    exists ps, en. split; [done|]. by eapply ending_no_ok. }
  destruct (sr_next (reader_at hd c data bad)) as [it r'] eqn:E.
  destruct (sr_next_cases _ _ _ _ _ _ E) as
    [(s & p & rest & -> & Hs & -> & ->)|[(-> & _ & _ & rest & -> & _)|[(-> & _ & _ & Hl & ->)|(e & -> & Hd & _)]]].
  - destruct (IH (length rest)) with (data := rest) as (ps & ps' & tl & tl' & H1 & H2 & H3 & H4 & H5 & H6); [|done|].
    { rewrite length_app. unfold frame. len_solve. }
    exists (p :: ps), (p :: ps'), tl, tl'. rewrite <-app_assoc, !(sr_items_frame hd c s p) by done.
    destruct (sr_items (reader_at hd c (rest ++ more) false)), (sr_items (reader_at hd c rest bad)). cbn in *.
    rewrite H1, H2. split; [done|]. split; [done|]. split; [by apply prefix_cons|]. split; [|done].
    intros ->. by destruct (H4 eq_refl) as [-> ->].
  - exists [], [], [], []. rewrite <-app_assoc, !sr_items_sentinel. auto 10 using no_ok_nil.
  - exists [], [], [], []. rewrite (Hbad eq_refl), app_nil_r, sr_items_torn by done. auto 10 using no_ok_nil.
  - destruct Hclean as (ps & tl & H1 & H2). exists ps, [], tl, [Err e]. split; [done|].
    rewrite sr_items_unfold, E, sr_collect_done by done. split; [done|]. split; [apply prefix_nil|]. by split.
Qed.

(** The whole contents of [data]: its header and its readable records, with what stops the
    reading. *)
Definition reads (data : bytes) (ps : list bytes) (tail : list (result bytes ErrorKind)) : Prop :=
  ∃ r, segment_reader_open (Ok (mkStream data false)) = Ok r ∧ fst (sr_items r) = map Ok ps ++ tail ∧
       ∀ q, Ok q ∉ tail.

Lemma oks_unique (ps ps' : list bytes) (tail tail' : list (result bytes ErrorKind)) :
  map Ok ps ++ tail = map Ok ps' ++ tail' → (∀ q, Ok q ∉ tail) → (∀ q, Ok q ∉ tail') → ps = ps' ∧ tail = tail'.
Proof.
  revert ps'. induction ps as [|p ps IH]; intros [|p' ps'] H Ht Ht'; cbn in H; [done|..].
  - subst. by destruct (Ht p'); left.
  - subst. by destruct (Ht' p); left.
  - injection H as -> H. by destruct (IH ps' H Ht Ht') as [-> ->].
Qed.

(** A stream that opens reads the same records, up to where it breaks; if it does not
    break it has read them all. *)
Lemma reads_stream data st r ps tail :
  covers st data → segment_reader_open (Ok st) = Ok r → reads data ps tail →
  ∃ ps' tail', fst (sr_items r) = map Ok ps' ++ tail' ∧ ps' `prefix_of` ps ∧
    (tail' = [] → ps' = ps ∧ tail = []) ∧ ∀ q, Ok q ∉ tail'.
Proof.
  intros [[more Hd] Hb]%covers_prefix Ho (r0 & Ho0 & Hi0 & Ht).
  apply segment_reader_open_inv in Ho as (hb & hd & Hp & Hdat & Hr).
  rewrite Hd, Hdat, <-app_assoc, (segment_reader_open_Ok hb hd) in Ho0 by done. injection Ho0 as <-. rewrite Hr.
  set (body := st_data (sr_reader r)) in *.
  destruct (items_prefix hd (sh_compression hd) body (st_bad st) more) as (qs & qs' & tl & tl' & H1 & H2 & H3 & H4 & H5 & H6).
  { intros Hf. rewrite (Hb Hf) in Hd. rewrite <-(app_nil_r data) in Hd at 1. by apply app_inv_head in Hd. }
  rewrite H1 in Hi0. destruct (oks_unique _ _ _ _ Hi0 H5 Ht) as [-> ->]. exists qs', tl'. auto.
Qed.

(** Streams of the same file have the same header. *)
Lemma stream_header st data r r0 :
  covers st data → segment_reader_open (Ok st) = Ok r → segment_reader_open (Ok (mkStream data false)) = Ok r0 →
  sr_header r = sr_header r0.
Proof.
  intros [[more Hd] _]%covers_prefix Ho Ho0. apply segment_reader_open_inv in Ho as (hb & hd & Hp & Hdat & ->).
  rewrite Hd, Hdat, <-app_assoc, (segment_reader_open_Ok hb hd) in Ho0 by done. by injection Ho0 as <-.
Qed.

(** Contents of which one stream opens are readable. *)
Lemma reads_opens data st r :
  covers st data → segment_reader_open (Ok st) = Ok r → ∃ ps tail, reads data ps tail.
Proof.
  intros [[more Hd] Hb]%covers_prefix Ho. apply segment_reader_open_inv in Ho as (hb & hd & Hp & Hdat & _).
  pose proof (reader_shape hd (sh_compression hd) (st_data (sr_reader r) ++ more) false) as (ss & ps & rest & en & r' & Hi & _ & _ & _ & He).
  exists ps, en. eexists. rewrite Hd, Hdat, <-app_assoc, (segment_reader_open_Ok hb hd) by done. split; [done|].
  rewrite Hi. split; [done|]. by eapply ending_no_ok.
Qed.
End Streams.

(** ** Setting a segment aside *)

(** Nothing changes but the device's faults. *)
Abbreviation unchanged s s' := (fs_live s' = fs_live s ∧ fs_files s' = fs_files s ∧ touches (λ _, False) s s').

(** [p] is moved to a free name of the quarantine directory, as it is, or not at all. *)
Definition set_aside (wab p : path) (s s' : Fs) : Prop :=
  unchanged s s' ∨
  ∃ dest i, parent dest = quarantine_dir wab ∧ fs_live s !! dest = None ∧ fs_live s !! p = Some i ∧
    fs_live s' = <[dest := i]> (delete p (fs_live s)) ∧ fs_files s' = fs_files s ∧
    touches (λ q, q = p ∨ q = dest) s s'.

Lemma quiet_unchanged w w' : quiet w w' → unchanged (w_fs w) (w_fs w').
Proof. intros Q. pose proof (quiet_touches (λ _, False) _ _ Q) as T. by destruct Q as (_ & (L & _) & F & _). Qed.

Lemma unchanged_trans s1 s2 s3 : unchanged s1 s2 → unchanged s2 s3 → unchanged s1 s3.
Proof. intros (L1 & F1 & T1) (L2 & F2 & T2). split; [congruence|]. split; [congruence|]. by etrans. Qed.

Lemma unchanged_touches own s s' : unchanged s s' → touches own s s'.
Proof. intros (_ & _ & T). by eapply touches_weaken, T. Qed.

Lemma rename_moves p q w r w' :
  rename p q w = (r, w') →
  (unchanged (w_fs w) (w_fs w') ∧ r ≠ Ok tt) ∨
  ∃ i, r = Ok tt ∧ fs_live (w_fs w) !! p = Some i ∧ fs_live (w_fs w') = <[q := i]> (delete p (fs_live (w_fs w))) ∧
    fs_files (w_fs w') = fs_files (w_fs w).
Proof.
  unfold rename, guarded. destruct (pop_fault w) as [f w1] eqn:E. intros H.
  pose proof (pop_fault_touches (λ _, False) _ _ _ E) as T. apply pop_fault_spec in E as (_ & F & L & _).
  destruct f as [| |n k]; [..|by injection H as <- <-; left].
  all: destruct (fs_live (w_fs w1) !! p) as [i|] eqn:Ep; injection H as <- <-; [right|by left].
  all: exists i; split; [done|]; split; [by rewrite <-L|]; cbn; by rewrite Ep, L.
Qed.

Lemma free_name_touches own dir base n fuel w r w' :
  free_name dir base n fuel w = (r, w') → touches own (w_fs w) (w_fs w').
Proof.
  revert n w. induction fuel as [|fuel IH]; intros n w H; cbn in H; [by injection H as <- <-|].
  apply io_bind_inv in H as [(e & H & ->)|(b & w1 & H & Hg)]; apply try_exists_spec in H as (_ & D & _ & F & N & _);
    pose proof (touches_same own _ _ D F N) as T; [done|]. etrans; [exact T|].
  destruct b; [by eapply IH|by injection Hg as _ <-].
Qed.

Lemma create_private_touches own dir w r w' : create_dir_private dir w = (r, w') → touches own (w_fs w) (w_fs w').
Proof.
  unfold create_dir_private. intros H.
  apply io_bind_inv in H as [(e & H & _)|([] & w2 & H & Hg)]; pose proof (create_dir_touches own _ _ _ _ H) as T1; [done|].
  etrans; [exact T1|]. eapply quiet_touches, guarded_quiet; [|exact Hg]. eauto.
Qed.

Lemma quarantine_dest_touches own p wab w r w' :
  quarantine_dest p wab w = (r, w') → touches own (w_fs w) (w_fs w').
Proof.
  unfold quarantine_dest. intros H.
  apply io_bind_inv in H as [(e & H & ->)|(u & w1 & H & Hg)]; apply (create_private_touches own) in H as T1; [done|].
  etrans; [exact T1|]. destruct (file_name p) as [name|]; [|by injection Hg as _ <-].
  unfold non_clobbering_dest in Hg.
  apply io_bind_inv in Hg as [(e & H' & ->)|(b & w2 & H' & Hg)]; apply try_exists_spec in H' as (_ & D & _ & F & N & _);
    pose proof (touches_same own _ _ D F N) as T; [done|]. etrans; [exact T|].
  destruct b; [by eapply free_name_touches|by injection Hg as _ <-].
Qed.

(** The move happened, and nothing is left at [p]; or it did not, and nothing changed. *)
Definition moved (wab p : path) (ok : bool) (s s' : Fs) : Prop :=
  set_aside wab p s s' ∧ if ok then fs_live s' !! p = None else unchanged s s'.

Lemma quarantine_moved p wab w r w' : quarantine p wab w = (r, w') → moved wab p (is_ok r) (w_fs w) (w_fs w').
Proof.
  unfold quarantine. intros H. apply io_bind_inv in H as [(e & H & ->)|(q & w1 & H & Hg)].
  - pose proof (quarantine_dest_touches (λ _, False) _ _ _ _ _ H) as T.
    apply quarantine_dest_spec in H as [(_ & L & F & _) _]. split; [by left|done].
  - pose proof (quarantine_dest_touches (λ _, False) _ _ _ _ _ H) as T.
    pose proof (quarantine_dest_touches (λ a, a = p ∨ a = q) _ _ _ _ _ H) as T'.
    apply quarantine_dest_spec in H as [(_ & L & F & _) Hq]. destruct (Hq q eq_refl) as [Hp Hn]. rewrite L in Hn.
    pose proof (rename_touches (λ a, a = p ∨ a = q) _ _ _ _ _ Hg (or_introl eq_refl) (or_intror eq_refl)) as T2.
    destruct (rename_moves _ _ _ _ _ Hg) as [[U Hr]|(i & -> & Hi & L2 & F2)].
    + assert (U' : unchanged (w_fs w) (w_fs w')) by (eapply unchanged_trans; [|exact U]; done).
      split; [by left|]. by destruct r as [[]|].
    + rewrite L in Hi, L2. split; cbn.
      * right. exists q, i. do 4 (split; [done|]). split; [congruence|]. by etrans.
      * rewrite L2, lookup_insert_ne by (intros ->; congruence). apply lookup_delete_eq.
Qed.

Lemma path_gone_spec p w b w' :
  path_is_gone p w = (b, w') → quiet w w' ∧ (b = true → fs_live (w_fs w') !! p = None).
Proof.
  unfold path_is_gone. destruct (guarded _ w) as [r w1] eqn:E. intros H.
  assert (Q : quiet w w1).
  { eapply guarded_quiet; [|exact E]. intros w0. cbv beta. destruct (_ || _); eauto. }
  assert (w1 = w') as -> by (destruct r as [|[]]; by injection H). split; [done|]. intros ->.
  destruct r as [|k]; [done|]. destruct k; try done.
  apply guarded_not_found in E as (w2 & L & _ & _ & E). cbv beta in E.
  destruct (contains (fs_live (w_fs w2)) p) eqn:Ec; cbn [orb] in E; [done|]. unfold contains in Ec. b2p.
  destruct Q as (_ & (L' & _) & _). rewrite L', <-L. by apply eq_None_not_Some.
Qed.

Lemma move_to_quarantine_moved p wab w r w' :
  move_to_quarantine p wab w = (r, w') → moved wab p (is_ok r) (w_fs w) (w_fs w').
Proof.
  unfold move_to_quarantine. destruct (quarantine p wab w) as [r1 w1] eqn:E.
  apply quarantine_moved in E as [S1 G1]. destruct r1 as [[]|e]; intros H.
  { injection H as <- <-. by split. }
  destruct (path_is_gone p w1) as [gone w2] eqn:E2. apply path_gone_spec in E2 as [Q2 G2].
  assert (U : unchanged (w_fs w) (w_fs w2)) by (eapply unchanged_trans; [exact G1|by apply quiet_unchanged]).
  destruct gone; injection H as <- <-; (split; [by left|]); [by apply G2|done].
Qed.

(** ** Batches *)

Section Account.
Context {CRC : Crc32} {CL : Crc32Laws} {ZS : Zstd} {ZL : ZstdLaws} {SHA : Sha256} {SK : Sink} {SC : SinkContract}.
Implicit Types (d : Dr) (dl : DeadLetterWriter) (f : option inode) (ps rs : list bytes).

Definition dr_fs d : Fs := w_fs (dr_world d).

(** From [d] to [d'] the log of [f] grew by [rs]. *)
Definition gains f d d' rs : Prop := handled f (dr_log d') ≡ₚ handled f (dr_log d) ++ rs.

Lemma gains_refl f d d' : dr_log d' = dr_log d → gains f d d' [].
Proof. unfold gains. intros ->. by rewrite app_nil_r. Qed.

Lemma gains_trans f d1 d2 d3 rs1 rs2 : gains f d1 d2 rs1 → gains f d2 d3 rs2 → gains f d1 d3 (rs1 ++ rs2).
Proof. unfold gains. intros H1 H2. by rewrite H2, H1, app_assoc. Qed.

Lemma gains_perm f d d' rs rs' : gains f d d' rs → rs ≡ₚ rs' → gains f d d' rs'.
Proof. unfold gains. intros H1 H2. by rewrite H1, H2. Qed.

(** Every path that is or will be in the channel satisfies [Q]. *)
Definition sends_ok (Q : path → Prop) d : Prop :=
  Forall Q (dr_channel d) ∧ Forall (Forall (λ a, match a with EnvSend p => Q p | _ => True end)) (dr_env d).
Definition sends_le d d' : Prop := ∀ Q, sends_ok Q d → sends_ok Q d'.

(** The dead letters of a log are on disk, under counters below [n], and survive: as long
    as the counters fit their 64 bits. *)
Definition dead_letters_safe (s : Fs) (dir : path) (n : Z) (log : list Handled) : Prop :=
  ∀ f k rs, DeadLettered f k rs ∈ log → rs ≠ [] → is_u64 k → k < n ∧ dead_lettered s dir k rs.

(** Delivery on the disk: it writes dead letters under fresh counters, and nothing else. *)
Record delivers dl d dl' d' : Prop := mkDelivers {
  dv_dir : dl_dir dl' = dl_dir dl;
  dv_next : dl_next_counter dl ≤ dl_next_counter dl';
  dv_touch : touches (dl_own (dl_dir dl) (dl_next_counter dl) (dl_next_counter dl')) (dr_fs d) (dr_fs d');
  dv_log : dr_log d `prefix_of` dr_log d';
  dv_safe : fs_ok (dr_fs d) → dl_sound (dr_fs d) dl → 0 ≤ dl_next_counter dl →
    dead_letters_safe (dr_fs d) (dl_dir dl) (dl_next_counter dl) (dr_log d) →
    dead_letters_safe (dr_fs d') (dl_dir dl) (dl_next_counter dl') (dr_log d');
  dv_sends : sends_le d d';
  dv_sound : fs_ok (dr_fs d) → dl_sound (dr_fs d) dl → dl_sound (dr_fs d') dl';
  dv_housed : fs_ok (dr_fs d) → dl_housed (dr_fs d) dl → dl_housed (dr_fs d') dl';
}.

Lemma delivers_same dl d d' : dr_fs d' = dr_fs d → dr_log d' = dr_log d → sends_le d d' → delivers dl d dl d'.
Proof. intros Hs Hl Hc. constructor; [done|lia|by rewrite Hs|by rewrite Hl|by rewrite Hs, Hl|done|by rewrite Hs..]. Qed.

(** A change of anything but the channel and the environment. *)
#[local] Hint Extern 0 (sends_le _ _) => intros ? ?; assumption : core.

Lemma delivers_trans dl1 d1 dl2 d2 dl3 d3 :
  fs_ok (dr_fs d1) → delivers dl1 d1 dl2 d2 → delivers dl2 d2 dl3 d3 → delivers dl1 d1 dl3 d3.
Proof.
  intros Hok [A1 B1 C1 D1 E1 F1 G1 H1] [A2 B2 C2 D2 E2 F2 G2 H2].
  assert (C1' : touches (dl_own (dl_dir dl1) (dl_next_counter dl1) (dl_next_counter dl3)) (dr_fs d1) (dr_fs d2)).
  { eapply touches_weaken, C1. intros p. apply dl_own_mono; lia. }
  pose proof (tc_ok _ _ _ (C1' Hok)) as Hok2.
  constructor; [congruence|lia| |by etrans| |by intros Q HQ; apply F2, F1|by auto|by auto].
  - etrans; [exact C1'|]. eapply touches_weaken, C2. intros p. rewrite A1. apply dl_own_mono; lia.
  - intros _ Hd Hn Hs. rewrite A1 in *. apply E2; [done|by apply G1|lia|]. by apply E1.
Qed.

Lemma env_act_same a d : dr_fs (env_act a d) = dr_fs d ∧ dr_log (env_act a d) = dr_log d ∧ dr_sink (env_act a d) = dr_sink d.
Proof. destruct a; cbn; try done. by destruct (dr_connected d). Qed.

Lemma observe_same d : dr_fs (observe d) = dr_fs d ∧ dr_log (observe d) = dr_log d ∧ dr_sink (observe d) = dr_sink d.
Proof.
  unfold observe. destruct (dr_env d) as [|acts rest]; [done|].
  set (d0 := mkDr _ _ _ _ _ rest _). change (dr_fs d) with (dr_fs d0). change (dr_log d) with (dr_log d0).
  change (dr_sink d) with (dr_sink d0). generalize d0. induction acts as [|a acts IH]; intros d1; [done|]. cbn [foldl].
  destruct (IH (env_act a d1)) as (-> & -> & ->). apply env_act_same.
Qed.

Lemma env_act_sends a d Q :
  match a with EnvSend p => Q p | _ => True end → sends_ok Q d → sends_ok Q (env_act a d).
Proof.
  intros Ha [Hc He]. destruct a; cbn; try by split. destruct (dr_connected d); [|by split].
  split; [|done]. cbn. apply Forall_app. by split; [|constructor].
Qed.

Lemma observe_sends d : sends_le d (observe d).
Proof.
  intros Q [Hc He]. unfold observe. destruct (dr_env d) as [|acts rest] eqn:E; [split; [done|by rewrite E]|].
  apply Forall_cons_1 in He as [Ha Hr]. set (d0 := mkDr _ _ _ _ _ rest _).
  assert (H0 : sends_ok Q d0) by (by split). clearbody d0. clear E. revert d0 H0. induction Ha as [|a acts Ha Has IH]; intros d1 H1; [done|].
  cbn [foldl]. by apply IH, env_act_sends.
Qed.

(** A dead-letter write: all of it, or none. *)
Lemma dead_letter_spec f rs config dl d r dl' d' :
  dead_letter_records f rs config dl d = (r, dl', d') → fs_ok (dr_fs d) → dl_sound (dr_fs d) dl →
  delivers dl d dl' d' ∧ gains f d d' (match r with Ok _ => rs | Err _ => [] end).
Proof.
  unfold dead_letter_records. intros H Hok Hd. split_hyp H.
  { injection H as <- <- <-. split; [by apply delivers_same|by apply gains_refl]. }
  destruct (write_records rs dl (dr_world d)) as [[r1 dl1] w1] eqn:Ew.
  destruct (write_records_spec _ _ _ _ _ _ Ew Hok Hd) as (D1 & N1 & T1 & Ho1 & So1 & S1).
  destruct r1 as [[]|e]; injection H as <- <- <-.
  2: { split; [|by apply gains_refl]. constructor; [done|done|exact T1|done| |done|done|by intros _]. intros _ _ Hn Hs g k rs' Hin Hne Hu.
       destruct (Hs g k rs' Hin Hne Hu) as [Hk Hdl]. split; [lia|].
       eapply dead_lettered_touched; [by apply T1| |done]. destruct Hu. apply dl_own_sealed; lia. }
  split.
  2: { unfold gains. cbn [dr_log log_handled set_world]. by rewrite handled_app, handled_one, handled_of_dead. }
  constructor; [done|done|exact T1|cbn; by eexists| |done|done|by intros _]. intros _ _ Hn Hs g k rs' Hin Hne Hu. cbn in Hin.
  apply elem_of_app in Hin as [Hin|Hin%list_elem_of_singleton].
  - destruct (Hs g k rs' Hin Hne Hu) as [Hk Hdl]. split; [lia|].
    eapply dead_lettered_touched; [by apply T1| |done]. destruct Hu. apply dl_own_sealed; lia.
  - injection Hin as -> -> ->. destruct (S1 eq_refl Hne) as (Hlt & Hdl & _). split; [lia|done].
Qed.

(** What a sub-batch accounts for, by its result. *)
Definition batch_accounts f payloads d d' (r : BatchResult) : Prop :=
  match r with
  | BatchOk => gains f d d' payloads
  | BatchTransient _ _ (Some (owed, _)) | BatchBlocked _ (owed, _) =>
    ∃ rs, gains f d d' rs ∧ rs ++ owed ≡ₚ payloads
  | BatchTransient _ _ None | BatchAbandoned | BatchPanicked => gains f d d' []
  end.

Lemma owed_accounts f payloads rs owed n d d' e :
  gains f d d' rs → rs ++ owed ≡ₚ payloads → batch_accounts f payloads d d' (owed_result e owed n).
Proof. intros Hg Hp. destruct e; cbn; eauto. Qed.

Lemma silent_race_same over d :
  let d' := snd (silent_race over d) in
  dr_fs d' = dr_fs d ∧ dr_log d' = dr_log d ∧ dr_sink d' = dr_sink d ∧ sends_le d d'.
Proof. unfold silent_race. repeat case_match; done. Qed.

Lemma commit_batch_spec f payloads ids created config dl d r dl' d' :
  commit_batch f payloads ids created config dl d = (r, dl', d') → fs_ok (dr_fs d) → dl_sound (dr_fs d) dl →
  delivers dl d dl' d' ∧ batch_accounts f payloads d d' r.
Proof.
  unfold commit_batch. intros H Hok Hd.
  destruct (with_segment_context _ _ ids created) as [batch|] eqn:Eb.
  2: { injection H as <- <- <-. split; [by apply delivers_same|by apply gains_refl]. }
  assert (Hrec : sb_records batch = payloads)
    by (unfold with_segment_context in Eb; destruct (_ =? _)%nat; [by injection Eb as <-|done]).
  destruct (commit batch (dr_sink d)) as [answer sk] eqn:Ec.
  destruct (observe_same (set_sink sk d)) as (Ofs & Olog & _). cbn [dr_log set_sink] in Olog.
  change (dr_fs (set_sink sk d)) with (dr_fs d) in Ofs. pose proof (observe_sends (set_sink sk d)) as Osend. change (sends_le d (observe (set_sink sk d))) in Osend.
  set (d1 := observe (set_sink sk d)) in *.
  destruct answer as [[cr|e]| |].
  - split_hyp H; [injection H as <- <- <-; split; [by apply delivers_same|by apply gains_refl]|].
    b2p. set (d2 := log_handled (Accepted f (cr_committed cr)) d1) in *.
    pose proof (commit_partitions _ _ _ _ Ec ltac:(rewrite Hrec; lia)) as Hpart. rewrite Hrec in Hpart.
    assert (G2 : gains f d d2 (cr_committed cr)).
    { unfold gains, d2. cbn [dr_log log_handled]. by rewrite handled_app, handled_one, handled_of_accepted, Olog. }
    assert (D2 : delivers dl d dl d2).
    { constructor; [done|lia|unfold d2, dr_fs in *; cbn; by rewrite Ofs|unfold d2; cbn; rewrite Olog; by eexists| |done|unfold d2, dr_fs in *; cbn; by rewrite Ofs..].
      intros _ _ _ Hs g k rs Hin. cbn in Hin. rewrite Olog in Hin. unfold d2, dr_fs in *. cbn. rewrite Ofs.
      apply elem_of_app in Hin as [Hin|Hin%list_elem_of_singleton]; [by eapply Hs|done]. }
    destruct (map fst (cr_dead_lettered cr)) as [|x rej] eqn:Er.
    { injection H as <- <- <-. rewrite app_nil_r in Hpart. split.
      - by destruct D2; constructor.
      - cbn. eapply gains_perm; [exact G2|done]. }
    destruct (dead_letter_records f (x :: rej) config dl d2) as [[r1 dl1] d3] eqn:E3.
    destruct (dead_letter_spec _ _ _ _ _ _ _ _ E3) as [D3 G3]; [by unfold d2, dr_fs in *; cbn; rewrite Ofs..|].
    pose proof (delivers_trans _ _ _ _ _ _ Hok D2 D3) as D23.
    destruct r1 as [u|e]; injection H as <- <- <-.
    + split; [by destruct D23; constructor|]. cbn. eapply gains_perm; [by eapply gains_trans|done].
    + split; [done|]. apply (owed_accounts f payloads (cr_committed cr)); [|done].
      rewrite <-(app_nil_r (cr_committed cr)). by eapply gains_trans.
  - destruct (is_transient e).
    { injection H as <- <- <-. split; [by apply delivers_same|by apply gains_refl]. }
    destruct (dead_letter_records f payloads config dl d1) as [[r1 dl1] d3] eqn:E3.
    destruct (dead_letter_spec _ _ _ _ _ _ _ _ E3) as [D3 G3]; [by rewrite Ofs..|].
    assert (D13 : delivers dl d dl1 d3) by (eapply delivers_trans; [done|by apply delivers_same|done]).
    assert (G13 : ∀ rs, gains f d1 d3 rs → gains f d d3 rs) by (unfold gains; by rewrite Olog).
    destruct r1 as [u|e1]; injection H as <- <- <-; (split; [done|]); [by apply G13|].
    by apply (owed_accounts f payloads []); [apply G13|].
  - destruct (silent_race_same (instant_now d + dc_commit_timeout config) d1) as (Rfs & Rlog & _ & Rsend).
    destruct (silent_race _ d1) as [by_deadline d2]. cbn [snd] in Rfs, Rlog, Rsend.
    destruct by_deadline; injection H as <- <- <-; (split; [apply delivers_same|apply gains_refl]);
      unfold dr_fs in *; cbn [dr_log dr_world upd_world set_world w_fs inc_by]; try congruence; intros Q HQ; by apply Rsend, Osend.
  - injection H as <- <- <-. split; [by apply delivers_same|by apply gains_refl].
Qed.

(** ** The record loop *)

(** After the first [r] records of [ps]: those from the skip to the cursor are accounted
    for, those from the cursor on are in the batch. *)
Record loop_inv (a : Attempt) ps (r : Z) (lp : Loop) d0 d : Prop := mkLoopInv {
  li_read : lp_read_index lp = r;
  li_skip : at_skip a ≤ lp_durable_through lp;
  li_through : lp_durable_through lp ≤ Z.max r (at_skip a);
  li_gain : gains (at_file a) d0 d (recs (at_skip a) (lp_durable_through lp) ps);
  li_batch : lp_batch lp = recs (lp_durable_through lp) r ps;
}.

(** What a whole attempt accounts for, by its result. *)
Definition attempt_accounts f (skip : Z) ps d d' (r : ProcessResult) : Prop :=
  match r with
  | PConfirmed _ => gains f d d' (drop (Z.to_nat skip) ps)
  | PTransient _ t _ (Some c) | PBlockedDeadLetter t _ (Some c) =>
    skip ≤ t ≤ ca_through c ∧
    ∃ rs, gains f d d' (recs skip t ps ++ rs) ∧ rs ++ ca_payloads c ≡ₚ recs t (ca_through c) ps
  | PTransient _ t _ None | PBlockedDeadLetter t _ None | PPaused t | PAbandoned t =>
    skip ≤ t ∧ gains f d d' (recs skip t ps)
  | PQuarantined | PQuarantinePending _ | PParked _ | PPanicked =>
    ∃ t, skip ≤ t ∧ gains f d d' (recs skip t ps)
  end.

(** An interrupted attempt: the segment stays where it is. *)
Definition interrupted (r : ProcessResult) : Prop :=
  match r with
  | PTransient _ _ _ _ | PBlockedDeadLetter _ _ _ | PPaused _ | PAbandoned _ | PPanicked => True
  | _ => False
  end.

Lemma flush_batch_spec a config ps r lp dl d0 d res dl' d' :
  send_batch a config lp dl d = (res, dl', d') → loop_inv a ps r lp d0 d → lp_batch lp ≠ [] →
  0 ≤ at_skip a → r ≤ blen ps → fs_ok (dr_fs d) → dl_sound (dr_fs d) dl →
  delivers dl d dl' d' ∧
  match res with
  | Ok lp' => loop_inv a ps r lp' d0 d' ∧ lp_batch lp' = []
  | Err res => attempt_accounts (at_file a) (at_skip a) ps d0 d' res ∧ interrupted res
  end.
Proof.
  unfold send_batch. intros H [L1 L2 L3 L4 L5] Hne Hs Hr Hok Hd.
  assert (Ht : lp_durable_through lp < r).
  { destruct (Z.lt_ge_cases (lp_durable_through lp) r) as [|Hge]; [done|]. by rewrite L5, recs_empty in Hne. }
  assert (Hlen : lp_durable_through lp + blen (lp_batch lp) = r) by (rewrite L5, blen_recs; lia).
  destruct (observe_same d) as (Ofs & Olog & _). pose proof (observe_sends d) as Osend. set (d1 := observe d) in *.
  assert (G1 : gains (at_file a) d0 d1 (recs (at_skip a) (lp_durable_through lp) ps)) by (unfold gains in *; by rewrite Olog).
  destruct (batch_gate d1 (lp_durable_through lp)) as [stop|] eqn:Eg.
  { injection H as <- <- <-. split; [by apply delivers_same|].
    unfold batch_gate in Eg. repeat (split_hyp Eg; [injection Eg as <-; by split|]). done. }
  destruct (commit_batch _ _ _ _ _ dl d1) as [[br dl1] d2] eqn:Ec.
  destruct (commit_batch_spec _ _ _ _ _ _ _ _ _ _ Ec) as [D2 B2]; [by rewrite Ofs..|].
  assert (D12 : delivers dl d dl1 d2) by (eapply delivers_trans; [done|by apply delivers_same|done]).
  assert (Hnone : gains (at_file a) d1 d2 [] → gains (at_file a) d0 d2 (recs (at_skip a) (lp_durable_through lp) ps)).
  { intros G. rewrite <-(app_nil_r (recs _ _ _)). by eapply gains_trans. }
  assert (Howed : ∀ owed n, (∃ rs, gains (at_file a) d1 d2 rs ∧ rs ++ owed ≡ₚ lp_batch lp) →
    at_skip a ≤ lp_durable_through lp ≤ ca_through (into_carry owed n (lp_durable_through lp + blen (lp_batch lp))) ∧
    ∃ rs, gains (at_file a) d0 d2 (recs (at_skip a) (lp_durable_through lp) ps ++ rs) ∧
      rs ++ owed ≡ₚ recs (lp_durable_through lp) (lp_durable_through lp + blen (lp_batch lp)) ps).
  { intros owed n (rs & G & P). cbn. split; [lia|]. exists rs. split; [by eapply gains_trans|]. by rewrite P, L5 at 1; rewrite Hlen. }
  destruct br as [|ra cause [[owed n]|]|needed [owed n]| |]; cbn in H; injection H as <- <- <-; (split; [done|]).
  - rewrite Hlen. split; [|done]. constructor; cbn; [done|lia|lia| |by rewrite recs_refl].
    rewrite <-(recs_app _ (lp_durable_through lp)) by lia. eapply gains_trans; [done|]. by rewrite <-L5.
  - split; [|done]. by apply Howed.
  - split; [|done]. split; [done|by apply Hnone].
  - split; [|done]. by apply Howed.
  - split; [|done]. split; [done|by apply Hnone].
  - split; [|done]. exists (lp_durable_through lp). split; [done|by apply Hnone].
Qed.

Lemma loop_inv_skip a ps r lp d0 d :
  loop_inv a ps r lp d0 d → r + 1 ≤ at_skip a →
  loop_inv a ps (r + 1) (mkLoop (r + 1) (lp_durable_through lp) (lp_batch lp) (lp_batch_ids lp)) d0 d.
Proof.
  intros [L1 L2 L3 L4 L5] Hs. constructor; cbn; [done|done|lia|done|]. rewrite L5, !recs_empty; [done|lia|lia].
Qed.

Lemma loop_inv_push a done p rest lp id d0 d :
  loop_inv a (done ++ p :: rest) (blen done) lp d0 d → at_skip a ≤ blen done → 0 ≤ at_skip a →
  loop_inv a (done ++ p :: rest) (blen done + 1)
    (mkLoop (blen done + 1) (lp_durable_through lp) (lp_batch lp ++ [p]) (lp_batch_ids lp ++ [id])) d0 d.
Proof.
  intros [L1 L2 L3 L4 L5] Hs H0. constructor; cbn; [done|done|lia|done|]. rewrite recs_snoc by lia. by rewrite <-L5.
Qed.

(** The loop over the items of a stream: it stops at the first error, or when a batch
    does not go through. *)
Lemma record_loop_spec a config rest more tail done lp dl d0 d res dl' d' :
  record_loop a config (map Ok rest ++ tail) lp dl d = (res, dl', d') → (∀ q, Ok q ∉ tail) →
  loop_inv a (done ++ rest ++ more) (blen done) lp d0 d → 0 ≤ at_skip a → fs_ok (dr_fs d) → dl_sound (dr_fs d) dl →
  delivers dl d dl' d' ∧
  match res with
  | Ok (lp', q) => loop_inv a (done ++ rest ++ more) (blen (done ++ rest)) lp' d0 d' ∧ (q = None → tail = [])
  | Err res => attempt_accounts (at_file a) (at_skip a) (done ++ rest ++ more) d0 d' res ∧ interrupted res
  end.
Proof.
  intros H Ht. revert done lp dl d H. induction rest as [|p rest IH]; intros done lp dl d H Hi Hs Hok Hd; cbn [map app] in *.
  { rewrite app_nil_r. destruct tail as [|[q|e] tail]; cbn [record_loop] in H.
    - injection H as <- <- <-. split; [by apply delivers_same|]. by split.
    - destruct (Ht q). by left.
    - destruct (is_corruption e); [injection H as <- <- <-; split; [by apply delivers_same|]; by split|].
      destruct (_ && _); injection H as <- <- <-; (split; [by apply delivers_same|]); [by split|].
      destruct Hi as [L1 L2 L3 L4 L5]. split; [|done]. by split. }
  cbn [record_loop] in H. rewrite (li_read _ _ _ _ _ _ Hi) in H.
  assert (Ea : done ++ p :: rest ++ more = (done ++ [p]) ++ rest ++ more) by (by rewrite <-app_assoc).
  assert (El : blen (done ++ [p]) = blen done + 1) by (rewrite blen_app; done).
  assert (Er : blen (done ++ p :: rest) = blen ((done ++ [p]) ++ rest)) by (by rewrite <-app_assoc).
  assert (Hb : blen done + 1 ≤ blen (done ++ p :: rest ++ more))
    by (rewrite blen_app, blen_cons; pose proof (blen_nonneg (rest ++ more)); lia).
  rewrite Er. destruct (Z.leb_spec (blen done + 1) (at_skip a)) as [Hle|Hgt].
  { apply loop_inv_skip in Hi; [|done]. rewrite Ea, <-El in *. by eapply IH. }
  apply (loop_inv_push a done p (rest ++ more) lp (for_record (segment_identity (at_segment a)) (blen done + 1) p)) in Hi; [|lia|done].
  destruct (at_max_batch a <=? _).
  - destruct (send_batch a config _ dl d) as [[fr dl1] d1] eqn:Ef.
    destruct (flush_batch_spec _ _ _ _ _ _ _ _ _ _ _ Ef Hi) as [D1 F1]; [cbn; by destruct (lp_batch lp)|done..|].
    destruct fr as [lp1|stop]; [|by injection H as <- <- <-]. destruct F1 as [F1 _]. rewrite Ea, <-El in *.
    pose proof (tc_ok _ _ _ (dv_touch _ _ _ _ D1 Hok)) as Hok1.
    destruct (IH (done ++ [p]) lp1 dl1 d1 H F1 Hs Hok1) as [D2 R2]; [by apply (dv_sound _ _ _ _ D1)|].
    split; [by eapply delivers_trans|done].
  - rewrite Ea, <-El in *. by eapply IH.
Qed.

(** ** The end of the segment *)

(** The record count a file's footer states. *)
Definition footer_count (data : bytes) : Z :=
  le_val (take 8 (drop (Z.to_nat (blen data - SEGMENT_FOOTER_LEN)) data)).

(** All of a segment can be read: records up to the sentinel, as many as the footer says. *)
Definition complete (data : bytes) ps : Prop := reads data ps [] ∧ footer_count data = blen ps.

Lemma open_read_not_found p w w' : open_read p w = (Err NotFound, w') → fs_ok (w_fs w) → fs_live (w_fs w) !! p = None.
Proof.
  unfold open_read. destruct (pop_fault w) as [f w1] eqn:E. intros H (_ & Hf & _).
  assert (Hnf : ∀ n, f ≠ FErr n NotFound) by (intros n ->; by apply pop_fault_kind in E).
  apply pop_fault_spec in E as (_ & F & L & _). rewrite <-F, <-L in *.
  destruct (fs_live (w_fs w1) !! p) as [i|] eqn:Ep; [|done]. destruct (Hf p i Ep) as [n Hn]. cbn in H. rewrite Hn in H.
  destruct f as [| |n' k]; try done. injection H as ->. by destruct (Hnf n').
Qed.

Lemma covers_drop_read k n st data b st' :
  0 < n → covers st data → s_read_exact n (mkStream (drop k (st_data st)) (st_bad st)) = Ok (b, st') →
  b = take (Z.to_nat n) (drop k data).
Proof.
  intros Hn [Hp _]%covers_prefix H. apply s_read_exact_Ok in H as (Hd & _ & Hl); [|lia]. cbn in Hd.
  destruct Hp as [more ->]. unfold blen in Hl. assert (Hk : (k ≤ length (st_data st))%nat).
  { destruct (Nat.le_gt_cases k (length (st_data st))) as [|Hgt]; [done|]. rewrite drop_ge in Hd by lia.
    symmetry in Hd. apply app_nil in Hd as [-> _]. cbn in Hl. lia. }
  rewrite drop_app_le, Hd by done. rewrite <-app_assoc, take_app_le by lia. rewrite take_ge; [done|lia].
Qed.

Lemma record_count_spec p w r w' :
  read_segment_record_count p w = (r, w') → fs_ok (w_fs w) →
  quiet w w' ∧
  match r with
  | Ok c => ∃ i n, fs_live (w_fs w) !! p = Some i ∧ fs_files (w_fs w) !! i = Some n ∧ c = footer_count (f_data n)
  | Err e => e = NotFound → fs_live (w_fs w) !! p = None
  end.
Proof.
  unfold read_segment_record_count. intros H Hok.
  apply io_bind_inv in H as [(e & H & ->)|([i st] & w1 & H & Hg)].
  { apply open_handle_spec in H as H'. destruct H' as [Q _]. split; [done|]. intros ->.
    unfold open_handle in H. destruct (open_read p w) as [[]] eqn:E; [done|]. injection H as -> <-.
    by eapply open_read_not_found. }
  apply open_handle_spec in H as [Q Hst]. destruct (Hst i st eq_refl) as (n & Hi & Hn & Hc).
  apply io_bind_inv in Hg as [(e & H & ->)|(len & w2 & H & Hg)]; pose proof (file_len_quiet _ _ _ _ H) as Q2;
    pose proof (quiet_trans _ _ _ Q Q2) as Q12.
  { split; [done|]. intros ->. by apply guarded_not_found in H as (? & _ & _ & _ & ?). }
  assert (len = 0 + blen (f_data n)) as ->.
  { eapply file_len_measures; [exact H|]. exists n. split; [|done]. by destruct Q as (_ & _ & -> & _). }
  destruct (_ <? _); [by injection Hg as <- <-|].
  destruct (s_read_exact 8 _) as [[b st']|e] eqn:E; injection Hg as <- <-; (split; [done|]).
  - exists i, n. split; [done|]. split; [done|]. apply (covers_drop_read _ _ _ (f_data n)) in E as ->; done.
  - apply s_read_exact_Err in E as [_ ->]. unfold stream_end. by destruct (st_bad _).
Qed.

Lemma delivers_unchanged dl d d' :
  unchanged (dr_fs d) (dr_fs d') → fs_dirs (dr_fs d') = fs_dirs (dr_fs d) → dr_log d' = dr_log d → sends_le d d' →
  delivers dl d dl d'.
Proof.
  intros U Hd Hl Hc. constructor; [done|lia|by apply unchanged_touches|by rewrite Hl| |done|..].
  2: { intros _. apply dl_sound_mono; by rewrite ?Hd. }
  2: { intros _. apply dl_housed_mono; by rewrite ?Hd. }
  rewrite Hl. intros Hok _ _ Hs f k rs Hin Hne Hu. destruct (Hs f k rs Hin Hne Hu) as [Hk Hdl]. split; [done|].
  destruct U as (_ & _ & T). eapply dead_lettered_touched; [by apply T|tauto|done].
Qed.

(** How an attempt on [segment] ends on the disk: a quarantine, or nothing. *)
Definition ends (wab segment : path) d d' (r : ProcessResult) : Prop :=
  dr_log d' = dr_log d ∧ sends_le d d' ∧
  moved wab segment (match r with PQuarantined => true | _ => false end) (dr_fs d) (dr_fs d').

Lemma ends_unchanged wab segment d d' r :
  unchanged (dr_fs d) (dr_fs d') → dr_log d' = dr_log d → sends_le d d' → r ≠ PQuarantined → ends wab segment d d' r.
Proof. intros U Hl Hc Hr. split; [done|]. split; [done|]. split; [by left|]. by destruct r. Qed.

Lemma quarantine_result_spec segment config reason d r d' :
  quarantine_result segment config reason d = (r, d') →
  ends (dc_wab_dir config) segment d d' r ∧ (r = PQuarantined ∨ r = PQuarantinePending reason).
Proof.
  unfold quarantine_result, quarantine_segment.
  destruct (move_to_quarantine _ _ (dr_world d)) as [mr w] eqn:E. apply move_to_quarantine_moved in E.
  intros H. destruct mr as [[]|e]; injection H as <- <-; (split; [|by auto]); by split; [|split].
Qed.

Lemma completeness_spec segment config lp d r d' :
  completeness_check segment config lp d = (r, d') → fs_ok (dr_fs d) →
  ends (dc_wab_dir config) segment d d' r ∧
  match r with
  | PConfirmed n => n = lp_read_index lp ∧
    ∀ i node, fs_live (dr_fs d) !! segment = Some i → fs_files (dr_fs d) !! i = Some node → footer_count (f_data node) = n
  | PTransient _ t _ None => t = lp_durable_through lp
  | PQuarantined | PQuarantinePending _ => True
  | _ => False
  end.
Proof.
  unfold completeness_check. intros H Hok.
  destruct (read_segment_record_count segment (dr_world d)) as [rc w] eqn:E. apply record_count_spec in E as [Q R]; [|done].
  apply quiet_unchanged in Q as U. set (d1 := set_world w d) in *.
  assert (Quar : ∀ reason, quarantine_result segment config reason d1 = (r, d') →
    ends (dc_wab_dir config) segment d d' r ∧ (r = PQuarantined ∨ r = PQuarantinePending reason)).
  { intros reason Hq. apply quarantine_result_spec in Hq as [(El & Ec & Es & Em) Hr]. split; [|done]. split; [done|]. split; [done|].
    split.
    - destruct Es as [U'|(dest & i & A1 & A2 & A3 & A4 & A5 & A6)]; [left; by eapply unchanged_trans|].
      destruct U as (L & F & T). change (dr_fs d1) with (w_fs w) in *. rewrite L in *.
      right. exists dest, i. do 4 (split; [done|]). split; [by rewrite A5|]. etrans; [|exact A6]. by eapply touches_weaken, T.
    - destruct Hr as [->| ->]; [done|]. by eapply unchanged_trans. }
  destruct rc as [c|e].
  - destruct (Z.eqb_spec c (lp_read_index lp)) as [->|].
    + injection H as <- <-. split; [by apply ends_unchanged|]. split; [done|]. intros i node Hi Hn.
      destruct R as (j & n & Hj & Hm & ->). unfold dr_fs in *. simplify_eq. done.
    + apply Quar in H as [He [->| ->]]; done.
  - destruct (is_corruption e) eqn:Ec; [apply Quar in H as [He [->| ->]]; done|].
    destruct (bool_decide_reflect (e = NotFound)) as [->|]; injection H as <- <-; (split; [by apply ends_unchanged|]); [|done].
    split; [done|]. intros i node Hi _. unfold dr_fs in Hi. rewrite (R eq_refl) in Hi. done.
Qed.

Lemma gains_log f d d1 d2 rs : dr_log d2 = dr_log d1 → gains f d d1 rs → gains f d d2 rs.
Proof. unfold gains. by intros ->. Qed.

(** Once nothing is left in the batch, everything read is accounted for. *)
Lemma loop_inv_flushed a ps r lp d0 d :
  loop_inv a ps r lp d0 d → lp_batch lp = [] → 0 ≤ at_skip a → r ≤ blen ps →
  r = blen ps → gains (at_file a) d0 d (drop (Z.to_nat (at_skip a)) ps).
Proof.
  intros [L1 L2 L3 L4 L5] Hb Hs Hr ->. rewrite <-recs_all.
  assert (Ht : blen ps ≤ lp_durable_through lp).
  { destruct (Z.le_gt_cases (blen ps) (lp_durable_through lp)) as [|Hlt]; [done|].
    rewrite Hb in L5. apply (f_equal blen) in L5. rewrite blen_recs, blen_nil in L5; lia. }
  destruct (Z.le_gt_cases (at_skip a) (blen ps)) as [Hle|Hgt].
  - replace (blen ps) with (lp_durable_through lp) by lia. done.
  - rewrite (recs_empty _ (blen ps)) by lia.
    replace (lp_durable_through lp) with (at_skip a) in L4 by lia. by rewrite recs_refl in L4.
Qed.

Lemma finish_spec a config ps r lp q dl d0 d res dl' d' :
  finish_segment a config lp q dl d = (res, dl', d') → loop_inv a ps r lp d0 d → (q = None → r = blen ps) →
  0 ≤ at_skip a → r ≤ blen ps → fs_ok (dr_fs d) → dl_sound (dr_fs d) dl →
  ∃ d1, delivers dl d dl' d1 ∧ ends (dc_wab_dir config) (at_segment a) d1 d' res ∧
    attempt_accounts (at_file a) (at_skip a) ps d0 d' res ∧
    ∀ n, res = PConfirmed n → q = None ∧ n = blen ps ∧
      ∀ i node, fs_live (dr_fs d1) !! at_segment a = Some i → fs_files (dr_fs d1) !! i = Some node →
        footer_count (f_data node) = n.
Proof.
  intros H Hi Hq Hs Hr Hok Hd. unfold finish_segment in H.
  set (rest := λ lp dl d, let '(r, d) := match q with
                   | Some reason => quarantine_result (at_segment a) config reason d
                   | None => completeness_check (at_segment a) config lp d
                   end in (r, dl, d)) in H.
  assert (Hrest : ∀ lp1 dl1 d1, rest lp1 dl1 d1 = (res, dl', d') → loop_inv a ps r lp1 d0 d1 → lp_batch lp1 = [] →
    fs_ok (dr_fs d1) → delivers dl d dl1 d1 →
    ∃ d1, delivers dl d dl' d1 ∧ ends (dc_wab_dir config) (at_segment a) d1 d' res ∧
    attempt_accounts (at_file a) (at_skip a) ps d0 d' res ∧
    ∀ n, res = PConfirmed n → q = None ∧ n = blen ps ∧
      ∀ i node, fs_live (dr_fs d1) !! at_segment a = Some i → fs_files (dr_fs d1) !! i = Some node →
        footer_count (f_data node) = n).
  { clear H. intros lp1 dl1 d1 H Hi1 Hb Hok1 D1. unfold rest in H. exists d1.
    pose proof (loop_inv_flushed _ _ _ _ _ _ Hi1 Hb Hs Hr) as Hall. destruct Hi1 as [L1 L2 L3 L4 L5].
    destruct q as [reason|].
    - destruct (quarantine_result _ _ _ d1) as [r2 d2] eqn:E. injection H as <- <- <-.
      apply quarantine_result_spec in E as [He Hor]. split; [done|]. split; [done|].
      pose proof (gains_log _ _ _ _ _ (proj1 He) L4) as G.
      by destruct Hor as [->| ->]; (split; [exists (lp_durable_through lp1); by split|]).
    - destruct (completeness_check _ _ lp1 d1) as [r2 d2] eqn:E. injection H as <- <- <-.
      apply completeness_spec in E as [He Hm]; [|done]. split; [done|]. split; [done|].
      pose proof (gains_log _ _ _ _ _ (proj1 He) L4) as G.
      destruct r2 as [n|ra t cause [|]| | | | | | |]; try done.
      + destruct Hm as [-> Hm]. rewrite (Hq eq_refl) in *. split; [cbn; eapply gains_log; [apply He|by apply Hall]|].
        intros n [= <-]. rewrite L1 in *. auto.
      + subst t. by split.
      + split; [exists (lp_durable_through lp1); by split|done].
      + split; [exists (lp_durable_through lp1); by split|done]. }
  destruct (lp_batch lp) as [|x b] eqn:Eb.
  { apply (Hrest lp dl d); [done|done|done|done|by apply delivers_same]. }
  destruct (send_batch a config lp dl d) as [[fr dl1] d1] eqn:Ef.
  destruct (flush_batch_spec _ _ _ _ _ _ _ _ _ _ _ Ef Hi) as [D1 F1]; [by rewrite Eb|done..|].
  destruct fr as [lp1|stop].
  - destruct F1 as [F1 Fb]. apply (Hrest lp1 dl1 d1); [done|done|done| |done].
    apply (tc_ok _ _ _ (dv_touch _ _ _ _ D1 Hok)).
  - injection H as <- <- <-. exists d1. split; [done|]. destruct F1 as [F1 Fi].
    split; [apply ends_unchanged; [split; [done|]; split; done|done|done|by intros ->]|]. split; [done|].
    by intros n ->.
Qed.

(** ** A whole attempt *)

(** What an attempt on a file with contents [data] owes, by its result. *)
Definition attempt_ok (i : inode) (data : bytes) (skip : Z) d d' (r : ProcessResult) : Prop :=
  (∀ ps tail, reads data ps tail → attempt_accounts (Some i) skip ps d d' r) ∧
  ∀ n, r = PConfirmed n → ∃ ps, complete data ps ∧ n = blen ps.

(** Nothing was delivered: the segment could not be opened. *)
Lemma attempt_nothing i data skip d d' r :
  dr_log d' = dr_log d →
  match r with
  | PConfirmed _ => False
  | PTransient _ t _ None | PBlockedDeadLetter t _ None | PPaused t | PAbandoned t => t = skip
  | PTransient _ _ _ (Some _) | PBlockedDeadLetter _ _ (Some _) => False
  | _ => True
  end → attempt_ok i data skip d d' r.
Proof.
  intros Hl Hr. pose proof (gains_refl (Some i) _ _ Hl) as G.
  assert (G' : ∀ ps, gains (Some i) d d' (recs skip skip ps)) by (intros ps; by rewrite recs_refl).
  split; [intros ps tail _|by intros n ->].
  destruct r as [|ra t ca [c|]|t n [c|]| | | | | |]; cbn; try done; try (exists skip; by split); subst; by split.
Qed.

Lemma inspect_spec segment w v w' :
  inspect_rejected_header segment w = (v, w') → fs_ok (w_fs w) →
  unchanged (w_fs w) (w_fs w') ∧ fs_dirs (w_fs w') = fs_dirs (w_fs w) ∧ (v = HeaderGone → fs_live (w_fs w) !! segment = None).
Proof.
  unfold inspect_rejected_header. intros H Hok. destruct (open_read segment w) as [r w1] eqn:E.
  assert (U : unchanged (w_fs w) (w_fs w1)) by (apply quiet_unchanged; by apply open_read_spec in E as [Q _]).
  assert (Hd : fs_dirs (w_fs w1) = fs_dirs (w_fs w)) by (by apply open_read_spec in E as [(_ & (_ & _ & _ & ?) & _) _]).
  destruct r as [st|e].
  - assert (w1 = w' ∧ v ≠ HeaderGone) as [<- Hv]; [|by split; [|split]].
    repeat (split_hyp H; try (injection H as <- <-; by split)); try done.
  - destruct (decide (e = NotFound)) as [->|He].
    + injection H as <- <-. split; [done|]. split; [done|]. intros _. by eapply open_read_not_found.
    + assert (w1 = w' ∧ v ≠ HeaderGone) as [<- Hv]; [|by split; [|split]]. by destruct e; injection H as <- <-.
Qed.

(** An attempt as a whole: it delivers, then the segment ends up where it was or in
    quarantine; and it accounts for what it delivered. *)
(** The cursors of a result do not go back behind the skip. *)
Definition ranged (skip : Z) (r : ProcessResult) : Prop :=
  match r with
  | PTransient _ t _ (Some c) | PBlockedDeadLetter t _ (Some c) => skip ≤ t ≤ ca_through c
  | PTransient _ t _ None | PBlockedDeadLetter t _ None | PPaused t | PAbandoned t => skip ≤ t
  | _ => True
  end.

Lemma accounts_ranged f skip ps d d' r : attempt_accounts f skip ps d d' r → ranged skip r.
Proof. destruct r as [|ra t ca [c|]|t n [c|]| | | | | |]; cbn; tauto. Qed.

Definition attempt_spec (config : DrainConfig) (segment : path) (skip : Z) dl d r dl' d' : Prop :=
  ranged skip r ∧ ∃ d1, delivers dl d dl' d1 ∧ ends (dc_wab_dir config) segment d1 d' r ∧
  ∀ i node, fs_live (dr_fs d) !! segment = Some i → fs_files (dr_fs d) !! i = Some node →
    attempt_ok i (f_data node) skip d d' r.

Lemma attempt_unopened config segment skip dl d r d' :
  unchanged (dr_fs d) (dr_fs d') → fs_dirs (dr_fs d') = fs_dirs (dr_fs d) → dr_log d' = dr_log d → sends_le d d' →
  (∀ i, fs_live (dr_fs d) !! segment = Some i →
    match r with PTransient _ t _ None => t = skip | PParked _ => True | _ => False end) →
  r ≠ PQuarantined → ranged skip r → attempt_spec config segment skip dl d r dl d'.
Proof.
  intros U Hd Hl Hc Hr Hne Hrg. split; [done|]. exists d'. split; [by apply delivers_unchanged|].
  split; [apply ends_unchanged; [by split; [|split]|done|done|done]|].
  intros i node Hi _. apply attempt_nothing; [done|]. specialize (Hr i Hi).
  by destruct r as [|ra t ca [c|]| | | | | | |].
Qed.

(** A header that does not parse: a newer format is parked, a corrupt one quarantined. *)
Lemma attempt_rejected segment config skip dl d d0 r dl' d' :
  (let '(verdict, w) := inspect_rejected_header segment (dr_world d0) in
   let d := set_world w d0 in
   match verdict with
   | NewerFormat _ _ => (PParked UnsupportedVersion, dl, d)
   | HeaderCorrupt => let '(r, d) := quarantine_result segment config REASON_HEADER d in (r, dl, d)
   | HeaderGone => (PConfirmed 0, dl, d)
   | HeaderUnreadable e => (local_read_failure e skip, dl, d)
   end) = (r, dl', d') →
  fs_ok (dr_fs d0) → unchanged (dr_fs d) (dr_fs d0) → fs_dirs (dr_fs d0) = fs_dirs (dr_fs d) → dr_log d0 = dr_log d → sends_le d d0 →
  attempt_spec config segment skip dl d r dl' d'.
Proof.
  destruct (inspect_rejected_header segment (dr_world d0)) as [v w2] eqn:Ei. intros H Hok U Hd Hl Hc.
  apply inspect_spec in Ei as (U2 & Hd2 & Hv); [|done].
  pose proof (unchanged_trans _ _ _ U U2) as U02. cbv zeta in H. set (d2 := set_world w2 d0) in *.
  change (w_fs w2) with (dr_fs d2) in U02. assert (Hd02 : fs_dirs (dr_fs d2) = fs_dirs (dr_fs d)) by (unfold dr_fs in *; cbn; congruence).
  destruct v; [injection H as <- <- <-; by apply attempt_unopened| | |injection H as <- <- <-; apply attempt_unopened; (done || cbn; lia)].
  - destruct (quarantine_result segment config REASON_HEADER d2) as [r2 d3] eqn:Eq. injection H as <- <- <-.
    apply quarantine_result_spec in Eq as [He Hor]. split; [by destruct Hor as [->| ->]|]. exists d2. split; [by apply delivers_unchanged|]. split; [done|].
    intros i node _ _. apply attempt_nothing; [by rewrite (proj1 He)|]. by destruct Hor as [->| ->].
  - injection H as <- <- <-. apply attempt_unopened; [done|done|done|done| |done|done]. intros i Hi. destruct U as (L & _).
    unfold dr_fs in *. rewrite <-L, (Hv eq_refl) in Hi. done.
Qed.

Lemma reader_open_kind st : segment_reader_open (Ok st) ≠ Err NotFound.
Proof.
  unfold segment_reader_open. cbn. destruct (s_read_exact _ st) as [[hb st1]|e1] eqn:E1.
  - do 2 (destruct (_ : bool); [done|]). by destruct (parse_segment_header hb).
  - apply s_read_exact_Err in E1 as [_ ->]. unfold stream_end. by destruct (st_bad st).
Qed.

Lemma reads_unique data ps ps' tail tail' : reads data ps tail → reads data ps' tail' → ps = ps' ∧ tail = tail'.
Proof.
  intros (r1 & O1 & I1 & N1) (r2 & O2 & I2 & N2). rewrite O1 in O2. injection O2 as <-. rewrite I1 in I2.
  by apply oks_unique.
Qed.

(** A file that opens: the loop over what the stream yields, and its end. *)
Lemma attempt_opened segment config skip last_chance st rd i node dl d d0 r dl' d' :
  segment_reader_open (Ok st) = Ok rd → covers st (f_data node) →
  fs_live (dr_fs d) !! segment = Some i → fs_files (dr_fs d) !! i = Some node →
  (let a := mkAttempt segment (Some i) (sh_created_at (sr_header rd)) (Z.max 1 (max_batch_size (dr_sink d0)))
              skip last_chance in
   match record_loop a config (fst (sr_items rd)) (mkLoop 0 skip [] []) dl d0 with
   | (Err r, dl, d) => (r, dl, d)
   | (Ok (lp, quarantine_after), dl, d) => finish_segment a config lp quarantine_after dl d
   end) = (r, dl', d') →
  unchanged (dr_fs d) (dr_fs d0) → fs_dirs (dr_fs d0) = fs_dirs (dr_fs d) → dr_log d0 = dr_log d → sends_le d d0 → fs_ok (dr_fs d) → dl_sound (dr_fs d) dl →
  parent segment ≠ dl_dir dl → 0 ≤ skip → attempt_spec config segment skip dl d r dl' d'.
Proof.
  intros Er Hc Hi Hn H U Hdirs Hl Hsl Hok Hd Hpar Hs.
  assert (D0 : delivers dl d dl d0) by (by apply delivers_unchanged).
  assert (Hok0 : fs_ok (dr_fs d0)) by apply (tc_ok _ _ _ (unchanged_touches (λ _, False) _ _ U Hok)).
  destruct (reads_opens _ _ _ Hc Er) as (ps & tail & Hps).
  destruct (reads_stream _ _ _ _ _ Hc Er Hps) as (ps' & tail' & Hit & [more ->] & Hend & Hno).
  cbv zeta in H. set (a := mkAttempt _ _ _ _ _ _) in H. rewrite Hit in H.
  assert (I0 : loop_inv a ([] ++ ps' ++ more) (blen (@nil bytes)) (mkLoop 0 skip [] []) d d0).
  { constructor; cbn; [done|lia|lia| |by rewrite recs_empty]. rewrite recs_refl. by apply gains_refl. }
  destruct (record_loop a config _ _ dl d0) as [[lr dl1] d1] eqn:El.
  destruct (record_loop_spec _ _ _ _ _ _ _ _ _ _ _ _ _ El Hno I0 Hs Hok0 (dv_sound _ _ _ _ D0 Hok Hd)) as [D1 R1]. cbn [app] in R1.
  pose proof (delivers_trans _ _ _ _ _ _ Hok D0 D1) as D01.
  assert (Hthis : ∀ j node', fs_live (dr_fs d) !! segment = Some j → fs_files (dr_fs d) !! j = Some node' →
    attempt_accounts (Some i) skip (ps' ++ more) d d' r →
    (∀ n, r = PConfirmed n → ∃ ps, complete (f_data node) ps ∧ n = blen ps) → attempt_ok j (f_data node') skip d d' r).
  { intros j node' Hj Hn' A C. rewrite Hi in Hj. injection Hj as <-. rewrite Hn in Hn'. injection Hn' as <-. split; [|done].
    intros qs t Hqs. by destruct (reads_unique _ _ _ _ _ Hqs Hps) as [-> _]. }
  destruct lr as [[lp q]|stop].
  2: { injection H as <- <- <-. destruct R1 as [A1 Hint]. split; [by eapply accounts_ranged|]. exists d1. split; [done|].
       split; [apply ends_unchanged; [by split; [|split]|done|done|by intros ->]|].
       intros j node' Hj Hn'. apply (Hthis j node'); [done|done|done|by intros n ->]. }
  destruct R1 as [I1 Hq]. pose proof (tc_ok _ _ _ (dv_touch _ _ _ _ D1 Hok0)) as Hok1.
  assert (Hall : q = None → ps' = ps' ++ more ∧ tail = []) by (intros ->; by apply Hend, Hq).
  destruct (finish_spec _ _ _ _ _ _ _ _ _ _ _ _ H I1) as (d2 & D2 & E2 & A2 & C2);
    [by intros Hq'; destruct (Hall Hq') as [<- _]|done|rewrite blen_app; pose proof (blen_nonneg more); lia|done|
     by apply (dv_sound _ _ _ _ D01)|].
  pose proof (delivers_trans _ _ _ _ _ _ Hok D01 D2) as D02. split; [by eapply accounts_ranged|]. exists d2. split; [done|]. split; [done|].
  intros j node' Hj Hn'. apply (Hthis j node'); [done|done|done|].
  intros n ->. destruct (C2 n eq_refl) as (-> & -> & Hfoot). destruct (Hall eq_refl) as [_ ->].
  exists (ps' ++ more). split; [|done]. split; [done|].
  assert (Hno' : ¬ dl_own (dl_dir dl) (dl_next_counter dl) (dl_next_counter dl') segment) by (by intros ?%dl_own_parent).
  destruct (dv_touch _ _ _ _ D02 Hok) as [_ Tl Td _ _ _].
  destruct (Td segment i node Hno' Hi Hn) as (node2 & Hn2 & <-). apply (Hfoot i); [by rewrite Tl|done].
Qed.

Lemma process_spec segment config skip last_chance dl d r dl' d' :
  process_segment segment config skip last_chance dl d = (r, dl', d') →
  fs_ok (dr_fs d) → dl_sound (dr_fs d) dl → parent segment ≠ dl_dir dl → 0 ≤ skip →
  attempt_spec config segment skip dl d r dl' d'.
Proof.
  intros H Hok Hd Hpar Hs. unfold process_segment in H.
  destruct (open_read segment (dr_world d)) as [opened w] eqn:Eo.
  destruct (open_read_spec _ _ _ _ Eo) as [Q Hst]. apply quiet_unchanged in Q as U.
  assert (Hdirs : fs_dirs (w_fs w) = fs_dirs (dr_fs d)) by (by destruct Q as (_ & (_ & _ & _ & ?) & _)).
  assert (Hok0 : fs_ok (w_fs w)) by apply (tc_ok _ _ _ (unchanged_touches (λ _, False) _ _ U Hok)).
  destruct opened as [st|e].
  - destruct (Hst st eq_refl) as (i & node & Hi & Hn & Hc).
    replace (file_at segment d) with (Some i) in H by (unfold file_at; by rewrite Hi).
    destruct (segment_reader_open (Ok st)) as [rd|e] eqn:Er.
    { by eapply (attempt_opened segment config skip last_chance st rd i node _ _ (set_world w d)). }
    destruct (decide (e = NotFound)) as [->|Hne]; [by apply reader_open_kind in Er|].
    destruct (decide (e = InvalidData)) as [->|Hne2]; [by apply (attempt_rejected _ _ _ _ _ (set_world w d) _ _ _ H)|].
    assert ((local_read_failure e skip, dl, set_world w d) = (r, dl', d')) as [= <- <- <-] by (by destruct e).
    apply attempt_unopened; (done || cbn; lia).
  - destruct (decide (e = NotFound)) as [->|Hne].
    { injection H as <- <- <-. apply attempt_unopened; [done|done|done|done| |done|done]. intros i Hi.
      apply open_read_not_found in Eo; [|done]. unfold dr_fs in Hi. congruence. }
    destruct (decide (e = InvalidData)) as [->|Hne2]; [by apply (attempt_rejected _ _ _ _ _ (set_world w d) _ _ _ H)|].
    assert ((local_read_failure e skip, dl, set_world w d) = (r, dl', d')) as [= <- <- <-] by (by destruct e).
    apply attempt_unopened; (done || cbn; lia).
Qed.

(** Setting a segment aside leaves the dead letters alone. *)
Lemma moved_dead_letters wab p ok s s' dir n log :
  moved wab p ok s s' → fs_ok s → parent p ≠ dir → quarantine_dir wab ≠ dir →
  dead_letters_safe s dir n log → dead_letters_safe s' dir n log.
Proof.
  intros [Hm _] Hok Hp Hq Hs f k rs Hin Hne Hu. destruct (Hs f k rs Hin Hne Hu) as [Hk Hd]. split; [done|].
  destruct Hm as [U|(dest & i & A1 & _ & _ & _ & _ & A6)].
  - destruct U as (_ & _ & T). eapply dead_lettered_touched; [by apply T|tauto|done].
  - eapply dead_lettered_touched; [by apply A6| |done].
    intros [<-|<-]; by rewrite ?parent_dl_sealed in *.
Qed.

(** C4: an attempt accounts for every record exactly once: between the record it resumes
    from and the record it reports, each record is in what the sink committed or in a
    dead-letter segment, no record twice, whatever the sink answers and the disk does.
    Only a segment that was read to its sentinel, with the record count of its footer, is
    reported as delivered. Rejected records whose dead-letter write failed are carried by
    the result, with the number of the record the resumption has to start from. Every
    dead letter of the log is a sealed segment that every crash preserves (given that the
    writer's [dir_entry_durable] is true to the disk, as it is after [dl_open]). *)
Theorem attempt_accounts_exactly segment config skip last_chance dl d r dl' d' i node ps tail :
  process_segment segment config skip last_chance dl d = (r, dl', d') →
  fs_ok (dr_fs d) → dl_sound (dr_fs d) dl → parent segment ≠ dl_dir dl → quarantine_dir (dc_wab_dir config) ≠ dl_dir dl →
  0 ≤ skip → 0 ≤ dl_next_counter dl →
  fs_live (dr_fs d) !! segment = Some i → fs_files (dr_fs d) !! i = Some node → reads (f_data node) ps tail →
  dead_letters_safe (dr_fs d) (dl_dir dl) (dl_next_counter dl) (dr_log d) →
  attempt_accounts (Some i) skip ps d d' r ∧
  (∀ n, r = PConfirmed n → complete (f_data node) ps ∧ n = blen ps) ∧
  dead_letters_safe (dr_fs d') (dl_dir dl') (dl_next_counter dl') (dr_log d').
Proof.
  intros H Hok Hd Hp Hq Hs Hn Hi Hnode Hps Hsafe.
  destruct (process_spec _ _ _ _ _ _ _ _ _ H Hok Hd Hp Hs) as (_ & d1 & D1 & (El & _ & Em) & Hat).
  destruct (Hat i node Hi Hnode) as [Ha Hc]. split; [by eapply Ha|]. split.
  - intros n Hr. destruct (Hc n Hr) as (qs & [Hqs Hf] & ->). by destruct (reads_unique _ _ _ _ _ Hqs Hps) as [-> <-].
  - rewrite El, (dv_dir _ _ _ _ D1). eapply moved_dead_letters; [exact Em| |done|done|].
    + apply (tc_ok _ _ _ (dv_touch _ _ _ _ D1 Hok)).
    + by apply (dv_safe _ _ _ _ D1).
Qed.
End Account.

(** ** Witnesses *)

(** A sink that takes records that start with [h] and rejects the others. *)
Module PickySink.
Definition takes (x : bytes) : bool := bool_decide (head x = Some x68).
#[export] Instance picky : Sink := {|
  sink_state := unit;
  max_batch_size := λ _, 2;
  commit := λ b s, (Answered (Ok (mkCommitResult (filter takes (sb_records b))
    (map (λ x, (x, bstr "rejected")) (filter (λ x, takes x = false) (sb_records b))))), s);
  health := λ s, (Answered Healthy, s);
|}.
#[export] Instance picky_contract : SinkContract.
Proof.
  constructor. intros b [] cr [] [= <-] _. cbn. rewrite map_map, map_id.
  induction (sb_records b) as [|x l IH]; [done|]. rewrite !filter_cons. unfold takes in *.
  destruct (bool_decide_reflect (head x = Some x68)); cbn in *.
  - by rewrite IH at 1.
  - rewrite IH at 1. by rewrite Permutation_middle.
Qed.
End PickySink.

Module AccountWitness.
#[local] Existing Instance Crc32Ieee.ieee.
#[local] Existing Instance ZstdRaw.raw.
#[local] Existing Instance Crc32Ieee.ieee_laws.
#[local] Existing Instance ZstdRaw.raw_laws.
#[local] Existing Instance ShaPrefix.prefix.
#[local] Existing Instance PickySink.picky.
#[local] Existing Instance PickySink.picky_contract.
Import RecoveryWitness ScanWitness.

Definition three : list bytes := [bstr "hello"; bstr "weir"; bstr "how"].
Definition sealed_file : bytes :=
  header ++ frames three ++ SENTINEL ++ build_segment_footer 3 12 (crc32_hash (header ++ frames three)) 8.

(** Segment 1 of shard 0, sealed, with three records. *)
Definition three_disk (tape : list Fault) : World :=
  disk {[ sealed1 := 1%positive ]} {[ 1%positive := on_disk sealed_file ]} tape.

Lemma three_disk_ok tape : fs_ok (w_fs (three_disk tape)).
Proof.
  split; [intros i n; cbn; intros [<- <-]%lookup_singleton_Some; by vm_compute|]. split; cbn.
  - intros p i [<- <-]%lookup_singleton_Some. rewrite lookup_singleton_eq. by eexists.
  - intros p q i [<- _]%lookup_singleton_Some [<- _]%lookup_singleton_Some. done.
Qed.

Lemma three_reads : reads sealed_file three [].
Proof. eexists. split; [by vm_compute|]. split; [by vm_compute|]. apply no_ok_nil. Qed.

Definition config : DrainConfig := mkDrainConfig wab 1000 (secs 30) (millis 100) 5 10 (secs 60) (secs 30) true (secs 600).
Definition writer : DeadLetterWriter := mkDeadLetterWriter (wab ++ [DEAD_LETTER]) 1 0 false.
Definition start (tape : list Fault) : Dr := mkDr (three_disk tape) tt (control_new Attached 0 0) [] true [] [].

(** The dead-letter directory does not exist, so it is created; [weir] is dead-lettered. *)
Lemma attempt_accounts_exactly_witness :
  let '(r, dl', d') := process_segment sealed1 config 0 false writer (start []) in
  r = PConfirmed 3 ∧ gains (Some 1%positive) (start []) d' three ∧
  dr_log d' = [Accepted (Some 1%positive) [bstr "hello"]; DeadLettered (Some 1%positive) 2 [bstr "weir"];
               Accepted (Some 1%positive) [bstr "how"]] ∧
  dead_letters_safe (dr_fs d') (dl_dir dl') (dl_next_counter dl') (dr_log d').
Proof.
  destruct (process_segment sealed1 config 0 false writer (start [])) as [[r dl'] d'] eqn:E.
  assert (Hr : r = PConfirmed 3) by (change r with (r, dl', d').1.1; rewrite <-E; vm_compute; reflexivity).
  destruct (attempt_accounts_exactly sealed1 config 0 false writer (start []) r dl' d' 1%positive (on_disk sealed_file)
              three [] E) as (Ha & _ & Hs).
  - apply three_disk_ok.
  - split; [done|]. split; [by apply (bool_decide_unpack _); vm_compute|done].
  - by vm_compute.
  - by vm_compute.
  - done.
  - done.
  - by vm_compute.
  - by vm_compute.
  - apply three_reads.
  - clear. intros f k rs Hin. by apply not_elem_of_nil in Hin.
  - split; [exact Hr|]. rewrite Hr in Ha. split; [exact Ha|]. split; [|exact Hs].
    change d' with (r, dl', d').2. rewrite <-E. vm_compute. reflexivity.
Defined.
End AccountWitness.
