(* ===== verification/Sent.v ===== *)
(** * What the sink is sent (weir-server, drain/mod.rs)

    The batches of one delivery attempt, as the sink sees them: the records of the segment
    behind the skipped prefix, in order and each in one batch, with the dedup token and the
    record identifiers that a later attempt computes again. *)

From Stdlib Require Import ZArith Lia Strings.Byte String.
From stdpp Require Import base gmap list option sets.
From S2P Require Import Prelude Deps Wire Sink Text Names Io Fs Durable Touch Format Reader Segment Recovery Scan.
From S2P Require Import Confirm DeadLetter Ledger Control Deliver Account.

Section Sent.
Context {CRC : Crc32} {CL : Crc32Laws} {ZS : Zstd} {ZL : ZstdLaws} {SHA : Sha256} {SK : Sink}.
Implicit Types (d : Dr) (ps : list bytes) (ns : list Z).

(** ** Batches *)

(** Identifiers of records that follow the first [t] of their segment. *)
Definition ids_from (segment : path) (t : Z) (payloads : list bytes) : list bytes :=
  imap (λ k p, for_record (segment_identity segment) (t + Z.of_nat k + 1) p) payloads.

(** The batch of records [t] to [t + n] of a segment. *)
Definition batch_at (segment : path) (created_at t n : Z) ps : SinkBatch :=
  let payloads := recs t (t + n) ps in
  mkSinkBatch payloads (for_payloads payloads) (Some (ids_from segment t payloads)) (Some created_at).

(** Consecutive batches of the sizes [ns], from record [t] on. *)
Fixpoint batches (segment : path) (created_at t : Z) ns ps : list SinkBatch :=
  match ns with
  | [] => []
  | n :: ns => batch_at segment created_at t n ps :: batches segment created_at (t + n) ns ps
  end.

Definition total ns : Z := foldr Z.add 0 ns.

Lemma total_cons n ns : total (n :: ns) = n + total ns.
Proof. done. Qed.
Lemma total_one n : total [n] = n.
Proof. cbn. lia. Qed.
Lemma total_app ns ms : total (ns ++ ms) = total ns + total ms.
Proof. induction ns as [|n ns IH]; [done|]. rewrite <-app_comm_cons, !total_cons, IH. lia. Qed.

Lemma total_nonneg ns b : Forall (λ n, 1 ≤ n ≤ b) ns → 0 ≤ total ns.
Proof. induction 1; [done|]. rewrite total_cons. lia. Qed.

Lemma batches_snoc segment c t ns n ps :
  batches segment c t (ns ++ [n]) ps = batches segment c t ns ps ++ [batch_at segment c (t + total ns) n ps].
Proof.
  revert t. induction ns as [|m ns IH]; intros t; cbn [app batches]; [cbn; by rewrite Z.add_0_r|].
  by rewrite IH, total_cons, Z.add_assoc.
Qed.

(** The state of the sink after the batches. *)
Definition after_commits (bs : list SinkBatch) (sk : sink_state) : sink_state :=
  foldl (λ sk b, snd (commit b sk)) sk bs.

Lemma after_snoc bs b sk : after_commits (bs ++ [b]) sk = snd (commit b (after_commits bs sk)).
Proof. unfold after_commits. by rewrite foldl_app. Qed.

Lemma ids_snoc segment t payloads p :
  ids_from segment t (payloads ++ [p]) =
  ids_from segment t payloads ++ [for_record (segment_identity segment) (t + blen payloads + 1) p].
Proof. unfold ids_from. rewrite imap_app. cbn. by rewrite Nat.add_0_r. Qed.

(** ** One commit *)

Lemma dead_letter_sink f rs config dl d : dr_sink (snd (dead_letter_records f rs config dl d)) = dr_sink d.
Proof. unfold dead_letter_records. destruct (_ && _); [done|]. by destruct (write_records _ _ _) as [[[] ?] ?]. Qed.

Lemma commit_sink f payloads ids c config dl d :
  length payloads = length ids →
  dr_sink (snd (commit_batch f payloads ids c config dl d)) =
  snd (commit (mkSinkBatch payloads (for_payloads payloads) (Some ids) (Some c)) (dr_sink d)).
Proof.
  intros Hl. unfold commit_batch, with_segment_context. rewrite (proj2 (Nat.eqb_eq _ _) Hl).
  destruct (commit _ (dr_sink d)) as [answer sk]. destruct (observe_same (set_sink sk d)) as (_ & _ & Os).
  cbn [dr_sink set_sink] in Os. set (d1 := observe (set_sink sk d)) in *.
  destruct answer as [[r|e]| |]; cbn [snd].
  - destruct (negb _); [done|]. destruct (map fst (cr_dead_lettered r)) as [|x rej]; [done|].
    pose proof (dead_letter_sink f (x :: rej) config dl (log_handled (Accepted f (cr_committed r)) d1)) as D.
    destruct (dead_letter_records _ _ _ _ _) as [[[] ?] ?]; cbn in D |- *; by rewrite D.
  - destruct (is_transient e); [done|]. pose proof (dead_letter_sink f payloads config dl d1) as D.
    destruct (dead_letter_records _ _ _ _ _) as [[[] ?] ?]; cbn in D |- *; by rewrite D.
  - destruct (silent_race_same (instant_now d + dc_commit_timeout config) d1) as (_ & _ & Rs & _).
    destruct (silent_race _ d1) as [[] d2]; cbn in Rs |- *; by rewrite Rs.
  - done.
Qed.

(** ** The record loop *)

(** The cursor of a result that has one. *)
Definition cursor (r : ProcessResult) : option Z :=
  match r with
  | PTransient _ t _ _ | PBlockedDeadLetter t _ _ | PPaused t | PAbandoned t => Some t
  | _ => None
  end.

(** Batches of the sizes [ns], the first [settled] of which are behind the cursor [t]. *)
Record sent (a : Attempt) ps ns (settled t : Z) d0 d : Prop := mkSent {
  se_sink : dr_sink d = after_commits (batches (at_segment a) (at_created_at a) (at_skip a) ns ps) (dr_sink d0);
  se_sizes : Forall (λ n, 1 ≤ n ≤ at_max_batch a) ns;
  se_cursor : t = at_skip a + total (take (Z.to_nat settled) ns);
  se_settled : blen ns - 1 ≤ settled ≤ blen ns;
  se_fit : at_skip a + total ns ≤ Z.max (at_skip a) (blen ps);
}.

(** In the loop every batch sent is settled; the batch being filled follows them. *)
Record filling (a : Attempt) ps (r : Z) (lp : Loop) ns d0 d : Prop := mkFilling {
  fi_sent : sent a ps ns (blen ns) (lp_durable_through lp) d0 d;
  fi_read : lp_read_index lp = r;
  fi_through : lp_durable_through lp ≤ Z.max r (at_skip a);
  fi_batch : lp_batch lp = recs (lp_durable_through lp) r ps;
  fi_ids : lp_batch_ids lp = ids_from (at_segment a) (lp_durable_through lp) (lp_batch lp);
  fi_size : blen (lp_batch lp) ≤ at_max_batch a;
}.

(** A result: the batches sent, and where the next attempt resumes. *)
Definition sent_by (a : Attempt) ps d0 d (r : ProcessResult) : Prop :=
  ∃ ns settled t, sent a ps ns settled t d0 d ∧ ∀ t', cursor r = Some t' → t' = t.

Lemma length_ids segment t payloads : length (ids_from segment t payloads) = length payloads.
Proof. apply length_imap. Qed.

Lemma sent_sink a ps ns k t d0 d d' : dr_sink d' = dr_sink d → sent a ps ns k t d0 d → sent a ps ns k t d0 d'.
Proof. intros H [? ? ? ? ?]. constructor; [by rewrite H|done..]. Qed.

Lemma flush_sent a config ps r lp ns dl d0 d :
  filling a ps r lp ns d0 d → lp_batch lp ≠ [] → 0 ≤ at_skip a → r ≤ blen ps →
  match send_batch a config lp dl d with
  | (Ok lp', _, d') => ∃ ns', filling a ps r lp' ns' d0 d' ∧ lp_batch lp' = []
  | (Err res, _, d') => sent_by a ps d0 d' res
  end.
Proof.
  intros [[S1 S2 S3 S4 S5] F1 F2 F3 F4 F5] Hne Hs Hr. unfold send_batch.
  destruct (observe_same d) as (_ & _ & Os). set (d1 := observe d) in *.
  unfold blen in S3. rewrite Nat2Z.id, firstn_all in S3.
  assert (Hall : sent a ps ns (blen ns) (lp_durable_through lp) d0 d1).
  { constructor; [by rewrite Os|done| |lia|done]. unfold blen. by rewrite Nat2Z.id, firstn_all. }
  destruct (batch_gate d1 (lp_durable_through lp)) as [stop|] eqn:Eg.
  { exists ns, (blen ns), (lp_durable_through lp). split; [done|]. unfold batch_gate in Eg.
    intros t'. repeat (split_hyp Eg; [injection Eg as <-; by intros [= <-]|]). done. }
  pose proof (total_nonneg _ _ S2) as Hnn.
  assert (Ht : lp_durable_through lp < r).
  { destruct (Z.lt_ge_cases (lp_durable_through lp) r) as [|Hge]; [done|]. by rewrite F3, recs_empty in Hne. }
  assert (Hlen : blen (lp_batch lp) = r - lp_durable_through lp) by (rewrite F3, blen_recs; lia).
  pose proof (commit_sink (at_file a) (lp_batch lp) (lp_batch_ids lp) (at_created_at a) config dl d1) as Hc.
  rewrite F4, length_ids in Hc. specialize (Hc eq_refl). rewrite <-F4 in Hc.
  destruct (commit_batch _ _ _ _ _ _ d1) as [[br dl'] d2]. cbn [snd] in Hc.
  set (n := blen (lp_batch lp)) in *.
  assert (Hsent : ∀ k, blen ns ≤ k ≤ blen ns + 1 →
    sent a ps (ns ++ [n]) k (at_skip a + total (take (Z.to_nat k) (ns ++ [n]))) d0 d2).
  { intros k Hk. constructor; [| |done| |].
    - rewrite batches_snoc, after_snoc, Hc, Os, S1. do 3 f_equal. unfold batch_at. rewrite <-S3.
      replace (lp_durable_through lp + n) with r by lia. by rewrite <-F3, <-F4.
    - apply Forall_app. split; [done|]. constructor; [lia|done].
    - rewrite blen_app. change (blen [n]) with 1. lia.
    - rewrite total_app, total_one. lia. }
  assert (Hopen : ∀ res, cursor res = None ∨ cursor res = Some (lp_durable_through lp) → sent_by a ps d0 d2 res).
  { intros res Hres. exists (ns ++ [n]), (blen ns), (lp_durable_through lp). split.
    - pose proof (Hsent (blen ns) ltac:(lia)) as H. unfold blen in H at 2. rewrite Nat2Z.id, take_app_length in H. by rewrite S3 at 1.
    - intros t'. by destruct Hres as [->| ->]; [|intros [= <-]]. }
  destruct br as [|ra ca [[ow m]|]|needed [ow m]| |]; cbn; try (apply Hopen; cbn; auto).
  exists (ns ++ [n]). split; [|done]. constructor; cbn; [|done|lia|by rewrite recs_empty by lia|done|].
  - pose proof (Hsent (blen (ns ++ [n]))) as H. rewrite blen_app in *. change (blen [n]) with 1 in *. specialize (H ltac:(lia)).
    replace (lp_durable_through lp + n) with (at_skip a + total (take (Z.to_nat (blen ns + 1)) (ns ++ [n]))); [done|].
    rewrite take_ge by (rewrite length_app; unfold blen; cbn; lia). rewrite total_app, total_one. lia.
  - change (blen []) with 0. lia.
Qed.

Lemma filling_sent a ps r lp ns d0 d res :
  filling a ps r lp ns d0 d → (∀ t, cursor res = Some t → t = lp_durable_through lp) → sent_by a ps d0 d res.
Proof. intros [S _ _ _ _ _] Hc. by exists ns, (blen ns), (lp_durable_through lp). Qed.

Lemma sent_skip a ps ns k t d0 d : sent a ps ns k t d0 d → at_skip a ≤ t.
Proof.
  intros [_ S2 -> _ _]. assert (0 ≤ total (take (Z.to_nat k) ns)); [|lia]. by eapply total_nonneg, Forall_take.
Qed.

Lemma filling_skip a ps r lp ns d0 d :
  filling a ps r lp ns d0 d → r + 1 ≤ at_skip a →
  filling a ps (r + 1) (mkLoop (r + 1) (lp_durable_through lp) (lp_batch lp) (lp_batch_ids lp)) ns d0 d.
Proof.
  intros [S F1 F2 F3 F4 F5] Hs. pose proof (sent_skip _ _ _ _ _ _ _ S).
  constructor; cbn; [done|done|lia| |done|done]. rewrite F3, !recs_empty; [done|lia|lia].
Qed.

Lemma filling_push a done p rest lp ns d0 d :
  filling a (done ++ p :: rest) (blen done) lp ns d0 d → at_skip a ≤ blen done → 0 ≤ at_skip a →
  blen (lp_batch lp) < at_max_batch a →
  filling a (done ++ p :: rest) (blen done + 1)
    (mkLoop (blen done + 1) (lp_durable_through lp) (lp_batch lp ++ [p])
       (lp_batch_ids lp ++ [for_record (segment_identity (at_segment a)) (blen done + 1) p])) ns d0 d.
Proof.
  intros [S F1 F2 F3 F4 F5] Hs H0 Hlt.
  pose proof (sent_skip _ _ _ _ _ _ _ S).
  assert (Hn : blen (lp_batch lp) = blen done - lp_durable_through lp).
  { rewrite F3, blen_recs; [done|lia|lia|]. rewrite blen_app. pose proof (blen_nonneg (p :: rest)). lia. }
  constructor; cbn [lp_durable_through lp_batch lp_batch_ids lp_read_index]; [done|done|lia| | |].
  - rewrite recs_snoc by lia. by rewrite <-F3.
  - rewrite ids_snoc, <-F4, Hn. do 3 f_equal. lia.
  - rewrite blen_app. change (blen [p]) with 1. lia.
Qed.

Lemma records_sent a config rest more tail done lp ns dl d0 d :
  (∀ q, Ok q ∉ tail) → filling a (done ++ rest ++ more) (blen done) lp ns d0 d → blen (lp_batch lp) < at_max_batch a →
  1 ≤ at_max_batch a → 0 ≤ at_skip a →
  match record_loop a config (map Ok rest ++ tail) lp dl d with
  | (Ok (lp', _), _, d') => ∃ ns', filling a (done ++ rest ++ more) (blen (done ++ rest)) lp' ns' d0 d'
  | (Err res, _, d') => sent_by a (done ++ rest ++ more) d0 d' res
  end.
Proof.
  intros Ht. revert done lp ns dl d. induction rest as [|p rest IH]; intros done lp ns dl d Hi Hb Hm Hs; cbn [map app] in *.
  { rewrite app_nil_r. destruct tail as [|[q|e] tail]; cbn [record_loop]; [by exists ns|destruct (Ht q); by left|].
    destruct (is_corruption e); [by exists ns|]. cbv zeta. destruct (_ && _); [by exists ns|].
    eapply filling_sent; [exact Hi|]. by intros t [= <-]. }
  cbn [record_loop]. cbv zeta. rewrite (fi_read _ _ _ _ _ _ _ Hi).
  assert (Ea : done ++ p :: rest ++ more = (done ++ [p]) ++ rest ++ more) by (by rewrite <-app_assoc).
  assert (El : blen (done ++ [p]) = blen done + 1) by (rewrite blen_app; done).
  assert (Er : blen (done ++ p :: rest) = blen ((done ++ [p]) ++ rest)) by (by rewrite <-app_assoc).
  assert (Hle : blen done + 1 ≤ blen (done ++ p :: rest ++ more))
    by (rewrite blen_app, blen_cons; pose proof (blen_nonneg (rest ++ more)); lia).
  rewrite Er. destruct (Z.leb_spec (blen done + 1) (at_skip a)) as [Hk|Hk].
  { apply filling_skip in Hi; [|done]. rewrite Ea, <-El in *. by apply (IH _ _ ns). }
  apply filling_push in Hi; [|lia|done|done]. set (lp1 := mkLoop _ _ _ _) in *.
  destruct (Z.leb_spec (at_max_batch a) (blen (lp_batch lp1))) as [Hf|Hf].
  - assert (Hne : lp_batch lp1 ≠ []) by (unfold lp1; cbn; by destruct (lp_batch lp)).
    pose proof (flush_sent a config _ _ lp1 ns dl d0 d Hi Hne Hs Hle) as Hfl.
    destruct (send_batch a config lp1 dl d) as [[[lp2|stop] dl1] d1]; [|exact Hfl].
    destruct Hfl as (ns' & Hi' & He). rewrite Ea, <-El in *. apply (IH _ _ ns'); [done| |done|done]. rewrite He, blen_nil. lia.
  - rewrite Ea, <-El in *. by apply (IH _ _ ns).
Qed.

(** ** The attempt *)

Lemma quarantine_sent segment config reason d :
  dr_sink (snd (quarantine_result segment config reason d)) = dr_sink d ∧
  cursor (fst (quarantine_result segment config reason d)) = None.
Proof. unfold quarantine_result. by destruct (quarantine_segment _ _ _) as [[] ?]. Qed.

Lemma completeness_sent segment config lp d :
  dr_sink (snd (completeness_check segment config lp d)) = dr_sink d ∧
  ∀ t, cursor (fst (completeness_check segment config lp d)) = Some t → t = lp_durable_through lp.
Proof.
  unfold completeness_check. destruct (read_segment_record_count _ _) as [[n|e] w]; cbv zeta.
  - destruct (_ =? _); [done|]. destruct (quarantine_sent segment config REASON_MISMATCH (set_world w d)) as [-> ->]. done.
  - destruct (is_corruption e).
    + destruct (quarantine_sent segment config REASON_FOOTER (set_world w d)) as [-> ->]. done.
    + destruct (bool_decide _); [done|]. split; [done|]. by intros t [= <-].
Qed.

Lemma finish_sent a config ps r lp ns q dl d0 d :
  filling a ps r lp ns d0 d → 0 ≤ at_skip a → r ≤ blen ps →
  let '(res, _, d') := finish_segment a config lp q dl d in sent_by a ps d0 d' res.
Proof.
  intros Hi Hs Hr. unfold finish_segment.
  set (rest := λ lp dl d, let '(r, d) := match q with
                   | Some reason => quarantine_result (at_segment a) config reason d
                   | None => completeness_check (at_segment a) config lp d
                   end in (r, dl : DeadLetterWriter, d)).
  assert (Hrest : ∀ lp1 ns1 dl1 d1, filling a ps r lp1 ns1 d0 d1 → let '(res, _, d') := rest lp1 dl1 d1 in sent_by a ps d0 d' res).
  { intros lp1 ns1 dl1 d1 [S _ _ _ _ _]. unfold rest. destruct q as [reason|].
    - destruct (quarantine_sent (at_segment a) config reason d1) as [Hk Hc]. destruct (quarantine_result _ _ _ _) as [res d2].
      exists ns1, (blen ns1), (lp_durable_through lp1). split; [by eapply sent_sink|]. cbn in Hc. by rewrite Hc.
    - destruct (completeness_sent (at_segment a) config lp1 d1) as [Hk Hc]. destruct (completeness_check _ _ _ _) as [res d2].
      exists ns1, (blen ns1), (lp_durable_through lp1). split; [by eapply sent_sink|done]. }
  destruct (lp_batch lp) as [|x b] eqn:Eb; [by apply (Hrest lp ns)|].
  pose proof (flush_sent a config ps r lp ns dl d0 d Hi ltac:(by rewrite Eb) Hs Hr) as Hf.
  destruct (send_batch a config lp dl d) as [[[lp1|stop] dl1] d1]; [|exact Hf]. destruct Hf as (ns' & Hi' & _).
  by apply (Hrest lp1 ns').
Qed.

Lemma sent_nil a ps d0 d : dr_sink d = dr_sink d0 → sent a ps [] 0 (at_skip a) d0 d.
Proof.
  intros Hk. constructor; [done|done| | |]; rewrite ?take_nil; change (total []) with 0; rewrite ?blen_nil; lia.
Qed.

Lemma no_batches segment c config skip d d' r ps :
  dr_sink d' = dr_sink d → (∀ t, cursor r = Some t → t = skip) →
  sent_by (mkAttempt segment None c (Z.max 1 (max_batch_size (dr_sink d))) skip config) ps d d' r.
Proof.
  intros Hk Hc. exists [], 0, skip. split; [|done]. by apply sent_nil.
Qed.

(** C9: the sink sees each record of an attempt once, in order: what it is sent are
    consecutive batches of the segment's records from the resumption point on, none empty
    or above its limit, with the token of their payloads, the identifiers of their records
    (the segment's identity, the record's number in the segment and its payload, whatever
    the batching) and the segment's creation time. All but possibly the last are settled,
    and a result that reports a cursor reports the end of the settled ones: the next
    attempt sends again at most the batch that failed. *)
Theorem sink_sees_records_in_order segment config skip last_chance dl d r dl' d' i node ps tail rd :
  process_segment segment config skip last_chance dl d = (r, dl', d') → 0 ≤ skip →
  fs_live (dr_fs d) !! segment = Some i → fs_files (dr_fs d) !! i = Some node → reads (f_data node) ps tail →
  segment_reader_open (Ok (mkStream (f_data node) false)) = Ok rd →
  ∃ ns settled,
    dr_sink d' = after_commits (batches segment (sh_created_at (sr_header rd)) skip ns ps) (dr_sink d) ∧
    Forall (λ n, 1 ≤ n ≤ Z.max 1 (max_batch_size (dr_sink d))) ns ∧
    skip + total ns ≤ Z.max skip (blen ps) ∧
    blen ns - 1 ≤ settled ≤ blen ns ∧
    ∀ t, cursor r = Some t → t = skip + total (take (Z.to_nat settled) ns).
Proof.
  intros H Hs Hi Hn Hps Hrd.
  assert (Hby : ∀ b f, let a := mkAttempt segment f (sh_created_at (sr_header rd)) (Z.max 1 (max_batch_size (dr_sink d))) skip b in
    sent_by a ps d d' r → ∃ ns settled,
    dr_sink d' = after_commits (batches segment (sh_created_at (sr_header rd)) skip ns ps) (dr_sink d) ∧
    Forall (λ n, 1 ≤ n ≤ Z.max 1 (max_batch_size (dr_sink d))) ns ∧
    skip + total ns ≤ Z.max skip (blen ps) ∧ blen ns - 1 ≤ settled ≤ blen ns ∧
    ∀ t, cursor r = Some t → t = skip + total (take (Z.to_nat settled) ns)).
  { intros b f a (ns & k & t & [S1 S2 S3 S4 S5] & Hc). exists ns, k. do 4 (split; [done|]). intros t' Ht. by rewrite (Hc t' Ht). }
  unfold process_segment in H. destruct (open_read segment (dr_world d)) as [opened w] eqn:Eo.
  destruct (open_read_spec _ _ _ _ Eo) as [_ Hst]. cbv zeta in H.
  assert (Hnone : dr_sink d' = dr_sink d → (∀ t, cursor r = Some t → t = skip) → _) by
    (intros Hk Hc; apply (Hby false None); by apply no_batches).
  destruct (segment_reader_open opened) as [rd'|e] eqn:Er.
  - destruct opened as [st|e]; [|done]. destruct (Hst st eq_refl) as (j & node' & Hj & Hn' & Hc).
    unfold dr_fs in *. rewrite Hi in Hj. injection Hj as <-. rewrite Hn in Hn'. injection Hn' as <-.
    rewrite (stream_header _ _ _ _ Hc Er Hrd) in H.
    destruct (reads_stream _ _ _ _ _ Hc Er Hps) as (ps' & tail' & Hit & [more ->] & _ & Hno). rewrite Hit in H.
    set (a := mkAttempt _ _ _ _ _ _) in H. apply (Hby last_chance (file_at segment d)). fold a.
    assert (F0 : filling a ([] ++ ps' ++ more) (blen (@nil bytes)) (mkLoop 0 skip [] []) [] d (set_world w d)).
    { constructor; cbn; [|done|lia|by rewrite recs_empty|done|unfold blen; cbn; lia].
      by apply (sent_nil a). }
    pose proof (records_sent a config ps' more tail' [] _ _ dl _ _ Hno F0 ltac:(cbn; unfold blen; cbn; lia) ltac:(cbn; lia) Hs) as Hl.
    destruct (record_loop _ _ _ _ _ _) as [[[[lp q]|stop] dl1] d1]; [|by injection H as <- <- <-].
    destruct Hl as [ns' F1]. cbn [app] in F1.
    pose proof (finish_sent a config _ _ lp ns' q dl1 d d1 F1 Hs ltac:(rewrite blen_app; pose proof (blen_nonneg more); lia)) as Hf.
    by rewrite H in Hf.
  - destruct e; try (injection H as <- <- <-; apply Hnone; [done|]; by intros t [= <-]).
    destruct (inspect_rejected_header segment (dr_world (set_world w d))) as [v w1].
    destruct v; try (injection H as <- <- <-; apply Hnone; [done|]; by intros t [= <-]).
    destruct (quarantine_sent segment config REASON_HEADER (set_world w1 (set_world w d))) as [Hk Hc].
    destruct (quarantine_result _ _ _ _) as [r1 d1]. cbn [fst snd] in *. injection H as <- <- <-.
    apply Hnone; [by rewrite Hk|]. by rewrite Hc.
Qed.
End Sent.

(** A sink that keeps what it is sent. *)
Module RecordingSink.
#[export] Instance recording : Sink := {|
  sink_state := list SinkBatch;
  max_batch_size := λ _, 2;
  commit := λ b s, (Answered (Ok (mkCommitResult (sb_records b) [])), s ++ [b]);
  health := λ s, (Answered Healthy, s);
|}.
End RecordingSink.

Module SentWitness.
#[local] Existing Instance Crc32Ieee.ieee.
#[local] Existing Instance ZstdRaw.raw.
#[local] Existing Instance Crc32Ieee.ieee_laws.
#[local] Existing Instance ZstdRaw.raw_laws.
#[local] Existing Instance ShaPrefix.prefix.
#[local] Existing Instance RecordingSink.recording.
Import RecoveryWitness ScanWitness AccountWitness.

Definition recording_start : Dr := mkDr (three_disk []) [] (control_new Attached 0 0) [] true [] [].
Definition outcome : ProcessResult * DeadLetterWriter * Dr :=
  process_segment sealed1 config 1 false writer recording_start.
Definition header_reader : SegmentReader :=
  match segment_reader_open (Ok (mkStream sealed_file false)) with
  | Ok rd => rd
  | Err _ => mkSegmentReader (mkStream [] false) true (mkSegmentHeaderMeta x01 CNone 0 0) CNone None
  end.

(** Resumed past its first record, the segment is sent as one batch of the other two. *)
Example sent_two : map sb_records (dr_sink (snd outcome)) = [[bstr "weir"; bstr "how"]].
Proof. vm_compute. reflexivity. Qed.

Lemma sink_sees_records_in_order_witness :
  ∃ ns settled,
    dr_sink (snd outcome) = after_commits (batches sealed1 (sh_created_at (sr_header header_reader)) 1 ns three) [] ∧
    Forall (λ n, 1 ≤ n ≤ 2) ns ∧ 1 + total ns ≤ 3 ∧ blen ns - 1 ≤ settled ≤ blen ns.
Proof.
  destruct (sink_sees_records_in_order sealed1 config 1 false writer recording_start (fst (fst outcome)) (snd (fst outcome))
              (snd outcome) 1%positive (on_disk sealed_file) three [] header_reader) as (ns & k & H1 & H2 & H3 & H4 & _).
  - change (process_segment sealed1 config 1 false writer recording_start) with outcome. by destruct outcome as [[]].
  - done.
  - by vm_compute.
  - by vm_compute.
  - apply three_reads.
  - by vm_compute.
  - exists ns, k. split; [exact H1|]. split; [exact H2|]. split; [exact H3|exact H4].
Defined.
End SentWitness.
