(* ===== verification/Drain.v ===== *)
(** * The drain thread (weir-server, drain/mod.rs)

    The state machine of [drain_thread_with] and its supervisor: which segment is taken
    next, what an attempt's result leads to, the waits (retry backoff, dead-letter block,
    pause), the health poll with its rescan of stranded segments, the operator's
    retry ticket, and the exits. [drain_step] is one pass of the outer loop; a pass of an
    inner wait loop is a step of its own, whose local variables are [ls_wait]. Gauges, the
    status board and log lines are not modelled. *)

From Stdlib Require Import ZArith Lia Strings.Byte String.
From stdpp Require Import base gmap list option sets.
From S2P Require Import Prelude Deps Wire Sink Text Names Io Fs Durable Touch Format Reader Segment Recovery Scan.
From S2P Require Import Confirm DeadLetter Ledger Control Deliver.

Definition SHUTDOWN_RETRY_BACKOFF_CAP : Z := millis 250.
Definition SHUTDOWN_RETRY_BACKOFF_BUDGET : Z := secs 1.
Definition MAX_RETRY_DELAY : Z := secs 300.

(** ** States *)

Inductive HeldResume :=
| HeldFresh
| HeldRetry (retries_left next_delay : Z) (cause : TransientCause) (backoff_cut : bool).

Inductive DrainState :=
| Draining
| RetryingTransient (segment : path) (retries_left next_delay processed : Z) (cause : TransientCause)
    (backoff_cut waited : bool)
| Held (segment : path) (processed : Z) (resume : HeldResume)
| Abandoned (segment : path) (processed : Z)
| BlockedDeadLetterFull (segment : path) (blocked_since processed needed : Z).

Inductive DrainExitReason := Stopped | DeadlineAbandoned | GaveUp.

(** [next_retry_delay]. *)
Definition next_retry_delay (default_ : Z) (hint : option Z) : Z := Z.min (default default_ hint) MAX_RETRY_DELAY.

(** What one rescan did; [scan_error] without its text. *)
Record RescanOutcome := mkRescanOutcome {
  ro_requeued : Z;
  ro_already_queued : Z;
  ro_scan_error : bool;
  ro_incomplete : bool;
}.

Record RequeueResult := mkRequeueResult {
  rr_ticket : Z;
  rr_requeued : Z;
  rr_already_queued : Z;
  rr_scan_error : bool;
  rr_backoff_cut : bool;
  rr_coalesced : bool;
}.

(** [RequeueService]. *)
Record RequeueService := mkRequeueService {
  rq_seen : Z;
  rq_last_scan_at : option Z;
  rq_last : option RequeueResult;
}.

(** The locals of an inner wait loop. *)
Record Wait := mkWait { wt_start : Z; wt_end : Z; wt_cut : bool }.

Section Drain.
Context {CRC : Crc32} {ZS : Zstd} {SHA : Sha256} {SK : Sink}.

(** ** Transitions *)

(** [end_block_episode]: the gauge aside, the episode ends. *)
Definition end_block_episode (block_episode : option Z) : option Z := None.

(** [enter_blocked]: a new episode counts once. *)
Definition enter_blocked (segment : path) (block_episode : option Z) (processed needed : Z) (d : Dr)
    : DrainState * option Z * Dr :=
  match block_episode with
  | Some since => (BlockedDeadLetterFull segment since processed needed, Some since, d)
  | None =>
    let since := instant_now d in
    (BlockedDeadLetterFull segment since processed needed, Some since, upd_world (inc DeadLetterFull) d)
  end.

(** [store_dl_carry]. *)
Definition store_dl_carry (segment : path) (carry : option DeadLetterCarry) (l : SegmentLedger) (w : World)
    : SegmentLedger * World :=
  match carry with
  | None => (l, w)
  | Some carry => let '(_, l, w) := set_dl_carry segment carry l w in (l, w)
  end.

Definition REASON_PERSISTENT : bytes := bstr "drain: persistent local read error".

(** [escalate_local_read]: [None] to carry on retrying. *)
Definition escalate_local_read (segment : path) (class : ErrClass) (config : DrainConfig) (l : SegmentLedger) (d : Dr)
    : bool * SegmentLedger * Dr :=
  let '(failures, l) := note_local_read_failure segment class (dr_world d) l in
  if negb (local_read_escalation_due segment failures config l) then (false, l, d) else
  match class with
  | ClassProcess => (false, l, d)
  | ClassAccess => (true, park segment LocalReadFailed l, d)
  | ClassMedia =>
    let '(moved, w) := quarantine_segment segment config (dr_world d) in
    (true, if moved then forget segment l else note_quarantine_pending segment REASON_PERSISTENT l, set_world w d)
  end.

(** [next_state_after_process]. A panic has no next state. *)
Definition next_state_after_process (segment : path) (result : ProcessResult) (resume : HeldResume)
    (config : DrainConfig) (block_episode : option Z) (l : SegmentLedger) (d : Dr)
    (on_transient : option Z → Z → TransientCause → DrainState)
    : option DrainState * option Z * SegmentLedger * Dr :=
  match result with
  | PConfirmed record_count =>
    let '(outcome, w) := confirm_and_delete segment record_count (dr_world d) in
    let l := note_confirm_outcome segment outcome record_count (forget segment l) in
    (Some Draining, end_block_episode block_episode, l, set_world w d)
  | PTransient retry_after processed cause carry =>
    let '(escalated, l, d) := match cause with
                              | CauseLocalRead class => escalate_local_read segment class config l d
                              | _ => (false, l, d)
                              end in
    if escalated : bool then (Some Draining, end_block_episode block_episode, l, d) else
    let '(l, w) := record_progress segment processed l (dr_world d) in
    let '(l, w) := store_dl_carry segment carry l w in
    (Some (on_transient retry_after processed cause), block_episode, l, set_world w d)
  | PBlockedDeadLetter processed needed carry =>
    let '(l, w) := record_progress segment processed l (dr_world d) in
    let '(l, w) := store_dl_carry segment carry l w in
    let '(state, episode, d) := enter_blocked segment block_episode processed needed (set_world w d) in
    (Some state, episode, l, d)
  | PParked reason => (Some Draining, end_block_episode block_episode, park segment reason l, d)
  | PQuarantined => (Some Draining, end_block_episode block_episode, forget segment l, d)
  | PQuarantinePending reason =>
    (Some Draining, end_block_episode block_episode, note_quarantine_pending segment reason l, d)
  | PPaused processed =>
    let '(l, w) := record_progress segment processed l (dr_world d) in
    (Some (Held segment processed resume), block_episode, l, set_world w d)
  | PAbandoned processed =>
    let '(l, w) := record_progress segment processed l (dr_world d) in
    (Some (Abandoned segment processed), block_episode, l, set_world w d)
  | PPanicked => (None, block_episode, l, d)
  end.

(** The [on_transient] of [transition_from_draining]: a fresh budget and the base delay. *)
Definition fresh_retry (segment : path) (config : DrainConfig) (retry_after : option Z) (processed : Z)
    (cause : TransientCause) : DrainState :=
  RetryingTransient segment (dc_max_retries config) (next_retry_delay (dc_base_retry_delay config) retry_after)
    processed cause false false.

(** That of the [RetryingTransient] arm: one retry spent, the delay doubled. *)
Definition next_retry (segment : path) (retries_left next_delay : Z) (backoff_cut : bool) (retry_after : option Z)
    (processed : Z) (cause : TransientCause) : DrainState :=
  RetryingTransient segment (retries_left - 1) (next_retry_delay (next_delay * 2) retry_after)
    processed cause backoff_cut false.

(** ** The thread's variables *)

Record LoopSt := mkLoopSt {
  ls_state : DrainState;
  ls_wait : option Wait;
  ls_ledger : SegmentLedger;
  ls_dl : DeadLetterWriter;
  ls_dr : Dr;
  ls_pending : list path;
  ls_backlog : list path;
  ls_backlog_turn : bool;
  ls_channel_gone : bool;
  ls_requeue : RequeueService;
  ls_prev_health_ok : bool;
  ls_last_health_poll : Z;
  ls_shutdown_backoff_left : Z;
  ls_block_episode : option Z;
}.

Definition with_state (st : DrainState) (s : LoopSt) : LoopSt :=
  mkLoopSt st None (ls_ledger s) (ls_dl s) (ls_dr s) (ls_pending s) (ls_backlog s) (ls_backlog_turn s)
    (ls_channel_gone s) (ls_requeue s) (ls_prev_health_ok s) (ls_last_health_poll s)
    (ls_shutdown_backoff_left s) (ls_block_episode s).
Definition with_wait (wt : option Wait) (s : LoopSt) : LoopSt :=
  mkLoopSt (ls_state s) wt (ls_ledger s) (ls_dl s) (ls_dr s) (ls_pending s) (ls_backlog s) (ls_backlog_turn s)
    (ls_channel_gone s) (ls_requeue s) (ls_prev_health_ok s) (ls_last_health_poll s)
    (ls_shutdown_backoff_left s) (ls_block_episode s).
Definition with_ledger (l : SegmentLedger) (s : LoopSt) : LoopSt :=
  mkLoopSt (ls_state s) (ls_wait s) l (ls_dl s) (ls_dr s) (ls_pending s) (ls_backlog s) (ls_backlog_turn s)
    (ls_channel_gone s) (ls_requeue s) (ls_prev_health_ok s) (ls_last_health_poll s)
    (ls_shutdown_backoff_left s) (ls_block_episode s).
Definition with_dl (dl : DeadLetterWriter) (s : LoopSt) : LoopSt :=
  mkLoopSt (ls_state s) (ls_wait s) (ls_ledger s) dl (ls_dr s) (ls_pending s) (ls_backlog s) (ls_backlog_turn s)
    (ls_channel_gone s) (ls_requeue s) (ls_prev_health_ok s) (ls_last_health_poll s)
    (ls_shutdown_backoff_left s) (ls_block_episode s).
Definition with_dr (d : Dr) (s : LoopSt) : LoopSt :=
  mkLoopSt (ls_state s) (ls_wait s) (ls_ledger s) (ls_dl s) d (ls_pending s) (ls_backlog s) (ls_backlog_turn s)
    (ls_channel_gone s) (ls_requeue s) (ls_prev_health_ok s) (ls_last_health_poll s)
    (ls_shutdown_backoff_left s) (ls_block_episode s).
Definition with_queues (pending backlog : list path) (turn : bool) (s : LoopSt) : LoopSt :=
  mkLoopSt (ls_state s) (ls_wait s) (ls_ledger s) (ls_dl s) (ls_dr s) pending backlog turn
    (ls_channel_gone s) (ls_requeue s) (ls_prev_health_ok s) (ls_last_health_poll s)
    (ls_shutdown_backoff_left s) (ls_block_episode s).
Definition with_gone (s : LoopSt) : LoopSt :=
  mkLoopSt (ls_state s) (ls_wait s) (ls_ledger s) (ls_dl s) (ls_dr s) (ls_pending s) (ls_backlog s)
    (ls_backlog_turn s) true (ls_requeue s) (ls_prev_health_ok s) (ls_last_health_poll s)
    (ls_shutdown_backoff_left s) (ls_block_episode s).
Definition with_requeue (rq : RequeueService) (s : LoopSt) : LoopSt :=
  mkLoopSt (ls_state s) (ls_wait s) (ls_ledger s) (ls_dl s) (ls_dr s) (ls_pending s) (ls_backlog s)
    (ls_backlog_turn s) (ls_channel_gone s) rq (ls_prev_health_ok s) (ls_last_health_poll s)
    (ls_shutdown_backoff_left s) (ls_block_episode s).
Definition with_health (ok : bool) (s : LoopSt) : LoopSt :=
  mkLoopSt (ls_state s) (ls_wait s) (ls_ledger s) (ls_dl s) (ls_dr s) (ls_pending s) (ls_backlog s)
    (ls_backlog_turn s) (ls_channel_gone s) (ls_requeue s) ok (ls_last_health_poll s)
    (ls_shutdown_backoff_left s) (ls_block_episode s).
Definition with_polled (now : Z) (s : LoopSt) : LoopSt :=
  mkLoopSt (ls_state s) (ls_wait s) (ls_ledger s) (ls_dl s) (ls_dr s) (ls_pending s) (ls_backlog s)
    (ls_backlog_turn s) (ls_channel_gone s) (ls_requeue s) (ls_prev_health_ok s) now
    (ls_shutdown_backoff_left s) (ls_block_episode s).
Definition with_budget (left_ : Z) (s : LoopSt) : LoopSt :=
  mkLoopSt (ls_state s) (ls_wait s) (ls_ledger s) (ls_dl s) (ls_dr s) (ls_pending s) (ls_backlog s)
    (ls_backlog_turn s) (ls_channel_gone s) (ls_requeue s) (ls_prev_health_ok s) (ls_last_health_poll s)
    left_ (ls_block_episode s).
Definition with_episode (e : option Z) (s : LoopSt) : LoopSt :=
  mkLoopSt (ls_state s) (ls_wait s) (ls_ledger s) (ls_dl s) (ls_dr s) (ls_pending s) (ls_backlog s)
    (ls_backlog_turn s) (ls_channel_gone s) (ls_requeue s) (ls_prev_health_ok s) (ls_last_health_poll s)
    (ls_shutdown_backoff_left s) e.

Definition on_dr (f : Dr → Dr) (s : LoopSt) : LoopSt := with_dr (f (ls_dr s)) s.
Definition push_pending (p : path) (s : LoopSt) : LoopSt :=
  with_queues (ls_pending s ++ [p]) (ls_backlog s) (ls_backlog_turn s) s.

Definition ls_control (s : LoopSt) : DrainControl := dr_control (ls_dr s).
Definition ls_now (s : LoopSt) : Z := instant_now (ls_dr s).
Definition ls_deadline_passed (s : LoopSt) : bool := dr_deadline_passed (ls_dr s).

(** How a pass ends: the next pass, the end of the thread with the segment it leaves partly
    delivered, or a panic that unwinds it. *)
Inductive Step :=
| Next (s : LoopSt)
| Exit (reason : DrainExitReason) (abandoned : option (path * Z)) (s : LoopSt)
| Unwound (s : LoopSt).

(** ** Waiting and picking *)

(** [while let Ok(p) = rx.try_recv() { pending.push_back(p) }]. *)
Definition drain_channel (s : LoopSt) : LoopSt :=
  on_dr (set_channel [])
    (with_queues (ls_pending s ++ dr_channel (ls_dr s)) (ls_backlog s) (ls_backlog_turn s) s).

Inductive WaitResult := WaitSegment (p : path) | WaitTimedOut | WaitStop | WaitDisconnected.

(** [thread::sleep]. *)
Definition sleep (ns : Z) (s : LoopSt) : LoopSt := on_dr (λ d, upd_world (tick ns) (observe d)) s.

(** [wait_slice]. *)
Definition wait_slice (dur : Z) (s : LoopSt) : WaitResult * LoopSt :=
  let s := if absorbing (ls_control s) then drain_channel s else s in
  if stop_requested (ls_control s) && ls_deadline_passed s then (WaitStop, s) else
  let slice := Z.min dur SLICE in
  let slice := if pause_requested (ls_control s) then SLICE else slice in
  let slice := match time_left (ls_control s) (ls_now s) with
               | Some left_ => Z.min slice (Z.max left_ (millis 1))
               | None => slice
               end in
  if ls_channel_gone s then (WaitTimedOut, sleep slice s) else
  let recv (s : LoopSt) (otherwise : WaitResult * LoopSt) :=
    match dr_channel (ls_dr s) with
    | p :: rest => (WaitSegment p, on_dr (set_channel rest) s)
    | [] => otherwise
    end in
  recv s (let s := on_dr observe s in
          recv s (if dr_connected (ls_dr s) then (WaitTimedOut, on_dr (upd_world (tick slice)) s) else
                  match c_mode (ls_control s) with
                  | Detached => (WaitDisconnected, s)
                  | Attached => (WaitTimedOut, sleep slice (with_gone s))
                  end)).

(** [stop_exit]. *)
Definition stop_exit (s : LoopSt) : option DrainExitReason :=
  let empty {A} (l : list A) := (length l =? 0)%nat in
  if negb (stop_requested (ls_control s)) then None else
  let nothing_left := empty (ls_pending s) && empty (ls_backlog s) && empty (dr_channel (ls_dr s)) in
  if ls_deadline_passed s then Some (if nothing_left then Stopped else DeadlineAbandoned) else
  if input_closed (ls_control s) && nothing_left then Some Stopped else None.

(** [next_queued]. *)
Definition next_queued (s : LoopSt) : option path * LoopSt :=
  let backlog_due := ls_backlog_turn s && negb (length (ls_backlog s) =? 0)%nat in
  let take_backlog :=
    match ls_backlog s with
    | [] => (None, s)
    | p :: backlog => (Some p, with_queues (ls_pending s) backlog false s)
    end in
  if backlog_due then take_backlog else
  match ls_pending s, dr_channel (ls_dr s) with
  | p :: pending, _ => (Some p, with_queues pending (ls_backlog s) true s)
  | [], p :: rest => (Some p, on_dr (set_channel rest) (with_queues [] (ls_backlog s) true s))
  | [], [] => take_backlog
  end.

(** ** Rescans *)

(** [requeue_unconfirmed]. *)
Definition requeue_unconfirmed (config : DrainConfig) (in_flight : option path) (s : LoopSt)
    : RescanOutcome * LoopSt :=
  let s := drain_channel s in
  let now := ls_now s in
  let l := ls_ledger s in
  match scan_unconfirmed_sealed (dc_wab_dir config) None (λ p, excludes p now l) (dc_orphan_cleanup config)
          (dr_world (ls_dr s)) with
  | (Ok scan, w) =>
    let queued := ls_pending s ++ ls_backlog s ++ match in_flight with Some p => [p] | None => [] end in
    let fresh := filter (λ p, p ∉ queued) (ss_segments scan) in
    let already := filter (λ p, p ∈ queued) (ss_segments scan) in
    let requeued := blen fresh in
    (mkRescanOutcome requeued (blen already) false (ss_incomplete scan),
     with_queues (ls_pending s) (ls_backlog s ++ fresh) (ls_backlog_turn s)
       (on_dr (set_world (if 0 <? requeued then inc_by DrainSegmentsResumed requeued w else w)) s))
  | (Err _, w) => (mkRescanOutcome 0 0 true false, on_dr (set_world w) s)
  end.

(** [probe_and_resume_stranded_with]; [Err] when the sink's probe panics. A probe that
    stays silent reads as down. *)
Definition probe_and_resume (config : DrainConfig) (in_flight : option path) (s : LoopSt) : result LoopSt LoopSt :=
  let '(answer, sk) := health (dr_sink (ls_dr s)) in
  let s := on_dr (λ d, observe (set_sink sk d)) s in
  match answer with
  | Panicked => Err s
  | _ =>
    let now_ok := match answer with Answered (Down _) | Silent => false | _ => true end in
    if now_ok && (negb (ls_prev_health_ok s) || ((length (ls_pending s) =? 0)%nat && (length (ls_backlog s) =? 0)%nat))
    then
      let '(out, s) := requeue_unconfirmed config in_flight s in
      if ro_scan_error out || ro_incomplete out then Ok s else Ok (with_health now_ok s)
    else Ok (with_health now_ok s)
  end.

(** [RequeueService::service]. *)
Definition service (scan : LoopSt → RescanOutcome * LoopSt) (cut : LoopSt → bool * LoopSt) (s : LoopSt) : LoopSt :=
  let rq := ls_requeue s in
  let ticket := c_requeue_req (ls_control s) in
  if ticket <=? rq_seen rq then s else
  let now := ls_now s in
  let '(result, last_scan_at, s) :=
    let rescan :=
      let '(outcome, s) := if absorbing (ls_control s) then (mkRescanOutcome 0 0 true false, s) else scan s in
      let '(backoff_cut, s) := cut s in
      (mkRequeueResult ticket (ro_requeued outcome) (ro_already_queued outcome) (ro_scan_error outcome)
         backoff_cut false, Some now, s) in
    match rq_last rq, rq_last_scan_at rq with
    | Some last, Some at_ =>
      if now - at_ <? REQUEUE_MIN_INTERVAL then
        (mkRequeueResult ticket (rr_requeued last) (rr_already_queued last) (rr_scan_error last) false true,
         Some at_, s)
      else rescan
    | _, _ => rescan
    end in
  with_requeue (mkRequeueService ticket last_scan_at (Some result))
    (on_dr (λ d, set_control (observe_requeue ticket (dr_control d)) d) s).

Definition service_scan (config : DrainConfig) (in_flight : option path) (s : LoopSt) : LoopSt :=
  service (requeue_unconfirmed config in_flight) (λ s, (false, s)) s.

(** ** The arms *)

Definition poll_due (config : DrainConfig) (s : LoopSt) : bool :=
  negb (absorbing (ls_control s)) && (dc_health_poll_interval config <=? ls_now s - ls_last_health_poll s).

(** The wall-clock poll of the [Draining] arm. *)
Definition draining_poll (config : DrainConfig) (s : LoopSt) : result LoopSt LoopSt :=
  if negb (poll_due config s) then Ok s else
  let '(l, w) := retry_dispositions (dc_wab_dir config) (ls_ledger s) (dr_world (ls_dr s)) in
  let s := with_ledger l (on_dr (set_world w) s) in
  match probe_and_resume config None s with
  | Err s => Err s
  | Ok s =>
    let '(_, dl, w) := dl_rescan (ls_dl s) (dr_world (ls_dr s)) in
    let s := with_dl dl (on_dr (set_world w) s) in
    Ok (with_polled (ls_now s) s)
  end.

(** The poll of a hold: the probe and the rescan only. *)
Definition held_poll (config : DrainConfig) (segment : path) (s : LoopSt) : result LoopSt LoopSt :=
  if negb (poll_due config s) then Ok s else
  match probe_and_resume config (Some segment) s with
  | Err s => Err s
  | Ok s => Ok (with_polled (ls_now s) s)
  end.

(** The picking loop of the [Draining] arm, up to the idle wait: the admitted segment. *)
Fixpoint pick (fuel : nat) (s : LoopSt) : option (path * Z) * LoopSt :=
  match fuel with
  | O => (None, s)
  | S fuel =>
    match next_queued s with
    | (None, s) => (None, s)
    | (Some p, s) =>
      let '(a, l, w) := ledger_admit p (ls_now s) (ls_ledger s) (dr_world (ls_dr s)) in
      let s := with_ledger l (on_dr (set_world w) s) in
      match a with
      | AdmitProcess skip => (Some (p, skip), s)
      | AdmitDrop _ => pick fuel s
      end
    end
  end.

(** Every pass takes a path from a queue. *)
Definition pick_fuel (s : LoopSt) : nat :=
  S (length (ls_pending s) + length (ls_backlog s) + length (dr_channel (ls_dr s))).

(** An attempt and the state its result leads to. *)
Definition attempt_and_move (segment : path) (skip : Z) (resume : HeldResume)
    (on_transient : option Z → Z → TransientCause → DrainState) (config : DrainConfig) (s : LoopSt) : Step :=
  let '(result, l, dl, d) := attempt_segment segment config skip (ls_ledger s) (ls_dl s) (ls_dr s) in
  let '(next, episode, l, d) :=
    next_state_after_process segment result resume config (ls_block_episode s) l d on_transient in
  let s := with_episode episode (with_ledger l (with_dl dl (with_dr d s))) in
  match next with
  | Some st => Next (with_state st s)
  | None => Unwound s
  end.

Definition deliver_fresh (config : DrainConfig) (segment : path) (skip : Z) (s : LoopSt) : Step :=
  attempt_and_move segment skip HeldFresh (fresh_retry segment config) config s.

Definition draining_arm (config : DrainConfig) (s : LoopSt) : Step :=
  match stop_exit s with
  | Some reason => Exit reason None s
  | None =>
    match draining_poll config s with
    | Err s => Unwound s
    | Ok s =>
      let s := service_scan config None s in
      if pause_requested (ls_control s) then
        if stop_requested (ls_control s) then Exit Stopped None s else
        match wait_slice SLICE s with
        | (WaitSegment p, s) => Next (push_pending p s)
        | (WaitDisconnected, s) => Exit Stopped None s
        | (_, s) => Next s
        end
      else
        match pick (pick_fuel s) s with
        | (Some (segment, skip), s) => deliver_fresh config segment skip s
        | (None, s) =>
          let until_next_poll :=
            Z.max (millis 1) (dc_health_poll_interval config - (ls_now s - ls_last_health_poll s)) in
          match wait_slice until_next_poll s with
          | (WaitSegment p, s) =>
            let '(a, l, w) := ledger_admit p (ls_now s) (ls_ledger s) (dr_world (ls_dr s)) in
            let s := with_ledger l (on_dr (set_world w) s) in
            match a with
            | AdmitProcess skip => deliver_fresh config p skip s
            | AdmitDrop _ => Next s
            end
          | (WaitDisconnected, s) => Exit Stopped None s
          | (_, s) => Next s
          end
        end
    end
  end.

(** A spent budget: the segment strands, its delay becomes a cool-down. *)
Definition strand_arm (segment : path) (next_delay : Z) (cause : TransientCause) (s : LoopSt) : Step :=
  let s := with_ledger (set_not_before segment (ls_now s + next_delay) (ls_ledger s)) s in
  let s := match cause with
           | CauseSink => with_health false (on_dr (upd_world (inc DrainSegmentsStranded)) s)
           | CauseLocalRead _ => on_dr (upd_world (inc DrainLocalReadStrands)) s
           | CauseLocalWrite => on_dr (upd_world (inc DrainLocalWriteStrands)) s
           end in
  Next (with_state Draining s).

(** The cut of a running backoff: at most once, never below the base delay. *)
Definition cut_backoff (config : DrainConfig) (s : LoopSt) : bool * LoopSt :=
  match ls_wait s with
  | None => (false, s)
  | Some wt =>
    if wt_cut wt then (false, s) else
    let cut_to := Z.min (wt_end wt) (Z.max (ls_now s) (wt_start wt + dc_base_retry_delay config)) in
    if cut_to <? wt_end wt then (true, with_wait (Some (mkWait (wt_start wt) cut_to true)) s) else (false, s)
  end.

(** The retry, once its backoff is served. *)
Definition retry_now (config : DrainConfig) (segment : path) (retries_left next_delay processed : Z)
    (cause : TransientCause) (backoff_cut : bool) (s : LoopSt) : Step :=
  attempt_and_move segment processed (HeldRetry retries_left next_delay cause backoff_cut)
    (next_retry segment retries_left next_delay backoff_cut) config s.

(** The rescan before the retry, then the retry. *)
Definition after_backoff (config : DrainConfig) (segment : path) (retries_left next_delay processed : Z)
    (cause : TransientCause) (backoff_cut : bool) (s : LoopSt) : Step :=
  let probed := if absorbing (ls_control s) then Ok s else probe_and_resume config (Some segment) s in
  match probed with
  | Err s => Unwound s
  | Ok s => retry_now config segment retries_left next_delay processed cause backoff_cut s
  end.

(** One pass of the backoff loop. *)
Definition backoff_pass (config : DrainConfig) (segment : path) (retries_left next_delay processed : Z)
    (cause : TransientCause) (wt : Wait) (s : LoopSt) : Step :=
  let s := with_wait (Some wt) s in
  let c := ls_control s in
  if stop_requested c && negb (pause_requested c) &&
     (ls_deadline_passed s || match deadline c with Some t => t <? wt_end wt | None => false end)
  then Exit DeadlineAbandoned (Some (segment, processed)) s else
  let s := service (requeue_unconfirmed config (Some segment)) (cut_backoff config) s in
  let wt := default wt (ls_wait s) in
  let paused := pause_requested (ls_control s) in
  if paused && stop_requested (ls_control s) then Exit Stopped (Some (segment, processed)) s else
  let polled := if paused then held_poll config segment s else Ok s in
  match polled with
  | Err s => Unwound s
  | Ok s =>
    let remaining := Z.max 0 (wt_end wt - ls_now s) in
    let go := after_backoff config segment retries_left next_delay processed cause (wt_cut wt) in
    if (remaining =? 0) && negb paused then go s else
    match wait_slice remaining s with
    | (WaitSegment p, s) => Next (push_pending p s)
    | (WaitTimedOut, s) => Next s
    | (WaitStop, s) => Exit DeadlineAbandoned (Some (segment, processed)) s
    | (WaitDisconnected, s) =>
      if pause_requested (ls_control s) then Exit Stopped (Some (segment, processed)) s else
      let left_ := Z.min (Z.min (Z.max 0 (wt_end wt - ls_now s)) SHUTDOWN_RETRY_BACKOFF_CAP)
                     (ls_shutdown_backoff_left s) in
      go (sleep left_ (with_budget (ls_shutdown_backoff_left s - left_) s))
    end
  end.

Definition retrying_arm (config : DrainConfig) (segment : path) (retries_left next_delay processed : Z)
    (cause : TransientCause) (backoff_cut waited : bool) (s : LoopSt) : Step :=
  if waited then retry_now config segment retries_left next_delay processed cause backoff_cut s else
  let wt := match ls_wait s with
            | Some wt => wt
            | None => mkWait (ls_now s) (ls_now s + next_delay) backoff_cut
            end in
  backoff_pass config segment retries_left next_delay processed cause wt s.

(** What follows the wait of the blocked arm. *)
Definition after_block (config : DrainConfig) (segment : path) (blocked_since processed needed : Z)
    (stop_seen : bool) (s : LoopSt) : Step :=
  let '(_, dl, w) := dl_rescan (ls_dl s) (dr_world (ls_dr s)) in
  let s := with_dl dl (on_dr (set_world w) s) in
  let probed := if absorbing (ls_control s) then Ok s else probe_and_resume config (Some segment) s in
  match probed with
  | Err s => Unwound s
  | Ok s =>
    if negb (would_exceed_cap (ls_dl s) needed (dc_dead_letter_max_bytes config)) then
      Next (with_state (RetryingTransient segment (dc_max_retries config) (dc_base_retry_delay config) processed
                          CauseSink false false) s)
    else if stop_seen then
      Exit (if ls_deadline_passed s then DeadlineAbandoned else Stopped) (Some (segment, processed)) s
    else Next (with_state (BlockedDeadLetterFull segment blocked_since processed needed) s)
  end.

(** One pass of the blocked arm's wait. *)
Definition blocked_arm (config : DrainConfig) (segment : path) (blocked_since processed needed : Z) (s : LoopSt)
    : Step :=
  let wt := match ls_wait s with
            | Some wt => wt
            | None => mkWait (ls_now s) (ls_now s + dc_dead_letter_check_interval config) false
            end in
  let s := with_wait (Some wt) s in
  let go := after_block config segment blocked_since processed needed in
  if stop_requested (ls_control s) then go true s else
  let s := service_scan config (Some segment) s in
  let remaining := Z.max 0 (wt_end wt - ls_now s) in
  if remaining =? 0 then go false s else
  match wait_slice remaining s with
  | (WaitSegment p, s) => Next (push_pending p s)
  | (WaitTimedOut, s) => Next s
  | (_, s) => go true s
  end.

Definition held_arm (config : DrainConfig) (segment : path) (processed : Z) (resume : HeldResume) (s : LoopSt) : Step :=
  if stop_requested (ls_control s) then Exit Stopped (Some (segment, processed)) s else
  let s := service_scan config (Some segment) s in
  match held_poll config segment s with
  | Err s => Unwound s
  | Ok s =>
    if pause_requested (ls_control s) then
      match wait_slice SLICE s with
      | (WaitSegment p, s) => Next (push_pending p s)
      | (WaitDisconnected, s) => Exit Stopped (Some (segment, processed)) s
      | (_, s) => Next s
      end
    else
      match resume with
      | HeldFresh => Next (with_state Draining (with_queues (segment :: ls_pending s) (ls_backlog s) false s))
      | HeldRetry retries_left next_delay cause backoff_cut =>
        Next (with_state (RetryingTransient segment retries_left next_delay processed cause backoff_cut true) s)
      end
  end.

(** One pass. *)
Definition drain_step (config : DrainConfig) (s : LoopSt) : Step :=
  let s := on_dr observe s in
  match ls_state s with
  | Draining => draining_arm config s
  | RetryingTransient segment retries_left next_delay processed cause backoff_cut waited =>
    if retries_left =? 0 then strand_arm segment next_delay cause s
    else retrying_arm config segment retries_left next_delay processed cause backoff_cut waited s
  | BlockedDeadLetterFull segment blocked_since processed needed =>
    blocked_arm config segment blocked_since processed needed s
  | Abandoned segment processed => Exit DeadlineAbandoned (Some (segment, processed)) s
  | Held segment processed resume => held_arm config segment processed resume s
  end.

(** ** The thread and its supervisor *)

Record ThreadExit := mkThreadExit {
  te_reason : DrainExitReason;
  te_abandoned : option (path * Z);
  te_pending_left : Z;
  te_backlog_left : Z;
}.

(** The start of [drain_thread_with]: [None] when the dead-letter writer does not open,
    which panics. *)
Definition thread_start (config : DrainConfig) (initial_health_ok : bool) (initial_backlog : list path)
    (l : SegmentLedger) (d : Dr) : option LoopSt * Dr :=
  let d := set_control (begin_generation (dr_control d)) d in
  match dl_open (dc_wab_dir config) (dr_world d) with
  | (Err _, w) => (None, set_world w d)
  | (Ok dl, w) =>
    let d := set_world w d in
    (Some (mkLoopSt Draining None l dl d [] initial_backlog false false
             (mkRequeueService (c_requeue_seen (dr_control d)) None None) initial_health_ok (instant_now d)
             SHUTDOWN_RETRY_BACKOFF_BUDGET None), d)
  end.

(** The tail of [drain_thread_with]. *)
Definition thread_exit (config : DrainConfig) (reason : DrainExitReason) (abandoned : option (path * Z)) (s : LoopSt)
    : ThreadExit * SegmentLedger * Dr :=
  let '(l, w) := retry_dispositions (dc_wab_dir config) (ls_ledger s) (dr_world (ls_dr s)) in
  let w := match abandoned with Some _ => inc DrainSegmentsAbandoned w | None => w end in
  (mkThreadExit reason abandoned (blen (ls_pending s) + blen (dr_channel (ls_dr s))) (blen (ls_backlog s)),
   l, set_world w (ls_dr s)).

(** [DrainExit], the panic's text aside; an abandoned segment by its identity. *)
Record DrainExit := mkDrainExit {
  de_reason : DrainExitReason;
  de_abandoned : option (bytes * Z);
  de_pending_left : Z;
  de_backlog_left : Z;
}.

(** The supervisor: about to start an incarnation after [attempts] panics, with the ledger
    that outlives them; in one; or done. *)
Inductive Supervisor :=
| SupStarting (attempts : Z) (backlog : list path) (l : SegmentLedger) (d : Dr)
| SupRunning (attempts : Z) (s : LoopSt)
| SupDone (attempts : Z) (exit : DrainExit) (l : SegmentLedger) (d : Dr).

(** What [run_drain_supervised] does with a panic. *)
Definition on_panic (config : DrainConfig) (attempts : Z) (l : SegmentLedger) (d : Dr) : Supervisor :=
  let attempts := attempts + 1 in
  let d := upd_world (inc DrainPanics) d in
  let exit reason := mkDrainExit reason None (blen (dr_channel d)) 0 in
  if stop_requested (dr_control d) then
    SupDone attempts (exit (if dr_deadline_passed d then DeadlineAbandoned else Stopped)) l d
  else
    let '(_, l) := note_drain_panic l in
    if dc_max_respawns config <=? attempts then SupDone attempts (exit GaveUp) l d
    else SupStarting attempts [] l (upd_world (tick (millis (100 * attempts))) (observe d)).

(** One step of [run_drain_supervised]: only the first incarnation starts in good health
    and with the replay list. *)
Definition sup_step (config : DrainConfig) (u : Supervisor) : Supervisor :=
  match u with
  | SupStarting attempts backlog l d =>
    match thread_start config (attempts =? 0) backlog l d with
    | (Some s, _) => SupRunning attempts s
    | (None, d) => on_panic config attempts l d
    end
  | SupRunning attempts s =>
    match drain_step config s with
    | Next s => SupRunning attempts s
    | Exit reason abandoned s =>
      let '(t, l, d) := thread_exit config reason abandoned s in
      SupDone attempts
        (mkDrainExit (te_reason t) (option_map (λ '(p, n), (segment_identity p, n)) (te_abandoned t))
           (te_pending_left t) (te_backlog_left t)) l d
    | Unwound s => on_panic config attempts (ls_ledger s) (ls_dr s)
    end
  | SupDone _ _ _ _ => u
  end.

(** The start of [run_drain_supervised]. *)
Definition sup_start (initial_backlog : list path) (d : Dr) : Supervisor :=
  SupStarting 0 initial_backlog (ledger_new (instant_now d)) d.

(** Everything the drain shares with the rest of the daemon. *)
Definition sup_dr (u : Supervisor) : Dr :=
  match u with SupStarting _ _ _ d | SupDone _ _ _ d => d | SupRunning _ s => ls_dr s end.

Definition sup_run (config : DrainConfig) (n : nat) (u : Supervisor) : Supervisor := Nat.iter n (sup_step config) u.
End Drain.
