(* ===== verification/Custody.v ===== *)
(** * Custody of a segment (weir-server, drain/mod.rs)

    What becomes of one sealed segment while the drain runs, whatever the sink answers,
    the disk does and other threads send: the file stays at its path, or is moved as it is
    into the quarantine directory, or it was read completely and every one of its records
    is in what the sink accepted or in a dead-letter segment that survives crashes. The
    proof follows one file through every function of the state machine and its
    supervisor. *)

From Stdlib Require Import ZArith Lia Strings.Byte String.
From stdpp Require Import base gmap list option sets.
From S2P Require Import Prelude Deps Wire Sink Text Names Io Fs Durable Touch Format Reader Segment Recovery Scan.
From S2P Require Import Confirm DeadLetter Ledger Control Deliver Account Drain.

(** ** Names *)

Definition ascii_path (p : path) : Prop := forallb (forallb is_ascii) p = true.

(** Text that is ASCII after the lossy conversion was that text before. *)
Lemma lossy_loop_ascii fuel l :
  (length l ≤ fuel)%nat → forallb is_ascii (lossy_loop fuel l) = true → lossy_loop fuel l = l.
Proof.
  revert l. induction fuel as [|fuel IH]; intros l Hl Ha; [by destruct l; [|cbn in Hl; lia]|].
  destruct l as [|b l]; [done|]. cbn [lossy_loop] in *.
  pose proof (utf8_step_pos (b :: l) ltac:(done)) as Hn. destruct (utf8_step (b :: l)) as [n ok]. cbn in Hn.
  destruct ok; [|done]. rewrite forallb_app in Ha. apply andb_true_iff in Ha as [_ Ha].
  rewrite IH; [apply take_drop| |done]. rewrite length_drop. cbn in *. lia.
Qed.

Lemma lossy_ascii l : forallb is_ascii (to_string_lossy l) = true → to_string_lossy l = l.
Proof. by apply lossy_loop_ascii. Qed.

Lemma map_lossy_ascii p q : map to_string_lossy p = q → ascii_path q → p = q.
Proof.
  unfold ascii_path. intros <-. induction p as [|x p IH]; [done|]. cbn. intros [Hx Hp]%andb_true_iff.
  by rewrite lossy_ascii, <-IH.
Qed.

Lemma path_snoc p : path_ends_with EXT_SEALED p = true → ∃ d x b, p = d ++ [x] ∧ to_string_lossy x = b ++ EXT_SEALED.
Proof.
  unfold path_ends_with, file_name. destruct (list.last p) as [x|] eqn:E; [|done]. intros [b Hb]%ends_with_spec.
  apply last_Some in E as [d ->]. by exists d, x, b.
Qed.

Lemma confirmed_snoc d x b :
  to_string_lossy x = b ++ EXT_SEALED → confirmed_path_for (d ++ [x]) = map to_string_lossy d ++ [b ++ EXT_CONFIRMED].
Proof.
  intros Hx. unfold confirmed_path_for. rewrite map_app. cbn [map]. rewrite file_name_snoc, set_file_name_snoc.
  cbn [from_option id]. by rewrite Hx, strip_suffix_app.
Qed.

(** Two sealed names with one sidecar are one name, if it is ASCII. *)
Lemma confirmed_inj p q :
  path_ends_with EXT_SEALED p = true → path_ends_with EXT_SEALED q = true → ascii_path q →
  confirmed_path_for p = confirmed_path_for q → p = q.
Proof.
  intros (d & x & b & -> & Hx)%path_snoc (e & y & c & -> & Hy)%path_snoc Ha H.
  rewrite (confirmed_snoc d x b), (confirmed_snoc e y c) in H by done. apply app_inj_tail in H as [Hd Hb].
  apply app_inv_tail in Hb as ->. unfold ascii_path in Ha. rewrite forallb_app in Ha. apply andb_true_iff in Ha as [He Hya].
  cbn in Hya. rewrite andb_true_r in Hya. rewrite (to_string_lossy_valid y) in Hy by by apply utf8_valid_ascii. subst y.
  assert (map to_string_lossy e = e) as Hle.
  { clear -He. induction e as [|z e IH]; [done|]. cbn in He |- *. apply andb_true_iff in He as [Hz He].
    by rewrite to_string_lossy_valid, IH by (done || by apply utf8_valid_ascii). }
  rewrite Hle in Hd. apply map_lossy_ascii in Hd as ->; [|done]. f_equal. f_equal.
  rewrite <-(lossy_ascii x); [done|by rewrite Hx].
Qed.

Lemma ascii_snoc d x : ascii_path (d ++ [x]) → ascii_path d ∧ forallb is_ascii x = true.
Proof. unfold ascii_path. rewrite forallb_app. cbn. rewrite andb_true_r. by intros ?%andb_true_iff. Qed.

Ltac last_byte_neq H := apply (f_equal (@rev byte)) in H; rewrite !rev_app_distr in H; discriminate H.

(** The sidecar of a sealed name and its temporary, as the code spells them. *)
Lemma confirmed_shape p :
  path_ends_with EXT_SEALED p = true →
  ∃ b, confirmed_path_for p = map to_string_lossy (parent p) ++ [b ++ EXT_CONFIRMED] ∧
    confirmed_tmp_path (confirmed_path_for p) = map to_string_lossy (parent p) ++ [(b ++ EXT_CONFIRMED) ++ bstr ".tmp"].
Proof.
  intros (d & x & b & -> & Hx)%path_snoc. exists b. rewrite (confirmed_snoc d x b), parent_snoc by done. split; [done|].
  unfold confirmed_tmp_path. by rewrite file_name_snoc, set_file_name_snoc.
Qed.

(** The names the drain can be handed: sealed names outside its own directories. *)
Record queueable (wab p : path) : Prop := mkQueueable {
  qb_sealed : path_ends_with EXT_SEALED p = true;
  qb_parent : parent p ≠ [];
  qb_quarantine : parent p ≠ quarantine_dir wab;
  qb_dead_letter : parent p ≠ wab ++ [DEAD_LETTER];
}.

(** Where a sidecar or its temporary lies. *)
Lemma sidecar_parent wab p q :
  ascii_path wab → queueable wab p → sidecar_own p q →
  parent q ≠ quarantine_dir wab ∧ parent q ≠ wab ++ [DEAD_LETTER] ∧ parent q ≠ [].
Proof.
  intros Ha [H1 H2 H3 H4] Hq. destruct (confirmed_shape p H1) as (b & Hb & Ht).
  assert (Hp : parent q = map to_string_lossy (parent p)).
  { destruct Hq as [->| ->]; [rewrite Hb|rewrite Ht]; apply parent_snoc. }
  assert (Hd : ∀ x, forallb is_ascii x = true → ascii_path (wab ++ [x])).
  { intros x Hx. unfold ascii_path in *. rewrite forallb_app, Ha. cbn. by rewrite Hx. }
  rewrite Hp. split; [|split].
  - intros E. apply map_lossy_ascii in E; [done|by apply Hd].
  - intros E. apply map_lossy_ascii in E; [done|by apply Hd].
  - intros E. by destruct (parent p).
Qed.

(** The sidecars of another segment are not those of [seg], and no sidecar is a segment. *)
Lemma sidecar_other p seg q :
  path_ends_with EXT_SEALED p = true → path_ends_with EXT_SEALED seg = true → ascii_path seg → sidecar_own p q →
  q ≠ seg ∧ (p ≠ seg → q ≠ confirmed_path_for seg).
Proof.
  intros Hp Hs Ha Hq. destruct (confirmed_shape p Hp) as (b & Hb & Ht).
  destruct (confirmed_shape seg Hs) as (c & Hc & _).
  assert (Hseg : ∃ x y, seg = x ++ [y ++ EXT_SEALED]).
  { destruct (path_snoc seg Hs) as (e & y & c' & -> & Hy). destruct (ascii_snoc _ _ Ha) as [_ Hya].
    rewrite (to_string_lossy_valid y) in Hy by by apply utf8_valid_ascii. subst y. by exists e, c'. }
  destruct Hseg as (x & y & Hx). destruct Hq as [->| ->].
  - split; [|intros Hne E; by apply Hne, confirmed_inj]. rewrite Hb. intros E. rewrite Hx in E at 1.
    apply app_inj_tail in E as [_ E]. last_byte_neq E.
  - rewrite Ht. split.
    + intros E. rewrite Hx in E at 1. apply app_inj_tail in E as [_ E]. last_byte_neq E.
    + intros _ E. rewrite Hc in E. apply app_inj_tail in E as [_ E]. last_byte_neq E.
Qed.

(** No sealed name is a sidecar. *)
Lemma sealed_not_sidecar p seg :
  path_ends_with EXT_SEALED p = true → path_ends_with EXT_SEALED seg = true → ascii_path seg →
  p ≠ confirmed_path_for seg.
Proof.
  intros Hp Hs Ha E. destruct (path_snoc seg Hs) as (e & y & c & -> & Hy). destruct (ascii_snoc _ _ Ha) as [He Hya].
  rewrite (to_string_lossy_valid y) in Hy by by apply utf8_valid_ascii. subst y.
  rewrite (confirmed_snoc e _ c) in E by (by apply to_string_lossy_valid, utf8_valid_ascii).
  destruct (path_snoc p Hp) as (d & x & b & -> & Hx). apply app_inj_tail in E as [_ ->].
  rewrite to_string_lossy_valid in Hx.
  - last_byte_neq Hx.
  - apply utf8_valid_ascii. rewrite forallb_app in Hya |- *. apply andb_true_iff in Hya as [-> _]. done.
Qed.

(** ** What a step leaves alone *)

#[local] Hint Extern 0 (sends_le _ _) => intros ? ?; assumption : core.

Section Custody.
Context {CRC : Crc32} {CL : Crc32Laws} {ZS : Zstd} {ZL : ZstdLaws} {SHA : Sha256} {SK : Sink} {SC : SinkContract}.
Variables (config : DrainConfig) (seg : path).

Abbreviation wab := (dc_wab_dir config).
Abbreviation dl_home := (dc_wab_dir config ++ [DEAD_LETTER]).
Abbreviation side := (confirmed_path_for seg).

Hypothesis Hwab : ascii_path wab.
Hypothesis Hascii : ascii_path seg.
Hypothesis Hseg : queueable wab seg.

Lemma quarantine_not_dead_letter : quarantine_dir wab ≠ dl_home.
Proof. unfold quarantine_dir. by intros [_ ?]%app_inj_tail. Qed.

(** [p] names a file with contents [b], the same file in both. *)
Definition stays (s s' : Fs) (p : path) : Prop :=
  ∀ i node, fs_live s !! p = Some i → fs_files s !! i = Some node →
    fs_live s' !! p = Some i ∧ ∃ node', fs_files s' !! i = Some node' ∧ f_data node' = f_data node.

Lemma stays_trans s1 s2 s3 p : stays s1 s2 p → stays s2 s3 p → stays s1 s3 p.
Proof.
  intros H1 H2 i node Hl Hn. destruct (H1 i node Hl Hn) as (L2 & node2 & N2 & <-).
  destruct (H2 i node2 L2 N2) as (L3 & node3 & N3 & <-). eauto.
Qed.

(** A step keeps the quarantined files, the dead letters below counter [n], the directories
    and, if [T] and as long as it has no sidecar, the segment. *)
Record shielded (T : Prop) (n : Z) (s s' : Fs) : Prop := mkShielded {
  sh_ok : fs_ok s';
  sh_quarantine : ∀ q, parent q = quarantine_dir wab → stays s s' q;
  sh_seg : T → fs_live s !! side = None → fs_live s' !! side = None ∧ stays s s' seg;
  sh_dead : ∀ k rs, 0 ≤ k < n → dead_lettered s dl_home k rs → dead_lettered s' dl_home k rs;
  sh_dirs : dirs_le (fs_dirs s) (fs_dirs s');
}.

Definition shields (T : Prop) (n : Z) (s s' : Fs) : Prop := fs_ok s → shielded T n s s'.

#[export] Instance shields_preorder T n : PreOrder (shields T n).
Proof.
  split.
  - intros s Hok. constructor; [done| | |done|done]; [|intros _ ?; split; [done|]]; intros; intros i node ? ?; eauto.
  - intros s1 s2 s3 H12 H23 Hok. destruct (H12 Hok) as [O2 Q2 S2 D2 L2]. destruct (H23 O2) as [O3 Q3 S3 D3 L3].
    constructor; [done| | |auto|by etrans].
    + intros q Hq. eapply stays_trans; eauto.
    + intros HT Hs. destruct (S2 HT Hs) as [Hs2 St2]. destruct (S3 HT Hs2) as [Hs3 St3]. split; [done|]. by eapply stays_trans.
Qed.

Lemma shields_weaken (T T' : Prop) n n' s s' : (T' → T) → n' ≤ n → shields T n s s' → shields T' n' s s'.
Proof. intros HT Hn H Hok. destruct (H Hok) as [O Q S D L]. constructor; [done|done|auto| |done]. intros k rs ?. apply D. lia. Qed.

Lemma touched_stays own s s' p : touched own s s' → ¬ own p → stays s s' p.
Proof.
  intros [_ L D _ _ _] Hp i node Hl Hn. split; [by rewrite L|]. by apply (D p i node).
Qed.

Lemma touches_shields (T : Prop) n own s s' :
  touches own s s' →
  (∀ q, own q → (T → q ≠ seg ∧ q ≠ side) ∧ (parent q = quarantine_dir wab → fs_live s !! q = None) ∧
     (∀ k, 0 ≤ k < n → q ≠ dl_sealed dl_home k)) →
  shields T n s s'.
Proof.
  intros Ht Hown Hok. pose proof (Ht Hok) as Htd. constructor; [apply Htd| | | |apply Htd].
  - intros q Hq i node Hl Hn. assert (¬ own q) as Hno by (intros Ho; destruct (Hown q Ho) as (_ & Hnone & _); rewrite Hnone in Hl; done).
    by apply (touched_stays own s s' q Htd).
  - intros HT Hs. split; [rewrite (tc_live _ _ _ Htd); [done|]|apply (touched_stays own); [done|]];
      intros Ho; destruct (Hown _ Ho) as (Ht' & _); by destruct (Ht' HT).
  - intros k rs Hk. apply (dead_lettered_touched own); [done|]. intros Ho. by destruct (Hown _ Ho) as (_ & _ & Hd); destruct (Hd k Hk).
Qed.

Lemma shields_unchanged n s s' : unchanged s s' → shields True n s s'.
Proof. intros (_ & _ & T). eapply touches_shields; [exact T|]. by intros q []. Qed.

Lemma shields_any n s s' : (∀ own, touches own s s') → shields True n s s'.
Proof. intros H. eapply touches_shields; [apply (H (λ _, False))|]. by intros q []. Qed.

(** Names that lie neither in quarantine nor with the dead letters. *)
Lemma shields_outside (T : Prop) n own s s' :
  touches own s s' →
  (∀ q, own q → parent q ≠ quarantine_dir wab ∧ parent q ≠ dl_home ∧ (T → q ≠ seg ∧ q ≠ side)) → shields T n s s'.
Proof.
  intros Ht Hown. eapply touches_shields; [exact Ht|]. intros q Ho. destruct (Hown q Ho) as (Hq & Hd & HT).
  split; [done|]. split; [done|]. intros k _ ->. by rewrite parent_dl_sealed in Hd.
Qed.

Lemma shields_set_aside n p s s' :
  set_aside wab p s s' → parent p ≠ quarantine_dir wab → parent p ≠ dl_home →
  shields (p ≠ seg ∧ p ≠ side) n s s'.
Proof.
  intros [U|(dest & i & A1 & A2 & A3 & A4 & A5 & A6)] Hp Hd.
  { eapply shields_weaken, shields_unchanged; [done|reflexivity|done]. }
  eapply touches_shields; [exact A6|]. intros q [->| ->].
  - split; [done|]. split; [done|]. intros k _ ->. by rewrite parent_dl_sealed in Hd.
  - split; [|split; [done|]].
    + intros _. split; intros ->; [by destruct Hseg|].
      destruct (sidecar_parent wab seg side Hwab Hseg (or_introl eq_refl)) as (? & _). done.
    + intros k _ ->. rewrite parent_dl_sealed in A1. by apply quarantine_not_dead_letter.
Qed.

(** Moving [p] aside. *)
Lemma shields_moved n p ok s s' : moved wab p ok s s' → queueable wab p → shields (p ≠ seg) n s s'.
Proof.
  intros [H _] [Q1 Q2 Q3 Q4]. eapply shields_weaken, shields_set_aside; [|reflexivity|done|done|done].
  intros Hne. split; [done|]. by apply sealed_not_sidecar; [|apply Hseg|].
Qed.

Lemma shields_delivers dl d dl' d' :
  delivers dl d dl' d' → dl_dir dl = dl_home → 0 ≤ dl_next_counter dl → shields True (dl_next_counter dl) (dr_fs d) (dr_fs d').
Proof.
  intros [_ _ T _ _ _ _ _] Hd Hn. rewrite Hd in T. eapply touches_shields; [exact T|]. intros q Ho.
  pose proof (dl_own_parent _ _ _ _ Ho) as Hp. split; [|split].
  - intros _. split; intros ->; [by destruct Hseg|].
    destruct (sidecar_parent wab seg side Hwab Hseg (or_introl eq_refl)) as (_ & ? & _). done.
  - rewrite Hp. intros E. by destruct quarantine_not_dead_letter.
  - intros k Hk ->. by apply dl_own_sealed in Ho; [|lia..].
Qed.

(** Confirming [p], and finishing a confirm. *)
Lemma confirm_touches p n w out w' :
  confirm_and_delete p n w = (out, w') → parent (confirmed_path_for p) ≠ [] → touches (confirm_own p) (w_fs w) (w_fs w').
Proof.
  intros H Hp. unfold confirm_and_delete in H. destruct (exists_ p w) as [b w1] eqn:E.
  apply (exists_touches (confirm_own p)) in E as T1. destruct b; cbn [negb] in H; [|by injection H as _ <-].
  destruct (write_confirmed_file p n w1) as [r w2] eqn:Ew.
  apply (write_confirmed_spec (confirm_own p)) in Ew as [T2 _]; [|done|intros q ?; by right].
  destruct r as [[]|e]; [|injection H as _ <-; by etrans].
  apply delete_confirmed_spec in H as [T3 _]. etrans; [exact T1|]. etrans; [exact T2|].
  eapply touches_weaken, T3. intros q ->. by left.
Qed.

Lemma shields_confirm_own n p s s' : touches (confirm_own p) s s' → queueable wab p → shields (p ≠ seg) n s s'.
Proof.
  intros T Hp. eapply shields_outside; [exact T|]. intros q [->|Hq].
  - destruct Hp as [P1 P2 P3 P4]. split; [done|]. split; [done|]. intros Hne. split; [done|].
    by apply sealed_not_sidecar; [|apply Hseg|].
  - destruct (sidecar_parent _ _ _ Hwab Hp Hq) as (S1 & S2 & _). split; [done|]. split; [done|]. intros Hne.
    destruct (sidecar_other p seg q (qb_sealed _ _ Hp) (qb_sealed _ _ Hseg) Hascii Hq). auto.
Qed.

Lemma shields_confirm n p m w out w' :
  confirm_and_delete p m w = (out, w') → queueable wab p → shields (p ≠ seg) n (w_fs w) (w_fs w').
Proof.
  intros H Hp. eapply shields_confirm_own; [|done]. eapply confirm_touches; [exact H|].
  by destruct (sidecar_parent _ p (confirmed_path_for p) Hwab Hp (or_introl eq_refl)) as (_ & _ & ?).
Qed.

Lemma shields_delete n p w out w' :
  delete_confirmed_segment p w = (out, w') → queueable wab p → shields (p ≠ seg) n (w_fs w) (w_fs w').
Proof.
  intros [T _]%delete_confirmed_spec Hp. eapply shields_confirm_own; [|done].
  eapply touches_weaken, T. intros q ->. by left.
Qed.

(** ** The rescan *)

(** A step that is harmless when the segment has a sidecar, and otherwise leaves it alone. *)
Lemma shields_side n s s' :
  (is_Some (fs_live s !! side) → shields False n s s') → (fs_live s !! side = None → shields True n s s') →
  shields True n s s'.
Proof.
  intros H1 H2 Hok. destruct (fs_live s !! side) as [j|] eqn:E; [|by apply H2].
  destruct (H1 ltac:(by eexists) Hok) as [O Q _ D L]. constructor; [done|done|by rewrite E|done|done].
Qed.

(** A step on [p] and its sidecars, which does nothing if [p] has no sidecar. *)
Lemma shields_own_side n p s s' :
  queueable wab p → shields (p ≠ seg) n s s' → (fs_live s !! confirmed_path_for p = None → unchanged s s') →
  shields True n s s'.
Proof.
  intros Hp H Hn. destruct (decide (p = seg)) as [->|Hne].
  - apply shields_side; [|by intros E; apply shields_unchanged, Hn].
    intros _. by eapply shields_weaken, H.
  - by eapply shields_weaken, H.
Qed.

Lemma exists_unchanged p w b w' : exists_ p w = (b, w') → unchanged (w_fs w) (w_fs w').
Proof.
  intros E. pose proof (exists_touches (λ _, False) _ _ _ _ E) as T. by apply exists_calm in E as (_ & L & F & _).
Qed.

Lemma shields_then n T s1 s2 s3 : shields True n s1 s2 → shields T n s2 s3 → shields T n s1 s3.
Proof. intros H1 H2. etrans; [|exact H2]. by eapply shields_weaken, H1. Qed.

Lemma shields_quarantine n p w r w' :
  quarantine p wab w = (r, w') → parent p ≠ quarantine_dir wab → parent p ≠ dl_home →
  shields (p ≠ seg ∧ p ≠ side) n (w_fs w) (w_fs w').
Proof. intros [H _]%quarantine_moved. by apply shields_set_aside. Qed.

Lemma shields_check_confirmed n p w r w' :
  check_confirmed p wab w = (r, w') → queueable wab p →
  shields True n (w_fs w) (w_fs w') ∧
  (r = Ok true → fs_live (w_fs w') = fs_live (w_fs w) ∧ is_Some (fs_live (w_fs w) !! confirmed_path_for p)).
Proof.
  unfold check_confirmed. intros H Hp. destruct (exists_ (confirmed_path_for p) w) as [b w1] eqn:E.
  apply exists_unchanged in E as U1. destruct b; cbn [negb] in H.
  2: { injection H as <- <-. split; [by apply shields_unchanged|done]. }
  destruct (fs_read (confirmed_path_for p) w1) as [rr w2] eqn:Er. apply fs_read_spec in Er as [Q2 Hsome].
  apply quiet_unchanged in Q2. pose proof (unchanged_trans _ _ _ U1 Q2) as U2.
  destruct rr as [buf|e]; [|injection H as <- <-; split; [by apply shields_unchanged|done]].
  specialize (Hsome buf eq_refl). rewrite (proj1 U1) in Hsome.
  destruct (parse_confirmed buf) as [m|pe].
  { injection H as <- <-. split; [by apply shields_unchanged|]. intros _. split; [apply U2|done]. }
  destruct (quarantine_and_count p wab w2) as [qr w3] eqn:Eq.
  assert (Hne : ∀ v, qr ≠ Ok v).
  { intros v ->. unfold quarantine_and_count in Eq. by destruct (quarantine p wab w2) as [[]]. }
  assert (S3 : shields (p ≠ seg) n (w_fs w2) (w_fs w3)).
  { unfold quarantine_and_count in Eq. destruct (quarantine p wab w2) as [r0 w0] eqn:E0.
    apply (shields_quarantine n) in E0; [|by destruct Hp..].
    assert (w_fs w3 = w_fs w0) as -> by (by destruct r0; injection Eq as _ <-).
    eapply shields_weaken, E0; [|done]. intros. split; [done|]. by apply sealed_not_sidecar; [apply Hp|apply Hseg|]. }
  destruct (quarantine (confirmed_path_for p) wab w3) as [r4 w4] eqn:E4.
  destruct (sidecar_parent _ p (confirmed_path_for p) Hwab Hp (or_introl eq_refl)) as (S1 & S2 & _).
  apply (shields_quarantine n) in E4 as S4; [|done|done].
  assert (S : shields True n (w_fs w) (w_fs w4)).
  { apply (shields_own_side n p); [done| |intros Hn; by destruct Hsome; congruence].
    eapply shields_then; [by apply shields_unchanged|]. etrans; [exact S3|]. eapply shields_weaken, S4; [|done].
    intros Hne'. destruct (sidecar_other p seg (confirmed_path_for p) (qb_sealed _ _ Hp) (qb_sealed _ _ Hseg) Hascii (or_introl eq_refl)).
    auto. }
  destruct r4 as [[]|qe]; injection H as <- <-; (split; [done|]); [|done]. intros ->. by destruct (Hne true).
Qed.

Lemma shields_delete_orphan n p w r w' :
  delete_orphan p w = (r, w') → queueable wab p → shields (p ≠ seg) n (w_fs w) (w_fs w').
Proof.
  unfold delete_orphan, sync_path. intros H Hp.
  assert (Ts : ∀ q w0 r0 w1, (let! i := open_existing q in sync_file i) w0 = (r0, w1) → shields True n (w_fs w0) (w_fs w1)).
  { clear H. intros q w0 r0 w1 H.
    apply io_bind_inv in H as [(e & H & ->)|(i & w2 & H & Hs)]; apply open_existing_spec in H as [Q _];
      apply quiet_unchanged, (shields_unchanged n) in Q; [done|]. etrans; [exact Q|].
    apply shields_any. intros own. by eapply sync_file_touches. }
  apply io_bind_inv in H as [(e & H & ->)|([] & w1 & H & Hg)]; apply Ts in H; [by eapply shields_weaken, H|].
  eapply shields_then; [exact H|].
  apply io_bind_inv in Hg as [(e & Hf & ->)|([] & w2 & Hf & Hg)];
    assert (S2 : shields True n (w_fs w1) (w_fs _)) by (apply shields_any; intros own; by eapply fsync_parent_touches);
    [by eapply shields_weaken, S2|]. eapply shields_then; [exact S2|].
  destruct (remove_file p w2) as [r3 w3] eqn:Er. apply (remove_touches (λ q, q = p)) in Er; [|done].
  assert (w3 = w') as -> by (by destruct r3 as [|[]]; injection Hg as _ <-).
  eapply shields_confirm_own; [|done]. eapply touches_weaken, Er. intros q ->. by left.
Qed.

Lemma shields_scan_sealed n ex oc ps w l w' :
  scan_sealed wab ex oc ps w = (l, w') → Forall (queueable wab) ps →
  shields True n (w_fs w) (w_fs w') ∧ Forall (queueable wab) l.
Proof.
  intros H Hps. revert w l H. induction Hps as [|p ps Hp Hps IH]; intros w l H; cbn [scan_sealed] in H.
  { by injection H as <- <-. }
  destruct (ex p); [by apply IH|]. destruct (check_confirmed p wab w) as [r w1] eqn:E.
  apply (shields_check_confirmed n) in E as [S1 Hs1]; [|done].
  destruct r as [[]|e].
  - destruct (Hs1 eq_refl) as [L1 Hside]. destruct oc.
    + destruct (delete_orphan p w1) as [r2 w2] eqn:Ed. apply (shields_delete_orphan n) in Ed as S2; [|done].
      cbn [snd] in H. apply IH in H as [S3 Hl]. split; [|done]. etrans; [exact S1|]. etrans; [|exact S3].
      apply (shields_own_side n p); [done|done|]. rewrite L1. intros Hn. destruct Hside. congruence.
    + apply IH in H as [S3 Hl]. split; [by etrans|done].
  - destruct (scan_sealed wab ex oc ps w1) as [l1 w2] eqn:E1. injection H as <- <-. apply IH in E1 as [S3 Hl].
    split; [by etrans|by constructor].
  - apply IH in H as [S3 Hl]. split; [by etrans|done].
Qed.

(** A stale temporary is neither the segment nor its sidecar. *)
Lemma tmp_other p : path_ends_with EXT_CONFIRMED_TMP p = true → p ≠ seg ∧ p ≠ side.
Proof.
  intros Hp. destruct (path_snoc seg (qb_sealed _ _ Hseg)) as (e & y & c & Es & Hy).
  rewrite Es in Hascii. destruct (ascii_snoc _ _ Hascii) as [He Hya].
  rewrite (to_string_lossy_valid y) in Hy by by apply utf8_valid_ascii. subst y. rewrite forallb_app in Hya.
  apply andb_true_iff in Hya as [Hc _].
  assert (Hno : ∀ ext, forallb is_ascii ext = true → p = e ++ [c ++ ext] → ∃ t, c ++ ext = t ++ EXT_CONFIRMED_TMP).
  { intros ext Hx ->. unfold path_ends_with in Hp. rewrite file_name_snoc in Hp.
    rewrite to_string_lossy_valid in Hp by (apply utf8_valid_ascii; by rewrite forallb_app, Hc). by apply ends_with_spec. }
  split.
  - intros ->. destruct (Hno EXT_SEALED eq_refl Es) as [t Ht]. last_byte_neq Ht.
  - intros ->. destruct (Hno EXT_CONFIRMED eq_refl) as [t Ht]; [|last_byte_neq Ht]. rewrite Es.
    rewrite (confirmed_snoc e _ c) by (apply to_string_lossy_valid, utf8_valid_ascii; by rewrite forallb_app, Hc).
    f_equal. clear -He. unfold ascii_path in He. induction e as [|z e IH]; [done|]. cbn in He |- *.
    apply andb_true_iff in He as [Hz He]. by rewrite to_string_lossy_valid, IH by (done || by apply utf8_valid_ascii).
Qed.

Lemma shields_remove_tmps n ps w :
  Forall (λ p, path_ends_with EXT_CONFIRMED_TMP p = true ∧ parent p ≠ quarantine_dir wab ∧ parent p ≠ dl_home) ps →
  shields True n (w_fs w) (w_fs (remove_stale_tmps ps w)).
Proof.
  intros Hps. revert w. induction Hps as [|p ps (Hp & Hq & Hd) Hps IH]; intros w; [done|]. cbn [remove_stale_tmps].
  etrans; [|apply IH]. unfold remove_stale_confirmed_tmp. destruct (guarded _ w) as [r w1] eqn:E.
  apply guarded_quiet in E; [|eauto]. apply quiet_unchanged, (shields_unchanged n) in E as S1.
  destruct r as [[]|e]; [|done|done]. etrans; [exact S1|]. destruct (remove_file p w1) as [r2 w2] eqn:Er.
  apply (remove_touches (λ q, q = p)) in Er; [|done]. eapply shields_outside; [exact Er|]. intros q ->.
  split; [done|]. split; [done|]. intros _. by apply tmp_other.
Qed.

Lemma read_dir_in d w r w' :
  read_dir d w = (r, w') → unchanged (w_fs w) (w_fs w') ∧ ∀ ps, r = Ok ps → ∀ p, p ∈ ps → p ≠ [] ∧ parent p = d.
Proof.
  unfold read_dir. intros H. split.
  - apply quiet_unchanged. eapply guarded_quiet; [|exact H]. eauto.
  - intros ps ->. apply guarded_spec in H as (w1 & _ & _ & _ & _ & _ & _ & _ & _ & _ & [[_ [? ?]]|H]); [done|].
    injection H as <- _. intros p Hp. by apply list_elem_of_filter in Hp as [? _].
Qed.

(** A shard directory: a child of the data directory that is not reserved. *)
Lemma shard_dir_other d : d ≠ [] → parent d = wab → reserved_dir d = false → d ≠ quarantine_dir wab ∧ d ≠ dl_home.
Proof.
  intros Hd Hp Hr. unfold reserved_dir in Hr. apply orb_false_iff in Hr as [H1 H2]. b2p. split; intros ->;
    unfold quarantine_dir in *; rewrite file_name_snoc in *; by vm_compute in *.
Qed.

Lemma shields_scan_shard n ex oc d entries w l w' :
  scan_shard wab ex oc entries w = (l, w') → d ≠ [] → d ≠ quarantine_dir wab → d ≠ dl_home →
  (∀ p, p ∈ entries → p ≠ [] ∧ parent p = d) →
  shields True n (w_fs w) (w_fs w') ∧ Forall (queueable wab) l.
Proof.
  unfold scan_shard. intros H H0 Hq Hd Hin. apply (shields_scan_sealed n) in H as [S Hl].
  - split; [|done]. etrans; [|exact S]. apply shields_remove_tmps. apply Forall_forall. intros p Hp.
    apply list_elem_of_In, filter_In in Hp as [Hp He]. apply list_elem_of_In in Hp. by destruct (Hin p Hp) as [_ ->].
  - apply Forall_forall. intros p Hp. rewrite sort_by_key_perm in Hp.
    apply list_elem_of_In, filter_In in Hp as [Hp He]. apply list_elem_of_In in Hp. destruct (Hin p Hp) as [_ Hpar].
    by constructor; rewrite ?Hpar.
Qed.

Lemma shields_scan_dirs n sc ex oc dirs w r w' :
  scan_dirs wab sc ex oc dirs w = (r, w') → (∀ d, d ∈ dirs → d ≠ [] ∧ parent d = wab) →
  shields True n (w_fs w) (w_fs w') ∧ ∀ scan, r = Ok scan → Forall (queueable wab) (ss_segments scan).
Proof.
  revert w r w'. induction dirs as [|d dirs IH]; intros w r w' H Hin; cbn [scan_dirs] in H.
  { injection H as <- <-. split; [done|]. by intros scan [= <-]. }
  assert (Hrest : ∀ x, x ∈ dirs → x ≠ [] ∧ parent x = wab) by (intros x Hx; apply Hin; by right).
  destruct (is_dir d w) as [b w1] eqn:Ed.
  assert (S1 : shields True n (w_fs w) (w_fs w1)).
  { unfold is_dir in Ed. destruct (guarded _ w) as [r0 w0] eqn:E. apply guarded_quiet in E; [|eauto].
    apply quiet_unchanged, (shields_unchanged n) in E. by destruct r0; injection Ed as _ <-. }
  destruct b; cbn [negb] in H; [|apply IH in H as [S2 Hl]; [|done]; split; [by etrans|done]].
  destruct (reserved_dir d) eqn:Er; [apply IH in H as [S2 Hl]; [|done]; split; [by etrans|done]|].
  destruct (Hin d ltac:(by left)) as [Hd Hpar]. destruct (shard_dir_other d Hd Hpar Er) as [Hq Hdl].
  destruct (read_dir d w1) as [re w2] eqn:Ere. apply read_dir_in in Ere as [U2 Hent].
  apply (shields_unchanged n) in U2 as S2. pose proof (shields_then _ _ _ _ _ S1 S2) as S12.
  destruct re as [entries|e].
  - destruct (scan_shard wab ex oc entries w2) as [l w3] eqn:Es.
    apply (shields_scan_shard n ex oc d) in Es as [S3 Hl]; [|done..|by apply Hent].
    apply io_bind_inv in H as [(e & H & ->)|(scan & w4 & H & Hg)]; apply IH in H as [S4 Hl4]; try done.
    + split; [do 2 (etrans; [done|]); done|done].
    + injection Hg as <- <-. split; [do 2 (etrans; [done|]); done|]. intros sc' [= <-]. cbn.
      apply Forall_app. split; [done|by apply Hl4].
  - destruct sc; [injection H as <- <-; by split|].
    apply io_bind_inv in H as [(e' & H & ->)|(scan & w4 & H & Hg)]; apply IH in H as [S4 Hl4]; try done.
    + split; [by etrans|done].
    + injection Hg as <- <-. split; [by etrans|]. intros sc' [= <-]. cbn. by apply Hl4.
Qed.

Lemma shields_scan n sc ex oc w r w' :
  scan_unconfirmed_sealed wab sc ex oc w = (r, w') →
  shields True n (w_fs w) (w_fs w') ∧ ∀ scan, r = Ok scan → Forall (queueable wab) (ss_segments scan).
Proof.
  unfold scan_unconfirmed_sealed. intros H.
  apply io_bind_inv in H as [(e & H & ->)|(dirs & w1 & H & Hg)]; apply read_dir_in in H as [U Hin];
    apply (shields_unchanged n) in U as S1; [by split|].
  apply (shields_scan_dirs n) in Hg as [S2 Hl]; [split; [by etrans|done]|].
  intros d Hd. rewrite sort_by_key_perm in Hd. by apply (Hin dirs).
Qed.

(** ** Claims about the file *)

Variables (i : inode) (data : bytes).
Implicit Types (log : list Handled) (l : SegmentLedger) (d : Dr) (dl : DeadLetterWriter).

Abbreviation done log := (handled (Some i) log).

(** The first [t] records are accounted for. *)
Definition settled (t : Z) log : Prop :=
  ∀ ps tail, reads data ps tail → take (Z.to_nat t) ps ⊆+ done log.
(** So are those a carry stands for, once its payloads are dead-lettered. *)
Definition carried (c : DeadLetterCarry) log : Prop :=
  ∀ ps tail, reads data ps tail → take (Z.to_nat (ca_through c)) ps ⊆+ done log ++ ca_payloads c.
(** All of the file was read, and all of its records are accounted for. *)
Definition delivered log : Prop := ∃ ps, complete data ps ∧ ps ⊆+ done log.

Lemma done_prefix log log' : log `prefix_of` log' → done log ⊆+ done log'.
Proof. intros [x ->]. rewrite handled_app. apply submseteq_inserts_r. done. Qed.

Lemma settled_mono t log log' : log `prefix_of` log' → settled t log → settled t log'.
Proof. intros H Hs ps tail Hr. etrans; [by eapply Hs|by apply done_prefix]. Qed.

Lemma carried_mono c log log' : log `prefix_of` log' → carried c log → carried c log'.
Proof. intros H Hs ps tail Hr. etrans; [by eapply Hs|]. apply submseteq_skips_r. by apply done_prefix. Qed.

Lemma delivered_mono log log' : log `prefix_of` log' → delivered log → delivered log'.
Proof. intros H (ps & Hc & Hs). exists ps. split; [done|]. etrans; [done|by apply done_prefix]. Qed.

Lemma settled_0 t log : t ≤ 0 → settled t log.
Proof. intros Ht ps tail _. replace (Z.to_nat t) with 0%nat by lia. apply submseteq_nil_l. Qed.

Lemma take_recs a b (ps : list bytes) : 0 ≤ a → a ≤ b → take (Z.to_nat b) ps = take (Z.to_nat a) ps ++ recs a b ps.
Proof.
  intros Ha Hab. change (recs 0 b ps = recs 0 a ps ++ recs a b ps). symmetry. apply recs_app; lia.
Qed.

(** What the result of an attempt on the file claims. *)
Definition result_claims (r : ProcessResult) log : Prop :=
  match r with
  | PConfirmed _ => delivered log
  | PTransient _ t _ co | PBlockedDeadLetter t _ co => settled t log ∧ ∀ c, co = Some c → carried c log
  | PPaused t | PAbandoned t => settled t log
  | PQuarantined | PQuarantinePending _ | PParked _ | PPanicked => True
  end.

Lemma gains_settled skip t d d' :
  0 ≤ skip → skip ≤ t → settled skip (dr_log d) →
  (∀ ps tail, reads data ps tail → gains (Some i) d d' (recs skip t ps)) → settled t (dr_log d').
Proof.
  intros H0 Ht Hs Hg ps tail Hr. rewrite (take_recs skip t) by done. rewrite (Hg ps tail Hr).
  apply submseteq_skips_r. by eapply Hs.
Qed.

Lemma gains_carried skip t (co : DeadLetterCarry) d d' :
  0 ≤ skip → skip ≤ t → t ≤ ca_through co → settled skip (dr_log d) →
  (∀ ps tail, reads data ps tail → ∃ rs, gains (Some i) d d' (recs skip t ps ++ rs) ∧
     rs ++ ca_payloads co ≡ₚ recs t (ca_through co) ps) →
  settled t (dr_log d') ∧ carried co (dr_log d').
Proof.
  intros H0 Ht Hc Hs Hg. split; intros ps tail Hr; destruct (Hg ps tail Hr) as (rs & G & P).
  - rewrite (take_recs skip t) by done. rewrite G. rewrite app_assoc. apply submseteq_inserts_r, submseteq_skips_r. by eapply Hs.
  - rewrite (take_recs skip (ca_through co)) by lia. rewrite <-(recs_app skip t) by lia. rewrite G, <-P.
    rewrite <-!app_assoc. apply submseteq_skips_r. by eapply Hs.
Qed.

Lemma attempt_claims skip d d' r :
  attempt_ok i data skip d d' r → 0 ≤ skip → settled skip (dr_log d) → result_claims r (dr_log d').
Proof.
  intros [Ha Hc] H0 Hs. unfold attempt_accounts in Ha.
  assert (Hrd : ∀ t, (∀ ps tail, reads data ps tail → skip ≤ t ∧ gains (Some i) d d' (recs skip t ps)) → settled t (dr_log d')).
  { intros t Hg ps tail Hr. destruct (Hg ps tail Hr) as [Ht _]. eapply (gains_settled skip t d d'); try done.
    intros ps' tail' Hr'. by destruct (Hg ps' tail' Hr'). }
  assert (Hcd : ∀ t co, (∀ ps tail, reads data ps tail → skip ≤ t ≤ ca_through co ∧
      ∃ rs, gains (Some i) d d' (recs skip t ps ++ rs) ∧ rs ++ ca_payloads co ≡ₚ recs t (ca_through co) ps) →
      settled t (dr_log d') ∧ carried co (dr_log d')).
  { intros t co Hg. split; intros ps tail Hr; destruct (Hg ps tail Hr) as [Ht _];
      (eapply (gains_carried skip t co d d'); [done|lia|lia|done| |done]); intros ps' tail' Hr'; by destruct (Hg ps' tail' Hr'). }
  destruct r as [n|ra t ca [co|]|t nd [co|]| | | | | |]; cbn in *; try done.
  - destruct (Hc n eq_refl) as (ps & Hcp & _). exists ps. split; [done|]. rewrite (Ha _ _ (proj1 Hcp)).
    rewrite <-(take_drop (Z.to_nat skip) ps) at 1. apply submseteq_skips_r. by eapply Hs, Hcp.
  - destruct (Hcd t co Ha). split; [done|]. by intros c [= <-].
  - split; [by apply Hrd|done].
  - destruct (Hcd t co Ha). split; [done|]. by intros c [= <-].
  - split; [by apply Hrd|done].
  - by apply Hrd.
  - by apply Hrd.
Qed.

(** ** The invariant *)

Definition at_place (s : Fs) : Prop :=
  ∃ node, fs_live s !! seg = Some i ∧ fs_files s !! i = Some node ∧ f_data node = data.
Definition in_quarantine (s : Fs) : Prop :=
  ∃ q node, parent q = quarantine_dir wab ∧ fs_live s !! q = Some i ∧ fs_files s !! i = Some node ∧ f_data node = data.

(** What the ledger remembers of the file. *)
Record ledger_claims l log : Prop := mkLedgerClaims {
  lcl_cursor : ∀ n, l_resume_from l !! seg = Some (mkResumeCursor n i) → settled n log;
  lcl_carry : ∀ c, l_dl_carry l !! seg = Some (mkPinnedCarry c i) → carried c log;
  lcl_confirm : ∀ cp, l_confirm_pending l !! seg = Some cp → delivered log;
}.

(** Where the file is in its life; [st] is the segment the state machine holds with the
    records it counts as processed. *)
Definition phase (st : option (path * Z)) l d : Prop :=
  delivered (dr_log d) ∨ in_quarantine (dr_fs d) ∨
  (at_place (dr_fs d) ∧ fs_live (dr_fs d) !! side = None ∧ ledger_claims l (dr_log d) ∧
   ∀ t, st = Some (seg, t) → settled t (dr_log d)).

(** Every path and number of the ledger is one the drain can have put there. *)
Record ledger_ok l : Prop := mkLedgerOk {
  lo_cursor : ∀ p c, l_resume_from l !! p = Some c → 0 ≤ rc_processed c;
  lo_carry : ∀ p c, l_dl_carry l !! p = Some c → 0 ≤ ca_through (pc_carry c);
  lo_confirm : ∀ p c, l_confirm_pending l !! p = Some c → queueable wab p;
  lo_quarantine : ∀ p c, l_quarantine_pending l !! p = Some c → queueable wab p;
}.

Record store_ok dl d : Prop := mkStoreOk {
  so_fs : fs_ok (dr_fs d);
  so_dir : dl_dir dl = dl_home;
  so_next : 0 ≤ dl_next_counter dl;
  so_dead : dead_letters_safe (dr_fs d) dl_home (dl_next_counter dl) (dr_log d);
  so_housed : dl_housed (dr_fs d) dl;
}.

(** [l'] forgot some of what [l] remembered. *)
Record forgets l l' : Prop := mkForgets {
  fg_cursor : ∀ p c, l_resume_from l' !! p = Some c → l_resume_from l !! p = Some c;
  fg_carry : ∀ p c, l_dl_carry l' !! p = Some c → l_dl_carry l !! p = Some c;
  fg_confirm : ∀ p c, l_confirm_pending l' !! p = Some c → l_confirm_pending l !! p = Some c;
  fg_quarantine : ∀ p c, l_quarantine_pending l' !! p = Some c → l_quarantine_pending l !! p = Some c;
}.

#[export] Instance forgets_preorder : PreOrder forgets.
Proof.
  split; [by constructor|]. intros l1 l2 l3 [A1 B1 C1 D1] [A2 B2 C2 D2]. constructor; eauto.
Qed.

Lemma forgets_ok l l' : forgets l l' → ledger_ok l → ledger_ok l'.
Proof. intros [A B C D] [E F G H]. constructor; eauto. Qed.

Lemma forgets_claims l l' log log' :
  forgets l l' → log `prefix_of` log' → ledger_claims l log → ledger_claims l' log'.
Proof.
  intros [A B C D] Hp [E F G]. constructor.
  - intros n Hn. eapply settled_mono; [done|eauto].
  - intros c Hc. eapply carried_mono; [done|eauto].
  - intros cp Hcp. eapply delivered_mono; [done|eauto].
Qed.

Lemma at_place_stays s s' : stays s s' seg → at_place s → at_place s'.
Proof.
  intros H (node & Hl & Hn & Hd). destruct (H i node Hl Hn) as (Hl' & node' & Hn' & Hd'). exists node'. split; [done|].
  split; [done|congruence].
Qed.

Lemma in_quarantine_kept T n s s' : shielded T n s s' → in_quarantine s → in_quarantine s'.
Proof.
  intros [_ Q _ _ _] (q & node & Hp & Hl & Hn & Hd). destruct (Q q Hp i node Hl Hn) as (Hl' & node' & Hn' & Hd').
  exists q, node'. do 3 (split; [done|]). congruence.
Qed.

(** A step that leaves the segment alone keeps the phase. *)
Lemma phase_keep st st' l l' n d d' :
  phase st l d → fs_ok (dr_fs d) → shields True n (dr_fs d) (dr_fs d') → dr_log d `prefix_of` dr_log d' → forgets l l' →
  (∀ t, st' = Some (seg, t) → at_place (dr_fs d) → ledger_claims l (dr_log d) → st = Some (seg, t) ∨ settled t (dr_log d)) →
  phase st' l' d'.
Proof.
  intros [H|[H|(H1 & H2 & H3 & H4)]] Hok Hs Hl Hf Hst; pose proof (Hs Hok) as Hsd.
  - left. by eapply delivered_mono.
  - right. left. by eapply in_quarantine_kept.
  - right. right. destruct (sh_seg _ _ _ _ Hsd I H2) as [Hside Hstay]. split; [by eapply at_place_stays|]. split; [done|].
    split; [by eapply forgets_claims|]. intros t Ht. eapply settled_mono; [exact Hl|].
    destruct (Hst t Ht H1 H3) as [->|?]; [by apply H4|done].
Qed.

(** A step on another path, or once the segment is settled or set aside. *)
Lemma phase_gone st' l' T n d d' :
  delivered (dr_log d) ∨ in_quarantine (dr_fs d) → fs_ok (dr_fs d) → shields T n (dr_fs d) (dr_fs d') →
  dr_log d `prefix_of` dr_log d' → phase st' l' d'.
Proof.
  intros [H|H] Hok Hs Hl.
  - left. by eapply delivered_mono.
  - right. left. eapply in_quarantine_kept; [by apply Hs|done].
Qed.

Lemma dead_letters_shielded T n s s' log :
  shielded T n s s' → dead_letters_safe s dl_home n log → dead_letters_safe s' dl_home n log.
Proof.
  intros [_ _ _ D _] H f k rs Hin Hne Hu. destruct (H f k rs Hin Hne Hu) as [Hk Hdl]. split; [done|].
  destruct Hu. apply D; [lia|done].
Qed.

Lemma store_keep_dl T dl dl' d d' :
  store_ok dl d → shields T (dl_next_counter dl) (dr_fs d) (dr_fs d') → dr_log d' = dr_log d →
  dl_dir dl' = dl_dir dl → dl_next_counter dl' = dl_next_counter dl →
  (fs_ok (dr_fs d) → dl_housed (dr_fs d) dl → dl_housed (dr_fs d') dl') → store_ok dl' d'.
Proof.
  intros [A B C D E] Hs Hl Hd Hn Hh. pose proof (Hs A) as Hsd. constructor; [apply Hsd|congruence|lia| |by apply Hh].
  rewrite Hl, Hn. by eapply dead_letters_shielded.
Qed.

Lemma store_keep T dl d d' :
  store_ok dl d → shields T (dl_next_counter dl) (dr_fs d) (dr_fs d') → dr_log d' = dr_log d → store_ok dl d'.
Proof.
  intros Hso Hs Hl. eapply store_keep_dl; [done..|]. intros Hok. by apply dl_housed_mono; [apply (Hs Hok)|..].
Qed.

Lemma store_delivers dl d dl' d' : store_ok dl d → delivers dl d dl' d' → store_ok dl' d'.
Proof.
  intros [A B C D E] V. constructor.
  - apply (tc_ok _ _ _ (dv_touch _ _ _ _ V A)).
  - rewrite <-B. apply V.
  - pose proof (dv_next _ _ _ _ V). lia.
  - pose proof (dv_safe _ _ _ _ V A (dl_housed_sound _ _ E) C) as I'. rewrite B in I'. by apply I'.
  - by apply V.
Qed.

(** ** An attempt *)

Lemma checked_skip_spec p skip l w skip' l' w' :
  checked_skip p skip l w = (skip', l', w') → quiet w w' ∧ forgets l l' ∧ (skip' = skip ∨ skip' = 0).
Proof.
  unfold checked_skip. intros H. destruct (skip =? 0); [injection H as <- <- <-; split; [apply quiet_refl|]; split; [done|by auto]|].
  destruct (l_resume_from l !! p) as [c|]; [|injection H as <- <- <-; split; [apply quiet_refl|]; split; [done|by auto]].
  destruct (file_identity p w) as [id w1] eqn:E. apply file_identity_spec in E as (Q & _).
  destruct id as [j|]; [|injection H as <- <- <-; split; [done|]; split; [done|by auto]].
  destruct (negb _); injection H as <- <- <-; (split; [done|]); [|split; [done|by auto]]. split; [|by auto].
  constructor; cbn; [|done..]. by intros q c' [_ ?]%lookup_delete_Some.
Qed.

Lemma take_carry_spec p l w co l' w' :
  take_dl_carry p l w = (co, l', w') →
  quiet w w' ∧ forgets l l' ∧
  ∀ c, co = Some c → ∃ j, fs_live (w_fs w) !! p = Some j ∧ l_dl_carry l !! p = Some (mkPinnedCarry c j).
Proof.
  unfold take_dl_carry. intros H. destruct (l_dl_carry l !! p) as [[c j]|] eqn:El.
  2: { injection H as <- <- <-. split; [apply quiet_refl|]. done. }
  destruct (file_identity p w) as [id w1] eqn:E. apply file_identity_spec in E as (Q & Hid & _). cbn in H.
  assert (Hf : forgets l (sync_counts (set_carry (delete p (l_dl_carry l)) l))).
  { constructor; cbn; [done| |done..]. by intros q c' [_ ?]%lookup_delete_Some. }
  destruct (bool_decide_reflect (id = Some j)) as [->|]; injection H as <- <- <-; (split; [done|]); (split; [done|]); [|done].
  intros c' [= <-]. exists j. split; [by apply Hid|done].
Qed.

Lemma begin_forgets p w l : forgets l (begin_attempt p w l).
Proof. by constructor. Qed.
Lemma end_forgets l : forgets l (end_attempt l).
Proof. by constructor. Qed.

Definition nonneg (r : ProcessResult) : Prop :=
  match r with
  | PTransient _ t _ (Some c) | PBlockedDeadLetter t _ (Some c) => 0 ≤ t ∧ 0 ≤ ca_through c
  | PTransient _ t _ None | PBlockedDeadLetter t _ None | PPaused t | PAbandoned t => 0 ≤ t
  | _ => True
  end.

(** An attempt on any path: what it does to the disk and the ledger, and, for the file in
    its place, what its result claims. *)
Definition attempted (p : path) (skip : Z) l dl d r l' dl' d' : Prop :=
  forgets l l' ∧ nonneg r ∧ (∃ d1, delivers dl d dl' d1 ∧ ends wab p d1 d' r) ∧
  (p = seg → at_place (dr_fs d) → ledger_claims l (dr_log d) → settled skip (dr_log d) → result_claims r (dr_log d')).

Lemma ranged_nonneg skip r : 0 ≤ skip → ranged skip r → nonneg r.
Proof. intros H. destruct r as [|ra t ca [c|]|t n [c|]| | | | | |]; cbn; lia. Qed.

(** Settling a carry: its payloads are dead-lettered, or it is still owed. *)
Lemma settle_spec p skip c dl d res dl' d' :
  settle_dl_carry p skip c config dl d = (res, dl', d') → store_ok dl d → 0 ≤ skip → 0 ≤ ca_through c →
  delivers dl d dl' d' ∧
  match res with
  | Ok skip' => 0 ≤ skip' ∧ (fs_live (dr_fs d) !! p = Some i → carried c (dr_log d) → settled skip (dr_log d) → settled skip' (dr_log d'))
  | Err r => ends wab p d' d' r ∧ nonneg r ∧ r ≠ PQuarantined ∧
      (carried c (dr_log d) → settled skip (dr_log d) → result_claims r (dr_log d'))
  end.
Proof.
  intros H [S1 S2 S3 S4 S5] Hs Hc. unfold settle_dl_carry in H.
  destruct (dead_letter_records (file_at p d) (ca_payloads c) config dl d) as [[dr dl1] d1] eqn:E.
  destruct (dead_letter_spec _ _ _ _ _ _ _ _ E S1) as [D G]; [by apply dl_housed_sound|].
  pose proof (dv_log _ _ _ _ D) as Hl.
  assert (Err : ∀ r, ((∃ nd, r = PBlockedDeadLetter skip nd (Some c)) ∨ r = PTransient None skip CauseLocalWrite (Some c)) →
    ends wab p d1 d1 r ∧ nonneg r ∧ r ≠ PQuarantined ∧
    (carried c (dr_log d) → settled skip (dr_log d) → result_claims r (dr_log d1))).
  { intros r Hr. split; [apply ends_unchanged; [by split; [|split]|done|done|by destruct Hr as [[? ->]| ->]]|].
    split; [by destruct Hr as [[? ->]| ->]|]. split; [by destruct Hr as [[? ->]| ->]|]. intros Hca Hse.
    pose proof (carried_mono _ _ _ Hl Hca). pose proof (settled_mono _ _ _ Hl Hse).
    by destruct Hr as [[? ->]| ->]; cbn; (split; [done|]); intros ? [= <-]. }
  destruct dr as [[]|[needed|]]; injection H as <- <- <-; [|split; [done|apply Err; eauto]..].
  split; [by destruct D; constructor|]. split; [lia|]. intros Hi Hca Hse.
  unfold file_at in G. unfold dr_fs in Hi. rewrite Hi in G. unfold gains in G. cbn [dr_log upd_world set_world].
  destruct (Z.max_spec (ca_through c) skip) as [[_ ->]|[_ ->]].
  - by eapply settled_mono.
  - intros ps tail Hr. rewrite G. by eapply Hca.
Qed.

Lemma home_nonempty : dl_home ≠ [].
Proof. by intros [_ ?]%app_nil. Qed.

Lemma delivers_at_place dl d dl' d' : store_ok dl d → delivers dl d dl' d' → at_place (dr_fs d) → at_place (dr_fs d').
Proof.
  intros [A B C D _] [_ _ T _ _ _ _ _]. apply at_place_stays. eapply touched_stays; [by apply T|]. rewrite B.
  intros Ho%dl_own_parent. by destruct Hseg.
Qed.

(** The records that are read after the carry is settled. *)
Lemma process_attempted p skip last_chance dl d r dl' d' :
  process_segment p config skip last_chance dl d = (r, dl', d') → store_ok dl d → queueable wab p → 0 ≤ skip →
  nonneg r ∧ (∃ d1, delivers dl d dl' d1 ∧ ends wab p d1 d' r) ∧
  (p = seg → at_place (dr_fs d) → settled skip (dr_log d) → result_claims r (dr_log d')).
Proof.
  intros H [S1 S2 S3 S4 S5] Hq Hs.
  destruct (process_spec _ _ _ _ _ _ _ _ _ H S1) as (Hr & d1 & D1 & E1 & A1);
    [by apply dl_housed_sound|rewrite S2; apply Hq|done|].
  split; [by eapply ranged_nonneg|]. split; [eauto|]. intros -> (node & Hl & Hn & Hd) Hse.
  pose proof (A1 i node Hl Hn) as Hok. rewrite Hd in Hok. by eapply attempt_claims.
Qed.

Lemma attempt_segment_spec p skip l dl d r l' dl' d' :
  attempt_segment p config skip l dl d = (r, l', dl', d') → store_ok dl d → ledger_ok l → queueable wab p → 0 ≤ skip →
  attempted p skip l dl d r l' dl' d'.
Proof.
  intros H Hso Hlo Hq Hs. unfold attempt_segment in H. set (l1 := begin_attempt p (dr_world d) l) in H.
  destruct (checked_skip p skip l1 (dr_world d)) as [[skip1 l2] w1] eqn:E1.
  apply checked_skip_spec in E1 as (Q1 & F1 & Hsk). destruct (take_dl_carry p l2 w1) as [[co l3] w2] eqn:E2.
  apply take_carry_spec in E2 as (Q2 & F2 & Hco).
  assert (F3 : forgets l l3) by (etrans; [apply (begin_forgets p (dr_world d))|]; by etrans).
  pose proof (quiet_trans _ _ _ Q1 Q2) as Q. pose proof (quiet_unchanged _ _ Q) as U. set (d2 := set_world w2 d) in *.
  assert (D2 : delivers dl d dl d2) by (apply delivers_unchanged; [done|apply Q|done..]). pose proof (store_delivers _ _ _ _ Hso D2) as Hso2.
  assert (Hs1 : 0 ≤ skip1) by (destruct Hsk; lia).
  assert (Hse1 : settled skip (dr_log d) → settled skip1 (dr_log d2))
    by (intros ?; destruct Hsk as [->| ->]; [done|by apply settled_0]).
  assert (Hat2 : at_place (dr_fs d) → at_place (dr_fs d2)).
  { destruct U as (L & F & _). intros (node & ? & ? & ?). exists node. unfold dr_fs. cbn. rewrite L, F. done. }
  destruct (match co with None => _ | Some c => _ end) as [[res dl2] d3] eqn:E3.
  assert (Hset : delivers dl d2 dl2 d3 ∧
    match res with
    | Ok skip' => 0 ≤ skip' ∧ (p = seg → at_place (dr_fs d) → ledger_claims l (dr_log d) → settled skip (dr_log d) → settled skip' (dr_log d3))
    | Err r => ends wab p d3 d3 r ∧ nonneg r ∧
        (p = seg → at_place (dr_fs d) → ledger_claims l (dr_log d) → settled skip (dr_log d) → result_claims r (dr_log d3))
    end).
  { destruct co as [c|]; [|injection E3 as <- <- <-; split; [by apply delivers_same|]; by auto].
    destruct (Hco c eq_refl) as (j & Hj & Hjc).
    assert (Hth : 0 ≤ ca_through c).
    { apply (lo_carry _ Hlo p (mkPinnedCarry c j)). apply (fg_carry l l2); [|done]. by etrans; [apply (begin_forgets p (dr_world d))|]. }
    destruct (settle_spec _ _ _ _ _ _ _ _ E3 Hso2 Hs1 Hth) as [D3 R3]. split; [done|].
    assert (Hca : p = seg → at_place (dr_fs d) → ledger_claims l (dr_log d) → carried c (dr_log d2)).
    { intros -> (node & Hl & _) [_ Hcl _]. apply Hcl. assert (j = i) as <-.
      { pose proof (quiet_unchanged _ _ Q1) as (L1 & _). rewrite L1 in Hj. unfold dr_fs in Hl. congruence. }
      apply (fg_carry l l2); [|done]. by etrans; [apply (begin_forgets seg (dr_world d))|]. }
    destruct res as [skip'|r0].
    - destruct R3 as [? R3]. split; [done|]. intros -> Hat Hcl Hse. apply R3; [by destruct (Hat2 Hat) as (? & ? & _)|by apply Hca|by apply Hse1].
    - destruct R3 as (? & ? & _ & R3). split; [done|]. split; [done|]. intros -> Hat Hcl Hse. apply R3; [by apply Hca|by apply Hse1]. }
  destruct Hset as [D3 R3]. pose proof (delivers_trans _ _ _ _ _ _ (so_fs _ _ Hso) D2 D3) as D23.
  assert (Hlast : ∀ rr dl4 d4, (rr, match rr with PPanicked => l3 | _ => end_attempt l3 end, dl4, d4) = (r, l', dl', d') →
    nonneg rr → (∃ d1, delivers dl d dl4 d1 ∧ ends wab p d1 d4 rr) →
    (p = seg → at_place (dr_fs d) → ledger_claims l (dr_log d) → settled skip (dr_log d) → result_claims rr (dr_log d4)) →
    attempted p skip l dl d r l' dl' d').
  { intros rr dl4 d4 [= <- <- <- <-] Hnn Hd Hcl. split; [|done]. destruct rr; try done; (etrans; [exact F3|apply end_forgets]). }
  destruct res as [skip'|r0].
  - destruct R3 as [Hs' R3]. destruct (process_segment _ _ skip' _ dl2 d3) as [[r4 dl4] d4] eqn:E4.
    destruct (process_attempted _ _ _ _ _ _ _ _ E4) as (Hnn & (d5 & D5 & E5) & Hcl);
      [by eapply store_delivers|done|done|]. apply (Hlast r4 dl4 d4); [done|done| |].
    + exists d5. split; [|done]. eapply delivers_trans; [apply Hso|done|done].
    + intros Hp Hat Hlc Hse. apply Hcl; [done| |by apply R3]. eapply delivers_at_place; [exact Hso2|done|by apply Hat2].
  - destruct R3 as (He & Hnn & R3). apply (Hlast r0 dl2 d3); [done|done|by exists d3|done].
Qed.

(** ** The ledger after an attempt *)

(** What [l'] holds beyond [l] is about [p]: cursors that satisfy [cur], carries that
    satisfy [car], an outstanding confirm only if [conf]. *)
Record learns (p : path) (cur : Z → Prop) (car : DeadLetterCarry → Prop) (conf : Prop) l l' : Prop := mkLearns {
  ln_cursor : ∀ q c, l_resume_from l' !! q = Some c → l_resume_from l !! q = Some c ∨ q = p ∧ cur (rc_processed c);
  ln_carry : ∀ q c, l_dl_carry l' !! q = Some c → l_dl_carry l !! q = Some c ∨ q = p ∧ car (pc_carry c);
  ln_confirm : ∀ q c, l_confirm_pending l' !! q = Some c → l_confirm_pending l !! q = Some c ∨ q = p ∧ conf;
  ln_quarantine : ∀ q c, l_quarantine_pending l' !! q = Some c → l_quarantine_pending l !! q = Some c ∨ q = p;
}.

Lemma forgets_learns p cur car conf l l' : forgets l l' → learns p cur car conf l l'.
Proof. intros [A B C D]. constructor; eauto. Qed.

Lemma learns_trans p cur car conf l1 l2 l3 :
  learns p cur car conf l1 l2 → learns p cur car conf l2 l3 → learns p cur car conf l1 l3.
Proof.
  intros [A1 B1 C1 D1] [A2 B2 C2 D2]. constructor; intros q c Hq.
  - destruct (A2 q c Hq); auto.
  - destruct (B2 q c Hq); auto.
  - destruct (C2 q c Hq); auto.
  - destruct (D2 q c Hq) as [?%D1|]; auto.
Qed.

Lemma learns_weaken p (cur cur' : Z → Prop) (car car' : DeadLetterCarry → Prop) (conf conf' : Prop) l l' :
  (∀ n, cur n → cur' n) → (∀ c, car c → car' c) → (conf → conf') → learns p cur car conf l l' → learns p cur' car' conf' l l'.
Proof.
  intros H1 H2 H3 [A B C D]. constructor; [..|done]; intros q c Hq.
  - destruct (A q c Hq) as [|[]]; auto.
  - destruct (B q c Hq) as [|[]]; auto.
  - destruct (C q c Hq) as [|[]]; auto.
Qed.

Lemma learns_ok p (cur : Z → Prop) (car : DeadLetterCarry → Prop) conf l l' :
  learns p cur car conf l l' → ledger_ok l → queueable wab p → (∀ n, cur n → 0 ≤ n) → (∀ c, car c → 0 ≤ ca_through c) →
  ledger_ok l'.
Proof.
  intros [A B C D] [E F G H] Hq Hcur Hcar. constructor; intros q c Hc.
  - destruct (A q c Hc) as [|[]]; eauto.
  - destruct (B q c Hc) as [|[]]; eauto.
  - destruct (C q c Hc) as [|[-> _]]; eauto.
  - destruct (D q c Hc) as [| ->]; eauto.
Qed.

Lemma learns_claims p (cur : Z → Prop) (car : DeadLetterCarry → Prop) (conf : Prop) l l' log :
  learns p cur car conf l l' → ledger_claims l log →
  (p = seg → (∀ n, cur n → settled n log) ∧ (∀ c, car c → carried c log) ∧ (conf → delivered log)) → ledger_claims l' log.
Proof.
  intros [A B C D] [E F G] Hp. constructor.
  - intros n Hn. destruct (A seg _ Hn) as [|[<- Hc]]; [eauto|]. by apply Hp.
  - intros c Hc. destruct (B seg _ Hc) as [|[<- Hca]]; [eauto|]. by apply Hp.
  - intros c Hc. destruct (C seg _ Hc) as [|[<- Hca]]; [eauto|]. by apply Hp.
Qed.

Lemma progress_learns p t l w l' w' :
  record_progress p t l w = (l', w') → quiet w w' ∧ learns p (λ n, n = t) (λ _, False) False l l'.
Proof.
  unfold record_progress. intros H. destruct (t =? 0); [injection H as <- <-; split; [apply quiet_refl|by apply forgets_learns]|].
  destruct (file_identity p w) as [id w1] eqn:E. apply file_identity_spec in E as (Q & _). injection H as <- <-.
  split; [done|]. constructor; cbn; [|auto..]. intros q c. destruct id as [j|]; [|intros [_ ?]%lookup_delete_Some; auto].
  destruct (decide (p = q)) as [<-|]; [rewrite lookup_insert_eq; intros [= <-]; auto|rewrite lookup_insert_ne by done; auto].
Qed.

Lemma carry_learns p co l w l' w' :
  store_dl_carry p co l w = (l', w') → quiet w w' ∧ learns p (λ _, False) (λ c, co = Some c) False l l'.
Proof.
  unfold store_dl_carry, set_dl_carry. destruct co as [c|]; intros H;
    [|injection H as <- <-; split; [apply quiet_refl|by apply forgets_learns]].
  destruct (file_identity p w) as [id w1] eqn:E. apply file_identity_spec in E as (Q & _).
  assert (Hdel : learns p (λ _, False) (λ c', Some c = Some c') False l (sync_counts (set_carry (delete p (l_dl_carry l)) l))).
  { constructor; cbn; auto. intros q x [_ ?]%lookup_delete_Some. auto. }
  destruct id as [j|]; [destruct (_ <=? _)|]; injection H as <- <-; (split; [done|]); try done.
  constructor; cbn; auto. intros q x. destruct (decide (p = q)) as [<-|];
    [rewrite lookup_insert_eq; intros [= <-]; auto|rewrite lookup_insert_ne by done; auto].
Qed.

Lemma forget_forgets p l : forgets l (forget p l).
Proof. constructor; cbn; [by intros q c [_ ?]%lookup_delete_Some..|done|done]. Qed.

Lemma park_forgets p why l : forgets l (park p why l).
Proof. constructor; cbn; [by intros q c [_ ?]%lookup_delete_Some..|done|done]. Qed.

Lemma quarantine_pending_learns p reason l : learns p (λ _, False) (λ _, False) False l (note_quarantine_pending p reason l).
Proof.
  constructor; cbn; [by intros q c [_ ?]%lookup_delete_Some; auto..|auto|]. intros q c.
  destruct (decide (p = q)) as [<-|]; [auto|]. rewrite lookup_insert_ne by done. auto.
Qed.

Lemma confirm_outcome_learns p out n l : learns p (λ _, False) (λ _, False) True l (note_confirm_outcome p out n (forget p l)).
Proof.
  destruct out; [apply forgets_learns, forget_forgets|..];
    (constructor; cbn; [by intros q c [_ ?]%lookup_delete_Some; auto..| |auto]; intros q c;
     destruct (decide (p = q)) as [<-|]; [auto|]; rewrite lookup_insert_ne by done; auto).
Qed.

(** ** After an attempt *)

Definition after (p : path) (r : ProcessResult) l d : Prop :=
  delivered (dr_log d) ∨ in_quarantine (dr_fs d) ∨
  (at_place (dr_fs d) ∧ fs_live (dr_fs d) !! side = None ∧ ledger_claims l (dr_log d) ∧
   (p = seg → result_claims r (dr_log d))).

Lemma moved_in_quarantine s s' : moved wab seg true s s' → at_place s → in_quarantine s'.
Proof.
  intros [[U|(dest & j & A1 & A2 & A3 & A4 & A5 & A6)] Hg] (node & Hl & Hn & Hd).
  - destruct U as (L & _). by rewrite L, Hl in Hg.
  - rewrite A3 in Hl. injection Hl as ->. exists dest, node. split; [done|]. rewrite A4, lookup_insert_eq, A5. done.
Qed.

Lemma unchanged_at_place s s' : unchanged s s' → at_place s → at_place s'.
Proof. intros (L & F & _) (node & ? & ? & ?). exists node. by rewrite L, F. Qed.

Lemma attempted_after p skip l dl d r l' dl' d' :
  attempted p skip l dl d r l' dl' d' → store_ok dl d → queueable wab p → phase (Some (p, skip)) l d →
  store_ok dl' d' ∧ after p r l' d' ∧ sends_le d d'.
Proof.
  intros (F & _ & (d1 & D1 & El & Ec & Em) & Hcl) Hso Hq Hph.
  pose proof (store_delivers _ _ _ _ Hso D1) as Hso1.
  destruct Hso as [O1 O2 O3 O4 _]. pose proof (shields_delivers _ _ _ _ D1 O2 O3) as S1.
  pose proof (shields_moved (dl_next_counter dl') p _ _ _ Em Hq) as S2.
  assert (Hlog : dr_log d `prefix_of` dr_log d') by (rewrite El; apply D1).
  split; [|split; [|by intros Q HQ; apply Ec, (dv_sends _ _ _ _ D1)]].
  { by eapply store_keep; [exact Hso1|exact S2|]. }
  pose proof (S1 O1) as Sd1. pose proof (S2 (so_fs _ _ Hso1)) as Sd2.
  destruct Hph as [H|[H|(H1 & H2 & H3 & H4)]].
  - left. by eapply delivered_mono.
  - right. left. eapply in_quarantine_kept; [exact Sd2|]. by eapply in_quarantine_kept.
  - destruct (sh_seg _ _ _ _ Sd1 I H2) as [Hside1 Hstay1]. pose proof (at_place_stays _ _ Hstay1 H1) as Hat1.
    pose proof (forgets_claims _ _ _ _ F Hlog H3) as Hcl'.
    destruct (decide (p = seg)) as [->|Hne].
    + assert (r = PQuarantined ∨ r ≠ PQuarantined) as [->|Hr] by (destruct r; auto); [right; left; by eapply moved_in_quarantine|].
      assert (U : unchanged (dr_fs d1) (dr_fs d')) by (destruct Em as [_ Em]; by destruct r).
      right. right. split; [by eapply unchanged_at_place|]. split; [by rewrite (proj1 U)|]. split; [done|].
      intros _. apply Hcl; [done|done|done|by apply H4].
    + destruct (sh_seg _ _ _ _ Sd2 Hne Hside1) as [Hside2 Hstay2]. right. right.
      split; [by eapply at_place_stays|]. done.
Qed.

(** ** Transitions *)

(** The segment a state holds, and how much of it counts as processed. *)
Definition held (st : DrainState) : option (path * Z) :=
  match st with
  | Draining => None
  | RetryingTransient p _ _ t _ _ _ | Held p t _ | Abandoned p t | BlockedDeadLetterFull p _ t _ => Some (p, t)
  end.

Definition held_ok (st : option (path * Z)) : Prop := ∀ p t, st = Some (p, t) → queueable wab p ∧ 0 ≤ t.

Record moves_ok dl d (st : option (path * Z)) l' d' : Prop := mkMovesOk {
  mo_store : store_ok dl d';
  mo_ledger : ledger_ok l';
  mo_phase : phase st l' d';
  mo_held : held_ok st;
  mo_log : dr_log d' = dr_log d;
  mo_sends : sends_le d d';
}.

(** A transition that only updates the ledger, with what the result claims. *)
Lemma moves_learned p r st dl l l' d d' cur car (conf : Prop) :
  store_ok dl d → ledger_ok l → queueable wab p → after p r l d →
  unchanged (dr_fs d) (dr_fs d') → dr_log d' = dr_log d → sends_le d d' → learns p cur car conf l l' →
  (∀ n, cur n → 0 ≤ n) → (∀ c, car c → 0 ≤ ca_through c) → held_ok st → (∀ q t, st = Some (q, t) → q = p) →
  (result_claims r (dr_log d) → (∀ n, cur n → settled n (dr_log d)) ∧ (∀ c, car c → carried c (dr_log d)) ∧
     (conf → delivered (dr_log d)) ∧ ∀ t, st = Some (p, t) → settled t (dr_log d)) →
  moves_ok dl d st l' d'.
Proof.
  intros Hso Hlo Hq Hph U Hl Hsl L Hcur Hcar Hh Hst Hcl. pose proof (shields_unchanged (dl_next_counter dl) _ _ U) as S.
  constructor; [by eapply store_keep|by eapply learns_ok| |done|done|done].
  destruct Hph as [H|[H|(H1 & H2 & H3 & H4)]].
  - left. by rewrite Hl.
  - right. left. eapply in_quarantine_kept; [|exact H]. apply (S (so_fs _ _ Hso)).
  - right. right. rewrite Hl. split; [by eapply unchanged_at_place|]. split; [by rewrite (proj1 U)|]. split.
    + eapply learns_claims; [exact L|done|]. intros Hp. destruct (Hcl (H4 Hp)) as (? & ? & ? & _). done.
    + intros t Ht. pose proof (Hst _ _ Ht) as Hp. destruct (Hcl (H4 (eq_sym Hp))) as (_ & _ & _ & Ht'). apply Ht'. by rewrite <-Hp.
Qed.

(** A transition that also moves [p] aside, or confirms it. *)
Lemma moves_disposed p r dl l l' d d' :
  store_ok dl d → ledger_ok l' → queueable wab p → after p r l d → dr_log d' = dr_log d → sends_le d d' →
  shields (p ≠ seg) (dl_next_counter dl) (dr_fs d) (dr_fs d') →
  (p ≠ seg → ledger_claims l (dr_log d) → ledger_claims l' (dr_log d)) →
  (p = seg → at_place (dr_fs d) → result_claims r (dr_log d) → delivered (dr_log d) ∨ in_quarantine (dr_fs d') ∨
     unchanged (dr_fs d) (dr_fs d') ∧ (ledger_claims l (dr_log d) → ledger_claims l' (dr_log d))) →
  moves_ok dl d None l' d'.
Proof.
  intros Hso Hlo Hq Hph Hl Hsl S Hcl Hp. constructor; [by eapply store_keep|done| |done|done|done].
  pose proof (S (so_fs _ _ Hso)) as Sd. destruct Hph as [H|[H|(H1 & H2 & H3 & H4)]].
  - left. by rewrite Hl.
  - right. left. by eapply in_quarantine_kept.
  - destruct (decide (p = seg)) as [->|Hne].
    + destruct (Hp eq_refl H1 (H4 eq_refl)) as [Hd|[Hd|[U Hc]]]; [left; by rewrite Hl|right; by left|].
      right. right. rewrite Hl. split; [by eapply unchanged_at_place|]. split; [by rewrite (proj1 U)|]. split; [by apply Hc|done].
    + right. right. rewrite Hl. destruct (sh_seg _ _ _ _ Sd Hne H2) as [Hs Hst]. split; [by eapply at_place_stays|].
      split; [done|]. split; [by apply Hcl|done].
Qed.

Lemma none_held_ok : held_ok None.
Proof. by intros ? ?. Qed.
#[local] Hint Resolve none_held_ok : core.

(** Moving [p] to quarantine, now or later. *)
Lemma moves_quarantine p r dl l d ok w' reason :
  quarantine_segment p config (dr_world d) = (ok, w') → store_ok dl d → ledger_ok l → queueable wab p → after p r l d →
  moves_ok dl d None (if ok then forget p l else note_quarantine_pending p reason l) (set_world w' d).
Proof.
  unfold quarantine_segment. destruct (move_to_quarantine p wab (dr_world d)) as [mr w] eqn:E. intros H Hso Hlo Hq Hph.
  apply move_to_quarantine_moved in E.
  assert (Em : moved wab p ok (dr_fs d) (w_fs w')) by (destruct mr as [[]|]; by injection H as <- <-). clear E H.
  assert (L : learns p (λ _, False) (λ _, False) False l (if ok then forget p l else note_quarantine_pending p reason l)).
  { destruct ok; [apply forgets_learns, forget_forgets|apply quarantine_pending_learns]. }
  eapply (moves_disposed p r); [done|by eapply learns_ok|done|done|done|done|by eapply shields_moved| |].
  - intros Hne Hc. eapply learns_claims; [exact L|done|done].
  - intros -> Hat _. destruct ok; [right; left; by eapply moved_in_quarantine|]. right. right. split; [apply Em|].
    intros Hc. eapply learns_claims; [exact L|done|]. by intros _.
Qed.

Lemma read_failure_forgets p class w l n l' : note_local_read_failure p class w l = (n, l') → forgets l l'.
Proof. unfold note_local_read_failure. destruct (bool_decide _); intros [= _ <-]; by constructor. Qed.

Lemma after_forgets p r l l' d : forgets l l' → after p r l d → after p r l' d.
Proof.
  intros F [H|[H|(H1 & H2 & H3 & H4)]]; [by left|right; by left|]. right. right.
  split; [done|]. split; [done|]. split; [by eapply forgets_claims|done].
Qed.

Lemma escalate_spec p r class l d b l' d' dl :
  escalate_local_read p class config l d = (b, l', d') → store_ok dl d → ledger_ok l → queueable wab p → after p r l d →
  if b then moves_ok dl d None l' d' else d' = d ∧ forgets l l'.
Proof.
  unfold escalate_local_read. intros H Hso Hlo Hq Hph.
  destruct (note_local_read_failure p class (dr_world d) l) as [n l1] eqn:E. apply read_failure_forgets in E as F1.
  destruct (negb _); [by injection H as <- <- <-|]. pose proof (forgets_ok _ _ F1 Hlo) as Hlo1.
  pose proof (after_forgets p r _ _ _ F1 Hph) as Hph1.
  destruct class; [by injection H as <- <- <-| |].
  - injection H as <- <- <-. eapply (moves_learned p r None dl l1 _ d d (λ _, False) (λ _, False) False); try done.
    apply forgets_learns, park_forgets.
  - destruct (quarantine_segment p config (dr_world d)) as [ok w] eqn:Eq. injection H as <- <- <-.
    by eapply (moves_quarantine p r).
Qed.

(** Recording the progress of an interrupted attempt. *)
Lemma moves_progress p r t co l d l1 w1 l2 w2 st dl :
  record_progress p t l (dr_world d) = (l1, w1) → store_dl_carry p co l1 w1 = (l2, w2) →
  store_ok dl d → ledger_ok l → queueable wab p → after p r l d → 0 ≤ t → (∀ c, co = Some c → 0 ≤ ca_through c) →
  (result_claims r (dr_log d) → settled t (dr_log d) ∧ ∀ c, co = Some c → carried c (dr_log d)) → st = Some (p, t) →
  moves_ok dl d st l2 (set_world w2 d).
Proof.
  intros H1 H2 Hso Hlo Hq Hph Ht Hc Hcl ->. apply progress_learns in H1 as [Q1 L1]. apply carry_learns in H2 as [Q2 L2].
  eapply (moves_learned p r (Some (p, t)) dl l l2 d (set_world w2 d) (λ n, n = t) (λ c, co = Some c) False); try done.
  - by apply quiet_unchanged, (quiet_trans _ w1).
  - eapply learns_trans; [eapply learns_weaken, L1; by intros|eapply learns_weaken, L2; by intros].
  - by intros n ->.
  - intros q n [= <- <-]. done.
  - by intros q n [= <- _].
  - intros Hr. destruct (Hcl Hr) as [Hs Hca]. split; [by intros n ->|]. split; [done|]. split; [done|]. by intros n [= <-].
Qed.

Lemma next_state_spec p r resume ep l d on_t st ep' l' d' dl :
  next_state_after_process p r resume config ep l d on_t = (st, ep', l', d') →
  store_ok dl d → ledger_ok l → queueable wab p → nonneg r → after p r l d →
  (∀ ra t c, held (on_t ra t c) = Some (p, t)) → moves_ok dl d (st ≫= held) l' d'.
Proof.
  intros H Hso Hlo Hq Hnn Hph Hon. destruct r as [n|ra t cause co|t needed co| |reason|why|t|t|]; cbn [next_state_after_process] in H.
  - destruct (confirm_and_delete p n (dr_world d)) as [out w] eqn:E. injection H as <- <- <- <-.
    apply (shields_confirm (dl_next_counter dl)) in E; [|done].
    eapply (moves_disposed p (PConfirmed n)); [done| |done|done|done|done|exact E| |].
    + eapply learns_ok; [apply confirm_outcome_learns|done..].
    + intros Hne Hc. eapply learns_claims; [apply confirm_outcome_learns|done|done].
    + by intros -> _ Hr; left.
  - destruct (match cause with CauseLocalRead _ => _ | _ => _ end) as [[b l1] d1] eqn:E.
    assert (He : if b then moves_ok dl d None l1 d1 else d1 = d ∧ forgets l l1).
    { destruct cause; [by injection E as <- <- <-| |by injection E as <- <- <-].
      by eapply (escalate_spec p (PTransient ra t (CauseLocalRead class) co)). }
    destruct b; [by injection H as <- <- <- <-|]. destruct He as [-> F1].
    destruct (record_progress p t l1 (dr_world d)) as [l2 w2] eqn:E2.
    destruct (store_dl_carry p co l2 w2) as [l3 w3] eqn:E3. injection H as <- <- <- <-. cbn [mbind option_bind].
    eapply (moves_progress p (PTransient ra t cause co)); [exact E2|exact E3|done|by eapply forgets_ok|done|by eapply after_forgets|..].
    + by destruct co; cbn in Hnn; lia.
    + intros c ->. cbn in Hnn. lia.
    + done.
    + apply Hon.
  - destruct (record_progress p t l (dr_world d)) as [l2 w2] eqn:E2.
    destruct (store_dl_carry p co l2 w2) as [l3 w3] eqn:E3.
    destruct (enter_blocked p ep t needed (set_world w3 d)) as [[state ep1] d1] eqn:E4. injection H as <- <- <- <-. cbn [mbind option_bind].
    assert (M : moves_ok dl d (Some (p, t)) l3 (set_world w3 d)).
    { eapply (moves_progress p (PBlockedDeadLetter t needed co)); [exact E2|exact E3|done..| | | |done].
      - by destruct co; cbn in Hnn; lia.
      - intros c ->. cbn in Hnn. lia.
      - done. }
    assert (held state = Some (p, t) ∧ dr_fs d1 = dr_fs (set_world w3 d) ∧ dr_log d1 = dr_log (set_world w3 d) ∧ sends_le d d1)
      as (-> & Hfs & Hlg & Hsl).
    { unfold enter_blocked in E4. by destruct ep; injection E4 as <- _ <-. }
    destruct M as [[M1 M2 M3 M4] M5 M6 M7 M8 M9]. constructor; [|done| |done|congruence|done].
    + constructor; rewrite ?Hfs, ?Hlg; done.
    + unfold phase in *. by rewrite Hfs, Hlg.
  - injection H as <- <- <- <-. eapply (moves_learned p PQuarantined None dl l _ d d (λ _, False) (λ _, False) False); try done.
    apply forgets_learns, forget_forgets.
  - injection H as <- <- <- <-. eapply (moves_learned p (PQuarantinePending reason) None dl l _ d d (λ _, False) (λ _, False) False); try done.
    apply quarantine_pending_learns.
  - injection H as <- <- <- <-. eapply (moves_learned p (PParked why) None dl l _ d d (λ _, False) (λ _, False) False); try done.
    apply forgets_learns, park_forgets.
  - destruct (record_progress p t l (dr_world d)) as [l2 w2] eqn:E2. injection H as <- <- <- <-. cbn [mbind option_bind].
    by eapply (moves_progress p (PPaused t) t None).
  - destruct (record_progress p t l (dr_world d)) as [l2 w2] eqn:E2. injection H as <- <- <- <-. cbn [mbind option_bind].
    by eapply (moves_progress p (PAbandoned t) t None).
  - injection H as <- <- <- <-. eapply (moves_learned p PPanicked None dl l _ d d (λ _, False) (λ _, False) False); try done.
    by apply forgets_learns.
Qed.

(** ** The thread *)

Implicit Types (s : LoopSt).

Record queues_ok s : Prop := mkQueuesOk {
  qo_pending : Forall (queueable wab) (ls_pending s);
  qo_backlog : Forall (queueable wab) (ls_backlog s);
  qo_sends : sends_ok (queueable wab) (ls_dr s);
}.

Record loop_ok s : Prop := mkLoopOk {
  lk_store : store_ok (ls_dl s) (ls_dr s);
  lk_ledger : ledger_ok (ls_ledger s);
  lk_phase : phase (held (ls_state s)) (ls_ledger s) (ls_dr s);
  lk_held : held_ok (held (ls_state s));
  lk_queues : queues_ok s;
}.

(** A step that is no attempt: the state machine stays where it is. *)
Record framed s s' : Prop := mkFramed {
  fr_state : ls_state s' = ls_state s;
  fr_ledger : forgets (ls_ledger s) (ls_ledger s');
  fr_dir : dl_dir (ls_dl s') = dl_dir (ls_dl s);
  fr_next : dl_next_counter (ls_dl s') = dl_next_counter (ls_dl s);
  fr_shield : shields True (dl_next_counter (ls_dl s)) (dr_fs (ls_dr s)) (dr_fs (ls_dr s'));
  fr_log : dr_log (ls_dr s') = dr_log (ls_dr s);
  fr_queues : queues_ok s → queues_ok s';
  fr_housed : fs_ok (dr_fs (ls_dr s)) → dl_housed (dr_fs (ls_dr s)) (ls_dl s) → dl_housed (dr_fs (ls_dr s')) (ls_dl s');
}.

#[export] Instance framed_preorder : PreOrder framed.
Proof.
  split; [by constructor|]. intros s1 s2 s3 [A1 B1 C1 D1 E1 F1 G1 H1] [A2 B2 C2 D2 E2 F2 G2 H2]. rewrite D1 in E2.
  constructor; [congruence|by etrans|congruence|congruence|by etrans|congruence|auto|]. 
  intros Hok Hh. apply H2; [apply (E1 Hok)|by apply H1].
Qed.

Lemma framed_ok s s' : framed s s' → loop_ok s → loop_ok s'.
Proof.
  intros [A B C D E F G K] [H1 H2 H3 H4 H5]. constructor.
  - by eapply store_keep_dl.
  - by eapply forgets_ok.
  - rewrite A. eapply phase_keep; [exact H3|apply H1|exact E|by rewrite F|done|by left].
  - by rewrite A.
  - by apply G.
Qed.

(** Steps that do not even touch the disk. *)
Lemma framed_idle s s' :
  ls_state s' = ls_state s → ls_ledger s' = ls_ledger s → ls_dl s' = ls_dl s →
  dr_fs (ls_dr s') = dr_fs (ls_dr s) → dr_log (ls_dr s') = dr_log (ls_dr s) → (queues_ok s → queues_ok s') → framed s s'.
Proof. intros A B C D E F. constructor; rewrite ?B, ?C, ?D; done. Qed.

Lemma queues_with s s' :
  ls_pending s' = ls_pending s → ls_backlog s' = ls_backlog s → sends_le (ls_dr s) (ls_dr s') → queues_ok s → queues_ok s'.
Proof. intros A B C [D E F]. constructor; rewrite ?A, ?B; auto. Qed.

Lemma framed_on_dr f s :
  (∀ d, dr_fs (f d) = dr_fs d ∧ dr_log (f d) = dr_log d ∧ sends_le d (f d)) → framed s (on_dr f s).
Proof.
  intros H. destruct (H (ls_dr s)) as (H1 & H2 & H3). by apply framed_idle; [..|apply queues_with].
Qed.

Lemma framed_observe s : framed s (on_dr observe s).
Proof. apply framed_on_dr. intros d. destruct (observe_same d) as (? & ? & _). auto using observe_sends. Qed.

Lemma framed_sleep ns s : framed s (sleep ns s).
Proof.
  apply (framed_on_dr (λ d, upd_world (tick ns) (observe d))). intros d. destruct (observe_same d) as (H1 & H2 & _).
  split; [exact H1|]. split; [exact H2|]. exact (observe_sends d).
Qed.

Lemma framed_wait wt s : framed s (with_wait wt s).
Proof. by apply framed_idle; [..|apply queues_with]. Qed.

Lemma framed_health b s : framed s (with_health b s).
Proof. by apply framed_idle; [..|apply queues_with]. Qed.

Lemma framed_polled now s : framed s (with_polled now s).
Proof. by apply framed_idle; [..|apply queues_with]. Qed.

Lemma framed_gone s : framed s (with_gone s).
Proof. by apply framed_idle; [..|apply queues_with]. Qed.

Lemma framed_budget n s : framed s (with_budget n s).
Proof. by apply framed_idle; [..|apply queues_with]. Qed.

Lemma framed_requeue rq s : framed s (with_requeue rq s).
Proof. by apply framed_idle; [..|apply queues_with]. Qed.

Lemma framed_drain_channel s : framed s (drain_channel s).
Proof.
  apply framed_idle; try done. intros [D E [F1 F2]]. constructor; cbn; [by apply Forall_app|done|]. by split.
Qed.

Lemma framed_push p s : queueable wab p → framed s (push_pending p s).
Proof.
  intros Hp. apply framed_idle; try done. intros [D E F]. constructor; cbn; [|done|done]. apply Forall_app. by split; [|constructor].
Qed.

(** A change of the disk that leaves the segment alone. *)
Lemma framed_world w s :
  shields True (dl_next_counter (ls_dl s)) (dr_fs (ls_dr s)) (w_fs w) → framed s (on_dr (set_world w) s).
Proof.
  intros H. constructor; [done..|by apply queues_with|]. intros Hok. by apply dl_housed_mono; [apply (H Hok)|..].
Qed.

Lemma framed_pop p rest s :
  dr_channel (ls_dr s) = p :: rest → framed s (on_dr (set_channel rest) s) ∧ (queues_ok s → queueable wab p).
Proof.
  intros E. assert (H : queues_ok s → queueable wab p ∧ Forall (queueable wab) rest).
  { intros [_ _ [F _]]. rewrite E in F. by apply Forall_cons_1 in F. }
  split; [|intros Hq; apply (H Hq)]. apply framed_idle; try done. intros Hq. destruct (H Hq) as [_ Hr]. destruct Hq as [A B [_ C]].
  by constructor; [..|split].
Qed.

Lemma wait_slice_spec dur s r s' :
  wait_slice dur s = (r, s') → framed s s' ∧ (queues_ok s → ∀ p, r = WaitSegment p → queueable wab p).
Proof.
  unfold wait_slice. set (s1 := if absorbing (ls_control s) then drain_channel s else s).
  assert (F1 : framed s s1) by (unfold s1; destruct (absorbing _); [apply framed_drain_channel|done]). intros H.
  split_hyp H; [injection H as <- <-; by split|].
  set (slice := match time_left _ _ with Some _ => _ | None => _ end) in H.
  destruct (ls_channel_gone s1); [injection H as <- <-; split; [etrans; [exact F1|apply framed_sleep]|done]|].
  destruct (dr_channel (ls_dr s1)) as [|p rest] eqn:Ec.
  2: { injection H as <- <-. destruct (framed_pop _ _ _ Ec) as [F2 Hq]. split; [by etrans|].
       intros Hqs q [= <-]. by apply Hq, F1. }
  set (s2 := on_dr observe s1) in *. assert (F2 : framed s s2) by (etrans; [exact F1|apply framed_observe]).
  destruct (dr_channel (ls_dr s2)) as [|p rest] eqn:Ec2.
  2: { injection H as <- <-. destruct (framed_pop _ _ _ Ec2) as [F3 Hq]. split; [by etrans|].
       intros Hqs q [= <-]. by apply Hq, F2. }
  destruct (dr_connected (ls_dr s2)); [injection H as <- <-; split; [|done]|destruct (c_mode _); injection H as <- <-; (split; [|done])].
  - etrans; [exact F2|]. by apply framed_on_dr.
  - etrans; [exact F2|]. etrans; [apply framed_gone|apply framed_sleep].
  - done.
Qed.

Lemma framed_queues pending backlog turn s :
  (queues_ok s → Forall (queueable wab) pending ∧ Forall (queueable wab) backlog) → framed s (with_queues pending backlog turn s).
Proof. intros H. apply framed_idle; try done. intros Hq. destruct (H Hq). destruct Hq. by constructor. Qed.

Lemma next_queued_spec s o s' :
  next_queued s = (o, s') → framed s s' ∧ (queues_ok s → ∀ p, o = Some p → queueable wab p).
Proof.
  unfold next_queued. intros H.
  assert (Hback : ∀ o s', match ls_backlog s with [] => (None, s) | p :: b => (Some p, with_queues (ls_pending s) b false s) end = (o, s') →
    framed s s' ∧ (queues_ok s → ∀ p, o = Some p → queueable wab p)).
  { clear H. intros o0 s0 H. destruct (ls_backlog s) as [|p b] eqn:E; injection H as <- <-; [by split|]. split.
    - apply framed_queues. intros [A B _]. rewrite E in B. by apply Forall_cons_1 in B as [_ ?].
    - intros [A B _] q [= <-]. rewrite E in B. by apply Forall_cons_1 in B as [? _]. }
  destruct (_ && _); [by apply Hback|]. destruct (ls_pending s) as [|p pending] eqn:E.
  - destruct (dr_channel (ls_dr s)) as [|p rest] eqn:Ec; [by apply Hback|]. injection H as <- <-.
    set (s1 := with_queues [] (ls_backlog s) true s).
    assert (F1 : framed s s1) by (apply framed_queues; intros [_ B _]; by split).
    destruct (framed_pop p rest s1 Ec) as [F2 Hq]. split; [by etrans|]. intros Hqs q [= <-]. by apply Hq, F1.
  - injection H as <- <-. split.
    + apply framed_queues. intros [A B _]. rewrite E in A. by apply Forall_cons_1 in A as [_ ?].
    + intros [A B _] q [= <-]. rewrite E in A. by apply Forall_cons_1 in A as [? _].
Qed.

Lemma requeue_spec inflight s out s' : requeue_unconfirmed config inflight s = (out, s') → framed s s'.
Proof.
  unfold requeue_unconfirmed. set (s1 := drain_channel s). assert (F1 : framed s s1) by apply framed_drain_channel. intros H.
  destruct (scan_unconfirmed_sealed _ _ _ _ _) as [r w] eqn:E. apply (shields_scan (dl_next_counter (ls_dl s1))) in E as [S Hl].
  destruct r as [scan|e]; injection H as _ <-; (etrans; [exact F1|]); [|by apply framed_world].
  set (w' := if _ : bool then _ else w). assert (F2 : framed s1 (on_dr (set_world w') s1)).
  { apply framed_world. unfold w'. by destruct (_ <? _). }
  etrans; [exact F2|]. apply framed_queues. intros [A B _]. split; [done|]. apply Forall_app. split; [done|].
  apply Forall_forall. intros p [_ Hp]%list_elem_of_filter. specialize (Hl scan eq_refl). rewrite Forall_forall in Hl. by apply Hl.
Qed.

Lemma probe_spec inflight s :
  match probe_and_resume config inflight s with Ok s' | Err s' => framed s s' end.
Proof.
  unfold probe_and_resume. destruct (health (dr_sink (ls_dr s))) as [answer sk].
  set (s1 := on_dr (λ d, observe (set_sink sk d)) s).
  assert (F1 : framed s s1).
  { apply (framed_on_dr (λ d, observe (set_sink sk d))). intros d. destruct (observe_same (set_sink sk d)) as (H1 & H2 & _).
    split; [exact H1|]. split; [exact H2|]. exact (observe_sends (set_sink sk d)). }
  assert (Hgo : ∀ ok, match (if ok && (negb (ls_prev_health_ok s1) || ((length (ls_pending s1) =? 0)%nat && (length (ls_backlog s1) =? 0)%nat))
    then let '(out, s) := requeue_unconfirmed config inflight s1 in
         if ro_scan_error out || ro_incomplete out then Ok s else Ok (with_health ok s)
    else Ok (with_health ok s1)) with Ok s' | Err s' => framed s s' end).
  { intros ok. destruct (ok && _).
    - destruct (requeue_unconfirmed config inflight s1) as [out s2] eqn:E. apply requeue_spec in E.
      destruct (_ || _); [by etrans|]. etrans; [exact F1|]. etrans; [exact E|apply framed_health].
    - etrans; [exact F1|apply framed_health]. }
  destruct answer as [[| |]| |]; [by apply Hgo..|done].
Qed.

Lemma service_spec scan cut s :
  (∀ s o s', scan s = (o, s') → framed s s') → (∀ s b s', cut s = (b, s') → framed s s') → framed s (service scan cut s).
Proof.
  intros Hscan Hcut. unfold service. destruct (_ <=? _); [done|].
  set (rescan := let '(_, _) := if absorbing (ls_control s) then _ else _ in _).
  assert (Hres : ∀ r at_ s1, rescan = (r, at_, s1) → framed s s1).
  { intros r at_ s1 H. unfold rescan in H. destruct (if absorbing (ls_control s) then _ else _) as [o s2] eqn:E.
    assert (F2 : framed s s2) by (destruct (absorbing _); [by injection E as _ <-|by eapply Hscan]).
    destruct (cut s2) as [b s3] eqn:Ec. apply Hcut in Ec. injection H as _ _ <-. by etrans. }
  destruct (match rq_last (ls_requeue s) with Some _ => _ | None => _ end) as [[r at_] s1] eqn:E.
  assert (F1 : framed s s1).
  { destruct (rq_last (ls_requeue s)) as [x|]; [|by eapply Hres]. destruct (rq_last_scan_at (ls_requeue s)) as [y|]; [|by eapply Hres].
    destruct (_ <? _); [by injection E as _ _ <-|by eapply Hres]. }
  etrans; [exact F1|]. etrans; [|apply framed_requeue]. by apply framed_on_dr.
Qed.

Lemma service_scan_spec inflight s : framed s (service_scan config inflight s).
Proof. apply service_spec; [apply requeue_spec|by intros s0 b s1 [= _ <-]]. Qed.

Lemma cut_spec s b s' : cut_backoff config s = (b, s') → framed s s'.
Proof.
  unfold cut_backoff. destruct (ls_wait s) as [wt|]; [|by intros [= _ <-]]. destruct (wt_cut wt); [by intros [= _ <-]|].
  destruct (_ <? _); intros [= _ <-]; [apply framed_wait|done].
Qed.

Lemma scan_dir_spec own dir w r w' :
  scan_dir dir w = (r, w') → touches own (w_fs w) (w_fs w') ∧ ∀ t m, r = Ok (t, m) → 0 ≤ m.
Proof.
  unfold scan_dir. intros E.
  assert (Tr : ∀ r0 w0, read_dir_of dir w = (r0, w0) → touches own (w_fs w) (w_fs w0)).
  { intros r0 w0 Hr. unfold read_dir_of in Hr. destruct (bool_decide _).
    - apply read_dir_in in Hr as [U _]. by apply unchanged_touches.
    - eapply quiet_touches, guarded_quiet; [|exact Hr]. eauto. }
  apply io_bind_inv in E as [(e & E & ->)|(es & w2 & E & Eg)]; apply Tr in E as T; [done|].
  apply scan_entries_spec in Eg as [Q Hm]. split; [etrans; [exact T|by apply quiet_touches]|].
  intros t m Hr. by destruct (Hm t m Hr).
Qed.

(** A step on the disk alone. *)
Lemma touches_steady own dl dl' w w' :
  touches own (w_fs w) (w_fs w') → dl_dir dl' = dl_dir dl → dl_next_counter dl' = dl_next_counter dl →
  dl_dir_entry_durable dl' = dl_dir_entry_durable dl →
  dl_dir dl' = dl_dir dl ∧ dl_next_counter dl' = dl_next_counter dl ∧ touches own (w_fs w) (w_fs w') ∧
  (fs_ok (w_fs w) → dl_housed (w_fs w) dl → dl_housed (w_fs w') dl').
Proof.
  intros T Hd Hn Hf. do 3 (split; [done|]). intros Hok. apply dl_housed_mono; [apply (T Hok)|done|by rewrite Hf].
Qed.

Lemma rescan_steady : dl_steady dl_rescan.
Proof.
  intros own dl w r dl' w' H. unfold dl_rescan in H. destruct (scan_dir (dl_dir dl) w) as [r1 w1] eqn:E.
  apply (scan_dir_spec own) in E as [T1 _].
  destruct r1 as [[t m]|e]; [injection H as <- <- <-; by apply touches_steady|].
  destruct (decide (e = NotFound)) as [->|Hne].
  - destruct (dir_is_missing dl w1) as [b w2] eqn:Em. pose proof (dir_missing_touches own _ _ _ _ Em) as T2.
    assert (T : touches own (w_fs w) (w_fs w2)) by (by etrans).
    destruct b; [|injection H as <- <- <-; by apply touches_steady].
    destruct (recreate_steady own _ _ _ _ _ H) as (D3 & N3 & T3 & K3). do 2 (split; [done|]). split; [by etrans|].
    intros Hok Hh. apply K3; [apply (T Hok)|]. by eapply dl_housed_mono, Hh; [apply (T Hok)|..].
  - assert ((r, dl', w') = (Err e, dl, w1)) as [= -> -> ->] by (by destruct e). by apply touches_steady.
Qed.

(** A rescan of the dead-letter directory. *)
Lemma framed_rescan s r dl w :
  dl_rescan (ls_dl s) (dr_world (ls_dr s)) = (r, dl, w) → framed s (with_dl dl (on_dr (set_world w) s)).
Proof.
  intros H. destruct (rescan_steady (λ _, False) _ _ _ _ _ H) as (D & N & _ & K).
  constructor; cbn; [done|done|done|done| |done|by apply queues_with|done].
  apply shields_any. intros own. by destruct (rescan_steady own _ _ _ _ _ H) as (_ & _ & T & _).
Qed.

(** ** Picking *)

Lemma admit_forgets p now l w a l' w' : ledger_admit p now l w = (a, l', w') → forgets l l'.
Proof.
  assert (Hr : ∀ l0, admit_resume p l0 w = (a, l', w') → forgets l l0 → forgets l l').
  { intros l0 H F. unfold admit_resume in H. destruct (l_resume_from l0 !! p); [|by injection H as _ <- _].
    destruct (file_identity p w). destruct (bool_decide _); injection H as _ <- _; [done|]. etrans; [exact F|].
    constructor; cbn; [by intros q c' [_ ?]%lookup_delete_Some|done..]. }
  unfold ledger_admit. intros H. do 3 (destruct (contains _ p); [by injection H as _ <- _|]).
  destruct (l_not_before l !! p) as [at_|]; [destruct (now <? at_); [by injection H as _ <- _|]|]; eapply Hr; try done.
Qed.

(** A segment to attempt, and the record to resume from. *)
Definition picked (p : path) (skip : Z) s : Prop :=
  queueable wab p ∧ 0 ≤ skip ∧ phase (Some (p, skip)) (ls_ledger s) (ls_dr s).

Lemma admit_framed p now s a l w :
  ledger_admit p now (ls_ledger s) (dr_world (ls_dr s)) = (a, l, w) → framed s (with_ledger l (on_dr (set_world w) s)).
Proof.
  intros H. apply admit_forgets in H as F. apply admit_spec in H as [Q _]. apply quiet_unchanged, (shields_unchanged (dl_next_counter (ls_dl s))) in Q.
  constructor; cbn; try done; [by apply queues_with|]. intros Hok. by apply dl_housed_mono; [apply (Q Hok)|..].
Qed.

Lemma admit_picked p now s skip l w :
  ledger_admit p now (ls_ledger s) (dr_world (ls_dr s)) = (AdmitProcess skip, l, w) → loop_ok s → queueable wab p →
  picked p skip (with_ledger l (on_dr (set_world w) s)).
Proof.
  intros H Hok Hp. pose proof (admit_framed _ _ _ _ _ _ H) as F. apply admit_spec in H as [Q [_ Hs]].
  assert (Hcur : 0 ≤ skip ∧ (p = seg → at_place (dr_fs (ls_dr s)) → ledger_claims (ls_ledger s) (dr_log (ls_dr s)) →
            settled skip (dr_log (ls_dr s)))).
  { destruct (decide (skip = 0)) as [->|Hne]; [split; [done|]; intros; by apply settled_0|].
    destruct (Hs Hne) as (j & Hj & Hc). split; [apply (lo_cursor _ (lk_ledger _ Hok) _ _ Hc)|].
    intros -> (node & Hl & _) [Hcl _ _]. apply Hcl. unfold dr_fs in Hl. rewrite Hl in Hj. by injection Hj as <-. }
  destruct Hcur as [H0 Hcur]. split; [done|]. split; [done|].
  eapply phase_keep; [apply Hok|apply Hok|apply F|by rewrite (fr_log _ _ F)|apply F|]. intros t [= -> ->] Hat Hcl. right. by apply Hcur.
Qed.

Lemma pick_spec fuel s o s' :
  pick fuel s = (o, s') → loop_ok s → framed s s' ∧ ∀ p skip, o = Some (p, skip) → picked p skip s'.
Proof.
  revert s. induction fuel as [|fuel IH]; intros s H Hok; cbn [pick] in H; [by injection H as <- <-|].
  destruct (next_queued s) as [[p|] s1] eqn:E; apply next_queued_spec in E as [F1 Hq]; [|by injection H as <- <-].
  specialize (Hq (lk_queues _ Hok) p eq_refl). pose proof (framed_ok _ _ F1 Hok) as Hok1.
  destruct (ledger_admit p (ls_now s1) (ls_ledger s1) (dr_world (ls_dr s1))) as [[a l] w] eqn:Ea.
  pose proof (admit_framed _ _ _ _ _ _ Ea) as F2. destruct a as [skip|o'].
  - injection H as <- <-. split; [by etrans|]. intros q k [= <- <-]. by eapply admit_picked.
  - apply IH in H as [F3 Hp]; [|by eapply framed_ok]. split; [|done]. etrans; [exact F1|]. by etrans.
Qed.

(** ** Attempting *)

(** What outlives the thread. *)
Record core_ok dl l d : Prop := mkCoreOk {
  co_store : store_ok dl d;
  co_ledger : ledger_ok l;
  co_phase : phase None l d;
  co_sends : sends_ok (queueable wab) d;
}.

Lemma loop_core s : loop_ok s → core_ok (ls_dl s) (ls_ledger s) (ls_dr s).
Proof.
  intros [K1 K2 K3 K4 [_ _ K5]]. constructor; [done|done| |done].
  destruct K3 as [H|[H|(H1 & H2 & H3 & H4)]]; [by left|right; by left|]. right. right. done.
Qed.

Definition step_ok (st : Step) : Prop :=
  match st with
  | Next s => loop_ok s
  | Exit _ _ s | Unwound s => core_ok (ls_dl s) (ls_ledger s) (ls_dr s)
  end.

Lemma attempt_and_move_ok p skip resume on_t s :
  picked p skip s → loop_ok s → (∀ ra t c, held (on_t ra t c) = Some (p, t)) →
  step_ok (attempt_and_move p skip resume on_t config s).
Proof.
  intros (Hq & Hs & Hph) [K1 K2 K3 K4 K5] Hon. unfold attempt_and_move.
  destruct (attempt_segment p config skip (ls_ledger s) (ls_dl s) (ls_dr s)) as [[[r l1] dl1] d1] eqn:Ea.
  pose proof (attempt_segment_spec _ _ _ _ _ _ _ _ _ Ea K1 K2 Hq Hs) as Hat.
  destruct (attempted_after _ _ _ _ _ _ _ _ _ Hat K1 Hq Hph) as (S1 & A1 & Hsend). destruct Hat as (F1 & Hnn & _).
  destruct (next_state_after_process p r resume config (ls_block_episode s) l1 d1 on_t) as [[[st ep] l2] d2] eqn:En.
  destruct (next_state_spec _ _ _ _ _ _ _ _ _ _ _ _ En S1 (forgets_ok _ _ F1 K2) Hq Hnn A1 Hon) as [M1 M2 M3 M4 M5 M6].
  destruct K5 as [A B C]. assert (Hsd : sends_ok (queueable wab) d2) by (by apply M6, Hsend).
  destruct st as [st|]; cbn [step_ok]; by constructor.
Qed.

Lemma state_picked p t s : loop_ok s → held (ls_state s) = Some (p, t) → picked p t s.
Proof. intros [K1 K2 K3 K4 K5] E. rewrite E in *. destruct (K4 p t eq_refl). done. Qed.

(** ** The dispositions still owed *)

Lemma retry_confirm_shields n p c w o w' :
  retry_confirm p c w = (o, w') → queueable wab p → shields (p ≠ seg) n (w_fs w) (w_fs w').
Proof.
  unfold retry_confirm. intros H Hq. destruct (match cp_stage c with StageSidecar => _ | StageDelete => _ end) as [out w1] eqn:E.
  injection H as _ <-. destruct (cp_stage c); [by eapply shields_confirm|by eapply shields_delete].
Qed.

Lemma retry_confirms_spec n entries m w m' w' :
  retry_confirms entries m w = (m', w') → Forall (λ e, queueable wab e.1) entries →
  (∀ p, is_Some (m' !! p) → is_Some (m !! p) ∨ p ∈ entries.*1) ∧
  shields (seg ∉ entries.*1) n (w_fs w) (w_fs w').
Proof.
  intros H He. revert m w H. induction He as [|[p c] entries Hp He IH]; intros m w H; cbn [retry_confirms] in H.
  { injection H as <- <-. by split; [auto|]. }
  destruct (retry_confirm p c w) as [o w1] eqn:E. apply (retry_confirm_shields n) in E as S1; [|done].
  apply IH in H as [Hm S2]. split.
  - intros q Hq. destruct (Hm q Hq) as [Hq'|Hq']; [|right; by right]. destruct (decide (p = q)) as [->|Hne]; [right; by left|].
    left. destruct o; by rewrite ?lookup_insert_ne, ?lookup_delete_ne in Hq' by done.
  - cbn. etrans; (eapply shields_weaken; [|done|done]); intros [? ?]%not_elem_of_cons; [by apply not_eq_sym|done].
Qed.

Lemma retry_quarantines_spec n entries m w m' w' :
  retry_quarantines wab entries m w = (m', w') → Forall (λ e, queueable wab e.1) entries →
  (∀ p c, m' !! p = Some c → m !! p = Some c) ∧ shields False n (w_fs w) (w_fs w') ∧
  (fs_ok (w_fs w) → at_place (w_fs w) → fs_live (w_fs w) !! side = None →
   in_quarantine (w_fs w') ∨ at_place (w_fs w') ∧ fs_live (w_fs w') !! side = None).
Proof.
  intros H He. revert m w H. induction He as [|[p c] entries Hp He IH]; intros m w H; cbn [retry_quarantines] in H.
  { injection H as <- <-. split; [done|]. split; [done|]. auto. }
  destruct (move_to_quarantine p wab w) as [mr w1] eqn:E. apply move_to_quarantine_moved in E as M.
  pose proof (shields_moved n p _ _ _ M Hp) as S1.
  assert (Hm1 : ∃ m1, retry_quarantines wab entries m1 w1 = (m', w') ∧ ∀ q x, m1 !! q = Some x → m !! q = Some x).
  { destruct mr as [[]|e]; eexists; (split; [exact H|]); [|done]. by intros q x [_ ?]%lookup_delete_Some. }
  destruct Hm1 as (m1 & H1 & Hsub). apply IH in H1 as (Hm & S2 & P2). split; [eauto|].
  split; [etrans; [by eapply shields_weaken, S1|exact S2]|]. intros Hok Hat Hside. pose proof (S1 Hok) as Sd1.
  assert (in_quarantine (w_fs w1) ∨ at_place (w_fs w1) ∧ fs_live (w_fs w1) !! side = None) as [Hq|[Hat1 Hside1]].
  { destruct (decide (p = seg)) as [->|Hne].
    - destruct mr as [[]|e]; cbn [is_ok] in M; [left; by eapply moved_in_quarantine|]. right. destruct M as [_ U].
      split; [by eapply unchanged_at_place|by rewrite (proj1 U)].
    - destruct (sh_seg _ _ _ _ Sd1 Hne Hside) as [Hs Hst]. right. split; [by eapply at_place_stays|done]. }
  - left. eapply in_quarantine_kept; [|exact Hq]. apply S2, Sd1.
  - apply P2; [apply Sd1|done|done].
Qed.

Lemma map_keys_queueable {A} (m : gmap path A) :
  (∀ p c, m !! p = Some c → queueable wab p) → Forall (λ e, queueable wab e.1) (map_to_list m).
Proof. intros H. apply Forall_forall. intros [p c] Hin%elem_of_map_to_list. by eapply H. Qed.

Lemma dispositions_spec st dl l d l' w' :
  retry_dispositions wab l (dr_world d) = (l', w') → store_ok dl d → ledger_ok l → phase st l d →
  store_ok dl (set_world w' d) ∧ ledger_ok l' ∧ phase st l' (set_world w' d).
Proof.
  intros H Hso Hlo Hph. unfold retry_dispositions in H. split_hyp H; [injection H as <- <-; by destruct Hso|].
  destruct (retry_confirms _ _ (dr_world d)) as [cm w1] eqn:Ec.
  apply (retry_confirms_spec (dl_next_counter dl)) in Ec as [Hcm S1]; [|apply map_keys_queueable, Hlo].
  cbn [l_quarantine_pending set_confirm_pending] in H.
  destruct (retry_quarantines _ _ _ w1) as [qm w2] eqn:Eq.
  apply (retry_quarantines_spec (dl_next_counter dl)) in Eq as (Hqm & S2 & P2); [|apply map_keys_queueable, Hlo].
  injection H as <- <-.
  assert (Hkeys : ∀ p, is_Some (cm !! p) → is_Some (l_confirm_pending l !! p)).
  { intros p Hp. destruct (Hcm p Hp) as [|Hin]; [done|]. apply list_elem_of_fmap in Hin as ([q c] & -> & Hin%elem_of_map_to_list). by eexists. }
  assert (S12 : shields False (dl_next_counter dl) (dr_fs d) (w_fs w2)).
  { etrans; [by eapply shields_weaken, S1|exact S2]. }
  split; [by eapply store_keep|]. split.
  { destruct Hlo as [A B C D]. constructor; cbn; [done|done| |eauto]. intros p c Hp. destruct (Hkeys p ltac:(by eexists)) as [c' Hc']. eauto. }
  destruct Hph as [Hd|[Hq|(H1 & H2 & H3 & H4)]].
  - by left.
  - right. left. eapply in_quarantine_kept; [|exact Hq]. apply S12, Hso.
  - destruct (l_confirm_pending l !! seg) as [c|] eqn:Ecp; [left; by eapply lcl_confirm|].
    assert (Hnot : seg ∉ (map_to_list (l_confirm_pending l)).*1).
    { intros ([q c] & -> & Hin%elem_of_map_to_list)%list_elem_of_fmap. cbn in Ecp. congruence. }
    pose proof (S1 (so_fs _ _ Hso)) as Sd1. destruct (sh_seg _ _ _ _ Sd1 Hnot H2) as [Hside1 Hst1].
    destruct (P2 (sh_ok _ _ _ _ Sd1) (at_place_stays _ _ Hst1 H1) Hside1) as [Hq|[Hat Hside]]; [right; by left|].
    right. right. split; [done|]. split; [done|]. split; [|done].
    destruct H3 as [C1 C2 C3]. constructor; cbn; [done|done|]. intros cp Hcp.
    destruct (Hkeys seg ltac:(by eexists)). congruence.
Qed.

(** ** The arms *)

Lemma loop_ok_state st s : loop_ok s → held st = None ∨ held st = held (ls_state s) → loop_ok (with_state st s).
Proof.
  intros [K1 K2 K3 K4 K5] H. constructor; cbn; [done|done| | |by destruct K5; constructor].
  - destruct K3 as [Hd|[Hq|(H1 & H2 & H3 & H4)]]; [by left|right; by left|]. right. right. do 3 (split; [done|]).
    intros t Ht. destruct H as [H|H]; [congruence|]. apply H4. congruence.
  - destruct H as [->| ->]; [by intros ? ?|done].
Qed.

Lemma step_next s : loop_ok s → step_ok (Next s).
Proof. done. Qed.
Lemma step_exit r a s : loop_ok s → step_ok (Exit r a s).
Proof. apply loop_core. Qed.
Lemma step_unwound s : loop_ok s → step_ok (Unwound s).
Proof. apply loop_core. Qed.
#[local] Hint Resolve step_next step_exit step_unwound : core.

Lemma draining_poll_ok s : loop_ok s → match draining_poll config s with Ok s' | Err s' => loop_ok s' end.
Proof.
  intros Hok. unfold draining_poll. destruct (negb _); [done|].
  destruct (retry_dispositions wab (ls_ledger s) (dr_world (ls_dr s))) as [l w] eqn:E.
  destruct Hok as [K1 K2 K3 K4 K5]. destruct (dispositions_spec _ _ _ _ _ _ E K1 K2 K3) as (D1 & D2 & D3).
  set (s1 := with_ledger l (on_dr (set_world w) s)).
  assert (Hok1 : loop_ok s1) by (constructor; [done..|by destruct K5; constructor]).
  pose proof (probe_spec None s1) as Hp. destruct (probe_and_resume config None s1) as [s2|s2]; [|by eapply framed_ok].
  destruct (dl_rescan (ls_dl s2) (dr_world (ls_dr s2))) as [[r dl] w2] eqn:E2. apply framed_rescan in E2.
  eapply framed_ok, Hok1. etrans; [exact Hp|]. etrans; [exact E2|apply framed_polled].
Qed.

Lemma held_poll_ok p s : loop_ok s → match held_poll config p s with Ok s' | Err s' => framed s s' end.
Proof.
  intros Hok. unfold held_poll. destruct (negb _); [done|]. pose proof (probe_spec (Some p) s) as Hp.
  destruct (probe_and_resume config (Some p) s) as [s2|s2]; [|done]. etrans; [exact Hp|apply framed_polled].
Qed.

(** A wait, and what it leads to. *)
Lemma wait_ok dur s r s' : wait_slice dur s = (r, s') → loop_ok s → loop_ok s' ∧ ∀ p, r = WaitSegment p → queueable wab p.
Proof.
  intros [F Hq]%wait_slice_spec Hok. split; [by eapply framed_ok|]. apply Hq, Hok.
Qed.

Lemma push_ok p s : loop_ok s → queueable wab p → step_ok (Next (push_pending p s)).
Proof. intros Hok Hp. by eapply framed_ok, Hok; apply framed_push. Qed.

Lemma deliver_fresh_ok p skip s : loop_ok s → picked p skip s → step_ok (deliver_fresh config p skip s).
Proof. intros Hok Hp. by apply attempt_and_move_ok. Qed.

Lemma draining_arm_ok s : loop_ok s → step_ok (draining_arm config s).
Proof.
  intros Hok. unfold draining_arm. destruct (stop_exit s); [by auto|].
  pose proof (draining_poll_ok s Hok) as Hp. destruct (draining_poll config s) as [s1|s1]; [|by auto].
  pose proof (service_scan_spec None s1) as F2. set (s2 := service_scan config None s1) in *.
  pose proof (framed_ok _ _ F2 Hp) as Hok2. destruct (pause_requested (ls_control s2)).
  - destruct (stop_requested _); [by auto|]. destruct (wait_slice SLICE s2) as [r s3] eqn:E.
    destruct (wait_ok _ _ _ _ E Hok2) as [Hok3 Hq]. destruct r as [p| | |]; [|by auto..]. by apply push_ok, Hq.
  - destruct (pick (pick_fuel s2) s2) as [o s3] eqn:E. destruct (pick_spec _ _ _ _ E Hok2) as [F3 Hpk].
    pose proof (framed_ok _ _ F3 Hok2) as Hok3. destruct o as [[p skip]|]; [by apply deliver_fresh_ok, Hpk|].
    destruct (wait_slice _ s3) as [r s4] eqn:Ew. destruct (wait_ok _ _ _ _ Ew Hok3) as [Hok4 Hq].
    destruct r as [p| | |]; [|by auto..]. specialize (Hq p eq_refl).
    destruct (ledger_admit p (ls_now s4) (ls_ledger s4) (dr_world (ls_dr s4))) as [[a l] w] eqn:Ea.
    pose proof (framed_ok _ _ (admit_framed _ _ _ _ _ _ Ea) Hok4) as Hok5.
    destruct a as [skip|o]; [|done]. apply deliver_fresh_ok; [done|]. by eapply admit_picked.
Qed.

Lemma strand_arm_ok p delay cause s : loop_ok s → step_ok (strand_arm p delay cause s).
Proof.
  intros Hok. unfold strand_arm. set (l := set_not_before p _ (ls_ledger s)).
  assert (F1 : framed s (with_ledger l s)).
  { constructor; cbn; [done|by constructor|done|done|done|done|by apply queues_with|done]. }
  set (s1 := with_ledger l s) in *. cbn [step_ok].
  apply loop_ok_state; [|by left]. eapply framed_ok, Hok. etrans; [exact F1|].
  destruct cause; [etrans; [|apply framed_health]|..]; by apply framed_on_dr.
Qed.

Lemma picked_framed p t s s' : framed s s' → loop_ok s → picked p t s → picked p t s'.
Proof.
  intros F Hok (Hq & Ht & Hph). split; [done|]. split; [done|].
  eapply phase_keep; [exact Hph|apply Hok|apply F|by rewrite (fr_log _ _ F)|apply F|by left].
Qed.

Lemma after_backoff_ok p a b t cause cut s :
  loop_ok s → picked p t s → step_ok (after_backoff config p a b t cause cut s).
Proof.
  intros Hok Hp. unfold after_backoff, retry_now. destruct (absorbing _).
  - by apply attempt_and_move_ok.
  - pose proof (probe_spec (Some p) s) as F. destruct (probe_and_resume config (Some p) s) as [s1|s1];
      pose proof (framed_ok _ _ F Hok) as Hok1; [|by auto]. apply attempt_and_move_ok; [by eapply picked_framed|done|done].
Qed.

Lemma backoff_pass_ok p a b t cause wt s :
  loop_ok s → picked p t s → step_ok (backoff_pass config p a b t cause wt s).
Proof.
  intros Hok Hp. unfold backoff_pass. set (s1 := with_wait (Some wt) s).
  assert (F1 : framed s s1) by apply framed_wait. destruct (_ && _).
  { apply step_exit. by eapply framed_ok. }
  set (s2 := service _ _ s1). assert (F2 : framed s s2).
  { etrans; [exact F1|]. apply service_spec; [apply requeue_spec|apply cut_spec]. }
  clearbody s2. clear F1 s1. pose proof (framed_ok _ _ F2 Hok) as Hok2. pose proof (picked_framed _ _ _ _ F2 Hok Hp) as Hp2.
  set (wt2 := default wt (ls_wait s2)). destruct (pause_requested (ls_control s2) && stop_requested (ls_control s2)); [by auto|].
  set (polled := if pause_requested (ls_control s2) then _ else _).
  assert (F3 : match polled with Ok s' | Err s' => framed s2 s' end).
  { unfold polled. destruct (pause_requested _); [by apply held_poll_ok|done]. }
  destruct polled as [s3|s3]; pose proof (framed_ok _ _ F3 Hok2) as Hok3; [|by auto].
  pose proof (picked_framed _ _ _ _ F3 Hok2 Hp2) as Hp3.
  destruct (_ && _); [by apply after_backoff_ok|]. destruct (wait_slice _ s3) as [r s4] eqn:E.
  destruct (wait_ok _ _ _ _ E Hok3) as [Hok4 Hq]. apply wait_slice_spec in E as [F4 _].
  destruct r as [q| | |]; [by apply push_ok, Hq|by auto|by auto|]. destruct (pause_requested (ls_control s4)); [by auto|].
  set (s5 := sleep _ _). assert (F5 : framed s4 s5) by (etrans; [apply framed_budget|apply framed_sleep]).
  apply after_backoff_ok; [by eapply framed_ok|]. eapply picked_framed; [exact F5|done|]. by eapply picked_framed.
Qed.

Lemma after_block_ok p since t needed stop s :
  loop_ok s → held (ls_state s) = Some (p, t) → step_ok (after_block config p since t needed stop s).
Proof.
  intros Hok Hh. unfold after_block. destruct (dl_rescan (ls_dl s) (dr_world (ls_dr s))) as [[r dl] w] eqn:E.
  apply framed_rescan in E as F1. set (s1 := with_dl dl (on_dr (set_world w) s)) in *.
  set (probed := if absorbing (ls_control s1) then _ else _).
  assert (F2 : match probed with Ok s' | Err s' => framed s s' end).
  { unfold probed. destruct (absorbing _); [done|]. pose proof (probe_spec (Some p) s1) as F.
    destruct (probe_and_resume config (Some p) s1); by etrans. }
  destruct probed as [s2|s2]; pose proof (framed_ok _ _ F2 Hok) as Hok2; [|by auto].
  assert (Hh2 : held (ls_state s2) = Some (p, t)) by (by rewrite (fr_state _ _ F2)).
  destruct (negb _); [|destruct stop; [by auto|]]; cbn [step_ok]; (apply loop_ok_state; [done|]); right; by rewrite Hh2.
Qed.

Lemma blocked_arm_ok p since t needed s :
  loop_ok s → held (ls_state s) = Some (p, t) → step_ok (blocked_arm config p since t needed s).
Proof.
  intros Hok Hh. unfold blocked_arm. set (wt := match ls_wait s with Some _ => _ | None => _ end).
  set (s1 := with_wait (Some wt) s). assert (F1 : framed s s1) by apply framed_wait.
  destruct (stop_requested _). { apply after_block_ok; [by eapply framed_ok|done]. }
  set (s2 := service_scan config (Some p) s1). assert (F2 : framed s s2) by (etrans; [exact F1|apply service_scan_spec]).
  pose proof (framed_ok _ _ F2 Hok) as Hok2. assert (Hh2 : held (ls_state s2) = Some (p, t)) by (by rewrite (fr_state _ _ F2)).
  destruct (_ =? 0); [by apply after_block_ok|]. destruct (wait_slice _ s2) as [r s3] eqn:E.
  destruct (wait_ok _ _ _ _ E Hok2) as [Hok3 Hq]. apply wait_slice_spec in E as [F3 _].
  assert (Hh3 : held (ls_state s3) = Some (p, t)) by (by rewrite (fr_state _ _ F3)).
  destruct r as [q| | |]; [by apply push_ok, Hq|by auto|by apply after_block_ok|by apply after_block_ok].
Qed.

Lemma held_arm_ok p t resume s :
  loop_ok s → held (ls_state s) = Some (p, t) → step_ok (held_arm config p t resume s).
Proof.
  intros Hok Hh. unfold held_arm. destruct (stop_requested _); [by auto|].
  pose proof (service_scan_spec (Some p) s) as F1. set (s1 := service_scan config (Some p) s) in *.
  pose proof (framed_ok _ _ F1 Hok) as Hok1. pose proof (held_poll_ok p s1 Hok1) as F2.
  destruct (held_poll config p s1) as [s2|s2]; pose proof (framed_ok _ _ F2 Hok1) as Hok2; [|by auto].
  assert (Hh2 : held (ls_state s2) = Some (p, t)) by (by rewrite (fr_state _ _ F2), (fr_state _ _ F1)).
  destruct (pause_requested _).
  - destruct (wait_slice SLICE s2) as [r s3] eqn:E. destruct (wait_ok _ _ _ _ E Hok2) as [Hok3 Hq].
    destruct r as [q| | |]; [by apply push_ok, Hq|by auto..].
  - destruct (lk_held _ Hok2 _ _ Hh2) as [Hq _]. destruct resume; cbn [step_ok]; (apply loop_ok_state; [|]).
    + eapply framed_ok, Hok2. apply framed_queues. intros [A B _]. split; [by constructor|done].
    + by left.
    + done.
    + right. by rewrite Hh2.
Qed.

Lemma drain_step_ok s : loop_ok s → step_ok (drain_step config s).
Proof.
  intros Hok0. unfold drain_step. pose proof (framed_ok _ _ (framed_observe s) Hok0) as Hok.
  set (s1 := on_dr observe s) in *. clearbody s1. clear Hok0.
  destruct (ls_state s1) as [|p left_ delay t cause cut waited|p t resume|p t|p since t needed] eqn:E.
  - by apply draining_arm_ok.
  - destruct (left_ =? 0); [by apply strand_arm_ok|]. pose proof (state_picked p t s1 Hok ltac:(by rewrite E)) as Hp.
    unfold retrying_arm. destruct waited; [by apply attempt_and_move_ok|]. by apply backoff_pass_ok.
  - apply held_arm_ok; [done|by rewrite E].
  - by auto.
  - apply blocked_arm_ok; [done|by rewrite E].
Qed.

(** ** The supervisor *)

(** What holds between two incarnations. *)
Record base_ok l d : Prop := mkBaseOk {
  bo_fs : fs_ok (dr_fs d);
  bo_ledger : ledger_ok l;
  bo_phase : phase None l d;
  bo_sends : sends_ok (queueable wab) d;
  bo_dead : ∃ n, dead_letters_safe (dr_fs d) dl_home n (dr_log d);
  bo_wab : wab ≠ [] ∧ durable_dir (dr_fs d) wab;
}.

Lemma core_base dl l d : core_ok dl l d → base_ok l d.
Proof.
  intros [[A B C D (K1 & K2 & _)] E F G]. rewrite B, parent_snoc in K1, K2. constructor; eauto.
Qed.

(** A new writer starts behind every dead letter of the log. *)
Lemma dl_open_store w r w' d l :
  dl_open wab w = (r, w') → dr_world d = w → base_ok l d →
  base_ok l (set_world w' d) ∧ ∀ dl, r = Ok dl → store_ok dl (set_world w' d).
Proof.
  intros H <- [B1 B2 B3 B4 [n B5] [B6 B7]].
  assert (T : (∀ own, touches own (dr_fs d) (w_fs w')) ∧ ∀ dl, r = Ok dl → dl_dir dl = dl_home ∧ 0 ≤ dl_next_counter dl).
  { pose proof H as H'. unfold dl_open in H'. apply io_bind_inv in H' as [(e & H1 & ->)|([] & w1 & H1 & Hg)].
    { split; [intros own; by eapply create_private_touches|done]. }
    apply io_bind_inv in Hg as [(e & H2 & ->)|([t m] & w2 & H2 & Hg)].
    - split; [|done]. intros own. etrans; [by eapply create_private_touches|]. exact (proj1 (scan_dir_spec own _ _ _ _ H2)).
    - injection Hg as <- <-. split.
      + intros own. etrans; [by eapply create_private_touches|]. exact (proj1 (scan_dir_spec own _ _ _ _ H2)).
      + intros dl [= <-]. split; [done|]. cbn. apply (scan_dir_spec (λ _, False)) in H2 as [_ Hm].
        specialize (Hm t m eq_refl). lia. }
  destruct T as [T Hdl]. pose proof (shields_any n _ _ T) as S. pose proof (S B1) as Sd.
  pose proof (dead_letters_shielded _ _ _ _ _ Sd B5) as Hdead. split.
  - constructor; [apply Sd|done| |done|by exists n|split; [done|eapply durable_dir_mono, B7; apply Sd]].
    eapply phase_keep; [exact B3|done|exact S|done|done|by left].
  - intros dl ->. destruct (Hdl dl eq_refl) as [Hdir Hn]. constructor; [apply Sd|done|done| |by eapply dl_open_housed].
    intros f k rs Hin Hne Hu. destruct (Hdead f k rs Hin Hne Hu) as [_ Hdl']. split; [|done].
    destruct (Z.lt_ge_cases k (dl_next_counter dl)) as [|Hge]; [done|].
    destruct (dl_open_fresh _ _ _ _ k H Hu Hge) as (_ & _ & _ & Hnone). rewrite Hdir in Hnone.
    destruct Hdl' as (hb & hd & za & _ & _ & _ & _ & j & node & [Hl _ _] & _). unfold dr_fs in Hl. cbn in Hl.
    change (fs_live (w_fs w') !! dl_sealed dl_home k = Some j) in Hl. by rewrite Hnone in Hl.
Qed.

Definition sup_ok (u : Supervisor) : Prop :=
  match u with
  | SupStarting _ backlog l d => base_ok l d ∧ Forall (queueable wab) backlog
  | SupRunning _ s => loop_ok s
  | SupDone _ _ l d => base_ok l d
  end.

(** Between incarnations only the ledger forgets and the clock moves on. *)
Lemma base_keep l l' d d' :
  base_ok l d → forgets l l' → dr_fs d' = dr_fs d → dr_log d' = dr_log d → sends_le d d' → base_ok l' d'.
Proof.
  intros [B1 B2 B3 B4 [n B5] B6] F Hfs Hlog Hs. constructor; [by rewrite Hfs|by eapply forgets_ok| |by apply Hs| |by rewrite Hfs].
  - eapply phase_keep; [exact B3|done| | |exact F|by left]; [|by rewrite Hlog]. rewrite Hfs. exact (reflexivity (R := shields True 0) _).
  - exists n. by rewrite Hfs, Hlog.
Qed.

Lemma note_panic_forgets l o l' : note_drain_panic l = (o, l') → forgets l l'.
Proof.
  unfold note_drain_panic. destruct (l_in_flight l) as [p|]; [|by intros [= _ <-]]. cbv zeta. intros [= _ <-].
  destruct (_ <=? _); [|by constructor]. by etrans; [|apply park_forgets].
Qed.

Lemma on_panic_ok n l d : base_ok l d → sup_ok (on_panic config n l d).
Proof.
  intros Hb. unfold on_panic. set (d1 := upd_world (inc DrainPanics) d).
  assert (B1 : base_ok l d1) by (by eapply base_keep). destruct (stop_requested _); [done|].
  destruct (note_drain_panic l) as [o l'] eqn:E. apply note_panic_forgets in E.
  destruct (_ <=? _); cbn [sup_ok]; [by eapply base_keep|]. split; [|done].
  destruct (observe_same d1) as (H1 & H2 & _). eapply base_keep; [exact B1|done|exact H1|exact H2|exact (observe_sends d1)].
Qed.

Lemma sup_step_ok u : sup_ok u → sup_ok (sup_step config u).
Proof.
  destruct u as [n backlog l d|n s|n ex l d]; cbn [sup_ok sup_step]; [| |done].
  - intros [Hb Hq]. unfold thread_start. set (d1 := set_control _ d).
    assert (B1 : base_ok l d1) by (by eapply base_keep).
    destruct (dl_open wab (dr_world d1)) as [r w] eqn:E.
    destruct (dl_open_store _ _ _ _ _ E eq_refl B1) as [B2 Hst]. destruct r as [dl|e]; cbn; [|by apply on_panic_ok].
    destruct B2 as [C1 C2 C3 C4 C5 _]. constructor; cbn; [by apply Hst|done|done|by intros ? ?|]. by constructor.
  - intros Hok. pose proof (drain_step_ok s Hok) as Hs. destruct (drain_step config s) as [s1|r a s1|s1]; cbn [step_ok] in Hs; [done| |].
    + unfold thread_exit. destruct (retry_dispositions wab (ls_ledger s1) (dr_world (ls_dr s1))) as [l w] eqn:E.
      destruct Hs as [K1 K2 K3 K4]. destruct (dispositions_spec _ _ _ _ _ _ E K1 K2 K3) as (D1 & D2 & D3). cbn.
      assert (Hb : base_ok l (set_world w (ls_dr s1))) by (eapply core_base; by constructor).
      by destruct a; [eapply base_keep|].
    + by apply on_panic_ok, (core_base (ls_dl s1)).
Qed.

Lemma sup_run_ok n u : sup_ok u → sup_ok (sup_run config n u).
Proof. intros H. unfold sup_run. induction n as [|n IH]; [done|]. cbn. by apply sup_step_ok. Qed.

Lemma sup_ok_phase u :
  sup_ok u →
  (delivered (dr_log (sup_dr u)) ∨ in_quarantine (dr_fs (sup_dr u)) ∨ at_place (dr_fs (sup_dr u))) ∧
  ∃ n, dead_letters_safe (dr_fs (sup_dr u)) dl_home n (dr_log (sup_dr u)).
Proof.
  assert (Hp : ∀ st l d, phase st l d → delivered (dr_log d) ∨ in_quarantine (dr_fs d) ∨ at_place (dr_fs d)).
  { intros st l d [?|[?|(? & _)]]; auto. }
  destruct u as [n b l d|n s|n ex l d]; cbn.
  - intros [[B1 B2 B3 B4 B5 _] _]. split; [by eapply Hp|done].
  - intros [K1 K2 K3 K4 K5]. split; [by eapply Hp|]. exists (dl_next_counter (ls_dl s)). apply K1.
  - intros [B1 B2 B3 B4 B5 _]. split; [by eapply Hp|done].
Qed.

(** The file before the drain starts, in a WAB directory whose own name is durable. *)
Record handed_over (backlog : list path) d : Prop := mkHandedOver {
  ho_fs : fs_ok (dr_fs d);
  ho_place : at_place (dr_fs d);
  ho_side : fs_live (dr_fs d) !! side = None;
  ho_log : dr_log d = [];
  ho_backlog : Forall (queueable wab) backlog;
  ho_sends : sends_ok (queueable wab) d;
  ho_wab : wab ≠ [] ∧ durable_dir (dr_fs d) wab;
}.

Lemma sup_start_ok backlog d : handed_over backlog d → sup_ok (sup_start backlog d).
Proof.
  intros [H1 H2 H3 H4 H5 H6 H7]. split; [|done]. constructor; [done|by constructor| |done| |done].
  - right. right. split; [done|]. split; [done|]. split; [by constructor|done].
  - exists 0. rewrite H4. by intros f k rs ?%not_elem_of_nil.
Qed.
End Custody.

(** C3: the drain never loses a segment: however long it runs, through any answers of the
    sink, disk faults, panics and restarts of its thread, pauses, stops and rescans, a
    sealed segment is at its path with its contents; or moved as it is into the
    quarantine directory; or it was read completely, as many records as its footer says,
    and every one of them is accounted for, in what the sink committed or in a dead-letter
    segment. And every dead letter of the run, from this or another segment, is in a
    sealed segment that every crash preserves, provided the WAB directory's own name was
    durable at the start; the dead-letter directory inside it is the drain's to sync. *)
Theorem drain_never_loses_records {CRC : Crc32} {CL : Crc32Laws} {ZS : Zstd} {ZL : ZstdLaws} {SHA : Sha256}
    {SK : Sink} {SC : SinkContract} config seg i data backlog d n :
  ascii_path (dc_wab_dir config) → ascii_path seg → queueable (dc_wab_dir config) seg →
  handed_over config seg i data backlog d →
  let d' := sup_dr (sup_run config n (sup_start backlog d)) in
  (at_place seg i data (dr_fs d') ∨ in_quarantine config i data (dr_fs d') ∨
   ∃ ps, complete data ps ∧ ps ⊆+ handled (Some i) (dr_log d')) ∧
  ∀ f k rs, DeadLettered f k rs ∈ dr_log d' → rs ≠ [] → is_u64 k →
    ∀ s', crash (dr_fs d') s' → dl_readable s' (dc_wab_dir config ++ [DEAD_LETTER]) k rs.
Proof.
  intros Hw Ha Hq Hh d'. pose proof (sup_start_ok _ _ _ _ _ _ Hh) as H0.
  pose proof (sup_run_ok config seg Hw Ha Hq i data n _ H0) as Hn. apply sup_ok_phase in Hn as [Hp [m Hd]].
  split; [destruct Hp as [?|[?|?]]; auto|]. intros f k rs Hin Hne Hu s' Hcr.
  destruct (Hd f k rs Hin Hne Hu) as [_ Hdl]. by eapply dead_lettered_readable, dead_lettered_crash.
Qed.

Module CustodyWitness.
#[local] Existing Instance Crc32Ieee.ieee.
#[local] Existing Instance ZstdRaw.raw.
#[local] Existing Instance Crc32Ieee.ieee_laws.
#[local] Existing Instance ZstdRaw.raw_laws.
#[local] Existing Instance ShaPrefix.prefix.
#[local] Existing Instance PickySink.picky.
#[local] Existing Instance PickySink.picky_contract.
Import RecoveryWitness ScanWitness AccountWitness.

Lemma sealed1_queueable : queueable wab sealed1.
Proof. by constructor. Qed.

(** The segment is on the replay list; [tape] is any script of device faults. *)
Lemma three_handed_over tape : handed_over config sealed1 1%positive sealed_file [sealed1] (start tape).
Proof.
  constructor; [apply three_disk_ok| |done|done| |by split|].
  - by exists (on_disk sealed_file).
  - constructor; [apply sealed1_queueable|done].
  - split; [done|]. by apply (bool_decide_unpack _); vm_compute.
Qed.

(** After five steps the segment is gone and its records are all accounted for. *)
Lemma drain_never_loses_records_witness :
  let d' := sup_dr (sup_run config 5 (sup_start [sealed1] (start []))) in
  fs_live (dr_fs d') !! sealed1 = None ∧
  (in_quarantine config 1%positive sealed_file (dr_fs d') ∨
   ∃ ps, complete sealed_file ps ∧ ps ⊆+ handled (Some 1%positive) (dr_log d')).
Proof.
  assert (Hn : fs_live (dr_fs (sup_dr (sup_run config 5 (sup_start [sealed1] (start []))))) !! sealed1 = None)
    by (vm_compute; reflexivity).
  pose proof (drain_never_loses_records config sealed1 1%positive sealed_file [sealed1] (start []) 5
                eq_refl eq_refl sealed1_queueable (three_handed_over [])) as [H _].
  intros d'. fold d' in Hn, H. clearbody d'. split; [exact Hn|].
  destruct H as [Hp|[H|H]]; [|by left|by right].
  destruct Hp as (node & Hl & _). rewrite Hn in Hl. discriminate Hl.
Defined.
End CustodyWitness.
