(* ===== verification/Stop.v ===== *)
(** * The drain stops at its deadline (weir-server, drain/mod.rs)

    Once a stop is requested and its deadline has passed, the supervised drain is done
    within four passes, starts no commit and serves no wait; a commit that is pending when
    the deadline comes ends there. All this is for a sink whose calls yield: one that
    blocks its thread is never timed out (the doc of DrainHeartbeat says so). The proof
    needs that nothing turns the clock back: no system call moves it, and time passes
    only in waits and through other threads. *)

From Stdlib Require Import ZArith Lia Strings.Byte String.
From stdpp Require Import base gmap list option sets relations.
From S2P Require Import Prelude Deps Wire Sink Text Names Io Fs Durable Touch Format Reader Segment Recovery Scan.
From S2P Require Import Confirm DeadLetter Ledger Control Deliver Account Drain.

(** ** System calls take no time *)

Class Timeless {A} (m : World → A * World) : Prop := timeless w : w_instant (snd (m w)) = w_instant w.

(** Follows a function call by call, the innermost first. *)
Ltac clock_call f w :=
  lazymatch w with
  | context [match _ with _ => _ end] => fail
  | context [snd] => fail
  | _ => idtac
  end;
  let H := fresh "Hc" in
  pose proof (timeless (m := f) w) as H; destruct (f w) as [? ?]; cbn [snd] in H.
Ltac clocks :=
  repeat (cbv beta iota zeta; first
    [ match goal with
      | |- context [match ?f ?w with _ => _ end] => clock_call f w
      | |- context [snd (?f ?w)] => clock_call f w
      end
    | match goal with
      | |- context [match ?x with _ => _ end] =>
        lazymatch x with context [match _ with _ => _ end] => fail | _ => destruct x end
      end ]);
  cbn in *; congruence.

#[export] Instance ok_timeless {A} (a : A) : Timeless (io_ok a).
Proof. done. Qed.
#[export] Instance err_timeless {A} e : Timeless (@io_err A e).
Proof. done. Qed.
#[export] Instance bind_timeless {A B} (m : io A) (f : A → io B) :
  Timeless m → (∀ a, Timeless (f a)) → Timeless (io_bind m f).
Proof. intros Hm Hf w. unfold io_bind. clock_call m w. destruct r as [a|e]; [rewrite Hf|]; done. Qed.
#[export] Instance pop_fault_timeless : Timeless pop_fault.
Proof. intros w. unfold pop_fault. by destruct (fs_tape (w_fs w)). Qed.
#[export] Instance guarded_timeless {A} (m : io A) : Timeless m → Timeless (guarded m).
Proof. intros Hm w. unfold guarded. clock_call pop_fault w. destruct f; rewrite ?Hm; done. Qed.

Ltac timeless_call := apply guarded_timeless; let w := fresh "w" in intros w; clocks.

#[export] Instance create_new_timeless p : Timeless (create_new p).
Proof. timeless_call. Qed.
#[export] Instance write_all_timeless i b : Timeless (write_all i b).
Proof. intros w. unfold write_all. clocks. Qed.
#[export] Instance write_vectored_timeless i b : Timeless (write_vectored i b).
Proof. intros w. unfold write_vectored. clocks. Qed.
#[export] Instance sync_file_timeless i : Timeless (sync_file i).
Proof. intros w. unfold sync_file. clocks. Qed.
#[export] Instance sync_dir_timeless d : Timeless (sync_dir d).
Proof. timeless_call. Qed.
#[export] Instance fsync_parent_timeless p : Timeless (fsync_parent_dir p).
Proof. unfold fsync_parent_dir. destruct (parent p); apply _. Qed.
#[export] Instance try_exists_timeless p : Timeless (try_exists p).
Proof. timeless_call. Qed.
#[export] Instance open_truncate_timeless p : Timeless (open_truncate p).
Proof. timeless_call. Qed.
#[export] Instance rename_timeless p q : Timeless (rename p q).
Proof. timeless_call. Qed.
#[export] Instance remove_file_timeless p : Timeless (remove_file p).
Proof. timeless_call. Qed.
#[export] Instance open_existing_timeless p : Timeless (open_existing p).
Proof. timeless_call. Qed.
#[export] Instance open_read_timeless p : Timeless (open_read p).
Proof. intros w. unfold open_read. clocks. Qed.
#[export] Instance file_len_timeless i : Timeless (file_len i).
Proof. timeless_call. Qed.
#[export] Instance create_dir_all_timeless d : Timeless (create_dir_all d).
Proof. timeless_call. Qed.
#[export] Instance read_dir_timeless d : Timeless (read_dir d).
Proof. timeless_call. Qed.

(** ** The drain's own calls *)

#[export] Instance is_dir_timeless d : Timeless (is_dir d).
Proof.
  assert (Timeless (guarded (λ w, (Ok (bool_decide (d ∈ dom (fs_dirs (w_fs w)))), w) : result bool ErrorKind * World)))
    by timeless_call.
  intros w. unfold is_dir. clocks.
Qed.
#[export] Instance exists_timeless p : Timeless (exists_ p).
Proof. intros w. unfold exists_. clocks. Qed.
#[export] Instance open_handle_timeless p : Timeless (open_handle p).
Proof. intros w. unfold open_handle. clocks. Qed.
#[export] Instance create_dir_private_timeless d : Timeless (create_dir_private d).
Proof. apply bind_timeless; [apply _|]. intros []. timeless_call. Qed.
#[export] Instance free_name_timeless dir base n fuel : Timeless (free_name dir base n fuel).
Proof. revert n. induction fuel as [|fuel IH]; intros n; [apply _|]. apply bind_timeless; [apply _|]. intros []; apply _. Qed.
#[export] Instance quarantine_timeless p wab : Timeless (quarantine p wab).
Proof.
  apply bind_timeless; [|apply _]. apply bind_timeless; [apply _|]. intros _. destruct (file_name p); [|apply _].
  apply bind_timeless; [apply _|]. intros []; apply _.
Qed.
#[export] Instance quarantine_count_timeless {A} p wab : Timeless (@quarantine_and_count A p wab).
Proof. intros w. unfold quarantine_and_count. clocks. Qed.
#[export] Instance path_is_gone_timeless p : Timeless (path_is_gone p).
Proof.
  intros w. unfold path_is_gone. match goal with |- context [guarded ?m w] => assert (Timeless (guarded m)) by timeless_call end.
  clocks.
Qed.
#[export] Instance move_to_quarantine_timeless p wab : Timeless (move_to_quarantine p wab).
Proof. intros w. unfold move_to_quarantine. clocks. Qed.

#[export] Instance file_identity_timeless p : Timeless (file_identity p).
Proof.
  intros w. unfold file_identity. match goal with |- context [guarded ?m w] => assert (Timeless (guarded m)) by timeless_call end.
  clocks.
Qed.
#[export] Instance ledger_admit_timeless p now l : Timeless (ledger_admit p now l).
Proof. intros w. unfold ledger_admit, admit_resume. clocks. Qed.
#[export] Instance checked_skip_timeless p skip l : Timeless (checked_skip p skip l).
Proof. intros w. unfold checked_skip. clocks. Qed.
#[export] Instance record_progress_timeless p n l : Timeless (record_progress p n l).
Proof. intros w. unfold record_progress. clocks. Qed.
#[export] Instance set_dl_carry_timeless p c l : Timeless (set_dl_carry p c l).
Proof. intros w. unfold set_dl_carry. clocks. Qed.
#[export] Instance take_dl_carry_timeless p l : Timeless (take_dl_carry p l).
Proof. intros w. unfold take_dl_carry. clocks. Qed.

#[export] Instance entry_len_timeless p : Timeless (entry_len p).
Proof. timeless_call. Qed.
#[export] Instance read_dir_of_timeless d : Timeless (read_dir_of d).
Proof.
  intros w. unfold read_dir_of. case_match; [apply timeless|]. apply guarded_timeless. done.
Qed.
#[export] Instance scan_entries_timeless entries t m : Timeless (scan_entries entries t m).
Proof. revert t m. induction entries as [|p entries IH]; intros t m; cbn; [apply _|]. case_match; apply _. Qed.
#[export] Instance scan_dir_timeless dir : Timeless (scan_dir dir).
Proof. unfold scan_dir. apply _. Qed.
#[export] Instance dl_open_timeless wab : Timeless (dl_open wab).
Proof. unfold dl_open. apply bind_timeless; [apply _|]. intros _. apply bind_timeless; [apply _|]. intros []. apply _. Qed.
#[export] Instance dir_is_missing_timeless d : Timeless (dir_is_missing d).
Proof.
  intros w. unfold dir_is_missing. match goal with |- context [guarded ?m w] => assert (Timeless (guarded m)) by timeless_call end.
  clocks.
Qed.
#[export] Instance make_durable_timeless d : Timeless (make_dir_entry_durable d).
Proof. intros w. unfold make_dir_entry_durable. clocks. Qed.
#[export] Instance dl_create_dir_timeless d : Timeless (dl_create_dir d).
Proof. intros w. unfold dl_create_dir. clocks. Qed.
#[export] Instance recreate_dir_timeless d : Timeless (recreate_dir d).
Proof. intros w. unfold recreate_dir. clocks. Qed.
#[export] Instance dl_rescan_timeless d : Timeless (dl_rescan d).
Proof. intros w. unfold dl_rescan. clocks. Qed.

Section Calls.
Context {CRC : Crc32} {ZS : Zstd}.

#[export] Instance write_confirmed_timeless p b : Timeless (write_confirmed_durably p b).
Proof.
  intros w. unfold write_confirmed_durably.
  assert (Timeless (write_tmp_then_rename p (confirmed_tmp_path p) b)) by (unfold write_tmp_then_rename; apply _). clocks.
Qed.
#[export] Instance read_sealed_at_timeless p : Timeless (read_sealed_at_nanos p).
Proof.
  apply bind_timeless; [apply _|]. intros [i st]. apply bind_timeless; [apply _|]. intros len.
  repeat (case_match; try apply _).
Qed.
#[export] Instance delete_confirmed_timeless p : Timeless (delete_confirmed_segment p).
Proof. intros w. unfold delete_confirmed_segment. clocks. Qed.
#[export] Instance confirm_timeless p n : Timeless (confirm_and_delete p n).
Proof.
  assert (Timeless (write_confirmed_file p n)) by (intros w; unfold write_confirmed_file; clocks).
  intros w. unfold confirm_and_delete. clocks.
Qed.

#[export] Instance retry_confirms_timeless entries m : Timeless (retry_confirms entries m).
Proof.
  revert m. induction entries as [|[p c] entries IH]; intros m w; [done|]. cbn [retry_confirms].
  assert (Timeless (retry_confirm p c)) by (intros w0; unfold retry_confirm; clocks). clocks.
Qed.
#[export] Instance retry_quarantines_timeless wab entries m : Timeless (retry_quarantines wab entries m).
Proof. revert m. induction entries as [|[p r] entries IH]; intros m w; [done|]. cbn [retry_quarantines]. clocks. Qed.
#[export] Instance retry_dispositions_timeless wab l : Timeless (retry_dispositions wab l).
Proof. intros w. unfold retry_dispositions. clocks. Qed.

#[export] Instance create_timeless p sh c : Timeless (wab_segment_create p sh c).
Proof. apply bind_timeless; [apply _|]. intros i w. apply bind_timeless; apply _. Qed.
#[export] Instance write_record_timeless seg b : Timeless (wab_segment_write_record seg b).
Proof. intros w. unfold wab_segment_write_record. clocks. Qed.
#[export] Instance seal_timeless seg : Timeless (wab_segment_seal seg).
Proof.
  apply bind_timeless; [intros w; apply bind_timeless; apply _|]. intros q. apply bind_timeless; [apply _|].
  intros []; apply _.
Qed.
#[export] Instance write_each_timeless seg l : Timeless (write_each seg l).
Proof. revert seg. induction l as [|b l IH]; intros seg w; [done|]. cbn [write_each]. clocks. Qed.
#[export] Instance create_in_timeless dir p sh c : Timeless (create_in dir p sh c).
Proof. intros w. unfold create_in. case_match; [apply timeless|]. apply guarded_timeless. done. Qed.
#[export] Instance write_sealed_timeless l d : Timeless (write_sealed l d).
Proof. intros w. unfold write_sealed. clocks. Qed.
#[export] Instance write_records_timeless l d : Timeless (write_records l d).
Proof. intros w. unfold write_records. clocks. Qed.
End Calls.

Section Scans.
Context {CRC : Crc32}.

#[export] Instance check_confirmed_timeless p wab : Timeless (check_confirmed p wab).
Proof.
  assert (Timeless (fs_read (confirmed_path_for p))).
  { unfold fs_read. apply bind_timeless; [apply _|]. intros st. case_match; apply _. }
  intros w. unfold check_confirmed. clocks.
Qed.
#[export] Instance delete_orphan_timeless p : Timeless (delete_orphan p).
Proof.
  apply bind_timeless; [unfold sync_path; apply _|]. intros _. apply bind_timeless; [apply _|].
  intros _ w. clocks.
Qed.
Lemma stale_tmps_timeless tmps w : w_instant (remove_stale_tmps tmps w) = w_instant w.
Proof.
  revert w. induction tmps as [|t tmps IH]; intros w; [done|]. cbn. rewrite IH. unfold remove_stale_confirmed_tmp.
  match goal with |- context [guarded ?m w] => assert (Timeless (guarded m)) by timeless_call end. clocks.
Qed.
#[export] Instance scan_sealed_timeless wab ex oc l : Timeless (scan_sealed wab ex oc l).
Proof. induction l as [|p l IH]; intros w; [done|]. cbn [scan_sealed]. clocks. Qed.
#[export] Instance scan_shard_timeless wab ex oc l : Timeless (scan_shard wab ex oc l).
Proof. intros w. unfold scan_shard. rewrite timeless. apply stale_tmps_timeless. Qed.
#[export] Instance scan_dirs_timeless wab n ex oc dirs : Timeless (scan_dirs wab n ex oc dirs).
Proof. induction dirs as [|d dirs IH]; [apply _|]. intros w. cbn [scan_dirs]. clocks. Qed.
#[export] Instance scan_unconfirmed_timeless wab n ex oc : Timeless (scan_unconfirmed_sealed wab n ex oc).
Proof. unfold scan_unconfirmed_sealed. apply _. Qed.
#[export] Instance record_count_timeless p : Timeless (read_segment_record_count p).
Proof.
  apply bind_timeless; [apply _|]. intros [i st]. apply bind_timeless; [apply _|]. intros len.
  repeat (case_match; try apply _).
Qed.
#[export] Instance inspect_header_timeless p : Timeless (inspect_rejected_header p).
Proof. intros w. unfold inspect_rejected_header. clocks. Qed.
#[export] Instance quarantine_segment_timeless p config : Timeless (quarantine_segment p config).
Proof. intros w. unfold quarantine_segment. clocks. Qed.
End Scans.

(** ** Nothing turns the clock back *)

Section Later.
Context {CRC : Crc32} {ZS : Zstd} {SHA : Sha256} {SK : Sink}.
Implicit Types (d : Dr) (s : LoopSt) (config : DrainConfig).

(** A stop whose deadline has passed. *)
Definition halted d : Prop := stop_requested (dr_control d) = true ∧ dr_deadline_passed d = true.

(** The state a sink is in after health probes only. *)
Definition probed_only : relation sink_state := rtc (λ st st', st' = snd (health st)).

(** No commit was started, and no time passed but what other threads took. *)
Definition idle d d' : Prop :=
  probed_only (dr_sink d) (dr_sink d') ∧
  (dr_env d = [] → dr_env d' = [] ∧ instant_now d' = instant_now d).

(** Time passes and requests accumulate; after the deadline nothing else happens. *)
Record later d d' : Prop := mkLater {
  lt_control : control_le (dr_control d) (dr_control d');
  lt_now : instant_now d ≤ instant_now d';
  lt_idle : halted d → idle d d';
}.

Lemma halted_later d d' : later d d' → halted d → halted d'.
Proof.
  intros [Hc Hn _] [Hs Hd]. split; [by apply (cl_stop _ _ Hc)|]. by eapply deadline_passed_le.
Qed.

#[export] Instance idle_preorder : PreOrder idle.
Proof.
  split; [intros d; split; [apply rtc_refl|done]|]. intros d1 d2 d3 [S1 E1] [S2 E2]. split; [by etrans|].
  intros E. destruct (E1 E) as [Ee Ei]. destruct (E2 Ee). split; [done|congruence].
Qed.

#[export] Instance later_preorder : PreOrder later.
Proof.
  split; [by split|]. intros d1 d2 d3 L1 L2. pose proof (halted_later _ _ L1) as Hh. destruct L1 as [C1 N1 I1], L2 as [C2 N2 I2].
  split; [by etrans|lia|]. intros H. etrans; [by apply I1|by apply I2, Hh].
Qed.

Lemma later_world w d : w_instant w = instant_now d → later d (set_world w d).
Proof.
  intros H. split; [done|unfold instant_now; cbn; rewrite H; done|]. intros _. split; [apply rtc_refl|done].
Qed.
(** A change of the channel, the log or the requests. *)
Lemma later_same d d' :
  dr_world d' = dr_world d → control_le (dr_control d) (dr_control d') → dr_sink d' = dr_sink d → dr_env d' = dr_env d →
  later d d'.
Proof.
  intros Hw Hc Hs He. split; [done|unfold instant_now; by rewrite Hw|]. intros _. split; [rewrite Hs; apply rtc_refl|].
  unfold instant_now. by rewrite Hw, He.
Qed.

Lemma later_env a d : control_le (dr_control d) (dr_control (env_act a d)) ∧ instant_now d ≤ instant_now (env_act a d) ∧
  dr_sink (env_act a d) = dr_sink d.
Proof.
  destruct a as [ns|op|p|]; cbn [env_act]; [|split; [apply control_exec_le|done]|by destruct (dr_connected d)|done].
  split; [done|]. unfold instant_now. cbn. split; [lia|done].
Qed.

Lemma later_observe d : later d (observe d).
Proof.
  unfold observe. destruct (dr_env d) as [|acts rest] eqn:E; [done|].
  assert (Hne : dr_env d ≠ []) by (by rewrite E). set (d1 := mkDr _ _ _ _ _ _ _).
  assert (H : control_le (dr_control d) (dr_control d1) ∧ instant_now d ≤ instant_now d1 ∧ dr_sink d1 = dr_sink d) by done.
  clearbody d1. clear E. revert d1 H. induction acts as [|a acts IH]; intros e (Hc & Hn & Hs); cbn [foldl].
  - split; [done|done|]. intros _. split; [rewrite Hs; apply rtc_refl|done].
  - destruct (later_env a e) as (Hc' & Hn' & Hs'). apply IH. split; [by etrans|]. split; [lia|congruence].
Qed.

(** ** Attempts *)

Lemma later_inc c n d d' : later d d' → later d (upd_world (inc_by c n) d').
Proof. intros H. etrans; [exact H|]. by apply later_world. Qed.
Lemma later_log h d d' : later d d' → later d (log_handled h d').
Proof. intros H. etrans; [exact H|]. by apply later_same. Qed.

Lemma later_dead_letter file l config dl d : later d (snd (dead_letter_records file l config dl d)).
Proof.
  unfold dead_letter_records. destruct (_ && _); [done|].
  pose proof (timeless (m := write_records l dl) (dr_world d)) as H.
  destruct (write_records l dl (dr_world d)) as [[[[]|e] dl'] w]; cbn [snd] in H |- *.
  - apply later_log. by apply later_world.
  - by apply later_world.
Qed.

Ltac later_letter :=
  match goal with
  | |- context [dead_letter_records ?f ?l ?c ?dl ?d] =>
    let H := fresh "Hl" in
    pose proof (later_dead_letter f l c dl d) as H; destruct (dead_letter_records f l c dl d) as [[[]]]; cbn [snd] in H
  end.

(** A step that is not taken once the deadline has passed. *)
Lemma later_live d d' :
  ¬ halted d → control_le (dr_control d) (dr_control d') → instant_now d ≤ instant_now d' → later d d'.
Proof. intros Hh Hc Hn. by split. Qed.

Lemma race_later over d :
  control_le (dr_control d) (dr_control (snd (silent_race over d))) ∧ instant_now d ≤ instant_now (snd (silent_race over d)).
Proof. unfold silent_race, wait_until, instant_now. repeat case_match; cbn; (split; [done|lia]). Qed.

(** Commits are started before the deadline only. *)
Lemma later_commit file ps ids at_ config dl d :
  ¬ halted d → later d (snd (commit_batch file ps ids at_ config dl d)).
Proof.
  intros Hh. unfold commit_batch. destruct (with_segment_context _ _ _ _) as [batch|]; [|done].
  destruct (commit batch (dr_sink d)) as [answer sk]. pose proof (later_observe (set_sink sk d)) as [Oc On _].
  set (d1 := observe (set_sink sk d)) in *. assert (L : later d d1) by by apply later_live. clearbody d1.
  destruct answer as [[r|e]| |]; cbn [snd]; [| | |exact L].
  3: { destruct (race_later (instant_now d + dc_commit_timeout config) d1) as [Rc Rn].
       assert (L2 : later d (snd (silent_race (instant_now d + dc_commit_timeout config) d1)))
         by (apply later_live; [done|by etrans|etrans; [exact On|exact Rn]]).
       destruct (silent_race _ d1) as [[] d2]; [exact L2|by apply later_inc]. }
  - destruct (negb _); [exact L|]. destruct (map fst (cr_dead_lettered r)); [by apply later_inc, later_log|].
    later_letter; (etrans; [by apply later_log, L|]); [by apply later_inc|exact Hl].
  - destruct (is_transient e); [by apply later_inc|]. later_letter; by etrans.
Qed.

Lemma gate_open d t : batch_gate d t = None → ¬ halted d.
Proof. unfold batch_gate. intros H [Hs Hd]. by rewrite Hs, Hd in H. Qed.

Lemma later_flush a config lp dl d : later d (snd (Deliver.send_batch a config lp dl d)).
Proof.
  unfold Deliver.send_batch. destruct (batch_gate (observe d) _) eqn:Eg; [apply later_observe|].
  pose proof (later_commit (at_file a) (lp_batch lp) (lp_batch_ids lp) (at_created_at a) config dl (observe d)) as L.
  specialize (L (gate_open _ _ Eg)).
  destruct (commit_batch _ _ _ _ _ _ _) as [[r dl'] d']. cbn [snd] in L.
  destruct (apply_batch _ _ _); cbn [snd]; (etrans; [apply later_observe|exact L]).
Qed.

Lemma later_records a config items lp dl d : later d (snd (record_loop a config items lp dl d)).
Proof.
  revert lp dl d. induction items as [|[b|e] items IH]; intros lp dl d; cbn [record_loop]; [done| |].
  - cbv zeta. destruct (_ <=? _); [apply IH|]. destruct (_ <=? _); [|apply IH].
    set (lp1 := mkLoop _ _ _ _). pose proof (later_flush a config lp1 dl d) as L.
    destruct (Deliver.send_batch a config lp1 dl d) as [[[lp2|r] dl'] d']; cbn [snd] in L; [|exact L].
    etrans; [exact L|apply IH].
  - cbv zeta. destruct (is_corruption e); [done|]. by destruct (_ && _).
Qed.

Lemma later_quarantine segment config reason d : later d (snd (quarantine_result segment config reason d)).
Proof.
  unfold quarantine_result. pose proof (timeless (m := quarantine_segment segment config) (dr_world d)) as H.
  destruct (quarantine_segment segment config (dr_world d)). by apply later_world.
Qed.

Lemma later_completeness segment config lp d : later d (snd (completeness_check segment config lp d)).
Proof.
  unfold completeness_check. pose proof (timeless (m := read_segment_record_count segment) (dr_world d)) as H.
  destruct (read_segment_record_count segment (dr_world d)) as [[n|e] w]; cbn [snd] in H;
    apply later_world in H; repeat case_match; try exact H; (etrans; [exact H|apply later_quarantine]).
Qed.

Lemma later_finish a config lp q dl d : later d (snd (finish_segment a config lp q dl d)).
Proof.
  set (rest lp dl d := let '(r, d) := match q with
     | Some reason => quarantine_result (at_segment a) config reason d
     | None => completeness_check (at_segment a) config lp d end in (r, dl : DeadLetterWriter, d)).
  assert (R : ∀ lp dl d, later d (snd (rest lp dl d))).
  { intros lp0 dl0 d0. unfold rest. destruct q as [reason|].
    - pose proof (later_quarantine (at_segment a) config reason d0) as H. by destruct (quarantine_result _ _ _ _).
    - pose proof (later_completeness (at_segment a) config lp0 d0) as H. by destruct (completeness_check _ _ _ _). }
  unfold finish_segment. destruct (lp_batch lp) eqn:E; [apply R|].
  pose proof (later_flush a config lp dl d) as L. destruct (Deliver.send_batch a config lp dl d) as [[[lp2|r] dl'] d'];
    cbn [snd] in L; [|exact L]. etrans; [exact L|apply R].
Qed.

Lemma later_process segment config skip last dl d : later d (snd (process_segment segment config skip last dl d)).
Proof.
  unfold process_segment. pose proof (timeless (m := open_read segment) (dr_world d)) as H.
  destruct (open_read segment (dr_world d)) as [opened w]. cbn [snd] in H. apply later_world in H.
  set (d1 := set_world w d) in *. destruct (segment_reader_open opened) as [rd|e].
  - set (a := mkAttempt _ _ _ _ _ _). set (lp := mkLoop _ _ _ _).
    pose proof (later_records a config (fst (sr_items rd)) lp dl d1) as L.
    destruct (record_loop a config (fst (sr_items rd)) lp dl d1) as [[[[lp' q]|r] dl'] d2]; cbn [snd] in L; [|by etrans].
    etrans; [exact H|]. etrans; [exact L|apply later_finish].
  - destruct e; try exact H. pose proof (timeless (m := inspect_rejected_header segment) (dr_world d1)) as H1.
    destruct (inspect_rejected_header segment (dr_world d1)) as [v w1]. cbn [snd] in H1. apply later_world in H1.
    destruct v; cbn [snd]; try (by etrans). pose proof (later_quarantine segment config REASON_HEADER (set_world w1 d1)) as Q.
    destruct (quarantine_result _ _ _ _) as [r d2]. cbn [snd] in Q |- *. etrans; [exact H|]. by etrans.
Qed.

Lemma later_settle segment skip carry config dl d : later d (snd (settle_dl_carry segment skip carry config dl d)).
Proof.
  unfold settle_dl_carry. pose proof (later_dead_letter (file_at segment d) (ca_payloads carry) config dl d) as L.
  destruct (dead_letter_records _ _ _ _ _) as [[[u|[]] dl'] d']; cbn [snd] in L |- *; try exact L. by apply later_inc.
Qed.

Lemma later_attempt segment config skip l dl d : later d (snd (attempt_segment segment config skip l dl d)).
Proof.
  unfold attempt_segment. set (l0 := begin_attempt segment (dr_world d) l).
  pose proof (timeless (m := checked_skip segment skip l0) (dr_world d)) as H1.
  destruct (checked_skip segment skip l0 (dr_world d)) as [[skip' l1] w1]. cbn [snd] in H1.
  pose proof (timeless (m := take_dl_carry segment l1) w1) as H2.
  destruct (take_dl_carry segment l1 w1) as [[carry l2] w2]. cbn [snd] in H2.
  assert (L : later d (set_world w2 d)) by (apply later_world; unfold instant_now; congruence).
  set (d1 := set_world w2 d) in *. set (settled := match carry with None => _ | Some _ => _ end).
  assert (L1 : later d (snd settled)).
  { unfold settled. destruct carry as [c|]; [|exact L]. etrans; [exact L|apply later_settle]. }
  clearbody settled. destruct settled as [[[skip2|r] dl2] d2]; cbn [snd] in L1; [|exact L1].
  pose proof (later_process segment config skip2 (local_read_escalates_next segment config l2) dl2 d2) as L2.
  destruct (process_segment _ _ _ _ _ _) as [[r dl3] d3]. cbn [snd] in L2 |- *. by etrans.
Qed.

Lemma later_escalate segment class config l d : later d (snd (escalate_local_read segment class config l d)).
Proof.
  unfold escalate_local_read. destruct (note_local_read_failure segment class (dr_world d) l) as [n l'].
  destruct (negb _); [done|]. destruct class; [done|done|].
  pose proof (timeless (m := quarantine_segment segment config) (dr_world d)) as H.
  destruct (quarantine_segment segment config (dr_world d)). by apply later_world.
Qed.

(** The end of an attempt that keeps its segment: progress and carry are recorded. *)
Lemma later_keep segment n carry l w l1 w1 l2 w2 d :
  record_progress segment n l w = (l1, w1) → store_dl_carry segment carry l1 w1 = (l2, w2) →
  w_instant w = instant_now d → later d (set_world w2 d).
Proof.
  intros E1 E2 H. apply later_world. rewrite <-H.
  pose proof (timeless (m := record_progress segment n l) w) as H1. rewrite E1 in H1. cbn [snd] in H1.
  rewrite <-H1. destruct carry as [c|]; cbn in E2; [|by injection E2 as _ <-].
  pose proof (timeless (m := set_dl_carry segment c l1) w1) as H2.
  destruct (set_dl_carry segment c l1 w1) as [[b l3] w3]. injection E2 as _ <-. exact H2.
Qed.

Lemma later_next segment result resume config ep l d f :
  later d (snd (next_state_after_process segment result resume config ep l d f)).
Proof.
  destruct result as [n|after n cause carry|n needed carry| |reason|why|n|n|]; cbn [next_state_after_process]; try done.
  - pose proof (timeless (m := confirm_and_delete segment n) (dr_world d)) as H.
    destruct (confirm_and_delete segment n (dr_world d)). by apply later_world.
  - set (esc := match cause with CauseLocalRead _ => _ | _ => _ end). assert (L : later d (snd esc)).
    { unfold esc. destruct cause; try done. apply later_escalate. }
    clearbody esc. destruct esc as [[[] l1] d1]; cbn [snd] in L; [exact L|].
    destruct (record_progress segment n l1 (dr_world d1)) as [l2 w2] eqn:E1.
    destruct (store_dl_carry segment carry l2 w2) as [l3 w3] eqn:E2. cbn [snd]. etrans; [exact L|].
    by eapply later_keep.
  - destruct (record_progress segment n l (dr_world d)) as [l2 w2] eqn:E1.
    destruct (store_dl_carry segment carry l2 w2) as [l3 w3] eqn:E2. unfold enter_blocked.
    assert (L : later d (set_world w3 d)) by by eapply later_keep. destruct ep; cbn [snd]; [exact L|by apply later_inc].
  - destruct (record_progress segment n l (dr_world d)) as [l2 w2] eqn:E1. by eapply (later_keep _ _ None).
  - destruct (record_progress segment n l (dr_world d)) as [l2 w2] eqn:E1. by eapply (later_keep _ _ None).
Qed.

(** ** Rescans *)

Definition later_ls s s' : Prop := later (ls_dr s) (ls_dr s').

Lemma later_requeue config fl s : later_ls s (snd (requeue_unconfirmed config fl s)).
Proof.
  unfold requeue_unconfirmed, later_ls. set (s1 := drain_channel s).
  assert (L : later (ls_dr s) (ls_dr s1)) by by apply later_same. clearbody s1.
  match goal with |- context [scan_unconfirmed_sealed ?a ?b ?c ?e ?w] =>
    pose proof (timeless (m := scan_unconfirmed_sealed a b c e) w) as H;
    destruct (scan_unconfirmed_sealed a b c e w) as [[scan|err] w1] end; cbn [snd] in H |- *;
    (etrans; [exact L|]); cbn.
  - apply later_world. by destruct (_ <? _).
  - by apply later_world.
Qed.

Definition outcome_dr (r : result LoopSt LoopSt) : Dr := match r with Ok s | Err s => ls_dr s end.

Lemma later_probe config fl s : later (ls_dr s) (outcome_dr (probe_and_resume config fl s)).
Proof.
  unfold probe_and_resume. destruct (health (dr_sink (ls_dr s))) as [answer sk] eqn:Eh. cbv zeta.
  set (s1 := on_dr _ s). assert (L : later (ls_dr s) (ls_dr s1)).
  { cbn. etrans; [|apply later_observe]. split; [done|done|]. intros _. split; [|done].
    apply rtc_once. cbn. by rewrite Eh. }
  clearbody s1. pose proof (later_requeue config fl s1) as R. unfold later_ls in R.
  destruct (requeue_unconfirmed config fl s1) as [out s2]. cbn [snd] in R.
  repeat case_match; cbn [outcome_dr with_health ls_dr]; (exact L || by etrans).
Qed.

Lemma service_shape scan cut s :
  service scan cut s = s ∨
  ∃ rq ticket s1, (s1 = s ∨ s1 = snd (cut s) ∨ s1 = snd (cut (snd (scan s)))) ∧
    service scan cut s = with_requeue rq (on_dr (λ d, set_control (observe_requeue ticket (dr_control d)) d) s1).
Proof.
  unfold service. destruct (_ <=? _); [by left|]. right. cbv zeta.
  set (res := match rq_last (ls_requeue s) with Some _ => _ | None => _ end).
  assert (H : snd res = s ∨ snd res = snd (cut s) ∨ snd res = snd (cut (snd (scan s)))).
  { subst res. destruct (absorbing (ls_control s)).
    - destruct (cut s) as [b s1]. repeat case_match; auto.
    - destruct (scan s) as [o s1]. cbn [snd]. destruct (cut s1) as [b s2]. repeat case_match; auto. }
  clearbody res. destruct res as [[r at_] s1]. do 3 eexists. split; [exact H|done].
Qed.

Lemma later_service scan cut s :
  (∀ s, later_ls s (snd (scan s))) → (∀ s, later_ls s (snd (cut s))) → later_ls s (service scan cut s).
Proof.
  intros Hs Hc. destruct (service_shape scan cut s) as [->|(rq & t & s1 & H & ->)]; [by unfold later_ls|].
  assert (L : later_ls s s1).
  { destruct H as [->|[->| ->]]; [by unfold later_ls|apply Hc|]. unfold later_ls in *. etrans; [apply Hs|apply Hc]. }
  unfold later_ls in *. etrans; [exact L|]. by apply later_same; [|constructor|..].
Qed.

(** A rescan leaves the requests alone. *)
Lemma requeue_control config fl s : ls_control (snd (requeue_unconfirmed config fl s)) = ls_control s.
Proof. unfold requeue_unconfirmed. by destruct (scan_unconfirmed_sealed _ _ _ _ _) as [[]]. Qed.
Lemma cut_dr config s : ls_dr (snd (cut_backoff config s)) = ls_dr s.
Proof. unfold cut_backoff. by repeat case_match. Qed.

Lemma service_pause config fl s :
  pause_requested (ls_control (service (requeue_unconfirmed config fl) (cut_backoff config) s)) =
  pause_requested (ls_control s).
Proof.
  destruct (service_shape (requeue_unconfirmed config fl) (cut_backoff config) s) as [->|(rq & t & s1 & H & ->)]; [done|].
  cbn. destruct H as [->|[->| ->]]; [done|by rewrite cut_dr|]. rewrite cut_dr.
  exact (f_equal pause_requested (requeue_control config fl s)).
Qed.

(** ** The bound *)

Definition is_done (u : Supervisor) : Prop := match u with SupDone _ _ _ _ => True | _ => False end.

Lemma sup_run_step config n u : sup_run config (S n) u = sup_run config n (sup_step config u).
Proof. apply Nat.iter_succ_r. Qed.

Lemma done_stays config n u : is_done u → is_done (sup_run config n u).
Proof. revert u. induction n as [|n IH]; intros u H; [done|]. rewrite sup_run_step. apply IH. by destruct u. Qed.

Lemma done_more config m n u : is_done (sup_run config m u) → (m ≤ n)%nat → is_done (sup_run config n u).
Proof.
  intros H Hle. replace n with ((n - m) + m)%nat by lia. unfold sup_run. rewrite Nat.iter_add. by apply done_stays.
Qed.

(** A pass after which the supervisor is done within [n] more. *)
Definition settles config (n : nat) (st : Step) : Prop :=
  match st with
  | Next s => ∀ a, is_done (sup_run config n (SupRunning a s))
  | Exit _ _ _ => True
  | Unwound s => stop_requested (ls_control s) = true
  end.

Lemma settles_done config n s a : settles config n (drain_step config s) → is_done (sup_run config (S n) (SupRunning a s)).
Proof.
  intros H. rewrite sup_run_step. cbn [sup_step]. destruct (drain_step config s) as [s1|r ab s1|s1]; [apply H| |].
  - destruct (thread_exit config r ab s1) as [[t l] d]. by apply done_stays.
  - apply done_stays. unfold on_panic. cbv zeta. change (stop_requested (dr_control (upd_world _ _))) with (stop_requested (ls_control s1)).
    by rewrite H.
Qed.

Lemma halted_observe s : halted (ls_dr s) → halted (ls_dr (on_dr observe s)).
Proof. apply halted_later, later_observe. Qed.

Lemma draining_halts config s a :
  halted (ls_dr s) → ls_state s = Draining → is_done (sup_run config 1 (SupRunning a s)).
Proof.
  intros [Hs Hd]%halted_observe Hst. apply settles_done. unfold drain_step.
  replace (ls_state (on_dr observe s)) with Draining by done. unfold draining_arm, stop_exit, ls_control, ls_deadline_passed.
  rewrite Hs, Hd. done.
Qed.

Lemma strand_halts config segment delay cause s :
  halted (ls_dr s) → settles config 1 (strand_arm segment delay cause s).
Proof.
  intros H a. apply draining_halts; [|by destruct cause]. eapply halted_later; [|exact H].
  destruct cause; cbn; by apply later_world.
Qed.

Lemma backoff_halts config segment left_ delay n cause wt s :
  halted (ls_dr s) → settles config 0 (backoff_pass config segment left_ delay n cause wt s).
Proof.
  intros [Hs Hd]. unfold backoff_pass. set (s1 := with_wait (Some wt) s). cbv zeta.
  change (ls_control s1) with (dr_control (ls_dr s)). change (ls_deadline_passed s1) with (dr_deadline_passed (ls_dr s)).
  rewrite Hs, Hd. destruct (pause_requested (dr_control (ls_dr s))) eqn:Hp; [|done]. cbn [negb andb orb].
  set (s2 := service _ _ s1).
  assert (Hsame : pause_requested (ls_control s2) = true ∧ stop_requested (ls_control s2) = true).
  { assert (L : later_ls s1 s2).
    { apply later_service; [intros; apply later_requeue|]. intros s0. unfold later_ls. by rewrite cut_dr. }
    split; [|by apply (cl_stop _ _ (lt_control _ _ L))]. unfold s2. by rewrite service_pause. }
  destruct Hsame as [-> ->]. done.
Qed.

(** Every state but one with a backoff already served halts in three passes. *)
Definition unserved (st : DrainState) : Prop :=
  match st with RetryingTransient _ _ _ _ _ _ waited => waited = false | _ => True end.

Lemma retrying_halts config s a segment left_ delay n cause cut :
  halted (ls_dr s) → ls_state s = RetryingTransient segment left_ delay n cause cut false →
  is_done (sup_run config 2 (SupRunning a s)).
Proof.
  intros H%halted_observe Hst. apply settles_done. unfold drain_step.
  replace (ls_state (on_dr observe s)) with (ls_state s) by done. rewrite Hst.
  destruct (left_ =? 0); [by apply strand_halts|]. unfold retrying_arm.
  match goal with |- context [backoff_pass ?c ?g ?l ?dl ?m ?ca ?wt ?t] =>
    pose proof (backoff_halts c g l dl m ca wt t H) as S; destruct (backoff_pass c g l dl m ca wt t) end; try done.
  intros b. by specialize (S b).
Qed.

Lemma block_halts config segment since n needed s :
  halted (ls_dr s) → settles config 2 (after_block config segment since n needed true s).
Proof.
  intros H. unfold after_block. pose proof (timeless (m := dl_rescan (ls_dl s)) (dr_world (ls_dr s))) as Ht.
  destruct (dl_rescan (ls_dl s) (dr_world (ls_dr s))) as [[r dl] w]. cbn [snd] in Ht. set (s1 := with_dl dl _).
  assert (H1 : halted (ls_dr s1)) by (eapply halted_later; [|exact H]; by apply later_world). clearbody s1.
  set (probed := if absorbing (ls_control s1) then Ok s1 else _). assert (L : later (ls_dr s1) (outcome_dr probed)).
  { unfold probed. destruct (absorbing _); [done|]. apply later_probe. }
  clearbody probed. apply (halted_later _ _ L) in H1. destruct probed as [s2|s2]; cbn [outcome_dr] in H1; [|apply H1].
  destruct (negb _); [|done]. intros a. by eapply retrying_halts.
Qed.

Lemma unserved_halts config s a :
  halted (ls_dr s) → unserved (ls_state s) → is_done (sup_run config 3 (SupRunning a s)).
Proof.
  intros H Hu. destruct (ls_state s) as [|g l dl n ca cut wtd|g n r|g n|g since n needed] eqn:Hst; cbn in Hu.
  - eapply done_more; [by apply draining_halts|lia].
  - subst wtd. eapply done_more; [by eapply retrying_halts|lia].
  - apply halted_observe in H. apply settles_done. unfold drain_step. cbn [on_dr with_dr ls_state]. rewrite Hst. unfold held_arm, ls_control.
    by rewrite (proj1 H).
  - apply settles_done. unfold drain_step. cbn [on_dr with_dr ls_state]. by rewrite Hst.
  - apply halted_observe in H. apply settles_done. unfold drain_step. cbn [on_dr with_dr ls_state]. rewrite Hst.
    unfold blocked_arm. cbv zeta. set (s1 := with_wait _ _). assert (H1 : halted (ls_dr s1)) by exact H.
    unfold ls_control. rewrite (proj1 H1). by apply block_halts.
Qed.

Lemma next_unserved segment result resume config ep l d f st :
  (∀ after n cause, unserved (f after n cause)) →
  fst (fst (fst (next_state_after_process segment result resume config ep l d f))) = Some st → unserved st.
Proof.
  intros Hf. destruct result; cbn [next_state_after_process]; unfold enter_blocked; repeat case_match; cbn;
    intros [= <-]; simplify_eq; try done; apply Hf.
Qed.

Lemma attempt_halts config segment skip resume f s :
  halted (ls_dr s) → (∀ after n cause, unserved (f after n cause)) →
  settles config 3 (attempt_and_move segment skip resume f config s).
Proof.
  intros H Hf. unfold attempt_and_move.
  pose proof (later_attempt segment config skip (ls_ledger s) (ls_dl s) (ls_dr s)) as L.
  destruct (attempt_segment _ _ _ _ _ _) as [[[r l] dl] d]. cbn [snd] in L.
  pose proof (later_next segment r resume config (ls_block_episode s) l d f) as L1.
  pose proof (next_unserved segment r resume config (ls_block_episode s) l d f) as U.
  destruct (next_state_after_process _ _ _ _ _ _ _ _) as [[[nx ep] l1] d1]. cbn [fst snd] in L1, U.
  apply (halted_later _ _ L), (halted_later _ _ L1) in H. destruct nx as [st|]; [|apply H].
  intros a. apply unserved_halts; [done|]. by apply U.
Qed.

Lemma running_halts config s a : halted (ls_dr s) → is_done (sup_run config 4 (SupRunning a s)).
Proof.
  intros H. destruct (ls_state s) as [|g l dl n ca cut []|g n r|g n|g since n needed] eqn:Hst;
    try (eapply done_more; [by apply unserved_halts; [|rewrite Hst]|lia]).
  apply settles_done. unfold drain_step. cbn [on_dr with_dr ls_state]. rewrite Hst. apply halted_observe in H.
  destruct (l =? 0).
  - pose proof (strand_halts config g dl ca _ H) as S. intros a'. eapply done_more; [apply S|lia].
  - by apply attempt_halts.
Qed.

(** ** After the deadline *)

Definition step_dr (st : Step) : Dr := match st with Next s | Exit _ _ s | Unwound s => ls_dr s end.

Lemma attempt_later config segment skip resume f s :
  later (ls_dr s) (step_dr (attempt_and_move segment skip resume f config s)).
Proof.
  unfold attempt_and_move. pose proof (later_attempt segment config skip (ls_ledger s) (ls_dl s) (ls_dr s)) as L.
  destruct (attempt_segment _ _ _ _ _ _) as [[[r l] dl] d]. cbn [snd] in L.
  pose proof (later_next segment r resume config (ls_block_episode s) l d f) as L1.
  destruct (next_state_after_process _ _ _ _ _ _ _ _) as [[[nx ep] l1] d1]. cbn [snd] in L1.
  destruct nx; cbn; by etrans.
Qed.

Lemma block_later config segment since n needed stop s :
  later (ls_dr s) (step_dr (after_block config segment since n needed stop s)).
Proof.
  unfold after_block. pose proof (timeless (m := dl_rescan (ls_dl s)) (dr_world (ls_dr s))) as Ht.
  destruct (dl_rescan (ls_dl s) (dr_world (ls_dr s))) as [[r dl] w]. cbn [snd] in Ht. apply later_world in Ht.
  set (s1 := with_dl dl _). change (later (ls_dr s) (ls_dr s1)) in Ht. clearbody s1.
  set (probed := if absorbing (ls_control s1) then Ok s1 else _). assert (L : later (ls_dr s1) (outcome_dr probed)).
  { unfold probed. destruct (absorbing _); [done|]. apply later_probe. }
  clearbody probed. destruct probed as [s2|s2]; cbn [outcome_dr] in L; [|by etrans]. repeat case_match; by etrans.
Qed.

(** A pass that starts after the deadline. *)
Lemma step_later config s : halted (ls_dr s) → later (ls_dr s) (step_dr (drain_step config s)).
Proof.
  intros H. pose proof (later_observe (ls_dr s)) as L. unfold drain_step.
  assert (H1 : halted (ls_dr (on_dr observe s))) by by apply halted_observe.
  set (s1 := on_dr observe s) in *. change (later (ls_dr s) (ls_dr s1)) in L. etrans; [exact L|]. clear L H. clearbody s1.
  destruct H1 as [Hs Hd]. destruct (ls_state s1) as [|g l dl n ca cut waited|g n r|g n|g since n needed].
  - unfold draining_arm, stop_exit, ls_control, ls_deadline_passed. by rewrite Hs, Hd.
  - destruct (_ =? 0). { unfold strand_arm. destruct ca; cbn; by apply later_world. }
    unfold retrying_arm. destruct waited; [apply attempt_later|]. unfold backoff_pass. cbv zeta. set (s2 := with_wait _ s1).
    change (ls_control s2) with (dr_control (ls_dr s1)). change (ls_deadline_passed s2) with (dr_deadline_passed (ls_dr s1)).
    rewrite Hs, Hd. destruct (pause_requested (dr_control (ls_dr s1))) eqn:Hp; [|done]. cbn [negb andb orb].
    set (s3 := service _ _ s2). assert (L3 : later_ls s2 s3).
    { apply later_service; [intros; apply later_requeue|]. intros s0. unfold later_ls. by rewrite cut_dr. }
    assert (Hp3 : pause_requested (ls_control s3) = true) by (unfold s3; by rewrite service_pause).
    assert (Hs3 : stop_requested (ls_control s3) = true) by (by apply (cl_stop _ _ (lt_control _ _ L3))).
    rewrite Hp3, Hs3. exact L3.
  - unfold held_arm, ls_control. by rewrite Hs.
  - done.
  - unfold blocked_arm. cbv zeta. set (s2 := with_wait _ s1). unfold ls_control. change (ls_dr s2) with (ls_dr s1).
    rewrite Hs. apply (block_later config g since n needed true s2).
Qed.

Lemma panic_later config a l d : halted d → later d (sup_dr (on_panic config a l d)).
Proof.
  intros [Hs _]. unfold on_panic. cbv zeta. change (dr_control (upd_world _ d)) with (dr_control d). rewrite Hs.
  cbn. by apply later_world.
Qed.

Lemma sup_later config u : halted (sup_dr u) → later (sup_dr u) (sup_dr (sup_step config u)).
Proof.
  destruct u as [n backlog l d|n s|n ex l d]; cbn [sup_dr sup_step]; intros H; [| |done].
  - unfold thread_start. set (d1 := set_control _ d). assert (L : later d d1) by (by apply later_same; [|constructor|..]).
    pose proof (timeless (m := dl_open (dc_wab_dir config)) (dr_world d1)) as Ht.
    destruct (dl_open (dc_wab_dir config) (dr_world d1)) as [r w]. cbn [snd] in Ht. apply later_world in Ht.
    assert (L2 : later d (set_world w d1)) by by etrans. destruct r as [dl|e]; [exact L2|].
    etrans; [exact L2|]. apply panic_later. by eapply halted_later.
  - pose proof (step_later config s H) as L. destruct (drain_step config s) as [s1|r ab s1|s1]; cbn [step_dr] in L; [exact L| |].
    + unfold thread_exit. pose proof (timeless (m := retry_dispositions (dc_wab_dir config) (ls_ledger s1)) (dr_world (ls_dr s1))) as Ht.
      destruct (retry_dispositions _ _ _) as [l w]. cbn [snd] in Ht. etrans; [exact L|]. apply later_world. by destruct ab.
    + etrans; [exact L|]. apply panic_later. by eapply halted_later.
Qed.

Lemma sup_run_later config n u : halted (sup_dr u) → later (sup_dr u) (sup_dr (sup_run config n u)).
Proof.
  revert u. induction n as [|n IH]; intros u H; [done|]. rewrite sup_run_step. pose proof (sup_later config u H) as L.
  etrans; [exact L|]. apply IH. by eapply halted_later.
Qed.

Lemma halts config u : halted (sup_dr u) → is_done (sup_run config 4 u).
Proof.
  destruct u as [n backlog l d|n s|n ex l d]; cbn [sup_dr]; intros H; [|by apply running_halts|by apply done_stays].
  rewrite sup_run_step. cbn [sup_step]. unfold thread_start. set (d1 := set_control _ d).
  assert (L : later d d1) by (by apply later_same; [|constructor|..]).
  pose proof (timeless (m := dl_open (dc_wab_dir config)) (dr_world d1)) as Ht.
  destruct (dl_open (dc_wab_dir config) (dr_world d1)) as [r w]. cbn [snd] in Ht. apply later_world in Ht.
  apply (halted_later _ _ L), (halted_later _ _ Ht) in H. destruct r as [dl|e].
  - eapply done_more; [by apply draining_halts|lia].
  - apply done_stays. unfold on_panic. cbv zeta. change (dr_control (upd_world _ _)) with (dr_control (set_world w d1)).
    by rewrite (proj1 H).
Qed.

(** A commit that the sink leaves pending. *)
Lemma race_ends over d by_deadline d' :
  silent_race over d = (by_deadline, d') →
  instant_now d' ≤ Z.max (instant_now d) over ∧
  (∀ at_, deadline (dr_control d) = Some at_ → instant_now d' ≤ Z.max (instant_now d) at_) ∧
  (by_deadline = true ↔ instant_now d < over ∧ ∃ at_, deadline (dr_control d) = Some at_ ∧ at_ < over).
Proof.
  unfold silent_race, wait_until. destruct (Z.leb_spec over (instant_now d)).
  { intros [= <- <-]. split; [lia|]. split; [intros; lia|]. split; [done|intros; lia]. }
  destruct (deadline (dr_control d)) as [at_|]; [destruct (Z.ltb_spec at_ over)|]; intros [= <- <-];
    unfold instant_now in *; cbn; (split; [lia|]); (split; [intros ? [= <-]; lia || done|]).
  - split; [|done]. eauto.
  - split; [done|]. intros [_ (? & [= <-] & ?)]. lia.
  - split; [done|]. by intros [_ (? & ? & ?)].
Qed.
End Later.


(** ** Respawns *)

Section Respawns.
Context {CRC : Crc32} {ZS : Zstd} {SHA : Sha256} {SK : Sink}.
Implicit Types (s : LoopSt) (config : DrainConfig).

Definition never_gives_up (st : Step) : Prop :=
  match st with Exit reason _ _ => reason ≠ GaveUp | _ => True end.

Lemma attempt_never config g k r f s : never_gives_up (attempt_and_move g k r f config s).
Proof. unfold attempt_and_move. by repeat case_match. Qed.

Lemma after_backoff_never config g l dl n ca cut s : never_gives_up (after_backoff config g l dl n ca cut s).
Proof. unfold after_backoff. case_match; [apply attempt_never|done]. Qed.

Lemma draining_never config s : never_gives_up (draining_arm config s).
Proof.
  unfold draining_arm. destruct (stop_exit s) as [r|] eqn:E; [unfold stop_exit in E; by repeat case_match; simplify_eq|].
  repeat case_match; try done; apply attempt_never.
Qed.

Lemma backoff_never config g l dl n ca wt s : never_gives_up (backoff_pass config g l dl n ca wt s).
Proof. unfold backoff_pass. cbv zeta. repeat case_match; try done; apply after_backoff_never. Qed.

Lemma blocked_never config g since n needed s : never_gives_up (blocked_arm config g since n needed s).
Proof.
  assert (H : ∀ b s0, never_gives_up (after_block config g since n needed b s0)).
  { intros b s0. unfold after_block. by repeat case_match. }
  unfold blocked_arm. cbv zeta. repeat case_match; try done; apply H.
Qed.

Lemma step_never config s : never_gives_up (drain_step config s).
Proof.
  unfold drain_step. destruct (ls_state _) as [|g l dl n ca cut []|g n r|g n|g since n needed]; cbn.
  - apply draining_never.
  - case_match; [done|apply attempt_never].
  - case_match; [done|apply backoff_never].
  - unfold held_arm. by repeat case_match.
  - done.
  - apply blocked_never.
Qed.

Definition respawns_ok config (u : Supervisor) : Prop :=
  match u with
  | SupStarting a _ _ _ | SupRunning a _ => 0 ≤ a < dc_max_respawns config
  | SupDone a ex _ _ => 0 ≤ a ≤ dc_max_respawns config ∧ (de_reason ex = GaveUp → a = dc_max_respawns config)
  end.

Lemma panic_respawns config a l d : 0 ≤ a < dc_max_respawns config → respawns_ok config (on_panic config a l d).
Proof.
  intros H. unfold on_panic. cbv zeta. destruct (stop_requested _).
  - cbn. split; [lia|]. by case_match.
  - destruct (note_drain_panic l) as [o l']. destruct (Z.leb_spec (dc_max_respawns config) (a + 1)); cbn; lia.
Qed.

Lemma step_respawns config u : respawns_ok config u → respawns_ok config (sup_step config u).
Proof.
  destruct u as [a b l d|a s|a ex l d]; cbn [respawns_ok sup_step]; [| |done]; intros H.
  - destruct (thread_start _ _ _ _ _) as [[s|] d']; [done|by apply panic_respawns].
  - pose proof (step_never config s) as N. destruct (drain_step config s) as [s1|r ab s1|s1]; [done| |by apply panic_respawns].
    unfold thread_exit. destruct (retry_dispositions _ _ _) as [l w]. cbn in N |- *. split; [lia|done].
Qed.
End Respawns.

(** The panic budget: however the run goes, an incarnation of the drain runs only while
    fewer than [max_respawns] have panicked, so with the default of ten it is respawned at
    most nine times, and it gives up exactly at the panic that spends the budget. *)
Theorem drain_gives_up_at_budget {CRC : Crc32} {ZS : Zstd} {SHA : Sha256} {SK : Sink} config backlog d n :
  1 ≤ dc_max_respawns config →
  match sup_run config n (sup_start backlog d) with
  | SupStarting attempts _ _ _ | SupRunning attempts _ => 0 ≤ attempts < dc_max_respawns config
  | SupDone attempts exit _ _ =>
    0 ≤ attempts ≤ dc_max_respawns config ∧ (de_reason exit = GaveUp → attempts = dc_max_respawns config)
  end.
Proof.
  intros H. assert (H0 : respawns_ok config (sup_start backlog d)) by (cbn; lia).
  assert (Hn : respawns_ok config (sup_run config n (sup_start backlog d))); [|done].
  unfold sup_run. induction n as [|n IH]; [done|]. cbn. by apply step_respawns.
Qed.

Module StopWitness.
#[local] Existing Instance Crc32Ieee.ieee.
#[local] Existing Instance ZstdRaw.raw.
#[local] Existing Instance ShaPrefix.prefix.
#[local] Existing Instance PickySink.picky.
Import RecoveryWitness ScanWitness AccountWitness.

(** The drain holds a segment whose backoff is served, and the stop has no budget left. *)
Definition stopped : Dr := set_control (request_stop 0 0 (control_new Attached 0 0)) (start []).
Definition retrying : LoopSt :=
  mkLoopSt (RetryingTransient sealed1 2 (millis 100) 0 CauseSink false true) None (ledger_new 0) writer stopped []
    [sealed1] false false (mkRequeueService 0 None None) true 0 SHUTDOWN_RETRY_BACKOFF_BUDGET None.


(** A sink that never answers: the commit ends at the deadline, five seconds on, long
    before [commit_timeout]; without a deadline it ends at the timeout. *)
Module MuteSink.
#[export] Instance mute : Sink := {
  sink_state := unit; max_batch_size _ := 10; commit _ st := (Silent, st); health st := (Answered Healthy, st) }.
End MuteSink.

Example silent_commit_ends :
  let run c := commit_batch (SK := MuteSink.mute) None [bstr "x"] [bstr "id"] 0 config writer
                 (mkDr (SK := MuteSink.mute) (fresh_world []) tt c [] true [] []) in
  let ends c := let '(r, _, d) := run c in (r, instant_now (SK := MuteSink.mute) d) in
  ends (request_stop (secs 5) 0 (control_new Attached 0 0)) = (BatchAbandoned, secs 5) ∧
  ends (control_new Attached 0 0) = (BatchTransient None CauseSink None, secs 60).
Proof. by vm_compute. Qed.

(** A disk on which every call fails: the dead-letter writer never opens. *)
Definition dead_disk : list Fault := replicate 20 (FErr 0 OtherError).

Lemma drain_gives_up_at_budget_witness :
  match sup_run config 10 (sup_start [sealed1] (start dead_disk)) with
  | SupDone attempts exit _ _ => de_reason exit = GaveUp ∧ attempts = 10
  | _ => False
  end.
Proof.
  assert (G : match sup_run config 10 (sup_start [sealed1] (start dead_disk)) with
              | SupDone _ exit _ _ => de_reason exit = GaveUp
              | _ => False
              end) by (vm_compute; reflexivity).
  assert (B : 1 ≤ dc_max_respawns config) by (clear; by vm_compute).
  pose proof (drain_gives_up_at_budget config [sealed1] (start dead_disk) 10 B) as H.
  change (dc_max_respawns config) with 10 in H. revert G H.
  generalize (sup_run config 10 (sup_start [sealed1] (start dead_disk))) as u. clear.
  intros [a b l d|a s|a ex l d] G H; [destruct G|destruct G|].
  split; [exact G|]. apply H, G.
Defined.
End StopWitness.
