(* ===== verification/Durability.v ===== *)
(** * From the ack to the reader

    The components composed: a flusher acks a record, the machine crashes and restarts any
    number of times, recovery runs each time on a disk that may fail, and the segment
    reader of weir-wab reads the record back. *)

From Stdlib Require Import ZArith Lia Strings.Byte String.
From stdpp Require Import base gmap list option sets relations.
From S2P Require Import Prelude Deps Wire Text Names Io Fs Durable Format Reader Segment Handoff Flusher Recovery.

Section Durability.
Context {CRC : Crc32} {CL : Crc32Laws} {ZS : Zstd} {ZL : ZstdLaws}.

(** A crash, then the startup recovery of the next process. The fault tape, the clocks
    and the metrics of the new process are arbitrary, and so is recovery's result: a
    process that is killed half-way is one whose remaining system calls all fail. *)
Definition restart (wab : path) (shard_count : nat) (w w' : World) : Prop :=
  ∃ w0 r, crash (w_fs w) (w_fs w0) ∧ recover wab shard_count w0 = (r, w').

Lemma crash_wf s s' : fs_wf s → crash s s' → fs_wf s'.
Proof.
  intros Hwf (_ & _ & _ & Hf & Hnone & Hnext) i n' Hn'.
  destruct (fs_files s !! i) as [n|] eqn:E; [|by rewrite Hnone in Hn'].
  destruct (Hf i n E) as (n'' & Hn'' & _ & Hs & _). assert (n'' = n') as -> by congruence.
  rewrite Hnext, Hs. destruct (Hwf i n E). done.
Qed.

(** A durable segment is still one after a crash. *)
Lemma crash_segment s s' d k i c ss :
  segment_durable s d k i c ss → crash s s' → segment_durable s' d k i c ss.
Proof.
  intros (Hk & Hss & Hl & hb & hd & Hp & Hc & Hh) Hcr. split; [done|]. split; [done|]. split.
  - pose proof (crash_linked _ _ _ _ _ Hl Hcr) as He. destruct Hl as [H1 H2 H3 _ _ _].
    pose proof (crash_durable_dir _ _ _ H3 Hcr) as Hd. destruct Hcr as (_ & Hlive & Hpend & _).
    constructor; [done|done|done|done|by rewrite <-Hlive|by rewrite Hpend].
  - exists hb, hd. split; [done|]. split; [done|]. destruct Hh as (n & Hn & [x Hx]).
    destruct Hcr as (_ & _ & _ & Hf & _). destruct (Hf i n Hn) as (n' & Hn' & [t Ht] & Hs & _).
    exists n'. split; [done|]. unfold durable_prefix at 1. rewrite Hs, firstn_all, Ht, Hx, <-app_assoc.
    by eexists.
Qed.

Lemma restart_keeps wab n w w' :
  restart wab n w w' → fs_wf (w_fs w) →
  fs_wf (w_fs w') ∧ ∀ d k i c ss, d ≠ quarantine_dir wab →
    segment_durable (w_fs w) d k i c ss → segment_durable (w_fs w') d k i c ss.
Proof.
  intros (w0 & r & Hcr & Hrec) Hwf. pose proof (crash_wf _ _ Hwf Hcr) as Hwf0.
  destruct (recover_keeps _ _ _ _ _ Hrec Hwf0 Hwf0) as (Hwf' & _ & Hk). split; [done|].
  intros d k i c ss Hd Hs. apply Hk; [done|]. by eapply crash_segment.
Qed.

Lemma restarts_keep wab n w w' :
  rtc (restart wab n) w w' → fs_wf (w_fs w) →
  fs_wf (w_fs w') ∧ ∀ d k i c ss, d ≠ quarantine_dir wab →
    segment_durable (w_fs w) d k i c ss → segment_durable (w_fs w') d k i c ss.
Proof.
  induction 1 as [w|w1 w2 w3 H12 H23 IH]; intros Hwf; [done|].
  destruct (restart_keeps _ _ _ _ H12 Hwf) as [Hwf2 H2]. destruct (IH Hwf2) as [Hwf3 H3].
  split; [done|]. eauto.
Qed.

(** The segment reader of weir-wab, over the file, yields [payload] as item [j]. *)
Definition reads_back (data : bytes) (j : nat) (payload : bytes) : Prop :=
  ∃ r, segment_reader_open (Ok (mkStream data false)) = Ok r ∧ fst (sr_items r) !! j = Some (Ok payload).

Lemma stored_decode c ss : Forall (stored_rec c) ss → ∃ ps, Forall2 (stored_as c) ss ps.
Proof.
  induction 1 as [|x ss [Hx [p Hp]] _ [ps IH]]; [by exists []|]. exists (p :: ps). by constructor.
Qed.

Lemma segment_reads_back s d k i c ss j x p :
  segment_durable s d k i c ss → ss !! j = Some x → decode_stored c x = Some p →
  ∃ node, fs_files s !! i = Some node ∧ reads_back (f_data node) j p.
Proof.
  intros (_ & Hss & _ & hb & hd & Hh & Hc & Hhold) Hj Hp. pose proof Hhold as (n & Hn & _). exists n. split; [done|].
  eapply durably_holds_prefix in Hhold as [rest Hr]; [|done]. rewrite Hr, <-app_assoc.
  unfold reads_back. rewrite (segment_reader_open_Ok hb hd) by done. eexists. split; [done|].
  destruct (stored_decode _ _ Hss) as [ps Hps]. rewrite Hc, (sr_items_frames hd c ss ps) by done.
  destruct (sr_items (reader_at hd c rest false)) as [items r']. cbn [fst].
  destruct (Forall2_lookup_l _ _ _ _ _ Hps Hj) as (p' & Hp' & _ & Hd').
  apply lookup_app_l_Some. rewrite list_lookup_fmap, Hp'. cbn. congruence.
Qed.

(** What remains of an acked record: it is item [j] of the file found under the active or
    sealed name of segment [k] of the shard, which is what its coordinate says. *)
Definition delivered_from (s : Fs) (sw : ShardWriter) (u : WorkUnit) (slot : option RecordSlot) : Prop :=
  ∃ k i node j,
    seg_entry (fs_live s) (segment_path (sw_shard_dir sw) k)
      (sealed_path_for (segment_path (sw_shard_dir sw) k)) i ∧
    fs_files s !! i = Some node ∧ slot_at sw k j slot ∧ reads_back (f_data node) j (wu_payload u).

(** From the flusher's ack to the reader: a payload acked durable is read back by the segment
    reader, byte for byte and at the position its coordinate names, after any number of
    crashes and startup recoveries, for every interleaving of batches, wake-ups and
    clock readings, every fault the disk injects into the flusher or into recovery, and
    with or without compression. *)
Theorem durable_ack_is_readable cfg es sid d mb c lvl po q hint w u o wab n w' :
  fs_wf (w_fs w) → d ≠ [] → durable_dir (w_fs w) d → is_u16 sid → Forall fits (units q) → Forall fits_event es →
  d ≠ quarantine_dir wab →
  let t := flusher_run cfg (flusher_start sid d mb c lvl po q hint w) es in
  (u, o) ∈ fl_log (ft_state t) → ao_durable o = true → wu_durability u = Durable → fits u →
  rtc (restart wab n) (fl_world (ft_state t)) w' →
  delivered_from (w_fs w') (fl_writer (ft_state t)) u (ao_coordinate o).
Proof.
  intros Hwf Hd Hdd Hsid Hq Hes Hquar t Hin Ho Ht Hfit Hrt.
  assert (Hinv : thread_inv t) by (apply flusher_run_inv; [by apply flusher_start_inv|done]).
  destruct Hinv as [[ss [Hsw _ _ Hl]] _ _ _ _]. rewrite Forall_forall in Hl.
  destruct (Hl (u, o) Hin Ho Ht) as (k & i & ss' & j & x & _ & Hdur & Hj & Hx & Hs).
  destruct (restarts_keep _ _ _ _ Hrt (swi_wf _ _ _ Hsw)) as [_ Hk].
  assert (Hdir : sw_shard_dir (fl_writer (ft_state t)) = d) 
    by (etrans; [apply flusher_run_dir|apply flusher_start_dir]).
  apply Hk in Hdur; [|by rewrite Hdir].
  destruct (segment_reads_back _ _ _ _ _ _ _ _ (wu_payload u) Hdur Hj) as (node & Hn & Hr).
  { by apply stores_decode. }
  exists k, i, node, j. split; [|done]. destruct Hdur as (_ & _ & Hlk & _). apply (lk_live _ _ _ _ Hlk).
Qed.
End Durability.

(** ** Witnesses *)

Module DurabilityWitness.
#[local] Existing Instance Crc32Ieee.ieee.
#[local] Existing Instance ZstdRaw.raw.
#[local] Existing Instance Crc32Ieee.ieee_laws.
#[local] Existing Instance ZstdRaw.raw_laws.
Import FlusherWitness.

Definition wab_dir : path := [bstr "data"].

(** The flusher of [FlusherWitness] after its batch, and the machine after the worst crash. *)
Definition after_ack : World := fl_world (ft_state (flusher_run cfg start [EvWake 5])).
Definition rebooted : World := mkWorld (worst_crash (w_fs after_ack)) (λ _, 0) 9 0.

Lemma durable_ack_is_readable_witness :
  delivered_from (w_fs (snd (recover wab_dir 1 rebooted)))
    (fl_writer (ft_state (flusher_run cfg start [EvWake 5]))) unit_ (ao_coordinate outcome).
Proof.
  eapply (durable_ack_is_readable cfg [EvWake 5] 0 dir 1048576 CNone 3 port [mkBatch 0 [unit_]] 0 (fresh_world dir)
    unit_ outcome wab_dir 1).
  - by intros i n Hn.
  - done.
  - by apply (bool_decide_unpack _); vm_compute.
  - by vm_compute.
  - by repeat constructor.
  - by repeat constructor.
  - done.
  - apply (list_elem_of_lookup_2 _ 0%nat). by vm_compute.
  - done.
  - done.
  - by vm_compute.
  - apply rtc_once. destruct (recover wab_dir 1 rebooted) as [r w'] eqn:E. exists rebooted, r.
    split; [|exact E]. apply (worst_crash_crash (w_fs after_ack)).
Defined.

(** There recovery has sealed the segment. *)
Example recovery_sealed :
  fs_live (w_fs (snd (recover wab_dir 1 rebooted))) !! sealed_path_for (segment_path dir 1) = Some 1%positive.
Proof. vm_compute. reflexivity. Qed.
End DurabilityWitness.
