(* ===== verification/Queue.v ===== *)
(** * The work queue (weir-server, queue.rs)

    The partitioned queue between the connections and the workers of
    crates/weir-server/src/queue.rs, over the channels of Deps.v. The two halves share
    the sub-channels, so both are one state here; the strong count of the senders' [Arc]
    is a field of it. *)

From Stdlib Require Import ZArith Lia Strings.Byte String.
From stdpp Require Import base list list_numbers option relations.
From S2P Require Import Prelude Deps.

Definition QUEUE_CAPACITY : nat := Z.to_nat 65536.

Section Queue.
Context {CH : Channels} {T : Type}.

Record Queue := mkQueue { q_chans : list (chan T); q_senders : nat }.

(** [new] panics without a partition. *)
Definition queue_new (partitions : nat) : option Queue :=
  if (partitions =? 0)%nat then None else
  Some (mkQueue (replicate partitions (bounded (Nat.max (QUEUE_CAPACITY / partitions) 1))) 1).

Definition queue_len (q : Queue) : nat := sum_list_with chan_len (q_chans q).
Definition queue_is_empty (q : Queue) : bool := forallb (λ c, (chan_len c =? 0)%nat) (q_chans q).
Definition queue_partitions (q : Queue) : nat := length (q_chans q).
Definition live_senders (q : Queue) : nat := q_senders q.

(** [self.txs[partition_key % self.txs.len()]], sent to by [send]: a failed send returns the
    unit. [None] is the panic of a remainder by zero. *)
Definition push_with (send : chan T → T → result (chan T) T) (partition_key : nat) (u : T) (q : Queue)
    : option (result Queue T) :=
  let idx := (partition_key mod length (q_chans q))%nat in
  c ← q_chans q !! idx;
  Some match send c u with
       | Ok c => Ok (mkQueue (<[idx := c]> (q_chans q)) (q_senders q))
       | Err u => Err u
       end.
Definition try_push : nat → T → Queue → option (result Queue T) := push_with try_send.
Definition push_timeout (timeout : Z) : nat → T → Queue → option (result Queue T) :=
  push_with (send_timeout timeout).

(** [Clone] and [Drop] of a sender. *)
Definition sender_clone (q : Queue) : Queue := mkQueue (q_chans q) (S (q_senders q)).
Definition sender_drop (q : Queue) : Queue := mkQueue (q_chans q) (q_senders q - 1).

(** A receive on the receiver that [get] hands to one worker. *)
Inductive Received := Got (u : T) | Empty | Disconnected.
Definition queue_recv (partition : nat) (q : Queue) : option (Received * Queue) :=
  c ← q_chans q !! partition;
  Some match try_recv c with
       | Some (u, c) => (Got u, mkQueue (<[partition := c]> (q_chans q)) (q_senders q))
       | None => (if (q_senders q =? 0)%nat then Disconnected else Empty, q)
       end.
End Queue.
Arguments Queue {CH} T.
Arguments Received T : clear implicits.

(** ** Proofs *)

Section QueueProofs.
Context {CH : Channels} {CHL : ChannelLaws} {T : Type}.
Implicit Types q : Queue T.

(** What has gone through the queue: the accepted pushes in order, each with its key, and
    what every partition's receiver has been given. *)
Record History := mkHistory { h_pushed : list (nat * T); h_received : nat → list T }.
Definition no_history : History := mkHistory [] (λ _, []).

(** The operations of the producers and of the workers, in any order. *)
Inductive queue_step : Queue T * History → Queue T * History → Prop :=
| qs_try_push key u q q' h :
    try_push key u q = Some (Ok q') →
    queue_step (q, h) (q', mkHistory (h_pushed h ++ [(key, u)]) (h_received h))
| qs_push_timeout d key u q q' h :
    push_timeout d key u q = Some (Ok q') →
    queue_step (q, h) (q', mkHistory (h_pushed h ++ [(key, u)]) (h_received h))
| qs_recv p u q q' h :
    queue_recv p q = Some (Got u, q') →
    queue_step (q, h) (q', mkHistory (h_pushed h)
      (λ p', if decide (p' = p) then h_received h p' ++ [u] else h_received h p'))
| qs_clone q h : queue_step (q, h) (sender_clone q, h)
| qs_drop q h : queue_step (q, h) (sender_drop q, h).

(** The units pushed to partition [p] of [n]. *)
Definition pushed_to (n p : nat) (l : list (nat * T)) : list T :=
  snd <$> filter (λ x, x.1 mod n = p)%nat l.

Record queue_inv (n : nat) (s : Queue T * History) : Prop := {
  qi_length : length (q_chans s.1) = n;
  qi_capacity c : c ∈ q_chans s.1 →
    capacity c = Nat.max (QUEUE_CAPACITY / n) 1 ∧ (length (contents c) ≤ capacity c)%nat;
  qi_fifo p c : q_chans s.1 !! p = Some c →
    pushed_to n p (h_pushed s.2) = h_received s.2 p ++ contents c;
}.

Lemma pushed_to_snoc n p l key u :
  pushed_to n p (l ++ [(key, u)]) = pushed_to n p l ++ (if decide (key mod n = p)%nat then [u] else []).
Proof.
  unfold pushed_to. rewrite filter_app, fmap_app. f_equal.
  rewrite filter_cons, filter_nil. cbn. by destruct (decide _).
Qed.

Lemma queue_new_inv n q : queue_new n = Some q → queue_inv n (q, no_history).
Proof.
  unfold queue_new. destruct (n =? 0)%nat; [done|]. intros [= <-].
  constructor; cbn [fst snd q_chans h_pushed h_received].
  - apply length_replicate.
  - intros c [-> _]%elem_of_replicate. destruct (bounded_spec (T := T) (Nat.max (QUEUE_CAPACITY / n) 1)) as [-> ->].
    cbn. split; [done|lia].
  - intros p c [-> _]%lookup_replicate. by destruct (bounded_spec (T := T) (Nat.max (QUEUE_CAPACITY / n) 1)) as [-> _].
Qed.

(** A send that keeps the channel laws. *)
Definition fifo_send (send : chan T → T → result (chan T) T) : Prop :=
  ∀ c c' u, send c u = Ok c' →
    contents c' = contents c ++ [u] ∧ capacity c' = capacity c ∧ (length (contents c) < capacity c)%nat.

Lemma push_with_inv send key u n q q' h :
  fifo_send send → push_with send key u q = Some (Ok q') → queue_inv n (q, h) →
  queue_inv n (q', mkHistory (h_pushed h ++ [(key, u)]) (h_received h)).
Proof.
  intros Hsend H [Hlen Hcap Hfifo]. cbn [fst snd] in *. unfold push_with in H. rewrite Hlen in H.
  destruct (q_chans q !! _) as [c|] eqn:Hc; [|done]. cbn in H.
  destruct (send c u) as [c'|] eqn:Hs; [|done]. injection H as <-.
  destruct (Hsend _ _ _ Hs) as (Hcont & Hcap' & Hroom).
  constructor; cbn [fst snd q_chans h_pushed h_received].
  - by rewrite length_insert.
  - intros c2 [p Hp]%list_elem_of_lookup_1. apply list_lookup_insert_Some in Hp as [(<- & <- & _)|[_ Hp]].
    + rewrite Hcap', Hcont, length_app. apply list_elem_of_lookup_2, Hcap in Hc as [? _]. cbn [length]. split; [done|lia].
    + by apply list_elem_of_lookup_2, Hcap in Hp.
  - intros p c2 Hp. rewrite pushed_to_snoc.
    apply list_lookup_insert_Some in Hp as [(<- & <- & _)|[Hne Hp]].
    + rewrite decide_True by done. by rewrite (Hfifo _ _ Hc), Hcont, app_assoc.
    + rewrite decide_False by done. by rewrite app_nil_r, (Hfifo _ _ Hp).
Qed.

Lemma queue_recv_inv p u n q q' h :
  queue_recv p q = Some (Got u, q') → queue_inv n (q, h) →
  queue_inv n (q', mkHistory (h_pushed h)
    (λ p', if decide (p' = p) then h_received h p' ++ [u] else h_received h p')).
Proof.
  intros H [Hlen Hcap Hfifo]. cbn [fst snd] in *. unfold queue_recv in H.
  destruct (q_chans q !! p) as [c|] eqn:Hc; [|done]. cbn in H.
  destruct (try_recv c) as [[u' c']|] eqn:Hr; [|by destruct (q_senders q =? 0)%nat].
  injection H as -> <-. apply try_recv_Some in Hr as [Hcont Hcap'].
  constructor; cbn [fst snd q_chans h_pushed h_received].
  - by rewrite length_insert.
  - intros c2 [k Hk]%list_elem_of_lookup_1. apply list_lookup_insert_Some in Hk as [(<- & <- & _)|[_ Hk]].
    + rewrite Hcap'. apply list_elem_of_lookup_2, Hcap in Hc as [? Hl]. rewrite Hcont in Hl. cbn [length] in Hl.
      split; [done|lia].
    + by apply list_elem_of_lookup_2, Hcap in Hk.
  - intros k c2 Hk. apply list_lookup_insert_Some in Hk as [(<- & <- & _)|[Hne Hk]].
    + rewrite decide_True by done. by rewrite (Hfifo _ _ Hc), Hcont, <-app_assoc.
    + rewrite decide_False by done. by apply Hfifo.
Qed.

Lemma queue_step_inv n s s' : queue_step s s' → queue_inv n s → queue_inv n s'.
Proof.
  destruct 1 as [key u q q' h H|d key u q q' h H|p u q q' h H|q h|q h].
  - eapply push_with_inv; [|exact H]. intros c c' u'. apply try_send_Ok.
  - eapply push_with_inv; [|exact H]. intros c c' u'. apply send_timeout_Ok.
  - by apply queue_recv_inv.
  - by intros [? ? ?].
  - by intros [? ? ?].
Qed.

Lemma queue_steps_inv n s s' : rtc queue_step s s' → queue_inv n s → queue_inv n s'.
Proof. induction 1; eauto using queue_step_inv. Qed.

Lemma sum_list_with_bound {A} (f : A → nat) b (l : list A) :
  (∀ x, x ∈ l → (f x ≤ b)%nat) → (sum_list_with f l ≤ length l * b)%nat.
Proof.
  induction l as [|x l IH]; intros H; cbn; [lia|].
  pose proof (H x ltac:(set_solver)). pose proof (IH ltac:(set_solver)). lia.
Qed.

(** However the producers and workers interleave, the queue never holds more than its
    total capacity (one unit per partition when there are more partitions than slots). *)
Theorem queue_len_bounded n q0 q h :
  queue_new n = Some q0 → rtc queue_step (q0, no_history) (q, h) →
  (queue_len q ≤ Nat.max QUEUE_CAPACITY n)%nat.
Proof.
  intros H0 Hr. destruct (queue_steps_inv n _ _ Hr (queue_new_inv _ _ H0)) as [Hlen Hcap _]. cbn [fst] in *.
  etrans; [apply (sum_list_with_bound _ (Nat.max (QUEUE_CAPACITY / n) 1))|].
  - intros c [<- Hc]%Hcap. by rewrite chan_len_spec.
  - rewrite Hlen. destruct (decide (n = 0)%nat) as [->|Hn]; [lia|].
    pose proof (Nat.Div0.mul_div_le QUEUE_CAPACITY n). destruct (Nat.max_spec (QUEUE_CAPACITY / n) 1); nia.
Qed.
End QueueProofs.
Arguments History T : clear implicits.
