(* ===== verification/Worker.v ===== *)
(** * The workers (weir-server, worker.rs)

    One worker thread of crates/weir-server/src/worker.rs: its per-shard buffers, the
    wait-free drain, the coalesce window and the flush to the flushers' channels. The loop
    is a machine with the loop's program points as control states, fed with what each
    receive returns and what the clock and the shared latency hint read at that moment.
    Core pinning, priorities and page warm-up are not modelled. *)

From Stdlib Require Import ZArith Lia Strings.Byte String.
From stdpp Require Import base list list_numbers option relations.
From S2P Require Import Prelude Deps Wire Flusher Queue.

Definition is_fsync_tier (d : Durability) : bool := match d with Durable => true | Buffered => false end.
Definition COALESCE_MIN_US : Z := 50.
Definition COALESCE_MAX_US : Z := 2000.

(** The coalesce window in nanoseconds: the clamped hint. *)
Definition coalesce_window_ns (hint_us : Z) : Z :=
  Z.min (Z.max hint_us COALESCE_MIN_US) COALESCE_MAX_US * 1000.

(** [wk_shard_txs]: what has been sent to each flusher's channel, and whether its receiver
    was still there to take it. *)
Record Worker := mkWorker {
  wk_buffers : list (list WorkUnit);
  wk_batch_size : nat;
  wk_shard_txs : list (list (Batch * bool));
}.

Definition worker_new (shard_count batch_size : nat) : Worker :=
  mkWorker (replicate shard_count []) batch_size (replicate shard_count []).

(** One receive on the partition: the clock and the hint as the worker reads them, and the
    result ([Empty] is an empty [try_recv] or a [recv_timeout] that timed out). *)
Record Recv := mkRecv { rv_now : Z; rv_hint : Z; rv_out : Received WorkUnit }.

(** Where the loop of [run] stands: at the outer receive, in the wait-free drain, in the
    coalesce window, or past the loop. *)
Inductive Control :=
| AtRecv (expect_concurrent : bool)
| Draining (expect_concurrent : bool) (window : Z) (has_fsync_tier : bool) (total_drained : nat)
| Coalescing (deadline : Z) (total_drained : nat)
| Exited.

#[global] Instance control_eq_dec : EqDecision Control.
Proof. solve_decision. Defined.

Section Worker.
(** Whether the receiver of a shard's channel takes the [k]-th batch sent to it. *)
Context (taken : nat → nat → bool).

(** [None]: an index out of range panics. *)
Definition flush_shard (shard : nat) (wk : Worker) : option Worker :=
  records ← wk_buffers wk !! shard;
  match records with
  | [] => Some wk
  | _ =>
    log ← wk_shard_txs wk !! shard;
    Some (mkWorker (<[shard := []]> (wk_buffers wk)) (wk_batch_size wk)
      (<[shard := log ++ [(mkBatch (Z.of_nat shard mod 2 ^ 32) records, taken shard (length log))]]>
         (wk_shard_txs wk)))
  end.

(** [for shard in 0..self.buffers.len()]. *)
Fixpoint flush_shards (shards : list nat) (wk : Worker) : option Worker :=
  match shards with
  | [] => Some wk
  | s :: shards => wk ← flush_shard s wk; flush_shards shards wk
  end.
Definition flush_all (wk : Worker) : option Worker := flush_shards (seq 0 (length (wk_buffers wk))) wk.

(** The lines that buffer a unit, the same in all three phases. *)
Definition accept (u : WorkUnit) (wk : Worker) : option Worker :=
  if (length (wk_buffers wk) =? 0)%nat then None else
  let shard := (Z.to_nat (wu_shard_id u) mod length (wk_buffers wk))%nat in
  buf ← wk_buffers wk !! shard;
  let buf := buf ++ [u] in
  let wk := mkWorker (<[shard := buf]> (wk_buffers wk)) (wk_batch_size wk) (wk_shard_txs wk) in
  if (wk_batch_size wk <=? length buf)%nat then flush_shard shard wk else Some wk.

(** The end of an iteration: the prediction for the next one and the flush. *)
Definition end_iteration (total_drained : nat) (wk : Worker) : option (Worker * Control) :=
  wk ← flush_all wk; Some (wk, AtRecv (2 <=? total_drained)%nat).

(** [work_rx.recv_timeout(batch_deadline)]. *)
Definition at_recv (e : Recv) (wk : Worker) (expect_concurrent : bool) : option (Worker * Control) :=
  match rv_out e with
  | Got u =>
    wk ← accept u wk;
    Some (wk, Draining expect_concurrent (coalesce_window_ns (rv_hint e)) (is_fsync_tier (wu_durability u)) 1)
  | Empty => wk ← flush_all wk; Some (wk, AtRecv false)
  | Disconnected => wk ← flush_all wk; Some (wk, Exited)
  end.

(** The step from one receive to the next. The window's deadline is set once, when the
    drain runs dry; a worker that finds it past goes back to the outer receive. *)
Definition worker_step (s : Worker * Control) (e : Recv) : option (Worker * Control) :=
  let '(wk, ctl) := s in
  match ctl with
  | Exited => Some s
  | AtRecv expect => at_recv e wk expect
  | Draining expect window has_fsync total =>
    match rv_out e with
    | Got u =>
      wk ← accept u wk;
      Some (wk, Draining expect window (has_fsync || is_fsync_tier (wu_durability u)) (S total))
    | _ => if expect && has_fsync then Some (wk, Coalescing (rv_now e + window) total)
           else end_iteration total wk
    end
  | Coalescing deadline total =>
    if Z.max 0 (deadline - rv_now e) =? 0 then
      '(wk, ctl) ← end_iteration total wk;
      match ctl with AtRecv expect => at_recv e wk expect | _ => None end
    else
      match rv_out e with
      | Got u => wk ← accept u wk; Some (wk, Coalescing deadline (S total))
      | _ => end_iteration total wk
      end
  end.

Fixpoint worker_run (s : Worker * Control) (es : list Recv) : option (Worker * Control) :=
  match es with
  | [] => Some s
  | e :: es => s ← worker_step s e; worker_run s es
  end.

(** The units the worker gets: a worker that has exited receives no more. *)
Definition got (r : Received WorkUnit) : list WorkUnit := match r with Got u => [u] | _ => [] end.
Fixpoint received (s : Worker * Control) (es : list Recv) : list WorkUnit :=
  match es, s.2 with
  | [], _ | _, Exited => []
  | e :: es, _ => got (rv_out e) ++ from_option (λ s, received s es) [] (worker_step s e)
  end.

(** [Worker::new(...).run(...)] up to the last of the receives [es]. *)
Definition worker_main (shard_count batch_size : nat) (es : list Recv) : option (Worker * Control) :=
  worker_run (worker_new shard_count batch_size, AtRecv false) es.
End Worker.

(** ** Proofs *)

Section WorkerProofs.
Context (taken : nat → nat → bool) (n bs : nat).
Context (Hn : n ≠ 0%nat).

(** The shard a unit goes to, and the units of one shard. *)
Definition shard_of (u : WorkUnit) : nat := (Z.to_nat (wu_shard_id u) mod n)%nat.
Definition of_shard (s : nat) (us : list WorkUnit) : list WorkUnit := filter (λ u, shard_of u = s) us.

(** What a flusher's channel was sent, in order. *)
Definition sent_records (log : list (Batch * bool)) : list WorkUnit := concat (map (λ x, b_records x.1) log).

Definition batch_ok (s : nat) (x : Batch * bool) : Prop :=
  b_shard_id x.1 = Z.of_nat s mod 2 ^ 32 ∧ (1 ≤ length (b_records x.1) ≤ Nat.max bs 1)%nat.

(** Shard [s] after the units [us]: sent and buffered together they are the shard's units in
    order, the batches are within bounds and the buffer is not due. *)
Definition shard_ok (us : list WorkUnit) (s : nat) (buf : list WorkUnit) (log : list (Batch * bool)) : Prop :=
  sent_records log ++ buf = of_shard s us ∧ Forall (batch_ok s) log ∧ (length buf < Nat.max bs 1)%nat.

Record worker_inv (us : list WorkUnit) (wk : Worker) : Prop := {
  wi_buffers : length (wk_buffers wk) = n;
  wi_txs : length (wk_shard_txs wk) = n;
  wi_batch_size : wk_batch_size wk = bs;
  wi_shards s buf log : wk_buffers wk !! s = Some buf → wk_shard_txs wk !! s = Some log → shard_ok us s buf log;
}.

Lemma worker_new_inv : worker_inv [] (worker_new n bs).
Proof.
  constructor; cbn; try apply length_replicate; [done|].
  intros s buf log [-> _]%lookup_replicate [-> _]%lookup_replicate. repeat split; [constructor|cbn; lia].
Qed.

Lemma worker_shard us wk s :
  worker_inv us wk → (s < n)%nat →
  ∃ buf log, wk_buffers wk !! s = Some buf ∧ wk_shard_txs wk !! s = Some log ∧ shard_ok us s buf log.
Proof.
  intros [Hb Ht _ Hs] Hlt. destruct (lookup_lt_is_Some_2 (wk_buffers wk) s ltac:(lia)) as [buf Hbuf].
  destruct (lookup_lt_is_Some_2 (wk_shard_txs wk) s ltac:(lia)) as [log Hlog]. eauto 6.
Qed.

(** One shard changes. *)
Lemma worker_inv_update us us' wk s0 buf' log' :
  worker_inv us wk → (∀ s, s ≠ s0 → of_shard s us' = of_shard s us) → shard_ok us' s0 buf' log' →
  worker_inv us' (mkWorker (<[s0 := buf']> (wk_buffers wk)) (wk_batch_size wk) (<[s0 := log']> (wk_shard_txs wk))).
Proof.
  intros [Hb Ht Hbs Hs] Hne Hok. constructor; cbn [wk_buffers wk_batch_size wk_shard_txs].
  - by rewrite length_insert.
  - by rewrite length_insert.
  - done.
  - intros s buf log Hbuf Hlog. destruct (decide (s = s0)) as [->|Hs0].
    + rewrite list_lookup_insert_eq in Hbuf by (apply lookup_lt_Some in Hbuf; by rewrite length_insert in Hbuf).
      rewrite list_lookup_insert_eq in Hlog by (apply lookup_lt_Some in Hlog; by rewrite length_insert in Hlog).
      by simplify_eq.
    + rewrite list_lookup_insert_ne in Hbuf by done. rewrite list_lookup_insert_ne in Hlog by done. unfold shard_ok. rewrite Hne by done. by apply Hs.
Qed.

Lemma sent_records_snoc log b t : sent_records (log ++ [(b, t)]) = sent_records log ++ b_records b.
Proof. unfold sent_records. rewrite map_app, concat_app. cbn. by rewrite app_nil_r. Qed.

(** A buffer of an admissible size is flushed. *)
Lemma shard_ok_flush us s buf log t :
  sent_records log ++ buf = of_shard s us → Forall (batch_ok s) log →
  (1 ≤ length buf ≤ Nat.max bs 1)%nat →
  shard_ok us s [] (log ++ [(mkBatch (Z.of_nat s mod 2 ^ 32) buf, t)]).
Proof.
  intros Heq Hf Hl. split; [|split].
  - by rewrite sent_records_snoc, app_nil_r.
  - apply Forall_app_2; [done|]. constructor; [by split|constructor].
  - cbn. lia.
Qed.

Lemma flush_shard_inv us wk s :
  worker_inv us wk → (s < n)%nat →
  ∃ wk', flush_shard taken s wk = Some wk' ∧ worker_inv us wk' ∧ wk_buffers wk' !! s = Some [] ∧
    (∀ s', wk_buffers wk !! s' = Some [] → wk_buffers wk' !! s' = Some []).
Proof.
  intros Hi Hlt. destruct (worker_shard us wk s Hi Hlt) as (buf & log & Hb & Hl & Heq & Hf & Hlen).
  unfold flush_shard. rewrite Hb. cbn [mbind option_bind]. destruct buf as [|u buf]; [by exists wk|].
  rewrite Hl. cbn [mbind option_bind]. eexists. split; [done|]. split; [|cbn [wk_buffers]; split].
  - apply (worker_inv_update us); [done..|]. apply shard_ok_flush; [done..|]. cbn [length] in *. lia.
  - apply list_lookup_insert_eq. by eapply lookup_lt_Some.
  - intros s' Hs'. destruct (decide (s' = s)) as [->|]; [congruence|]. by rewrite list_lookup_insert_ne.
Qed.

Lemma flush_shards_inv us ss wk :
  worker_inv us wk → Forall (λ s, s < n)%nat ss →
  ∃ wk', flush_shards taken ss wk = Some wk' ∧ worker_inv us wk' ∧
    (∀ s, s ∈ ss ∨ wk_buffers wk !! s = Some [] → wk_buffers wk' !! s = Some []).
Proof.
  intros Hi Hss. revert wk Hi. induction Hss as [|s ss Hs _ IH]; intros wk Hi; cbn [flush_shards].
  { exists wk. split; [done|]. split; [done|]. intros s [?%elem_of_nil|?]; done. }
  destruct (flush_shard_inv us wk s Hi Hs) as (wk1 & -> & Hi1 & He & Hk). cbn [mbind option_bind].
  destruct (IH wk1 Hi1) as (wk2 & -> & Hi2 & Hall). exists wk2. split; [done|]. split; [done|].
  intros s' [[->|?]%elem_of_cons|?]; auto.
Qed.

Lemma flush_all_inv us wk :
  worker_inv us wk →
  ∃ wk', flush_all taken wk = Some wk' ∧ worker_inv us wk' ∧ (∀ s, (s < n)%nat → wk_buffers wk' !! s = Some []).
Proof.
  intros Hi. unfold flush_all. rewrite (wi_buffers _ _ Hi).
  destruct (flush_shards_inv us (seq 0 n) wk Hi) as (wk' & H & Hi' & Hall).
  { apply Forall_forall. intros s Hs%elem_of_seq. lia. }
  exists wk'. split; [done|]. split; [done|]. intros s Hs. apply Hall. left. apply elem_of_seq. lia.
Qed.

Lemma of_shard_snoc s us u : of_shard s (us ++ [u]) = of_shard s us ++ (if decide (shard_of u = s) then [u] else []).
Proof.
  unfold of_shard. rewrite filter_app. f_equal.
Qed.

Lemma accept_inv us wk u :
  worker_inv us wk → ∃ wk', accept taken u wk = Some wk' ∧ worker_inv (us ++ [u]) wk'.
Proof.
  intros Hi. unfold accept. rewrite (wi_buffers _ _ Hi). destruct (Nat.eqb_spec n 0) as [?|_]; [done|].
  fold (shard_of u). assert (Hlt : (shard_of u < n)%nat) by (by apply Nat.mod_upper_bound).
  destruct (worker_shard us wk _ Hi Hlt) as (buf & log & Hb & Hl & Heq & Hf & Hlen).
  rewrite Hb. cbn [mbind option_bind wk_batch_size]. rewrite (wi_batch_size _ _ Hi).
  assert (Heq' : sent_records log ++ buf ++ [u] = of_shard (shard_of u) (us ++ [u])).
  { by rewrite of_shard_snoc, decide_True, app_assoc, Heq by done. }
  assert (Hne : ∀ s, s ≠ shard_of u → of_shard s (us ++ [u]) = of_shard s us).
  { intros s Hs. by rewrite of_shard_snoc, decide_False, app_nil_r by done. }
  destruct (Nat.leb_spec bs (length (buf ++ [u]))) as [Hfull|Hroom].
  - unfold flush_shard. cbn [wk_buffers wk_shard_txs].
    rewrite list_lookup_insert_eq by (by eapply lookup_lt_Some). cbn [mbind option_bind].
    destruct (buf ++ [u]) as [|x l] eqn:Ebu; [by destruct buf|]. rewrite <-Ebu in *. rewrite Hl.
    cbn [mbind option_bind wk_batch_size]. eexists. split; [done|].
    rewrite list_insert_insert_eq, <-(wi_batch_size _ _ Hi).
    apply (worker_inv_update us); [done..|]. apply shard_ok_flush; [done..|].
    rewrite length_app in *. cbn [length] in *. lia.
  - eexists. split; [done|]. rewrite <-(list_insert_id (wk_shard_txs wk) (shard_of u) log Hl), <-(wi_batch_size _ _ Hi).
    apply (worker_inv_update us); [done..|]. split; [done|]. split; [done|]. lia.
Qed.

(** The machine: between iterations nothing is buffered. *)
Definition control_ok (s : Worker * Control) : Prop :=
  match s.2 with
  | AtRecv _ | Exited => ∀ k, (k < n)%nat → wk_buffers s.1 !! k = Some []
  | Draining _ window _ _ => COALESCE_MIN_US * 1000 ≤ window ≤ COALESCE_MAX_US * 1000
  | Coalescing _ _ => True
  end.

Lemma coalesce_window_range hint : COALESCE_MIN_US * 1000 ≤ coalesce_window_ns hint ≤ COALESCE_MAX_US * 1000.
Proof. unfold coalesce_window_ns, COALESCE_MIN_US, COALESCE_MAX_US. lia. Qed.

Lemma end_iteration_inv us total wk :
  worker_inv us wk →
  ∃ wk' b, end_iteration taken total wk = Some (wk', AtRecv b) ∧ worker_inv us wk' ∧ control_ok (wk', AtRecv b).
Proof.
  intros Hi. unfold end_iteration. destruct (flush_all_inv us wk Hi) as (wk' & -> & Hi' & He).
  exists wk'. eexists. done.
Qed.

Lemma at_recv_inv us e wk expect :
  worker_inv us wk →
  ∃ s', at_recv taken e wk expect = Some s' ∧ worker_inv (us ++ got (rv_out e)) s'.1 ∧ control_ok s'.
Proof.
  intros Hi. unfold at_recv. destruct (rv_out e) as [u| |]; cbn [got]; rewrite ?app_nil_r.
  - destruct (accept_inv us wk u Hi) as (wk' & -> & Hi'). eexists. split; [done|]. split; [done|].
    apply coalesce_window_range.
  - destruct (flush_all_inv us wk Hi) as (wk' & -> & Hi' & He). by eexists.
  - destruct (flush_all_inv us wk Hi) as (wk' & -> & Hi' & He). by eexists.
Qed.

Lemma worker_step_inv us s e :
  worker_inv us s.1 → control_ok s → s.2 ≠ Exited →
  ∃ s', worker_step taken s e = Some s' ∧ worker_inv (us ++ got (rv_out e)) s'.1 ∧ control_ok s'.
Proof.
  destruct s as [wk ctl]. cbn [fst snd]. intros Hi Hc Hex.
  destruct ctl as [expect|expect window hf total|deadline total|]; [by apply at_recv_inv| | |done].
  - cbn [worker_step]. destruct (rv_out e) as [u| |]; cbn [got]; rewrite ?app_nil_r.
    + destruct (accept_inv us wk u Hi) as (wk' & -> & Hi'). by eexists.
    + destruct (expect && hf); [by eexists|].
      destruct (end_iteration_inv us total wk Hi) as (wk' & b & -> & Hi' & Hc'). by eexists.
    + destruct (expect && hf); [by eexists|].
      destruct (end_iteration_inv us total wk Hi) as (wk' & b & -> & Hi' & Hc'). by eexists.
  - cbn [worker_step]. destruct (Z.max 0 (deadline - rv_now e) =? 0).
    + destruct (end_iteration_inv us total wk Hi) as (wk' & b & -> & Hi' & _). by apply at_recv_inv.
    + destruct (rv_out e) as [u| |]; cbn [got]; rewrite ?app_nil_r.
      * destruct (accept_inv us wk u Hi) as (wk' & -> & Hi'). by eexists.
      * destruct (end_iteration_inv us total wk Hi) as (wk' & b & -> & Hi' & Hc'). by eexists.
      * destruct (end_iteration_inv us total wk Hi) as (wk' & b & -> & Hi' & Hc'). by eexists.
Qed.

Lemma worker_run_inv us s es :
  worker_inv us s.1 → control_ok s →
  ∃ s', worker_run taken s es = Some s' ∧ worker_inv (us ++ received taken s es) s'.1 ∧ control_ok s'.
Proof.
  revert us s. induction es as [|e es IH]; intros us s Hi Hc.
  { exists s. destruct s. cbn. by rewrite app_nil_r. }
  destruct (decide (s.2 = Exited)) as [Hex|Hex].
  - destruct s as [wk ctl]. cbn in Hex. subst. cbn [worker_run worker_step mbind option_bind].
    destruct (IH us (wk, Exited) Hi Hc) as (s' & -> & Hi' & Hc'). exists s'. split; [done|]. split; [|done].
    destruct es; exact Hi'.
  - destruct (worker_step_inv us s e Hi Hc Hex) as (s1 & Hs & Hi1 & Hc1).
    destruct (IH _ s1 Hi1 Hc1) as (s2 & H2 & Hi2 & Hc2). exists s2. cbn [worker_run]. rewrite Hs.
    split; [done|]. split; [|done]. cbn [received]. rewrite Hs. destruct s as [wk []]; cbn [snd] in *; try done;
      cbn [from_option]; by rewrite app_assoc.
Qed.

(** *** What has been sent stays sent *)

Definition txs_grow (wk wk' : Worker) : Prop :=
  ∀ s log, wk_shard_txs wk !! s = Some log → ∃ k, wk_shard_txs wk' !! s = Some (log ++ k).

#[local] Instance txs_grow_preorder : PreOrder txs_grow.
Proof.
  split.
  - intros wk s log H. exists []. by rewrite app_nil_r.
  - intros w1 w2 w3 H1 H2 s log H. destruct (H1 _ _ H) as [k Hk]. destruct (H2 _ _ Hk) as [k' Hk'].
    exists (k ++ k'). by rewrite app_assoc.
Qed.

Lemma flush_shard_grow s wk wk' : flush_shard taken s wk = Some wk' → txs_grow wk wk'.
Proof.
  unfold flush_shard. destruct (wk_buffers wk !! s) as [[|u buf]|]; cbn [mbind option_bind]; [|destruct (wk_shard_txs wk !! s) as [log|] eqn:E|]; cbn [mbind option_bind]; intros [= <-]; [reflexivity|].
  intros s' log' H. cbn. destruct (decide (s' = s)) as [->|].
  - rewrite list_lookup_insert_eq by (by eapply lookup_lt_Some). simplify_eq. by eexists.
  - rewrite list_lookup_insert_ne by done. exists []. by rewrite app_nil_r.
Qed.

Lemma flush_shards_grow ss wk wk' : flush_shards taken ss wk = Some wk' → txs_grow wk wk'.
Proof.
  revert wk. induction ss as [|s ss IH]; intros wk; cbn [flush_shards]; [intros [= <-]; reflexivity|].
  destruct (flush_shard taken s wk) as [wk1|] eqn:E; [|done]. cbn [mbind option_bind]. intros H.
  etrans; [by eapply flush_shard_grow|by apply IH].
Qed.

Lemma accept_grow u wk wk' : accept taken u wk = Some wk' → txs_grow wk wk'.
Proof.
  unfold accept. destruct (_ =? 0)%nat; [done|]. destruct (wk_buffers wk !! _) as [buf|]; [|done].
  cbn [mbind option_bind]. destruct (_ <=? _)%nat; [intros H%flush_shard_grow; exact H|intros [= <-] s log Hl; exists []; by rewrite app_nil_r].
Qed.

Lemma at_recv_grow e wk expect s' : at_recv taken e wk expect = Some s' → txs_grow wk s'.1.
Proof.
  unfold at_recv. destruct (rv_out e) as [u| |].
  - destruct (accept taken u wk) eqn:E; [|done]. intros [= <-]. by eapply accept_grow.
  - destruct (flush_all taken wk) eqn:E; [|done]. intros [= <-]. by eapply flush_shards_grow.
  - destruct (flush_all taken wk) eqn:E; [|done]. intros [= <-]. by eapply flush_shards_grow.
Qed.

Lemma sent_records_app l k : sent_records (l ++ k) = sent_records l ++ sent_records k.
Proof. unfold sent_records. by rewrite map_app, concat_app. Qed.

(** Only the end of the drain enters the window. *)
Lemma end_iteration_control total wk s' : end_iteration taken total wk = Some s' → ∃ b, s'.2 = AtRecv b.
Proof. intros (wk' & _ & [= <-])%bind_Some. by eexists. Qed.

Lemma at_recv_control e wk expect s' : at_recv taken e wk expect = Some s' → ∀ d t, s'.2 ≠ Coalescing d t.
Proof. unfold at_recv. by destruct (rv_out e); intros (wk' & _ & [= <-])%bind_Some. Qed.

Lemma window_entered wk ctl e wk' d t :
  control_ok (wk, ctl) → worker_step taken (wk, ctl) e = Some (wk', Coalescing d t) →
  match ctl with Coalescing d0 _ => d = d0 | _ => d ≤ rv_now e + COALESCE_MAX_US * 1000 end.
Proof.
  destruct ctl as [expect|expect window hf total|d0 total|]; cbn [worker_step control_ok snd]; intros Hc H.
  - by apply at_recv_control with (d := d) (t := t) in H.
  - destruct (rv_out e); [by apply bind_Some in H as (wk1 & _ & [=])| |];
      (destruct (expect && hf); [simplify_eq; lia|by apply end_iteration_control in H as [b [=]]]).
  - destruct (_ =? 0).
    + apply bind_Some in H as ([wk1 ctl1] & _ & H). destruct ctl1; try done.
      by apply at_recv_control with (d := d) (t := t) in H.
    + destruct (rv_out e); [by apply bind_Some in H as (wk1 & _ & [=])| |];
        by apply end_iteration_control in H as [b [=]].
  - done.
Qed.

(** A worker that finds the window past has sent all it had. *)
Lemma window_over us wk deadline total e s' s log :
  worker_inv us wk → deadline ≤ rv_now e → worker_step taken (wk, Coalescing deadline total) e = Some s' →
  (s < n)%nat → wk_shard_txs s'.1 !! s = Some log → of_shard s us `prefix_of` sent_records log.
Proof.
  intros Hi Hd H Hs Hlog. cbn [worker_step] in H.
  destruct (Z.eqb_spec (Z.max 0 (deadline - rv_now e)) 0) as [_|]; [|lia].
  destruct (end_iteration_inv us total wk Hi) as (wk1 & b & E & Hi1 & Hc1). rewrite E in H.
  cbn [mbind option_bind] in H. apply at_recv_grow in H.
  destruct (worker_shard us wk1 s Hi1 Hs) as (buf & log1 & Hb & Hl & Heq & _ & _).
  pose proof (Hc1 s Hs) as He. cbn [fst] in He. simplify_eq. rewrite app_nil_r in Heq.
  destruct (H s log1 Hl) as [k Hk]. simplify_eq. rewrite sent_records_app, Heq. by eexists.
Qed.
End WorkerProofs.

Section WorkerClaims.
Context (taken : nat → nat → bool) (n bs : nat).

(** A worker loses, duplicates and reorders nothing. Whatever the partition delivers
    and whatever the clock reads, the worker does not panic, and for every shard what it
    has sent to the flusher followed by what it still buffers is exactly the units it
    received for that shard, in order. Batches are tagged with the shard, never empty and
    never longer than the batch size, and whenever the worker blocks on its queue or has
    exited nothing is left in a buffer. *)
Theorem worker_preserves_order es :
  n ≠ 0%nat →
  ∃ wk ctl, worker_main taken n bs es = Some (wk, ctl) ∧
    ∀ s, (s < n)%nat → ∃ buf log,
      wk_buffers wk !! s = Some buf ∧ wk_shard_txs wk !! s = Some log ∧
      sent_records log ++ buf = of_shard n s (received taken (worker_new n bs, AtRecv false) es) ∧
      Forall (batch_ok bs s) log ∧
      (match ctl with AtRecv _ | Exited => buf = [] | _ => True end).
Proof.
  intros Hn. destruct (worker_run_inv taken n bs Hn [] (worker_new n bs, AtRecv false) es) as ([wk ctl] & H & Hi & Hc).
  { by apply worker_new_inv. }
  { intros k Hk. by apply lookup_replicate_2. }
  exists wk, ctl. split; [exact H|]. intros s Hs.
  destruct (worker_shard n bs Hn _ wk s Hi Hs) as (buf & log & Hb & Hl & Heq & Hf & _).
  exists buf, log. do 4 (split; [done|]). cbn [control_ok snd fst] in Hc.
  destruct ctl; try done; specialize (Hc s Hs); cbn [fst] in Hc; congruence.
Qed.

(** The coalesce window delays no unit by more than two milliseconds. Its deadline is
    set at most that far ahead when the drain runs dry, no later unit moves it, and the
    first receive that finds it past has sent every unit received before. *)
Theorem coalesce_delay_bounded es wk ctl e wk' ctl' :
  n ≠ 0%nat → worker_main taken n bs es = Some (wk, ctl) → worker_step taken (wk, ctl) e = Some (wk', ctl') →
  (∀ d t, ctl' = Coalescing d t →
     match ctl with Coalescing d0 _ => d = d0 | _ => d ≤ rv_now e + COALESCE_MAX_US * 1000 end) ∧
  (∀ d t, ctl = Coalescing d t → d ≤ rv_now e → ∀ s log, (s < n)%nat → wk_shard_txs wk' !! s = Some log →
     of_shard n s (received taken (worker_new n bs, AtRecv false) es) `prefix_of` sent_records log).
Proof.
  intros Hn H Hstep.
  destruct (worker_run_inv taken n bs Hn [] (worker_new n bs, AtRecv false) es) as (s' & H' & Hi & Hc).
  { by apply worker_new_inv. }
  { intros k Hk. by apply lookup_replicate_2. }
  unfold worker_main in H. rewrite H in H'. injection H' as <-. split.
  - intros d t ->. by eapply window_entered.
  - intros d t -> Hd s log Hs Hlog. by eapply window_over.
Qed.
End WorkerClaims.

(** ** From the queue to the flushers *)

Section Ingest.
Context {CH : Channels} {CHL : ChannelLaws}.
Context (n bs workers : nat) (taken : nat → nat → bool).

(** The connections push a unit under its shard's number, and only to shards that exist. *)
Definition keyed (x : nat * WorkUnit) : Prop := x.1 = Z.to_nat (wu_shard_id x.2) ∧ (x.1 < n)%nat.

(** The accepted pushes of shard [s], in order. *)
Definition pushes_of (s : nat) (l : list (nat * WorkUnit)) : list WorkUnit := snd <$> filter (λ x, x.1 = s) l.

Lemma keyed_shard x : keyed x → shard_of n x.2 = x.1.
Proof. intros [-> Hlt]. by apply Nat.mod_small. Qed.

Lemma of_shard_app s us vs : of_shard n s (us ++ vs) = of_shard n s us ++ of_shard n s vs.
Proof. apply filter_app. Qed.

(** The units of shard [s] are all in its own partition. *)
Lemma of_shard_pushed s p l :
  Forall keyed l → of_shard n s (pushed_to workers p l) = if decide (s mod workers = p)%nat then pushes_of s l else [].
Proof.
  induction 1 as [|[key u] l Hx _ IH]; [by destruct (decide _)|]. unfold pushed_to, pushes_of in *.
  pose proof (keyed_shard _ Hx) as Hs. cbn [fst snd] in Hs. rewrite !filter_cons. cbn [fst].
  destruct (decide (key mod workers = p)%nat) as [Hp|Hp]; cbn [fmap list_fmap snd].
  - unfold of_shard in *. rewrite filter_cons, Hs. destruct (decide (key = s)) as [->|Hne].
    + rewrite IH. by rewrite !decide_True by done.
    + exact IH.
  - rewrite IH. destruct (decide (key = s)) as [->|Hne]; [|done]. by rewrite !decide_False by done.
Qed.

(** The state of the workers that have received what the queue's history says. *)
Definition worker_at (h : History WorkUnit) (es : nat → list Recv) (p : nat) (wk : Worker) : Prop :=
  received taken (worker_new n bs, AtRecv false) (es p) = h_received h p ∧
  fst <$> worker_main taken n bs (es p) = Some wk.

Lemma worker_at_shard h es p wk s :
  n ≠ 0%nat → worker_at h es p wk → (s < n)%nat →
  ∃ buf log, wk_shard_txs wk !! s = Some log ∧ sent_records log ++ buf = of_shard n s (h_received h p) ∧
    Forall (batch_ok bs s) log.
Proof.
  intros Hn [Hr Hm] Hs.
  destruct (worker_run_inv taken n bs Hn [] (worker_new n bs, AtRecv false) (es p)) as ([wk' ctl] & H & Hi & _).
  { by apply worker_new_inv. }
  { intros k Hk. by apply lookup_replicate_2. }
  unfold worker_main in Hm. rewrite H in Hm. cbn in Hm. simplify_eq. rewrite Hr in Hi.
  destruct (worker_shard n bs Hn _ wk s Hi Hs) as (buf & log & _ & Hl & Heq & Hf & _). by exists buf, log.
Qed.

Lemma no_units_no_batches s log buf :
  sent_records log ++ buf = [] → Forall (batch_ok bs s) log → log = [].
Proof.
  intros [H _]%app_nil. destruct 1 as [|x log [_ Hx] _]; [done|]. unfold sent_records in H. cbn in H.
  apply app_nil in H as [H _]. rewrite H in Hx. cbn in Hx. lia.
Qed.

(** C33: per-shard order from the connections to the flusher. Producers and workers may
    interleave their operations on the queue in any way. For every shard, what its flusher
    has been sent is a prefix of the pushes the queue accepted for it, in the order in
    which it accepted them, and it comes from one worker only: the others never send to
    that flusher. *)
Theorem per_shard_order q0 q h es wks s wk :
  n ≠ 0%nat → queue_new workers = Some q0 → rtc queue_step (q0, no_history) (q, h) →
  Forall keyed (h_pushed h) → (s < n)%nat →
  (∀ p, (p < workers)%nat → worker_at h es p (wks p)) → wks (s mod workers)%nat = wk →
  (∃ log, wk_shard_txs wk !! s = Some log ∧ sent_records log `prefix_of` pushes_of s (h_pushed h)) ∧
  (∀ p, (p < workers)%nat → p ≠ (s mod workers)%nat → wk_shard_txs (wks p) !! s = Some []).
Proof.
  intros Hn H0 Hr Hk Hs Hw <-. pose proof (queue_steps_inv workers _ _ Hr (queue_new_inv _ _ H0)) as [Hlen _ Hfifo].
  cbn [fst snd] in *.
  assert (Hpart : ∀ p, (p < workers)%nat → ∃ rest, of_shard n s (h_received h p) ++ rest =
    if decide (s mod workers = p)%nat then pushes_of s (h_pushed h) else []).
  { intros p Hp. destruct (lookup_lt_is_Some_2 (q_chans q) p ltac:(lia)) as [c Hc].
    exists (of_shard n s (contents c)). by rewrite <-of_shard_app, <-(Hfifo p c Hc), of_shard_pushed. }
  assert (Hwk : workers ≠ 0%nat) by (intros ->; by unfold queue_new in H0).
  split.
  - assert (Hp : (s mod workers < workers)%nat) by (by apply Nat.mod_upper_bound).
    destruct (worker_at_shard h es _ _ s Hn (Hw _ Hp) Hs) as (buf & log & Hl & Heq & _). exists log. split; [done|].
    destruct (Hpart _ Hp) as [rest Hrest]. rewrite decide_True in Hrest by done.
    exists (buf ++ rest). by rewrite <-Hrest, <-Heq, <-app_assoc.
  - intros p Hp Hne. destruct (worker_at_shard h es _ _ s Hn (Hw _ Hp) Hs) as (buf & log & Hl & Heq & Hf).
    destruct (Hpart _ Hp) as [rest Hrest]. rewrite decide_False in Hrest by done.
    apply app_nil in Hrest as [Hnil _]. rewrite Hnil in Heq. by rewrite Hl, (no_units_no_batches s log buf).
Qed.
End Ingest.

(** ** Witnesses *)

Module WorkerWitness.
#[local] Existing Instance ListChannel.list_channel.
#[local] Existing Instance ListChannel.list_channel_laws.

(** Three units for shards 0, 1 and 0 of two, batches of at most two. *)
Definition unit_for (s k : Z) : WorkUnit := mkWorkUnit s [z2b k] Durable false k.
Definition taken : nat → nat → bool := λ _ _, true.
Definition events : list Recv :=
  [mkRecv 0 100 (Got (unit_for 0 1)); mkRecv 1 100 (Got (unit_for 1 2)); mkRecv 2 100 Empty;
   mkRecv 3 100 (Got (unit_for 0 3)); mkRecv 4 100 Empty].

Lemma worker_preserves_order_witness :
  ∃ wk ctl, worker_main taken 2 2 events = Some (wk, ctl) ∧ ∃ log, wk_shard_txs wk !! 0%nat = Some log.
Proof.
  destruct (worker_preserves_order taken 2 2 events ltac:(done)) as (wk & ctl & H & Hs). exists wk, ctl.
  split; [done|]. destruct (Hs 0%nat ltac:(lia)) as (buf & log & _ & Hl & _). by exists log.
Defined.

(** The second iteration follows one of two units, so it waits in the window. *)
Example waits : ∃ wk, worker_main taken 2 2 events = Some (wk, Coalescing 100004 1).
Proof. eexists. vm_compute. reflexivity. Qed.

Lemma worker_run_app s a b : worker_run taken s (a ++ b) = worker_run taken s a ≫= λ s, worker_run taken s b.
Proof. revert s. induction a as [|x a IH]; intros s; [done|]. cbn. destruct (worker_step taken s x); [apply IH|done]. Qed.

Lemma coalesce_delay_bounded_witness :
  ∃ wk wk' ctl', worker_main taken 2 2 events = Some (wk, Coalescing 100004 1) ∧
    worker_step taken (wk, Coalescing 100004 1) (mkRecv 100005 100 Empty) = Some (wk', ctl') ∧
    ∀ log, wk_shard_txs wk' !! 0%nat = Some log →
      of_shard 2 0 (received taken (worker_new 2 2, AtRecv false) events) `prefix_of` sent_records log.
Proof.
  destruct waits as [wk Hwk].
  destruct (worker_step taken (wk, Coalescing 100004 1) (mkRecv 100005 100 Empty)) as [[wk' ctl']|] eqn:E.
  - exists wk, wk', ctl'. split; [exact Hwk|]. split; [done|]. intros log Hl.
    exact (proj2 (coalesce_delay_bounded taken 2 2 events wk _ (mkRecv 100005 100 Empty) wk' ctl' ltac:(done) Hwk E)
             100004 1%nat eq_refl ltac:(cbn; lia) 0%nat log ltac:(lia) Hl).
  - exfalso. assert (worker_main taken 2 2 (events ++ [mkRecv 100005 100 Empty]) = None); [|by vm_compute in H].
    unfold worker_main in *. rewrite worker_run_app, Hwk. cbn [mbind option_bind worker_run]. by rewrite E.
Defined.

(** One worker, two shards: the three units pushed and received. *)
Definition pushed : list (nat * WorkUnit) := [(0%nat, unit_for 0 1); (1%nat, unit_for 1 2); (0%nat, unit_for 0 3)].

Lemma queue_run :
  ∃ q0 q h, queue_new 1 = Some q0 ∧ rtc queue_step (q0, no_history) (q, h) ∧ h_pushed h = pushed ∧
    h_received h 0%nat = map snd pushed.
Proof.
  do 3 eexists. split; [reflexivity|]. split.
  - eapply rtc_l; [by apply (qs_try_push 0 (unit_for 0 1))|]. eapply rtc_l; [by apply (qs_try_push 1 (unit_for 1 2))|].
    eapply rtc_l; [by apply (qs_recv 0)|]. eapply rtc_l; [by apply (qs_recv 0)|].
    eapply rtc_l; [by apply (qs_try_push 0 (unit_for 0 3))|]. eapply rtc_l; [by apply (qs_recv 0)|]. apply rtc_refl.
  - done.
Qed.

Lemma per_shard_order_witness :
  ∃ wk log, fst <$> worker_main taken 2 2 events = Some wk ∧ wk_shard_txs wk !! 0%nat = Some log ∧
    sent_records log `prefix_of` [unit_for 0 1; unit_for 0 3].
Proof.
  destruct queue_run as (q0 & q & h & H0 & Hr & Hp & Hrec).
  destruct (fst <$> worker_main taken 2 2 events) as [wk|] eqn:E; [|by vm_compute in E].
  destruct (per_shard_order 2 2 1 taken q0 q h (λ _, events) (λ _, wk) 0 wk) as [(log & Hl & Hpre) _]; try done.
  - rewrite Hp. by repeat constructor.
  - lia.
  - intros p Hlt. assert (p = 0%nat) as -> by lia. split; [rewrite Hrec; by vm_compute|exact E].
  - exists wk, log. split; [done|]. split; [done|]. by rewrite Hp in Hpre.
Defined.
End WorkerWitness.
