(* ===== verification/Connection.v ===== *)
(** * The connection handler (weir-server, socket/connection.rs)

    [handle_connection] of crates/weir-server/src/socket/connection.rs, one frame at a
    time: reading and validating a frame, admission, enqueueing the records, waiting for
    the flusher's outcome and writing the one response. What the socket, the clock, the
    queue and the flusher do while a frame is handled is given by a [FrameEnv]. The two
    memoised response frames are plain values and log lines are not modelled. *)

From Stdlib Require Import ZArith Lia Strings.Byte String.
From stdpp Require Import base list list_numbers option.
From S2P Require Import Prelude Deps Sink Wire Batch Text Coordinate Io Flusher Shards.

(** ** Configuration and environment *)

Record ConnectionConfig := mkConnectionConfig {
  cc_max_payload_bytes : Z;
  cc_max_batch_records : Z;
  cc_shard_id : Z;
  cc_wab_max_bytes : Z;
}.

(** A read phase gets its bytes (or the end of the stream), fails, passes [read_timeout], or
    loses the race against shutdown. *)
Inductive ReadFate := Reads | ReadFails (e : ErrorKind) | Stalls | ShutsDown.

(** A response is written, or the write fails or times out after [sent] bytes. *)
Inductive WriteFate := Written | WriteFails (e : ErrorKind) (sent : nat).

(** What comes back on the ack channel within its timeout. *)
Inductive AckFate := AckSent (o : AckOutcome) | AckDropped | AckElapsed.

(** What happens to one record: whether [try_push] takes it, what [push_timeout] on the
    blocking pool says otherwise ([None]: the pool task failed), the ack, and the identity
    of its ack channel. *)
Record PushFate := mkPushFate {
  pf_try : bool;
  pf_timeout : option bool;
  pf_ack : AckFate;
  pf_tx : Z;
}.

Record FrameEnv := mkFrameEnv {
  fe_shutdown : bool;
  fe_header : ReadFate;
  fe_payload : ReadFate;
  fe_crc : ReadFate;
  fe_ownership_lost : bool;
  fe_wab_bytes_now : Z;
  fe_cap_rejecting : bool;
  fe_push : nat → PushFate;
  fe_write : WriteFate;
}.

(** The metrics' label for a reason has the variants of the wire reason, the tier label
    those of the durability. *)
Inductive NackInternalCause :=
| queue_full | write_failed | sender_dropped | ack_timeout | wab_cap | coordinate | ownership_lost.
Inductive ConnCounter :=
| ConnectionIdleTimeout
| RecordsAccepted (tier : Durability)
| RecordsAck (tier : Durability)
| RecordsNack (tier : Durability) (reason : NackReason)
| RecordsNackInternal (cause : NackInternalCause)
| WabCapRejections | AckTimeouts | BatchPartial.

#[global] Instance nack_internal_cause_eq_dec : EqDecision NackInternalCause.
Proof. solve_decision. Defined.
#[global] Instance conn_counter_eq_dec : EqDecision ConnCounter.
Proof. solve_decision. Defined.

(** The bytes still to be read, the bytes written, the units the queue took with their
    partition keys, the shared cap flag and the counters. *)
Record Conn := mkConn {
  cn_in : bytes;
  cn_out : bytes;
  cn_pushed : list (nat * WorkUnit);
  cn_cap_rejecting : bool;
  cn_counts : ConnCounter → Z;
}.

(** A frame ends with the loop's next iteration or with the handler's return. *)
Inductive Outcome := Next | Return (r : result unit ErrorKind).

Definition count_by (k : ConnCounter) (n : Z) (c : Conn) : Conn :=
  mkConn (cn_in c) (cn_out c) (cn_pushed c) (cn_cap_rejecting c)
    (λ k', if decide (k' = k) then cn_counts c k' + n else cn_counts c k').
Definition count (k : ConnCounter) : Conn → Conn := count_by k 1.
Definition set_in (b : bytes) (c : Conn) : Conn :=
  mkConn b (cn_out c) (cn_pushed c) (cn_cap_rejecting c) (cn_counts c).
Definition push_unit (x : nat * WorkUnit) (c : Conn) : Conn :=
  mkConn (cn_in c) (cn_out c) (cn_pushed c ++ [x]) (cn_cap_rejecting c) (cn_counts c).
Definition set_cap_rejecting (b : bool) (c : Conn) : Conn :=
  mkConn (cn_in c) (cn_out c) (cn_pushed c) b (cn_counts c).

(** [if n > 0 { ...inc_by(n) }]. *)
Definition count_internal_nack (cause : NackInternalCause) (n : Z) (c : Conn) : Conn :=
  if 0 <? n then count_by (RecordsNackInternal cause) n c else c.
Definition count_pos (k : ConnCounter) (n : Z) (c : Conn) : Conn := if 0 <? n then count_by k n c else c.

Section Connection.
Context {CRC : Crc32} {SHA : Sha256}.

(** ** Responses *)

(** [write_all_timeout]. *)
Definition conn_write (fate : WriteFate) (frame : bytes) (c : Conn) : result unit ErrorKind * Conn :=
  let write b := mkConn (cn_in c) (cn_out c ++ b) (cn_pushed c) (cn_cap_rejecting c) (cn_counts c) in
  match fate with
  | Written => (Ok tt, write frame)
  | WriteFails e sent => (Err e, write (take sent frame))
  end.

(** [send(...).await?] followed by [k]. *)
Definition respond (fate : WriteFate) (frame : bytes) (c : Conn) (k : Conn → Conn * Outcome) : Conn * Outcome :=
  match conn_write fate frame c with
  | (Ok _, c) => k c
  | (Err e, c) => (c, Return (Err e))
  end.

Definition nack_frame (reason : NackReason) (extra : bytes) : bytes :=
  envelope_encode (envelope_new (header_new Nack Durable x00) (nack_to_u8 reason :: extra)).
Definition ack_frame_bytes : bytes := envelope_encode (envelope_new (header_new Ack Durable x00) []).
Definition healthcheck_response_frame_bytes : bytes :=
  envelope_encode (envelope_new (header_new HealthCheckResponse Durable x00) []).
Definition ack_tracked_frame (coordinate : RecordCoordinate) : bytes :=
  envelope_encode (envelope_new (header_new AckTracked Durable x00) (coordinate_encode coordinate)).
Definition ack_batch_frame (accepted : list bool) : bytes :=
  envelope_encode (envelope_new (header_new AckBatch Durable x00) (encode_ack_batch accepted)).

(** Wire reason, metric label and extra bytes of a decode error. *)
Definition nack_for_decode_error (e : DecodeError) : NackReason * NackReason * bytes :=
  match e with
  | BadMagic => (NBadMagic, NBadMagic, [])
  | VersionMismatch _ _ => (NVersionMismatch, NVersionMismatch, [WIRE_VERSION])
  | HeaderCrcMismatch _ _ => (NBadHeaderCrc, NBadHeaderCrc, [])
  | UnknownMessageType _ | UnknownDurability _ => (NUnknownMessage, NUnknownMessage, [])
  | ReservedFlagsSet _ => (NReservedFlagsSet, NReservedFlagsSet, [])
  | _ => (NInternalError, NInternalError, [])
  end.

(** ** Admission *)

Inductive AdmissionRefusal := OwnershipLost | WabCap.
#[global] Instance admission_refusal_eq_dec : EqDecision AdmissionRefusal.
Proof. solve_decision. Defined.
Definition refusal_cause (r : AdmissionRefusal) : NackInternalCause :=
  match r with OwnershipLost => ownership_lost | WabCap => wab_cap end.

Definition admission_refusal (cfg : ConnectionConfig) (fe : FrameEnv) (c : Conn)
    : option AdmissionRefusal * Conn :=
  if fe_ownership_lost fe then (Some OwnershipLost, c) else
  let '(over, flag) := evaluate (cc_wab_max_bytes cfg) (fe_wab_bytes_now fe) (fe_cap_rejecting fe) in
  (if over : bool then Some WabCap else None, set_cap_rejecting flag c).

(** The refusal of a fully read push: the connection is kept. *)
Definition refuse (fate : WriteFate) (tier : Durability) (refusal : AdmissionRefusal) (c : Conn) : Conn * Outcome :=
  respond fate (nack_frame NInternalError []) c (λ c,
    let c := if decide (refusal = WabCap) then count WabCapRejections c else c in
    let c := count (RecordsNack tier NInternalError) c in
    (count_internal_nack (refusal_cause refusal) 1 c, Next)).

(** ** Pushes *)

(** [try_push], then [push_timeout]; an error is a failed pool task. *)
Definition enqueue (f : PushFate) : result bool ErrorKind :=
  if pf_try f then Ok true else
  match pf_timeout f with Some ok => Ok ok | None => Err OtherError end.

(** The internal-error nack of a record, with its cause. *)
Definition nack_internal (fate : WriteFate) (tier : Durability) (cause : NackInternalCause) (c : Conn)
    : Conn * Outcome :=
  respond fate (nack_frame NInternalError []) c (λ c,
    (count_internal_nack cause 1 (count (RecordsNack tier NInternalError) c), Next)).

Definition handle_push (fe : FrameEnv) (durability : Durability) (payload : bytes) (shard_id : Z)
    (tracked : bool) (c : Conn) : Conn * Outcome :=
  let f := fe_push fe 0%nat in
  let unit_ := mkWorkUnit shard_id payload durability tracked (pf_tx f) in
  let partition_key := Z.to_nat shard_id in
  match enqueue f with
  | Err e => (c, Return (Err e))
  | Ok false => nack_internal (fe_write fe) durability queue_full c
  | Ok true =>
    let c := push_unit (partition_key, unit_) c in
    match pf_ack f with
    | AckSent outcome =>
      if ao_durable outcome then
        let c := count (RecordsAck durability) c in
        if tracked then
          match option_map (λ slot, coordinate_new (rs_segment slot) (rs_index slot)
                              (for_record (rs_segment slot) (rs_index slot) payload))
                  (ao_coordinate outcome) with
          | Some (Ok coordinate_) => respond (fe_write fe) (ack_tracked_frame coordinate_) c (λ c, (c, Next))
          | _ => nack_internal (fe_write fe) durability coordinate c
          end
        else respond (fe_write fe) ack_frame_bytes c (λ c, (c, Next))
      else nack_internal (fe_write fe) durability write_failed c
    | AckDropped => nack_internal (fe_write fe) durability sender_dropped c
    | AckElapsed => nack_internal (fe_write fe) durability ack_timeout (count AckTimeouts c)
    end
  end.

(** The enqueue loop of [handle_push_batch] from record [i] on: the receivers, up to the
    first record the queue does not take. *)
Fixpoint enqueue_batch (fe : FrameEnv) (durability : Durability) (shard_id : Z) (i : nat)
    (records : list bytes) (c : Conn) : result (list (option AckFate)) ErrorKind * Conn :=
  match records with
  | [] => (Ok [], c)
  | record :: records =>
    let f := fe_push fe i in
    match enqueue f with
    | Err e => (Err e, c)
    | Ok false => (Ok [None], c)
    | Ok true =>
      let unit_ := mkWorkUnit shard_id record durability false (pf_tx f) in
      let '(r, c) := enqueue_batch fe durability shard_id (S i) records
                       (push_unit (Z.to_nat shard_id, unit_) c) in
      (match r with Ok receivers => Ok (Some (pf_ack f) :: receivers) | Err e => Err e end, c)
    end
  end.

(** The totals of the ack loop. *)
Record AckTotals := mkAckTotals {
  at_accepted : list bool; at_acked : Z; at_write_failed : Z; at_dropped : Z; at_timed_out : bool;
}.
Fixpoint await_acks (receivers : list (option AckFate)) : AckTotals :=
  match receivers with
  | [] => mkAckTotals [] 0 0 0 false
  | rx :: receivers =>
    match rx with
    | Some AckElapsed => mkAckTotals (replicate (S (length receivers)) false) 0 0 0 true
    | _ =>
      let t := await_acks receivers in
      match rx with
      | Some (AckSent o) =>
        if ao_durable o
        then mkAckTotals (true :: at_accepted t) (at_acked t + 1) (at_write_failed t) (at_dropped t) (at_timed_out t)
        else mkAckTotals (false :: at_accepted t) (at_acked t) (at_write_failed t + 1) (at_dropped t) (at_timed_out t)
      | Some AckDropped =>
        mkAckTotals (false :: at_accepted t) (at_acked t) (at_write_failed t) (at_dropped t + 1) (at_timed_out t)
      | _ => mkAckTotals (false :: at_accepted t) (at_acked t) (at_write_failed t) (at_dropped t) (at_timed_out t)
      end
    end
  end.

(** The counters of a batch of [n] records, [enqueued_ok] of which the queue took. *)
Definition count_batch (durability : Durability) (n enqueued_ok : Z) (t : AckTotals) (c : Conn) : Conn :=
  let c := if at_timed_out t then count AckTimeouts c else c in
  let c := count_internal_nack queue_full (n - enqueued_ok) c in
  let c := count_internal_nack write_failed (at_write_failed t) c in
  let c := count_internal_nack sender_dropped (at_dropped t) c in
  let c := count_internal_nack ack_timeout (enqueued_ok - at_acked t - at_write_failed t - at_dropped t) c in
  let nacked := n - at_acked t in
  let c := count_pos (RecordsAck durability) (at_acked t) c in
  let c := count_pos (RecordsNack durability NInternalError) nacked c in
  if 0 <? nacked then count BatchPartial c else c.

Definition handle_push_batch (fe : FrameEnv) (durability : Durability) (records : list bytes) (shard_id : Z)
    (c : Conn) : Conn * Outcome :=
  match enqueue_batch fe durability shard_id 0 records c with
  | (Err e, c) => (c, Return (Err e))
  | (Ok receivers, c) =>
    let enqueued_ok := blen (filter is_Some receivers) in
    let t := await_acks (receivers ++ replicate (length records - length receivers) None) in
    let c := count_batch durability (blen records) enqueued_ok t c in
    respond (fe_write fe) (ack_batch_frame (at_accepted t)) c (λ c, (c, Next))
  end.

(** ** One frame *)

(** One timed read raced against shutdown: the bytes and the connection after them, or how
    the handler returns. *)
Definition conn_read (fate : ReadFate) (n : Z) (c : Conn) : result (bytes * Conn) (Conn * Outcome) :=
  match fate with
  | Reads =>
    match read_exact n (cn_in c) with
    | Some (b, rest) => Ok (b, set_in rest c)
    | None => Err (c, Return (Err UnexpectedEof))
    end
  | ReadFails e => Err (c, Return (Err e))
  | Stalls => Err (count ConnectionIdleTimeout c, Return (Ok tt))
  | ShutsDown => Err (c, Return (Ok tt))
  end.

(** The header read: a peer that has gone away between frames is no error. *)
Definition gone_is_ok (r : Conn * Outcome) : Conn * Outcome :=
  match r with
  | (c, Return (Err UnexpectedEof)) | (c, Return (Err ConnectionReset)) => (c, Return (Ok tt))
  | r => r
  end.

(** A nack that closes the connection. *)
Definition nack_close (fate : WriteFate) (tier : Durability) (wire metric : NackReason) (extra : bytes) (c : Conn)
    : Conn * Outcome :=
  respond fate (nack_frame wire extra) c (λ c, (count (RecordsNack tier metric) c, Return (Ok tt))).

Definition is_push (m : MessageType) : bool :=
  match m with Push | PushTracked | PushBatch => true | _ => false end.

(** The reason for a batch body that does not decode. *)
Definition batch_nack (e : BatchError) : NackReason :=
  match e with
  | BEmptyRecord _ => NEmptyPayload
  | BTooManyRecords _ _ | BRecordTooLarge _ _ _ => NPayloadTooLarge
  | _ => NBadBatchFraming
  end.
Definition batch_nack_metric (reason : NackReason) : NackReason :=
  match reason with NEmptyPayload => NEmptyPayload | NPayloadTooLarge => NPayloadTooLarge | _ => NBadBatchFraming end.

(** Steps 6 and 7: a whole, verified frame. *)
Definition dispatch (cfg : ConnectionConfig) (fe : FrameEnv) (header : Header) (payload : bytes) (c : Conn)
    : Conn * Outcome :=
  let tier := h_durability header in
  match h_message_type header with
  | (Push | PushTracked) as mt =>
    match admission_refusal cfg fe c with
    | (Some refusal, c) => refuse (fe_write fe) tier refusal c
    | (None, c) =>
      handle_push fe tier payload (cc_shard_id cfg) (bool_decide (mt = PushTracked)) (count (RecordsAccepted tier) c)
    end
  | PushBatch =>
    match admission_refusal cfg fe c with
    | (Some refusal, c) => refuse (fe_write fe) tier refusal c
    | (None, c) =>
      match decode_batch_body payload (cc_max_batch_records cfg) (cc_max_payload_bytes cfg) with
      | Err e => nack_close (fe_write fe) tier (batch_nack e) (batch_nack_metric (batch_nack e)) [] c
      | Ok records =>
        handle_push_batch fe tier records (cc_shard_id cfg) (count_by (RecordsAccepted tier) (blen records) c)
      end
    end
  | HealthCheck => respond (fe_write fe) healthcheck_response_frame_bytes c (λ c, (c, Next))
  | _ => nack_close (fe_write fe) Durable NUnknownMessage NUnknownMessage [] c
  end.

Definition handle_frame (cfg : ConnectionConfig) (fe : FrameEnv) (c : Conn) : Conn * Outcome :=
  if fe_shutdown fe then (c, Return (Ok tt)) else
  match conn_read (fe_header fe) HEADER_LEN c with
  | Err r => gone_is_ok r
  | Ok (header_buf, c) =>
    match header_decode header_buf with
    | Err e =>
      let '(wire, metric, extra) := nack_for_decode_error e in
      nack_close (fe_write fe) Durable wire metric extra c
    | Ok header =>
      let payload_len := h_payload_len header in
      let tier := h_durability header in
      if Z.min (cc_max_payload_bytes cfg) MAX_PAYLOAD_HARD_CAP <? payload_len then
        nack_close (fe_write fe) tier NPayloadTooLarge NPayloadTooLarge [] c
      else if (payload_len =? 0) && is_push (h_message_type header) then
        nack_close (fe_write fe) tier NEmptyPayload NEmptyPayload [] c
      else
        match conn_read (fe_payload fe) payload_len c with
        | Err r => r
        | Ok (payload, c) =>
          match conn_read (fe_crc fe) 4 c with
          | Err r => r
          | Ok (crc_buf, c) =>
            if negb (le_val crc_buf =? crc32_hash payload) then
              nack_close (fe_write fe) tier NBadPayloadCrc NBadPayloadCrc [] c
            else dispatch cfg fe header payload c
          end
        end
    end
  end.

(** [handle_connection]: frames until the handler returns; [None] while it runs. *)
Fixpoint handle_connection (cfg : ConnectionConfig) (fes : list FrameEnv) (c : Conn)
    : Conn * option (result unit ErrorKind) :=
  match fes with
  | [] => (c, None)
  | fe :: fes =>
    match handle_frame cfg fe c with
    | (c, Next) => handle_connection cfg fes c
    | (c, Return r) => (c, Some r)
    end
  end.
End Connection.

(** ** Proofs: responses *)

(** What the handler says, before it is encoded. *)
Inductive Response :=
| RAck
| RAckTracked (k : RecordCoordinate)
| RAckBatch (accepted : list bool)
| RNack (reason : NackReason) (extra : bytes)
| RHealth.

Section ConnectionProofs.
Context {CRC : Crc32} {CL : Crc32Laws} {SHA : Sha256} {SL : Sha256Laws}.

Definition response_type (r : Response) : MessageType :=
  match r with
  | RAck => Ack | RAckTracked _ => AckTracked | RAckBatch _ => AckBatch | RNack _ _ => Nack
  | RHealth => HealthCheckResponse
  end.
Definition response_payload (r : Response) : bytes :=
  match r with
  | RAck | RHealth => []
  | RAckTracked k => coordinate_encode k
  | RAckBatch acc => encode_ack_batch acc
  | RNack reason extra => nack_to_u8 reason :: extra
  end.
Definition response_frame (r : Response) : bytes :=
  envelope_encode (envelope_new (header_new (response_type r) Durable x00) (response_payload r)).

(** The responses the handler builds fit a frame. *)
Definition response_ok (r : Response) : Prop :=
  match r with
  | RAckTracked k => blen (rc_segment k) ≤ MAX_SEGMENT_NAME_LEN ∧ length (rc_record_id k) = 32%nat
  | RAckBatch acc => 0 < blen acc ≤ MAX_BATCH_RECORDS_HARD_CAP
  | RNack _ extra => blen extra ≤ 1
  | _ => True
  end.

Lemma ack_bit_steps_length l ps : length (foldl ack_bit_step l ps) = length l.
Proof.
  revert l. induction ps as [|[i ok] ps IH]; intros l; [done|]. cbn [foldl]. rewrite IH.
  unfold ack_bit_step, bitmap_bit, or_at. destruct ok; [by rewrite length_insert|done].
Qed.

Lemma length_encode_ack_batch acc : length (encode_ack_batch acc) = (3 + div_ceil8 (length acc))%nat.
Proof.
  unfold encode_ack_batch. rewrite ack_bit_steps_length, !length_app, length_le_bytes, length_replicate. cbn. lia.
Qed.

Lemma response_payload_fits r : response_ok r → blen (response_payload r) ≤ MAX_PAYLOAD_HARD_CAP.
Proof.
  unfold MAX_PAYLOAD_HARD_CAP, blen. destruct r as [|k|acc|reason extra|]; cbn [response_ok response_payload length]; try lia.
  - intros [Hs Hi]. unfold coordinate_encode, MAX_SEGMENT_NAME_LEN, blen in *.
    rewrite !length_app, !length_le_bytes, Hi. cbn [length]. lia.
  - unfold MAX_BATCH_RECORDS_HARD_CAP, blen. rewrite length_encode_ack_batch. unfold div_ceil8.
    pose proof (Nat.div_mod (length acc + 7) 8 ltac:(lia)). lia.
  - unfold blen. lia.
Qed.

(** The client reads the response that was meant. *)
Lemma response_decodes r :
  response_ok r →
  ∃ e, envelope_decode (response_frame r) = Ok e ∧
    h_message_type (e_header e) = response_type r ∧ e_payload e = response_payload r.
Proof.
  intros H%response_payload_fits. eexists. split; [by apply envelope_decode_encode|done].
Qed.

(** ** Proofs: what a handler has said and pushed *)

(** [c'] is [c] with the response [resp] written and the units [us] of shard [sid] pushed. *)
Definition said (sid : Z) (c c' : Conn) (resp : Response) (us : list WorkUnit) : Prop :=
  cn_out c' = cn_out c ++ response_frame resp ∧
  cn_pushed c' = cn_pushed c ++ (pair (Z.to_nat sid) <$> us).

(** The positive answers to a single push are backed by the flusher's outcome. *)
Definition push_truth (fe : FrameEnv) (d : Durability) (payload : bytes) (sid : Z) (tracked : bool)
    (us : list WorkUnit) (resp : Response) : Prop :=
  let f := fe_push fe 0%nat in
  match resp with
  | RAck => tracked = false ∧ us = [mkWorkUnit sid payload d false (pf_tx f)] ∧
      ∃ o, pf_ack f = AckSent o ∧ ao_durable o = true
  | RAckTracked k => tracked = true ∧ us = [mkWorkUnit sid payload d true (pf_tx f)] ∧
      ∃ o slot, pf_ack f = AckSent o ∧ ao_durable o = true ∧ ao_coordinate o = Some slot ∧
        k = mkRecordCoordinate (rs_segment slot) (rs_index slot)
              (for_record (rs_segment slot) (rs_index slot) payload)
  | RNack reason extra => reason = NInternalError ∧ extra = []
  | _ => False
  end.

Lemma respond_written frame c k :
  respond Written frame c k =
  k (mkConn (cn_in c) (cn_out c ++ frame) (cn_pushed c) (cn_cap_rejecting c) (cn_counts c)).
Proof. done. Qed.

Lemma handle_push_said fe d payload sid tracked c c' out :
  fe_write fe = Written → handle_push fe d payload sid tracked c = (c', out) →
  (∃ e, enqueue (fe_push fe 0%nat) = Err e ∧ c' = c ∧ out = Return (Err e)) ∨
  (out = Next ∧ ∃ resp us, said sid c c' resp us ∧ response_ok resp ∧ push_truth fe d payload sid tracked us resp).
Proof.
  intros Hw H. unfold handle_push, nack_internal in H. rewrite Hw in H.
  destruct (enqueue (fe_push fe 0%nat)) as [[|]|e]; [| |left; by simplify_eq; eauto]; right.
  2:{ injection H as <- <-. split; [done|]. exists (RNack NInternalError []), []. repeat split.
      - cbn. by rewrite app_nil_r.
      - by cbn. }
  destruct (pf_ack (fe_push fe 0%nat)) as [o| |] eqn:Ha.
  - destruct (ao_durable o) eqn:Hd.
    + destruct tracked.
      * destruct (ao_coordinate o) as [slot|] eqn:Hs; cbn [option_map] in H.
        -- destruct (coordinate_new _ _ _) as [k|] eqn:Hk.
           ++ unfold coordinate_new in Hk. destruct (Z.ltb_spec MAX_SEGMENT_NAME_LEN (blen (rs_segment slot))); [done|].
              injection Hk as <-. injection H as <- <-. split; [done|]. eexists (RAckTracked _), [_].
              split; [by split|]. split; [split; [done|apply sha256_length]|]. split; [done|]. split; [done|]. by exists o, slot.
           ++ injection H as <- <-. split; [done|]. by eexists (RNack _ _), [_].
        -- injection H as <- <-. split; [done|]. by eexists (RNack _ _), [_].
      * injection H as <- <-. split; [done|]. eexists RAck, [_]. repeat split. by exists o.
    + injection H as <- <-. split; [done|]. by eexists (RNack _ _), [_].
  - injection H as <- <-. split; [done|]. by eexists (RNack _ _), [_].
  - injection H as <- <-. split; [done|]. by eexists (RNack _ _), [_].
Qed.

(** *** Batches *)

(** The unit of record [j] of a batch. *)
Definition batch_unit (fe : FrameEnv) (d : Durability) (sid : Z) (j : nat) (record : bytes) : WorkUnit :=
  mkWorkUnit sid record d false (pf_tx (fe_push fe j)).

(** The pushed units are those of an initial run of the records, and the receivers are the
    ack channels of just these. *)
Lemma enqueue_batch_spec fe d sid i rs c r c' :
  enqueue_batch fe d sid i rs c = (r, c') →
  ∃ us, cn_pushed c' = cn_pushed c ++ (pair (Z.to_nat sid) <$> us) ∧
    cn_out c' = cn_out c ∧ cn_counts c' = cn_counts c ∧
    (∀ j u, us !! j = Some u → ∃ record, rs !! j = Some record ∧ u = batch_unit fe d sid (i + j) record) ∧
    ∀ receivers, r = Ok receivers →
      (length receivers ≤ length rs)%nat ∧ length (filter is_Some receivers) = length us ∧
      ∀ j a, receivers !! j = Some (Some a) → a = pf_ack (fe_push fe (i + j)) ∧ is_Some (us !! j).
Proof.
  revert i c r c'. induction rs as [|rec rs IH]; intros i c r c' H; cbn [enqueue_batch] in H.
  { injection H as <- <-. exists []. cbn. rewrite app_nil_r. do 4 (split; [done|]). intros rc [= <-]. done. }
  destruct (enqueue (fe_push fe i)) as [[|]|e].
  - destruct (enqueue_batch _ _ _ _ _ _) as [r1 c1] eqn:E. injection H as <- <-.
    apply IH in E as (us & Hp & Ho & Hc & Hu & Hr). exists (batch_unit fe d sid i rec :: us).
    split; [by rewrite Hp; cbn; rewrite <-app_assoc|]. split; [done|]. split; [done|]. split.
    + intros [|j] u Hj; cbn in Hj; [exists rec; simplify_eq; by rewrite Nat.add_0_r|].
      apply Hu in Hj as (rec' & ? & ->). exists rec'. by rewrite Nat.add_succ_comm.
    + intros receivers Heq. destruct r1 as [rc|]; [|done]. injection Heq as <-.
      destruct (Hr rc eq_refl) as (Hl & Hf & Hj). rewrite filter_cons_True by (by eexists). cbn [length].
      split; [lia|]. split; [lia|]. intros [|j] a Ha; cbn in Ha; [simplify_eq; rewrite Nat.add_0_r; by eauto|].
      apply Hj in Ha. by rewrite Nat.add_succ_comm in Ha.
  - injection H as <- <-. exists []. cbn. rewrite app_nil_r. do 4 (split; [done|]).
    intros receivers [= <-]. cbn. split; [lia|]. split; [done|]. by intros [|[]] a.
  - injection H as <- <-. exists []. cbn. rewrite app_nil_r. by do 4 (split; [done|]).
Qed.

(** What the totals count. *)
Lemma await_acks_spec rxs :
  let t := await_acks rxs in
  length (at_accepted t) = length rxs ∧
  (∀ j, at_accepted t !! j = Some true → ∃ o, rxs !! j = Some (Some (AckSent o)) ∧ ao_durable o = true) ∧
  at_acked t = blen (filter (λ b, b = true) (at_accepted t)) ∧
  0 ≤ at_acked t ∧ 0 ≤ at_write_failed t ∧ 0 ≤ at_dropped t ∧
  at_acked t + at_write_failed t + at_dropped t ≤ blen (filter is_Some rxs).
Proof.
  assert (Hrep : ∀ k, filter (λ b, b = true) (replicate k false) = []) by (intros k; by induction k).
  induction rxs as [|rx rxs IH]; cbn [await_acks]; [by repeat split|].
  destruct IH as (Hl & Hj & Hk & H1 & H2 & H3 & Hs). set (t := await_acks rxs) in *. unfold blen in *.
  assert (Hcons : ∀ b j, (b :: at_accepted t) !! j = Some true → (j = 0%nat ∧ b = true) ∨
    ∃ o, (rx :: rxs) !! j = Some (Some (AckSent o)) ∧ ao_durable o = true).
  { intros b [|j] Hb; cbn in Hb; [left; by simplify_eq|right; by apply Hj in Hb]. }
  destruct rx as [[o| |]|]; rewrite ?(filter_cons_True is_Some), ?(filter_cons_False is_Some) by (by eexists) || (by intros []).
  - destruct (ao_durable o) eqn:Hd; cbn [at_accepted at_acked at_write_failed at_dropped length];
      rewrite ?filter_cons_True, ?filter_cons_False by done; cbn [length]; (split; [lia|]); (split; [|lia]);
      intros j [[-> ?]|?]%Hcons; try done. by exists o.
  - cbn [at_accepted at_acked at_write_failed at_dropped length]. rewrite filter_cons_False by done.
    cbn [length]. split; [lia|]. split; [|lia]. by intros j [[-> ?]|?]%Hcons.
  - cbn [at_accepted at_acked at_write_failed at_dropped]. rewrite length_replicate, Hrep. cbn [length].
    split; [done|]. split; [|lia]. by intros j [? _]%lookup_replicate.
  - cbn [at_accepted at_acked at_write_failed at_dropped length]. rewrite filter_cons_False by done.
    cbn [length]. split; [lia|]. split; [|lia]. by intros j [[-> ?]|?]%Hcons.
Qed.

(** The set bits of a batch answer are backed by the flusher's outcomes. *)
Definition batch_truth (fe : FrameEnv) (d : Durability) (records : list bytes) (sid : Z) (us : list WorkUnit)
    (resp : Response) : Prop :=
  match resp with
  | RAckBatch acc => length acc = length records ∧
      ∀ i, acc !! i = Some true → ∃ record o, records !! i = Some record ∧
        us !! i = Some (batch_unit fe d sid i record) ∧ pf_ack (fe_push fe i) = AckSent o ∧ ao_durable o = true
  | _ => False
  end.

Definition quiet (c c' : Conn) : Prop := cn_out c' = cn_out c ∧ cn_pushed c' = cn_pushed c.
Lemma count_by_quiet k n c : quiet c (count_by k n c).
Proof. done. Qed.
Lemma count_internal_nack_quiet k n c : quiet c (count_internal_nack k n c).
Proof. unfold count_internal_nack. by destruct (0 <? n). Qed.
Lemma count_pos_quiet k n c : quiet c (count_pos k n c).
Proof. unfold count_pos. by destruct (0 <? n). Qed.
Lemma quiet_if (b : bool) c1 c2 c : quiet c c1 → quiet c c2 → quiet c (if b then c1 else c2).
Proof. by destruct b. Qed.
#[local] Instance quiet_preorder : PreOrder quiet.
Proof. split; [done|]. intros a b c [H1 H2] [H3 H4]. split; congruence. Qed.

Lemma count_batch_quiet d n k t c : quiet c (count_batch d n k t c).
Proof.
  unfold count_batch. cbv zeta. apply (quiet_if (0 <? _)); [etrans; [|apply count_by_quiet]|];
    repeat (etrans; [|apply count_pos_quiet]); repeat (etrans; [|apply count_internal_nack_quiet]);
    by apply quiet_if.
Qed.

Lemma handle_push_batch_said fe d records sid c c' out :
  fe_write fe = Written → records ≠ [] → blen records ≤ MAX_BATCH_RECORDS_HARD_CAP →
  handle_push_batch fe d records sid c = (c', out) →
  (∃ e us, out = Return (Err e) ∧ cn_out c' = cn_out c ∧
     cn_pushed c' = cn_pushed c ++ (pair (Z.to_nat sid) <$> us)) ∨
  (out = Next ∧ ∃ resp us, said sid c c' resp us ∧ response_ok resp ∧ batch_truth fe d records sid us resp).
Proof.
  intros Hw Hne Hcap H. unfold handle_push_batch in H. rewrite Hw in H.
  destruct (enqueue_batch _ _ _ _ _ _) as [[receivers|e] c1] eqn:E; apply enqueue_batch_spec in E as (us & Hp & Ho & _ & Hu & Hr).
  2:{ injection H as <- <-. left. by exists e, us. }
  right. destruct (Hr receivers eq_refl) as (Hl & Hf & Hj). clear Hr.
  set (rxs := receivers ++ replicate (length records - length receivers) None) in *.
  destruct (await_acks_spec rxs) as (Hal & Haj & _). rewrite respond_written in H.
  match type of H with (_, _) = (_, _) => injection H as <- <- end. split; [done|].
  exists (RAckBatch (at_accepted (await_acks rxs))), us.
  assert (Hlen : length (at_accepted (await_acks rxs)) = length records).
  { rewrite Hal. unfold rxs. rewrite length_app, length_replicate. lia. }
  split; [|split].
  - destruct (count_batch_quiet d (blen records) (blen (filter is_Some receivers)) (await_acks rxs) c1) as [Hq1 Hq2].
    split; cbn [cn_out cn_pushed]; [by rewrite Hq1, Ho|by rewrite Hq2, Hp].
  - cbn. unfold blen in *. rewrite Hlen. destruct records; [done|]. cbn [length] in *. lia.
  - split; [done|]. intros i Hi. destruct (Haj i Hi) as (o & Hrx & Hd).
    assert (Hi' : receivers !! i = Some (Some (AckSent o))).
    { unfold rxs in Hrx. apply lookup_app_Some in Hrx as [?|[_ [? _]%lookup_replicate]]; done. }
    apply Hj in Hi' as (Ha & u & Hiu). destruct (Hu i u Hiu) as (record & Hrec & ->). by exists record, o.
Qed.

(** *** Frames *)

(** The frame at the head of the input, if it is whole and verified. *)
Definition request (input : bytes) : option (Header * bytes) :=
  '(header_buf, rest) ← read_exact HEADER_LEN input;
  match header_decode header_buf with
  | Err _ => None
  | Ok header =>
    '(payload, rest) ← read_exact (h_payload_len header) rest;
    '(crc_buf, _) ← read_exact 4 rest;
    if le_val crc_buf =? crc32_hash payload then Some (header, payload) else None
  end.

Definition frame_truth (cfg : ConnectionConfig) (fe : FrameEnv) (input : bytes) (us : list WorkUnit)
    (resp : Response) : Prop :=
  match resp with
  | RAck | RAckTracked _ => ∃ h payload tracked, request input = Some (h, payload) ∧
      h_message_type h = (if tracked : bool then PushTracked else Push) ∧
      push_truth fe (h_durability h) payload (cc_shard_id cfg) tracked us resp
  | RAckBatch _ => ∃ h payload records, request input = Some (h, payload) ∧ h_message_type h = PushBatch ∧
      decode_batch_body payload (cc_max_batch_records cfg) (cc_max_payload_bytes cfg) = Ok records ∧
      batch_truth fe (h_durability h) records (cc_shard_id cfg) us resp
  | _ => True
  end.

(** The connection stays open unless a permanent reason was given. *)
Definition outcome_of (resp : Response) : Outcome :=
  match resp with RNack NInternalError _ => Next | RNack _ _ => Return (Ok tt) | _ => Next end.

(** The handler answered: what it said, pushed and did next. *)
Definition answered (cfg : ConnectionConfig) (fe : FrameEnv) (input : bytes) (c c' : Conn) (out : Outcome) : Prop :=
  ∃ resp us, said (cc_shard_id cfg) c c' resp us ∧ response_ok resp ∧ out = outcome_of resp ∧
    frame_truth cfg fe input us resp.

(** It returned without an answer, having pushed [us]. *)
Definition unanswered (cfg : ConnectionConfig) (c c' : Conn) (out : Outcome) : Prop :=
  ∃ us r, cn_out c' = cn_out c ∧ cn_pushed c' = cn_pushed c ++ (pair (Z.to_nat (cc_shard_id cfg)) <$> us) ∧
    out = Return r.

Lemma nack_close_answered cfg fe input tier wire metric extra c c' out :
  nack_close Written tier wire metric extra c = (c', out) → wire ≠ NInternalError → blen extra ≤ 1 →
  answered cfg fe input c c' out.
Proof.
  intros [= <- <-] Hw He. exists (RNack wire extra), []. split; [split; [done|cbn; by rewrite app_nil_r]|].
  split; [done|]. split; [|done]. by destruct wire.
Qed.

Lemma admission_quiet cfg fe c r c' : admission_refusal cfg fe c = (r, c') → quiet c c'.
Proof.
  unfold admission_refusal. destruct (fe_ownership_lost fe); [by intros [= <- <-]|].
  destruct (evaluate _ _ _) as [over flag]. by intros [= <- <-].
Qed.

Lemma refuse_answered cfg fe input tier r c c1 c' out :
  quiet c c1 → refuse Written tier r c1 = (c', out) → answered cfg fe input c c' out.
Proof.
  intros [Ho Hp] H. unfold refuse in H. rewrite respond_written in H. injection H as <- <-.
  exists (RNack NInternalError []), []. unfold said, count_internal_nack. cbn [Z.ltb Z.compare].
  split; [|done]. rewrite app_nil_r, <-Ho, <-Hp. by destruct (decide (r = WabCap)).
Qed.

Lemma said_quiet sid c c1 c' resp us : quiet c c1 → said sid c1 c' resp us → said sid c c' resp us.
Proof. intros [Ho Hp] [Ho' Hp']. split; congruence. Qed.

Lemma dispatch_answered cfg fe input header payload c c' out :
  fe_write fe = Written → request input = Some (header, payload) →
  dispatch cfg fe header payload c = (c', out) →
  answered cfg fe input c c' out ∨ unanswered cfg c c' out.
Proof.
  intros Hw Hreq H. unfold dispatch in H.
  assert (Hpush : ∀ tracked, h_message_type header = (if tracked : bool then PushTracked else Push) →
    match admission_refusal cfg fe c with
    | (Some refusal, c) => refuse (fe_write fe) (h_durability header) refusal c
    | (None, c) => handle_push fe (h_durability header) payload (cc_shard_id cfg) tracked
                     (count (RecordsAccepted (h_durability header)) c)
    end = (c', out) → answered cfg fe input c c' out ∨ unanswered cfg c c' out).
  { intros tracked Ht Hc. destruct (admission_refusal cfg fe c) as [[r|] c1] eqn:Ea; apply admission_quiet in Ea.
    { left. rewrite Hw in Hc. by eapply refuse_answered. }
    apply handle_push_said in Hc as [(e & _ & -> & ->)|(-> & resp & us & Hs & Hok & Ht')]; [right|left|done].
    - destruct Ea as [Ho Hp]. exists [], (Err e). cbn. rewrite app_nil_r. by split.
    - exists resp, us. split; [by eapply said_quiet|]. split; [done|].
      destruct resp; cbn in Ht'; try done; cbn [outcome_of frame_truth]; [split; [done|]; by exists header, payload, tracked..|].
      by destruct Ht' as [-> ->]. }
  destruct (h_message_type header) eqn:Hmt; rewrite ?Hw in H; try (left; by eapply nack_close_answered).
  - rewrite <-Hw in H. by apply (Hpush false).
  - left. injection H as <- <-. exists RHealth, []. split; [split; [done|cbn; by rewrite app_nil_r]|done].
  - rewrite <-Hw in H. by apply (Hpush true).
  - destruct (admission_refusal cfg fe c) as [[r|] c1] eqn:Ea; apply admission_quiet in Ea.
    { left. by eapply refuse_answered. }
    destruct (decode_batch_body _ _ _) as [records|e] eqn:Ed.
    + pose proof (decode_batch_body_Ok _ _ _ _ Ed) as (_ & Hn & _).
      apply handle_push_batch_said in H as [(e & us & -> & Ho & Hp)|(-> & resp & us & Hs & Hok & Ht)]; try done.
      * right. destruct Ea as [Ho' Hp']. exists us, (Err e). split; [cbn in Ho; congruence|]. split; [cbn in Hp; congruence|done].
      * left. exists resp, us. split; [by eapply said_quiet|]. split; [done|].
        destruct resp; cbn in Ht; try done. split; [done|]. by exists header, payload, records.
      * intros ->. unfold blen in Hn. cbn in Hn. lia.
      * unfold MAX_BATCH_RECORDS_HARD_CAP in *. lia.
    + left. destruct Ea as [Ho Hp].
      apply (nack_close_answered cfg fe input) in H as (resp & us & [Hs1 Hs2] & Hrest); [|by destruct e|done].
      exists resp, us. split; [|done]. split; congruence.
Qed.

(** A header that does not decode is refused with a permanent reason. *)
Lemma decode_error_permanent buf e :
  header_decode buf = Err e →
  (nack_for_decode_error e).1.1 ≠ NInternalError ∧ blen (nack_for_decode_error e).2 ≤ 1.
Proof.
  unfold header_decode, map_err. destruct (message_type_try_from (buf !!! 5%nat)) as [mt|v], (durability_try_from (buf !!! 6%nat)) as [d|v'];
    intros H; repeat (split_hyp H; try done); simplify_eq; by split.
Qed.

Lemma conn_read_Ok fate n c b c1 :
  conn_read fate n c = Ok (b, c1) →
  fate = Reads ∧ ∃ rest, read_exact n (cn_in c) = Some (b, rest) ∧ c1 = set_in rest c.
Proof.
  unfold conn_read. destruct fate; try done. destruct (read_exact n (cn_in c)) as [[b' rest]|]; [|done].
  intros [= <- <-]. by eauto.
Qed.

Lemma conn_read_Err cfg fate n c c' out : conn_read fate n c = Err (c', out) → unanswered cfg c c' out.
Proof.
  unfold conn_read. destruct fate; [destruct (read_exact n (cn_in c)) as [[]|]|..]; intros [= <- <-];
    eexists [], _; cbn; rewrite app_nil_r; by repeat split.
Qed.

Lemma gone_is_ok_unanswered cfg c c1 out1 c' out :
  unanswered cfg c c1 out1 → gone_is_ok (c1, out1) = (c', out) → unanswered cfg c c' out.
Proof.
  intros (us & r & Ho & Hp & ->). destruct r as [[]|[]]; intros [= <- <-]; by eexists us, _.
Qed.

Lemma handle_frame_answered cfg fe c c' out :
  fe_write fe = Written → handle_frame cfg fe c = (c', out) →
  answered cfg fe (cn_in c) c c' out ∨ unanswered cfg c c' out.
Proof.
  intros Hw H. unfold handle_frame in H. rewrite Hw in H.
  destruct (fe_shutdown fe).
  { injection H as <- <-. right. eexists [], _. cbn. rewrite app_nil_r. by repeat split. }
  destruct (conn_read (fe_header fe) HEADER_LEN c) as [[hb c1]|[c1 out1]] eqn:E1.
  2:{ right. eapply gone_is_ok_unanswered; [by eapply conn_read_Err|done]. }
  apply conn_read_Ok in E1 as (_ & rest & Hr1 & ->).
  destruct (header_decode hb) as [header|e] eqn:Eh.
  2:{ left. pose proof (decode_error_permanent _ _ Eh) as [Hperm Hx].
      destruct (nack_for_decode_error e) as [[wire metric] extra]. cbn in Hperm, Hx. by apply (nack_close_answered cfg fe (cn_in c)) in H. }
  destruct (_ <? _); [left; by apply (nack_close_answered cfg fe (cn_in c)) in H|].
  destruct (_ && _); [left; by apply (nack_close_answered cfg fe (cn_in c)) in H|].
  destruct (conn_read (fe_payload fe) _ _) as [[payload c2]|[c2 out2]] eqn:E2.
  2:{ right. simplify_eq. by apply (conn_read_Err cfg) in E2. }
  apply conn_read_Ok in E2 as (_ & rest2 & Hr2 & ->).
  destruct (conn_read (fe_crc fe) _ _) as [[crc c3]|[c3 out3]] eqn:E3.
  2:{ right. simplify_eq. by apply (conn_read_Err cfg) in E3. }
  apply conn_read_Ok in E3 as (_ & rest3 & Hr3 & ->).
  destruct (Z.eqb_spec (le_val crc) (crc32_hash payload)) as [Hcrc|]; cbn [negb] in H.
  2:{ left. by apply (nack_close_answered cfg fe (cn_in c)) in H. }
  apply (dispatch_answered _ _ (cn_in c)) in H as [H|H]; [by left|by right|done|].
  unfold request. rewrite Hr1. cbn [mbind option_bind]. rewrite Eh. cbn [cn_in set_in] in Hr2, Hr3.
  rewrite Hr2. cbn [mbind option_bind]. rewrite Hr3. cbn [mbind option_bind]. by rewrite Hcrc, Z.eqb_refl.
Qed.

(** *** Claims *)

(** C34: no positive answer on the wire is made up. If the bytes the handler writes for a
    frame decode, at the client, to an acknowledgement, then the frame was the matching
    kind of push, its record (for a batch, the record of each set bit) went into the queue
    unchanged under the connection's shard, and the flusher resolved that very unit as
    durable; a tracked acknowledgement carries the address the flusher gave, with the digest
    of that address and payload. *)
Theorem wire_ack_truthful cfg fe c c' out sent e :
  handle_frame cfg fe c = (c', out) → fe_write fe = Written → cn_out c' = cn_out c ++ sent →
  envelope_decode sent = Ok e →
  ∃ us, cn_pushed c' = cn_pushed c ++ (pair (Z.to_nat (cc_shard_id cfg)) <$> us) ∧
  match h_message_type (e_header e) with
  | Ack => frame_truth cfg fe (cn_in c) us RAck
  | AckTracked => ∃ k, e_payload e = coordinate_encode k ∧ frame_truth cfg fe (cn_in c) us (RAckTracked k)
  | AckBatch => ∃ acc, decode_ack_batch (e_payload e) (length acc) = Ok acc ∧
      frame_truth cfg fe (cn_in c) us (RAckBatch acc)
  | _ => True
  end.
Proof.
  intros H Hw Hs He. apply handle_frame_answered in H as [(resp & us & [Ho Hp] & Hok & _ & Ht)|(us & r & Ho & _)]; [| |done].
  2:{ rewrite Ho in Hs. assert (sent = []) as -> by (apply (app_inv_head (cn_out c)); by rewrite app_nil_r).
      done. }
  rewrite Ho in Hs. apply app_inv_head in Hs as <-. exists us. split; [done|].
  destruct (response_decodes resp Hok) as (e' & He' & Hty & Hpl). rewrite He in He'. injection He' as <-.
  rewrite Hty.
  destruct resp as [|k|acc|reason extra|]; cbn [response_type response_payload] in *; try done.
  - by exists k.
  - exists acc. split; [|done]. rewrite Hpl. apply decode_encode_ack_batch. cbn in Hok.
    unfold MAX_BATCH_RECORDS_HARD_CAP, u16_max in *. lia.
Qed.

(** A nack tells the client whether the connection is still usable. Every frame that
    is answered gets exactly one response, and the handler goes on to the next frame unless
    that response is a nack with a reason other than [InternalError], after which it
    returns. *)
Theorem nack_reason_tells_if_open cfg fe c c' out sent :
  handle_frame cfg fe c = (c', out) → fe_write fe = Written → cn_out c' = cn_out c ++ sent →
  (sent = [] ∧ ∃ r, out = Return r) ∨
  ∃ e, envelope_decode sent = Ok e ∧
    out = match h_message_type (e_header e), e_payload e with
          | Nack, b :: _ => if decide (nack_try_from b = Ok NInternalError) then Next else Return (Ok tt)
          | _, _ => Next
          end.
Proof.
  intros H Hw Hs. apply handle_frame_answered in H as [(resp & us & [Ho _] & Hok & -> & _)|(us & r & Ho & _ & ->)]; [| |done].
  - right. rewrite Ho in Hs. apply app_inv_head in Hs as <-.
    destruct (response_decodes resp Hok) as (e & He & Ht & Hp). exists e. split; [done|]. rewrite Ht, Hp.
    destruct resp as [| | |reason extra|]; try done. cbn [response_type response_payload outcome_of].
    rewrite nack_roundtrip. by destruct reason.
  - left. rewrite Ho in Hs. split; [|by exists r]. apply (app_inv_head (cn_out c)). by rewrite app_nil_r.
Qed.
End ConnectionProofs.

(** ** Proofs: the units a connection pushes *)

Section Admission.
Context {CRC : Crc32} {SHA : Sha256}.

(** Keyed by the connection's shard, not empty and within the hard cap. *)
Definition unit_ok (cfg : ConnectionConfig) (x : nat * WorkUnit) : Prop :=
  x.1 = Z.to_nat (cc_shard_id cfg) ∧ wu_shard_id x.2 = cc_shard_id cfg ∧
  0 < blen (wu_payload x.2) ≤ MAX_PAYLOAD_HARD_CAP.

(** [c'] has pushed only such units since [c]. *)
Definition pushes_ok (cfg : ConnectionConfig) (c c' : Conn) : Prop :=
  ∃ xs, cn_pushed c' = cn_pushed c ++ xs ∧ Forall (unit_ok cfg) xs.

#[local] Instance pushes_ok_preorder cfg : PreOrder (pushes_ok cfg).
Proof.
  split.
  - intros c. exists []. by rewrite app_nil_r.
  - intros a b c (xs & H1 & F1) (ys & H2 & F2). exists (xs ++ ys). rewrite H2, H1, app_assoc.
    split; [done|by apply Forall_app_2].
Qed.

Lemma pushes_ok_same cfg c c' : cn_pushed c' = cn_pushed c → pushes_ok cfg c c'.
Proof. intros H. exists []. by rewrite app_nil_r. Qed.

Lemma respond_pushed fate frame c k :
  (∀ c, cn_pushed (k c).1 = cn_pushed c) → cn_pushed (respond fate frame c k).1 = cn_pushed c.
Proof. intros H. unfold respond, conn_write. destruct fate; [by rewrite H|done]. Qed.

Lemma count_internal_nack_pushed k n c : cn_pushed (count_internal_nack k n c) = cn_pushed c.
Proof. apply count_internal_nack_quiet. Qed.

Lemma nack_internal_pushed fate tier cause c : cn_pushed (nack_internal fate tier cause c).1 = cn_pushed c.
Proof. apply respond_pushed. intros c1. cbn [fst]. by rewrite count_internal_nack_pushed. Qed.

Lemma nack_close_pushed fate tier wire metric extra c : cn_pushed (nack_close fate tier wire metric extra c).1 = cn_pushed c.
Proof. by apply respond_pushed. Qed.

Lemma refuse_pushed fate tier r c : cn_pushed (refuse fate tier r c).1 = cn_pushed c.
Proof.
  apply respond_pushed. intros c1. cbn [fst]. rewrite count_internal_nack_pushed. by destruct (decide _).
Qed.

Lemma handle_push_pushes cfg fe d payload tracked c :
  0 < blen payload ≤ MAX_PAYLOAD_HARD_CAP →
  pushes_ok cfg c (handle_push fe d payload (cc_shard_id cfg) tracked c).1.
Proof.
  intros Hp. unfold handle_push. destruct (enqueue _) as [[|]|e]; [|apply pushes_ok_same, nack_internal_pushed|done].
  match goal with |- context [push_unit ?x c] => set (c1 := push_unit x c); assert (H1 : pushes_ok cfg c c1) end.
  { eexists. split; [done|]. apply Forall_cons_2; [done|constructor]. }
  etrans; [exact H1|]. apply pushes_ok_same. clearbody c1. destruct (pf_ack _) as [o| |]; [|by rewrite nack_internal_pushed..].
  destruct (ao_durable o); [|by rewrite nack_internal_pushed].
  destruct tracked; [|by rewrite respond_pushed].
  destruct (option_map _ _) as [[k|]|]; [by rewrite respond_pushed|by rewrite nack_internal_pushed..].
Qed.

Lemma enqueue_batch_pushes cfg fe d i rs c r c' :
  enqueue_batch fe d (cc_shard_id cfg) i rs c = (r, c') →
  Forall (λ p, 0 < blen p ≤ MAX_PAYLOAD_HARD_CAP) rs → pushes_ok cfg c c'.
Proof.
  intros H Hrs. apply enqueue_batch_spec in H as (us & Hp & _ & _ & Hu & _).
  eexists. split; [exact Hp|]. apply Forall_fmap, Forall_lookup_2. intros j u Hj.
  apply Hu in Hj as (rec & Hrec & ->). by pose proof (Forall_lookup_1 _ _ _ _ Hrs Hrec).
Qed.

Lemma handle_push_batch_pushes cfg fe d rs c :
  Forall (λ p, 0 < blen p ≤ MAX_PAYLOAD_HARD_CAP) rs →
  pushes_ok cfg c (handle_push_batch fe d rs (cc_shard_id cfg) c).1.
Proof.
  intros Hrs. unfold handle_push_batch. destruct (enqueue_batch _ _ _ _ _ _) as [[receivers|e] c1] eqn:E;
    apply enqueue_batch_pushes in E; [|done|done|done].
  etrans; [exact E|]. apply pushes_ok_same. rewrite respond_pushed by done. apply count_batch_quiet.
Qed.

Lemma dispatch_pushes cfg fe header payload c :
  blen payload ≤ MAX_PAYLOAD_HARD_CAP → (is_push (h_message_type header) = true → 0 < blen payload) →
  pushes_ok cfg c (dispatch cfg fe header payload c).1.
Proof.
  intros Hcap Hpos. unfold dispatch.
  destruct (admission_refusal cfg fe c) as [r c1] eqn:Ea; apply admission_quiet in Ea as [_ Ea].
  assert (Hpush : ∀ tracked, 0 < blen payload → pushes_ok cfg c
    match r with
    | Some refusal => refuse (fe_write fe) (h_durability header) refusal c1
    | None => handle_push fe (h_durability header) payload (cc_shard_id cfg) tracked
                (count (RecordsAccepted (h_durability header)) c1)
    end.1).
  { intros tracked H0. destruct r as [r|]; [apply pushes_ok_same; by rewrite refuse_pushed|].
    etrans; [apply (pushes_ok_same _ _ _ Ea)|]. etrans; [|apply handle_push_pushes; lia]. by apply pushes_ok_same. }
  assert (Hbad : ∀ tier wire metric, pushes_ok cfg c (nack_close (fe_write fe) tier wire metric [] c).1).
  { intros. apply pushes_ok_same, nack_close_pushed. }
  destruct (h_message_type header) eqn:Hm; cbn [is_push] in Hpos.
  - apply Hpush. by apply Hpos.
  - apply Hbad.
  - apply Hbad.
  - apply pushes_ok_same, respond_pushed. intros. reflexivity.
  - apply Hbad.
  - apply Hpush. by apply Hpos.
  - apply Hbad.
  - destruct r as [r|]; [apply pushes_ok_same; by rewrite refuse_pushed|].
    etrans; [apply (pushes_ok_same _ _ _ Ea)|].
    destruct (decode_batch_body _ _ _) as [rs|e] eqn:Ed; [|apply pushes_ok_same, nack_close_pushed].
    etrans; [|apply handle_push_batch_pushes]; [by apply pushes_ok_same|].
    apply decode_batch_body_Ok in Ed as (_ & _ & Hf). eapply Forall_impl; [|exact Hf]. intros p. unfold record_ok. lia.
  - apply Hbad.
Qed.

Lemma conn_read_pushed fate n c r : conn_read fate n c = Err r → cn_pushed r.1 = cn_pushed c.
Proof. unfold conn_read. destruct fate; [destruct (read_exact _ _) as [[]|]|..]; by intros [= <-]. Qed.

Lemma header_decode_len buf h : header_decode buf = Ok h → 0 ≤ h_payload_len h.
Proof.
  unfold header_decode, map_err. destruct (message_type_try_from (buf !!! 5%nat)), (durability_try_from (buf !!! 6%nat));
    intros H; repeat (split_hyp H; try done); simplify_eq; cbn; apply le_val_range.
Qed.

Lemma handle_frame_pushes cfg fe c : pushes_ok cfg c (handle_frame cfg fe c).1.
Proof.
  unfold handle_frame. destruct (fe_shutdown fe); [done|].
  destruct (conn_read (fe_header fe) HEADER_LEN c) as [[hb c1]|r] eqn:E1.
  2:{ apply pushes_ok_same. apply conn_read_pushed in E1. rewrite <-E1. by destruct r as [c1 [|[[]|[]]]]. }
  apply conn_read_Ok in E1 as (_ & rest & Hr1 & ->).
  destruct (header_decode hb) as [header|e] eqn:Eh; [|destruct (nack_for_decode_error e) as [[? ?] ?]; apply pushes_ok_same; by rewrite nack_close_pushed].
  destruct (Z.ltb_spec (Z.min (cc_max_payload_bytes cfg) MAX_PAYLOAD_HARD_CAP) (h_payload_len header)) as [|Hcap]; [apply pushes_ok_same; by rewrite nack_close_pushed|].
  destruct (_ && _) eqn:Hz; [apply pushes_ok_same; by rewrite nack_close_pushed|].
  destruct (conn_read (fe_payload fe) _ _) as [[payload c2]|r] eqn:E2; [|by apply pushes_ok_same; apply conn_read_pushed in E2].
  apply conn_read_Ok in E2 as (_ & rest2 & Hr2 & ->).
  destruct (conn_read (fe_crc fe) _ _) as [[crc c3]|r] eqn:E3; [|by apply pushes_ok_same; apply conn_read_pushed in E3].
  apply conn_read_Ok in E3 as (_ & rest3 & Hr3 & ->).
  destruct (negb _); [apply pushes_ok_same; by rewrite nack_close_pushed|].
  etrans; [|apply dispatch_pushes]; [by apply pushes_ok_same|..].
  - apply header_decode_len in Eh. apply read_exact_Some in Hr2 as [_ Hl]; [|done]. lia.
  - apply header_decode_len in Eh. apply read_exact_Some in Hr2 as [_ Hl]; [|done]. intros Hpush.
    rewrite Hpush, andb_true_r in Hz. b2p. lia.
Qed.

(** Whatever a client sends, and however the socket, the queue and the flusher behave,
    a connection pushes only units of its own shard, under that shard's key, whose payload
    is not empty and within the hard cap: what the queue's order and the segment format
    rely on. *)
Theorem connection_pushes_admissible cfg fes c c' r :
  handle_connection cfg fes c = (c', r) → pushes_ok cfg c c'.
Proof.
  revert c. induction fes as [|fe fes IH]; intros c H; cbn [handle_connection] in H; [by simplify_eq|].
  pose proof (handle_frame_pushes cfg fe c) as Hf. destruct (handle_frame cfg fe c) as [c1 [|r1]].
  - etrans; [exact Hf|by apply IH].
  - simplify_eq. exact Hf.
Qed.
End Admission.

(** ** Proofs: the accounting of a batch *)

Section Accounting.
Context {CRC : Crc32} {SHA : Sha256}.

(** How much a counter moved. *)
Definition moved (c c' : Conn) (k : ConnCounter) : Z := cn_counts c' k - cn_counts c k.

Lemma moved_trans c c1 c' k : moved c c' k = moved c c1 k + moved c1 c' k.
Proof. unfold moved. lia. Qed.

Lemma moved_count_by k n c k' : moved c (count_by k n c) k' = if decide (k' = k) then n else 0.
Proof. unfold moved. cbn. destruct (decide (k' = k)); lia. Qed.

Lemma moved_pos k n c k' : moved c (count_pos k n c) k' = if decide (k' = k) then Z.max 0 n else 0.
Proof.
  unfold count_pos. destruct (Z.ltb_spec 0 n); [rewrite moved_count_by|unfold moved]; destruct (decide _); lia.
Qed.

Lemma moved_internal cause n c k :
  moved c (count_internal_nack cause n c) k = if decide (k = RecordsNackInternal cause) then Z.max 0 n else 0.
Proof. apply moved_pos. Qed.

Lemma moved_if (b : bool) c1 c2 c k : moved c (if b then c1 else c2) k = if b then moved c c1 k else moved c c2 k.
Proof. by destruct b. Qed.

Lemma moved_refl c k : moved c c k = 0.
Proof. unfold moved. lia. Qed.

(** Follow the counters of a batch one by one. *)
Ltac follow := repeat first
  [ rewrite moved_if | rewrite moved_refl
  | match goal with
    | |- context [moved ?a (count_pos ?k ?n ?b) ?x] =>
        rewrite (moved_trans a b (count_pos k n b)), moved_pos
    | |- context [moved ?a (count_internal_nack ?k ?n ?b) ?x] =>
        rewrite (moved_trans a b (count_internal_nack k n b)), moved_internal
    | |- context [moved ?a (count_by ?k ?n ?b) ?x] =>
        rewrite (moved_trans a b (count_by k n b)), moved_count_by
    end ].

Lemma count_batch_moved d n e t c k :
  moved c (count_batch d n e t c) k =
    (if decide (k = AckTimeouts) then (if at_timed_out t then 1 else 0) else 0)
    + (if decide (k = RecordsNackInternal queue_full) then Z.max 0 (n - e) else 0)
    + (if decide (k = RecordsNackInternal write_failed) then Z.max 0 (at_write_failed t) else 0)
    + (if decide (k = RecordsNackInternal sender_dropped) then Z.max 0 (at_dropped t) else 0)
    + (if decide (k = RecordsNackInternal ack_timeout)
       then Z.max 0 (e - at_acked t - at_write_failed t - at_dropped t) else 0)
    + (if decide (k = RecordsAck d) then Z.max 0 (at_acked t) else 0)
    + (if decide (k = RecordsNack d NInternalError) then Z.max 0 (n - at_acked t) else 0)
    + (if decide (k = BatchPartial) then (if 0 <? n - at_acked t then 1 else 0) else 0).
Proof.
  unfold count_batch, count. cbv zeta. follow.
  destruct (0 <? n - at_acked t), (at_timed_out t), (decide (k = AckTimeouts)), (decide (k = BatchPartial)); lia.
Qed.

Lemma filter_None_pad {A} (l : list (option A)) m : filter is_Some (l ++ replicate m None) = filter is_Some l.
Proof.
  rewrite list.filter_app. replace (filter is_Some (replicate m None)) with (@nil (option A)); [by rewrite app_nil_r|].
  induction m as [|m IH]; [done|]. cbn [replicate]. rewrite filter_cons_False; [done|by intros []].
Qed.

(** The counters that matter, one at a time. *)
Ltac settle := repeat first [rewrite decide_True by reflexivity | rewrite decide_False by discriminate].

Lemma count_batch_totals d n e t c :
  let m := moved c (count_batch d n e t c) in
  m (RecordsAck d) = Z.max 0 (at_acked t) ∧ m (RecordsNack d NInternalError) = Z.max 0 (n - at_acked t) ∧
  m (RecordsNackInternal queue_full) = Z.max 0 (n - e) ∧
  m (RecordsNackInternal write_failed) = Z.max 0 (at_write_failed t) ∧
  m (RecordsNackInternal sender_dropped) = Z.max 0 (at_dropped t) ∧
  m (RecordsNackInternal ack_timeout) = Z.max 0 (e - at_acked t - at_write_failed t - at_dropped t).
Proof. intros m. unfold m. repeat split; rewrite count_batch_moved; settle; lia. Qed.

End Accounting.

(** ** Witnesses *)

Module ConnectionWitness.
#[local] Existing Instance Crc32Ieee.ieee.
#[local] Existing Instance Crc32Ieee.ieee_laws.
#[local] Existing Instance ShaPrefix.prefix.
#[local] Existing Instance ShaPrefix.prefix_laws.

Definition cfg : ConnectionConfig := mkConnectionConfig 1048576 100 3 0.
Definition outcome : AckOutcome := ack_durable (Some (mkRecordSlot (bstr "shard_03/seg_00000001.wab.sealed") 1)).
(** The queue takes the first record and the flusher acks it; the second finds it full. *)
Definition fates (i : nat) : PushFate :=
  mkPushFate (i =? 0)%nat (Some false) (AckSent outcome) (Z.of_nat i).
Definition env : FrameEnv := mkFrameEnv false Reads Reads Reads false 0 false fates Written.
Definition fresh (input : bytes) : Conn := mkConn input [] [] false (λ _, 0).

Definition frame (mt : MessageType) (payload : bytes) : bytes :=
  envelope_encode (envelope_new (header_new mt Durable x00) payload).
Definition after (input : bytes) : Conn := (handle_frame cfg env (fresh input)).1.

Definition tracked_push : bytes := frame PushTracked (bstr "hello").
Definition batch_push : bytes := frame PushBatch (encode_batch_body [bstr "ab"; bstr "c"]).

(** The type of the reply to [input]. *)
Definition reply_type (input : bytes) : option MessageType :=
  match envelope_decode (cn_out (after input)) with Ok e => Some (h_message_type (e_header e)) | Err _ => None end.
Definition step (input : bytes) : handle_frame cfg env (fresh input) = (after input, (handle_frame cfg env (fresh input)).2) :=
  surjective_pairing _.

Lemma reply_decodes input mt :
  reply_type input = Some mt → ∃ e, envelope_decode (cn_out (after input)) = Ok e ∧ h_message_type (e_header e) = mt.
Proof. unfold reply_type. destruct (envelope_decode _) as [e|]; [|done]. intros [= <-]. by exists e. Qed.

(** The client is told the address of its record. *)
Lemma wire_ack_truthful_witness :
  ∃ us k, cn_pushed (after tracked_push) = pair 3%nat <$> us ∧
    frame_truth cfg env tracked_push us (RAckTracked k).
Proof.
  destruct (reply_decodes tracked_push AckTracked) as (e & He & Ht); [vm_compute; reflexivity|].
  destruct (wire_ack_truthful cfg env (fresh tracked_push) _ _ (cn_out (after tracked_push)) e (step tracked_push)
    eq_refl eq_refl He) as (us & Hp & Hm).
  rewrite Ht in Hm. destruct Hm as (k & _ & Hk). exists us, k. split; [exact Hp|exact Hk].
Defined.

(** An empty push is refused for good. *)
Lemma nack_reason_tells_if_open_witness :
  reply_type (frame Push []) = Some Nack ∧ (handle_frame cfg env (fresh (frame Push []))).2 = Return (Ok tt).
Proof.
  split; [vm_compute; reflexivity|].
  destruct (nack_reason_tells_if_open cfg env (fresh (frame Push [])) _ _ (cn_out (after (frame Push [])))
    (step (frame Push [])) eq_refl eq_refl) as [[H _]|(e & He & ->)].
  - exfalso. vm_compute in H. discriminate.
  - vm_compute in He. injection He as <-. reflexivity.
Defined.

Lemma connection_pushes_admissible_witness :
  pushes_ok cfg (fresh (tracked_push ++ batch_push))
    (handle_connection cfg [env; env] (fresh (tracked_push ++ batch_push))).1.
Proof.
  exact (connection_pushes_admissible cfg [env; env] _ _ _ (surjective_pairing _)).
Defined.

(** The tracked record and the first record of the batch go into the queue. *)
Example pushed_units :
  map (λ x, wu_payload x.2) (cn_pushed (handle_connection cfg [env; env] (fresh (tracked_push ++ batch_push))).1)
  = [bstr "hello"; bstr "ab"].
Proof. vm_compute. reflexivity. Qed.

End ConnectionWitness.
