(* ===== verification/System.v ===== *)
(** * From the producer's ack to the reader

    The connection handler joined to the flusher, the crashes, the startup recoveries and
    the segment reader: what an acknowledgement frame on the wire is worth. *)

From Stdlib Require Import ZArith Lia Strings.Byte String.
From stdpp Require Import base gmap list option sets relations.
From S2P Require Import Prelude Deps Sink Wire Batch Text Coordinate Names Io Fs Durable Format Reader Segment Handoff Flusher Recovery Durability Shards Connection.

Section System.
Context {CRC : Crc32} {CL : Crc32Laws} {ZS : Zstd} {ZL : ZstdLaws} {SHA : Sha256} {SL : Sha256Laws}.

(** The outcomes the connection receives for the units it pushed while handling this frame
    are those the flusher sent for these units: the oneshot channels connect the two. *)
Definition acks_from (log : AckLog) (fe : FrameEnv) (cn cn' : Conn) : Prop :=
  ∀ i key u o, cn_pushed cn' !! (length (cn_pushed cn) + i)%nat = Some (key, u) →
    pf_ack (fe_push fe i) = AckSent o → (u, o) ∈ log.

(** A payload is read back, after everything that happened, from the segment and position
    that [slot] names. *)
Definition readable (w : World) (sw : ShardWriter) (payload : bytes) (slot : option RecordSlot) : Prop :=
  ∃ u, wu_payload u = payload ∧ delivered_from (w_fs w) sw u slot.

Lemma pushed_at cfg cn cn' us i u :
  cn_pushed cn' = cn_pushed cn ++ (pair (Z.to_nat (cc_shard_id cfg)) <$> us) → us !! i = Some u →
  cn_pushed cn' !! (length (cn_pushed cn) + i)%nat = Some (Z.to_nat (cc_shard_id cfg), u).
Proof.
  intros -> Hu. rewrite lookup_app_r by lia. replace (_ + i - _)%nat with i by lia. by rewrite list_lookup_fmap, Hu.
Qed.

Lemma pushed_fits cfg fe cn cn' out us i u :
  handle_frame cfg fe cn = (cn', out) →
  cn_pushed cn' = cn_pushed cn ++ (pair (Z.to_nat (cc_shard_id cfg)) <$> us) → us !! i = Some u → fits u.
Proof.
  intros H Hp Hu. pose proof (handle_frame_pushes cfg fe cn) as (xs & Hx & Hf). rewrite H in Hx. cbn [fst] in Hx.
  rewrite Hp in Hx. apply app_inv_head in Hx as <-. rewrite Forall_fmap in Hf.
  by pose proof (Forall_lookup_1 _ _ _ _ Hf Hu) as (_ & _ & _ & Hfit).
Qed.

(** The promise of the program, from the wire on. If the bytes a producer gets back for a
    [Durable] push decode to an acknowledgement, then after any number of crashes and
    startup recoveries the segment reader reads that payload back, byte for byte: at the
    position the acknowledgement names for a tracked push, and for a batch the payload of
    every record whose bit is set. This holds for every behaviour of the socket, the queue,
    the clock and the disk, for every interleaving of the flusher's work, and with or
    without compression, in a shard directory whose own name is durable. *)
Lemma wire_ack_is_readable fcfg es sid d mb co lvl po q hint w wab n w' cfg fe cn cn' out sent e h payload :
  fs_wf (w_fs w) → d ≠ [] → durable_dir (w_fs w) d → is_u16 sid → Forall fits (units q) → Forall fits_event es →
  d ≠ quarantine_dir wab →
  let t := flusher_run fcfg (flusher_start sid d mb co lvl po q hint w) es in
  let sw := fl_writer (ft_state t) in
  handle_frame cfg fe cn = (cn', out) → fe_write fe = Written → cn_out cn' = cn_out cn ++ sent →
  envelope_decode sent = Ok e → request (cn_in cn) = Some (h, payload) → h_durability h = Durable →
  acks_from (fl_log (ft_state t)) fe cn cn' → rtc (restart wab n) (fl_world (ft_state t)) w' →
  match h_message_type (e_header e) with
  | Ack => ∃ slot, readable w' sw payload slot
  | AckTracked => ∃ segment index, e_payload e = coordinate_encode (mkRecordCoordinate segment index (for_record segment index payload)) ∧
      readable w' sw payload (Some (mkRecordSlot segment index))
  | AckBatch => ∃ records acc, decode_batch_body payload (cc_max_batch_records cfg) (cc_max_payload_bytes cfg) = Ok records ∧
      decode_ack_batch (e_payload e) (length records) = Ok acc ∧
      ∀ i record, acc !! i = Some true → records !! i = Some record → ∃ slot, readable w' sw record slot
  | _ => True
  end.
Proof.
  intros Hwf Hd Hdur0 Hsid Hq Hes Hquar t sw H Hw Hs He Hreq Hdur Hacks Hrt.
  assert (Hread : ∀ us i u o, cn_pushed cn' = cn_pushed cn ++ (pair (Z.to_nat (cc_shard_id cfg)) <$> us) →
    us !! i = Some u → wu_durability u = Durable → pf_ack (fe_push fe i) = AckSent o → ao_durable o = true →
    readable w' sw (wu_payload u) (ao_coordinate o)).
  { intros us i u o Hp Hu Hud Ha Ho. exists u. split; [done|].
    eapply durable_ack_is_readable; try done.
    - eapply Hacks; [by eapply pushed_at|done].
    - by eapply pushed_fits. }
  apply handle_frame_answered in H as [(resp & us & [Ho Hp] & Hok & _ & Ht)|(us & r & Ho & _)]; [| |done].
  2:{ rewrite Ho in Hs. assert (sent = []) as -> by (apply (app_inv_head (cn_out cn)); by rewrite app_nil_r). done. }
  rewrite Ho in Hs. apply app_inv_head in Hs as <-.
  destruct (response_decodes resp Hok) as (e' & He' & Hty & Hpl). rewrite He in He'. injection He' as <-. rewrite Hty.
  destruct resp as [|k|acc|reason extra|]; cbn [response_type response_payload frame_truth] in *; try done.
  - destruct Ht as (h' & p' & tracked & Hr & _ & _ & -> & o & Ha & Hod). rewrite Hreq in Hr. injection Hr as <- <-.
    eexists. exact (Hread _ 0%nat _ o Hp eq_refl Hdur Ha Hod).
  - destruct Ht as (h' & p' & tracked & Hr & _ & _ & -> & o & slot & Ha & Hod & Hsl & ->). rewrite Hreq in Hr. injection Hr as <- <-.
    exists (rs_segment slot), (rs_index slot). split; [done|]. replace (Some _) with (ao_coordinate o) by (by destruct slot).
    exact (Hread _ 0%nat _ o Hp eq_refl Hdur Ha Hod).
  - destruct Ht as (h' & p' & records & Hr & _ & Hdec & Hlen & Hbits). rewrite Hreq in Hr. injection Hr as <- <-.
    exists records, acc. split; [done|]. apply decode_batch_body_Ok in Hdec as (Henc & Hcap & _). split.
    + rewrite Hpl, <-Hlen. apply decode_encode_ack_batch. cbn in Hok. unfold MAX_BATCH_RECORDS_HARD_CAP, u16_max in *. lia.
    + intros i record Hi Hrec. destruct (Hbits i Hi) as (rec' & o & Hrec' & Hu & Ha & Hod). simplify_eq.
      eexists. exact (Hread _ _ _ o Hp Hu Hdur Ha Hod).
Qed.
End System.

(** ** Witnesses *)

Module SystemWitness.
#[local] Existing Instance Crc32Ieee.ieee.
#[local] Existing Instance ZstdRaw.raw.
#[local] Existing Instance Crc32Ieee.ieee_laws.
#[local] Existing Instance ZstdRaw.raw_laws.
#[local] Existing Instance ShaPrefix.prefix.
#[local] Existing Instance ShaPrefix.prefix_laws.

(** A tracked push of the record that the flusher of [FlusherWitness] acks, and the machine
    of [DurabilityWitness] after the worst crash and a recovery. *)
Definition conn_cfg : ConnectionConfig := mkConnectionConfig 1048576 100 0 0.
Definition env : FrameEnv :=
  mkFrameEnv false Reads Reads Reads false 0 false
    (λ _, mkPushFate true None (AckSent FlusherWitness.outcome) 7) Written.
Definition conn : Conn :=
  mkConn (envelope_encode (envelope_new (header_new PushTracked Durable x00) (bstr "hello"))) [] [] false (λ _, 0).
Definition served : Conn := (handle_frame conn_cfg env conn).1.
Definition recovered_world : World := snd (recover DurabilityWitness.wab_dir 1 DurabilityWitness.rebooted).
Definition reply_type : option MessageType :=
  match envelope_decode (cn_out served) with Ok e => Some (h_message_type (e_header e)) | Err _ => None end.

Lemma acks_connected :
  acks_from (fl_log (ft_state (flusher_run FlusherWitness.cfg FlusherWitness.start [EvWake 5]))) env conn served.
Proof.
  intros [|i] key u o Hu [= <-].
  - vm_compute in Hu. injection Hu as _ <-. apply (list_elem_of_lookup_2 _ 0%nat). by vm_compute.
  - vm_compute in Hu. discriminate.
Qed.

Lemma wire_ack_is_readable_witness :
  ∃ segment index,
    readable recovered_world (fl_writer (ft_state (flusher_run FlusherWitness.cfg FlusherWitness.start [EvWake 5])))
      (bstr "hello") (Some (mkRecordSlot segment index)).
Proof.
  assert (Ht : reply_type = Some AckTracked) by (vm_compute; reflexivity). unfold reply_type in Ht.
  destruct (envelope_decode (cn_out served)) as [e|] eqn:He; [|done]. injection Ht as Ht.
  destruct (request (cn_in conn)) as [[h payload]|] eqn:Hreq; [|by vm_compute in Hreq].
  assert (Hp : payload = bstr "hello") by (vm_compute in Hreq; by injection Hreq).
  assert (Hd : h_durability h = Durable) by (vm_compute in Hreq; by injection Hreq as <- _).
  pose proof (wire_ack_is_readable FlusherWitness.cfg [EvWake 5] 0 FlusherWitness.dir 1048576 CNone 3
    FlusherWitness.port [mkBatch 0 [FlusherWitness.unit_]] 0 (fresh_world FlusherWitness.dir) DurabilityWitness.wab_dir 1 recovered_world
    conn_cfg env conn served (handle_frame conn_cfg env conn).2 (cn_out served) e h payload) as H.
  rewrite Ht, Hp in H. destruct H as (segment & index & _ & Hr).
  - by intros i n Hn.
  - discriminate.
  - clear. by apply (bool_decide_unpack _); vm_compute.
  - clear. unfold is_u16. lia.
  - clear. by repeat constructor.
  - clear. by repeat constructor.
  - discriminate.
  - apply surjective_pairing.
  - reflexivity.
  - reflexivity.
  - exact He.
  - rewrite <-Hp. exact Hreq.
  - exact Hd.
  - exact acks_connected.
  - apply rtc_once. exists DurabilityWitness.rebooted, (fst (recover DurabilityWitness.wab_dir 1 DurabilityWitness.rebooted)).
    split; [exact (worst_crash_crash (w_fs DurabilityWitness.after_ack))|unfold recovered_world; apply surjective_pairing].
  - exists segment, index. exact Hr.
Defined.
End SystemWitness.
