(* ===== verification/Client.v ===== *)
(** * The client (weir-client)

    [WeirClient] of crates/weir-client/src/client.rs over any blocking transport: the local
    guards, one frame written and one reply read per call, and the flags that make a client
    fail fast once its stream is in doubt. The text of a protocol error is the reason that
    it states. *)

From Stdlib Require Import ZArith Lia Strings.Byte String.
From stdpp Require Import base list option.
From S2P Require Import Prelude Deps Wire Batch Text Coordinate Io.

(** ** The transport *)

(** [S: Read + Write]: [write_all] and [read_exact] of a blocking stream. *)
Class Transport := {
  stream : Type;
  stream_write_all : bytes → stream → result unit ErrorKind * stream;
  stream_read_exact : Z → stream → result bytes ErrorKind * stream;
}.

(** A read that succeeds fills the buffer. *)
Class TransportLaws `{Transport} : Prop := {
  stream_read_length n s b s' : 0 ≤ n → stream_read_exact n s = (Ok b, s') → blen b = n;
}.

(** ** Outcomes *)

Record BatchOutcome := mkBatchOutcome { bo_accepted : list bool }.

Definition all_accepted (o : BatchOutcome) : bool := forallb (λ ok, ok) (bo_accepted o).
Definition rejected_indices (o : BatchOutcome) : list nat :=
  omap (λ p, if (snd p : bool) then None else Some (fst p)) (imap pair (bo_accepted o)).

(** What a protocol error says. *)
Inductive ProtocolError :=
| ClosedAfterNack | PoisonedBefore
| BadHeader (e : DecodeError) | OversizedResponse (len cap : Z) (mt : MessageType) | ResponseCrcMismatch (expected computed : Z)
| UnexpectedType (got : MessageType) | BareAckToBatch | MalformedCoordinate (e : CoordinateError) | MalformedAckBatch (e : BatchError)
| EmptyNack.

Inductive ClientError :=
| ClientIo (e : ErrorKind)
| ClientNack (reason : NackReason)
| ClientVersionMismatch (daemon_version : byte)
| ClientUnknownNack (b : byte)
| ClientPayloadTooLarge (len limit : Z)
| ClientProtocol (why : ProtocolError)
| NoDefaultDurability
| ClientEmptyPayload.

Definition is_recoverable (e : ClientError) : bool :=
  match e with
  | ClientPayloadTooLarge _ _ | NoDefaultDurability | ClientEmptyPayload => true
  | ClientNack NInternalError => true
  | ClientNack _ => false
  | ClientVersionMismatch _ | ClientUnknownNack _ => false
  | ClientIo _ | ClientProtocol _ => false
  end.

Definition MAX_RESPONSE_PAYLOAD_LEN : Z := 2.
Definition max_response_payload_len (mt : MessageType) : Z :=
  match mt with
  | AckTracked => MAX_TRACKED_ACK_PAYLOAD_LEN
  | AckBatch => Z.of_nat MAX_ACK_BATCH_PAYLOAD_LEN
  | _ => MAX_RESPONSE_PAYLOAD_LEN
  end.

(** [nack_error]: the error of a nack's payload. *)
Definition nack_error (payload : bytes) : ClientError :=
  match payload with
  | [] => ClientProtocol EmptyNack
  | b :: rest =>
    match nack_try_from b with
    | Ok NVersionMismatch => match rest with daemon_version :: _ => ClientVersionMismatch daemon_version | [] => ClientNack NVersionMismatch end
    | Ok r => ClientNack r
    | Err _ => ClientUnknownNack b
    end
  end.

Section Client.
Context {CRC : Crc32} {TR : Transport}.

Record WeirClient := mkWeirClient {
  wc_stream : stream;
  wc_default_durability : option Durability;
  wc_poisoned : bool;
  wc_closed_after_nack : bool;
}.

Definition from_parts (s : stream) (d : option Durability) : WeirClient := mkWeirClient s d false false.
Definition set_default_durability (d : Durability) (c : WeirClient) : WeirClient :=
  mkWeirClient (wc_stream c) (Some d) (wc_poisoned c) (wc_closed_after_nack c).
Definition set_stream (s : stream) (c : WeirClient) : WeirClient :=
  mkWeirClient s (wc_default_durability c) (wc_poisoned c) (wc_closed_after_nack c).
Definition set_poisoned (c : WeirClient) : WeirClient :=
  mkWeirClient (wc_stream c) (wc_default_durability c) true (wc_closed_after_nack c).
Definition set_closed_after_nack (c : WeirClient) : WeirClient :=
  mkWeirClient (wc_stream c) (wc_default_durability c) (wc_poisoned c) true.

Definition is_poisoned (c : WeirClient) : bool := wc_poisoned c || wc_closed_after_nack c.

Definition ensure_usable (c : WeirClient) : result unit ClientError :=
  if wc_closed_after_nack c then Err (ClientProtocol ClosedAfterNack) else
  if wc_poisoned c then Err (ClientProtocol PoisonedBefore) else Ok tt.

(** [self.stream.read_exact(..)?] with the rest of the function. *)
Definition client_read {A} (n : Z) (c : WeirClient) (k : bytes → WeirClient → result A ClientError * WeirClient)
    : result A ClientError * WeirClient :=
  match stream_read_exact n (wc_stream c) with
  | (Ok b, s) => k b (set_stream s c)
  | (Err e, s) => (Err (ClientIo e), set_stream s c)
  end.

Definition read_response_inner (c : WeirClient) : result Envelope ClientError * WeirClient :=
  client_read HEADER_LEN c (λ header_buf c,
    match header_decode header_buf with
    | Err e => (Err (ClientProtocol (BadHeader e)), c)
    | Ok header =>
      let payload_len := h_payload_len header in
      let cap := max_response_payload_len (h_message_type header) in
      if cap <? payload_len then (Err (ClientProtocol (OversizedResponse payload_len cap (h_message_type header))), c) else
      let finish payload_buf c :=
        client_read 4 c (λ crc_buf c,
          let expected := le_val crc_buf in
          let computed := crc32_hash payload_buf in
          if negb (expected =? computed) then (Err (ClientProtocol (ResponseCrcMismatch expected computed)), c)
          else (Ok (envelope_new header payload_buf), c)) in
      if 0 <? payload_len then client_read payload_len c finish else finish [] c
    end).

Definition read_response (c : WeirClient) : result Envelope ClientError * WeirClient :=
  match read_response_inner c with
  | (Ok e, c) => (Ok e, c)
  | (Err e, c) => (Err e, set_poisoned c)
  end.

(** [send_frame]: when the write fails, a nack that was already received is reported. *)
Definition send_frame (frame : bytes) (c : WeirClient) : result Envelope ClientError * WeirClient :=
  match stream_write_all frame (wc_stream c) with
  | (Err write_err, s) =>
    let '(r, c) := read_response (set_stream s c) in
    match r with
    | Ok resp =>
      if bool_decide (h_message_type (e_header resp) = Nack)
      then (Err (nack_error (e_payload resp)), set_closed_after_nack c)
      else (Err (ClientIo write_err), set_poisoned c)
    | Err _ => (Err (ClientIo write_err), set_poisoned c)
    end
  | (Ok _, s) => read_response (set_stream s c)
  end.

Definition note_nack (err : ClientError) (c : WeirClient) : ClientError * WeirClient :=
  match err with
  | ClientNack NInternalError => (err, c)
  | _ => (err, set_closed_after_nack c)
  end.

Definition surface_nack (payload : bytes) (c : WeirClient) : ClientError * WeirClient :=
  match nack_error payload with
  | ClientProtocol msg => (ClientProtocol msg, set_poisoned c)
  | other => note_nack other c
  end.

Definition surfaced {A} (payload : bytes) (c : WeirClient) : result A ClientError * WeirClient :=
  let '(e, c) := surface_nack payload c in (Err e, c).

(** A reply that nothing asked for. *)
Definition desync {A} (why : ProtocolError) (c : WeirClient) : result A ClientError * WeirClient :=
  (Err (ClientProtocol why), set_poisoned c).

Definition send_record (mt : MessageType) (payload : bytes) (d : Durability) (c : WeirClient)
    : result Envelope ClientError * WeirClient :=
  match ensure_usable c with
  | Err e => (Err e, c)
  | Ok _ =>
    match payload with
    | [] => (Err ClientEmptyPayload, c)
    | _ =>
      if MAX_PAYLOAD_HARD_CAP <? blen payload then (Err (ClientPayloadTooLarge (blen payload) MAX_PAYLOAD_HARD_CAP), c) else
      send_frame (envelope_encode (envelope_new (header_new mt d x00) payload)) c
    end
  end.

(** [WeirClient::push]. *)
Definition client_push (payload : bytes) (d : Durability) (c : WeirClient) : result unit ClientError * WeirClient :=
  match send_record Push payload d c with
  | (Err e, c) => (Err e, c)
  | (Ok resp, c) =>
    match h_message_type (e_header resp) with
    | Ack => (Ok tt, c)
    | Nack => surfaced (e_payload resp) c
    | other => desync (UnexpectedType other) c
    end
  end.

Definition push_tracked (payload : bytes) (d : Durability) (c : WeirClient)
    : result RecordCoordinate ClientError * WeirClient :=
  match send_record PushTracked payload d c with
  | (Err e, c) => (Err e, c)
  | (Ok resp, c) =>
    match h_message_type (e_header resp) with
    | AckTracked =>
      match coordinate_decode (e_payload resp) with
      | Ok k => (Ok k, c)
      | Err e => desync (MalformedCoordinate e) c
      end
    | Nack => surfaced (e_payload resp) c
    | other => desync (UnexpectedType other) c
    end
  end.

Definition push_default (payload : bytes) (c : WeirClient) : result unit ClientError * WeirClient :=
  match wc_default_durability c with
  | None => (Err NoDefaultDurability, c)
  | Some d => client_push payload d c
  end.

Definition push_tracked_default (payload : bytes) (c : WeirClient) : result RecordCoordinate ClientError * WeirClient :=
  match wc_default_durability c with
  | None => (Err NoDefaultDurability, c)
  | Some d => push_tracked payload d c
  end.

(** The guard of [push_batch] on each record. *)
Fixpoint batch_guard (records : list bytes) : result unit ClientError :=
  match records with
  | [] => Ok tt
  | [] :: _ => Err ClientEmptyPayload
  | r :: records =>
    if MAX_PAYLOAD_HARD_CAP <? blen r then Err (ClientPayloadTooLarge (blen r) MAX_PAYLOAD_HARD_CAP) else batch_guard records
  end.

Definition push_batch (records : list bytes) (d : Durability) (c : WeirClient) : result BatchOutcome ClientError * WeirClient :=
  match ensure_usable c with
  | Err e => (Err e, c)
  | Ok _ =>
    match records with
    | [] => (Err ClientEmptyPayload, c)
    | _ =>
      if MAX_BATCH_RECORDS_HARD_CAP <? blen records
      then (Err (ClientPayloadTooLarge (blen records) MAX_BATCH_RECORDS_HARD_CAP), c) else
      match batch_guard records with
      | Err e => (Err e, c)
      | Ok _ =>
        match send_frame (envelope_encode (envelope_new (header_new PushBatch d x00) (encode_batch_body records))) c with
        | (Err e, c) => (Err e, c)
        | (Ok resp, c) =>
          match h_message_type (e_header resp) with
          | AckBatch =>
            match decode_ack_batch (e_payload resp) (length records) with
            | Ok accepted => (Ok (mkBatchOutcome accepted), c)
            | Err e => desync (MalformedAckBatch e) c
            end
          | Ack => desync BareAckToBatch c
          | other => desync (UnexpectedType other) c
          end
        end
      end
    end
  end.

Definition health_check (c : WeirClient) : result unit ClientError * WeirClient :=
  match ensure_usable c with
  | Err e => (Err e, c)
  | Ok _ =>
    match stream_write_all (envelope_encode (envelope_new (header_new HealthCheck Durable x00) [])) (wc_stream c) with
    | (Err e, s) => (Err (ClientIo e), set_poisoned (set_stream s c))
    | (Ok _, s) =>
      match read_response (set_stream s c) with
      | (Err e, c) => (Err e, c)
      | (Ok resp, c) =>
        match h_message_type (e_header resp) with
        | HealthCheckResponse => (Ok tt, c)
        | Nack => surfaced (e_payload resp) c
        | other => desync (UnexpectedType other) c
        end
      end
    end
  end.

(** ** Calls *)

(** What a program does with a client, and what it gets. *)
Inductive ClientCall :=
| CallPush (payload : bytes) (d : Durability)
| CallTracked (payload : bytes) (d : Durability)
| CallPushDefault (payload : bytes)
| CallTrackedDefault (payload : bytes)
| CallBatch (records : list bytes) (d : Durability)
| CallHealth
| CallSetDefault (d : Durability).
Inductive Reply := Done | At (k : RecordCoordinate) | Bits (o : BatchOutcome).

Definition lift {A} (f : A → Reply) (r : result A ClientError * WeirClient) : result Reply ClientError * WeirClient :=
  match r with (Ok a, c) => (Ok (f a), c) | (Err e, c) => (Err e, c) end.

Definition client_call (call : ClientCall) (c : WeirClient) : result Reply ClientError * WeirClient :=
  match call with
  | CallPush p d => lift (λ _, Done) (client_push p d c)
  | CallTracked p d => lift At (push_tracked p d c)
  | CallPushDefault p => lift (λ _, Done) (push_default p c)
  | CallTrackedDefault p => lift At (push_tracked_default p c)
  | CallBatch rs d => lift Bits (push_batch rs d c)
  | CallHealth => lift (λ _, Done) (health_check c)
  | CallSetDefault d => (Ok Done, set_default_durability d c)
  end.
End Client.

(** ** The flags *)

Section Flags.
Context {CRC : Crc32} {TR : Transport}.
Implicit Types (c : WeirClient).

Definition usable (c : WeirClient) : Prop := is_poisoned c = false.

(** The write of some frame fails on the client's stream. *)
Definition write_fails (c : WeirClient) : Prop := ∃ frame e s, stream_write_all frame (wc_stream c) = (Err e, s).

(** How a call ends that began on a usable client: with success on a usable client, or
    with an error that is recoverable exactly when the client is usable, but for a nack
    that was read after a failed write. *)
Definition ends_well {A} (c : WeirClient) (r : result A ClientError) (c' : WeirClient) : Prop :=
  match r with
  | Ok _ => usable c'
  | Err e => is_poisoned c' = negb (is_recoverable e) ∨
      is_poisoned c' = true ∧ e = ClientNack NInternalError ∧ write_fails c
  end.

Lemma usable_flags c : usable c ↔ wc_poisoned c = false ∧ wc_closed_after_nack c = false.
Proof. unfold usable, is_poisoned. by rewrite orb_false_iff. Qed.

Lemma usable_ensure c : usable c → ensure_usable c = Ok tt.
Proof. intros [Hp Hn]%usable_flags. unfold ensure_usable. by rewrite Hp, Hn. Qed.

Lemma poisoned_ensure c : is_poisoned c = true → ∃ why, ensure_usable c = Err (ClientProtocol why).
Proof.
  unfold is_poisoned, ensure_usable. destruct (wc_closed_after_nack c); [by eauto|]. destruct (wc_poisoned c); [by eauto|done].
Qed.

Lemma poisoned_set c : is_poisoned (set_poisoned c) = true ∧ is_poisoned (set_closed_after_nack c) = true.
Proof. unfold is_poisoned. cbn. by rewrite orb_true_r. Qed.

(** The flags and the default survive a read. *)
Definition same_flags c c' : Prop :=
  wc_poisoned c' = wc_poisoned c ∧ wc_closed_after_nack c' = wc_closed_after_nack c ∧ wc_default_durability c' = wc_default_durability c.

Lemma client_read_flags {A} n c (k : bytes → WeirClient → result A ClientError * WeirClient) r c' (P : result A ClientError → Prop) :
  client_read n c k = (r, c') →
  (∀ b c1 r1 c2, same_flags c c1 → k b c1 = (r1, c2) → same_flags c c2 ∧ P r1) →
  (∀ e, P (Err (ClientIo e))) → same_flags c c' ∧ P r.
Proof.
  unfold client_read. destruct (stream_read_exact n (wc_stream c)) as [[b|e] s]; intros H Hk He.
  - eapply Hk; [|exact H]. done.
  - by injection H as <- <-.
Qed.

(** An error of a read is an I/O or a protocol error. *)
Definition read_error {A} (r : result A ClientError) : Prop :=
  match r with Ok _ => True | Err (ClientIo _) | Err (ClientProtocol _) => True | Err _ => False end.

Lemma same_flags_trans c c1 c2 : same_flags c c1 → same_flags c1 c2 → same_flags c c2.
Proof. unfold same_flags. intuition congruence. Qed.

Lemma read_response_inner_flags c r c' : read_response_inner c = (r, c') → same_flags c c' ∧ read_error r.
Proof.
  intros H. eapply (client_read_flags _ _ _ _ _ read_error); [exact H| |done].
  intros hb c1 r1 c2 F1 H1. cbv beta in H1. destruct (header_decode hb) as [h|e]; [|by injection H1 as <- <-].
  cbv zeta in H1. destruct (_ <? h_payload_len h); [by injection H1 as <- <-|].
  assert (G : ∀ pb c3 r3 c4, same_flags c c3 → client_read 4 c3 (λ crc_buf c,
      if negb (le_val crc_buf =? crc32_hash pb) then (Err (ClientProtocol (ResponseCrcMismatch (le_val crc_buf) (crc32_hash pb))), c)
      else (Ok (envelope_new h pb), c)) = (r3, c4) → same_flags c c4 ∧ read_error r3).
  { intros pb c3 r3 c4 F3 H3. destruct (client_read_flags _ _ _ _ _ read_error H3) as [F R]; [|done|].
    - intros b c5 r5 c6 F5 H5. cbv beta in H5. destruct (negb _); by injection H5 as <- <-.
    - split; [by eapply same_flags_trans|done]. }
  destruct (0 <? h_payload_len h); [|by eapply G].
  destruct (client_read_flags _ _ _ _ _ read_error H1) as [F R]; [|done|by split; [eapply same_flags_trans|]].
  intros b c5 r5 c6 F5 H5. destruct (G b c5 r5 c6) as [F6 R6]; [by eapply same_flags_trans|exact H5|].
  split; [|done]. destruct F1 as (? & ? & ?), F6 as (? & ? & ?). unfold same_flags. intuition congruence.
Qed.

Lemma read_response_flags c r c' :
  usable c → read_response c = (r, c') →
  match r with Ok _ => usable c' | Err e => is_poisoned c' = true ∧ is_recoverable e = false end.
Proof.
  intros [Hp Hn]%usable_flags H. unfold read_response in H. destruct (read_response_inner c) as [r1 c1] eqn:E.
  apply read_response_inner_flags in E as ((F1 & F2 & _) & R).
  destruct r1 as [x|e]; injection H as <- <-; [apply usable_flags; by rewrite F1, F2|].
  split; [apply poisoned_set|]. by destruct e.
Qed.

Lemma usable_stream c s : usable c → usable (set_stream s c).
Proof. done. Qed.

Lemma nack_error_recoverable payload : is_recoverable (nack_error payload) = true → nack_error payload = ClientNack NInternalError.
Proof.
  unfold nack_error. destruct payload as [|b rest]; [done|]. destruct (nack_try_from b) as [[]|]; try done. by destruct rest.
Qed.

Lemma send_frame_ends frame c r c' : usable c → send_frame frame c = (r, c') → ends_well c r c'.
Proof.
  intros Hu H. unfold send_frame in H. destruct (stream_write_all frame (wc_stream c)) as [[[]|e] s] eqn:Ew.
  - apply read_response_flags in H; [|by apply usable_stream]. destruct r as [x|e]; [done|]. left. destruct H as [-> ->]. done.
  - destruct (read_response (set_stream s c)) as [rr c1]. destruct (poisoned_set c1) as [P1 P2]. destruct rr as [resp|e1].
    + case_bool_decide; injection H as <- <-; unfold ends_well; rewrite ?P1, ?P2; [|by left].
      destruct (is_recoverable (nack_error (e_payload resp))) eqn:R; [|by left].
      right. split; [done|]. split; [by apply nack_error_recoverable|]. by exists frame, e, s.
    + injection H as <- <-. unfold ends_well. rewrite P1. by left.
Qed.

Lemma surfaced_ends {A} payload c c0 (r : result A ClientError) c' : usable c → surfaced payload c = (r, c') → ends_well c0 r c'.
Proof.
  intros Hu H. unfold surfaced, surface_nack in H.
  pose proof (nack_error_recoverable payload) as R.
  assert (P := poisoned_set c). destruct P as [P1 P2].
  destruct (nack_error payload) as [e|reason|b|b|len limit|why| |]; cbn in R; try (specialize (R eq_refl); discriminate R);
    try (injection H as <- <-; left; cbn; by rewrite ?P1, ?P2).
  destruct reason; injection H as <- <-; left; cbn; by rewrite ?P2.
Qed.

Lemma desync_ends {A} why c c0 (r : result A ClientError) c' : desync why c = (r, c') → ends_well c0 r c'.
Proof. intros [= <- <-]. by left. Qed.

Lemma send_record_ends mt payload d c r c' : usable c → send_record mt payload d c = (r, c') → ends_well c r c'.
Proof.
  intros Hu H. unfold send_record in H. rewrite (usable_ensure c Hu) in H.
  destruct payload as [|b payload]; [injection H as <- <-; by left|].
  destruct (_ <? _); [injection H as <- <-; by left|]. by eapply send_frame_ends.
Qed.

Lemma lift_ends {A} (f : A → Reply) c0 r c r' c' : lift f (r, c) = (r', c') → ends_well c0 r c → ends_well c0 r' c'.
Proof. destruct r as [a|e]; cbn; by intros [= <- <-]. Qed.

(** After a reply: what the calls do with its type. *)
Ltac reply H := destruct (h_message_type (e_header _)) in H;
  first [by eapply desync_ends | by eapply surfaced_ends | idtac].

Lemma client_push_ends payload d c r c' : usable c → client_push payload d c = (r, c') → ends_well c r c'.
Proof.
  intros Hu H. unfold client_push in H. destruct (send_record Push payload d c) as [[resp|e] c1] eqn:E;
    apply send_record_ends in E; [|done|injection H as <- <-; exact E|done].
  reply H. by injection H as <- <-.
Qed.

Lemma push_tracked_ends payload d c r c' : usable c → push_tracked payload d c = (r, c') → ends_well c r c'.
Proof.
  intros Hu H. unfold push_tracked in H. destruct (send_record PushTracked payload d c) as [[resp|e] c1] eqn:E;
    apply send_record_ends in E; [|done|injection H as <- <-; exact E|done].
  reply H. destruct (coordinate_decode _); [by injection H as <- <-|by eapply desync_ends].
Qed.

Lemma push_batch_ends records d c r c' : usable c → push_batch records d c = (r, c') → ends_well c r c'.
Proof.
  intros Hu H. unfold push_batch in H. rewrite (usable_ensure c Hu) in H.
  destruct records as [|r0 records]; [injection H as <- <-; by left|].
  destruct (_ <? _); [injection H as <- <-; by left|].
  destruct (batch_guard _) as [[]|e] eqn:G.
  - destruct (send_frame _ c) as [[resp|e] c1] eqn:E; apply send_frame_ends in E; [|done|injection H as <- <-; exact E|done].
    reply H. destruct (decode_ack_batch _ _); [by injection H as <- <-|by eapply desync_ends].
  - injection H as <- <-. left. rewrite Hu. revert G. generalize (r0 :: records). clear.
    intros l. induction l as [|[|b r] l IH]; cbn [batch_guard]; [done|by intros [= <-]|].
    destruct (_ <? _); [by intros [= <-]|done].
Qed.

Lemma health_check_ends c r c' : usable c → health_check c = (r, c') → ends_well c r c'.
Proof.
  intros Hu H. unfold health_check in H. rewrite (usable_ensure c Hu) in H.
  destruct (stream_write_all _ (wc_stream c)) as [[[]|e] s]; [|injection H as <- <-; left; by apply poisoned_set].
  destruct (read_response (set_stream s c)) as [[resp|e] c1] eqn:E; (apply read_response_flags in E; [|by apply usable_stream]).
  - reply H. by injection H as <- <-.
  - injection H as <- <-. left. destruct E as [-> ->]. done.
Qed.

(** A client that is not usable touches its stream no more. *)
Lemma poisoned_call call c r c' :
  is_poisoned c = true → client_call call c = (r, c') →
  wc_stream c' = wc_stream c ∧ is_poisoned c' = true ∧ ((∀ d, call ≠ CallSetDefault d) → ∃ e, r = Err e).
Proof.
  intros Hp H. destruct (poisoned_ensure c Hp) as [why Hw].
  destruct call; cbn in H; unfold client_push, push_tracked, push_default, push_tracked_default, push_batch, health_check,
    client_push, push_tracked, send_record in H; rewrite ?Hw in H;
    try (destruct (wc_default_durability c); rewrite ?Hw in H); injection H as <- <-; (split; [done|]); (split; [done|]);
    intros N; first [by eexists | by destruct (N _ eq_refl)].
Qed.

Lemma call_ends call c r c' : usable c → client_call call c = (r, c') → ends_well c r c'.
Proof.
  intros Hu H. destruct call; cbn in H.
  - destruct (client_push _ _ _) as [r1 c1] eqn:E. eapply lift_ends; [exact H|by eapply client_push_ends].
  - destruct (push_tracked _ _ _) as [r1 c1] eqn:E. eapply lift_ends; [exact H|by eapply push_tracked_ends].
  - unfold push_default in H. destruct (wc_default_durability c) as [d|].
    + destruct (client_push _ _ _) as [r1 c1] eqn:E. eapply lift_ends; [exact H|by eapply client_push_ends].
    + injection H as <- <-. by left.
  - unfold push_tracked_default in H. destruct (wc_default_durability c) as [d|].
    + destruct (push_tracked _ _ _) as [r1 c1] eqn:E. eapply lift_ends; [exact H|by eapply push_tracked_ends].
    + injection H as <- <-. by left.
  - destruct (push_batch _ _ _) as [r1 c1] eqn:E. eapply lift_ends; [exact H|by eapply push_batch_ends].
  - destruct (health_check _) as [r1 c1] eqn:E. eapply lift_ends; [exact H|by eapply health_check_ends].
  - by injection H as <- <-.
Qed.

(** C27: a client knows when its connection is in doubt. On a usable client every call that
    succeeds leaves it usable, and a call that fails with an error that is not
    [is_recoverable] leaves it unusable. If its frames can be written, a failed call
    leaves it usable exactly when the error is recoverable. A client that is not usable
    fails every call without reading or writing a byte, so what is left of an aborted
    reply is never taken for the reply to another request. *)
Theorem client_fails_fast call c r c' :
  client_call call c = (r, c') →
  (is_poisoned c = false →
     (∀ x, r = Ok x → is_poisoned c' = false) ∧
     (∀ e, r = Err e → is_recoverable e = false → is_poisoned c' = true) ∧
     (¬ write_fails c → ∀ e, r = Err e → is_poisoned c' = negb (is_recoverable e))) ∧
  (is_poisoned c = true →
     wc_stream c' = wc_stream c ∧ is_poisoned c' = true ∧ ((∀ d, call ≠ CallSetDefault d) → ∃ e, r = Err e)).
Proof.
  intros H. split; [|by intros; eapply poisoned_call]. intros Hu. apply call_ends in H; [|done]. split; [|split].
  - intros x ->. exact H.
  - intros e -> Hr. destruct H as [->|(? & _)]; [by rewrite Hr|done].
  - intros Hw e ->. by destruct H as [?|(_ & _ & ?)].
Qed.

(** A batch that the daemon refuses for the moment costs the client its connection. The
    daemon answers a batch it cannot admit with an internal-error nack and keeps the
    connection, and a single push reports that nack and leaves the client usable; to a
    batch the same reply is an unexpected one, so the reason is lost and the client is
    poisoned. *)
Theorem refused_batch_poisons records d c resp c1 :
  is_poisoned c = false → records ≠ [] → blen records ≤ MAX_BATCH_RECORDS_HARD_CAP → batch_guard records = Ok tt →
  send_frame (envelope_encode (envelope_new (header_new PushBatch d x00) (encode_batch_body records))) c = (Ok resp, c1) →
  h_message_type (e_header resp) = Nack → nack_error (e_payload resp) = ClientNack NInternalError →
  push_batch records d c = (Err (ClientProtocol (UnexpectedType Nack)), set_poisoned c1) ∧
  surfaced (A := unit) (e_payload resp) c1 = (Err (ClientNack NInternalError), c1).
Proof.
  intros Hu Hne Hlen Hg Hs Ht Hn. split.
  - unfold push_batch. rewrite (usable_ensure c Hu). destruct records as [|r records]; [done|].
    rewrite (proj2 (Z.ltb_ge _ _)) by done. by rewrite Hg, Hs, Ht.
  - unfold surfaced, surface_nack. by rewrite Hn.
Qed.
End Flags.

(** A stream of two byte sequences: what will be read, and what was written. *)
Module PipeTransport.
Record Pipe := mkPipe { pi_in : bytes; pi_out : bytes; pi_broken : bool }.
#[export] Instance pipe : Transport := {|
  stream := Pipe;
  stream_write_all b p :=
    if pi_broken p then (Err (OsError 32), p) else (Ok tt, mkPipe (pi_in p) (pi_out p ++ b) false);
  stream_read_exact n p :=
    match read_exact n (pi_in p) with
    | Some (b, rest) => (Ok b, mkPipe rest (pi_out p) (pi_broken p))
    | None => (Err UnexpectedEof, mkPipe [] (pi_out p) (pi_broken p))
    end;
|}.
End PipeTransport.

Module ClientWitness.
#[local] Existing Instance Crc32Ieee.ieee.
#[local] Existing Instance Crc32Ieee.ieee_laws.
Import PipeTransport.

Definition reply (mt : MessageType) (payload : bytes) : bytes :=
  envelope_encode (envelope_new (header_new mt Durable x00) payload).
Definition answering (b : bytes) : WeirClient := from_parts (mkPipe b [] false) None.
Definition internal : bytes := reply Nack [nack_to_u8 NInternalError].

Example push_acked : fst (client_push (bstr "x") Durable (answering (reply Ack []))) = Ok tt.
Proof. vm_compute. reflexivity. Qed.

(** Half a reply, then another push: the second is not answered by the rest of the first. *)
Example late_reply :
  let '(r, c) := client_push (bstr "x") Durable (answering (take 18 (reply Ack []))) in
  let c := set_stream (mkPipe (drop 18 (reply Ack [])) [] false) c in
  (r, fst (client_push (bstr "y") Durable c)) = (Err (ClientIo UnexpectedEof), Err (ClientProtocol PoisonedBefore)).
Proof. vm_compute. reflexivity. Qed.

(** A recoverable error on a client that is not usable. *)
Example nack_after_failed_write :
  let '(r, c) := client_push (bstr "x") Durable (from_parts (mkPipe internal [] true) None) in
  (r, is_recoverable (ClientNack NInternalError), is_poisoned c) = (Err (ClientNack NInternalError), true, true).
Proof. vm_compute. reflexivity. Qed.

Lemma client_fails_fast_witness :
  let '(r, c) := client_call (CallPush (bstr "x") Durable) (answering internal) in
  r = Err (ClientNack NInternalError) ∧ is_poisoned c = false.
Proof.
  destruct (client_call (CallPush (bstr "x") Durable) (answering internal)) as [r c] eqn:E.
  assert (Hr : r = Err (ClientNack NInternalError)) by (vm_compute in E; by injection E as <- <-). split; [exact Hr|].
  refine (proj2 (proj2 (proj1 (client_fails_fast _ _ _ _ E) eq_refl)) _ _ Hr). by intros (frame & e & s & ?).
Defined.

Definition batch : list bytes := [bstr "a"; bstr "b"].
Lemma refused_batch_poisons_witness :
  ∃ c1, push_batch batch Durable (answering internal) = (Err (ClientProtocol (UnexpectedType Nack)), set_poisoned c1) ∧
    is_poisoned c1 = false.
Proof.
  destruct (send_frame (envelope_encode (envelope_new (header_new PushBatch Durable x00) (encode_batch_body batch))) (answering internal))
    as [[resp|e] c1] eqn:E; [|vm_compute in E; discriminate E].
  exists c1. split; [|vm_compute in E; by injection E as <- <-].
  refine (proj1 (refused_batch_poisons batch Durable (answering internal) resp c1 eq_refl _ _ eq_refl E _ _)).
  - done.
  - by vm_compute.
  - vm_compute in E. by injection E as <- _.
  - vm_compute in E. by injection E as <- _.
Defined.
End ClientWitness.
