(* ===== verification/Session.v ===== *)
(** * Sessions: the client and the daemon together

    A [WeirClient] whose transport is a connection of the daemon: what it writes is handled
    by [handle_frame], and what comes back may be cut anywhere, late, or missing. From the
    client's [Ok] to the record that is read back after crashes. *)

From Stdlib Require Import ZArith Lia Strings.Byte String.
From stdpp Require Import base gmap list option sets relations.
From S2P Require Import Prelude Deps Sink Wire Batch Text Coordinate Names Io Fs Durable Format Reader Segment Handoff Flusher Recovery Durability Shards Connection System Client.

(** ** The link *)

(** What becomes of one write of the client: its result, how many bytes of it arrive,
    whether the daemon handles a frame before the client stops waiting, in which
    environment, and how many bytes of the daemon's answer arrive in time. *)
Record LinkStep := mkLinkStep {
  ls_result : result unit ErrorKind;
  ls_reaches : nat;
  ls_handled : bool;
  ls_env : FrameEnv;
  ls_in_time : nat;
}.

(** The daemon's end, whether it still serves, what the client can read now and what will
    come too late for the current call, the steps to come, and the frames handled. *)
Record Link := mkLink {
  lk_conn : Conn;
  lk_open : bool;
  lk_arrived : bytes;
  lk_late : bytes;
  lk_steps : list LinkStep;
  lk_handled : list (FrameEnv * Conn * Conn);
}.

Section Session.
Context {CRC : Crc32} {SHA : Sha256}.
Variable cfg : ConnectionConfig.

Definition link_write (frame : bytes) (l : Link) : result unit ErrorKind * Link :=
  match lk_steps l with
  | [] => (Err (OsError 32), l)
  | x :: steps =>
    let conn := set_in (cn_in (lk_conn l) ++ take (ls_reaches x) frame) (lk_conn l) in
    if lk_open l && ls_handled x then
      let '(conn', out) := handle_frame cfg (ls_env x) conn in
      let new := drop (length (cn_out conn)) (cn_out conn') in
      (ls_result x,
       mkLink conn' (match out with Next => true | Return _ => false end)
         (lk_arrived l ++ lk_late l ++ take (ls_in_time x) new) (drop (ls_in_time x) new) steps
         (lk_handled l ++ [(ls_env x, conn, conn')]))
    else (ls_result x, mkLink conn (lk_open l) (lk_arrived l ++ lk_late l) [] steps (lk_handled l))
  end.

Definition link_read (n : Z) (l : Link) : result bytes ErrorKind * Link :=
  match read_exact n (lk_arrived l) with
  | Some (b, rest) => (Ok b, mkLink (lk_conn l) (lk_open l) rest (lk_late l) (lk_steps l) (lk_handled l))
  | None => (Err TimedOut, mkLink (lk_conn l) (lk_open l) [] (lk_late l) (lk_steps l) (lk_handled l))
  end.

Definition link : Transport := {| stream := Link; stream_write_all := link_write; stream_read_exact := link_read |}.
#[local] Existing Instance link.

(** A program's calls, one after the other. *)
Fixpoint session (calls : list ClientCall) (c : WeirClient) : list (result Reply ClientError) * WeirClient :=
  match calls with
  | [] => ([], c)
  | call :: calls =>
    let '(r, c) := client_call call c in
    let '(rs, c) := session calls c in
    (r :: rs, c)
  end.

(** ** Reading a reply *)

Context {CL : Crc32Laws} {SL : Sha256Laws}.

Definition with_arrived (b : bytes) (l : Link) : Link :=
  mkLink (lk_conn l) (lk_open l) b (lk_late l) (lk_steps l) (lk_handled l).

(** A read of bytes of which the first [k], with what follows them, have arrived. *)
Lemma link_read_cut l k x y :
  lk_arrived l = take k (x ++ y) →
  link_read (blen x) l =
    if (length x <=? k)%nat then (Ok x, with_arrived (take (k - length x) y) l) else (Err TimedOut, with_arrived [] l).
Proof.
  intros E. unfold link_read. rewrite E. destruct (Nat.leb_spec (length x) k) as [H|H].
  - rewrite take_app_ge by done. by rewrite read_exact_app.
  - rewrite take_app_le by lia. destruct (read_exact (blen x) (take k x)) as [[b r]|] eqn:R; [|done].
    assert (N : read_exact (blen x) (take k x) = None) by (apply read_exact_None; unfold blen; rewrite length_take; lia).
    by rewrite N in R.
Qed.

Lemma frame_header mt d payload :
  let h := e_header (envelope_new (header_new mt d x00) payload) in
  header_decode (header_encode h) = Ok h ∧ h_payload_len h = Z.min (blen payload) u32_max.
Proof.
  intros h. pose proof (blen_nonneg payload).
  assert (L : h_payload_len h = Z.min (blen payload) u32_max) by (cbn; destruct (Z.leb_spec (blen payload) u32_max); lia).
  split; [|done]. rewrite header_decode_encode; [done|]. rewrite L. unfold is_u32, u32_max. lia.
Qed.

(** The client reads the reply whose bytes arrive, or fails and is poisoned. *)
Lemma read_reply c mt payload k r c' :
  let e := envelope_new (header_new mt Durable x00) payload in
  lk_arrived (wc_stream c) = take k (envelope_encode e) → blen payload ≤ max_response_payload_len mt →
  read_response c = (r, c') →
  (∃ err, r = Err err) ∨
  r = Ok e ∧ (length (envelope_encode e) ≤ k)%nat ∧ c' = set_stream (with_arrived [] (wc_stream c)) c.
Proof.
  intros e Ha Hcap H. unfold read_response in H.
  destruct (read_response_inner c) as [[e1|err] c1] eqn:E; injection H as <- <-; [right|left; by eauto].
  destruct (frame_header mt Durable payload) as [Hd Hl]. fold e in Hd, Hl. pose proof (blen_nonneg payload) as Hp.
  assert (Hmax : max_response_payload_len mt ≤ u32_max) by (by destruct mt; vm_compute).
  rewrite Z.min_l in Hl by lia.
  unfold read_response_inner, client_read in E. cbn [stream_read_exact link] in E.
  unfold envelope_encode in Ha. change HEADER_LEN with (blen (header_encode (e_header e))) in E.
  rewrite (link_read_cut _ _ _ _ Ha) in E. destruct (Nat.leb_spec (length (header_encode (e_header e))) k) as [H1|H1]; [|done].
  rewrite Hd in E. cbv zeta in E. rewrite Hl in E. change (h_message_type (e_header e)) with mt in E.
  rewrite (proj2 (Z.ltb_ge (max_response_payload_len mt) (blen payload))) in E by done.
  set (k1 := (k - length (header_encode (e_header e)))%nat) in *.
  set (crcb := le_bytes 4 (crc32_hash (e_payload e))) in *.
  set (l1 := with_arrived (take k1 (e_payload e ++ crcb)) (wc_stream c)) in *.
  assert (Fin : ∀ k2 c2, lk_arrived (wc_stream c2) = take k2 (crcb ++ []) → wc_stream c2 = with_arrived (take k2 crcb) (wc_stream c) →
    (match link_read 4 (wc_stream c2) with
     | (Ok b, s) => if negb (le_val b =? crc32_hash payload)
        then (Err (ClientProtocol (ResponseCrcMismatch (le_val b) (crc32_hash payload))), set_stream s c2)
        else (Ok (envelope_new (e_header e) payload), set_stream s c2)
     | (Err e, s) => (Err (ClientIo e), set_stream s c2) end) = (Ok e1, c1) →
    e1 = e ∧ (4 ≤ k2)%nat ∧ c1 = set_stream (with_arrived [] (wc_stream c)) c2).
  { intros k2 c2 Ha2 Hs2 H2. change 4 with (blen crcb) in H2. rewrite (link_read_cut _ _ _ _ Ha2) in H2.
    destruct (Nat.leb_spec (length crcb) k2) as [H3|H3]; [|done].
    change (crc32_hash payload) with (crc32_hash (e_payload e)) in H2. unfold crcb in H2. rewrite le_val_crc, Z.eqb_refl in H2. cbn [negb] in H2.
    injection H2 as <- <-. split; [|split].
    - unfold e, envelope_new. cbn. by destruct (blen payload <=? u32_max).
    - unfold crcb in H3. by rewrite length_le_bytes in H3.
    - rewrite Hs2. unfold set_stream. cbn. by rewrite take_nil. }
  assert (Hlen : length (envelope_encode e) = (length (header_encode (e_header e)) + (length payload + 4))%nat).
  { unfold envelope_encode. by rewrite !length_app, length_le_bytes. }
  destruct (Z.ltb_spec 0 (blen payload)) as [Hpos|Hzero].
  - cbn [wc_stream set_stream] in E. change (blen payload) with (blen (e_payload e)) in E.
    rewrite (link_read_cut l1 k1 (e_payload e) crcb eq_refl) in E.
    destruct (Nat.leb_spec (length (e_payload e)) k1) as [H2|H2]; [|done].
    apply (Fin (k1 - length payload)%nat (set_stream (TR := link) (with_arrived (take (k1 - length payload) crcb) l1)
      (set_stream (TR := link) l1 c))) in E as (-> & H4 & ->); [|cbn; by rewrite app_nil_r|done].
    split; [done|]. split; [|done]. rewrite Hlen. change (e_payload e) with payload in H2. lia.
  - assert (payload = []) as Hnil by (destruct payload; [done|unfold blen in Hzero; cbn in Hzero; lia]).
    rewrite <-Hnil in E. apply (Fin k1 (set_stream (TR := link) l1 c)) in E as (-> & H4 & ->).
    + split; [done|]. split; [|done]. rewrite Hlen, Hnil. cbn [length]. lia.
    + cbn. change (e_payload e) with payload. by rewrite Hnil, app_nil_r.
    + unfold l1. cbn. change (e_payload e) with payload. by rewrite Hnil.
Qed.

(** ** A frame that the handler goes on after *)

Lemma respond_in fate frame c k : (∀ c, cn_in (k c).1 = cn_in c) → cn_in (respond fate frame c k).1 = cn_in c.
Proof. intros H. unfold respond, conn_write. destruct fate; cbn; [by rewrite H|done]. Qed.

Lemma count_internal_nack_in k n c : cn_in (count_internal_nack k n c) = cn_in c.
Proof. unfold count_internal_nack. by destruct (0 <? n). Qed.
Lemma count_pos_in k n c : cn_in (count_pos k n c) = cn_in c.
Proof. unfold count_pos. by destruct (0 <? n). Qed.

Lemma count_batch_in d n k t c : cn_in (count_batch d n k t c) = cn_in c.
Proof.
  unfold count_batch. cbv zeta. destruct (0 <? n - at_acked t), (at_timed_out t); cbn [count count_by cn_in];
    by rewrite ?count_pos_in, ?count_internal_nack_in.
Qed.

Lemma nack_internal_in fate tier cause c : cn_in (nack_internal fate tier cause c).1 = cn_in c.
Proof. by apply respond_in. Qed.

Lemma enqueue_batch_in fe d sid i rs c : cn_in (enqueue_batch fe d sid i rs c).2 = cn_in c.
Proof.
  revert i c. induction rs as [|r rs IH]; intros i c; cbn; [done|]. destruct (enqueue (fe_push fe i)) as [[]|]; [|done..].
  specialize (IH (S i) (push_unit (Z.to_nat sid, mkWorkUnit sid r d false (pf_tx (fe_push fe i))) c)).
  by destruct (enqueue_batch _ _ _ _ _ _).
Qed.

Lemma handle_push_in fe d payload sid tracked c : cn_in (handle_push fe d payload sid tracked c).1 = cn_in c.
Proof.
  unfold handle_push. destruct (enqueue _) as [[]|]; [|by rewrite nack_internal_in|done].
  destruct (pf_ack _) as [o| |]; [|by rewrite nack_internal_in..].
  destruct (ao_durable o); [|by rewrite nack_internal_in]. destruct tracked; [|by rewrite respond_in].
  destruct (option_map _ _) as [[k|]|]; [by rewrite respond_in|by rewrite nack_internal_in..].
Qed.

Lemma admission_in cfg' fe c : cn_in (admission_refusal cfg' fe c).2 = cn_in c.
Proof. unfold admission_refusal. destruct (fe_ownership_lost fe); [done|]. by destruct (evaluate _ _ _). Qed.

Lemma refuse_in fate tier r c : cn_in (refuse fate tier r c).1 = cn_in c.
Proof. apply respond_in. intros c1. cbn. by destruct (decide (r = WabCap)). Qed.

(** A frame is dispatched when all of it is read. *)
Lemma dispatch_in fe h payload c : cn_in (dispatch cfg fe h payload c).1 = cn_in c.
Proof.
  pose proof (admission_in cfg fe c) as A. unfold dispatch, nack_close.
  destruct (admission_refusal cfg fe c) as [[r|] c1]; cbn [snd] in A; destruct (h_message_type h);
    rewrite ?refuse_in, ?handle_push_in; try done; try (by apply respond_in).
  destruct (decode_batch_body _ _ _) as [records|e]; [|by rewrite respond_in].
  unfold handle_push_batch.
  pose proof (enqueue_batch_in fe (h_durability h) (cc_shard_id cfg) 0 records (count_by (RecordsAccepted (h_durability h)) (blen records) c1)) as B.
  destruct (enqueue_batch _ _ _ _ _ _) as [[rx|e] c2]; cbn [snd] in B; [|by rewrite <-A].
  rewrite respond_in by done. rewrite count_batch_in, B. exact A.
Qed.

Lemma nack_close_returns fate tier wire metric extra c c' : nack_close fate tier wire metric extra c ≠ (c', Next).
Proof. unfold nack_close, respond. by destruct (conn_write _ _ _) as [[]]. Qed.

(** The handler goes on only after a whole frame within its cap, and has consumed it. *)
Lemma handle_frame_next fe c c' :
  handle_frame cfg fe c = (c', Next) →
  ∃ hb h payload crc, cn_in c = hb ++ payload ++ crc ++ cn_in c' ∧ length hb = 16%nat ∧ length crc = 4%nat ∧
    header_decode hb = Ok h ∧ blen payload = h_payload_len h ∧ h_payload_len h ≤ MAX_PAYLOAD_HARD_CAP.
Proof.
  intros H. unfold handle_frame in H. destruct (fe_shutdown fe); [done|].
  destruct (conn_read (fe_header fe) HEADER_LEN c) as [[hb c1]|r] eqn:E1.
  2:{ unfold conn_read in E1. destruct (fe_header fe); [destruct (read_exact _ _) as [[]|]|..]; try done; injection E1 as <-; cbn in H;
        by repeat case_match. }
  apply conn_read_Ok in E1 as (_ & rest & Hr1 & ->).
  destruct (header_decode hb) as [h|e] eqn:Eh;
    [|destruct (nack_for_decode_error e) as [[wire metric] extra]; by apply nack_close_returns in H].
  cbv zeta in H. destruct (Z.ltb_spec (Z.min (cc_max_payload_bytes cfg) MAX_PAYLOAD_HARD_CAP) (h_payload_len h)) as [|Hcap];
    [by apply nack_close_returns in H|].
  destruct (_ && _); [by apply nack_close_returns in H|].
  assert (Q : ∀ fate n c0 r, conn_read fate n c0 = Err r → r ≠ (c', Next)).
  { intros fate n c0 r Hr. unfold conn_read in Hr. repeat case_match; by simplify_eq. }
  destruct (conn_read (fe_payload fe) _ _) as [[payload c2]|r] eqn:E2; [|by apply Q in E2].
  apply conn_read_Ok in E2 as (_ & rest2 & Hr2 & ->).
  destruct (conn_read (fe_crc fe) _ _) as [[crc c3]|r] eqn:E3; [|by apply Q in E3].
  apply conn_read_Ok in E3 as (_ & rest3 & Hr3 & ->). destruct (negb _); [by apply nack_close_returns in H|].
  pose proof (dispatch_in fe h payload (set_in rest3 (set_in rest2 (set_in rest c)))) as D. rewrite H in D. cbn in D, Hr2, Hr3.
  apply read_exact_Some in Hr1 as [Hr1 L1]; [|done]. pose proof (header_decode_len _ _ Eh) as Hlen.
  apply read_exact_Some in Hr2 as [Hr2 L2]; [|done]. apply read_exact_Some in Hr3 as [Hr3 L3]; [|done].
  exists hb, h, payload, crc. rewrite D, Hr1, Hr2, Hr3. unfold blen, HEADER_LEN in *. split_and!; try done; lia.
Qed.

(** Of a single frame, whole or cut, nothing is left. *)
Lemma one_frame_consumed mt d payload n fe c c' :
  cn_in c = take n (envelope_encode (envelope_new (header_new mt d x00) payload)) →
  handle_frame cfg fe c = (c', Next) → cn_in c' = [] ∧ blen payload ≤ MAX_PAYLOAD_HARD_CAP ∧
    cn_in c = envelope_encode (envelope_new (header_new mt d x00) payload).
Proof.
  intros Hin (hb & h & p & crc & E & L1 & L2 & Hd & Lp & Hcap)%handle_frame_next.
  destruct (frame_header mt d payload) as [Hd' Hl']. set (e := envelope_new (header_new mt d x00) payload) in *.
  pose proof (blen_nonneg payload). rewrite Hin in E.
  assert (Hb : hb = header_encode (e_header e)).
  { apply (f_equal (take 16)) in E. rewrite (take_app_le hb), (take_ge hb) in E by lia. rewrite take_take in E.
    unfold envelope_encode in E. rewrite take_app_le in E by (rewrite length_header_encode; lia).
    assert (Hn : (16 ≤ n)%nat).
    { apply (f_equal length) in E. rewrite length_take, L1, length_header_encode in E. lia. }
    rewrite take_ge in E by (rewrite length_header_encode; lia). done. }
  subst hb. assert (h = e_header e) as -> by (rewrite Hd' in Hd; by injection Hd). rewrite Hl' in Lp, Hcap.
  assert (Hm : Z.min (blen payload) u32_max = blen payload) by (unfold u32_max, MAX_PAYLOAD_HARD_CAP in *; lia).
  rewrite Hm in *.
  assert (Hle : (length (envelope_encode e) ≤ n)%nat ∧ cn_in c' = []).
  { apply (f_equal length) in E. unfold envelope_encode in *. rewrite length_take, !length_app, length_le_bytes, L2 in *.
    change (e_payload e) with payload in *. unfold blen in Lp.
    assert (length (cn_in c') = 0%nat) by lia. split; [lia|]. by apply nil_length_inv. }
  destruct Hle as [Hle Hnil]. split; [done|]. split; [done|]. by rewrite Hin, take_ge.
Qed.

(** ** One exchange *)

(** Nothing of an earlier exchange is under way. *)
Definition synced (l : Link) : Prop := cn_in (lk_conn l) = [] ∧ lk_arrived l = [] ∧ lk_late l = [].

(** The handler's writes succeed; that its bytes do not arrive is up to the link. *)
Definition written (l : Link) : Prop := Forall (λ x, fe_write (ls_env x) = Written) (lk_steps l).

(** The link goes on: steps are used up, handled frames are kept. *)
Definition grows (l l' : Link) : Prop :=
  (∃ used, lk_steps l = used ++ lk_steps l') ∧ (∃ more, lk_handled l' = lk_handled l ++ more).

#[local] Instance grows_preorder : PreOrder grows.
Proof.
  split.
  - intros l. split; [by exists []|]. exists []. by rewrite app_nil_r.
  - intros a b c [[u Hu] [m Hm]] [[u' Hu'] [m' Hm']]. split.
    + exists (u ++ u'). by rewrite Hu, Hu', app_assoc.
    + exists (m ++ m'). by rewrite Hm', Hm, app_assoc.
Qed.

Lemma link_write_grows b l : grows l (link_write b l).2.
Proof.
  unfold link_write. destruct (lk_steps l) as [|x steps] eqn:E; [done|].
  destruct (lk_open l && ls_handled x); [destruct (handle_frame _ _ _)|]; split; rewrite ?E; cbn; try by exists [x].
  - by eexists.
  - exists []. by rewrite app_nil_r.
Qed.

Lemma link_read_grows n l : grows l (link_read n l).2.
Proof. unfold link_read. destruct (read_exact _ _) as [[]|]; (split; [by exists []|exists []; by rewrite app_nil_r]). Qed.

Lemma grows_written l l' : grows l l' → written l → written l'.
Proof. intros [[u E] _] H. unfold written in *. rewrite E in H. by apply Forall_app in H as [_ ?]. Qed.

Lemma client_read_grows {A} n c (k : bytes → WeirClient → result A ClientError * WeirClient) :
  (∀ b c1, grows (wc_stream c1) (wc_stream (k b c1).2)) → grows (wc_stream c) (wc_stream (client_read n c k).2).
Proof.
  intros Hk. unfold client_read. pose proof (link_read_grows n (wc_stream c)) as G. cbn [stream_read_exact link].
  destruct (link_read n (wc_stream c)) as [[b|e] s]; cbn [snd] in *; [|exact G]. etrans; [exact G|]. by apply (Hk b (set_stream (TR := link) s c)).
Qed.

Lemma read_response_grows c : grows (wc_stream c) (wc_stream (read_response c).2).
Proof.
  assert (G : grows (wc_stream c) (wc_stream (read_response_inner c).2)).
  { apply client_read_grows. intros b c1. destruct (header_decode b) as [h|]; [|done]. cbv zeta. destruct (_ <? h_payload_len h); [done|].
    assert (F : ∀ pb c2, grows (wc_stream c2) (wc_stream (client_read 4 c2 (λ crc_buf c,
      if negb (le_val crc_buf =? crc32_hash pb) then (Err (ClientProtocol (ResponseCrcMismatch (le_val crc_buf) (crc32_hash pb))), c)
      else (Ok (envelope_new h pb), c))).2)).
    { intros pb c2. apply client_read_grows. intros b' c3. by destruct (negb _). }
    destruct (0 <? _); [|apply F]. apply client_read_grows. intros. apply F. }
  unfold read_response. by destruct (read_response_inner c) as [[]].
Qed.

(** What a reply that was read in full came from. *)
Record exchanged (frame : bytes) (e : Envelope) (l' : Link) (fe : FrameEnv) (conn conn' : Conn) (resp : Response) : Prop := mkExchanged {
  xc_handled : handle_frame cfg fe conn = (conn', outcome_of resp);
  xc_written : fe_write fe = Written;
  xc_logged : (fe, conn, conn') ∈ lk_handled l';
  xc_said : cn_out conn' = cn_out conn ++ response_frame resp;
  xc_ok : response_ok resp;
  xc_reply : e = envelope_new (header_new (response_type resp) Durable x00) (response_payload resp);
  xc_open : outcome_of resp = Next → cn_in conn = frame ∧ synced l';
}.

Lemma response_fits_client resp : response_ok resp → blen (response_payload resp) ≤ max_response_payload_len (response_type resp).
Proof.
  destruct resp as [|k|acc|reason extra|]; cbn [response_ok response_payload response_type max_response_payload_len]; try done.
  - intros [Hs Hi]. unfold coordinate_encode, MAX_TRACKED_ACK_PAYLOAD_LEN, COORDINATE_FIXED_LEN, MAX_SEGMENT_NAME_LEN, blen in *.
    rewrite !length_app, !length_le_bytes, Hi. cbn [length]. lia.
  - intros [_ H]. unfold blen in *. rewrite length_encode_ack_batch.
    assert (Z.of_nat MAX_ACK_BATCH_PAYLOAD_LEN = 259) as -> by done. unfold MAX_BATCH_RECORDS_HARD_CAP, div_ceil8 in *.
    pose proof (Nat.div_mod (length acc + 7) 8 ltac:(lia)). lia.
  - intros H. unfold MAX_RESPONSE_PAYLOAD_LEN, blen in *. cbn [length]. lia.
Qed.

Lemma read_nothing c r c' : lk_arrived (wc_stream c) = [] → read_response c = (r, c') → ∃ e, r = Err e.
Proof.
  intros Ha H. eapply (read_reply c Ack [] 0) in H; [|by rewrite Ha|done]. destruct H as [H|(_ & H & _)]; [done|]. cbn in H. lia.
Qed.

Lemma exchange mt d payload c l' e c' :
  let frame := envelope_encode (envelope_new (header_new mt d x00) payload) in
  synced (wc_stream c) → written (wc_stream c) → link_write frame (wc_stream c) = (Ok tt, l') →
  read_response (set_stream (TR := link) l' c) = (Ok e, c') →
  ∃ fe conn conn' resp, exchanged frame e (wc_stream c') fe conn conn' resp.
Proof.
  intros frame (Hin & Harr & Hlate) Hw Hwr Hrd. unfold link_write in Hwr.
  destruct (lk_steps (wc_stream c)) as [|x steps] eqn:Es; [done|].
  assert (Hfw : fe_write (ls_env x) = Written) by (unfold written in Hw; rewrite Es in Hw; by apply Forall_cons_1 in Hw as [? _]).
  rewrite Hin, Harr, Hlate in Hwr. cbn [app] in Hwr.
  destruct (lk_open (wc_stream c) && ls_handled x).
  2:{ injection Hwr as _ <-. by apply read_nothing in Hrd as [? ?]. }
  set (conn := set_in (take (ls_reaches x) frame) (lk_conn (wc_stream c))) in *.
  destruct (handle_frame cfg (ls_env x) conn) as [conn' out] eqn:Eh. cbv zeta in Hwr. injection Hwr as _ <-.
  pose proof Eh as Ea. apply handle_frame_answered in Ea as [(resp & us & [Ho Hp] & Hok & -> & _)|(us & r & Ho & _ & _)]; [| |done].
  - rewrite Ho, drop_app_length in Hrd.
    apply (read_reply _ (response_type resp) (response_payload resp) (ls_in_time x)) in Hrd as [[? ?]|(Hr & Hk & ->)];
      [done| |done|by apply response_fits_client].
    injection Hr as ->.
    exists (ls_env x), conn, conn', resp. constructor; try done.
    + cbn. apply elem_of_app. right. by left.
    + intros Hnext. rewrite Hnext in Eh. eapply one_frame_consumed in Eh as (H1 & H2 & H3); [|done].
      split; [exact H3|]. split; [done|]. split; [done|]. cbn. apply drop_ge. exact Hk.
  - rewrite Ho, drop_all in Hrd. apply read_nothing in Hrd as [? ?]; [done|]. cbn. by rewrite take_nil.
Qed.

(** ** One call *)

Definition inv (c : WeirClient) : Prop := (usable c → synced (wc_stream c)) ∧ written (wc_stream c).

Lemma poisoned_not_usable c : is_poisoned c = true → ¬ usable c.
Proof. unfold usable. congruence. Qed.

Lemma send_frame_grows f c : grows (wc_stream c) (wc_stream (send_frame f c).2).
Proof.
  unfold send_frame. cbn [stream_write_all link]. pose proof (link_write_grows f (wc_stream c)) as G.
  destruct (link_write f (wc_stream c)) as [[u|e] s]; cbn [snd] in G.
  - etrans; [exact G|apply (read_response_grows (set_stream (TR := link) s c))].
  - pose proof (read_response_grows (set_stream (TR := link) s c)) as G2.
    destruct (read_response _) as [r c1]. cbn [snd] in G2. destruct r; [case_bool_decide|]; cbn; by etrans.
Qed.

Lemma send_frame_spec mt d payload c r c' :
  let frame := envelope_encode (envelope_new (header_new mt d x00) payload) in
  inv c → usable c → send_frame frame c = (r, c') →
  match r with
  | Ok e => usable c' ∧ ∃ fe conn conn' resp, exchanged frame e (wc_stream c') fe conn conn' resp
  | Err _ => is_poisoned c' = true
  end.
Proof.
  intros frame [Hs Hw] Hu H. pose proof (send_frame_ends _ _ _ _ Hu H) as E. unfold send_frame in H. cbn [stream_write_all link] in H.
  destruct (link_write frame (wc_stream c)) as [[[]|e] s] eqn:Ew.
  - destruct r as [e|err]; [split; [exact E|by eapply exchange; eauto]|].
    apply read_response_flags in H; [|done]. apply H.
  - destruct (read_response _) as [rr c1]. destruct (poisoned_set c1) as [P1 P2].
    destruct rr; [case_bool_decide|]; by injection H as <- <-.
Qed.

(** A reply that leaves the client usable was not a closing one. *)
Lemma exchanged_synced frame e l fe conn conn' resp :
  exchanged frame e l fe conn conn' resp →
  (h_message_type (e_header e) = Nack → nack_error (e_payload e) = ClientNack NInternalError) → cn_in conn = frame ∧ synced l.
Proof.
  intros [_ _ _ _ Hok Hr Ho] Hn. apply Ho. subst e. destruct resp as [|k|acc|reason extra|]; try done.
  specialize (Hn eq_refl). cbn in Hn. rewrite nack_roundtrip in Hn. destruct reason; try done. by destruct extra.
Qed.

Lemma surfaced_spec {A} payload c (r : result A ClientError) c' :
  surfaced payload c = (r, c') →
  wc_stream c' = wc_stream c ∧ wc_default_durability c' = wc_default_durability c ∧
  (usable c' → nack_error payload = ClientNack NInternalError) ∧ ∃ e, r = Err e.
Proof.
  unfold surfaced, surface_nack. destruct (poisoned_set c) as [P1 P2].
  destruct (nack_error payload) as [e|reason|b|b|len limit|why| |]; cbn; try (intros [= <- <-]; by split_and!; [done|done|intros []%poisoned_not_usable|eauto]).
  destruct reason; intros [= <- <-]; (split_and!; [done|done| |by eauto]); try done; by intros []%poisoned_not_usable.
Qed.

(** How a call that sends a frame treats the reply. *)
Definition replied {A} (frame : bytes) (want : A → Envelope → Prop) (c1 : WeirClient) (e : Envelope) (r : result A ClientError) (c' : WeirClient)
    : Prop :=
  wc_stream c' = wc_stream c1 ∧ (usable c' → h_message_type (e_header e) = Nack → nack_error (e_payload e) = ClientNack NInternalError) ∧
  (∀ a, r = Ok a → c' = c1 ∧ want a e).

Lemma replied_inv {A} frame want c1 e (r : result A ClientError) c' fe conn conn' resp :
  exchanged frame e (wc_stream c1) fe conn conn' resp → replied frame want c1 e r c' → written (wc_stream c1) → inv c'.
Proof.
  intros X (Hs & Hn & _) Hw. split; rewrite Hs; [|done]. intros Hu. by apply (exchanged_synced _ _ _ _ _ _ _ X), Hn.
Qed.

Lemma replied_surfaced {A} frame want c1 e (r : result A ClientError) c' :
  h_message_type (e_header e) = Nack → surfaced (e_payload e) c1 = (r, c') → replied frame want c1 e r c'.
Proof. intros Ht (Hs & _ & Hu & [err ->])%surfaced_spec. split; [done|]. split; [|done]. intros H _. by apply Hu. Qed.

Lemma replied_desync {A} frame want c1 e why (r : result A ClientError) c' :
  desync why c1 = (r, c') → replied frame want c1 e r c'.
Proof. intros [= <- <-]. split; [done|]. split; [|done]. intros Hu. by destruct (poisoned_not_usable _ (proj1 (poisoned_set c1)) Hu). Qed.

Lemma replied_ok {A} frame (want : A → Envelope → Prop) c1 e a :
  want a e → h_message_type (e_header e) ≠ Nack → replied frame want c1 e (Ok a) c1.
Proof. intros Ht Hn. split; [done|]. split; [congruence|]. by intros a' [= <-]. Qed.

(** What the calls accept. *)
Definition is_type {A} (mt : MessageType) (_ : A) (e : Envelope) : Prop := h_message_type (e_header e) = mt.
Definition is_coordinate (k : RecordCoordinate) (e : Envelope) : Prop :=
  h_message_type (e_header e) = AckTracked ∧ coordinate_decode (e_payload e) = Ok k.
Definition is_bitmap (n : nat) (o : BatchOutcome) (e : Envelope) : Prop :=
  h_message_type (e_header e) = AckBatch ∧ decode_ack_batch (e_payload e) n = Ok (bo_accepted o).

(** A call that sends a frame: refused before that, failed for good, or answered. *)
Definition sends {A} (frame : bytes) (want : A → Envelope → Prop) (c : WeirClient) (r : result A ClientError) (c' : WeirClient) : Prop :=
  (c' = c ∧ ∃ e, r = Err e) ∨ (is_poisoned c' = true ∧ ∃ e, r = Err e) ∨
  ∃ c1 e fe conn conn' resp, exchanged frame e (wc_stream c1) fe conn conn' resp ∧ replied frame want c1 e r c'.

(** The frame of a request. *)
Definition frame_of (mt : MessageType) (d : Durability) (payload : bytes) : bytes :=
  envelope_encode (envelope_new (header_new mt d x00) payload).

Lemma sends_sent {A} mt d payload want c r1 c1 (r : result A ClientError) c' :
  inv c → usable c → send_frame (frame_of mt d payload) c = (r1, c1) →
  match r1 with Err e => r = Err e ∧ c' = c1 | Ok e => replied (frame_of mt d payload) want c1 e r c' end →
  sends (frame_of mt d payload) want c r c'.
Proof.
  intros Hi Hu H Hr. apply send_frame_spec in H; [|done..]. destruct r1 as [e|err].
  - destruct H as (_ & fe & conn & conn' & resp & X). right. right. by exists c1, e, fe, conn, conn', resp.
  - destruct Hr as [-> ->]. right. left. by eauto.
Qed.

(** Look at the type of a reply. *)
Ltac by_type H := destruct (h_message_type (e_header _)) eqn:? in H;
  first [by eapply replied_desync | by eapply replied_surfaced | idtac].

Lemma send_record_cases mt payload d c r c' :
  usable c → send_record mt payload d c = (r, c') → (c' = c ∧ ∃ e, r = Err e) ∨ send_frame (frame_of mt d payload) c = (r, c').
Proof.
  intros Hu H. unfold send_record in H. rewrite (usable_ensure c Hu) in H. destruct payload; [left; injection H as <- <-; by eauto|].
  destruct (_ <? _); [left; injection H as <- <-; by eauto|by right].
Qed.

Lemma push_sends p d c r c' : inv c → usable c → client_push p d c = (r, c') → sends (frame_of Push d p) (is_type Ack) c r c'.
Proof.
  intros Hi Hu H. unfold client_push in H. destruct (send_record Push p d c) as [r1 c1] eqn:E.
  apply send_record_cases in E as [(-> & e & ->)|E]; [left; injection H as <- <-; by eauto| |done].
  eapply sends_sent; [done..|exact E|]. destruct r1 as [e|err]; [|by injection H as <- <-].
  by_type H. injection H as <- <-. apply replied_ok; [done|congruence].
Qed.

Lemma tracked_sends p d c r c' : inv c → usable c → push_tracked p d c = (r, c') → sends (frame_of PushTracked d p) is_coordinate c r c'.
Proof.
  intros Hi Hu H. unfold push_tracked in H. destruct (send_record PushTracked p d c) as [r1 c1] eqn:E.
  apply send_record_cases in E as [(-> & e & ->)|E]; [left; injection H as <- <-; by eauto| |done].
  eapply sends_sent; [done..|exact E|]. destruct r1 as [e|err]; [|by injection H as <- <-].
  by_type H. destruct (coordinate_decode (e_payload e)) eqn:Ek; [|by eapply replied_desync]. injection H as <- <-. apply replied_ok; [by split|congruence].
Qed.

Lemma batch_sends rs d c r c' :
  inv c → usable c → push_batch rs d c = (r, c') → sends (frame_of PushBatch d (encode_batch_body rs)) (is_bitmap (length rs)) c r c'.
Proof.
  intros Hi Hu H. unfold push_batch in H. rewrite (usable_ensure c Hu) in H.
  destruct rs as [|r0 rs]; [left; injection H as <- <-; by eauto|]. destruct (_ <? _); [left; injection H as <- <-; by eauto|].
  destruct (batch_guard _) as [[]|e]; [|left; injection H as <- <-; by eauto].
  destruct (send_frame _ c) as [r1 c1] eqn:E. eapply sends_sent; [done..|exact E|]. destruct r1 as [e|err]; [|by injection H as <- <-].
  by_type H. destruct (decode_ack_batch (e_payload e) _) eqn:Ek; [|by eapply replied_desync]. injection H as <- <-. apply replied_ok; [by split|congruence].
Qed.

Lemma health_sends c r c' : inv c → usable c → health_check c = (r, c') → sends (frame_of HealthCheck Durable []) (is_type HealthCheckResponse) c r c'.
Proof.
  intros Hi Hu H. unfold health_check in H. rewrite (usable_ensure c Hu) in H. fold (frame_of HealthCheck Durable []) in H.
  destruct (stream_write_all (frame_of HealthCheck Durable []) (wc_stream c)) as [[[]|e] s] eqn:Ew.
  - assert (E : send_frame (frame_of HealthCheck Durable []) c = read_response (set_stream s c)) by (unfold send_frame; by rewrite Ew).
    destruct (read_response (set_stream s c)) as [r1 c1]. eapply sends_sent; [done..|exact E|].
    destruct r1 as [e|err]; [|by injection H as <- <-]. by_type H. injection H as <- <-. apply replied_ok; [done|congruence].
  - injection H as <- <-. right. left. split; [apply poisoned_set|by eauto].
Qed.

Lemma sends_inv {A} frame want c (r : result A ClientError) c' :
  inv c → grows (wc_stream c) (wc_stream c') → sends frame want c r c' → inv c'.
Proof.
  intros Hi Hg [[-> _]|[[Hp _]|(c1 & e & fe & conn & conn' & resp & X & R)]]; [done| |].
  - split; [by intros []%poisoned_not_usable|]. by eapply grows_written; [exact Hg|apply Hi].
  - pose proof R as (Hs & _). eapply replied_inv; [exact X|exact R|]. rewrite <-Hs. by eapply grows_written; [exact Hg|apply Hi].
Qed.

(** ** What every call keeps *)

(** The link goes on and the default tier stays. *)
Definition keeps {A} (c : WeirClient) (p : A * WeirClient) : Prop :=
  grows (wc_stream c) (wc_stream p.2) ∧ wc_default_durability p.2 = wc_default_durability c.

Lemma read_response_keeps c : keeps c (read_response c).
Proof.
  split; [apply read_response_grows|]. unfold read_response. destruct (read_response_inner c) as [r c'] eqn:E.
  apply read_response_inner_flags in E as ((_ & _ & D) & _). by destruct r.
Qed.

Lemma send_frame_keeps f c : keeps c (send_frame f c).
Proof.
  split; [apply send_frame_grows|]. unfold send_frame. destruct (stream_write_all f (wc_stream c)) as [[u|e] s].
  - apply (read_response_keeps (set_stream s c)).
  - pose proof (read_response_keeps (set_stream s c)) as [_ D]. destruct (read_response _) as [r c1]. cbn [snd] in D.
    by destruct r; [case_bool_decide|].
Qed.

Lemma send_record_keeps mt p d c : keeps c (send_record mt p d c).
Proof.
  unfold send_record. destruct (ensure_usable c); [|done]. destruct p; [done|]. destruct (_ <? _); [done|]. apply send_frame_keeps.
Qed.

Lemma keeps_same {A B} c (x : A * WeirClient) (y : B * WeirClient) :
  keeps c x → wc_stream y.2 = wc_stream x.2 → wc_default_durability y.2 = wc_default_durability x.2 → keeps c y.
Proof. intros [G D] H1 H2. split; [by rewrite H1|by rewrite H2]. Qed.

Lemma surfaced_same {A} payload c :
  wc_stream (surfaced (A := A) payload c).2 = wc_stream c ∧ wc_default_durability (surfaced (A := A) payload c).2 = wc_default_durability c.
Proof. destruct (surfaced payload c) as [r c'] eqn:E. by apply surfaced_spec in E as (? & ? & _). Qed.

(** A call after its reply. *)
Ltac after_reply K := (eapply (keeps_same _ _ _ K); cbn [snd desync]; try done; try apply surfaced_same).

Lemma client_push_keeps p d c : keeps c (client_push p d c).
Proof.
  unfold client_push. pose proof (send_record_keeps Push p d c) as K. destruct (send_record _ _ _ _) as [[e|err] c1]; [|exact K].
  destruct (h_message_type (e_header e)); after_reply K.
Qed.

Lemma push_tracked_keeps p d c : keeps c (push_tracked p d c).
Proof.
  unfold push_tracked. pose proof (send_record_keeps PushTracked p d c) as K. destruct (send_record _ _ _ _) as [[e|err] c1]; [|exact K].
  destruct (h_message_type (e_header e)); try destruct (coordinate_decode _); after_reply K.
Qed.

Lemma push_batch_keeps rs d c : keeps c (push_batch rs d c).
Proof.
  unfold push_batch. destruct (ensure_usable c); [|done]. destruct rs as [|r rs]; [done|]. destruct (_ <? _); [done|].
  destruct (batch_guard _); [|done]. pose proof (send_frame_keeps (frame_of PushBatch d (encode_batch_body (r :: rs))) c) as K.
  unfold frame_of in K. destruct (send_frame _ _) as [[e|err] c1]; [|exact K].
  destruct (h_message_type (e_header e)); try destruct (decode_ack_batch _ _); after_reply K.
Qed.

Lemma health_check_keeps c : keeps c (health_check c).
Proof.
  unfold health_check. destruct (ensure_usable c); [|done]. cbn [stream_write_all link].
  pose proof (link_write_grows (frame_of HealthCheck Durable []) (wc_stream c)) as G. unfold frame_of in G.
  destruct (link_write _ (wc_stream c)) as [[u|e] s]; [|by split].
  pose proof (read_response_keeps (set_stream (TR := link) s c)) as [G2 D2]. destruct (read_response _) as [[e|err] c1].
  - assert (K : keeps (A := result Envelope ClientError) c (Ok e, c1)) by (split; [by etrans|done]).
    destruct (h_message_type (e_header e)); after_reply K.
  - split; [by etrans|done].
Qed.

Lemma lift_snd {A} (f : A → Reply) (x : result A ClientError * WeirClient) : (lift f x).2 = x.2.
Proof. by destruct x as [[]]. Qed.

Lemma client_call_keeps call c :
  grows (wc_stream c) (wc_stream (client_call call c).2) ∧
  wc_default_durability (client_call call c).2 = match call with CallSetDefault d => Some d | _ => wc_default_durability c end.
Proof.
  destruct call; cbn [client_call]; rewrite ?lift_snd.
  - apply client_push_keeps.
  - apply push_tracked_keeps.
  - unfold push_default. destruct (wc_default_durability c) eqn:E; [|done]. rewrite <-E. apply client_push_keeps.
  - unfold push_tracked_default. destruct (wc_default_durability c) eqn:E; [|done]. rewrite <-E. apply push_tracked_keeps.
  - apply push_batch_keeps.
  - apply health_check_keeps.
  - done.
Qed.

(** The call with its tier written out. *)
Definition explicit_call (d : option Durability) (call : ClientCall) : ClientCall :=
  match call, d with
  | CallPushDefault p, Some d => CallPush p d
  | CallTrackedDefault p, Some d => CallTracked p d
  | call, _ => call
  end.

Lemma client_call_explicit call c : client_call call c = client_call (explicit_call (wc_default_durability c) call) c.
Proof.
  destruct call; cbn; try done.
  - unfold push_default. by destruct (wc_default_durability c) eqn:E; cbn; unfold push_default; rewrite ?E.
  - unfold push_tracked_default. by destruct (wc_default_durability c) eqn:E; cbn; unfold push_tracked_default; rewrite ?E.
Qed.

Lemma lift_case {A} (f : A → Reply) x r c' : lift f x = (r, c') → c' = x.2 ∧ r = (match x.1 with Ok a => Ok (f a) | Err e => Err e end).
Proof. destruct x as [[]]; cbn; by intros [= <- <-]. Qed.

Lemma call_inv call c r c' : inv c → client_call call c = (r, c') → inv c'.
Proof.
  intros Hi H. destruct (client_call_keeps call c) as [G _]. rewrite H in G. cbn [snd] in G.
  destruct (is_poisoned c) eqn:Hp.
  { destruct (poisoned_call _ _ _ _ Hp H) as (Hs & Hp' & _). split; [by intros []%poisoned_not_usable|]. rewrite Hs. apply Hi. }
  rewrite client_call_explicit in H. destruct (explicit_call (wc_default_durability c) call) eqn:Ec; cbn in H.
  - apply lift_case in H as [-> _]. destruct (client_push _ _ _) as [r1 c1] eqn:E. by eapply sends_inv; [..|eapply push_sends].
  - apply lift_case in H as [-> _]. destruct (push_tracked _ _ _) as [r1 c1] eqn:E. by eapply sends_inv; [..|eapply tracked_sends].
  - unfold push_default in H. destruct (wc_default_durability c) as [d|]; [by destruct call|]. by injection H as <- <-.
  - unfold push_tracked_default in H. destruct (wc_default_durability c) as [d|]; [by destruct call|]. by injection H as <- <-.
  - apply lift_case in H as [-> _]. destruct (push_batch _ _ _) as [r1 c1] eqn:E. by eapply sends_inv; [..|eapply batch_sends].
  - apply lift_case in H as [-> _]. destruct (health_check _) as [r1 c1] eqn:E. by eapply sends_inv; [..|eapply health_sends].
  - injection H as <- <-. exact Hi.
Qed.

(** ** What an [Ok] is worth *)

(** A record is [good]: what the daemon's acknowledgement means for it. *)
Context (good : bytes → option RecordSlot → Prop).

(** Positive replies to [Durable] requests are about good records. *)
Definition reply_good (fe : FrameEnv) (cn cn' : Conn) : Prop :=
  ∀ out sent e h payload,
    handle_frame cfg fe cn = (cn', out) → fe_write fe = Written → cn_out cn' = cn_out cn ++ sent →
    envelope_decode sent = Ok e → request (cn_in cn) = Some (h, payload) → h_durability h = Durable →
    match h_message_type (e_header e) with
    | Ack => ∃ slot, good payload slot
    | AckTracked => ∃ segment index, e_payload e = coordinate_encode (mkRecordCoordinate segment index (for_record segment index payload)) ∧
        good payload (Some (mkRecordSlot segment index))
    | AckBatch => ∃ records acc, decode_batch_body payload (cc_max_batch_records cfg) (cc_max_payload_bytes cfg) = Ok records ∧
        decode_ack_batch (e_payload e) (length records) = Ok acc ∧
        ∀ i record, acc !! i = Some true → records !! i = Some record → ∃ slot, good record slot
    | _ => True
    end.

(** What a successful call says of its records; positions are 64-bit numbers. *)
Definition backed (call : ClientCall) (r : result Reply ClientError) : Prop :=
  match call, r with
  | CallPush p Durable, Ok _ => ∃ slot, good p slot
  | CallTracked p Durable, Ok (At k) =>
      rc_record_id k = for_record (rc_segment k) (rc_index k) p ∧
      ∃ slot, rs_segment slot = rc_segment k ∧ rs_index slot mod 2 ^ 64 = rc_index k ∧ good p (Some slot)
  | CallBatch rs Durable, Ok (Bits o) =>
      length (bo_accepted o) = length rs ∧
      ∀ i record, bo_accepted o !! i = Some true → rs !! i = Some record → ∃ slot, good record slot
  | _, _ => True
  end.

Lemma request_frame mt d payload :
  blen payload ≤ MAX_PAYLOAD_HARD_CAP →
  request (frame_of mt d payload) = Some (e_header (envelope_new (header_new mt d x00) payload), payload).
Proof.
  intros Hcap. pose proof (blen_nonneg payload). destruct (frame_header mt d payload) as [Hd Hl].
  rewrite Z.min_l in Hl by (unfold u32_max, MAX_PAYLOAD_HARD_CAP in *; lia).
  unfold request, frame_of, envelope_encode. set (e := envelope_new _ _) in *.
  rewrite read_exact_app by done. cbn [mbind option_bind]. rewrite Hd, Hl.
  change (e_payload e) with payload. rewrite read_exact_app by done. cbn [mbind option_bind].
  rewrite <-(app_nil_r (le_bytes 4 _)), read_exact_app by (unfold blen; by rewrite length_le_bytes). cbn [mbind option_bind].
  by rewrite le_val_crc, Z.eqb_refl.
Qed.

(** A positive reply to a frame, judged by the daemon's promise. *)
Lemma exchanged_good mt payload e l fe conn conn' resp :
  exchanged (frame_of mt Durable payload) e l fe conn conn' resp → reply_good fe conn conn' →
  h_message_type (e_header e) ≠ Nack →
  match h_message_type (e_header e) with
  | Ack => ∃ slot, good payload slot
  | AckTracked => ∃ segment index, e_payload e = coordinate_encode (mkRecordCoordinate segment index (for_record segment index payload)) ∧
      good payload (Some (mkRecordSlot segment index))
  | AckBatch => ∃ records acc, decode_batch_body payload (cc_max_batch_records cfg) (cc_max_payload_bytes cfg) = Ok records ∧
        decode_ack_batch (e_payload e) (length records) = Ok acc ∧
      ∀ i record, acc !! i = Some true → records !! i = Some record → ∃ slot, good record slot
  | _ => True
  end.
Proof.
  intros X Hg Hn. destruct (exchanged_synced _ _ _ _ _ _ _ X) as [Hin _]; [done|]. destruct X as [Hh Hw _ Hs Hok Hr Ho].
  assert (Hnext : outcome_of resp = Next) by (subst e; by destruct resp).
  rewrite Hnext in Hh. pose proof Hh as Hc.
  eapply (one_frame_consumed mt Durable payload (length (frame_of mt Durable payload))) in Hc as (_ & Hcap & _);
    [|rewrite Hin; symmetry; apply take_ge; done].
  eapply (Hg Next (response_frame resp) e (e_header (envelope_new (header_new mt Durable x00) payload)) payload); try done.
  - subst e. apply envelope_decode_encode. by apply response_payload_fits.
  - rewrite Hin. by apply request_frame.
Qed.

Definition handled_good (l : Link) : Prop := Forall (λ x, reply_good x.1.1 x.1.2 x.2) (lk_handled l).

(** An answered call, with the daemon's promise for its frame. *)
Lemma sends_good {A} mt payload (want : A → Envelope → Prop) c a c' :
  sends (frame_of mt Durable payload) want c (Ok a) c' → handled_good (wc_stream c') →
  ∃ e l fe conn conn' resp, exchanged (frame_of mt Durable payload) e l fe conn conn' resp ∧ reply_good fe conn conn' ∧ want a e.
Proof.
  intros [[_ [? ?]]|[[_ [? ?]]|(c1 & e & fe & conn & conn' & resp & X & R)]] Hg; [done..|].
  destruct R as (_ & _ & R). destruct (R a eq_refl) as [-> W]. exists e, (wc_stream c1), fe, conn, conn', resp.
  split; [done|]. split; [|done]. unfold handled_good in Hg. rewrite list.Forall_forall in Hg. exact (Hg _ (xc_logged _ _ _ _ _ _ _ X)).
Qed.

(** The coordinate on the wire is the slot, its position at 64 bits. *)
Lemma coordinate_of_slot segment index payload k :
  coordinate_decode (coordinate_encode (mkRecordCoordinate segment index (for_record segment index payload))) = Ok k →
  segment = rc_segment k ∧ index mod 2 ^ 64 = rc_index k ∧ rc_record_id k = for_record (rc_segment k) (rc_index k) payload.
Proof.
  intros [E [Hu Hl Hi Hid]]%coordinate_decode_iff. unfold coordinate_encode in E. cbn [rc_index rc_record_id rc_segment] in E.
  apply app_inj_1 in E as [_ E]; [|done]. apply app_inj_1 in E as [E1 E]; [|by rewrite !length_le_bytes].
  apply app_inj_1 in E as [E2 E]; [|rewrite Hid; apply sha256_length]. apply app_inj_1 in E as [_ E]; [|by rewrite !length_le_bytes].
  assert (Hm : index mod 2 ^ 64 = rc_index k).
  { apply (f_equal le_val) in E1. rewrite !le_val_le_bytes_mod in E1. change (256 ^ Z.of_nat 8) with (2 ^ 64) in E1.
    rewrite E1. apply Z.mod_small. exact Hi. }
  split; [done|]. split; [done|]. rewrite <-E2, <-Hm, <-E. unfold for_record, record_input.
  by rewrite (le_bytes_mod 8 index : le_bytes 8 (index mod 2 ^ 64) = le_bytes 8 index).
Qed.

Lemma push_batch_guarded rs d c o c' :
  push_batch rs d c = (Ok o, c') → batch_guard rs = Ok tt ∧ 0 < blen rs ≤ MAX_BATCH_RECORDS_HARD_CAP.
Proof.
  unfold push_batch. destruct (ensure_usable c); [|done]. destruct rs as [|r rs]; [done|].
  destruct (Z.ltb_spec MAX_BATCH_RECORDS_HARD_CAP (blen (r :: rs))) as [|H]; [done|].
  destruct (batch_guard (r :: rs)) as [[]|]; [|done]. intros _. split; [done|]. split; [|done]. unfold blen. cbn. lia.
Qed.

Lemma batch_guard_ok rs : batch_guard rs = Ok tt → Forall (record_ok MAX_PAYLOAD_HARD_CAP) rs.
Proof.
  induction rs as [|[|b r] rs IH]; cbn [batch_guard]; [done|done|].
  destruct (Z.ltb_spec MAX_PAYLOAD_HARD_CAP (blen (b :: r))) as [|H]; [done|]. intros G. constructor; [|by apply IH].
  split; [unfold blen; cbn; lia|done].
Qed.

(** The daemon decodes the batch that the client encoded. *)
Lemma batch_body_inj rs records a b :
  batch_guard rs = Ok tt → 0 < blen rs ≤ MAX_BATCH_RECORDS_HARD_CAP →
  decode_batch_body (encode_batch_body rs) a b = Ok records → records = rs.
Proof.
  intros G%batch_guard_ok Hn (He & Hr & Hf)%decode_batch_body_Ok.
  assert (D1 : decode_batch_body (encode_batch_body rs) MAX_BATCH_RECORDS_HARD_CAP MAX_PAYLOAD_HARD_CAP = Ok rs)
    by (apply decode_encode_batch_body; rewrite Z.min_id; done).
  assert (D2 : decode_batch_body (encode_batch_body records) MAX_BATCH_RECORDS_HARD_CAP MAX_PAYLOAD_HARD_CAP = Ok records).
  { apply decode_encode_batch_body; rewrite Z.min_id; [lia|]. eapply list.Forall_impl; [exact Hf|]. intros p. unfold record_ok. lia. }
  rewrite <-He, D1 in D2. by injection D2.
Qed.

Lemma call_backed call c r c' :
  inv c → usable c → client_call call c = (r, c') → handled_good (wc_stream c') → backed call r.
Proof.
  intros Hi Hu H Hg. destruct call as [p []|p []|p|p|rs []| |]; try done; cbn in H; apply lift_case in H as [-> ->].
  - destruct (client_push p Durable c) as [[u|err] c1] eqn:E; [|done].
    destruct (sends_good _ _ _ _ _ _ (push_sends _ _ _ _ _ Hi Hu E) Hg) as (e & l & fe & conn & conn' & resp & X & G & W).
    red in W. pose proof (exchanged_good _ _ _ _ _ _ _ _ X G) as T. rewrite W in T. by apply T.
  - destruct (push_tracked p Durable c) as [[k|err] c1] eqn:E; [|done].
    destruct (sends_good _ _ _ _ _ _ (tracked_sends _ _ _ _ _ Hi Hu E) Hg) as (e & l & fe & conn & conn' & resp & X & G & W & Wk).
    pose proof (exchanged_good _ _ _ _ _ _ _ _ X G) as T. rewrite W in T. destruct T as (segment & index & Ep & Hgood); [done|].
    rewrite Ep in Wk. apply coordinate_of_slot in Wk as (H1 & H2 & H3). split; [done|]. by exists (mkRecordSlot segment index).
  - destruct (push_batch rs Durable c) as [[o|err] c1] eqn:E; [|done].
    destruct (sends_good _ _ _ _ _ _ (batch_sends _ _ _ _ _ Hi Hu E) Hg) as (e & l & fe & conn & conn' & resp & X & G & W & Wk).
    pose proof (exchanged_good _ _ _ _ _ _ _ _ X G) as T. rewrite W in T. destruct T as (records & acc & Ep & Hd & Hgood); [done|].
    assert (G' : batch_guard rs = Ok tt ∧ 0 < blen rs ≤ MAX_BATCH_RECORDS_HARD_CAP) by (by eapply push_batch_guarded).
    assert (records = rs) as -> by (by eapply batch_body_inj; try apply G').
    rewrite Wk in Hd. injection Hd as <-. split; [by apply decode_ack_batch_Ok in Wk as (_ & ? & _)|done].
Qed.

(** ** Sessions *)

(** The calls of a session with their tiers written out. *)
Fixpoint explicit (d : option Durability) (calls : list ClientCall) : list ClientCall :=
  match calls with
  | [] => []
  | call :: calls => explicit_call d call :: explicit (match call with CallSetDefault t => Some t | _ => d end) calls
  end.

Lemma session_grows calls c : grows (wc_stream c) (wc_stream (session calls c).2).
Proof.
  revert c. induction calls as [|call calls IH]; intros c; cbn; [done|].
  destruct (client_call_keeps call c) as [G _]. destruct (client_call call c) as [r c1]. cbn [snd] in G.
  specialize (IH c1). destruct (session calls c1) as [rs c2]. cbn [snd] in *. by etrans.
Qed.

Lemma handled_good_before l l' : grows l l' → handled_good l' → handled_good l.
Proof. intros [_ [more E]]. unfold handled_good. rewrite E. by intros [? _]%Forall_app. Qed.

Lemma backed_Err call e : backed call (Err e).
Proof. by destruct call as [p []|p []|p|p|rs []| |]. Qed.

Lemma session_backed calls c rs c' :
  session calls c = (rs, c') → inv c → handled_good (wc_stream c') → Forall2 backed (explicit (wc_default_durability c) calls) rs.
Proof.
  revert c rs. induction calls as [|call calls IH]; intros c rs H Hi Hg; cbn in H; [injection H as <- <-; constructor|].
  destruct (client_call call c) as [r c1] eqn:Ec. destruct (session calls c1) as [rs1 c2] eqn:Es. injection H as <- <-.
  pose proof (session_grows calls c1) as G. rewrite Es in G. cbn [snd] in G. pose proof (handled_good_before _ _ G Hg) as Hg1.
  destruct (client_call_keeps call c) as [_ D]. rewrite Ec in D. cbn [snd] in D. cbn [explicit]. constructor.
  - destruct (is_poisoned c) eqn:Hp.
    + destruct (poisoned_call _ _ _ _ Hp Ec) as (_ & _ & Herr).
      destruct call; try (destruct Herr as [e ->]; [done|apply backed_Err]). done.
    + rewrite client_call_explicit in Ec. by eapply call_backed.
  - rewrite <-D. apply IH; [done|by eapply call_inv|done].
Qed.
End Session.

(** ** End to end *)

Section EndToEnd.
Context {CRC : Crc32} {CL : Crc32Laws} {ZS : Zstd} {ZL : ZstdLaws} {SHA : Sha256} {SL : Sha256Laws}.

(** C1: the promise of the program, end to end. A producer makes any sequence of calls on
    one client, over a link that may cut, delay or drop what either side sends, to a
    daemon whose connection handler, queue, clock and disk behave in any way. Whenever a
    call for a [Durable] record returns [Ok], the segment reader reads that payload back,
    byte for byte, after any number of crashes and startup recoveries: for a tracked push
    at the position and under the identity that the client was given, and for a batch the
    record of every bit that is set. In particular no reply is ever taken for the reply to
    another request. The shard directory's own name is durable when the flusher starts:
    the code creates the directory without syncing its parent. *)
Theorem client_ok_is_readable fcfg es sid d mb co lvl po q hint w wab n w' cfg l d0 calls rs (c' : WeirClient (TR := link cfg)) :
  fs_wf (w_fs w) → d ≠ [] → durable_dir (w_fs w) d → is_u16 sid → Forall fits (units q) → Forall fits_event es →
  d ≠ quarantine_dir wab →
  let t := flusher_run fcfg (flusher_start sid d mb co lvl po q hint w) es in
  let sw := fl_writer (ft_state t) in
  synced l → written l →
  session cfg calls (from_parts (TR := link cfg) l d0) = (rs, c') →
  Forall (λ x, acks_from (fl_log (ft_state t)) x.1.1 x.1.2 x.2) (lk_handled (wc_stream (TR := link cfg) c')) →
  rtc (restart wab n) (fl_world (ft_state t)) w' →
  Forall2 (backed (readable w' sw)) (explicit d0 calls) rs.
Proof.
  intros Hwf Hd Hdur Hsid Hq Hes Hquar t sw Hs Hw H Hacks Hrt.
  apply (session_backed cfg (readable w' sw) calls (from_parts (TR := link cfg) l d0) rs c' H); [by split|].
  unfold handled_good. eapply list.Forall_impl; [exact Hacks|]. intros [[fe cn] cn'] Ha out sent e h payload. cbn in Ha.
  intros. by eapply wire_ack_is_readable.
Qed.
End EndToEnd.

(** ** Witnesses *)

Module SessionWitness.
#[local] Existing Instance Crc32Ieee.ieee.
#[local] Existing Instance ZstdRaw.raw.
#[local] Existing Instance Crc32Ieee.ieee_laws.
#[local] Existing Instance ZstdRaw.raw_laws.
#[local] Existing Instance ShaPrefix.prefix.
#[local] Existing Instance ShaPrefix.prefix_laws.
Import SystemWitness.

(** The daemon of [SystemWitness] behind a link that serves one request and then breaks. *)
Definition quiet_conn : Conn := mkConn [] [] [] false (λ _, 0).
Definition one_step : Link := mkLink quiet_conn true [] [] [mkLinkStep (Ok tt) 1000 true env 1000] [].
Definition calls : list ClientCall := [CallSetDefault Durable; CallTrackedDefault (bstr "hello"); CallHealth].
Definition ran : list (result Reply ClientError) * WeirClient (TR := link conn_cfg) :=
  session conn_cfg calls (from_parts (TR := link conn_cfg) one_step None).

(** The push is acked; the health check finds the connection gone. *)
Example results :
  match ran.1 with
  | [Ok Done; Ok (At k); Err (ClientIo _)] => bool_decide (rc_index k = 1) && is_poisoned (TR := link conn_cfg) ran.2
  | _ => false
  end = true.
Proof. vm_compute. reflexivity. Qed.

(** When its last byte is late, the push fails and the client is of no more use. *)
Example late_byte :
  let '(rs, c) := session conn_cfg calls
    (from_parts (TR := link conn_cfg) (mkLink quiet_conn true [] [] [mkLinkStep (Ok tt) 1000 true env 20; mkLinkStep (Ok tt) 1000 true env 1000] []) None) in
  match rs with [_; Err (ClientIo _); Err (ClientProtocol PoisonedBefore)] => is_poisoned (TR := link conn_cfg) c | _ => false end = true.
Proof. vm_compute. reflexivity. Qed.

Lemma handled_there : lk_handled (wc_stream (TR := link conn_cfg) ran.2) = [(env, conn, served)].
Proof. vm_compute. reflexivity. Qed.

Lemma client_ok_is_readable_witness :
  Forall2 (backed (readable recovered_world (fl_writer (ft_state (flusher_run FlusherWitness.cfg FlusherWitness.start [EvWake 5])))))
    [CallSetDefault Durable; CallTracked (bstr "hello") Durable; CallHealth] ran.1.
Proof.
  apply (client_ok_is_readable FlusherWitness.cfg [EvWake 5] 0 FlusherWitness.dir 1048576 CNone 3
    FlusherWitness.port [mkBatch 0 [FlusherWitness.unit_]] 0 (fresh_world FlusherWitness.dir) DurabilityWitness.wab_dir 1 recovered_world
    conn_cfg one_step None calls ran.1 ran.2).
  - by intros i n Hn.
  - discriminate.
  - by apply (bool_decide_unpack _); vm_compute.
  - unfold is_u16. lia.
  - by repeat constructor.
  - by repeat constructor.
  - discriminate.
  - done.
  - by repeat constructor.
  - unfold ran. apply surjective_pairing.
  - rewrite handled_there. constructor; [exact acks_connected|constructor].
  - apply rtc_once. exists DurabilityWitness.rebooted, (fst (recover DurabilityWitness.wab_dir 1 DurabilityWitness.rebooted)).
    split; [exact (worst_crash_crash (w_fs DurabilityWitness.after_ack))|unfold recovered_world; apply surjective_pairing].
Defined.
End SessionWitness.
