(* ===== verification/Attest.v ===== *)
(** * Attestation (weir-attest)

    The hash chain over a sealed segment (chain.rs), the sidecar that records its head
    (sidecar.rs), and the two operations on files, [chain_segment] and [verify_segment]
    (verify.rs). A [ChainHead] is its 32 bytes. An [io::Error] inside an [AttestError] is
    its kind; a failed structural check becomes [io::Error::other], whose kind is
    [OtherError]. *)

From Stdlib Require Import ZArith Lia Strings.Byte String.
From stdpp Require Import base gmap list option sets.
From S2P Require Import Prelude Deps Wire Sink Text Names Io Fs Durable Touch Format Reader Segment Recovery Scan Account.

Inductive AttestError :=
| BadHexLength (len : Z)
| BadHexDigit
| AIo (e : ErrorKind)
| AttestBadMagic
| UnsupportedSidecarVersion (version : byte)
| TruncatedSidecar
| SidecarCrcMismatch.

(** ** Hexadecimal *)

(** [char::to_digit(16)]. *)
Definition hex_val (b : byte) : option Z :=
  if in_range 0x30 0x39 b then Some (b2z b - 0x30) else
  if in_range 0x61 0x66 b then Some (b2z b - 0x61 + 10) else
  if in_range 0x41 0x46 b then Some (b2z b - 0x41 + 10) else None.

Fixpoint hex_digits (acc : Z) (l : bytes) : option Z :=
  match l with
  | [] => Some acc
  | b :: l => v ← hex_val b; if acc * 16 + v <=? u8_max then hex_digits (acc * 16 + v) l else None
  end.

(** [u8::from_str_radix(s, 16)]: an optional plus sign, at least one digit, no overflow. *)
Definition u8_from_hex (l : bytes) : option byte :=
  let l := if bool_decide (head l = Some x2b) then tail l else l in
  match l with
  | [] => None
  | _ => z2b <$> hex_digits 0 l
  end.

(** The loop of [ChainHead::from_hex], two characters a byte. *)
Fixpoint from_hex_pairs (s : bytes) : option bytes :=
  match s with
  | a :: b :: s => byte ← u8_from_hex [a; b]; rest ← from_hex_pairs s; Some (byte :: rest)
  | _ => Some []
  end.

(** [ChainHead::from_hex]. *)
Definition from_hex (s : bytes) : result bytes AttestError :=
  if negb (blen s =? 64) then Err (BadHexLength (blen s)) else
  if negb (forallb is_ascii s) then Err BadHexDigit else
  match from_hex_pairs s with
  | Some h => Ok h
  | None => Err BadHexDigit
  end.

(** ** The chain *)

Definition DOMAIN_SEP : bytes := bstr "weir-attest-v1".
Definition ORIGIN : bytes := replicate 32 x00.

Section Attest.
Context {CRC : Crc32} {ZS : Zstd} {SHA : Sha256}.

Definition origin_input (prev : bytes) (header : SegmentHeaderMeta) (segment_name : bytes) : bytes :=
  DOMAIN_SEP ++ prev ++ [sh_format_version header] ++ le_bytes 2 (sh_shard_id header)
    ++ le_bytes 8 (sh_created_at header) ++ le_bytes 8 (blen segment_name) ++ segment_name.

(** [chain_origin]. *)
Definition chain_origin (prev : bytes) (header : SegmentHeaderMeta) (segment_name : bytes) : bytes :=
  sha256 (origin_input prev header segment_name).

(** [chain_step]. *)
Definition chain_step (prev record_id : bytes) : bytes := sha256 (prev ++ record_id).

(** [for (i, record) in reader.enumerate()]: the head and the count after the records
    behind the first [i], or the reader's error. *)
Fixpoint chain_items (name : bytes) (i : Z) (items : list (result bytes ErrorKind)) (head : bytes)
    : result (bytes * Z) ErrorKind :=
  match items with
  | [] => Ok (head, i)
  | Err e :: _ => Err e
  | Ok payload :: items => chain_items name (i + 1) items (chain_step head (for_record name (i + 1) payload))
  end.

(** ** The sidecar *)

Definition ATTEST_MAGIC : bytes := bstr "WATT".
Definition ATTEST_FORMAT_VERSION : byte := x01.
Definition ATTEST_FIXED_LEN : Z := 4 + 1 + 2 + 32 + 32 + 8 + 8 + 2.

Record Sidecar := mkSidecar {
  sc_format_version : byte;
  sc_shard_id : Z;
  sc_segment_name : bytes;
  sc_prev_head : bytes;
  sc_head : bytes;
  sc_record_count : Z;
  sc_sealed_at : Z;
}.

Definition sidecar_body (s : Sidecar) : bytes :=
  ATTEST_MAGIC ++ [sc_format_version s] ++ le_bytes 2 (sc_shard_id s) ++ sc_prev_head s ++ sc_head s
    ++ le_bytes 8 (sc_record_count s) ++ le_bytes 8 (sc_sealed_at s)
    ++ le_bytes 2 (blen (sc_segment_name s)) ++ sc_segment_name s.

(** [Sidecar::encode]; the length of the name is cast to 16 bits. *)
Definition sidecar_encode (s : Sidecar) : bytes :=
  sidecar_body s ++ le_bytes 4 (crc32_hash (sidecar_body s)).

(** [Sidecar::decode]. *)
Definition sidecar_decode (buf : bytes) : result Sidecar AttestError :=
  if blen buf <? ATTEST_FIXED_LEN + 4 then Err TruncatedSidecar else
  if negb (bool_decide (slice 0 4 buf = ATTEST_MAGIC)) then Err AttestBadMagic else
  let format_version := buf !!! 4%nat in
  if negb (bool_decide (format_version = ATTEST_FORMAT_VERSION)) then Err (UnsupportedSidecarVersion format_version) else
  let name_len := le_val (slice 87 89 buf) in
  let want := ATTEST_FIXED_LEN + name_len + 4 in
  if negb (blen buf =? want) then Err TruncatedSidecar else
  let body := take (Z.to_nat (want - 4)) buf in
  let want_crc := le_val (drop (Z.to_nat (want - 4)) buf) in
  if negb (crc32_hash body =? want_crc) then Err SidecarCrcMismatch else
  let segment_name := drop 89 body in
  if negb (utf8_valid segment_name) then Err TruncatedSidecar else
  Ok (mkSidecar format_version (le_val (slice 5 7 buf)) segment_name (slice 7 39 buf) (slice 39 71 buf)
        (le_val (slice 71 79 buf)) (le_val_i64 (slice 79 87 buf))).

(** ** Files *)

(** [segment_name_for]. *)
Definition segment_name_for (p : path) : bytes :=
  let file := default [] (to_string_lossy <$> file_name p) in
  match file_name (parent p) with
  | Some shard => to_string_lossy shard ++ bstr "/" ++ file
  | None => file
  end.

(** [sidecar_path]: the name with [.attest] appended. *)
Definition sidecar_path (segment : path) : path :=
  parent segment ++ [default [] (list.last segment) ++ bstr ".attest"].

Definition attest_io (A : Type) : Type := World → result A AttestError * World.

(** The chain of one segment from [prev] on: header, head and count. *)
Definition walk_segment (p : path) (prev : bytes) : attest_io (SegmentHeaderMeta * bytes * Z) := λ w,
  let '(opened, w) := open_read p w in
  match segment_reader_open opened with
  | Err e => (Err (AIo e), w)
  | Ok reader =>
    let header := sr_header reader in
    let name := segment_name_for p in
    match chain_items name 0 (fst (sr_items reader)) (chain_origin prev header name) with
    | Err e => (Err (AIo e), w)
    | Ok (head, count) => (Ok (header, head, count), w)
    end
  end.

(** [chain_segment]. *)
Definition chain_segment (p : path) (prev : bytes) : attest_io Sidecar := λ w,
  let '(opened, w) := open_read p w in
  match verify_sealed_segment opened with
  | Err _ => (Err (AIo OtherError), w)
  | Ok verification =>
    match walk_segment p prev w with
    | (Err e, w) => (Err e, w)
    | (Ok (header, head, count), w) =>
      (Ok (mkSidecar ATTEST_FORMAT_VERSION (sh_shard_id header) (segment_name_for p) prev head count
             (sf_sealed_at (v_footer verification))), w)
    end
  end.

Inductive Verdict :=
| Verified
| Diverged (at_record : option Z) (expected actual : bytes)
| MissingSidecar.

(** The loop of [first_divergence]. *)
Fixpoint count_items (items : list (result bytes ErrorKind)) : result Z ErrorKind :=
  match items with
  | [] => Ok 0
  | Err e :: _ => Err e
  | Ok _ :: items => let? n := count_items items in Ok (n + 1)
  end.

(** [first_divergence]. *)
Definition first_divergence (p : path) (sidecar : Sidecar) : attest_io (option Z) := λ w,
  let '(opened, w) := open_read p w in
  match segment_reader_open opened with
  | Err e => (Err (AIo e), w)
  | Ok reader =>
    match count_items (fst (sr_items reader)) with
    | Err e => (Err (AIo e), w)
    | Ok seen => (Ok (if seen <? sc_record_count sidecar then Some (seen + 1) else None), w)
    end
  end.

(** [verify_segment]. *)
Definition verify_segment (p : path) : attest_io Verdict := λ w,
  let '(present, w) := exists_ (sidecar_path p) w in
  if negb present then (Ok MissingSidecar, w) else
  match fs_read (sidecar_path p) w with
  | (Err e, w) => (Err (AIo e), w)
  | (Ok buf, w) =>
    match sidecar_decode buf with
    | Err e => (Err e, w)
    | Ok sidecar =>
      match walk_segment p (sc_prev_head sidecar) w with
      | (Err e, w) => (Err e, w)
      | (Ok (_, head, count), w) =>
        if bool_decide (head = sc_head sidecar) && (count =? sc_record_count sidecar) then (Ok Verified, w) else
        match first_divergence p sidecar w with
        | (Err e, w) => (Err e, w)
        | (Ok at_record, w) => (Ok (Diverged at_record (sc_head sidecar) head), w)
        end
      end
    end
  end.
End Attest.

(** ** Hexadecimal text *)

Lemma hex_val_digit z : 0 ≤ z < 16 → hex_val (hex_digit z) = Some z.
Proof.
  intros H. assert (Hz : z ∈ seqZ 0 16) by (apply elem_of_seqZ; lia). clear H. revert z Hz. apply Forall_forall.
  apply (bool_decide_unpack _). by vm_compute.
Qed.

Lemma hex_digit_plus z : 0 ≤ z < 16 → hex_digit z ≠ x2b ∧ is_ascii (hex_digit z) = true.
Proof.
  intros H. assert (Hz : z ∈ seqZ 0 16) by (apply elem_of_seqZ; lia). clear H. revert z Hz. apply Forall_forall.
  apply (bool_decide_unpack _). by vm_compute.
Qed.

Lemma u8_from_hex_byte b : u8_from_hex (hex_byte b) = Some b.
Proof.
  unfold u8_from_hex, hex_byte. pose proof (b2z_range b) as Hb.
  assert (H1 : 0 ≤ b2z b / 16 < 16) by (split; [apply Z.div_pos; lia|apply Z.div_lt_upper_bound; lia]).
  pose proof (Z.mod_pos_bound (b2z b) 16 ltac:(lia)) as H2.
  cbn [head]. rewrite bool_decide_eq_false_2 by (intros [= E]; by destruct (hex_digit_plus _ H1)).
  cbn [hex_digits]. rewrite !hex_val_digit by done. cbn [mbind option_bind]. unfold u8_max.
  rewrite (proj2 (Z.leb_le _ _)) by lia. cbn [mbind option_bind].
  replace ((0 * 16 + b2z b / 16) * 16 + b2z b mod 16) with (b2z b) by (pose proof (Z.div_mod (b2z b) 16); lia).
  rewrite (proj2 (Z.leb_le _ _)) by lia. cbn. by rewrite z2b_b2z.
Qed.

(** Heads round-trip through their hexadecimal form. *)
Lemma from_hex_to_hex h : length h = 32%nat → from_hex (to_hex h) = Ok h.
Proof.
  intros Hh. assert (Hl : ∀ l, length (to_hex l) = (2 * length l)%nat).
  { unfold to_hex. induction l as [|b l IH]; [done|]. cbn in *. lia. }
  assert (Ha : ∀ l, forallb is_ascii (to_hex l) = true).
  { unfold to_hex. induction l as [|b l IH]; [done|]. cbn [map concat]. rewrite forallb_app, IH, andb_true_r.
    unfold hex_byte. cbn. pose proof (b2z_range b). rewrite andb_true_r. apply andb_true_iff.
    split; apply hex_digit_plus; [split; [apply Z.div_pos; lia|apply Z.div_lt_upper_bound; lia]|apply Z.mod_pos_bound; lia]. }
  assert (Hp : ∀ l, from_hex_pairs (to_hex l) = Some l).
  { unfold to_hex. induction l as [|b l IH]; [done|]. change (concat (map hex_byte (b :: l))) with (hex_byte b ++ concat (map hex_byte l)).
    unfold hex_byte at 1. cbn [app from_hex_pairs]. change [hex_digit (b2z b / 16); hex_digit (b2z b mod 16)] with (hex_byte b).
    by rewrite u8_from_hex_byte, IH. }
  unfold from_hex. unfold blen. rewrite Hl, Hh. change (Z.of_nat (2 * 32) =? 64) with true. cbn [negb].
  by rewrite Ha, Hp.
Qed.

(** [ChainHead::from_hex] is documented to take 64 hexadecimal characters. It takes
    plus signs too: every second character of a text of zeros can be one. *)
Example from_hex_takes_signs : from_hex (concat (replicate 32 (bstr "+0"))) = Ok ORIGIN.
Proof. vm_compute. reflexivity. Qed.

(** ** What a head commits to *)

Section Chain.
Context {CRC : Crc32} {CL : Crc32Laws} {ZS : Zstd} {ZL : ZstdLaws} {SHA : Sha256} {SL : Sha256Laws}.
Implicit Types (ps : list bytes) (name prev h : bytes) (hd : SegmentHeaderMeta).

(** The head after the records [ps] that follow the first [i]. *)
Fixpoint chain_from name (i : Z) ps h : bytes :=
  match ps with
  | [] => h
  | p :: ps => chain_from name (i + 1) ps (chain_step h (for_record name (i + 1) p))
  end.

(** Everything that is hashed on the way. *)
Fixpoint hashed_from name (i : Z) ps h : list bytes :=
  match ps with
  | [] => []
  | p :: ps =>
    record_input name (i + 1) p :: (h ++ for_record name (i + 1) p)
      :: hashed_from name (i + 1) ps (chain_step h (for_record name (i + 1) p))
  end.

Definition chain_head prev hd name ps : bytes := chain_from name 0 ps (chain_origin prev hd name).
Definition hashed prev hd name ps : list bytes :=
  origin_input prev hd name :: hashed_from name 0 ps (chain_origin prev hd name).

(** A collision of the hash function, between two texts the two chains hash. *)
Definition collision (l k : list bytes) : Prop := ∃ x y, x ∈ l ∧ y ∈ k ∧ x ≠ y ∧ sha256 x = sha256 y.

Lemma collision_mono l l' k k' : l ⊆ l' → k ⊆ k' → collision l k → collision l' k'.
Proof. intros Hl Hk (x & y & Hx & Hy & H). exists x, y. auto. Qed.

Lemma hash_inj l k x y : x ∈ l → y ∈ k → sha256 x = sha256 y → x = y ∨ collision l k.
Proof. intros Hx Hy H. destruct (decide (x = y)) as [|Hne]; [by left|]. right. by exists x, y. Qed.

Lemma chain_items_oks name i ps h : chain_items name i (map Ok ps) h = Ok (chain_from name i ps h, i + blen ps).
Proof.
  revert i h. induction ps as [|p ps IH]; intros i h; cbn [map chain_items chain_from]; [by rewrite blen_nil, Z.add_0_r|].
  rewrite IH, blen_cons. do 2 f_equal. lia.
Qed.

Lemma chain_items_tail name i ps tail h :
  (∀ q, Ok q ∉ tail) →
  chain_items name i (map Ok ps ++ tail) h =
  match tail with Err e :: _ => Err e | _ => Ok (chain_from name i ps h, i + blen ps) end.
Proof.
  intros Ht. revert i h. induction ps as [|p ps IH]; intros i h; cbn [map app chain_items chain_from].
  - destruct tail as [|[q|e] tail]; cbn [chain_items]; [by rewrite blen_nil, Z.add_0_r|destruct (Ht q); by left|done].
  - rewrite IH, blen_cons. destruct tail as [|[]]; try done; do 2 f_equal; lia.
Qed.

Lemma chain_from_snoc name i ps p h :
  chain_from name i (ps ++ [p]) h = chain_step (chain_from name i ps h) (for_record name (i + blen ps + 1) p).
Proof.
  revert i h. induction ps as [|q ps IH]; intros i h; cbn [app chain_from]; [by rewrite blen_nil, Z.add_0_r|].
  rewrite IH, blen_cons. do 2 f_equal. lia.
Qed.

Lemma hashed_from_snoc name i ps p h :
  hashed_from name i (ps ++ [p]) h =
  hashed_from name i ps h ++ [record_input name (i + blen ps + 1) p; chain_from name i ps h ++ for_record name (i + blen ps + 1) p].
Proof.
  revert i h. induction ps as [|q ps IH]; intros i h; cbn [app hashed_from chain_from]; [by rewrite blen_nil, Z.add_0_r|].
  rewrite IH, blen_cons. replace (i + 1 + blen ps + 1) with (i + (1 + blen ps) + 1) by lia. done.
Qed.

(** What the Rust types guarantee of the arguments. *)
Record chainable prev hd name ps : Prop := mkChainable {
  ch_prev : length prev = 32%nat;
  ch_shard : is_u16 (sh_shard_id hd);
  ch_created : is_i64 (sh_created_at hd);
  ch_name : blen name < 2 ^ 64;
  ch_payloads : Forall (λ p, blen p < 2 ^ 64) ps;
  ch_count : blen ps < 2 ^ 64;
}.

Lemma chainable_prefix prev hd name ps qs : chainable prev hd name (ps ++ qs) → chainable prev hd name ps.
Proof.
  intros [H1 H2 H3 H4 H5 H6]. apply Forall_app in H5 as [H5 _]. rewrite blen_app in H6. pose proof (blen_nonneg qs).
  constructor; [done..|lia].
Qed.

(** The fields of the header that a chain commits to; the compression flag is not hashed. *)
Definition same_header hd hd' : Prop :=
  sh_format_version hd = sh_format_version hd' ∧ sh_shard_id hd = sh_shard_id hd' ∧ sh_created_at hd = sh_created_at hd'.

Lemma origin_input_inj prev hd name ps prev' hd' name' ps' :
  chainable prev hd name ps → chainable prev' hd' name' ps' →
  origin_input prev hd name = origin_input prev' hd' name' → prev = prev' ∧ same_header hd hd' ∧ name = name'.
Proof.
  intros [A1 A2 A3 A4 _ _] [B1 B2 B3 B4 _ _] H. unfold origin_input in H. apply app_inv_head in H.
  apply app_inj_1 in H as [-> H]; [|by rewrite A1, B1]. split; [done|].
  apply app_inj_1 in H as [[= Hv] H]; [|done].
  apply app_inj_1 in H as [Hs H]; [|by rewrite !length_le_bytes].
  apply app_inj_1 in H as [Hc H]; [|by rewrite !length_le_bytes].
  apply (f_equal le_val) in Hs. rewrite !le_val_le_bytes in Hs by done.
  apply (f_equal le_val_i64) in Hc. rewrite !le_val_i64_le_bytes in Hc by done. split; [done|].
  rewrite <-(app_nil_r name), <-(app_nil_r name') in H at 2. by apply framed_inj in H as [-> _].
Qed.

Lemma origin_length prev hd name ps : chainable prev hd name ps → (64 < length (origin_input prev hd name))%nat.
Proof.
  intros [A1 _ _ _ _ _]. unfold origin_input. rewrite !length_app, !length_le_bytes, A1.
  change (length DOMAIN_SEP) with 14%nat. cbn. lia.
Qed.

Lemma chain_head_length prev hd name ps : length (chain_head prev hd name ps) = 32%nat.
Proof.
  unfold chain_head. destruct ps as [|p ps _] using rev_ind; [apply sha256_length|]. rewrite chain_from_snoc. apply sha256_length.
Qed.

Lemma hashed_snoc prev hd name ps p :
  let id := for_record name (blen ps + 1) p in
  chain_head prev hd name (ps ++ [p]) = sha256 (chain_head prev hd name ps ++ id) ∧
  hashed prev hd name (ps ++ [p]) =
    hashed prev hd name ps ++ [record_input name (blen ps + 1) p; chain_head prev hd name ps ++ id].
Proof. unfold chain_head, hashed. by rewrite chain_from_snoc, hashed_from_snoc. Qed.

(** A head determines its chain, up to a collision: the origin hashes more than the 64
    bytes of a step, so chains of different lengths do not meet either. *)
Lemma head_binds prev hd name ps prev' hd' name' ps' :
  chainable prev hd name ps → chainable prev' hd' name' ps' →
  chain_head prev hd name ps = chain_head prev' hd' name' ps' →
  (prev = prev' ∧ same_header hd hd' ∧ name = name' ∧ ps = ps') ∨ collision (hashed prev hd name ps) (hashed prev' hd' name' ps').
Proof.
  revert ps'. induction ps as [|p ps IH] using rev_ind; intros ps' C C' H;
    (destruct ps' as [|p' ps' _] using rev_ind).
  - destruct (hash_inj (hashed prev hd name []) (hashed prev' hd' name' []) _ _ ltac:(by left) ltac:(by left) H) as [E|E];
      [|by right]. left. destruct (origin_input_inj _ _ _ _ _ _ _ _ C C' E) as (? & ? & ?). auto.
  - right. destruct (hashed_snoc prev' hd' name' ps' p') as [Eh El]. rewrite El, Eh in *.
    eexists _, _. split; [by left|]. split; [apply elem_of_app; right; by right; left|]. split; [|exact H].
    intros E. apply (f_equal length) in E. pose proof (origin_length _ _ _ _ C).
    rewrite length_app, chain_head_length in E. unfold for_record in E. rewrite sha256_length in E. lia.
  - right. destruct (hashed_snoc prev hd name ps p) as [Eh El]. rewrite El, Eh in *.
    eexists _, _. split; [apply elem_of_app; right; by right; left|]. split; [by left|]. split; [|exact H].
    intros E. apply (f_equal length) in E. pose proof (origin_length _ _ _ _ C').
    rewrite length_app, chain_head_length in E. unfold for_record in E. rewrite sha256_length in E. lia.
  - destruct (hashed_snoc prev hd name ps p) as [Eh El]. destruct (hashed_snoc prev' hd' name' ps' p') as [Eh' El'].
    rewrite El, El', Eh, Eh' in *.
    set (l := [record_input name _ p; _]). set (l' := [record_input name' _ p'; _]).
    destruct (hash_inj (hashed prev hd name ps ++ l) (hashed prev' hd' name' ps' ++ l') _ _
                ltac:(apply elem_of_app; right; by right; left) ltac:(apply elem_of_app; right; by right; left) H) as [E|E]; [|by right].
    apply app_inj_1 in E as [Eh0 Eid]; [|by rewrite !chain_head_length].
    destruct (hash_inj (hashed prev hd name ps ++ l) (hashed prev' hd' name' ps' ++ l') _ _
                ltac:(apply elem_of_app; right; by left) ltac:(apply elem_of_app; right; by left) Eid) as [E|E]; [|by right].
    destruct (IH ps' (chainable_prefix _ _ _ _ _ C) (chainable_prefix _ _ _ _ _ C') Eh0) as [(E1 & E2 & E3 & E4)|E5].
    + left. subst. destruct C as [_ _ _ Cn Cp Cc], C' as [_ _ _ _ Cp' _]. apply Forall_app in Cp as [_ Cp], Cp' as [_ Cp'].
      apply Forall_cons_1 in Cp as [Cp _], Cp' as [Cp' _]. rewrite blen_app in Cc. change (blen [p]) with 1 in Cc.
      pose proof (blen_nonneg ps').
      assert (Hu : is_u64 (blen ps' + 1)) by (unfold is_u64; lia).
      by destruct (record_input_inj _ _ _ _ _ _ Cn Cn Cp Cp' Hu Hu E) as (_ & _ & ->).
    + right. eapply collision_mono; [| |exact E5]; intros x Hx; apply elem_of_app; by left.
Qed.

(** ** The sidecar codec *)

Record sidecar_wf (s : Sidecar) : Prop := mkSidecarWf {
  swf_version : sc_format_version s = ATTEST_FORMAT_VERSION;
  swf_shard : is_u16 (sc_shard_id s);
  swf_name : utf8_valid (sc_segment_name s) = true;
  swf_name_len : is_u16 (blen (sc_segment_name s));
  swf_prev : length (sc_prev_head s) = 32%nat;
  swf_head : length (sc_head s) = 32%nat;
  swf_count : is_u64 (sc_record_count s);
  swf_sealed : is_i64 (sc_sealed_at s);
}.

(** The fields of a buffer laid out as a sidecar. *)
Record fields (buf m : bytes) (v : byte) (sh pv hv n at_ nl rest : bytes) : Prop := mkFields {
  fl_magic : slice 0 4 buf = m;
  fl_version : buf !!! 4%nat = v;
  fl_shard : slice 5 7 buf = sh;
  fl_prev : slice 7 39 buf = pv;
  fl_head : slice 39 71 buf = hv;
  fl_count : slice 71 79 buf = n;
  fl_sealed : slice 79 87 buf = at_;
  fl_name_len : slice 87 89 buf = nl;
  fl_rest : drop 89 buf = rest;
}.

Lemma slice_here (l r : bytes) n : length l = n → slice 0 n (l ++ r) = l.
Proof. intros <-. rewrite slice_app_l by lia. apply slice_all. Qed.

Lemma slice_next (l r : bytes) a b n : length l = n → slice (n + a) (n + b) (l ++ r) = slice a b r.
Proof. intros <-. rewrite slice_app_r by lia. f_equal; lia. Qed.

Lemma fields_intro (m : bytes) (v : byte) (sh pv hv n at_ nl rest : bytes) :
  length m = 4%nat → length sh = 2%nat → length pv = 32%nat → length hv = 32%nat → length n = 8%nat →
  length at_ = 8%nat → length nl = 2%nat →
  fields (m ++ [v] ++ sh ++ pv ++ hv ++ n ++ at_ ++ nl ++ rest) m v sh pv hv n at_ nl rest.
Proof.
  intros H1 H2 H3 H4 H5 H6 H7. constructor.
  - by apply slice_here.
  - rewrite list_lookup_total_alt, lookup_app_r by lia. by rewrite H1.
  - rewrite (slice_next _ _ 1 3 4) by done. rewrite (slice_next [v] _ 0 2 1) by done. by apply slice_here.
  - rewrite (slice_next _ _ 3 35 4) by done. rewrite (slice_next [v] _ 2 34 1) by done.
    rewrite (slice_next _ _ 0 32 2) by done. by apply slice_here.
  - rewrite (slice_next _ _ 35 67 4) by done. rewrite (slice_next [v] _ 34 66 1) by done.
    rewrite (slice_next _ _ 32 64 2) by done. rewrite (slice_next _ _ 0 32 32) by done. by apply slice_here.
  - rewrite (slice_next _ _ 67 75 4) by done. rewrite (slice_next [v] _ 66 74 1) by done.
    rewrite (slice_next _ _ 64 72 2) by done. rewrite (slice_next _ _ 32 40 32) by done.
    rewrite (slice_next _ _ 0 8 32) by done. by apply slice_here.
  - rewrite (slice_next _ _ 75 83 4) by done. rewrite (slice_next [v] _ 74 82 1) by done.
    rewrite (slice_next _ _ 72 80 2) by done. rewrite (slice_next _ _ 40 48 32) by done.
    rewrite (slice_next _ _ 8 16 32) by done. rewrite (slice_next _ _ 0 8 8) by done. by apply slice_here.
  - rewrite (slice_next _ _ 83 85 4) by done. rewrite (slice_next [v] _ 82 84 1) by done.
    rewrite (slice_next _ _ 80 82 2) by done. rewrite (slice_next _ _ 48 50 32) by done.
    rewrite (slice_next _ _ 16 18 32) by done. rewrite (slice_next _ _ 8 10 8) by done.
    rewrite (slice_next _ _ 0 2 8) by done. by apply slice_here.
  - rewrite !app_assoc. apply drop_app_length'. rewrite !length_app. cbn. lia.
Qed.

Lemma fields_split buf :
  (89 ≤ length buf)%nat →
  buf = slice 0 4 buf ++ [buf !!! 4%nat] ++ slice 5 7 buf ++ slice 7 39 buf ++ slice 39 71 buf ++ slice 71 79 buf
    ++ slice 79 87 buf ++ slice 87 89 buf ++ drop 89 buf.
Proof.
  intros Hl. assert (H1 : [buf !!! 4%nat] = slice 4 5 buf).
  { do 5 (destruct buf as [|? buf]; [cbn in Hl; lia|]). done. }
  rewrite H1, !app_assoc, !slice_split by lia. unfold slice. rewrite drop_0, Nat.sub_0_r. by rewrite take_drop.
Qed.

Lemma body_fields s : sidecar_wf s → ∀ rest,
  fields (sidecar_body s ++ rest) ATTEST_MAGIC (sc_format_version s) (le_bytes 2 (sc_shard_id s)) (sc_prev_head s)
    (sc_head s) (le_bytes 8 (sc_record_count s)) (le_bytes 8 (sc_sealed_at s))
    (le_bytes 2 (blen (sc_segment_name s))) (sc_segment_name s ++ rest) ∧
  blen (sidecar_body s) = ATTEST_FIXED_LEN + blen (sc_segment_name s).
Proof.
  intros [W1 W2 W3 W4 W5 W6 W7 W8] rest. split.
  - unfold sidecar_body. rewrite <-!app_assoc. apply fields_intro; (done || by rewrite length_le_bytes).
  - unfold sidecar_body, ATTEST_FIXED_LEN. rewrite !blen_app, !blen_le_bytes. change (blen ATTEST_MAGIC) with 4.
    change (blen [sc_format_version s]) with 1. unfold blen at 1 2. rewrite W5, W6. lia.
Qed.

Lemma decode_sound buf s : sidecar_decode buf = Ok s → buf = sidecar_encode s ∧ sidecar_wf s.
Proof.
  unfold sidecar_decode. destruct (Z.ltb_spec (blen buf) (ATTEST_FIXED_LEN + 4)) as [|Hl]; [done|].
  assert (Hlen : (93 ≤ length buf)%nat) by (unfold blen, ATTEST_FIXED_LEN in Hl; lia).
  destruct (bool_decide_reflect (slice 0 4 buf = ATTEST_MAGIC)) as [Hm|]; [|done]. cbn [negb].
  destruct (bool_decide_reflect (buf !!! 4%nat = ATTEST_FORMAT_VERSION)) as [Hv|]; [|done]. cbn [negb]. cbv zeta.
  destruct (Z.eqb_spec (blen buf) (ATTEST_FIXED_LEN + le_val (slice 87 89 buf) + 4)) as [He|]; [|done]. cbn [negb].
  set (k := Z.to_nat (ATTEST_FIXED_LEN + le_val (slice 87 89 buf) + 4 - 4)).
  pose proof (le_val_range (slice 87 89 buf)) as Hr. unfold blen in Hr. rewrite length_slice in Hr by lia.
  assert (Hk : k = (length buf - 4)%nat) by (unfold k, blen, ATTEST_FIXED_LEN in *; lia).
  destruct (Z.eqb_spec (crc32_hash (take k buf)) (le_val (drop k buf))) as [Hc|]; [|done]. cbn [negb].
  destruct (utf8_valid (drop 89 (take k buf))) eqn:Hu; [|done]. cbn [negb]. intros [= <-].
  assert (Hn : blen (drop 89 (take k buf)) = le_val (slice 87 89 buf)).
  { unfold blen, ATTEST_FIXED_LEN in *. rewrite length_drop, length_take. lia. }
  assert (Hbody : sidecar_body (mkSidecar (buf !!! 4%nat) (le_val (slice 5 7 buf)) (drop 89 (take k buf)) (slice 7 39 buf)
    (slice 39 71 buf) (le_val (slice 71 79 buf)) (le_val_i64 (slice 79 87 buf))) = take k buf).
  { unfold sidecar_body. cbn [sc_format_version sc_shard_id sc_segment_name sc_prev_head sc_head sc_record_count sc_sealed_at].
    rewrite Hn, !le_bytes_le_val' by (rewrite length_slice; lia). rewrite le_bytes_le_val_i64 by (rewrite length_slice; lia).
    assert (Ht : ∀ a b, (a ≤ b)%nat → (b ≤ k)%nat → slice a b buf = slice a b (take k buf)).
    { intros a b Hab Hb. unfold slice. rewrite <-(take_drop k buf) at 1. rewrite drop_app_le by (rewrite length_take; lia).
      rewrite take_app_le; [done|]. rewrite length_drop, length_take. lia. }
    rewrite !(Ht _ _) by lia. rewrite <-Hm, (Ht 0%nat 4%nat) by lia.
    replace (buf !!! 4%nat) with (take k buf !!! 4%nat); [|by rewrite !list_lookup_total_alt, lookup_take_lt by lia].
    symmetry. apply fields_split. rewrite length_take. lia. }
  split.
  - unfold sidecar_encode. rewrite Hbody, Hc, le_bytes_le_val' by (rewrite length_drop; lia). by rewrite take_drop.
  - constructor; cbn [sc_format_version sc_shard_id sc_segment_name sc_prev_head sc_head sc_record_count sc_sealed_at];
      [done| |done| | | | |].
    + pose proof (le_val_range (slice 5 7 buf)) as H. unfold blen in H. rewrite length_slice in H by lia. exact H.
    + rewrite Hn. exact Hr.
    + rewrite length_slice; lia.
    + rewrite length_slice; lia.
    + pose proof (le_val_range (slice 71 79 buf)) as H. unfold blen in H. rewrite length_slice in H by lia. exact H.
    + apply le_val_i64_range. rewrite length_slice; lia.
Qed.

Lemma decode_encode s : sidecar_wf s → sidecar_decode (sidecar_encode s) = Ok s.
Proof.
  intros W. destruct (body_fields s W (le_bytes 4 (crc32_hash (sidecar_body s)))) as [[F1 F2 F3 F4 F5 F6 F7 F8 F9] Hlen].
  fold (sidecar_encode s) in *. destruct W as [W1 W2 W3 W4 W5 W6 W7 W8]. pose proof (blen_nonneg (sc_segment_name s)) as H0.
  assert (Hl : blen (sidecar_encode s) = ATTEST_FIXED_LEN + blen (sc_segment_name s) + 4).
  { unfold sidecar_encode. rewrite blen_app, Hlen, blen_le_bytes. lia. }
  assert (Hk : Z.to_nat (ATTEST_FIXED_LEN + blen (sc_segment_name s) + 4 - 4) = length (sidecar_body s)).
  { unfold blen in *. lia. }
  unfold sidecar_decode. rewrite F1, F2, F3, F4, F5, F6, F7, F8, Hl. rewrite !le_val_le_bytes by done.
  rewrite (proj2 (Z.ltb_ge _ _)) by lia. rewrite !bool_decide_eq_true_2 by done. cbn [negb]. cbv zeta.
  rewrite Z.eqb_refl, Hk. cbn [negb]. unfold sidecar_encode at 1 2 3. rewrite take_app_length, drop_app_length.
  rewrite le_val_le_bytes by apply crc32_range. rewrite Z.eqb_refl. cbn [negb].
  assert (Hd : drop 89 (sidecar_body s) = sc_segment_name s).
  { destruct (body_fields s (mkSidecarWf s W1 W2 W3 W4 W5 W6 W7 W8) []) as [[_ _ _ _ _ _ _ _ F] _].
    by rewrite !app_nil_r in F. }
  unfold sidecar_encode. rewrite take_app_length, Hd, W3, le_val_i64_le_bytes by done. cbn [negb]. by destruct s.
Qed.

(** The sidecar codec is exact: a file decodes to a sidecar if and only if it is the
    encoding of that sidecar and the sidecar is well formed (version one, a UTF-8 name of
    at most 65535 bytes, 32-byte heads, a [u64] count, an [i64] time). *)
Theorem sidecar_decode_iff buf s : sidecar_decode buf = Ok s ↔ buf = sidecar_encode s ∧ sidecar_wf s.
Proof. split; [apply decode_sound|]. intros [-> W]. by apply decode_encode. Qed.

(** ** Segments on disk *)

(** The contents [data] have the header [hd] and the records [ps], all of them readable. *)
Definition holds (data : bytes) hd ps : Prop :=
  reads data ps [] ∧ ∃ rd, segment_reader_open (Ok (mkStream data false)) = Ok rd ∧ sr_header rd = hd.

Lemma parsed_header_wf hb hd : parse_segment_header hb = Ok hd → is_u16 (sh_shard_id hd) ∧ is_i64 (sh_created_at hd).
Proof.
  unfold parse_segment_header. destruct (Z.eqb_spec (blen hb) SEGMENT_HEADER_LEN) as [Hl|]; [|done]. cbn [negb].
  assert (Hn : length hb = 24%nat) by (unfold blen, SEGMENT_HEADER_LEN in Hl; lia).
  destruct (negb _); [done|]. destruct (parse_compression _ _) as [c|e]; [|done]. intros [= <-]. cbn [sh_shard_id sh_created_at]. split.
  - pose proof (le_val_range (slice 6 8 hb)) as H. unfold blen in H. rewrite length_slice in H by lia. exact H.
  - apply le_val_i64_range. rewrite length_slice; lia.
Qed.

Lemma frames_long ss : blen ss ≤ blen (frames ss).
Proof.
  induction ss as [|s ss IH]; [done|]. rewrite frames_cons, blen_app, blen_cons. unfold frame.
  rewrite !blen_app, !blen_le_bytes. pose proof (blen_nonneg s). lia.
Qed.

(** What a file of a possible size holds fits the widths of the chain. *)
Lemma holds_chainable data hd ps prev name :
  holds data hd ps → blen data < 2 ^ 63 → length prev = 32%nat → blen name < 2 ^ 64 → chainable prev hd name ps.
Proof.
  intros [(r & Ho & Hi & _) (rd & Hrd & Hhd)] Hd Hp Hn. rewrite Ho in Hrd. injection Hrd as <-.
  apply segment_reader_open_inv in Ho as (hb & hd' & Hparse & Hdat & Hr). cbn [st_data st_bad] in *.
  rewrite Hr in Hhd, Hi. cbn [sr_header reader_at] in Hhd. subst hd'. apply parsed_header_wf in Hparse as [H1 H2].
  destruct (reader_shape hd (sh_compression hd) (st_data (sr_reader r)) false) as (ss & qs & rest & en & r' & Hq & Hrest & HF & _ & He).
  rewrite Hq in Hi. cbn [fst] in Hi. rewrite app_nil_r in Hi. rewrite <-(app_nil_r (map Ok ps)) in Hi.
  apply oks_unique in Hi as [-> _]; [|by eapply ending_no_ok|apply no_ok_nil].
  assert (Hbody : blen (st_data (sr_reader r)) ≤ blen data) by (rewrite Hdat, blen_app; pose proof (blen_nonneg hb); lia).
  assert (Hss : blen ss = blen ps) by (unfold blen; f_equal; by eapply Forall2_length).
  pose proof (frames_long ss) as Hl. rewrite Hrest, blen_app in Hbody. pose proof (blen_nonneg rest).
  constructor; [done|done|done|done| |lia].
  clear -HF ZL. induction HF as [|s p ss ps [Hs Hdec] HF IH]; constructor; [|done].
  destruct (sh_compression hd); cbn in Hdec.
  - injection Hdec as <-. destruct Hs as [_ Hs]. pose proof (stored_cap_u32 CNone). lia.
  - apply zstd_capacity in Hdec. unfold MAX_PAYLOAD_HARD_CAP in Hdec. lia.
Qed.

(** A walk that succeeds has read the whole segment. *)
Lemma walk_spec p prev w hd h n w' :
  walk_segment p prev w = (Ok (hd, h, n), w') →
  quiet w w' ∧ ∃ i node ps, fs_live (w_fs w) !! p = Some i ∧ fs_files (w_fs w) !! i = Some node ∧
    holds (f_data node) hd ps ∧ h = chain_head prev hd (segment_name_for p) ps ∧ n = blen ps.
Proof.
  unfold walk_segment. destruct (open_read p w) as [opened w1] eqn:Eo.
  destruct (open_read_spec _ _ _ _ Eo) as [Q Hst]. destruct (segment_reader_open opened) as [rd|e] eqn:Er; [|done].
  destruct opened as [st|e]; [|done]. destruct (Hst st eq_refl) as (i & node & Hi & Hn & Hc).
  destruct (reads_opens _ _ _ Hc Er) as (ps & tail & Hps).
  destruct (reads_stream _ _ _ _ _ Hc Er Hps) as (ps' & tail' & Hit & _ & Hend & Hno).
  rewrite Hit, chain_items_tail by done. destruct tail' as [|[q|e] tail']; [|destruct (Hno q); by left|done].
  intros [= <- <- <- <-]. destruct (Hend eq_refl) as [-> ->]. split; [done|]. exists i, node, ps. split; [done|]. split; [done|].
  split; [|done]. split; [done|]. destruct Hps as (r0 & Hr0 & _). exists r0. split; [done|]. symmetry. by eapply stream_header.
Qed.

Lemma fs_read_data p w b w' i node :
  fs_read p w = (Ok b, w') → fs_live (w_fs w) !! p = Some i → fs_files (w_fs w) !! i = Some node → b = f_data node.
Proof.
  unfold fs_read. intros H Hi Hn. apply io_bind_inv in H as [(e & _ & [=])|(st & w1 & H & Hg)].
  apply open_read_spec in H as [_ Hr]. destruct (Hr st eq_refl) as (j & n & Hj & Hm & Hc). simplify_eq.
  apply covers_prefix in Hc as [_ Hc]. destruct (st_bad st); [done|]. injection Hg as <- _. by apply Hc.
Qed.

Lemma image_sealed_at data hd ft ss : sealed_image data hd ft ss → is_i64 (sf_sealed_at ft).
Proof.
  intros (hb & fb & _ & _ & Hf & _). pose proof (parse_segment_footer_len _ _ Hf) as Hl.
  unfold parse_segment_footer in Hf. rewrite Hl, Z.eqb_refl in Hf. injection Hf as <-. cbn [sf_sealed_at].
  apply le_val_i64_range. rewrite length_slice; [done|lia|]. unfold blen, SEGMENT_FOOTER_LEN in Hl. lia.
Qed.

Lemma sidecar_agrees p prev w s w' :
  chain_segment p prev w = (Ok s, w') →
  sc_prev_head s = prev ∧ sc_segment_name s = segment_name_for p ∧ sc_format_version s = ATTEST_FORMAT_VERSION ∧
  ∃ i node hd ps, fs_live (w_fs w) !! p = Some i ∧ fs_files (w_fs w) !! i = Some node ∧ holds (f_data node) hd ps ∧
    sc_shard_id s = sh_shard_id hd ∧ sc_head s = chain_head prev hd (segment_name_for p) ps ∧ sc_record_count s = blen ps ∧
    is_i64 (sc_sealed_at s).
Proof.
  unfold chain_segment. destruct (open_read p w) as [opened w1] eqn:Eo. apply open_read_spec in Eo as [Q _].
  destruct (verify_sealed_segment opened) as [v|e] eqn:Ev; [|done].
  destruct (walk_segment p prev w1) as [[[[hd h] n]|e] w2] eqn:Ew; [|done]. intros [= <- <-].
  destruct (walk_spec _ _ _ _ _ _ _ Ew) as (_ & i & node & ps & Hi & Hn & Hh & -> & ->).
  destruct Q as (_ & (HL & _) & HF & _). rewrite HL, HF in *.
  do 3 (split; [done|]). exists i, node, hd, ps. cbn. do 6 (split; [done|]).
  destruct opened as [st|e]; [|done]. destruct v as [vh vf]. apply verify_only in Ev as (ss & Hs & _).
  by eapply image_sealed_at.
Qed.

(** C11: edits are evident: take a segment that was chained and, later, the file at its path
    and the sidecar as it was written. If the verifier calls it [Verified], whatever was
    done to the file in between, the file holds the same records in the same order under
    a header with the same format version, shard and creation time (the compression of the
    stored records is not part of the chain); or two different texts that the two chains hashed have the
    same SHA-256 digest. *)
Theorem edits_are_evident p prev w s w1 w2 w3 i node j sn i' node' :
  chain_segment p prev w = (Ok s, w1) → verify_segment p w2 = (Ok Verified, w3) →
  fs_live (w_fs w) !! p = Some i → fs_files (w_fs w) !! i = Some node →
  fs_live (w_fs w2) !! sidecar_path p = Some j → fs_files (w_fs w2) !! j = Some sn → f_data sn = sidecar_encode s →
  fs_live (w_fs w2) !! p = Some i' → fs_files (w_fs w2) !! i' = Some node' →
  length prev = 32%nat → utf8_valid (segment_name_for p) = true → is_u16 (blen (segment_name_for p)) →
  blen (f_data node) < 2 ^ 63 → blen (f_data node') < 2 ^ 63 →
  ∃ hd ps hd' ps', holds (f_data node) hd ps ∧ holds (f_data node') hd' ps' ∧
    ((ps' = ps ∧ same_header hd' hd) ∨
     collision (hashed prev hd' (segment_name_for p) ps') (hashed prev hd (segment_name_for p) ps)).
Proof.
  intros Hc Hv Hi Hn Hj Hsn Hs Hi' Hn' Hp Hu Hl Hz Hz'.
  destruct (sidecar_agrees _ _ _ _ _ Hc) as (S1 & S2 & S3 & i0 & n0 & hd & ps & Hi0 & Hn0 & Hh & S4 & S5 & S6 & S7).
  rewrite Hi in Hi0. injection Hi0 as <-. rewrite Hn in Hn0. injection Hn0 as <-.
  assert (Hname : blen (segment_name_for p) < 2 ^ 64) by (unfold is_u16 in Hl; lia).
  pose proof (holds_chainable _ _ _ prev _ Hh Hz Hp Hname) as C.
  assert (W : sidecar_wf s).
  { destruct C as [C1 C2 C3 C4 C5 C6]. constructor; rewrite ?S2, ?S3, ?S4, ?S5, ?S6, ?S1; try done.
    - apply chain_head_length.
    - pose proof (blen_nonneg ps). unfold is_u64. lia. }
  unfold verify_segment in Hv. destruct (exists_ (sidecar_path p) w2) as [b wa] eqn:Ee.
  destruct (exists_calm _ _ _ _ Ee) as (_ & La & Fa & _). destruct b; [|done]. cbn [negb] in Hv.
  destruct (fs_read (sidecar_path p) wa) as [[buf|e] wb] eqn:Ef; [|done].
  rewrite <-La in Hj, Hi'. rewrite <-Fa in Hsn, Hn'. rewrite (fs_read_data _ _ _ _ _ _ Ef Hj Hsn), Hs in Hv.
  apply fs_read_spec in Ef as [(_ & (Lb & _) & Fb & _) _]. rewrite <-Lb in Hi'. rewrite <-Fb in Hn'.
  rewrite decode_encode, S1 in Hv by done.
  destruct (walk_segment p prev wb) as [[[[hd' h'] n'] |e] wc] eqn:Ew; [|done].
  destruct (walk_spec _ _ _ _ _ _ _ Ew) as (_ & i2 & node2 & ps' & Hi2 & Hn2 & Hh' & -> & ->).
  rewrite Hi' in Hi2. injection Hi2 as <-. rewrite Hn' in Hn2. injection Hn2 as <-.
  exists hd, ps, hd', ps'. split; [done|]. split; [done|].
  destruct (bool_decide_reflect (chain_head prev hd' (segment_name_for p) ps' = sc_head s)) as [E|E];
    [|by destruct (first_divergence _ _ _) as [[]]].
  pose proof (holds_chainable _ _ _ prev _ Hh' Hz' Hp Hname) as C'. rewrite S5 in E.
  destruct (head_binds _ _ _ _ _ _ _ _ C' C E) as [(_ & E2 & _ & E4)|E5]; [left; auto|by right].
Qed.

(** ** Verdicts *)

Lemma open_healthy p w i node :
  fs_tape (w_fs w) = [] → fs_live (w_fs w) !! p = Some i → fs_files (w_fs w) !! i = Some node →
  open_read p w = (Ok (mkStream (f_data node) false), w).
Proof. intros Ht Hi Hn. unfold open_read, pop_fault. rewrite Ht, Hi. cbn. by rewrite Hn. Qed.

Lemma exists_healthy p w : fs_tape (w_fs w) = [] → is_Some (fs_live (w_fs w) !! p) → exists_ p w = (true, w).
Proof.
  intros Ht Hp. unfold exists_, try_exists, guarded, pop_fault. rewrite Ht. cbn.
  by rewrite bool_decide_eq_true_2.
Qed.

Lemma count_items_tail ps tail :
  (∀ q, Ok q ∉ tail) → count_items (map Ok ps ++ tail) = match tail with Err e :: _ => Err e | _ => Ok (blen ps) end.
Proof.
  intros Ht. induction ps as [|p ps IH]; cbn [map app count_items].
  - destruct tail as [|[q|e] tail]; [done|destruct (Ht q); by left|done].
  - rewrite IH, blen_cons. destruct tail as [|[]]; cbn; try done; f_equal; lia.
Qed.

(** What the verifier has to say about a segment with header [hd] and records [ps]. *)
Definition verdict (s : Sidecar) (h : bytes) (n : Z) : Verdict :=
  if bool_decide (h = sc_head s) && (n =? sc_record_count s) then Verified
  else Diverged (if n <? sc_record_count s then Some (n + 1) else None) (sc_head s) h.

(** C12: the verdict, on a disk that works: without a sidecar the verdict is that it is
    missing; a sidecar that does not decode is reported as such; a record that cannot be
    read is reported as the reader's error; and otherwise the verdict is decided by the
    head recomputed over the segment's records and their number. If records are missing
    the divergence names the first missing one, and else no record. *)
Theorem verify_segment_verdict p w :
  fs_tape (w_fs w) = [] → sidecar_path p ∉ dom (fs_dirs (w_fs w)) →
  match fs_live (w_fs w) !! sidecar_path p with
  | None => verify_segment p w = (Ok MissingSidecar, w)
  | Some j => ∀ sn i node ps tail rd,
    fs_files (w_fs w) !! j = Some sn → fs_live (w_fs w) !! p = Some i → fs_files (w_fs w) !! i = Some node →
    reads (f_data node) ps tail → segment_reader_open (Ok (mkStream (f_data node) false)) = Ok rd →
    verify_segment p w =
      (match sidecar_decode (f_data sn) with
       | Err e => Err e
       | Ok s =>
         match tail with
         | Err e :: _ => Err (AIo e)
         | _ => Ok (verdict s (chain_head (sc_prev_head s) (sr_header rd) (segment_name_for p) ps) (blen ps))
         end
       end, w)
  end.
Proof.
  intros Ht Hd. destruct (fs_live (w_fs w) !! sidecar_path p) as [j|] eqn:Hj.
  - intros sn i node ps tail rd Hsn Hi Hn (r0 & Hr0 & Hit & Hno) Hrd. rewrite Hrd in Hr0. injection Hr0 as <-.
    unfold verify_segment. rewrite exists_healthy by (try done; by exists j). cbn [negb].
    unfold fs_read, io_bind. rewrite (open_healthy _ _ _ _ Ht Hj Hsn). cbn.
    destruct (sidecar_decode (f_data sn)) as [s|e]; [|done].
    unfold walk_segment. rewrite (open_healthy _ _ _ _ Ht Hi Hn), Hrd, Hit, chain_items_tail by done.
    destruct tail as [|[q|e] tail]; [|destruct (Hno q); by left|done]. rewrite Z.add_0_l. fold (chain_head (sc_prev_head s) (sr_header rd) (segment_name_for p) ps).
    unfold verdict. destruct (_ && _); [done|]. unfold first_divergence.
    by rewrite (open_healthy _ _ _ _ Ht Hi Hn), Hrd, Hit, count_items_tail by done.
  - unfold verify_segment, exists_, try_exists, guarded, pop_fault. rewrite Ht. cbn. rewrite Hj.
    rewrite bool_decide_eq_false_2 by (by intros [? ?]). by rewrite bool_decide_eq_false_2 by done.
Qed.
End Chain.

Module AttestWitness.
#[local] Existing Instance Crc32Ieee.ieee.
#[local] Existing Instance ZstdRaw.raw.
#[local] Existing Instance Crc32Ieee.ieee_laws.
#[local] Existing Instance ZstdRaw.raw_laws.
#[local] Existing Instance ShaPrefix.prefix.
#[local] Existing Instance ShaPrefix.prefix_laws.
Import RecoveryWitness ScanWitness AccountWitness.

Definition chained : Sidecar :=
  match chain_segment sealed1 ORIGIN (three_disk []) with
  | (Ok s, _) => s
  | (Err _, _) => mkSidecar x00 0 [] [] [] 0 0
  end.

Lemma sidecar_decode_iff_witness : sidecar_decode (sidecar_encode chained) = Ok chained.
Proof.
  apply (sidecar_decode_iff (sidecar_encode chained) chained). split; [done|]. clear.
  constructor; vm_compute; try reflexivity; split; first [reflexivity|discriminate].
Defined.

(** The segment's file with contents [data], beside the sidecar. *)
Definition attested (data : bytes) : World :=
  disk {[ sealed1 := 1%positive; sidecar_path sealed1 := 2%positive ]}
    {[ 1%positive := on_disk data; 2%positive := on_disk (sidecar_encode chained) ]} [].

Lemma edits_are_evident_witness :
  ∃ hd ps hd' ps', holds sealed_file hd ps ∧ holds sealed_file hd' ps' ∧
    ((ps' = ps ∧ same_header hd' hd) ∨
     collision (hashed ORIGIN hd' (segment_name_for sealed1) ps') (hashed ORIGIN hd (segment_name_for sealed1) ps)).
Proof.
  assert (H1 : fst (chain_segment sealed1 ORIGIN (three_disk [])) = Ok chained) by (vm_compute; reflexivity).
  assert (H2 : fst (verify_segment sealed1 (attested sealed_file)) = Ok Verified) by (vm_compute; reflexivity).
  destruct (chain_segment sealed1 ORIGIN (three_disk [])) as [r1 w1] eqn:E1.
  destruct (verify_segment sealed1 (attested sealed_file)) as [r2 w3] eqn:E2.
  cbn [fst] in H1, H2. subst r1 r2.
  refine (edits_are_evident _ _ _ _ _ _ _ 1%positive (on_disk sealed_file) 2%positive (on_disk (sidecar_encode chained))
            1%positive (on_disk sealed_file) E1 E2 _ _ _ _ _ _ _ _ _ _ _ _); clear; vm_compute; try reflexivity.
  split; [discriminate|reflexivity].
Defined.

(** The segment without its last record: the third record is missing. *)
Definition shortened : bytes := header ++ frames (take 2 three).

Lemma shortened_reads : reads shortened (take 2 three) [].
Proof. eexists. split; [by vm_compute|]. split; [by vm_compute|]. apply no_ok_nil. Qed.

Definition shortened_reader : SegmentReader :=
  match segment_reader_open (Ok (mkStream shortened false)) with
  | Ok rd => rd
  | Err _ => mkSegmentReader (mkStream [] false) true (mkSegmentHeaderMeta x01 CNone 0 0) CNone None
  end.

Lemma verify_segment_verdict_witness :
  ∃ actual, fst (verify_segment sealed1 (attested shortened)) = Ok (Diverged (Some 3) (sc_head chained) actual).
Proof.
  assert (Ht : fs_tape (w_fs (attested shortened)) = []) by done.
  assert (Hd : sidecar_path sealed1 ∉ dom (fs_dirs (w_fs (attested shortened)))) by (by apply (bool_decide_unpack _); vm_compute).
  pose proof (verify_segment_verdict sealed1 (attested shortened) Ht Hd) as H.
  assert (Hj : fs_live (w_fs (attested shortened)) !! sidecar_path sealed1 = Some 2%positive) by (by vm_compute). rewrite Hj in H.
  rewrite (H (on_disk (sidecar_encode chained)) 1%positive (on_disk shortened) (take 2 three) [] shortened_reader);
    [|by vm_compute|by vm_compute|by vm_compute|apply shortened_reads|by vm_compute].
  eexists. vm_compute. reflexivity.
Defined.
End AttestWitness.
