(* ===== verification/Calendar.v ===== *)
(** * UTC calendar fields (weir-sink-s3)

    crates/weir-sink-s3/src/time.rs: from unix nanoseconds to calendar fields, against the
    proleptic Gregorian calendar defined day by day. *)

From Stdlib Require Import ZArith Lia.
From stdpp Require Import base list option.
From S2P Require Import Prelude.

Record Utc := mkUtc { utc_year : Z; utc_month : Z; utc_day : Z; utc_hour : Z; utc_minute : Z; utc_second : Z }.

(** [civil_from_days]; the one division of a number that may be negative truncates. *)
Definition civil_from_days (z : Z) : Z * Z * Z :=
  let z := z + 719468 in
  let era := Z.quot (if 0 <=? z then z else z - 146096) 146097 in
  let doe := z - era * 146097 in
  let yoe := (doe - doe / 1460 + doe / 36524 - doe / 146096) / 365 in
  let y := yoe + era * 400 in
  let doy := doe - (365 * yoe + yoe / 4 - yoe / 100) in
  let mp := (5 * doy + 2) / 153 in
  let d := doy - (153 * mp + 2) / 5 + 1 in
  let m := if mp <? 10 then mp + 3 else mp - 9 in
  (if m <=? 2 then y + 1 else y, m, d).

(** [utc_from_unix_nanos]. *)
Definition utc_from_unix_nanos (nanos : Z) : Utc :=
  let secs := nanos / 1000000000 in
  let days := secs / 86400 in
  let sod := secs mod 86400 in
  let '(year, month, day) := civil_from_days days in
  mkUtc year month day (sod / 3600) (sod mod 3600 / 60) (sod mod 60).

(** ** The calendar *)

Definition is_leap (y : Z) : bool := (y mod 4 =? 0) && (negb (y mod 100 =? 0) || (y mod 400 =? 0)).
Definition month_length (y m : Z) : Z :=
  if m =? 2 then (if is_leap y then 29 else 28)
  else if (m =? 4) || (m =? 6) || (m =? 9) || (m =? 11) then 30 else 31.
Definition next_day (ymd : Z * Z * Z) : Z * Z * Z :=
  let '(y, m, d) := ymd in
  if d <? month_length y m then (y, m, d + 1)
  else if m <? 12 then (y, m + 1, 1) else (y + 1, 1, 1).

(** ** The algorithm follows it *)

(** The fields of day [doe] of an era, whose years start in March. *)
Definition civil_of_era (doe : Z) : Z * Z * Z :=
  let yoe := (doe - doe / 1460 + doe / 36524 - doe / 146096) / 365 in
  let doy := doe - (365 * yoe + yoe / 4 - yoe / 100) in
  let mp := (5 * doy + 2) / 153 in
  let d := doy - (153 * mp + 2) / 5 + 1 in
  let m := if mp <? 10 then mp + 3 else mp - 9 in
  (if m <=? 2 then yoe + 1 else yoe, m, d).

Definition shift_year (n : Z) (ymd : Z * Z * Z) : Z * Z * Z := let '(y, m, d) := ymd in (y + n, m, d).

Lemma civil_by_era z : civil_from_days z = shift_year ((z + 719468) / 146097 * 400) (civil_of_era ((z + 719468) mod 146097)).
Proof.
  unfold civil_from_days. set (n := z + 719468). clearbody n. clear z.
  assert (E : Z.quot (if 0 <=? n then n else n - 146096) 146097 = n / 146097).
  { destruct (Z.leb_spec 0 n) as [H|H]; [by apply Z.quot_div_nonneg|].
    rewrite <-(Z.opp_involutive (n - 146096)), Z.quot_opp_l, Z.quot_div_nonneg by lia.
    apply (Z.div_unique _ _ _ (n + (- (n - 146096)) / 146097 * 146097)).
    - left. pose proof (Z.div_mod (- (n - 146096)) 146097 ltac:(lia)). pose proof (Z.mod_pos_bound (- (n - 146096)) 146097). lia.
    - lia. }
  rewrite E. assert (D : n - n / 146097 * 146097 = n mod 146097) by (pose proof (Z.div_mod n 146097); lia).
  rewrite D. unfold civil_of_era, shift_year. set (doe := n mod 146097).
  set (yoe := (doe - doe / 1460 + doe / 36524 - doe / 146096) / 365). cbv zeta.
  destruct (_ <=? 2); do 2 f_equal; lia.
Qed.

(** A leap rule repeats after 400 years. *)
Lemma is_leap_shift y k : is_leap (y + k * 400) = is_leap y.
Proof.
  unfold is_leap.
  assert (H : ∀ m, m ∈ [4; 100; 400] → (y + k * 400) mod m = y mod m).
  { intros m Hm. rewrite !elem_of_cons, elem_of_nil in Hm.
    destruct Hm as [->|[->|[->|[]]]].
    - replace (y + k * 400) with (y + (k * 100) * 4) by lia. by rewrite Z_mod_plus_full.
    - replace (y + k * 400) with (y + (k * 4) * 100) by lia. by rewrite Z_mod_plus_full.
    - by rewrite Z_mod_plus_full. }
  by rewrite !H by (rewrite !elem_of_cons; auto).
Qed.

Lemma next_day_shift k ymd : next_day (shift_year (k * 400) ymd) = shift_year (k * 400) (next_day ymd).
Proof.
  destruct ymd as [[y m] d]. cbn [shift_year next_day].
  assert (month_length (y + k * 400) m = month_length y m) as -> by (unfold month_length; by rewrite is_leap_shift).
  destruct (_ <? _); [done|]. destruct (_ <? _); [done|]. cbn. do 2 f_equal. lia.
Qed.

(** [lia] with quotients and remainders by constants. *)
Ltac dlia := Z.div_mod_to_equations; lia.

(** Day 0 of a year of an era is the first of March. *)
Definition year_start (y : Z) : Z := 365 * y + y / 4 - y / 100.
Definition year_len (y : Z) : Z := if is_leap (y + 1) then 366 else 365.
Definition month_of (doy : Z) : Z := let mp := (5 * doy + 2) / 153 in if mp <? 10 then mp + 3 else mp - 9.
Definition day_of (doy : Z) : Z := let mp := (5 * doy + 2) / 153 in doy - (153 * mp + 2) / 5 + 1.
Definition fields (y doy : Z) : Z * Z * Z :=
  (if month_of doy <=? 2 then y + 1 else y, month_of doy, day_of doy).

Lemma is_leap_spec y : is_leap y = true ↔ y mod 4 = 0 ∧ (y mod 100 ≠ 0 ∨ y mod 400 = 0).
Proof.
  unfold is_leap. rewrite andb_true_iff, orb_true_iff, negb_true_iff, Z.eqb_eq, Z.eqb_neq, Z.eqb_eq. done.
Qed.

Lemma year_len_spec y : 0 ≤ y ≤ 399 → year_start (y + 1) + (if y =? 399 then 1 else 0) = year_start y + year_len y.
Proof.
  intros H. unfold year_len, year_start. pose proof (is_leap_spec (y + 1)) as L. destruct (is_leap (y + 1)).
  - destruct (proj1 L eq_refl) as [H4 H100]. destruct (Z.eqb_spec y 399); dlia.
  - assert (N : ¬ ((y + 1) mod 4 = 0 ∧ ((y + 1) mod 100 ≠ 0 ∨ (y + 1) mod 400 = 0))) by (intros N%L; done).
    destruct (Z.eqb_spec y 399); dlia.
Qed.

Lemma civil_of_era_fields y doy :
  0 ≤ y ≤ 399 → 0 ≤ doy < year_len y → civil_of_era (year_start y + doy) = fields y doy.
Proof.
  intros Hy Hd. pose proof (year_len_spec y Hy) as L. unfold civil_of_era, fields, month_of, day_of.
  set (doe := year_start y + doy) in *.
  assert (Hdoe : year_start y ≤ doe ∧ (doe < year_start (y + 1) ∨ y = 399 ∧ doe ≤ 146096)).
  { unfold doe. destruct (Z.eqb_spec y 399) as [->|]; [|lia]. change (year_start (399 + 1)) with 146096 in *. lia. }
  assert (E : (doe - doe / 1460 + doe / 36524 - doe / 146096) / 365 = y).
  { clearbody doe. unfold year_start in Hdoe. clear -Hy Hdoe. dlia. }
  rewrite E. replace (doe - (365 * y + y / 4 - y / 100)) with doy by (unfold doe, year_start; lia). done.
Qed.

(** Every day of an era is a day of one of its years. *)
Lemma era_day doe : 0 ≤ doe ≤ 146096 → ∃ y doy, 0 ≤ y ≤ 399 ∧ 0 ≤ doy < year_len y ∧ doe = year_start y + doy.
Proof.
  intros H. set (y := (doe - doe / 1460 + doe / 36524 - doe / 146096) / 365).
  assert (Hy : 0 ≤ y ≤ 399 ∧ year_start y ≤ doe ∧ (doe < year_start (y + 1) ∨ y = 399)).
  { unfold year_start, y. dlia. }
  exists y, (doe - year_start y). pose proof (year_len_spec y ltac:(lia)) as L. destruct Hy as (Hy & H1 & H2).
  split; [done|]. split; [|lia]. destruct (Z.eqb_spec y 399) as [E|]; [|lia]. rewrite E in *.
  change (year_start (399 + 1)) with 146096 in *. lia.
Qed.

(** Within a year of an era the table of months is followed; checked day by day. *)
Lemma month_table doy :
  0 ≤ doy ≤ 365 → 1 ≤ month_of doy ≤ 12 ∧ 1 ≤ day_of doy ∧
  (doy < 364 → ∀ y, next_day (fields y doy) = fields y (doy + 1)) ∧
  (doy = 364 → month_of doy = 2 ∧ day_of doy = 28) ∧ (doy = 365 → month_of doy = 2 ∧ day_of doy = 29) ∧
  (doy < 365 → ∀ y, day_of doy ≤ month_length y (month_of doy)).
Proof.
  assert (T : Forall (λ doy, 1 ≤ month_of doy ≤ 12 ∧ 1 ≤ day_of doy ∧
    (doy < 364 → (month_of doy = 2 → day_of doy < 28) ∧ 
       (month_of (doy + 1), day_of (doy + 1), month_of (doy + 1) <=? 2) =
       (if day_of doy <? month_length 1 (month_of doy) then (month_of doy, day_of doy + 1, month_of doy <=? 2)
        else if month_of doy <? 12 then (month_of doy + 1, 1, month_of doy =? 1) else (1, 1, true))) ∧
    (doy = 364 → month_of doy = 2 ∧ day_of doy = 28) ∧ (doy = 365 → month_of doy = 2 ∧ day_of doy = 29) ∧
    (doy < 365 → day_of doy ≤ month_length 1 (month_of doy))) (map Z.of_nat (seq 0 366))).
  { apply (bool_decide_unpack _). vm_compute. reflexivity. }
  intros H. rewrite list.Forall_forall in T. specialize (T doy). destruct T as (T1 & T2 & T3 & T4 & T5 & T6).
  { apply list_elem_of_In, in_map_iff. exists (Z.to_nat doy). split; [lia|]. apply in_seq. lia. }
  split; [done|]. split; [done|]. split; [|split; [done|split; [done|]]].
  - intros Hd y. destruct (T3 Hd) as [T7 T8]. unfold fields, next_day.
    assert (M : (day_of doy <? month_length (if month_of doy <=? 2 then y + 1 else y) (month_of doy)) =
                (day_of doy <? month_length 1 (month_of doy))).
    { unfold month_length. destruct (Z.eqb_spec (month_of doy) 2) as [E|]; [|done]. specialize (T7 E).
      change (is_leap 1) with false. destruct (is_leap _); lia. }
    rewrite M. destruct (Z.ltb_spec (day_of doy) (month_length 1 (month_of doy))) as [D|D].
    + injection T8 as E1 E2 E3. by rewrite E1, E2.
    + destruct (Z.ltb_spec (month_of doy) 12) as [L|L]; injection T8 as E1 E2 E3; rewrite E1, E2 in *.
      * f_equal. f_equal. assert (month_of doy ≠ 2) by (intros E; specialize (T7 E); rewrite E in D; change (month_length 1 2) with 28 in D; lia).
        destruct (Z.leb_spec (month_of doy) 2), (Z.leb_spec (month_of doy + 1) 2); lia.
      * rewrite (proj2 (Z.leb_gt (month_of doy) 2)) by lia. done.
  - intros Hd y. specialize (T6 Hd). unfold month_length in *. destruct (month_of doy =? 2); [|done].
    change (day_of doy ≤ 28) in T6. destruct (is_leap y); lia.
Qed.

Lemma fields_step y doy :
  0 ≤ y ≤ 399 → 0 ≤ doy < year_len y →
  next_day (fields y doy) = if doy + 1 <? year_len y then fields y (doy + 1) else fields (y + 1) 0.
Proof.
  intros Hy Hd. unfold year_len in *. assert (Hd' : 0 ≤ doy ≤ 365) by (destruct (is_leap _); lia).
  destruct (month_table doy Hd') as (_ & _ & T3 & T4 & T5 & _).
  destruct (decide (doy < 364)) as [L|L]; [rewrite T3 by done; rewrite (proj2 (Z.ltb_lt _ _)); [done|destruct (is_leap _); lia]|].
  destruct (decide (doy = 364)) as [->|].
  - destruct (T4 eq_refl) as [M D]. unfold fields at 1, next_day. rewrite M, D. unfold month_length. cbn [Z.eqb Z.leb Z.compare Pos.compare Pos.compare_cont Pos.eqb].
    destruct (is_leap (y + 1)); by vm_compute.
  - assert (doy = 365) as -> by lia. destruct (T5 eq_refl) as [M D]. unfold fields at 1, next_day. rewrite M, D.
    destruct (is_leap (y + 1)) eqn:E; [|lia]. unfold month_length. cbn [Z.eqb Z.leb Z.compare Pos.compare Pos.compare_cont Pos.eqb].
    rewrite E. by vm_compute.
Qed.

Lemma civil_epoch : civil_from_days 0 = (1970, 1, 1).
Proof. reflexivity. Qed.

Lemma civil_step z : civil_from_days (z + 1) = next_day (civil_from_days z).
Proof.
  rewrite !civil_by_era, next_day_shift. replace (z + 1 + 719468) with (z + 719468 + 1) by lia.
  set (n := z + 719468). clearbody n. clear z. pose proof (Z.mod_pos_bound n 146097 ltac:(lia)) as B.
  destruct (era_day (n mod 146097) ltac:(lia)) as (y & doy & Hy & Hd & E). pose proof (year_len_spec y Hy) as L.
  destruct (decide (n mod 146097 = 146096)) as [Hl|Hl].
  - assert ((n + 1) / 146097 = n / 146097 + 1 ∧ (n + 1) mod 146097 = 0) as [-> ->] by dlia.
    rewrite Hl. change (next_day (civil_of_era 146096)) with (shift_year 400 (civil_of_era 0)).
    destruct (civil_of_era 0) as [[a b] c]. cbn. do 2 f_equal. lia.
  - assert ((n + 1) / 146097 = n / 146097 ∧ (n + 1) mod 146097 = n mod 146097 + 1) as [-> ->] by dlia.
    f_equal. rewrite E, civil_of_era_fields, fields_step by done. rewrite <-Z.add_assoc.
    destruct (Z.ltb_spec (doy + 1) (year_len y)) as [Hs|Hs]; [by apply civil_of_era_fields; [|lia]|].
    destruct (Z.eqb_spec y 399) as [->|]; [change (year_start (399 + 1)) with 146096 in *; lia|].
    replace (year_start y + (doy + 1)) with (year_start (y + 1) + 0) by lia. apply civil_of_era_fields; [lia|].
    unfold year_len. destruct (is_leap _); lia.
Qed.

Lemma civil_valid z : let '(y, m, d) := civil_from_days z in 1 ≤ m ≤ 12 ∧ 1 ≤ d ≤ month_length y m.
Proof.
  rewrite civil_by_era. set (n := z + 719468). pose proof (Z.mod_pos_bound n 146097 ltac:(lia)) as B.
  destruct (era_day (n mod 146097) ltac:(lia)) as (y & doy & Hy & Hd & E). rewrite E, civil_of_era_fields by done.
  unfold fields, shift_year. assert (Hd' : 0 ≤ doy ≤ 365) by (unfold year_len in Hd; destruct (is_leap _); lia).
  destruct (month_table doy Hd') as (T1 & T2 & _ & _ & T5 & T6). split; [done|]. split; [done|].
  assert (S : ∀ y' k, month_length (y' + k * 400) (month_of doy) = month_length y' (month_of doy)).
  { intros y' k. unfold month_length. by rewrite is_leap_shift. }
  rewrite S. destruct (decide (doy < 365)) as [|]; [by apply T6|]. assert (doy = 365) as -> by lia.
  destruct (T5 eq_refl) as [M D]. rewrite M, D. unfold month_length. cbn [Z.eqb Z.leb Z.compare Pos.compare Pos.compare_cont Pos.eqb].
  unfold year_len in Hd. destruct (is_leap (y + 1)); lia.
Qed.

(** C26: instants are rendered in the Gregorian calendar: day 0 is 1 January 1970, each day
    is the next day of the calendar after the one before it, in both directions, so every
    instant of an [i64] number of nanoseconds gets the date its day has; the date is a
    valid one, the time of day is within its ranges, and the fields and the nanoseconds
    that are dropped make up the instant. Every number in between fits its Rust type. *)
Theorem utc_is_gregorian nanos :
  is_i64 nanos →
  let days := nanos / 1000000000 / 86400 in
  let u := utc_from_unix_nanos nanos in
  (utc_year u, utc_month u, utc_day u) = civil_from_days days ∧
  civil_from_days 0 = (1970, 1, 1) ∧ civil_from_days (days + 1) = next_day (civil_from_days days) ∧
  civil_from_days days = next_day (civil_from_days (days - 1)) ∧
  1 ≤ utc_month u ≤ 12 ∧ 1 ≤ utc_day u ≤ month_length (utc_year u) (utc_month u) ∧
  0 ≤ utc_hour u < 24 ∧ 0 ≤ utc_minute u < 60 ∧ 0 ≤ utc_second u < 60 ∧
  0 ≤ nanos - (((days * 24 + utc_hour u) * 60 + utc_minute u) * 60 + utc_second u) * 1000000000 < 1000000000 ∧
  1600 ≤ utc_year u ≤ 2400.
Proof.
  intros Hn days u. unfold is_i64 in Hn. pose proof (civil_valid days) as V.
  assert (Hd : -106752 ≤ days ≤ 106751) by (unfold days; dlia).
  assert (Hy : let '(y, m, d) := civil_from_days days in 1600 ≤ y ≤ 2400).
  { rewrite civil_by_era. pose proof (Z.mod_pos_bound (days + 719468) 146097 ltac:(lia)) as B.
    destruct (era_day ((days + 719468) mod 146097) ltac:(lia)) as (y & doy & Hy & Hdoy & E).
    rewrite E, civil_of_era_fields by done. unfold fields, shift_year.
    assert (4 ≤ (days + 719468) / 146097 ≤ 5) by dlia.
    destruct (_ <=? 2); [|unfold year_start in E; clear V; dlia]. clear V. unfold year_start in E. dlia. }
  unfold u, utc_from_unix_nanos. fold days. destruct (civil_from_days days) as [[y m] d] eqn:Ec.
  cbn [utc_year utc_month utc_day utc_hour utc_minute utc_second]. destruct V as [V1 V2].
  split; [done|]. split; [done|]. split; [by rewrite civil_step, Ec|].
  split; [rewrite <-civil_step; replace (days - 1 + 1) with days by lia; done|]. split; [done|]. split; [done|].
  unfold days. clear -Hn Hy. repeat split; try lia; dlia.
Qed.

Lemma utc_is_gregorian_witness :
  utc_from_unix_nanos (-1) = mkUtc 1969 12 31 23 59 59 ∧ civil_from_days (-1 + 1) = next_day (civil_from_days (-1)).
Proof.
  split; [reflexivity|]. assert (H : is_i64 (-1)) by (unfold is_i64; lia).
  apply (utc_is_gregorian (-1) H).
Defined.
