(* ===== verification/S3Key.v ===== *)
(** * Object keys and bodies of the S3 sink (weir-sink-s3)

    crates/weir-sink-s3/src/key.rs (partition templates and object keys), framing.rs (the
    body of an object) and the path encoding of sigv4.rs. A [&str] is its bytes; a character
    is the bytes of its UTF-8 form. *)

From Stdlib Require Import ZArith Lia Strings.Byte String.
From stdpp Require Import base list option.
From S2P Require Import Prelude Deps Text Calendar.

(** ** Text *)

(** [str::chars]. *)
Fixpoint chars_loop (fuel : nat) (l : bytes) : list bytes :=
  match fuel, l with
  | S fuel, _ :: _ => let n := fst (utf8_step l) in take n l :: chars_loop fuel (drop n l)
  | _, _ => []
  end.
Definition chars (l : bytes) : list bytes := chars_loop (length l) l.

(** [char::is_whitespace]: the characters with the Unicode property [White_Space]. *)
Definition WHITESPACE : list bytes :=
  [[x09]; [x0a]; [x0b]; [x0c]; [x0d]; [x20]; [xc2; x85]; [xc2; xa0]; [xe1; x9a; x80]; [xe2; x80; x80]; [xe2; x80; x81];
   [xe2; x80; x82]; [xe2; x80; x83]; [xe2; x80; x84]; [xe2; x80; x85]; [xe2; x80; x86]; [xe2; x80; x87]; [xe2; x80; x88];
   [xe2; x80; x89]; [xe2; x80; x8a]; [xe2; x80; xa8]; [xe2; x80; xa9]; [xe2; x80; xaf]; [xe2; x81; x9f]; [xe3; x80; x80]].
Definition is_whitespace (c : bytes) : bool := bool_decide (c ∈ WHITESPACE).

(** [char::is_control]: the general category [Cc]. *)
Definition is_control (c : bytes) : bool :=
  match c with
  | [b] => (b2z b <? 0x20) || (b2z b =? 0x7f)
  | [a; b] => (b2z a =? 0xc2) && in_range 0x80 0x9f b
  | _ => false
  end.

(** [str::split] at an ASCII character. *)
Fixpoint split (sep : byte) (s : bytes) : list bytes :=
  match s with
  | [] => [[]]
  | b :: s =>
    if bool_decide (b = sep) then [] :: split sep s
    else match split sep s with [] => [[b]] | x :: xs => (b :: x) :: xs end
  end.

(** [str::trim_matches] of an ASCII character. *)
Fixpoint trim_start (sep : byte) (s : bytes) : bytes :=
  match s with
  | b :: s' => if bool_decide (b = sep) then trim_start sep s' else s
  | [] => []
  end.
Definition trim_end (sep : byte) (s : bytes) : bytes := rev (trim_start sep (rev s)).
Definition trim_matches (sep : byte) (s : bytes) : bytes := trim_end sep (trim_start sep s).

(** ** Partition templates *)

Inductive TemplateError :=
| UnknownSpecifier (c : bytes)
| TrailingPercent
| DotSegment
| EmptySegment
| UnsafeCharacter (c : bytes).

Inductive Piece := Literal (s : bytes) | Year | Month | Day | Hour.

(** [seg.is_empty() || seg.trim().is_empty()]. *)
Definition is_blank (seg : bytes) : bool := forallb is_whitespace (chars seg).

Fixpoint validate_segments (all_empty : bool) (segs : list bytes) : result unit TemplateError :=
  match segs with
  | [] => Ok tt
  | seg :: segs =>
    if is_blank seg then (if all_empty then validate_segments all_empty segs else Err EmptySegment)
    else if bool_decide (seg = bstr ".") || bool_decide (seg = bstr "..") then Err DotSegment
    else validate_segments all_empty segs
  end.

Definition is_unsafe (c : bytes) : bool :=
  is_control c || bool_decide (c = bstr "#") || bool_decide (c = bstr "?") || bool_decide (c = [x5c]).

(** [validate_path_text]. *)
Definition validate_path_text (s : bytes) : result unit TemplateError :=
  let trimmed := trim_matches x2f s in
  let? _ := validate_segments (bool_decide (trimmed = [])) (split x2f trimmed) in
  match List.find is_unsafe (chars s) with
  | Some c => Err (UnsafeCharacter c)
  | None => Ok tt
  end.

Definition literal_piece (literal : bytes) : list Piece := match literal with [] => [] | _ => [Literal literal] end.

Definition specifier (c : bytes) : result Piece TemplateError :=
  if bool_decide (c = bstr "Y") then Ok Year else
  if bool_decide (c = bstr "m") then Ok Month else
  if bool_decide (c = bstr "d") then Ok Day else
  if bool_decide (c = bstr "H") then Ok Hour else Err (UnknownSpecifier c).

(** The loop of [PartitionTemplate::parse]. *)
Fixpoint parse_pieces (cs : list bytes) (literal : bytes) : result (list Piece) TemplateError :=
  match cs with
  | [] => Ok (literal_piece literal)
  | c :: cs =>
    if negb (bool_decide (c = bstr "%")) then parse_pieces cs (literal ++ c) else
    match cs with
    | [] => Err TrailingPercent
    | spec :: cs =>
      let? piece := specifier spec in
      let? rest := parse_pieces cs [] in
      Ok (literal_piece literal ++ piece :: rest)
    end
  end.

(** [PartitionTemplate::parse]; a template is its pieces. *)
Definition template_parse (s : bytes) : result (list Piece) TemplateError :=
  let? _ := validate_path_text s in parse_pieces (chars s) [].

(** [format!("{:04}", year)] of a signed year: the sign counts towards the width. *)
Definition fmt_year (y : Z) : bytes := if y <? 0 then bstr "-" ++ dec_pad 3 (- y) else dec_pad 4 y.

Definition render_piece (t : Utc) (p : Piece) : bytes :=
  match p with
  | Literal s => s
  | Year => fmt_year (utc_year t)
  | Month => dec_pad 2 (utc_month t)
  | Day => dec_pad 2 (utc_day t)
  | Hour => dec_pad 2 (utc_hour t)
  end.

(** [PartitionTemplate::render]. *)
Definition render (tmpl : list Piece) (t : Utc) : bytes := concat (map (render_piece t) tmpl).

(** ** Keys *)

(** [key::batch_name]: sixteen hexadecimal digits of [created_at as u64]. *)
Definition batch_name (created_at : Z) (first_record_id_hex : bytes) (count : Z) : bytes :=
  to_hex (rev (le_bytes 8 created_at)) ++ bstr "-" ++ first_record_id_hex ++ bstr "-" ++ dec count.

(** [[&str]::join]. *)
Fixpoint join_with (sep : bytes) (l : list bytes) : bytes :=
  match l with
  | [] => []
  | [x] => x
  | x :: l => x ++ sep ++ join_with sep l
  end.

Definition nonempty_part (s : bytes) : list bytes := match s with [] => [] | _ => [s] end.

(** [key::object_key]. *)
Definition object_key (prefix : bytes) (tmpl : list Piece) (created_at : Z) (name ext : bytes) : bytes :=
  let partition :=
    match tmpl with
    | [] => []
    | _ => nonempty_part (trim_matches x2f (render tmpl (utc_from_unix_nanos created_at)))
    end in
  join_with (bstr "/") (nonempty_part (trim_matches x2f prefix) ++ partition ++ [name ++ bstr "." ++ ext]).

(** ** Bodies *)

Inductive Framing := Ndjson | LengthPrefixed.
Inductive ObjectCompression := ObjNone | ObjZstd | ObjGzip.

(** [Framing::parse] and [Compression::parse]. *)
Definition framing_parse (s : bytes) : option Framing :=
  if bool_decide (s = bstr "ndjson") then Some Ndjson else
  if bool_decide (s = bstr "length-prefixed") then Some LengthPrefixed else None.
Definition object_compression_parse (s : bytes) : option ObjectCompression :=
  if bool_decide (s = bstr "none") then Some ObjNone else
  if bool_decide (s = bstr "zstd") then Some ObjZstd else
  if bool_decide (s = bstr "gzip") then Some ObjGzip else None.

(** The encoders of the zstd and flate2 crates for a whole buffer, with the decoders that a
    reader of the bucket uses. *)
Class ObjectCodec := {
  zstd_encode_all : bytes → bytes;
  zstd_decode_all : bytes → option bytes;
  gzip_encode : bytes → bytes;
  gzip_decode : bytes → option bytes;
}.

(** What is encoded decodes to itself, and even of nothing the encoders make a header. *)
Class ObjectCodecLaws `{ObjectCodec} : Prop := {
  zstd_decode_encode p : zstd_decode_all (zstd_encode_all p) = Some p;
  gzip_decode_encode p : gzip_decode (gzip_encode p) = Some p;
  zstd_header p : zstd_encode_all p ≠ [];
  gzip_header p : gzip_encode p ≠ [];
}.

Section Bodies.
Context {OC : ObjectCodec}.

Record Framed := mkFramed { fd_body : bytes; fd_committed : list bytes; fd_dead_lettered : list (bytes * bytes) }.

Definition NEWLINE_REASON : bytes :=
  bstr "record contains a newline; NDJSON framing cannot represent it (set sink_s3_framing = " ++ [x22]
    ++ bstr "length-prefixed" ++ [x22] ++ bstr " for binary payloads)".

Definition has_newline (record : bytes) : bool :=
  existsb (λ b, bool_decide (b = x0a) || bool_decide (b = x0d)) record.

(** The loop of [frame]: the raw body, the records in it and the others. *)
Fixpoint frame_records (framing : Framing) (records : list bytes) : bytes * list bytes * list (bytes * bytes) :=
  match records with
  | [] => ([], [], [])
  | record :: records =>
    let '(raw, committed, dead) := frame_records framing records in
    match framing with
    | Ndjson =>
      if has_newline record then (raw, committed, (record, NEWLINE_REASON) :: dead)
      else (record ++ [x0a] ++ raw, record :: committed, dead)
    | LengthPrefixed => (le_bytes 8 (blen record) ++ record ++ raw, record :: committed, dead)
    end
  end.

Definition compress (raw : bytes) (compression : ObjectCompression) : bytes :=
  match compression with
  | ObjNone => raw
  | ObjZstd => zstd_encode_all raw
  | ObjGzip => gzip_encode raw
  end.

(** [framing::frame]. *)
Definition frame_object (records : list bytes) (framing : Framing) (compression : ObjectCompression) : Framed :=
  let '(raw, committed, dead) := frame_records framing records in
  mkFramed (match raw with [] => [] | _ => compress raw compression end) committed dead.

(** [framing::extension] and [framing::content_type]. *)
Definition object_extension (framing : Framing) (compression : ObjectCompression) : bytes :=
  let base := match framing with Ndjson => bstr "ndjson" | LengthPrefixed => bstr "weirbin" end in
  match compression with
  | ObjNone => base
  | ObjZstd => base ++ bstr ".zst"
  | ObjGzip => base ++ bstr ".gz"
  end.
Definition content_type (framing : Framing) : bytes :=
  match framing with Ndjson => bstr "application/x-ndjson" | LengthPrefixed => bstr "application/octet-stream" end.
End Bodies.

(** ** Encoded paths *)

Definition is_unreserved (b : byte) : bool :=
  in_range 0x41 0x5a b || in_range 0x61 0x7a b || in_range 0x30 0x39 b || bool_decide (b = x2d) || bool_decide (b = x2e)
  || bool_decide (b = x5f) || bool_decide (b = x7e).

Definition upper_hex_digit (z : Z) : byte := z2b (if z <? 10 then 0x30 + z else 0x41 + (z - 10)).

(** [uri_encode] of one byte. *)
Definition uri_encode_byte (encode_slash : bool) (b : byte) : bytes :=
  if is_unreserved b then [b] else
  if bool_decide (b = x2f) && negb encode_slash then [x2f] else
  [x25; upper_hex_digit (b2z b / 16); upper_hex_digit (b2z b mod 16)].
Definition uri_encode (s : bytes) (encode_slash : bool) : bytes := concat (map (uri_encode_byte encode_slash) s).
Definition uri_encode_path (path : bytes) : bytes := uri_encode path false.

(** ** Reading a body back *)

Section Readers.
Context {OC : ObjectCodec}.

(** The lines of a newline-delimited body. *)
Definition ndjson_lines (raw : bytes) : list bytes := removelast (split x0a raw).

(** Records behind eight-byte lengths; [fuel] is at least their number. *)
Fixpoint prefixed_records (fuel : nat) (raw : bytes) : option (list bytes) :=
  match fuel, raw with
  | _, [] => Some []
  | O, _ => None
  | S fuel, _ =>
    '(len, raw) ← read_exact 8 raw;
    '(record, raw) ← read_exact (le_val len) raw;
    rest ← prefixed_records fuel raw;
    Some (record :: rest)
  end.

Definition decompress (compression : ObjectCompression) (body : bytes) : option bytes :=
  match compression with
  | ObjNone => Some body
  | ObjZstd => zstd_decode_all body
  | ObjGzip => gzip_decode body
  end.

(** What a reader of the bucket finds in an object. *)
Definition object_records (framing : Framing) (compression : ObjectCompression) (body : bytes) : option (list bytes) :=
  raw ← decompress compression body;
  match framing with
  | Ndjson => Some (ndjson_lines raw)
  | LengthPrefixed => prefixed_records (length raw) raw
  end.
End Readers.

(** ** Bodies read back *)

Section BodyFacts.
Context {OC : ObjectCodec} {OL : ObjectCodecLaws}.
Implicit Types (records : list bytes).

Lemma has_newline_spec r : has_newline r = true ↔ x0a ∈ r ∨ x0d ∈ r.
Proof.
  unfold has_newline. rewrite existsb_exists. split.
  - intros (b & Hb%list_elem_of_In & H). apply orb_true_iff in H as [->%bool_decide_eq_true| ->%bool_decide_eq_true]; auto.
  - intros [H|H]; apply list_elem_of_In in H; eexists; (split; [exact H|]); reflexivity.
Qed.

(** The records that a body holds: all, or those without a line break. *)
Definition representable (framing : Framing) (r : bytes) : bool :=
  match framing with Ndjson => negb (has_newline r) | LengthPrefixed => true end.

Lemma frame_records_spec framing records :
  let '(raw, committed, dead) := frame_records framing records in
  committed = filter (λ r, representable framing r = true) records ∧
  map fst dead = filter (λ r, representable framing r = false) records ∧ (raw = [] ↔ committed = []).
Proof.
  induction records as [|r records IH]; cbn [frame_records]; [done|].
  destruct (frame_records framing records) as [[raw committed] dead]. destruct IH as (IH1 & IH2 & IH3).
  rewrite !filter_cons. destruct framing; cbn [representable] in *.
  - destruct (has_newline r); cbn [negb map fst].
    + rewrite decide_False, decide_True by done. by rewrite IH2.
    + rewrite decide_True, decide_False by done. rewrite IH1. split; [done|]. split; [done|].
      split; [intros H; by destruct r|done].
  - rewrite decide_True, decide_False by done. rewrite IH1. split; [done|]. split; [done|]. done.
Qed.

Lemma filter_split {A} (f : A → bool) (l : list A) :
  l ≡ₚ filter (λ x, f x = true) l ++ filter (λ x, f x = false) l.
Proof.
  induction l as [|x l IH]; [done|]. rewrite !filter_cons. destruct (f x) eqn:E.
  - rewrite decide_True, decide_False by congruence. cbn. by rewrite IH at 1.
  - rewrite decide_False, decide_True by congruence. rewrite <-Permutation_middle. by rewrite IH at 1.
Qed.

Lemma split_line r l : x0a ∉ r → split x0a (r ++ [x0a] ++ l) = r :: split x0a l.
Proof.
  induction r as [|b r IH]; intros H; cbn; [by rewrite bool_decide_eq_true_2|].
  apply not_elem_of_cons in H as [Hb Hr]. rewrite bool_decide_eq_false_2 by done. cbn in IH. by rewrite IH.
Qed.

Lemma split_nonempty sep l : split sep l ≠ [].
Proof. destruct l as [|b l]; cbn; [done|]. destruct (bool_decide _); [done|]. by destruct (split sep l). Qed.

Lemma lines_frame records :
  let '(raw, committed, _) := frame_records Ndjson records in ndjson_lines raw = committed.
Proof.
  induction records as [|r records IH]; cbn [frame_records]; [done|].
  destruct (frame_records Ndjson records) as [[raw committed] dead]. destruct (has_newline r) eqn:E; [done|].
  unfold ndjson_lines in *. rewrite split_line.
  - pose proof (split_nonempty x0a raw). rewrite <-IH. by destruct (split x0a raw) eqn:Es.
  - intros H. apply not_true_iff_false in E. apply E, has_newline_spec. by left.
Qed.

Lemma read_exact_full l r : read_exact (blen l) (l ++ r) = Some (l, r).
Proof. by apply read_exact_app. Qed.

Lemma prefixed_frame records fuel :
  Forall (λ r, blen r < 2 ^ 64) records → (length records ≤ fuel)%nat →
  let '(raw, committed, _) := frame_records LengthPrefixed records in prefixed_records fuel raw = Some committed.
Proof.
  intros H. revert fuel. induction H as [|r records Hr H IH]; intros fuel Hf; cbn [frame_records]; [by destruct fuel|].
  destruct fuel as [|fuel]; [cbn in Hf; lia|]. specialize (IH fuel ltac:(cbn in Hf; lia)).
  destruct (frame_records LengthPrefixed records) as [[raw committed] dead]. cbn [prefixed_records].
  assert (E : read_exact 8 (le_bytes 8 (blen r) ++ r ++ raw) = Some (le_bytes 8 (blen r), r ++ raw)).
  { apply read_exact_app. unfold blen. by rewrite length_le_bytes. }
  destruct (le_bytes 8 (blen r) ++ r ++ raw) as [|b l] eqn:El; [done|]. rewrite E. cbn [mbind option_bind].
  pose proof (blen_nonneg r). rewrite le_val_le_bytes by (change (256 ^ Z.of_nat 8) with (2 ^ 64); lia).
  rewrite read_exact_full. cbn [mbind option_bind]. by rewrite IH.
Qed.

Lemma frame_records_length records :
  let '(raw, _, _) := frame_records LengthPrefixed records in (length records ≤ length raw)%nat.
Proof.
  induction records as [|r records IH]; cbn [frame_records]; [done|].
  destruct (frame_records LengthPrefixed records) as [[raw committed] dead]. rewrite !length_app, length_le_bytes. cbn. lia.
Qed.

Lemma compress_spec raw c : raw ≠ [] → compress raw c ≠ [] ∧ decompress c (compress raw c) = Some raw.
Proof. intros H. destruct c; cbn; auto using zstd_header, gzip_header, zstd_decode_encode, gzip_decode_encode. Qed.

Lemma frame_body records framing compression :
  let f := frame_object records framing compression in
  records ≡ₚ fd_committed f ++ map fst (fd_dead_lettered f) ∧ (fd_body f = [] → fd_committed f = []).
Proof.
  intros f. unfold f, frame_object. pose proof (frame_records_spec framing records) as S.
  destruct (frame_records framing records) as [[raw committed] dead]. destruct S as (S1 & S2 & S3).
  cbn [fd_committed fd_dead_lettered fd_body]. rewrite S1 at 1. rewrite S2. split; [apply filter_split|].
  destruct raw as [|x raw]; [intros _; by apply S3|]. by intros [] % compress_spec.
Qed.

(** What [frame] makes of a batch: it parts the batch, an empty body means that nothing is
    in it, and any other body reads back as the records it is said to hold. *)
Lemma frame_spec records framing compression :
  Forall (λ r, blen r < 2 ^ 64) records →
  let f := frame_object records framing compression in
  fd_committed f = filter (λ r, representable framing r = true) records ∧
  map fst (fd_dead_lettered f) = filter (λ r, representable framing r = false) records ∧
  (fd_body f = [] ↔ fd_committed f = []) ∧
  (fd_committed f ≠ [] → object_records framing compression (fd_body f) = Some (fd_committed f)).
Proof.
  intros H f. unfold f, frame_object. pose proof (frame_records_spec framing records) as S. pose proof (lines_frame records) as L.
  pose proof (frame_records_length records) as N. pose proof (λ k, prefixed_frame records k H) as P.
  destruct (frame_records framing records) as [[raw committed] dead] eqn:E.
  destruct S as (S1 & S2 & S3). cbn [fd_committed fd_dead_lettered fd_body]. split; [done|]. split; [done|].
  destruct raw as [|b raw'] eqn:Er; [by rewrite (proj1 S3 eq_refl)|]. rewrite <-Er in *.
  destruct (compress_spec raw compression) as [C1 C2]; [by rewrite Er|]. split; [rewrite <-S3; split; [done|by rewrite Er]|].
  intros _. unfold object_records. rewrite C2. cbn [mbind option_bind]. destruct framing.
  - rewrite E in L. by rewrite L.
  - rewrite E in N, P. by apply P.
Qed.
End BodyFacts.

(** ** Keys determine their batches *)

Lemma to_hex_length l : length (to_hex l) = (2 * length l)%nat.
Proof. unfold to_hex. induction l as [|b l IH]; [done|]. cbn in *. lia. Qed.

Lemma hex_digit_inj y z : 0 ≤ y < 16 → 0 ≤ z < 16 → hex_digit y = hex_digit z → y = z.
Proof.
  intros Hy Hz H. apply (f_equal b2z) in H. unfold hex_digit in H. rewrite !b2z_z2b in H.
  destruct (Z.ltb_spec y 10), (Z.ltb_spec z 10); rewrite !Z.mod_small in H by lia; lia.
Qed.

Lemma hex_byte_inj a b : hex_byte a = hex_byte b → a = b.
Proof.
  unfold hex_byte. pose proof (b2z_range a). pose proof (b2z_range b). intros [= H1 H2].
  apply hex_digit_inj in H1; [|dlia..]. apply hex_digit_inj in H2; [|dlia..]. apply (inj b2z). dlia.
Qed.

Lemma to_hex_inj l k : to_hex l = to_hex k → l = k.
Proof.
  unfold to_hex. revert k. induction l as [|a l IH]; intros [|b k] H; try done. cbn [map concat] in H.
  apply app_inj_1 in H as [->%hex_byte_inj H]; [|done]. f_equal. by apply IH.
Qed.

Lemma dec_inj y z : 0 ≤ y → 0 ≤ z → dec y = dec z → y = z.
Proof. intros Hy Hz H. apply (dec_pad_inj 0 y z); [done..|]. unfold dec_pad. by rewrite H. Qed.

Lemma digits_only z b : b ∈ dec z → is_digit b = true.
Proof.
  unfold dec. intros H%list_elem_of_In%in_rev.
  pose proof (forallb_digits_rev (S (Z.to_nat (Z.log2 z))) z) as F. rewrite forallb_forall in F. by apply F.
Qed.

(** The last separator of a text is where its tail without separators starts. *)
Lemma last_sep_inj (sep : byte) (a b u v : bytes) : sep ∉ u → sep ∉ v → a ++ [sep] ++ u = b ++ [sep] ++ v → a = b ∧ u = v.
Proof.
  intros Hu Hv H. revert b H. induction a as [|x a IH]; intros [|y b] H; cbn in H.
  - by injection H as ->.
  - injection H as -> ->. destruct Hu. apply elem_of_app. right. by left.
  - injection H as -> <-. destruct Hv. apply elem_of_app. right. by left.
  - injection H as -> H. by apply IH in H as [-> ->].
Qed.

Lemma batch_name_inj c h n c' h' n' :
  is_i64 c → is_i64 c' → 0 ≤ n → 0 ≤ n' → batch_name c h n = batch_name c' h' n' → c = c' ∧ h = h' ∧ n = n'.
Proof.
  intros Hc Hc' Hn Hn' H. unfold batch_name in H.
  apply app_inj_1 in H as [H1 H]; [|by rewrite !to_hex_length, !length_rev, !length_le_bytes].
  apply app_inj_1 in H as [_ H]; [|done].
  assert (D : ∀ z, x2d ∉ dec z) by (intros z Hz%digits_only; done).
  apply last_sep_inj in H as [-> H2]; [|done..]. apply dec_inj in H2; [|done..].
  apply to_hex_inj, (f_equal (@rev byte)) in H1. rewrite !rev_involutive in H1.
  apply (f_equal le_val_i64) in H1. rewrite !le_val_i64_le_bytes in H1 by done. done.
Qed.

Lemma slash_free_hex h : x2f ∉ to_hex h.
Proof.
  unfold to_hex. intros (l & Hl & Hb)%list_elem_of_In%in_concat. apply in_map_iff in Hl as (b & <- & _).
  revert Hb. clear. intros H. destruct b; vm_compute in H; destruct H as [H|[H|[]]]; discriminate H.
Qed.

Lemma slash_free_name c h n ext : x2f ∉ ext → x2f ∉ h → x2f ∉ batch_name c h n ++ bstr "." ++ ext.
Proof.
  intros He Hh. unfold batch_name. rewrite !elem_of_app. intros H. destruct_or! H; try done.
  - by apply slash_free_hex in H.
  - vm_compute in H. by apply list_elem_of_In in H as [|[]].
  - vm_compute in H. by apply list_elem_of_In in H as [|[]].
  - by apply digits_only in H.
  - vm_compute in H. by apply list_elem_of_In in H as [|[]].
Qed.

(** The last component of a key is the name with its extension. *)
Lemma object_key_leaf prefix tmpl c name ext :
  ∃ dir, object_key prefix tmpl c name ext = dir ++ name ++ bstr "." ++ ext ∧ (dir = [] ∨ ∃ d, dir = d ++ [x2f]).
Proof.
  unfold object_key. set (leaf := name ++ _).
  assert (G : ∀ l, ∃ dir, join_with (bstr "/") (l ++ [leaf]) = dir ++ leaf ∧ (dir = [] ∨ ∃ d, dir = d ++ [x2f])).
  { induction l as [|x l (dir & E & Hd)]; [by exists []; auto|].
    exists (x ++ [x2f] ++ dir). split.
    - cbn [app]. destruct (l ++ [leaf]) eqn:El; [by destruct l|]. cbn [join_with] in *. rewrite E. cbn. by rewrite <-app_assoc.
    - right. destruct Hd as [->|[d ->]]; [by exists x; rewrite app_nil_r|]. exists (x ++ [x2f] ++ d). by rewrite <-!app_assoc. }
  match goal with |- context [nonempty_part ?p ++ ?q ++ [leaf]] => destruct (G (nonempty_part p ++ q)) as (dir & E & H) end.
  exists dir. by rewrite <-app_assoc in E.
Qed.

(** Keys of one bucket and prefix with one extension determine the name of the batch. *)
Lemma object_key_inj prefix tmpl c name c' name' ext :
  x2f ∉ name ++ bstr "." ++ ext → x2f ∉ name' ++ bstr "." ++ ext →
  object_key prefix tmpl c name ext = object_key prefix tmpl c' name' ext → name = name'.
Proof.
  intros Hn Hn' H. destruct (object_key_leaf prefix tmpl c name ext) as (d & E & Hd).
  destruct (object_key_leaf prefix tmpl c' name' ext) as (d' & E' & Hd'). rewrite E, E' in H.
  assert (L : name ++ bstr "." ++ ext = name' ++ bstr "." ++ ext); [|by apply app_inv_tail in L].
  destruct Hd as [->|[x ->]], Hd' as [->|[y ->]]; rewrite <-?app_assoc in H.
  - done.
  - cbn [app] in H. destruct Hn. rewrite H. apply elem_of_app. right. by left.
  - cbn [app] in H. destruct Hn'. rewrite <-H. apply elem_of_app. right. by left.
  - by apply last_sep_inj in H as [_ H].
Qed.
