(* ===== verification/KeyPath.v ===== *)
(** * The paths of object keys (weir-sink-s3)

    Why a URL parser leaves the path of an object alone: a prefix and a partition template
    that crates/weir-sink-s3/src/key.rs accepts render, for every time, to path segments
    that are neither empty nor dots, and the encoding of sigv4.rs keeps them so. *)

From Stdlib Require Import ZArith Lia Strings.Byte String.
From stdpp Require Import base list option.
From S2P Require Import Prelude Deps Text Calendar S3Key.

(** ** Texts alike up to what is neither a slash nor a dot *)

(** One text becomes the other by replacing stretches without a slash by stretches without
    a slash or a dot. *)
Inductive alike : bytes → bytes → Prop :=
| alike_nil : alike [] []
| alike_byte b u v : alike u v → alike (b :: u) (b :: v)
| alike_part p r u v : p ≠ [] → r ≠ [] → x2f ∉ p → x2f ∉ r → x2e ∉ r → alike u v → alike (p ++ u) (r ++ v).

Lemma alike_refl u : alike u u.
Proof. induction u; by constructor. Qed.

Lemma alike_app u v u' v' : alike u v → alike u' v' → alike (u ++ u') (v ++ v').
Proof.
  induction 1 as [|b u v H IH|p r u v Hp Hr H1 H2 H3 H IH]; intros H'; [done|by constructor; apply IH|].
  rewrite <-!app_assoc. constructor; auto.
Qed.

Lemma alike_one p r : p ≠ [] → r ≠ [] → x2f ∉ p → x2f ∉ r → x2e ∉ r → alike p r.
Proof. intros. rewrite <-(app_nil_r p), <-(app_nil_r r). by constructor; [..|constructor]. Qed.

Lemma rev_nonempty {A} (l : list A) : l ≠ [] → rev l ≠ [].
Proof. intros H E. apply H. rewrite <-(rev_involutive l), E. done. Qed.

Lemma elem_of_rev {A} (x : A) l : x ∈ rev l ↔ x ∈ l.
Proof. by rewrite !list_elem_of_In, <-in_rev. Qed.

Lemma alike_rev u v : alike u v → alike (rev u) (rev v).
Proof.
  induction 1 as [|b u v H IH|p r u v Hp Hr H1 H2 H3 H IH]; [constructor|cbn; apply alike_app; [done|apply alike_refl]|].
  rewrite !rev_app_distr. apply alike_app; [done|].
  apply alike_one; rewrite ?elem_of_rev; auto using rev_nonempty.
Qed.

Lemma trim_start_stop p u : p ≠ [] → x2f ∉ p → trim_start x2f (p ++ u) = p ++ u.
Proof. destruct p as [|b p]; [done|]. intros _ [Hb _]%not_elem_of_cons. cbn. by rewrite bool_decide_eq_false_2. Qed.

Lemma alike_trim_start u v : alike u v → alike (trim_start x2f u) (trim_start x2f v).
Proof.
  induction 1 as [|b u v H IH|p r u v Hp Hr H1 H2 H3 H IH]; [constructor| |].
  - cbn. destruct (bool_decide (b = x2f)); [done|by constructor].
  - rewrite !trim_start_stop by done. by constructor.
Qed.

Lemma alike_trim u v : alike u v → alike (trim_matches x2f u) (trim_matches x2f v).
Proof. intros H. unfold trim_matches, trim_end. by apply alike_rev, alike_trim_start, alike_rev, alike_trim_start. Qed.

Lemma split_part p u :
  x2f ∉ p → split x2f (p ++ u) = match split x2f u with [] => [p] | x :: xs => (p ++ x) :: xs end.
Proof.
  induction p as [|b p IH]; intros H; cbn [app].
  - by destruct (split x2f u) eqn:E; [destruct (split_nonempty x2f u)|].
  - apply not_elem_of_cons in H as [Hb Hp]. cbn [split]. rewrite bool_decide_eq_false_2 by done. rewrite IH by done.
    by destruct (split x2f u).
Qed.

(** Alike texts have alike segments. *)
Lemma alike_split u v : alike u v → Forall2 alike (split x2f u) (split x2f v).
Proof.
  induction 1 as [|b u v H IH|p r u v Hp Hr H1 H2 H3 H IH]; [by repeat constructor| |].
  - cbn [split]. destruct (bool_decide (b = x2f)); [constructor; [constructor|done]|].
    destruct IH; repeat constructor; done.
  - rewrite !split_part by done. destruct IH; constructor; [by apply alike_one| |by constructor|done]. constructor.
Qed.

(** A segment that a URL parser keeps. *)
Definition proper (seg : bytes) : Prop := seg ≠ [] ∧ seg ≠ bstr "." ∧ seg ≠ bstr "..".

Lemma alike_empty u v : alike u v → v = [] → u = [].
Proof. intros []; [done|done|]. intros E. by apply app_nil in E as [? _]. Qed.

Lemma alike_empty_l u v : alike u v → u = [] → v = [].
Proof. intros []; [done|done|]. intros E. by apply app_nil in E as [? _]. Qed.

Lemma alike_dots u v n : alike u v → v = replicate n x2e → u = v.
Proof.
  intros H. revert n. induction H as [|b u v H IH|p r u v Hp Hr H1 H2 H3 H IH]; intros n E; [done| |].
  - destruct n as [|n]; [done|]. injection E as -> E. by rewrite (IH n E).
  - destruct r as [|b r]; [done|]. destruct n as [|n]; [done|]. injection E as -> E. destruct H3. by left.
Qed.

Lemma alike_proper u v : alike u v → proper u → proper v.
Proof.
  intros H (H1 & H2 & H3). split_and!.
  - intros E. by apply H1, (alike_empty u v).
  - intros E. apply H2. rewrite <-E. by apply (alike_dots u v 1).
  - intros E. apply H3. rewrite <-E. by apply (alike_dots u v 2).
Qed.

Lemma alike_path u v : alike u v → Forall proper (split x2f u) → Forall proper (split x2f v).
Proof.
  intros H%alike_split F. induction H as [|a b us vs Hab H IH]; [done|]. apply Forall_cons_1 in F as [Fa F].
  constructor; [by apply (alike_proper a)|by apply IH].
Qed.

(** ** What is accepted is proper *)

Lemma validate_segments_proper segs : validate_segments false segs = Ok tt → Forall proper segs.
Proof.
  induction segs as [|seg segs IH]; cbn; [done|]. destruct (is_blank seg) eqn:Eb; [done|].
  case_bool_decide as H1; [done|]. case_bool_decide as H2; [done|]. cbn. intros H. constructor; [|by apply IH].
  split; [|done]. by intros ->.
Qed.

Lemma accepted_proper s :
  validate_path_text s = Ok tt → trim_matches x2f s = [] ∨ Forall proper (split x2f (trim_matches x2f s)).
Proof.
  unfold validate_path_text. case_bool_decide as E; [by left|].
  destruct (validate_segments false _) as [[]|] eqn:V; [|done]. intros _. right. by apply validate_segments_proper.
Qed.

Lemma concat_chars l : concat (chars l) = l.
Proof.
  unfold chars.
  assert (G : ∀ fuel l, (length l ≤ fuel)%nat → concat (chars_loop fuel l) = l); [|by apply G].
  clear l. induction fuel as [|fuel IH]; intros [|b l] H; [done|cbn in H; lia|done|].
  pose proof (utf8_step_pos (b :: l) ltac:(done)) as Hn. cbn [chars_loop concat]. rewrite IH; [apply take_drop|].
  rewrite length_drop. cbn [length] in *. lia.
Qed.

(** Digits and a sign are neither slashes nor dots. *)
Lemma digits_plain s : forallb is_digit s = true → (x2f ∉ s) ∧ (x2e ∉ s).
Proof. intros H. rewrite forallb_forall in H. split; intros E%list_elem_of_In%H; done. Qed.

Lemma specifier_alike c p t : specifier c = Ok p → alike (bstr "%" ++ c) (render_piece t p).
Proof.
  intros H. assert (R : render_piece t p ≠ [] ∧ (x2f ∉ render_piece t p) ∧ (x2e ∉ render_piece t p)).
  { assert (D : ∀ w z, dec_pad w z ≠ [] ∧ (x2f ∉ dec_pad w z) ∧ (x2e ∉ dec_pad w z))
      by (intros; split; [apply dec_pad_nonempty|apply digits_plain, forallb_dec_pad]).
    unfold specifier in H. repeat case_bool_decide; try done; injection H as <-; cbn; try apply D.
    unfold fmt_year. destruct (utc_year t <? 0); [|apply D].
    destruct (D 3%nat (- utc_year t)) as (_ & ? & ?). split; [done|]. change (bstr "-") with [x2d]. 
    split; (apply not_elem_of_app; split; [by apply not_elem_of_cons; split; [|apply not_elem_of_nil]|done]). }
  destruct R as (R1 & R2 & R3). apply alike_one; [done|done| |done|done].
  unfold specifier in H. repeat case_bool_decide; subst; try done; by apply (bool_decide_unpack _).
Qed.

Lemma parse_alike cs literal tmpl t :
  parse_pieces cs literal = Ok tmpl → ∃ v, render tmpl t = literal ++ v ∧ alike (concat cs) v.
Proof.
  assert (L : ∀ l rest, render (literal_piece l ++ rest) t = l ++ render rest t) by (by intros [|]).
  revert literal tmpl. induction cs as [cs IH] using (induction_ltof1 _ (@length bytes)). unfold ltof in IH.
  intros literal tmpl. destruct cs as [|c cs]; cbn [parse_pieces].
  - intros [= <-]. exists []. split; [|constructor]. rewrite <-(app_nil_r (literal_piece literal)). apply L.
  - case_bool_decide as E; cbn [negb].
    + destruct cs as [|spec cs]; [done|]. destruct (specifier spec) as [p|] eqn:Es; [|done]. cbn.
      destruct (parse_pieces cs []) as [rest|] eqn:Er; [|done]. cbn. intros [= <-].
      destruct (IH cs ltac:(cbn; lia) [] rest Er) as (v & Hv & A). exists (render_piece t p ++ v).
      rewrite L. split; [f_equal; unfold render; cbn; f_equal; exact Hv|]. subst c. rewrite app_assoc.
      apply alike_app; [by apply specifier_alike|done].
    + intros H. destruct (IH cs ltac:(cbn; lia) _ _ H) as (v & Hv & A). exists (c ++ v).
      rewrite Hv, app_assoc. split; [done|]. cbn. apply alike_app; [apply alike_refl|done].
Qed.

(** A template that parses renders to a text alike itself, at any time. *)
Lemma template_alike s tmpl t : template_parse s = Ok tmpl → alike s (render tmpl t) ∧ validate_path_text s = Ok tt.
Proof.
  unfold template_parse. destruct (validate_path_text s) as [[]|]; [|done]. cbn. intros H.
  apply (parse_alike _ _ _ t) in H as (v & -> & A). by rewrite concat_chars in A.
Qed.

(** ** Keys *)

Lemma split_slash u v : split x2f (u ++ [x2f] ++ v) = split x2f u ++ split x2f v.
Proof.
  induction u as [|b u IH]; [done|]. cbn [app split] in *. rewrite IH. destruct (bool_decide (b = x2f)); [done|].
  by destruct (split x2f u) eqn:E; [destruct (split_nonempty x2f u)|].
Qed.

Lemma join_proper parts : Forall (λ p, Forall proper (split x2f p)) parts → parts ≠ [] →
  Forall proper (split x2f (join_with (bstr "/") parts)).
Proof.
  induction 1 as [|p parts Hp Hps IH]; [done|]. intros _. destruct parts as [|q parts]; [done|].
  cbn [join_with]. change (bstr "/") with [x2f]. rewrite split_slash. apply Forall_app. split; [done|by apply IH].
Qed.

Lemma part_proper s : s = [] ∨ Forall proper (split x2f s) → Forall (λ p, Forall proper (split x2f p)) (nonempty_part s).
Proof. intros H. destruct s as [|b s]; constructor; [|done]. by destruct H. Qed.

Lemma upper_hex_plain z b : 0 ≤ z < 16 → b2z b < 0x30 → b ≠ upper_hex_digit z.
Proof.
  intros Hz Hb ->. unfold upper_hex_digit in Hb. rewrite b2z_z2b in Hb.
  destruct (Z.ltb_spec z 10); rewrite Z.mod_small in Hb by lia; lia.
Qed.

Lemma uri_encode_alike s : alike s (uri_encode_path s).
Proof.
  unfold uri_encode_path, uri_encode. induction s as [|b s IH]; [constructor|]. cbn [map concat]. unfold uri_encode_byte at 1.
  destruct (is_unreserved b) eqn:Eu; [by constructor|]. case_bool_decide as Eb; cbn [andb negb]; [subst; by constructor|].
  change (b :: s) with ([b] ++ s). constructor; [done|done|by apply not_elem_of_cons; split; [|apply not_elem_of_nil]|..|done].
  all: pose proof (b2z_range b); rewrite !not_elem_of_cons; split_and!; try done; try apply not_elem_of_nil.
  all: apply upper_hex_plain; [dlia|by vm_compute].
Qed.

(** The bytes of an encoded path. *)
Definition url_byte (b : byte) : bool := is_unreserved b || bool_decide (b = x2f) || bool_decide (b = x25).

Lemma uri_encode_bytes s : forallb url_byte (uri_encode_path s) = true.
Proof.
  assert (U : ∀ z, 0 ≤ z < 16 → url_byte (upper_hex_digit z) = true).
  { intros z Hz. unfold url_byte, is_unreserved, in_range, upper_hex_digit. rewrite b2z_z2b.
    destruct (Z.ltb_spec z 10); rewrite Z.mod_small by lia; rewrite !orb_true_iff, !andb_true_iff, !Z.leb_le; lia. }
  unfold uri_encode_path, uri_encode. induction s as [|b s IH]; [done|]. cbn [map concat]. rewrite forallb_app, IH, andb_true_r.
  unfold uri_encode_byte. destruct (is_unreserved b) eqn:Eu; [by cbn; unfold url_byte; rewrite Eu|].
  destruct (bool_decide (b = x2f) && negb false); [done|]. pose proof (b2z_range b). cbn. by rewrite !U by dlia.
Qed.

(** The key of a batch under an accepted prefix and partition. *)
Lemma object_key_proper prefix partition tmpl created_at name ext :
  validate_path_text prefix = Ok tt → template_parse partition = Ok tmpl →
  x2f ∉ name ++ bstr "." ++ ext → proper (name ++ bstr "." ++ ext) →
  Forall proper (split x2f (uri_encode_path (object_key prefix tmpl created_at name ext))).
Proof.
  intros Hp Ht Hs Hn. apply (alike_path _ _ (uri_encode_alike _)). unfold object_key.
  apply join_proper; [|by rewrite app_assoc; intros [_ ?]%app_nil].
  apply Forall_app. split; [by apply part_proper, accepted_proper|]. apply Forall_app. split.
  - destruct (template_alike _ _ (utc_from_unix_nanos created_at) Ht) as [A V]. destruct tmpl as [|p tmpl]; [constructor|].
    apply part_proper. apply alike_trim in A. destruct (accepted_proper _ V) as [E|F]; [|right; by apply (alike_path _ _ A)].
    left. by apply (alike_empty_l _ _ A).
  - constructor; [|constructor]. rewrite <-(app_nil_r (name ++ _)), split_part by done. cbn. rewrite app_nil_r. by constructor.
Qed.
