(* ===== verification/S3.v ===== *)
(** * The S3 sink (weir-sink-s3)

    crates/weir-sink-s3/src/lib.rs ([S3Sink] as an instance of the sink interface),
    client.rs (requests and the classification of errors) and sigv4.rs (signatures). The
    bucket is part of the sink's state, and a script decides how each request fares: it may
    fail before or after the object was stored. Error texts are not modelled, nor are the
    credential chain (creds.rs, an answer of the script) and the HTTP client. *)

From Stdlib Require Import ZArith Lia Strings.Byte String.
From stdpp Require Import base gmap list option sorting.
From S2P Require Import Prelude Deps Text Sink Calendar S3Key.

(** ** Errors *)

Inductive Classification := ClassTransient | ClassPermanent.

#[global] Instance classification_eq_dec : EqDecision Classification.
Proof. solve_decision. Defined.

(** The error codes that are about the credential, the endpoint, the bucket or the way. *)
Definition STRANDING_CODES : list bytes :=
  [bstr "AccessDenied"; bstr "SignatureDoesNotMatch"; bstr "ExpiredToken"; bstr "TokenRefreshRequired";
   bstr "InvalidAccessKeyId"; bstr "RequestTimeTooSkewed"; bstr "NoSuchBucket"; bstr "SlowDown"; bstr "InvalidRequest"].
Definition TRANSPORT_CODES : list bytes :=
  [bstr "RequestTimeout"; bstr "BadDigest"; bstr "IncompleteBody"; bstr "XAmzContentSHA256Mismatch";
   bstr "InvalidBucketName"; bstr "InvalidToken"; bstr "InvalidArgument"; bstr "InvalidStorageClass"].

(** [str::starts_with]. *)
Definition starts_with (pre s : bytes) : bool := bool_decide (take (length pre) s = pre).

(** [classify]. *)
Definition s3_classify (status : Z) (s3_code : option bytes) : Classification :=
  if from_option (λ c, bool_decide (c ∈ STRANDING_CODES)) false s3_code then ClassTransient else
  if from_option (λ c, bool_decide (c ∈ TRANSPORT_CODES)) false s3_code
     || from_option (starts_with (bstr "KMS.")) false s3_code then ClassTransient else
  if (status =? 400) || (status =? 411) || (status =? 413) then ClassPermanent else ClassTransient.

(** [str::find] of a text: the offset of its first occurrence. *)
Fixpoint find_sub (pat s : bytes) : option nat :=
  if starts_with pat s then Some O else
  match s with [] => None | _ :: s => S <$> find_sub pat s end.

Definition CODE_OPEN : bytes := bstr "<Code>".
Definition CODE_CLOSE : bytes := bstr "</Code>".
Definition MESSAGE_OPEN : bytes := bstr "<Message>".
Definition MESSAGE_CLOSE : bytes := bstr "</Message>".

(** [first_code]: the text of the first [<Code>] element. *)
Definition first_code (s : bytes) : option bytes :=
  start ← find_sub CODE_OPEN s;
  let rest := drop (start + length CODE_OPEN) s in
  len ← find_sub CODE_CLOSE rest;
  Some (take len rest).

(** The body without its first [<Message>] element. *)
Definition outside_message (body : bytes) : option bytes :=
  m0 ← find_sub MESSAGE_OPEN body;
  i ← find_sub MESSAGE_CLOSE (drop m0 body);
  Some (take m0 body ++ drop (m0 + i + length MESSAGE_CLOSE) body).

(** [s3_error_code]; the code found outside the message counts when its element is a text
    of the body. *)
Definition s3_error_code (body : bytes) : option bytes :=
  match (outside ← outside_message body;
         code ← first_code outside;
         _ ← find_sub (CODE_OPEN ++ code ++ CODE_CLOSE) body;
         Some code) with
  | Some code => Some code
  | None => first_code body
  end.

(** ** Signatures *)

(** The hmac and base64 crates. *)
Class Signer := { hmac_sha256 : bytes → bytes → bytes; base64 : bytes → bytes }.

Section SigV4.
Context {SHA : Sha256} {SG : Signer}.

Abbreviation header := (bytes * bytes)%type.

Definition ALGORITHM : bytes := bstr "AWS4-HMAC-SHA256".

Record SigningParams := mkSigning {
  sp_method : bytes;
  sp_uri_path : bytes;
  sp_query : list header;
  sp_host : bytes;
  sp_extra_headers : list header;
  sp_payload : bytes;
  sp_access_key_id : bytes;
  sp_secret_access_key : bytes;
  sp_session_token : option bytes;
  sp_region : bytes;
  sp_service : bytes;
  sp_sign_payload_header : bool;
  sp_timestamp_nanos : Z;
}.

Record Signed := mkSigned { sd_authorization : bytes; sd_headers : list header }.

Definition sha256_hex (data : bytes) : bytes := to_hex (sha256 data).
Definition sha256_base64 (data : bytes) : bytes := base64 (sha256 data).

(** The order of byte strings, and of pairs of them. *)
Fixpoint bytes_leb (a b : bytes) : bool :=
  match a, b with
  | [], _ => true
  | _ :: _, [] => false
  | x :: a, y :: b => (b2z x <? b2z y) || ((b2z x =? b2z y) && bytes_leb a b)
  end.
Definition bytes_le (a b : bytes) : Prop := bytes_leb a b = true.
#[global] Instance bytes_le_dec : RelDecision bytes_le.
Proof. intros a b. unfold bytes_le. apply _. Defined.
Definition pair_le (p q : header) : Prop := fst p = fst q ∧ bytes_le (snd p) (snd q) ∨ fst p ≠ fst q ∧ bytes_le (fst p) (fst q).
#[global] Instance pair_le_dec : RelDecision pair_le.
Proof. intros p q. unfold pair_le. apply _. Defined.
Definition name_le (p q : header) : Prop := bytes_le (fst p) (fst q).
#[global] Instance name_le_dec : RelDecision name_le.
Proof. intros p q. unfold name_le. apply _. Defined.

Definition canonical_query (query : list header) : bytes :=
  join_with (bstr "&")
    (map (λ p, fst p ++ bstr "=" ++ snd p)
       (merge_sort pair_le (map (λ p, (uri_encode (fst p) true, uri_encode (snd p) true)) query))).

Definition amz_date (nanos : Z) : bytes :=
  let t := utc_from_unix_nanos nanos in
  fmt_year (utc_year t) ++ dec_pad 2 (utc_month t) ++ dec_pad 2 (utc_day t) ++ bstr "T" ++ dec_pad 2 (utc_hour t)
    ++ dec_pad 2 (utc_minute t) ++ dec_pad 2 (utc_second t) ++ bstr "Z".

(** The loop of [canonical_value]; the separators are ASCII, so bytes serve for characters. *)
Fixpoint trim_loop (v out : bytes) (pending_space : bool) : bytes :=
  match v with
  | [] => out
  | c :: v =>
    if bool_decide (c ∈ [x20; x09; x0d; x0a]) then trim_loop v out true
    else trim_loop v (out ++ (if pending_space && negb (bool_decide (out = [])) then [x20; c] else [c])) false
  end.
Definition canonical_value (v : bytes) : bytes := trim_loop v [] false.

(** [to_ascii_lowercase]. *)
Definition to_ascii_lowercase (s : bytes) : bytes :=
  map (λ b, if in_range 0x41 0x5a b then z2b (b2z b + 32) else b) s.

(** [merged]: values of one name together, in the order of the names' first occurrences. *)
Fixpoint merge_header (k v : bytes) (merged : list (bytes * list bytes)) : list (bytes * list bytes) :=
  match merged with
  | [] => [(k, [v])]
  | (name, vals) :: merged =>
    if bool_decide (name = k) then (name, vals ++ [v]) :: merged else (name, vals) :: merge_header k v merged
  end.
Definition merge_headers (headers : list header) : list (bytes * list bytes) :=
  foldl (λ m h, merge_header (to_ascii_lowercase (fst h)) (canonical_value (snd h)) m) [] headers.

Definition normalised_headers (headers : list header) : list header :=
  merge_sort name_le (map (λ p, (fst p, join_with (bstr ",") (snd p))) (merge_headers headers)).

Definition signed_headers_list (headers : list header) : bytes :=
  join_with (bstr ";") (map fst (normalised_headers headers)).

Definition required_headers (p : SigningParams) : list header :=
  [(bstr "host", sp_host p); (bstr "x-amz-date", amz_date (sp_timestamp_nanos p))]
    ++ (if sp_sign_payload_header p then [(bstr "x-amz-content-sha256", sha256_hex (sp_payload p))] else [])
    ++ match sp_session_token p with Some tok => [(bstr "x-amz-security-token", tok)] | None => [] end
    ++ sp_extra_headers p.

Definition LF : bytes := [x0a].

Definition canonical_request (p : SigningParams) : bytes :=
  let headers := required_headers p in
  let canonical_headers := concat (map (λ h, fst h ++ bstr ":" ++ snd h ++ LF) (normalised_headers headers)) in
  sp_method p ++ LF ++ uri_encode_path (sp_uri_path p) ++ LF ++ canonical_query (sp_query p) ++ LF ++ canonical_headers ++ LF
    ++ signed_headers_list headers ++ LF ++ sha256_hex (sp_payload p).

Definition credential_scope (p : SigningParams) : bytes :=
  take 8 (amz_date (sp_timestamp_nanos p)) ++ bstr "/" ++ sp_region p ++ bstr "/" ++ sp_service p ++ bstr "/aws4_request".

Definition string_to_sign (p : SigningParams) (canonical : bytes) : bytes :=
  ALGORITHM ++ LF ++ amz_date (sp_timestamp_nanos p) ++ LF ++ credential_scope p ++ LF ++ sha256_hex canonical.

Definition signing_key (p : SigningParams) : bytes :=
  let d := take 8 (amz_date (sp_timestamp_nanos p)) in
  let k_date := hmac_sha256 (bstr "AWS4" ++ sp_secret_access_key p) d in
  let k_region := hmac_sha256 k_date (sp_region p) in
  let k_service := hmac_sha256 k_region (sp_service p) in
  hmac_sha256 k_service (bstr "aws4_request").

Definition signature (p : SigningParams) : bytes :=
  to_hex (hmac_sha256 (signing_key p) (string_to_sign p (canonical_request p))).

Definition sign (p : SigningParams) : Signed :=
  let headers := required_headers p in
  let authorization :=
    ALGORITHM ++ bstr " Credential=" ++ sp_access_key_id p ++ bstr "/" ++ credential_scope p ++ bstr ", SignedHeaders="
      ++ signed_headers_list headers ++ bstr ", Signature=" ++ signature p in
  mkSigned authorization (headers ++ [(bstr "authorization", authorization)]).

(** ** Requests *)

Record Endpoint := mkEndpoint { ep_base : bytes; ep_bucket : bytes; ep_region : bytes; ep_force_path_style : bool }.

(** [str::split_once] of a text. *)
Definition split_once_str (pat s : bytes) : option (bytes * bytes) :=
  i ← find_sub pat s; Some (take i s, drop (i + length pat) s).

(** [Endpoint::resolve]: the URL, the host and the path that is signed. *)
Definition endpoint_resolve (ep : Endpoint) (key : bytes) : bytes * bytes * bytes :=
  let '(scheme, authority) :=
    match split_once_str (bstr "://") (ep_base ep) with
    | Some (s, a) => (s, trim_end x2f a)
    | None => (bstr "https", trim_end x2f (ep_base ep))
    end in
  if ep_force_path_style ep then
    let path := bstr "/" ++ ep_bucket ep ++ bstr "/" ++ key in
    (scheme ++ bstr "://" ++ authority ++ uri_encode_path path, authority, path)
  else
    let host := ep_bucket ep ++ bstr "." ++ authority in
    let path := bstr "/" ++ key in
    (scheme ++ bstr "://" ++ host ++ uri_encode_path path, host, path).

Record Credentials := mkCredentials { ck_access_key_id : bytes; ck_secret_access_key : bytes; ck_session_token : option bytes }.

Record S3Client := mkClient { cl_endpoint : Endpoint; cl_put_headers : list header }.

Record Request := mkRequest { rq_method : bytes; rq_url : bytes; rq_headers : list header; rq_body : bytes }.

(** The request that [send] makes at unix second [now]. *)
Definition build_request (cl : S3Client) (creds : Credentials) (now : Z) (method key body : bytes) (extra : list header)
    : Request :=
  let '(url, host, path) := endpoint_resolve (cl_endpoint cl) key in
  let signed := sign (mkSigning method path [] host extra body (ck_access_key_id creds) (ck_secret_access_key creds)
                        (ck_session_token creds) (ep_region (cl_endpoint cl)) (bstr "s3") true (now * 1000000000)) in
  mkRequest method url (sd_headers signed) body.

(** The headers of a [PutObject]. *)
Definition put_headers (cl : S3Client) (body content_type : bytes) : list header :=
  [(bstr "content-type", content_type); (bstr "x-amz-checksum-sha256", sha256_base64 body)] ++ cl_put_headers cl.

(** ** The bucket *)

(** What becomes of a request: it fails on its way, before or after the service acted on
    it; it is answered with a status and a body, [None] for one that breaks off; or no
    answer comes while the caller waits. *)
Inductive Fate :=
| NoAnswer (stored : bool)
| Replies (status : Z) (body : option bytes) (stored : bool)
| Hangs (stored : bool).

(** One request: the time, the credentials the chain resolves to, and its fate. *)
Record Exchange := mkExchange { ex_now : Z; ex_credentials : option Credentials; ex_fate : Fate }.

Definition is_success (status : Z) : bool := (200 <=? status) && (status <? 300).

(** Objects by their URL. A success is the service's word that the object is stored. *)
Definition request_stores (f : Fate) : bool :=
  match f with
  | NoAnswer stored | Hangs stored => stored
  | Replies status _ stored => stored || is_success status
  end.

Record S3Env := mkEnv { en_script : list Exchange; en_bucket : gmap bytes bytes; en_sent : list Request }.

Definition bucket_after (rq : Request) (f : Fate) (bucket : gmap bytes bytes) : gmap bytes bytes :=
  if bool_decide (rq_method rq = bstr "PUT") && request_stores f then <[rq_url rq := rq_body rq]> bucket else bucket.

(** [S3Client::send]; its errors are transient. A script that has run out refuses
    credentials. *)
Definition s3_send (cl : S3Client) (method key body : bytes) (extra : list header) (e : S3Env)
    : Call (result (Z * bytes) Classification) * S3Env :=
  match en_script e with
  | [] => (Answered (Err ClassTransient), e)
  | x :: script =>
    match ex_credentials x with
    | None => (Answered (Err ClassTransient), mkEnv script (en_bucket e) (en_sent e))
    | Some creds =>
      let rq := build_request cl creds (ex_now x) method key body extra in
      let e := mkEnv script (bucket_after rq (ex_fate x) (en_bucket e)) (en_sent e ++ [rq]) in
      match ex_fate x with
      | NoAnswer _ => (Answered (Err ClassTransient), e)
      | Replies status (Some text) _ => (Answered (Ok (status, text)), e)
      | Replies _ None _ => (Answered (Err ClassTransient), e)
      | Hangs _ => (Silent, e)
      end
    end
  end.

Definition put_object (cl : S3Client) (key body content_type : bytes) (e : S3Env) : Call (result unit Classification) * S3Env :=
  match s3_send cl (bstr "PUT") key body (put_headers cl body content_type) e with
  | (Answered (Ok (status, text)), e) =>
    (Answered (if is_success status then Ok tt else Err (s3_classify status (s3_error_code text))), e)
  | (Answered (Err c), e) => (Answered (Err c), e)
  | (Silent, e) => (Silent, e)
  | (Panicked, e) => (Panicked, e)
  end.

Definition head_bucket (cl : S3Client) (e : S3Env) : Call (result Z Classification) * S3Env :=
  match s3_send cl (bstr "HEAD") [] [] [] e with
  | (Answered (Ok (status, _)), e) => (Answered (Ok status), e)
  | (Answered (Err c), e) => (Answered (Err c), e)
  | (Silent, e) => (Silent, e)
  | (Panicked, e) => (Panicked, e)
  end.

(** ** The sink *)

Record S3SinkConfig := mkS3Config {
  sc_endpoint : option bytes;
  sc_bucket : bytes;
  sc_region : bytes;
  sc_force_path_style : bool;
  sc_prefix : bytes;
  sc_partition : bytes;
  sc_framing : Framing;
  sc_compression : ObjectCompression;
  sc_storage_class : option bytes;
  sc_sse : option bytes;
  sc_sse_kms_key_id : option bytes;
  sc_max_batch_size : Z;
}.

Record S3Sink := mkS3Sink {
  s3_client : S3Client;
  s3_prefix : bytes;
  s3_partition : list Piece;
  s3_framing : Framing;
  s3_compression : ObjectCompression;
  s3_max_batch_size : Z;
  s3_warned_missing_ids : bool;
}.

(** Why [S3Sink::new] refuses a configuration. *)
Inductive S3NewError := BadPrefix (e : TemplateError) | EndpointPath | EndpointHost | BadPartition (e : TemplateError).

(** The check of an endpoint: a scheme and a host, without a path. *)
Definition endpoint_check (endpoint : option bytes) : result unit S3NewError :=
  match endpoint with
  | None => Ok tt
  | Some ep =>
    let authority := from_option snd ep (split_once_str (bstr "://") ep) in
    if bool_decide (x2f ∈ trim_end x2f authority) then Err EndpointPath else
    if bool_decide (authority = []) then Err EndpointHost else Ok tt
  end.

Definition optional_header (name : bytes) (value : option bytes) : list header :=
  match value with Some v => [(name, v)] | None => [] end.

(** [S3Sink::new]; that the HTTP client can be built is taken for granted. *)
Definition s3_new (c : S3SinkConfig) : result S3Sink S3NewError :=
  match validate_path_text (sc_prefix c) with
  | Err e => Err (BadPrefix e)
  | Ok _ =>
    match endpoint_check (sc_endpoint c) with
    | Err e => Err e
    | Ok _ =>
      match template_parse (sc_partition c) with
      | Err e => Err (BadPartition e)
      | Ok partition =>
        let base := default (bstr "https://s3." ++ sc_region c ++ bstr ".amazonaws.com") (sc_endpoint c) in
        let headers := optional_header (bstr "x-amz-storage-class") (sc_storage_class c)
          ++ optional_header (bstr "x-amz-server-side-encryption") (sc_sse c)
          ++ optional_header (bstr "x-amz-server-side-encryption-aws-kms-key-id") (sc_sse_kms_key_id c) in
        Ok (mkS3Sink (mkClient (mkEndpoint base (sc_bucket c) (sc_region c) (sc_force_path_style c)) headers)
              (sc_prefix c) partition (sc_framing c) (sc_compression c) (sc_max_batch_size c) false)
      end
    end
  end.

Definition set_warned (s : S3Sink) : S3Sink :=
  mkS3Sink (s3_client s) (s3_prefix s) (s3_partition s) (s3_framing s) (s3_compression s) (s3_max_batch_size s) true.

(** [S3Sink::batch_name]: from the first record's identity, or from the token. *)
Definition sink_batch_name (b : SinkBatch) (created_at : Z) (s : S3Sink) : bytes * S3Sink :=
  match sb_record_ids b ≫= head with
  | Some first => (batch_name created_at (to_hex first) (blen (sb_records b)), s)
  | None => (batch_name created_at (to_hex (sb_dedup_token b)) (blen (sb_records b)), set_warned s)
  end.

Context {OC : ObjectCodec}.

Record S3World := mkS3World { sw_sink : S3Sink; sw_env : S3Env }.

(** [S3Sink::commit]. *)
Definition s3_commit (b : SinkBatch) (w : S3World) : Call (result CommitResult SinkError) * S3World :=
  let '(created_at, s) :=
    match sb_segment_created_at b with Some t => (t, sw_sink w) | None => (0, set_warned (sw_sink w)) end in
  let '(name, s) := sink_batch_name b created_at s in
  let key := object_key (s3_prefix s) (s3_partition s) created_at name (object_extension (s3_framing s) (s3_compression s)) in
  let framed := frame_object (sb_records b) (s3_framing s) (s3_compression s) in
  match fd_body framed with
  | [] => (Answered (Ok (mkCommitResult [] (fd_dead_lettered framed))), mkS3World s (sw_env w))
  | _ =>
    match put_object (s3_client s) key (fd_body framed) (content_type (s3_framing s)) (sw_env w) with
    | (Answered (Ok _), e) =>
      (Answered (Ok (mkCommitResult (fd_committed framed) (fd_dead_lettered framed))), mkS3World s e)
    | (Answered (Err c), e) => (Answered (Err (mkSinkError (bool_decide (c = ClassTransient)) None)), mkS3World s e)
    | (Silent, e) => (Silent, mkS3World s e)
    | (Panicked, e) => (Panicked, mkS3World s e)
    end
  end.

(** [S3Sink::health]; the reasons' texts are left empty. *)
Definition s3_health (w : S3World) : Call SinkHealth * S3World :=
  match head_bucket (s3_client (sw_sink w)) (sw_env w) with
  | (Answered (Ok s), e) =>
    (Answered (if is_success s then Healthy else
               if (s =? 400) || (s =? 403) || (s =? 404) then Degraded [] else Down []), mkS3World (sw_sink w) e)
  | (Answered (Err _), e) => (Answered (Down []), mkS3World (sw_sink w) e)
  | (Silent, e) => (Silent, mkS3World (sw_sink w) e)
  | (Panicked, e) => (Panicked, mkS3World (sw_sink w) e)
  end.

Definition s3_sink : Sink := {|
  sink_state := S3World;
  max_batch_size := λ w, s3_max_batch_size (sw_sink w);
  commit := s3_commit;
  health := s3_health;
|}.
End SigV4.
