(* ===== verification/Archive.v ===== *)
(** * The archive in a bucket (weir-sink-s3)

    What [S3Sink] promises: it keeps the sink contract, different batches of the drain go
    to different objects whatever their bytes and their size, and so a batch that was
    answered as committed stays in the bucket as an object that reads back as its
    records, through any number of later commits, retries and replays. *)

From Stdlib Require Import ZArith Lia Strings.Byte String.
From stdpp Require Import base gmap list option sets.
From S2P Require Import Prelude Deps Text Names Sink Account Sent Calendar S3Key KeyPath S3.

(** ** Encoded paths *)

Lemma upper_hex_digit_inj y z : 0 ≤ y < 16 → 0 ≤ z < 16 → upper_hex_digit y = upper_hex_digit z → y = z.
Proof.
  intros Hy Hz H. unfold upper_hex_digit in H. apply (f_equal b2z) in H.
  destruct (y <? 10) eqn:E1, (z <? 10) eqn:E2; rewrite !b2z_z2b in H; dlia.
Qed.

(** The encoding of a byte tells where it ends. *)
Lemma uri_encode_byte_inj es a b u v :
  uri_encode_byte es a ++ u = uri_encode_byte es b ++ v → a = b ∧ u = v.
Proof.
  intros H.
  pose (plain c := is_unreserved c || bool_decide (c = x2f) && negb es).
  assert (P : ∀ c, plain c = true → uri_encode_byte es c = [c] ∧ c ≠ x25).
  { unfold plain. intros c Hc. unfold uri_encode_byte. destruct (is_unreserved c) eqn:Eu; [split; [done|by intros ->]|].
    cbn in Hc. rewrite Hc. case_bool_decide; subst; done. }
  assert (Q : ∀ c, plain c = false →
    uri_encode_byte es c = [x25; upper_hex_digit (b2z c / 16); upper_hex_digit (b2z c mod 16)]).
  { unfold plain. intros c [Hu Hc]%orb_false_iff. unfold uri_encode_byte. by rewrite Hu, Hc. }
  destruct (plain a) eqn:Ea, (plain b) eqn:Eb.
  - rewrite (proj1 (P a Ea)), (proj1 (P b Eb)) in H. by injection H as -> ->.
  - destruct (P a Ea) as [E N]. rewrite E, (Q b Eb) in H. by injection H.
  - destruct (P b Eb) as [E N]. rewrite E, (Q a Ea) in H. by injection H.
  - rewrite (Q a Ea), (Q b Eb) in H. injection H as H1 H2 ->. pose proof (b2z_range a). pose proof (b2z_range b).
    apply upper_hex_digit_inj in H1; [|dlia..]. apply upper_hex_digit_inj in H2; [|dlia..].
    split; [|done]. apply (inj b2z). dlia.
Qed.

Lemma uri_encode_inj es s t : uri_encode s es = uri_encode t es → s = t.
Proof.
  assert (N : ∀ b l, uri_encode_byte es b ++ l ≠ []).
  { intros b l. unfold uri_encode_byte. destruct (is_unreserved b); [done|]. by destruct (bool_decide (b = x2f) && negb es). }
  revert t. induction s as [|a s IH]; intros [|b t] H; unfold uri_encode in *; cbn [map concat] in H.
  - done.
  - by destruct (N b (concat (map (uri_encode_byte es) t))).
  - by destruct (N a (concat (map (uri_encode_byte es) s))).
  - apply uri_encode_byte_inj in H as [-> H]. f_equal. by apply IH.
Qed.

(** The URL of an object. *)
Definition url_of (ep : Endpoint) (key : bytes) : bytes := fst (fst (endpoint_resolve ep key)).

Lemma url_of_inj ep key key' : url_of ep key = url_of ep key' → key = key'.
Proof.
  unfold url_of, endpoint_resolve.
  generalize (match split_once_str (bstr "://") (ep_base ep) with
    | Some (s, a) => (s, trim_end x2f a) | None => (bstr "https", trim_end x2f (ep_base ep)) end). intros [scheme authority].
  destruct (ep_force_path_style ep); cbn [fst]; intros H; do 3 apply app_inv_head in H; apply uri_encode_inj in H.
  - by do 3 apply app_inv_head in H.
  - by apply app_inv_head in H.
Qed.

(** The URL of an object ends in its encoded key. *)
Lemma url_of_ends ep key : ∃ origin, url_of ep key = origin ++ bstr "/" ++ uri_encode_path key.
Proof.
  unfold url_of, endpoint_resolve, uri_encode_path, uri_encode.
  generalize (match split_once_str (bstr "://") (ep_base ep) with
    | Some (s, a) => (s, trim_end x2f a) | None => (bstr "https", trim_end x2f (ep_base ep)) end). intros [scheme authority].
  destruct (ep_force_path_style ep); cbn [fst]; rewrite !map_app, !concat_app; eexists; rewrite !app_assoc; reflexivity.
Qed.

Lemma slash_free_extension f c : x2f ∉ object_extension f c.
Proof. apply (bool_decide_unpack _). by destruct f, c. Qed.

Lemma long_proper s : (3 ≤ length s)%nat → proper s.
Proof. intros H. split_and!; intros ->; cbn in H; lia. Qed.

(** ** The sink contract *)

Section Archive.
Context {SHA : Sha256} {SG : Signer} {OC : ObjectCodec} {OL : ObjectCodecLaws}.
Implicit Types (w : S3World) (b : SinkBatch).

(** What does not change while a sink runs. *)
Definition same_config (s s' : S3Sink) : Prop :=
  s3_client s = s3_client s' ∧ s3_prefix s = s3_prefix s' ∧ s3_partition s = s3_partition s' ∧
  s3_framing s = s3_framing s' ∧ s3_compression s = s3_compression s'.

(** The key of a batch, the body made of it, and the URL they go to. *)
Definition created_of (b : SinkBatch) : Z := default 0 (sb_segment_created_at b).
Definition key_of (s : S3Sink) (b : SinkBatch) : bytes :=
  object_key (s3_prefix s) (s3_partition s) (created_of b) (fst (sink_batch_name b (created_of b) s))
    (object_extension (s3_framing s) (s3_compression s)).
Definition framed_of (s : S3Sink) (b : SinkBatch) : Framed := frame_object (sb_records b) (s3_framing s) (s3_compression s).
Definition url_at (s : S3Sink) (b : SinkBatch) : bytes := url_of (cl_endpoint (s3_client s)) (key_of s b).

Lemma same_config_refl s : same_config s s.
Proof. done. Qed.

Lemma same_config_trans s1 s2 s3 : same_config s1 s2 → same_config s2 s3 → same_config s1 s3.
Proof. unfold same_config. intuition congruence. Qed.

Lemma key_config s s' b : same_config s s' → key_of s b = key_of s' b ∧ framed_of s b = framed_of s' b ∧ url_at s b = url_at s' b.
Proof.
  intros (E1 & E2 & E3 & E4 & E5).
  assert (K : key_of s b = key_of s' b).
  { unfold key_of. rewrite E2, E3, E4, E5. unfold sink_batch_name. by destruct (sb_record_ids b ≫= head). }
  unfold framed_of, url_at. by rewrite K, E1, E4, E5.
Qed.

(** What a request leaves in the bucket: nothing new, or the object it carries; and a
    success is answered for an object that is stored. *)
Lemma put_object_spec cl key body ct e r e' :
  put_object cl key body ct e = (r, e') →
  (en_bucket e' = en_bucket e ∧ r ≠ Answered (Ok tt)) ∨ en_bucket e' = <[url_of (cl_endpoint cl) key := body]> (en_bucket e).
Proof.
  unfold put_object, s3_send. destruct (en_script e) as [|x script]; [intros [= <- <-]; auto|].
  destruct (ex_credentials x) as [creds|]; [|intros [= <- <-]; auto].
  assert (B : rq_method (build_request cl creds (ex_now x) (bstr "PUT") key body (put_headers cl body ct)) = bstr "PUT" ∧
    rq_url (build_request cl creds (ex_now x) (bstr "PUT") key body (put_headers cl body ct)) = url_of (cl_endpoint cl) key ∧
    rq_body (build_request cl creds (ex_now x) (bstr "PUT") key body (put_headers cl body ct)) = body).
  { unfold build_request, url_of. by destruct (endpoint_resolve (cl_endpoint cl) key) as [[url host] path]. }
  destruct B as (B1 & B2 & B3).
  set (rq := build_request _ _ _ _ _ _ _) in *.
  assert (H : en_bucket (mkEnv script (bucket_after rq (ex_fate x) (en_bucket e)) (en_sent e ++ [rq])) =
    if request_stores (ex_fate x) then <[url_of (cl_endpoint cl) key := body]> (en_bucket e) else en_bucket e).
  { cbn. unfold bucket_after. rewrite B1, bool_decide_true by done. cbn. by rewrite B2, B3. }
  set (e1 := mkEnv _ _ _) in *. intros E.
  destruct (request_stores (ex_fate x)) eqn:Es.
  - right. destruct (ex_fate x) as [|status [text|] stored|]; injection E as <- <-; exact H.
  - left. destruct (ex_fate x) as [|status [text|] stored|]; injection E as <- <-; (split; [exact H|]); try done.
    cbn in Es. apply orb_false_iff in Es as [_ ->]. done.
Qed.

Lemma head_bucket_spec cl e r e' : head_bucket cl e = (r, e') → en_bucket e' = en_bucket e.
Proof.
  unfold head_bucket, s3_send. destruct (en_script e) as [|x script]; [by intros [= <- <-]|].
  destruct (ex_credentials x) as [creds|]; [|by intros [= <- <-]].
  assert (B : ∀ f m, bucket_after (build_request cl creds (ex_now x) (bstr "HEAD") [] [] []) f m = m).
  { intros f m. unfold bucket_after, build_request. by destruct (endpoint_resolve (cl_endpoint cl) []) as [[url host] path]. }
  destruct (ex_fate x) as [|status [text|] stored|]; intros [= <- <-]; apply B.
Qed.

(** A commit leaves the bucket alone or puts the batch's body under its URL. Answered [Ok],
    it parts the batch as the framing does, and what it calls committed is stored. *)
Lemma s3_commit_spec b w r w' :
  s3_commit b w = (r, w') →
  let s := sw_sink w in
  same_config s (sw_sink w') ∧
  (en_bucket (sw_env w') = en_bucket (sw_env w) ∨
   en_bucket (sw_env w') = <[url_at s b := fd_body (framed_of s b)]> (en_bucket (sw_env w))) ∧
  (∀ cr, r = Answered (Ok cr) →
     cr_committed cr = fd_committed (framed_of s b) ∧ cr_dead_lettered cr = fd_dead_lettered (framed_of s b) ∧
     (cr_committed cr ≠ [] → en_bucket (sw_env w') !! url_at s b = Some (fd_body (framed_of s b)))).
Proof.
  intros H s. unfold s3_commit in H.
  assert (C : ∃ s1, (match sb_segment_created_at b with Some t => (t, sw_sink w) | None => (0, set_warned (sw_sink w)) end) = (created_of b, s1)
    ∧ same_config s s1).
  { unfold created_of. destruct (sb_segment_created_at b); eexists; (split; [done|]); done. }
  destruct C as (s1 & E1 & C1). rewrite E1 in H.
  assert (C2 : ∃ s2, sink_batch_name b (created_of b) s1 = (fst (sink_batch_name b (created_of b) s), s2) ∧ same_config s s2).
  { unfold sink_batch_name. destruct (sb_record_ids b ≫= head); eexists; (split; [done|]); done. }
  destruct C2 as (s2 & E2 & C2). rewrite E2 in H. cbv zeta in H.
  destruct C2 as (D1 & D2 & D3 & D4 & D5). rewrite <-D1, <-D2, <-D3, <-D4, <-D5 in H.
  fold (key_of s b) (framed_of s b) in H.
  destruct (frame_body (sb_records b) (s3_framing s) (s3_compression s)) as [_ Hempty].
  fold (framed_of s b) in Hempty.
  destruct (fd_body (framed_of s b)) as [|x body] eqn:Eb.
  - injection H as <- <-. cbn. split; [done|]. split; [by left|]. intros cr [= <-]. cbn. by rewrite Hempty.
  - rewrite <-Eb in *. destruct (put_object _ _ _ _ _) as [rp e] eqn:Ep. apply put_object_spec in Ep.
    fold (url_at s b) in Ep.
    destruct rp as [[[]|c]| |]; injection H as <- <-; cbn; (split; [done|]); (split; [destruct Ep as [[? _]|?]; auto|]); try done.
    intros cr [= <-]. cbn. split; [done|]. split; [done|]. intros _. destruct Ep as [[_ Ep]|Ep]; [done|].
    rewrite Ep. by rewrite lookup_insert_eq.
Qed.

(** The drain's contract with a sink holds of this one. *)
Lemma s3_contract : SinkContract (H := s3_sink).
Proof.
  constructor. intros b w cr w' H _. destruct (s3_commit_spec b w _ _ H) as (_ & _ & Hok).
  destruct (Hok cr eq_refl) as (-> & -> & _). apply frame_body.
Qed.

(** The address of an object. A sink that [S3Sink::new] accepts sends every batch to a
    URL whose path ends in the encoded key, and whatever the batch and its creation time
    the path segments of that key are neither empty nor [.] nor [..], and its bytes are
    letters, digits, [-._~], the slash and the percent sign: a URL parser resolves nothing
    in it, so the object is written to the key that is signed. *)
Theorem object_address_is_kept c s b :
  s3_new c = Ok s →
  let path := uri_encode_path (key_of s b) in
  (∃ origin, url_at s b = origin ++ bstr "/" ++ path) ∧ Forall proper (split x2f path) ∧ forallb url_byte path = true.
Proof.
  intros H path. split; [apply url_of_ends|]. split; [|apply uri_encode_bytes].
  unfold s3_new in H. destruct (validate_path_text (sc_prefix c)) as [[]|] eqn:Vp; [|done].
  destruct (endpoint_check (sc_endpoint c)); [|done]. destruct (template_parse (sc_partition c)) as [tmpl|] eqn:Vt; [|done].
  injection H as <-. unfold path, key_of. cbn [s3_prefix s3_partition s3_framing s3_compression].
  assert (N : ∀ s, ∃ h n, fst (sink_batch_name b (created_of b) s) = batch_name (created_of b) (to_hex h) n).
  { intros s. unfold sink_batch_name. destruct (sb_record_ids b ≫= head); eexists _, _; reflexivity. }
  match goal with |- context [sink_batch_name b _ ?s] => destruct (N s) as (h & n & ->) end.
  apply (object_key_proper _ (sc_partition c)); [done|done|apply slash_free_name; [apply slash_free_extension|apply slash_free_hex]|].
  apply long_proper. unfold batch_name. rewrite !length_app, to_hex_length, length_rev, length_le_bytes. lia.
Qed.

(** ** Batches of the drain *)

Context (contents : Z → bytes → list bytes).

(** The drain's batches: a range of the records of a segment, which its creation time and
    its identity name. *)
Record drained (b : SinkBatch) (segment : path) (created_at t n : Z) : Prop := mkDrained {
  dd_batch : b = batch_at segment created_at t n (contents created_at (segment_identity segment));
  dd_created : is_i64 created_at;
  dd_from : 0 ≤ t;
  dd_size : 1 ≤ n;
  dd_within : t + n ≤ blen (contents created_at (segment_identity segment));
  dd_count : blen (contents created_at (segment_identity segment)) < 2 ^ 64;
  dd_name : blen (segment_identity segment) < 2 ^ 64;
  dd_records : Forall (λ r, blen r < 2 ^ 64) (contents created_at (segment_identity segment));
}.
Definition from_drain (b : SinkBatch) : Prop := ∃ segment created_at t n, drained b segment created_at t n.

(** What the identifier of a batch's first record is the hash of, and two such that have
    one hash. *)
Definition hashed (x : bytes) : Prop :=
  ∃ b segment c t n p, drained b segment c t n ∧ head (sb_records b) = Some p ∧ x = record_input (segment_identity segment) (t + 1) p.
Definition collision : Prop := ∃ x y, hashed x ∧ hashed y ∧ x ≠ y ∧ sha256 x = sha256 y.

Lemma drained_first b segment c t n :
  drained b segment c t n →
  ∃ p rest, sb_records b = p :: rest ∧ blen p < 2 ^ 64 ∧ blen (sb_records b) = n ∧
    sb_segment_created_at b = Some c ∧ sb_record_ids b ≫= head = Some (for_record (segment_identity segment) (t + 1) p).
Proof.
  intros [-> _ Ht Hn Hw Hc _ Hr]. cbn.
  pose proof (blen_recs t (t + n) _ Ht ltac:(lia) Hw) as L.
  destruct (recs t (t + n) _) as [|p rest] eqn:E; [unfold blen in L; cbn in L; lia|].
  exists p, rest. split; [done|]. split.
  - rewrite Forall_forall in Hr. apply Hr. unfold recs in E.
    assert (Hin : p ∈ p :: rest) by by left. rewrite <-E in Hin.
    apply list_elem_of_lookup in Hin as [i Hi]. rewrite lookup_drop in Hi. apply lookup_take_Some in Hi as [Hi _].
    by apply list_elem_of_lookup_2 in Hi.
  - split; [lia|]. split; [done|]. unfold ids_from. cbn. by rewrite Z.add_0_r.
Qed.

(** Batches of one key are one range of one segment, or two identifiers are equal. *)
Lemma one_key s b b' : from_drain b → from_drain b' → key_of s b = key_of s b' → sb_records b = sb_records b' ∨ collision.
Proof.
  intros (g & c & t & n & D) (g' & c' & t' & n' & D') H.
  destruct (drained_first _ _ _ _ _ D) as (p & rest & R & Hp & L & C & I).
  destruct (drained_first _ _ _ _ _ D') as (p' & rest' & R' & Hp' & L' & C' & I').
  unfold key_of, created_of, sink_batch_name in H. rewrite C, C', I, I', L, L' in H. cbn [fst from_option] in H. unfold id in H.
  apply object_key_inj in H; [|apply slash_free_name; [apply slash_free_extension|apply slash_free_hex]..].
  destruct D as [Eb Hc Ht Hn Hw Hb Hg Hr], D' as [Eb' Hc' Ht' Hn' Hw' Hb' Hg' Hr'].
  apply batch_name_inj in H as (<- & Hh & <-); [|done|done|lia|lia]. apply to_hex_inj in Hh.
  destruct (decide (record_input (segment_identity g) (t + 1) p = record_input (segment_identity g') (t' + 1) p')) as [E|N].
  - left. apply record_input_inj in E as (E1 & E2 & _); [|done..|unfold is_u64; lia|unfold is_u64; lia].
    assert (t = t') as <- by lia. rewrite Eb, Eb', E1. done.
  - right. exists (record_input (segment_identity g) (t + 1) p), (record_input (segment_identity g') (t' + 1) p').
    split; [exists b, g, c, t, n, p|split; [exists b', g', c, t', n, p'|done]]; (split; [by constructor|]); (split; [|done]);
      [by rewrite R|by rewrite R'].
Qed.

(** ** The archive *)

(** What the daemon does with the sink: it commits a batch, probes, or starts again with a
    sink of the same configuration but for the size of a batch. *)
Inductive S3Call := DoCommit (b : SinkBatch) | DoHealth | DoRestart (max_batch_size : Z).

Definition after_call (w : S3World) (c : S3Call) : S3World :=
  match c with
  | DoCommit b => snd (s3_commit b w)
  | DoHealth => snd (s3_health w)
  | DoRestart n =>
    let s := sw_sink w in
    mkS3World (mkS3Sink (s3_client s) (s3_prefix s) (s3_partition s) (s3_framing s) (s3_compression s) n false) (sw_env w)
  end.
Definition call_drained (c : S3Call) : Prop := match c with DoCommit b => from_drain b | _ => True end.

(** The object of a batch holds what the sink committed of it. *)
Definition archived (s : S3Sink) (b : SinkBatch) (records : list bytes) (w : S3World) : Prop :=
  ∃ body, en_bucket (sw_env w) !! url_at s b = Some body ∧
    object_records (s3_framing s) (s3_compression s) body = Some records.

Lemma after_call_config w c : same_config (sw_sink w) (sw_sink (after_call w c)).
Proof.
  destruct c as [b| |n]; cbn.
  - destruct (s3_commit b w) as [r w'] eqn:E. by apply s3_commit_spec in E as [? _].
  - unfold s3_health. destruct (head_bucket _ _) as [[[]| |] e]; done.
  - done.
Qed.

(** A call of the daemon leaves an object as it is, or puts the same bytes there. *)
Lemma after_call_keeps s b body w c :
  same_config s (sw_sink w) → from_drain b → call_drained c → body = fd_body (framed_of s b) →
  en_bucket (sw_env w) !! url_at s b = Some body →
  en_bucket (sw_env (after_call w c)) !! url_at s b = Some body ∨ collision.
Proof.
  intros Hs Hb Hc -> H. destruct c as [b'| |n]; cbn.
  - destruct (s3_commit b' w) as [r w'] eqn:E. apply s3_commit_spec in E as (_ & E & _).
    destruct (key_config _ _ b' Hs) as (K1 & K2 & K3). rewrite <-K2, <-K3 in E.
    cbn [snd]. destruct E as [E|E]; rewrite E; [by left|].
    destruct (decide (url_at s b' = url_at s b)) as [Eu|N]; [|left; by rewrite lookup_insert_ne].
    rewrite Eu, lookup_insert_eq. apply url_of_inj in Eu. destruct (one_key s b' b Hc Hb Eu) as [R|]; [|by right].
    left. unfold framed_of. by rewrite R.
  - left. unfold s3_health. destruct (head_bucket _ _) as [r e] eqn:E. apply head_bucket_spec in E.
    destruct r as [[]| |]; cbn; by rewrite E.
  - by left.
Qed.

Lemma after_calls_keep s b body calls w :
  same_config s (sw_sink w) → from_drain b → Forall call_drained calls → body = fd_body (framed_of s b) →
  en_bucket (sw_env w) !! url_at s b = Some body →
  en_bucket (sw_env (foldl after_call w calls)) !! url_at s b = Some body ∨ collision.
Proof.
  intros Hs Hb Hcs Hbody. revert w Hs. induction Hcs as [|c calls Hc Hcs IH]; intros w Hs H; [by left|]. cbn.
  destruct (after_call_keeps s b body w c Hs Hb Hc Hbody H) as [H'|]; [|by right].
  apply IH; [|done]. eapply same_config_trans; [exact Hs|apply after_call_config].
Qed.

(** C13: the archive keeps what was committed. The S3 sink is asked to commit a batch of the
    drain (a range of a segment's records, with the identifiers the drain gives them), and
    answers that some of its records are committed. Then, whatever the daemon does with
    the sink afterwards — other batches of the drain, retries of this one, replays of the
    segment in batches of other sizes, probes, restarts — and however the requests fare,
    the bucket holds under the batch's URL an object that reads back as exactly those
    records, and the records that are not among them were answered as dead letters. The
    only other possibility is that two identified records have the same SHA-256. *)
Theorem archive_keeps_batches b w cr w' calls :
  from_drain b → Forall call_drained calls →
  s3_commit b w = (Answered (Ok cr), w') → cr_committed cr ≠ [] →
  sb_records b ≡ₚ cr_committed cr ++ map fst (cr_dead_lettered cr) ∧
  (archived (sw_sink w) b (cr_committed cr) (foldl after_call w' calls) ∨ collision).
Proof.
  intros Hb Hcalls H Hne. destruct (s3_commit_spec b w _ _ H) as (Hs & _ & Hok).
  destruct (Hok cr eq_refl) as (E1 & E2 & Hst). rewrite E1, E2 in *. split; [apply frame_body|].
  destruct (after_calls_keep (sw_sink w) b _ calls w' Hs Hb Hcalls eq_refl (Hst Hne)) as [Hk|]; [|by right].
  left. eexists. split; [exact Hk|]. destruct Hb as (g & c & t & n & D).
  apply frame_spec; [|done]. rewrite (dd_batch _ _ _ _ _ D). cbn. unfold recs. apply Forall_drop, Forall_take, (dd_records _ _ _ _ _ D).
Qed.
End Archive.

(** An object of the bucket, on concrete codecs and signatures. *)
Module ArchiveWitness.
#[local] Existing Instance ShaPrefix.prefix.
#[local] Instance keyed : Signer := {| hmac_sha256 k m := take 32 (k ++ m ++ replicate 32 x00); base64 := to_hex |}.
#[local] Instance tagged : ObjectCodec := {|
  zstd_encode_all l := x28 :: l; zstd_decode_all l := match l with x28 :: l => Some l | _ => None end;
  gzip_encode l := x1f :: l; gzip_decode l := match l with x1f :: l => Some l | _ => None end |}.
#[local] Instance tagged_laws : ObjectCodecLaws.
Proof. by constructor. Qed.

Definition cfg : S3SinkConfig :=
  mkS3Config (Some (bstr "http://127.0.0.1:19000")) (bstr "weir-test") (bstr "us-east-1") true (bstr "archive")
    (bstr "dt=%Y-%m-%d/hour=%H") Ndjson ObjZstd None None None 100.
Definition opened : S3Sink :=
  match s3_new cfg with Ok s => s | Err _ => mkS3Sink (mkClient (mkEndpoint [] [] [] false) []) [] [] Ndjson ObjNone 0 false end.

Definition segment : path := [bstr "shard_00"; bstr "seg_00000001.wab"].
Definition created : Z := 1788649200000000000.
Definition recorded : list bytes := [bstr "one"; bstr "two"; bstr "three"].
Definition contents (c : Z) (s : bytes) : list bytes :=
  if bool_decide (c = created ∧ s = segment_identity segment) then recorded else [].
Definition first_two : SinkBatch := batch_at segment created 0 2 (contents created (segment_identity segment)).
Definition last_one : SinkBatch := batch_at segment created 2 1 (contents created (segment_identity segment)).

Definition creds : Credentials := mkCredentials (bstr "id") (bstr "secret") None.
(** The first batch is stored; the second is refused, then stored without an answer. *)
Definition script : list Exchange :=
  [mkExchange created (Some creds) (Replies 200 (Some []) false);
   mkExchange created (Some creds) (Replies 503 (Some (bstr "<Code>SlowDown</Code>")) false);
   mkExchange created (Some creds) (NoAnswer true)].
Definition start : S3World := mkS3World opened (mkEnv script ∅ []).
Definition later : list S3Call := [DoCommit last_one; DoRestart 1; DoCommit last_one; DoHealth].

Example opened_ok : s3_new cfg = Ok opened.
Proof. reflexivity. Qed.

(** The key of the batch. *)
Example partitioned : take 34 (key_of opened first_two) = bstr "archive/dt=2026-09-05/hour=23/18d2".
Proof. vm_compute. reflexivity. Qed.

(** Refused by the service and by the way: the second batch is twice a transient failure,
    and stored. *)
Example fares :
  let '(r1, w1) := s3_commit first_two start in
  let '(r2, w2) := s3_commit last_one w1 in
  let '(r3, w3) := s3_commit last_one w2 in
  (r1, r2, r3, size (en_bucket (sw_env w3)), length (en_sent (sw_env w3))) =
  (Answered (Ok (mkCommitResult [bstr "one"; bstr "two"] [])), Answered (Err (mkSinkError true None)),
   Answered (Err (mkSinkError true None)), 2%nat, 3%nat).
Proof. vm_compute. reflexivity. Qed.

Lemma object_address_is_kept_witness :
  Forall proper (split x2f (uri_encode_path (key_of opened first_two))).
Proof. exact (proj1 (proj2 (object_address_is_kept cfg opened first_two opened_ok))). Defined.

Lemma recorded_there : contents created (segment_identity segment) = recorded.
Proof. vm_compute. reflexivity. Qed.

Lemma from_segment t n :
  0 ≤ t → 1 ≤ n → t + n ≤ 3 → from_drain contents (batch_at segment created t n (contents created (segment_identity segment))).
Proof.
  intros H1 H2 H3. exists segment, created, t, n.
  constructor; [done|by vm_compute|done|done| | |by vm_compute|]; rewrite recorded_there; [done..|by repeat constructor].
Qed.

Lemma first_committed :
  s3_commit first_two start =
  (Answered (Ok (mkCommitResult [bstr "one"; bstr "two"] [])), snd (s3_commit first_two start)).
Proof.
  assert (E : fst (s3_commit first_two start) = Answered (Ok (mkCommitResult [bstr "one"; bstr "two"] [])))
    by (vm_compute; reflexivity).
  rewrite <-E. apply surjective_pairing.
Qed.

Lemma archive_keeps_batches_witness :
  archived opened first_two [bstr "one"; bstr "two"] (foldl after_call (snd (s3_commit first_two start)) later) ∨ collision contents.
Proof.
  refine (proj2 (archive_keeps_batches contents first_two start _ _ later _ _ first_committed _)).
  - by apply from_segment.
  - do 4 (constructor; [done || by apply from_segment|]). constructor.
  - done.
Defined.
End ArchiveWitness.
