(* ===== verification/Redact.v ===== *)
(** * What a sink may log (sink/mod.rs)

    Credentials are cut out of every URL before it reaches a log line or an error text
    ([redact_url_password]), control characters out of what a downstream sends back
    ([sanitize_log_excerpt]), and no more of a response than a cap is kept
    ([read_body_capped]). *)

From Stdlib Require Import ZArith Lia Strings.Byte String.
From stdpp Require Import base list option sets.
From S2P Require Import Prelude Deps Text S3Key S3.

(** Membership in a list that is written out. *)
Ltac elt := apply (bool_decide_unpack _); exact I.

(** ** Text *)

(** [str::find] of a set of ASCII characters, and [str::rfind] of one. *)
Fixpoint find_any (p : byte → bool) (s : bytes) : option nat :=
  match s with
  | [] => None
  | b :: s => if p b then Some O else S <$> find_any p s
  end.
Definition find_byte (b : byte) : bytes → option nat := find_any (λ c, bool_decide (c = b)).
Fixpoint rfind_byte (b : byte) (s : bytes) : option nat :=
  match s with
  | [] => None
  | c :: s =>
    match rfind_byte b s with
    | Some i => Some (S i)
    | None => if bool_decide (c = b) then Some O else None
    end
  end.

(** [str::eq_ignore_ascii_case]. *)
Definition eq_ignore_ascii_case (a b : bytes) : bool := bool_decide (to_ascii_lowercase a = to_ascii_lowercase b).

(** ** URLs *)

Definition CREDENTIAL_KEYS : list bytes :=
  map bstr ["password"; "passwd"; "pwd"; "token"; "access_token"; "secret"; "api_key"; "apikey"; "sig"; "signature"]%string.
Definition is_credential_query_key (key : bytes) : bool := existsb (λ k, eq_ignore_ascii_case key k) CREDENTIAL_KEYS.

Definition REDACTED : bytes := bstr "<redacted>".

(** One [key=value] of the query. *)
Definition redact_pair (pair : bytes) : bytes :=
  match find_byte x3d pair with
  | Some i => if is_credential_query_key (take i pair) then take i pair ++ bstr "=" ++ REDACTED else pair
  | None => pair
  end.

(** [redact_query_credentials]. *)
Definition redact_query_credentials (s : bytes) : bytes :=
  match find_byte x3f s with
  | None => s
  | Some q =>
    let head := take q s in
    let after_q := drop (q + 1) s in
    let '(query, frag) :=
      match find_byte x23 after_q with
      | Some h => (take h after_q, drop h after_q)
      | None => (after_q, [])
      end in
    head ++ bstr "?" ++ join_with (bstr "&") (map redact_pair (split x26 query)) ++ frag
  end.

(** The end of an authority. *)
Definition ends_authority (b : byte) : bool := bool_decide (b = x2f ∨ b = x3f ∨ b = x23).

(** [redact_url_password]. *)
Definition redact_url_password (url : bytes) : bytes :=
  match find_sub (bstr "://") url with
  | None => redact_query_credentials url
  | Some scheme_end =>
    let scheme := take scheme_end url in
    let rest := drop (scheme_end + 3) url in
    let authority_end := default (length rest) (find_any ends_authority rest) in
    let authority := take authority_end rest in
    let after_authority := redact_query_credentials (drop authority_end rest) in
    let redacted_authority :=
      match rfind_byte x40 authority with
      | Some at_ =>
        match find_byte x3a (take at_ authority) with
        | Some colon => take colon authority ++ bstr ":" ++ REDACTED ++ drop at_ authority
        | None => authority
        end
      | None => authority
      end in
    scheme ++ bstr "://" ++ redacted_authority ++ after_authority
  end.

(** ** Bodies *)

(** [sanitize_log_excerpt]. *)
Definition sanitize_log_excerpt (s : bytes) : bytes := concat (map (λ c, if is_control c then [x2e] else c) (chars s)).

Definition RESPONSE_BODY_CAP : nat := 64 * 1024.
#[global] Opaque RESPONSE_BODY_CAP.

(** [read_body_capped] on the chunks of a response, until its end or a read error. *)
Fixpoint read_capped_loop (cap : nat) (buf : bytes) (chunks : list bytes) : bytes :=
  if Nat.leb cap (length buf) then buf else
  match chunks with
  | [] => buf
  | chunk :: chunks =>
    let take_ := Nat.min (cap - length buf) (length chunk) in
    let buf := buf ++ take take_ chunk in
    if Nat.ltb take_ (length chunk) then buf else read_capped_loop cap buf chunks
  end.
Definition read_body_capped (chunks : list bytes) (cap : nat) : bytes := read_capped_loop cap [] chunks.

(** ** What is found *)

Lemma find_any_app p s t : Forall (λ b, p b = false) s → find_any p (s ++ t) = (Nat.add (length s)) <$> find_any p t.
Proof.
  induction 1 as [|b s Hb _ IH]; cbn; [by destruct (find_any p t)|]. rewrite Hb, IH. by destruct (find_any p t).
Qed.

Lemma find_any_none p s : Forall (λ b, p b = false) s → find_any p s = None.
Proof. intros H. rewrite <-(app_nil_r s), find_any_app by done. done. Qed.

Lemma find_byte_at b s t : b ∉ s → find_byte b (s ++ b :: t) = Some (length s).
Proof.
  intros H. unfold find_byte. rewrite find_any_app.
  - cbn. rewrite bool_decide_true by done. cbn. f_equal. lia.
  - apply list.Forall_forall. intros c Hc. apply bool_decide_false. by intros ->.
Qed.

Lemma find_byte_none b s : b ∉ s → find_byte b s = None.
Proof. intros H. apply find_any_none, list.Forall_forall. intros c Hc. apply bool_decide_false. by intros ->. Qed.

Lemma rfind_byte_none b s : b ∉ s → rfind_byte b s = None.
Proof.
  induction s as [|c s IH]; [done|]. intros [Hc Hs]%not_elem_of_cons. cbn. rewrite IH by done.
  by rewrite bool_decide_false by done.
Qed.

Lemma rfind_byte_at b s t : b ∉ t → rfind_byte b (s ++ b :: t) = Some (length s).
Proof.
  intros H. induction s as [|c s IH]; cbn; [by rewrite rfind_byte_none, bool_decide_true by done|]. by rewrite IH.
Qed.

(** ** What a downstream sends *)

(** A byte that a terminal and a log reader show as text. *)
Definition printable (b : byte) : bool := (0x20 <=? b2z b) && negb (b2z b =? 0x7f).

(** The bytes of a character that takes more than one are not ASCII. *)
Lemma char_bytes l : l ≠ [] →
  let c := take (fst (utf8_step l)) l in (∃ b, c = [b]) ∨ Forall (λ b, printable b = true) c.
Proof.
  destruct l as [|a l]; [done|]. intros _.
  assert (R : ∀ lo hi b, 0x80 ≤ lo → in_range lo hi b = true → printable b = true).
  { intros lo hi b Hlo H. unfold in_range in H. b2p. unfold printable. apply andb_true_iff. split; [apply Z.leb_le; lia|].
    apply negb_true_iff, Z.eqb_neq. lia. }
  assert (A : 0x80 ≤ b2z a → printable a = true) by (intros Ha; apply (R 0x80 0xff); [lia|]; unfold in_range;
    pose proof (b2z_range a); apply andb_true_iff; split; apply Z.leb_le; lia).
  assert (C : ∀ b, is_cont b = true → printable b = true) by (intros b; by apply R).
  assert (S3 : ∀ b, second_of_3 a b = true → printable b = true).
  { intros b. unfold second_of_3. repeat case_match; by apply R. }
  assert (S4 : ∀ b, second_of_4 a b = true → printable b = true).
  { intros b. unfold second_of_4. repeat case_match; by apply R. }
  cbv zeta. unfold utf8_step. repeat (split_goal; [|try (by left; exists a)]); cbn; try (by left; eexists).
  all: right; b2p; repeat constructor; auto; apply A; lia.
Qed.

(** [sanitize_log_excerpt] leaves no control byte. *)
Lemma sanitize_printable s : forallb printable (sanitize_log_excerpt s) = true.
Proof.
  unfold sanitize_log_excerpt, chars. generalize (length s) at 1. intros fuel. revert s.
  induction fuel as [|fuel IH]; intros s; [done|]. destruct s as [|b s]; [done|]. cbn [chars_loop map concat].
  rewrite forallb_app, IH, andb_true_r. destruct (char_bytes (b :: s) ltac:(done)) as [(a & E)|F].
  - rewrite E. destruct (is_control [a]) eqn:Ec; [done|]. cbn in Ec |- *. unfold printable. b2p. rewrite andb_true_r.
    apply andb_true_iff. split; [apply Z.leb_le; lia|by apply negb_true_iff, Z.eqb_neq].
  - destruct (is_control _); [done|]. rewrite forallb_forall. rewrite list.Forall_forall in F. intros x Hx.
    apply F, list_elem_of_In, Hx.
Qed.

(** [read_body_capped] keeps the first [cap] bytes of a body. *)
Lemma read_body_capped_take chunks cap : read_body_capped chunks cap = take cap (concat chunks).
Proof.
  unfold read_body_capped.
  assert (G : ∀ buf, (length buf ≤ cap)%nat → read_capped_loop cap buf chunks = take cap (buf ++ concat chunks)); [|by apply (G []); cbn; lia].
  induction chunks as [|chunk chunks IH]; intros buf Hb; cbn [read_capped_loop concat];
    destruct (Nat.leb_spec cap (length buf)).
  - rewrite app_nil_r, take_ge by lia. done.
  - rewrite app_nil_r, take_ge by lia. done.
  - rewrite take_app_le, take_ge by lia. done.
  - rewrite take_app_ge by lia. destruct (Nat.ltb_spec (Nat.min (cap - length buf) (length chunk)) (length chunk)).
    + rewrite Nat.min_l by lia. rewrite take_app_le by lia. done.
    + rewrite Nat.min_r by lia. rewrite (take_ge chunk) by lia. rewrite IH by (rewrite length_app; lia).
      rewrite <-app_assoc, take_app_ge by lia. done.
Qed.

(** ** The parts of a URL *)

(** A URL by its parts: the text before [://], the authority with its user, the path and
    the query, whose pairs may have no value, and what follows it. *)
Record Userinfo := mkUserinfo { ui_user : bytes; ui_password : option bytes }.
Record UrlParts := mkUrlParts {
  up_scheme : bytes;
  up_userinfo : option Userinfo;
  up_host : bytes;
  up_path : bytes;
  up_query : option (list (bytes * option bytes));
  up_fragment : bytes;
}.

Definition pair_text (p : bytes * option bytes) : bytes := fst p ++ from_option (λ v, bstr "=" ++ v) [] (snd p).
Definition userinfo_text (u : Userinfo) : bytes := ui_user u ++ from_option (λ p, bstr ":" ++ p) [] (ui_password u) ++ bstr "@".
Definition authority_text (u : UrlParts) : bytes := from_option userinfo_text [] (up_userinfo u) ++ up_host u.
Definition query_text (q : list (bytes * option bytes)) : bytes := bstr "?" ++ join_with (bstr "&") (map pair_text q).
Definition tail_text (u : UrlParts) : bytes := up_path u ++ from_option query_text [] (up_query u) ++ up_fragment u.
Definition url_text (u : UrlParts) : bytes := up_scheme u ++ bstr "://" ++ authority_text u ++ tail_text u.

(** The parameters that carry secrets, by name and with any of their letters as capitals. *)
Definition SECRET_PARAMETERS : list bytes :=
  map bstr ["access_token"; "api_key"; "apikey"; "passwd"; "password"; "pwd"; "secret"; "sig"; "signature"; "token"]%string.
Fixpoint spells (key name : bytes) : bool :=
  match key, name with
  | [], [] => true
  | b :: key, c :: name =>
    (bool_decide (b = c) || (in_range 0x61 0x7a c && (b2z b =? b2z c - 32))) && spells key name
  | _, _ => false
  end.
Definition names_secret (key : bytes) : bool := existsb (spells key) SECRET_PARAMETERS.

(** The parts without the secrets. *)
Definition mask_pair (p : bytes * option bytes) : bytes * option bytes :=
  if names_secret (fst p) then (fst p, (λ _, REDACTED) <$> snd p) else p.
Definition mask_userinfo (u : Userinfo) : Userinfo := mkUserinfo (ui_user u) ((λ _, REDACTED) <$> ui_password u).
Definition mask (u : UrlParts) : UrlParts :=
  mkUrlParts (up_scheme u) (mask_userinfo <$> up_userinfo u) (up_host u) (up_path u) (map mask_pair <$> up_query u) (up_fragment u).

(** The delimiters of a part do not occur in it; a password may have an at sign and a
    colon, a value an equals sign. *)
Definition plain (l : list byte) (s : bytes) : Prop := Forall (λ b, b ∉ l) s.
Record url_parts_ok (u : UrlParts) : Prop := mkUrlOk {
  uo_scheme : plain [x3a] (up_scheme u);
  uo_user : from_option (λ i, plain [x2f; x3f; x23; x3a] (ui_user i) ∧ from_option (plain [x2f; x3f; x23]) True (ui_password i)) True (up_userinfo u);
  uo_host : plain [x2f; x3f; x23; x40] (up_host u);
  uo_path : plain [x3f; x23] (up_path u) ∧ (up_path u = [] ∨ ∃ p, up_path u = x2f :: p);
  uo_query : from_option (λ q, q ≠ [] ∧ Forall (λ p, plain [x26; x3d; x23] (fst p) ∧ from_option (plain [x26; x23]) True (snd p)) q) True (up_query u);
  uo_fragment : up_fragment u = [] ∨ ∃ f, up_fragment u = x23 :: f ∧ (up_query u ≠ None ∨ x3f ∉ f);
}.

Lemma plain_notin l s b : plain l s → b ∈ l → b ∉ s.
Proof. intros H Hb Hs. unfold plain in H. rewrite list.Forall_forall in H. by apply (H b). Qed.

Lemma find_sub_scheme s t : x3a ∉ s → find_sub (bstr "://") (s ++ bstr "://" ++ t) = Some (length s).
Proof.
  induction s as [|c s IH]; [done|]. intros [Hc Hs]%not_elem_of_cons.
  assert (E : starts_with (bstr "://") ((c :: s) ++ bstr "://" ++ t) = false).
  { destruct (starts_with _ _) eqn:E; [|done]. exfalso. apply bool_decide_eq_true in E. cbn in E. injection E as E _. by rewrite E in Hc. }
  change (find_sub (bstr "://") ((c :: s) ++ bstr "://" ++ t)) with
    (if starts_with (bstr "://") ((c :: s) ++ bstr "://" ++ t) then Some O else S <$> find_sub (bstr "://") (s ++ bstr "://" ++ t)).
  rewrite E, IH by done. done.
Qed.

Lemma lower_spells b c :
  in_range 0x41 0x5a c = false →
  bool_decide ((if in_range 0x41 0x5a b then z2b (b2z b + 32) else b) = c) =
  bool_decide (b = c) || (in_range 0x61 0x7a c && (b2z b =? b2z c - 32)).
Proof.
  intros Hc. apply eq_bool_prop_intro. rewrite bool_decide_spec, Is_true_true, orb_true_iff, andb_true_iff, Z.eqb_eq, bool_decide_eq_true.
  pose proof (b2z_range b). pose proof (b2z_range c). unfold in_range in *.
  destruct ((0x41 <=? b2z b) && (b2z b <=? 0x5a)) eqn:Hb; b2p.
  - split.
    + intros <-. right. rewrite b2z_z2b, Z.mod_small by lia. split; [apply andb_true_iff; split; apply Z.leb_le; lia|lia].
    + intros [->|[_ E]]; [b2p; lia|]. apply b2z_inj. rewrite b2z_z2b, Z.mod_small; lia.
  - split; [by left|]. intros [->|[Hr E]]; [done|]. b2p. lia.
Qed.

Lemma ignore_case_spells key name :
  forallb (λ c, negb (in_range 0x41 0x5a c)) name = true → eq_ignore_ascii_case key name = spells key name.
Proof.
  unfold eq_ignore_ascii_case, to_ascii_lowercase. revert name. induction key as [|b key IH]; intros [|c name] Hn; try done.
  cbn in Hn. apply andb_true_iff in Hn as [Hc%negb_true_iff Hn]. cbn [map spells]. rewrite Hc, <-lower_spells, <-IH by done.
  rewrite <-bool_decide_and. apply bool_decide_ext. split; [by intros [= ? ?]|by intros [-> ->]].
Qed.

Lemma credential_is_secret key : is_credential_query_key key = names_secret key.
Proof.
  assert (H : ∀ l, forallb (forallb (λ c, negb (in_range 0x41 0x5a c))) l = true →
    existsb (λ k, eq_ignore_ascii_case key k) l = existsb (spells key) l).
  { induction l as [|n l IH]; [done|]. cbn. intros [Hn Hl]%andb_true_iff. by rewrite ignore_case_spells, IH. }
  unfold is_credential_query_key. rewrite H by done. apply eq_bool_prop_intro. rewrite !Is_true_true. unfold names_secret. rewrite !existsb_exists.
  assert (P : CREDENTIAL_KEYS ≡ₚ SECRET_PARAMETERS) by (apply (bool_decide_unpack _); by vm_compute).
  split; intros (x & Hx & Hs); exists x; (split; [|done]); apply list_elem_of_In; apply list_elem_of_In in Hx; [by rewrite <-P|by rewrite P].
Qed.

Lemma redact_pair_text p :
  plain [x26; x3d; x23] (fst p) → redact_pair (pair_text p) = pair_text (mask_pair p).
Proof.
  destruct p as [k [v|]]; unfold redact_pair, pair_text, mask_pair; cbn [fst snd from_option]; rewrite <-credential_is_secret; intros H.
  - change (bstr "=" ++ v) with (x3d :: v). rewrite find_byte_at by (eapply plain_notin; [done|elt]).
    rewrite take_app_length. by destruct (is_credential_query_key k).
  - rewrite app_nil_r, find_byte_none by (eapply plain_notin; [done|elt]).
    by destruct (is_credential_query_key k); cbn; rewrite app_nil_r.
Qed.

Lemma split_absent sep s : sep ∉ s → split sep s = [s].
Proof.
  induction s as [|b s IH]; [done|]. intros [Hb Hs]%not_elem_of_cons. cbn. rewrite bool_decide_false by done. by rewrite IH.
Qed.

Lemma split_at sep s t : sep ∉ s → split sep (s ++ sep :: t) = s :: split sep t.
Proof.
  induction s as [|b s IH]; [intros _; cbn; by rewrite bool_decide_true by done|].
  intros [Hb Hs]%not_elem_of_cons. cbn. rewrite bool_decide_false by done. by rewrite IH.
Qed.

Lemma join_with_cons sep s t l : join_with sep (s :: t :: l) = s ++ sep ++ join_with sep (t :: l).
Proof. reflexivity. Qed.

(** Splitting a text that was joined. *)
Lemma split_join sep l : l ≠ [] → Forall (λ s, sep ∉ s) l → split sep (join_with [sep] l) = l.
Proof.
  intros Hl F. induction F as [|s l Hs F IH]; [done|]. destruct l as [|t l].
  - by apply split_absent.
  - rewrite join_with_cons. cbn [app]. rewrite split_at by done. by rewrite IH.
Qed.

Lemma pair_text_plain b p :
  b ∈ [x26; x23] → plain [x26; x3d; x23] (fst p) → from_option (plain [x26; x23]) True (snd p) → b ∉ pair_text p.
Proof.
  intros Hb Hk Hv. unfold pair_text. rewrite not_elem_of_app.
  assert (Hb' : b ∈ [x26; x3d; x23] ∧ b ≠ x3d).
  { rewrite !elem_of_cons, elem_of_nil in Hb. destruct Hb as [->|[->|[]]]; (split; [elt|done]). }
  destruct Hb' as [Hb1 Hb2].
  split; [by eapply plain_notin|]. destruct (snd p) as [v|]; cbn; [|apply not_elem_of_nil].
  rewrite not_elem_of_cons. split; [done|by eapply plain_notin].
Qed.

(** ** Redaction *)

Lemma query_plain q :
  Forall (λ p, plain [x26; x3d; x23] (fst p) ∧ from_option (plain [x26; x23]) True (snd p)) q →
  x23 ∉ join_with (bstr "&") (map pair_text q).
Proof.
  induction 1 as [|p q [Hk Hv] Hq IH]; [apply not_elem_of_nil|].
  pose proof (pair_text_plain x23 p ltac:(elt) Hk Hv) as Hx.
  destruct q as [|p' q]; [done|]. cbn [map] in *. rewrite join_with_cons, !not_elem_of_app. split; [done|].
  split; [apply not_elem_of_cons; split; [done|apply not_elem_of_nil]|exact IH].
Qed.

Lemma redact_tail u : url_parts_ok u → redact_query_credentials (tail_text u) = tail_text (mask u).
Proof.
  intros O. unfold redact_query_credentials, tail_text. destruct (uo_path u O) as [Hp _]. pose proof (uo_query u O) as Hq.
  pose proof (uo_fragment u O) as Hf. cbn [mask up_path up_query up_fragment].
  assert (P : x3f ∉ up_path u) by (eapply plain_notin; [done|elt]).
  destruct (up_query u) as [q|]; cbn [from_option fmap option_fmap option_map] in Hq |- *.
  - destruct Hq as [Hne Hq]. unfold query_text. change (bstr "?" ++ ?x) with (x3f :: x). cbn [app].
    rewrite find_byte_at by done. rewrite take_app_length.
    replace (drop (length (up_path u) + 1) _) with (join_with (bstr "&") (map pair_text q) ++ up_fragment u)
      by (rewrite drop_app_ge, Nat.add_comm, Nat.add_sub by lia; done).
    pose proof (query_plain q Hq) as J.
    assert (E : (match find_byte x23 (join_with (bstr "&") (map pair_text q) ++ up_fragment u) with
      | Some h => (take h (join_with (bstr "&") (map pair_text q) ++ up_fragment u), drop h (join_with (bstr "&") (map pair_text q) ++ up_fragment u))
      | None => (join_with (bstr "&") (map pair_text q) ++ up_fragment u, []) end) = (join_with (bstr "&") (map pair_text q), up_fragment u)).
    { destruct Hf as [->|(f & -> & _)]; [rewrite app_nil_r, find_byte_none by done; done|].
      rewrite find_byte_at by done. by rewrite take_app_length, drop_app_length. }
    rewrite E. rewrite (split_join x26); [|by destruct q|].
    + f_equal. cbn [app]. do 2 f_equal. f_equal. rewrite !map_map. apply map_ext_Forall.
      eapply list.Forall_impl; [exact Hq|]. intros p [Hk _]. by apply redact_pair_text.
    + apply List.Forall_map. eapply list.Forall_impl; [exact Hq|]. intros p [Hk Hv]. cbn. by apply pair_text_plain; [elt|..].
  - rewrite find_byte_none; [done|]. rewrite not_elem_of_app. split; [done|]. cbn.
    destruct Hf as [->|(f & -> & [?|Hx])]; [apply not_elem_of_nil|done|]. by apply not_elem_of_cons.
Qed.

(** The authority ends where the tail begins. *)
Lemma authority_ends u : url_parts_ok u →
  default (length (authority_text u ++ tail_text u)) (find_any ends_authority (authority_text u ++ tail_text u)) = length (authority_text u).
Proof.
  intros O.
  assert (A : Forall (λ b, ends_authority b = false) (authority_text u)).
  { assert (P : ∀ l s, plain l s → x2f ∈ l → x3f ∈ l → x23 ∈ l → Forall (λ b, ends_authority b = false) s).
    { intros l s Hs H1 H2 H3. eapply list.Forall_impl; [exact Hs|]. intros b Hb. cbn. apply bool_decide_false. by intros [->|[->| ->]]. }
    unfold authority_text. apply Forall_app. split; [|eapply P; [apply (uo_host u O)|elt..]].
    pose proof (uo_user u O) as Hu. destruct (up_userinfo u) as [[user pw]|]; cbn in Hu |- *; [|constructor].
    destruct Hu as [H1 H2]. unfold userinfo_text. cbn [ui_user ui_password]. rewrite !Forall_app.
    split; [eapply P; [exact H1|elt..]|]. split; [|by repeat constructor].
    destruct pw as [pw|]; cbn; constructor; [done|]. eapply P; [exact H2|elt..]. }
  rewrite find_any_app by done.
  assert (T : tail_text u = [] ∨ find_any ends_authority (tail_text u) = Some 0%nat).
  { unfold tail_text. destruct (uo_path u O) as [_ [->|(p & ->)]]; [|by right]. cbn [app].
    destruct (up_query u) as [q|]; [by right|]. cbn. destruct (uo_fragment u O) as [->|(f & -> & _)]; [by left|by right]. }
  destruct T as [->| ->]; cbn; [by rewrite app_nil_r|lia].
Qed.

(** What is done to the authority. *)
Lemma redact_authority u : url_parts_ok u →
  match rfind_byte x40 (authority_text u) with
  | Some at_ =>
    match find_byte x3a (take at_ (authority_text u)) with
    | Some colon => take colon (authority_text u) ++ bstr ":" ++ REDACTED ++ drop at_ (authority_text u)
    | None => authority_text u
    end
  | None => authority_text u
  end = authority_text (mask u).
Proof.
  intros O. pose proof (uo_user u O) as Hu.
  assert (Hh : x40 ∉ up_host u) by (eapply plain_notin; [apply (uo_host u O)|elt]).
  destruct (up_userinfo u) as [[user [pw|]]|] eqn:Eu; cbn [from_option ui_user ui_password] in Hu.
  - assert (E : authority_text u = (user ++ x3a :: pw) ++ x40 :: up_host u).
    { unfold authority_text, userinfo_text. rewrite Eu. cbn. rewrite <-!app_assoc. cbn. by rewrite <-app_assoc. }
    rewrite E, rfind_byte_at by done. rewrite take_app_length, find_byte_at, drop_app_length
      by (eapply plain_notin; [apply Hu|elt]).
    rewrite <-!app_assoc, take_app_length. unfold authority_text. cbn [mask up_userinfo up_host]. rewrite Eu. cbn.
    unfold userinfo_text. cbn. by rewrite <-!app_assoc.
  - assert (E : authority_text u = user ++ x40 :: up_host u)
      by (unfold authority_text, userinfo_text; rewrite Eu; cbn; rewrite <-!app_assoc; done).
    rewrite E, rfind_byte_at by done. rewrite take_app_length, find_byte_none by (eapply plain_notin; [apply Hu|elt]).
    rewrite <-E. unfold authority_text. cbn [mask up_userinfo up_host]. by rewrite Eu.
  - unfold authority_text. cbn [mask up_userinfo up_host]. rewrite Eu. cbn. by rewrite rfind_byte_none.
Qed.

(** C21: credentials stay out of the logs. For a URL whose parts are delimited as a URL's are,
    whatever its password and whatever the values of its credential parameters (ten names,
    in any case), the redacted text is the text of the URL with [<redacted>] in
    their place: nothing of a secret is left in it, and everything else is. *)
Theorem redaction_masks_secrets u : url_parts_ok u → redact_url_password (url_text u) = url_text (mask u).
Proof.
  intros O. unfold redact_url_password, url_text.
  rewrite find_sub_scheme by (eapply plain_notin; [apply (uo_scheme u O)|elt]).
  rewrite take_app_length.
  replace (drop (length (up_scheme u) + 3) _) with (authority_text u ++ tail_text u)
    by (rewrite drop_app_ge, Nat.add_comm, Nat.add_sub by lia; done).
  cbv zeta. rewrite authority_ends by done. rewrite take_app_length, drop_app_length, redact_authority, redact_tail by done.
  done.
Qed.

Definition sample : UrlParts :=
  mkUrlParts (bstr "error sending request for url (https") (Some (mkUserinfo (bstr "u") (Some (bstr "p@s:s"))))
    (bstr "host:8443") (bstr "/ingest") (Some [(bstr "x", Some (bstr "1")); (bstr "ToKeN", Some (bstr "t=0p")); (bstr "flag", None)])
    (bstr "#section)").

Lemma redaction_masks_secrets_witness :
  redact_url_password (bstr "error sending request for url (https://u:p@s:s@host:8443/ingest?x=1&ToKeN=t=0p&flag#section)")
  = bstr "error sending request for url (https://u:<redacted>@host:8443/ingest?x=1&ToKeN=<redacted>&flag#section)".
Proof.
  change (redact_url_password (url_text sample) = url_text (mask sample)). apply redaction_masks_secrets.
  constructor; cbn; unfold plain.
  - apply (bool_decide_unpack _). done.
  - split; apply (bool_decide_unpack _); done.
  - apply (bool_decide_unpack _). done.
  - split; [apply (bool_decide_unpack _); done|right; by eexists].
  - split; [done|]. repeat constructor; cbn; apply (bool_decide_unpack _); done.
  - right. eexists. split; [done|by left].
Defined.
