(* ===== verification/SqlCommon.v ===== *)
(** * What the SQL sinks share (sink/sql_common.rs)

    The identifiers a sink may write into a statement, the errors of a commit, the keys
    bound beside the payloads, and the duplicate-key fallback of [insert_with_dup_fallback]:
    one statement for the whole batch, a lookup of the identifiers already present, and the
    bisection of what is left. The statements themselves are parameters of the section, as
    they are closures of the function: what they do to the server is not its business. *)

From Stdlib Require Import ZArith Lia Strings.Byte String.
From stdpp Require Import base list option sets sorting.
From S2P Require Import Prelude Deps Text Sink S3Key.

(** ** Identifiers *)

Record InvalidIdentifier := mkInvalidIdentifier { ii_field : bytes; ii_value : bytes }.

(** [char::is_ascii_alphabetic] and [char::is_ascii_alphanumeric]. *)
Definition is_ascii_alphabetic (b : byte) : bool := in_range 0x41 0x5a b || in_range 0x61 0x7a b.
Definition is_ascii_alphanumeric (b : byte) : bool := is_ascii_alphabetic b || is_digit b.

(** [validate_identifier]. A character that is not ASCII is refused like any of its bytes. *)
Definition validate_identifier (field value : bytes) (max_len : Z) : result unit InvalidIdentifier :=
  let err := Err (mkInvalidIdentifier field value) in
  match value with
  | [] => err
  | first :: rest =>
    if max_len <? blen value then err else
    if negb (is_ascii_alphabetic first || bool_decide (first = x5f)) then err else
    if forallb (λ c, is_ascii_alphanumeric c || bool_decide (c = x5f)) rest then Ok tt else err
  end.

(** ** Errors *)

Inductive SqlSinkError :=
| SqlTransient (driver reason : bytes)
| SqlPermanent (driver reason : bytes)
| SqlTimeout (driver : bytes).

Definition sql_is_transient (e : SqlSinkError) : bool :=
  match e with SqlTransient _ _ | SqlTimeout _ => true | SqlPermanent _ _ => false end.

(** Its [Display]. *)
Definition sql_display (e : SqlSinkError) : bytes :=
  match e with
  | SqlTransient driver reason => driver ++ bstr " sink transient: " ++ reason
  | SqlPermanent driver reason => driver ++ bstr " sink permanent: " ++ reason
  | SqlTimeout driver => driver ++ bstr " sink timeout"
  end.

(** The error as the drain looks at it; there is never a hint. *)
Definition sql_sink_error (e : SqlSinkError) : SinkError := mkSinkError (sql_is_transient e) None.

(** ** Keys *)

(** [per_record_id_hex]. The column is a validated identifier, so that its [Debug] form is
    its quotation. *)
Definition per_record_id_hex (driver : bytes) (id_column : option bytes) (record_count : nat) (record_ids : option (list bytes)) :
    result (option (list bytes)) SqlSinkError :=
  match id_column with
  | None => Ok None
  | Some id_column =>
    let refused n := Err (SqlPermanent driver
      (bstr "id column " ++ [x22] ++ id_column ++ [x22] ++ bstr " is configured but the batch carries " ++ dec (Z.of_nat n)
       ++ bstr " record ids for " ++ dec (Z.of_nat record_count)
       ++ bstr " records; the drain always supplies one per record, so this batch did not come from the drain")) in
    match record_ids with
    | Some ids => if Nat.eqb (length ids) record_count then Ok (Some (map to_hex ids)) else refused (length ids)
    | None => refused O
    end
  end.

(** ** Statements *)

(** How one statement failed. *)
Inductive StmtError := DupKey (msg : bytes) | StmtOther (e : SqlSinkError).

(** How the future of a statement ends: with a result, at the deadline of the commit, or
    with the whole commit, which the drain has given up. *)
Inductive Ran A := Completed (a : A) | Elapsed | Dropped.
Arguments Completed {A} a.
Arguments Elapsed {A}.
Arguments Dropped {A}.

(** How the fallback ends: it returns, it is given up with the commit, or the fuel of its
    loop is too little. *)
Inductive Course A := Finished (r : result A SqlSinkError) | Cancelled | Unfinished.
Arguments Finished {A} r.
Arguments Cancelled {A}.
Arguments Unfinished {A}.

(** What the code makes of a statement: it goes on with its value, returns its transient
    error, goes on with a failure that is not transient, or is given up. *)
Inductive StmtArm A := Worked (a : A) | Gives (e : SqlSinkError) | Refuses (err : StmtError) | Pends.
Arguments Worked {A} a.
Arguments Gives {A} e.
Arguments Refuses {A} err.
Arguments Pends {A}.

Definition stmt_arms {A} (r : result A StmtError) : StmtArm A :=
  match r with
  | Ok a => Worked a
  | Err (StmtOther e) => if sql_is_transient e then Gives e else Refuses (StmtOther e)
  | Err (DupKey msg) => Refuses (DupKey msg)
  end.

Definition stmt_text (err : StmtError) : bytes := match err with StmtOther e => sql_display e | DupKey msg => msg end.

(** [str::trim_end_matches] of the two padding characters. *)
Fixpoint trim_padding (s : bytes) : bytes :=
  match s with
  | b :: s' => if bool_decide (b = x20 ∨ b = x00) then trim_padding s' else s
  | [] => []
  end.
Definition trim_end_padding (s : bytes) : bytes := rev (trim_padding (rev s)).

(** The identifier of a row is among the ones found. *)
Definition id_present (ids present : list bytes) (i : nat) : bool := bool_decide (ids !!! i ∈ present).

(** The reason of a row that is a duplicate on its own. *)
Definition dup_reason (with_ids : bool) (lookup_failed : option bytes) (msg : bytes) : bytes :=
  match with_ids, lookup_failed with
  | false, _ => bstr "duplicate key (insert_mode=plain, no id_column): " ++ msg
  | true, Some lookup_err =>
    bstr "duplicate key (insert_mode=plain); the id lookup failed (" ++ lookup_err
      ++ bstr "), so the row could not be proven already delivered: " ++ msg
  | true, None =>
    bstr "duplicate key (insert_mode=plain) on a record whose id was not present: a different UNIQUE constraint or a concurrent writer: "
      ++ msg
  end.

(** [on_failure]: a single row is dead-lettered, anything larger is split, its left half on
    top of the stack. *)
Definition on_failure (reason : bytes → bytes) (set : list nat) (err : StmtError) (dead_lettered : list (nat * bytes))
    (stack : list (list nat)) : list (nat * bytes) * list (list nat) :=
  match set with
  | [i] =>
    let r := match err with DupKey msg => reason msg | StmtOther e => sql_display e end in
    (dead_lettered ++ [(i, r)], stack)
  | _ => let h := (length set / 2)%nat in (dead_lettered, take h set :: drop h set :: stack)
  end.

(** The order of the answer: the indices are distinct, so an unstable sort is a sort. *)
Definition by_index (a b : nat * bytes) : Prop := (fst a ≤ fst b)%nat.
#[global] Instance by_index_dec a b : Decision (by_index a b).
Proof. unfold by_index. apply _. Defined.

Definition rows_at (rows : list bytes) (committed : list nat) (dead_lettered : list (nat * bytes)) : CommitResult :=
  mkCommitResult (map (λ i, rows !!! i) (merge_sort (≤)%nat committed))
    (map (λ d, (rows !!! (fst d), snd d)) (merge_sort by_index dead_lettered)).

(** What is left to do after the identifiers were looked up: the rows known to be there,
    the failed set with its failure, and why the lookup said nothing. *)
Record Resolved := mkResolved {
  rs_committed : list nat;
  rs_failure : option (list nat * StmtError);
  rs_lookup_failed : option bytes;
}.

(** ** The fallback *)

Section Fallback.
Context {W : Type} (now : W → Z).
Context (insert : list nat → W → Ran (result unit StmtError) * W).
Context (lookup_present : list nat → W → Ran (result (list bytes) StmtError) * W).
Context (driver : bytes) (deadline : Z).

(** [bounded], and what its result means to the caller. *)
Definition bounded {A} (stmt : W → Ran (result A StmtError) * W) (w : W) : StmtArm A * W :=
  if deadline <=? now w then (stmt_arms (Err (StmtOther (SqlTimeout driver))), w) else
  match stmt w with
  | (Completed r, w) => (stmt_arms r, w)
  | (Elapsed, w) => (stmt_arms (Err (StmtOther (SqlTimeout driver))), w)
  | (Dropped, w) => (Pends, w)
  end.

(** The loop over the stack. *)
Fixpoint bisect (fuel : nat) (reason : bytes → bytes) (stack : list (list nat)) (committed : list nat)
    (dead_lettered : list (nat * bytes)) (w : W) : Course (list nat * list (nat * bytes)) * W :=
  match stack with
  | [] => (Finished (Ok (committed, dead_lettered)), w)
  | set :: stack =>
    match fuel with
    | O => (Unfinished, w)
    | S fuel =>
      match bounded (insert set) w with
      | (Worked _, w) => bisect fuel reason stack (committed ++ set) dead_lettered w
      | (Gives e, w) => (Finished (Err e), w)
      | (Refuses err, w) =>
        let '(dead_lettered, stack) := on_failure reason set err dead_lettered stack in
        bisect fuel reason stack committed dead_lettered w
      | (Pends, w) => (Cancelled, w)
      end
    end
  end.

(** One lookup, then the remainder; [Err (Some e)] returns the error and [Err None] is given
    up with the commit. *)
Definition resolve_ids (n : nat) (ids : list bytes) (first_dup : bytes) (w : W) : result Resolved (option SqlSinkError) * W :=
  match bounded (lookup_present (seq 0 n)) w with
  | (Worked found, w) =>
    let present := map trim_end_padding found in
    let committed := filter (λ i, id_present ids present i = true) (seq 0 (length ids)) in
    let remainder := filter (λ i, id_present ids present i = false) (seq 0 (length ids)) in
    match remainder with
    | [] => (Ok (mkResolved committed None None), w)
    | _ =>
      match bounded (insert remainder) w with
      | (Worked _, w) => (Ok (mkResolved (committed ++ remainder) None None), w)
      | (Gives e, w) => (Err (Some e), w)
      | (Refuses err, w) => (Ok (mkResolved committed (Some (remainder, err)) None), w)
      | (Pends, w) => (Err None, w)
      end
    end
  | (Gives e, w) => (Err (Some e), w)
  | (Refuses err, w) => (Ok (mkResolved [] (Some (seq 0 n, DupKey first_dup)) (Some (stmt_text err))), w)
  | (Pends, w) => (Err None, w)
  end.

(** [insert_with_dup_fallback]. *)
Definition insert_with_dup_fallback (rows : list bytes) (ids : option (list bytes)) (w : W) : Course CommitResult * W :=
  let n := length rows in
  match bounded (insert (seq 0 n)) w with
  | (Worked _, w) => (Finished (Ok (mkCommitResult rows [])), w)
  | (Gives e, w) => (Finished (Err e), w)
  | (Refuses (StmtOther e), w) => (Finished (Ok (mkCommitResult [] (map (λ r, (r, sql_display e)) rows))), w)
  | (Pends, w) => (Cancelled, w)
  | (Refuses (DupKey first_dup), w) =>
    let '(resolved, w) :=
      match ids with
      | Some ids => resolve_ids n ids first_dup w
      | None => (Ok (mkResolved [] (Some (seq 0 n, DupKey first_dup)) None), w)
      end in
    match resolved with
    | Err (Some e) => (Finished (Err e), w)
    | Err None => (Cancelled, w)
    | Ok rs =>
      match rs_failure rs with
      | None => (Finished (Ok (rows_at rows (rs_committed rs) [])), w)
      | Some (to_bisect, failure) =>
        let reason := dup_reason (bool_decide (is_Some ids)) (rs_lookup_failed rs) in
        let '(dead_lettered, stack) := on_failure reason to_bisect failure [] [] in
        match bisect (2 * n) reason stack (rs_committed rs) dead_lettered w with
        | (Finished (Ok (committed, dead_lettered)), w) => (Finished (Ok (rows_at rows committed dead_lettered)), w)
        | (Finished (Err e), w) => (Finished (Err e), w)
        | (Cancelled, w) => (Cancelled, w)
        | (Unfinished, w) => (Unfinished, w)
        end
      end
    end
  end.
End Fallback.

(** ** The order of the answer *)

#[global] Instance by_index_total : Total by_index.
Proof. intros [i ?] [j ?]. unfold by_index. cbn. lia. Qed.
#[global] Instance by_index_trans : Transitive by_index.
Proof. intros [i ?] [j ?] [k ?]. unfold by_index. cbn. lia. Qed.
#[global] Instance nat_le_total : Total (≤)%nat.
Proof. intros i j. lia. Qed.

Lemma sorted_NoDup l : StronglySorted lt l → NoDup l.
Proof.
  induction 1 as [|i l S IH F]; constructor; [|done]. intros Hi. rewrite list.Forall_forall in F. specialize (F i Hi). lia.
Qed.

Lemma merge_sort_indices l : NoDup l → StronglySorted lt (merge_sort (≤)%nat l).
Proof.
  intros N. pose proof (StronglySorted_merge_sort (≤)%nat l) as S. pose proof (merge_sort_Permutation (≤)%nat l) as P.
  revert S P N. generalize (merge_sort (≤)%nat l). intros k S P N. rewrite <-P in N. clear P.
  induction S as [|i k S IH F]; [constructor|]. apply NoDup_cons in N as [Ni N]. constructor; [by apply IH|].
  apply list.Forall_forall. intros j Hj. rewrite list.Forall_forall in F. specialize (F j Hj).
  destruct (decide (i = j)) as [->|]; [done|lia].
Qed.

Lemma merge_sort_by_index l : map fst (merge_sort by_index l) = merge_sort (≤)%nat (map fst l).
Proof.
  apply (Sorted_unique (≤)%nat).
  - pose proof (Sorted_merge_sort by_index l) as S. revert S. generalize (merge_sort by_index l).
    intros k S. induction S as [|x k S IH H]; [constructor|]. cbn. constructor; [done|]. destruct H; by constructor.
  - apply Sorted_merge_sort, _.
  - rewrite (merge_sort_Permutation (≤)%nat). apply fmap_Permutation, merge_sort_Permutation.
Qed.

(** A list of indices in order is sorted already. *)
Lemma merge_sort_sorted l : StronglySorted lt l → merge_sort (≤)%nat l = l.
Proof.
  intros S. apply (Sorted_unique (≤)%nat); [apply Sorted_merge_sort, _| |apply merge_sort_Permutation].
  apply StronglySorted_Sorted. induction S as [|i l S IH F]; constructor; [done|].
  eapply list.Forall_impl; [exact F|]. intros j Hj. cbn in Hj. lia.
Qed.

(** ** The loop *)

(** The statements a stack of failed sets can still cost. *)
Definition weight (stack : list (list nat)) : nat := sum_list (map (λ s, 2 * length s - 1)%nat stack).

Lemma weight_cons s stack : weight (s :: stack) = (2 * length s - 1 + weight stack)%nat.
Proof. reflexivity. Qed.

Lemma on_failure_spec reason set err d st d' st' :
  on_failure reason set err d st = (d', st') → set ≠ [] →
  (S (weight st') ≤ weight (set :: st))%nat ∧ (Forall (λ s, s ≠ []) st → Forall (λ s, s ≠ []) st') ∧
  map fst d' ++ concat st' ≡ₚ map fst d ++ set ++ concat st ∧ (∀ s, s ∈ st' → s ∈ st ∨ s ⊆ set).
Proof.
  intros H Hne. destruct set as [|i [|j set]]; [done| |].
  - injection H as <- <-. split; [rewrite weight_cons; cbn [length]; lia|]. split; [done|]. split; [by rewrite map_app, <-app_assoc|]. by left.
  - unfold on_failure in H. set (s := i :: j :: set) in *. set (h := (length s / 2)%nat) in *. injection H as <- <-.
    assert (Hh : (1 ≤ h ∧ h + 1 ≤ length s)%nat).
    { unfold h, s. cbn [length]. pose proof (Nat.div_mod_eq (S (S (length set))) 2).
      pose proof (Nat.mod_upper_bound (S (S (length set))) 2 ltac:(lia)). lia. }
    split; [|split; [|split]].
    + rewrite !weight_cons, length_take, length_drop. lia.
    + intros F. constructor; [|constructor; [|done]]; intros E; apply (f_equal length) in E;
        rewrite ?length_take, ?length_drop in E; cbn [length] in E; lia.
    + cbn [concat]. by rewrite (app_assoc (take h s)), take_drop.
    + intros x Hx. rewrite !elem_of_cons in Hx. destruct Hx as [->|[->|]]; [right|right|by left];
        [apply subseteq_take|apply subseteq_drop].
Qed.

Section Laws.
Context {W : Type} (now : W → Z).
Context (insert : list nat → W → Ran (result unit StmtError) * W).
Context (lookup_present : list nat → W → Ran (result (list bytes) StmtError) * W).
Context (driver : bytes) (deadline : Z).
#[local] Abbreviation run := (bounded now driver deadline).

(** A statement ran and completed, or nothing came of it. *)
Lemma bounded_spec {A} (stmt : W → Ran (result A StmtError) * W) w r w' :
  run stmt w = (r, w') →
  (w' = w ∨ w' = snd (stmt w)) ∧ (∀ a, r = Worked a → stmt w = (Completed (Ok a), w')).
Proof.
  unfold bounded. destruct (deadline <=? now w); [intros [= <- <-]; by split; [left|]|].
  destruct (stmt w) as [[[a|[msg|e]]| |] w1]; cbn; intros [= <- <-]; (split; [by right|]); intros b; try done.
  - by intros [= ->].
  - by destruct (sql_is_transient e).
Qed.

(** The loop ends within its weight. *)
Lemma bisect_ends fuel reason stack c d w :
  Forall (λ s, s ≠ []) stack → (weight stack ≤ fuel)%nat →
  fst (bisect now insert driver deadline fuel reason stack c d w) ≠ Unfinished.
Proof.
  revert stack c d w. induction fuel as [|fuel IH]; intros [|set stack] c d w F Hw; try done;
    apply Forall_cons in F as [Hs F].
  { destruct set; [done|]. rewrite weight_cons in Hw. cbn [length] in Hw. lia. }
  cbn. destruct (run (insert set) w) as [[a|e|err|] w1] eqn:E; try done.
  - apply IH; [done|]. rewrite weight_cons in Hw. destruct set; [done|]. cbn [length] in Hw. lia.
  - destruct (on_failure reason set err d stack) as [d' st'] eqn:Ef.
    destruct (on_failure_spec _ _ _ _ _ _ _ Ef Hs) as (H1 & H2 & _). apply IH; [by apply H2|lia].
Qed.

(** It accounts for every row it was given. *)
Lemma bisect_parts fuel reason stack c d w c' d' w' :
  Forall (λ s, s ≠ []) stack →
  bisect now insert driver deadline fuel reason stack c d w = (Finished (Ok (c', d')), w') →
  c' ++ map fst d' ≡ₚ c ++ map fst d ++ concat stack.
Proof.
  revert stack c d w. induction fuel as [|fuel IH]; intros [|set stack] c d w F H; cbn in H.
  1,3: injection H as -> -> ->; by rewrite app_nil_r.
  { done. }
  apply Forall_cons in F as [Hs F]. destruct (run (insert set) w) as [[a|e|err|] w1] eqn:E; try done.
  - apply IH in H; [|done]. rewrite H. cbn [concat]. by rewrite <-!app_assoc, (Permutation_app_swap_app set).
  - destruct (on_failure reason set err d stack) as [d1 st1] eqn:Ef.
    destruct (on_failure_spec _ _ _ _ _ _ _ Ef Hs) as (_ & H2 & H3 & _).
    apply IH in H; [|by apply H2]. by rewrite H, H3.
Qed.

(** ** What a commit keeps *)

(** An invariant of the server and what it may say of a row: statements keep both, a row
    that was inserted has it, and so has a row whose identifier was found. *)
Record Kept (n : nat) (ids : option (list bytes)) (Inv : W → Prop) (Good : nat → W → Prop) : Prop := mkKept {
  kp_insert set w : Inv w → set ≠ [] → Forall (λ i, i < n)%nat set →
    Inv (snd (insert set w)) ∧ (∀ i, Good i w → Good i (snd (insert set w)));
  kp_lookup w : Inv w → Inv (snd (lookup_present (seq 0 n) w)) ∧ (∀ i, Good i w → Good i (snd (lookup_present (seq 0 n) w)));
  kp_inserted set w w' : Inv w → set ≠ [] → Forall (λ i, i < n)%nat set →
    insert set w = (Completed (Ok tt), w') → Forall (λ i, Good i w') set;
  kp_found l w found w' i : ids = Some l → Inv w → (i < n)%nat →
    lookup_present (seq 0 n) w = (Completed (Ok found), w') → l !!! i ∈ map trim_end_padding found → Good i w';
}.

Section Keeping.
Context (n : nat) (ids : option (list bytes)) (Inv : W → Prop) (Good : nat → W → Prop) (K : Kept n ids Inv Good).
#[local] Abbreviation below := (Forall (λ i, i < n)%nat).

(** From one state to the next. *)
Definition kept (w w' : W) : Prop := Inv w' ∧ ∀ i, Good i w → Good i w'.

Lemma kept_trans w1 w2 w3 : kept w1 w2 → kept w2 w3 → kept w1 w3.
Proof. intros [_ H1] [I H2]. split; eauto. Qed.

Lemma kept_good w w' l : kept w w' → Forall (λ i, Good i w) l → Forall (λ i, Good i w') l.
Proof. intros [_ H] F. eapply list.Forall_impl; [exact F|]. apply H. Qed.

Lemma insert_keeps set w r w' :
  Inv w → set ≠ [] → below set → run (insert set) w = (r, w') → kept w w' ∧ (∀ a, r = Worked a → Forall (λ i, Good i w') set).
Proof.
  intros I N B H. destruct (bounded_spec _ _ _ _ H) as [E Hok]. split.
  - destruct E as [->| ->]; [done|by apply (kp_insert _ _ _ _ K)].
  - intros [] ->. apply (kp_inserted _ _ _ _ K set w); [done..|by apply Hok].
Qed.

Lemma bisect_keeps fuel reason stack c d w r w' :
  Inv w → Forall below stack → Forall (λ s, s ≠ []) stack → Forall (λ i, Good i w) c →
  bisect now insert driver deadline fuel reason stack c d w = (r, w') →
  kept w w' ∧ (∀ c' d', r = Finished (Ok (c', d')) → Forall (λ i, Good i w') c').
Proof.
  revert stack c d w. induction fuel as [|fuel IH]; intros [|set stack] c d w I B F G H; cbn in H.
  1,3: injection H as <- <-; split; [by split|]; by intros c' d' [= <- <-].
  { by injection H as <- <-. }
  apply Forall_cons in F as [Hs F]. apply Forall_cons in B as [Bs B].
  destruct (run (insert set) w) as [a w1] eqn:E. destruct (insert_keeps _ _ _ _ I Hs Bs E) as [K1 Hok].
  destruct a as [a|e|err|]; try (by injection H as <- <-).
  - apply IH in H as [K2 H']; [|apply K1|done|done|].
    + split; [by apply (kept_trans _ w1)|done].
    + apply Forall_app. split; [by apply (kept_good w)|by apply (Hok a)].
  - destruct (on_failure reason set err d stack) as [d1 st1] eqn:Ef.
    destruct (on_failure_spec _ _ _ _ _ _ _ Ef Hs) as (_ & H2 & _ & H4).
    apply IH in H as [K2 H']; [|apply K1| |by apply H2|by apply (kept_good w)].
    + split; [by apply (kept_trans _ w1)|done].
    + apply list.Forall_forall. intros s Hin. destruct (H4 s Hin) as [Hs'|Hs'].
      * rewrite list.Forall_forall in B. by apply B.
      * apply list.Forall_forall. intros i Hi. rewrite list.Forall_forall in Bs. by apply Bs, Hs'.
Qed.
Lemma below_seq : below (seq 0 n).
Proof. apply list.Forall_forall. intros i Hi. apply elem_of_seq in Hi. lia. Qed.

(** What the lookup leaves: every row is known to be there or in the failed set. *)
Lemma resolve_keeps l first_dup w r w' :
  ids = Some l → length l = n → (1 ≤ n)%nat → Inv w →
  resolve_ids now insert lookup_present driver deadline n l first_dup w = (r, w') →
  kept w w' ∧ ∀ rs, r = Ok rs →
    rs_committed rs ++ from_option fst [] (rs_failure rs) ≡ₚ seq 0 n ∧ Forall (λ i, Good i w') (rs_committed rs) ∧
    from_option (λ p, fst p ≠ []) True (rs_failure rs).
Proof.
  intros El Hl Hn I H. unfold resolve_ids in H.
  destruct (run (lookup_present (seq 0 n)) w) as [a w1] eqn:E. destruct (bounded_spec _ _ _ _ E) as [Ew Hok].
  assert (K1 : kept w w1) by (destruct Ew as [->| ->]; [done|by apply (kp_lookup _ _ _ _ K)]).
  destruct a as [found|e|err|]; try (by injection H as <- <-).
  2:{ injection H as <- <-. split; [done|]. intros rs [= <-]. cbn. split; [done|]. split; [done|]. by destruct n; [lia|]. }
  cbv zeta in H. rewrite Hl in H. set (has := id_present l (map trim_end_padding found)) in *.
  set (cm := filter (λ i, has i = true) (seq 0 n)) in *. set (rm := filter (λ i, has i = false) (seq 0 n)) in *.
  assert (P : cm ++ rm ≡ₚ seq 0 n).
  { rewrite <-(filter_app_complement (λ i, has i = true) (seq 0 n)) at 1. unfold cm, rm. apply Permutation_app; [done|].
    erewrite list_filter_iff; [done|].
    intros i. cbv beta. by rewrite not_true_iff_false. }
  assert (B : below rm) by (pose proof below_seq as Bs; rewrite <-P in Bs; by apply Forall_app in Bs as [_ ?]).
  assert (G : Forall (λ i, Good i w1) cm).
  { apply list.Forall_forall. intros i [Hh Hi]%list_elem_of_filter. apply elem_of_seq in Hi. unfold has, id_present in Hh. b2p.
    apply (kp_found _ _ _ _ K l w found); [done|done|lia|by apply Hok|done]. }
  destruct rm as [|i rm'] eqn:Er.
  { injection H as <- <-. split; [done|]. intros rs [= <-]. cbn. done. }
  rewrite <-Er in *. destruct (run (insert rm) w1) as [a w2] eqn:E2.
  assert (Hrm : rm ≠ []) by (by rewrite Er). destruct (insert_keeps _ _ _ _ (proj1 K1) Hrm B E2) as [K2 Hok2].
  destruct a as [a|e|err|]; injection H as <- <-; (split; [by apply (kept_trans _ w1)|]); intros rs; try done; intros [= <-]; cbn.
  - rewrite app_nil_r. split; [done|]. split; [|done]. apply Forall_app. split; [by apply (kept_good w1)|by apply (Hok2 a)].
  - split; [done|]. split; [by apply (kept_good w1)|by rewrite Er].
Qed.
(** The answer is a partition of the batch by index, in batch order, in which every
    committed row is good. *)
Definition parted (rows : list bytes) (w : W) (cr : CommitResult) : Prop :=
  ∃ c d, c ++ map fst d ≡ₚ seq 0 n ∧ StronglySorted lt c ∧ StronglySorted lt (map fst d) ∧ Forall (λ i, Good i w) c ∧
    cr = mkCommitResult (map (λ i, rows !!! i) c) (map (λ d, (rows !!! fst d, snd d)) d).

Lemma rows_at_parted rows c d w :
  c ++ map fst d ≡ₚ seq 0 n → Forall (λ i, Good i w) c → parted rows w (rows_at rows c d).
Proof.
  intros P G. assert (N : NoDup (c ++ map fst d)) by (rewrite P; apply NoDup_seq).
  apply NoDup_app in N as (Nc & _ & Nd).
  exists (merge_sort (≤)%nat c), (merge_sort by_index d). rewrite merge_sort_by_index.
  split; [by rewrite !merge_sort_Permutation|]. split; [by apply merge_sort_indices|].
  split; [by apply merge_sort_indices|]. split; [by rewrite merge_sort_Permutation|done].
Qed.

Lemma seq_total (l : list bytes) : map (λ i, l !!! i) (seq 0 (length l)) = l.
Proof.
  apply list_eq. intros i. destruct (decide (i < length l)%nat) as [Hi|Hi].
  - rewrite list_lookup_fmap, lookup_seq_lt by done. cbn. by rewrite (list_lookup_lookup_total_lt l i Hi).
  - rewrite !lookup_ge_None_2; [done|lia|]. rewrite length_fmap, length_seq. lia.
Qed.

Lemma StronglySorted_seq k m : StronglySorted lt (seq k m).
Proof.
  revert k. induction m as [|m IH]; intros k; cbn; constructor; [apply IH|].
  apply list.Forall_forall. intros i Hi. apply elem_of_seq in Hi. lia.
Qed.

Lemma fallback_keeps rows w r w' :
  length rows = n → (1 ≤ n)%nat → from_option (λ l, length l = n) True ids → Inv w →
  insert_with_dup_fallback now insert lookup_present driver deadline rows ids w = (r, w') →
  kept w w' ∧ ∀ cr, r = Finished (Ok cr) → parted rows w' cr.
Proof.
  intros Hr Hn Hids I H. unfold insert_with_dup_fallback in H. rewrite Hr in H. cbv zeta in H.
  destruct (run (insert (seq 0 n)) w) as [a w1] eqn:E.
  assert (Hseq : seq 0 n ≠ []) by (by destruct n; [lia|]). destruct (insert_keeps _ _ _ _ I Hseq below_seq E) as [K1 Hok].
  destruct a as [a|e|[first_dup|e]|]; try (by injection H as <- <-).
  - injection H as <- <-. split; [done|]. intros cr [= <-]. exists (seq 0 n), []. cbn.
    split; [by rewrite app_nil_r|]. split; [apply StronglySorted_seq|]. split; [constructor|]. split; [by apply (Hok a)|].
    by rewrite <-Hr, seq_total.
  - destruct (match ids with Some l => _ | None => _ end) as [rs w2] eqn:Ers in H.
    assert (R : kept w w2 ∧ ∀ x, rs = Ok x → rs_committed x ++ from_option fst [] (rs_failure x) ≡ₚ seq 0 n ∧
      Forall (λ i, Good i w2) (rs_committed x) ∧ from_option (λ p, fst p ≠ []) True (rs_failure x)).
    { pose proof resolve_keeps as RK. destruct ids as [l|].
      - destruct (RK l _ _ _ _ eq_refl Hids Hn (proj1 K1) Ers) as [K2 H2]. split; [by apply (kept_trans _ w1)|done].
      - injection Ers as <- <-. split; [done|]. intros x [= <-]. cbn. split; [done|]. split; [done|]. by destruct n; [lia|]. }
    destruct R as [K2 R]. destruct rs as [x|[e|]]; try (by injection H as <- <-).
    destruct (R x eq_refl) as (P & G & Ne). destruct (rs_failure x) as [[tb failure]|]; cbn in P, Ne.
    + destruct (on_failure _ tb failure [] []) as [d st] eqn:Ef.
      destruct (on_failure_spec _ _ _ _ _ _ _ Ef Ne) as (_ & F & Pf & Hsub).
      destruct (bisect _ _ _ _ _ _ _ _ _ _) as [c w3] eqn:Eb.
      assert (Ft : Forall below st).
      { pose proof below_seq as B. rewrite <-P in B. apply Forall_app in B as [_ B].
        apply list.Forall_forall. intros s Hs. destruct (Hsub s Hs) as [Hn'|Hs']; [by apply not_elem_of_nil in Hn'|].
        apply list.Forall_forall. intros i Hi. rewrite list.Forall_forall in B. by apply B, Hs'. }
      destruct (bisect_keeps _ _ _ _ _ _ _ _ (proj1 K2) Ft (F (List.Forall_nil _)) G Eb) as [K3 G3].
      destruct c as [[[c d']|e]| |]; injection H as <- <-; (split; [by apply (kept_trans _ w2)|]); try done.
      intros cr [= <-]. apply rows_at_parted; [|by apply (G3 c d')].
      apply bisect_parts in Eb; [|apply F; constructor]. cbn in Pf. rewrite app_nil_r in Pf. by rewrite Eb, Pf.
    + injection H as <- <-. split; [done|]. intros cr [= <-]. by apply rows_at_parted.
  - injection H as <- <-. split; [done|]. intros cr [= <-]. exists [], (map (λ i, (i, sql_display e)) (seq 0 n)). cbn.
    rewrite map_map, map_id. split; [done|]. split; [constructor|]. split; [apply StronglySorted_seq|]. split; [done|].
    f_equal. rewrite map_map. cbn. rewrite <-Hr, <-(seq_total rows) at 1. by rewrite map_map.
Qed.
End Keeping.
(** ** What a commit costs *)

Section Counting.
Context (cost : W → nat).
Context (insert_costs : ∀ s w, (cost (snd (insert s w)) ≤ S (cost w))%nat).
Context (lookup_costs : ∀ s w, (cost (snd (lookup_present s w)) ≤ S (cost w))%nat).

Lemma bounded_cost {A} (stmt : W → Ran (result A StmtError) * W) w r w' :
  (cost (snd (stmt w)) ≤ S (cost w))%nat → run stmt w = (r, w') → (cost w' ≤ S (cost w))%nat.
Proof. intros H E. destruct (bounded_spec _ _ _ _ E) as [[->| ->] _]; lia. Qed.

Lemma bisect_cost fuel reason stack c d w r w' :
  Forall (λ s, s ≠ []) stack → bisect now insert driver deadline fuel reason stack c d w = (r, w') →
  (cost w' ≤ cost w + weight stack)%nat.
Proof.
  revert stack c d w. induction fuel as [|fuel IH]; intros [|set stack] c d w F H; cbn in H;
    try (injection H as <- <-; lia).
  apply Forall_cons in F as [Hs F]. destruct (run (insert set) w) as [a w1] eqn:E. apply bounded_cost in E; [|done].
  assert (1 ≤ 2 * length set - 1)%nat by (destruct set; [done|cbn [length]; lia]). rewrite weight_cons.
  destruct a as [a|e|err|]; try (injection H as <- <-; lia).
  - apply IH in H; [lia|done].
  - destruct (on_failure reason set err d stack) as [d1 st1] eqn:Ef.
    destruct (on_failure_spec _ _ _ _ _ _ _ Ef Hs) as (H1 & H2 & _). rewrite weight_cons in H1.
    apply IH in H; [lia|by apply H2].
Qed.

Lemma resolve_cost n ids first_dup w r w' :
  length ids = n → (1 ≤ n)%nat → resolve_ids now insert lookup_present driver deadline n ids first_dup w = (r, w') →
  (cost w' ≤ cost w + 2)%nat ∧ ∀ rs tb e, r = Ok rs → rs_failure rs = Some (tb, e) → tb ≠ [] ∧ (length tb ≤ n)%nat.
Proof.
  intros Hl Hn H. split.
  - unfold resolve_ids in H. destruct (run (lookup_present (seq 0 n)) w) as [a w1] eqn:E. apply bounded_cost in E; [|done].
    destruct a as [found|e|err|]; try (injection H as <- <-; lia). cbv zeta in H.
    destruct (filter _ _) as [|i rm] eqn:Er in H; [injection H as <- <-; lia|]. rewrite <-Er in H.
    destruct (run _ w1) as [a w2] eqn:E2 in H. apply bounded_cost in E2; [|done].
    destruct a; injection H as <- <-; lia.
  - assert (K : Kept n (Some ids) (λ _, True) (λ _ _, True)) by (constructor; try done; intros; by apply list.Forall_true).
    intros rs tb e -> E. destruct (resolve_keeps _ _ _ _ K ids _ _ _ _ eq_refl Hl Hn I H) as [_ R].
    destruct (R rs eq_refl) as (P & _ & Ne). rewrite E in P, Ne. cbn in P, Ne. split; [done|].
    apply Permutation_length in P. rewrite length_app, length_seq in P. lia.
Qed.

Lemma fallback_cost rows ids w r w' :
  rows ≠ [] → from_option (λ l, length l = length rows) True ids →
  insert_with_dup_fallback now insert lookup_present driver deadline rows ids w = (r, w') →
  r ≠ Unfinished ∧ (cost w' ≤ cost w + from_option (λ _, 2 * length rows + 1) (2 * length rows - 1) ids)%nat.
Proof.
  intros Hr Hids H. unfold insert_with_dup_fallback in H. cbv zeta in H. set (n := length rows) in *.
  assert (Hn : (1 ≤ n)%nat) by (unfold n; destruct rows; [done|cbn; lia]).
  assert (Hle : (1 ≤ from_option (λ _, 2 * n + 1) (2 * n - 1) ids)%nat) by (destruct ids; cbn; lia).
  destruct (run (insert (seq 0 n)) w) as [a w1] eqn:E. apply bounded_cost in E; [|done].
  destruct a as [a|e|[first_dup|e]|]; try (injection H as <- <-; split; [done|lia]).
  destruct (match ids with Some l => _ | None => _ end) as [rs w2] eqn:Ers in H.
  assert (R : (cost w2 ≤ cost w1 + from_option (λ _, 2) 0 ids)%nat ∧
    ∀ x tb e, rs = Ok x → rs_failure x = Some (tb, e) → tb ≠ [] ∧ (length tb ≤ n)%nat).
  { destruct ids as [l|]; [by apply resolve_cost in Ers|]. injection Ers as <- <-. split; [cbn; lia|].
    intros x tb e [= <-] [= <- _]. rewrite length_seq. split; [by destruct n; [lia|]|done]. }
  destruct R as [Hc R].
  assert (Hle2 : (1 + from_option (λ _, 2) 0 ids + (2 * n - 2) ≤ from_option (λ _, 2 * n + 1) (2 * n - 1) ids)%nat)
    by (destruct ids; cbn; lia).
  destruct rs as [x|[e|]]; try (injection H as <- <-; split; [done|lia]).
  destruct (rs_failure x) as [[tb failure]|] eqn:Ef; [|injection H as <- <-; split; [done|lia]].
  destruct (R x tb failure eq_refl Ef) as [Ne Hlen].
  destruct (on_failure _ tb failure [] []) as [d st] eqn:Eo.
  destruct (on_failure_spec _ _ _ _ _ _ _ Eo Ne) as (Hw & F & _). rewrite weight_cons in Hw.
  specialize (F (List.Forall_nil _)). change (weight []) with O in Hw.
  destruct (bisect _ _ _ _ _ _ _ _ _ _) as [c w3] eqn:Eb.
  pose proof (bisect_cost _ _ _ _ _ _ _ _ F Eb) as Hb.
  pose proof (bisect_ends (2 * n) (dup_reason (bool_decide (is_Some ids)) (rs_lookup_failed x)) st (rs_committed x) d w2 F ltac:(lia)) as Hend.
  rewrite Eb in Hend. destruct c as [[[c d']|e]| |]; injection H as <- <-; (split; [done|lia]).
Qed.

(** C18: resolving duplicate keys. A commit of a nonempty batch by a SQL sink, whatever its
    statements answer: the loop of the bisection ends, after at most [2n + 1] statements
    when the batch has identifiers and [2n - 1] when it has none. An answer [Ok] splits the
    batch by index, both halves in batch order, no row lost and none twice, and a row it
    calls committed has whatever the server gives a row that a statement inserted or a
    lookup found (for any such property that later statements keep). *)
Theorem dup_fallback_resolves rows ids Inv Good w :
  rows ≠ [] → from_option (λ l, length l = length rows) True ids → Kept (length rows) ids Inv Good → Inv w →
  let '(r, w') := insert_with_dup_fallback now insert lookup_present driver deadline rows ids w in
  r ≠ Unfinished ∧ (∀ cr, r = Finished (Ok cr) → parted (length rows) Good rows w' cr) ∧ Inv w' ∧
  (cost w' ≤ cost w + from_option (λ _, 2 * length rows + 1) (2 * length rows - 1) ids)%nat.
Proof.
  intros Hr Hids K I. destruct (insert_with_dup_fallback _ _ _ _ _ _ _ _) as [r w'] eqn:E.
  destruct (fallback_cost _ _ _ _ _ Hr Hids E) as [H1 H2].
  destruct (fallback_keeps _ _ _ _ K rows w r w' eq_refl) as [[H3 _] H4]; [by destruct rows; [|cbn; lia]|done..|].
  by split_and!.
Qed.
End Counting.
(** ** Row by row *)

(** The reference: the rows are inserted one at a time, in order, and the refused ones are
    dead-lettered. *)
Fixpoint one_by_one (reason : bytes → bytes) (set : list nat) (w : W) : list nat * list (nat * bytes) * W :=
  match set with
  | [] => ([], [], w)
  | i :: set =>
    match insert [i] w with
    | (Completed (Ok _), w) => let '(c, d, w) := one_by_one reason set w in (i :: c, d, w)
    | (Completed (Err err), w) =>
      let '(c, d, w) := one_by_one reason set w in
      (c, (i, match err with DupKey msg => reason msg | StmtOther e => sql_display e end) :: d, w)
    | (_, w) => ([], [], w)
    end
  end.

(** A table that refuses nothing but duplicate keys, in time: a refused statement changes
    nothing, and one that succeeds is the same as its rows in two statements. *)
Record Unique : Prop := mkUnique {
  uq_in_time w : now w < deadline;
  uq_insert s w : (∃ w', insert s w = (Completed (Ok tt), w')) ∨ (∃ msg, insert s w = (Completed (Err (DupKey msg)), w));
  uq_split l r w w' : l ≠ [] → r ≠ [] → insert (l ++ r) w = (Completed (Ok tt), w') →
    ∃ w1, insert l w = (Completed (Ok tt), w1) ∧ insert r w1 = (Completed (Ok tt), w');
}.

Section RowByRow.
Context (U : Unique) (reason : bytes → bytes).

Lemma run_insert s w :
  (∃ w', insert s w = (Completed (Ok tt), w') ∧ run (insert s) w = (Worked tt, w')) ∨
  (∃ msg, insert s w = (Completed (Err (DupKey msg)), w) ∧ run (insert s) w = (Refuses (DupKey msg), w)).
Proof.
  unfold bounded. pose proof (uq_in_time U w). destruct (deadline <=? now w) eqn:E; [b2p; lia|].
  destruct (uq_insert U s w) as [(w' & Ew)|(msg & Ew)]; rewrite Ew; eauto.
Qed.

Lemma one_by_one_app s t w :
  one_by_one reason (s ++ t) w =
  let '(c1, d1, w1) := one_by_one reason s w in let '(c2, d2, w2) := one_by_one reason t w1 in (c1 ++ c2, d1 ++ d2, w2).
Proof.
  revert w. induction s as [|i s IH]; intros w; cbn; [by destruct (one_by_one reason t w) as [[c d] w1]|].
  destruct (uq_insert U [i] w) as [(w' & ->)|(msg & ->)]; rewrite IH;
    by destruct (one_by_one reason s _) as [[c1 d1] w1]; destruct (one_by_one reason t w1) as [[c2 d2] w2].
Qed.

(** A statement that succeeds inserts its rows one after the other. *)
Lemma inserted_one_by_one s w w' : s ≠ [] → insert s w = (Completed (Ok tt), w') → one_by_one reason s w = (s, [], w').
Proof.
  revert w. induction s as [|i [|j s] IH]; intros w Hs H; [done|cbn; by rewrite H|].
  destruct (uq_split U [i] (j :: s) w w' ltac:(done) ltac:(done) H) as (w1 & H1 & H2).
  specialize (IH w1 ltac:(done) H2). revert IH. generalize (j :: s). intros t IH. cbn. by rewrite H1, IH.
Qed.

Lemma bisect_one_by_one fuel stack c d w :
  Forall (λ s, s ≠ []) stack → (weight stack ≤ fuel)%nat →
  bisect now insert driver deadline fuel reason stack c d w =
  let '(c', d', w') := one_by_one reason (concat stack) w in (Finished (Ok (c ++ c', d ++ d')), w').
Proof.
  revert stack c d w. induction fuel as [|fuel IH]; intros [|set stack] c d w F Hw; try (by cbn; rewrite !app_nil_r);
    apply Forall_cons in F as [Hs F]; rewrite weight_cons in Hw.
  { destruct set; [done|]. cbn [length] in Hw. lia. }
  cbn [bisect]. destruct (run_insert set w) as [(w' & Ei & ->)|(msg & Ei & ->)].
  - rewrite IH; [|done|destruct set; [done|cbn [length] in Hw; lia]].
    cbn [concat]. rewrite one_by_one_app, (inserted_one_by_one set w w' Hs Ei).
    destruct (one_by_one reason (concat stack) w') as [[c' d'] w2]. by rewrite <-app_assoc.
  - destruct (on_failure reason set (DupKey msg) d stack) as [d1 st1] eqn:Ef.
    destruct (on_failure_spec _ _ _ _ _ _ _ Ef Hs) as (H1 & H2 & _). rewrite weight_cons in H1.
    rewrite IH; [|by apply H2|lia]. destruct set as [|i [|j set]]; [done| |].
    + injection Ef as <- <-. cbn [concat app one_by_one]. rewrite Ei.
      destruct (one_by_one reason (concat stack) w) as [[c' d'] w2]. by rewrite <-app_assoc.
    + unfold on_failure in Ef. injection Ef as <- <-. cbn [concat].
      by rewrite (app_assoc (take _ _)), take_drop.
Qed.

(** What is inserted row by row is in batch order. *)
Lemma one_by_one_order s w :
  StronglySorted lt s →
  let '(c, d, _) := one_by_one reason s w in
  StronglySorted lt c ∧ StronglySorted lt (map fst d) ∧ c ⊆ s ∧ map fst d ⊆ s.
Proof.
  intros S. revert w. induction S as [|i s S IH F]; intros w; [by repeat constructor|]. cbn.
  rewrite list.Forall_forall in F.
  destruct (uq_insert U [i] w) as [(w' & ->)|(msg & ->)].
  - specialize (IH w'). destruct (one_by_one reason s w') as [[c d] w2]. destruct IH as (H1 & H2 & H3 & H4).
    split_and!; [constructor; [done|]|done|set_solver|set_solver]. apply list.Forall_forall. auto.
  - specialize (IH w). destruct (one_by_one reason s w) as [[c d] w2]. destruct IH as (H1 & H2 & H3 & H4).
    split_and!; [done|cbn; constructor; [done|]|set_solver|cbn; set_solver]. apply list.Forall_forall. auto.
Qed.
End RowByRow.

Lemma sorted_pairs d : StronglySorted lt (map fst d) → merge_sort by_index d = d.
Proof.
  intros S.
  assert (Sd : StronglySorted by_index d).
  { induction d as [|x d IH]; [constructor|]. cbn in S. inversion_clear S as [|? ? S' F]. constructor; [by apply IH|].
    apply list.Forall_forall. intros y Hy. rewrite list.Forall_forall in F. unfold by_index.
    apply Nat.lt_le_incl, F. by apply list_elem_of_fmap_2. }
  apply (Sorted_unique_strong by_index); [| |by apply StronglySorted_Sorted|apply merge_sort_Permutation].
  - intros x y Hx Hy Hxy Hyx. rewrite merge_sort_Permutation in Hx. unfold by_index in *.
    assert (E : fst x = fst y) by lia. apply list_elem_of_lookup in Hx as [i Hi], Hy as [j Hj].
    assert (N : NoDup (map fst d)) by by apply sorted_NoDup.
    assert (i = j) as ->; [|by simplify_eq].
    eapply (NoDup_lookup _ i j (fst x) N); rewrite list_lookup_fmap; [by rewrite Hi|rewrite Hj; cbn; by rewrite E].
  - apply Sorted_merge_sort, _.
Qed.

(** C17: bisection equals insertion row by row. On a table that refuses a statement only for
    a duplicate key, a batch without identifiers is committed by halving the sets that are
    refused, and the answer, the reasons and the table are those of inserting the rows one
    at a time in batch order: a row is dead-lettered exactly when its own key is taken by
    the rows before it. *)
Theorem bisection_is_row_by_row rows w :
  Unique → rows ≠ [] →
  insert_with_dup_fallback now insert lookup_present driver deadline rows None w =
  let '(c, d, w') := one_by_one (dup_reason false None) (seq 0 (length rows)) w in
  (Finished (Ok (mkCommitResult (map (λ i, rows !!! i) c) (map (λ d, (rows !!! fst d, snd d)) d))), w').
Proof.
  intros U Hr. unfold insert_with_dup_fallback. cbv zeta. set (s := seq 0 (length rows)). set (reason := dup_reason false None).
  assert (Hs : s ≠ []) by (unfold s; by destruct rows).
  destruct (run_insert U s w) as [(w' & Ei & ->)|(msg & Ei & ->)].
  { rewrite (inserted_one_by_one U reason s w w' Hs Ei). unfold s. cbn. by rewrite seq_total. }
  cbn [rs_failure rs_committed rs_lookup_failed]. rewrite bool_decide_false by (intros [? [=]]). fold reason.
  destruct (on_failure reason s (DupKey msg) [] []) as [d st] eqn:Ef.
  destruct (on_failure_spec _ _ _ _ _ _ _ Ef Hs) as (H1 & H2 & _). rewrite weight_cons in H1. change (weight []) with O in H1.
  assert (Hlen : length s = length rows) by apply length_seq.
  rewrite (bisect_one_by_one U); [|apply H2; constructor|lia].
  pose proof (one_by_one_order U reason s w (StronglySorted_seq _ _)) as O.
  assert (E : one_by_one reason s w = let '(c', d', w') := one_by_one reason (concat st) w in (c', d ++ d', w')).
  { unfold s in *. destruct rows as [|r0 [|r1 rows]]; [done| |].
    - injection Ef as <- <-. cbn in Ei |- *. by rewrite Ei.
    - unfold on_failure in Ef. cbn [length seq] in Ef. injection Ef as <- <-. cbn [concat app].
      rewrite app_nil_r, take_drop. by destruct (one_by_one _ _ _) as [[c1 d1] w1]. }
  rewrite E in O |- *. destruct (one_by_one reason (concat st) w) as [[c' d'] w']. destruct O as (O1 & O2 & _).
  unfold rows_at. cbn [app]. by rewrite merge_sort_sorted, sorted_pairs.
Qed.
End Laws.

(** A table of distinct payloads that counts its statements. *)
Module TableWitness.
Definition table : Type := nat * list bytes.
Definition row (rows : list bytes) (i : nat) : bytes := rows !!! i.
Definition insert (rows : list bytes) (set : list nat) (w : table) : Ran (result unit StmtError) * table :=
  let '(n, t) := w in
  if bool_decide (NoDup (t ++ map (row rows) set)) then (Completed (Ok tt), (S n, t ++ map (row rows) set))
  else (Completed (Err (DupKey (bstr "taken"))), (S n, t)).
Definition lookup_present (rows : list bytes) (set : list nat) (w : table) : Ran (result (list bytes) StmtError) * table :=
  let '(n, t) := w in (Completed (Ok (filter (λ r, r ∈ t) (map (row rows) set))), (S n, t)).
Definition batch : list bytes := [bstr "a"; bstr "b"; bstr "c"].
Definition start : table := (O, [bstr "b"]).

Lemma batch_kept : Kept (insert batch) (lookup_present batch) 3 (Some batch) (λ _, True) (λ i w, row batch i ∈ snd w).
Proof.
  constructor.
  - intros set [n t] _ _ _. cbn. case_bool_decide; cbn; set_solver.
  - intros [n t] _. cbn. done.
  - intros set [n t] w' _ _ _. cbn. case_bool_decide; intros [= <-]. cbn. apply list.Forall_forall. intros i Hi.
    apply elem_of_app. right. by apply list_elem_of_fmap_2.
  - intros l [n t] found w' i [= <-] _ Hi [= <- <-] H. cbn [snd].
    apply list_elem_of_fmap in H as (f & Ef & Hf). apply list_elem_of_filter in Hf as [Ht Hf].
    assert (E : trim_end_padding f = f).
    { change (f ∈ batch) in Hf. unfold batch in Hf. rewrite !elem_of_cons, elem_of_nil in Hf.
      by destruct Hf as [->|[->|[->|[]]]]. }
    rewrite E in Ef. unfold row. by rewrite Ef.
Qed.

(** Three rows of which one is there: the lookup finds it, the rest goes in one statement. *)
Lemma dup_fallback_resolves_witness :
  let '(r, w') := insert_with_dup_fallback (λ _, 0) (insert batch) (lookup_present batch) (bstr "table") 1 batch (Some batch) start in
  r = Finished (Ok (mkCommitResult batch [])) ∧ fst w' = 3%nat ∧ (fst w' ≤ 7)%nat.
Proof.
  pose proof (dup_fallback_resolves (λ _, 0) (insert batch) (lookup_present batch) (bstr "table") 1 fst) as H.
  assert (H1 : ∀ s w, (fst (snd (insert batch s w)) ≤ S (fst w))%nat) by (intros s [n t]; cbn; by case_bool_decide).
  assert (H2 : ∀ s w, (fst (snd (lookup_present batch s w)) ≤ S (fst w))%nat) by (by intros s [n t]).
  specialize (H H1 H2 batch (Some batch) (λ _, True) (λ i w, row batch i ∈ snd w) start ltac:(done) eq_refl batch_kept I).
  revert H. vm_compute insert_with_dup_fallback. intros (_ & _ & _ & H). split; [done|]. split; [done|exact H].
Defined.

(** The table without the counter. *)
Definition insert_plain (rows : list bytes) (set : list nat) (t : list bytes) : Ran (result unit StmtError) * list bytes :=
  if bool_decide (NoDup (t ++ map (row rows) set)) then (Completed (Ok tt), t ++ map (row rows) set)
  else (Completed (Err (DupKey (bstr "taken"))), t).
Definition lookup_none (set : list nat) (t : list bytes) : Ran (result (list bytes) StmtError) * list bytes :=
  (Completed (Ok []), t).

Lemma plain_unique rows : Unique (λ _, 0) (insert_plain rows) 1.
Proof.
  constructor; [done| |]; unfold insert_plain.
  - intros s t. case_bool_decide; eauto.
  - intros l r t t' _ _. rewrite map_app, app_assoc. case_bool_decide as N; intros [= <-].
    exists (t ++ map (row rows) l). rewrite bool_decide_true by by apply NoDup_app in N as [N _].
    rewrite bool_decide_true by done. done.
Qed.

Definition repeats : list bytes := [bstr "a"; bstr "b"; bstr "a"; bstr "c"; bstr "d"].

(** Five rows, one in the table and one repeated: both are dead-lettered, the rest is
    inserted. *)
Lemma bisection_is_row_by_row_witness :
  let '(r, t) := insert_with_dup_fallback (λ _, 0) (insert_plain repeats) lookup_none (bstr "table") 1 repeats None [bstr "b"] in
  r = Finished (Ok (mkCommitResult [bstr "a"; bstr "c"; bstr "d"]
    [(bstr "b", bstr "duplicate key (insert_mode=plain, no id_column): taken");
     (bstr "a", bstr "duplicate key (insert_mode=plain, no id_column): taken")])) ∧
  t = [bstr "b"; bstr "a"; bstr "c"; bstr "d"].
Proof.
  rewrite (bisection_is_row_by_row _ _ _ _ _ repeats _ (plain_unique repeats)) by done. vm_compute. done.
Defined.
End TableWitness.
