(* ===== verification/SqlText.v ===== *)
(** * Reading SQL

    How a server reads the two statements the SQL sinks write, as far as they go: quoted
    identifiers, words, positional parameters and punctuation, and from these the table,
    the columns and the parameters of an [INSERT] or of the lookup. The reading knows
    nothing of how the statements are built: [Mysql] and [Postgres] show that their texts
    read back as what they mean. *)

From Stdlib Require Import ZArith Lia Strings.Byte String.
From stdpp Require Import base list option.
From S2P Require Import Prelude Deps Text S3Key Redact Sink SqlCommon.

(** ** Tokens *)

Inductive Token :=
| TWord (w : bytes)
| TIdent (s : bytes)
| TMark
| TParam (k : Z)
| TLParen | TRParen | TComma | TEq
| TBad.

#[global] Instance token_eq_dec : EqDecision Token.
Proof. solve_decision. Defined.

(** Where the reader is: between tokens, in a word, after a dollar sign, in a quoted
    identifier, or behind a quote that closes it unless it is doubled. *)
Inductive LexState := Idle | InWord (acc : bytes) | InParam (acc : bytes) | InQuote (acc : bytes) | Closing (acc : bytes).

Definition is_word (b : byte) : bool := is_ascii_alphanumeric b || bool_decide (b = x5f).

Section Lexer.
Context (quote : byte).

Definition lex_idle (b : byte) : list Token * LexState :=
  if bool_decide (b = x20) then ([], Idle)
  else if bool_decide (b = quote) then ([], InQuote [])
  else if bool_decide (b = x28) then ([TLParen], Idle)
  else if bool_decide (b = x29) then ([TRParen], Idle)
  else if bool_decide (b = x2c) then ([TComma], Idle)
  else if bool_decide (b = x3d) then ([TEq], Idle)
  else if bool_decide (b = x3f) then ([TMark], Idle)
  else if bool_decide (b = x24) then ([], InParam [])
  else if is_word b then ([], InWord [b])
  else ([TBad], Idle).

(** A token that ends where [b] begins something else. *)
Definition lex_after (t : Token) (b : byte) : list Token * LexState := let '(ts, st) := lex_idle b in (t :: ts, st).

Definition lex_step (st : LexState) (b : byte) : list Token * LexState :=
  match st with
  | Idle => lex_idle b
  | InWord acc => if is_word b then ([], InWord (acc ++ [b])) else lex_after (TWord acc) b
  | InParam acc => if is_digit b then ([], InParam (acc ++ [b])) else lex_after (TParam (dec_val acc)) b
  | InQuote acc => if bool_decide (b = quote) then ([], Closing acc) else ([], InQuote (acc ++ [b]))
  | Closing acc => if bool_decide (b = quote) then ([], InQuote (acc ++ [quote])) else lex_after (TIdent acc) b
  end.

Fixpoint lex_run (st : LexState) (s : bytes) : list Token * LexState :=
  match s with
  | [] => ([], st)
  | b :: s => let '(ts, st) := lex_step st b in let '(ts', st) := lex_run st s in (ts ++ ts', st)
  end.

Definition lex_end (st : LexState) : list Token :=
  match st with
  | Idle => []
  | InWord acc => [TWord acc]
  | InParam acc => [TParam (dec_val acc)]
  | InQuote _ => [TBad]
  | Closing acc => [TIdent acc]
  end.

(** Unnumbered marks are numbered from left to right. *)
Fixpoint number_marks (k : Z) (ts : list Token) : list Token :=
  match ts with
  | [] => []
  | TMark :: ts => TParam k :: number_marks (k + 1) ts
  | t :: ts => t :: number_marks k ts
  end.

Definition tokens (s : bytes) : list Token := let '(ts, st) := lex_run Idle s in number_marks 1 (ts ++ lex_end st).
End Lexer.

(** ** Statements *)

(** [INSERT]: whether rows whose key is taken are skipped, the table, its columns, and for
    each row the parameters of its values. *)
Record InsertStmt := mkInsert { in_skip : bool; in_table : bytes; in_columns : list bytes; in_rows : list (list Z) }.

(** The lookup: the column that is selected and compared, the table, and the parameters it
    is compared with, one by one or as the elements of one array. *)
Record LookupStmt := mkLookup { lk_column : bytes; lk_table : bytes; lk_params : list Z; lk_array : bool }.

Definition expect (t : Token) (ts : list Token) : option (list Token) :=
  match ts with t' :: ts => if bool_decide (t = t') then Some ts else None | [] => None end.
Definition expect_word (w : string) : list Token → option (list Token) := expect (TWord (bstr w)).
Definition identifier (ts : list Token) : option (bytes * list Token) :=
  match ts with TIdent s :: ts => Some (s, ts) | _ => None end.

(** Columns up to the closing parenthesis. *)
Fixpoint columns (ts : list Token) : option (list bytes * list Token) :=
  match ts with
  | TIdent c :: TRParen :: ts => Some ([c], ts)
  | TIdent c :: TComma :: ts => '(cs, ts) ← columns ts; Some (c :: cs, ts)
  | _ => None
  end.

Inductive ValuesState := VOpen | VParam (acc : list Z) | VNext (acc : list Z) | VClosed.

(** Rows of parameters in parentheses. *)
Fixpoint values (st : ValuesState) (rows : list (list Z)) (ts : list Token) : option (list (list Z) * list Token) :=
  match ts with
  | [] => match st with VClosed => Some (rows, []) | _ => None end
  | t :: ts' =>
    match st, t with
    | VOpen, TLParen => values (VParam []) rows ts'
    | VParam acc, TParam k => values (VNext (acc ++ [k])) rows ts'
    | VNext acc, TComma => values (VParam acc) rows ts'
    | VNext acc, TRParen => values VClosed (rows ++ [acc]) ts'
    | VClosed, TComma => values VOpen rows ts'
    | VClosed, _ => Some (rows, ts)
    | _, _ => None
    end
  end.

Definition ON_CONFLICT : list Token := map (λ w, TWord (bstr w)) ["ON"; "CONFLICT"; "DO"; "NOTHING"]%string.

Definition read_insert (ts : list Token) : option InsertStmt :=
  ts ← expect_word "INSERT" ts;
  let '(ignore, ts) := match expect_word "IGNORE" ts with Some ts => (true, ts) | None => (false, ts) end in
  ts ← expect_word "INTO" ts;
  '(table, ts) ← identifier ts;
  ts ← expect TLParen ts;
  '(cols, ts) ← columns ts;
  ts ← expect_word "VALUES" ts;
  '(rows, ts) ← values VOpen [] ts;
  if bool_decide (ts = []) then Some (mkInsert ignore table cols rows)
  else if bool_decide (ts = ON_CONFLICT) then Some (mkInsert true table cols rows)
  else None.

Definition read_lookup (ts : list Token) : option LookupStmt :=
  ts ← expect_word "SELECT" ts;
  '(col, ts) ← identifier ts;
  ts ← expect_word "FROM" ts;
  '(table, ts) ← identifier ts;
  ts ← expect_word "WHERE" ts;
  '(col', ts) ← identifier ts;
  if bool_decide (col = col') then
    match expect TEq ts with
    | Some ts => ts ← expect_word "ANY" ts; '(rows, ts) ← values VOpen [] ts;
                 match rows, ts with [[k]], [] => Some (mkLookup col table [k] true) | _, _ => None end
    | None => ts ← expect_word "IN" ts; '(rows, ts) ← values VOpen [] ts;
              match rows, ts with [ks], [] => Some (mkLookup col table ks false) | _, _ => None end
    end
  else None.

(** ** Reading what was written *)

Section Reading.
Context (quote : byte).

Lemma lex_app st s t :
  lex_run quote st (s ++ t) = let '(ts, st1) := lex_run quote st s in let '(ts', st2) := lex_run quote st1 t in (ts ++ ts', st2).
Proof.
  revert st. induction s as [|b s IH]; intros st; cbn; [by destruct (lex_run quote st t)|].
  destruct (lex_step quote st b) as [ts1 st1]. rewrite IH. destruct (lex_run quote st1 s) as [ts2 st2].
  destruct (lex_run quote st2 t) as [ts3 st3]. by rewrite app_assoc.
Qed.

(** Inside quotes, everything but a quote is the identifier. *)
Lemma lex_quoted acc s : quote ∉ s → lex_run quote (InQuote acc) s = ([], InQuote (acc ++ s)).
Proof.
  revert acc. induction s as [|b s IH]; intros acc H; [by rewrite app_nil_r|].
  apply not_elem_of_cons in H as [Hb Hs]. cbn. rewrite bool_decide_false by done. rewrite IH by done. by rewrite <-app_assoc.
Qed.

End Reading.

(** A text between quotes, up to the quote that closes it. *)
Lemma lex_ident quote st s :
  quote ∉ s → lex_run quote (InQuote st) (s ++ [quote]) = ([], Closing (st ++ s)).
Proof. intros H. rewrite lex_app, lex_quoted by done. cbn. by rewrite bool_decide_true. Qed.

(** A number behind a dollar sign. *)
Lemma lex_param quote acc s : forallb is_digit s = true → lex_run quote (InParam acc) s = ([], InParam (acc ++ s)).
Proof.
  revert acc. induction s as [|b s IH]; intros acc H; [by rewrite app_nil_r|].
  cbn in H. apply andb_true_iff in H as [Hb Hs]. cbn. rewrite Hb, IH by done. by rewrite <-app_assoc.
Qed.

(** Texts between tokens, joined by a comma and a space. *)
Fixpoint comma_tokens (l : list (list Token)) : list Token :=
  match l with
  | [] => []
  | [x] => x
  | x :: l => x ++ TComma :: comma_tokens l
  end.

Lemma comma_tokens_cons x y l : comma_tokens (x :: y :: l) = x ++ TComma :: comma_tokens (y :: l).
Proof. reflexivity. Qed.

Lemma lex_comma quote : quote ≠ x20 → quote ≠ x2c → lex_run quote Idle (bstr ", ") = ([TComma], Idle).
Proof.
  intros H1 H2. cbn. unfold lex_idle. rewrite (bool_decide_false (x2c = x20)), (bool_decide_false (x2c = quote)) by (by auto).
  done.
Qed.

Lemma lex_join quote ps tss :
  quote ≠ x20 → quote ≠ x2c → Forall2 (λ p ts, lex_run quote Idle p = (ts, Idle)) ps tss →
  lex_run quote Idle (join_with (bstr ", ") ps) = (comma_tokens tss, Idle).
Proof.
  intros H1 H2. induction 1 as [|p ts ps tss Hp F IH]; [done|].
  destruct F as [|p' ts' ps tss Hp' F]; [done|].
  by rewrite join_with_cons, comma_tokens_cons, lex_app, Hp, lex_app, lex_comma, IH.
Qed.

(** Rows of numbered parameters. *)
Definition row_tokens (ks : list Z) : list Token := TLParen :: comma_tokens (map (λ k, [TParam k]) ks) ++ [TRParen].
Definition rows_tokens (rows : list (list Z)) : list Token := comma_tokens (map row_tokens rows).

Lemma values_row ks acc rows rest :
  ks ≠ [] →
  values (VParam acc) rows (comma_tokens (map (λ k, [TParam k]) ks) ++ TRParen :: rest) = values VClosed (rows ++ [acc ++ ks]) rest.
Proof.
  revert acc. induction ks as [|k [|k' ks] IH]; intros acc H; [done|done|].
  cbn [map]. rewrite comma_tokens_cons. cbn [app values]. cbn [map] in IH. rewrite IH by done. by rewrite <-app_assoc.
Qed.

Lemma values_rows rs rows rest :
  rs ≠ [] → Forall (λ ks, ks ≠ []) rs → values VOpen rows (rows_tokens rs ++ rest) = values VClosed (rows ++ rs) rest.
Proof.
  intros Hne F. revert rows Hne. induction F as [|ks rs Hk F IH]; intros rows Hne; [done|].
  unfold rows_tokens. destruct rs as [|ks' rs]; cbn [map].
  - cbn [comma_tokens]. unfold row_tokens. cbn [app values]. rewrite <-app_assoc. cbn [app].
    by rewrite values_row.
  - rewrite comma_tokens_cons. unfold row_tokens at 1. cbn [app values]. rewrite <-!app_assoc. cbn [app].
    rewrite values_row by done. cbn [values]. unfold rows_tokens in IH. cbn [map] in IH. rewrite IH by done.
    by rewrite <-app_assoc.
Qed.

(** Marks are numbered where they stand. *)
Definition marks (ts : list Token) : Z := blen (filter (λ t, t = TMark) ts).

Lemma number_marks_app k ts us : number_marks k (ts ++ us) = number_marks k ts ++ number_marks (k + marks ts) us.
Proof.
  revert k. induction ts as [|t ts IH]; intros k; unfold marks in *; cbn [app number_marks]; [by rewrite Z.add_0_r|].
  rewrite filter_cons. destruct (decide (t = TMark)) as [->|Ht].
  - rewrite IH, blen_cons. cbn [app]. do 2 f_equal. f_equal. lia.
  - by destruct t; rewrite ?IH.
Qed.

(** The parameters of [n] rows of one, respectively two values. *)
Fixpoint single_rows (k : Z) (n : nat) : list (list Z) :=
  match n with O => [] | S n => [k] :: single_rows (k + 1) n end.
Fixpoint paired_rows (k : Z) (n : nat) : list (list Z) :=
  match n with O => [] | S n => [k; k + 1] :: paired_rows (k + 2) n end.

Lemma number_rows (row : list Token) (ks : Z → list Z) (rows : Z → nat → list (list Z)) d :
  (∀ k, number_marks k row = row_tokens (ks k)) → marks row = d → (∀ k, rows k O = []) →
  (∀ k n, rows k (S n) = ks k :: rows (k + d) n) →
  ∀ n k, number_marks k (comma_tokens (replicate n row)) = rows_tokens (rows k n).
Proof.
  intros H1 H2 H3 H4. induction n as [|n IH]; intros k; [by rewrite H3|]. rewrite H4. unfold rows_tokens in *.
  destruct n as [|n]; [cbn; rewrite H3; apply H1|]. specialize (IH (k + d)). rewrite H4 in IH |- *. cbn [replicate map] in *.
  rewrite !comma_tokens_cons, number_marks_app, H1, H2. f_equal. cbn [number_marks]. f_equal. exact IH.
Qed.

Lemma number_single n k : number_marks k (comma_tokens (replicate n [TLParen; TMark; TRParen])) = rows_tokens (single_rows k n).
Proof. by apply (number_rows _ (λ k, [k]) single_rows 1). Qed.

Lemma number_paired n k :
  number_marks k (comma_tokens (replicate n [TLParen; TMark; TComma; TMark; TRParen])) = rows_tokens (paired_rows k n).
Proof. by apply (number_rows _ (λ k, [k; k + 1]) paired_rows 2). Qed.

Lemma rows_nonempty n k :
  Forall (λ ks, ks ≠ []) (single_rows k n) ∧ Forall (λ ks, ks ≠ []) (paired_rows k n).
Proof. split; revert k; induction n as [|n IH]; intros k; cbn; by constructor. Qed.

(** Pieces of a text, one after the other. *)
Lemma lex_piece quote st s t ts st1 ts' st2 :
  lex_run quote st s = (ts, st1) → lex_run quote st1 t = (ts', st2) → lex_run quote st (s ++ t) = (ts ++ ts', st2).
Proof. intros H1 H2. by rewrite lex_app, H1, H2. Qed.

Lemma lex_ident_piece quote s p t ts1 st1 ts2 st2 :
  quote ∉ s → p = quote :: tail p → lex_run quote (Closing s) (tail p) = (ts1, st1) → lex_run quote st1 t = (ts2, st2) →
  lex_run quote (InQuote []) (s ++ p ++ t) = (ts1 ++ ts2, st2).
Proof.
  intros H1 -> H2 H3. cbn [app]. change (quote :: tail p ++ t) with ([quote] ++ tail p ++ t). rewrite app_assoc.
  eapply (lex_piece _ _ _ _ []); [by rewrite lex_ident|]. by eapply lex_piece.
Qed.

(** Read a text of constants, quoted identifiers and one known piece [R]. *)
Ltac lex_pieces R :=
  repeat first [exact R | eapply lex_ident_piece; [eassumption|reflexivity|reflexivity|] | eapply lex_piece; [first [exact R | reflexivity]|]].

(** A validated identifier has no quote in it. *)
Lemma validated_word field value max q : validate_identifier field value max = Ok tt → is_word q = false → q ∉ value.
Proof.
  intros H Hq Hin. destruct value as [|b rest]; [done|]. cbn in H. destruct (_ <? _); [done|].
  assert (W : Forall (λ b, is_word b = true) (b :: rest)).
  { constructor.
    - destruct (is_ascii_alphabetic b || bool_decide (b = x5f)) eqn:E; [|done]. unfold is_word, is_ascii_alphanumeric.
      apply orb_true_iff in E as [->| ->]; [done|by rewrite orb_true_r].
    - destruct (negb _); [done|]. destruct (forallb _ rest) eqn:E; [|done]. rewrite forallb_forall in E.
      apply list.Forall_forall. intros x Hx. apply E, list_elem_of_In, Hx. }
  rewrite list.Forall_forall in W. specialize (W q Hin). congruence.
Qed.

Lemma expect_same t ts : expect t (t :: ts) = Some ts.
Proof. cbn. by rewrite bool_decide_true. Qed.

Lemma expect_other t t' ts : t ≠ t' → expect t (t' :: ts) = None.
Proof. intros H. cbn. by rewrite bool_decide_false. Qed.

(** The head of an [INSERT], read up to its rows. *)
Definition insert_head (ignore : bool) (table : bytes) (cols : list bytes) : list Token :=
  TWord (bstr "INSERT") :: (if ignore then [TWord (bstr "IGNORE")] else []) ++ [TWord (bstr "INTO"); TIdent table; TLParen]
    ++ comma_tokens (map (λ c, [TIdent c]) cols) ++ [TRParen; TWord (bstr "VALUES")].

Lemma read_insert_head ignore table cols rows suffix :
  cols ≠ [] → rows ≠ [] → Forall (λ ks, ks ≠ []) rows → suffix = [] ∨ suffix = ON_CONFLICT →
  read_insert (insert_head ignore table cols ++ rows_tokens rows ++ suffix) =
  Some (mkInsert (ignore || bool_decide (suffix = ON_CONFLICT)) table cols rows).
Proof.
  intros Hc Hr Hk Hs.
  assert (C : ∀ rest, columns (comma_tokens (map (λ c, [TIdent c]) cols) ++ TRParen :: rest) = Some (cols, rest)).
  { intros rest. clear -Hc. induction cols as [|c [|c' cols] IH]; [done|done|].
    cbn [map]. rewrite comma_tokens_cons. cbn [app columns]. cbn [map] in IH. by rewrite IH. }
  assert (V : values VOpen [] (rows_tokens rows ++ suffix) = Some (rows, suffix)).
  { rewrite values_rows by done. by destruct Hs as [->| ->]. }
  unfold insert_head, read_insert, expect_word. rewrite <-!app_comm_cons, expect_same. cbn [mbind option_bind].
  assert (E : bool_decide (suffix = []) = true ∧ bool_decide (suffix = ON_CONFLICT) = false ∨
    bool_decide (suffix = []) = false ∧ bool_decide (suffix = ON_CONFLICT) = true) by (destruct Hs as [->| ->]; [left|right]; done).
  destruct ignore; cbn [app]; rewrite <-?app_assoc; cbn [app];
    [rewrite expect_same|rewrite expect_other by done]; rewrite expect_same; cbn [mbind option_bind identifier];
    rewrite expect_same; cbn [mbind option_bind]; rewrite <-?app_assoc; cbn [app]; rewrite C; cbn [mbind option_bind];
    rewrite expect_same; cbn [mbind option_bind]; rewrite V; cbn [mbind option_bind];
    destruct E as [[-> ->]|[-> ->]]; done.
Qed.

(** ** Servers *)

(** The values bound to the parameters of a statement. *)
Inductive Param := PBytes (b : bytes) | PText (s : bytes) | PTexts (l : list bytes).

(** A server behind its driver: the clock of the process, the connection of a statement and
    the statement itself, with the text and the values the sink hands over. *)
Class SqlServer (PoolError DbError Row : Type) := {
  server : Type;
  server_now : server → Z;
  get_conn : server → Ran (result unit PoolError) * server;
  execute : bytes → list Param → server → Ran (result (list Row) DbError) * server;
}.

(** [stmt.await?] and what follows it. *)
Definition ran_then {W A B E} (s : Ran (result A E) * W) (k : A → W → Ran (result B E) * W) : Ran (result B E) * W :=
  match s with
  | (Completed (Ok a), w) => k a w
  | (Completed (Err e), w) => (Completed (Err e), w)
  | (Elapsed, w) => (Elapsed, w)
  | (Dropped, w) => (Dropped, w)
  end.

(** [map_err] behind an [await]. *)
Definition ran_map {W A B} (f : A → B) (s : Ran A * W) : Ran B * W :=
  match s with
  | (Completed a, w) => (Completed (f a), w)
  | (Elapsed, w) => (Elapsed, w)
  | (Dropped, w) => (Dropped, w)
  end.

(** The answer of a commit to the drain; a commit that never returns is pending until the
    drain gives it up. *)
Definition sql_call (c : Course CommitResult) : Call (result CommitResult SinkError) :=
  match c with
  | Finished r => Answered (map_err sql_sink_error r)
  | Cancelled | Unfinished => Silent
  end.
