(* ===== verification/Mysql.v ===== *)
(** * The MySQL sink (sink/mysql.rs)

    Its configuration and construction, the statements it writes, the classification of
    what the server answers, and the commit: one deadline, one multi-row [INSERT], the
    duplicate-key fallback of [SqlCommon]. The pool, the driver and the server are a
    parameter. *)

From Stdlib Require Import ZArith Lia Strings.Byte String.
From stdpp Require Import base list option.
From S2P Require Import Prelude Deps Text Sink S3Key Redact SqlCommon SqlText.

Definition MY_DRIVER : bytes := bstr "mysql".
Definition MY_IDENTIFIER_MAX_LEN : Z := 64.

(** ** Configuration *)

Inductive MyInsertMode := MyIgnore | MyPlain.
#[global] Instance my_insert_mode_eq_dec : EqDecision MyInsertMode.
Proof. solve_decision. Defined.

Record MySqlSinkConfig := mkMySqlSinkConfig {
  my_url : bytes;
  my_table : bytes;
  my_column : bytes;
  my_id_column : option bytes;
  my_insert_mode : MyInsertMode;
  my_max_batch_size : Z;
  my_timeout : Z;
}.

Inductive MySqlSinkBuildError :=
| MyEmptyUrl
| MyInvalidUrl (url : bytes)
| MyInvalidIdentifier (field value : bytes)
| MyIdColumnIsPayloadColumn (name : bytes).

Definition my_from_identifier (e : InvalidIdentifier) : MySqlSinkBuildError := MyInvalidIdentifier (ii_field e) (ii_value e).

(** [MySqlSink::new]; [opts_from_url] is the driver's, and the pool connects later. *)
Definition my_new (opts_from_url : bytes → bool) (c : MySqlSinkConfig) : result MySqlSinkConfig MySqlSinkBuildError :=
  match my_url c with
  | [] => Err MyEmptyUrl
  | _ =>
    let? _ := map_err my_from_identifier (validate_identifier (bstr "table") (my_table c) MY_IDENTIFIER_MAX_LEN) in
    let? _ := map_err my_from_identifier (validate_identifier (bstr "column") (my_column c) MY_IDENTIFIER_MAX_LEN) in
    let? _ :=
      match my_id_column c with
      | Some id_column =>
        let? _ := map_err my_from_identifier (validate_identifier (bstr "id_column") id_column MY_IDENTIFIER_MAX_LEN) in
        if bool_decide (id_column = my_column c) then Err (MyIdColumnIsPayloadColumn id_column) else Ok tt
      | None => Ok tt
      end in
    if opts_from_url (my_url c) then Ok c else Err (MyInvalidUrl (redact_url_password (my_url c)))
  end.

(** ** Statements *)

(** [build_insert_sql]. *)
Definition my_build_insert_sql (c : MySqlSinkConfig) (n : nat) : bytes :=
  let verb := match my_insert_mode c with MyIgnore => bstr "INSERT IGNORE INTO" | MyPlain => bstr "INSERT INTO" end in
  match my_id_column c with
  | None =>
    let placeholders := join_with (bstr ", ") (replicate n (bstr "(?)")) in
    verb ++ bstr " `" ++ my_table c ++ bstr "` (`" ++ my_column c ++ bstr "`) VALUES " ++ placeholders
  | Some id_column =>
    let placeholders := join_with (bstr ", ") (replicate n (bstr "(?, ?)")) in
    verb ++ bstr " `" ++ my_table c ++ bstr "` (`" ++ id_column ++ bstr "`, `" ++ my_column c ++ bstr "`) VALUES " ++ placeholders
  end.

(** [build_lookup_sql]. *)
Definition my_build_lookup_sql (c : MySqlSinkConfig) (id_column : bytes) (n : nat) : bytes :=
  let placeholders := join_with (bstr ", ") (replicate n (bstr "?")) in
  bstr "SELECT `" ++ id_column ++ bstr "` FROM `" ++ my_table c ++ bstr "` WHERE `" ++ id_column ++ bstr "` IN (" ++ placeholders ++ bstr ")".

(** [build_params]. *)
Definition my_build_params (batch : list bytes) (id_hex : option (list bytes)) (rows : list nat) : list Param :=
  match id_hex with
  | None => map (λ i, PBytes (batch !!! i)) rows
  | Some ids => concat (map (λ i, [PBytes (ids !!! i); PBytes (batch !!! i)]) rows)
  end.

(** ** Errors of the driver *)

(** [mysql_async::Error], by the text of what it carries. *)
Inductive MyError :=
| MyIo (e : bytes)
| MyDriver (e : bytes)
| MyUrlError (e : bytes)
| MyServer (code : Z) (message : bytes)
| MyOther (e : bytes).

(** [is_transient_server_code]. *)
Definition is_transient_server_code (code : Z) : bool :=
  bool_decide (code ∈ [1205; 1213; 1290; 1317; 1062; 1045; 1044; 1142]).

(** [classify]. *)
Definition my_classify (err : MyError) : SqlSinkError :=
  match err with
  | MyIo e => SqlTransient MY_DRIVER (bstr "io: " ++ e)
  | MyDriver e => SqlTransient MY_DRIVER (bstr "driver: " ++ e)
  | MyUrlError e => SqlPermanent MY_DRIVER (bstr "url: " ++ e)
  | MyServer code msg =>
    let text := bstr "server " ++ dec code ++ bstr ": " ++ msg in
    if is_transient_server_code code then SqlTransient MY_DRIVER text else SqlPermanent MY_DRIVER text
  | MyOther e => SqlPermanent MY_DRIVER (bstr "other: " ++ e)
  end.

Definition ER_DUP_ENTRY : Z := 1062.

(** [classify_stmt]. *)
Definition my_classify_stmt (mode : MyInsertMode) (err : MyError) : StmtError :=
  match mode, err with
  | MyPlain, MyServer code msg =>
    if code =? ER_DUP_ENTRY then DupKey (bstr "server " ++ dec code ++ bstr ": " ++ msg) else StmtOther (my_classify err)
  | _, _ => StmtOther (my_classify err)
  end.

(** ** The sink *)

Section Mysql.
Context `{SqlServer MyError MyError bytes}.

Definition my_conn (w : server) : Ran (result unit StmtError) * server :=
  ran_map (map_err (λ e, StmtOther (my_classify e))) (get_conn w).

(** The closure [insert] of [commit]. *)
Definition my_insert (c : MySqlSinkConfig) (batch : list bytes) (id_hex : option (list bytes)) (rows : list nat) (w : server) :
    Ran (result unit StmtError) * server :=
  let sql := my_build_insert_sql c (length rows) in
  let params := my_build_params batch id_hex rows in
  ran_then (my_conn w) (λ _ w,
    ran_map (λ r, match r with Ok _ => Ok tt | Err e => Err (my_classify_stmt (my_insert_mode c) e) end) (execute sql params w)).

(** The closure [lookup_present]. *)
Definition my_lookup_present (c : MySqlSinkConfig) (id_hex : option (list bytes)) (rows : list nat) (w : server) :
    Ran (result (list bytes) StmtError) * server :=
  match my_id_column c, id_hex with
  | Some col, Some ids =>
    let params := map (λ i, PBytes (ids !!! i)) rows in
    let sql := my_build_lookup_sql c col (length rows) in
    ran_then (my_conn w) (λ _ w, ran_map (map_err (λ e, StmtOther (my_classify e))) (execute sql params w))
  | _, _ => (Completed (Err (StmtOther (SqlPermanent MY_DRIVER (bstr "duplicate-key lookup without an id column")))), w)
  end.

(** [commit]. *)
Definition my_commit (c : MySqlSinkConfig) (b : SinkBatch) (w : server) : Call (result CommitResult SinkError) * server :=
  let batch := sb_records b in
  match batch with
  | [] => (Answered (Ok (mkCommitResult [] [])), w)
  | _ =>
    match per_record_id_hex MY_DRIVER (my_id_column c) (length batch) (sb_record_ids b) with
    | Err e => (Answered (Err (sql_sink_error e)), w)
    | Ok id_hex =>
      let deadline := server_now w + my_timeout c in
      let '(course, w) :=
        insert_with_dup_fallback server_now (my_insert c batch id_hex) (my_lookup_present c id_hex) MY_DRIVER deadline batch id_hex w in
      (sql_call course, w)
    end
  end.

(** [health]; [display] is the driver's [Display] of an error. *)
Definition my_health (display : MyError → bytes) (w : server) : Call SinkHealth * server :=
  match ran_then (get_conn w) (λ _ w, execute (bstr "SELECT 1") [] w) with
  | (Completed (Ok _), w) => (Answered Healthy, w)
  | (Completed (Err e), w) => (Answered (Down (bstr "mysql probe failed: " ++ display e)), w)
  | (Elapsed, w) => (Answered (Down (bstr "mysql probe timed out")), w)
  | (Dropped, w) => (Silent, w)
  end.

(** The sink behind the drain's interface. *)
Definition my_sink (display : MyError → bytes) : Sink := {|
  sink_state := MySqlSinkConfig * server;
  max_batch_size s := my_max_batch_size (fst s);
  commit b s := let '(r, w) := my_commit (fst s) b (snd s) in (r, (fst s, w));
  health s := let '(r, w) := my_health display (snd s) in (r, (fst s, w));
|}.
End Mysql.

(** ** What the server reads *)

(** A configuration the sink accepts. *)
Lemma my_new_ok opts c c' : my_new opts c = Ok c' →
  c' = c ∧ (x60 ∉ my_table c) ∧ (x60 ∉ my_column c) ∧ from_option (λ i, (x60 ∉ i) ∧ i ≠ my_column c) True (my_id_column c).
Proof.
  unfold my_new. destruct (my_url c) as [|u0 u]; [done|].
  destruct (validate_identifier (bstr "table") _ _) as [[]|] eqn:E1; [|done].
  destruct (validate_identifier (bstr "column") _ _) as [[]|] eqn:E2; [|done]. cbn [map_err].
  apply (validated_word _ _ _ x60) in E1, E2; [|done..].
  destruct (my_id_column c) as [i|]; cbn [from_option].
  - destruct (validate_identifier (bstr "id_column") i MY_IDENTIFIER_MAX_LEN) as [[]|] eqn:E3; [|done]. cbn [map_err].
    apply (validated_word _ _ _ x60) in E3; [|done]. case_bool_decide; [done|]. destruct (opts _); [|done]. by intros [= <-].
  - destruct (opts _); [|done]. by intros [= <-].
Qed.

Definition my_columns (c : MySqlSinkConfig) : list bytes := from_option (λ i, [i]) [] (my_id_column c) ++ [my_column c].
Definition my_rows (c : MySqlSinkConfig) (n : nat) : list (list Z) :=
  from_option (λ _, paired_rows 1 n) (single_rows 1 n) (my_id_column c).

Lemma lex_replicate quote p ts n : quote ≠ x20 → quote ≠ x2c → lex_run quote Idle p = (ts, Idle) →
  lex_run quote Idle (join_with (bstr ", ") (replicate n p)) = (comma_tokens (replicate n ts), Idle).
Proof. intros H1 H2 Hp. apply lex_join; [done..|]. induction n; by constructor. Qed.

(** The text of the [INSERT], token by token. *)
Lemma my_insert_tokens opts c c' n : my_new opts c = Ok c' →
  lex_run x60 Idle (my_build_insert_sql c n) =
    (insert_head (bool_decide (my_insert_mode c = MyIgnore)) (my_table c) (my_columns c) ++
     comma_tokens (replicate n (from_option (λ _, [TLParen; TMark; TComma; TMark; TRParen]) [TLParen; TMark; TRParen] (my_id_column c))), Idle).
Proof.
  intros H. apply my_new_ok in H as (_ & Ht & Hc & Hi).
  unfold my_build_insert_sql, my_columns. destruct (my_id_column c) as [i|]; cbn [from_option] in *; [destruct Hi as [Hi _]|].
  - pose proof (lex_replicate x60 (bstr "(?, ?)") _ n ltac:(done) ltac:(done) eq_refl) as R.
    destruct (my_insert_mode c); (eapply eq_trans; [lex_pieces R|reflexivity]).
  - pose proof (lex_replicate x60 (bstr "(?)") _ n ltac:(done) ltac:(done) eq_refl) as R.
    destruct (my_insert_mode c); (eapply eq_trans; [lex_pieces R|reflexivity]).
Qed.

Lemma my_rows_ok c n : (1 ≤ n)%nat → my_rows c n ≠ [] ∧ Forall (λ ks, ks ≠ []) (my_rows c n).
Proof.
  intros Hn. unfold my_rows. destruct (rows_nonempty n 1) as [H1 H2]. destruct n as [|n]; [lia|].
  by destruct (my_id_column c).
Qed.

(** The [INSERT] reads as what the configuration says. *)
Lemma my_insert_reads opts c c' n : my_new opts c = Ok c' → (1 ≤ n)%nat →
  read_insert (tokens x60 (my_build_insert_sql c n)) =
  Some (mkInsert (bool_decide (my_insert_mode c = MyIgnore)) (my_table c) (my_columns c) (my_rows c n)).
Proof.
  intros H Hn. unfold tokens. rewrite (my_insert_tokens _ _ _ n H). cbn [lex_end]. rewrite app_nil_r, number_marks_app.
  destruct (my_rows_ok c n Hn) as [R1 R2].
  assert (E1 : ∀ k, number_marks k (insert_head (bool_decide (my_insert_mode c = MyIgnore)) (my_table c) (my_columns c)) =
    insert_head (bool_decide (my_insert_mode c = MyIgnore)) (my_table c) (my_columns c)).
  { intros k. unfold my_columns. by destruct (my_insert_mode c), (my_id_column c). }
  assert (E2 : marks (insert_head (bool_decide (my_insert_mode c = MyIgnore)) (my_table c) (my_columns c)) = 0).
  { unfold my_columns. by destruct (my_insert_mode c), (my_id_column c). }
  assert (E3 : number_marks 1 (comma_tokens (replicate n (from_option (λ _, [TLParen; TMark; TComma; TMark; TRParen])
      [TLParen; TMark; TRParen] (my_id_column c)))) = rows_tokens (my_rows c n)).
  { unfold my_rows. destruct (my_id_column c); [apply number_paired|apply number_single]. }
  rewrite E1, E2, Z.add_0_r, E3, <-(app_nil_r (rows_tokens _)), read_insert_head; [|by unfold my_columns; destruct (my_id_column c)|done|done|by left].
  by rewrite (bool_decide_false ([] = ON_CONFLICT)), orb_false_r by done.
Qed.

(** So does the lookup. *)
Lemma my_lookup_reads opts c c' i n : my_new opts c = Ok c' → my_id_column c = Some i → (1 ≤ n)%nat →
  read_lookup (tokens x60 (my_build_lookup_sql c i n)) = Some (mkLookup i (my_table c) (map Z.of_nat (seq 1 n)) false).
Proof.
  intros H Ei Hn. apply my_new_ok in H as (_ & Ht & _ & Hi). rewrite Ei in Hi. destruct Hi as [Hi _].
  assert (L : lex_run x60 Idle (my_build_lookup_sql c i n) =
    ([TWord (bstr "SELECT"); TIdent i; TWord (bstr "FROM"); TIdent (my_table c); TWord (bstr "WHERE"); TIdent i; TWord (bstr "IN"); TLParen]
     ++ comma_tokens (replicate n [TMark]) ++ [TRParen], Idle)).
  { unfold my_build_lookup_sql.
    pose proof (lex_replicate x60 (bstr "?") _ n ltac:(done) ltac:(done) eq_refl) as R.
    assert (R' : lex_run x60 Idle (join_with (bstr ", ") (replicate n (bstr "?")) ++ bstr ")") =
      (comma_tokens (replicate n [TMark]) ++ [TRParen], Idle)) by (by eapply lex_piece; [exact R|]).
    eapply eq_trans; [lex_pieces R'|reflexivity]. }
  unfold tokens. rewrite L. cbn [lex_end]. rewrite app_nil_r, number_marks_app. change (marks _) with 0. rewrite number_marks_app.
  assert (N : ∀ m k, number_marks (1 + Z.of_nat k) (comma_tokens (replicate m [TMark])) =
    comma_tokens (map (λ k, [TParam k]) (map Z.of_nat (seq (S k) m)))).
  { induction m as [|[|m] IH]; intros k; [done|cbn; by rewrite Z.add_comm, Z.add_1_r, <-Nat2Z.inj_succ|].
    specialize (IH (S k)). cbn [replicate seq map] in IH |- *. rewrite !comma_tokens_cons, number_marks_app.
    cbn [number_marks app]. replace (1 + Z.of_nat k) with (Z.of_nat (S k)) by lia. f_equal. f_equal.
    change (marks [TMark]) with 1. replace (Z.of_nat (S k) + 1) with (1 + Z.of_nat (S k)) by lia. exact IH. }
  specialize (N n O). change (1 + Z.of_nat O) with 1 in N. rewrite Z.add_0_r, N.
  assert (V : values VOpen [] (TLParen :: comma_tokens (map (λ k, [TParam k]) (map Z.of_nat (seq 1 n))) ++ [TRParen]) =
    Some ([map Z.of_nat (seq 1 n)], [])).
  { cbn [values]. rewrite values_row by (by destruct n; [lia|]). done. }
  cbn [number_marks app]. unfold read_lookup, expect_word. rewrite expect_same. cbn [mbind option_bind identifier]. rewrite expect_same.
  cbn [mbind option_bind identifier]. rewrite expect_same. cbn [mbind option_bind identifier].
  rewrite bool_decide_true, expect_other, expect_same by done. cbn [mbind option_bind]. by rewrite V.
Qed.
