(* ===== verification/Postgres.v ===== *)
(** * The Postgres sink (sink/postgres.rs)

    The counterpart of [Mysql]: the same shape, with numbered parameters, SQLSTATEs for the
    classification and one array for the lookup. TLS, the pool's size and the recycling of
    connections are the driver's business and no part of the model. *)

From Stdlib Require Import ZArith Lia Strings.Byte String.
From stdpp Require Import base list option.
From S2P Require Import Prelude Deps Text Sink S3Key Redact SqlCommon SqlText.

Definition PG_DRIVER : bytes := bstr "postgres".
Definition PG_IDENTIFIER_MAX_LEN : Z := 63.

(** ** Configuration *)

Inductive PgInsertMode := OnConflictDoNothing | PgPlain.
#[global] Instance pg_insert_mode_eq_dec : EqDecision PgInsertMode.
Proof. solve_decision. Defined.

Record PostgresSinkConfig := mkPostgresSinkConfig {
  pg_url : bytes;
  pg_table : bytes;
  pg_column : bytes;
  pg_id_column : option bytes;
  pg_insert_mode : PgInsertMode;
  pg_max_batch_size : Z;
  pg_timeout : Z;
}.

Inductive PostgresSinkBuildError :=
| PgEmptyUrl
| PgInvalidUrl (url : bytes)
| PgInvalidIdentifier (field value : bytes)
| PgIdColumnIsPayloadColumn (name : bytes)
| PgPoolBuild (e : bytes).

Definition pg_from_identifier (e : InvalidIdentifier) : PostgresSinkBuildError := PgInvalidIdentifier (ii_field e) (ii_value e).

(** [PostgresSink::new]; parsing the URL and building the pool are the driver's. *)
Definition pg_new (parse_config : bytes → bool) (build_pool : bytes → option bytes) (c : PostgresSinkConfig) :
    result PostgresSinkConfig PostgresSinkBuildError :=
  match pg_url c with
  | [] => Err PgEmptyUrl
  | _ =>
    let? _ := map_err pg_from_identifier (validate_identifier (bstr "table") (pg_table c) PG_IDENTIFIER_MAX_LEN) in
    let? _ := map_err pg_from_identifier (validate_identifier (bstr "column") (pg_column c) PG_IDENTIFIER_MAX_LEN) in
    let? _ :=
      match pg_id_column c with
      | Some id_column =>
        let? _ := map_err pg_from_identifier (validate_identifier (bstr "id_column") id_column PG_IDENTIFIER_MAX_LEN) in
        if bool_decide (id_column = pg_column c) then Err (PgIdColumnIsPayloadColumn id_column) else Ok tt
      | None => Ok tt
      end in
    if parse_config (pg_url c) then
      match build_pool (pg_url c) with None => Ok c | Some e => Err (PgPoolBuild e) end
    else Err (PgInvalidUrl (redact_url_password (pg_url c)))
  end.

(** ** Statements *)

(** [build_insert_sql]. *)
Definition pg_build_insert_sql (c : PostgresSinkConfig) (n : nat) : bytes :=
  let suffix := match pg_insert_mode c with OnConflictDoNothing => bstr " ON CONFLICT DO NOTHING" | PgPlain => [] end in
  match pg_id_column c with
  | None =>
    let placeholders := join_with (bstr ", ") (map (λ i, bstr "($" ++ dec (Z.of_nat i) ++ bstr ")") (seq 1 n)) in
    bstr "INSERT INTO " ++ [x22] ++ pg_table c ++ [x22] ++ bstr " (" ++ [x22] ++ pg_column c ++ [x22] ++ bstr ") VALUES "
      ++ placeholders ++ suffix
  | Some id_column =>
    let placeholders := join_with (bstr ", ")
      (map (λ row, bstr "($" ++ dec (Z.of_nat row * 2 + 1) ++ bstr ", $" ++ dec (Z.of_nat row * 2 + 2) ++ bstr ")") (seq 0 n)) in
    bstr "INSERT INTO " ++ [x22] ++ pg_table c ++ [x22] ++ bstr " (" ++ [x22] ++ id_column ++ [x22] ++ bstr ", " ++ [x22]
      ++ pg_column c ++ [x22] ++ bstr ") VALUES " ++ placeholders ++ suffix
  end.

(** [build_lookup_sql]. *)
Definition pg_build_lookup_sql (c : PostgresSinkConfig) (id_column : bytes) : bytes :=
  bstr "SELECT " ++ [x22] ++ id_column ++ [x22] ++ bstr " FROM " ++ [x22] ++ pg_table c ++ [x22] ++ bstr " WHERE " ++ [x22]
    ++ id_column ++ [x22] ++ bstr " = ANY($1)".

(** [BoundParam] and [build_params]. *)
Inductive BoundParam := BId (hex : bytes) | BPayload (b : bytes).

Definition pg_build_params (batch : list bytes) (id_hex : option (list bytes)) (rows : list nat) : list BoundParam :=
  match id_hex with
  | None => map (λ i, BPayload (batch !!! i)) rows
  | Some ids => concat (map (λ i, [BId (ids !!! i); BPayload (batch !!! i)]) rows)
  end.

(** What the driver binds for it: text for an id, [bytea] for a payload. *)
Definition bound_value (p : BoundParam) : Param := match p with BId hex => PText hex | BPayload b => PBytes b end.

(** ** Errors of the driver *)

(** [tokio_postgres::Error]: its text, and the SQLSTATE and message of the server's answer. *)
Record PgError := mkPgError { pe_text : bytes; pe_db : option (bytes * bytes) }.

Definition UNIQUE_VIOLATION : bytes := bstr "23505".

(** [is_transient_sqlstate]. *)
Definition is_transient_sqlstate (state : bytes) : bool :=
  bool_decide (state ∈ (map bstr ["40P01"; "55P03"; "57014"; "57P01"; "57P02"; "57P03"]%string) ++ [UNIQUE_VIOLATION]).

(** [classify]. *)
Definition pg_classify (err : PgError) : SqlSinkError :=
  match pe_db err with
  | Some (code, msg) =>
    let text := bstr "server " ++ code ++ bstr ": " ++ msg in
    if is_transient_sqlstate code then SqlTransient PG_DRIVER text else SqlPermanent PG_DRIVER text
  | None => SqlTransient PG_DRIVER (bstr "io: " ++ pe_text err)
  end.

(** [is_dup_key]. *)
Definition is_dup_key (state : bytes) (mode : PgInsertMode) : bool :=
  bool_decide (mode = PgPlain) && bool_decide (state = UNIQUE_VIOLATION).

(** [classify_stmt]. *)
Definition pg_classify_stmt (mode : PgInsertMode) (err : PgError) : StmtError :=
  match pe_db err with
  | Some (code, msg) =>
    if is_dup_key code mode then DupKey (bstr "server " ++ code ++ bstr ": " ++ msg) else StmtOther (pg_classify err)
  | None => StmtOther (pg_classify err)
  end.

(** ** The sink *)

Section Postgres.
(** A pool error is its text; a row of the lookup is the id or why it cannot be read. *)
Context `{SqlServer bytes PgError (result bytes bytes)}.

Definition pg_conn (w : server) : Ran (result unit StmtError) * server :=
  ran_map (map_err (λ e, StmtOther (SqlTransient PG_DRIVER (bstr "pool: " ++ e)))) (get_conn w).

(** The closure [insert] of [commit]. *)
Definition pg_insert (c : PostgresSinkConfig) (batch : list bytes) (id_hex : option (list bytes)) (rows : list nat) (w : server) :
    Ran (result unit StmtError) * server :=
  let sql := pg_build_insert_sql c (length rows) in
  ran_then (pg_conn w) (λ _ w,
    let params := map bound_value (pg_build_params batch id_hex rows) in
    ran_map (λ r, match r with Ok _ => Ok tt | Err e => Err (pg_classify_stmt (pg_insert_mode c) e) end) (execute sql params w)).

(** The rows of the lookup: all of them, or the first that cannot be read. *)
Fixpoint pg_read_ids (rows : list (result bytes bytes)) : result (list bytes) StmtError :=
  match rows with
  | [] => Ok []
  | Ok id :: rows => let? ids := pg_read_ids rows in Ok (id :: ids)
  | Err e :: _ => Err (StmtOther (SqlPermanent PG_DRIVER (bstr "duplicate-key lookup: reading the id column: " ++ e)))
  end.

(** The closure [lookup_present]. *)
Definition pg_lookup_present (c : PostgresSinkConfig) (id_hex : option (list bytes)) (rows : list nat) (w : server) :
    Ran (result (list bytes) StmtError) * server :=
  match pg_id_column c, id_hex with
  | Some col, Some ids =>
    let wanted := map (λ i, ids !!! i) rows in
    let sql := pg_build_lookup_sql c col in
    ran_then (pg_conn w) (λ _ w,
      ran_map (λ r, match r with Ok found => pg_read_ids found | Err e => Err (StmtOther (pg_classify e)) end)
        (execute sql [PTexts wanted] w))
  | _, _ => (Completed (Err (StmtOther (SqlPermanent PG_DRIVER (bstr "duplicate-key lookup without an id column")))), w)
  end.

(** [commit]. *)
Definition pg_commit (c : PostgresSinkConfig) (b : SinkBatch) (w : server) : Call (result CommitResult SinkError) * server :=
  let batch := sb_records b in
  match batch with
  | [] => (Answered (Ok (mkCommitResult [] [])), w)
  | _ =>
    match per_record_id_hex PG_DRIVER (pg_id_column c) (length batch) (sb_record_ids b) with
    | Err e => (Answered (Err (sql_sink_error e)), w)
    | Ok id_hex =>
      let deadline := server_now w + pg_timeout c in
      let '(course, w) :=
        insert_with_dup_fallback server_now (pg_insert c batch id_hex) (pg_lookup_present c id_hex) PG_DRIVER deadline batch id_hex w in
      (sql_call course, w)
    end
  end.

(** [health]. *)
Definition pg_health (w : server) : Call SinkHealth * server :=
  match get_conn w with
  | (Completed (Err e), w) => (Answered (Down (bstr "postgres probe failed: pool: " ++ e)), w)
  | (Completed (Ok _), w) =>
    match execute (bstr "SELECT 1") [] w with
    | (Completed (Ok _), w) => (Answered Healthy, w)
    | (Completed (Err e), w) => (Answered (Down (bstr "postgres probe failed: query: " ++ pe_text e)), w)
    | (Elapsed, w) => (Answered (Down (bstr "postgres probe timed out")), w)
    | (Dropped, w) => (Silent, w)
    end
  | (Elapsed, w) => (Answered (Down (bstr "postgres probe timed out")), w)
  | (Dropped, w) => (Silent, w)
  end.

(** The sink behind the drain's interface. *)
Definition pg_sink : Sink := {|
  sink_state := PostgresSinkConfig * server;
  max_batch_size s := pg_max_batch_size (fst s);
  commit b s := let '(r, w) := pg_commit (fst s) b (snd s) in (r, (fst s, w));
  health s := let '(r, w) := pg_health (snd s) in (r, (fst s, w));
|}.
End Postgres.

(** ** What the server reads *)

(** A configuration the sink accepts. *)
Lemma pg_new_ok parse build c c' : pg_new parse build c = Ok c' →
  c' = c ∧ (x22 ∉ pg_table c) ∧ (x22 ∉ pg_column c) ∧ from_option (λ i, (x22 ∉ i) ∧ i ≠ pg_column c) True (pg_id_column c).
Proof.
  unfold pg_new. destruct (pg_url c) as [|u0 u]; [done|].
  destruct (validate_identifier (bstr "table") _ _) as [[]|] eqn:E1; [|done].
  destruct (validate_identifier (bstr "column") _ _) as [[]|] eqn:E2; [|done]. cbn [map_err].
  apply (validated_word _ _ _ x22) in E1, E2; [|done..].
  destruct (pg_id_column c) as [i|]; cbn [from_option].
  - destruct (validate_identifier (bstr "id_column") i PG_IDENTIFIER_MAX_LEN) as [[]|] eqn:E3; [|done]. cbn [map_err].
    apply (validated_word _ _ _ x22) in E3; [|done]. case_bool_decide; [done|].
    destruct (parse _); [|done]. destruct (build _); [done|]. by intros [= <-].
  - destruct (parse _); [|done]. destruct (build _); [done|]. by intros [= <-].
Qed.

Definition pg_columns (c : PostgresSinkConfig) : list bytes := from_option (λ i, [i]) [] (pg_id_column c) ++ [pg_column c].
Definition pg_rows (c : PostgresSinkConfig) (n : nat) : list (list Z) :=
  from_option (λ _, paired_rows 1 n) (single_rows 1 n) (pg_id_column c).

(** A numbered parameter behind its dollar sign. *)
Lemma lex_dollar z t ts st : 0 ≤ z →
  lex_run x22 (InParam (dec z)) t = (ts, st) → lex_run x22 (InParam []) (dec z ++ t) = (ts, st).
Proof.
  intros Hz H. eapply (lex_piece _ _ _ _ []); [|exact H]. apply lex_param. exact (forallb_dec_pad O z).
Qed.

Lemma dec_val_dec z : 0 ≤ z → dec_val (dec z) = z.
Proof. exact (dec_val_dec_pad O z). Qed.

Lemma lex_single z : 0 ≤ z → lex_run x22 Idle (bstr "($" ++ dec z ++ bstr ")") = (row_tokens [z], Idle).
Proof.
  intros Hz. eapply eq_trans; [eapply lex_piece; [reflexivity|]; eapply lex_dollar; [done|reflexivity]|].
  cbn -[dec dec_val]. by rewrite dec_val_dec.
Qed.

Lemma lex_paired y z : 0 ≤ y → 0 ≤ z →
  lex_run x22 Idle (bstr "($" ++ dec y ++ bstr ", $" ++ dec z ++ bstr ")") = (row_tokens [y; z], Idle).
Proof.
  intros Hy Hz.
  eapply eq_trans; [eapply lex_piece; [reflexivity|]; eapply lex_dollar; [done|];
    eapply lex_piece; [reflexivity|]; eapply lex_dollar; [done|reflexivity]|].
  cbn -[dec dec_val]. by rewrite !dec_val_dec.
Qed.

(** The placeholders of all rows. *)
Lemma pg_placeholders n :
  lex_run x22 Idle (join_with (bstr ", ") (map (λ i, bstr "($" ++ dec (Z.of_nat i) ++ bstr ")") (seq 1 n))) =
    (rows_tokens (single_rows 1 n), Idle) ∧
  lex_run x22 Idle (join_with (bstr ", ")
    (map (λ row, bstr "($" ++ dec (Z.of_nat row * 2 + 1) ++ bstr ", $" ++ dec (Z.of_nat row * 2 + 2) ++ bstr ")") (seq 0 n))) =
    (rows_tokens (paired_rows 1 n), Idle).
Proof.
  split; apply lex_join; try done.
  - change 1 with (Z.of_nat 1). generalize 1%nat. induction n as [|n IH]; intros k; cbn [seq map single_rows]; constructor.
    + apply lex_single. lia.
    + specialize (IH (S k)). by replace (Z.of_nat k + 1) with (Z.of_nat (S k)) by lia.
  - assert (G : ∀ k, Forall2 (λ p ts, lex_run x22 Idle p = (ts, Idle))
      (map (λ row, bstr "($" ++ dec (Z.of_nat row * 2 + 1) ++ bstr ", $" ++ dec (Z.of_nat row * 2 + 2) ++ bstr ")") (seq k n))
      (map row_tokens (paired_rows (2 * Z.of_nat k + 1) n))); [|exact (G O)].
    induction n as [|n IH]; intros k; cbn [seq map paired_rows]; constructor.
    + replace (Z.of_nat k * 2 + 1) with (2 * Z.of_nat k + 1) by lia.
      replace (Z.of_nat k * 2 + 2) with (2 * Z.of_nat k + 1 + 1) by lia. apply lex_paired; lia.
    + specialize (IH (S k)). by replace (2 * Z.of_nat k + 1 + 2) with (2 * Z.of_nat (S k) + 1) by lia.
Qed.

(** The text of the [INSERT], token by token. *)
Lemma pg_insert_tokens parse build c c' n : pg_new parse build c = Ok c' →
  let '(ts, st) := lex_run x22 Idle (pg_build_insert_sql c n) in
  ts ++ lex_end st = insert_head false (pg_table c) (pg_columns c) ++ rows_tokens (pg_rows c n) ++
    match pg_insert_mode c with OnConflictDoNothing => ON_CONFLICT | PgPlain => [] end.
Proof.
  intros H. apply pg_new_ok in H as (_ & Ht & Hc & Hi).
  unfold pg_build_insert_sql, pg_columns, pg_rows. destruct (pg_placeholders n) as [P1 P2].
  destruct (pg_id_column c) as [i|]; cbn [from_option] in *; [destruct Hi as [Hi _]|]; destruct (pg_insert_mode c).
  all: match goal with |- context [lex_run x22 Idle ?s] => eassert (L : lex_run x22 Idle s = (_, _)) by (
    first [lex_pieces P1; reflexivity | lex_pieces P2; reflexivity]) end.
  all: rewrite L; cbn; rewrite ?app_nil_r, <-?app_assoc; reflexivity.
Qed.

Lemma number_none k ts : TMark ∉ ts → number_marks k ts = ts.
Proof.
  revert k. induction ts as [|t ts IH]; intros k H; [done|]. apply not_elem_of_cons in H as [Ht H].
  destruct t; cbn; rewrite ?IH by done; done.
Qed.

Lemma comma_tokens_unmarked l : Forall (λ ts, TMark ∉ ts) l → TMark ∉ comma_tokens l.
Proof.
  induction 1 as [|ts l H F IH]; [apply not_elem_of_nil|]. destruct l as [|ts' l]; [done|].
  rewrite comma_tokens_cons, not_elem_of_app, not_elem_of_cons. done.
Qed.

Lemma rows_unmarked rows : TMark ∉ rows_tokens rows.
Proof.
  apply comma_tokens_unmarked, List.Forall_map, list.Forall_forall. intros ks _. unfold row_tokens.
  rewrite not_elem_of_cons, not_elem_of_app. split; [done|].
  split; [|by apply not_elem_of_cons; split; [|apply not_elem_of_nil]].
  apply comma_tokens_unmarked, List.Forall_map, list.Forall_forall. intros k _. apply not_elem_of_cons.
  split; [done|apply not_elem_of_nil].
Qed.

(** The [INSERT] reads as what the configuration says. *)
Lemma pg_insert_reads parse build c c' n : pg_new parse build c = Ok c' → (1 ≤ n)%nat →
  read_insert (tokens x22 (pg_build_insert_sql c n)) =
  Some (mkInsert (bool_decide (pg_insert_mode c = OnConflictDoNothing)) (pg_table c) (pg_columns c) (pg_rows c n)).
Proof.
  intros H Hn. unfold tokens. pose proof (pg_insert_tokens _ _ _ _ n H) as L.
  destruct (lex_run x22 Idle (pg_build_insert_sql c n)) as [ts st]. rewrite L.
  rewrite number_none.
  - rewrite read_insert_head.
    + by destruct (pg_insert_mode c).
    + unfold pg_columns. by destruct (pg_id_column c).
    + unfold pg_rows. destruct n as [|n]; [lia|]. by destruct (pg_id_column c).
    + unfold pg_rows. destruct (rows_nonempty n 1). by destruct (pg_id_column c).
    + destruct (pg_insert_mode c); auto.
  - rewrite !not_elem_of_app. split; [|split; [apply rows_unmarked|]].
    + unfold insert_head, pg_columns. destruct (pg_id_column c); cbn; rewrite !not_elem_of_cons; (split_and!; try done; apply not_elem_of_nil).
    + destruct (pg_insert_mode c); [elt|apply not_elem_of_nil].
Qed.

(** So does the lookup. *)
Lemma pg_lookup_reads parse build c c' i : pg_new parse build c = Ok c' → pg_id_column c = Some i →
  read_lookup (tokens x22 (pg_build_lookup_sql c i)) = Some (mkLookup i (pg_table c) [1] true).
Proof.
  intros H Ei. apply pg_new_ok in H as (_ & Ht & _ & Hi). rewrite Ei in Hi. destruct Hi as [Hi _].
  assert (L : lex_run x22 Idle (pg_build_lookup_sql c i) =
    ([TWord (bstr "SELECT"); TIdent i; TWord (bstr "FROM"); TIdent (pg_table c); TWord (bstr "WHERE"); TIdent i; TEq; TWord (bstr "ANY");
      TLParen; TParam 1; TRParen], Idle)).
  { unfold pg_build_lookup_sql. eapply eq_trans; [|reflexivity]. rewrite <-(app_nil_r (bstr " = ANY($1)")).
    eapply eq_trans; [lex_pieces I; reflexivity|reflexivity]. }
  unfold tokens. rewrite L. cbn [lex_end]. rewrite app_nil_r. cbn [number_marks].
  unfold read_lookup, expect_word. rewrite expect_same. cbn [mbind option_bind identifier]. rewrite expect_same.
  cbn [mbind option_bind identifier]. rewrite expect_same. cbn [mbind option_bind identifier].
  rewrite bool_decide_true, expect_same by done. cbn [mbind option_bind]. rewrite expect_same. done.
Qed.
