(* ===== verification/RecordIds.v ===== *)
(** * Records and their identifiers

    What the identifiers of the drain's batches are worth to a downstream that keeps one row
    or one request per identifier: a record has one coordinate, segment and index, in
    whatever batch it is sent, and records of different coordinates have different
    identifiers unless SHA-256 collides on them. Shared by the sinks that hand the
    identifiers on ([SqlTable], [HttpEndpoint]). *)

From Stdlib Require Import ZArith Lia Strings.Byte String.
From stdpp Require Import base list option.
From S2P Require Import Prelude Deps Text Names Sink Account Sent S3Key Archive.

Section RecordIds.
Context {SHA : Sha256}.

(** The records of every segment, by the segment's identity: a name is used once, since
    the sidecar of a delivered segment stays. *)
Context (segs : bytes → list bytes).

(** Record [i], from one on, of a segment. *)
Record Rec (s : bytes) (i : Z) (p : bytes) : Prop := mkRec {
  rc_index : 1 ≤ i < 2 ^ 64;
  rc_there : segs s !! Z.to_nat (i - 1) = Some p;
  rc_segment : blen s < 2 ^ 64;
  rc_payload : blen p < 2 ^ 64;
}.

(** SHA-256 does not collide on the records. *)
Definition no_collision : Prop :=
  ∀ s i p s' i' p', Rec s i p → Rec s' i' p' → for_record s i p = for_record s' i' p' →
    record_input s i p = record_input s' i' p'.

(** A batch of the drain: a range of the records of one segment. *)
Definition from_segments (b : SinkBatch) : Prop := from_drain (λ _, segs) b.

(** Every record of a batch comes with the identifier of its coordinate. *)
Lemma batch_ids b : from_segments b →
  ∃ ids, sb_record_ids b = Some ids ∧ length ids = length (sb_records b) ∧
    ∀ k p, sb_records b !! k = Some p → ∃ s i, Rec s i p ∧ ids !! k = Some (for_record s i p).
Proof.
  intros (g & c & t & n & [-> _ Ht Hn Hw Hb Hg Hr]). cbn. eexists. split; [done|]. split; [apply length_ids|].
  intros k p Hk. exists (segment_identity g), (t + Z.of_nat k + 1).
  pose proof (lookup_lt_Some _ _ _ Hk) as Hlt. pose proof (blen_recs t (t + n) _ Ht ltac:(lia) Hw) as L.
  unfold blen in L.
  assert (Hs : segs (segment_identity g) !! (Z.to_nat t + k)%nat = Some p).
  { unfold recs in Hk. rewrite lookup_drop in Hk. by apply lookup_take_Some in Hk as [Hk _]. }
  split; [constructor|].
  - lia.
  - replace (Z.to_nat (t + Z.of_nat k + 1 - 1)) with (Z.to_nat t + k)%nat by lia. done.
  - done.
  - rewrite list.Forall_forall in Hr. by eapply Hr, list_elem_of_lookup_2.
  - unfold ids_from. rewrite list_lookup_imap, Hk. done.
Qed.

(** One identifier is one record. *)
Lemma one_record s i p s' i' p' :
  no_collision → Rec s i p → Rec s' i' p' → for_record s i p = for_record s' i' p' → s = s' ∧ i = i' ∧ p = p'.
Proof.
  intros N R R' H. specialize (N _ _ _ _ _ _ R R' H). destruct R as [? _ ? ?], R' as [? _ ? ?].
  by apply record_input_inj in N; [|unfold is_u64; lia..].
Qed.
End RecordIds.
