(* ===== verification/SqlTable.v ===== *)
(** * The table of a SQL sink

    What the MySQL and the Postgres sink promise with an [id_column] and a [UNIQUE]
    constraint on it: the texts they write mean what the configuration says, and a record
    they call committed has its own row in the table, exactly one, from then on. The
    server is known by what it documents of the statements it is sent, as [SqlText] reads
    them. Without an [id_column], which is the default, nothing of the kind holds: the
    constraint is then on the payload, and a record whose bytes repeat is dropped. *)

From Stdlib Require Import ZArith Lia Strings.Byte String.
From stdpp Require Import base gmap list option sets.
From S2P Require Import Prelude Deps Text Names Sink Account Sent S3Key Redact SqlCommon SqlText Mysql Postgres RecordIds Calendar.

(** ** Bound values *)

Definition param_value (params : list Param) (k : Z) : option bytes :=
  match params !! Z.to_nat (k - 1) with Some (PBytes b) | Some (PText b) => Some b | _ => None end.

(** The rows of an [INSERT] into two columns. *)
Definition bound_row (params : list Param) (ks : list Z) : option (bytes * bytes) :=
  match ks with [j; k] => a ← param_value params j; b ← param_value params k; Some (a, b) | _ => None end.
Definition bound_rows (params : list Param) (rows : list (list Z)) : option (list (bytes * bytes)) := mapM (bound_row params) rows.

(** The values a lookup compares with. *)
Definition wanted (params : list Param) (st : LookupStmt) : option (list bytes) :=
  if lk_array st then
    match lk_params st with
    | [k] => match params !! Z.to_nat (k - 1) with Some (PTexts l) => Some l | _ => None end
    | _ => None
    end
  else mapM (param_value params) (lk_params st).

Definition padding (b : byte) : Prop := b = x20 ∨ b = x00.

(** ** The server *)

Section Server.
Context {PE E R : Type} `{S : SqlServer PE E R} (quote : byte) (row_id : R → option bytes).
Context (table id_column column : bytes).
Context (contents : server → gmap bytes bytes).

(** What the operator's table and the server promise: the table has an [id_column] with a
    [UNIQUE] constraint on it and no other that an insert could violate, its columns are
    wide enough for what is bound, and its rows are found by their identifier. An [INSERT] takes effect as a whole or not at all,
    and it has when the server says so; rows whose identifier is there are skipped when
    the statement says so, else there are none. The lookup answers with identifiers that
    are wanted and there, perhaps padded. *)
Record SqlLaws : Prop := mkSqlLaws {
  sl_conn w : contents (snd (get_conn w)) = contents w;
  sl_insert sql params w st rows :
    read_insert (tokens quote sql) = Some st → in_table st = table → in_columns st = [id_column; column] →
    bound_rows params (in_rows st) = Some rows →
    let '(r, w') := execute sql params w in
    let applied := contents w' = contents w ∪ list_to_map rows ∧ (in_skip st = false → NoDup (map fst rows) ∧ Forall (λ x, contents w !! fst x = None) rows) in
    (contents w' = contents w ∨ applied) ∧ (∀ x, r = Completed (Ok x) → applied);
  sl_lookup sql params w st ids :
    read_lookup (tokens quote sql) = Some st → lk_table st = table → lk_column st = id_column → wanted params st = Some ids →
    let '(r, w') := execute sql params w in
    contents w' = contents w ∧
    ∀ found f id, r = Completed (Ok found) → f ∈ found → row_id f = Some id →
      ∃ key pad, key ∈ ids ∧ is_Some (contents w !! key) ∧ id = key ++ pad ∧ Forall padding pad;
  sl_probe w : contents (snd (execute (bstr "SELECT 1") [] w)) = contents w;
}.
End Server.

(** C19: a statement means what the configuration says. For every configuration a SQL sink
    accepts and every number of rows, the text of its [INSERT] and of its lookup, read as
    the server reads it, names the configured table and columns and nothing else, skips
    taken keys exactly in the idempotent mode, and has one row of parameters per record,
    numbered in the order in which the values are bound: no table or column name can
    change the statement. *)
Theorem statements_mean_config :
  (∀ opts c c' n, my_new opts c = Ok c' → (1 ≤ n)%nat →
    read_insert (tokens x60 (my_build_insert_sql c n)) =
      Some (mkInsert (bool_decide (my_insert_mode c = MyIgnore)) (my_table c) (my_columns c) (my_rows c n)) ∧
    ∀ i, my_id_column c = Some i →
      read_lookup (tokens x60 (my_build_lookup_sql c i n)) = Some (mkLookup i (my_table c) (map Z.of_nat (seq 1 n)) false)) ∧
  (∀ parse build c c' n, pg_new parse build c = Ok c' → (1 ≤ n)%nat →
    read_insert (tokens x22 (pg_build_insert_sql c n)) =
      Some (mkInsert (bool_decide (pg_insert_mode c = OnConflictDoNothing)) (pg_table c) (pg_columns c) (pg_rows c n)) ∧
    ∀ i, pg_id_column c = Some i →
      read_lookup (tokens x22 (pg_build_lookup_sql c i)) = Some (mkLookup i (pg_table c) [1] true)).
Proof.
  split.
  - intros opts c c' n H Hn. split; [by eapply my_insert_reads|]. intros i Hi. by eapply my_lookup_reads.
  - intros parse build c c' n H Hn. split; [by eapply pg_insert_reads|]. intros i Hi. by eapply pg_lookup_reads.
Qed.

(** ** The sink contract *)

Lemma parted_partition {W} n Good rows (w : W) cr :
  length rows = n → parted n Good rows w cr → rows ≡ₚ cr_committed cr ++ map fst (cr_dead_lettered cr).
Proof.
  intros Hn (c & d & P & _ & _ & _ & ->). cbn. rewrite map_map. cbn.
  assert (E : map (λ i, rows !!! i) c ++ map (λ x, rows !!! fst x) d = map (λ i, rows !!! i) (c ++ map fst d)).
  { by rewrite map_app, map_map. }
  rewrite E. rewrite <-(seq_total rows) at 1. rewrite Hn. by apply fmap_Permutation.
Qed.

Lemma anything_kept {W} (insert : list nat → W → Ran (result unit StmtError) * W) lookup n ids :
  Kept insert lookup n ids (λ _, True) (λ _ _, True).
Proof. constructor; try done. intros. by apply list.Forall_true. Qed.

Lemma hex_length driver col n ids hex :
  per_record_id_hex driver col n ids = Ok hex → from_option (λ l, length l = n) True hex.
Proof.
  unfold per_record_id_hex. destruct col as [col|]; [|by intros [= <-]]. destruct ids as [l|]; [|done].
  destruct (Nat.eqb_spec (length l) n); [|done]. intros [= <-]. cbn. by rewrite length_map.
Qed.

(** Both sinks keep the drain's contract, with and without an [id_column]. *)
Lemma my_contract {S : SqlServer MyError MyError bytes} display : SinkContract (H := my_sink display).
Proof.
  constructor. intros b [c w] cr st'. cbn. unfold my_commit. destruct (sb_records b) as [|r rs] eqn:Er; [by intros [= <- <-]|].
  rewrite <-Er. destruct (per_record_id_hex _ _ _ _) as [hex|e] eqn:Eh; [|done].
  destruct (insert_with_dup_fallback _ _ _ _ _ _ _ _) as [course w'] eqn:E. intros H _. injection H as H _.
  destruct course as [[cr'|e]| |]; try done. injection H as ->.
  assert (Hn : (1 ≤ length (sb_records b))%nat) by (rewrite Er; cbn; lia).
  destruct (fallback_keeps _ _ _ _ _ _ _ _ _ (anything_kept _ _ _ _) _ _ _ _ eq_refl Hn (hex_length _ _ _ _ _ Eh) I E)
    as [_ P]. by eapply parted_partition; [|apply (P cr)].
Qed.

Lemma pg_contract {S : SqlServer bytes PgError (result bytes bytes)} : SinkContract (H := pg_sink).
Proof.
  constructor. intros b [c w] cr st'. cbn. unfold pg_commit. destruct (sb_records b) as [|r rs] eqn:Er; [by intros [= <- <-]|].
  rewrite <-Er. destruct (per_record_id_hex _ _ _ _) as [hex|e] eqn:Eh; [|done].
  destruct (insert_with_dup_fallback _ _ _ _ _ _ _ _) as [course w'] eqn:E. intros H _. injection H as H _.
  destruct course as [[cr'|e]| |]; try done. injection H as ->.
  assert (Hn : (1 ≤ length (sb_records b))%nat) by (rewrite Er; cbn; lia).
  destruct (fallback_keeps _ _ _ _ _ _ _ _ _ (anything_kept _ _ _ _) _ _ _ _ eq_refl Hn (hex_length _ _ _ _ _ Eh) I E)
    as [_ P]. by eapply parted_partition; [|apply (P cr)].
Qed.

(** ** Rows *)

(** Padding is trimmed off an identifier that has none. *)
Lemma trim_padded key pad : Forall (λ b, ¬ padding b) key → Forall padding pad → trim_end_padding (key ++ pad) = key.
Proof.
  intros Hk Hp. unfold trim_end_padding. rewrite rev_app_distr.
  assert (T : ∀ s t, Forall padding s → trim_padding (s ++ t) = trim_padding t).
  { induction 1 as [|b s Hb Hs IH]; [done|]. cbn. by rewrite bool_decide_true. }
  rewrite T by (by apply Forall_rev). destruct (rev key) as [|b l] eqn:Er; [by rewrite <-(rev_involutive key), Er|].
  apply Forall_rev in Hk. rewrite Er in Hk. apply Forall_cons in Hk as [Hb _]. cbn. rewrite bool_decide_false by done.
  by rewrite <-Er, rev_involutive.
Qed.

Lemma hex_unpadded h : Forall (λ b, ¬ padding b) (to_hex h).
Proof.
  unfold to_hex. apply list.Forall_forall. intros b Hb. rewrite list_elem_of_In, in_concat in Hb.
  destruct Hb as (l & Hl & Hb). apply in_map_iff in Hl as (c & <- & _). pose proof (b2z_range c).
  assert (D : ∀ z, 0 ≤ z < 16 → ¬ padding (hex_digit z)).
  { intros z Hz. unfold hex_digit, padding. intros [E|E]; apply (f_equal b2z) in E; rewrite b2z_z2b in E;
      destruct (z <? 10) eqn:Ez; rewrite Z.mod_small in E by (b2p; lia); change (b2z x20) with 32 in E; change (b2z x00) with 0 in E; b2p; lia. }
  destruct Hb as [<-|[<-|[]]]; apply D; dlia.
Qed.

Section Table.
Context {SHA : Sha256} (segs : bytes → list bytes) (N : no_collision segs).

(** A row under the identifier of a record is that record's. *)
Definition genuine (m : gmap bytes bytes) : Prop :=
  ∀ s i p q, Rec segs s i p → m !! to_hex (for_record s i p) = Some q → q = p.

(** The row of record [k] of a batch is in the table. *)
Definition row_in (b : SinkBatch) (k : nat) (m : gmap bytes bytes) : Prop :=
  ∃ id p, (sb_record_ids b ≫= (.!! k)) = Some id ∧ sb_records b !! k = Some p ∧ m !! to_hex id = Some p.

(** The rows a statement binds. *)
Definition rows_for (b : SinkBatch) (hex : list bytes) (set : list nat) : list (bytes * bytes) :=
  map (λ i, (hex !!! i, sb_records b !!! i)) set.

Section Statements.
Context {W : Type} (contents : W → gmap bytes bytes).
Context (insert : list nat → W → Ran (result unit StmtError) * W).
Context (lookup_present : list nat → W → Ran (result (list bytes) StmtError) * W).
Context (b : SinkBatch) (ids : list bytes) (Hb : from_segments segs b) (Hids : sb_record_ids b = Some ids).
Let n := length (sb_records b).
Let hex := map to_hex ids.

Context (insert_does : ∀ set w, set ≠ [] → Forall (λ i, i < n)%nat set →
  let '(r, w') := insert set w in
  let new := contents w ∪ list_to_map (rows_for b hex set) in
  (contents w' = contents w ∨ contents w' = new) ∧ (r = Completed (Ok tt) → contents w' = new)).
Context (lookup_does : ∀ w,
  let '(r, w') := lookup_present (seq 0 n) w in
  contents w' = contents w ∧
  ∀ found f, r = Completed (Ok found) → f ∈ found →
    ∃ k pad, (k < n)%nat ∧ is_Some (contents w !! (hex !!! k)) ∧ f = hex !!! k ++ pad ∧ Forall padding pad).

(** The record and the row of an index. *)
Lemma index_row k : (k < n)%nat →
  ∃ s i p, Rec segs s i p ∧ sb_records b !!! k = p ∧ sb_records b !! k = Some p ∧
    ids !! k = Some (for_record s i p) ∧ hex !!! k = to_hex (for_record s i p).
Proof.
  intros Hk. destruct (batch_ids segs b Hb) as (ids' & E & _ & H). assert (ids' = ids) as -> by congruence.
  destruct (lookup_lt_is_Some_2 (sb_records b) k Hk) as [p Hp]. destruct (H k p Hp) as (s & i & R & Hi).
  exists s, i, p. split; [done|]. split; [by apply list_lookup_total_correct|]. split; [done|]. split; [done|].
  apply list_lookup_total_correct. unfold hex. by rewrite list_lookup_fmap, Hi.
Qed.

Lemma genuine_row m k : genuine m → (k < n)%nat → is_Some (m !! (hex !!! k)) → row_in b k m.
Proof.
  intros G Hk [q Hq]. destruct (index_row k Hk) as (s & i & p & R & _ & Hp & Hi & Hx). rewrite Hx in Hq.
  exists (for_record s i p), p. rewrite Hids. cbn. split; [done|]. split; [done|]. rewrite Hq. f_equal. by apply (G s i p).
Qed.

Lemma genuine_union m set : genuine m → Forall (λ i, i < n)%nat set → genuine (m ∪ list_to_map (rows_for b hex set)).
Proof.
  intros G B s i p q R H. apply lookup_union_Some_raw in H as [H|[_ H]]; [by apply (G s i p)|].
  apply elem_of_list_to_map_2, list_elem_of_fmap in H as (k & [= Hk ->] & Hin).
  rewrite list.Forall_forall in B. destruct (index_row k (B k Hin)) as (s' & i' & p' & R' & -> & _ & _ & Hx).
  rewrite Hx in Hk. apply to_hex_inj in Hk. by destruct (one_record segs _ _ _ _ _ _ N R R' Hk) as (_ & _ & ->).
Qed.

Lemma inserted_row m set : genuine m → Forall (λ i, i < n)%nat set →
  Forall (λ k, row_in b k (m ∪ list_to_map (rows_for b hex set))) set.
Proof.
  intros G B. apply list.Forall_forall. intros k Hk. apply genuine_row; [by apply genuine_union|rewrite list.Forall_forall in B; by apply B|].
  apply lookup_union_is_Some. right.
  destruct (list_to_map (M := gmap bytes bytes) (rows_for b hex set) !! (hex !!! k)) eqn:E; [done|].
  apply not_elem_of_list_to_map in E. exfalso. apply E. unfold rows_for. change (@map ?A ?B) with (@fmap list _ A B).
  rewrite <-list_fmap_compose. apply list_elem_of_fmap_2'  with k; done.
Qed.

Lemma row_in_mono b' k m m' : m ⊆ m' → row_in b' k m → row_in b' k m'.
Proof. intros Hm (id & p & H1 & H2 & H3). exists id, p. split; [done|]. split; [done|]. by eapply lookup_weaken. Qed.

Lemma table_kept m0 :
  Kept insert lookup_present n (Some hex) (λ w, genuine (contents w) ∧ m0 ⊆ contents w) (λ k w, row_in b k (contents w)).
Proof.
  constructor.
  - intros set w [G M] Hs B. specialize (insert_does set w Hs B). destruct (insert set w) as [r w']. cbn in *.
    destruct insert_does as [[->| ->] _]; [done|]. split; [split; [by apply genuine_union|]|].
    + etrans; [done|]. apply map_union_subseteq_l.
    + intros k. apply row_in_mono, map_union_subseteq_l.
  - intros w G. specialize (lookup_does w). destruct (lookup_present (seq 0 n) w) as [r w']. cbn. by destruct lookup_does as [-> _].
  - intros set w w' [G _] Hs B E. specialize (insert_does set w Hs B). rewrite E in insert_does. destruct insert_does as [_ H].
    rewrite (H eq_refl). by apply inserted_row.
  - intros l w found w' k [= <-] [G _] Hk E Hin. specialize (lookup_does w). rewrite E in lookup_does.
    destruct lookup_does as [-> H]. apply list_elem_of_fmap in Hin as (f & Ef & Hf).
    destruct (H found f eq_refl Hf) as (j & pad & Hj & Hs & -> & Hpad).
    destruct (index_row j Hj) as (s & i & p & _ & _ & _ & _ & Hx).
    rewrite trim_padded in Ef; [|rewrite Hx; apply hex_unpadded|done]. apply genuine_row; [done|done|]. by rewrite Ef.
Qed.

(** What a commit does to the table. *)
Definition commit_does (r : Call (result CommitResult SinkError)) (w w' : W) : Prop :=
  genuine (contents w') ∧ contents w ⊆ contents w' ∧
  ∀ cr, r = Answered (Ok cr) → parted n (λ k w, row_in b k (contents w)) (sb_records b) w' cr.

Lemma fallback_does now driver deadline w :
  sb_records b ≠ [] → genuine (contents w) →
  let '(course, w') := insert_with_dup_fallback now insert lookup_present driver deadline (sb_records b) (Some hex) w in
  commit_does (sql_call course) w w'.
Proof.
  intros Hne G. destruct (insert_with_dup_fallback _ _ _ _ _ _ _ _) as [course w'] eqn:E.
  destruct (batch_ids segs b Hb) as (ids' & Ei & Hl & _). assert (ids' = ids) as -> by congruence.
  destruct (fallback_keeps now insert lookup_present driver deadline n (Some hex) _ _ (table_kept (contents w)) (sb_records b) w course w')
    as [[[G' M] _] P]; [done|unfold n; by destruct (sb_records b); [|cbn; lia]|cbn; unfold hex; by rewrite length_map|done|done|].
  split; [done|]. split; [done|]. intros cr H. apply P. destruct course as [[cr'|e]| |]; cbn in H; [congruence|done..].
Qed.
End Statements.

(** ** Bound parameters *)

Lemma bound_paired (f g : nat → Param) (x y : nat → bytes) set pre :
  (∀ i, f i = PBytes (x i) ∨ f i = PText (x i)) → (∀ i, g i = PBytes (y i)) →
  bound_rows (pre ++ concat (map (λ i, [f i; g i]) set)) (paired_rows (blen pre + 1) (length set)) = Some (map (λ i, (x i, y i)) set).
Proof.
  intros Hf Hg. revert pre. induction set as [|i set IH]; intros pre; [done|].
  cbn [length paired_rows map concat]. unfold bound_rows in *. cbn [mapM].
  assert (V1 : param_value (pre ++ [f i; g i] ++ concat (map (λ i, [f i; g i]) set)) (blen pre + 1) = Some (x i)).
  { unfold param_value. replace (Z.to_nat (blen pre + 1 - 1)) with (length pre) by (unfold blen; lia).
    rewrite lookup_app_r, Nat.sub_diag by lia. cbn. by destruct (Hf i) as [-> | ->]. }
  assert (V2 : param_value (pre ++ [f i; g i] ++ concat (map (λ i, [f i; g i]) set)) (blen pre + 1 + 1) = Some (y i)).
  { unfold param_value. replace (Z.to_nat (blen pre + 1 + 1 - 1)) with (S (length pre)) by (unfold blen; lia).
    rewrite lookup_app_r by lia. replace (S (length pre) - length pre)%nat with 1%nat by lia. cbn. by rewrite Hg. }
  cbn [bound_row]. rewrite V1, V2. cbn [mbind option_bind]. specialize (IH (pre ++ [f i; g i])).
  rewrite <-app_assoc in IH. replace (blen (pre ++ [f i; g i]) + 1) with (blen pre + 1 + 2) in IH
    by (rewrite blen_app, !blen_cons, blen_nil; lia).
  rewrite IH. done.
Qed.

Lemma wanted_marks (x : nat → bytes) l pre :
  mapM (param_value (map PBytes pre ++ map (λ i, PBytes (x i)) l)) (map Z.of_nat (seq (S (length pre)) (length l))) = Some (map x l).
Proof.
  revert pre. induction l as [|i l IH]; intros pre; [done|]. cbn [length seq map mapM].
  assert (V : param_value (map PBytes pre ++ PBytes (x i) :: map (λ i, PBytes (x i)) l) (Z.of_nat (S (length pre))) = Some (x i)).
  { unfold param_value. replace (Z.to_nat (Z.of_nat (S (length pre)) - 1)) with (length pre) by lia.
    by rewrite lookup_app_r, length_map, Nat.sub_diag by (rewrite length_map; lia). }
  rewrite V. cbn [mbind option_bind]. specialize (IH (pre ++ [x i])).
  rewrite map_app, <-app_assoc, length_app, Nat.add_1_r in IH. cbn [map app] in IH. rewrite IH. done.
Qed.

(** ** Any SQL sink *)

(** What the drain does with a sink: it commits a batch or probes. *)
Inductive SinkStep := StepCommit (b : SinkBatch) | StepHealth.
Definition after_step `{Sink} (st : sink_state) (s : SinkStep) : sink_state :=
  match s with StepCommit b => snd (commit b st) | StepHealth => snd (health st) end.
Definition step_drained (s : SinkStep) : Prop := match s with StepCommit b => from_segments segs b | StepHealth => True end.

(** What a sink over a table has to show: a commit does what it says, a probe nothing. *)
Class TableSink `{Sink} (contents : sink_state → gmap bytes bytes) (ready : sink_state → Prop) : Prop := {
  ts_commit b st : ready st → from_segments segs b → genuine (contents st) →
    let '(r, st') := commit b st in ready st' ∧ commit_does contents b r st st';
  ts_health st : ready st → ready (snd (health st)) ∧ contents (snd (health st)) = contents st;
}.

Lemma steps_keep {H : Sink} {contents ready} {T : TableSink contents ready} later st :
  ready st → genuine (contents st) → Forall step_drained later →
  ready (foldl after_step st later) ∧ genuine (contents (foldl after_step st later)) ∧ contents st ⊆ contents (foldl after_step st later).
Proof.
  intros Rd G F. revert st Rd G. induction F as [|s later Hs F IH]; intros st Rd G; [done|]. cbn [foldl].
  assert (P : ready (after_step st s) ∧ genuine (contents (after_step st s)) ∧ contents st ⊆ contents (after_step st s)).
  { destruct s as [b|]; cbn.
    - pose proof (ts_commit b st Rd Hs G) as C. destruct (commit b st) as [r st']. cbn. by destruct C as [? (? & ? & _)].
    - destruct (ts_health st Rd) as [? ->]. done. }
  destruct P as (P1 & P2 & P3). destruct (IH _ P1 P2) as (Q1 & Q2 & Q3). split; [done|]. split; [done|]. by etrans.
Qed.

(** A committed record has its row, whatever is committed, retried or probed afterwards. *)
Definition rows_stay `{Sink} (contents : sink_state → gmap bytes bytes) (ready : sink_state → Prop) : Prop :=
  ∀ b st cr st' later, ready st → genuine (contents st) → from_segments segs b → Forall step_drained later →
    commit b st = (Answered (Ok cr), st') →
    parted (length (sb_records b)) (λ k st, row_in b k (contents st)) (sb_records b) (foldl after_step st' later) cr.

Lemma table_rows_stay {H : Sink} {contents ready} {T : TableSink contents ready} : rows_stay contents ready.
Proof.
  intros b st cr st' later Rd G Hb F E. pose proof (ts_commit b st Rd Hb G) as C. rewrite E in C.
  destruct C as (Rd' & G' & _ & P). destruct (steps_keep later st' Rd' G' F) as (_ & _ & M).
  destruct (P cr eq_refl) as (c & d & H1 & H2 & H3 & H4 & H5). exists c, d. split_and!; try done.
  eapply list.Forall_impl; [exact H4|]. intros k. by apply row_in_mono.
Qed.

(** ** MySQL *)

Section OnMysql.
Context {S : SqlServer MyError MyError bytes} (contents : server → gmap bytes bytes).
Context (opts : bytes → bool) (c : MySqlSinkConfig) (id_column : bytes).
Context (Hc : my_new opts c = Ok c) (Hi : my_id_column c = Some id_column).
Context (L : SqlLaws x60 Some (my_table c) id_column (my_column c) contents).

Lemma my_conn_keeps w : contents (snd (my_conn w)) = contents w.
Proof. unfold my_conn, ran_map. rewrite <-(sl_conn _ _ _ _ _ _ L w). by destruct (get_conn w) as [[]]. Qed.

Lemma my_insert_does b hex set w : set ≠ [] →
  let '(r, w') := my_insert c (sb_records b) (Some hex) set w in
  let new := contents w ∪ list_to_map (rows_for b hex set) in
  (contents w' = contents w ∨ contents w' = new) ∧ (r = Completed (Ok tt) → contents w' = new).
Proof.
  intros Hs. unfold my_insert. pose proof (my_conn_keeps w) as K. destruct (my_conn w) as [[[[]|e]| |] w1]; cbn in K |- *;
    try (by split; [left|]).
  assert (Hn : (1 ≤ length set)%nat) by (destruct set; [done|cbn; lia]).
  pose proof (my_insert_reads opts c c (length set) Hc Hn) as Rd. unfold my_columns, my_rows in Rd. rewrite Hi in Rd. cbn in Rd.
  pose proof (bound_paired (λ i, PBytes (hex !!! i)) (λ i, PBytes (sb_records b !!! i)) (λ i, hex !!! i) (λ i, sb_records b !!! i)
    set [] ltac:(by left) ltac:(done)) as Bd.
  pose proof (sl_insert _ _ _ _ _ _ L _ (my_build_params (sb_records b) (Some hex) set) w1 _ _ Rd eq_refl eq_refl Bd) as Ef.
  destruct (execute _ _ w1) as [[[x|e]| |] w2]; cbn in Ef |- *; rewrite K in Ef; destruct Ef as [E1 E2]; unfold rows_for.
  all: split; [destruct E1 as [->|[-> _]]; auto|]; try done.
  intros _. by apply (E2 x).
Qed.

Lemma my_lookup_does b ids w : sb_records b ≠ [] →
  let hex := map to_hex ids in let n := length (sb_records b) in
  let '(r, w') := my_lookup_present c (Some hex) (seq 0 n) w in
  contents w' = contents w ∧
  ∀ found f, r = Completed (Ok found) → f ∈ found →
    ∃ k pad, (k < n)%nat ∧ is_Some (contents w !! (hex !!! k)) ∧ f = hex !!! k ++ pad ∧ Forall padding pad.
Proof.
  intros Hne hex n. unfold my_lookup_present. rewrite Hi. pose proof (my_conn_keeps w) as K.
  destruct (my_conn w) as [[[[]|e]| |] w1]; cbn in K |- *; try (by split).
  assert (Hn : (1 ≤ n)%nat) by (unfold n; destruct (sb_records b); [done|cbn; lia]).
  pose proof (my_lookup_reads opts c c id_column n Hc Hi Hn) as Rd.
  pose proof (wanted_marks (λ i, hex !!! i) (seq 0 n) []) as Wd. rewrite length_seq in Wd. cbn [length app map] in Wd.
  rewrite length_seq.
  pose proof (sl_lookup _ _ _ _ _ _ L _ _ w1 _ _ Rd eq_refl eq_refl Wd) as Ef.
  destruct (execute _ _ w1) as [[[x|e]| |] w2]; cbn in Ef |- *; rewrite K in Ef; destruct Ef as [-> E2]; (split; [done|]); try done.
  intros found f [= <-] Hf. destruct (E2 x f f eq_refl Hf eq_refl) as (key & pad & Hk & Hs & -> & Hp).
  apply list_elem_of_fmap in Hk as (k & -> & Hk). apply elem_of_seq in Hk. exists k, pad. by split_and!; [lia|..].
Qed.

Lemma my_commit_does b w : from_segments segs b → genuine (contents w) →
  let '(r, w') := my_commit c b w in commit_does contents b r w w'.
Proof.
  intros Hb G. unfold my_commit. destruct (batch_ids segs b Hb) as (ids & Ei & Hl & _).
  destruct (sb_records b) as [|r0 rs] eqn:Er.
  { split; [done|]. split; [done|]. intros cr [= <-]. rewrite Er. exists [], []. by repeat constructor. }
  rewrite <-Er in *. rewrite Hi, Ei. cbn [per_record_id_hex]. rewrite (proj2 (Nat.eqb_eq _ _) Hl).
  assert (Hne : sb_records b ≠ []) by by rewrite Er.
  pose proof (fallback_does contents (my_insert c (sb_records b) (Some (map to_hex ids))) (my_lookup_present c (Some (map to_hex ids))) b ids Hb Ei
    (λ set w Hs _, my_insert_does b _ set w Hs) (λ w, my_lookup_does b ids w Hne) server_now MY_DRIVER (server_now w + my_timeout c) w Hne G) as F.
  destruct (insert_with_dup_fallback _ _ _ _ _ _ _ _) as [course w']. exact F.
Qed.

Definition my_ready (st : MySqlSinkConfig * server) : Prop := fst st = c.
Definition my_contents (st : MySqlSinkConfig * server) : gmap bytes bytes := contents (snd st).

Lemma my_table_sink display : TableSink (H := my_sink display) my_contents my_ready.
Proof.
  constructor.
  - intros b [c' w] -> Hb G. cbn. pose proof (my_commit_does b w Hb G) as C. by destruct (my_commit c b w) as [r w'].
  - intros [c' w] ->. cbn. unfold my_health, ran_then. pose proof (sl_conn _ _ _ _ _ _ L w) as K.
    destruct (get_conn w) as [[[[]|e]| |] w1]; cbn in K |- *; try done. pose proof (sl_probe _ _ _ _ _ _ L w1) as K1.
    destruct (execute _ _ w1) as [[[x|e]| |] w2]; cbn in K1 |- *; unfold my_contents; cbn; (split; [done|congruence]).
Qed.

(** C14: the rows of the MySQL sink. For a sink with [id_column] set (it is unset by
    default), against a server that keeps that column [UNIQUE], has columns wide enough and
    executes each statement as a whole or not at all, whether or not its answer arrives,
    on a table that so far has only genuine rows under the identifiers of the records, and
    as long as SHA-256 does not collide on these: when a commit of a batch of the drain is answered [Ok], the
    batch is split by index into committed and dead-lettered records, and in the table
    every committed record has the row of its own identifier and its own bytes — one,
    since identifiers are unique — and still has it after any later commits, retries of
    the same batch, replays in other batches and probes. Distinct records with the same
    bytes keep their own rows. Both insert modes. *)
Theorem mysql_rows_stay display : rows_stay (H := my_sink display) my_contents my_ready.
Proof. exact (table_rows_stay (T := my_table_sink display)). Qed.
End OnMysql.

(** ** Postgres *)

Section OnPostgres.
Context {S : SqlServer bytes PgError (result bytes bytes)} (contents : server → gmap bytes bytes).
Context (parse : bytes → bool) (build : bytes → option bytes) (c : PostgresSinkConfig) (id_column : bytes).
Context (Hc : pg_new parse build c = Ok c) (Hi : pg_id_column c = Some id_column).
Definition pg_row_id (r : result bytes bytes) : option bytes := match r with Ok id => Some id | Err _ => None end.
Context (L : SqlLaws x22 pg_row_id (pg_table c) id_column (pg_column c) contents).

Lemma pg_conn_keeps w : contents (snd (pg_conn w)) = contents w.
Proof. unfold pg_conn, ran_map. rewrite <-(sl_conn _ _ _ _ _ _ L w). by destruct (get_conn w) as [[]]. Qed.

Lemma pg_insert_does b hex set w : set ≠ [] →
  let '(r, w') := pg_insert c (sb_records b) (Some hex) set w in
  let new := contents w ∪ list_to_map (rows_for b hex set) in
  (contents w' = contents w ∨ contents w' = new) ∧ (r = Completed (Ok tt) → contents w' = new).
Proof.
  intros Hs. unfold pg_insert. pose proof (pg_conn_keeps w) as K. destruct (pg_conn w) as [[[[]|e]| |] w1]; cbn in K |- *;
    try (by split; [left|]).
  assert (Hn : (1 ≤ length set)%nat) by (destruct set; [done|cbn; lia]).
  pose proof (pg_insert_reads parse build c c (length set) Hc Hn) as Rd. unfold pg_columns, pg_rows in Rd. rewrite Hi in Rd. cbn in Rd.
  pose proof (bound_paired (λ i, PText (hex !!! i)) (λ i, PBytes (sb_records b !!! i)) (λ i, hex !!! i) (λ i, sb_records b !!! i)
    set [] ltac:(by right) ltac:(done)) as Bd.
  assert (Ep : concat (map (λ i, [PText (hex !!! i); PBytes (sb_records b !!! i)]) set) =
    map bound_value (concat (map (λ i, [BId (hex !!! i); BPayload (sb_records b !!! i)]) set))).
  { clear. induction set as [|i set IH]; [done|]. cbn. by rewrite IH. }
  cbn [app] in Bd. rewrite Ep in Bd.
  pose proof (sl_insert _ _ _ _ _ _ L _ _ w1 _ _ Rd eq_refl eq_refl Bd) as Ef.
  destruct (execute _ _ w1) as [[[x|e]| |] w2]; cbn in Ef |- *; rewrite K in Ef; destruct Ef as [E1 E2]; unfold rows_for.
  all: split; [destruct E1 as [->|[-> _]]; auto|]; try done.
  intros _. by apply (E2 x).
Qed.

Lemma pg_read_ids_in rows ids f : pg_read_ids rows = Ok ids → f ∈ ids → Ok f ∈ rows.
Proof.
  revert ids. induction rows as [|[id|e] rows IH]; intros ids H Hf; cbn in H; [|destruct (pg_read_ids rows)|done].
  - injection H as <-. by apply not_elem_of_nil in Hf.
  - injection H as <-. apply elem_of_cons in Hf as [->|Hf]; [by left|right; by eapply IH].
  - done.
Qed.

Lemma pg_lookup_does b ids w :
  let hex := map to_hex ids in let n := length (sb_records b) in
  let '(r, w') := pg_lookup_present c (Some hex) (seq 0 n) w in
  contents w' = contents w ∧
  ∀ found f, r = Completed (Ok found) → f ∈ found →
    ∃ k pad, (k < n)%nat ∧ is_Some (contents w !! (hex !!! k)) ∧ f = hex !!! k ++ pad ∧ Forall padding pad.
Proof.
  intros hex n. unfold pg_lookup_present. rewrite Hi. pose proof (pg_conn_keeps w) as K.
  destruct (pg_conn w) as [[[[]|e]| |] w1]; cbn in K |- *; try (by split).
  pose proof (pg_lookup_reads parse build c c id_column Hc Hi) as Rd.
  pose proof (sl_lookup _ _ _ _ _ _ L _ [PTexts (map (λ i, hex !!! i) (seq 0 n))] w1 _ _ Rd eq_refl eq_refl eq_refl) as Ef.
  destruct (execute _ _ w1) as [[[x|e]| |] w2]; cbn in Ef |- *; rewrite K in Ef; destruct Ef as [-> E2]; (split; [done|]); try done.
  intros found f Ef Hf. injection Ef as Ef. apply (pg_read_ids_in x found f Ef) in Hf.
  destruct (E2 x (Ok f) f eq_refl Hf eq_refl) as (key & pad & Hk & Hs & -> & Hp).
  apply list_elem_of_fmap in Hk as (k & -> & Hk). apply elem_of_seq in Hk. exists k, pad. by split_and!; [lia|..].
Qed.

Lemma pg_commit_does b w : from_segments segs b → genuine (contents w) →
  let '(r, w') := pg_commit c b w in commit_does contents b r w w'.
Proof.
  intros Hb G. unfold pg_commit. destruct (batch_ids segs b Hb) as (ids & Ei & Hl & _).
  destruct (sb_records b) as [|r0 rs] eqn:Er.
  { split; [done|]. split; [done|]. intros cr [= <-]. rewrite Er. exists [], []. by repeat constructor. }
  rewrite <-Er in *. rewrite Hi, Ei. cbn [per_record_id_hex]. rewrite (proj2 (Nat.eqb_eq _ _) Hl).
  assert (Hne : sb_records b ≠ []) by by rewrite Er.
  pose proof (fallback_does contents (pg_insert c (sb_records b) (Some (map to_hex ids))) (pg_lookup_present c (Some (map to_hex ids))) b ids Hb Ei
    (λ set w Hs _, pg_insert_does b _ set w Hs) (λ w, pg_lookup_does b ids w) server_now PG_DRIVER (server_now w + pg_timeout c) w Hne G) as F.
  destruct (insert_with_dup_fallback _ _ _ _ _ _ _ _) as [course w']. exact F.
Qed.

Definition pg_ready (st : PostgresSinkConfig * server) : Prop := fst st = c.
Definition pg_contents (st : PostgresSinkConfig * server) : gmap bytes bytes := contents (snd st).

Lemma pg_table_sink : TableSink (H := pg_sink) pg_contents pg_ready.
Proof.
  constructor.
  - intros b [c' w] -> Hb G. cbn. pose proof (pg_commit_does b w Hb G) as C. by destruct (pg_commit c b w) as [r w'].
  - intros [c' w] ->. cbn. unfold pg_health. pose proof (sl_conn _ _ _ _ _ _ L w) as K.
    destruct (get_conn w) as [[[[]|e]| |] w1]; cbn in K |- *; try done. pose proof (sl_probe _ _ _ _ _ _ L w1) as K1.
    destruct (execute _ _ w1) as [[[x|e]| |] w2]; cbn in K1 |- *; unfold pg_contents; cbn; (split; [done|congruence]).
Qed.

(** C15: the rows of the Postgres sink, under the conditions of the MySQL sink's: with
    [id_column] set (it is unset by default) and [UNIQUE] in a table with wide enough
    columns and only genuine rows, and no collision of SHA-256 on the records. A record
    that a commit calls committed has in the table the row of its own identifier and its own bytes, and
    keeps it, with [ON CONFLICT DO NOTHING] and in plain mode, whatever statement of
    whatever attempt failed, timed out or was applied without an answer. *)
Theorem postgres_rows_stay : rows_stay (H := pg_sink) pg_contents pg_ready.
Proof. exact (table_rows_stay (T := pg_table_sink)). Qed.
End OnPostgres.
End Table.

(** A server whose statements may be applied without an answer, in both dialects. *)
Module SqlWitness.
#[local] Instance plain_hash : Sha256 := {| sha256 l := l |}.

Definition toy : Type := gmap bytes bytes * list bool.
Definition toy_insert (st : InsertStmt) (rows : list (bytes * bytes)) (m : gmap bytes bytes) : option (gmap bytes bytes) :=
  if in_skip st || (bool_decide (NoDup (map fst rows)) && forallb (λ x, bool_decide (m !! fst x = None)) rows)
  then Some (m ∪ list_to_map rows) else None.
(** The script tells of each statement whether its answer is lost. *)
Definition toy_execute {E R} (quote : byte) (dup bad : E) (wrap : bytes → R) (sql : bytes) (params : list Param) (w : toy) :
    Ran (result (list R) E) * toy :=
  let '(m, script) := w in
  match read_insert (tokens quote sql) with
  | Some st =>
    match bound_rows params (in_rows st) with
    | Some rows =>
      match toy_insert st rows m with
      | Some m' => (if head script is Some true then Elapsed else Completed (Ok []), (m', tail script))
      | None => (Completed (Err dup), (m, tail script))
      end
    | None => (Completed (Err bad), (m, tail script))
    end
  | None =>
    match read_lookup (tokens quote sql) with
    | Some st => (Completed (Ok (map wrap (filter (λ k, is_Some (m !! k)) (default [] (wanted params st))))), (m, tail script))
    | None => (Completed (Ok []), (m, tail script))
    end
  end.
Definition toy_conn {PE} (w : toy) : Ran (result unit PE) * toy := (Completed (Ok tt), w).

Lemma toy_laws {PE E R} quote (dup bad : E) (wrap : bytes → R) row_id table idc col :
  (∀ id, row_id (wrap id) = Some id) → read_insert (tokens quote (bstr "SELECT 1")) = None → read_lookup (tokens quote (bstr "SELECT 1")) = None →
  SqlLaws (S := {| server := toy; server_now _ := 0; get_conn := @toy_conn PE; execute := toy_execute quote dup bad wrap |})
    quote row_id table idc col fst.
Proof.
  intros Hw H1 H2. constructor; cbn.
  - done.
  - intros sql params [m script] st rows Rd _ _ Bd. unfold toy_execute. rewrite Rd, Bd. unfold toy_insert.
    destruct (in_skip st || _) eqn:Eb; cbn; [|by split; [left|]].
    assert (A : m ∪ list_to_map rows = m ∪ list_to_map rows ∧ (in_skip st = false → NoDup (map fst rows) ∧ Forall (λ x, m !! fst x = None) rows)).
    { split; [done|]. intros Es. rewrite Es in Eb. cbn in Eb. apply andb_true_iff in Eb as [E1 E2]. b2p. split; [done|].
      rewrite forallb_forall in E2. apply list.Forall_forall. intros x Hx. apply list_elem_of_In, E2 in Hx. by b2p. }
    by split; [right|].
  - intros sql params [m script] st ids Rd _ _ Wd. unfold toy_execute.
    destruct (read_insert (tokens quote sql)) as [i|] eqn:Ri.
    { exfalso. unfold read_insert, read_lookup in *. destruct (tokens quote sql) as [|t ts]; [done|]. unfold expect_word in *. cbn in Ri, Rd.
      case_bool_decide as E1; [|done]. case_bool_decide as E2; [|done]. rewrite <-E2 in E1. done. }
    rewrite Rd, Wd. cbn. split; [done|]. intros found f id [= <-] Hf Hid.
    apply list_elem_of_fmap in Hf as (k & -> & Hk). apply list_elem_of_filter in Hk as [Hs Hk]. rewrite Hw in Hid. injection Hid as <-.
    exists k, []. by rewrite app_nil_r.
  - intros [m script]. change (fst (snd (toy_execute (E := E) quote dup bad wrap (bstr "SELECT 1") [] (m, script))) = m).
    unfold toy_execute. by rewrite H1, H2.
Qed.

Definition segment : path := [bstr "shard_00"; bstr "seg_00000001.wab.sealed"].
Definition recorded : list bytes := [bstr "tick"; bstr "tick"; bstr "tock"].
Definition segs (s : bytes) : list bytes := if bool_decide (s = segment_identity segment) then recorded else [].
Definition batch (t n : Z) : SinkBatch := batch_at segment 7 t n (segs (segment_identity segment)).

Lemma plain_no_collision : no_collision segs.
Proof. by intros s i p s' i' p' _ _. Qed.

Lemma batch_from t n : 0 ≤ t → 1 ≤ n → t + n ≤ 3 → from_segments segs (batch t n).
Proof.
  assert (R : segs (segment_identity segment) = recorded) by (vm_compute; reflexivity).
  intros H1 H2 H3. exists segment, 7, t, n.
  constructor; [done|by vm_compute|done|done| | |by vm_compute|]; rewrite R; [done..|by repeat constructor].
Qed.

Lemma genuine_empty : genuine segs ∅.
Proof. intros s i p q _ H. by rewrite lookup_empty in H. Qed.

Definition later : list SinkStep := [StepCommit (batch 1 2); StepHealth; StepCommit (batch 0 3)].
Lemma later_drained : Forall (step_drained segs) later.
Proof. do 3 (constructor; [try done; by apply batch_from|]). constructor. Qed.

(** Two equal records and a third; the first statement is applied and its answer is lost,
    the retry finds the rows by their identifiers. *)
#[local] Instance my_toy : SqlServer MyError MyError bytes := {|
  server := toy; server_now _ := 0; get_conn := toy_conn;
  execute := toy_execute x60 (MyServer 1062 (bstr "Duplicate entry")) (MyServer 1064 (bstr "syntax")) id |}.
Definition my_cfg : MySqlSinkConfig :=
  mkMySqlSinkConfig (bstr "mysql://u:p@db/weir") (bstr "events") (bstr "payload") (Some (bstr "record_id")) MyPlain 100 5.
Definition my_toy_sink : Sink := my_sink (λ _, []).
Definition my_started : MySqlSinkConfig * toy := (my_cfg, (∅, [true])).
Definition my_retried : MySqlSinkConfig * toy := snd (commit (Sink := my_toy_sink) (batch 0 2) my_started).

Lemma my_toy_laws : SqlLaws x60 Some (bstr "events") (bstr "record_id") (bstr "payload") fst.
Proof. apply toy_laws; [done|vm_compute; reflexivity..]. Qed.

Lemma my_cfg_ok : my_new (λ _, true) my_cfg = Ok my_cfg.
Proof. vm_compute. reflexivity. Qed.

Example my_first_lost : fst (commit (Sink := my_toy_sink) (batch 0 2) my_started) = Answered (Err (mkSinkError true None)).
Proof. vm_compute. reflexivity. Qed.

Lemma my_retry_answers :
  commit (Sink := my_toy_sink) (batch 0 2) my_retried =
  (Answered (Ok (mkCommitResult [bstr "tick"; bstr "tick"] [])), snd (commit (Sink := my_toy_sink) (batch 0 2) my_retried)).
Proof.
  assert (E : fst (commit (Sink := my_toy_sink) (batch 0 2) my_retried) = Answered (Ok (mkCommitResult [bstr "tick"; bstr "tick"] [])))
    by (vm_compute; reflexivity).
  rewrite <-E. apply surjective_pairing.
Qed.

Lemma mysql_rows_stay_witness :
  parted 2 (λ k st, row_in (batch 0 2) k (my_contents fst st)) (sb_records (batch 0 2))
    (foldl (after_step (H := my_toy_sink)) (snd (commit (Sink := my_toy_sink) (batch 0 2) my_retried)) later)
    (mkCommitResult [bstr "tick"; bstr "tick"] []).
Proof.
  refine (mysql_rows_stay segs plain_no_collision fst (λ _, true) my_cfg (bstr "record_id") my_cfg_ok eq_refl my_toy_laws (λ _, [])
    (batch 0 2) my_retried _ _ later eq_refl _ (batch_from 0 2 ltac:(done) ltac:(done) ltac:(done)) later_drained my_retry_answers).
  pose proof (my_commit_does segs plain_no_collision fst (λ _, true) my_cfg (bstr "record_id") my_cfg_ok eq_refl my_toy_laws
    (batch 0 2) (∅, [true]) (batch_from 0 2 ltac:(done) ltac:(done) ltac:(done)) genuine_empty) as C.
  unfold my_retried, my_contents. cbn [commit my_toy_sink my_sink my_started fst snd].
  match type of C with let '(r, w') := ?x in _ => destruct x as [r w] end. exact (proj1 C).
Defined.

Lemma statements_mean_config_witness :
  read_insert (tokens x60 (my_build_insert_sql my_cfg 2)) =
  Some (mkInsert false (bstr "events") [bstr "record_id"; bstr "payload"] [[1; 2]; [3; 4]]).
Proof. exact (proj1 (proj1 statements_mean_config (λ _, true) my_cfg my_cfg 2%nat my_cfg_ok ltac:(lia))). Defined.

(** The same on Postgres, in the idempotent mode. *)
#[local] Instance pg_toy : SqlServer bytes PgError (result bytes bytes) := {|
  server := toy; server_now _ := 0; get_conn := toy_conn;
  execute := toy_execute x22 (mkPgError [] (Some (bstr "23505", bstr "duplicate key"))) (mkPgError [] (Some (bstr "42601", bstr "syntax"))) Ok |}.
Definition pg_cfg : PostgresSinkConfig :=
  mkPostgresSinkConfig (bstr "postgres://u:p@db/weir") (bstr "events") (bstr "payload") (Some (bstr "record_id")) OnConflictDoNothing 100 5.
Definition pg_started : PostgresSinkConfig * toy := (pg_cfg, (∅, [])).

Lemma pg_toy_laws : SqlLaws x22 pg_row_id (bstr "events") (bstr "record_id") (bstr "payload") fst.
Proof. apply toy_laws; [done|vm_compute; reflexivity..]. Qed.

Lemma pg_cfg_ok : pg_new (λ _, true) (λ _, None) pg_cfg = Ok pg_cfg.
Proof. vm_compute. reflexivity. Qed.

Lemma pg_answers :
  commit (Sink := pg_sink) (batch 0 2) pg_started =
  (Answered (Ok (mkCommitResult [bstr "tick"; bstr "tick"] [])), snd (commit (Sink := pg_sink) (batch 0 2) pg_started)).
Proof.
  assert (E : fst (commit (Sink := pg_sink) (batch 0 2) pg_started) = Answered (Ok (mkCommitResult [bstr "tick"; bstr "tick"] [])))
    by (vm_compute; reflexivity).
  rewrite <-E. apply surjective_pairing.
Qed.

Lemma postgres_rows_stay_witness :
  parted 2 (λ k st, row_in (batch 0 2) k (pg_contents fst st)) (sb_records (batch 0 2))
    (foldl (after_step (H := pg_sink)) (snd (commit (Sink := pg_sink) (batch 0 2) pg_started)) later)
    (mkCommitResult [bstr "tick"; bstr "tick"] []).
Proof.
  exact (postgres_rows_stay segs plain_no_collision fst (λ _, true) (λ _, None) pg_cfg (bstr "record_id") pg_cfg_ok eq_refl pg_toy_laws
    (batch 0 2) pg_started _ _ later eq_refl genuine_empty (batch_from 0 2 ltac:(done) ltac:(done) ltac:(done)) later_drained pg_answers).
Defined.
End SqlWitness.
