(* ===== verification/Http.v ===== *)
(** * The HTTP sink (sink/http.rs) and the no-op sink (sink/noop.rs)

    One POST per record, up to [concurrency] of them in flight, or one newline-delimited
    POST per batch; the classification of the answers; the probe. The HTTP client and the
    endpoint are an environment: a script says how each request that is started fares, in
    the order in which they are started, and a log keeps the requests the endpoint took. *)

From Stdlib Require Import ZArith Lia Strings.Byte String.
From stdpp Require Import base list option.
From S2P Require Import Prelude Deps Text Sink S3Key S3 Redact.

(** ** The no-op sink *)

Definition noop_commit (b : SinkBatch) : result CommitResult SinkError := Ok (mkCommitResult (sb_records b) []).
Definition noop_health : SinkHealth := Healthy.

(** ** Statuses *)

(** The classes of [http::StatusCode]; [is_success] is in [S3]. *)
Definition is_redirection (status : Z) : bool := (300 <=? status) && (status <? 400).
Definition is_client_error (status : Z) : bool := (400 <=? status) && (status <? 500).
Definition is_server_error (status : Z) : bool := (500 <=? status) && (status <? 600).

(** [classify_status_transient]. *)
Definition classify_status_transient (status : Z) : bool := (status =? 408) || (status =? 429) || is_server_error status.

(** ** The client *)

(** What the sink uses of the HTTP crates besides sending: the text of a status (its code
    and reason), why a URL does not parse, and why a client cannot be built. *)
Class HttpLib := {
  status_display : Z → bytes;
  url_parse_error : bytes → option bytes;
  client_build_error : option bytes;
}.

Record HttpRequest := mkHttpRequest {
  hr_method : bytes;
  hr_url : bytes;
  hr_headers : list (bytes * bytes);
  hr_body : bytes;
}.

(** An answer: its status, the text of two headers where they have one, and the chunks of
    the body up to its end or a read error. *)
Record HttpReply := mkHttpReply {
  rp_status : Z;
  rp_location : option bytes;
  rp_retry_after : option bytes;
  rp_body : list bytes;
}.

(** How a request fares: an answer, a transport error, or nothing until the drain gives the
    commit up; [taken] says whether the endpoint processed it all the same. *)
Inductive HttpFate :=
| HttpReplies (r : HttpReply) (taken : bool)
| HttpFails (error : bytes) (taken : bool)
| HttpPending (taken : bool).

(** An endpoint that answers a success has processed the request. *)
Definition request_taken (f : HttpFate) : bool :=
  match f with HttpReplies r taken => is_success (rp_status r) || taken | HttpFails _ taken | HttpPending taken => taken end.

Record HttpEnv := mkHttpEnv { he_script : list HttpFate; he_taken : list HttpRequest }.

(** Start a request. *)
Definition http_start (req : HttpRequest) (e : HttpEnv) : HttpFate * HttpEnv :=
  let f := default (HttpPending false) (head (he_script e)) in
  (f, mkHttpEnv (tail (he_script e)) (he_taken e ++ (if request_taken f then [req] else []))).

(** ** Configuration *)

Inductive HttpBatchMode := PerRecord | NdjsonBatch.

Record HttpSinkConfig := mkHttpSinkConfig {
  hc_url : bytes;
  hc_timeout : Z;
  hc_max_batch_size : Z;
  hc_batch_mode : HttpBatchMode;
  hc_bearer_token : option bytes;
  hc_send_idempotency_key : bool;
  hc_concurrency : nat;
}.

Inductive HttpSinkBuildError := HttpEmptyUrl | HttpInvalidUrl (e : bytes) | HttpClientBuild (e : bytes).

(** ** Errors *)

Inductive HttpSinkError :=
| HttpTransport (text : bytes)
| HttpTransient (status : Z) (retry_after : option Z)
| HttpPermanent (status : Z) (body_excerpt : bytes).

(** [impl SinkError for HttpSinkError]. *)
Definition http_sink_error (e : HttpSinkError) : SinkError :=
  match e with
  | HttpTransport _ => mkSinkError true None
  | HttpTransient _ retry_after => mkSinkError true retry_after
  | HttpPermanent _ _ => mkSinkError false None
  end.

(** [str::trim]. *)
Fixpoint trim_ws_start (cs : list bytes) : list bytes :=
  match cs with c :: cs' => if is_whitespace c then trim_ws_start cs' else cs | [] => [] end.
Definition trim (s : bytes) : bytes := concat (rev (trim_ws_start (rev (trim_ws_start (chars s))))).

(** [parse_retry_after_seconds]; a duration in nanoseconds. *)
Definition parse_retry_after_seconds (value : bytes) : option Z :=
  secs ← parse_u64 (trim value);
  if (1 <=? secs) && (secs <=? 3600) then Some (secs * 10 ^ 9) else None.

(** [payload_idempotency_key], and [to_prefixed_hex] of an identifier or a token. *)
Definition to_prefixed_hex (h : bytes) : bytes := bstr "sha256:" ++ to_hex h.
Definition payload_idempotency_key `{Sha256} (payload : bytes) : bytes := to_prefixed_hex (sha256 payload).

(** [record_is_unframable]. *)
Definition record_is_unframable (record : bytes) : bool := existsb (λ b, bool_decide (b = x0a ∨ b = x0d)) record.

Definition HTTP_NEWLINE_REASON : bytes :=
  bstr "record contains an embedded newline; cannot be NDJSON-framed (use sink_http_batch=none for newline-bearing payloads)".

Section Http.
Context {SHA : Sha256} {LIB : HttpLib}.

(** [HttpSink::new]. *)
Definition http_new (c : HttpSinkConfig) : result HttpSinkConfig HttpSinkBuildError :=
  match hc_url c with
  | [] => Err HttpEmptyUrl
  | _ =>
    match url_parse_error (hc_url c) with
    | Some e => Err (HttpInvalidUrl e)
    | None => match client_build_error with Some e => Err (HttpClientBuild e) | None => Ok c end
    end
  end.

(** [base_request] with the headers and the body its callers add. *)
Definition post_request (c : HttpSinkConfig) (content_type : bytes) (key : bytes) (body : bytes) : HttpRequest :=
  mkHttpRequest (bstr "POST") (hc_url c)
    (from_option (λ t, [(bstr "Authorization", bstr "Bearer " ++ t)]) [] (hc_bearer_token c)
     ++ [(bstr "Content-Type", content_type)]
     ++ (if hc_send_idempotency_key c then [(bstr "Idempotency-Key", key)] else []))
    body.

(** [send_and_classify], on the fate of its request; [None] is a future that is dropped. *)
Definition classify_fate (f : HttpFate) : option (result unit HttpSinkError) :=
  match f with
  | HttpPending _ => None
  | HttpFails e _ => Some (Err (HttpTransport (redact_url_password e)))
  | HttpReplies r _ =>
    let status := rp_status r in
    Some (
      if is_success status then Ok tt
      else if is_redirection status then
        let raw_location := default (bstr "<no Location header>") (rp_location r) in
        let location := sanitize_log_excerpt (concat (take 256 (chars raw_location))) in
        Err (HttpPermanent status
          (bstr "unexpected redirect to '" ++ location
           ++ bstr "'; redirects are not followed — point sink_url directly at the ingest endpoint"))
      else if classify_status_transient status then
        Err (HttpTransient status (rp_retry_after r ≫= parse_retry_after_seconds))
      else
        let body := read_body_capped (rp_body r) RESPONSE_BODY_CAP in
        Err (HttpPermanent status (sanitize_log_excerpt (to_string_lossy (take 256 body)))))
  end.

Definition send_and_classify (req : HttpRequest) (e : HttpEnv) : option (result unit HttpSinkError) * HttpEnv :=
  let '(f, e) := http_start req e in (classify_fate f, e).

(** The request of [post_record]. *)
Definition record_request (c : HttpSinkConfig) (x : bytes * option bytes) : HttpRequest :=
  let key := match snd x with Some id => to_prefixed_hex id | None => payload_idempotency_key (fst x) end in
  post_request c (bstr "application/octet-stream") key (fst x).
Definition post_record (c : HttpSinkConfig) (x : bytes * option bytes) (e : HttpEnv) : option (result unit HttpSinkError) * HttpEnv :=
  send_and_classify (record_request c x) e.

(** [post_batch]. *)
Definition batch_request (c : HttpSinkConfig) (body token : bytes) : HttpRequest :=
  post_request c (bstr "application/x-ndjson") (to_prefixed_hex token) body.

(** The requests that are in flight behind the one whose answer ends the loop: they are
    started, and their answers are not looked at. *)
Definition start_more (c : HttpSinkConfig) (xs : list (bytes * option bytes)) (e : HttpEnv) : HttpEnv :=
  foldl (λ e x, snd (post_record c x e)) e xs.

(** The loop of [commit_per_record] over the ordered stream of outcomes. *)
Fixpoint per_record_loop (c : HttpSinkConfig) (keyed : list (bytes * option bytes)) (committed : list bytes)
    (dead_lettered : list (bytes * bytes)) (e : HttpEnv) : Call (result CommitResult HttpSinkError) * HttpEnv :=
  match keyed with
  | [] => (Answered (Ok (mkCommitResult committed dead_lettered)), e)
  | x :: keyed =>
    let in_flight := take (Nat.max (hc_concurrency c) 1 - 1) keyed in
    match post_record c x e with
    | (Some (Ok tt), e) => per_record_loop c keyed (committed ++ [fst x]) dead_lettered e
    | (Some (Err (HttpPermanent status excerpt)), e) =>
      per_record_loop c keyed committed
        (dead_lettered ++ [(fst x, bstr "http " ++ status_display status ++ bstr ": " ++ excerpt)]) e
    | (Some (Err err), e) => (Answered (Err err), start_more c in_flight e)
    | (None, e) => (Silent, start_more c in_flight e)
    end
  end.

(** Each record with its identifier. *)
Definition keyed_records (records : list bytes) (record_ids : option (list bytes)) : list (bytes * option bytes) :=
  match record_ids with
  | Some ids => zip records (map Some ids)
  | None => map (λ p, (p, None)) records
  end.

Definition commit_per_record (c : HttpSinkConfig) (records : list bytes) (record_ids : option (list bytes)) (e : HttpEnv) :
    Call (result CommitResult HttpSinkError) * HttpEnv :=
  per_record_loop c (keyed_records records record_ids) [] [] e.

(** The body of an NDJSON request. *)
Definition ndjson_body (framable : list bytes) : bytes := concat (map (λ r, r ++ [x0a]) framable).

(** [commit_ndjson]. *)
Definition commit_ndjson (c : HttpSinkConfig) (batch : list bytes) (token : bytes) (e : HttpEnv) :
    Call (result CommitResult HttpSinkError) * HttpEnv :=
  match batch with
  | [] => (Answered (Ok (mkCommitResult [] [])), e)
  | _ =>
    let framable := List.filter (λ r, negb (record_is_unframable r)) batch in
    let unframable := List.filter record_is_unframable batch in
    let dead_lettered := map (λ r, (r, HTTP_NEWLINE_REASON)) unframable in
    match framable with
    | [] => (Answered (Ok (mkCommitResult [] dead_lettered)), e)
    | _ =>
      match send_and_classify (batch_request c (ndjson_body framable) token) e with
      | (Some (Ok tt), e) => (Answered (Ok (mkCommitResult framable dead_lettered)), e)
      | (Some (Err (HttpPermanent status excerpt)), e) =>
        let reason := bstr "http " ++ status_display status ++ bstr " (ndjson batch): " ++ excerpt in
        (Answered (Ok (mkCommitResult [] (dead_lettered ++ map (λ r, (r, reason)) framable))), e)
      | (Some (Err err), e) => (Answered (Err err), e)
      | (None, e) => (Silent, e)
      end
    end
  end.

(** [commit]. *)
Definition http_commit (c : HttpSinkConfig) (b : SinkBatch) (e : HttpEnv) : Call (result CommitResult HttpSinkError) * HttpEnv :=
  match hc_batch_mode c with
  | PerRecord => commit_per_record c (sb_records b) (sb_record_ids b) e
  | NdjsonBatch => commit_ndjson c (sb_records b) (sb_dedup_token b) e
  end.

(** [probe_health]. *)
Definition http_probe_health (c : HttpSinkConfig) (e : HttpEnv) : Call SinkHealth * HttpEnv :=
  let '(f, e) := http_start (mkHttpRequest (bstr "HEAD") (hc_url c) [] []) e in
  match f with
  | HttpPending _ => (Silent, e)
  | HttpFails text _ => (Answered (Down (bstr "HEAD failed: " ++ redact_url_password text)), e)
  | HttpReplies r _ =>
    let status := rp_status r in
    let returned := bstr "HEAD returned " ++ status_display status in
    (Answered (
      if is_success status || is_redirection status then Healthy
      else if (status =? 401) || (status =? 403) || (status =? 405) || (status =? 501) then Healthy
      else if is_client_error status then Degraded returned
      else Down returned), e)
  end.

Definition http_answer (r : Call (result CommitResult HttpSinkError)) : Call (result CommitResult SinkError) :=
  match r with Answered r => Answered (map_err http_sink_error r) | Silent => Silent | Panicked => Panicked end.

(** The sink behind the drain's interface. *)
Definition http_sink : Sink := {|
  sink_state := HttpSinkConfig * HttpEnv;
  max_batch_size s := hc_max_batch_size (fst s);
  commit b s := let '(r, e) := http_commit (fst s) b (snd s) in (http_answer r, (fst s, e));
  health s := let '(r, e) := http_probe_health (fst s) (snd s) in (r, (fst s, e));
|}.
End Http.
