(* ===== verification/HttpEndpoint.v ===== *)
(** * The endpoint of the HTTP sink

    What the HTTP sink promises to an endpoint that keeps one request per
    [Idempotency-Key], as its documentation asks of one: in per-record mode every
    committed record is kept with its own bytes, in whatever order the requests in flight
    arrive and however often they are repeated. An NDJSON body reads back as the records
    that were committed; its key is a hash of the bytes alone. *)

From Stdlib Require Import ZArith Lia Strings.Byte String.
From stdpp Require Import base gmap list option sets.
From S2P Require Import Prelude Deps Text Names Sink Account Sent S3Key S3 Archive Redact RecordIds SqlTable Http.

(** ** The endpoint *)

(** The key of a POST. *)
Definition key_header (r : HttpRequest) : option bytes :=
  if bool_decide (hr_method r = bstr "POST")
  then snd <$> List.find (λ h, bool_decide (fst h = bstr "Idempotency-Key")) (hr_headers r) else None.

(** An endpoint that deduplicates by key: of the requests in the order of their arrival,
    the first of each key is kept. *)
Fixpoint endpoint_keeps (arrived : list HttpRequest) : gmap bytes bytes :=
  match arrived with
  | [] => ∅
  | r :: arrived =>
    match key_header r with
    | Some k => <[k := hr_body r]> (endpoint_keeps arrived)
    | None => endpoint_keeps arrived
    end
  end.

Section Loop.
Context {SHA : Sha256} {LIB : HttpLib}.

(** ** The loop *)

(** A request that is started is taken or not, and taken when it succeeds. *)
Lemma post_record_spec c x e r e' : post_record c x e = (r, e') →
  (he_taken e' = he_taken e ∨ he_taken e' = he_taken e ++ [record_request c x]) ∧
  (r = Some (Ok tt) → he_taken e' = he_taken e ++ [record_request c x]).
Proof.
  unfold post_record, send_and_classify, http_start. intros [= <- <-]. cbn.
  set (f := default (HttpPending false) (head (he_script e))). split.
  - destruct (request_taken f); [by right|left; by rewrite app_nil_r].
  - intros H. assert (T : request_taken f = true); [|by rewrite T]. destruct f as [r taken| |]; try done. cbn in H |- *.
    destruct (is_success (rp_status r)); [done|]. destruct (is_redirection _); [done|]. by destruct (classify_status_transient _).
Qed.

(** What is sent of a list of records. *)
Definition sends (c : HttpSinkConfig) (xs : list (bytes * option bytes)) (e e' : HttpEnv) : Prop :=
  ∃ new, he_taken e' = he_taken e ++ new ∧ Forall (λ r, ∃ x, x ∈ xs ∧ r = record_request c x) new.

Lemma sends_refl c xs e : sends c xs e e.
Proof. exists []. by rewrite app_nil_r. Qed.

Lemma sends_trans c xs e1 e2 e3 : sends c xs e1 e2 → sends c xs e2 e3 → sends c xs e1 e3.
Proof.
  intros (n1 & H1 & F1) (n2 & H2 & F2). exists (n1 ++ n2). rewrite H2, H1, app_assoc. split; [done|]. by apply Forall_app.
Qed.

Lemma sends_mono c xs ys e e' : xs ⊆ ys → sends c xs e e' → sends c ys e e'.
Proof.
  intros H (n & H1 & F). exists n. split; [done|]. eapply list.Forall_impl; [exact F|]. intros r (x & Hx & ->). eauto.
Qed.

Lemma post_record_sends c x e r e' : post_record c x e = (r, e') → sends c [x] e e'.
Proof.
  intros H. apply post_record_spec in H as [[E|E] _].
  - exists []. by rewrite app_nil_r.
  - exists [record_request c x]. split; [done|]. constructor; [|constructor]. exists x. split; [by left|done].
Qed.

Lemma start_more_sends c xs e : sends c xs e (start_more c xs e).
Proof.
  unfold start_more. revert e. induction xs as [|x xs IH]; intros e; [apply sends_refl|]. cbn [foldl].
  destruct (post_record c x e) as [r e1] eqn:E. cbn [snd]. eapply sends_trans; [eapply sends_mono; [|by eapply post_record_sends]; set_solver|].
  eapply sends_mono; [|apply IH]. set_solver.
Qed.

(** A split of the batch, both parts in batch order. *)
Definition splits (keyed committed : list (bytes * option bytes)) (dead : list ((bytes * option bytes) * bytes)) : Prop :=
  committed `sublist_of` keyed ∧ map fst dead `sublist_of` keyed ∧ keyed ≡ₚ committed ++ map fst dead.

Lemma per_record_loop_spec c keyed cm dl e r e' :
  per_record_loop c keyed cm dl e = (r, e') →
  sends c keyed e e' ∧
  ∀ cr, r = Answered (Ok cr) → ∃ ck dk, splits keyed ck dk ∧
    cr_committed cr = cm ++ map fst ck ∧ cr_dead_lettered cr = dl ++ map (λ d, (fst (fst d), snd d)) dk ∧
    Forall (λ x, record_request c x ∈ he_taken e') ck.
Proof.
  revert cm dl e. induction keyed as [|x keyed IH]; intros cm dl e H; cbn [per_record_loop] in H.
  { injection H as <- <-. split; [apply sends_refl|]. intros cr [= <-]. exists [], []. cbn. rewrite !app_nil_r. by repeat split. }
  destruct (post_record c x e) as [o e1] eqn:E. pose proof (post_record_sends _ _ _ _ _ E) as S1.
  pose proof (proj2 (post_record_spec _ _ _ _ _ E)) as T.
  assert (Hx : sends c (x :: keyed) e e1) by (eapply sends_mono; [|exact S1]; set_solver).
  assert (Hk : ∀ ea eb, sends c keyed ea eb → sends c (x :: keyed) ea eb) by (intros; eapply sends_mono; [|done]; set_solver).
  assert (Hm : ∀ n, sends c (x :: keyed) e1 (start_more c (take n keyed) e1)).
  { intros n. eapply Hk, sends_mono; [|apply start_more_sends]. apply subseteq_take. }
  destruct o as [[[]|[t|s ra|status ex]]|]; try (injection H as <- <-; split; [by eapply sends_trans|done]).
  - destruct (IH _ _ _ H) as [S2 P]. split; [eapply sends_trans; [done|by apply Hk]|].
    intros cr Hr. destruct (P cr Hr) as (ck & dk & (L1 & L2 & L3) & E1 & E2 & F). exists (x :: ck), dk. split; [split_and!|].
    + by apply sublist_skip.
    + by apply sublist_cons.
    + cbn. by rewrite L3.
    + split; [by rewrite E1, <-app_assoc|]. split; [done|]. constructor; [|done].
      destruct S2 as (new & -> & _). rewrite (T eq_refl). set_solver.
  - destruct (IH _ _ _ H) as [S2 P]. split; [eapply sends_trans; [done|by apply Hk]|].
    intros cr Hr. destruct (P cr Hr) as (ck & dk & (L1 & L2 & L3) & E1 & E2 & F).
    exists ck, ((x, bstr "http " ++ status_display status ++ bstr ": " ++ ex) :: dk). split; [split_and!|].
    + by apply sublist_cons.
    + by apply sublist_skip.
    + cbn [map fst]. by rewrite L3, Permutation_middle.
    + split; [done|]. split; [by rewrite E2, <-app_assoc|done].
Qed.

(** ** NDJSON *)

Lemma framable_line r : record_is_unframable r = false → x0a ∉ r.
Proof.
  unfold record_is_unframable. intros H Hin. assert (T : existsb (λ b, bool_decide (b = x0a ∨ b = x0d)) r = true); [|congruence].
  apply existsb_exists. exists x0a. split; [by apply list_elem_of_In|by apply bool_decide_true; left].
Qed.

(** The body reads back as the records it was made of. *)
Lemma ndjson_body_lines framable : Forall (λ r, record_is_unframable r = false) framable → ndjson_lines (ndjson_body framable) = framable.
Proof.
  intros F. unfold ndjson_lines, ndjson_body.
  assert (E : split x0a (concat (map (λ r, r ++ [x0a]) framable)) = framable ++ [[]]).
  { induction F as [|r l Hr F IH]; [done|]. cbn [map concat]. rewrite <-app_assoc. rewrite split_line by by apply framable_line.
    by rewrite IH. }
  rewrite E. apply removelast_last.
Qed.

(** A committed NDJSON batch was taken as one request, under the batch's token, whose
    lines are the committed records; the others were dead-lettered for a newline. *)
Lemma ndjson_commit_lines c batch token e cr e' :
  commit_ndjson c batch token e = (Answered (Ok cr), e') → cr_committed cr ≠ [] →
  ndjson_lines (ndjson_body (cr_committed cr)) = cr_committed cr ∧
  batch_request c (ndjson_body (cr_committed cr)) token ∈ he_taken e' ∧
  batch ≡ₚ cr_committed cr ++ map fst (cr_dead_lettered cr).
Proof.
  intros H Hne. unfold commit_ndjson in H. destruct batch as [|b0 bs] eqn:Eb; [by injection H as <- <-|]. rewrite <-Eb in *. clear Eb.
  set (fr := List.filter (λ r, negb (record_is_unframable r)) batch) in *. set (un := List.filter record_is_unframable batch) in *.
  assert (Ff : Forall (λ r, record_is_unframable r = false) fr).
  { apply list.Forall_forall. intros r Hr. apply list_elem_of_In, filter_In in Hr as [_ Hr]. by apply negb_true_iff. }
  assert (P : batch ≡ₚ fr ++ un).
  { unfold fr, un. clear. induction batch as [|r l IH]; [done|]. cbn. destruct (record_is_unframable r); cbn; [rewrite <-Permutation_middle|]; by rewrite <-IH. }
  destruct fr as [|f0 fs] eqn:Ef; [by injection H as <- <-|]. rewrite <-Ef in *.
  unfold send_and_classify, http_start in H. set (fate := default (HttpPending false) (head (he_script e))) in *.
  destruct (classify_fate fate) as [[[]|[t|s ra|s x]]|] eqn:Ec; injection H as H1 H2; try done.
  - rewrite <-H1, <-H2. cbn. split; [by apply ndjson_body_lines|]. split.
    + assert (T : request_taken fate = true); [|by rewrite T; set_solver].
      destruct fate as [r taken| |]; cbn in Ec |- *; [|done..]. destruct (is_success (rp_status r)); [done|].
      destruct (is_redirection _); [done|]. by destruct (classify_status_transient _).
    + rewrite map_map. cbn. by rewrite map_id.
  - rewrite <-H1 in Hne. done.
Qed.
End Loop.

Section Endpoint.
Context {SHA : Sha256} {LIB : HttpLib} (segs : bytes → list bytes) (N : no_collision segs).

(** ** Requests *)

(** A request under the key of a record carries that record. *)
Definition genuine_log (l : list HttpRequest) : Prop :=
  ∀ r s i p, r ∈ l → Rec segs s i p → key_header r = Some (to_prefixed_hex (for_record s i p)) → hr_body r = p.

Lemma endpoint_keeps_genuine l s i p :
  genuine_log l → Rec segs s i p → (∃ r, r ∈ l ∧ key_header r = Some (to_prefixed_hex (for_record s i p))) →
  endpoint_keeps l !! to_prefixed_hex (for_record s i p) = Some p.
Proof.
  intros G R. induction l as [|r l IH]; intros (r' & Hr & Hk); [by apply not_elem_of_nil in Hr|]. cbn.
  assert (G' : genuine_log l) by (intros x s' i' p' Hx; apply (G x); by right).
  destruct (key_header r) as [k|] eqn:Ek.
  - destruct (decide (k = to_prefixed_hex (for_record s i p))) as [->|Hne].
    + rewrite lookup_insert_eq. f_equal. apply (G r s i p); [by left|done|done].
    + rewrite lookup_insert_ne by done. apply IH; [done|]. exists r'. split; [|done].
      apply elem_of_cons in Hr as [->|Hr]; [congruence|done].
  - apply IH; [done|]. exists r'. split; [|done]. apply elem_of_cons in Hr as [->|Hr]; [congruence|done].
Qed.

Lemma record_request_key c x : hc_send_idempotency_key c = true →
  key_header (record_request c x) =
    Some (match snd x with Some id => to_prefixed_hex id | None => payload_idempotency_key (fst x) end) ∧
  hr_body (record_request c x) = fst x.
Proof.
  intros H. unfold key_header, record_request, post_request. cbn. rewrite H.
  by destruct (hc_bearer_token c).
Qed.

Lemma prefixed_inj h h' : to_prefixed_hex h = to_prefixed_hex h' → h = h'.
Proof. intros H. apply app_inv_head in H. by apply to_hex_inj. Qed.

(** ** Per record *)

Lemma keyed_drained b x : from_segments segs b → x ∈ keyed_records (sb_records b) (sb_record_ids b) →
  ∃ s i, Rec segs s i (fst x) ∧ snd x = Some (for_record s i (fst x)).
Proof.
  intros Hb Hx. destruct (batch_ids segs b Hb) as (ids & E & Hl & H). rewrite E in Hx. cbn in Hx.
  destruct x as [p o]. apply list_elem_of_lookup in Hx as [k Hk]. apply lookup_zip_Some in Hk as [Hp Hi]. cbn in *. destruct (H k p Hp) as (s & i & R & Hid). exists s, i. split; [done|].
  rewrite list_lookup_fmap, Hid in Hi. by injection Hi as <-.
Qed.

Section PerRecord.
Context (c : HttpSinkConfig) (Hmode : hc_batch_mode c = PerRecord) (Hkey : hc_send_idempotency_key c = true).

Lemma genuine_sends b e e' : from_segments segs b →
  sends c (keyed_records (sb_records b) (sb_record_ids b)) e e' → genuine_log (he_taken e) →
  genuine_log (he_taken e') ∧ he_taken e ⊆ he_taken e'.
Proof.
  intros Hb (new & E & F) G. rewrite E. split; [|set_solver]. intros r s i p Hr R Hk.
  apply elem_of_app in Hr as [Hr|Hr]; [by apply (G r s i)|].
  rewrite list.Forall_forall in F. destruct (F r Hr) as (x & Hx & ->).
  destruct (keyed_drained b x Hb Hx) as (s' & i' & R' & Ex). destruct (record_request_key c x Hkey) as [K B].
  rewrite B. rewrite K, Ex in Hk. apply (inj Some), prefixed_inj in Hk.
  by destruct (one_record segs _ _ _ _ _ _ N R' R Hk) as (_ & _ & ->).
Qed.

Lemma http_commit_sends b e r e' : http_commit c b e = (r, e') → sends c (keyed_records (sb_records b) (sb_record_ids b)) e e'.
Proof. unfold http_commit. rewrite Hmode. intros H. by apply per_record_loop_spec in H as [S _]. Qed.

Lemma after_step_genuine st s : fst st = c → step_drained segs s → genuine_log (he_taken (snd st)) →
  let st' := after_step (H := http_sink) st s in
  fst st' = c ∧ genuine_log (he_taken (snd st')) ∧ he_taken (snd st) ⊆ he_taken (snd st').
Proof.
  destruct st as [c' e]. cbn [fst snd]. intros -> Hs G. destruct s as [b|]; cbn [after_step commit health http_sink fst snd].
  - destruct (http_commit c b e) as [r e'] eqn:E. cbn [fst snd]. split; [done|]. eapply genuine_sends; [exact Hs|by eapply http_commit_sends|done].
  - unfold http_probe_health, http_start. set (f := default _ _).
    assert (P : ∀ l, genuine_log (he_taken e ++ (if request_taken f then [mkHttpRequest (bstr "HEAD") (hc_url c) [] []] else [])) ∧ he_taken e ⊆ he_taken e ++ l).
    { intros l. split; [|set_solver]. intros r s i p Hr R Hk. apply elem_of_app in Hr as [Hr|Hr]; [by apply (G r s i)|].
      destruct (request_taken f); [|by apply not_elem_of_nil in Hr]. apply list_elem_of_singleton in Hr as ->. done. }
    split; [by destruct f|]. split; destruct f; first [exact (proj1 (P []))|exact (proj2 (P _))].
Qed.

Lemma steps_genuine later st : fst st = c → Forall (step_drained segs) later → genuine_log (he_taken (snd st)) →
  let st' := foldl (after_step (H := http_sink)) st later in
  genuine_log (he_taken (snd st')) ∧ he_taken (snd st) ⊆ he_taken (snd st').
Proof.
  intros Hc F. revert st Hc. induction F as [|s later Hs F IH]; intros st Hc G; [done|]. cbn [foldl].
  destruct (after_step_genuine st s Hc Hs G) as (C1 & G1 & M1). destruct (IH _ C1 G1) as [G2 M2]. split; [done|]. by etrans.
Qed.

(** C16: the endpoint of the HTTP sink. In per-record mode, with its keys on, the sink is
    asked to commit a batch of the drain and answers [Ok]: the batch is split, in batch
    order, into committed and dead-lettered records, none lost and none twice. Whatever is
    committed, retried, replayed and probed afterwards, and in whatever order the
    requests that the endpoint took arrive there, an endpoint that keeps the first request
    of each [Idempotency-Key] holds every committed record under its own key with its own
    bytes: a success is answered only for a record the endpoint has, and no retry, and no
    other record with the same bytes, takes its key. *)
Theorem http_endpoint_keeps_records b e cr st' later :
  genuine_log (he_taken e) → from_segments segs b → Forall (step_drained segs) later →
  commit (Sink := http_sink) b (c, e) = (Answered (Ok cr), st') →
  ∃ ck dk, splits (keyed_records (sb_records b) (sb_record_ids b)) ck dk ∧
    cr = mkCommitResult (map fst ck) (map (λ d, (fst (fst d), snd d)) dk) ∧
    ∀ arrived, arrived ≡ₚ he_taken (snd (foldl (after_step (H := http_sink)) st' later)) →
      Forall (λ x, ∃ id, snd x = Some id ∧ endpoint_keeps arrived !! to_prefixed_hex id = Some (fst x)) ck.
Proof.
  intros G Hb F H. cbn [commit http_sink fst snd] in H. destruct (http_commit c b e) as [r e'] eqn:E. injection H as H <-.
  destruct (genuine_sends b e e' Hb (http_commit_sends _ _ _ _ E) G) as [G' _].
  unfold http_commit in E. rewrite Hmode in E. apply per_record_loop_spec in E as [_ P].
  destruct r as [[cr'|err]| |]; try done. injection H as ->. destruct (P cr eq_refl) as (ck & dk & Hsp & E1 & E2 & T).
  exists ck, dk. split; [done|]. split; [by destruct cr; cbn in E1, E2; rewrite E1, E2|]. intros arrived Ha.
  destruct (steps_genuine later (c, e') eq_refl F G') as [G2 M2]. cbn [snd] in M2.
  assert (Ga : genuine_log arrived) by (intros x s i p Hx; apply G2; by rewrite <-Ha).
  apply list.Forall_forall. intros x Hx. destruct Hsp as (L1 & _ & _).
  assert (Hin : x ∈ keyed_records (sb_records b) (sb_record_ids b)) by (by eapply elem_of_sublist).
  destruct (keyed_drained b x Hb Hin) as (s & i & R & Ex). exists (for_record s i (fst x)). split; [done|].
  apply endpoint_keeps_genuine; [done|done|]. exists (record_request c x).
  destruct (record_request_key c x Hkey) as [K _]. rewrite K, Ex. split; [|done].
  rewrite Ha. apply M2. rewrite list.Forall_forall in T. by apply T.
Qed.
End PerRecord.

End Endpoint.

(** ** The sink contract *)

Lemma keyed_fst records ids : (length records ≤ length (keyed_records records ids))%nat → map fst (keyed_records records ids) = records.
Proof.
  destruct ids as [ids|]; cbn [keyed_records]; intros H.
  - apply fst_zip. rewrite length_zip in H. lia.
  - rewrite map_map. cbn. apply map_id.
Qed.

Lemma http_contract {SHA : Sha256} {LIB : HttpLib} : SinkContract (H := http_sink).
Proof.
  constructor. intros b [c e] cr st' H Hlen. cbn [commit http_sink fst snd] in H.
  destruct (http_commit c b e) as [r e'] eqn:E. injection H as H _. destruct r as [[cr'|err]| |]; try done. injection H as ->.
  unfold http_commit in E. destruct (hc_batch_mode c).
  - apply per_record_loop_spec in E as [_ P]. destruct (P cr eq_refl) as (ck & dk & (_ & _ & L) & E1 & E2 & _).
    cbn [app] in E1, E2. rewrite E1, E2 in *. rewrite map_map in *. cbn in *. rewrite <-(map_map fst fst) in *.
    rewrite <-map_app. rewrite <-(fmap_Permutation fst _ _ L). unfold blen in Hlen. rewrite !length_map in Hlen.
    apply Permutation_length in L. rewrite length_app, length_map in L. rewrite keyed_fst by lia. done.
  - destruct (cr_committed cr) as [|r0 rs] eqn:Ec.
    + unfold commit_ndjson in E. destruct (sb_records b) as [|b0 bs] eqn:Eb; [injection E as <- _; done|]. rewrite <-Eb in *.
      set (fr := List.filter (λ r, negb (record_is_unframable r)) (sb_records b)) in *.
      set (un := List.filter record_is_unframable (sb_records b)) in *.
      assert (P : sb_records b ≡ₚ un ++ fr).
      { unfold fr, un. clear. induction (sb_records b) as [|r l IH]; [done|]. cbn.
        destruct (record_is_unframable r); cbn; [|rewrite <-Permutation_middle]; by rewrite <-IH. }
      destruct fr as [|f0 fs] eqn:Ef.
      { injection E as <- _. cbn. rewrite map_map, map_id. by rewrite app_nil_r in P. }
      rewrite <-Ef in *. destruct (send_and_classify _ e) as [[[[]|[t|s ra|s x]]|] e1]; try done; injection E as <- _.
      * cbn in Ec. by rewrite Ec in Ef.
      * cbn. rewrite map_app, !map_map, !map_id. done.
    + destruct (ndjson_commit_lines _ _ _ _ _ _ E) as (_ & _ & P); [by rewrite Ec|]. by rewrite Ec in P.
Qed.

(** Records and an endpoint, with requests that fail and are taken all the same. *)
Module EndpointWitness.
Import SqlWitness.
#[local] Existing Instance plain_hash.
#[local] Instance lib : HttpLib := {| status_display := dec; url_parse_error _ := None; client_build_error := None |}.

Definition http_cfg (mode : HttpBatchMode) : HttpSinkConfig :=
  mkHttpSinkConfig (bstr "https://ingest/v1") (5 * 10 ^ 9) 100 mode (Some (bstr "secret")) true 2.
Definition reply (status : Z) : HttpFate := HttpReplies (mkHttpReply status None (Some (bstr " 7 ")) [bstr "no"; bstr "pe"]) false.
(** One success, one refusal; later a success, a lost answer, a rate limit. *)
Definition fates : list HttpFate := [reply 200; reply 404; reply 201; HttpFails (bstr "reset") true; reply 429; reply 200].
Definition answered : CommitResult := mkCommitResult [bstr "tick"] [(bstr "tick", bstr "http 404: nope")].
Definition started : HttpSinkConfig * HttpEnv := (http_cfg PerRecord, mkHttpEnv fates []).

Lemma first_answer :
  commit (Sink := http_sink) (batch 0 2) started = (Answered (Ok answered), snd (commit (Sink := http_sink) (batch 0 2) started)).
Proof.
  assert (E : fst (commit (Sink := http_sink) (batch 0 2) started) = Answered (Ok answered)) by (vm_compute; reflexivity).
  rewrite <-E. apply surjective_pairing.
Qed.

Lemma http_endpoint_keeps_records_witness :
  ∃ ck dk, splits (keyed_records (sb_records (batch 0 2)) (sb_record_ids (batch 0 2))) ck dk ∧
    answered = mkCommitResult (map fst ck) (map (λ d, (fst (fst d), snd d)) dk) ∧
    ∀ arrived, arrived ≡ₚ he_taken (snd (foldl (after_step (H := http_sink)) (snd (commit (Sink := http_sink) (batch 0 2) started)) later)) →
      Forall (λ x, ∃ id, snd x = Some id ∧ endpoint_keeps arrived !! to_prefixed_hex id = Some (fst x)) ck.
Proof.
  apply (http_endpoint_keeps_records segs plain_no_collision (http_cfg PerRecord) eq_refl eq_refl (batch 0 2) (mkHttpEnv fates [])).
  - intros r s i p Hr. by apply not_elem_of_nil in Hr.
  - by apply batch_from.
  - exact later_drained.
  - exact first_answer.
Defined.

(** The hint of a rate limit, and the requests behind it that were in flight. *)
Example retry_hint :
  let '(r, st) := commit (Sink := http_sink) (batch 0 3) (http_cfg PerRecord, mkHttpEnv [reply 200; reply 429; HttpFails [] true] []) in
  (r, length (he_taken (snd st))) = (Answered (Err (mkSinkError true (Some (7 * 10 ^ 9)))), 2%nat).
Proof. vm_compute. reflexivity. Qed.

(** In NDJSON mode the key hashes the bytes of the batch and not its coordinate: two
    batches of different records with the same bytes are both committed, and an endpoint
    that deduplicates by key keeps one of them. *)
Example ndjson_repeat_is_dropped :
  let '(r1, st1) := commit (Sink := http_sink) (batch 0 1) (http_cfg NdjsonBatch, mkHttpEnv [reply 200; reply 200] []) in
  let '(r2, st2) := commit (Sink := http_sink) (batch 1 1) st1 in
  (r1, r2, length (he_taken (snd st2)), size (endpoint_keeps (he_taken (snd st2)))) =
  (Answered (Ok (mkCommitResult [bstr "tick"] [])), Answered (Ok (mkCommitResult [bstr "tick"] [])), 2%nat, 1%nat).
Proof. vm_compute. reflexivity. Qed.
End EndpointWitness.
