(* ===== verification/ClickHouse.v ===== *)
(** * The ClickHouse sink (sink/clickhouse.rs)

    One POST per batch: the records as [RowBinary] in the body, the statement and the
    batch's token in the query. The body reads back as the records, the credentials are
    taken out of the URL, and a batch is committed only on a success. The HTTP client and
    the server are an environment, as in [Http]. *)

From Stdlib Require Import ZArith Lia Strings.Byte String.
From stdpp Require Import base list option.
From S2P Require Import Prelude Deps Text Names Sink S3Key S3 Redact SqlCommon SqlText Http Calendar.

Definition CH_DRIVER : bytes := bstr "clickhouse".
Definition CH_IDENTIFIER_MAX_LEN : Z := 63.

(** ** RowBinary *)

(** [write_leb128]: seven bits a byte, at most ten bytes of a [u64]. *)
Fixpoint leb128_loop (fuel : nat) (n : Z) : bytes :=
  match fuel with
  | O => []
  | S fuel =>
    let low := Z.land n 0x7f in
    let n := Z.shiftr n 7 in
    if n =? 0 then [z2b low] else z2b (Z.lor low 0x80) :: leb128_loop fuel n
  end.
Definition write_leb128 (n : Z) : bytes := leb128_loop 10 n.

(** [encode_rowbinary]. *)
Definition encode_rowbinary (batch : list bytes) : bytes := concat (map (λ p, write_leb128 (blen p) ++ p) batch).

(** How ClickHouse documents the reading of a [String] column: a length, then its bytes. *)
Fixpoint read_leb128 (fuel : nat) (l : bytes) : option (Z * bytes) :=
  match fuel, l with
  | S fuel, b :: l =>
    if b2z b <? 128 then Some (b2z b, l)
    else '(n, l) ← read_leb128 fuel l; Some (b2z b - 128 + 128 * n, l)
  | _, _ => None
  end.
Fixpoint read_rowbinary (fuel : nat) (l : bytes) : option (list bytes) :=
  match l with
  | [] => Some []
  | _ =>
    match fuel with
    | O => None
    | S fuel =>
      '(n, l) ← read_leb128 10 l;
      '(p, l) ← read_exact n l;
      ps ← read_rowbinary fuel l;
      Some (p :: ps)
    end
  end.
Definition decode_rowbinary (l : bytes) : option (list bytes) := read_rowbinary (length l) l.

(** How the server reads an [INSERT] whose rows are in the body: the database, the table,
    the column and the format they are in. *)
Record ChInsert := mkChInsert { ci_database : bytes; ci_table : bytes; ci_column : bytes; ci_format : bytes }.

Fixpoint span_word (l : bytes) : bytes * bytes :=
  match l with
  | [] => ([], [])
  | b :: l' => if is_word b then let '(w, rest) := span_word l' in (b :: w, rest) else ([], l)
  end.
Definition bare_word (l : bytes) : option (bytes * bytes) :=
  match span_word l with ([], _) => None | x => Some x end.

Definition read_ch_insert (sql : bytes) : option ChInsert :=
  l ← strip_prefix (bstr "INSERT INTO ") sql;
  '(database, l) ← bare_word l;
  l ← strip_prefix (bstr ".") l;
  '(table, l) ← bare_word l;
  l ← strip_prefix (bstr " (") l;
  '(column, l) ← bare_word l;
  l ← strip_prefix (bstr ") FORMAT ") l;
  '(format, l) ← bare_word l;
  match l with [] => Some (mkChInsert database table column format) | _ => None end.

(** ** Configuration *)

Record ClickHouseSinkConfig := mkClickHouseSinkConfig {
  ch_url : bytes;
  ch_database : bytes;
  ch_table : bytes;
  ch_column : bytes;
  ch_max_batch_size : Z;
  ch_timeout : Z;
}.

Inductive ClickHouseSinkBuildError :=
| ChEmptyUrl
| ChInvalidUrl (e : bytes)
| ChInvalidIdentifier (field value : bytes)
| ChClient (e : bytes).

Definition ch_from_identifier (e : InvalidIdentifier) : ClickHouseSinkBuildError := ChInvalidIdentifier (ii_field e) (ii_value e).

Record ClickHouseSink := mkClickHouseSink {
  chs_config : ClickHouseSinkConfig;
  chs_base_url : bytes;
  chs_credentials : option (bytes * bytes);
}.

(** [char::to_digit(16)] of a byte. *)
Definition hex_value (b : byte) : option Z :=
  if in_range 0x30 0x39 b then Some (b2z b - 0x30)
  else if in_range 0x61 0x66 b then Some (b2z b - 0x61 + 10)
  else if in_range 0x41 0x46 b then Some (b2z b - 0x41 + 10)
  else None.

(** [percent_decode]. *)
Fixpoint percent_decode_loop (l : bytes) : bytes :=
  match l with
  | [] => []
  | b :: l1 =>
    match l1 with
    | c :: d :: l2 =>
      if bool_decide (b = x25) then
        match hex_value c, hex_value d with
        | Some h, Some lo => z2b (h * 16 + lo) :: percent_decode_loop l2
        | _, _ => b :: percent_decode_loop l1
        end
      else b :: percent_decode_loop l1
    | _ => b :: percent_decode_loop l1
    end
  end.
Definition percent_decode (s : bytes) : bytes := to_string_lossy (percent_decode_loop s).

(** [split_credentials]. *)
Definition split_credentials (url : bytes) : bytes * option (bytes * bytes) :=
  match find_sub (bstr "://") url with
  | Some scheme_end =>
    let rest := drop (scheme_end + 3) url in
    let authority_end := default (length rest) (find_any ends_authority rest) in
    match rfind_byte x40 (take authority_end rest) with
    | Some at_ =>
      let creds := take at_ rest in
      let '(user_raw, pass_raw) :=
        match find_byte x3a creds with
        | Some colon => (take colon creds, drop (colon + 1) creds)
        | None => (creds, [])
        end in
      (take scheme_end url ++ bstr "://" ++ drop (at_ + 1) rest, Some (percent_decode user_raw, percent_decode pass_raw))
    | None => (url, None)
    end
  | None => (url, None)
  end.

(** ** Requests *)

(** A request by the parts the sink sets; the client encodes the query. *)
Record ChRequest := mkChRequest {
  cq_method : bytes;
  cq_url : bytes;
  cq_query : list (bytes * bytes);
  cq_auth : option (bytes * bytes);
  cq_body : bytes;
}.

(** How a request fares: the sink's own timeout elapses, or the client fails, with its own
    timeout or otherwise, or the server answers, or the drain gives the commit up. *)
Inductive ChFate :=
| ChReplies (r : HttpReply) (taken : bool)
| ChTimedOut (taken : bool)
| ChFails (error : bytes) (is_timeout taken : bool)
| ChPending (taken : bool).
Definition ch_taken (f : ChFate) : bool :=
  match f with
  | ChReplies r taken => is_success (rp_status r) || taken
  | ChTimedOut taken | ChFails _ _ taken | ChPending taken => taken
  end.
(** The script of how the requests fare, the requests that were sent and, of these, the
    ones that the server processed. *)
Record ChEnv := mkChEnv { ce_script : list ChFate; ce_sent : list ChRequest; ce_taken : list ChRequest }.

Definition ch_send (req : ChRequest) (e : ChEnv) : ChFate * ChEnv :=
  let f := default (ChPending false) (head (ce_script e)) in
  (f, mkChEnv (tail (ce_script e)) (ce_sent e ++ [req]) (ce_taken e ++ (if ch_taken f then [req] else []))).

(** [status_is_transient]. *)
Definition status_is_transient (status : Z) : bool := is_server_error status || (status =? 408) || (status =? 429).

Section ClickHouse.
Context {LIB : HttpLib} (url_scheme : bytes → bytes).

(** [ClickHouseSink::new]; [url_scheme] is the scheme of a URL that parses. *)
Definition ch_new (c : ClickHouseSinkConfig) : result ClickHouseSink ClickHouseSinkBuildError :=
  match ch_url c with
  | [] => Err ChEmptyUrl
  | _ =>
    let? _ := map_err ch_from_identifier (validate_identifier (bstr "database") (ch_database c) CH_IDENTIFIER_MAX_LEN) in
    let? _ := map_err ch_from_identifier (validate_identifier (bstr "table") (ch_table c) CH_IDENTIFIER_MAX_LEN) in
    let? _ := map_err ch_from_identifier (validate_identifier (bstr "column") (ch_column c) CH_IDENTIFIER_MAX_LEN) in
    let '(base_url, credentials) := split_credentials (ch_url c) in
    match url_parse_error base_url with
    | Some e => Err (ChInvalidUrl (e ++ bstr " (in " ++ redact_url_password (ch_url c) ++ bstr ")"))
    | None =>
      let scheme := url_scheme base_url in
      if bool_decide (scheme = bstr "http" ∨ scheme = bstr "https") then
        match client_build_error with
        | Some e => Err (ChClient e)
        | None => Ok (mkClickHouseSink c base_url credentials)
        end
      else Err (ChInvalidUrl (bstr "scheme '" ++ scheme ++ bstr "' is not http or https (in " ++ base_url ++ bstr ")"))
    end
  end.

(** [insert_query]. *)
Definition insert_query (s : ClickHouseSink) : bytes :=
  let c := chs_config s in
  bstr "INSERT INTO " ++ ch_database c ++ bstr "." ++ ch_table c ++ bstr " (" ++ ch_column c ++ bstr ") FORMAT RowBinary".

(** The request of a batch. *)
Definition ch_request (s : ClickHouseSink) (batch : list bytes) (dedup_token : bytes) : ChRequest :=
  mkChRequest (bstr "POST") (chs_base_url s)
    [(bstr "query", insert_query s); (bstr "insert_deduplication_token", to_hex dedup_token)]
    (chs_credentials s) (encode_rowbinary batch).

(** The answer to a commit. *)
Definition ch_classify (batch : list bytes) (f : ChFate) : Call (result CommitResult SqlSinkError) :=
  match f with
  | ChPending _ => Silent
  | ChTimedOut _ => Answered (Err (SqlTimeout CH_DRIVER))
  | ChFails _ true _ => Answered (Err (SqlTimeout CH_DRIVER))
  | ChFails e false _ => Answered (Err (SqlTransient CH_DRIVER (bstr "request: " ++ e)))
  | ChReplies r _ =>
    let status := rp_status r in
    Answered (
      if is_success status then Ok (mkCommitResult batch [])
      else if is_redirection status then
        let raw_location := default (bstr "<no Location header>") (rp_location r) in
        let location := sanitize_log_excerpt (concat (take 500 (chars raw_location))) in
        Err (SqlPermanent CH_DRIVER
          (bstr "http " ++ status_display status ++ bstr ": unexpected redirect to '" ++ location
           ++ bstr "'; point the sink URL directly at the ClickHouse HTTP endpoint (redirects are not followed)"))
      else if status_is_transient status then Err (SqlTransient CH_DRIVER (bstr "http " ++ status_display status))
      else
        let raw := to_string_lossy (read_body_capped (rp_body r) RESPONSE_BODY_CAP) in
        let detail := sanitize_log_excerpt (concat (take 500 (chars raw))) in
        Err (SqlPermanent CH_DRIVER (bstr "http " ++ status_display status ++ bstr ": " ++ detail)))
  end.

(** [commit]. *)
Definition ch_commit (s : ClickHouseSink) (b : SinkBatch) (e : ChEnv) : Call (result CommitResult SqlSinkError) * ChEnv :=
  match sb_records b with
  | [] => (Answered (Ok (mkCommitResult [] [])), e)
  | batch => let '(f, e) := ch_send (ch_request s batch (sb_dedup_token b)) e in (ch_classify batch f, e)
  end.

(** [health]. *)
Definition ch_health (s : ClickHouseSink) (e : ChEnv) : Call SinkHealth * ChEnv :=
  let req := mkChRequest (bstr "GET") (chs_base_url s) [(bstr "query", bstr "SELECT 1")] (chs_credentials s) [] in
  let '(f, e) := ch_send req e in
  (match f with
   | ChReplies r _ =>
     Answered (if is_success (rp_status r) then Healthy else Down (bstr "http " ++ status_display (rp_status r)))
   | ChTimedOut _ => Answered (Down (bstr "health probe timed out"))
   | ChFails text _ _ => Answered (Down (bstr "request: " ++ text))
   | ChPending _ => Silent
   end, e).

Definition ch_answer (r : Call (result CommitResult SqlSinkError)) : Call (result CommitResult SinkError) :=
  match r with Answered r => Answered (map_err sql_sink_error r) | Silent => Silent | Panicked => Panicked end.

(** The sink behind the drain's interface. *)
Definition ch_sink : Sink := {|
  sink_state := ClickHouseSink * ChEnv;
  max_batch_size s := ch_max_batch_size (chs_config (fst s));
  commit b s := let '(r, e) := ch_commit (fst s) b (snd s) in (ch_answer r, (fst s, e));
  health s := let '(r, e) := ch_health (fst s) (snd s) in (r, (fst s, e));
|}.
End ClickHouse.

(** ** The body *)

Lemma read_leb128_app fuel n l : 0 ≤ n < 128 ^ Z.of_nat fuel → fuel ≠ O →
  read_leb128 fuel (leb128_loop fuel n ++ l) = Some (n, l).
Proof.
  revert n. induction fuel as [|fuel IH]; intros n Hn Hf; [done|]. cbn [leb128_loop].
  rewrite Nat2Z.inj_succ, Z.pow_succ_r in Hn by lia.
  assert (Hl : Z.land n 0x7f = n mod 128) by (change 0x7f with (Z.ones 7); rewrite Z.land_ones by lia; done).
  assert (Hs : Z.shiftr n 7 = n / 128) by (rewrite Z.shiftr_div_pow2 by lia; done).
  rewrite Hl, Hs. pose proof (Z.mod_pos_bound n 128 ltac:(lia)) as Hm. destruct (Z.eqb_spec (n / 128) 0) as [H0|H0].
  - cbn. rewrite b2z_z2b, Z.mod_small by lia. destruct (Z.ltb_spec (n mod 128) 128); [|lia]. do 2 f_equal. dlia.
  - assert (Ho : Z.lor (n mod 128) 0x80 = n mod 128 + 128).
    { assert (L : Z.land (n mod 128) 0x80 = 0).
      { apply Z.bits_inj'. intros k Hk. rewrite Z.land_spec, Z.bits_0. change 0x80 with (2 ^ 7). rewrite Z.pow2_bits_eqb by lia.
        destruct (Z.eqb_spec 7 k) as [<-|]; [|by rewrite andb_false_r]. change 128 with (2 ^ 7). by rewrite Z.mod_pow2_bits_high by lia. }
      by rewrite <-Z.lxor_lor, <-Z.add_nocarry_lxor. }
    rewrite Ho. cbn [app read_leb128]. rewrite b2z_z2b, Z.mod_small by lia.
    destruct (Z.ltb_spec (n mod 128 + 128) 128); [lia|].
    assert (Hq : 0 ≤ n / 128 < 128 ^ Z.of_nat fuel) by (split; [apply Z.div_pos; lia|apply Z.div_lt_upper_bound; lia]).
    rewrite IH; [|done|intros ->; cbn in Hq; lia]. cbn. do 2 f_equal. dlia.
Qed.

Lemma read_rowbinary_app batch fuel :
  Forall (λ p, blen p < 2 ^ 64) batch → (length (encode_rowbinary batch) ≤ fuel)%nat →
  read_rowbinary fuel (encode_rowbinary batch) = Some batch.
Proof.
  intros F. revert fuel. induction F as [|p batch Hp F IH]; intros fuel Hl; [by destruct fuel|].
  unfold encode_rowbinary in *. cbn [map concat] in *. rewrite <-app_assoc in *.
  assert (Hne : write_leb128 (blen p) ≠ []) by (unfold write_leb128; cbn [leb128_loop]; by destruct (Z.shiftr (blen p) 7 =? 0)).
  pose proof (read_leb128_app 10 (blen p) (p ++ concat (map (λ p, write_leb128 (blen p) ++ p) batch))) as R.
  fold (write_leb128 (blen p)) in R. destruct (write_leb128 (blen p)) as [|b w] eqn:Ew; [done|].
  destruct fuel as [|fuel]; [cbn in Hl; lia|]. cbn [app read_rowbinary]. cbn [app] in R. rewrite R; [|pose proof (blen_nonneg p); cbn; lia|done].
  cbn [mbind option_bind]. rewrite read_exact_app by done. cbn [mbind option_bind].
  rewrite IH; [done|]. cbn [app length] in Hl. rewrite !length_app in Hl. lia.
Qed.

(** ** The statement *)

Lemma span_word_app w rest :
  forallb is_word w = true → from_option (λ b, is_word b = false) True (head rest) → span_word (w ++ rest) = (w, rest).
Proof.
  intros Hw Hr. induction w as [|b w IH].
  - destruct rest as [|c rest]; [done|]. cbn in Hr |- *. by rewrite Hr.
  - cbn in Hw. apply andb_true_iff in Hw as [Hb Hw]. cbn. by rewrite Hb, IH.
Qed.

Lemma bare_word_app w rest :
  w ≠ [] → forallb is_word w = true → from_option (λ b, is_word b = false) True (head rest) →
  bare_word (w ++ rest) = Some (w, rest).
Proof. intros Hne Hw Hr. unfold bare_word. rewrite span_word_app by done. by destruct w. Qed.

Lemma validated_bare field value max : validate_identifier field value max = Ok tt → value ≠ [] ∧ forallb is_word value = true.
Proof.
  unfold validate_identifier. destruct value as [|b l]; [done|]. intros H. repeat split_hyp H; try done. split; [done|].
  cbn. apply andb_true_iff. split; [|done]. unfold is_word, is_ascii_alphanumeric.
  match goal with E : negb _ = false |- _ => apply negb_false_iff in E; apply orb_true_iff in E as [->| ->] end; [done|].
  by rewrite orb_true_r.
Qed.

Lemma insert_query_reads {LIB : HttpLib} url_scheme c s :
  ch_new url_scheme c = Ok s →
  read_ch_insert (insert_query s) = Some (mkChInsert (ch_database c) (ch_table c) (ch_column c) (bstr "RowBinary")) ∧
  (chs_base_url s, chs_credentials s) = split_credentials (ch_url c).
Proof.
  unfold ch_new. intros H. destruct (ch_url c) as [|u0 u] eqn:Eu; [done|]. rewrite <-Eu in *.
  destruct (validate_identifier (bstr "database") _ _) as [[]|] eqn:E1; [|done].
  destruct (validate_identifier (bstr "table") _ _) as [[]|] eqn:E2; [|done].
  destruct (validate_identifier (bstr "column") _ _) as [[]|] eqn:E3; [|done]. cbn in H.
  destruct (split_credentials (ch_url c)) as [base creds]. repeat case_match; try done. injection H as <-.
  apply validated_bare in E1 as [N1 W1], E2 as [N2 W2], E3 as [N3 W3]. split; [|done].
  unfold read_ch_insert, insert_query. cbn [chs_config].
  rewrite strip_prefix_app. cbn [mbind option_bind].
  rewrite bare_word_app by done. cbn [mbind option_bind]. rewrite strip_prefix_app. cbn [mbind option_bind].
  rewrite bare_word_app by done. cbn [mbind option_bind]. rewrite strip_prefix_app. cbn [mbind option_bind].
  rewrite bare_word_app by done. cbn [mbind option_bind].
  change (bstr ") FORMAT RowBinary") with (bstr ") FORMAT " ++ bstr "RowBinary"). rewrite strip_prefix_app. done.
Qed.

Lemma ch_classify_ok {LIB : HttpLib} batch f cr : ch_answer (ch_classify batch f) = Answered (Ok cr) →
  cr = mkCommitResult batch [] ∧ ∃ r t, f = ChReplies r t ∧ is_success (rp_status r) = true.
Proof.
  destruct f as [r t|t|x [] t|t]; try discriminate. unfold ch_classify, ch_answer.
  destruct (is_success (rp_status r)) eqn:Es; [cbn [map_err]; intros [= <-]; eauto|].
  destruct (is_redirection (rp_status r)); [discriminate|]. destruct (status_is_transient (rp_status r)); discriminate.
Qed.

(** C20: the insert of the ClickHouse sink. A sink that the configuration opens sends, for
    a commit of a nonempty batch, exactly one request, whatever comes of it: a POST to the
    configured URL without its credentials, which travel apart; its query is the batch's
    token and a statement that the server reads as the insert into the configured
    database, table and column in the format RowBinary; and its body, read as ClickHouse
    reads rows of one [String] column, is exactly the records of the batch, whatever their
    bytes. When the commit is answered [Ok], the server has taken that request, every
    record is committed and none is dead-lettered. *)
Theorem clickhouse_insert_is_batch {LIB : HttpLib} url_scheme c s b e r st' :
  ch_new url_scheme c = Ok s → commit (Sink := ch_sink) b (s, e) = (r, st') →
  sb_records b ≠ [] → Forall (λ p, blen p < 2 ^ 64) (sb_records b) →
  ∃ req sql, ce_sent (snd st') = ce_sent e ++ [req] ∧
    cq_method req = bstr "POST" ∧ (cq_url req, cq_auth req) = split_credentials (ch_url c) ∧
    cq_query req = [(bstr "query", sql); (bstr "insert_deduplication_token", to_hex (sb_dedup_token b))] ∧
    read_ch_insert sql = Some (mkChInsert (ch_database c) (ch_table c) (ch_column c) (bstr "RowBinary")) ∧
    decode_rowbinary (cq_body req) = Some (sb_records b) ∧
    (∀ cr, r = Answered (Ok cr) →
       cr = mkCommitResult (sb_records b) [] ∧ ce_taken (snd st') = ce_taken e ++ [req]).
Proof.
  intros [Hq Hu]%insert_query_reads. cbn [commit ch_sink fst snd]. unfold ch_commit.
  destruct (sb_records b) as [|r0 rs] eqn:Er; [done|]. rewrite <-Er. unfold ch_send.
  set (req := ch_request s (sb_records b) (sb_dedup_token b)). set (f := default _ _). intros H _ F.
  apply pair_equal_spec in H as [<- <-]. exists req, (insert_query s). cbn [snd ce_sent ce_taken]. split_and!; try done.
  - by apply read_rowbinary_app.
  - intros cr [-> (x & t & -> & Hs)]%ch_classify_ok. split; [done|]. cbn. by rewrite Hs.
Qed.

(** The sink contract. *)
Lemma ch_contract {LIB : HttpLib} : SinkContract (H := ch_sink).
Proof.
  constructor. intros b [s e] cr st' H _. cbn [commit ch_sink fst snd] in H. unfold ch_commit in H.
  destruct (sb_records b) as [|r0 rs]; [apply pair_equal_spec in H as [H _]; cbn in H; by injection H as <-|].
  destruct (ch_send _ e) as [f e']. apply pair_equal_spec in H as [H _]. apply ch_classify_ok in H as [-> _]. cbn.
  by rewrite app_nil_r.
Qed.

(** ** Credentials *)

Definition without_userinfo (u : UrlParts) : UrlParts :=
  mkUrlParts (up_scheme u) None (up_host u) (up_path u) (up_query u) (up_fragment u).

(** What is sent as the URL has no user and no password in it; they are sent decoded. *)
Lemma credentials_leave_url u : url_parts_ok u →
  split_credentials (url_text u) =
  (url_text (without_userinfo u),
   (λ i, (percent_decode (ui_user i), percent_decode (default [] (ui_password i)))) <$> up_userinfo u).
Proof.
  intros O. unfold split_credentials.
  assert (Hf : find_sub (bstr "://") (url_text u) = Some (length (up_scheme u)))
    by (apply find_sub_scheme; eapply plain_notin; [apply (uo_scheme u O)|elt]).
  assert (Hd : drop (length (up_scheme u) + 3) (url_text u) = authority_text u ++ tail_text u)
    by (unfold url_text; rewrite drop_app_ge, Nat.add_comm, Nat.add_sub by lia; done).
  assert (Ht : take (length (up_scheme u)) (url_text u) = up_scheme u) by (unfold url_text; apply take_app_length).
  rewrite Hf, Hd, Ht. cbv zeta. rewrite authority_ends by done. rewrite take_app_length.
  assert (Hh : x40 ∉ up_host u) by (eapply plain_notin; [apply (uo_host u O)|elt]).
  pose proof (uo_user u O) as Hu. destruct (up_userinfo u) as [[user pw]|] eqn:Eu; cbn [from_option] in Hu.
  - set (creds := user ++ from_option (λ p, bstr ":" ++ p) [] pw).
    assert (Ea : authority_text u = creds ++ x40 :: up_host u).
    { unfold authority_text, userinfo_text, creds. rewrite Eu. cbn [from_option ui_user ui_password]. rewrite <-!app_assoc. done. }
    rewrite Ea, rfind_byte_at by done. rewrite <-app_assoc, take_app_length.
    replace (drop (length creds + 1) (creds ++ (x40 :: up_host u) ++ tail_text u)) with (up_host u ++ tail_text u)
      by (rewrite drop_app_ge, Nat.add_comm, Nat.add_sub by lia; done).
    assert (Hc : match find_byte x3a creds with Some colon => (take colon creds, drop (colon + 1) creds) | None => (creds, []) end =
      (user, default [] pw)).
    { assert (x3a ∉ user) by (eapply plain_notin; [apply Hu|elt]). unfold creds. destruct pw as [pw|]; cbn [from_option].
      - change (bstr ":" ++ pw) with (x3a :: pw). rewrite find_byte_at by done. rewrite take_app_length.
        by rewrite drop_app_ge, Nat.add_comm, Nat.add_sub by lia.
      - by rewrite app_nil_r, find_byte_none. }
    rewrite Hc. done.
  - assert (Ea : authority_text u = up_host u) by (unfold authority_text; by rewrite Eu).
    rewrite Ea, rfind_byte_none by done. f_equal. unfold url_text, authority_text, tail_text, without_userinfo. cbn [up_scheme up_userinfo up_host up_path up_query up_fragment].
    by rewrite Eu.
Qed.

(** A batch with a newline, an empty record and a long one. *)
Module ClickHouseWitness.
#[local] Instance lib : HttpLib := {| status_display := dec; url_parse_error _ := None; client_build_error := None |}.
Definition ch_cfg : ClickHouseSinkConfig :=
  mkClickHouseSinkConfig (bstr "https://u:p%40ss@ch:8443") (bstr "db") (bstr "t") (bstr "c") 100 5.
Definition ch_opened : ClickHouseSink := mkClickHouseSink ch_cfg (bstr "https://ch:8443") (Some (bstr "u", bstr "p@ss")).
Definition ch_batch : SinkBatch := mkSinkBatch [bstr "a"; []; replicate 300 x0a] (bstr "token") None None.
Definition ch_started : ClickHouseSink * ChEnv :=
  (ch_opened, mkChEnv [ChReplies (mkHttpReply 200 None None []) false] [] []).

Example ch_opened_ok : ch_new (λ _, bstr "https") ch_cfg = Ok ch_opened.
Proof. vm_compute. reflexivity. Qed.

Lemma ch_answered :
  commit (Sink := ch_sink) ch_batch ch_started =
  (Answered (Ok (mkCommitResult (sb_records ch_batch) [])), snd (commit (Sink := ch_sink) ch_batch ch_started)).
Proof. reflexivity. Qed.

Lemma clickhouse_insert_is_batch_witness :
  ∃ req sql, ce_taken (snd (snd (commit (Sink := ch_sink) ch_batch ch_started))) = [req] ∧
    head (cq_query req) = Some (bstr "query", sql) ∧
    read_ch_insert sql = Some (mkChInsert (bstr "db") (bstr "t") (bstr "c") (bstr "RowBinary")) ∧
    decode_rowbinary (cq_body req) = Some (sb_records ch_batch).
Proof.
  destruct (clickhouse_insert_is_batch (λ _, bstr "https") ch_cfg ch_opened ch_batch _ _ _ ch_opened_ok ch_answered)
    as (req & sql & _ & _ & _ & Hq & Hi & Hb & Ht); [done|by repeat constructor|].
  exists req, sql. rewrite Hq. destruct (Ht _ eq_refl) as [_ Hk]. done.
Defined.
End ClickHouseWitness.
